(* ===== verification/_CoqProject ===== *)
-Q . S2P
Prelude.v
PonStats.v
Ring.v
ErtsAlloc.v
PonGc.v
PonGcInv.v
PonGcMark.v
PonGcSweep.v
PonGcCollect.v
PonGcBuild.v
PonGcLife.v
PonGcThms.v
PonEts.v
PonEtsThms.v
Kernel.v
PonTimer.v
PonTimerThms.v
PonCondition.v
PonConditionThms.v
ErlTerm.v
PonPremise.v
PonBifs.v
PonPremiseThms.v
PonBifThms.v
TimerWheel.v
TimerBump.v
TimerRing.v
TimerInv.v
TimerCounts.v
TimerScan.v
TimerOps.v
TimerSet.v
TimerFind.v
TimerMove.v
TimerSteps.v
TimerLoops.v
TimerExpiry.v
TimerThms.v
HashTable.v
HashInv.v
HashRehash.v
HashOps.v
HashThms.v
IndexTable.v
IndexInv.v
IndexThms.v
RecvMarker.v
RecvRing.v
RecvOps.v
RecvThms.v
SigQueue.v
SigInv.v
SigOps.v
SigConcat.v
SigEnqueue.v
SigFlow.v
SigFetch.v
SigRecv.v
SigSend.v
SigMsgs.v
SigSignals.v
SigRun.v
SigOrder.v
SigLog.v
SigThms.v
BigDigit.v
BigVec.v
BigMul.v
BigDiv.v
BigShift.v
BigBz.v
BigBits.v
BigTerm.v
BigOps.v
BigConv.v
ErlArith.v
ExtInt.v
BigThms.v
