(* ===== verification/Prelude.v ===== *)
(** * PON-BEAM verification library

    PON-BEAM is a fork of the Erlang/OTP emulator ([src/otp]) that adds
    notification-oriented mechanisms to the VM: a per-process notification
    collector, premises on messages, a registry of watchers of ETS keys, timers
    and scheduler conditions on top of timerfd, eventfd and epoll, and a timerfd
    behind the timer wheel. This library models those parts, the signal queues
    they hook into, the timer wheel itself, the hash and index tables of the
    emulator, and its integers: the bignum arithmetic (in which the fork divides
    recursively), the operators on integer terms and their external format. All
    of it is C. The library proves that these parts do what they are for. Paths
    below are relative to [src/otp/erts/emulator/beam] ([include/internal] is
    [src/otp/erts/include/internal]).

    ** How the C code is modelled

    - Objects live in explicit stores, finite maps from addresses to records
      with the fields of the C struct; pointers are [option positive], null is
      [None]. A handler is a computation [M St A] over the state (this file):
      [None] stands for undefined behaviour (null or dangling pointer, access
      out of bounds, double free, read of an indeterminate word, signed overflow
      where the value is used) and for exhausted fuel. A theorem that a
      computation [wp]-satisfies its postcondition hence states termination and
      memory safety too.
    - The routines on integers compute from the contents of their operands to
      the contents of their result: a digit vector is the list of its digits, a
      boxed term comes with its words. They are plain functions, with [option]
      where a loop has fuel. Memory that is read before it is written has
      arbitrary content ([tmp_heap]).
    - Integers are [Z] with the wrap-around of their width written out ([u16],
      [s32], [u64], [s64], [wrapu 128]); the build is the 64-bit Linux release
      build (assertions and debug checks off, [PON_BEAM] on).
    - Memory allocation, Linux system calls, the heap factory and the callbacks
      of clients are not code of the repository's parts modelled here: they are
      classes with laws ([Allocator], [Kernel], [HeapFactory], [HashFunctions],
      [ErtsAlloc]), each with a concrete instance that satisfies the laws.
    - Loops over links take as fuel the number of objects in the store; a list
      without repetition is never longer. [BUMP_FUEL] is 1000 turns of the outer
      loop of a time bump, of which a call whose callbacks leave the wheel
      alone takes at most five. [init_shift] tries 63 shifts, beyond which the
      C shift is undefined. The fuel of the integers: the Karatsuba recursion
      gets the length of the longer operand and halves it; the schoolbook
      division gets 2^(64 (2 xl + 1)) turns as a binary number ([loop_pos]), more
      than its decreasing measure allows; the recursive division gets [n] levels
      and halves [n], and two corrections per step; [btrail_mask] gets 64
      rounds, [count_bytes] and [store_last] the 8 bytes of a digit. The
      theorems prove that all of these are enough.

    ** Components

    - Notification collector, [pon_gc.c]: state [gcs] in [PonGc], operations
      [pon_gc_init] to [pon_gc_destroy] under their C names. [PonGcInv] has the
      structural invariant ([graph_wf], [gc_idle]) and reachability; [PonGcMark]
      an abstract marking machine that the mark phase refines; [PonGcSweep] and
      [PonGcCollect] the sweep, the whole collection and incremental marking;
      [PonGcBuild], [PonGcLife] the other operations. [PonGcThms]: a collection
      frees exactly the unreachable objects; slices of marking equal the
      uninterrupted mark; budgets; building, look-up, reset and destruction; and
      the 16-bit overflow and wrong-index defects.
    - Signal queues of a process, [erl_message.h], [erl_message.c],
      [erl_proc_sig_queue.h], [erl_proc_sig_queue.c]: [SigQueue] has the data
      (signals and queues linked through addresses of link fields, type [link])
      and the operations under their C names: senders ([queue_messages],
      [enqueue_signals], [LINK_MESSAGE], the buffers per slot of senders,
      [proc_queue_signal] for signals that are not messages), the fetch into the
      inner or middle queue, the receive operations, and the management of
      on-heap and off-heap messages. [SigInv] describes a queue by the list of
      its signals ([rep]: links, chain of non-message signals, counts), [SigOps]
      all queues of a process ([queues_ok]). [SigConcat], [SigEnqueue],
      [SigFlow], [SigFetch], [SigRecv], [SigSend], [SigMsgs] and [SigSignals]
      have one rule per operation, up to the invariant [sq_inv]. [SigRun] runs
      any sequence of operations of senders, receiver and environment;
      [SigOrder] and [SigLog] compare the queues with the log of what was sent.
      [SigThms]: in every orderly run the signals of a sender stay in order and
      none is lost, signals are flagged, fetch and receive do what they promise;
      when a change to off heap ends out of order, messages overtake.
    - Receive markers, in the same C files: [RecvMarker] has the block of eight
      markers and the operations that touch only it, [SigQueue] those that also
      move markers through the queues. [RecvRing] describes the block by the ring
      of used and the list of free markers (over [Ring], circular lists in
      general), [RecvOps] proves every operation against it. [RecvThms]: the
      check of the debug build never fails, and which marker is reused;
      [SigThms]: when reuse takes a marker that is not in the message queue.
    - Watchers of ETS keys, [pon_ets.c]: [PonEts]; [PonEtsThms]: the chained
      registry refines a set of triples.
    - Timer instigations, [pon_timer.c]: [PonTimer] over the descriptors of
      [Kernel]; [PonTimerThms]: no descriptor leaks, timers fire once.
    - Scheduler conditions, [pon_condition.c]: [PonCondition] has creation and
      destruction over [Kernel], and the lock-free protocol as a step relation
      whose steps are single accesses to shared memory, interleaved arbitrarily
      between any number of notifiers and one consumer, under sequential
      consistency. [PonConditionThms]: no process is lost as long as none is
      notified while it is queued ([exclusive]; otherwise the list can become a
      cycle), a notifier wakes a sleeper, and a reachable lost wakeup.
    - Terms, [erl_term.h]: [ErlTerm], the tagged words and headers that the
      other parts use.
    - Premises, [pon_premise.c]: [PonPremise]; [PonPremiseThms].
    - Built-in functions, the PON part of [bif.c]: [PonBifs] composes terms,
      premises and the collector over one process; [PonBifThms] has their
      effects and their error paths, leaks included.
    - Timer wheel, [time.c] and [erl_time.h]: [TimerWheel] has the data and all
      operations but the time bump, which is [TimerBump]. [TimerRing], [TimerInv]
      and [TimerCounts] hold the invariant (rings, slots, counts), [TimerScan] and
      [TimerFind] the search, [TimerOps] and [TimerSet] setting and cancelling,
      and [TimerMove], [TimerSteps], [TimerLoops], [TimerExpiry] the bump.
      [TimerThms]: waiting timers are a finite map; the next timeout is not late;
      a bump runs exactly what is due; two defects. The parameter [past] of the
      search is the word behind the array of counts, which the C loop can read;
      no result depends on it.
    - Hash tables, [hash.c] and [hash.h]: [HashTable]; [HashInv], [HashRehash]
      and [HashOps] prove every operation against the map from keys to
      addresses; [HashThms]: any sequence of operations refines a finite map,
      and deletion frees all. 2^27 slots (214748364 objects) are the bound below
      which no [int] of a table overflows; [map_peak] is the number of keys that
      the map has at most.
    - Index tables, [index.c] and [index.h]: [IndexTable] calls the hash tables;
      [IndexInv] and [IndexThms]: the table refines a list of distinct entries
      while that is [within] its limit and nothing is erased from behind its end.
      The barriers for lock-free readers are not modelled.
    - Bignums, [big.c] and [big.h]: [BigDigit] has digits, the macros on them and
      the value [dval] of a vector; [BigVec] comparison, sums and differences;
      [BigMul] the schoolbook, squaring and Karatsuba products; [BigDiv] the
      schoolbook division, whose remainder changes sign on the way; [BigBz] the
      recursive division and the choice between the two; [BigShift] shifts;
      [BigBits] the bitwise operations on signed magnitudes. Each file gives its
      definitions under their C names and then the value of every result.
      [BigTerm] has the operations on terms, [BigOps] what they compute, and
      [BigConv] the conversions to machine words and bytes. [int_term z t] states
      that [t] is the term of the integer [z]: a small, or else a bignum without
      leading zeros of at most 65535 digits ([big_limit]).
    - Operators, [erl_arith.c]: [ErlArith] has the functions behind [+], [-], [*],
      [div], [rem], [band], [bor], [bxor], [bnot], [bsl] and [bsr] on integer
      terms; a branch for floats ends in [Do_float].
    - External format of integers, [external.c]: [ExtInt] has the cases of the
      encoder, its size, the check before decoding, and the decoder.
    - [BigThms] has the properties of these three: Karatsuba and the recursive
      division give the digits of the schoolbook algorithms, terms are in
      normal form, the operators are exact or [SYSTEM_LIMIT] or [BADARITH] as they
      should be, except for the one number too large for [band], for which it
      returns the empty list; integers
      survive encoding and decoding, and decoding stays within its bytes.
    - Counters, [include/internal/pon_stats.h]: [PonStats], partly.

    ** Assumptions worth knowing

    The callbacks of a time bump, of a traversal and of a hash table do not
    operate on the structure that calls them (the theorem on the time bump states
    this for timers). One thread runs each sequential component, as the
    per-process and per-scheduler ownership in the code has it; the conditions
    are the concurrent part.

    The operations on the signal queues run one after the other, as the queue
    and buffer locks order them; a second thread inside an operation (the retry
    loop of [erts_proc_sig_queue_try_enqueue_to_buffer], the race at the end of
    the fetch) and the reference count that delays the release of an array of
    buffers are left out, and so are the signals that trace a sender. The hash of
    a sender is a parameter. A send is logged by the state before it: a message is
    taken unless the process exits ([takes_msgs]), another signal unless it is gone
    ([takes_signals]), and a buffer in use takes all. The theorems on runs speak of
    orderly ones ([orderly], [timely] in [SigRun]): messages are managed either on or
    off the heap, the save pointer is moved to the end only while no non-message
    signal waits (so no receive marker gets into the queues), and a change to off
    heap ends while no buffers are left over ([change_back_overtakes] is the other
    case).

    Times and positions of the timer wheel are exact integers; C computes them in
    64 bits, where overflow is undefined. [next_timeout_not_late] states when the
    time returned fits.

    A bignum routine may share the memory of its result with an operand where
    the callers do; it reads each digit before it writes the digit at the same
    index, so that its result is that of separate memory. Squaring in place,
    which no modelled caller does, is left out. The theorems on division ask for
    dividends below 2^40 digits; the terms have 65535 at most.

    ** Not modelled

    The emulator loop and the JIT, process scheduling ([erl_process.c]), the
    handling of signals in the middle queue (links, monitors, tracing,
    [erts_proc_sig_handle_incoming]) and priority messages with their markers,
    the allocators ([erl_alloc*.c]), ETS tables proper, distribution, ports,
    drivers and NIFs (I/O and platform interfaces), the other built-ins, and
    everything outside the emulator ([lib], the TLA and property-based models of
    [formal], the benchmarks of [harness], documents). Of the integers: printing
    and parsing ([write_big], [chars_to_integer]), floats, and the reductions and
    heap fragments of the operators. Of the external format: every term that is
    not an integer. Printing functions ([hash_info], [index_info]) have no state
    to verify.

    ** Possible extensions

    Receive markers in the invariant of the queues and the walk over the middle
    queue; a time bump whose callbacks set and cancel timers; the scheduler side
    of conditions; printing and parsing of bignums, which divide by Barrett's
    method; further tables of the emulator built on the hash and index tables
    (atoms, modules). *)

From stdpp Require Import base tactics numbers list gmap sets fin_maps.
From Stdlib Require Import ZArith Lia.

#[export] Set Warnings "-clear-no-such-hyp".

Declare Scope c_scope.
Delimit Scope c_scope with C.

(** ** Machine integers *)

(** [wrapu w z] is the value an unsigned [w]-bit C object holds after [z] is
    stored in it; [wraps w z] the value of a two's complement [w]-bit one. *)
Definition wrapu (w : Z) (z : Z) : Z := (z `mod` 2 ^ w)%Z.
Definition wraps (w : Z) (z : Z) : Z := ((z + 2 ^ (w - 1)) `mod` 2 ^ w - 2 ^ (w - 1))%Z.

Abbreviation u16 := (wrapu 16).
Abbreviation u64 := (wrapu 64).
Abbreviation s32 := (wraps 32).
Abbreviation s64 := (wraps 64).

(** ** Computations over a C state

    A computation either returns a value with the new state, or is stuck:
    [None] stands for undefined behaviour (a dangling or null pointer is
    dereferenced, an access is out of bounds, memory is freed twice, an
    indeterminate value is read) and for a loop that exceeds its fuel. *)
Definition M (St A : Type) : Type := St → option (A * St).

Section monad.
Context {St : Type}.

#[global] Instance M_ret : MRet (M St) := λ A x σ, Some (x, σ).
#[global] Instance M_bind : MBind (M St) := λ A B k m σ,
  match m σ with
  | Some (x, σ') => k x σ'
  | None => None
  end.

Definition ub {A} : M St A := λ _, None.
Definition get : M St St := λ σ, Some (σ, σ).
Definition modify (f : St → St) : M St unit := λ σ, Some (tt, f σ).

(** The value of a pointer dereference, [None] when the address is not mapped. *)
Definition deref {A} (o : option A) : M St A :=
  match o with Some x => mret x | None => ub end.

(** [for (i = i0; i < i0 + n; i++) body(i)] *)
Fixpoint for_range (body : nat → M St unit) (i n : nat) : M St unit :=
  match n with
  | O => mret tt
  | S n' => body i ≫= λ _, for_range body (S i) n'
  end.

(** Total correctness: the computation returns and its result satisfies [Q]. *)
Definition wp {A} (m : M St A) (Q : A → St → Prop) (σ : St) : Prop :=
  match m σ with Some (x, σ') => Q x σ' | None => False end.

End monad.


(** ** Record update

    A record type declares its [eta] expansion once; [r <| f := v |>] then
    writes one field, as a C assignment through a pointer does. *)
Class Eta (R : Type) : Type := eta : R → R.

Class Setter {R E : Type} (g : R → E) : Type := update : (E → E) → R → R.
#[global] Arguments update {_ _} g {_} _ _ / : assert.

Ltac solve_setter :=
  lazymatch goal with
  | |- @Setter ?R ?E ?g =>
      let i := constr:(_ : Eta R) in
      let e := eval hnf in i in
      let f := fresh "f" in
      let r := fresh "r" in
      intros f r;
      let b := eval cbv beta in (e r) in
      lazymatch b with
      | context C [g r] => let b' := context C [f (g r)] in exact b'
      end
  end.

#[global] Hint Extern 0 (@Setter _ _ _) => solve_setter : typeclass_instances.

Notation "r <| g ::= f |>" := (update g f r)
  (at level 1, left associativity, g at level 1, format "r  <| g  ::=  f |>").
Notation "r <| g := v |>" := (update g (λ _, v) r)
  (at level 1, left associativity, g at level 1, format "r  <| g  :=  v |>").

(** ** Pointers *)

Abbreviation addr := positive (only parsing).
Abbreviation ptr := (option positive) (only parsing).
Abbreviation NULL := (@None positive) (only parsing).

(** A word of a heap array: indeterminate until it is first written. *)
Inductive cell : Type :=
  | Uninit
  | Val (p : option positive).

#[global] Instance cell_eq_dec : EqDecision cell.
Proof. solve_decision. Defined.

Definition cell_ptr (c : cell) : option positive :=
  match c with Val p => p | Uninit => None end.

(** ** Linked structures in a store

    [nx a] is the content of the link field of the object at [a], [None]
    when no object lives at [a]. *)
Fixpoint lseg (nx : positive → option (option positive)) (p : option positive)
    (l : list positive) (q : option positive) : Prop :=
  match l with
  | [] => p = q
  | a :: l' => p = Some a ∧ ∃ p', nx a = Some p' ∧ lseg nx p' l' q
  end.

(** A doubly linked segment: [pv] is the back link expected in the first
    object, [q] the forward link expected in the last one. *)
Fixpoint dseg (nx pv : positive → option (option positive)) (b p : option positive)
    (l : list positive) (q : option positive) : Prop :=
  match l with
  | [] => p = q
  | a :: l' =>
      p = Some a ∧ pv a = Some b ∧ ∃ p', nx a = Some p' ∧ dseg nx pv (Some a) p' l' q
  end.

(** The last object of a segment, or the pointer [b] that precedes it. *)
Definition last_or (b : option positive) (l : list positive) : option positive :=
  match last l with Some a => Some a | None => b end.

(** ** Machine integer lemmas *)

Lemma wrapu_small w z : (0 ≤ z < 2 ^ w)%Z → wrapu w z = z.
Proof. apply Z.mod_small. Qed.

Lemma wrapu_range w z : (0 ≤ w)%Z → (0 ≤ wrapu w z < 2 ^ w)%Z.
Proof. intros. apply Z.mod_pos_bound. lia. Qed.

Lemma wrapu_add w x y : wrapu w (wrapu w x + y) = wrapu w (x + y).
Proof. apply Zplus_mod_idemp_l. Qed.

Lemma wrapu_sub w x y : wrapu w (wrapu w x - y) = wrapu w (x - y).
Proof. apply Zminus_mod_idemp_l. Qed.

Lemma wraps_small w z : (0 < w)%Z → (- 2 ^ (w - 1) ≤ z < 2 ^ (w - 1))%Z → wraps w z = z.
Proof.
  intros Hw Hz. unfold wraps.
  assert (2 ^ w = 2 * 2 ^ (w - 1))%Z as Hp.
  { rewrite <- Z.pow_succ_r by lia. f_equal. lia. }
  rewrite Z.mod_small; lia.
Qed.

Lemma wraps_add w x y : wraps w (wraps w x + y) = wraps w (x + y).
Proof.
  unfold wraps. f_equal.
  set (h := (2 ^ (w - 1))%Z). set (m := (2 ^ w)%Z).
  replace ((x + h) `mod` m - h + y + h)%Z with ((x + h) `mod` m + y)%Z by lia.
  rewrite Zplus_mod_idemp_l. f_equal. lia.
Qed.

Lemma wraps_sub w x y : wraps w (wraps w x - y) = wraps w (x - y).
Proof. rewrite <- !Z.add_opp_r. apply wraps_add. Qed.

Lemma wraps_sub_r w x y : wraps w (x - wraps w y) = wraps w (x - y).
Proof.
  unfold wraps. f_equal. set (h := (2 ^ (w - 1))%Z). set (m := (2 ^ w)%Z).
  replace (x - ((y + h) `mod` m - h) + h)%Z with (x + 2 * h - (y + h) `mod` m)%Z by lia.
  rewrite Zminus_mod_idemp_r. f_equal. lia.
Qed.

Lemma wraps_range w z : (0 < w)%Z → (- 2 ^ (w - 1) ≤ wraps w z < 2 ^ (w - 1))%Z.
Proof.
  intros Hw. unfold wraps.
  assert (2 ^ w = 2 * 2 ^ (w - 1))%Z as Hp.
  { rewrite <- Z.pow_succ_r by lia. f_equal. lia. }
  pose proof (Z.mod_pos_bound (z + 2 ^ (w - 1)) (2 ^ w)). lia.
Qed.

(** ** List lemmas *)

Lemma list_filter_ext {A} (P Q : A → Prop) `{!∀ x, Decision (P x), !∀ x, Decision (Q x)} (l : list A) :
  (∀ x, x ∈ l → P x ↔ Q x) → filter P l = filter Q l.
Proof.
  induction l as [|x l IH]; intros HPQ; [done|]. rewrite !filter_cons.
  rewrite (decide_ext (P x) (Q x)) by (apply HPQ; left). rewrite IH; [done|].
  intros y Hy. apply HPQ. by right.
Qed.

(** ** Reasoning about computations *)

Section wp.
Context {St : Type}.
Implicit Types σ : St.

Lemma wp_ret {A} (x : A) Q σ : Q x σ → wp (mret x) Q σ.
Proof. done. Qed.

Lemma wp_bind {A B} (m : M St A) (k : A → M St B) Q σ :
  wp m (λ x σ', wp (k x) Q σ') σ → wp (m ≫= k) Q σ.
Proof. unfold wp, mbind, M_bind. by destruct (m σ) as [[]|]. Qed.

Lemma wp_bind_inv {A B} (m : M St A) (k : A → M St B) Q σ :
  wp (m ≫= k) Q σ → wp m (λ x σ', wp (k x) Q σ') σ.
Proof. unfold wp, mbind, M_bind. by destruct (m σ) as [[]|]. Qed.

Lemma wp_bind_assoc {A B C} (m : M St A) (k : A → M St B) (h : B → M St C) Q σ :
  wp ((m ≫= k) ≫= h) Q σ → wp (m ≫= λ x, k x ≫= h) Q σ.
Proof. unfold wp, mbind, M_bind. by destruct (m σ) as [[]|]. Qed.

Lemma wp_mono {A} (m : M St A) (Q Q' : A → St → Prop) σ :
  wp m Q σ → (∀ x σ', Q x σ' → Q' x σ') → wp m Q' σ.
Proof. unfold wp. destruct (m σ) as [[]|]; naive_solver. Qed.

Lemma wp_get (Q : St → St → Prop) σ : Q σ σ → wp get Q σ.
Proof. done. Qed.

Lemma wp_modify (f : St → St) (Q : unit → St → Prop) σ : Q tt (f σ) → wp (modify f) Q σ.
Proof. done. Qed.

Lemma wp_deref {A} (o : option A) x (Q : A → St → Prop) σ :
  o = Some x → Q x σ → wp (deref o) Q σ.
Proof. by intros ->. Qed.

Lemma wp_elim {A} (m : M St A) Q σ :
  wp m Q σ → ∃ x σ', m σ = Some (x, σ') ∧ Q x σ'.
Proof. unfold wp. destruct (m σ) as [[]|]; naive_solver. Qed.

Lemma wp_intro {A} (m : M St A) (Q : A → St → Prop) σ x σ' :
  m σ = Some (x, σ') → Q x σ' → wp m Q σ.
Proof. unfold wp. by intros ->. Qed.

(** The loop rule: [I i σ] holds before iteration [i]. *)
Lemma wp_for_range (I : nat → St → Prop) body i n (Q : unit → St → Prop) σ :
  I i σ →
  (∀ j σ', i ≤ j < i + n → I j σ' → wp (body j) (λ _, I (S j)) σ') →
  (∀ σ', I (i + n) σ' → Q tt σ') →
  wp (for_range body i n) Q σ.
Proof.
  revert i σ. induction n as [|n IH]; intros i σ HI Hbody HQ; simpl.
  - apply wp_ret, HQ. by rewrite Nat.add_0_r.
  - apply wp_bind. eapply wp_mono; [apply Hbody; [lia|done]|].
    intros [] σ' HI'. apply IH; [done| |].
    + intros j σ'' Hj. apply Hbody. lia.
    + intros σ'' HI''. apply HQ. replace (i + S n) with (S i + n) by lia. done.
Qed.

End wp.

(** ** Linked structure lemmas *)

Section linked.
Implicit Types nx pv : positive → option (option positive).
Implicit Types l : list positive.

Lemma lseg_app nx p l1 l2 q :
  lseg nx p (l1 ++ l2) q ↔ ∃ r, lseg nx p l1 r ∧ lseg nx r l2 q.
Proof.
  revert p. induction l1 as [|a l1 IH]; intros p; simpl.
  - naive_solver.
  - setoid_rewrite IH. naive_solver.
Qed.

Lemma lseg_frame nx nx' p l q :
  (∀ a, a ∈ l → nx' a = nx a) → lseg nx p l q → lseg nx' p l q.
Proof.
  revert p. induction l as [|a l IH]; intros p Hf; simpl; [done|].
  intros (-> & p' & Hn & Hl). split; [done|]. exists p'.
  rewrite Hf by set_solver. split; [done|]. apply IH; set_solver.
Qed.

(** Appending an object at the end of a null-terminated segment. *)
Lemma lseg_snoc nx nx' p l t a :
  lseg nx p l None → last l = Some t → NoDup l →
  (∀ b, b ∈ l → b ≠ t → nx' b = nx b) → nx' t = Some (Some a) → nx' a = Some None →
  lseg nx' p (l ++ [a]) None.
Proof.
  intros Hl [l' ->]%last_Some Hnd Hf Ht Ha.
  apply NoDup_app in Hnd as (_ & Hnd & _).
  apply lseg_app in Hl as (r & Hl & -> & _).
  rewrite <- app_assoc. apply lseg_app. exists (Some t). split.
  - eapply lseg_frame; [|done]. intros b Hb. apply Hf; set_solver.
  - simpl. eauto 10.
Qed.

Lemma lseg_head nx p l q : lseg nx p l q → l ≠ [] → p = head l.
Proof. destruct l; simpl; naive_solver. Qed.

Lemma lseg_head_None nx p l : lseg nx p l None → p = head l.
Proof. destruct l; simpl; naive_solver. Qed.

Lemma lseg_deterministic nx p l1 l2 :
  lseg nx p l1 None → lseg nx p l2 None → l1 = l2.
Proof.
  revert p l2. induction l1 as [|a l1 IH]; intros p [|b l2]; simpl;
    [done|naive_solver|naive_solver|].
  intros (-> & p1 & Hn1 & H1) (Heq & p2 & Hn2 & H2). simplify_eq. f_equal. eauto.
Qed.

Lemma last_or_app b l1 l2 : last_or b (l1 ++ l2) = last_or (last_or b l1) l2.
Proof.
  unfold last_or. rewrite last_app. by destruct (last l2).
Qed.

Lemma last_or_cons b a l : last_or b (a :: l) = last_or (Some a) l.
Proof. change (a :: l) with ([a] ++ l). by rewrite last_or_app. Qed.

Lemma last_or_None l : last_or None l = last l.
Proof. unfold last_or. by destruct (last l). Qed.

Lemma dseg_app nx pv b p l1 l2 q :
  dseg nx pv b p (l1 ++ l2) q ↔
  ∃ r, dseg nx pv b p l1 r ∧ dseg nx pv (last_or b l1) r l2 q.
Proof.
  revert b p. induction l1 as [|a l1 IH]; intros b p; simpl.
  - naive_solver.
  - setoid_rewrite IH. rewrite last_or_cons. naive_solver.
Qed.

Lemma dseg_frame nx pv nx' pv' b p l q :
  (∀ a, a ∈ l → nx' a = nx a) → (∀ a, a ∈ l → pv' a = pv a) →
  dseg nx pv b p l q → dseg nx' pv' b p l q.
Proof.
  revert b p. induction l as [|a l IH]; intros b p Hf Hg; simpl; [done|].
  intros (-> & Hp & p' & Hn & Hl). split; [done|].
  rewrite Hg, Hf by set_solver. split; [done|]. exists p'.
  split; [done|]. apply IH; set_solver.
Qed.

(** The links of an object inside a segment. *)
Lemma dseg_links nx pv b p l1 a l2 :
  dseg nx pv b p (l1 ++ a :: l2) None →
  pv a = Some (last_or b l1) ∧ nx a = Some (head l2).
Proof.
  intros (r & _ & -> & Hp & p' & Hn & Hl)%dseg_app. split; [done|].
  rewrite Hn. destruct l2; simpl in *; naive_solver.
Qed.

(** Unlinking an object: its neighbours are made to point at each other. *)
Lemma dseg_remove nx pv nx' pv' b p l1 a l2 :
  dseg nx pv b p (l1 ++ a :: l2) None → NoDup (l1 ++ a :: l2) →
  (∀ c, c ∈ l1 ++ l2 → nx' c = if decide (last l1 = Some c) then Some (head l2) else nx c) →
  (∀ c, c ∈ l1 ++ l2 → pv' c = if decide (head l2 = Some c) then Some (last_or b l1) else pv c) →
  dseg nx' pv' b (head (l1 ++ l2)) (l1 ++ l2) None.
Proof.
  revert b p. induction l1 as [|x l1 IH]; intros b p; simpl.
  - intros (-> & Hp & p' & Hn & Hl) [Ha Hnd]%NoDup_cons Hnx Hpv.
    destruct l2 as [|c l2]; [done|]. simpl in *. destruct Hl as (-> & Hpc & p'' & Hnc & Hl).
    apply NoDup_cons in Hnd as [Hc Hnd].
    split; [done|]. rewrite Hpv, decide_True by set_solver. split; [done|].
    exists p''. rewrite Hnx by set_solver. split; [done|].
    eapply dseg_frame; [..|done]; intros d Hd.
    + by rewrite Hnx by set_solver.
    + rewrite Hpv by set_solver. rewrite decide_False; [done|]. intros [= ->]. done.
  - intros (-> & Hp & p' & Hn & Hl) [Hx Hnd]%NoDup_cons Hnx Hpv.
    assert (∀ c, c ∈ l1 ++ l2 → c ≠ x) as Hne.
    { intros c Hc ->. apply Hx. apply elem_of_app in Hc. set_solver. }
    assert (head l2 ≠ Some x) as Hhx.
    { intros Hh. destruct l2 as [|c l2]; [done|]. injection Hh as ->. set_solver. }
    assert (dseg nx' pv' (Some x) (head (l1 ++ l2)) (l1 ++ l2) None) as Hrest.
    { apply (IH (Some x) p'); [done|done| |].
      - intros c Hc. rewrite Hnx by set_solver. destruct l1 as [|y l1].
        + simpl. rewrite decide_False; [done|]. intros [= ->]. by eapply Hne.
        + by rewrite last_cons_cons.
      - intros c Hc. rewrite Hpv by set_solver. by rewrite last_or_cons. }
    split; [done|]. rewrite Hpv by set_solver. rewrite decide_False by done.
    split; [done|]. exists (head (l1 ++ l2)). split; [|done].
    rewrite Hnx by set_solver. destruct l1 as [|y l1].
    + simpl. by rewrite decide_True.
    + rewrite last_cons_cons, decide_False.
      * simpl in *. destruct Hl as (-> & _). done.
      * intros Hl'. apply last_Some_elem_of in Hl'. set_solver.
Qed.

Lemma dseg_head nx pv b p l : dseg nx pv b p l None → p = head l.
Proof. destruct l; simpl; naive_solver. Qed.

(** Pushing an object in front of a list. *)
Lemma dseg_push nx pv nx' pv' p l a :
  dseg nx pv None p l None → NoDup l →
  (∀ c, c ∈ l → nx' c = nx c) →
  (∀ c, c ∈ l → pv' c = if decide (p = Some c) then Some (Some a) else pv c) →
  nx' a = Some p → pv' a = Some None → dseg nx' pv' None (Some a) (a :: l) None.
Proof.
  intros Hl Hnd Hnx Hpv Ha Hb. split; [done|]. split; [done|]. exists p. split; [done|].
  destruct l as [|x l]; [done|]. destruct Hl as (-> & Hx & p' & Hn & Hl).
  apply NoDup_cons in Hnd as [Hxl Hnd]. split; [done|].
  rewrite Hpv, decide_True by (done || left). split; [done|]. exists p'.
  rewrite Hnx by left. split; [done|].
  eapply dseg_frame; [..|done]; intros c Hc; [apply Hnx; by right|].
  rewrite Hpv by (by right). rewrite decide_False; [done|]. intros [= ->]. done.
Qed.

(** A loop over a list without repetition needs no more fuel than the store has
    objects. *)
Lemma nodup_fuel {A} (m : gmap positive A) (l : list positive) :
  NoDup l → (∀ a, a ∈ l → is_Some (m !! a)) → length l ≤ size m.
Proof.
  intros Hnd Hl. rewrite <- size_dom. rewrite <- (size_list_to_set (C:=gset positive) l) by done.
  apply subseteq_size. intros a Ha%elem_of_list_to_set. apply elem_of_dom. auto.
Qed.

End linked.

(** ** Proof automation *)

(** One symbolic execution step of a computation. *)
Ltac wp_step :=
  lazymatch goal with
  | |- wp (_ ≫= _) _ _ => apply wp_bind
  | |- wp (mret _) _ _ => apply wp_ret
  | |- wp get _ _ => apply wp_get
  | |- wp (modify _) _ _ => apply wp_modify
  | |- wp (deref (Some _)) _ _ => eapply wp_deref; [reflexivity|]
  | |- wp (deref _) _ _ => eapply wp_deref; [eassumption|]
  end.

Ltac wp_steps := repeat (wp_step; cbv beta).

(** Splits the conjunctions and existentials in the hypotheses. *)
Ltac destruct_all :=
  repeat match goal with
  | H : _ ∧ _ |- _ => destruct H
  | H : ∃ _, _ |- _ => destruct H
  end.
