(* ===== verification/PonStats.v ===== *)
(** Instrumentation counters: the [PonStats] structure of
    [erts/include/internal/pon_stats.h]. One instance exists per scheduler
    thread, so a computation run by one thread owns it. *)

From S2P Require Import Prelude.
From stdpp Require Import base numbers.
From Stdlib Require Import ZArith.

Record PonStats : Type := mkPonStats {
  premises_registered : Z;
  premise_notifications : Z;
  mailbox_scans_avoided : Z;
  messages_classified : Z;
  messages_type_collision : Z;
  messages_pon_queued : Z;
  timerfd_created : Z;
  timerfd_expirations : Z;
  timer_wheel_fallback : Z;
  timer_instigations : Z;
  timer_scans_avoided : Z;
  condition_wakeups : Z;
  condition_notifications : Z;
  scheduler_idle_blocks : Z;
  ets_watchers_registered : Z;
  ets_watcher_hits : Z;
  gc_notifications_sent : Z;
  gc_scans_avoided : Z;
  gc_incremental_steps : Z;
  pon_overhead_us : Z
}.

#[global] Instance PonStats_eta : Eta PonStats := λ t, mkPonStats
  (premises_registered t) (premise_notifications t) (mailbox_scans_avoided t)
  (messages_classified t) (messages_type_collision t) (messages_pon_queued t)
  (timerfd_created t) (timerfd_expirations t) (timer_wheel_fallback t)
  (timer_instigations t) (timer_scans_avoided t) (condition_wakeups t)
  (condition_notifications t) (scheduler_idle_blocks t)
  (ets_watchers_registered t) (ets_watcher_hits t) (gc_notifications_sent t)
  (gc_scans_avoided t) (gc_incremental_steps t) (pon_overhead_us t).

(** The counters of a thread that has not run yet (zero-initialised storage). *)
Definition pon_stats_zero : PonStats :=
  mkPonStats 0 0 0 0 0 0 0 0 0 0 0 0 0 0 0 0 0 0 0 0.

(** [PON_STATS_ADD(field, n)] on a [Uint64] field; [PON_STATS_INC] is the
    same with [n = 1]. *)
Definition PON_STATS_ADD (n v : Z) : Z := u64 (v + n).
Definition PON_STATS_INC (v : Z) : Z := u64 (v + 1).
