(* ===== verification/Ring.v ===== *)
(** Circular doubly linked lists, over any functions that give the next and the
    previous element. *)

From S2P Require Import Prelude.
From stdpp Require Import base tactics list sets.

Section ring.
Context {A : Type} `{EqDecision A}.
Implicit Types nx pv : A → option A.
Implicit Types a b : A.

Definition rlink (nx pv : A → option A) (a b : A) : Prop := nx a = Some b ∧ pv b = Some a.

Fixpoint rchain (nx pv : A → option A) (l : list A) : Prop :=
  match l with
  | a :: (b :: _) as l' => rlink nx pv a b ∧ rchain nx pv l'
  | _ => True
  end.

(** The last element is followed by the first one. *)
Definition rclosed (nx pv : A → option A) (l1 l2 : list A) : Prop :=
  ∀ t h, last l1 = Some t → head l2 = Some h → rlink nx pv t h.

Definition rring (nx pv : A → option A) (l : list A) : Prop := rchain nx pv l ∧ rclosed nx pv l l.

Lemma rchain_app nx pv l1 l2 : rchain nx pv (l1 ++ l2) ↔ rchain nx pv l1 ∧ rchain nx pv l2 ∧ rclosed nx pv l1 l2.
Proof.
  unfold rclosed. induction l1 as [|a l1 IH]; [naive_solver|].
  destruct l1 as [|b l1].
  - destruct l2 as [|c l2]; simpl; [naive_solver|]. split.
    + intros [Hl Hc]. split_and!; [done|done|]. by intros t h [= <-] [= <-].
    + intros (_ & Hc & Hl). split; [by apply Hl|done].
  - change ((a :: b :: l1) ++ l2) with (a :: b :: (l1 ++ l2)).
    change (rchain nx pv (a :: b :: l1 ++ l2)) with (rlink nx pv a b ∧ rchain nx pv ((b :: l1) ++ l2)).
    change (rchain nx pv (a :: b :: l1)) with (rlink nx pv a b ∧ rchain nx pv (b :: l1)).
    rewrite IH, last_cons_cons. naive_solver.
Qed.

Lemma rring_app nx pv l1 l2 : l1 ≠ [] → l2 ≠ [] →
  rring nx pv (l1 ++ l2) ↔ rchain nx pv l1 ∧ rchain nx pv l2 ∧ rclosed nx pv l1 l2 ∧ rclosed nx pv l2 l1.
Proof.
  intros H1 H2. unfold rring. rewrite rchain_app. unfold rclosed at 2 4.
  destruct l1 as [|a l1]; [done|]. destruct l2 as [|b l2]; [done|].
  rewrite last_app_cons. change (head ((a :: l1) ++ b :: l2)) with (head (a :: l1)). naive_solver.
Qed.

Lemma rring_rotate nx pv l1 l2 : rring nx pv (l1 ++ l2) → rring nx pv (l2 ++ l1).
Proof.
  destruct l1 as [|a l1]; [by rewrite app_nil_r|]. destruct l2 as [|b l2]; [by rewrite app_nil_r|].
  rewrite !rring_app by done. naive_solver.
Qed.

Lemma rring_nil nx pv : rring nx pv [].
Proof. by split. Qed.

Lemma rring_one nx pv a : rring nx pv [a] ↔ rlink nx pv a a.
Proof. unfold rring, rclosed. simpl. split; [intros [_ H]; by apply H|]. intros H. split; [done|]. by intros ? ? [= <-] [= <-]. Qed.

(** The neighbours of an element. *)
Lemma rring_nx nx pv l1 a l2 : rring nx pv (l1 ++ a :: l2) → nx a = head (l2 ++ l1 ++ [a]).
Proof.
  intros H%rring_rotate. destruct (l2 ++ l1) as [|b m] eqn:Hm.
  - apply app_eq_nil in Hm as [-> ->]. by apply rring_one in H as [? _].
  - change ((a :: l2) ++ l1) with ([a] ++ (l2 ++ l1)) in H. rewrite Hm in H.
    apply rring_app in H as (_ & _ & Hc & _); [|done|done].
    rewrite app_assoc, Hm. simpl. destruct (Hc a b) as [H _]; done.
Qed.

Lemma rring_pv nx pv l1 a l2 : rring nx pv (l1 ++ a :: l2) → pv a = last (a :: l2 ++ l1).
Proof.
  intros H%rring_rotate. change ((a :: l2) ++ l1) with ([a] ++ (l2 ++ l1)) in H.
  destruct (l2 ++ l1) as [|b m].
  - by apply rring_one in H as [_ ?].
  - apply rring_app in H as (_ & _ & _ & Hc); [|done|done].
    destruct (last (b :: m)) as [t|] eqn:Ht; [|by apply last_None in Ht].
    rewrite last_cons_cons, Ht. by destruct (Hc t a) as [_ H].
Qed.

Lemma rring_cons nx pv a m : m ≠ [] → rring nx pv (a :: m) ↔ rchain nx pv m ∧ rclosed nx pv [a] m ∧ rclosed nx pv m [a].
Proof.
  intros Hm. change (a :: m) with ([a] ++ m). rewrite rring_app by done. simpl. naive_solver.
Qed.

Lemma rchain_frame nx pv nx' pv' l : NoDup l →
  (∀ a, a ∈ l → last l ≠ Some a → nx' a = nx a) →
  (∀ a, a ∈ l → head l ≠ Some a → pv' a = pv a) → rchain nx pv l → rchain nx' pv' l.
Proof.
  induction l as [|a l IH]; [done|]. intros [Ha Hnd]%NoDup_cons Hn Hp. destruct l as [|b l]; [done|].
  intros [[H1 H2] Hc]. split.
  - split; [rewrite Hn; [done|by left|]|rewrite Hp; [done|by right; left|]].
    + rewrite last_cons_cons. intros Hl%last_Some_elem_of. done.
    + intros [= ->]. apply Ha. by left.
  - apply IH; [done|..|done].
    + intros c Hc' Hl. apply Hn; [by right|]. by rewrite last_cons_cons.
    + intros c Hc' Hh. apply Hp; [by right|]. intros [= ->]. done.
Qed.

Lemma rring_frame nx pv nx' pv' l :
  (∀ a, a ∈ l → nx' a = nx a) → (∀ a, a ∈ l → pv' a = pv a) → rring nx pv l → rring nx' pv' l.
Proof.
  intros Hn Hp [Hc Hl]. split.
  - clear Hl. induction l as [|a l IH]; [done|]. destruct l as [|b l]; [done|].
    destruct Hc as [[H1 H2] Hc]. split; [split; [rewrite Hn|rewrite Hp]; set_solver|]. apply IH; set_solver.
  - intros t h Ht Hh. destruct (Hl t h Ht Hh) as [H1 H2].
    split; [rewrite Hn; [done|by apply last_Some_elem_of]|rewrite Hp; [done|by apply head_Some_elem_of]].
Qed.

(** ** Updates *)

(** A new last element [a]. *)
Lemma rring_push nx pv nx' pv' h l a :
  rring nx pv (h :: l) → NoDup (h :: l) → a ∉ h :: l →
  (∀ b, nx' b = if decide (b = a) then Some h else if decide (last (h :: l) = Some b) then Some a else nx b) →
  (∀ b, pv' b = if decide (b = h) then Some a else if decide (b = a) then last (h :: l) else pv b) →
  rring nx' pv' ((h :: l) ++ [a]).
Proof.
  intros [Hc Hl] Hnd Ha Hnx Hpv. apply rring_app; [done|done|].
  assert (h ≠ a) as Hha by set_solver. split_and!; [|done| |].
  - eapply rchain_frame; [done| | |done].
    + intros b Hb Hbl. rewrite Hnx, decide_False, decide_False; [done|done|set_solver].
    + intros b Hb Hbl. rewrite Hpv, decide_False, decide_False; [done|set_solver|]. intros ->. done.
  - intros t ? Ht [= <-]. split.
    + rewrite Hnx, decide_False, decide_True; [done|done|]. intros ->. by apply Ha, last_Some_elem_of.
    + by rewrite Hpv, decide_False, decide_True.
  - intros ? ? [= <-] [= <-]. split; [by rewrite Hnx, decide_True|by rewrite Hpv, decide_True].
Qed.

(** [s] takes the place of the first element. *)
Lemma rring_replace nx pv nx' pv' a s m :
  rring nx pv (a :: m) → m ≠ [] → NoDup m → s ∉ m →
  (∀ b, b ∈ m → nx' b = if decide (last m = Some b) then Some s else nx b) →
  (∀ b, b ∈ m → pv' b = if decide (head m = Some b) then Some s else pv b) →
  nx' s = head m → pv' s = last m → rring nx' pv' (s :: m).
Proof.
  intros Hr Hm Hnd Hs Hnx Hpv Hns Hps. apply rring_cons in Hr as (Hc & _ & _); [|done].
  apply rring_cons; [done|]. split_and!.
  - eapply rchain_frame; [done| | |done].
    + intros b Hb Hbl. by rewrite Hnx, decide_False.
    + intros b Hb Hbl. by rewrite Hpv, decide_False.
  - intros ? h [= <-] Hh. split; [congruence|]. by rewrite Hpv, decide_True by (done || by apply head_Some_elem_of).
  - intros t ? Ht [= <-]. split; [|congruence].
    by rewrite Hnx, decide_True by (done || by apply last_Some_elem_of).
Qed.

(** Element [a] is taken out: its neighbours are linked to each other. *)
Lemma rring_del nx pv nx' pv' l1 a l2 :
  rring nx pv (l1 ++ a :: l2) → NoDup (l1 ++ a :: l2) →
  (∀ b, b ∈ l2 ++ l1 → nx' b = if decide (last (l2 ++ l1) = Some b) then head (l2 ++ l1) else nx b) →
  (∀ b, b ∈ l2 ++ l1 → pv' b = if decide (head (l2 ++ l1) = Some b) then last (l2 ++ l1) else pv b) →
  rring nx' pv' (l1 ++ l2).
Proof.
  intros Hr%rring_rotate Hnd Hnx Hpv. apply rring_rotate.
  change ((a :: l2) ++ l1) with (a :: (l2 ++ l1)) in Hr.
  assert (NoDup (l2 ++ l1)) as Hnd'.
  { rewrite (Permutation_app_comm l2 l1). rewrite <- Permutation_middle in Hnd. by apply NoDup_cons in Hnd as [_ ?]. }
  set (m := l2 ++ l1) in *. clearbody m. destruct m as [|h m]; [apply rring_nil|].
  apply rring_cons in Hr as (Hc & _ & _); [|done]. split.
  - eapply rchain_frame; [done| | |done].
    + intros b Hb Hbl. by rewrite Hnx, decide_False.
    + intros b Hb Hbl. by rewrite Hpv, decide_False.
  - intros t h' Ht Hh. split.
    + rewrite Hnx, decide_True by (done || by apply last_Some_elem_of). done.
    + rewrite Hpv, decide_True by (done || by apply head_Some_elem_of). done.
Qed.

(** Every element is linked to its neighbours, which are in the ring. *)
Lemma rring_links nx pv l a : rring nx pv l → a ∈ l →
  (∃ c, nx a = Some c ∧ pv c = Some a ∧ c ∈ l) ∧ (∃ d, pv a = Some d ∧ nx d = Some a ∧ d ∈ l).
Proof.
  intros Hr (l1 & l2 & ->)%list_elem_of_split. apply rring_rotate in Hr. simpl in Hr.
  destruct (l2 ++ l1) as [|h m] eqn:Hm.
  - apply rring_one in Hr as [H1 H2]. split; exists a; split_and!; (done || set_solver).
  - destruct (last (h :: m)) as [t|] eqn:Ht; [|by apply last_None in Ht].
    apply rring_cons in Hr as (_ & H1 & H2); [|done].
    destruct (H1 a h eq_refl eq_refl) as [H3 H4]. destruct (H2 t a Ht eq_refl) as [H5 H6].
    apply last_Some_elem_of in Ht. assert (h ∈ l2 ++ l1) as Hh by (rewrite Hm; left).
    assert (t ∈ l2 ++ l1) as Ht' by (by rewrite Hm). split; [exists h|exists t]; split_and!; try done; set_solver.
Qed.

End ring.
