(* ===== verification/ErtsAlloc.v ===== *)
(** The interface of the ERTS allocator ([erts_alloc], [erts_realloc],
    [erts_free], [malloc], [free]) that the PON components rely on. The
    allocator itself is not modelled: the components are verified against
    this interface, and a concrete allocator shows that it can be met. *)

From S2P Require Import Prelude.
From stdpp Require Import base gmap sets.
From Stdlib Require Import ZArith.

(** [alloc used size] is the address of a new block of [size] bytes when the
    blocks at [used] are allocated, [None] on failure; [realloc_ok size]
    tells whether a block can be resized to [size] bytes. *)
Class Allocator : Type := {
  alloc : gset positive → Z → option positive;
  realloc_ok : Z → bool
}.

(** A new block never overlaps a block in use. *)
Class AllocatorLaws (A : Allocator) : Prop := {
  alloc_fresh used size a : alloc used size = Some a → a ∉ used
}.

(** An allocator that always succeeds and returns the smallest unused address. *)
#[global] Instance total_allocator : Allocator :=
  {| alloc := λ used _, Some (fresh used); realloc_ok := λ _, true |}.

#[global] Instance total_allocator_laws : AllocatorLaws total_allocator.
Proof. constructor. intros used size a [= <-]. apply is_fresh. Qed.
