(* ===== verification/PonGc.v ===== *)
(** Model of [erts/emulator/beam/pon_gc.c] and of the types of
    [erts/include/internal/pon_gc.h]: the per-process notification collector,
    over an explicit store of nodes and payload blocks. *)

From S2P Require Import Prelude ErtsAlloc PonStats.
From stdpp Require Import base numbers list gmap sets.
From Stdlib Require Import ZArith.

(** ** Data *)

Inductive PonGcColor : Type := PON_GC_WHITE | PON_GC_GRAY | PON_GC_BLACK.

#[global] Instance PonGcColor_eq_dec : EqDecision PonGcColor.
Proof. solve_decision. Defined.

Record PonGcNode : Type := mkPonGcNode {
  color : PonGcColor;
  num_refs : Z;                (* uint16_t *)
  refs_cap : Z;                (* uint16_t *)
  refs : list cell;            (* the allocated vector *)
  next_gray : option positive;
  prev_all : option positive;
  next_all : option positive;
  data : option positive;
  data_size : Z;               (* size_t *)
  id : Z                       (* uint64_t *)
}.

#[global] Instance PonGcNode_eta : Eta PonGcNode := λ n, mkPonGcNode
  (color n) (num_refs n) (refs_cap n) (refs n) (next_gray n) (prev_all n)
  (next_all n) (data n) (data_size n) (id n).

Record PonGcState : Type := mkPonGcState {
  roots : list cell;           (* the allocated vector *)
  num_roots : Z;               (* int *)
  roots_cap : Z;               (* int *)
  gray_head : option positive;
  gray_tail : option positive;
  gray_count : Z;              (* int *)
  nodes_head : option positive;
  nodes_tail : option positive;
  total_nodes : Z;             (* uint64_t *)
  by_id : list (option positive);
  by_id_cap : Z;               (* uint64_t *)
  next_id : Z;                 (* uint64_t *)
  live_nodes : Z;
  dead_nodes : Z;
  bytes_freed : Z;
  notifications_sent : Z;
  scan_count : Z;
  cycles : Z
}.

#[global] Instance PonGcState_eta : Eta PonGcState := λ g, mkPonGcState
  (roots g) (num_roots g) (roots_cap g) (gray_head g) (gray_tail g)
  (gray_count g) (nodes_head g) (nodes_tail g) (total_nodes g) (by_id g)
  (by_id_cap g) (next_id g) (live_nodes g) (dead_nodes g) (bytes_freed g)
  (notifications_sent g) (scan_count g) (cycles g).

(** What one process owns: its [pon_gc] field ([None] is [NULL]), the nodes,
    the payload blocks, and the counters of the thread that runs it. *)
Record gcs : Type := mkGcs {
  pon_gc : option PonGcState;
  nodes : gmap positive PonGcNode;
  blobs : gset positive;
  stats : PonStats
}.

#[global] Instance gcs_eta : Eta gcs := λ σ,
  mkGcs (pon_gc σ) (nodes σ) (blobs σ) (stats σ).

(** ** Memory accesses *)

Abbreviation G A := (M gcs A).

(** [*gc] *)
Definition get_gc : G PonGcState := σ ← get; deref (pon_gc σ).

(** An assignment to fields of [*gc]. *)
Definition upd_gc (f : PonGcState → PonGcState) : G unit :=
  _ ← get_gc; modify (λ σ, σ <| pon_gc ::= fmap f |>).

(** [*node] *)
Definition load (a : positive) : G PonGcNode := σ ← get; deref (nodes σ !! a).

(** An assignment to fields of [*node]. *)
Definition upd_node (a : positive) (f : PonGcNode → PonGcNode) : G unit :=
  _ ← load a; modify (λ σ, σ <| nodes ::= alter f a |>).

(** [vec[i]] of a vector of pointers: an access past the allocated length or
    to an indeterminate word is undefined. *)
Definition vec_get (v : list cell) (i : nat) : G (option positive) :=
  match v !! i with Some (Val p) => mret p | _ => ub end.

(** [vec[i] = p] *)
Definition vec_set (v : list cell) (i : Z) (p : option positive) : G (list cell) :=
  if decide (0 ≤ i < Z.of_nat (length v))%Z
  then mret (<[Z.to_nat i := Val p]> v) else ub.

(** [realloc] of a vector to [cap] words: the common prefix is kept. *)
Definition vec_resize (v : list cell) (cap : Z) : list cell :=
  take (Z.to_nat cap) v ++ replicate (Z.to_nat cap - length v) Uninit.

(** The test [if (!gc) return d;] that opens the exported operations. *)
Definition unless_null {A} (d : A) (m : G A) : G A :=
  σ ← get; match pon_gc σ with None => mret d | Some _ => m end.

Section pon_gc.
Context `{Alloc : Allocator}.

Definition used_blocks (σ : gcs) : gset positive := dom (nodes σ) ∪ blobs σ.

(** [sizeof(PonGcNode)], [sizeof(PonGcState)] and the size of a pointer in a
    64-bit build. *)
Definition SIZEOF_NODE : Z := 64.
Definition SIZEOF_STATE : Z := 136.
Definition SIZEOF_PTR : Z := 8.

Definition free_node (a : positive) : G unit :=
  _ ← load a; modify (λ σ, σ <| nodes ::= delete a |>).

Definition free_blob (a : positive) : G unit :=
  σ ← get;
  if decide (a ∈ blobs σ) then modify (λ σ, σ <| blobs ::= λ b, b ∖ {[a]} |>) else ub.

(** ** The gray queue *)

Definition enqueue_gray (node : option positive) : G unit :=
  match node with
  | None => mret tt
  | Some a =>
      n ← load a;
      if decide (color n ≠ PON_GC_WHITE) then mret tt else
      upd_node a (λ n, n <| color := PON_GC_GRAY |>);;
      upd_gc (λ g, g <| live_nodes ::= λ v, u64 (v + 1) |>);;
      upd_node a (λ n, n <| next_gray := NULL |>);;
      g ← get_gc;
      match gray_tail g with
      | Some t => upd_node t (λ n, n <| next_gray := Some a |>)
      | None => upd_gc (λ g, g <| gray_head := Some a |>)
      end;;
      upd_gc (λ g, g <| gray_tail := Some a |>);;
      upd_gc (λ g, g <| gray_count ::= λ v, s32 (v + 1) |>)
  end.

Definition dequeue_gray : G (option positive) :=
  g ← get_gc;
  match gray_head g with
  | None => mret None
  | Some a =>
      n ← load a;
      upd_gc (λ g, g <| gray_head := next_gray n |>);;
      g ← get_gc;
      match gray_head g with
      | None => upd_gc (λ g, g <| gray_tail := NULL |>)
      | Some _ => mret tt
      end;;
      upd_node a (λ n, n <| next_gray := NULL |>);;
      upd_gc (λ g, g <| gray_count ::= λ v, s32 (v - 1) |>);;
      mret (Some a)
  end.

(** The body of the loop of [propagate]: one reference of [a]; [sent] counts
    the notifications. *)
Definition propagate_ref (a : positive) (i : nat) (sent : Z) : G Z :=
  n ← load a;
  ref ← vec_get (refs n) i;
  match ref with
  | None => mret sent
  | Some b =>
      m ← load b;
      if decide (color m = PON_GC_WHITE)
      then enqueue_gray (Some b);; mret (s32 (sent + 1))
      else mret sent
  end.

(** [for (i = i0; i < node->num_refs; i++)], [k] iterations left. *)
Fixpoint propagate_loop (a : positive) (i k : nat) (sent : Z) : G Z :=
  match k with
  | O => mret sent
  | S k' => sent' ← propagate_ref a i sent; propagate_loop a (S i) k' sent'
  end.

Definition propagate (node : option positive) : G Z :=
  a ← deref node;
  n ← load a;
  sent ← propagate_loop a 0 (Z.to_nat (num_refs n)) 0;
  upd_node a (λ n, n <| color := PON_GC_BLACK |>);;
  upd_gc (λ g, g <| notifications_sent ::= λ v, u64 (v + sent) |>);;
  upd_gc (λ g, g <| scan_count ::= λ v, u64 (v + 1) |>);;
  mret sent.

(** ** Life cycle of the state and of nodes *)

(** The zero-filled [PonGcState]. *)
Definition pon_gc_zero : PonGcState :=
  mkPonGcState [] 0 0 NULL NULL 0 NULL NULL 0 [] 0 0 0 0 0 0 0 0.

Definition pon_gc_init : G unit := unless_null tt (upd_gc (λ _, pon_gc_zero)).

(** [while (new_cap <= id) new_cap *= 2;] *)
Fixpoint grow_cap (fuel : nat) (id new_cap : Z) : G Z :=
  match fuel with
  | O => ub
  | S f => if decide (new_cap ≤ id)%Z then grow_cap f id (u64 (new_cap * 2)) else mret new_cap
  end.

(** The fresh node that [pon_gc_node_create] fills in. *)
Definition new_node (data : option positive) (data_size id : Z) : PonGcNode :=
  mkPonGcNode PON_GC_WHITE 0 0 [] NULL NULL NULL data data_size id.

(** Makes room for index [id] in [by_id]; [false] when memory is short. *)
Definition by_id_reserve (id : Z) : G bool :=
  g ← get_gc;
  if decide (by_id_cap g ≤ id)%Z then
    new_cap ← grow_cap 64 id (if decide (by_id_cap g = 0)%Z then 64 else u64 (by_id_cap g * 2))%Z;
    if realloc_ok (new_cap * SIZEOF_PTR)%Z then
      upd_gc (λ g, g <| by_id ::= λ v, take (Z.to_nat (by_id_cap g)) v ++
                       replicate (Z.to_nat (new_cap - by_id_cap g)) None |>);;
      upd_gc (λ g, g <| by_id_cap := new_cap |>);;
      mret true
    else mret false
  else mret true.

Definition pon_gc_node_create (data : option positive) (data_size : Z) : G (option positive) :=
  unless_null None (
    σ ← get;
    match alloc (used_blocks σ) SIZEOF_NODE with
    | None => mret None
    | Some a =>
        g ← get_gc;
        modify (λ σ, σ <| nodes ::= <[a := new_node data data_size (next_id g)]> |>);;
        upd_gc (λ g, g <| next_id ::= λ v, u64 (v + 1) |>);;
        upd_node a (λ n, n <| next_all := nodes_head g |>);;
        match nodes_head g with
        | Some h => upd_node h (λ n, n <| prev_all := Some a |>)
        | None => upd_gc (λ g, g <| nodes_tail := Some a |>)
        end;;
        upd_gc (λ g, g <| nodes_head := Some a |>);;
        upd_gc (λ g, g <| total_nodes ::= λ v, u64 (v + 1) |>);;
        ok ← by_id_reserve (next_id g);
        if ok : bool then
          g' ← get_gc;
          if decide (next_id g < Z.of_nat (length (by_id g')))%Z then
            upd_gc (λ g', g' <| by_id ::= <[Z.to_nat (next_id g) := Some a]> |>);;
            mret (Some a)
          else ub
        else free_node a;; mret None
    end).

(** Takes the node [n] out of the list of all nodes. *)
Definition unlink_all (n : PonGcNode) : G unit :=
  match prev_all n with
  | Some b => upd_node b (λ m, m <| next_all := next_all n |>)
  | None => upd_gc (λ g, g <| nodes_head := next_all n |>)
  end;;
  match next_all n with
  | Some b => upd_node b (λ m, m <| prev_all := prev_all n |>)
  | None => upd_gc (λ g, g <| nodes_tail := prev_all n |>)
  end.

Definition pon_gc_node_free (node : option positive) : G unit :=
  unless_null tt (
    match node with
    | None => mret tt
    | Some a =>
        n ← load a;
        unlink_all n;;
        g ← get_gc;
        (if decide (id n < by_id_cap g)%Z
         then upd_gc (λ g, g <| by_id ::= <[Z.to_nat (id n) := None]> |>) else mret tt);;
        match data n with Some d => free_blob d | None => mret tt end;;
        free_node a;;
        upd_gc (λ g, g <| total_nodes ::= λ v, u64 (v - 1) |>)
    end).

Definition pon_gc_node_by_id (i : Z) : G (option positive) :=
  unless_null None (
    g ← get_gc;
    if decide (by_id_cap g ≤ i)%Z then mret None else deref (by_id g !! Z.to_nat i)).

(** ** References and roots *)

Definition pon_gc_add_ref (from to : option positive) : G unit :=
  match from, to with
  | Some a, Some b =>
      n ← load a;
      let new_cap := if decide (refs_cap n = 0)%Z then 4%Z else u16 (refs_cap n * 2) in
      ok ← (if decide (num_refs n = refs_cap n) then
              if realloc_ok (new_cap * SIZEOF_PTR)%Z then
                upd_node a (λ n, n <| refs ::= λ v, vec_resize v new_cap |>
                                   <| refs_cap := new_cap |>);; mret true
              else mret false
            else mret true);
      if ok : bool then
        n ← load a;
        upd_node a (λ n, n <| num_refs ::= λ v, u16 (v + 1) |>);;
        v ← vec_set (refs n) (num_refs n) (Some b);
        upd_node a (λ n, n <| refs := v |>)
      else mret tt
  | _, _ => mret tt
  end.

(** The search loop of [pon_gc_remove_ref]: the value of [found]. *)
Fixpoint find_ref (v : list cell) (to : option positive) (i k : nat) : G Z :=
  match k with
  | O => mret 0%Z
  | S k' => p ← vec_get v i; if decide (p = to) then mret 1%Z else find_ref v to (S i) k'
  end.

(** [for (i = i0; i < num_refs - 1; i++) refs[i] = refs[i + 1];] *)
Fixpoint shift_refs (v : list cell) (i k : nat) : G (list cell) :=
  match k with
  | O => mret v
  | S k' =>
      p ← vec_get v (S i);
      v' ← vec_set v (Z.of_nat i) p;
      shift_refs v' (S i) k'
  end.

(** [refs] is null exactly when no vector was allocated. *)
Definition pon_gc_remove_ref (from to : option positive) : G unit :=
  match from with
  | None => mret tt
  | Some a =>
      n ← load a;
      if decide (refs n = []) then mret tt else
      found ← find_ref (refs n) to 0 (Z.to_nat (num_refs n));
      if decide (found ≠ 0)%Z then
        v ← shift_refs (refs n) (Z.to_nat found) (Z.to_nat (num_refs n - 1 - found));
        upd_node a (λ n, n <| refs := v |> <| num_refs ::= λ v, u16 (v - 1) |>)
      else mret tt
  end.

Definition pon_gc_add_root (root : option positive) : G unit :=
  unless_null tt (
    match root with
    | None => mret tt
    | Some _ =>
        g ← get_gc;
        let new_cap := if decide (roots_cap g = 0)%Z then 16%Z else s32 (roots_cap g * 2) in
        ok ← (if decide (num_roots g = roots_cap g) then
                if realloc_ok (u64 (new_cap * SIZEOF_PTR))%Z then
                  upd_gc (λ g, g <| roots ::= λ v, vec_resize v new_cap |>
                                 <| roots_cap := new_cap |>);; mret true
                else mret false
              else mret true);
        if ok : bool then
          g ← get_gc;
          upd_gc (λ g, g <| num_roots ::= λ v, s32 (v + 1) |>);;
          v ← vec_set (roots g) (num_roots g) root;
          upd_gc (λ g, g <| roots := v |>)
        else mret tt
    end).

(** ** Mark *)

(** One root of the first phase of [pon_gc_mark]. *)
Definition mark_root (i : nat) : G unit :=
  g ← get_gc; r ← vec_get (roots g) i; enqueue_gray r.

(** [while (gc->gray_head) propagate(gc, dequeue_gray(gc));] *)
Fixpoint mark_loop (fuel : nat) : G unit :=
  g ← get_gc;
  match gray_head g, fuel with
  | None, _ => mret tt
  | Some _, O => ub
  | Some _, S f => node ← dequeue_gray; propagate node;; mark_loop f
  end.

(** Every iteration turns a node that is not black into a black one, so the
    number of nodes bounds the iterations. *)
Definition pon_gc_mark : G Z :=
  unless_null 0%Z (
    g ← get_gc;
    for_range mark_root 0 (Z.to_nat (num_roots g));;
    σ ← get;
    mark_loop (size (nodes σ));;
    upd_gc (λ g, g <| cycles ::= λ v, u64 (v + 1) |>);;
    g ← get_gc;
    mret (live_nodes g)).

Fixpoint step_loop (fuel : nat) (max_notifications processed : Z) : G unit :=
  g ← get_gc;
  match gray_head g with
  | None => mret tt
  | Some _ =>
      if decide (processed < max_notifications)%Z then
        match fuel with
        | O => ub
        | S f =>
            node ← dequeue_gray;
            sent ← propagate node;
            step_loop f max_notifications
              (s32 (processed + (if decide (0 < sent)%Z then sent else 1)))
        end
      else mret tt
  end.

Definition pon_gc_step (max_notifications : Z) : G Z :=
  unless_null 1%Z (
    g ← get_gc;
    match gray_head g with
    | None => mret 1%Z
    | Some _ =>
        σ ← get;
        step_loop (size (nodes σ)) max_notifications 0;;
        g ← get_gc;
        match gray_head g with
        | None => upd_gc (λ g, g <| cycles ::= λ v, u64 (v + 1) |>);; mret 1%Z
        | Some _ => mret 0%Z
        end
    end).

(** ** Sweep *)

(** One node of the sweep: the new value of [freed]. *)
Definition sweep_node (a : positive) (freed : Z) : G Z :=
  n ← load a;
  if decide (color n = PON_GC_WHITE) then
    upd_gc (λ g, g <| dead_nodes ::= λ v, u64 (v + 1) |>);;
    upd_gc (λ g, g <| bytes_freed ::= λ v, u64 (v + data_size n) |>);;
    pon_gc_node_free (Some a);;
    mret (u64 (freed + data_size n))
  else
    upd_node a (λ n, n <| color := PON_GC_WHITE |>);;
    mret freed.

(** [while (node) { next = node->next_all; ...; node = next; }] *)
Fixpoint sweep_loop (fuel : nat) (node : option positive) (freed : Z) : G Z :=
  match node, fuel with
  | None, _ => mret freed
  | Some _, O => ub
  | Some a, S f =>
      n ← load a;
      freed' ← sweep_node a freed;
      sweep_loop f (next_all n) freed'
  end.

Definition pon_gc_sweep : G Z :=
  unless_null 0%Z (
    upd_gc (λ g, g <| dead_nodes := 0%Z |>);;
    upd_gc (λ g, g <| bytes_freed := 0%Z |>);;
    σ ← get;
    g ← get_gc;
    freed ← sweep_loop (size (nodes σ)) (nodes_head g) 0;
    upd_gc (λ g, g <| live_nodes := 0%Z |>);;
    mret freed).

Definition pon_gc_mark_sweep : G Z :=
  unless_null 0%Z (
    pon_gc_mark;;
    pon_gc_sweep;;
    g ← get_gc;
    mret (dead_nodes g)).

(** ** Reset, statistics, destruction *)

Fixpoint reset_loop (fuel : nat) (node : option positive) : G unit :=
  match node, fuel with
  | None, _ => mret tt
  | Some _, O => ub
  | Some a, S f =>
      upd_node a (λ n, n <| color := PON_GC_WHITE |> <| next_gray := NULL |>);;
      n ← load a;
      reset_loop f (next_all n)
  end.

Definition pon_gc_reset : G unit :=
  unless_null tt (
    upd_gc (λ g, g <| gray_head := NULL |> <| gray_tail := NULL |> <| gray_count := 0%Z |>);;
    σ ← get;
    g ← get_gc;
    reset_loop (size (nodes σ)) (nodes_head g);;
    upd_gc (λ g, g <| live_nodes := 0%Z |> <| dead_nodes := 0%Z |>
                   <| notifications_sent := 0%Z |> <| scan_count := 0%Z |>)).

(** The four output parameters: [None] is a null pointer, [Some v] a variable
    that holds [v]. *)
Definition pon_gc_stats (live dead notifications scanned : option Z) :
    G (option Z * option Z * option Z * option Z) :=
  unless_null (live, dead, notifications, scanned) (
    g ← get_gc;
    mret ((λ _, live_nodes g) <$> live, (λ _, dead_nodes g) <$> dead,
          (λ _, notifications_sent g) <$> notifications,
          (λ _, scan_count g) <$> scanned)).

Fixpoint destroy_loop (fuel : nat) (node : option positive) : G unit :=
  match node, fuel with
  | None, _ => mret tt
  | Some _, O => ub
  | Some a, S f =>
      n ← load a;
      match data n with Some d => free_blob d | None => mret tt end;;
      free_node a;;
      destroy_loop f (next_all n)
  end.

Definition pon_gc_destroy : G unit :=
  unless_null tt (
    σ ← get;
    g ← get_gc;
    destroy_loop (size (nodes σ)) (nodes_head g);;
    upd_gc (λ _, pon_gc_zero)).

(** ** Integration with the process *)

(** [true] when the process has a state on return, [false] for [NULL]. *)
Definition erts_pon_gc_state : G bool :=
  σ ← get;
  match pon_gc σ with
  | Some _ => mret true
  | None =>
      match alloc (used_blocks σ) SIZEOF_STATE with
      | None => mret false
      | Some _ =>
          (* the block is written by [pon_gc_init] before it is read *)
          modify (λ σ, σ <| pon_gc := Some pon_gc_zero |>);;
          pon_gc_init;; mret true
      end
  end.

Definition erts_pon_gc_destroy_state : G unit :=
  σ ← get;
  match pon_gc σ with
  | None => mret tt
  | Some _ => pon_gc_destroy;; modify (λ σ, σ <| pon_gc := None |>)
  end.

Definition erts_pon_gc_process_gc : G unit :=
  modify (λ σ, σ <| stats ::= λ t, t <| gc_incremental_steps ::= PON_STATS_INC |> |>).

End pon_gc.
