(* ===== verification/PonGcInv.v ===== *)
(** Well-formedness of the notification collector: the structural invariant of
    the object graph, the part of the state that marking leaves alone (its
    [shape]), reachability, and the rules that execute memory accesses. *)

From S2P Require Import Prelude ErtsAlloc PonStats PonGc.
From stdpp Require Import base tactics numbers list gmap sets fin_maps.
From Stdlib Require Import ZArith Lia.

(** ** The object graph *)

(** The references a node holds, the roots a state holds. *)
Definition node_refs (n : PonGcNode) : list positive :=
  omap cell_ptr (take (Z.to_nat (num_refs n)) (refs n)).

Definition root_list (g : PonGcState) : list positive :=
  omap cell_ptr (take (Z.to_nat (num_roots g)) (roots g)).

Definition succs (N : gmap positive PonGcNode) (a : positive) : list positive :=
  match N !! a with Some n => node_refs n | None => [] end.

Inductive reachable (g : PonGcState) (N : gmap positive PonGcNode) : positive → Prop :=
  | reachable_root a : a ∈ root_list g → reachable g N a
  | reachable_step a b : reachable g N a → b ∈ succs N a → reachable g N b.

(** ** The structural invariant *)

(** A vector of capacity [cap] whose first [n] words are pointers to live nodes. *)
Record vec_ok (N : gmap positive PonGcNode) (v : list cell) (n cap : Z) : Prop := {
  vo_len : Z.of_nat (length v) = cap;
  vo_num : (0 ≤ n ≤ cap)%Z;
  vo_cap : (cap < 2 ^ 31)%Z;
  vo_live i : (Z.of_nat i < n)%Z → ∃ b, v !! i = Some (Val (Some b)) ∧ is_Some (N !! b)
}.

Definition nx_all (N : gmap positive PonGcNode) (a : positive) : option (option positive) :=
  next_all <$> N !! a.
Definition pv_all (N : gmap positive PonGcNode) (a : positive) : option (option positive) :=
  prev_all <$> N !! a.
Definition nx_gray (N : gmap positive PonGcNode) (a : positive) : option (option positive) :=
  next_gray <$> N !! a.

(** [l] is the list of all nodes, from [nodes_head] to [nodes_tail]. *)
Record all_list (g : PonGcState) (N : gmap positive PonGcNode) (l : list positive) : Prop := {
  al_seg : dseg (nx_all N) (pv_all N) None (nodes_head g) l None;
  al_tail : nodes_tail g = last l;
  al_nodup : NoDup l;
  al_dom a : a ∈ l ↔ is_Some (N !! a)
}.

(** [by_id] maps exactly the identifiers of the live nodes to them. *)
Record ids_ok (g : PonGcState) (N : gmap positive PonGcNode) : Prop := {
  io_cap : by_id_cap g = Z.of_nat (length (by_id g));
  io_next : (0 ≤ next_id g)%Z;
  io_node a n : N !! a = Some n →
    (0 ≤ id n < next_id g)%Z ∧ by_id g !! Z.to_nat (id n) = Some (Some a);
  io_entry i a : by_id g !! i = Some (Some a) → ∃ n, N !! a = Some n ∧ id n = Z.of_nat i
}.

(** Payload blocks are allocated and owned by one node each. *)
Record data_ok (N : gmap positive PonGcNode) (B : gset positive) : Prop := {
  do_alloc a n d : N !! a = Some n → data n = Some d → d ∈ B;
  do_inj a a' n n' d : N !! a = Some n → N !! a' = Some n' →
    data n = Some d → data n' = Some d → a = a'
}.

Record graph_wf (g : PonGcState) (N : gmap positive PonGcNode) (B : gset positive) : Prop := {
  gw_list : ∃ l, all_list g N l;
  gw_refs a n : N !! a = Some n → vec_ok N (refs n) (num_refs n) (refs_cap n);
  gw_roots : vec_ok N (roots g) (num_roots g) (roots_cap g);
  gw_ids : ids_ok g N;
  gw_data : data_ok N B;
  gw_total : total_nodes g = u64 (Z.of_nat (size N))
}.

(** Between two collections: every node is white and the queue is empty. *)
Record gc_idle (σ : gcs) : Prop := {
  gi_wf : ∃ g, pon_gc σ = Some g ∧ graph_wf g (nodes σ) (blobs σ) ∧
    gray_head g = None ∧ gray_tail g = None ∧ gray_count g = 0%Z ∧ live_nodes g = 0%Z ∧
    (0 ≤ notifications_sent g < 2 ^ 64)%Z ∧ (0 ≤ scan_count g < 2 ^ 64)%Z;
  gi_white a n : nodes σ !! a = Some n → color n = PON_GC_WHITE
}.

(** ** Shape *)

Definition erase_node (n : PonGcNode) : PonGcNode :=
  n <| color := PON_GC_WHITE |> <| next_gray := NULL |>.

Definition erase_gc (g : PonGcState) : PonGcState :=
  g <| gray_head := NULL |> <| gray_tail := NULL |> <| gray_count := 0%Z |>
    <| live_nodes := 0%Z |> <| notifications_sent := 0%Z |> <| scan_count := 0%Z |>
    <| cycles := 0%Z |>.

(** The object at an address, up to colour, queue link and list links. *)
Definition unlink (n : PonGcNode) : PonGcNode := n <| prev_all := NULL |> <| next_all := NULL |>.

Definition object (n : PonGcNode) : PonGcNode := unlink (erase_node n).

(** Everything but the colours, the queue and the counters of marking. *)
Definition shape (σ : gcs) : option PonGcState * gmap positive PonGcNode * gset positive * PonStats :=
  (erase_gc <$> pon_gc σ, erase_node <$> nodes σ, blobs σ, stats σ).

(** ** Execution of memory accesses *)

Section access.
Implicit Types (g : PonGcState) (N : gmap positive PonGcNode) (B : gset positive).

Lemma wp_get_gc g N B t (Q : PonGcState → gcs → Prop) :
  Q g (mkGcs (Some g) N B t) → wp get_gc Q (mkGcs (Some g) N B t).
Proof. done. Qed.

Lemma wp_read_gc σ g (Q : PonGcState → gcs → Prop) :
  pon_gc σ = Some g → Q g σ → wp get_gc Q σ.
Proof. intros Hg HQ. unfold get_gc. wp_step. wp_step. by eapply wp_deref. Qed.

Lemma wp_upd_gc g N B t f (Q : unit → gcs → Prop) :
  Q tt (mkGcs (Some (f g)) N B t) → wp (upd_gc f) Q (mkGcs (Some g) N B t).
Proof. done. Qed.

Lemma wp_load o N B t a n (Q : PonGcNode → gcs → Prop) :
  N !! a = Some n → Q n (mkGcs o N B t) → wp (load a) Q (mkGcs o N B t).
Proof. intros Hn HQ. unfold load. wp_step. wp_step. by eapply wp_deref. Qed.

Lemma alter_as_insert N a n f : N !! a = Some n → alter f a N = <[a := f n]> N.
Proof.
  intros Hn. apply map_eq. intros b. destruct (decide (a = b)) as [<-|Hab].
  - by rewrite lookup_alter_eq, lookup_insert_eq, Hn.
  - by rewrite lookup_alter_ne, lookup_insert_ne.
Qed.

Lemma wp_upd_node o N B t a n f (Q : unit → gcs → Prop) :
  N !! a = Some n → Q tt (mkGcs o (<[a := f n]> N) B t) →
  wp (upd_node a f) Q (mkGcs o N B t).
Proof.
  intros Hn HQ. unfold upd_node. wp_step. eapply wp_load; [done|].
  wp_step. simpl. by rewrite (alter_as_insert _ _ n).
Qed.

Lemma wp_free_node o N B t a n (Q : unit → gcs → Prop) :
  N !! a = Some n → Q tt (mkGcs o (delete a N) B t) → wp (free_node a) Q (mkGcs o N B t).
Proof. intros Hn HQ. unfold free_node. wp_step. eapply wp_load; [done|]. by wp_step. Qed.

Lemma wp_free_blob o N B t a (Q : unit → gcs → Prop) :
  a ∈ B → Q tt (mkGcs o N (B ∖ {[a]}) t) → wp (free_blob a) Q (mkGcs o N B t).
Proof.
  intros Ha HQ. unfold free_blob. wp_step. wp_step.
  rewrite decide_True by done. by wp_step.
Qed.

Lemma wp_vec_get σ v i p (Q : option positive → gcs → Prop) :
  v !! i = Some (Val p) → Q p σ → wp (vec_get v i) Q σ.
Proof. intros Hv HQ. unfold vec_get. by rewrite Hv. Qed.

Lemma wp_vec_set σ v i p (Q : list cell → gcs → Prop) :
  (0 ≤ i < Z.of_nat (length v))%Z → Q (<[Z.to_nat i := Val p]> v) σ →
  wp (vec_set v i p) Q σ.
Proof. intros Hv HQ. unfold vec_set. by rewrite decide_True. Qed.

Lemma wp_unless_null {A} g N B t (d : A) m (Q : A → gcs → Prop) :
  wp m Q (mkGcs (Some g) N B t) → wp (unless_null d m) Q (mkGcs (Some g) N B t).
Proof. done. Qed.

End access.

(** Reads a node of a store with pending updates. *)
Ltac node_lookup :=
  first
    [ eassumption
    | apply lookup_insert_eq
    | rewrite lookup_insert_ne by done; node_lookup ].

(** Executes one access of [*gc], of a node or of a vector. *)
Ltac gc_step :=
  first
    [ wp_step
    | lazymatch goal with
      | |- wp get_gc _ _ => apply wp_get_gc
      | |- wp (upd_gc _) _ _ => apply wp_upd_gc
      | |- wp (load _) _ _ => eapply wp_load; [node_lookup|]
      | |- wp (upd_node _ _) _ _ => eapply wp_upd_node; [node_lookup|]
      | |- wp (free_node _) _ _ => eapply wp_free_node; [node_lookup|]
      | |- wp (free_blob _) _ _ => eapply wp_free_blob; [by eauto|]
      | |- wp (unless_null _ _) _ _ => apply wp_unless_null
      end ]; cbv beta iota.

Ltac gc_steps := repeat gc_step.

(** Opens a state whose [pon_gc] is known to be [Some g]. *)
Ltac open_state σ :=
  destruct σ as [? ?N ?B ?t]; cbn [pon_gc nodes blobs stats] in *; subst.

(** ** Consequences of well-formedness *)

Lemma vec_ok_lookup N v n cap i b :
  vec_ok N v n cap → (Z.of_nat i < n)%Z → v !! i = Some (Val (Some b)) → is_Some (N !! b).
Proof. intros Hv Hi Hb. destruct (vo_live _ _ _ _ Hv i Hi) as (b' & Hb' & ?). by simplify_eq. Qed.

(** The live prefix of a vector, as the list of the addresses it holds. *)
Lemma vec_ok_prefix N v n cap :
  vec_ok N v n cap →
  take (Z.to_nat n) v = (λ b, Val (Some b)) <$> omap cell_ptr (take (Z.to_nat n) v).
Proof.
  intros Hv.
  assert (Forall (λ c, ∃ b, c = Val (Some b)) (take (Z.to_nat n) v)) as HF.
  { apply Forall_lookup. intros i c Hc. apply lookup_take_Some in Hc as [Hc Hi].
    destruct (vo_live _ _ _ _ Hv i) as (b & Hb & _); [lia|]. naive_solver. }
  induction HF as [|c l [b ->] _ IH]; csimpl; [done|by f_equal].
Qed.

Lemma vec_ok_length N v n cap :
  vec_ok N v n cap → length (omap cell_ptr (take (Z.to_nat n) v)) = Z.to_nat n.
Proof.
  intros Hv. pose proof (vec_ok_prefix _ _ _ _ Hv) as Hp.
  apply (f_equal length) in Hp. rewrite length_fmap, length_take in Hp.
  pose proof (vo_len _ _ _ _ Hv). pose proof (vo_num _ _ _ _ Hv). lia.
Qed.

Lemma vec_ok_get N v n cap i b :
  vec_ok N v n cap →
  omap cell_ptr (take (Z.to_nat n) v) !! i = Some b → v !! i = Some (Val (Some b)).
Proof.
  intros Hv Hi. pose proof (vec_ok_prefix _ _ _ _ Hv) as Hp.
  apply (f_equal (.!! i)) in Hp. rewrite list_lookup_fmap, Hi in Hp. simpl in Hp.
  by apply lookup_take_Some in Hp as [? _].
Qed.

Lemma vec_ok_elem N v n cap b :
  vec_ok N v n cap → b ∈ omap cell_ptr (take (Z.to_nat n) v) → is_Some (N !! b).
Proof.
  intros Hv Hb. apply list_elem_of_lookup in Hb as [i Hi].
  assert (i < Z.to_nat n).
  { rewrite <- (vec_ok_length _ _ _ _ Hv). by eapply lookup_lt_Some. }
  eapply vec_ok_lookup; [done| |by eapply vec_ok_get]. lia.
Qed.

(** Reachable objects are live: no reference dangles. *)
Lemma reachable_live g N B a : graph_wf g N B → reachable g N a → is_Some (N !! a).
Proof.
  intros Hwf. induction 1 as [a Ha|a b _ _ Hb].
  - eapply vec_ok_elem; [apply (gw_roots _ _ _ Hwf)|done].
  - unfold succs in Hb. destruct (N !! a) as [n|] eqn:Hn; [|by apply elem_of_nil in Hb].
    eapply vec_ok_elem; [by eapply (gw_refs _ _ _ Hwf)|done].
Qed.

(** ** Invariance under marking *)

Lemma shape_node σ σ' a n :
  shape σ' = shape σ → nodes σ !! a = Some n →
  ∃ n', nodes σ' !! a = Some n' ∧ erase_node n' = erase_node n.
Proof.
  intros [= _ HN _ _] Hn. apply (f_equal (.!! a)) in HN.
  rewrite !lookup_fmap, Hn in HN. simpl in HN. apply fmap_Some in HN as (n' & ? & ?). eauto.
Qed.

Lemma shape_is_Some σ σ' a :
  shape σ' = shape σ → is_Some (nodes σ !! a) → is_Some (nodes σ' !! a).
Proof. intros Hs [n Hn]. edestruct shape_node as (n' & ? & _); eauto. Qed.

Lemma shape_gc σ σ' g :
  shape σ' = shape σ → pon_gc σ = Some g →
  ∃ g', pon_gc σ' = Some g' ∧ erase_gc g' = erase_gc g.
Proof.
  intros [= Hg _ _ _] Hs. rewrite Hs in Hg. simpl in Hg.
  apply fmap_Some in Hg as (g' & ? & ?). eauto.
Qed.

Lemma shape_size σ σ' : shape σ' = shape σ → size (nodes σ') = size (nodes σ).
Proof. intros [= _ HN _ _]. apply (f_equal size) in HN. by rewrite !map_size_fmap in HN. Qed.

Lemma erase_node_fields n n' :
  erase_node n' = erase_node n →
  num_refs n' = num_refs n ∧ refs_cap n' = refs_cap n ∧ refs n' = refs n ∧
  prev_all n' = prev_all n ∧ next_all n' = next_all n ∧ data n' = data n ∧
  data_size n' = data_size n ∧ id n' = id n.
Proof. by intros [= -> -> -> -> -> -> -> ->]. Qed.

Lemma object_fields n n' :
  object n' = object n →
  num_refs n' = num_refs n ∧ refs_cap n' = refs_cap n ∧ refs n' = refs n ∧ data n' = data n ∧
  data_size n' = data_size n ∧ id n' = id n.
Proof. by intros [= -> -> -> -> -> ->]. Qed.

Lemma erase_gc_fields g g' :
  erase_gc g' = erase_gc g →
  roots g' = roots g ∧ num_roots g' = num_roots g ∧ roots_cap g' = roots_cap g ∧
  nodes_head g' = nodes_head g ∧ nodes_tail g' = nodes_tail g ∧
  total_nodes g' = total_nodes g ∧ by_id g' = by_id g ∧ by_id_cap g' = by_id_cap g ∧
  next_id g' = next_id g.
Proof. by intros [= -> -> -> -> -> -> -> -> ->]. Qed.

Lemma shape_succs σ σ' a : shape σ' = shape σ → succs (nodes σ') a = succs (nodes σ) a.
Proof.
  intros Hs. unfold succs. destruct (nodes σ !! a) as [n|] eqn:Hn.
  - destruct (shape_node _ _ _ _ Hs Hn) as (n' & -> & He).
    apply erase_node_fields in He as (Hk & _ & Hr & _). unfold node_refs. by rewrite Hk, Hr.
  - destruct (nodes σ' !! a) as [n'|] eqn:Hn'; [|done].
    symmetry in Hs. destruct (shape_node _ _ _ _ Hs Hn') as (n & Hn2 & _). congruence.
Qed.

Lemma shape_root_list σ σ' g g' :
  shape σ' = shape σ → pon_gc σ = Some g → pon_gc σ' = Some g' → root_list g' = root_list g.
Proof.
  intros Hs Hg Hg'. destruct (shape_gc _ _ _ Hs Hg) as (g'' & Hg'' & He).
  assert (g'' = g') as -> by congruence.
  apply erase_gc_fields in He as (Hr & Hk & _). unfold root_list. by rewrite Hr, Hk.
Qed.

Lemma shape_reachable σ σ' g g' a :
  shape σ' = shape σ → pon_gc σ = Some g → pon_gc σ' = Some g' →
  reachable g (nodes σ) a → reachable g' (nodes σ') a.
Proof.
  intros Hs Hg Hg'. induction 1 as [a Ha|a b _ IH Hb].
  - constructor. by erewrite shape_root_list.
  - eapply reachable_step; [done|]. by erewrite shape_succs.
Qed.

Lemma vec_ok_mono N N' v n cap :
  (∀ b, is_Some (N !! b) → is_Some (N' !! b)) → vec_ok N v n cap → vec_ok N' v n cap.
Proof.
  intros HN [Hl Hn Hc Hv]. split; [done|done|done|]. intros i Hi.
  destruct (Hv i Hi) as (b & ? & ?). eauto.
Qed.

Section shape_invariance.
Context (σ σ' : gcs) (g g' : PonGcState).
Context (Hs : shape σ' = shape σ) (Hg : pon_gc σ = Some g) (Hg' : pon_gc σ' = Some g').

Lemma shape_back a n' :
  nodes σ' !! a = Some n' → ∃ n, nodes σ !! a = Some n ∧ erase_node n' = erase_node n.
Proof using Hs.
  intros Hn'. destruct (shape_node _ _ _ _ (eq_sym Hs) Hn') as (n & ? & ?). eauto.
Qed.

Lemma shape_gc_fields : erase_gc g' = erase_gc g.
Proof using Hs Hg Hg'. destruct (shape_gc _ _ _ Hs Hg) as (g2 & Hg2 & He). congruence. Qed.

Lemma all_list_shape l : all_list g (nodes σ) l → all_list g' (nodes σ') l.
Proof using Hs Hg Hg'.
  pose proof shape_gc_fields as Heg. apply erase_gc_fields in Heg as (_&_&_&E4&E5&_).
  intros [Hseg Htl Hnd Hdl]. split; [|congruence|done|].
  - rewrite E4. eapply dseg_frame; [..|done]; intros a Ha;
      apply Hdl in Ha as [n Hn]; destruct (shape_node _ _ _ _ Hs Hn) as (n' & Hn' & He);
      apply erase_node_fields in He as (_&_&_&?&?&_); unfold nx_all, pv_all;
      rewrite Hn, Hn'; simpl; congruence.
  - intros a. rewrite Hdl. split; by apply shape_is_Some.
Qed.

Lemma ids_ok_shape : ids_ok g (nodes σ) → ids_ok g' (nodes σ').
Proof using Hs Hg Hg'.
  pose proof shape_gc_fields as Heg. apply erase_gc_fields in Heg as (_&_&_&_&_&_&E7&E8&E9).
  intros [I1 I2 I3 I4]. split; [congruence|lia| |].
  - intros a n' Hn'. destruct (shape_back _ _ Hn') as (n & Hn & He).
    apply erase_node_fields in He as (_&_&_&_&_&_&_&->). rewrite E7, E9. eauto.
  - intros i a Hi. rewrite E7 in Hi. destruct (I4 _ _ Hi) as (n & Hn & <-).
    destruct (shape_node _ _ _ _ Hs Hn) as (n' & Hn' & He).
    apply erase_node_fields in He as (_&_&_&_&_&_&_&?). eauto.
Qed.

Lemma data_ok_shape : data_ok (nodes σ) (blobs σ) → data_ok (nodes σ') (blobs σ').
Proof using Hs.
  intros [D1 D2]. assert (blobs σ' = blobs σ) as -> by (by injection Hs). split.
  - intros a n' d Hn' Hd'. destruct (shape_back _ _ Hn') as (n & Hn & He).
    apply erase_node_fields in He as (_&_&_&_&_&Hdd&_). rewrite Hdd in Hd'. eauto.
  - intros a b n1 n2 d Hn1 Hn2 Hd1 Hd2.
    destruct (shape_back _ _ Hn1) as (m1 & Hm1 & He1).
    destruct (shape_back _ _ Hn2) as (m2 & Hm2 & He2).
    apply erase_node_fields in He1 as (_&_&_&_&_&Hdd1&_).
    apply erase_node_fields in He2 as (_&_&_&_&_&Hdd2&_).
    rewrite Hdd1 in Hd1. rewrite Hdd2 in Hd2. eauto.
Qed.

Lemma total_shape :
  total_nodes g = u64 (Z.of_nat (size (nodes σ))) → total_nodes g' = u64 (Z.of_nat (size (nodes σ'))).
Proof using Hs Hg Hg'.
  pose proof shape_gc_fields as Heg. apply erase_gc_fields in Heg as (_&_&_&_&_&->&_).
  intros ->. by erewrite shape_size.
Qed.

Lemma graph_wf_shape : graph_wf g (nodes σ) (blobs σ) → graph_wf g' (nodes σ') (blobs σ').
Proof using Hs Hg Hg'.
  intros [[l Hl] Hr Hro Hid Hd Ht].
  assert (∀ b, is_Some (nodes σ !! b) → is_Some (nodes σ' !! b)) as Hdom
    by (intros b; by apply shape_is_Some).
  split; [exists l; by apply all_list_shape| | |by apply ids_ok_shape|by apply data_ok_shape|by apply total_shape].
  - intros a n' Hn'. destruct (shape_back _ _ Hn') as (n & Hn & He).
    apply erase_node_fields in He as (->&->&->&_). eapply vec_ok_mono; [done|by eapply Hr].
  - pose proof shape_gc_fields as Heg. apply erase_gc_fields in Heg as (->&->&->&_).
    by eapply vec_ok_mono.
Qed.

End shape_invariance.

(** Updates that keep the shape, the colours. *)
Lemma erase_insert (N : gmap positive PonGcNode) a n n' :
  N !! a = Some n → erase_node n' = erase_node n →
  erase_node <$> <[a := n']> N = erase_node <$> N.
Proof.
  intros Hn He. rewrite fmap_insert, He. apply insert_id. by rewrite lookup_fmap, Hn.
Qed.

Lemma color_insert (N : gmap positive PonGcNode) a n n' :
  N !! a = Some n → color n' = color n → color <$> <[a := n']> N = color <$> N.
Proof.
  intros Hn He. rewrite fmap_insert, He. apply insert_id. by rewrite lookup_fmap, Hn.
Qed.

Lemma shape_mk g g' N N' B t :
  erase_gc g' = erase_gc g → erase_node <$> N' = erase_node <$> N →
  shape (mkGcs (Some g') N' B t) = shape (mkGcs (Some g) N B t).
Proof. intros Hg HN. unfold shape. cbn -[erase_gc erase_node]. by rewrite Hg, HN. Qed.
