(* ===== verification/PonGcMark.v ===== *)
(** The mark phase of the notification collector.

    [mstate] is the abstract marking machine: colours, the gray queue and the
    counters. The operations of [PonGc.v] refine it; the tri-colour invariant
    and termination are proved on it and carried to the code. *)

From S2P Require Import Prelude ErtsAlloc PonStats PonGc PonGcInv.
From stdpp Require Import base tactics numbers list gmap sets fin_maps.
From Stdlib Require Import ZArith Lia.

(** ** The abstract machine *)

Record mstate : Type := mkMstate {
  mcol : gmap positive PonGcColor;
  mq : list positive;
  mlive : Z;
  msent : Z;
  mscan : Z
}.

Definition m_enqueue (a : positive) (m : mstate) : mstate :=
  if decide (mcol m !! a = Some PON_GC_WHITE)
  then mkMstate (<[a := PON_GC_GRAY]> (mcol m)) (mq m ++ [a]) (mlive m + 1) (msent m) (mscan m)
  else m.

Definition m_dequeue (m : mstate) : mstate :=
  mkMstate (mcol m) (tail (mq m)) (mlive m) (msent m) (mscan m).

(** Notify one reference; the integer counts the notifications sent. *)
Definition m_visit (b : positive) (mk : mstate * Z) : mstate * Z :=
  if decide (mcol (mk.1) !! b = Some PON_GC_WHITE) then (m_enqueue b mk.1, mk.2 + 1)%Z else mk.

Definition m_visits (bs : list positive) (m : mstate) : mstate * Z :=
  foldl (λ mk b, m_visit b mk) (m, 0%Z) bs.

Definition m_blacken (a : positive) (sent : Z) (m : mstate) : mstate :=
  mkMstate (<[a := PON_GC_BLACK]> (mcol m)) (mq m) (mlive m) (msent m + sent) (mscan m + 1).

Definition m_propagate (bs : list positive) (a : positive) (m : mstate) : mstate :=
  let '(m', sent) := m_visits bs m in m_blacken a sent m'.

Definition m_step (sc : positive → list positive) (m : mstate) : mstate :=
  match mq m with
  | [] => m
  | a :: _ => m_propagate (sc a) a (m_dequeue m)
  end.

(** ** The refinement relation *)

Record mark_rel (σ : gcs) (m : mstate) : Prop := {
  mr_gc : ∃ g, pon_gc σ = Some g ∧
    lseg (nx_gray (nodes σ)) (gray_head g) (mq m) None ∧
    gray_tail g = last (mq m) ∧ gray_count g = s32 (Z.of_nat (length (mq m))) ∧
    live_nodes g = u64 (mlive m) ∧ notifications_sent g = u64 (msent m) ∧
    scan_count g = u64 (mscan m);
  mr_col : mcol m = color <$> nodes σ;
  mr_nodup : NoDup (mq m);
  mr_gray a : a ∈ mq m → mcol m !! a = Some PON_GC_GRAY
}.

(** The tri-colour invariant, relative to a set [P] closed under references:
    no black node points to a white one, the queue holds every gray node
    except [cur], and only nodes of [P] are coloured. *)
Record tri_inv (sc : positive → list positive) (P : positive → Prop)
    (cur : option positive) (m : mstate) : Prop := {
  ti_black a b : mcol m !! a = Some PON_GC_BLACK → b ∈ sc a → mcol m !! b ≠ Some PON_GC_WHITE;
  ti_gray a : mcol m !! a = Some PON_GC_GRAY → a ∈ mq m ∨ cur = Some a;
  ti_reach a c : mcol m !! a = Some c → c ≠ PON_GC_WHITE → P a
}.

(** The nodes that marking has still to process. *)
Definition nonblack (m : mstate) : gmap positive PonGcColor :=
  filter (λ kc, kc.2 ≠ PON_GC_BLACK) (mcol m).
Definition nonwhite (m : mstate) : gmap positive PonGcColor :=
  filter (λ kc, kc.2 ≠ PON_GC_WHITE) (mcol m).

(** ** The abstract machine preserves the tri-colour invariant *)

Section machine.
Implicit Types m : mstate.

Lemma m_visit_eq b m k :
  m_visit b (m, k) =
  if decide (mcol m !! b = Some PON_GC_WHITE) then (m_enqueue b m, k + 1)%Z else (m, k).
Proof. done. Qed.

(** Induction along the notifications of one node. *)
Lemma m_visits_ind (R : mstate → Z → Prop) bs m k :
  R m k →
  (∀ m' k' b, b ∈ bs → R m' k' → mcol m' !! b = Some PON_GC_WHITE → R (m_enqueue b m') (k' + 1)%Z) →
  R (foldl (λ mk b, m_visit b mk) (m, k) bs).1 (foldl (λ mk b, m_visit b mk) (m, k) bs).2.
Proof.
  revert m k. induction bs as [|b bs IH]; intros m k HR Hstep; [done|].
  cbn [foldl]. rewrite m_visit_eq. case_decide as Hw.
  - apply IH; [|intros; apply Hstep; [by right|done..]]. apply Hstep; [left|done..].
  - apply IH; [done|]. intros; apply Hstep; [by right|done..].
Qed.

Lemma m_enqueue_white a m :
  mcol m !! a = Some PON_GC_WHITE →
  m_enqueue a m = mkMstate (<[a := PON_GC_GRAY]> (mcol m)) (mq m ++ [a]) (mlive m + 1) (msent m) (mscan m).
Proof. intros Ha. unfold m_enqueue. by rewrite decide_True. Qed.

(** A notification only turns white nodes gray, and queues exactly those. *)
Lemma m_visits_color bs m x :
  mcol (m_visits bs m).1 !! x = mcol m !! x ∨
  (mcol m !! x = Some PON_GC_WHITE ∧ mcol (m_visits bs m).1 !! x = Some PON_GC_GRAY ∧ x ∈ bs).
Proof.
  apply (m_visits_ind (λ m' _, mcol m' !! x = mcol m !! x ∨
    (mcol m !! x = Some PON_GC_WHITE ∧ mcol m' !! x = Some PON_GC_GRAY ∧ x ∈ bs))); [by left|].
  intros m' k' b Hb IH Hw. rewrite m_enqueue_white by done. cbn [mcol].
  destruct (decide (b = x)) as [->|]; [|by rewrite lookup_insert_ne].
  rewrite lookup_insert_eq. right. destruct IH as [IH|(? & ? & ?)]; split_and!; congruence.
Qed.

Lemma m_visits_queue bs m x :
  x ∈ mq (m_visits bs m).1 ↔
  x ∈ mq m ∨ (mcol m !! x = Some PON_GC_WHITE ∧ mcol (m_visits bs m).1 !! x = Some PON_GC_GRAY).
Proof.
  apply (m_visits_ind (λ m' _, (x ∈ mq m' ↔ x ∈ mq m ∨
    (mcol m !! x = Some PON_GC_WHITE ∧ mcol m' !! x = Some PON_GC_GRAY)) ∧
    (mcol m' !! x = Some PON_GC_WHITE → mcol m !! x = Some PON_GC_WHITE))); [naive_solver|].
  intros m' k' b Hb [IH IHw] Hw. rewrite m_enqueue_white by done. cbn [mcol mq].
  rewrite elem_of_app, list_elem_of_singleton.
  destruct (decide (b = x)) as [->|]; [rewrite lookup_insert_eq; naive_solver|].
  rewrite lookup_insert_ne by done. naive_solver.
Qed.

Lemma m_visits_nonwhite bs m b : b ∈ bs → mcol (m_visits bs m).1 !! b ≠ Some PON_GC_WHITE.
Proof.
  unfold m_visits. generalize 0%Z. revert m.
  induction bs as [|b' bs IH]; intros m k Hb; [by apply elem_of_nil in Hb|].
  apply elem_of_cons in Hb as [<-|Hb]; [|cbn [foldl]; destruct (m_visit b' (m, k)); by apply IH].
  cbn [foldl].
  assert (mcol (m_visit b (m, k)).1 !! b ≠ Some PON_GC_WHITE) as Hb.
  { unfold m_visit. cbn [fst]. case_decide as Hw; [|done].
    rewrite m_enqueue_white by done. cbn. by rewrite lookup_insert_eq. }
  destruct (m_visit b (m, k)) as [m' k']. cbn [fst] in Hb.
  apply (m_visits_ind (λ m' _, mcol m' !! b ≠ Some PON_GC_WHITE)); [done|].
  intros m'' k'' c _ IHb Hc. rewrite m_enqueue_white by done. cbn [mcol].
  destruct (decide (c = b)) as [->|]; [by rewrite lookup_insert_eq|by rewrite lookup_insert_ne].
Qed.

Lemma m_visits_sent bs m k :
  (k ≤ (foldl (λ mk b, m_visit b mk) (m, k) bs).2 ≤ k + Z.of_nat (length bs))%Z.
Proof.
  revert m k. induction bs as [|b bs IH]; intros m k; [simpl; lia|].
  cbn [foldl length]. rewrite m_visit_eq. case_decide.
  - pose proof (IH (m_enqueue b m) (k + 1)%Z). lia.
  - pose proof (IH m k). lia.
Qed.

Lemma filter_color_insert (P : PonGcColor → Prop) `{!∀ c, Decision (P c)}
    (C : gmap positive PonGcColor) a c c' :
  C !! a = Some c →
  size (filter (λ kc, P kc.2) (<[a := c']> C)) + (if decide (P c) then 1 else 0) =
  size (filter (λ kc, P kc.2) C) + (if decide (P c') then 1 else 0).
Proof.
  intros Ha. rewrite <- (insert_delete_id C a c Ha) at 2. rewrite <- (insert_delete_eq C a c').
  set (D := delete a C). assert (D !! a = None) as HD by apply lookup_delete_eq.
  assert (∀ x, size (filter (λ kc, P kc.2) (<[a := x]> D)) =
    size (filter (λ kc : positive * PonGcColor, P kc.2) D) + (if decide (P x) then 1 else 0)) as Hx.
  { intros x. rewrite map_filter_insert. cbn [snd]. case_decide.
    - rewrite map_size_insert_None; [lia|]. apply map_lookup_filter_None. by left.
    - rewrite delete_id by done. lia. }
  rewrite !Hx. lia.
Qed.

(** Notifications keep the number of nodes to process, and the number of
    coloured nodes grows with [mlive]. *)
Lemma m_visits_counts bs m :
  size (nonblack (m_visits bs m).1) = size (nonblack m) ∧
  (mlive (m_visits bs m).1 - Z.of_nat (size (nonwhite (m_visits bs m).1)) =
   mlive m - Z.of_nat (size (nonwhite m)))%Z ∧
  msent (m_visits bs m).1 = msent m ∧ mscan (m_visits bs m).1 = mscan m.
Proof.
  apply (m_visits_ind (λ m' _, size (nonblack m') = size (nonblack m) ∧
    (mlive m' - Z.of_nat (size (nonwhite m')) = mlive m - Z.of_nat (size (nonwhite m)))%Z ∧
    msent m' = msent m ∧ mscan m' = mscan m)); [done|].
  intros m' k' b _ (IH1 & IH2 & IH3 & IH4) Hw. rewrite m_enqueue_white by done.
  unfold nonblack, nonwhite in *. cbn [mcol mlive msent mscan] in *.
  pose proof (filter_color_insert (λ c, c ≠ PON_GC_BLACK) (mcol m') b _ PON_GC_GRAY Hw) as H1.
  pose proof (filter_color_insert (λ c, c ≠ PON_GC_WHITE) (mcol m') b _ PON_GC_GRAY Hw) as H2.
  simpl in H1, H2. split_and!; [lia|lia|done|done].
Qed.

(** One step of marking keeps the tri-colour invariant. *)
Lemma tri_inv_enqueue sc P cur a m :
  P a → tri_inv sc P cur m → tri_inv sc P cur (m_enqueue a m).
Proof.
  intros HPa [Hb Hg Hr]. unfold m_enqueue. case_decide as Hw; [|by split].
  split; cbn [mcol mq].
  - intros x y Hx Hy. destruct (decide (a = x)) as [->|]; [by rewrite lookup_insert_eq in Hx|].
    rewrite lookup_insert_ne in Hx by done.
    destruct (decide (a = y)) as [->|]; [by rewrite lookup_insert_eq|].
    rewrite lookup_insert_ne by done. by eapply Hb.
  - intros x Hx. rewrite elem_of_app, list_elem_of_singleton.
    destruct (decide (a = x)) as [->|]; [naive_solver|].
    rewrite lookup_insert_ne in Hx by done. apply Hg in Hx. naive_solver.
  - intros x c Hx Hc. destruct (decide (a = x)) as [->|]; [done|].
    rewrite lookup_insert_ne in Hx by done. by eapply Hr.
Qed.

Lemma tri_inv_visits sc P cur bs m :
  (∀ b, b ∈ bs → P b) → tri_inv sc P cur m → tri_inv sc P cur (m_visits bs m).1.
Proof.
  intros HP Hinv. apply (m_visits_ind (λ m' _, tri_inv sc P cur m')); [done|].
  intros m' k' b Hb IH _. apply tri_inv_enqueue; auto.
Qed.

Lemma tri_inv_step (sc : positive → list positive) P m a q :
  (∀ x y, P x → y ∈ sc x → P y) → mq m = a :: q → mcol m !! a = Some PON_GC_GRAY →
  tri_inv sc P None m → tri_inv sc P None (m_step sc m).
Proof.
  intros HP Hq Ha [Hb Hg Hr]. unfold m_step. rewrite Hq. unfold m_propagate.
  assert (P a) as HPa by (by eapply Hr).
  assert (tri_inv sc P (Some a) (m_dequeue m)) as Hdq.
  { split; cbn [m_dequeue mcol mq]; [done| |done].
    intros x Hx. apply Hg in Hx as [Hx|]; [|done]. rewrite Hq in Hx |- *.
    apply elem_of_cons in Hx as [->|]; eauto. }
  apply (tri_inv_visits _ _ _ (sc a)) in Hdq; [|naive_solver].
  pose proof (m_visits_nonwhite (sc a) (m_dequeue m)) as Hnw.
  destruct (m_visits (sc a) (m_dequeue m)) as [m' k']. cbn [fst] in *.
  destruct Hdq as [Hb' Hg' Hr']. split; cbn [m_blacken mcol mq].
  - intros x y Hx Hy. destruct (decide (a = y)) as [->|]; [by rewrite lookup_insert_eq|].
    rewrite lookup_insert_ne by done.
    destruct (decide (a = x)) as [->|]; [by apply Hnw|].
    rewrite lookup_insert_ne in Hx by done. by eapply Hb'.
  - intros x Hx. destruct (decide (a = x)) as [->|]; [by rewrite lookup_insert_eq in Hx|].
    rewrite lookup_insert_ne in Hx by done. apply Hg' in Hx. naive_solver.
  - intros x c Hx Hc. destruct (decide (a = x)) as [->|]; [done|].
    rewrite lookup_insert_ne in Hx by done. by eapply Hr'.
Qed.

(** The queue holds gray nodes, each once. *)
Definition m_ok (m : mstate) : Prop :=
  NoDup (mq m) ∧ ∀ a, a ∈ mq m → mcol m !! a = Some PON_GC_GRAY.

Lemma m_ok_visits bs m : m_ok m → m_ok (m_visits bs m).1.
Proof.
  intros Hok. apply (m_visits_ind (λ m' _, m_ok m')); [done|].
  intros m' k' b _ [Hnd Hgr] Hw. rewrite m_enqueue_white by done.
  assert (b ∉ mq m') as Hb by (intros Hb%Hgr; congruence).
  split; cbn [mq mcol].
  - apply NoDup_app. split_and!; [done|set_solver|apply NoDup_singleton].
  - intros x [Hx| ->%list_elem_of_singleton]%elem_of_app; [|by rewrite lookup_insert_eq].
    rewrite lookup_insert_ne by naive_solver. auto.
Qed.

Lemma m_ok_step sc m : m_ok m → m_ok (m_step sc m).
Proof.
  intros [Hnd Hgr]. unfold m_step. destruct (mq m) as [|a q] eqn:Hq; [by split; rewrite ?Hq|].
  assert (mcol m !! a = Some PON_GC_GRAY) as Ha by (apply Hgr; left).
  apply NoDup_cons in Hnd as [Haq Hnd].
  assert (m_ok (m_dequeue m)) as Hdq.
  { split; cbn [m_dequeue mq mcol]; rewrite Hq; [done|]. intros x Hx. apply Hgr. by right. }
  unfold m_propagate. pose proof (m_ok_visits (sc a) _ Hdq) as [Hnd' Hgr'].
  pose proof (m_visits_queue (sc a) (m_dequeue m) a) as Hiff.
  destruct (m_visits (sc a) (m_dequeue m)) as [m' k']. cbn [fst m_dequeue mq mcol] in *.
  rewrite Hq in Hiff. cbn [tail] in Hiff.
  assert (a ∉ mq m') as Ham' by (rewrite Hiff; naive_solver).
  split; cbn [m_blacken mq mcol]; [done|].
  intros x Hx. rewrite lookup_insert_ne by naive_solver. auto.
Qed.

(** One step blackens one node and keeps [mlive] in line with the colours. *)
Lemma m_step_counts sc m a q :
  mq m = a :: q → mcol m !! a = Some PON_GC_GRAY →
  S (size (nonblack (m_step sc m))) = size (nonblack m) ∧
  (mlive (m_step sc m) - Z.of_nat (size (nonwhite (m_step sc m))) =
   mlive m - Z.of_nat (size (nonwhite m)))%Z ∧
  (mscan (m_step sc m) = mscan m + 1)%Z.
Proof.
  intros Hq Ha. unfold m_step. rewrite Hq. unfold m_propagate.
  pose proof (m_visits_counts (sc a) (m_dequeue m)) as (H1 & H2 & H3 & H4).
  pose proof (m_visits_color (sc a) (m_dequeue m) a) as Hc.
  destruct (m_visits (sc a) (m_dequeue m)) as [m' k']. cbn [fst] in *.
  assert (mcol m' !! a = Some PON_GC_GRAY) as Ha'.
  { cbn [m_dequeue mcol] in Hc. rewrite Ha in Hc. naive_solver. }
  unfold nonblack, nonwhite in *. cbn [m_blacken m_dequeue mcol mlive mscan] in *.
  pose proof (filter_color_insert (λ c, c ≠ PON_GC_BLACK) (mcol m') a _ PON_GC_BLACK Ha') as E1.
  pose proof (filter_color_insert (λ c, c ≠ PON_GC_WHITE) (mcol m') a _ PON_GC_BLACK Ha') as E2.
  simpl in E1, E2. split_and!; lia.
Qed.

(** When the queue is empty, the coloured nodes are exactly those that the
    coloured set [P] generates: nothing reachable is left white. *)
Lemma tri_inv_done sc P m a b :
  tri_inv sc P None m → mq m = [] →
  (∀ x, x ∈ sc a → is_Some (mcol m !! x)) →
  mcol m !! a = Some PON_GC_BLACK → b ∈ sc a → mcol m !! b = Some PON_GC_BLACK.
Proof.
  intros [Hb Hg Hr] Hq Hdom Ha Hab. destruct (Hdom b Hab) as [c Hc].
  destruct c; [|apply Hg in Hc as [Hx|]; [|done]|done].
  - by destruct (Hb _ _ Ha Hab).
  - rewrite Hq in Hx. by apply elem_of_nil in Hx.
Qed.

End machine.

(** ** Refinement of the queue operations *)

Section refinement.
Implicit Types (σ : gcs) (m : mstate).

Lemma mark_rel_color σ m a n :
  mark_rel σ m → nodes σ !! a = Some n → mcol m !! a = Some (color n).
Proof. intros Hr Hn. by rewrite (mr_col _ _ Hr), lookup_fmap, Hn. Qed.

Lemma mark_rel_node σ m a : mark_rel σ m → a ∈ mq m → ∃ n, nodes σ !! a = Some n.
Proof.
  intros Hr Ha. pose proof (mr_gray _ _ Hr a Ha) as Hc.
  rewrite (mr_col _ _ Hr), lookup_fmap in Hc. apply fmap_Some in Hc as (n & ? & _). eauto.
Qed.

(** The state after [a] has been linked at the end of the queue. *)
Lemma mark_rel_enqueue g N B t m a n g' N' :
  mark_rel (mkGcs (Some g) N B t) m → N !! a = Some n → a ∉ mq m →
  lseg (nx_gray N') (gray_head g') (mq m ++ [a]) None →
  color <$> N' = <[a := PON_GC_GRAY]> (color <$> N) →
  g' = g <| gray_head := gray_head g' |> <| gray_tail := Some a |>
         <| gray_count := s32 (gray_count g + 1) |> <| live_nodes := u64 (live_nodes g + 1) |> →
  mark_rel (mkGcs (Some g') N' B t)
    (mkMstate (<[a := PON_GC_GRAY]> (mcol m)) (mq m ++ [a]) (mlive m + 1) (msent m) (mscan m)).
Proof.
  intros [(g0 & Hg & _ & _ & Hct & Hlv & Hse & Hsc) Hcol Hnd Hgr] Hn Haq Hseg Hcol' Hg'.
  simpl in *. simplify_eq. split; simpl.
  - eexists. split_and!; [done|done|..]; rewrite Hg'; simpl.
    + by rewrite last_snoc.
    + rewrite Hct, wraps_add, length_app. f_equal. simpl. lia.
    + by rewrite Hlv, wrapu_add.
    + done.
    + done.
  - by rewrite Hcol', Hcol.
  - apply NoDup_app. split_and!; [done|set_solver|apply NoDup_singleton].
  - intros b [Hb| ->%list_elem_of_singleton]%elem_of_app.
    + rewrite lookup_insert_ne by naive_solver. by apply Hgr.
    + apply lookup_insert_eq.
Qed.

Lemma enqueue_gray_refines σ m a :
  mark_rel σ m → is_Some (nodes σ !! a) →
  wp (enqueue_gray (Some a)) (λ _ σ', mark_rel σ' (m_enqueue a m) ∧ shape σ' = shape σ) σ.
Proof.
  intros Hrel [n Hn].
  pose proof Hrel as [(g & Hg & Hseg & Htl & _) Hcol Hnd Hgr].
  pose proof (mark_rel_color _ _ _ _ Hrel Hn) as Hca. open_state σ.
  unfold enqueue_gray, m_enqueue. gc_steps. case_decide as Hw.
  { rewrite decide_False by congruence. wp_step. done. }
  rewrite decide_True by (rewrite Hca; f_equal; destruct (color n); naive_solver).
  assert (a ∉ mq m) as Haq.
  { intros Ha%Hgr. rewrite Hca in Ha. destruct (color n); naive_solver. }
  gc_steps. rewrite insert_insert_eq. cbn [gray_tail update].
  destruct (gray_tail g) as [t'|] eqn:Hgt.
  - assert (t' ∈ mq m) as Htq by (apply last_Some_elem_of; congruence).
    assert (a ≠ t') as Hta by naive_solver.
    destruct (mark_rel_node _ _ _ Hrel Htq) as [nt Hnt]. simpl in Hnt.
    gc_steps. split.
    + eapply mark_rel_enqueue; [done..| | |].
      * eapply lseg_snoc; [done|exact (eq_sym Htl)|done|..]; unfold nx_gray.
        -- intros b Hb Hbt. by rewrite !lookup_insert_ne by naive_solver.
        -- by rewrite lookup_insert_eq.
        -- by rewrite lookup_insert_ne, lookup_insert_eq.
      * erewrite color_insert; [by rewrite fmap_insert|by rewrite lookup_insert_ne|done].
      * reflexivity.
    + apply shape_mk; [done|].
      rewrite (erase_insert _ t' nt), (erase_insert _ a n); [done|done|done| |done].
      by rewrite lookup_insert_ne.
  - assert (mq m = []) as Hq by (by apply last_None).
    gc_steps. split.
    + eapply mark_rel_enqueue; [done..| | |].
      * rewrite Hq. simpl. split; [done|]. unfold nx_gray. rewrite lookup_insert_eq. eauto.
      * by rewrite fmap_insert.
      * reflexivity.
    + apply shape_mk; [done|]. by rewrite (erase_insert _ a n).
Qed.

Lemma dequeue_gray_refines σ m a q :
  mark_rel σ m → mq m = a :: q →
  wp dequeue_gray (λ r σ', r = Some a ∧ mark_rel σ' (m_dequeue m) ∧ shape σ' = shape σ) σ.
Proof.
  intros Hrel Hq. pose proof Hrel as [(g & Hg & Hseg & Htl & Hct & Hlv & Hse & Hsc) Hcol Hnd Hgr].
  destruct (mark_rel_node _ _ a Hrel) as [n Hn]; [rewrite Hq; left|]. open_state σ.
  rewrite Hq in Hseg, Htl, Hct, Hnd, Hgr. simpl in Hseg. destruct Hseg as (Hh & p' & Hp & Hseg).
  unfold nx_gray in Hp. rewrite Hn in Hp. injection Hp as <-.
  apply NoDup_cons in Hnd as [Haq Hnd].
  assert (lseg (nx_gray (<[a := n <| next_gray := NULL |>]> N)) (next_gray n) q None) as Hseg'.
  { eapply lseg_frame; [|done]. intros b Hb. unfold nx_gray.
    rewrite lookup_insert_ne; [done|]. naive_solver. }
  unfold dequeue_gray. gc_steps. rewrite Hh. gc_steps. cbn [gray_head update].
  assert (∀ g', g' = g <| gray_head := next_gray n |> <| gray_tail := last q |>
      <| gray_count := s32 (gray_count g - 1) |> →
    Some a = Some a ∧
    mark_rel (mkGcs (Some g') (<[a := n <| next_gray := NULL |>]> N) B t) (m_dequeue m) ∧
    shape (mkGcs (Some g') (<[a := n <| next_gray := NULL |>]> N) B t) =
      shape (mkGcs (Some g) N B t)) as Hfinal.
  { intros g' ->. split_and!; [done| |].
    - unfold m_dequeue. rewrite Hq. split; simpl; [|by erewrite color_insert|done|set_solver].
      eexists. split_and!; simpl; try done; simpl. rewrite Hct, wraps_sub. f_equal. rewrite length_cons. lia.
    - apply shape_mk; [done|]. by rewrite (erase_insert _ a n). }
  destruct (next_gray n) as [p'|] eqn:Hnn.
  - gc_steps. apply Hfinal. destruct q as [|b q]; [done|]. rewrite Htl.
    rewrite last_cons_cons. by destruct g; simpl in *; subst.
  - gc_steps. apply Hfinal. destruct q as [|b q]; [|by destruct Hseg].
    destruct g; simpl in *; subst; reflexivity.
Qed.

(** ** Refinement of propagation *)

Lemma propagate_ref_refines σ m k a i n b :
  mark_rel σ m → nodes σ !! a = Some n → refs n !! i = Some (Val (Some b)) →
  is_Some (nodes σ !! b) →
  wp (propagate_ref a i (s32 k)) (λ r σ', mark_rel σ' (m_visit b (m, k)).1 ∧
    r = s32 (m_visit b (m, k)).2 ∧ shape σ' = shape σ) σ.
Proof.
  intros Hrel Hn Hi Hb. pose proof Hb as [nb Hnb].
  pose proof (mark_rel_color _ _ _ _ Hrel Hnb) as Hcb.
  pose proof Hrel as [(g & Hg & _) _ _ _].
  unfold propagate_ref, m_visit. cbn [fst snd].
  wp_step. open_state σ. gc_step. wp_step. eapply wp_vec_get; [done|]. cbv beta iota.
  gc_steps. rewrite Hcb. case_decide as Hw.
  - rewrite decide_True by congruence. wp_step.
    eapply wp_mono; [by apply enqueue_gray_refines|].
    intros [] σ' [Hrel' Hs]. wp_step. split_and!; [done|by rewrite wraps_add|done].
  - rewrite decide_False by congruence. by wp_step.
Qed.

(** The loop visits the references that are left. *)
Lemma propagate_loop_refines σ m k a n i j :
  mark_rel σ m → nodes σ !! a = Some n → vec_ok (nodes σ) (refs n) (num_refs n) (refs_cap n) →
  i + j = Z.to_nat (num_refs n) →
  wp (propagate_loop a i j (s32 k)) (λ r σ',
    mark_rel σ' (foldl (λ mk b, m_visit b mk) (m, k) (drop i (node_refs n))).1 ∧
    r = s32 (foldl (λ mk b, m_visit b mk) (m, k) (drop i (node_refs n))).2 ∧
    shape σ' = shape σ) σ.
Proof.
  revert σ m k n i. induction j as [|j IH]; intros σ m k n i Hrel Hn Hv Hij; simpl.
  - wp_step. rewrite drop_ge; [done|]. unfold node_refs.
    rewrite (vec_ok_length _ _ _ _ Hv). lia.
  - assert (i < length (node_refs n)) as Hlt.
    { unfold node_refs. rewrite (vec_ok_length _ _ _ _ Hv). lia. }
    destruct (lookup_lt_is_Some_2 _ _ Hlt) as [b Hb].
    pose proof (vec_ok_get _ _ _ _ _ _ Hv Hb) as Hget.
    rewrite (drop_S _ _ _ Hb). cbn [foldl].
    wp_step. eapply wp_mono.
    { eapply propagate_ref_refines; [done..|]. eapply vec_ok_elem; [done|].
      by eapply list_elem_of_lookup_2. }
    intros r σ' (Hrel' & -> & Hs). destruct (m_visit b (m, k)) as [m' k']. cbn [fst snd] in *.
    destruct (shape_node _ _ _ _ Hs Hn) as (n' & Hn' & He).
    apply erase_node_fields in He as (E1 & E2 & E3 & _).
    assert (node_refs n' = node_refs n) as HE by (unfold node_refs; by rewrite E1, E3).
    rewrite <- HE. eapply wp_mono.
    { apply IH; [done|done| |lia]. rewrite E1, E2, E3. eapply vec_ok_mono; [|done].
      intros c. by apply shape_is_Some. }
    intros r σ'' (? & ? & ?). split_and!; [done|done|congruence].
Qed.

Lemma propagate_refines σ m a n :
  mark_rel σ m → nodes σ !! a = Some n → vec_ok (nodes σ) (refs n) (num_refs n) (refs_cap n) →
  a ∉ mq m → color n ≠ PON_GC_WHITE →
  wp (propagate (Some a)) (λ r σ', r = (m_visits (node_refs n) m).2 ∧
    mark_rel σ' (m_propagate (node_refs n) a m) ∧ shape σ' = shape σ) σ.
Proof.
  intros Hrel Hn Hv Haq Hwn. unfold propagate. wp_step. wp_step.
  pose proof Hrel as [(g & Hg & _) _ _ _]. open_state σ. gc_steps.
  eapply wp_mono.
  { apply (propagate_loop_refines _ m 0%Z); [done|done|done|lia]. }
  intros r σ' (Hrel' & Hr & Hs). rewrite drop_0 in Hrel', Hr.
  pose proof (m_visits_sent (node_refs n) m 0%Z) as Hsent.
  assert (length (node_refs n) = Z.to_nat (num_refs n)) as Hlen by exact (vec_ok_length _ _ _ _ Hv).
  pose proof (vo_num _ _ _ _ Hv). pose proof (vo_cap _ _ _ _ Hv).
  rewrite wraps_small in Hr by lia.
  assert (a ∉ mq (m_visits (node_refs n) m).1) as Haq'.
  { rewrite m_visits_queue. intros [?|[Hw _]]; [done|].
    rewrite (mark_rel_color _ _ _ _ Hrel Hn) in Hw. naive_solver. }
  unfold m_propagate, m_visits in *. destruct (foldl _ _ _) as [m' k'] eqn:Hfold.
  cbn [fst snd] in *. subst r.
  pose proof Hrel' as [(g' & Hg' & Hseg & Htl & Hct & Hlv & Hse & Hsc) Hcol Hnd Hgr].
  destruct (shape_node _ _ _ _ Hs Hn) as (n' & Hn' & _).
  rewrite <- Hs. clear Hs. open_state σ'. gc_steps. split_and!; [done| |].
  - split; simpl.
    + eexists. split_and!; simpl; try done; simpl.
      * eapply lseg_frame; [|done]. intros b Hb. unfold nx_gray.
        rewrite lookup_insert_ne; [done|]. naive_solver.
      * by rewrite Hse, wrapu_add.
      * by rewrite Hsc, wrapu_add.
    + by rewrite fmap_insert, Hcol.
    + done.
    + intros b Hb. rewrite lookup_insert_ne by naive_solver. by apply Hgr.
  - apply shape_mk; [done|]. by rewrite (erase_insert _ a n').
Qed.

End refinement.

(** ** Runs of the machine *)

Definition m_run (sc : positive → list positive) (k : nat) (m : mstate) : mstate :=
  Nat.iter k (m_step sc) m.

(** The first phase of a mark: every root is notified. *)
Definition m_roots (rs : list positive) (m : mstate) : mstate :=
  foldl (λ m a, m_enqueue a m) m rs.

(** The references of every live node are well formed and read as [sc]. *)
Definition refs_as (sc : positive → list positive) (σ : gcs) : Prop :=
  ∀ a n, nodes σ !! a = Some n →
    vec_ok (nodes σ) (refs n) (num_refs n) (refs_cap n) ∧ node_refs n = sc a.

(** The outcome of a complete mark from the state [σ]. *)
Record marked (σ σ' : gcs) : Prop := {
  mk_shape : shape σ' = shape σ;
  mk_queue : ∃ g', pon_gc σ' = Some g' ∧ gray_head g' = None ∧ gray_tail g' = None ∧
    gray_count g' = 0%Z ∧
    live_nodes g' = u64 (Z.of_nat (size (filter (λ an, color an.2 ≠ PON_GC_WHITE) (nodes σ')))) ∧
    (0 ≤ notifications_sent g' < 2 ^ 64)%Z ∧ (0 ≤ scan_count g' < 2 ^ 64)%Z;
  mk_color a n g : pon_gc σ = Some g → nodes σ' !! a = Some n →
    (reachable g (nodes σ) a ∧ color n = PON_GC_BLACK) ∨
    (¬ reachable g (nodes σ) a ∧ color n = PON_GC_WHITE)
}.

Section runs.
Implicit Types (σ : gcs) (m : mstate) (sc : positive → list positive).

Lemma refs_as_shape sc σ σ' : shape σ' = shape σ → refs_as sc σ → refs_as sc σ'.
Proof.
  intros Hs Hr a n' Hn'. destruct (shape_node _ _ _ _ (eq_sym Hs) Hn') as (n & Hn & He).
  destruct (Hr _ _ Hn) as [Hv Hsc]. symmetry in He.
  apply erase_node_fields in He as (E1 & E2 & E3 & _). unfold node_refs in *.
  rewrite E1, E2, E3. split; [|done]. eapply vec_ok_mono; [|done]. intros b. by apply shape_is_Some.
Qed.

Lemma m_roots_visits rs m : m_roots rs m = (m_visits rs m).1.
Proof.
  unfold m_roots, m_visits. generalize 0%Z. revert m.
  induction rs as [|a rs IH]; intros m k; [done|]. cbn [foldl].
  rewrite (IH _ (m_visit a (m, k)).2). f_equal. f_equal.
  rewrite m_visit_eq. unfold m_enqueue. by case_decide.
Qed.

Lemma m_run_S sc k m : m_run sc (S k) m = m_run sc k (m_step sc m).
Proof. apply Nat.iter_succ_r. Qed.

Lemma m_run_add sc j k m : m_run sc (j + k) m = m_run sc j (m_run sc k m).
Proof. apply Nat.iter_add. Qed.

Lemma m_run_done sc k m : mq m = [] → m_run sc k m = m.
Proof.
  intros Hq. induction k as [|k IH]; [done|]. rewrite m_run_S. unfold m_step. by rewrite Hq.
Qed.

(** Two runs that empty the queue end in the same state. *)
Lemma m_run_unique sc j k m :
  mq (m_run sc j m) = [] → mq (m_run sc k m) = [] → m_run sc j m = m_run sc k m.
Proof.
  intros Hj Hk. destruct (Nat.le_ge_cases j k) as [H|H].
  - replace k with ((k - j) + j) by lia. by rewrite m_run_add, (m_run_done _ _ (m_run sc j m)).
  - replace j with ((j - k) + k) by lia. by rewrite m_run_add, (m_run_done _ _ (m_run sc k m)).
Qed.

Lemma m_step_refines σ m sc a q :
  mark_rel σ m → refs_as sc σ → mq m = a :: q →
  wp (dequeue_gray ≫= propagate) (λ r σ',
    r = (m_visits (sc a) (m_dequeue m)).2 ∧ mark_rel σ' (m_step sc m) ∧ shape σ' = shape σ) σ.
Proof.
  intros Hrel Hrefs Hq. wp_step. eapply wp_mono; [by eapply dequeue_gray_refines|].
  intros r σ' (-> & Hrel' & Hs).
  destruct (mark_rel_node σ m a Hrel) as [n Hn]; [rewrite Hq; left|].
  destruct (shape_node _ _ _ _ Hs Hn) as (n' & Hn' & _).
  destruct (refs_as_shape _ _ _ Hs Hrefs _ _ Hn') as [Hv' Hsc].
  pose proof (mr_nodup _ _ Hrel) as Hnd. rewrite Hq in Hnd. apply NoDup_cons in Hnd as [Haq _].
  eapply wp_mono.
  { apply (propagate_refines _ (m_dequeue m) a n'); [done|done|done| |].
    - cbn [m_dequeue mq]. by rewrite Hq.
    - pose proof (mr_gray _ _ Hrel a) as Hg. rewrite Hq in Hg.
      specialize (Hg (list_elem_of_here _ _)).
      pose proof (mark_rel_color _ _ _ _ Hrel' Hn') as Hc. cbn [m_dequeue mcol] in Hc.
      rewrite Hg in Hc. congruence. }
  intros r σ'' (-> & Hrel'' & Hs'). rewrite Hsc in *. split_and!; [done| |congruence].
  unfold m_step. by rewrite Hq.
Qed.

Lemma mark_rel_queue_head σ m g :
  mark_rel σ m → pon_gc σ = Some g → gray_head g = head (mq m).
Proof.
  intros [(g' & Hg' & Hseg & _) _ _ _] Hg. simplify_eq. eapply lseg_head_None. eassumption.
Qed.

(** The mark loop ends within as many iterations as there are nodes to process. *)
Lemma mark_loop_refines fuel σ m sc :
  mark_rel σ m → refs_as sc σ → size (nonblack m) ≤ fuel →
  wp (mark_loop fuel) (λ _ σ', ∃ k, mark_rel σ' (m_run sc k m) ∧ mq (m_run sc k m) = [] ∧
    shape σ' = shape σ) σ.
Proof.
  revert σ m. induction fuel as [|fuel IH]; intros σ m Hrel Hrefs Hfuel;
    pose proof Hrel as [(g & Hg & _) _ _ Hgr];
    pose proof (mark_rel_queue_head _ _ _ Hrel Hg) as Hh; cbn [mark_loop].
  - wp_step. apply (wp_read_gc σ g); [done|]. rewrite Hh.
    destruct (mq m) as [|a q] eqn:Hq.
    + cbn [head]. wp_step. by exists 0.
    + exfalso. specialize (Hgr a (list_elem_of_here _ _)).
      destruct (m_step_counts sc m a q Hq Hgr) as [Hc _]. lia.
  - wp_step. apply (wp_read_gc σ g); [done|]. rewrite Hh.
    destruct (mq m) as [|a q] eqn:Hq.
    + cbn [head]. wp_step. by exists 0.
    + specialize (Hgr a (list_elem_of_here _ _)).
      destruct (m_step_counts sc m a q Hq Hgr) as [Hc _].
      cbn [head]. apply wp_bind. pose proof (m_step_refines _ _ _ _ _ Hrel Hrefs Hq) as Hstep.
      apply wp_bind_inv in Hstep. eapply wp_mono; [exact Hstep|].
      intros r σ' Hr. wp_step. eapply wp_mono; [exact Hr|].
      intros r' σ'' (_ & Hrel' & Hs). eapply wp_mono.
      { apply (IH _ (m_step sc m)); [done|by eapply refs_as_shape|lia]. }
      intros [] σ3 (k & ? & ? & ?). exists (S k). rewrite m_run_S. split_and!; [done|done|congruence].
Qed.

End runs.

(** ** The complete mark *)

(** The abstract state of a process that is between two collections. *)
Definition m_idle (g : PonGcState) (N : gmap positive PonGcNode) : mstate :=
  mkMstate (color <$> N) [] 0 (notifications_sent g) (scan_count g).

Section mark.
Implicit Types (σ : gcs) (m : mstate).

Lemma gc_idle_rel σ g : gc_idle σ → pon_gc σ = Some g → mark_rel σ (m_idle g (nodes σ)).
Proof.
  intros [(g' & Hg' & _ & Hh & Ht & Hc & Hl & Hs & Hk) _] Hg.
  assert (g' = g) as -> by congruence.
  split; cbn; [|done|constructor|intros a Ha; by apply elem_of_nil in Ha].
  exists g. rewrite Hh, Ht, Hc, Hl, !wrapu_small by done. done.
Qed.

Lemma graph_wf_refs_as σ g :
  graph_wf g (nodes σ) (blobs σ) → refs_as (succs (nodes σ)) σ.
Proof.
  intros Hwf a n Hn. split; [by eapply gw_refs|]. unfold succs. by rewrite Hn.
Qed.

Lemma mark_root_refines σ m g i r :
  mark_rel σ m → pon_gc σ = Some g → roots g !! i = Some (Val (Some r)) → is_Some (nodes σ !! r) →
  wp (mark_root i) (λ _ σ', mark_rel σ' (m_enqueue r m) ∧ shape σ' = shape σ) σ.
Proof.
  intros Hrel Hg Hi Hr. unfold mark_root. wp_step. apply (wp_read_gc _ g); [done|].
  wp_step. eapply wp_vec_get; [done|]. by apply enqueue_gray_refines.
Qed.

(** The first phase notifies the roots. *)
Lemma mark_roots_refine σ m g :
  mark_rel σ m → pon_gc σ = Some g → vec_ok (nodes σ) (roots g) (num_roots g) (roots_cap g) →
  wp (for_range mark_root 0 (Z.to_nat (num_roots g)))
    (λ _ σ', mark_rel σ' (m_roots (root_list g) m) ∧ shape σ' = shape σ) σ.
Proof.
  intros Hrel Hg Hv.
  apply (wp_for_range (λ i σ', mark_rel σ' (m_roots (take i (root_list g)) m) ∧ shape σ' = shape σ)).
  - done.
  - intros i σ' [_ Hi] [Hrel' Hs]. rewrite Nat.add_0_l in Hi.
    assert (i < length (root_list g)) as Hlt.
    { unfold root_list. rewrite (vec_ok_length _ _ _ _ Hv). lia. }
    destruct (lookup_lt_is_Some_2 _ _ Hlt) as [r Hr].
    pose proof (vec_ok_get _ _ _ _ _ _ Hv Hr) as Hget.
    destruct (shape_gc _ _ _ Hs Hg) as (g' & Hg' & He).
    apply erase_gc_fields in He as (E & _).
    rewrite (take_S_r _ _ _ Hr). unfold m_roots. rewrite foldl_app. cbn [foldl].
    eapply wp_mono.
    { eapply mark_root_refines; [done|done|by rewrite E|].
      apply (shape_is_Some σ); [done|]. eapply vec_ok_elem; [done|].
      by eapply list_elem_of_lookup_2. }
    intros [] σ'' [? ?]. split; [done|congruence].
  - intros σ' [Hrel' Hs]. rewrite take_ge in Hrel'; [done|].
    unfold root_list. rewrite (vec_ok_length _ _ _ _ Hv). lia.
Qed.

(** The tri-colour invariant after the first phase, started from white nodes. *)
Lemma tri_inv_idle g N (B : gset positive) :
  (∀ a n, N !! a = Some n → color n = PON_GC_WHITE) →
  tri_inv (succs N) (reachable g N) None (m_roots (root_list g) (m_idle g N)).
Proof.
  intros Hw. rewrite m_roots_visits. apply tri_inv_visits; [by constructor|].
  assert (∀ a c, (color <$> N) !! a = Some c → c = PON_GC_WHITE) as Hc.
  { intros a c Ha. rewrite lookup_fmap in Ha. apply fmap_Some in Ha as (n & Hn & ->). eauto. }
  split; cbn [m_idle mcol mq].
  - intros a b Ha%Hc. done.
  - intros a Ha%Hc. done.
  - intros a c Ha%Hc. done.
Qed.

Lemma tri_inv_run sc (P : positive → Prop) k m :
  (∀ x y, P x → y ∈ sc x → P y) → m_ok m → tri_inv sc P None m →
  tri_inv sc P None (m_run sc k m).
Proof.
  intros HP. revert m. induction k as [|k IH]; intros m Hok Hinv; [done|].
  rewrite m_run_S. apply IH; [by apply m_ok_step|].
  destruct (mq m) as [|a q] eqn:Hq; [unfold m_step; by rewrite Hq|].
  eapply tri_inv_step; [done|done| |done]. apply Hok. rewrite Hq. left.
Qed.

Lemma m_run_counts sc k m :
  m_ok m → (mlive (m_run sc k m) - Z.of_nat (size (nonwhite (m_run sc k m))) =
    mlive m - Z.of_nat (size (nonwhite m)))%Z.
Proof.
  revert m. induction k as [|k IH]; intros m Hok; [done|].
  rewrite m_run_S, IH by (by apply m_ok_step).
  destruct (mq m) as [|a q] eqn:Hq; [unfold m_step; by rewrite Hq|].
  eapply m_step_counts; [done|]. apply Hok. rewrite Hq. left.
Qed.

(** A coloured node keeps being coloured: marking never turns a node white. *)
Lemma m_visits_nonwhite_mono bs m x c :
  mcol m !! x = Some c → c ≠ PON_GC_WHITE →
  mcol (m_visits bs m).1 !! x = Some c.
Proof. intros Hx Hc. destruct (m_visits_color bs m x) as [->|[? _]]; [done|congruence]. Qed.

Lemma m_run_nonwhite_mono sc k m x :
  m_ok m → is_Some (mcol m !! x) → mcol m !! x ≠ Some PON_GC_WHITE →
  is_Some (mcol (m_run sc k m) !! x) ∧ mcol (m_run sc k m) !! x ≠ Some PON_GC_WHITE.
Proof.
  revert m. induction k as [|k IH]; intros m Hok [c Hx] Hc; [by eauto|].
  rewrite m_run_S.
  assert (∃ c', mcol (m_step sc m) !! x = Some c' ∧ c' ≠ PON_GC_WHITE) as (c' & Hc' & Hn).
  { unfold m_step. destruct (mq m) as [|a q]; [exists c; naive_solver|]. unfold m_propagate.
    pose proof (m_visits_nonwhite_mono (sc a) (m_dequeue m) x c Hx) as Hv.
    destruct (m_visits _ _) as [m' k']. cbn [fst m_blacken mcol] in *.
    destruct (decide (a = x)) as [->|].
    - rewrite lookup_insert_eq. eexists; split; [done|congruence].
    - rewrite lookup_insert_ne by done. exists c. naive_solver. }
  apply IH; [by apply m_ok_step|by eauto|congruence].
Qed.

Lemma nonwhite_size σ m :
  mark_rel σ m →
  size (nonwhite m) = size (filter (λ an, color an.2 ≠ PON_GC_WHITE) (nodes σ)).
Proof.
  intros Hrel. unfold nonwhite. rewrite (mr_col _ _ Hrel).
  rewrite <- (map_size_fmap color (filter _ (nodes σ))). f_equal.
  apply map_eq. intros a. apply option_eq. intros c.
  rewrite map_lookup_filter_Some, !lookup_fmap, !fmap_Some.
  setoid_rewrite map_lookup_filter_Some. cbn. naive_solver.
Qed.

Lemma nonblack_size σ m : mark_rel σ m → size (nonblack m) ≤ size (nodes σ).
Proof.
  intros Hrel. rewrite <- (map_size_fmap color (nodes σ)), <- (mr_col _ _ Hrel).
  unfold nonblack. apply map_size_filter.
Qed.

(** What a run that empties the queue leaves behind, started from an idle state. *)
Lemma marked_intro σ σ' g k :
  gc_idle σ → pon_gc σ = Some g →
  mark_rel σ' (m_run (succs (nodes σ)) k (m_roots (root_list g) (m_idle g (nodes σ)))) →
  mq (m_run (succs (nodes σ)) k (m_roots (root_list g) (m_idle g (nodes σ)))) = [] →
  shape σ' = shape σ → marked σ σ'.
Proof.
  intros Hidle Hg Hrel Hq Hs. pose proof Hidle as [(g0 & Hg0 & Hwf & _) Hw].
  assert (g0 = g) as -> by congruence.
  set (m0 := m_roots (root_list g) (m_idle g (nodes σ))) in *.
  assert (m_ok m0) as Hok0.
  { unfold m0. rewrite m_roots_visits. apply m_ok_visits.
    split; [constructor|intros a Ha; by apply elem_of_nil in Ha]. }
  assert (tri_inv (succs (nodes σ)) (reachable g (nodes σ)) None m0) as Htri0
    by (by apply (tri_inv_idle _ _ (blobs σ))).
  pose proof (tri_inv_run (succs (nodes σ)) _ k m0
    (λ x y Hx Hy, reachable_step _ _ x y Hx Hy) Hok0 Htri0) as Htri.
  set (m1 := m_run (succs (nodes σ)) k m0) in *.
  assert (∀ a, is_Some (mcol m1 !! a) ↔ is_Some (nodes σ !! a)) as Hdom.
  { intros a. rewrite (mr_col _ _ Hrel), lookup_fmap, fmap_is_Some.
    split; apply shape_is_Some; congruence. }
  assert (∀ a, reachable g (nodes σ) a → mcol m1 !! a = Some PON_GC_BLACK) as Hblack.
  { induction 1 as [a Ha|a b Hra IH Hab].
    - assert (is_Some (mcol m0 !! a) ∧ mcol m0 !! a ≠ Some PON_GC_WHITE) as [H1 H2].
      { unfold m0. rewrite m_roots_visits. split; [|by apply m_visits_nonwhite].
        destruct (m_visits_color (root_list g) (m_idle g (nodes σ)) a) as [->|(_ & -> & _)]; [|done].
        cbn [m_idle mcol]. rewrite lookup_fmap, fmap_is_Some.
        eapply reachable_live; [done|by constructor]. }
      destruct (m_run_nonwhite_mono (succs (nodes σ)) k m0 a Hok0 H1 H2) as [[c Hc] Hnw].
      destruct c; [by destruct Hnw| |done].
      apply (ti_gray _ _ _ _ Htri) in Hc as [Hc|]; [|done].
      rewrite Hq in Hc. by apply elem_of_nil in Hc.
    - eapply tri_inv_done; [done|done| |done|done].
      intros x Hx. apply Hdom. eapply reachable_live; [done|].
      by eapply reachable_step. }
  split; [done| |].
  - destruct (mr_gc _ _ Hrel) as (g' & Hg' & Hseg & Htl & Hct & Hlv & Hsn & Hsc).
    fold m1 in Hseg, Htl, Hct, Hlv. rewrite Hq in Hseg, Htl, Hct.
    exists g'. rewrite Hsn, Hsc. do 4 (split; [done|]). split; [|split; by apply wrapu_range].
    rewrite Hlv, <- (nonwhite_size _ _ Hrel). f_equal. unfold m1.
    pose proof (m_run_counts (succs (nodes σ)) k m0 Hok0) as Hc1.
    destruct (m_visits_counts (root_list g) (m_idle g (nodes σ))) as (_ & Hc2 & _).
    rewrite <- m_roots_visits in Hc2. fold m0 in Hc2.
    assert (size (nonwhite (m_idle g (nodes σ))) = 0) as Hz.
    { apply map_size_empty_iff, map_empty. intros a. apply map_lookup_filter_None.
      right. intros c Ha. cbn [m_idle mcol] in Ha. rewrite lookup_fmap in Ha.
      apply fmap_Some in Ha as (n & Hn & ->). rewrite (Hw _ _ Hn). naive_solver. }
    cbn [m_idle mlive] in Hc2. fold m1 in Hc1 |- *. lia.
  - intros a n g0' Hg0' Hn. assert (g0' = g) as -> by congruence.
    pose proof (mark_rel_color _ _ _ _ Hrel Hn) as Hc. fold m1 in Hc.
    destruct (color n) eqn:Hcn.
    + right. split; [|done]. intros Hr%Hblack. congruence.
    + apply (ti_gray _ _ _ _ Htri) in Hc as [Hc|]; [|done].
      rewrite Hq in Hc. by apply elem_of_nil in Hc.
    + left. split; [|done]. by eapply (ti_reach _ _ _ _ Htri).
Qed.

Lemma pon_gc_mark_spec σ g :
  gc_idle σ → pon_gc σ = Some g →
  wp pon_gc_mark (λ r σ', marked σ σ' ∧
    r = u64 (Z.of_nat (size (filter (λ an, color an.2 ≠ PON_GC_WHITE) (nodes σ'))))) σ.
Proof.
  intros Hidle Hg. pose proof (gi_wf _ Hidle) as (g0 & Hg0 & Hwf & _).
  assert (g0 = g) as -> by congruence.
  pose proof (gc_idle_rel _ _ Hidle Hg) as Hrel0.
  pose proof (graph_wf_refs_as _ _ Hwf) as Hrefs.
  unfold pon_gc_mark, unless_null. wp_step. wp_step. rewrite Hg.
  wp_step. apply (wp_read_gc _ g); [done|]. wp_step.
  eapply wp_mono; [eapply mark_roots_refine; [done|done|apply Hwf]|].
  intros [] σ1 [Hrel1 Hs1]. wp_steps.
  eapply wp_mono.
  { eapply mark_loop_refines; [done|by eapply refs_as_shape|by apply nonblack_size]. }
  intros [] σ2 (k & Hrel2 & Hq2 & Hs2). wp_step.
  assert (shape σ2 = shape σ) as Hs by congruence.
  pose proof (marked_intro _ _ _ _ Hidle Hg Hrel2 Hq2 Hs) as [M1 (g2 & Hg2 & M2) M3].
  open_state σ2. gc_steps. split; [|apply M2]. split; [|eexists; split; [done|done]|done].
  rewrite <- M1. by apply shape_mk.
Qed.

End mark.
