(* ===== verification/PonGcSweep.v ===== *)
(** The sweep phase of the notification collector: unlinking and freeing one
    node, the sweep loop, and the complete collection. *)

From S2P Require Import Prelude ErtsAlloc PonStats PonGc PonGcInv PonGcMark.
From stdpp Require Import base tactics numbers list gmap sets fin_maps.
From Stdlib Require Import ZArith Lia.

(** ** Contents of the store, without the links of the list of all nodes *)

(** The fields of [PonGcState] that freeing a node leaves alone. *)
Definition unlink_gc (g : PonGcState) : PonGcState :=
  g <| nodes_head := NULL |> <| nodes_tail := NULL |> <| total_nodes := 0%Z |> <| by_id := [] |>.

(** The structural part of the invariant that freeing maintains by itself. *)
Record store_wf (g : PonGcState) (N : gmap positive PonGcNode) (B : gset positive)
    (l : list positive) : Prop := {
  sw_list : all_list g N l;
  sw_ids : ids_ok g N;
  sw_data : data_ok N B;
  sw_total : total_nodes g = u64 (Z.of_nat (size N))
}.

(** The white nodes of a list, the bytes and the payload blocks they hold. *)
Definition is_white (N : gmap positive PonGcNode) (a : positive) : Prop :=
  color <$> N !! a = Some PON_GC_WHITE.

#[global] Instance is_white_dec N a : Decision (is_white N a).
Proof. unfold is_white. apply _. Defined.

Definition whites (N : gmap positive PonGcNode) (l : list positive) : list positive :=
  filter (is_white N) l.

Definition node_size (N : gmap positive PonGcNode) (a : positive) : Z :=
  match N !! a with Some n => data_size n | None => 0%Z end.

Definition bytes_of (N : gmap positive PonGcNode) (l : list positive) : Z :=
  foldr (λ a z, (node_size N a + z)%Z) 0%Z l.

Definition payload_of (N : gmap positive PonGcNode) (l : list positive) (d : positive) : Prop :=
  ∃ a n, a ∈ l ∧ N !! a = Some n ∧ data n = Some d.

(** What the sweep leaves at [a]: nothing if it was white, a white node otherwise. *)
Definition swept (N : gmap positive PonGcNode) (a : positive) : option PonGcNode :=
  match N !! a with
  | Some n => if decide (color n = PON_GC_WHITE) then None
              else Some (n <| color := PON_GC_WHITE |>)
  | None => None
  end.

(** ** Freeing one node *)

Section free.
Implicit Types (g : PonGcState) (N : gmap positive PonGcNode) (B : gset positive).

Lemma graph_wf_store g N B : graph_wf g N B → ∃ l, store_wf g N B l.
Proof. intros [[l Hl] _ _ Hid Hd Ht]. exists l. by split. Qed.

Lemma all_list_size g N l : all_list g N l → size N = length l.
Proof.
  intros [_ _ Hnd Hdom]. rewrite <- size_dom.
  replace (dom N) with (list_to_set (C := gset positive) l).
  { by apply size_list_to_set. }
  apply set_eq. intros a. by rewrite elem_of_list_to_set, elem_of_dom, Hdom.
Qed.

(** The invariant of the list after [a] has been taken out. *)
Lemma all_list_remove g N l1 a l2 n g' N' :
  all_list g N (l1 ++ a :: l2) → N !! a = Some n →
  (∀ c, c ≠ a → is_Some (N' !! c) ↔ is_Some (N !! c)) → N' !! a = None →
  (∀ c, c ∈ l1 ++ l2 → nx_all N' c = if decide (last l1 = Some c) then Some (head l2) else nx_all N c) →
  (∀ c, c ∈ l1 ++ l2 → pv_all N' c = if decide (head l2 = Some c) then Some (last l1) else pv_all N c) →
  nodes_head g' = (if decide (l1 = []) then next_all n else nodes_head g) →
  nodes_tail g' = (if decide (l2 = []) then prev_all n else nodes_tail g) →
  all_list g' N' (l1 ++ l2).
Proof.
  intros [Hseg Htl Hnd Hdom] Hn Hd Ha Hnx Hpv Hh Ht.
  destruct (dseg_links _ _ _ _ _ _ _ Hseg) as [Hpa Hna].
  unfold pv_all, nx_all in Hpa, Hna. rewrite Hn in Hpa, Hna. simpl in Hpa, Hna.
  injection Hpa as Hpa. injection Hna as Hna. rewrite last_or_None in Hpa.
  assert (nodes_head g' = head (l1 ++ l2)) as Hhead.
  { rewrite Hh. destruct l1 as [|x l1]; [done|]. simpl in *.
    destruct Hseg as (-> & _). done. }
  split.
  - rewrite Hhead. eapply dseg_remove; [done|done|done|].
    intros c Hc. rewrite Hpv by done. by rewrite last_or_None.
  - rewrite Ht. destruct l2 as [|x l2]; simpl.
    + by rewrite app_nil_r.
    + rewrite Htl. by rewrite !last_app_cons, last_cons_cons.
  - apply NoDup_app in Hnd as (H1 & H2 & H3). apply NoDup_cons in H3 as [H3 H4].
    apply NoDup_app. set_solver.
  - intros c. apply NoDup_app in Hnd as (H1 & H2 & H3). apply NoDup_cons in H3 as [H3 H4].
    destruct (decide (c = a)) as [->|Hc].
    + rewrite Ha. split; [|by intros []]. rewrite elem_of_app. set_solver.
    + rewrite Hd by done. rewrite <- Hdom. set_solver.
Qed.

(** The links that the two neighbours of [a] get. *)
Definition relink (N : gmap positive PonGcNode) (pv nx : option positive) : gmap positive PonGcNode :=
  let N1 := match pv with
            | Some b => alter (λ m, m <| next_all := nx |>) b N
            | None => N
            end in
  match nx with
  | Some b => alter (λ m, m <| prev_all := pv |>) b N1
  | None => N1
  end.

Lemma relink_lookup N pv nx c :
  relink N pv nx !! c =
  (λ n, let n1 := if decide (pv = Some c) then n <| next_all := nx |> else n in
        if decide (nx = Some c) then n1 <| prev_all := pv |> else n1) <$> N !! c.
Proof.
  unfold relink. destruct pv as [b|], nx as [d|]; simpl.
  all: rewrite ?lookup_alter; repeat case_decide; simplify_eq; simpl;
    rewrite ?lookup_alter; repeat case_decide; simplify_eq; simpl; try done;
    by destruct (N !! _).
Qed.

Lemma unlink_relink N pv nx : unlink <$> relink N pv nx = unlink <$> N.
Proof.
  apply map_eq. intros c. rewrite !lookup_fmap, relink_lookup.
  destruct (N !! c) as [n|]; [|done]. simpl. f_equal. by repeat case_decide.
Qed.

Lemma wp_alter_node o N B t a f (Q : unit → gcs → Prop) :
  is_Some (N !! a) → Q tt (mkGcs o (alter f a N) B t) → wp (upd_node a f) Q (mkGcs o N B t).
Proof.
  intros [n Hn] HQ. eapply wp_upd_node; [done|]. by rewrite <- (alter_as_insert _ _ n).
Qed.

(** The list of all nodes links [a] to its neighbours, which are live. *)
Lemma all_list_neighbours g N l1 a l2 n :
  all_list g N (l1 ++ a :: l2) → N !! a = Some n →
  prev_all n = last l1 ∧ next_all n = head l2 ∧
  (∀ b, last l1 = Some b → is_Some (N !! b) ∧ b ≠ a) ∧
  (∀ b, head l2 = Some b → is_Some (N !! b) ∧ b ≠ a).
Proof.
  intros [Hseg _ Hnd Hdom] Hn.
  destruct (dseg_links _ _ _ _ _ _ _ Hseg) as [Hp Hx].
  unfold pv_all, nx_all in Hp, Hx. rewrite Hn in Hp, Hx. simpl in Hp, Hx.
  injection Hp as ->. injection Hx as ->. rewrite last_or_None.
  apply NoDup_app in Hnd as (_ & H2 & H3). apply NoDup_cons in H3 as [H3 _].
  split_and!; [done|done| |].
  - intros b Hb%last_Some_elem_of. split; [|set_solver]. apply Hdom. set_solver.
  - intros b Hb. assert (b ∈ l2) by (destruct l2; [done|injection Hb as ->; left]).
    split; [|set_solver]. apply Hdom. set_solver.
Qed.

(** The state after [pon_gc_node_free] of the node [n] at [a]. *)
Definition unlinked_gc (g : PonGcState) (n : PonGcNode) : PonGcState :=
  let g1 := match prev_all n with Some _ => g | None => g <| nodes_head := next_all n |> end in
  match next_all n with Some _ => g1 | None => g1 <| nodes_tail := prev_all n |> end.

Definition freed_gc (g : PonGcState) (n : PonGcNode) : PonGcState :=
  (unlinked_gc g n) <| by_id ::= <[Z.to_nat (id n) := None]> |> <| total_nodes ::= λ v, u64 (v - 1) |>.

Definition freed_blobs (B : gset positive) (n : PonGcNode) : gset positive :=
  match data n with Some d => B ∖ {[d]} | None => B end.

Definition freed_nodes (N : gmap positive PonGcNode) (a : positive) (n : PonGcNode) :
    gmap positive PonGcNode :=
  delete a (relink N (prev_all n) (next_all n)).

Lemma unlink_all_run g N B t n (Q : unit → gcs → Prop) :
  (∀ b, prev_all n = Some b → is_Some (N !! b)) → (∀ b, next_all n = Some b → is_Some (N !! b)) →
  Q tt (mkGcs (Some (unlinked_gc g n)) (relink N (prev_all n) (next_all n)) B t) →
  wp (unlink_all n) Q (mkGcs (Some g) N B t).
Proof.
  intros Hp Hx HQ. unfold unlink_all, unlinked_gc, relink in *.
  destruct (prev_all n) as [b|], (next_all n) as [c|]; gc_steps; try done.
  all: apply wp_alter_node; [by auto|]; gc_steps; try done.
  apply wp_alter_node; [|done]. rewrite lookup_alter. case_decide; rewrite ?fmap_is_Some; auto.
Qed.

Lemma pon_gc_node_free_run g N B t l1 a l2 n (Q : unit → gcs → Prop) :
  store_wf g N B (l1 ++ a :: l2) → N !! a = Some n →
  Q tt (mkGcs (Some (freed_gc g n)) (freed_nodes N a n) (freed_blobs B n) t) →
  wp (pon_gc_node_free (Some a)) Q (mkGcs (Some g) N B t).
Proof.
  intros [Hl Hid Hd Ht] Hn HQ.
  destruct (all_list_neighbours _ _ _ _ _ _ Hl Hn) as (Hp & Hx & Hpl & Hxl).
  pose proof (io_node _ _ Hid _ _ Hn) as [Hidn Hbi]. pose proof (io_cap _ _ Hid) as Hcap.
  assert (id n < by_id_cap g)%Z as Hlt.
  { apply lookup_lt_Some in Hbi. rewrite Hcap. lia. }
  assert (∀ d, data n = Some d → d ∈ B) as HdB by (intros d; by apply (do_alloc _ _ Hd _ _ _ Hn)).
  unfold pon_gc_node_free. gc_steps.
  apply unlink_all_run; [rewrite Hp; by apply Hpl|rewrite Hx; by apply Hxl|]. gc_steps.
  rewrite decide_True by (unfold unlinked_gc; destruct (prev_all n), (next_all n); done).
  gc_steps. unfold freed_gc, freed_blobs, freed_nodes in HQ.
  assert (∃ n', relink N (prev_all n) (next_all n) !! a = Some n') as [n' Hn'].
  { rewrite relink_lookup, Hn. simpl. eauto. }
  destruct (data n) as [d|]; gc_steps; done.
Qed.

(** Freeing the node maintains the structural invariant. *)
Lemma store_wf_free g N B l1 a l2 n :
  store_wf g N B (l1 ++ a :: l2) → N !! a = Some n →
  store_wf (freed_gc g n) (freed_nodes N a n) (freed_blobs B n) (l1 ++ l2).
Proof.
  intros [Hl Hid Hd Ht] Hn.
  destruct (all_list_neighbours _ _ _ _ _ _ Hl Hn) as (Hp & Hx & Hpl & Hxl).
  assert (∀ c, c ≠ a → freed_nodes N a n !! c = relink N (prev_all n) (next_all n) !! c) as Hlk.
  { intros c Hc. unfold freed_nodes. by rewrite lookup_delete_ne. }
  assert (freed_nodes N a n !! a = None) as Hla by apply lookup_delete_eq.
  assert (∀ c n', freed_nodes N a n !! c = Some n' →
    ∃ n0, N !! c = Some n0 ∧ c ≠ a ∧ id n' = id n0 ∧ data n' = data n0) as Hback.
  { intros c n' Hc. destruct (decide (c = a)) as [->|Hca]; [congruence|].
    rewrite Hlk, relink_lookup in Hc by done. apply fmap_Some in Hc as (n0 & Hn0 & ->).
    exists n0. cbv zeta. repeat case_decide; done. }
  assert (∀ c, c ≠ a → is_Some (freed_nodes N a n !! c) ↔ is_Some (N !! c)) as Hdom.
  { intros c Hc. by rewrite Hlk, relink_lookup, fmap_is_Some by done. }
  assert (∀ c, c ∈ l1 ++ l2 → c ≠ a) as Hne.
  { intros c Hc ->. pose proof (al_nodup _ _ _ Hl) as Hnd.
    apply NoDup_app in Hnd as (_ & H2 & H3). apply NoDup_cons in H3 as [H3 _]. set_solver. }
  split.
  - eapply all_list_remove; [done|done|done|done| | | |].
    + intros c Hc. unfold nx_all. rewrite Hlk, relink_lookup, Hp, Hx by auto.
      destruct (N !! c) eqn:HNc; simpl; repeat case_decide; try done.
      all: exfalso; destruct (Hpl c) as [[? ?] _]; congruence.
    + intros c Hc. unfold pv_all. rewrite Hlk, relink_lookup, Hp, Hx by auto.
      destruct (N !! c) eqn:HNc; simpl; repeat case_decide; try done.
      all: exfalso; destruct (Hxl c) as [[? ?] _]; congruence.
    + unfold freed_gc, unlinked_gc. rewrite Hp, Hx.
      destruct l1 as [|x l1 _] using rev_ind; [by destruct (head l2)|].
      rewrite last_snoc, decide_False by (intros [_ ?]%app_nil; done). by destruct (head l2).
    + unfold freed_gc, unlinked_gc. rewrite Hp, Hx.
      destruct l2 as [|x l2]; simpl; by destruct (last l1).
  - destruct Hid as [I1 I2 I3 I4].
    assert (by_id (freed_gc g n) = <[Z.to_nat (id n) := None]> (by_id g) ∧
      by_id_cap (freed_gc g n) = by_id_cap g ∧ next_id (freed_gc g n) = next_id g) as (E1 & E2 & E3).
    { unfold freed_gc, unlinked_gc. by destruct (prev_all n), (next_all n). }
    split; rewrite ?E1, ?E2, ?E3.
    + by rewrite length_insert.
    + done.
    + intros c n' Hc. destruct (Hback _ _ Hc) as (n0 & Hn0 & Hca & -> & _).
      destruct (I3 _ _ Hn0) as [? Hb]. split; [done|].
      rewrite list_lookup_insert_ne; [done|].
      intros Heq. destruct (I3 _ _ Hn) as [_ Hb']. rewrite Heq in Hb'. congruence.
    + intros i c Hi. destruct (decide (Z.to_nat (id n) = i)) as [<-|Hne'].
      * apply list_lookup_insert_Some in Hi as [(_ & ? & _)|[? _]]; done.
      * rewrite list_lookup_insert_ne in Hi by done.
        destruct (I4 _ _ Hi) as (n0 & Hn0 & Hid0).
        assert (c ≠ a) as Hca by (intros ->; simplify_eq; lia).
        destruct (proj2 (Hdom c Hca)) as [n' Hn']; [by eauto|].
        destruct (Hback _ _ Hn') as (n1 & Hn1 & _ & Hid1 & _). exists n'. split; [done|].
        rewrite Hid1. congruence.
  - destruct Hd as [D1 D2]. split.
    + intros c n' d Hc Hd'. destruct (Hback _ _ Hc) as (n0 & Hn0 & Hca & _ & Hdd).
      unfold freed_blobs. rewrite Hdd in Hd'. pose proof (D1 _ _ _ Hn0 Hd') as HdB.
      destruct (data n) as [d'|] eqn:Hdn; [|done].
      apply elem_of_difference. split; [done|]. rewrite elem_of_singleton. intros ->.
      apply Hca. by eapply D2.
    + intros c c' n1 n2 d Hc1 Hc2 Hd1 Hd2.
      destruct (Hback _ _ Hc1) as (m1 & Hm1 & _ & _ & E1).
      destruct (Hback _ _ Hc2) as (m2 & Hm2 & _ & _ & E2).
      rewrite E1 in Hd1. rewrite E2 in Hd2. by eapply D2.
  - assert (total_nodes (freed_gc g n) = u64 (total_nodes g - 1)) as ->.
    { unfold freed_gc, unlinked_gc. by destruct (prev_all n), (next_all n). }
    rewrite Ht, wrapu_sub. f_equal. unfold freed_nodes.
    assert (size (relink N (prev_all n) (next_all n)) = size N) as HsN.
    { rewrite <- (map_size_fmap unlink (relink _ _ _)), unlink_relink. by rewrite map_size_fmap. }
    rewrite map_size_delete_Some, HsN.
    + assert (size N ≠ 0); [|lia]. apply map_size_ne_0_lookup. eauto.
    + rewrite relink_lookup, Hn. simpl. eauto.
Qed.

End free.

(** ** The sweep loop *)

Section sweep.
Implicit Types (g : PonGcState) (N : gmap positive PonGcNode) (B : gset positive).

Lemma store_wf_shape σ σ' g g' l :
  shape σ' = shape σ → pon_gc σ = Some g → pon_gc σ' = Some g' →
  store_wf g (nodes σ) (blobs σ) l → store_wf g' (nodes σ') (blobs σ') l.
Proof.
  intros Hs Hg Hg' [Hl Hid Hd Ht]. split.
  - by eapply all_list_shape.
  - by eapply ids_ok_shape.
  - by eapply data_ok_shape.
  - by eapply total_shape.
Qed.

Lemma store_wf_whiten g N B l a n :
  N !! a = Some n → store_wf g N B l →
  store_wf g (<[a := n <| color := PON_GC_WHITE |>]> N) B l.
Proof.
  intros Hn Hwf. pose proof (store_wf_shape (mkGcs (Some g) N B pon_stats_zero)
    (mkGcs (Some g) (<[a := n <| color := PON_GC_WHITE |>]> N) B pon_stats_zero) g g l) as H.
  cbn [nodes blobs] in H. apply H; [|done|done|done].
  apply shape_mk; [done|]. by apply (erase_insert _ a n).
Qed.

(** The counters that the sweep updates are not part of the structure. *)
Definition tally (g : PonGcState) (dead freed : Z) : PonGcState :=
  g <| dead_nodes := dead |> <| bytes_freed := freed |>.

Lemma store_wf_tally g N B l d f : store_wf g N B l → store_wf (tally g d f) N B l.
Proof. intros [[] [] Hd Ht]. split; [by split|by split|done|done]. Qed.

Lemma freed_gc_fields g n :
  dead_nodes (freed_gc g n) = dead_nodes g ∧ bytes_freed (freed_gc g n) = bytes_freed g ∧
  unlink_gc (freed_gc g n) = unlink_gc g.
Proof. unfold freed_gc, unlinked_gc. by destruct (prev_all n), (next_all n). Qed.

Lemma unlink_freed_nodes N a n c :
  c ≠ a → unlink <$> freed_nodes N a n !! c = unlink <$> N !! c.
Proof.
  intros Hc. unfold freed_nodes. rewrite lookup_delete_ne by done.
  rewrite <- !lookup_fmap. by rewrite unlink_relink.
Qed.

(** The outcome of sweeping the nodes [l2] of a store. *)
Record swept_from (g : PonGcState) (N : gmap positive PonGcNode) (B : gset positive)
    (l2 : list positive) (g' : PonGcState) (N' : gmap positive PonGcNode) (B' : gset positive) : Prop := {
  sf_nodes c : unlink <$> N' !! c = unlink <$> (if decide (c ∈ l2) then swept N c else N !! c);
  sf_blobs d : d ∈ B' ↔ d ∈ B ∧ ¬ payload_of N (whites N l2) d;
  sf_dead : dead_nodes g' = u64 (dead_nodes g + Z.of_nat (length (whites N l2)));
  sf_bytes : bytes_freed g' = u64 (bytes_freed g + bytes_of N (whites N l2));
  sf_gc : unlink_gc g' = tally (unlink_gc g) (dead_nodes g') (bytes_freed g')
}.

(** Sweeping [l2] only looks at the nodes of [l2], up to their links. *)
Lemma swept_ext N N1 c : unlink <$> N1 !! c = unlink <$> N !! c → unlink <$> swept N1 c = unlink <$> swept N c.
Proof.
  unfold swept. destruct (N !! c) as [n|], (N1 !! c) as [n1|]; simpl; try done.
  intros [= E1 E2 E3 E4 E5 E6 E7 E8]. rewrite E1. case_decide; [done|]. unfold unlink. simpl. congruence.
Qed.

Lemma unlink_fields N N1 c n1 :
  unlink <$> N1 !! c = unlink <$> N !! c → N1 !! c = Some n1 →
  ∃ n, N !! c = Some n ∧ color n1 = color n ∧ data_size n1 = data_size n ∧ data n1 = data n.
Proof.
  intros He Hn1. rewrite Hn1 in He. destruct (N !! c) as [n|]; [|done].
  injection He as ? ? ? ? ? ? ? ?. eauto.
Qed.

Lemma whites_ext N N1 l :
  (∀ c, c ∈ l → unlink <$> N1 !! c = unlink <$> N !! c) →
  whites N1 l = whites N l ∧ bytes_of N1 (whites N l) = bytes_of N (whites N l) ∧
  (∀ d, payload_of N1 (whites N l) d ↔ payload_of N (whites N l) d).
Proof.
  intros Hext.
  assert (∀ c, c ∈ l → color <$> N1 !! c = color <$> N !! c ∧ node_size N1 c = node_size N c ∧
    (N1 !! c ≫= data) = (N !! c ≫= data)) as Hc.
  { intros c Hc. specialize (Hext c Hc). unfold node_size.
    destruct (N !! c) as [n|], (N1 !! c) as [n1|]; simpl in *; try done.
    injection Hext as ? ? ? ? ? ? ? ?. split_and!; congruence. }
  split_and!.
  - clear Hext. induction l as [|c l IH]; [done|]. unfold whites in *.
    rewrite !filter_cons, IH by (intros; apply Hc; by right).
    pose proof (proj1 (Hc c (list_elem_of_here _ _))). unfold is_white in *.
    repeat case_decide; congruence.
  - assert (∀ l', (∀ c, c ∈ l' → c ∈ l) → bytes_of N1 l' = bytes_of N l') as Hb.
    { induction l' as [|c l' IH]; intros Hsub; [done|]. simpl.
      rewrite IH by set_solver. by rewrite (proj1 (proj2 (Hc c ltac:(set_solver)))). }
    apply Hb. intros c Hcl. by apply list_elem_of_filter in Hcl as [_ ?].
  - intros d. unfold payload_of.
    assert (∀ c, c ∈ whites N l → (N1 !! c ≫= data) = (N !! c ≫= data)) as Hd.
    { intros c Hcl. apply Hc. by apply list_elem_of_filter in Hcl as [_ ?]. }
    split; intros (a & n & Ha & Hn & Hdn); specialize (Hd a Ha); rewrite Hn in Hd; simpl in Hd;
      rewrite Hdn in Hd.
    + symmetry in Hd. apply bind_Some in Hd as (n' & ? & ?). eauto.
    + apply bind_Some in Hd as (n' & ? & ?). eauto.
Qed.

Lemma bytes_of_cons N a n l :
  N !! a = Some n → bytes_of N (a :: l) = (data_size n + bytes_of N l)%Z.
Proof. intros Hn. cbn [bytes_of foldr]. unfold node_size. by rewrite Hn. Qed.

Lemma whites_cons_dead N a n l :
  N !! a = Some n → color n = PON_GC_WHITE → whites N (a :: l) = a :: whites N l.
Proof.
  intros Hn Hw. unfold whites. rewrite filter_cons, decide_True; [done|].
  unfold is_white. rewrite Hn. simpl. congruence.
Qed.

Lemma whites_cons_live N a n l :
  N !! a = Some n → color n ≠ PON_GC_WHITE → whites N (a :: l) = whites N l.
Proof.
  intros Hn Hw. unfold whites. rewrite filter_cons, decide_False; [done|].
  unfold is_white. rewrite Hn. simpl. congruence.
Qed.

(** The white nodes of the rest of the list are the same after [a] is swept. *)
Lemma whites_after_dead N a n l :
  a ∉ l → whites (freed_nodes N a n) l = whites N l ∧
  bytes_of (freed_nodes N a n) (whites N l) = bytes_of N (whites N l) ∧
  (∀ d, payload_of (freed_nodes N a n) (whites N l) d ↔ payload_of N (whites N l) d).
Proof. intros Ha. apply whites_ext. intros c Hc. apply unlink_freed_nodes. naive_solver. Qed.

Lemma whites_after_live N a n l :
  a ∉ l → whites (<[a := n]> N) l = whites N l ∧
  bytes_of (<[a := n]> N) (whites N l) = bytes_of N (whites N l) ∧
  (∀ d, payload_of (<[a := n]> N) (whites N l) d ↔ payload_of N (whites N l) d).
Proof.
  intros Ha. apply whites_ext. intros c Hc. rewrite lookup_insert_ne; [done|naive_solver].
Qed.

Lemma sweep_node_white g N B t l1 a l2 n freed (Q : Z → gcs → Prop) :
  store_wf g N B (l1 ++ a :: l2) → N !! a = Some n → color n = PON_GC_WHITE →
  (∀ g', g' = freed_gc (tally g (u64 (dead_nodes g + 1)) (u64 (bytes_freed g + data_size n))) n →
    store_wf g' (freed_nodes N a n) (freed_blobs B n) (l1 ++ l2) →
    Q (u64 (freed + data_size n)) (mkGcs (Some g') (freed_nodes N a n) (freed_blobs B n) t)) →
  wp (sweep_node a freed) Q (mkGcs (Some g) N B t).
Proof.
  intros Hwf Hn Hw HQ. unfold sweep_node. gc_steps. rewrite decide_True by done. gc_steps.
  pose proof (store_wf_tally _ _ _ _ (u64 (dead_nodes g + 1)) (u64 (bytes_freed g + data_size n)) Hwf) as Hwf'.
  eapply pon_gc_node_free_run; [exact Hwf'|done|].
  cbv beta. wp_step. apply HQ; [done|]. by apply store_wf_free.
Qed.

Lemma sweep_node_live g N B t a n freed (Q : Z → gcs → Prop) :
  N !! a = Some n → color n ≠ PON_GC_WHITE →
  Q freed (mkGcs (Some g) (<[a := n <| color := PON_GC_WHITE |>]> N) B t) →
  wp (sweep_node a freed) Q (mkGcs (Some g) N B t).
Proof.
  intros Hn Hw HQ. unfold sweep_node. gc_steps. rewrite decide_False by done. by gc_steps.
Qed.

(** Composition of one swept node with the rest of the list. *)
Lemma swept_from_dead g N B a n l2 g1 g' N' B' :
  N !! a = Some n → color n = PON_GC_WHITE → a ∉ l2 →
  g1 = freed_gc (tally g (u64 (dead_nodes g + 1)) (u64 (bytes_freed g + data_size n))) n →
  swept_from g1 (freed_nodes N a n) (freed_blobs B n) l2 g' N' B' →
  swept_from g N B (a :: l2) g' N' B'.
Proof.
  intros Hn Hw Ha -> [S1 S2 S3 S4 S5].
  destruct (freed_gc_fields (tally g (u64 (dead_nodes g + 1)) (u64 (bytes_freed g + data_size n))) n) as (E1 & E2 & E3).
  rewrite E1 in S3. rewrite E2 in S4. rewrite E3 in S5. simpl in S3, S4.
  destruct (whites_after_dead N a n l2 Ha) as (W1 & W2 & W3).
  rewrite W1 in S2, S3, S4. rewrite W2 in S4.
  pose proof (whites_cons_dead N a n l2 Hn Hw) as Hcons.
  split.
  - intros c. rewrite S1. destruct (decide (c = a)) as [->|Hca].
    + rewrite decide_False by done. rewrite decide_True by left.
      unfold freed_nodes, swept. rewrite lookup_delete_eq, Hn. by rewrite decide_True.
    + destruct (decide (c ∈ l2)); [rewrite decide_True by (by right)|rewrite decide_False by set_solver].
      * apply swept_ext. by apply unlink_freed_nodes.
      * by apply unlink_freed_nodes.
  - intros d. rewrite S2, Hcons, W3. unfold freed_blobs, payload_of. destruct (data n) as [d'|] eqn:Hdn.
    + rewrite elem_of_difference, elem_of_singleton. split.
      * intros [[HB Hne] HP]. split; [done|]. intros (b & m & [->|Hb]%elem_of_cons & Hm & Hd); [congruence|].
        apply HP. eauto.
      * intros [HB HP]. split; [split; [done|]|].
        -- intros ->. apply HP. exists a, n. split_and!; [left|done|done].
        -- intros (b & m & Hb & Hm & Hd). apply HP. exists b, m. split_and!; [by right|done|done].
    + split; intros [HB HP]; (split; [done|]).
      * intros (b & m & [->|Hb]%elem_of_cons & Hm & Hd); [congruence|]. apply HP. eauto.
      * intros (b & m & Hb & Hm & Hd). apply HP. exists b, m. split_and!; [by right|done|done].
  - rewrite S3, Hcons, wrapu_add. f_equal. cbn [length]. lia.
  - rewrite S4, Hcons, wrapu_add. f_equal. rewrite (bytes_of_cons _ _ n) by done. lia.
  - rewrite S5. done.
Qed.

Lemma swept_from_live g N B a n l2 g' N' B' :
  N !! a = Some n → color n ≠ PON_GC_WHITE → a ∉ l2 →
  swept_from g (<[a := n <| color := PON_GC_WHITE |>]> N) B l2 g' N' B' →
  swept_from g N B (a :: l2) g' N' B'.
Proof.
  intros Hn Hw Ha [S1 S2 S3 S4 S5]. set (N1 := <[a := _]> N) in *.
  assert (∀ c, c ≠ a → N1 !! c = N !! c) as Hne by (intros c Hc; by apply lookup_insert_ne).
  destruct (whites_after_live N a (n <| color := PON_GC_WHITE |>) l2 Ha) as (W1 & W2 & W3).
  fold N1 in W1, W2, W3.
  rewrite W1 in S2, S3, S4. rewrite W2 in S4.
  pose proof (whites_cons_live N a n l2 Hn Hw) as Hcons.
  split; rewrite ?Hcons; try done.
  - intros c. rewrite S1. destruct (decide (c = a)) as [->|Hca].
    + rewrite decide_False by done. rewrite decide_True by left.
      unfold N1, swept. rewrite lookup_insert_eq, Hn. by rewrite decide_False.
    + destruct (decide (c ∈ l2)); [rewrite decide_True by (by right)|rewrite decide_False by set_solver].
      * unfold swept. by rewrite Hne.
      * by rewrite Hne.
  - intros d. by rewrite S2, W3.
Qed.

(** The sweep visits the list to its end and never touches freed memory. *)
Lemma sweep_loop_run fuel g N B t l1 l2 freed :
  store_wf g N B (l1 ++ l2) → length l2 ≤ fuel →
  (0 ≤ dead_nodes g < 2 ^ 64)%Z → (0 ≤ bytes_freed g < 2 ^ 64)%Z →
  wp (sweep_loop fuel (head l2) (u64 freed)) (λ r σ', ∃ g' N' B' l', σ' = mkGcs (Some g') N' B' t ∧
    store_wf g' N' B' l' ∧ swept_from g N B l2 g' N' B' ∧
    r = u64 (freed + bytes_of N (whites N l2))) (mkGcs (Some g) N B t).
Proof.
  revert fuel g N B l1 freed. induction l2 as [|a l2 IH]; intros fuel g N B l1 freed Hwf Hfuel Hdead Hbytes.
  - assert (wp (mret (u64 freed)) (λ r σ', ∃ g' N' B' l', σ' = mkGcs (Some g') N' B' t ∧
      store_wf g' N' B' l' ∧ swept_from g N B [] g' N' B' ∧
      r = u64 (freed + bytes_of N (whites N []))) (mkGcs (Some g) N B t)) as Hdone.
    { wp_step. exists g, N, B, (l1 ++ []). split_and!; [done|done| |by rewrite Z.add_0_r].
      split; [done| | | |by destruct g]; rewrite ?Z.add_0_r, ?wrapu_small by done; [|done..].
      intros d. split; [|naive_solver]. intros HdB. split; [done|].
      intros (a & n & Ha & _). by apply elem_of_nil in Ha. }
    by destruct fuel.
  - destruct fuel as [|fuel]; simpl in Hfuel; [lia|].
    pose proof Hwf as [Hl _ _ _].
    assert (∃ n, N !! a = Some n) as [n Hn] by (apply (al_dom _ _ _ Hl); set_solver).
    destruct (all_list_neighbours _ _ _ _ _ _ Hl Hn) as (_ & Hx & _ & _).
    assert (a ∉ l2) as Hal2.
    { pose proof (al_nodup _ _ _ Hl) as Hnd. apply NoDup_app in Hnd as (_ & _ & H3).
      by apply NoDup_cons in H3 as [? _]. }
    cbn [head sweep_loop]. gc_steps.
    destruct (decide (color n = PON_GC_WHITE)) as [Hw|Hw].
    + eapply sweep_node_white; [done|done|done|]. intros g1 Hg1 Hwf1. cbv beta. rewrite Hx, wrapu_add.
      destruct (freed_gc_fields (tally g (u64 (dead_nodes g + 1)) (u64 (bytes_freed g + data_size n))) n) as (E1 & E2 & _).
      eapply wp_mono; [eapply IH; [exact Hwf1|lia|rewrite Hg1, E1|rewrite Hg1, E2]; by apply wrapu_range|].
      intros r σ' (g' & N' & B' & l' & -> & Hwf' & Hsw & ->).
      exists g', N', B', l'. split_and!; [done|done|by eapply swept_from_dead|].
      destruct (whites_after_dead N a n l2 Hal2) as (-> & -> & _).
      rewrite (whites_cons_dead _ _ n) by done. rewrite (bytes_of_cons _ _ n) by done.
      f_equal. lia.
    + eapply sweep_node_live; [done|done|]. cbv beta. rewrite Hx.
      eapply wp_mono.
      { eapply (IH fuel g _ B (l1 ++ [a])); [|lia|done|done]. rewrite <- app_assoc. by apply store_wf_whiten. }
      intros r σ' (g' & N' & B' & l' & -> & Hwf' & Hsw & ->).
      exists g', N', B', l'. split_and!; [done|done|by eapply swept_from_live|].
      destruct (whites_after_live N a (n <| color := PON_GC_WHITE |>) l2 Hal2) as (-> & -> & _).
      by rewrite (whites_cons_live _ _ n).
Qed.

End sweep.
