(* ===== verification/PonGcCollect.v ===== *)
(** A complete collection: the sweep of a marked store, the garbage it finds,
    and the idle state it leaves. *)

From S2P Require Import Prelude ErtsAlloc PonStats PonGc PonGcInv PonGcMark PonGcSweep.
From stdpp Require Import base tactics numbers list gmap sets fin_maps.
From Stdlib Require Import ZArith Lia.

(** ** A complete collection *)

(** The outcome of a collection of [σ]: the reachable objects survive as they
    were, the others and their payloads are gone, [dead] counts the latter. *)
Record collected (σ σ' : gcs) (g : PonGcState) (dead : list positive) : Prop := {
  cl_dead a : a ∈ dead ↔ is_Some (nodes σ !! a) ∧ ¬ reachable g (nodes σ) a;
  cl_nodup : NoDup dead;
  cl_gone a : a ∈ dead → nodes σ' !! a = None;
  cl_live a : a ∉ dead → object <$> nodes σ' !! a = object <$> nodes σ !! a;
  cl_blobs d : d ∈ blobs σ' ↔ d ∈ blobs σ ∧ ¬ payload_of (nodes σ) dead d;
  cl_counts : ∃ g', pon_gc σ' = Some g' ∧ dead_nodes g' = u64 (Z.of_nat (length dead)) ∧
    bytes_freed g' = u64 (bytes_of (nodes σ) dead) ∧
    root_list g' = root_list g ∧ next_id g' = next_id g;
  cl_stats : stats σ' = stats σ
}.

Section collection.

Lemma vec_ok_sub N N' v n cap :
  (∀ b, b ∈ omap cell_ptr (take (Z.to_nat n) v) → is_Some (N' !! b)) →
  vec_ok N v n cap → vec_ok N' v n cap.
Proof.
  intros Hsub Hv. pose proof Hv as [Hl Hn Hc Hi]. split; [done|done|done|].
  intros i Hlt. destruct (Hi i Hlt) as (b & Hb & _). exists b. split; [done|].
  apply Hsub. apply list_elem_of_omap. exists (Val (Some b)). split; [|done].
  apply list_elem_of_lookup. exists i. rewrite lookup_take_Some. split; [done|lia].
Qed.

(** The sweep of any structurally sound store. *)
Lemma pon_gc_sweep_run g N B t l :
  store_wf g N B l →
  wp pon_gc_sweep (λ r σ', ∃ g' N' B' l', σ' = mkGcs (Some g') N' B' t ∧
    store_wf g' N' B' l' ∧ live_nodes g' = 0%Z ∧
    (∃ g1, swept_from (tally g 0 0) N B l g1 N' B' ∧ g' = g1 <| live_nodes := 0%Z |>) ∧
    r = u64 (bytes_of N (whites N l))) (mkGcs (Some g) N B t).
Proof.
  intros Hwf. unfold pon_gc_sweep. gc_steps.
  pose proof (store_wf_tally _ _ _ _ 0 0 Hwf) as Hwf0.
  assert (nodes_head g = head l) as Hh by (eapply dseg_head, Hwf).
  pose proof (sweep_loop_run (size N) (tally g 0 0) N B t [] l 0 Hwf0) as Hrun.
  change (u64 0) with 0%Z in Hrun. rewrite <- Hh in Hrun. cbv beta iota.
  eapply wp_mono.
  { apply Hrun; [|done|done]. by rewrite (all_list_size _ _ _ (sw_list _ _ _ _ Hwf)). }
  intros r σ' (g' & N' & B' & l' & -> & Hwf' & Hsw & ->). gc_steps.
  eexists _, N', B', l'. split_and!; [done| |done|eauto|done].
  destruct Hwf' as [[] [] Hd Ht]. split; [by split|by split|done|done].
Qed.

Lemma swept_nodes N l g N' B g1 B' a :
  (∀ c, c ∈ l ↔ is_Some (N !! c)) → swept_from g N B l g1 N' B' →
  unlink <$> N' !! a = unlink <$> swept N a.
Proof.
  intros Hl Hsw. rewrite (sf_nodes _ _ _ _ _ _ _ Hsw a). case_decide as Ha; [done|].
  unfold swept. destruct (N !! a) eqn:Hn; [|done]. destruct Ha. apply Hl. eauto.
Qed.

(** Sweeping a marked store collects exactly the unreachable objects. *)
Lemma marked_sweep σ σ1 g g1 l g2 N2 B2 :
  pon_gc σ = Some g → marked σ σ1 → pon_gc σ1 = Some g1 → store_wf g1 (nodes σ1) (blobs σ1) l →
  swept_from (tally g1 0 0) (nodes σ1) (blobs σ1) l g2 N2 B2 →
  collected σ (mkGcs (Some (g2 <| live_nodes := 0%Z |>)) N2 B2 (stats σ)) g (whites (nodes σ1) l).
Proof.
  intros Hg [Hs _ Hcol] Hg1 Hwf Hsw.
  pose proof (sw_list _ _ _ _ Hwf) as [_ _ Hnd Hdom].
  destruct (shape_gc _ _ _ Hs Hg) as (g1' & Hg1' & Heg).
  assert (g1' = g1) as -> by congruence.
  assert (∀ a, a ∈ whites (nodes σ1) l ↔ is_Some (nodes σ !! a) ∧ ¬ reachable g (nodes σ) a) as Hdead.
  { intros a. unfold whites. rewrite list_elem_of_filter, Hdom. unfold is_white. split.
    - intros [Hw [n1 Hn1]]. split; [by eapply shape_is_Some|].
      destruct (Hcol a n1 g Hg Hn1) as [[_ Hb]|[? _]]; [|done].
      rewrite Hn1 in Hw. simpl in Hw. congruence.
    - intros [Hl Hr]. pose proof (shape_is_Some _ _ _ Hs Hl) as [n1 Hn1]. rewrite Hn1.
      split; [|eauto]. simpl. destruct (Hcol a n1 g Hg Hn1) as [[? _]|[_ ->]]; done. }
  assert (∀ c n1, nodes σ1 !! c = Some n1 → ∃ n, nodes σ !! c = Some n ∧ erase_node n1 = erase_node n) as Hback
    by (intros c n1; by apply shape_back).
  split.
  - done.
  - by apply NoDup_filter.
  - intros a Ha. pose proof (swept_nodes _ _ _ _ _ _ _ a Hdom Hsw) as He. cbn [nodes].
    apply list_elem_of_filter in Ha as [Hw Ha]. apply Hdom in Ha as [n1 Hn1].
    unfold is_white in Hw. rewrite Hn1 in Hw. simpl in Hw.
    unfold swept in He. rewrite Hn1, decide_True in He by congruence. by destruct (N2 !! a).
  - intros a Ha. pose proof (swept_nodes _ _ _ _ _ _ _ a Hdom Hsw) as He. cbn [nodes].
    unfold swept in He. destruct (nodes σ1 !! a) as [n1|] eqn:Hn1.
    + rewrite decide_False in He.
      * destruct (Hback _ _ Hn1) as (n & Hn & Hen). rewrite Hn.
        destruct (N2 !! a) as [n2|]; [|done]. simpl in *. f_equal. unfold object.
        injection He as ? ? ? ? ? ? ? ?. injection Hen as ? ? ? ? ? ? ? ?. unfold unlink, erase_node.
        simpl. congruence.
      * intros Hw. apply Ha, list_elem_of_filter. unfold is_white. rewrite Hn1, Hdom, Hn1.
        simpl. split; [congruence|eauto].
    + assert (nodes σ !! a = None) as ->.
      { destruct (nodes σ !! a) as [n|] eqn:Hn; [|done].
        destruct (shape_node _ _ _ _ Hs Hn) as (? & ? & _). congruence. }
      by destruct (N2 !! a).
  - intros d. cbn [blobs]. rewrite (sf_blobs _ _ _ _ _ _ _ Hsw).
    assert (blobs σ1 = blobs σ) as -> by (by injection Hs).
    assert (payload_of (nodes σ1) (whites (nodes σ1) l) d ↔ payload_of (nodes σ) (whites (nodes σ1) l) d)
      as ->; [|done].
    unfold payload_of. split; intros (a & n & Ha & Hn & Hd).
    + destruct (Hback _ _ Hn) as (n' & Hn' & He). apply erase_node_fields in He as (_&_&_&_&_&E&_).
      exists a, n'. split_and!; [done|done|congruence].
    + destruct (shape_node _ _ _ _ Hs Hn) as (n' & Hn' & He).
      apply erase_node_fields in He as (_&_&_&_&_&E&_). exists a, n'. split_and!; [done|done|congruence].
  - eexists. split; [done|].
    pose proof (sf_dead _ _ _ _ _ _ _ Hsw) as E1. pose proof (sf_bytes _ _ _ _ _ _ _ Hsw) as E2.
    pose proof (sf_gc _ _ _ _ _ _ _ Hsw) as E3. cbn [dead_nodes bytes_freed update tally] in *.
    assert (bytes_of (nodes σ1) (whites (nodes σ1) l) = bytes_of (nodes σ) (whites (nodes σ1) l)) as Hby.
    { generalize (whites (nodes σ1) l). intros w. induction w as [|a w IH]; [done|].
      unfold bytes_of in *. cbn [foldr]. rewrite IH. f_equal. unfold node_size.
      destruct (nodes σ1 !! a) as [n1|] eqn:Hn1.
      - destruct (Hback _ _ Hn1) as (n & -> & He). by apply erase_node_fields in He as (_&_&_&_&_&_&->&_).
      - destruct (nodes σ !! a) as [n|] eqn:Hn; [|done].
        destruct (shape_node _ _ _ _ Hs Hn) as (? & ? & _). congruence. }
    apply erase_gc_fields in Heg as (R1&R2&_&_&_&_&_&_&R3).
    pose proof (f_equal roots E3) as F1. pose proof (f_equal num_roots E3) as F2.
    pose proof (f_equal next_id E3) as F3. cbn in F1, F2, F3.
    split_and!; [done|by rewrite E2, Hby| |cbn; congruence].
    unfold root_list. simpl. congruence.
  - done.
Qed.


(** What survives a sweep points to survivors only, so the invariant is back. *)
Lemma marked_sweep_idle σ σ1 g g1 l g2 N2 B2 l2 :
  pon_gc σ = Some g → graph_wf g (nodes σ) (blobs σ) →
  marked σ σ1 → pon_gc σ1 = Some g1 → store_wf g1 (nodes σ1) (blobs σ1) l →
  swept_from (tally g1 0 0) (nodes σ1) (blobs σ1) l g2 N2 B2 → store_wf g2 N2 B2 l2 →
  gc_idle (mkGcs (Some (g2 <| live_nodes := 0%Z |>)) N2 B2 (stats σ)).
Proof.
  intros Hg Hgwf Hm Hg1 Hwf Hsw Hwf2.
  pose proof (marked_sweep _ _ _ _ _ _ _ _ Hg Hm Hg1 Hwf Hsw) as [Hdead _ Hgone Hlive _ (g3 & Hg3 & _ & _ & Hroots & _) _].
  simplify_eq/=. pose proof Hm as [_ (g1' & Hg1' & Q1 & Q2 & Q3 & _ & Q4 & Q5) _].
  assert (g1' = g1) as -> by congruence.
  pose proof (sf_gc _ _ _ _ _ _ _ Hsw) as E3.
  pose proof (f_equal gray_head E3) as F1. pose proof (f_equal gray_tail E3) as F2.
  pose proof (f_equal gray_count E3) as F3. pose proof (f_equal notifications_sent E3) as F4.
  pose proof (f_equal scan_count E3) as F5. pose proof (f_equal roots E3) as F6.
  pose proof (f_equal num_roots E3) as F7. pose proof (f_equal roots_cap E3) as F8.
  cbn in F1, F2, F3, F4, F5, F6, F7, F8.
  assert (∀ a, is_Some (nodes σ !! a) → a ∉ whites (nodes σ1) l → is_Some (N2 !! a)) as Hkeep.
  { intros a [n Hn] Ha. specialize (Hlive a Ha). cbn in Hlive. rewrite Hn in Hlive.
    by destruct (N2 !! a). }
  assert (∀ a b n, nodes σ !! a = Some n → a ∉ whites (nodes σ1) l →
    b ∈ omap cell_ptr (take (Z.to_nat (num_refs n)) (refs n)) → is_Some (N2 !! b)) as Hsucc.
  { intros a b n Hn Ha Hb. apply Hkeep.
    - eapply vec_ok_elem; [by eapply (gw_refs _ _ _ Hgwf)|done].
    - intros Hdb. apply Hdead in Hdb as [_ Hnb]. apply Ha, Hdead. split; [eauto|].
      intros Hra. apply Hnb. eapply reachable_step; [done|]. unfold succs. by rewrite Hn. }
  split.
  - exists (g2 <| live_nodes := 0%Z |>). split; [done|]. cbn. rewrite F1, F2, F3, F4, F5.
    split; [|by auto 10]. destruct Hwf2 as [[] [] Hd Ht].
    split; [exists l2; by split| | |by split|done|done].
    + cbn. intros a n2 Hn2. destruct (decide (a ∈ whites (nodes σ1) l)) as [Ha|Ha].
      { specialize (Hgone a Ha). cbn in Hgone. congruence. }
      pose proof (Hlive a Ha) as Ho. cbn in Ho. rewrite Hn2 in Ho. symmetry in Ho.
      apply fmap_Some in Ho as (n & Hn & (E1&E2&E4&_)%object_fields). rewrite E1, E2, E4.
      eapply vec_ok_sub; [|by eapply (gw_refs _ _ _ Hgwf)]. intros b. by eapply Hsucc.
    + cbn. change (root_list g2 = root_list g) in Hroots.
      assert (roots g2 = roots g ∧ num_roots g2 = num_roots g ∧ roots_cap g2 = roots_cap g) as (->&->&->).
      { destruct (shape_gc _ _ _ (mk_shape _ _ Hm) Hg) as (g1'' & Hg1'' & He).
        apply erase_gc_fields in He as (?&?&?&_). assert (g1'' = g1) as -> by congruence.
        split_and!; congruence. }
      eapply vec_ok_sub; [|apply Hgwf]. intros b Hb. apply Hkeep.
      * eapply vec_ok_elem; [apply Hgwf|done].
      * intros Hdb. apply Hdead in Hdb as [_ Hnb]. apply Hnb. by constructor.
  - cbn. intros a n2 Hn2. pose proof (sf_nodes _ _ _ _ _ _ _ Hsw a) as Hs. rewrite Hn2 in Hs.
    pose proof (al_dom _ _ _ (sw_list _ _ _ _ Hwf) a) as Hdom.
    case_decide as Ha.
    + unfold swept in Hs. destruct (nodes σ1 !! a) as [n1|]; [|done]. case_decide; [done|].
      by injection Hs.
    + destruct (nodes σ1 !! a); [|done]. destruct Ha. apply Hdom. eauto.
Qed.

Lemma pon_gc_mark_sweep_spec σ g :
  gc_idle σ → pon_gc σ = Some g →
  wp pon_gc_mark_sweep (λ r σ', gc_idle σ' ∧ ∃ dead, collected σ σ' g dead ∧
    r = u64 (Z.of_nat (length dead))) σ.
Proof.
  intros Hidle Hg. pose proof (gi_wf _ Hidle) as (g0 & Hg0 & Hwf & _).
  assert (g0 = g) as -> by congruence.
  unfold pon_gc_mark_sweep, unless_null. wp_step. wp_step. rewrite Hg. wp_step.
  eapply wp_mono; [by eapply pon_gc_mark_spec|]. intros _ σ1 [Hm _].
  pose proof (mk_queue _ _ Hm) as (g1 & Hg1 & _).
  destruct (graph_wf_store _ _ _ (graph_wf_shape _ _ _ _ (mk_shape _ _ Hm) Hg Hg1 Hwf)) as [l Hl].
  assert (stats σ1 = stats σ) as Hst by (pose proof (mk_shape _ _ Hm) as Hs; by injection Hs).
  pose proof (λ g2 l' N2 B2, marked_sweep σ σ1 g g1 l' g2 N2 B2 Hg Hm Hg1) as Hcol.
  pose proof (λ g2 l' N2 B2 l2, marked_sweep_idle σ σ1 g g1 l' g2 N2 B2 l2 Hg Hwf Hm Hg1) as Hid.
  open_state σ1. wp_step. eapply wp_mono; [by apply pon_gc_sweep_run|].
  intros r σ' (g' & N' & B' & l' & -> & Hwf' & _ & (g2 & Hsw & ->) & _).
  assert (store_wf g2 N' B' l') as Hwf2 by (destruct Hwf' as [[] [] Hd Ht]; split; [by split|by split|exact Hd|exact Ht]).
  gc_steps. split; [by eapply Hid|]. eexists. split; [by eapply Hcol|].
  cbn. rewrite (sf_dead _ _ _ _ _ _ _ Hsw). done.
Qed.

End collection.

(** Incremental marking: [pon_gc_step] runs the same abstract machine as
    [pon_gc_mark] in bounded slices, and a schedule of slices that empties the
    queue leaves the marking that the uninterrupted loop leaves. *)

(** A collection in progress: the queue and the colours are those of [m], every
    reference is live, and no node holds more references than a [uint16_t] counts. *)
Record in_progress (sc : positive → list positive) (σ : gcs) (m : mstate) : Prop := {
  ip_rel : mark_rel σ m;
  ip_refs : refs_as sc σ;
  ip_u16 a n : nodes σ !! a = Some n → (num_refs n < 2 ^ 16)%Z
}.

(** [n] calls of [pon_gc_step]; the value of the last one. *)
Fixpoint step_times (n : nat) (max_notifications : Z) : G Z :=
  match n with
  | O => mret 0%Z
  | S n' => r ← pon_gc_step max_notifications;
            if decide (r = 0)%Z then step_times n' max_notifications else mret r
  end.

(** The root phase of [pon_gc_mark] alone. *)
Definition notify_roots : G unit :=
  g ← get_gc; for_range mark_root 0 (Z.to_nat (num_roots g)).

Section step.
Implicit Types (σ : gcs) (m : mstate).

Lemma in_progress_shape sc σ σ' m m' :
  in_progress sc σ m → mark_rel σ' m' → shape σ' = shape σ → in_progress sc σ' m'.
Proof.
  intros [_ Hr Hu] Hrel Hs. split; [done|by eapply refs_as_shape|].
  intros a n' Hn'. destruct (shape_node _ _ _ _ (eq_sym Hs) Hn') as (n & Hn & He).
  apply erase_node_fields in He as (<- & _). eauto.
Qed.

(** The counter [cycles] is not part of the abstract state. *)
Lemma mark_rel_cycles g N B t m c :
  mark_rel (mkGcs (Some g) N B t) m → mark_rel (mkGcs (Some (g <| cycles := c |>)) N B t) m.
Proof.
  intros [(g' & Hg' & H) Hc Hn Hg]. simplify_eq/=. split; [|done..]. eexists. split; [done|]. exact H.
Qed.

Lemma in_progress_gray sc σ m a q :
  in_progress sc σ m → mq m = a :: q → mcol m !! a = Some PON_GC_GRAY.
Proof. intros [Hrel _ _] Hq. apply (mr_gray _ _ Hrel). rewrite Hq. left. Qed.

(** One iteration of the loop of [pon_gc_step]. *)
Lemma step_iteration sc σ m a q :
  in_progress sc σ m → mq m = a :: q →
  wp (dequeue_gray ≫= propagate) (λ r σ', (0 ≤ r < 2 ^ 16)%Z ∧ in_progress sc σ' (m_step sc m) ∧
    shape σ' = shape σ) σ.
Proof.
  intros Hip Hq. pose proof Hip as [Hrel Hrefs Hu].
  eapply wp_mono; [by eapply m_step_refines|].
  intros r σ' (-> & Hrel' & Hs). split; [|split; [by eapply in_progress_shape|done]].
  assert (0 ≤ (m_visits (sc a) (m_dequeue m)).2 ≤ Z.of_nat (length (sc a)))%Z as Hsent
    by exact (m_visits_sent (sc a) (m_dequeue m) 0%Z).
  destruct (mark_rel_node σ m a Hrel) as [n Hn]; [rewrite Hq; left|].
  destruct (Hrefs _ _ Hn) as [Hv Hsc]. rewrite <- Hsc in *. specialize (Hu _ _ Hn).
  assert (length (node_refs n) = Z.to_nat (num_refs n)) as Hlen by exact (vec_ok_length _ _ _ _ Hv).
  pose proof (vo_num _ _ _ _ Hv). lia.
Qed.

(** The loop runs [k] steps of the machine, at most one for each notification
    of the budget, and stops only when the queue or the budget is exhausted. *)
Lemma step_loop_refines sc fuel σ m max p :
  in_progress sc σ m → size (nonblack m) ≤ fuel → (0 ≤ p)%Z → (max ≤ 2 ^ 31 - 2 ^ 16)%Z →
  wp (step_loop fuel max p) (λ _ σ', ∃ k, in_progress sc σ' (m_run sc k m) ∧ shape σ' = shape σ ∧
    (Z.of_nat k ≤ Z.max 0 (max - p))%Z ∧ ((p < max)%Z → mq m ≠ [] → 0 < k)) σ.
Proof.
  revert σ m p. induction fuel as [|fuel IH]; intros σ m p Hip Hfuel Hp Hmax;
    pose proof (ip_rel _ _ _ Hip) as Hrel; pose proof Hrel as [(g & Hg & _) _ _ _];
    pose proof (mark_rel_queue_head _ _ _ Hrel Hg) as Hh; cbn [step_loop];
    (wp_step; apply (wp_read_gc σ g); [done|]; rewrite Hh).
  all: destruct (mq m) as [|a q] eqn:Hq; [cbn [head]; wp_step; exists 0; split_and!; [done|done|lia|done]|].
  all: pose proof (in_progress_gray _ _ _ _ _ Hip Hq) as Hgr.
  all: destruct (m_step_counts sc m a q Hq Hgr) as [Hc _]; cbn [head].
  all: case_decide as Hpm; [|wp_step; exists 0; split_and!; [done|done|lia|lia]].
  { lia. }
  pose proof (step_iteration _ _ _ _ _ Hip Hq) as Hstep. apply wp_bind_inv in Hstep.
  apply wp_bind. eapply wp_mono; [exact Hstep|].
  intros r σ' Hr. wp_step. eapply wp_mono; [exact Hr|].
  intros sent σ'' (Hsent & Hip' & Hs). cbv beta.
  set (p' := s32 _). assert (p < p')%Z as Hp'.
  { unfold p'. rewrite wraps_small by (try case_decide; lia). case_decide; lia. }
  eapply wp_mono; [apply (IH _ (m_step sc m) p'); [done|lia|lia|done]|].
  intros [] σ3 (k & Hip3 & Hs3 & Hk & _). exists (S k). rewrite m_run_S.
  split_and!; [done|congruence|lia|lia].
Qed.

Lemma nonblack_nodes sc σ m : in_progress sc σ m → size (nonblack m) ≤ size (nodes σ).
Proof. intros Hip. apply nonblack_size, Hip. Qed.

(** One call: it makes progress, stays within its budget, and returns 1 exactly
    when no notification is pending any more. *)
Lemma pon_gc_step_refines sc σ m max :
  in_progress sc σ m → (0 < max ≤ 2 ^ 31 - 2 ^ 16)%Z →
  wp (pon_gc_step max) (λ r σ', ∃ k, in_progress sc σ' (m_run sc k m) ∧ shape σ' = shape σ ∧
    (Z.of_nat k ≤ max)%Z ∧ (mq m ≠ [] → 0 < k) ∧
    r = (if decide (mq (m_run sc k m) = []) then 1 else 0)%Z) σ.
Proof.
  intros Hip Hmax. pose proof (ip_rel _ _ _ Hip) as Hrel. pose proof Hrel as [(g & Hg & _) _ _ _].
  pose proof (mark_rel_queue_head _ _ _ Hrel Hg) as Hh.
  unfold pon_gc_step, unless_null. wp_step. wp_step. rewrite Hg.
  wp_step. apply (wp_read_gc σ g); [done|]. rewrite Hh.
  destruct (mq m) as [|a q] eqn:Hq.
  { cbn [head]. wp_step. exists 0. split_and!; [done|done|lia|done|].
    by rewrite decide_True. }
  cbn [head]. wp_step. wp_step. wp_step.
  eapply wp_mono; [by apply (step_loop_refines sc _ σ m max 0); [|eapply nonblack_nodes|lia|lia]|].
  intros [] σ' (k & Hip' & Hs & Hk & Hpos). cbv beta.
  pose proof (ip_rel _ _ _ Hip') as Hrel'. pose proof Hrel' as [(g' & Hg' & _) _ _ _].
  pose proof (mark_rel_queue_head _ _ _ Hrel' Hg') as Hh'.
  wp_step. apply (wp_read_gc σ' g'); [done|]. rewrite Hh'.
  assert (0 < k) by (apply Hpos; [lia|congruence]).
  destruct (mq (m_run sc k m)) as [|b q'] eqn:Hq'; cbn [head].
  - open_state σ'. gc_steps. exists k. split_and!; [| |lia|done|by rewrite decide_True].
    + eapply in_progress_shape; [done|by apply mark_rel_cycles|by apply shape_mk].
    + rewrite <- Hs. by apply shape_mk.
  - wp_step. exists k. split_and!; [done|done|lia|done|]. rewrite Hq'. by rewrite decide_False.
Qed.

Lemma m_run_size sc σ m k :
  in_progress sc σ m → size (nonblack (m_run sc k m)) ≤ size (nonblack m) - k ∨ mq (m_run sc k m) = [].
Proof.
  intros Hip. assert (m_ok m) as Hok by (split; apply Hip). clear Hip.
  revert m Hok. induction k as [|k IH]; intros m Hok; [left; simpl; lia|].
  rewrite m_run_S. destruct (mq m) as [|a q] eqn:Hq.
  - right. rewrite (m_run_done sc k (m_step sc m)); unfold m_step; by rewrite Hq.
  - destruct (IH (m_step sc m) (m_ok_step _ _ Hok)) as [H|]; [left|by right].
    destruct (m_step_counts sc m a q Hq) as [Hc _]; [|lia].
    apply Hok. rewrite Hq. left.
Qed.

(** Enough calls finish the marking, whatever the budget. *)
Lemma step_times_refines sc σ m max n :
  in_progress sc σ m → (0 < max ≤ 2 ^ 31 - 2 ^ 16)%Z → size (nonblack m) < n →
  wp (step_times n max) (λ r σ', r = 1%Z ∧ ∃ k, in_progress sc σ' (m_run sc k m) ∧
    mq (m_run sc k m) = [] ∧ shape σ' = shape σ) σ.
Proof.
  revert σ m. induction n as [|n IH]; intros σ m Hip Hmax Hn; [lia|].
  cbn [step_times]. wp_step. eapply wp_mono; [by apply pon_gc_step_refines|].
  intros r σ' (k & Hip' & Hs & _ & Hpos & ->). destruct (decide (mq (m_run sc k m) = [])) as [Hq|Hq].
  - cbv beta. rewrite decide_False by done. wp_step. split; [done|]. eauto.
  - cbv beta. rewrite decide_True by done.
    assert (mq m ≠ []) as Hqm by (intros E; apply Hq; by rewrite m_run_done).
    destruct (m_run_size _ _ _ k Hip) as [Hsz|]; [|done]. specialize (Hpos Hqm).
    destruct (mq m) as [|a q] eqn:Hqa; [done|].
    destruct (m_step_counts sc m a q Hqa (in_progress_gray _ _ _ _ _ Hip Hqa)) as [Hc _].
    eapply wp_mono; [apply (IH _ _ Hip' Hmax); lia|].
    intros r σ'' (-> & j & Hip'' & Hq'' & Hs''). split; [done|]. exists (j + k).
    rewrite m_run_add. split_and!; [done|done|congruence].
Qed.

(** The root phase. *)
Lemma notify_roots_run σ g :
  gc_idle σ → pon_gc σ = Some g →
  wp notify_roots (λ _ σ', mark_rel σ' (m_roots (root_list g) (m_idle g (nodes σ))) ∧
    shape σ' = shape σ) σ.
Proof.
  intros Hidle Hg. pose proof (gi_wf _ Hidle) as (g0 & Hg0 & Hwf & _).
  assert (g0 = g) as -> by congruence.
  pose proof (gc_idle_rel _ _ Hidle Hg) as Hrel0.
  unfold notify_roots. wp_step. apply (wp_read_gc _ g); [done|].
  eapply mark_roots_refine; [done|done|apply Hwf].
Qed.

(** A schedule of slices after the root phase is a complete mark. *)
Lemma step_times_mark σ g max n :
  gc_idle σ → pon_gc σ = Some g → (∀ a nd, nodes σ !! a = Some nd → (num_refs nd < 2 ^ 16)%Z) →
  (0 < max ≤ 2 ^ 31 - 2 ^ 16)%Z → size (nodes σ) < n →
  wp (notify_roots ≫= λ _, step_times n max) (λ r σ', r = 1%Z ∧ marked σ σ') σ.
Proof.
  intros Hidle Hg Hu Hmax Hn. pose proof (gi_wf _ Hidle) as (g0 & Hg0 & Hwf & _).
  assert (g0 = g) as -> by congruence.
  pose proof (gc_idle_rel _ _ Hidle Hg) as Hrel0.
  wp_step. eapply wp_mono; [by eapply notify_roots_run|].
  intros [] σ1 [Hrel1 Hs1].
  assert (in_progress (succs (nodes σ)) σ1 (m_roots (root_list g) (m_idle g (nodes σ)))) as Hip.
  { eapply in_progress_shape; [|done|done]. split; [exact Hrel0|by eapply graph_wf_refs_as|done]. }
  eapply wp_mono.
  { apply step_times_refines; [done|done|]. pose proof (nonblack_nodes _ _ _ Hip).
    rewrite (shape_size _ _ Hs1) in *. lia. }
  intros r σ2 (-> & k & Hip2 & Hq2 & Hs2). split; [done|].
  eapply marked_intro; [done|done|apply Hip2|done|congruence].
Qed.

(** With nothing queued a step reports completion and does nothing: the roots
    are notified by [pon_gc_mark] only. *)
Lemma pon_gc_step_idle σ max : gc_idle σ → pon_gc_step max σ = Some (1%Z, σ).
Proof.
  intros [(g & Hg & _ & Hh & _) _]. unfold pon_gc_step, unless_null, get_gc, mbind, M_bind, get.
  rewrite Hg. simpl. rewrite Hg. simpl. by rewrite Hh.
Qed.

End step.
