(* ===== verification/PonGcBuild.v ===== *)
(** Building the object graph: creation of the state and of nodes, references,
    roots, lookup by identifier, reset and destruction. *)

From S2P Require Import Prelude ErtsAlloc PonStats PonGc PonGcInv PonGcMark PonGcSweep.
From stdpp Require Import base tactics numbers list gmap sets fin_maps.
From Stdlib Require Import ZArith Lia.

(** The state with an empty graph. *)
Definition gc_empty (B : gset positive) (t : PonStats) : gcs := mkGcs (Some pon_gc_zero) ∅ B t.

(** The back link that the first node of the list gets when [a] is pushed. *)
Definition push_back_link (N : gmap positive PonGcNode) (a : positive) (h : option positive) :
    gmap positive PonGcNode :=
  match h with Some b => alter (λ m, m <| prev_all := Some a |>) b N | None => N end.

Definition created_gc (g : PonGcState) (a : positive) (ids : list (option positive)) : PonGcState :=
  g <| next_id ::= λ v, u64 (v + 1) |>
    <| nodes_tail ::= λ t, match nodes_head g with None => Some a | Some _ => t end |>
    <| nodes_head := Some a |> <| total_nodes ::= λ v, u64 (v + 1) |>
    <| by_id := <[Z.to_nat (next_id g) := Some a]> ids |> <| by_id_cap := Z.of_nat (length ids) |>.

Definition created_nodes (g : PonGcState) (N : gmap positive PonGcNode) (a : positive)
    (d : option positive) (sz : Z) : gmap positive PonGcNode :=
  <[a := (new_node d sz (next_id g)) <| next_all := nodes_head g |>]>
    (push_back_link N a (nodes_head g)).

Section build.
Context `{Laws : AllocatorLaws}.
Implicit Types (g : PonGcState) (N : gmap positive PonGcNode) (B : gset positive).

(** ** Index of identifiers *)

Lemma grow_cap_run fuel i c σ (Q : Z → gcs → Prop) :
  (0 < c ≤ 2 ^ 63)%Z → (i < 2 ^ 62)%Z → (i < c * 2 ^ Z.of_nat fuel)%Z → 0 < fuel →
  (∀ c', (c ≤ c')%Z → (i < c')%Z → Q c' σ) → wp (grow_cap (S fuel) i c) Q σ.
Proof.
  intros Hc Hi Hf Hpos HQ.
  assert (∀ f c, (0 < c ≤ 2 ^ 63)%Z → (i < c * 2 ^ Z.of_nat f)%Z →
    (∀ c', (c ≤ c')%Z → (i < c')%Z → Q c' σ) → wp (grow_cap (S f) i c) Q σ) as H.
  { clear -Hi. intros f. induction f as [|f IH]; intros c Hc Hf HQ; cbn [grow_cap].
    - rewrite decide_False by (simpl in Hf; lia). apply wp_ret, HQ; simpl in Hf; lia.
    - case_decide; [|apply wp_ret, HQ; lia]. rewrite wrapu_small by lia.
      apply IH; [lia| |intros; apply HQ; lia]. rewrite Nat2Z.inj_succ, Z.pow_succ_r in Hf by lia. lia. }
  by apply H.
Qed.

Lemma by_id_reserve_run g N B t i (Q : bool → gcs → Prop) :
  by_id_cap g = Z.of_nat (length (by_id g)) → (0 ≤ i < 2 ^ 62)%Z → (∀ z, realloc_ok z = true) →
  (∀ ids, (i < Z.of_nat (length ids))%Z →
     (∀ j b, ids !! j = Some (Some b) ↔ by_id g !! j = Some (Some b)) →
     Q true (mkGcs (Some (g <| by_id := ids |> <| by_id_cap := Z.of_nat (length ids) |>)) N B t)) →
  wp (by_id_reserve i) Q (mkGcs (Some g) N B t).
Proof.
  intros Hcap Hi Hok HQ. unfold by_id_reserve. gc_steps. case_decide as Hc.
  - wp_step. set (c0 := if decide _ then _ else _).
    assert (0 < c0 ≤ 2 ^ 63 ∧ by_id_cap g ≤ c0)%Z as [Hc0 Hc1].
    { unfold c0. case_decide; [lia|]. rewrite wrapu_small; lia. }
    apply (grow_cap_run 63); [done|lia|lia|lia|]. intros c' Hc' Hic. cbv beta. rewrite Hok. gc_steps.
    set (ids := take (Z.to_nat (by_id_cap g)) (by_id g) ++
      replicate (Z.to_nat (c' - by_id_cap g)) (@None positive)).
    assert (length ids = Z.to_nat c') as Hlen.
    { unfold ids. rewrite length_app, length_take, length_replicate. lia. }
    cbn [by_id_cap update]. specialize (HQ ids). rewrite Hlen, Z2Nat.id in HQ by lia. apply HQ; [lia|].
    intros j b. unfold ids. rewrite take_ge by lia. rewrite lookup_app_Some. split; [|by auto].
    intros [|[_ [? _]%lookup_replicate]]; [done|congruence].
  - wp_step. specialize (HQ (by_id g)). rewrite <- Hcap in HQ. destruct g. apply HQ; [simpl in *; lia|done].
Qed.

(** ** Creation of a node *)

Lemma push_back_link_lookup N a h c :
  push_back_link N a h !! c =
  (λ n, if decide (h = Some c) then n <| prev_all := Some a |> else n) <$> N !! c.
Proof.
  unfold push_back_link. destruct h as [b|]; rewrite ?lookup_alter; repeat case_decide;
    simplify_eq; try done; by destruct (N !! _).
Qed.

Lemma pon_gc_node_create_run g N B t l d sz a :
  all_list g N l → by_id_cap g = Z.of_nat (length (by_id g)) → (0 ≤ next_id g < 2 ^ 62)%Z →
  (∀ z, realloc_ok z = true) → alloc (dom N ∪ B) SIZEOF_NODE = Some a →
  wp (pon_gc_node_create d sz) (λ r σ', r = Some a ∧ ∃ ids,
    σ' = mkGcs (Some (created_gc g a ids)) (created_nodes g N a d sz) B t ∧
    (next_id g < Z.of_nat (length ids))%Z ∧
    (∀ j b, ids !! j = Some (Some b) ↔ by_id g !! j = Some (Some b))) (mkGcs (Some g) N B t).
Proof.
  intros Hl Hcap Hid Hok Ha. pose proof (alloc_fresh _ _ _ Ha) as Hfr.
  assert (N !! a = None) as Hna by (apply not_elem_of_dom; set_solver).
  assert (∀ h, nodes_head g = Some h → h ≠ a ∧ is_Some (N !! h)) as Hhead.
  { intros h Hh. assert (is_Some (N !! h)) as Hs.
    { apply (al_dom _ _ _ Hl). pose proof (dseg_head _ _ _ _ _ (al_seg _ _ _ Hl)) as E.
      rewrite Hh in E. destruct l; [done|]. injection E as ->. left. }
    split; [|done]. intros ->. rewrite Hna in Hs. by destruct Hs. }
  unfold pon_gc_node_create. gc_steps. unfold used_blocks. cbn [nodes blobs]. rewrite Ha. gc_steps.
  set (N1 := created_nodes g N a d sz).
  apply (wp_mono _ (λ _ σ', σ' = mkGcs (Some (g <| next_id ::= λ v, u64 (v + 1) |>
    <| nodes_tail ::= λ t, match nodes_head g with None => Some a | Some _ => t end |>)) N1 B t)).
  { unfold N1, created_nodes, push_back_link. destruct (nodes_head g) as [h|] eqn:Hh.
    - destruct (Hhead h eq_refl) as [Hne [nh Hnh]].
      eapply wp_upd_node; [by rewrite insert_insert_eq, lookup_insert_ne|].
      f_equal. cbn [nodes]. rewrite insert_insert_eq, (alter_as_insert _ _ nh) by done.
      by rewrite insert_insert_ne.
    - gc_step. by rewrite insert_insert_eq. }
  intros [] σ' ->. gc_steps. 
  match goal with |- wp _ _ (mkGcs (Some ?x) _ _ _) => set (g1 := x) end.
  apply (by_id_reserve_run g1); [done|done|done|]. intros ids Hlen Hids. cbv beta iota.
  wp_step. apply wp_get_gc. rewrite decide_True by exact Hlen. wp_step. apply wp_upd_gc.
  wp_step. split; [done|]. exists ids. split; [|done]. by destruct g.
Qed.

(** The fields of a node after the push. *)
Lemma created_nodes_lookup g N a d sz c :
  N !! a = None →
  created_nodes g N a d sz !! c =
  if decide (c = a) then Some ((new_node d sz (next_id g)) <| next_all := nodes_head g |>)
  else (λ n, if decide (nodes_head g = Some c) then n <| prev_all := Some a |> else n) <$> N !! c.
Proof.
  intros Ha. unfold created_nodes. case_decide as Hc; subst; [by rewrite lookup_insert_eq|].
  rewrite lookup_insert_ne by done. apply push_back_link_lookup.
Qed.

Lemma all_list_create g N a d sz ids l :
  all_list g N l → N !! a = None →
  all_list (created_gc g a ids) (created_nodes g N a d sz) (a :: l).
Proof.
  intros [Hseg Htl Hnd Hdom] Ha. pose proof (created_nodes_lookup g N a d sz) as Hlk.
  assert (a ∉ l) as Hal by (rewrite Hdom, Ha; by intros []).
  pose proof (dseg_head _ _ _ _ _ Hseg) as Hh.
  split; cbn [created_gc nodes_head nodes_tail update].
  - eapply dseg_push; [exact Hseg|done|..]; unfold nx_all, pv_all.
    + intros c Hc. rewrite Hlk, decide_False by (done || congruence).
      destruct (N !! c); [|done]. simpl. by case_decide.
    + intros c Hc. rewrite Hlk, decide_False by (done || congruence).
      apply Hdom in Hc as [n Hn]. rewrite Hn. simpl. by case_decide.
    + by rewrite Hlk, decide_True.
    + by rewrite Hlk, decide_True.
  - rewrite Hh. destruct l as [|x l]; [done|]. simpl head. cbv beta iota. by rewrite last_cons_cons.
  - by apply NoDup_cons.
  - intros c. rewrite Hlk by done. case_decide as Hc; subst.
    + split; [eauto|left].
    + rewrite elem_of_cons, fmap_is_Some, Hdom. naive_solver.
Qed.

(** A fresh identifier gets its entry in the index. *)
Lemma ids_ok_create g N a d sz ids :
  ids_ok g N → N !! a = None → (next_id g < 2 ^ 62)%Z → (next_id g < Z.of_nat (length ids))%Z →
  (∀ j b, ids !! j = Some (Some b) ↔ by_id g !! j = Some (Some b)) →
  ids_ok (created_gc g a ids) (created_nodes g N a d sz).
Proof.
  intros [_ Hn Hnode Hent] Ha Hb Hlen Hids. pose proof (created_nodes_lookup g N a d sz) as Hlk.
  split; cbn [created_gc by_id by_id_cap next_id update]; rewrite ?(wrapu_small 64) by lia.
  - by rewrite length_insert.
  - lia.
  - intros c n. rewrite Hlk by done. case_decide as Hc; subst.
    + intros [= <-]. simpl. split; [lia|]. apply list_lookup_insert_eq. lia.
    + intros (m & Hm & ->)%fmap_Some.
      assert (id (if decide (nodes_head g = Some c) then m <| prev_all := Some a |> else m) = id m)
        as -> by by case_decide.
      destruct (Hnode _ _ Hm) as [Hid Hi]. split; [lia|].
      rewrite list_lookup_insert_ne by lia. by apply Hids.
  - intros j b. destruct (decide (j = Z.to_nat (next_id g))) as [->|Hj].
    + rewrite list_lookup_insert_eq by lia. intros [= <-].
      eexists. rewrite Hlk, decide_True by done. split; [done|]. simpl. lia.
    + rewrite list_lookup_insert_ne by done. intros (m & Hm & Hid)%Hids%Hent.
      assert (b ≠ a) by congruence. eexists. rewrite Hlk, decide_False, Hm by done. split; [done|].
      by case_decide.
Qed.

Lemma created_node_refs g N a d sz c n :
  N !! a = None → created_nodes g N a d sz !! c = Some n → c ≠ a →
  ∃ m, N !! c = Some m ∧ object n = object m ∧ color n = color m.
Proof.
  intros Ha. rewrite created_nodes_lookup by done. intros Hn Hc. rewrite decide_False in Hn by done.
  apply fmap_Some in Hn as (m & Hm & ->). exists m. split; [done|]. by case_decide.
Qed.

(** Creation keeps the invariant: the new node is white and unreferenced. *)
Lemma gc_idle_create g N B t a d sz ids :
  gc_idle (mkGcs (Some g) N B t) → N !! a = None → (next_id g < 2 ^ 62)%Z →
  (∀ x, d = Some x → x ∈ B ∧ ∀ b n, N !! b = Some n → data n ≠ Some x) →
  (next_id g < Z.of_nat (length ids))%Z →
  (∀ j b, ids !! j = Some (Some b) ↔ by_id g !! j = Some (Some b)) →
  gc_idle (mkGcs (Some (created_gc g a ids)) (created_nodes g N a d sz) B t).
Proof.
  intros [(g0 & [= <-] & [[l Hl] Hr Hro Hid [Hd1 Hd2] Ht] & Hq) Hw] Ha Hb Hd Hlen Hids; cbn in *.
  pose proof (created_nodes_lookup g N a d sz) as Hlk.
  pose proof (λ c n H, created_node_refs g N a d sz c n Ha H) as Hold.
  assert (∀ b, is_Some (N !! b) → is_Some (created_nodes g N a d sz !! b)) as Hdom.
  { intros b Hb'. rewrite Hlk by done. case_decide; [eauto|]. by apply fmap_is_Some. }
  split.
  - eexists. split; [done|]. split; [|exact Hq]. split; cbn [nodes blobs].
    + eexists. by apply all_list_create.
    + intros c n Hn. destruct (decide (c = a)) as [->|Hc].
      * rewrite Hlk, decide_True in Hn by done. injection Hn as <-. split; simpl; [done|done|done|lia].
      * destruct (Hold _ _ Hn Hc) as (m & Hm & (E1&E2&E3&_)%object_fields & _). rewrite E1, E2, E3.
        eapply vec_ok_mono; [done|by eapply Hr].
    + eapply vec_ok_mono; [done|exact Hro].
    + by apply ids_ok_create.
    + split.
      * intros c n x Hn Hx. destruct (decide (c = a)) as [->|Hc].
        { rewrite Hlk, decide_True in Hn by done. injection Hn as <-. by apply Hd. }
        destruct (Hold _ _ Hn Hc) as (m & Hm & (_&_&_&E&_)%object_fields & _). rewrite E in Hx. eauto.
      * intros c c' n n' x Hn Hn' Hx Hx'.
        destruct (decide (c = a)) as [->|Hc], (decide (c' = a)) as [->|Hc']; [done|..].
        -- rewrite Hlk, decide_True in Hn by done. injection Hn as <-. simpl in Hx.
           destruct (Hold _ _ Hn' Hc') as (m & Hm & (_&_&_&E&_)%object_fields & _). rewrite E in Hx'.
           destruct (Hd x Hx) as [_ Hd']. by destruct (Hd' _ _ Hm).
        -- rewrite Hlk, decide_True in Hn' by done. injection Hn' as <-. simpl in Hx'.
           destruct (Hold _ _ Hn Hc) as (m & Hm & (_&_&_&E&_)%object_fields & _). rewrite E in Hx.
           destruct (Hd x Hx') as [_ Hd']. by destruct (Hd' _ _ Hm).
        -- destruct (Hold _ _ Hn Hc) as (m & Hm & (_&_&_&E&_)%object_fields & _).
           destruct (Hold _ _ Hn' Hc') as (m' & Hm' & (_&_&_&E'&_)%object_fields & _).
           rewrite E in Hx. rewrite E' in Hx'. eauto.
    + cbn [created_gc total_nodes update]. rewrite Ht. unfold created_nodes.
      rewrite map_size_insert_None.
      * rewrite wrapu_add. do 2 f_equal. rewrite Nat2Z.inj_succ.
        replace (size (push_back_link N a (nodes_head g))) with (size N); [lia|].
        unfold push_back_link. destruct (nodes_head g); [|done].
        rewrite <- !size_dom. by rewrite dom_alter_L.
      * rewrite push_back_link_lookup, Ha. done.
  - intros c n Hn. cbn in Hn. destruct (decide (c = a)) as [->|Hc].
    + rewrite Hlk, decide_True in Hn by done. by injection Hn as <-.
    + destruct (Hold _ _ Hn Hc) as (m & Hm & _ & ->). by eapply Hw.
Qed.

(** ** References and roots *)

(** Replacing the reference vector of one node. *)
Definition with_refs (n : PonGcNode) (v : list cell) (k cap : Z) : PonGcNode :=
  n <| refs := v |> <| num_refs := k |> <| refs_cap := cap |>.

Lemma all_list_ext g N N' l :
  (∀ c, (λ n, (next_all n, prev_all n)) <$> N' !! c = (λ n, (next_all n, prev_all n)) <$> N !! c) →
  all_list g N l → all_list g N' l.
Proof.
  intros He [Hseg Ht Hnd Hd]. split; [|done|done|].
  - eapply dseg_frame; [..|done]; intros c _; unfold nx_all, pv_all; specialize (He c);
      destruct (N' !! c), (N !! c); simplify_eq/=; congruence.
  - intros c. rewrite Hd. specialize (He c).
    destruct (N' !! c), (N !! c); simplify_eq/=; [split; eauto|by split; intros []].
Qed.

Lemma gc_idle_with_refs g N B t a n v k cap :
  gc_idle (mkGcs (Some g) N B t) → N !! a = Some n → vec_ok N v k cap →
  gc_idle (mkGcs (Some g) (<[a := with_refs n v k cap]> N) B t).
Proof.
  intros [(g0 & [= <-] & [[l Hl] Hr Hro [I1 I2 I3 I4] [Hd1 Hd2] Ht] & Hq) Hw] Ha Hv; cbn in *.
  set (N' := <[a := _]> N).
  assert (∀ c m', N' !! c = Some m' → ∃ m, N !! c = Some m ∧ data m' = data m ∧ id m' = id m ∧
    color m' = color m ∧ (c ≠ a → m' = m)) as Hback.
  { intros c m'. unfold N'. rewrite lookup_insert. case_decide; subst.
    - intros [= <-]. exists n. split_and!; [done|done|done|done|congruence].
    - intros Hm. by exists m'. }
  assert (∀ b, is_Some (N !! b) → is_Some (N' !! b)) as Hdom.
  { intros b Hb. unfold N'. rewrite lookup_insert. case_decide; eauto. }
  split; [|intros c m' Hm'; destruct (Hback _ _ Hm') as (m & Hm & _ & _ & -> & _); by eapply Hw].
  exists g. split; [done|]. split; [|exact Hq]. split; cbn [nodes blobs].
  - exists l. eapply all_list_ext; [|done]. intros c. unfold N'. rewrite lookup_insert.
    case_decide; subst; [by rewrite Ha|done].
  - intros c m' Hm'. destruct (decide (c = a)) as [->|Hc].
    + unfold N' in Hm'. rewrite lookup_insert_eq in Hm'. injection Hm' as <-. by eapply vec_ok_mono.
    + destruct (Hback _ _ Hm') as (m & Hm & _ & _ & _ & Heq). rewrite (Heq Hc).
      eapply vec_ok_mono; [done|by eapply Hr].
  - by eapply vec_ok_mono.
  - split; [done|done| |].
    + intros c m' Hm'. destruct (Hback _ _ Hm') as (m & Hm & _ & -> & _). eauto.
    + intros i c Hi. destruct (I4 _ _ Hi) as (m & Hm & Hid). unfold N'. rewrite lookup_insert.
      case_decide; subst; [|eauto]. rewrite Ha in Hm. injection Hm as <-. by eexists.
  - split.
    + intros c m' x Hm' Hx. destruct (Hback _ _ Hm') as (m & Hm & E & _). rewrite E in Hx. eauto.
    + intros c c' m1 m2 x H1 H2 Hx1 Hx2.
      destruct (Hback _ _ H1) as (m & Hm & E & _). destruct (Hback _ _ H2) as (m' & Hm' & E' & _).
      rewrite E in Hx1. rewrite E' in Hx2. eauto.
  - rewrite Ht. unfold N'. by rewrite map_size_insert_Some by eauto.
Qed.

Lemma gc_idle_with_roots g N B t v k cap :
  gc_idle (mkGcs (Some g) N B t) → vec_ok N v k cap →
  gc_idle (mkGcs (Some (g <| roots := v |> <| num_roots := k |> <| roots_cap := cap |>)) N B t).
Proof.
  intros [(g0 & [= <-] & [[l [L1 L2 L3 L4]] Hr Hro [I1 I2 I3 I4] Hd Ht] & Hq) Hw] Hv; cbn in *.
  split; [|done]. eexists. split; [done|]. split; [|exact Hq].
  split; [by exists l|done|done|by split|done|done].
Qed.

(** A vector after one more word has been appended, with room made if needed. *)
Definition vec_push (v : list cell) (n cap new_cap : Z) (b : positive) : list cell :=
  <[Z.to_nat n := Val (Some b)]> (if decide (n = cap) then vec_resize v new_cap else v).

Lemma vec_push_ok N v n cap new_cap b :
  vec_ok N v n cap → is_Some (N !! b) → (n = cap → cap < new_cap < 2 ^ 31)%Z →
  vec_ok N (vec_push v n cap new_cap b) (n + 1) (if decide (n = cap) then new_cap else cap) ∧
  (n < Z.of_nat (length (if decide (n = cap) then vec_resize v new_cap else v)))%Z ∧
  omap cell_ptr (take (Z.to_nat (n + 1)) (vec_push v n cap new_cap b)) =
  omap cell_ptr (take (Z.to_nat n) v) ++ [b].
Proof.
  intros [Hl Hn Hc Hv] Hb Hnew. unfold vec_push.
  set (w := if decide (n = cap) then vec_resize v new_cap else v).
  assert (Z.of_nat (length w) = (if decide (n = cap) then new_cap else cap) ∧
    take (Z.to_nat n) w = take (Z.to_nat n) v ∧ (n < Z.of_nat (length w))%Z) as (Hlw & Htw & Hnw).
  { unfold w. case_decide as He; [|split_and!; [done|done|lia]]. specialize (Hnew He).
    unfold vec_resize. rewrite length_app, length_take, length_replicate.
    split_and!; [lia| |lia]. rewrite take_app_le by (rewrite length_take; lia).
    rewrite take_take. f_equal. lia. }
  split_and!; [|done|].
  - split; [by rewrite length_insert|case_decide; lia|case_decide; lia|].
    intros i Hi. destruct (decide (i = Z.to_nat n)) as [->|Hne].
    + exists b. rewrite list_lookup_insert_eq by lia. done.
    + rewrite list_lookup_insert_ne by done. destruct (Hv i) as (x & Hx & Hlive); [lia|].
      exists x. split; [|done]. rewrite <- Hx.
      rewrite <- (lookup_take_lt w (Z.to_nat n)), <- (lookup_take_lt v (Z.to_nat n)) by lia. by rewrite Htw.
  - replace (Z.to_nat (n + 1)) with (S (Z.to_nat n)) by lia.
    rewrite (take_S_r _ _ (Val (Some b))) by (apply list_lookup_insert_eq; lia).
    rewrite omap_app, take_insert_ge by lia. by rewrite Htw.
Qed.

Lemma pon_gc_add_ref_run g N B t a b n :
  gc_idle (mkGcs (Some g) N B t) → N !! a = Some n → is_Some (N !! b) →
  (num_refs n < 2 ^ 15)%Z → (∀ z, realloc_ok z = true) →
  wp (pon_gc_add_ref (Some a) (Some b)) (λ _ σ', gc_idle σ' ∧ ∃ v cap,
    σ' = mkGcs (Some g) (<[a := with_refs n v (num_refs n + 1) cap]> N) B t ∧
    node_refs (with_refs n v (num_refs n + 1) cap) = node_refs n ++ [b]) (mkGcs (Some g) N B t).
Proof.
  intros Hidle Hn Hb Hlt Hok.
  assert (vec_ok N (refs n) (num_refs n) (refs_cap n)) as Hv.
  { destruct Hidle as [(? & [= <-] & Hwf & _) _]. by eapply (gw_refs _ _ _ Hwf). }
  pose proof (vo_num _ _ _ _ Hv) as Hnum.
  set (new_cap := if decide (refs_cap n = 0)%Z then 4%Z else u16 (refs_cap n * 2)).
  assert (num_refs n = refs_cap n → refs_cap n < new_cap < 2 ^ 31)%Z as Hnew.
  { intros He. unfold new_cap. case_decide; [lia|]. rewrite wrapu_small; lia. }
  destruct (vec_push_ok N (refs n) (num_refs n) (refs_cap n) new_cap b Hv Hb Hnew) as (Hv' & Hlen & Hrefs).
  set (cap' := if decide (num_refs n = refs_cap n) then new_cap else refs_cap n) in *.
  eapply wp_mono with (Q := λ _ σ', σ' = mkGcs (Some g)
    (<[a := with_refs n (vec_push (refs n) (num_refs n) (refs_cap n) new_cap b) (num_refs n + 1) cap']> N) B t).
  - unfold pon_gc_add_ref. gc_steps. fold new_cap. unfold vec_push, cap' in *.
    case_decide as He; rewrite ?Hok; gc_steps.
    all: cbn [num_refs refs update]; eapply wp_vec_set; [split; [lia|exact Hlen]|];
      gc_steps; rewrite ?insert_insert_eq; f_equal; f_equal; unfold with_refs;
      cbn; rewrite wrapu_small by lia; by destruct n.
  - intros [] σ' ->. split; [by apply gc_idle_with_refs|]. do 2 eexists. split; [done|exact Hrefs].
Qed.

Lemma pon_gc_add_root_run g N B t b :
  gc_idle (mkGcs (Some g) N B t) → is_Some (N !! b) →
  (num_roots g < 2 ^ 30)%Z → (∀ z, realloc_ok z = true) →
  wp (pon_gc_add_root (Some b)) (λ _ σ', gc_idle σ' ∧ ∃ v cap,
    σ' = mkGcs (Some (g <| roots := v |> <| num_roots := (num_roots g + 1)%Z |> <| roots_cap := cap |>)) N B t ∧
    omap cell_ptr (take (Z.to_nat (num_roots g + 1)) v) = root_list g ++ [b]) (mkGcs (Some g) N B t).
Proof.
  intros Hidle Hb Hlt Hok.
  assert (vec_ok N (roots g) (num_roots g) (roots_cap g)) as Hv
    by (destruct Hidle as [(? & [= <-] & Hwf & _) _]; apply Hwf).
  pose proof (vo_num _ _ _ _ Hv) as Hnum.
  set (new_cap := if decide (roots_cap g = 0)%Z then 16%Z else s32 (roots_cap g * 2)).
  assert (num_roots g = roots_cap g → roots_cap g < new_cap < 2 ^ 31)%Z as Hnew.
  { intros He. unfold new_cap. case_decide; [lia|]. rewrite wraps_small; lia. }
  destruct (vec_push_ok N (roots g) (num_roots g) (roots_cap g) new_cap b Hv Hb Hnew) as (Hv' & Hlen & Hrefs).
  set (cap' := if decide (num_roots g = roots_cap g) then new_cap else roots_cap g) in *.
  eapply wp_mono with (Q := λ _ σ', σ' = mkGcs (Some (g
    <| roots := vec_push (roots g) (num_roots g) (roots_cap g) new_cap b |>
    <| num_roots := (num_roots g + 1)%Z |> <| roots_cap := cap' |>)) N B t).
  - unfold pon_gc_add_root. gc_steps. fold new_cap. unfold vec_push, cap' in *.
    case_decide as He; rewrite ?Hok; gc_steps.
    all: cbn [num_roots roots update]; eapply wp_vec_set; [split; [lia|exact Hlen]|];
      gc_steps; f_equal; f_equal;
      cbn; rewrite wraps_small by lia; by destruct g.
  - intros [] σ' ->. split; [by apply gc_idle_with_roots|]. do 2 eexists. split; [done|exact Hrefs].
Qed.

(** ** Removing a reference *)

(** The words [i + 1 .. i + k] move one place down. *)
Lemma shift_refs_run v i k σ (Q : list cell → gcs → Prop) :
  (0 < k → i + k < length v) → (∀ j, i < j ≤ i + k → ∃ p, v !! j = Some (Val p)) →
  (∀ w, length w = length v →
     (∀ j, w !! j = if decide (i ≤ j < i + k) then v !! S j else v !! j) → Q w σ) →
  wp (shift_refs v i k) Q σ.
Proof.
  revert v i. induction k as [|k IH]; intros v i Hlen Hval HQ; cbn [shift_refs].
  - apply wp_ret, HQ; [done|]. intros j. by rewrite decide_False by lia.
  - destruct (Hval (S i)) as [p Hp]; [lia|].
    wp_step. eapply wp_vec_get; [done|]. wp_step. eapply wp_vec_set; [lia|]. rewrite Nat2Z.id.
    apply IH.
    + rewrite length_insert. lia.
    + intros j Hj. rewrite list_lookup_insert_ne by lia. apply Hval. lia.
    + intros w Hw Hget. apply HQ; [by rewrite Hw, length_insert|]. intros j. rewrite Hget.
      destruct (decide (S i ≤ j < S i + k)).
      * rewrite decide_True by lia. by rewrite list_lookup_insert_ne by lia.
      * destruct (decide (j = i)) as [->|Hne].
        -- rewrite decide_True, list_lookup_insert_eq by lia. done.
        -- rewrite decide_False by lia. by rewrite list_lookup_insert_ne.
Qed.

Lemma find_ref_run (v : list cell) to (i k : nat) σ (Q : Z → gcs → Prop) :
  (∀ j, i ≤ j < i + k → ∃ p, v !! j = Some (Val p)) →
  Q (if decide (Val to ∈ take k (drop i v)) then 1 else 0)%Z σ →
  wp (find_ref v to i k) Q σ.
Proof.
  revert i. induction k as [|k IH]; intros i Hv HQ; cbn [find_ref]; [by apply wp_ret|].
  destruct (Hv i) as [p Hp]; [lia|]. wp_step. eapply wp_vec_get; [done|].
  rewrite (drop_S _ _ _ Hp) in HQ. cbn [take] in HQ. destruct (decide (p = to)) as [->|Hne].
  - rewrite decide_True in HQ by left. by apply wp_ret.
  - apply IH; [intros; apply Hv; lia|].
    rewrite (decide_ext _ (Val to ∈ Val p :: take k (drop (S i) v))); [done|].
    rewrite elem_of_cons. naive_solver.
Qed.

(** What [pon_gc_remove_ref] leaves of a list of references: when it finds the
    target it deletes the second reference, or the only one. *)
Definition drop_second (l : list positive) : list positive :=
  match l with x :: _ :: l' => x :: l' | _ => [] end.

Lemma prefix_vals v k l :
  take k v = (λ b, Val (Some b)) <$> l → length l = k →
  (∀ j, j < k → v !! j = (λ b, Val (Some b)) <$> l !! j) ∧
  ∀ b, Val (Some b) ∈ take k v ↔ b ∈ l.
Proof.
  intros Ht Hl. split.
  - intros j Hj. rewrite <- (lookup_take_lt v k) by done. by rewrite Ht, list_lookup_fmap.
  - intros b. rewrite Ht, list_elem_of_fmap. split; [|eauto]. by intros (x & [= ->] & ?).
Qed.

Lemma drop_second_vec (w : list cell) (v : list cell) l k :
  length l = k → (∀ j, j < k → v !! j = (λ b, Val (Some b)) <$> l !! j) → length w = length v →
  (∀ j, w !! j = if decide (1 ≤ j < 1 + (k - 2)) then v !! S j else v !! j) → 0 < k ≤ length v →
  take (k - 1) w = (λ b, Val (Some b)) <$> drop_second l.
Proof.
  intros Hl Hv Hw Hget Hk. destruct l as [|x [|y l]]; simpl in Hl; [lia|by subst|].
  apply list_eq. intros j. rewrite list_lookup_fmap. cbn [drop_second].
  destruct (decide (j < k - 1)) as [Hj|Hj].
  - rewrite lookup_take_lt, Hget by done. destruct j as [|j].
    + rewrite decide_False by lia. by rewrite Hv by lia.
    + rewrite decide_True by lia. by rewrite Hv by lia.
  - rewrite (lookup_take_ge _ _ j) by lia. symmetry. apply fmap_None, lookup_ge_None. simpl. lia.
Qed.

Lemma pon_gc_remove_ref_run g N B t a b n :
  gc_idle (mkGcs (Some g) N B t) → N !! a = Some n → (num_refs n < 2 ^ 16)%Z →
  wp (pon_gc_remove_ref (Some a) (Some b)) (λ _ σ', gc_idle σ' ∧ ∃ v k,
    σ' = mkGcs (Some g) (<[a := with_refs n v k (refs_cap n)]> N) B t ∧
    node_refs (with_refs n v k (refs_cap n)) =
      (if decide (b ∈ node_refs n) then drop_second (node_refs n) else node_refs n))
    (mkGcs (Some g) N B t).
Proof.
  intros Hidle Hn Hlt.
  assert (vec_ok N (refs n) (num_refs n) (refs_cap n)) as Hv.
  { destruct Hidle as [(? & [= <-] & Hwf & _) _]. by eapply (gw_refs _ _ _ Hwf). }
  pose proof (vec_ok_prefix _ _ _ _ Hv) as Hpre. pose proof (vec_ok_length _ _ _ _ Hv) as Hlen.
  fold (node_refs n) in Hpre, Hlen.
  destruct (prefix_vals _ _ _ Hpre Hlen) as [Hget Hin].
  pose proof Hv as [Hvl Hvn Hvc Hlive].
  assert (b ∉ node_refs n → gc_idle (mkGcs (Some g) N B t) ∧ ∃ v k,
    mkGcs (Some g) N B t = mkGcs (Some g) (<[a := with_refs n v k (refs_cap n)]> N) B t ∧
    node_refs (with_refs n v k (refs_cap n)) =
      (if decide (b ∈ node_refs n) then drop_second (node_refs n) else node_refs n)) as Hsame.
  { intros Hb. split; [done|]. exists (refs n), (num_refs n). rewrite decide_False by done.
    replace (with_refs n (refs n) (num_refs n) (refs_cap n)) with n by by destruct n.
    by rewrite insert_id. }
  unfold pon_gc_remove_ref. gc_steps. destruct (decide (refs n = [])) as [Hnil|Hnil].
  { wp_step. apply Hsame. unfold node_refs. rewrite Hnil. destruct (Z.to_nat _); apply not_elem_of_nil. }
  wp_step. apply find_ref_run; [intros j Hj; destruct (Hlive j) as (x & Hx & _); [lia|eauto]|].
  rewrite drop_0. destruct (decide (Val (Some b) ∈ _)) as [Hb|Hb].
  2: { rewrite decide_False by (intros E; by apply E). wp_step. apply Hsame. by rewrite <- Hin. }
  apply Hin in Hb. rewrite (decide_True (P := b ∈ _)) by done.
  rewrite decide_True by done. wp_step. clear Hsame.
  assert (0 < length (node_refs n)) as Hpos by (destruct (node_refs n); [by apply elem_of_nil in Hb|simpl; lia]).
  change (Z.to_nat 1) with 1. set (k := Z.to_nat (num_refs n)) in *.
  assert (Z.to_nat (num_refs n - 1 - 1) = k - 2) as -> by lia.
  apply shift_refs_run; [lia|intros j Hj; destruct (Hlive j) as (x & Hx & _); [lia|eauto]|].
  intros w Hw Hwget. gc_steps.
  pose proof (drop_second_vec w (refs n) (node_refs n) k Hlen Hget Hw Hwget ltac:(lia)) as Htake.
  assert (vec_ok N w (num_refs n - 1) (refs_cap n)) as Hv'.
  { split; [lia|lia|done|]. intros j Hj. rewrite Hwget. case_decide; apply Hlive; lia. }
  assert (<[a:=n <|refs := w|> <|num_refs ::= λ v : Z, u16 (v - 1)|>]> N =
    <[a := with_refs n w (num_refs n - 1) (refs_cap n)]> N) as ->.
  { f_equal. unfold with_refs. cbn. rewrite wrapu_small by lia. by destruct n. }
  split; [by apply gc_idle_with_refs|]. do 2 eexists. split; [done|].
  unfold node_refs at 1. cbn [with_refs num_refs refs update].
  replace (Z.to_nat (num_refs n - 1)) with (k - 1) by lia. rewrite Htake.
  clear. induction (drop_second _); csimpl; [done|by f_equal].
Qed.

(** ** Look-up by identifier *)

Lemma pon_gc_node_by_id_run σ i :
  gc_idle σ → (0 ≤ i)%Z →
  wp (pon_gc_node_by_id i) (λ r σ', σ' = σ ∧
    ∀ a, r = Some a ↔ ∃ n, nodes σ !! a = Some n ∧ id n = i) σ.
Proof.
  intros [(g & Hg & [_ _ _ [I1 I2 I3 I4] _ _] & _) _] Hi. open_state σ.
  unfold pon_gc_node_by_id. gc_steps. case_decide as Hc.
  - gc_steps. split; [done|]. intros a. split; [done|]. intros (n & Hn & <-).
    destruct (I3 _ _ Hn) as [_ Hlk%lookup_lt_Some]. lia.
  - destruct (lookup_lt_is_Some_2 (by_id g) (Z.to_nat i)) as [r Hr]; [lia|].
    eapply wp_deref; [exact Hr|]. split; [done|]. intros a. split.
    + intros ->. destruct (I4 _ _ Hr) as (n & Hn & Hid). exists n. split; [done|lia].
    + intros (n & Hn & <-). destruct (I3 _ _ Hn) as [_ Hlk]. congruence.
Qed.

End build.
