(* ===== verification/PonGcLife.v ===== *)
(** The life cycle of a process's collector: creation on demand, reset, and
    destruction, which frees every node and payload exactly once. *)

From S2P Require Import Prelude ErtsAlloc PonStats PonGc PonGcInv PonGcMark PonGcSweep PonGcBuild.
From stdpp Require Import base tactics numbers list gmap sets fin_maps.
From Stdlib Require Import ZArith Lia.

Section life.
Context `{Laws : AllocatorLaws}.
Implicit Types (g : PonGcState) (N : gmap positive PonGcNode) (B : gset positive).

Lemma no_node (a : positive) (n : PonGcNode) : (∅ : gmap positive PonGcNode) !! a = Some n → False.
Proof. by rewrite lookup_empty. Qed.

Lemma erase_gc_idem g : erase_gc (erase_gc g) = erase_gc g.
Proof. destruct g. unfold erase_gc. cbn. reflexivity. Qed.

Lemma gc_idle_empty B t : gc_idle (gc_empty B t).
Proof.
  split; [|by intros a n []%no_node].
  exists pon_gc_zero. split; [done|]. split; [|by auto 10]. split.
  - exists []. split; [done|done|constructor|]. intros a. cbn. rewrite lookup_empty.
    split; [by intros ?%elem_of_nil|by intros []].
  - by intros a n []%no_node.
  - split; [done|done|done|]. cbn. lia.
  - split; [done|done|by intros a n []%no_node|done].
  - split; [by intros a n d []%no_node|by intros a a' n n' d []%no_node].
  - done.
Qed.

(** The state is created on the first use and kept afterwards. *)
Lemma erts_pon_gc_state_run σ :
  (pon_gc σ = None → nodes σ = ∅) → (pon_gc σ = None → is_Some (alloc (used_blocks σ) SIZEOF_STATE)) →
  (is_Some (pon_gc σ) → gc_idle σ) →
  wp erts_pon_gc_state (λ r σ', r = true ∧ gc_idle σ' ∧ blobs σ' = blobs σ ∧ nodes σ' = nodes σ ∧
    (pon_gc σ = None → pon_gc σ' = Some pon_gc_zero) ∧ (is_Some (pon_gc σ) → σ' = σ)) σ.
Proof.
  intros Hnone Halloc Hsome. unfold erts_pon_gc_state. wp_step. wp_step.
  destruct (pon_gc σ) as [g|] eqn:Hg.
  - wp_step. split_and!; [done|by eauto|done|done|done|done].
  - destruct (Halloc eq_refl) as [a Ha]. rewrite Ha. destruct σ as [o N B t]. cbn in *. subst.
    rewrite (Hnone eq_refl) in *. unfold pon_gc_init. wp_step. wp_step. wp_step.
    cbn [update pon_gc nodes blobs stats]. gc_steps.
    split_and!; [done|apply gc_idle_empty|done|done|done|by intros []].
Qed.

(** ** Reset *)

Definition erased (N : gmap positive PonGcNode) (l : list positive) (c : positive) : option PonGcNode :=
  if decide (c ∈ l) then erase_node <$> N !! c else N !! c.

Lemma reset_loop_run fuel g N B t b l2 (Q : unit → gcs → Prop) :
  dseg (nx_all N) (pv_all N) b (head l2) l2 None → NoDup l2 → length l2 ≤ fuel →
  (∀ N', (∀ c, N' !! c = erased N l2 c) → Q tt (mkGcs (Some g) N' B t)) →
  wp (reset_loop fuel (head l2)) Q (mkGcs (Some g) N B t).
Proof.
  revert fuel N b. induction l2 as [|a l2 IH]; intros fuel N b Hseg Hnd Hf HQ.
  - assert (Q tt (mkGcs (Some g) N B t)).
    { apply HQ. intros c. unfold erased. rewrite decide_False; [done|by intros ?%elem_of_nil]. }
    by destruct fuel.
  - destruct fuel as [|fuel]; simpl in Hf; [lia|]. apply NoDup_cons in Hnd as [Hal Hnd].
    destruct Hseg as (_ & Hpv & p' & Hnx & Hseg). unfold nx_all in Hnx.
    destruct (N !! a) as [n|] eqn:Hn; [|done]. injection Hnx as <-.
    pose proof (dseg_head _ _ _ _ _ Hseg) as Hh. cbn [head reset_loop]. gc_steps.
    cbn [next_all update]. rewrite Hh. rewrite Hh in Hseg. change (_ <|next_gray := _|>) with (erase_node n).
    apply (IH fuel _ (Some a)); [|done|lia|].
    + eapply dseg_frame; [..|exact Hseg]; intros c Hc; unfold nx_all, pv_all;
        by rewrite !lookup_insert_ne by (intros ->; done).
    + intros N' HN'. apply HQ. intros c. rewrite HN'. unfold erased.
      destruct (decide (c = a)) as [->|Hc].
      * rewrite decide_False, decide_True by (done || left).
        rewrite lookup_insert_eq, Hn. unfold erase_node. simpl. by rewrite Hh.
      * rewrite lookup_insert_ne by done.
        destruct (decide (c ∈ l2)); [rewrite decide_True by (by right)|rewrite decide_False by set_solver]; done.
Qed.

(** Whatever marking was under way, the state after a reset is idle, and the
    graph is the same. *)
Lemma pon_gc_reset_run σ g :
  pon_gc σ = Some g → graph_wf g (nodes σ) (blobs σ) →
  wp pon_gc_reset (λ _ σ', gc_idle σ' ∧ nodes σ' = erase_node <$> nodes σ ∧ blobs σ' = blobs σ ∧
    ∃ g', pon_gc σ' = Some g' ∧ root_list g' = root_list g) σ.
Proof.
  intros Hg Hwf. open_state σ. unfold pon_gc_reset. gc_steps.
  destruct (gw_list _ _ _ Hwf) as [l Hl]. pose proof (al_seg _ _ _ Hl) as Hseg.
  pose proof (dseg_head _ _ _ _ _ Hseg) as Hh. cbn [nodes].
  match goal with |- wp _ _ (mkGcs (Some ?x) _ _ _) => set (g1 := x) end.
  change (nodes_head g1) with (nodes_head g).
  rewrite Hh in *. eapply reset_loop_run; [done|apply Hl|by rewrite (all_list_size _ _ _ Hl)|].
  intros N' HN'.
  assert (N' = erase_node <$> N) as ->.
  { apply map_eq. intros c. rewrite HN', lookup_fmap. unfold erased. case_decide as Hc; [done|].
    rewrite (al_dom _ _ _ Hl) in Hc. destruct (N !! c); [|done]. destruct Hc. eauto. }
  gc_steps.
  pose proof (graph_wf_shape (mkGcs (Some g) N B t) (mkGcs (Some (erase_gc g)) (erase_node <$> N) B t) g (erase_gc g)) as Hs.
  destruct Hs as [[l' [L1 L2 L3 L4]] H1 H2 [I1 I2 I3 I4] H4 H5]; [|done|done|done|].
  { apply shape_mk; [apply erase_gc_idem|]. apply map_eq. intros c. rewrite !lookup_fmap. by destruct (N !! c). }
  split; [|by eauto].
  split; cbn.
  - eexists. split; [done|]. split; [|by auto 10]. split; [by exists l'|exact H1|exact H2|by split|exact H4|exact H5].
  - intros a n. rewrite lookup_fmap. by intros (m & Hm & ->)%fmap_Some.
Qed.

(** ** Destruction *)

Lemma destroy_loop_run fuel g N B t b l2 (Q : unit → gcs → Prop) :
  dseg (nx_all N) (pv_all N) b (head l2) l2 None → NoDup l2 → length l2 ≤ fuel → data_ok N B →
  (∀ N' B', (∀ c, N' !! c = if decide (c ∈ l2) then None else N !! c) →
     (∀ d, d ∈ B' ↔ d ∈ B ∧ ¬ payload_of N l2 d) → Q tt (mkGcs (Some g) N' B' t)) →
  wp (destroy_loop fuel (head l2)) Q (mkGcs (Some g) N B t).
Proof.
  revert fuel N B b. induction l2 as [|a l2 IH]; intros fuel N B b Hseg Hnd Hf Hd HQ.
  - assert (Q tt (mkGcs (Some g) N B t)).
    { apply HQ; [done|]. intros d. split; [|by intros []].
      intros Hb. split; [done|]. by intros (x & m & ?%elem_of_nil & _). }
    by destruct fuel.
  - destruct fuel as [|fuel]; simpl in Hf; [lia|]. apply NoDup_cons in Hnd as [Hal Hnd].
    destruct Hseg as (_ & Hpv & p' & Hnx & Hseg). unfold nx_all in Hnx.
    destruct (N !! a) as [n|] eqn:Hn; [|done]. injection Hnx as <-.
    pose proof (dseg_head _ _ _ _ _ Hseg) as Hh. cbn [head destroy_loop]. gc_steps.
    apply (wp_mono _ (λ _ σ', σ' = mkGcs (Some g) N (freed_blobs B n) t)).
    { unfold freed_blobs. destruct (data n) as [d|] eqn:Hdn; [|by wp_step].
      eapply wp_free_blob; [by eapply (do_alloc _ _ Hd)|done]. }
    intros [] σ' ->. gc_steps. rewrite Hh in *.
    assert (∀ c, c ∈ l2 → delete a N !! c = N !! c) as Hdel
      by (intros c Hc; apply lookup_delete_ne; by intros ->).
    apply (IH fuel _ _ (Some a)); [|done|lia| |].
    + eapply dseg_frame; [..|exact Hseg]; intros c Hc; unfold nx_all, pv_all; by rewrite Hdel.
    + destruct Hd as [D1 D2]. split.
      * intros c m d Hm%lookup_delete_Some Hdm. destruct Hm as [Hca Hm]. unfold freed_blobs.
        destruct (data n) as [d'|] eqn:Hdn; [|by eauto]. apply elem_of_difference. split; [by eauto|].
        rewrite elem_of_singleton. intros ->. by pose proof (D2 _ _ _ _ _ Hm Hn Hdm Hdn).
      * intros c c' m m' d [_ Hm]%lookup_delete_Some [_ Hm']%lookup_delete_Some. eauto.
    + intros N' B' HN' HB'. apply HQ.
      * intros c. rewrite HN'. destruct (decide (c = a)) as [->|Hc].
        -- rewrite lookup_delete_eq. rewrite (decide_True (P := a ∈ a :: l2)) by left. by case_decide.
        -- rewrite lookup_delete_ne by done. destruct (decide (c ∈ l2));
             [rewrite decide_True by (by right)|rewrite decide_False by set_solver]; done.
      * intros d. rewrite HB'. unfold freed_blobs, payload_of. split.
        -- intros [Hb Hno]. split; [destruct (data n); set_solver|].
           intros (c & m & [->|Hc]%elem_of_cons & Hm & Hdm).
           ++ rewrite Hn in Hm. injection Hm as <-. rewrite Hdm in Hb. set_solver.
           ++ apply Hno. exists c, m. by rewrite Hdel.
        -- intros [Hb Hno]. split.
           ++ destruct (data n) as [d'|] eqn:Hdn; [|done]. apply elem_of_difference. split; [done|].
              rewrite elem_of_singleton. intros ->. apply Hno. exists a, n. split_and!; [left|done|done].
           ++ intros (c & m & Hc & Hm & Hdm). rewrite Hdel in Hm by done. apply Hno.
              exists c, m. split_and!; [by right|done|done].
Qed.

(** Destruction leaves no node, and frees exactly the payloads the nodes owned. *)
Lemma pon_gc_destroy_run σ g :
  pon_gc σ = Some g → graph_wf g (nodes σ) (blobs σ) →
  wp pon_gc_destroy (λ _ σ', pon_gc σ' = Some pon_gc_zero ∧ nodes σ' = ∅ ∧ stats σ' = stats σ ∧
    ∀ d, d ∈ blobs σ' ↔ d ∈ blobs σ ∧ ¬ ∃ a n, nodes σ !! a = Some n ∧ data n = Some d) σ.
Proof.
  intros Hg Hwf. open_state σ. unfold pon_gc_destroy. gc_steps.
  destruct (gw_list _ _ _ Hwf) as [l Hl]. pose proof (al_seg _ _ _ Hl) as Hseg.
  pose proof (dseg_head _ _ _ _ _ Hseg) as Hh. cbn [nodes].
  rewrite Hh in *. eapply destroy_loop_run;
    [done|apply Hl|by rewrite (all_list_size _ _ _ Hl)|apply Hwf|].
  intros N' B' HN' HB'. gc_steps. split_and!; [done| |done|].
  - apply map_eq. intros c. cbn. rewrite HN', lookup_empty. case_decide as Hc; [done|].
    rewrite (al_dom _ _ _ Hl) in Hc. destruct (N !! c); [|done]. destruct Hc. eauto.
  - intros d. cbn. rewrite HB'. unfold payload_of. split; intros [Hb Hno]; (split; [done|]); intros H; apply Hno.
    + destruct H as (a & n & Hn & Hd). exists a, n. split_and!; [|done|done]. apply Hl. eauto.
    + destruct H as (a & n & _ & Hn & Hd). eauto.
Qed.

End life.
