(* ===== verification/PonGcThms.v ===== *)
(** Correctness of the notification collector: the theorems about
    [erts/emulator/beam/pon_gc.c], each with a concrete run that meets its
    hypotheses. *)

From S2P Require Import Prelude ErtsAlloc PonStats PonGc PonGcInv PonGcMark PonGcSweep.
From S2P Require Import PonGcCollect PonGcBuild PonGcLife.
From stdpp Require Import base tactics numbers list gmap sets fin_maps.
From Stdlib Require Import ZArith Lia.

(** ** A concrete graph

    Three nodes: 2 is a root and refers to 3, which owns the payload block 1;
    4 is garbage of 50 bytes. *)

Definition state_of {T} (m : G T) (σ : gcs) : gcs :=
  match m σ with Some (_, σ') => σ' | None => σ end.

Definition demo_start : gcs := gc_empty {[1%positive]} pon_stats_zero.
Definition demo_1 : gcs := state_of (pon_gc_node_create None 100) demo_start.
Definition demo_2 : gcs := state_of (pon_gc_node_create (Some 1%positive) 16) demo_1.
Definition demo_3 : gcs := state_of (pon_gc_node_create None 50) demo_2.
Definition demo_4 : gcs := state_of (pon_gc_add_root (Some 2%positive)) demo_3.
Definition demo : gcs := state_of (pon_gc_add_ref (Some 2%positive) (Some 3%positive)) demo_4.

Definition gc_of (σ : gcs) : PonGcState :=
  match pon_gc σ with Some g => g | None => pon_gc_zero end.

(** A node whose vector of references is as long as a [uint16_t] capacity can double to. *)
Definition full_node : PonGcNode :=
  (new_node None 0 0) <| refs := replicate (Z.to_nat 32768) (Val (Some 1%positive)) |>
    <| num_refs := 32768%Z |> <| refs_cap := 32768%Z |>.

Definition full_state : gcs := mkGcs (Some pon_gc_zero) {[1%positive := full_node]} ∅ pon_stats_zero.

(** What [pon_gc_node_create] adds to a state. *)
Record created (σ σ' : gcs) (g : PonGcState) (a : positive) (d : option positive) (sz : Z) : Prop := {
  cr_fresh : nodes σ !! a = None;
  cr_node : object <$> nodes σ' !! a = Some (object (new_node d sz (next_id g)));
  cr_other c : c ≠ a → object <$> nodes σ' !! c = object <$> nodes σ !! c;
  cr_gc : ∃ g', pon_gc σ' = Some g' ∧ root_list g' = root_list g ∧ next_id g' = (next_id g + 1)%Z;
  cr_unreached g' : pon_gc σ' = Some g' → ¬ reachable g' (nodes σ') a
}.

Section theorems.
Context `{Laws : AllocatorLaws}.
Implicit Types (σ : gcs) (g : PonGcState).

Lemma wp_run {T} (m : G T) Q σ : wp m Q σ → ∃ x σ', m σ = Some (x, σ') ∧ Q x σ'.
Proof. apply wp_elim. Qed.

Lemma wp_state_of {T} (m : G T) Q σ : wp m Q σ → ∃ x, Q x (state_of m σ).
Proof. intros (x & σ' & Hm & HQ)%wp_elim. unfold state_of. rewrite Hm. eauto. Qed.

Lemma gc_idle_gc σ : gc_idle σ → ∃ g, pon_gc σ = Some g.
Proof. intros [(g & Hg & _) _]. eauto. Qed.

Lemma root_list_step σ σ' g a b dead :
  collected σ σ' g dead → a ∉ dead → b ∈ succs (nodes σ) a → b ∈ succs (nodes σ') a.
Proof.
  intros Hc Ha Hb. pose proof (cl_live _ _ _ _ Hc a Ha) as Ho. unfold succs in *.
  destruct (nodes σ !! a) as [n|] eqn:Hn; [|by apply elem_of_nil in Hb].
  destruct (nodes σ' !! a) as [n'|] eqn:Hn'; [|done]. injection Ho as Ho.
  assert (object n' = object n) as (E1 & _ & E2 & _)%object_fields
    by (unfold object, unlink, erase_node; simpl; congruence).
  unfold node_refs in *. by rewrite E1, E2.
Qed.

(** What a collection leaves is reachable. *)
Lemma collected_reachable σ σ' g g' dead a :
  collected σ σ' g dead → pon_gc σ' = Some g' →
  reachable g (nodes σ) a → is_Some (nodes σ !! a) → reachable g' (nodes σ') a.
Proof.
  intros Hc Hg' Hr _.
  assert (root_list g' = root_list g) as Hroots.
  { destruct (cl_counts _ _ _ _ Hc) as (g2 & Hg2 & _ & _ & ? & _). congruence. }
  induction Hr as [a Ha|a b Hra IH Hab].
  - constructor. by rewrite Hroots.
  - eapply reachable_step; [exact IH|]. eapply root_list_step; [done| |done].
    intros Hd. by apply (cl_dead _ _ _ _ Hc) in Hd as [_ []].
Qed.

Lemma collected_live σ σ' g dead a :
  collected σ σ' g dead → is_Some (nodes σ' !! a) → is_Some (nodes σ !! a) ∧ a ∉ dead.
Proof.
  intros Hc [n' Hn']. assert (a ∉ dead) as Ha.
  { intros Hd. apply (cl_gone _ _ _ _ Hc) in Hd. congruence. }
  split; [|done]. pose proof (cl_live _ _ _ _ Hc a Ha) as Ho. rewrite Hn' in Ho.
  by destruct (nodes σ !! a).
Qed.

(** A collection of what a collection left finds nothing. *)
Lemma collected_twice σ σ' σ'' g g' dead dead' :
  collected σ σ' g dead → pon_gc σ' = Some g' → collected σ' σ'' g' dead' → dead' = [].
Proof.
  intros Hc Hg' Hc'. destruct dead' as [|a dead']; [done|exfalso].
  destruct (proj1 (cl_dead _ _ _ _ Hc' a)) as [Hl Hnr]; [left|].
  destruct (collected_live _ _ _ _ _ Hc Hl) as [Hl0 Hd]. apply Hd, (cl_dead _ _ _ _ Hc).
  split; [done|]. intros Hr. apply Hnr. by eapply collected_reachable.
Qed.

Lemma create_spec σ g d sz a :
  gc_idle σ → pon_gc σ = Some g → (next_id g < 2 ^ 62)%Z →
  (∀ x, d = Some x → x ∈ blobs σ ∧ ∀ b n, nodes σ !! b = Some n → data n ≠ Some x) →
  (∀ z, realloc_ok z = true) → alloc (used_blocks σ) SIZEOF_NODE = Some a →
  wp (pon_gc_node_create d sz) (λ r σ', r = Some a ∧ gc_idle σ' ∧ created σ σ' g a d sz ∧
    blobs σ' = blobs σ) σ.
Proof.
  intros Hidle Hg Hid Hd Hok Ha. pose proof Hidle as [(g0 & Hg0 & Hwf & _) _].
  assert (g0 = g) as -> by congruence. destruct (gw_list _ _ _ Hwf) as [l Hl].
  pose proof (gw_ids _ _ _ Hwf) as Hids. pose proof (io_next _ _ Hids).
  pose proof (alloc_fresh _ _ _ Ha) as Hfr.
  assert (nodes σ !! a = None) as Hna by (apply not_elem_of_dom; unfold used_blocks in Hfr; set_solver).
  open_state σ. unfold used_blocks in *; cbn [nodes blobs] in *.
  eapply wp_mono; [apply (pon_gc_node_create_run _ _ _ _ l _ _ a); try done; apply Hids|].
  intros r σ' (-> & ids & -> & Hlen & Hsame). split; [done|].
  assert (gc_idle (mkGcs (Some (created_gc g a ids)) (created_nodes g N a d sz) B t)) as Hidle'
    by (apply gc_idle_create; done).
  split; [done|]. split; [|done].
  pose proof (λ c, created_nodes_lookup g N a d sz c Hna) as Hlk.
  assert (∀ c, c ≠ a → object <$> created_nodes g N a d sz !! c = object <$> N !! c) as Hoth.
  { intros c Hc. rewrite Hlk, decide_False by done. destruct (N !! c); [|done]. simpl. by case_decide. }
  split; cbn [nodes pon_gc].
  - done.
  - by rewrite Hlk, decide_True.
  - done.
  - eexists. split; [done|]. split; [done|]. cbn. by rewrite wrapu_small by lia.
  - intros g' [= <-] Hr.
    assert (∀ c, reachable (created_gc g a ids) (created_nodes g N a d sz) c → reachable g N c ∧ is_Some (N !! c)) as Hback.
    { clear Hr. induction 1 as [c Hc|c e _ [IH1 IH2] Hce].
      - split; [by constructor|]. eapply vec_ok_elem; [apply Hwf|exact Hc].
      - assert (succs (created_nodes g N a d sz) c = succs N c) as Hs.
        { unfold succs. destruct IH2 as [n Hn]. assert (c ≠ a) as Hca by congruence.
          specialize (Hoth c Hca). rewrite Hn in *. destruct (created_nodes _ _ _ _ _ !! c) as [m|]; [|done].
          injection Hoth as Ho. unfold node_refs. congruence. }
        rewrite Hs in Hce. assert (reachable g N e) as He by (by eapply reachable_step).
        split; [done|]. by eapply reachable_live. }
    apply Hback in Hr as [_ [? ?]]. congruence.
Qed.

Lemma add_root_spec σ g b :
  gc_idle σ → pon_gc σ = Some g → is_Some (nodes σ !! b) → (num_roots g < 2 ^ 30)%Z →
  (∀ z, realloc_ok z = true) →
  wp (pon_gc_add_root (Some b)) (λ _ σ', gc_idle σ' ∧ nodes σ' = nodes σ ∧ blobs σ' = blobs σ ∧
    ∃ g', pon_gc σ' = Some g' ∧ root_list g' = root_list g ++ [b]) σ.
Proof.
  intros Hidle Hg Hb Hn Hok. open_state σ.
  eapply wp_mono; [by apply pon_gc_add_root_run|].
  intros _ σ' (Hidle' & v & cap & -> & Hr). split_and!; [done|done|done|]. eexists. split; [done|exact Hr].
Qed.

(** Only the references of [a] have changed, to [l]. *)
Record refs_updated (σ σ' : gcs) (a : positive) (l : list positive) : Prop := {
  ru_succs c : succs (nodes σ') c = if decide (c = a) then l else succs (nodes σ) c;
  ru_other c : c ≠ a → nodes σ' !! c = nodes σ !! c;
  ru_gc : pon_gc σ' = pon_gc σ;
  ru_blobs : blobs σ' = blobs σ
}.

Lemma refs_updated_intro g N B t a n n' l :
  N !! a = Some n → node_refs n' = l →
  refs_updated (mkGcs (Some g) N B t) (mkGcs (Some g) (<[a := n']> N) B t) a l.
Proof.
  intros Hn <-. split; cbn [nodes pon_gc blobs]; [|intros c Hc; by rewrite lookup_insert_ne|done|done].
  intros c. unfold succs. case_decide; subst; [by rewrite lookup_insert_eq|by rewrite lookup_insert_ne].
Qed.

Lemma add_ref_spec σ a b n :
  gc_idle σ → nodes σ !! a = Some n → is_Some (nodes σ !! b) → (num_refs n < 2 ^ 15)%Z →
  (∀ z, realloc_ok z = true) →
  wp (pon_gc_add_ref (Some a) (Some b)) (λ _ σ', gc_idle σ' ∧ refs_updated σ σ' a (node_refs n ++ [b])) σ.
Proof.
  intros Hidle Hn Hb Hlt Hok. destruct (gc_idle_gc _ Hidle) as [g Hg]. open_state σ.
  eapply wp_mono; [by apply (pon_gc_add_ref_run _ _ _ _ a b n)|].
  intros _ σ' (Hidle' & v & cap & -> & Hr). split; [done|]. by eapply refs_updated_intro.
Qed.

Lemma remove_ref_spec σ a b n :
  gc_idle σ → nodes σ !! a = Some n → (num_refs n < 2 ^ 16)%Z →
  wp (pon_gc_remove_ref (Some a) (Some b)) (λ _ σ', gc_idle σ' ∧ refs_updated σ σ' a
    (if decide (b ∈ node_refs n) then drop_second (node_refs n) else node_refs n)) σ.
Proof.
  intros Hidle Hn Hlt. destruct (gc_idle_gc _ Hidle) as [g Hg]. open_state σ.
  eapply wp_mono; [by eapply (pon_gc_remove_ref_run _ _ _ _ a b n)|].
  intros _ σ' (Hidle' & v & k & -> & Hr). split; [done|]. by eapply refs_updated_intro.
Qed.

End theorems.

(** ** The concrete graph is idle *)

Lemma gc_of_idle σ : gc_idle σ → pon_gc σ = Some (gc_of σ).
Proof. intros [(g & Hg & _) _]. unfold gc_of. by rewrite Hg. Qed.

(** Runs one operation: the state it leaves and the postcondition there. *)
Ltac run_step H Hidle :=
  let x := fresh "x" in
  let E := fresh "E" in
  apply wp_state_of in H as [x E]; 
  lazymatch type of E with
  | gc_idle _ ∧ _ => destruct E as (Hidle & _)
  | _ => destruct E as (_ & Hidle & _)
  end.

Lemma demo_4_idle : gc_idle demo_4 ∧ gc_idle demo_3 ∧ gc_idle demo_1.
Proof.
  pose proof (gc_idle_empty {[1%positive]} pon_stats_zero) as H0.
  pose proof (create_spec demo_start _ None 100 2%positive H0 eq_refl) as H1.
  ospecialize (H1 _ _ _ _); [by vm_compute|done|done|by vm_compute|]. run_step H1 I1. fold demo_1 in I1.
  pose proof (create_spec demo_1 (gc_of demo_1) (Some 1%positive) 16 3%positive I1 (gc_of_idle _ I1)) as H2.
  ospecialize (H2 _ _ _ _); [by vm_compute| |done|by vm_compute|].
  { intros y [= <-]. split; [apply (bool_decide_unpack (1%positive ∈ blobs demo_1)); by vm_compute|].
    apply (bool_decide_unpack (map_Forall (λ _ n, data n ≠ Some 1%positive) (nodes demo_1))). by vm_compute. }
  run_step H2 I2. fold demo_2 in I2.
  pose proof (create_spec demo_2 (gc_of demo_2) None 50 4%positive I2 (gc_of_idle _ I2)) as H3.
  ospecialize (H3 _ _ _ _); [by vm_compute|done|done|by vm_compute|]. run_step H3 I3. fold demo_3 in I3.
  pose proof (add_root_spec demo_3 (gc_of demo_3) 2 I3 (gc_of_idle _ I3)) as H4.
  ospecialize (H4 _ _ _); [apply (bool_decide_unpack (is_Some (nodes demo_3 !! 2%positive))); by vm_compute|by vm_compute|done|].
  run_step H4 I4. fold demo_4 in I4. exact (conj I4 (conj I3 I1)).
Qed.

(** The node at an address of a concrete state. *)
Definition node_at (σ : gcs) (a : positive) : PonGcNode :=
  match nodes σ !! a with Some n => n | None => full_node end.

Lemma node_at_eq σ a : bool_decide (is_Some (nodes σ !! a)) = true → nodes σ !! a = Some (node_at σ a).
Proof. intros [n Hn]%bool_decide_eq_true. unfold node_at. by rewrite Hn. Qed.

Lemma demo_idle : gc_idle demo.
Proof.
  destruct demo_4_idle as [I4 _].
  assert (nodes demo_4 !! 2%positive = Some (node_at demo_4 2)) as Hn by (apply node_at_eq; by vm_compute).
  pose proof (add_ref_spec demo_4 2 3 _ I4 Hn) as H5.
  ospecialize (H5 _ _ _); [apply (bool_decide_unpack (is_Some (nodes demo_4 !! 3%positive))); by vm_compute|by vm_compute|done|].
  run_step H5 I5. fold demo in I5. exact I5.
Qed.

Definition demo_root : positive := 2.
Definition demo_child : positive := 3.
Definition demo_garbage : positive := 4.

(** The state after the root phase of a mark of the concrete graph. *)
Definition demo_m0 : mstate := m_roots (root_list (gc_of demo)) (m_idle (gc_of demo) (nodes demo)).

Lemma demo_refs_u16 a n : nodes demo !! a = Some n → (num_refs n < 2 ^ 16)%Z.
Proof.
  apply (bool_decide_unpack (map_Forall (λ _ n, num_refs n < 2 ^ 16)%Z (nodes demo))). by vm_compute.
Qed.

Lemma demo_in_progress : in_progress (succs (nodes demo)) demo (m_idle (gc_of demo) (nodes demo)).
Proof.
  pose proof demo_idle as Hi. pose proof Hi as [(g & Hg & Hwf & _) _].
  split; [|by eapply graph_wf_refs_as|exact demo_refs_u16].
  apply gc_idle_rel; [done|by apply gc_of_idle].
Qed.

Lemma demo_wf : graph_wf (gc_of demo) (nodes demo) (blobs demo).
Proof.
  pose proof demo_idle as Hi. pose proof Hi as [(g & Hg & Hwf & _) _]. unfold gc_of. by rewrite Hg.
Qed.

Lemma demo_marking : in_progress (succs (nodes demo)) (state_of notify_roots demo) demo_m0.
Proof.
  pose proof (notify_roots_run demo (gc_of demo) demo_idle (gc_of_idle _ demo_idle)) as H.
  apply wp_state_of in H as [x [Hrel Hs]]. eapply in_progress_shape; [apply demo_in_progress|done|done].
Qed.

(** ** Collection *)

Section collection_theorems.
Context `{Laws : AllocatorLaws}.
Implicit Types (σ : gcs) (g : PonGcState).

(** C1: a complete collection returns, frees exactly the nodes that no root
    reaches together with the payloads they own, leaves every reachable node as
    it was, reports the number of nodes collected, and restores the invariant
    under which the next collection can start. *)
Theorem mark_sweep_collects σ g :
  gc_idle σ → pon_gc σ = Some g →
  ∃ r σ' dead, pon_gc_mark_sweep σ = Some (r, σ') ∧ collected σ σ' g dead ∧ gc_idle σ' ∧
    r = u64 (Z.of_nat (length dead)).
Proof.
  intros Hidle Hg. destruct (wp_run _ _ _ (pon_gc_mark_sweep_spec _ _ Hidle Hg)) as
    (r & σ' & Hr & Hidle' & dead & Hc & ->). eauto 10.
Qed.

(** A second collection that directly follows a first one finds no garbage. *)
Theorem mark_sweep_idempotent σ :
  gc_idle σ →
  ∃ r σ' σ'', pon_gc_mark_sweep σ = Some (r, σ') ∧ pon_gc_mark_sweep σ' = Some (0%Z, σ'') ∧
    (∀ a, object <$> nodes σ'' !! a = object <$> nodes σ' !! a) ∧ (∀ d, d ∈ blobs σ'' ↔ d ∈ blobs σ').
Proof.
  intros Hidle. destruct (gc_idle_gc _ Hidle) as [g Hg].
  destruct (wp_run _ _ _ (pon_gc_mark_sweep_spec _ _ Hidle Hg)) as (r & σ' & Hr & Hidle' & dead & Hc & _).
  destruct (gc_idle_gc _ Hidle') as [g' Hg'].
  destruct (wp_run _ _ _ (pon_gc_mark_sweep_spec _ _ Hidle' Hg')) as (r' & σ'' & Hr' & _ & dead' & Hc' & ->).
  assert (dead' = []) as -> by exact (collected_twice _ _ _ _ _ _ _ Hc Hg' Hc').
  exists r, σ', σ''. split_and!; [done|done| |].
  - intros a. apply (cl_live _ _ _ _ Hc'), not_elem_of_nil.
  - intros d. rewrite (cl_blobs _ _ _ _ Hc'). split; [by intros []|]. intros Hd. split; [done|].
    by intros (a & n & ?%elem_of_nil & _).
Qed.

(** C20: a mark from an idle state terminates with an empty queue, colours the
    reachable nodes black and the others white, changes nothing else in the
    graph, and returns the number of black nodes. *)
Theorem mark_colours_reachable σ g :
  gc_idle σ → pon_gc σ = Some g →
  ∃ r σ', pon_gc_mark σ = Some (r, σ') ∧ shape σ' = shape σ ∧
    (∃ g', pon_gc σ' = Some g' ∧ gray_head g' = None ∧ gray_tail g' = None ∧ gray_count g' = 0%Z) ∧
    (∀ a n, nodes σ' !! a = Some n →
      color n = PON_GC_BLACK ∧ reachable g (nodes σ) a ∨
      color n = PON_GC_WHITE ∧ ¬ reachable g (nodes σ) a) ∧
    r = u64 (Z.of_nat (size (filter (λ an, color an.2 ≠ PON_GC_WHITE) (nodes σ')))).
Proof.
  intros Hidle Hg. destruct (wp_run _ _ _ (pon_gc_mark_spec _ _ Hidle Hg)) as
    (r & σ' & Hr & [Hs (g' & Hg' & H1 & H2 & H3 & _) Hcol] & ->).
  exists (u64 (Z.of_nat (size (filter (λ an, color an.2 ≠ PON_GC_WHITE) (nodes σ'))))), σ'.
  split_and!; [done|done|by eauto| |done].
  intros a n Hn. destruct (Hcol a n g Hg Hn) as [[]|[]]; [left|right]; done.
Qed.

(** C19: marking in slices is the same collection: after the root phase, calling
    [pon_gc_step] more times than there are nodes, with any positive budget,
    reports completion and leaves the marking of [pon_gc_mark]. *)
Theorem step_slices_mark σ g max n :
  gc_idle σ → pon_gc σ = Some g → (∀ a nd, nodes σ !! a = Some nd → (num_refs nd < 2 ^ 16)%Z) →
  (0 < max ≤ 2 ^ 31 - 2 ^ 16)%Z → size (nodes σ) < n →
  ∃ σ', (notify_roots ≫= λ _, step_times n max) σ = Some (1%Z, σ') ∧ marked σ σ'.
Proof.
  intros Hidle Hg Hu Hmax Hn.
  destruct (wp_run _ _ _ (step_times_mark σ g max n Hidle Hg Hu Hmax Hn)) as (r & σ' & Hr & -> & Hm). eauto.
Qed.

(** One slice with budget [max] runs at most [max] steps of the marking
    machine, at least one when notifications are pending, and returns 1 exactly
    when none is pending afterwards. *)
Theorem step_within_budget sc σ m max :
  in_progress sc σ m → (0 < max ≤ 2 ^ 31 - 2 ^ 16)%Z →
  ∃ r σ' k, pon_gc_step max σ = Some (r, σ') ∧ mark_rel σ' (m_run sc k m) ∧ shape σ' = shape σ ∧
    (Z.of_nat k ≤ max)%Z ∧ (mq m ≠ [] → 0 < k) ∧
    (r = 1%Z ∧ mq (m_run sc k m) = [] ∨ r = 0%Z ∧ mq (m_run sc k m) ≠ []).
Proof.
  intros Hip Hmax. destruct (wp_run _ _ _ (pon_gc_step_refines sc σ m max Hip Hmax)) as
    (r & σ' & Hr & k & [Hrel _ _] & Hs & Hk & Hpos & Hret).
  exists r, σ', k. split_and!; [done|done|done|done|done|]. case_decide; auto.
Qed.

(** C40: [pon_gc_step] never notifies the roots: on an idle collector it reports
    that marking is complete, and the sweep that a caller then starts frees
    every node, reachable or not. *)
Theorem step_then_sweep_frees_roots σ max :
  gc_idle σ →
  pon_gc_step max σ = Some (1%Z, σ) ∧ ∃ r σ', pon_gc_sweep σ = Some (r, σ') ∧ nodes σ' = ∅.
Proof.
  intros Hidle. split; [by apply pon_gc_step_idle|].
  destruct (gc_idle_gc _ Hidle) as [g Hg]. pose proof Hidle as [(g0 & Hg0 & Hwf & _) Hw].
  destruct (graph_wf_store _ _ _ Hwf) as [l Hl]. open_state σ. simplify_eq.
  destruct (wp_run _ _ _ (pon_gc_sweep_run g0 N B t l Hl)) as (r & σ' & Hr & g' & N' & B' & l' & -> & _ & _ & (g1 & Hsw & _) & _).
  exists r. eexists. split; [exact Hr|]. cbn. apply map_empty. intros a.
  pose proof (swept_nodes N l _ N' B g1 B' a (al_dom _ _ _ (sw_list _ _ _ _ Hl)) Hsw) as Hs.
  unfold swept in Hs. destruct (N !! a) as [n|] eqn:Hn; [rewrite decide_True in Hs by by eapply Hw|];
    by destruct (N' !! a).
Qed.

End collection_theorems.

Lemma mark_sweep_collects_witness :
  ∃ r σ' dead, pon_gc_mark_sweep demo = Some (r, σ') ∧ collected demo σ' (gc_of demo) dead ∧
    gc_idle σ' ∧ r = u64 (Z.of_nat (length dead)).
Proof. exact (mark_sweep_collects demo (gc_of demo) demo_idle (gc_of_idle _ demo_idle)). Defined.

Lemma mark_sweep_idempotent_witness :
  ∃ r σ' σ'', pon_gc_mark_sweep demo = Some (r, σ') ∧ pon_gc_mark_sweep σ' = Some (0%Z, σ'') ∧
    (∀ a, object <$> nodes σ'' !! a = object <$> nodes σ' !! a) ∧ (∀ d, d ∈ blobs σ'' ↔ d ∈ blobs σ').
Proof. exact (mark_sweep_idempotent demo demo_idle). Defined.

Lemma mark_colours_reachable_witness :
  ∃ r σ', pon_gc_mark demo = Some (r, σ') ∧ shape σ' = shape demo ∧
    (∃ g', pon_gc σ' = Some g' ∧ gray_head g' = None ∧ gray_tail g' = None ∧ gray_count g' = 0%Z) ∧
    (∀ a n, nodes σ' !! a = Some n →
      color n = PON_GC_BLACK ∧ reachable (gc_of demo) (nodes demo) a ∨
      color n = PON_GC_WHITE ∧ ¬ reachable (gc_of demo) (nodes demo) a) ∧
    r = u64 (Z.of_nat (size (filter (λ an, color an.2 ≠ PON_GC_WHITE) (nodes σ')))).
Proof. exact (mark_colours_reachable demo (gc_of demo) demo_idle (gc_of_idle _ demo_idle)). Defined.

Lemma step_slices_mark_witness :
  ∃ σ', (notify_roots ≫= λ _, step_times 4 1) demo = Some (1%Z, σ') ∧ marked demo σ'.
Proof.
  apply (step_slices_mark demo (gc_of demo) 1 4 demo_idle (gc_of_idle _ demo_idle) demo_refs_u16);
    [lia|by vm_compute; lia].
Defined.

Lemma step_within_budget_witness :
  ∃ r σ' k, pon_gc_step 1 (state_of notify_roots demo) = Some (r, σ') ∧
    mark_rel σ' (m_run (succs (nodes demo)) k demo_m0) ∧
    shape σ' = shape (state_of notify_roots demo) ∧ (Z.of_nat k ≤ 1)%Z ∧ (mq demo_m0 ≠ [] → 0 < k) ∧
    (r = 1%Z ∧ mq (m_run (succs (nodes demo)) k demo_m0) = [] ∨
     r = 0%Z ∧ mq (m_run (succs (nodes demo)) k demo_m0) ≠ []).
Proof. apply (step_within_budget _ _ _ 1 demo_marking). lia. Defined.

Lemma step_then_sweep_frees_roots_witness :
  pon_gc_step 5 demo = Some (1%Z, demo) ∧
  ∃ r σ', pon_gc_sweep demo = Some (r, σ') ∧ nodes σ' = ∅.
Proof. exact (step_then_sweep_frees_roots demo 5 demo_idle). Defined.

(** ** Building the graph, reset and destruction *)

Section graph_theorems.
Context `{Laws : AllocatorLaws}.
Implicit Types (σ : gcs) (g : PonGcState).

(** Creating a node with a payload that no other node owns returns a fresh
    node with the next identifier and no references; the other nodes, the roots
    and the payloads stay as they were, the new node is unreachable, and the
    collector is idle again. *)
Theorem node_create_adds_node σ g d sz a :
  gc_idle σ → pon_gc σ = Some g → (next_id g < 2 ^ 62)%Z →
  (∀ x, d = Some x → x ∈ blobs σ ∧ ∀ b n, nodes σ !! b = Some n → data n ≠ Some x) →
  (∀ z, realloc_ok z = true) → alloc (used_blocks σ) SIZEOF_NODE = Some a →
  ∃ σ', pon_gc_node_create d sz σ = Some (Some a, σ') ∧ gc_idle σ' ∧ created σ σ' g a d sz ∧
    blobs σ' = blobs σ.
Proof.
  intros Hidle Hg Hid Hd Hok Ha.
  destruct (wp_run _ _ _ (create_spec σ g d sz a Hidle Hg Hid Hd Hok Ha)) as (r & σ' & Hr & -> & ?). eauto.
Qed.

(** [pon_gc_add_ref] appends the target to the references of the source, as
    long as the source has fewer than 2^15 of them, and touches nothing else. *)
Theorem add_ref_appends σ a b n :
  gc_idle σ → nodes σ !! a = Some n → is_Some (nodes σ !! b) → (num_refs n < 2 ^ 15)%Z →
  (∀ z, realloc_ok z = true) →
  ∃ σ', pon_gc_add_ref (Some a) (Some b) σ = Some (tt, σ') ∧ gc_idle σ' ∧
    refs_updated σ σ' a (node_refs n ++ [b]).
Proof.
  intros Hidle Hn Hb Hlt Hok.
  destruct (wp_run _ _ _ (add_ref_spec σ a b n Hidle Hn Hb Hlt Hok)) as ([] & σ' & Hr & ?). eauto.
Qed.

(** C39: at 32768 references the doubled capacity wraps to 0 in the [Uint16]
    [new_cap]: the vector is reallocated to no words and the next write is out of
    bounds, whatever the target. *)
Theorem add_ref_overflow σ a b n :
  nodes σ !! a = Some n → num_refs n = 32768%Z → refs_cap n = 32768%Z →
  (∀ z, realloc_ok z = true) →
  pon_gc_add_ref (Some a) (Some b) σ = None.
Proof.
  intros Hn H1 H2 Hok. unfold pon_gc_add_ref, load, mbind, M_bind, get, deref. rewrite Hn. cbn -[u16].
  rewrite H1, H2. rewrite decide_True by done. rewrite decide_False by done.
  change (u16 (32768 * 2)) with 0%Z. rewrite Hok. unfold upd_node, load, mbind, M_bind, get, deref.
  rewrite Hn. unfold modify, mret, M_ret. cbn -[u16]. rewrite lookup_alter_eq, Hn. cbn -[u16 alter].
  rewrite lookup_alter_eq, Hn. cbn -[u16 alter]. unfold vec_set. rewrite decide_False; [done|].
  rewrite H1. unfold vec_resize. simpl. lia.
Qed.

(** C38: [pon_gc_remove_ref] keeps the references when the target is not one of
    them; otherwise it deletes the second reference (the only one when there is
    one), whichever reference the target is. *)
Theorem remove_ref_deletes_second σ a b n :
  gc_idle σ → nodes σ !! a = Some n → (num_refs n < 2 ^ 16)%Z →
  ∃ σ', pon_gc_remove_ref (Some a) (Some b) σ = Some (tt, σ') ∧ gc_idle σ' ∧ refs_updated σ σ' a
    (if decide (b ∈ node_refs n)
     then match node_refs n with x :: _ :: l => x :: l | _ => [] end else node_refs n).
Proof.
  intros Hidle Hn Hlt.
  destruct (wp_run _ _ _ (remove_ref_spec σ a b n Hidle Hn Hlt)) as ([] & σ' & Hr & ?). eauto.
Qed.

(** Looking an identifier up returns the live node that has it, and [NULL]
    for an identifier that no live node has. *)
Theorem node_by_id_finds σ i :
  gc_idle σ → (0 ≤ i)%Z →
  ∃ r, pon_gc_node_by_id i σ = Some (r, σ) ∧
    ∀ a, r = Some a ↔ ∃ n, nodes σ !! a = Some n ∧ id n = i.
Proof.
  intros Hidle Hi.
  destruct (wp_run _ _ _ (pon_gc_node_by_id_run σ i Hidle Hi)) as (r & σ' & Hr & -> & ?). eauto.
Qed.

(** A reset, at any point of a marking, brings the collector back to the
    idle state with the same graph. *)
Theorem reset_idles σ g :
  pon_gc σ = Some g → graph_wf g (nodes σ) (blobs σ) →
  ∃ σ', pon_gc_reset σ = Some (tt, σ') ∧ gc_idle σ' ∧ nodes σ' = erase_node <$> nodes σ ∧
    blobs σ' = blobs σ ∧ ∃ g', pon_gc σ' = Some g' ∧ root_list g' = root_list g.
Proof.
  intros Hg Hwf. destruct (wp_run _ _ _ (pon_gc_reset_run σ g Hg Hwf)) as ([] & σ' & Hr & ?). eauto.
Qed.

(** C26: destruction frees every node and exactly the payloads the nodes own,
    each once, and leaves a zeroed state. *)
Theorem destroy_frees_all σ g :
  pon_gc σ = Some g → graph_wf g (nodes σ) (blobs σ) →
  ∃ σ', pon_gc_destroy σ = Some (tt, σ') ∧ pon_gc σ' = Some pon_gc_zero ∧ nodes σ' = ∅ ∧
    ∀ d, d ∈ blobs σ' ↔ d ∈ blobs σ ∧ ¬ ∃ a n, nodes σ !! a = Some n ∧ data n = Some d.
Proof.
  intros Hg Hwf. destruct (wp_run _ _ _ (pon_gc_destroy_run σ g Hg Hwf)) as ([] & σ' & Hr & ? & ? & _ & ?). eauto 10.
Qed.

End graph_theorems.

Lemma node_create_adds_node_witness :
  ∃ σ', pon_gc_node_create None 100 demo_start = Some (Some demo_root, σ') ∧ gc_idle σ' ∧
    created demo_start σ' pon_gc_zero demo_root None 100 ∧ blobs σ' = blobs demo_start.
Proof.
  apply (node_create_adds_node demo_start pon_gc_zero None 100 demo_root);
    [apply gc_idle_empty|done|done|done|done|by vm_compute].
Defined.

Lemma add_ref_appends_witness :
  ∃ σ', pon_gc_add_ref (Some demo_root) (Some demo_garbage) demo = Some (tt, σ') ∧ gc_idle σ' ∧
    refs_updated demo σ' demo_root (node_refs (node_at demo demo_root) ++ [demo_garbage]).
Proof.
  apply (add_ref_appends demo demo_root demo_garbage (node_at demo demo_root) demo_idle);
    [apply node_at_eq; by vm_compute| |by vm_compute|done].
  eexists. apply node_at_eq. by vm_compute.
Defined.

Lemma add_ref_overflow_witness : pon_gc_add_ref (Some 1%positive) (Some 1%positive) full_state = None.
Proof. by apply (add_ref_overflow full_state 1 1 full_node). Defined.

(** The root of the concrete graph refers to the child and to itself. *)
Definition demo_two : gcs := state_of (pon_gc_add_ref (Some demo_root) (Some demo_root)) demo.

Lemma demo_two_idle : gc_idle demo_two.
Proof.
  pose proof (add_ref_spec demo demo_root demo_root (node_at demo demo_root) demo_idle) as H.
  ospecialize (H _ _ _ _); [apply node_at_eq; by vm_compute| |by vm_compute|done|].
  { eexists. apply node_at_eq. by vm_compute. }
  run_step H Hd. exact Hd.
Qed.

Lemma remove_ref_deletes_second_witness :
  ∃ σ', pon_gc_remove_ref (Some demo_root) (Some demo_child) demo_two = Some (tt, σ') ∧ gc_idle σ' ∧
    refs_updated demo_two σ' demo_root [demo_child].
Proof.
  apply (remove_ref_deletes_second demo_two demo_root demo_child (node_at demo_two demo_root) demo_two_idle);
    [apply node_at_eq; by vm_compute|by vm_compute].
Defined.

Lemma node_by_id_finds_witness :
  ∃ r, pon_gc_node_by_id 1 demo = Some (r, demo) ∧
    ∀ a, r = Some a ↔ ∃ n, nodes demo !! a = Some n ∧ id n = 1%Z.
Proof. apply (node_by_id_finds demo 1 demo_idle). lia. Defined.

Lemma reset_idles_witness :
  ∃ σ', pon_gc_reset demo = Some (tt, σ') ∧ gc_idle σ' ∧ nodes σ' = erase_node <$> nodes demo ∧
    blobs σ' = blobs demo ∧ ∃ g', pon_gc σ' = Some g' ∧ root_list g' = root_list (gc_of demo).
Proof. exact (reset_idles demo (gc_of demo) (gc_of_idle _ demo_idle) demo_wf). Defined.

Lemma destroy_frees_all_witness :
  ∃ σ', pon_gc_destroy demo = Some (tt, σ') ∧ pon_gc σ' = Some pon_gc_zero ∧ nodes σ' = ∅ ∧
    ∀ d, d ∈ blobs σ' ↔ d ∈ blobs demo ∧ ¬ ∃ a n, nodes demo !! a = Some n ∧ data n = Some d.
Proof. exact (destroy_frees_all demo (gc_of demo) (gc_of_idle _ demo_idle) demo_wf). Defined.
