(* ===== verification/PonEts.v ===== *)
(** Model of [erts/emulator/beam/pon_ets.c] and [erts/include/internal/pon_ets.h]:
    the hash registry of the processes that watch keys of ETS tables, with its
    buckets as linked lists in an explicit heap. *)

From S2P Require Import Prelude ErtsAlloc PonStats.
From stdpp Require Import base numbers list gmap sets.
From Stdlib Require Import ZArith.

(** ** Data *)

Record PonEtsWatcher : Type := mkPonEtsWatcher {
  table_id : Z;                (* uint64_t *)
  key_hash : Z;                (* uint64_t *)
  process_id : Z;              (* uint64_t *)
  next : option positive;
  active : Z                   (* int *)
}.

#[global] Instance PonEtsWatcher_eta : Eta PonEtsWatcher := λ w,
  mkPonEtsWatcher (table_id w) (key_hash w) (process_id w) (next w) (active w).

Record PonEtsWatcherRegistry : Type := mkPonEtsWatcherRegistry {
  buckets : list (option positive);
  count : Z                    (* int *)
}.

#[global] Instance PonEtsWatcherRegistry_eta : Eta PonEtsWatcherRegistry := λ r,
  mkPonEtsWatcherRegistry (buckets r) (count r).

(** The registry behind the pointer argument [reg] ([None] when it is null),
    the allocated watchers, and the counters. *)
Record ets : Type := mkEts {
  reg : option PonEtsWatcherRegistry;
  watchers : gmap positive PonEtsWatcher;
  ets_stats : PonStats
}.

#[global] Instance ets_eta : Eta ets := λ σ, mkEts (reg σ) (watchers σ) (ets_stats σ).

Abbreviation EtsM A := (M ets A).

Definition PON_ETS_WATCHER_BUCKETS : Z := 1024.

(** [pon_ets_watcher_bucket]: the arithmetic is on [uint64_t]. *)
Definition pon_ets_watcher_bucket (table_id key_hash : Z) : Z :=
  let h := Z.lxor table_id key_hash in
  let h := Z.lxor h (Z.shiftr h 32) in
  let h := Z.lxor h (Z.shiftr h 16) in
  let h := Z.lxor h (Z.shiftr h 8) in
  (h `mod` PON_ETS_WATCHER_BUCKETS)%Z.

(** ** Memory accesses *)

Definition get_reg : EtsM PonEtsWatcherRegistry := σ ← get; deref (reg σ).

Definition upd_reg (f : PonEtsWatcherRegistry → PonEtsWatcherRegistry) : EtsM unit :=
  _ ← get_reg; modify (λ σ, σ <| reg ::= fmap f |>).

Definition load_w (a : positive) : EtsM PonEtsWatcher := σ ← get; deref (watchers σ !! a).

Definition upd_w (a : positive) (f : PonEtsWatcher → PonEtsWatcher) : EtsM unit :=
  _ ← load_w a; modify (λ σ, σ <| watchers ::= alter f a |>).

Definition free_w (a : positive) : EtsM unit :=
  _ ← load_w a; modify (λ σ, σ <| watchers ::= delete a |>).

(** [reg->buckets[i]], which is undefined out of range. *)
Definition get_bucket (i : Z) : EtsM (option positive) :=
  r ← get_reg; deref (buckets r !! Z.to_nat i).

Definition set_bucket (i : Z) (p : option positive) : EtsM unit :=
  _ ← get_bucket i; upd_reg (λ r, r <| buckets ::= <[Z.to_nat i := p]> |>).

Definition unless_no_reg {A} (d : A) (m : EtsM A) : EtsM A :=
  σ ← get; match reg σ with None => mret d | Some _ => m end.

Definition inc_stat (f : PonStats → PonStats) : EtsM unit := modify (λ σ, σ <| ets_stats ::= f |>).

(** The test on all fields of an active watcher. *)
Definition w_matches (w : PonEtsWatcher) (t k p : Z) : bool :=
  bool_decide (table_id w = t) && bool_decide (key_hash w = k) &&
  bool_decide (process_id w = p) && negb (bool_decide (active w = 0%Z)).

Definition w_watches (w : PonEtsWatcher) (t k : Z) : bool :=
  negb (bool_decide (active w = 0%Z)) && bool_decide (table_id w = t) &&
  bool_decide (key_hash w = k).

Section pon_ets.
Context `{Alloc : Allocator}.

Definition SIZEOF_WATCHER : Z := 40.

(** [for (int i = 0; i < PON_ETS_WATCHER_BUCKETS; i++)] *)
Definition pon_ets_watcher_init : EtsM unit :=
  unless_no_reg tt (
    for_range (λ i, set_bucket (Z.of_nat i) NULL) 0 (Z.to_nat PON_ETS_WATCHER_BUCKETS);;
    upd_reg (λ r, r <| count := 0%Z |>)).

(** The duplicate search of [pon_ets_watcher_add]: [true] when it returns -1. *)
Fixpoint add_scan (fuel : nat) (w : option positive) (t k p : Z) : EtsM bool :=
  match w, fuel with
  | None, _ => mret false
  | Some _, O => ub
  | Some a, S f =>
      n ← load_w a;
      if w_matches n t k p then mret true else add_scan f (next n) t k p
  end.

Definition pon_ets_watcher_add (t k p : Z) : EtsM Z :=
  unless_no_reg (-1)%Z (
    let bucket := pon_ets_watcher_bucket t k in
    w ← get_bucket bucket;
    σ ← get;
    dup ← add_scan (size (watchers σ)) w t k p;
    if dup : bool then mret (-1)%Z else
    match alloc (dom (watchers σ)) SIZEOF_WATCHER with
    | None => mret (-1)%Z
    | Some a =>
        h ← get_bucket bucket;
        modify (λ σ, σ <| watchers ::= <[a := mkPonEtsWatcher t k p h 1]> |>);;
        set_bucket bucket (Some a);;
        upd_reg (λ r, r <| count ::= λ c, s32 (c + 1) |>);;
        inc_stat (λ s, s <| ets_watchers_registered ::= PON_STATS_INC |>);;
        mret 0%Z
    end).

Fixpoint remove_scan (fuel : nat) (bucket : Z) (prev w : option positive) (t k p : Z) : EtsM Z :=
  match w, fuel with
  | None, _ => mret (-1)%Z
  | Some _, O => ub
  | Some a, S f =>
      n ← load_w a;
      if w_matches n t k p then
        upd_w a (λ w, w <| active := 0%Z |>);;
        upd_reg (λ r, r <| count ::= λ c, s32 (c - 1) |>);;
        match prev with
        | Some b => upd_w b (λ w, w <| next := next n |>)
        | None => set_bucket bucket (next n)
        end;;
        free_w a;;
        mret 0%Z
      else remove_scan f bucket (Some a) (next n) t k p
  end.

Definition pon_ets_watcher_remove (t k p : Z) : EtsM Z :=
  unless_no_reg (-1)%Z (
    let bucket := pon_ets_watcher_bucket t k in
    w ← get_bucket bucket;
    σ ← get;
    remove_scan (size (watchers σ)) bucket NULL w t k p).

Fixpoint notify_scan (fuel : nat) (w : option positive) (t k notified : Z) : EtsM Z :=
  match w, fuel with
  | None, _ => mret notified
  | Some _, O => ub
  | Some a, S f =>
      n ← load_w a;
      notified' ← (if w_watches n t k
                   then inc_stat (λ s, s <| ets_watcher_hits ::= PON_STATS_INC |>);;
                        mret (s32 (notified + 1))
                   else mret notified);
      notify_scan f (next n) t k notified'
  end.

Definition pon_ets_watcher_notify (t k : Z) : EtsM Z :=
  unless_no_reg 0%Z (
    w ← get_bucket (pon_ets_watcher_bucket t k);
    σ ← get;
    notify_scan (size (watchers σ)) w t k 0).

(** One bucket of [pon_ets_watcher_remove_process]. *)
Fixpoint purge_bucket (fuel : nat) (i : Z) (prev w : option positive) (p removed : Z) : EtsM Z :=
  match w, fuel with
  | None, _ => mret removed
  | Some _, O => ub
  | Some a, S f =>
      n ← load_w a;
      if decide (process_id n = p) then
        match prev with
        | Some b => upd_w b (λ w, w <| next := next n |>)
        | None => set_bucket i (next n)
        end;;
        free_w a;;
        purge_bucket f i prev (next n) p (s32 (removed + 1))
      else purge_bucket f i (Some a) (next n) p removed
  end.

(** [for (int i = i0; i < i0 + k; i++)] *)
Fixpoint purge_buckets (i k : nat) (p removed : Z) : EtsM Z :=
  match k with
  | O => mret removed
  | S k' =>
      w ← get_bucket (Z.of_nat i);
      σ ← get;
      removed' ← purge_bucket (size (watchers σ)) (Z.of_nat i) NULL w p removed;
      purge_buckets (S i) k' p removed'
  end.

Definition pon_ets_watcher_remove_process (p : Z) : EtsM Z :=
  unless_no_reg (-1)%Z (
    removed ← purge_buckets 0 (Z.to_nat PON_ETS_WATCHER_BUCKETS) p 0;
    upd_reg (λ r, r <| count ::= λ c, s32 (c - removed) |>);;
    mret removed).

End pon_ets.
