(* ===== verification/PonEtsThms.v ===== *)
(** Correctness of the watcher registry: the heap of linked buckets implements
    the set of the (table, key, process) triples that are watched. *)

From S2P Require Import Prelude ErtsAlloc PonStats PonEts.
From stdpp Require Import base tactics numbers list gmap sets fin_maps.
From Stdlib Require Import ZArith Lia.

(** ** The abstract registry *)

Abbreviation triple := (Z * Z * Z)%type (only parsing).

Definition w_key (w : PonEtsWatcher) : Z * Z * Z := (table_id w, key_hash w, process_id w).

Definition w_bucket (w : PonEtsWatcher) : Z := pon_ets_watcher_bucket (table_id w) (key_hash w).

(** The set of watched triples that a heap of watchers stands for. *)
Definition watched (σ : ets) : gset (Z * Z * Z) := map_img (w_key <$> watchers σ).

Definition nx_w (H : gmap positive PonEtsWatcher) (a : positive) : option (option positive) :=
  next <$> H !! a.

(** ** The representation invariant: [L i] lists the watchers of bucket [i]. *)
Record buckets_ok (r : PonEtsWatcherRegistry) (H : gmap positive PonEtsWatcher)
    (L : Z → list positive) : Prop := {
  bo_len : Z.of_nat (length (buckets r)) = PON_ETS_WATCHER_BUCKETS;
  bo_seg i : (0 ≤ i < PON_ETS_WATCHER_BUCKETS)%Z →
    ∃ h, buckets r !! Z.to_nat i = Some h ∧ lseg (nx_w H) h (L i) None;
  bo_nodup i : (0 ≤ i < PON_ETS_WATCHER_BUCKETS)%Z → NoDup (L i);
  bo_mem i a : (0 ≤ i < PON_ETS_WATCHER_BUCKETS)%Z →
    a ∈ L i ↔ ∃ w, H !! a = Some w ∧ w_bucket w = i
}.

Record registry_ok (σ : ets) : Prop := {
  ro_reg : ∃ r L, reg σ = Some r ∧ buckets_ok r (watchers σ) L ∧
    count r = s32 (Z.of_nat (size (watchers σ)));
  ro_active a w : watchers σ !! a = Some w → active w = 1%Z;
  ro_inj a b w w' : watchers σ !! a = Some w → watchers σ !! b = Some w' → w_key w = w_key w' → a = b
}.

(** Whether the watcher at [a] watches the key, or belongs to the process. *)
Definition on_key (H : gmap positive PonEtsWatcher) (t k : Z) (a : positive) : bool :=
  match H !! a with Some w => bool_decide (table_id w = t ∧ key_hash w = k) | None => false end.

(** The triple watched at [a], and whether it belongs to the process [p]. *)
Definition key_at (H : gmap positive PonEtsWatcher) (a : positive) : option (Z * Z * Z) :=
  w_key <$> H !! a.

Definition of_process (H : gmap positive PonEtsWatcher) (p : Z) (a : positive) : bool :=
  match key_at H a with Some x => bool_decide (x.2 = p) | None => false end.

Definition count_hits (n : nat) (s : PonStats) : PonStats :=
  Nat.iter n (λ s, s <| ets_watcher_hits ::= PON_STATS_INC |>) s.

Section access.

Lemma bucket_range t k : (0 ≤ pon_ets_watcher_bucket t k < PON_ETS_WATCHER_BUCKETS)%Z.
Proof. apply Z.mod_pos_bound. done. Qed.

Lemma wp_get_reg r H s (Q : PonEtsWatcherRegistry → ets → Prop) :
  Q r (mkEts (Some r) H s) → wp get_reg Q (mkEts (Some r) H s).
Proof. done. Qed.

Lemma wp_upd_reg r H s f (Q : unit → ets → Prop) :
  Q tt (mkEts (Some (f r)) H s) → wp (upd_reg f) Q (mkEts (Some r) H s).
Proof. done. Qed.

Lemma wp_load_w o H s a w (Q : PonEtsWatcher → ets → Prop) :
  H !! a = Some w → Q w (mkEts o H s) → wp (load_w a) Q (mkEts o H s).
Proof. intros Hw HQ. unfold load_w. wp_step. wp_step. by eapply wp_deref. Qed.

Lemma wp_upd_w o H s a w f (Q : unit → ets → Prop) :
  H !! a = Some w → Q tt (mkEts o (alter f a H) s) → wp (upd_w a f) Q (mkEts o H s).
Proof. intros Hw HQ. unfold upd_w. wp_step. eapply wp_load_w; [done|]. by wp_step. Qed.

Lemma wp_free_w o H s a w (Q : unit → ets → Prop) :
  H !! a = Some w → Q tt (mkEts o (delete a H) s) → wp (free_w a) Q (mkEts o H s).
Proof. intros Hw HQ. unfold free_w. wp_step. eapply wp_load_w; [done|]. by wp_step. Qed.

Lemma wp_get_bucket r H s i h (Q : option positive → ets → Prop) :
  buckets r !! Z.to_nat i = Some h → Q h (mkEts (Some r) H s) →
  wp (get_bucket i) Q (mkEts (Some r) H s).
Proof. intros Hh HQ. unfold get_bucket. wp_step. apply wp_get_reg. by eapply wp_deref. Qed.

Lemma wp_set_bucket r H s i h p (Q : unit → ets → Prop) :
  buckets r !! Z.to_nat i = Some h →
  Q tt (mkEts (Some (r <| buckets ::= <[Z.to_nat i := p]> |>)) H s) →
  wp (set_bucket i p) Q (mkEts (Some r) H s).
Proof. intros Hh HQ. unfold set_bucket. wp_step. eapply wp_get_bucket; [done|]. by apply wp_upd_reg. Qed.

Lemma wp_unless_no_reg {A} r H s (d : A) m (Q : A → ets → Prop) :
  wp m Q (mkEts (Some r) H s) → wp (unless_no_reg d m) Q (mkEts (Some r) H s).
Proof. done. Qed.

End access.

(** Executes one access of [*reg], of a bucket or of a watcher. *)
Ltac ets_step :=
  first
    [ wp_step
    | lazymatch goal with
      | |- wp get_reg _ _ => apply wp_get_reg
      | |- wp (upd_reg _) _ _ => apply wp_upd_reg
      | |- wp (load_w _) _ _ => eapply wp_load_w; [eassumption|]
      | |- wp (unless_no_reg _ _) _ _ => apply wp_unless_no_reg
      | |- wp (inc_stat _) _ _ => apply wp_modify
      end ]; cbv beta iota.

Ltac ets_steps := repeat ets_step.

Section lists.
Implicit Types (H : gmap positive PonEtsWatcher) (l : list positive).

Lemma w_matches_true w t k p : active w = 1%Z → w_matches w t k p = true ↔ w_key w = (t, k, p).
Proof.
  intros Ha. unfold w_matches, w_key. rewrite Ha, !andb_true_iff, !bool_decide_eq_true. simpl.
  split; [intros [[[-> ->] ->] _]; done|by intros [= -> -> ->]].
Qed.

Lemma w_watches_true w t k : active w = 1%Z → w_watches w t k = true ↔ table_id w = t ∧ key_hash w = k.
Proof.
  intros Ha. unfold w_watches. rewrite Ha, !andb_true_iff, !bool_decide_eq_true. simpl. naive_solver.
Qed.

(** Unlinking [a] from a list: the link of its predecessor skips it. *)
Lemma lseg_unlink nx nx' p l1 a l2 x :
  lseg nx p (l1 ++ a :: l2) None → NoDup (l1 ++ a :: l2) → nx a = Some x →
  (∀ c, c ∈ l1 ++ l2 → nx' c = if decide (last l1 = Some c) then Some x else nx c) →
  lseg nx' (match l1 with [] => x | _ => p end) (l1 ++ l2) None.
Proof.
  revert p. induction l1 as [|b l1 IH]; intros p; simpl.
  - intros (-> & p' & Hn & Hl) [Ha Hnd]%NoDup_cons Hx Hf. simplify_eq.
    eapply lseg_frame; [|exact Hl]. intros c Hc. by rewrite Hf.
  - intros (-> & p' & Hn & Hl) [Hb Hnd]%NoDup_cons Hx Hf.
    assert (b ∉ l1) as Hb1 by set_solver.
    assert (∀ c, c ∈ l1 ++ l2 → nx' c = if decide (last l1 = Some c) then Some x else nx c) as Hf'.
    { intros c Hc. rewrite Hf by set_solver. destruct l1 as [|y l1]; [|by rewrite last_cons_cons].
      simpl in *. rewrite (decide_False (P := Some b = Some c)) by (intros [= ->]; set_solver).
      try rewrite decide_False by done. done. }
    split; [done|]. specialize (IH p' Hl Hnd Hx Hf').
    rewrite Hf by set_solver. destruct l1 as [|y l1].
    + simpl. rewrite decide_True by done. eauto.
    + rewrite last_cons_cons, decide_False.
      * eexists. split; [exact Hn|]. exact IH.
      * intros E. apply last_Some_elem_of in E. done.
Qed.

End lists.

Section registry.
Context `{Laws : AllocatorLaws}.
Implicit Types (σ : ets) (r : PonEtsWatcherRegistry) (H : gmap positive PonEtsWatcher).

Lemma elem_of_watched σ x : x ∈ watched σ ↔ ∃ a w, watchers σ !! a = Some w ∧ w_key w = x.
Proof.
  unfold watched. rewrite elem_of_map_img. setoid_rewrite lookup_fmap_Some.
  split; [intros (a & w & ? & ?); eauto|intros (a & w & ? & ?); eauto].
Qed.

(** The size of an image: a list without repetitions that enumerates it. *)
Lemma size_enum {T} `{Countable T} (X : gset T) (l : list T) :
  NoDup l → (∀ x, x ∈ X ↔ x ∈ l) → size X = length l.
Proof.
  intros Hnd He. rewrite <- (size_list_to_set (C := gset T)) by done. f_equal.
  apply set_eq. intros x. by rewrite He, elem_of_list_to_set.
Qed.

(** ** Scans of one bucket *)

Lemma add_scan_run fuel r H s h l t k p :
  lseg (nx_w H) h l None → length l ≤ fuel → (∀ a w, H !! a = Some w → active w = 1%Z) →
  wp (add_scan fuel h t k p) (λ b σ', σ' = mkEts (Some r) H s ∧
    (b = true ↔ ∃ a w, a ∈ l ∧ H !! a = Some w ∧ w_key w = (t, k, p))) (mkEts (Some r) H s).
Proof.
  intros Hl Hf Hact. revert fuel h Hl Hf. induction l as [|a l IH]; intros fuel h Hl Hf.
  - simpl in Hl. subst. assert (wp (mret false) (λ b σ', σ' = mkEts (Some r) H s ∧
      (b = true ↔ ∃ a w, a ∈ [] ∧ H !! a = Some w ∧ w_key w = (t, k, p))) (mkEts (Some r) H s)) as Hd.
    { wp_step. split; [done|]. split; [done|]. by intros (a & w & ?%elem_of_nil & _). }
    by destruct fuel.
  - destruct Hl as (-> & p' & Hn & Hl). unfold nx_w in Hn. destruct (H !! a) as [w|] eqn:Hw; [|done].
    injection Hn as <-. destruct fuel as [|fuel]; simpl in Hf; [lia|]. cbn [add_scan]. ets_steps.
    pose proof (w_matches_true w t k p (Hact _ _ Hw)) as Hm. destruct (w_matches w t k p).
    + wp_step. split; [done|]. split; [|done]. intros _. exists a, w. split_and!; [left|done|by apply Hm].
    + eapply wp_mono; [apply IH; [done|lia]|]. intros b σ' [-> Hb]. split; [done|]. rewrite Hb. split.
      * intros (c & w' & ? & ?). exists c, w'. split; [by right|done].
      * intros (c & w' & [->|Hc]%elem_of_cons & Hw' & Hk); [|by eauto].
        rewrite Hw in Hw'. injection Hw' as <-. by apply Hm in Hk.
Qed.

Lemma notify_scan_run fuel r H s h l t k notified :
  lseg (nx_w H) h l None → length l ≤ fuel → (∀ a w, H !! a = Some w → active w = 1%Z) →
  wp (notify_scan fuel h t k (s32 notified)) (λ n σ', ∃ c, c = length (filter (on_key H t k) l) ∧
    n = s32 (notified + Z.of_nat c) ∧ σ' = mkEts (Some r) H (count_hits c s)) (mkEts (Some r) H s).
Proof.
  intros Hl Hf Hact. revert fuel h s notified Hl Hf. induction l as [|a l IH]; intros fuel h s notified Hl Hf.
  - simpl in Hl. subst. assert (wp (mret (s32 notified)) (λ n σ', ∃ c, c = length (filter (on_key H t k) []) ∧
      n = s32 (notified + Z.of_nat c) ∧ σ' = mkEts (Some r) H (count_hits c s)) (mkEts (Some r) H s)) as Hd.
    { wp_step. exists 0. by rewrite Z.add_0_r. }
    by destruct fuel.
  - destruct Hl as (-> & p' & Hn & Hl). unfold nx_w in Hn. destruct (H !! a) as [w|] eqn:Hw; [|done].
    injection Hn as <-. destruct fuel as [|fuel]; simpl in Hf; [lia|]. cbn [notify_scan]. ets_steps.
    pose proof (w_watches_true w t k (Hact _ _ Hw)) as Hm. rewrite filter_cons.
    assert (on_key H t k a = w_watches w t k) as Hon.
    { unfold on_key. rewrite Hw. apply eq_true_iff_eq. by rewrite Hm, bool_decide_eq_true. }
    rewrite Hon. destruct (w_watches w t k).
    + ets_steps. rewrite wraps_add. eapply wp_mono; [apply IH; [done|lia]|].
      intros n σ' (c & -> & -> & ->). eexists. split; [done|]. rewrite decide_True by done. cbn [length].
      split; [f_equal; lia|]. unfold count_hits. by rewrite Nat.iter_succ_r.
    + ets_steps. eapply wp_mono; [apply IH; [done|lia]|].
      intros n σ' (c & -> & -> & ->). rewrite decide_False by auto. eauto.
Qed.

(** The heap after unlinking and freeing the watcher [a] with predecessor [prev]. *)
Definition unlinked_w (H : gmap positive PonEtsWatcher) (prev : option positive) (a : positive)
    (x : option positive) : gmap positive PonEtsWatcher :=
  delete a (match prev with Some b => alter (λ w, w <| next := x |>) b H | None => H end).

Definition unlinked_reg (r : PonEtsWatcherRegistry) (i : Z) (prev x : option positive) :
    PonEtsWatcherRegistry :=
  match prev with Some _ => r | None => r <| buckets ::= <[Z.to_nat i := x]> |> end.

(** The body of the unlink shared by the two removal loops. *)
Lemma unlink_w_run {T} (k : unit → EtsM T) r H s i prev a w x h (Q : T → ets → Prop) :
  H !! a = Some w → (∀ b, prev = Some b → b ≠ a ∧ is_Some (H !! b)) →
  buckets r !! Z.to_nat i = Some h →
  wp (k tt) Q (mkEts (Some (unlinked_reg r i prev x)) (unlinked_w H prev a x) s) →
  wp (match prev with
      | Some b => upd_w b (λ m, m <| next := x |>)
      | None => set_bucket i x
      end ≫= λ _, free_w a ≫= k) Q (mkEts (Some r) H s).
Proof.
  intros Ha Hp Hh HQ. wp_step. unfold unlinked_reg, unlinked_w in HQ. destruct prev as [b|].
  - destruct (Hp b eq_refl) as [Hba [wb Hb]]. eapply wp_upd_w; [done|]. wp_step.
    eapply wp_free_w; [|exact HQ]. by rewrite lookup_alter_ne.
  - eapply wp_set_bucket; [done|]. wp_step. by eapply wp_free_w.
Qed.

Lemma unlinked_w_alter H prev a x f : unlinked_w (alter f a H) prev a x = unlinked_w H prev a x.
Proof.
  apply map_eq. intros c. unfold unlinked_w. destruct prev as [b|];
    rewrite ?lookup_delete; case_decide as Hc; [done| |done|by rewrite lookup_alter_ne].
  destruct (decide (b = c)) as [->|Hb].
  - rewrite !lookup_alter_eq. by rewrite lookup_alter_ne.
  - rewrite !lookup_alter_ne by done. done.
Qed.

Lemma unlinked_w_lookup H prev a x c :
  unlinked_w H prev a x !! c =
  if decide (c = a) then None
  else (λ w, if decide (prev = Some c) then w <| next := x |> else w) <$> H !! c.
Proof.
  unfold unlinked_w. case_decide as Hc; subst; [apply lookup_delete_eq|].
  rewrite lookup_delete_ne by done. destruct prev as [b|]; rewrite ?lookup_alter; repeat case_decide;
    simplify_eq; try done; by destruct (H !! _).
Qed.

Lemma w_key_bucket w w' : w_key w = w_key w' → w_bucket w = w_bucket w'.
Proof. by intros [= E1 E2 _]; unfold w_bucket; rewrite E1, E2. Qed.

(** Every bucket but [i] is untouched by an unlink in bucket [i]. *)
Lemma buckets_ok_unlink r H L i l1 a l2 w :
  buckets_ok r H L → (0 ≤ i < PON_ETS_WATCHER_BUCKETS)%Z → L i = l1 ++ a :: l2 → H !! a = Some w →
  buckets_ok (unlinked_reg r i (last l1) (next w)) (unlinked_w H (last l1) a (next w))
    (λ j, if decide (j = i) then l1 ++ l2 else L j).
Proof.
  intros [Hlen Hseg Hnd Hmem] Hi HL Ha.
  pose proof (unlinked_w_lookup H (last l1) a (next w)) as Hlk.
  pose proof (Hnd i Hi) as Hndi. rewrite HL in Hndi.
  assert (∀ c, c ∈ l1 ++ l2 → c ≠ a) as Hne.
  { intros c Hc ->. apply NoDup_app in Hndi as (_ & H1 & H2). apply NoDup_cons in H2 as [H2 _].
    apply elem_of_app in Hc as [Hc|Hc]; [|done]. by eapply H1; [|left]. }
  assert (∀ b, last l1 = Some b → b ∈ L i) as Hlast.
  { intros b Hb%last_Some_elem_of. rewrite HL. set_solver. }
  assert (∀ j, (0 ≤ j < PON_ETS_WATCHER_BUCKETS)%Z → j ≠ i → ∀ c, c ∈ L j → c ∉ L i) as Hdisj.
  { intros j Hj Hji c Hc Hci. apply Hmem in Hc as (w1 & Hw1 & E1); [|done].
    apply Hmem in Hci as (w2 & Hw2 & E2); [|done]. congruence. }
  split.
  - unfold unlinked_reg. destruct (last l1); [done|]. cbn. by rewrite length_insert.
  - intros j Hj. destruct (Hseg j Hj) as (h & Hh & Hl). case_decide as Hji; [subst j|].
    + rewrite HL in Hl. eexists. split; [|eapply (lseg_unlink _ _ h l1 a l2 (next w)); [exact Hl|done| |]].
      * unfold unlinked_reg. destruct l1 as [|b l1]; cbn [last].
        -- cbn. apply list_lookup_insert_eq. apply lookup_lt_Some in Hh. done.
        -- destruct (last (b :: l1)) eqn:Hlst; [done|]. by apply last_None in Hlst.
      * unfold nx_w. by rewrite Ha.
      * intros c Hc. unfold nx_w. rewrite Hlk, decide_False by by apply Hne.
        assert (is_Some (H !! c)) as [wc Hwc].
        { destruct (proj1 (Hmem i c Hi)) as (wc & ? & _); [rewrite HL; set_solver|]. eauto. }
        rewrite Hwc. simpl. by case_decide.
    + exists h. split.
      * unfold unlinked_reg. destruct (last l1); [done|]. cbn. rewrite list_lookup_insert_ne; [done|lia].
      * eapply lseg_frame; [|exact Hl]. intros c Hc. unfold nx_w. rewrite Hlk.
        pose proof (Hdisj j Hj Hji c Hc) as Hci.
        rewrite decide_False by (intros ->; rewrite HL in Hci; set_solver).
        destruct (H !! c); [|done]. simpl. rewrite decide_False; [done|]. by intros ?%Hlast.
  - intros j Hj. case_decide; [|by apply Hnd]. apply NoDup_app in Hndi as (? & ? & H3).
    apply NoDup_cons in H3 as [_ ?]. apply NoDup_app. set_solver.
  - intros j c Hj. rewrite Hlk. case_decide as Hji; [subst j|].
    + split.
      * intros Hc. rewrite decide_False by by apply Hne.
        destruct (proj1 (Hmem i c Hi)) as (wc & Hwc & Hb); [rewrite HL; set_solver|].
        rewrite Hwc. eexists. split; [done|]. by case_decide.
      * case_decide as Hca; [by intros (? & ? & _)|]. intros (w' & (wc & Hwc & ->)%fmap_Some & Hb).
        assert (c ∈ L i) as Hci by (apply Hmem; [done|]; exists wc; split; [done|]; by case_decide).
        rewrite HL in Hci. set_solver.
    + rewrite Hmem by done. case_decide as Hca.
      * subst c. split; [|by intros (? & ? & _)]. intros (w' & Hw' & Hb). exfalso. apply Hji.
        assert (a ∈ L i) as Hai by (rewrite HL; set_solver).
        apply Hmem in Hai as (w'' & Hw'' & <-); [|done]. congruence.
      * split; [intros (w' & Hw' & Hb); exists (if decide (last l1 = Some c) then w' <| next := next w |> else w');
          rewrite Hw'; split; [done|by case_decide]|].
        intros (w' & (wc & Hwc & ->)%fmap_Some & Hb). exists wc. split; [done|]. by case_decide.
Qed.

(** The triples that are watched after an unlink. *)
Lemma unlinked_keys H (o o' : option PonEtsWatcherRegistry) s s' prev a x w :
  H !! a = Some w →
  (∀ b w', H !! b = Some w' → w_key w' = w_key w → b = a) →
  watched (mkEts o (unlinked_w H prev a x) s) = watched (mkEts o' H s') ∖ {[w_key w]}.
Proof.
  intros Ha Hinj. pose proof (unlinked_w_lookup H prev a x) as Hlk. apply set_eq. intros y.
  rewrite elem_of_difference, elem_of_singleton, !elem_of_watched. cbn [watchers]. split.
  - intros (c & w' & Hw' & <-). rewrite Hlk in Hw'. case_decide as Hc; [done|].
    apply fmap_Some in Hw' as (wc & Hwc & ->).
    assert (w_key (if decide (prev = Some c) then wc <| next := x |> else wc) = w_key wc) as Hk
      by by case_decide.
    rewrite Hk. split; [by eauto|]. intros E. by apply Hc, (Hinj _ wc).
  - intros [(c & wc & Hwc & <-) Hne]. exists c. rewrite Hlk, decide_False by congruence. rewrite Hwc.
    eexists. split; [done|]. by case_decide.
Qed.

Lemma unlinked_size H prev a x w : H !! a = Some w → prev ≠ Some a →
  size (unlinked_w H prev a x) = size H - 1.
Proof.
  intros Ha Hp. unfold unlinked_w. rewrite map_size_delete.
  assert (size (match prev with Some b => alter (λ w, w <| next := x |>) b H | None => H end) = size H) as Hs.
  { destruct prev; [|done]. by rewrite <- !size_dom, dom_alter_L. }
  destruct prev as [b|].
  - rewrite lookup_alter_ne by congruence. rewrite Ha, Hs. simpl. lia.
  - rewrite Ha. simpl. lia.
Qed.

Lemma unlinked_back H prev a x c w' :
  unlinked_w H prev a x !! c = Some w' →
  c ≠ a ∧ ∃ wc, H !! c = Some wc ∧ w_key w' = w_key wc ∧ active w' = active wc.
Proof.
  rewrite unlinked_w_lookup. case_decide as Hc; [done|]. intros (wc & Hwc & ->)%fmap_Some.
  split; [done|]. exists wc. split; [done|]. by case_decide.
Qed.

(** ** Operations *)

(** The list of the bucket of a key, as [reg] leads to it. *)
Lemma bucket_list r H L t k :
  buckets_ok r H L → let i := pon_ets_watcher_bucket t k in
  ∃ h, buckets r !! Z.to_nat i = Some h ∧ lseg (nx_w H) h (L i) None ∧ NoDup (L i) ∧
    length (L i) ≤ size H ∧
    ∀ a p, a ∈ L i ∧ (∃ w, H !! a = Some w ∧ w_key w = (t, k, p)) ↔ ∃ w, H !! a = Some w ∧ w_key w = (t, k, p).
Proof.
  intros [_ Hseg Hnd Hmem] i. pose proof (bucket_range t k) as Hi. fold i in Hi.
  destruct (Hseg i Hi) as (h & Hh & Hl). exists h. split_and!; [done|done|by apply Hnd| |].
  - rewrite <- size_dom, <- (size_list_to_set (C := gset positive)) by by apply Hnd.
    apply subseteq_size. intros c. rewrite elem_of_list_to_set, elem_of_dom.
    intros (w & Hw & _)%Hmem; [by eauto|done].
  - intros a p. split; [by intros []|]. intros (w & Hw & Hk). split; [|by eauto].
    apply Hmem; [done|]. exists w. split; [done|]. by injection Hk as <- <- _.
Qed.

Lemma watched_mem σ t k p :
  (t, k, p) ∈ watched σ ↔ ∃ a w, watchers σ !! a = Some w ∧ w_key w = (t, k, p).
Proof. apply elem_of_watched. Qed.

(** The registry with one more watcher at the head of its bucket. *)
Lemma buckets_ok_push r H L a w h :
  buckets_ok r H L → H !! a = None → buckets r !! Z.to_nat (w_bucket w) = Some h → next w = h →
  buckets_ok (r <| buckets ::= <[Z.to_nat (w_bucket w) := Some a]> |>) (<[a := w]> H)
    (λ j, if decide (j = w_bucket w) then a :: L j else L j).
Proof.
  intros [Hlen Hseg Hnd Hmem] Ha Hh Hn. pose proof (bucket_range (table_id w) (key_hash w)) as Hi.
  fold (w_bucket w) in Hi. set (i := w_bucket w) in *.
  assert (∀ j, (0 ≤ j < PON_ETS_WATCHER_BUCKETS)%Z → a ∉ L j) as HaL
    by (intros j Hj (w' & ? & _)%Hmem; [congruence|done]).
  assert (∀ j h', (0 ≤ j < PON_ETS_WATCHER_BUCKETS)%Z → lseg (nx_w H) h' (L j) None →
    lseg (nx_w (<[a := w]> H)) h' (L j) None) as Hfr.
  { intros j h' Hj. apply lseg_frame. intros c Hc. unfold nx_w. rewrite lookup_insert_ne; [done|].
    intros ->. by eapply HaL. }
  split.
  - cbn. by rewrite length_insert.
  - intros j Hj. destruct (Hseg j Hj) as (h' & Hh' & Hl). case_decide as Hji; [subst j|]; cbn.
    + eexists. split; [apply list_lookup_insert_eq; by apply lookup_lt_Some in Hh|].
      split; [done|]. exists h'. split; [|by apply Hfr]. unfold nx_w. rewrite lookup_insert_eq. simpl. congruence.
    + exists h'. split; [rewrite list_lookup_insert_ne; [done|lia]|by apply Hfr].
  - intros j Hj. case_decide; [|by apply Hnd]. apply NoDup_cons. split; [by apply HaL|by apply Hnd].
  - intros j c Hj. rewrite lookup_insert. case_decide as Hji; [subst j; rewrite elem_of_cons|]; rewrite (Hmem _ _ Hj).
    + case_decide as Hca; [subst c|]; [|naive_solver]. split; [by eauto|by auto].
    + case_decide as Hca; [subst c|done]. split; [intros (w' & ? & _); congruence|].
      intros (w' & [= <-] & Hb). by destruct Hji.
Qed.

Lemma buckets_ok_ext r r' H L : buckets r' = buckets r → buckets_ok r H L → buckets_ok r' H L.
Proof. intros E [B1 B2 B3 B4]. split; rewrite ?E; done. Qed.

Lemma add_spec σ t k p :
  registry_ok σ → is_Some (alloc (dom (watchers σ)) SIZEOF_WATCHER) →
  wp (pon_ets_watcher_add t k p) (λ n σ', registry_ok σ' ∧ watched σ' = {[(t, k, p)]} ∪ watched σ ∧
    n = (if decide ((t, k, p) ∈ watched σ) then -1 else 0)%Z ∧
    ((t, k, p) ∈ watched σ → σ' = σ)) σ.
Proof.
  intros Hok [a Ha]. pose proof Hok as [(r & L & Hr & HB & Hct) Hact Hinj].
  destruct (bucket_list r _ L t k HB) as (h & Hh & Hl & Hnd & Hlen & Hkey).
  destruct σ as [o H s]; cbn in *; subst o. unfold pon_ets_watcher_add. ets_steps.
  eapply wp_get_bucket; [done|]. ets_steps. cbn [watchers].
  eapply wp_mono; [exact (add_scan_run _ r H s h _ t k p Hl Hlen Hact)|]. intros b σ' [-> Hb]. cbv beta.
  assert (b = true ↔ (t, k, p) ∈ watched (mkEts (Some r) H s)) as Hb'.
  { rewrite Hb, watched_mem. cbn [watchers]. setoid_rewrite <- Hkey. naive_solver. }
  destruct b.
  { wp_step. rewrite decide_True by by apply Hb'. split_and!; [done| |done|done].
    symmetry. apply subseteq_union_L. by apply singleton_subseteq_l, Hb'. }
  assert ((t, k, p) ∉ watched (mkEts (Some r) H s)) as Hnw by (intros ?%Hb'; done).
  rewrite (decide_False (P := _ ∈ _)) by done. cbn [watchers]. rewrite Ha.
  pose proof (alloc_fresh _ _ _ Ha) as Hfr%not_elem_of_dom.
  wp_step. eapply wp_get_bucket; [done|]. ets_steps. eapply wp_set_bucket; [exact Hh|]. ets_steps.
  set (w := mkPonEtsWatcher t k p h 1). cbn [watchers reg ets_stats update count].
  split_and!; [|..].
  - split; cbn [watchers reg].
    + do 2 eexists. split; [done|]. split.
      * eapply buckets_ok_ext; [|exact (buckets_ok_push r H L a w h HB Hfr Hh eq_refl)]. done.
      * cbn. rewrite Hct, wraps_add, (map_size_insert_None _ _ _ Hfr). f_equal. lia.
    + intros c w'. rewrite lookup_insert. case_decide; [by intros [= <-]|apply Hact].
    + intros c c' w1 w2. rewrite !lookup_insert. repeat case_decide; subst; [done|..].
      * intros [= <-] Hw2 Hk. destruct Hnw. apply watched_mem. exists c', w2. by rewrite <- Hk.
      * intros Hw1 [= <-] Hk. destruct Hnw. apply watched_mem. exists c, w1. by rewrite Hk.
      * apply Hinj.
  - unfold watched. cbn [watchers]. rewrite fmap_insert, map_img_insert_notin_L; [done|].
    by rewrite lookup_fmap, Hfr.
  - done.
  - done.
Qed.

(** Freshness facts that the removal of a watcher keeps. *)
Definition heap_ok (H : gmap positive PonEtsWatcher) : Prop :=
  (∀ a w, H !! a = Some w → active w = 1%Z) ∧
  (∀ a b w w', H !! a = Some w → H !! b = Some w' → w_key w = w_key w' → a = b).

Lemma heap_ok_unlink H prev a x : heap_ok H → heap_ok (unlinked_w H prev a x).
Proof.
  intros [Hact Hinj]. split.
  - intros c w (_ & wc & Hwc & _ & ->)%unlinked_back. eauto.
  - intros c c' w1 w2 (_ & v1 & H1 & E1 & _)%unlinked_back (_ & v2 & H2 & E2 & _)%unlinked_back Hk.
    eapply Hinj; [done|done|congruence].
Qed.

(** Splits the list of a bucket around the watcher under consideration. *)
Lemma lseg_split nx h l1 a l2 :
  lseg nx h (l1 ++ a :: l2) None → NoDup (l1 ++ a :: l2) →
  nx a = Some (head l2) ∧ (∀ b, last l1 = Some b → b ≠ a) ∧ a ∉ l1 ++ l2.
Proof.
  intros (q & _ & -> & p' & Hn & Hl)%lseg_app (H1 & H2 & H3)%NoDup_app.
  apply NoDup_cons in H3 as [H3 H4]. split_and!.
  - rewrite Hn. by apply lseg_head_None in Hl as ->.
  - intros b Hb%last_Some_elem_of ->. by eapply H2; [|left].
  - intros [Ha|Ha]%elem_of_app; [by eapply H2; [|left]|done].
Qed.

Lemma remove_scan_run fuel r H L s i l1 l2 t k p :
  buckets_ok r H L → heap_ok H → (0 ≤ i < PON_ETS_WATCHER_BUCKETS)%Z → L i = l1 ++ l2 → length l2 ≤ fuel →
  wp (remove_scan fuel i (last l1) (head l2) t k p) (λ n σ',
    (n = (-1)%Z ∧ σ' = mkEts (Some r) H s ∧ ∀ a w, a ∈ l2 → H !! a = Some w → w_key w ≠ (t, k, p)) ∨
    ∃ m1 a m2 w, L i = m1 ++ a :: m2 ∧ H !! a = Some w ∧ w_key w = (t, k, p) ∧ n = 0%Z ∧
      σ' = mkEts (Some (unlinked_reg (r <| count ::= λ c, s32 (c - 1) |>) i (last m1) (next w)))
             (unlinked_w H (last m1) a (next w)) s) (mkEts (Some r) H s).
Proof.
  intros HB [Hact Hinj] Hi. revert fuel l1. induction l2 as [|a l2 IH]; intros fuel l1 HL Hf.
  - assert (wp (mret (-1)%Z) (λ n σ', n = (-1)%Z ∧ σ' = mkEts (Some r) H s ∧
      ∀ a w, a ∈ [] → H !! a = Some w → w_key w ≠ (t, k, p)) (mkEts (Some r) H s)) as Hd.
    { wp_step. split_and!; [done|done|]. by intros a w ?%elem_of_nil. }
    eapply wp_mono; [by destruct fuel|]. intros n σ' (? & ? & ?). by left.
  - destruct fuel as [|fuel]; simpl in Hf; [lia|].
    destruct (bo_seg _ _ _ HB i Hi) as (h & Hh & Hl). pose proof (bo_nodup _ _ _ HB i Hi) as Hnd.
    rewrite HL in Hl, Hnd. destruct (lseg_split _ _ _ _ _ Hl Hnd) as (Hn & Hlast & _).
    destruct (proj1 (bo_mem _ _ _ HB i a Hi)) as (w & Hw & _); [rewrite HL; set_solver|].
    unfold nx_w in Hn. rewrite Hw in Hn. injection Hn as Hn. cbn [head remove_scan]. ets_steps.
    pose proof (w_matches_true w t k p (Hact _ _ Hw)) as Hm. destruct (w_matches w t k p).
    + ets_step. eapply wp_upd_w; [done|]. wp_step. apply wp_upd_reg.
      eapply (unlink_w_run _ _ _ _ _ _ _ (w <| active := 0%Z |>) _ h).
      * by rewrite lookup_alter_eq, Hw.
      * intros b Hb. pose proof (Hlast b Hb) as Hne. split; [done|]. rewrite lookup_alter_ne by done.
        destruct (proj1 (bo_mem _ _ _ HB i b Hi)) as (wb & ? & _); [|by eauto].
        rewrite HL. apply last_Some_elem_of in Hb. set_solver.
      * done.
      * wp_step. right. exists l1, a, l2, w. rewrite unlinked_w_alter.
        split_and!; [done|done|by apply Hm|done|done].
    + rewrite Hn. pose proof (IH fuel (l1 ++ [a])) as IHa. rewrite last_snoc in IHa.
      eapply wp_mono; [apply IHa; [by rewrite <- app_assoc|lia]|].
      intros n σ' [(-> & -> & Hno)|Hyes]; [left|by right]. split_and!; [done|done|].
      intros c w' [->|Hc]%elem_of_cons Hw' Hk; [|by eapply Hno].
      rewrite Hw in Hw'. injection Hw' as <-. by apply Hm in Hk.
Qed.

Lemma remove_spec σ t k p :
  registry_ok σ →
  wp (pon_ets_watcher_remove t k p) (λ n σ', registry_ok σ' ∧ watched σ' = watched σ ∖ {[(t, k, p)]} ∧
    n = (if decide ((t, k, p) ∈ watched σ) then 0 else -1)%Z ∧
    ((t, k, p) ∉ watched σ → σ' = σ) ∧ ets_stats σ' = ets_stats σ) σ.
Proof.
  intros Hok. pose proof Hok as [(r & L & Hr & HB & Hct) Hact Hinj].
  destruct (bucket_list r _ L t k HB) as (h & Hh & Hl & Hnd & Hlen & Hkey).
  destruct σ as [o H s]; cbn in *; subst o. unfold pon_ets_watcher_remove. ets_steps.
  eapply wp_get_bucket; [done|]. ets_steps. cbn [watchers].
  pose proof (bucket_range t k) as Hi.
  apply lseg_head_None in Hl as ->.
  eapply wp_mono; [exact (remove_scan_run _ r H L s _ [] _ t k p HB (conj Hact Hinj) Hi eq_refl Hlen)|].
  intros n σ' [(-> & -> & Hno)|(m1 & a & m2 & w & HL & Hw & Hk & -> & ->)]; cbv beta.
  - assert ((t, k, p) ∉ watched (mkEts (Some r) H s)) as Hnw.
    { intros (a & w & Hw & Hk)%watched_mem. apply (Hno a w); [|done|done].
      by apply (Hkey a p); exists w. }
    rewrite decide_False by done. split_and!; [done| |done|done|done]. set_solver.
  - rewrite decide_True by (apply watched_mem; eauto).
    assert (∀ b w', H !! b = Some w' → w_key w' = w_key w → b = a) as Huniq by (intros; by eapply Hinj).
    destruct (heap_ok_unlink H (last m1) a (next w) (conj Hact Hinj)) as [Hact' Hinj'].
    split_and!; [split; [|exact Hact'|exact Hinj']| |done| |done].
    + do 2 eexists. split; [done|]. split.
      * eapply buckets_ok_ext; [|exact (buckets_ok_unlink r H L _ m1 a m2 w HB Hi HL Hw)].
        unfold unlinked_reg. by destruct (last m1).
      * cbn [watchers]. rewrite (unlinked_size H _ a _ w Hw).
        2: { intros Hb%last_Some_elem_of. rewrite HL in Hnd. apply NoDup_app in Hnd as (_ & H1 & _). by eapply H1; [|left]. }
        assert (size H ≠ 0) by (apply map_size_ne_0_lookup; exists a; eauto).
        unfold unlinked_reg. destruct (last m1); cbn; rewrite Hct, wraps_sub; f_equal; lia.
    + rewrite (unlinked_keys H _ (Some r) s s _ a (next w) w Hw Huniq). by rewrite Hk.
    + intros []. apply watched_mem. eauto.
Qed.

Lemma notify_spec σ t k :
  registry_ok σ →
  wp (pon_ets_watcher_notify t k) (λ n σ',
    n = s32 (Z.of_nat (size (filter (λ x, x.1 = (t, k)) (watched σ)))) ∧
    σ' = σ <| ets_stats ::= count_hits (size (filter (λ x, x.1 = (t, k)) (watched σ))) |>) σ.
Proof.
  intros [(r & L & Hr & HB & Hct) Hact Hinj].
  destruct (bucket_list r _ L t k HB) as (h & Hh & Hl & Hnd & Hlen & Hkey).
  destruct σ as [o H s]; cbn in *; subst o. unfold pon_ets_watcher_notify. ets_steps.
  eapply wp_get_bucket; [done|]. ets_steps. cbn [watchers].
  pose proof (bucket_range t k) as Hi. set (i := pon_ets_watcher_bucket t k) in *.
  set (l := filter (on_key H t k) (L i)).
  assert (size (filter (λ x, x.1 = (t, k)) (watched (mkEts (Some r) H s))) = length l) as ->.
  { rewrite <- (length_fmap (λ a, default (0, 0, 0)%Z (key_at H a))). apply size_enum.
    - apply NoDup_fmap_2_strong; [|by apply NoDup_filter]. unfold l, key_at.
      intros a b (Ha & _)%list_elem_of_filter (Hb & _)%list_elem_of_filter. unfold on_key in Ha, Hb.
      destruct (H !! a) as [w|] eqn:Hw, (H !! b) as [w'|] eqn:Hw'; [|done..].
      intros Hk. by eapply Hinj.
    - intros [[t' k'] p]. rewrite elem_of_filter, list_elem_of_fmap, elem_of_watched. simpl. split.
      + intros [[= -> ->] (a & w & Hw & Hk)]. exists a. unfold key_at, l. rewrite Hw. simpl.
        split; [done|]. apply list_elem_of_filter. split; [|apply (Hkey a p); eauto].
        unfold on_key. rewrite Hw. apply bool_decide_pack. by injection Hk.
      + intros (a & Hk & (Hon & Ha)%list_elem_of_filter). unfold on_key, key_at in *.
        destruct (H !! a) as [w|] eqn:Hw; [|done]. apply bool_decide_unpack in Hon as [E1 E2].
        simpl in Hk. assert (Hk' := Hk). injection Hk' as -> -> _. subst. split; [done|]. eauto. }
  eapply wp_mono; [exact (notify_scan_run _ r H s h _ t k 0 Hl Hlen Hact)|].
  by intros n σ' (c & -> & -> & ->).
Qed.

(** Distinct watchers watch distinct triples. *)
Lemma size_watched σ : heap_ok (watchers σ) → size (watched σ) = size (watchers σ).
Proof.
  intros [_ Hinj]. rewrite <- length_map_to_list, <- (length_fmap (λ aw, w_key aw.2)). apply size_enum.
  - apply NoDup_fmap_2_strong; [|apply NoDup_map_to_list].
    intros [a w] [b w'] Ha%elem_of_map_to_list Hb%elem_of_map_to_list Hk. simpl in Hk.
    assert (a = b) as -> by by eapply Hinj. congruence.
  - intros x. rewrite elem_of_watched, list_elem_of_fmap. split.
    + intros (a & w & Hw & <-). exists (a, w). by rewrite elem_of_map_to_list.
    + intros ([a w] & -> & Hw%elem_of_map_to_list). eauto.
Qed.

Lemma elem_of_watched_at σ x : x ∈ watched σ ↔ ∃ a, key_at (watchers σ) a = Some x.
Proof.
  rewrite elem_of_watched. unfold key_at. setoid_rewrite fmap_Some. naive_solver.
Qed.

(** ** Death of a process *)

Lemma unlinked_key_at H prev a x c :
  key_at (unlinked_w H prev a x) c = if decide (c = a) then None else key_at H c.
Proof.
  unfold key_at. rewrite unlinked_w_lookup. case_decide; [done|].
  destruct (H !! c); [|done]. simpl. by case_decide.
Qed.

Lemma size_key_at H H' : (∀ c, key_at H' c = key_at H c) → size H' = size H.
Proof.
  intros Hk. rewrite <- !size_dom. f_equal. apply set_eq. intros c. rewrite !elem_of_dom.
  specialize (Hk c). unfold key_at in Hk.
  destruct (H' !! c), (H !! c); simplify_eq/=; split; try done; by intros [].
Qed.

(** What a purge leaves: the watchers outside [dead], with the registry count
    still to be adjusted by the number of watchers removed. *)
Record purged (r : PonEtsWatcherRegistry) (H : gmap positive PonEtsWatcher) (s : PonStats)
    (dead : positive → bool) (removed n : Z) (σ' : ets) : Prop := {
  pu_state : ∃ r' L', reg σ' = Some r' ∧ buckets_ok r' (watchers σ') L' ∧ count r' = count r;
  pu_heap : heap_ok (watchers σ');
  pu_stats : ets_stats σ' = s;
  pu_keys c : key_at (watchers σ') c = if dead c then None else key_at H c;
  pu_count : n = s32 (removed + (Z.of_nat (size H) - Z.of_nat (size (watchers σ'))))
}.

Lemma purge_bucket_run fuel r H L s i l1 l2 p removed :
  buckets_ok r H L → heap_ok H → (0 ≤ i < PON_ETS_WATCHER_BUCKETS)%Z → L i = l1 ++ l2 → length l2 ≤ fuel →
  wp (purge_bucket fuel i (last l1) (head l2) p (s32 removed))
    (purged r H s (λ c, bool_decide (c ∈ l2) && of_process H p c) removed) (mkEts (Some r) H s).
Proof.
  revert fuel r H L l1 removed. induction l2 as [|a l2 IH]; intros fuel r H L l1 removed HB HH Hi HL Hf.
  - assert (wp (mret (s32 removed)) (purged r H s (λ c, bool_decide (c ∈ []) && of_process H p c) removed)
      (mkEts (Some r) H s)) as Hd.
    { wp_step. split; cbn; [by eauto|done|done| |f_equal; lia].
      intros c. rewrite bool_decide_false; [done|]. by intros ?%elem_of_nil. }
    by destruct fuel.
  - destruct fuel as [|fuel]; simpl in Hf; [lia|].
    destruct (bo_seg _ _ _ HB i Hi) as (h & Hh & Hl). pose proof (bo_nodup _ _ _ HB i Hi) as Hnd.
    rewrite HL in Hl, Hnd. destruct (lseg_split _ _ _ _ _ Hl Hnd) as (Hn & Hlast & Hal).
    destruct (proj1 (bo_mem _ _ _ HB i a Hi)) as (w & Hw & _); [rewrite HL; set_solver|].
    unfold nx_w in Hn. rewrite Hw in Hn. injection Hn as Hn. cbn [head purge_bucket]. ets_steps.
    assert (of_process H p a = bool_decide (process_id w = p)) as Hpa
      by (unfold of_process, key_at; by rewrite Hw).
    destruct (decide (process_id w = p)) as [Hp|Hp].
    + eapply (unlink_w_run _ _ _ _ _ _ _ w _ h); [done| |done|].
      { intros b Hb. split; [by apply Hlast|].
        destruct (proj1 (bo_mem _ _ _ HB i b Hi)) as (wb & ? & _); [|by eauto].
        rewrite HL. apply last_Some_elem_of in Hb. set_solver. }
      set (H1 := unlinked_w H (last l1) a (next w)). set (r1 := unlinked_reg r i (last l1) (next w)).
      pose proof (unlinked_key_at H (last l1) a (next w)) as Hk1. fold H1 in Hk1.
      rewrite wraps_add, Hn. eapply wp_mono.
      { apply (IH fuel r1 H1 (λ j, if decide (j = i) then l1 ++ l2 else L j) l1 (removed + 1)%Z);
          [by apply buckets_ok_unlink|by apply heap_ok_unlink|done|by rewrite decide_True|lia]. }
      intros n σ' [(r' & L' & Hr' & HB' & Hc') Hheap Hst Hkeys ->].
      assert (size H1 = size H - 1 ∧ size H ≠ 0) as [Hs1 Hs0].
      { split; [|apply map_size_ne_0_lookup; by exists a]. eapply unlinked_size; [done|].
        intros Hb%last_Some_elem_of. set_solver. }
      split; [|done|done| |f_equal; lia].
      * exists r', L'. split_and!; [done|done|]. rewrite Hc'. unfold r1, unlinked_reg. by destruct (last l1).
      * intros c. rewrite Hkeys. unfold of_process. rewrite Hk1. destruct (decide (c = a)) as [->|Hca].
        -- rewrite andb_false_r. fold (of_process H p a). rewrite Hpa, !bool_decide_true by (done || left). done.
        -- rewrite (bool_decide_ext (c ∈ a :: l2) (c ∈ l2)); [done|]. rewrite elem_of_cons. naive_solver.
    + rewrite Hn. pose proof (IH fuel r H L (l1 ++ [a]) removed) as IHa. rewrite last_snoc in IHa.
      eapply wp_mono; [apply IHa; [done|done|done|by rewrite <- app_assoc|lia]|].
      intros n σ' [H1 H2 H3 H4 H5]. split; [done|done|done| |done].
      intros c. rewrite H4. destruct (decide (c = a)) as [->|Hca].
      * rewrite Hpa, (bool_decide_false (process_id w = p)), !andb_false_r by done. done.
      * rewrite (bool_decide_ext (c ∈ a :: l2) (c ∈ l2)); [done|]. rewrite elem_of_cons. naive_solver.
Qed.

(** The bucket a triple belongs to. *)
Definition key_bucket (x : Z * Z * Z) : Z := pon_ets_watcher_bucket x.1.1 x.1.2.

Definition in_buckets (H : gmap positive PonEtsWatcher) (i k : nat) (c : positive) : bool :=
  match key_at H c with
  | Some x => bool_decide (Z.of_nat i ≤ key_bucket x < Z.of_nat (i + k))%Z
  | None => false
  end.

Lemma purge_buckets_run i k r H L s p removed :
  buckets_ok r H L → heap_ok H → i + k ≤ Z.to_nat PON_ETS_WATCHER_BUCKETS →
  wp (purge_buckets i k p (s32 removed))
    (purged r H s (λ c, in_buckets H i k c && of_process H p c) removed) (mkEts (Some r) H s).
Proof.
  revert i r H L removed. induction k as [|k IH]; intros i r H L removed HB HH Hik; cbn [purge_buckets].
  - wp_step. split; cbn; [by eauto|done|done| |f_equal; lia].
    intros c. unfold in_buckets. destruct (key_at H c) eqn:Hk; [|done].
    rewrite bool_decide_false; [done|]. lia.
  - assert (0 ≤ Z.of_nat i < PON_ETS_WATCHER_BUCKETS)%Z as Hi by (unfold PON_ETS_WATCHER_BUCKETS in *; lia).
    destruct (bo_seg _ _ _ HB _ Hi) as (h & Hh & Hl). pose proof (bo_nodup _ _ _ HB _ Hi) as Hnd.
    apply lseg_head_None in Hl as ->.
    wp_step. eapply wp_get_bucket; [done|]. ets_steps. cbn [watchers].
    assert (length (L (Z.of_nat i)) ≤ size H) as Hlen.
    { rewrite <- size_dom, <- (size_list_to_set (C := gset positive)) by done.
      apply subseteq_size. intros c. rewrite elem_of_list_to_set, elem_of_dom.
      intros (w & Hw & _)%(bo_mem _ _ _ HB); [by eauto|done]. }
    eapply wp_mono; [exact (purge_bucket_run _ r H L s _ [] _ p removed HB HH Hi eq_refl Hlen)|].
    intros n [o H1 s1] [(r1 & L1 & Hr1 & HB1 & Hc1) HH1 Hs1 Hk1 ->]. cbn in Hr1, HB1, HH1, Hs1, Hk1. subst o s1. cbv beta.
    eapply wp_mono; [apply (IH (S i) r1 H1 L1); [done|done|lia]|].
    intros n σ' [(r2 & L2 & Hr2 & HB2 & Hc2) HH2 Hs2 Hk2 ->]. split; [|done|done| |cbn; f_equal; lia].
    + exists r2, L2. split_and!; [done|done|congruence].
    + intros c. rewrite Hk2. unfold in_buckets, of_process in *. rewrite Hk1.
      assert (bool_decide (c ∈ L (Z.of_nat i)) =
        match key_at H c with Some x => bool_decide (key_bucket x = Z.of_nat i) | None => false end) as ->.
      { unfold key_at. destruct (H !! c) as [w|] eqn:Hw; simpl.
        - apply bool_decide_ext. rewrite (bo_mem _ _ _ HB) by done. rewrite Hw. unfold w_bucket, key_bucket. simpl.
          naive_solver.
        - apply bool_decide_false. rewrite (bo_mem _ _ _ HB) by done. rewrite Hw. by intros (? & ? & _). }
      destruct (key_at H c) as [x|]; [|done]. repeat (case_bool_decide; simpl); try done; lia.
Qed.

Lemma remove_process_spec σ p :
  registry_ok σ →
  wp (pon_ets_watcher_remove_process p) (λ n σ', registry_ok σ' ∧
    watched σ' = filter (λ x, x.2 ≠ p) (watched σ) ∧
    n = s32 (Z.of_nat (size (filter (λ x, x.2 = p) (watched σ)))) ∧ ets_stats σ' = ets_stats σ) σ.
Proof.
  intros [(r & L & Hr & HB & Hct) Hact Hinj]. destruct σ as [o H s]; cbn in *; subst o.
  unfold pon_ets_watcher_remove_process. ets_steps.
  eapply wp_mono.
  { apply (purge_buckets_run 0 _ r H L s p 0 HB (conj Hact Hinj)). lia. }
  intros n [o H' s'] [(r' & L' & Hr' & HB' & Hc') [Hact' Hinj'] Hs' Hk ->]. cbn in Hr', HB', Hact', Hinj', Hs', Hk.
  subst o s'. ets_steps. cbn [watchers].
  assert (∀ c, key_at H' c = if of_process H p c then None else key_at H c) as Hk'.
  { intros c. rewrite Hk. unfold in_buckets, of_process. destruct (key_at H c) as [x|]; [|done].
    rewrite bool_decide_true; [done|]. pose proof (bucket_range x.1.1 x.1.2). unfold key_bucket. lia. }
  clear Hk. set (r2 := r' <| count ::= _ |>).
  assert (watched (mkEts (Some r2) H' s) = filter (λ x, x.2 ≠ p) (watched (mkEts (Some r) H s))) as Hw.
  { apply set_eq. intros x. rewrite elem_of_filter, !elem_of_watched_at. cbn [watchers]. split.
    - intros [c Hc]. rewrite Hk' in Hc. unfold of_process in Hc.
      destruct (key_at H c) as [y|] eqn:Hy; [|done]. case_bool_decide; [done|]. injection Hc as <-. eauto.
    - intros [Hx [c Hc]]. exists c. rewrite Hk'. unfold of_process. rewrite Hc. by rewrite bool_decide_false. }
  assert (size H = size H' + size (filter (λ x, x.2 = p) (watched (mkEts (Some r) H s)))) as Hsz.
  { pose proof (size_watched (mkEts (Some r) H s) (conj Hact Hinj)) as S1.
    pose proof (size_watched (mkEts (Some r2) H' s) (conj Hact' Hinj')) as S2.
    rewrite Hw in S2. cbn [watchers] in S1, S2. rewrite <- S1, <- S2.
    rewrite <- (filter_union_complement_L (λ x, x.2 = p) (watched (mkEts (Some r) H s))) at 1.
    - rewrite size_union; [lia|]. set_solver.
    - exact (watched (mkEts (Some r) H s)). }
  split_and!; [split; [|exact Hact'|exact Hinj']|exact Hw| |done].
  - exists r2, L'. split_and!; [done|eapply (buckets_ok_ext r'); [done|exact HB']|]. cbn [watchers]. unfold r2. cbn.
    rewrite Hc', Hct, wraps_sub, wraps_sub_r. f_equal. lia.
  - f_equal. lia.
Qed.

(** ** Initialisation *)

Lemma init_spec σ r :
  reg σ = Some r → Z.of_nat (length (buckets r)) = PON_ETS_WATCHER_BUCKETS → watchers σ = ∅ →
  wp pon_ets_watcher_init (λ _ σ', registry_ok σ' ∧ watched σ' = ∅) σ.
Proof.
  intros Hr Hlen Hw. destruct σ as [o H s]. cbn in Hr, Hw. subst.
  unfold pon_ets_watcher_init. apply wp_unless_no_reg. wp_step.
  apply (wp_for_range (λ i σ', ∃ r', σ' = mkEts (Some r') ∅ s ∧ length (buckets r') = length (buckets r) ∧
    ∀ j, j < i → buckets r' !! j = Some None)).
  - exists r. split_and!; [done|done|lia].
  - intros j σ' Hj (r' & -> & Hl & Hnull).
    destruct (lookup_lt_is_Some_2 (buckets r') j) as [h Hh]; [lia|].
    eapply wp_set_bucket; [by rewrite Nat2Z.id|]. eexists. split; [done|]. cbn. rewrite length_insert.
    split; [done|]. intros c Hc. rewrite Nat2Z.id. destruct (decide (c = j)) as [->|Hne].
    + apply list_lookup_insert_eq. lia.
    + rewrite list_lookup_insert_ne by done. apply Hnull. lia.
  - intros σ' (r' & -> & Hl & Hnull). apply wp_upd_reg. split; [|done].
    split; [|by intros a w Hw; cbn in Hw; rewrite lookup_empty in Hw|by intros a b w w' Hw; cbn in Hw; rewrite lookup_empty in Hw].
    exists (r' <| count := 0%Z |>), (λ _, []). split_and!; [done| |done]. split; cbn.
    + lia.
    + intros i Hi. exists None. split; [apply Hnull; lia|done].
    + constructor.
    + intros i a _. rewrite lookup_empty. split; [by intros ?%elem_of_nil|by intros (? & ? & _)].
Qed.

(** ** The registry as a set *)

(** The exported operations, and what they mean on the set of watched triples. *)
Inductive ets_op : Type :=
  | OpAdd (t k p : Z)
  | OpRemove (t k p : Z)
  | OpNotify (t k : Z)
  | OpRemoveProcess (p : Z).

Definition run_op (o : ets_op) : EtsM Z :=
  match o with
  | OpAdd t k p => pon_ets_watcher_add t k p
  | OpRemove t k p => pon_ets_watcher_remove t k p
  | OpNotify t k => pon_ets_watcher_notify t k
  | OpRemoveProcess p => pon_ets_watcher_remove_process p
  end.

Definition spec_op (o : ets_op) (X : gset (Z * Z * Z)) : Z * gset (Z * Z * Z) :=
  match o with
  | OpAdd t k p => ((if decide ((t, k, p) ∈ X) then -1 else 0)%Z, {[(t, k, p)]} ∪ X)
  | OpRemove t k p => ((if decide ((t, k, p) ∈ X) then 0 else -1)%Z, X ∖ {[(t, k, p)]})
  | OpNotify t k => (s32 (Z.of_nat (size (filter (λ x, x.1 = (t, k)) X))), X)
  | OpRemoveProcess p =>
      (s32 (Z.of_nat (size (filter (λ x, x.2 = p) X))), filter (λ x, x.2 ≠ p) X)
  end.

Fixpoint run_ops (os : list ets_op) : EtsM (list Z) :=
  match os with
  | [] => mret []
  | o :: os' => r ← run_op o; rs ← run_ops os'; mret (r :: rs)
  end.

Fixpoint spec_ops (os : list ets_op) (X : gset (Z * Z * Z)) : list Z * gset (Z * Z * Z) :=
  match os with
  | [] => ([], X)
  | o :: os' => let '(r, X1) := spec_op o X in let '(rs, X2) := spec_ops os' X1 in (r :: rs, X2)
  end.

Lemma run_op_refines σ o :
  registry_ok σ → (∀ used, is_Some (alloc used SIZEOF_WATCHER)) →
  wp (run_op o) (λ n σ', registry_ok σ' ∧ (n, watched σ') = spec_op o (watched σ)) σ.
Proof.
  intros Hok Halloc. destruct o as [t k p|t k p|t k|p]; cbn [run_op spec_op].
  - eapply wp_mono; [by apply add_spec|]. intros r σ' (? & -> & -> & _). done.
  - eapply wp_mono; [by apply remove_spec|]. intros r σ' (? & -> & -> & _). done.
  - eapply wp_mono; [by apply notify_spec|]. intros n σ' (-> & ->). split; [|done].
    by destruct Hok as [(r' & L & ? & ? & ?) ? ?]; split; [exists r', L| |].
  - eapply wp_mono; [by apply remove_process_spec|]. intros r σ' (? & -> & -> & _). done.
Qed.

Lemma run_ops_refines σ os :
  registry_ok σ → (∀ used, is_Some (alloc used SIZEOF_WATCHER)) →
  wp (run_ops os) (λ rs σ', registry_ok σ' ∧ (rs, watched σ') = spec_ops os (watched σ)) σ.
Proof.
  intros Hok Halloc. revert σ Hok. induction os as [|o os IH]; intros σ Hok; cbn [run_ops spec_ops]; [by wp_step|].
  wp_step. eapply wp_mono; [by apply run_op_refines|]. intros r σ1 [Hok1 <-]. wp_step.
  eapply wp_mono; [by apply IH|]. intros rs σ2 [Hok2 <-]. by wp_step.
Qed.

(** C6: the registry implements a set: from a well-formed registry, such as the
    initialised one, any sequence of registrations, removals, notifications and
    process deaths terminates, returns the results that the set of watched triples
    dictates, and ends in a well-formed registry that stands for the resulting set. *)
Theorem registry_refines_set σ os :
  registry_ok σ → (∀ used, is_Some (alloc used SIZEOF_WATCHER)) →
  ∃ rs σ', run_ops os σ = Some (rs, σ') ∧ registry_ok σ' ∧ (rs, watched σ') = spec_ops os (watched σ).
Proof.
  intros Hok Halloc. destruct (wp_elim _ _ _ (run_ops_refines σ os Hok Halloc)) as (rs & σ' & ? & ? & ?). eauto 10.
Qed.

(** A notification leaves the registry as it is, returns the number of
    processes that watch the key, and adds as much to [ets_watcher_hits]. *)
Theorem notify_counts_watchers σ t k :
  registry_ok σ →
  pon_ets_watcher_notify t k σ =
  Some (s32 (Z.of_nat (size (filter (λ x, x.1 = (t, k)) (watched σ)))),
        σ <| ets_stats ::= count_hits (size (filter (λ x, x.1 = (t, k)) (watched σ))) |>).
Proof. intros Hok. by destruct (wp_elim _ _ _ (notify_spec σ t k Hok)) as (n & σ' & -> & -> & ->). Qed.

(** When no memory is left a registration returns -1, as it does for a
    triple that is already watched, and the registry is unchanged either way. *)
Theorem add_out_of_memory σ t k p :
  registry_ok σ → alloc (dom (watchers σ)) SIZEOF_WATCHER = None →
  pon_ets_watcher_add t k p σ = Some ((-1)%Z, σ).
Proof.
  intros [(r & L & Hr & HB & Hct) Hact Hinj] Ha.
  destruct (bucket_list r _ L t k HB) as (h & Hh & Hl & Hnd & Hlen & Hkey).
  assert (wp (pon_ets_watcher_add t k p) (λ n σ', n = (-1)%Z ∧ σ' = σ) σ) as H.
  { destruct σ as [o H s]; cbn in *; subst o. unfold pon_ets_watcher_add. ets_steps.
    eapply wp_get_bucket; [done|]. ets_steps. cbn [watchers].
    eapply wp_mono; [exact (add_scan_run _ r H s h _ t k p Hl Hlen Hact)|]. intros b σ' [-> _]. cbv beta.
    destruct b; [by wp_step|]. cbn [watchers]. rewrite Ha. by wp_step. }
  by apply wp_elim in H as (n & σ' & -> & -> & ->).
Qed.

End registry.

(** An empty registry, and one in which process 7 watches two keys of table 1
    and process 8 one of them. *)
Definition ets_start : ets :=
  mkEts (Some (mkPonEtsWatcherRegistry (replicate (Z.to_nat PON_ETS_WATCHER_BUCKETS) (Some 1%positive)) 5))
    ∅ pon_stats_zero.

Definition ets_after {A} (m : EtsM A) (σ : ets) : ets := match m σ with Some (_, σ') => σ' | None => σ end.

Definition ets_empty : ets := ets_after pon_ets_watcher_init ets_start.

Definition ets_demo_ops : list ets_op :=
  [OpAdd 1 2 7; OpAdd 1 3 7; OpAdd 1 2 8; OpAdd 1 2 7; OpNotify 1 2; OpRemove 1 3 7; OpRemoveProcess 7; OpNotify 1 2].

Lemma ets_empty_ok : registry_ok ets_empty.
Proof.
  destruct (wp_elim _ _ _ (init_spec ets_start _ eq_refl eq_refl eq_refl)) as (x & σ' & H & Hok & _).
  unfold ets_empty, ets_after. by rewrite H.
Qed.

Definition ets_two : ets := ets_after (run_ops [OpAdd 1 2 7; OpAdd 1 3 7; OpAdd 1 2 8]) ets_empty.

Lemma ets_two_ok : registry_ok ets_two.
Proof.
  destruct (wp_elim _ _ _ (run_ops_refines ets_empty [OpAdd 1 2 7; OpAdd 1 3 7; OpAdd 1 2 8] ets_empty_ok
    (λ _, ltac:(by eexists)))) as (x & σ' & H & Hok & _).
  unfold ets_two, ets_after. by rewrite H.
Qed.

(** A registry whose allocator has run out of memory. *)
Definition no_memory : Allocator := {| alloc := λ _ _, None; realloc_ok := λ _, false |}.

Lemma registry_refines_set_witness :
  ∃ rs σ', run_ops ets_demo_ops ets_empty = Some (rs, σ') ∧ registry_ok σ' ∧
    (rs, watched σ') = spec_ops ets_demo_ops (watched ets_empty).
Proof. apply (registry_refines_set ets_empty ets_demo_ops ets_empty_ok). by eexists. Defined.

Lemma notify_counts_watchers_witness :
  pon_ets_watcher_notify 1 2 ets_two =
  Some (s32 (Z.of_nat (size (filter (λ x, x.1 = (1%Z, 2%Z)) (watched ets_two)))),
        ets_two <| ets_stats ::= count_hits (size (filter (λ x, x.1 = (1%Z, 2%Z)) (watched ets_two))) |>).
Proof. exact (notify_counts_watchers ets_two 1 2 ets_two_ok). Defined.

Lemma add_out_of_memory_witness :
  @pon_ets_watcher_add no_memory 1 2 7 ets_empty = Some ((-1)%Z, ets_empty).
Proof. exact (@add_out_of_memory no_memory ets_empty 1 2 7 ets_empty_ok eq_refl). Defined.
