(* ===== verification/Kernel.v ===== *)
(** The interface of the Linux system calls that the PON timers and conditions
    make: descriptors, timerfd and epoll. The kernel is not part of the
    repository; what the code relies on is stated as a class with laws, and a
    concrete kernel shows that they can hold. *)

From S2P Require Import Prelude.
From stdpp Require Import base numbers list gmap sets.
From Stdlib Require Import ZArith Lia.

(** ** Kernel objects *)

(** The open descriptors, the time in nanoseconds each timerfd is armed with,
    the descriptors each epoll instance watches with the data registered for
    them, the timerfds that have expired and were not read since, and the number
    of [close] calls on a descriptor that was not open. *)
Record kernel : Type := mkKernel {
  fds : gset Z;
  armed : gmap Z Z;
  interest : gmap Z (gmap Z positive);
  expired : gset Z;
  bad_closes : nat
}.

#[global] Instance kernel_eta : Eta kernel := λ k,
  mkKernel (fds k) (armed k) (interest k) (expired k) (bad_closes k).

Inductive syscall : Type :=
  | SysEventfd
  | SysEpollCreate
  | SysTimerfdCreate
  | SysTimerfdSettime (fd : Z)
  | SysTimerfdGettime (fd : Z)
  | SysEpollAdd (epfd fd : Z)
  | SysEpollWait (epfd : Z).

(** [new_fd] is the descriptor a call that opens one returns, [sys_fails] tells
    the calls that return -1, and [ready_fds] the descriptors that [epoll_wait]
    reports, in the order of its [events] array. *)
Class Kernel : Type := {
  new_fd : gset Z → Z;
  sys_fails : kernel → syscall → bool;
  ready_fds : kernel → Z → list Z
}.

(** Descriptors are non-negative and unused; [epoll_wait] reports watched
    descriptors that are readable, each once. *)
Class KernelLaws (K : Kernel) : Prop := {
  new_fd_fresh F : new_fd F ∉ F;
  new_fd_nonneg F : (0 ≤ new_fd F)%Z;
  ready_watched k e fd : fd ∈ ready_fds k e → fd ∈ expired k ∧ is_Some (interest k !! e ≫= (.!! fd));
  ready_nodup k e : NoDup (ready_fds k e)
}.

(** ** The effect of the calls *)

Definition k_open (fd : Z) (k : kernel) : kernel := k <| fds ::= λ F, {[fd]} ∪ F |>.

(** [close] also removes the descriptor from the epoll sets and disarms it. *)
Definition k_close (fd : Z) (k : kernel) : kernel :=
  if decide (fd ∈ fds k) then
    k <| fds ::= λ F, F ∖ {[fd]} |> <| armed ::= delete fd |>
      <| interest ::= λ I, delete fd <$> delete fd I |> <| expired ::= λ X, X ∖ {[fd]} |>
  else k <| bad_closes ::= S |>.

Definition k_settime (fd ns : Z) (k : kernel) : kernel :=
  k <| armed ::= <[fd := ns]> |> <| expired ::= λ X, X ∖ {[fd]} |>.

(** Setting a timerfd to zero disarms it. *)
Definition k_disarm (fd : Z) (k : kernel) : kernel :=
  k <| armed ::= delete fd |> <| expired ::= λ X, X ∖ {[fd]} |>.

Definition k_epoll_add (e fd : Z) (p : positive) (k : kernel) : kernel :=
  k <| interest ::= λ I, <[e := <[fd := p]> (default ∅ (I !! e))]> I |>.

Definition k_epoll_del (e fd : Z) (k : kernel) : kernel :=
  k <| interest ::= alter (delete fd) e |>.

(** Reading an expired timerfd resets it. *)
Definition k_read_timer (fd : Z) (k : kernel) : option kernel :=
  if decide (fd ∈ expired k) then Some (k <| expired ::= λ X, X ∖ {[fd]} |>) else None.

(** Time passes: an armed timerfd expires, once since it has no interval. *)
Definition k_expire (fd : Z) (k : kernel) : kernel :=
  if decide (fd ∈ fds k ∧ is_Some (armed k !! fd))
  then k <| expired ::= λ X, {[fd]} ∪ X |> <| armed ::= delete fd |> else k.

(** ** A concrete kernel

    It uses the smallest unused descriptor, never fails, and reports the ready
    descriptors in increasing order of the map. *)

Definition least_fd (F : gset Z) : Z := foldr Z.max (-1)%Z (elements F) + 1.

Definition ready_list (k : kernel) (e : Z) : list Z :=
  filter (λ fd, fd ∈ expired k) (map_to_list (default ∅ (interest k !! e))).*1.

#[global] Instance plain_kernel : Kernel :=
  {| new_fd := least_fd; sys_fails := λ _ _, false; ready_fds := ready_list |}.

Lemma least_fd_bound F : ∀ x, x ∈ F → (x < least_fd F)%Z.
Proof.
  intros x. rewrite <- elem_of_elements. unfold least_fd.
  induction (elements F) as [|y l IH]; [by intros ?%elem_of_nil|].
  intros [->|Hx]%elem_of_cons; simpl; [lia|]. apply IH in Hx. lia.
Qed.

Lemma least_fd_nonneg F : (0 ≤ least_fd F)%Z.
Proof. unfold least_fd. induction (elements F); simpl; lia. Qed.

#[global] Instance plain_kernel_laws : KernelLaws plain_kernel.
Proof.
  split.
  - intros F HF. pose proof (least_fd_bound F _ HF). simpl in *. lia.
  - apply least_fd_nonneg.
  - intros k e fd (Hx & Hl)%list_elem_of_filter. split; [done|].
    apply list_elem_of_fmap in Hl as ([fd' p] & -> & Hl%elem_of_map_to_list). simpl in *.
    destruct (interest k !! e) as [I|]; simpl in *; [eauto|]. by rewrite lookup_empty in Hl.
  - intros k e. apply NoDup_filter, NoDup_fst_map_to_list.
Qed.

(** ** Eventfd counters

    [efd_read] is [None] when the non-blocking read fails with EAGAIN. *)
Class EventFd : Type := {
  efd : Type;
  efd_zero : efd;
  efd_write : efd → efd;
  efd_read : efd → option efd;
  efd_readable : efd → bool
}.

(** Epoll reports an eventfd exactly when a read succeeds; a write makes it
    readable, a successful read empties it. *)
Class EventFdLaws (V : EventFd) : Prop := {
  efd_readable_read e : efd_readable e = true ↔ is_Some (efd_read e);
  efd_write_readable e : efd_readable (efd_write e) = true;
  efd_read_drains e e' : efd_read e = Some e' → efd_readable e' = false;
  efd_zero_empty : efd_readable efd_zero = false
}.

(** The 64-bit counter of Linux: a write that would overflow fails. *)
#[global] Instance counter_efd : EventFd :=
  {| efd := Z; efd_zero := 0%Z;
     efd_write := λ n, if decide (n < 2 ^ 64 - 2)%Z then Z.max 0 n + 1 else n%Z;
     efd_read := λ n, if decide (0 < n)%Z then Some 0%Z else None;
     efd_readable := λ n, bool_decide (0 < n)%Z |}%Z.

#[global] Instance counter_efd_laws : EventFdLaws counter_efd.
Proof.
  split; cbn.
  - intros e. rewrite bool_decide_eq_true. case_decide as He; split; intros Hx; [by eexists|done|done|by destruct Hx].
  - intros e. apply bool_decide_eq_true. case_decide; lia.
  - intros e e'. case_decide; [by intros [= <-]|done].
  - done.
Qed.
