(* ===== verification/PonTimer.v ===== *)
(** Model of [erts/emulator/beam/pon_timer.c] and of the types of
    [erts/include/internal/pon_instigation.h]: timers that are timerfds watched
    by one epoll instance. *)

From S2P Require Import Prelude PonStats Kernel.
From stdpp Require Import base numbers list gmap sets.
From Stdlib Require Import ZArith.

(** ** Data *)

Definition PON_INSTIGATION_TYPE_TIMER : Z := 1.

Record ErtsInstigation : Type := mkErtsInstigation {
  inst_type : Z;               (* int *)
  fired : Z;                   (* int *)
  target : option positive;    (* struct process pointer *)
  message : Z;                 (* uint64_t *)
  inst_next : option positive
}.

#[global] Instance ErtsInstigation_eta : Eta ErtsInstigation := λ b,
  mkErtsInstigation (inst_type b) (fired b) (target b) (message b) (inst_next b).

Record ErtsTimerInstigation : Type := mkErtsTimerInstigation {
  base : ErtsInstigation;
  timer_fd : Z;                (* int *)
  expiration_ms : Z            (* uint64_t *)
}.

#[global] Instance ErtsTimerInstigation_eta : Eta ErtsTimerInstigation := λ i,
  mkErtsTimerInstigation (base i) (timer_fd i) (expiration_ms i).

Definition ERTS_INIT_TIMER_INSTIGATION (TARGET : option positive) (MSG TIMEOUT_MS : Z) :
    ErtsTimerInstigation :=
  mkErtsTimerInstigation (mkErtsInstigation PON_INSTIGATION_TYPE_TIMER 0 TARGET MSG NULL) (-1)
    (u64 TIMEOUT_MS).

(** The file's static variable, the instigations, the kernel, the counters. *)
Record tms : Type := mkTms {
  pon_timer_epoll_fd : Z;
  insts : gmap positive ErtsTimerInstigation;
  tm_kernel : kernel;
  tm_stats : PonStats
}.

#[global] Instance tms_eta : Eta tms := λ σ,
  mkTms (pon_timer_epoll_fd σ) (insts σ) (tm_kernel σ) (tm_stats σ).

Abbreviation TmM A := (M tms A).

Definition load_inst (a : positive) : TmM ErtsTimerInstigation := σ ← get; deref (insts σ !! a).

Definition upd_inst (a : positive) (f : ErtsTimerInstigation → ErtsTimerInstigation) : TmM unit :=
  _ ← load_inst a; modify (λ σ, σ <| insts ::= alter f a |>).

Definition upd_kernel (f : kernel → kernel) : TmM unit := modify (λ σ, σ <| tm_kernel ::= f |>).

Definition PON_TIMER_MIN_MS : Z := 1.
Definition PON_TIMER_MAX_EVENTS : nat := 64.

(** The nanoseconds of a [struct timespec]. *)
Definition timespec_ns (tv_sec tv_nsec : Z) : Z := (tv_sec * 1000000000 + tv_nsec)%Z.

Section pon_timer.
Context `{K : Kernel}.

Definition fails (c : syscall) : TmM bool := σ ← get; mret (sys_fails (tm_kernel σ) c).

(** A call that opens a descriptor: -1 when it fails. *)
Definition sys_open (c : syscall) : TmM Z :=
  f ← fails c;
  if f : bool then mret (-1)%Z else
  σ ← get;
  upd_kernel (k_open (new_fd (fds (tm_kernel σ))));;
  mret (new_fd (fds (tm_kernel σ))).

Definition pon_timer_init : TmM unit :=
  σ ← get;
  if decide (pon_timer_epoll_fd σ = -1)%Z then
    e ← sys_open SysEpollCreate;
    modify (λ σ, σ <| pon_timer_epoll_fd := e |>)
  else mret tt.

Definition pon_timer_destroy : TmM unit :=
  σ ← get;
  if decide (pon_timer_epoll_fd σ ≠ -1)%Z then
    upd_kernel (k_close (pon_timer_epoll_fd σ));;
    modify (λ σ, σ <| pon_timer_epoll_fd := (-1)%Z |>)
  else mret tt.

Definition pon_timer_instigation_create (inst : option positive) : TmM Z :=
  match inst with
  | None => mret (-1)%Z
  | Some a =>
      i ← load_inst a;
      let timeout_ms := expiration_ms i in
      if decide (timeout_ms < PON_TIMER_MIN_MS)%Z then mret (-1)%Z else
      tfd ← sys_open SysTimerfdCreate;
      if decide (tfd = -1)%Z then mret (-1)%Z else
      let tv_sec := s64 (timeout_ms / 1000) in
      let tv_nsec := s64 (timeout_ms `mod` 1000 * 1000000) in
      f ← fails (SysTimerfdSettime tfd);
      if f : bool then upd_kernel (k_close tfd);; mret (-1)%Z else
      upd_kernel (k_settime tfd (timespec_ns tv_sec tv_nsec));;
      σ ← get;
      ok ← (if decide (pon_timer_epoll_fd σ ≠ -1)%Z then
              f ← fails (SysEpollAdd (pon_timer_epoll_fd σ) tfd);
              if f : bool then mret false
              else upd_kernel (k_epoll_add (pon_timer_epoll_fd σ) tfd a);; mret true
            else mret true);
      if ok : bool then
        upd_inst a (λ i, i <| timer_fd := tfd |>);; mret 0%Z
      else upd_kernel (k_close tfd);; mret (-1)%Z
  end.

Definition pon_timer_instigation_cancel (inst : option positive) : TmM unit :=
  match inst with
  | None => mret tt
  | Some a =>
      i ← load_inst a;
      if decide (timer_fd i = -1)%Z then mret tt else
      σ ← get;
      (if decide (pon_timer_epoll_fd σ ≠ -1)%Z
       then upd_kernel (k_epoll_del (pon_timer_epoll_fd σ) (timer_fd i)) else mret tt);;
      upd_kernel (k_close (timer_fd i));;
      upd_inst a (λ i, i <| timer_fd := (-1)%Z |> <| base ::= λ b, b <| fired := 1%Z |> |>)
  end.

Definition pon_timer_instigation_fire (inst : option positive) : TmM unit :=
  match inst with
  | None => mret tt
  | Some a =>
      i ← load_inst a;
      if decide (fired (base i) ≠ 0)%Z then mret tt else
      if decide (timer_fd i = -1)%Z then mret tt else
      σ ← get;
      match k_read_timer (timer_fd i) (tm_kernel σ) with
      | None => mret tt
      | Some k' =>
          upd_kernel (λ _, k');;
          upd_inst a (λ i, i <| base ::= λ b, b <| fired := 1%Z |> |>);;
          modify (λ σ, σ <| tm_stats ::= λ s, s <| timerfd_expirations ::= PON_STATS_INC |> |>)
      end
  end.

(** The loop over the [events] array; every event of a timerfd is [EPOLLIN]. *)
Fixpoint process_events (events : list (option positive)) (processed : Z) : TmM Z :=
  match events with
  | [] => mret processed
  | inst :: events' =>
      match inst with
      | None => process_events events' processed
      | Some _ =>
          pon_timer_instigation_fire inst;;
          process_events events' (s32 (processed + 1))
      end
  end.

Definition pon_timer_process_expirations : TmM Z :=
  σ ← get;
  let e := pon_timer_epoll_fd σ in
  if decide (e = -1)%Z then mret 0%Z else
  f ← fails (SysEpollWait e);
  if f : bool then mret 0%Z else
  let k := tm_kernel σ in
  let events := take PON_TIMER_MAX_EVENTS ((λ fd, interest k !! e ≫= (.!! fd)) <$> ready_fds k e) in
  process_events events 0.

End pon_timer.
