(* ===== verification/PonTimerThms.v ===== *)
(** Correctness of the timerfd timers: descriptors are neither leaked nor closed
    twice, a timer fires at most once, and the interval armed is the one asked. *)

From S2P Require Import Prelude PonStats Kernel PonTimer.
From stdpp Require Import base tactics numbers list gmap sets fin_maps.
From Stdlib Require Import ZArith Lia.

(** ** The invariant

    An active timer owns its descriptor, the epoll set leads from a descriptor
    back to the timer that owns it, and nothing was closed twice. *)
Record timers_ok (σ : tms) : Prop := {
  to_epoll : pon_timer_epoll_fd σ ≠ (-1)%Z → pon_timer_epoll_fd σ ∈ fds (tm_kernel σ);
  to_open a i : insts σ !! a = Some i → timer_fd i ≠ (-1)%Z →
    (0 ≤ timer_fd i)%Z ∧ timer_fd i ∈ fds (tm_kernel σ) ∧ timer_fd i ≠ pon_timer_epoll_fd σ;
  to_inj a b i j : insts σ !! a = Some i → insts σ !! b = Some j →
    timer_fd i = timer_fd j → timer_fd i ≠ (-1)%Z → a = b;
  to_interest e I fd a : interest (tm_kernel σ) !! e = Some I → I !! fd = Some a →
    ∃ i, insts σ !! a = Some i ∧ timer_fd i = fd ∧ fd ≠ (-1)%Z;
  to_expired fd : fd ∈ expired (tm_kernel σ) → fd ∈ fds (tm_kernel σ);
  to_closes : bad_closes (tm_kernel σ) = 0
}.

(** The timer the descriptor [fd] of the epoll set stands for. *)
Definition watched_timer (σ : tms) (fd : Z) : option positive :=
  interest (tm_kernel σ) !! pon_timer_epoll_fd σ ≫= (.!! fd).

Section timers.
Context `{Laws : KernelLaws}.
Implicit Types (σ : tms) (a : positive).

Lemma wp_load_inst σ a i (Q : ErtsTimerInstigation → tms → Prop) :
  insts σ !! a = Some i → Q i σ → wp (load_inst a) Q σ.
Proof. intros Hi HQ. unfold load_inst. wp_step. wp_step. by eapply wp_deref. Qed.

Lemma wp_upd_inst σ a i f (Q : unit → tms → Prop) :
  insts σ !! a = Some i → Q tt (σ <| insts ::= <[a := f i]> |>) → wp (upd_inst a f) Q σ.
Proof.
  intros Hi HQ. unfold upd_inst. wp_step. eapply wp_load_inst; [done|]. wp_step. simpl.
  replace (alter f a (insts σ)) with (<[a := f i]> (insts σ)); [done|].
  apply map_eq. intros b. rewrite lookup_alter, lookup_insert. case_decide; subst; [by rewrite Hi|done].
Qed.

Lemma wp_upd_kernel σ f (Q : unit → tms → Prop) :
  Q tt (σ <| tm_kernel ::= f |>) → wp (upd_kernel f) Q σ.
Proof. done. Qed.

Lemma wp_sys_open σ c (Q : Z → tms → Prop) :
  (sys_fails (tm_kernel σ) c = true → Q (-1)%Z σ) →
  (∀ fd, fd = new_fd (fds (tm_kernel σ)) → fd ∉ fds (tm_kernel σ) → (0 ≤ fd)%Z →
     Q fd (σ <| tm_kernel ::= k_open fd |>)) →
  wp (sys_open c) Q σ.
Proof.
  intros Hf Hs. unfold sys_open, fails. wp_steps. destruct (sys_fails _ _) eqn:E; [by apply wp_ret, Hf|].
  wp_steps. apply Hs; [done|apply new_fd_fresh|apply new_fd_nonneg].
Qed.

(** Opening a descriptor that nobody uses yet, closing one that no timer uses. *)
Lemma timers_ok_open σ fd : timers_ok σ → fd ∉ fds (tm_kernel σ) → timers_ok (σ <| tm_kernel ::= k_open fd |>).
Proof.
  intros [H1 H2 H3 H4 H5 H6] Hfd. split; cbn.
  - set_solver.
  - intros a i Hi Hn. destruct (H2 a i Hi Hn) as (? & ? & ?). split_and!; [done|set_solver|done].
  - done.
  - done.
  - intros x Hx. set_solver.
  - done.
Qed.

Lemma k_open_close fd k : fd ∉ fds k → fds (k_close fd (k_open fd k)) = fds k.
Proof.
  intros Hfd. unfold k_close. rewrite decide_True by (cbn; set_solver). cbn. set_solver.
Qed.

Lemma interest_close I e J (fd : Z) :
  (delete fd <$> delete fd I : gmap Z (gmap Z positive)) !! e = Some J →
  ∃ J0, I !! e = Some J0 ∧ J = delete fd J0.
Proof.
  rewrite lookup_fmap, fmap_Some. intros (J0 & HJ & ->). apply lookup_delete_Some in HJ as [_ HJ]. eauto.
Qed.

Lemma timers_ok_close σ fd :
  timers_ok σ → fd ∈ fds (tm_kernel σ) → fd ≠ pon_timer_epoll_fd σ →
  (∀ a i, insts σ !! a = Some i → timer_fd i ≠ fd) → timers_ok (σ <| tm_kernel ::= k_close fd |>).
Proof.
  intros [H1 H2 H3 H4 H5 H6] Hfd He Hun. split; cbn; unfold k_close; try rewrite decide_True by done; cbn.
  - set_solver.
  - intros a i Hi Hn. destruct (H2 a i Hi Hn) as (? & ? & ?). pose proof (Hun _ _ Hi).
    split_and!; [done|set_solver|done].
  - done.
  - intros e I x a HI Hx. apply interest_close in HI as (J & HJ & ->).
    apply lookup_delete_Some in Hx as [_ Hx]. eauto.
  - intros x Hx. set_solver.
  - done.
Qed.

Lemma timers_ok_settime σ fd ns :
  timers_ok σ → timers_ok (σ <| tm_kernel ::= k_settime fd ns |>).
Proof. intros [H1 H2 H3 H4 H5 H6]. split; cbn; [done..| |done]. intros x Hx. set_solver. Qed.

Lemma timespec_exact ms : (0 ≤ ms < 2 ^ 64)%Z →
  timespec_ns (s64 (ms / 1000)) (s64 (ms `mod` 1000 * 1000000)) = (ms * 1000000)%Z ∧
  (0 ≤ s64 (ms `mod` 1000 * 1000000) < 1000000000)%Z.
Proof.
  intros Hms. pose proof (Z.mod_pos_bound ms 1000). pose proof (Z.div_mod ms 1000).
  assert (0 ≤ ms / 1000 < 2 ^ 63)%Z by (split; [apply Z.div_pos; lia|apply Z.div_lt_upper_bound; lia]).
  unfold timespec_ns. rewrite !wraps_small by lia. lia.
Qed.

(** What a successful creation leaves: the timer owns a fresh descriptor, armed
    with its interval, and the epoll instance, if there is one, leads back to it. *)
Record created_timer (σ σ' : tms) (a : positive) (i : ErtsTimerInstigation) : Prop := {
  ct_fresh : timer_fd (default i (insts σ' !! a)) ∉ fds (tm_kernel σ);
  ct_inst : ∃ fd, insts σ' = <[a := i <| timer_fd := fd |>]> (insts σ) ∧
    fds (tm_kernel σ') = {[fd]} ∪ fds (tm_kernel σ) ∧
    armed (tm_kernel σ') !! fd = Some (expiration_ms i * 1000000)%Z ∧
    (pon_timer_epoll_fd σ ≠ (-1)%Z → watched_timer σ' fd = Some a)
}.

Lemma fails_run σ c (Q : bool → tms → Prop) : Q (sys_fails (tm_kernel σ) c) σ → wp (fails c) Q σ.
Proof. done. Qed.

Lemma timers_ok_create σ a i fd ns k' :
  timers_ok σ → insts σ !! a = Some i → timer_fd i = (-1)%Z → fd ∉ fds (tm_kernel σ) → (0 ≤ fd)%Z →
  k' = k_settime fd ns (k_open fd (tm_kernel σ)) ∨
    pon_timer_epoll_fd σ ≠ (-1)%Z ∧
    k' = k_epoll_add (pon_timer_epoll_fd σ) fd a (k_settime fd ns (k_open fd (tm_kernel σ))) →
  timers_ok (mkTms (pon_timer_epoll_fd σ) (<[a := i <| timer_fd := fd |>]> (insts σ)) k' (tm_stats σ)).
Proof.
  intros [H1 H2 H3 H4 H5 H6] Hi Hno Hfd Hpos Hk.
  assert (fds k' = {[fd]} ∪ fds (tm_kernel σ) ∧ bad_closes k' = 0 ∧
    (∀ x, x ∈ expired k' → x ∈ expired (tm_kernel σ))) as (E1 & E2 & E3)
    by (destruct Hk as [->|[_ ->]]; cbn; split_and!; [done|done|set_solver|done|done|set_solver]).
  assert (∀ e I x b, interest k' !! e = Some I → I !! x = Some b →
    (x = fd ∧ b = a) ∨ ∃ J, interest (tm_kernel σ) !! e = Some J ∧ J !! x = Some b) as E4.
  { destruct Hk as [->|[_ ->]]; cbn; intros e I x b; [by eauto|].
    rewrite lookup_insert. case_decide as He; [|by eauto]. subst e.
    intros [= <-]. rewrite lookup_insert. case_decide as Hx; [intros [= <-]; by left|].
    intros Hb. right. destruct (interest (tm_kernel σ) !! _) as [J|]; [by eauto|].
    simpl in Hb. by rewrite lookup_empty in Hb. }
  assert (∀ b j, <[a := i <| timer_fd := fd |>]> (insts σ) !! b = Some j →
    (b = a ∧ timer_fd j = fd) ∨ (b ≠ a ∧ insts σ !! b = Some j)) as E5.
  { intros b j. rewrite lookup_insert. case_decide; [intros [= <-]; by left|by right]. }
  split; cbn.
  - intros He. rewrite E1. set_solver.
  - intros b j [[-> ->]|[_ Hj]]%E5 Hn; rewrite E1.
    + split_and!; [done|set_solver|]. intros ->. destruct (decide (pon_timer_epoll_fd σ = -1)%Z); [lia|]. auto.
    + destruct (H2 b j Hj Hn) as (? & ? & ?). split_and!; [done|set_solver|done].
  - intros b c j1 j2 [[-> Hj1]|[Hb Hj1]]%E5 [[-> Hj2]|[Hc Hj2]]%E5 He Hn; [done|..].
    + exfalso. destruct (H2 c j2 Hj2) as (_ & Hin & _); [congruence|]. rewrite <- He, Hj1 in Hin. done.
    + exfalso. destruct (H2 b j1 Hj1) as (_ & Hin & _); [congruence|]. rewrite He, Hj2 in Hin. done.
    + by eapply H3.
  - intros e I x b HI Hx. destruct (E4 e I x b HI Hx) as [[-> ->]|(J & HJ & Hb)].
    + eexists. rewrite lookup_insert_eq. split; [done|]. cbn. split; [done|lia].
    + destruct (H4 e J x b HJ Hb) as (j & Hj & Hjx & Hn). exists j. split; [|done].
      rewrite lookup_insert_ne; [done|]. intros <-. congruence.
  - intros x Hx%E3. rewrite E1. set_solver.
  - done.
Qed.

Lemma create_timer_spec σ a i :
  timers_ok σ → insts σ !! a = Some i → timer_fd i = (-1)%Z → (0 ≤ expiration_ms i < 2 ^ 64)%Z →
  wp (pon_timer_instigation_create (Some a)) (λ r σ', timers_ok σ' ∧
    pon_timer_epoll_fd σ' = pon_timer_epoll_fd σ ∧
    (r = 0%Z ∧ created_timer σ σ' a i ∧ (1 ≤ expiration_ms i)%Z ∨
     r = (-1)%Z ∧ insts σ' = insts σ ∧ fds (tm_kernel σ') = fds (tm_kernel σ))) σ.
Proof.
  intros Hok Hi Hno Hms. pose proof (timespec_exact _ Hms) as [Hns _].
  unfold pon_timer_instigation_create. wp_step. eapply wp_load_inst; [done|].
  case_decide as Hmin; [wp_step; split_and!; [done|done|by right]|].
  wp_step. apply wp_sys_open; [intros _; cbv beta; rewrite decide_True by done; wp_step;
    split_and!; [done|done|by right]|].
  intros fd _ Hfd Hpos. cbv beta. rewrite decide_False by lia.
  assert (∀ σ1, timers_ok σ → σ1 = σ <| tm_kernel ::= k_open fd |> ∨
      σ1 = σ <| tm_kernel ::= k_open fd |> <| tm_kernel ::= k_settime fd (expiration_ms i * 1000000) |> →
    timers_ok (σ1 <| tm_kernel ::= k_close fd |>) ∧
    fds (k_close fd (tm_kernel σ1)) = fds (tm_kernel σ) ∧ insts σ1 = insts σ ∧
    pon_timer_epoll_fd σ1 = pon_timer_epoll_fd σ) as Hfail.
  { intros σ1 _ H1. assert (timers_ok σ1 ∧ fd ∈ fds (tm_kernel σ1) ∧ pon_timer_epoll_fd σ1 = pon_timer_epoll_fd σ ∧
      insts σ1 = insts σ ∧ fds (tm_kernel σ1) = {[fd]} ∪ fds (tm_kernel σ)) as (H2 & H3 & H4 & H5 & H6).
    { pose proof (timers_ok_open σ fd Hok Hfd) as Ho. destruct H1 as [->| ->].
      - split; [exact Ho|]. cbn. split_and!; [set_solver|done..].
      - split; [by apply timers_ok_settime|]. cbn. split_and!; [set_solver|done..]. }
    split_and!; [|unfold k_close; rewrite decide_True by done; cbn; set_solver|done|done].
    apply timers_ok_close; [done|done| |].
    - rewrite H4. intros ->. destruct (decide (pon_timer_epoll_fd σ = -1)%Z); [lia|]. by apply Hfd, (to_epoll _ Hok).
    - intros b j. rewrite H5. intros Hj Hjf. destruct (to_open _ Hok b j Hj) as (_ & ? & _); [lia|]. congruence. }
  wp_step. apply fails_run. destruct (sys_fails _ (SysTimerfdSettime fd)).
  { destruct (Hfail _ Hok (or_introl eq_refl)) as (F1 & F2 & F3 & F4).
    wp_step. apply wp_upd_kernel. wp_step. split_and!; [exact F1|done|right; by split_and!]. }
  rewrite Hns. wp_step. apply wp_upd_kernel. wp_step. wp_step. cbn [pon_timer_epoll_fd update].
  destruct (Hfail _ Hok (or_intror eq_refl)) as (F1 & F2 & F3 & F4). clear Hfail.
  wp_step. destruct (decide (pon_timer_epoll_fd σ ≠ -1)%Z) as [He|He].
  - wp_step. apply fails_run. destruct (sys_fails _ (SysEpollAdd _ _)).
    { wp_step. wp_step. apply wp_upd_kernel. wp_step. split_and!; [exact F1|done|right; by split_and!]. }
    wp_step. apply wp_upd_kernel. wp_step. wp_step. eapply wp_upd_inst; [done|]. wp_step. split_and!.
    + apply (timers_ok_create σ a i fd (expiration_ms i * 1000000) _ Hok Hi Hno Hfd Hpos). right. by split.
    + done.
    + left. split_and!; [done| |unfold PON_TIMER_MIN_MS in *; lia]. split; cbn; [by rewrite lookup_insert_eq|].
      exists fd. split_and!; [done|done|by rewrite lookup_insert_eq|]. intros _. unfold watched_timer. cbn.
      rewrite lookup_insert_eq. simpl. by rewrite lookup_insert_eq.
  - wp_step. wp_step. eapply wp_upd_inst; [done|]. wp_step. split_and!.
    + apply (timers_ok_create σ a i fd (expiration_ms i * 1000000) _ Hok Hi Hno Hfd Hpos). by left.
    + done.
    + left. split_and!; [done| |unfold PON_TIMER_MIN_MS in *; lia]. split; cbn; [by rewrite lookup_insert_eq|].
      exists fd. split_and!; [done|done|by rewrite lookup_insert_eq|done].
Qed.

(** ** Cancellation *)

Definition cancelled (i : ErtsTimerInstigation) : ErtsTimerInstigation :=
  i <| timer_fd := (-1)%Z |> <| base ::= λ b, b <| fired := 1%Z |> |>.

Lemma timers_ok_cancel σ a i k' :
  timers_ok σ → insts σ !! a = Some i → timer_fd i ≠ (-1)%Z →
  fds k' = fds (tm_kernel σ) → expired k' = expired (tm_kernel σ) → bad_closes k' = 0 →
  (∀ e I, interest k' !! e = Some I → ∃ J, interest (tm_kernel σ) !! e = Some J ∧
     ∀ x b, I !! x = Some b → J !! x = Some b) →
  timers_ok (mkTms (pon_timer_epoll_fd σ) (<[a := cancelled i]> (insts σ)) (k_close (timer_fd i) k') (tm_stats σ)).
Proof.
  intros [H1 H2 H3 H4 H5 H6] Hi Hn Hf Hx Hb HI. destruct (H2 a i Hi Hn) as (Hpos & Hin & Hne).
  assert (∀ b j, <[a := cancelled i]> (insts σ) !! b = Some j → timer_fd j ≠ (-1)%Z →
    b ≠ a ∧ insts σ !! b = Some j ∧ timer_fd j ≠ timer_fd i) as Hback.
  { intros b j. rewrite lookup_insert. case_decide as Hba; [intros [= <-]; done|]. intros Hj Hnj.
    split_and!; [done|done|]. intros E. apply Hba. symmetry. by eapply H3. }
  split; cbn; unfold k_close; try rewrite decide_True by (by rewrite Hf); cbn; rewrite ?Hf, ?Hx.
  - set_solver.
  - intros b j Hj Hnj. destruct (Hback b j Hj Hnj) as (_ & Hj' & Hd).
    destruct (H2 b j Hj' Hnj) as (? & ? & ?). split_and!; [done|set_solver|done].
  - intros b c j1 j2 Hj1 Hj2 He Hnj. destruct (Hback b j1 Hj1 Hnj) as (_ & ? & _).
    destruct (Hback c j2 Hj2) as (_ & ? & _); [congruence|]. by eapply H3.
  - intros e I x b HeI Hxb. apply interest_close in HeI as (J & HJ & ->).
    apply lookup_delete_Some in Hxb as [Hxi Hxb]. destruct (HI e J HJ) as (J0 & HJ0 & Hsub).
    destruct (H4 e J0 x b HJ0 (Hsub _ _ Hxb)) as (j & Hj & Hjx & Hnx). exists j. split; [|done].
    rewrite lookup_insert_ne; [done|]. intros <-. congruence.
  - intros x. set_solver.
  - done.
Qed.

Lemma fds_close fd k : fd ∈ fds k → fds (k_close fd k) = fds k ∖ {[fd]}.
Proof. intros Hfd. unfold k_close. by rewrite decide_True. Qed.

Lemma close_unwatched fd k e : fd ∈ fds k → interest (k_close fd k) !! e ≫= (.!! fd) = None.
Proof.
  intros Hfd. unfold k_close. rewrite decide_True by done. cbn.
  destruct ((delete fd <$> delete fd (interest k)) !! e) as [I|] eqn:HI; [|done].
  apply interest_close in HI as (J & _ & ->). simpl. apply lookup_delete_eq.
Qed.

Lemma cancel_timer_spec σ a i :
  timers_ok σ → insts σ !! a = Some i →
  wp (pon_timer_instigation_cancel (Some a)) (λ _ σ', timers_ok σ' ∧
    (timer_fd i = (-1)%Z → σ' = σ) ∧
    (timer_fd i ≠ (-1)%Z → insts σ' = <[a := cancelled i]> (insts σ) ∧
       fds (tm_kernel σ') = fds (tm_kernel σ) ∖ {[timer_fd i]} ∧ watched_timer σ' (timer_fd i) = None)) σ.
Proof.
  intros Hok Hi. unfold pon_timer_instigation_cancel. wp_step. eapply wp_load_inst; [done|].
  destruct (decide (timer_fd i = -1)%Z) as [Hn|Hn]; [wp_step; by split_and!|].
  wp_step. wp_step. destruct (to_open _ Hok a i Hi Hn) as (_ & Hin & _).
  set (k' := if decide (pon_timer_epoll_fd σ ≠ -1)%Z
             then k_epoll_del (pon_timer_epoll_fd σ) (timer_fd i) (tm_kernel σ) else tm_kernel σ).
  wp_step. apply (wp_mono _ (λ _ σ', σ' = mkTms (pon_timer_epoll_fd σ) (insts σ) k' (tm_stats σ))).
  { unfold k'. case_decide; [by apply wp_upd_kernel|]. wp_step. by destruct σ. }
  intros [] σ1 ->. wp_step. apply wp_upd_kernel. eapply wp_upd_inst; [done|].
  assert (fds k' = fds (tm_kernel σ)) as Hf by (unfold k'; by case_decide).
  split_and!; [|intros E; by destruct (Hn E)|].
  - apply (timers_ok_cancel σ a i k'); [done|done|done|done|unfold k'; by case_decide|
      unfold k'; case_decide; apply (to_closes _ Hok)|].
    intros e I. unfold k'. case_decide; [|by eauto]. cbn. rewrite lookup_alter. case_decide; subst; [|by eauto].
    intros (J & HJ & ->)%fmap_Some. exists J. split; [done|]. intros x b Hx. by apply lookup_delete_Some in Hx as [_ ?].
  - intros _. cbn [insts tm_kernel update]. split; [done|]. rewrite fds_close, Hf by by rewrite Hf. split; [done|].
    unfold watched_timer. cbn [pon_timer_epoll_fd tm_kernel update]. apply close_unwatched. by rewrite Hf.
Qed.

(** ** Expiry *)

Definition fired_timer (i : ErtsTimerInstigation) : ErtsTimerInstigation :=
  i <| base ::= λ b, b <| fired := 1%Z |> |>.

(** The state after the timer [a] has fired. *)
Definition after_fire (σ : tms) (a : positive) (i : ErtsTimerInstigation) : tms :=
  mkTms (pon_timer_epoll_fd σ) (<[a := fired_timer i]> (insts σ))
    ((tm_kernel σ) <| expired ::= λ X, X ∖ {[timer_fd i]} |>)
    ((tm_stats σ) <| timerfd_expirations ::= PON_STATS_INC |>).

Lemma fire_run σ a i :
  insts σ !! a = Some i → timer_fd i ≠ (-1)%Z →
  wp (pon_timer_instigation_fire (Some a)) (λ _ σ',
    σ' = if decide (fired (base i) = 0%Z ∧ timer_fd i ∈ expired (tm_kernel σ)) then after_fire σ a i else σ) σ.
Proof.
  intros Hi Hn. unfold pon_timer_instigation_fire. wp_step. eapply wp_load_inst; [done|].
  destruct (decide (fired (base i) = 0%Z)) as [Hf|Hf].
  - rewrite (decide_False (P := fired (base i) ≠ 0%Z)) by (by intros E; apply E).
    rewrite decide_False by done. wp_step. wp_step. unfold k_read_timer. case_decide as Hx.
    + rewrite decide_True by done. wp_step. apply wp_upd_kernel. wp_step. eapply wp_upd_inst; [done|].
      wp_step. done.
    + rewrite decide_False by tauto. by wp_step.
  - rewrite decide_True by done. wp_step. rewrite decide_False by tauto. done.
Qed.

Lemma timers_ok_fire σ a i :
  timers_ok σ → insts σ !! a = Some i → timers_ok (after_fire σ a i).
Proof.
  intros [H1 H2 H3 H4 H5 H6] Hi.
  assert (∀ b j, <[a := fired_timer i]> (insts σ) !! b = Some j → ∃ j0, insts σ !! b = Some j0 ∧ timer_fd j0 = timer_fd j) as Hback.
  { intros b j. rewrite lookup_insert. case_decide; [intros [= <-]; subst; by exists i|by eauto]. }
  split; cbn; [done| | | | |done].
  - intros b j Hj. destruct (Hback b j Hj) as (j0 & Hj0 & <-). eauto.
  - intros b c j1 j2 Hj1 Hj2. destruct (Hback _ _ Hj1) as (? & ? & <-).
    destruct (Hback _ _ Hj2) as (? & ? & <-). eauto.
  - intros e I x b HI Hx. destruct (H4 e I x b HI Hx) as (j & Hj & Hjx).
    rewrite lookup_insert. case_decide; [|by eauto]. subst. assert (j = i) as -> by congruence. by exists (fired_timer i).
  - intros x Hx. apply H5. set_solver.
Qed.

(** The timer [a] has not fired. *)
Definition unfired (σ : tms) (a : positive) : bool :=
  match insts σ !! a with Some i => bool_decide (fired (base i) = 0%Z) | None => false end.

Definition count_expirations (n : nat) (s : PonStats) : PonStats :=
  Nat.iter n (λ s, s <| timerfd_expirations ::= PON_STATS_INC |>) s.

(** The timers that an expiry run has marked. *)
Definition mark_fired (σ : tms) (l : list positive) (a : positive) : option ErtsTimerInstigation :=
  if decide (a ∈ l) then (λ i, if decide (fired (base i) = 0%Z) then fired_timer i else i) <$> insts σ !! a
  else insts σ !! a.

Lemma process_events_run σ l processed :
  timers_ok σ → NoDup l →
  (∀ a, a ∈ l → ∃ i, insts σ !! a = Some i ∧ timer_fd i ≠ (-1)%Z ∧ timer_fd i ∈ expired (tm_kernel σ)) →
  wp (process_events (Some <$> l) (s32 processed)) (λ r σ', timers_ok σ' ∧
    r = s32 (processed + Z.of_nat (length l)) ∧ fds (tm_kernel σ') = fds (tm_kernel σ) ∧
    (∀ a, insts σ' !! a = mark_fired σ l a) ∧
    tm_stats σ' = count_expirations (length (filter (unfired σ) l)) (tm_stats σ)) σ.
Proof.
  revert σ processed. induction l as [|a l IH]; intros σ processed Hok Hnd Hl; cbn [fmap list_fmap process_events].
  - wp_step. split_and!; [done|by rewrite Z.add_0_r|done| |done]. intros a. unfold mark_fired.
    rewrite decide_False; [done|]. by intros ?%elem_of_nil.
  - apply NoDup_cons in Hnd as [Ha Hnd]. destruct (Hl a) as (i & Hi & Hn & Hx); [left|].
    wp_step. eapply wp_mono; [by apply (fire_run σ a i)|]. intros _ σ1 ->. cbv beta. rewrite wraps_add.
    assert (∀ b, b ∈ l → b ≠ a) as Hne by (intros b Hb ->; done).
    rewrite filter_cons. assert (unfired σ a = bool_decide (fired (base i) = 0%Z)) as Hua by (unfold unfired; by rewrite Hi).
    destruct (decide (fired (base i) = 0%Z)) as [Hf|Hf].
    + rewrite (decide_True (P := _ ∧ _)) by done. rewrite (decide_True (P := Is_true _)) by (by rewrite Hua, bool_decide_true).
      eapply wp_mono; [apply (IH (after_fire σ a i)); [by apply timers_ok_fire|done|]|].
      * intros b Hb. destruct (Hl b) as (j & Hj & Hnj & Hxj); [by right|]. exists j. cbn.
        rewrite lookup_insert_ne by (intros ->; by eapply Hne). split_and!; [done|done|].
        apply elem_of_difference. split; [done|]. rewrite elem_of_singleton. intros E.
        apply (Hne b Hb). by eapply (to_inj _ Hok b a).
      * intros r σ' (Hok' & -> & Hfd & Hins & Hst). split_and!; [done|cbn [length]; f_equal; lia|done| |].
        -- intros b. rewrite Hins. unfold mark_fired. cbn [after_fire insts].
           destruct (decide (b = a)) as [->|Hba].
           ++ rewrite decide_False, decide_True by (done || left). rewrite lookup_insert_eq, Hi. simpl. by rewrite decide_True.
           ++ rewrite lookup_insert_ne by done. rewrite (decide_ext (b ∈ a :: l) (b ∈ l)); [done|].
              rewrite elem_of_cons. naive_solver.
        -- rewrite Hst. cbn [after_fire tm_stats length]. unfold count_expirations.
           rewrite Nat.iter_succ_r. f_equal. f_equal. apply list_filter_ext. intros b Hb.
           unfold unfired. cbn. by rewrite lookup_insert_ne by (intros ->; by eapply Hne).
    + rewrite (decide_False (P := _ ∧ _)) by tauto. rewrite (decide_False (P := Is_true _)) by (rewrite Hua; intros ?%bool_decide_unpack; done).
      eapply wp_mono; [apply (IH σ); [done|done|intros b Hb; apply Hl; by right]|].
      intros r σ' (Hok' & -> & Hfd & Hins & Hst). split_and!; [done|cbn [length]; f_equal; lia|done| |done].
      intros b. rewrite Hins. unfold mark_fired. destruct (decide (b = a)) as [->|Hba].
      * rewrite decide_False, decide_True by (done || left). rewrite Hi. simpl. by rewrite decide_False.
      * rewrite (decide_ext (b ∈ a :: l) (b ∈ l)); [done|]. rewrite elem_of_cons. naive_solver.
Qed.

(** The timers that [epoll_wait] reports, in its order. *)
Definition reported (σ : tms) : list positive :=
  take PON_TIMER_MAX_EVENTS (omap (watched_timer σ) (ready_fds (tm_kernel σ) (pon_timer_epoll_fd σ))).

Lemma reported_ok σ :
  timers_ok σ → NoDup (omap (watched_timer σ) (ready_fds (tm_kernel σ) (pon_timer_epoll_fd σ))) ∧
  (λ fd, watched_timer σ fd) <$> ready_fds (tm_kernel σ) (pon_timer_epoll_fd σ) =
    Some <$> omap (watched_timer σ) (ready_fds (tm_kernel σ) (pon_timer_epoll_fd σ)) ∧
  ∀ a, a ∈ omap (watched_timer σ) (ready_fds (tm_kernel σ) (pon_timer_epoll_fd σ)) →
    ∃ i, insts σ !! a = Some i ∧ timer_fd i ≠ (-1)%Z ∧ timer_fd i ∈ expired (tm_kernel σ).
Proof.
  intros Hok.
  assert (∀ fd a, watched_timer σ fd = Some a → ∃ i, insts σ !! a = Some i ∧ timer_fd i = fd ∧ fd ≠ (-1)%Z) as Hw.
  { intros fd a. unfold watched_timer. destruct (interest (tm_kernel σ) !! pon_timer_epoll_fd σ) as [I|] eqn:HI; [|done].
    simpl. by eapply to_interest. }
  pose proof (ready_nodup (tm_kernel σ) (pon_timer_epoll_fd σ)) as Hnd.
  assert (∀ fd, fd ∈ ready_fds (tm_kernel σ) (pon_timer_epoll_fd σ) →
    fd ∈ expired (tm_kernel σ) ∧ is_Some (watched_timer σ fd)) as Hr by apply ready_watched.
  revert Hnd Hr. generalize (ready_fds (tm_kernel σ) (pon_timer_epoll_fd σ)) as l. intros l.
  induction l as [|fd l IH]; intros Hnd Hr.
  { split_and!; [constructor|done|by intros a ?%elem_of_nil]. }
  apply NoDup_cons in Hnd as [Hfd Hnd]. destruct (Hr fd) as [Hx [a Ha]]; [left|].
  destruct IH as (IH1 & IH2 & IH3); [done|intros x Hxl; apply Hr; by right|].
  destruct (Hw fd a Ha) as (i & Hi & Hif & Hn). cbn [omap list_omap fmap list_fmap]. rewrite Ha. split_and!.
  - apply NoDup_cons. split; [|done]. intros (fd' & Hl & Ha')%list_elem_of_omap.
    destruct (Hw fd' a Ha') as (j & Hj & Hjf & _). apply Hfd. congruence.
  - cbn [fmap list_fmap]. by f_equal.
  - intros b [->|Hb]%elem_of_cons; [|by apply IH3]. exists i. split_and!; congruence.
Qed.

Lemma process_spec σ :
  timers_ok σ → pon_timer_epoll_fd σ ≠ (-1)%Z →
  sys_fails (tm_kernel σ) (SysEpollWait (pon_timer_epoll_fd σ)) = false →
  wp pon_timer_process_expirations (λ r σ', timers_ok σ' ∧ r = Z.of_nat (length (reported σ)) ∧
    fds (tm_kernel σ') = fds (tm_kernel σ) ∧ (∀ a, insts σ' !! a = mark_fired σ (reported σ) a) ∧
    tm_stats σ' = count_expirations (length (filter (unfired σ) (reported σ))) (tm_stats σ)) σ.
Proof.
  intros Hok He Hf. unfold pon_timer_process_expirations. wp_step. wp_step. rewrite decide_False by done.
  wp_step. apply fails_run. rewrite Hf. destruct (reported_ok σ Hok) as (Hnd & Hev & Hin).
  change (λ fd, interest (tm_kernel σ) !! pon_timer_epoll_fd σ ≫= (.!! fd)) with (λ fd, watched_timer σ fd).
  rewrite Hev, <- fmap_take. fold (reported σ).
  eapply wp_mono.
  - apply (process_events_run σ (reported σ) 0); [done| |].
    + unfold reported. rewrite <- (take_drop PON_TIMER_MAX_EVENTS) in Hnd. by apply NoDup_app in Hnd as [? _].
    + intros a Ha. apply Hin. unfold reported in Ha. apply list_elem_of_lookup in Ha as [n [Ha _]%lookup_take_Some]. by eapply list_elem_of_lookup_2.
  - intros r σ' (H1 & -> & H2 & H3 & H4). split_and!; [done| |done|done|done].
    assert (length (reported σ) ≤ 64) by (unfold reported; rewrite length_take; unfold PON_TIMER_MAX_EVENTS; lia).
    rewrite wraps_small; lia.
Qed.

End timers.

(** ** Theorems *)

Section timer_theorems.
Context `{Laws : KernelLaws}.
Implicit Types (σ : tms) (a : positive).

(** Creating an inactive timer either returns 0, and then the timer owns a
    fresh descriptor that is armed with exactly [expiration_ms] milliseconds from
    now and is watched by the epoll instance if there is one, or returns -1, and
    then no descriptor stays open and no timer has changed. A timer shorter than
    one millisecond is always refused. *)
Theorem timer_create_arms σ a i :
  timers_ok σ → insts σ !! a = Some i → timer_fd i = (-1)%Z → (0 ≤ expiration_ms i < 2 ^ 64)%Z →
  ∃ r σ', pon_timer_instigation_create (Some a) σ = Some (r, σ') ∧ timers_ok σ' ∧
    (r = 0%Z ∧ (1 ≤ expiration_ms i)%Z ∧ created_timer σ σ' a i ∨
     r = (-1)%Z ∧ insts σ' = insts σ ∧ fds (tm_kernel σ') = fds (tm_kernel σ)).
Proof.
  intros Hok Hi Hn Hms. destruct (wp_elim _ _ _ (create_timer_spec σ a i Hok Hi Hn Hms)) as
    (r & σ' & Hr & Hok' & _ & [(-> & ? & ?)|(-> & ? & ?)]); eauto 15.
Qed.

(** C30: cancelling an active timer closes its descriptor, removes it from the
    epoll set and marks it fired; a second cancellation, or a late expiry, of the
    same timer does nothing, and no descriptor is ever closed twice. *)
Theorem timer_cancel_final σ a i :
  timers_ok σ → insts σ !! a = Some i → timer_fd i ≠ (-1)%Z →
  ∃ σ', pon_timer_instigation_cancel (Some a) σ = Some (tt, σ') ∧ timers_ok σ' ∧
    insts σ' = <[a := cancelled i]> (insts σ) ∧ fds (tm_kernel σ') = fds (tm_kernel σ) ∖ {[timer_fd i]} ∧
    watched_timer σ' (timer_fd i) = None ∧
    pon_timer_instigation_cancel (Some a) σ' = Some (tt, σ') ∧
    pon_timer_instigation_fire (Some a) σ' = Some (tt, σ').
Proof.
  intros Hok Hi Hn.
  destruct (wp_elim _ _ _ (cancel_timer_spec σ a i Hok Hi)) as ([] & σ' & Hr & Hok' & _ & Hc).
  destruct (Hc Hn) as (H1 & H2 & H3). exists σ'.
  assert (insts σ' !! a = Some (cancelled i)) as Hc' by (rewrite H1; apply lookup_insert_eq).
  split_and!; [done|done|done|done|done|..].
  - unfold pon_timer_instigation_cancel, load_inst, mbind, M_bind, get, deref. by rewrite Hc'.
  - unfold pon_timer_instigation_fire, load_inst, mbind, M_bind, get, deref. by rewrite Hc'.
Qed.

(** One pass over the expirations handles at most 64 events, marks exactly
    the reported timers as fired, counts in [timerfd_expirations] those that had
    not fired before, opens and closes nothing, and returns the number of events. *)
Theorem expirations_fire_once σ :
  timers_ok σ → pon_timer_epoll_fd σ ≠ (-1)%Z →
  sys_fails (tm_kernel σ) (SysEpollWait (pon_timer_epoll_fd σ)) = false →
  ∃ σ', pon_timer_process_expirations σ = Some (Z.of_nat (length (reported σ)), σ') ∧ timers_ok σ' ∧
    length (reported σ) ≤ 64 ∧ fds (tm_kernel σ') = fds (tm_kernel σ) ∧
    (∀ a, insts σ' !! a = mark_fired σ (reported σ) a) ∧
    tm_stats σ' = count_expirations (length (filter (unfired σ) (reported σ))) (tm_stats σ).
Proof.
  intros Hok He Hf.
  destruct (wp_elim _ _ _ (process_spec σ Hok He Hf)) as (r & σ' & Hr & H1 & -> & H2 & H3 & H4).
  exists σ'. split_and!; [done|done| |done|done|done].
  unfold reported. rewrite length_take. unfold PON_TIMER_MAX_EVENTS. lia.
Qed.

End timer_theorems.

(** A timer of 1500 ms, before and after its creation, and once it has expired. *)
Definition tm_after {A} (m : TmM A) (σ : tms) : tms := match m σ with Some (_, σ') => σ' | None => σ end.

Definition tm_start : tms :=
  mkTms (-1) {[1%positive := ERTS_INIT_TIMER_INSTIGATION (Some 9%positive) 5 1500]}
    (mkKernel ∅ ∅ ∅ ∅ 0) pon_stats_zero.
Definition tm_ready : tms := tm_after pon_timer_init tm_start.
Definition tm_running : tms := tm_after (pon_timer_instigation_create (Some 1%positive)) tm_ready.
Definition tm_expired : tms := tm_running <| tm_kernel ::= k_expire 1 |>.

(** The invariant of a state with at most one timer, from its computed parts. *)
Lemma timers_ok_single e i k s :
  (e ≠ (-1)%Z → e ∈ fds k) →
  (timer_fd i ≠ (-1)%Z → (0 ≤ timer_fd i)%Z ∧ timer_fd i ∈ fds k ∧ timer_fd i ≠ e) →
  (map_Forall (λ _ I, map_Forall (λ fd a, a = 1%positive ∧ timer_fd i = fd ∧ fd ≠ (-1)%Z) I) (interest k)) →
  set_Forall (λ fd, fd ∈ fds k) (expired k) → bad_closes k = 0 →
  timers_ok (mkTms e {[1%positive := i]} k s).
Proof.
  intros H1 H2 H3 H4 H5. split; cbn; [done| | | |done|done].
  - intros a j (<- & <-)%lookup_singleton_Some. done.
  - intros a b j j' (<- & <-)%lookup_singleton_Some (<- & <-)%lookup_singleton_Some. done.
  - intros e' I fd a HI Hfd. destruct (H3 _ _ HI _ _ Hfd) as (-> & <- & ?). exists i.
    by rewrite lookup_singleton_eq.
Qed.

Definition tm_inst : ErtsTimerInstigation := ERTS_INIT_TIMER_INSTIGATION (Some 9%positive) 5 1500.

Lemma tm_ready_eq :
  tm_ready = mkTms 0 {[1%positive := tm_inst]} (mkKernel {[0%Z]} ∅ ∅ ∅ 0) pon_stats_zero.
Proof. by vm_compute. Qed.

Lemma tm_ready_ok : timers_ok tm_ready.
Proof.
  rewrite tm_ready_eq. apply timers_ok_single; cbn; [set_solver|done|apply map_Forall_empty|by intros x ?%elem_of_empty|done].
Qed.

Definition tm_running_inst : ErtsTimerInstigation := tm_inst <| timer_fd := 1%Z |>.

Lemma tm_running_eq :
  tm_running = mkTms 0 {[1%positive := tm_running_inst]}
    (mkKernel {[0%Z; 1%Z]} {[1%Z := 1500000000%Z]} {[0%Z := {[1%Z := 1%positive]}]} ∅ 0) pon_stats_zero.
Proof. by vm_compute. Qed.

Lemma tm_expired_eq :
  tm_expired = mkTms 0 {[1%positive := tm_running_inst]}
    (mkKernel {[0%Z; 1%Z]} ∅ {[0%Z := {[1%Z := 1%positive]}]} {[1%Z]} 0) pon_stats_zero.
Proof. by vm_compute. Qed.

Lemma tm_running_ok : timers_ok tm_running ∧ timers_ok tm_expired.
Proof.
  rewrite tm_running_eq, tm_expired_eq.
  split; apply timers_ok_single; cbn; try done; try set_solver.
  all: intros e I (<- & <-)%lookup_singleton_Some; intros fd a (<- & <-)%lookup_singleton_Some; done.
Qed.

Lemma timer_create_arms_witness :
  ∃ r σ', pon_timer_instigation_create (Some 1%positive) tm_ready = Some (r, σ') ∧ timers_ok σ' ∧
    (r = 0%Z ∧ (1 ≤ expiration_ms tm_inst)%Z ∧ created_timer tm_ready σ' 1 tm_inst ∨
     r = (-1)%Z ∧ insts σ' = insts tm_ready ∧ fds (tm_kernel σ') = fds (tm_kernel tm_ready)).
Proof. apply (timer_create_arms tm_ready 1 tm_inst tm_ready_ok); [by vm_compute|done|by vm_compute]. Defined.

Lemma timer_cancel_final_witness :
  ∃ σ', pon_timer_instigation_cancel (Some 1%positive) tm_running = Some (tt, σ') ∧ timers_ok σ' ∧
    insts σ' = <[1%positive := cancelled tm_running_inst]> (insts tm_running) ∧
    fds (tm_kernel σ') = fds (tm_kernel tm_running) ∖ {[timer_fd tm_running_inst]} ∧
    watched_timer σ' (timer_fd tm_running_inst) = None ∧
    pon_timer_instigation_cancel (Some 1%positive) σ' = Some (tt, σ') ∧
    pon_timer_instigation_fire (Some 1%positive) σ' = Some (tt, σ').
Proof. apply (timer_cancel_final tm_running 1 tm_running_inst (proj1 tm_running_ok)); [by vm_compute|done]. Defined.

Lemma expirations_fire_once_witness :
  ∃ σ', pon_timer_process_expirations tm_expired = Some (Z.of_nat (length (reported tm_expired)), σ') ∧
    timers_ok σ' ∧ length (reported tm_expired) ≤ 64 ∧
    fds (tm_kernel σ') = fds (tm_kernel tm_expired) ∧
    (∀ a, insts σ' !! a = mark_fired tm_expired (reported tm_expired) a) ∧
    tm_stats σ' = count_expirations (length (filter (unfired tm_expired) (reported tm_expired))) (tm_stats tm_expired).
Proof. apply (expirations_fire_once tm_expired (proj2 tm_running_ok)); [by vm_compute|done]. Defined.
