(* ===== verification/PonCondition.v ===== *)
(** Model of [erts/emulator/beam/pon_condition.c] and [pon_condition.h]: the
    creation and destruction of a condition over the kernel's descriptors, and
    the lock-free protocol between notifying threads and the scheduler that
    waits, as a machine whose steps are single accesses to shared memory. *)

From S2P Require Import Prelude Kernel.
From stdpp Require Import base numbers list gmap sets.
From Stdlib Require Import ZArith.

(** ** Creation and destruction *)

Record ErtsCondition : Type := mkErtsCondition {
  wake_fd : Z;                 (* int *)
  epoll_fd : Z;                (* int *)
  satisfied : Z;               (* int *)
  ready_head : option positive;
  ready_tail : option positive;
  wakeup_count : Z;            (* uint64_t *)
  notify_count : Z             (* uint64_t *)
}.

#[global] Instance ErtsCondition_eta : Eta ErtsCondition := λ c,
  mkErtsCondition (wake_fd c) (epoll_fd c) (satisfied c) (ready_head c) (ready_tail c)
    (wakeup_count c) (notify_count c).

(** A condition object and the kernel. *)
Record cks : Type := mkCks { ck_cond : ErtsCondition; ck_kernel : kernel }.

#[global] Instance cks_eta : Eta cks := λ σ, mkCks (ck_cond σ) (ck_kernel σ).

Abbreviation CkM A := (M cks A).

Definition upd_cond (f : ErtsCondition → ErtsCondition) : CkM unit :=
  modify (λ σ, σ <| ck_cond ::= f |>).

(** The integer that [epoll_data_t] carries, as an epoll datum. *)
Definition data_fd (fd : Z) : positive := Z.to_pos (fd + 1).

Section lifecycle.
Context `{K : Kernel}.

Definition cond_open (c : syscall) : CkM Z :=
  σ ← get;
  if sys_fails (ck_kernel σ) c then mret (-1)%Z else
  modify (λ σ, σ <| ck_kernel ::= k_open (new_fd (fds (ck_kernel σ))) |>);;
  mret (new_fd (fds (ck_kernel σ))).

Definition cond_close (fd : Z) : CkM unit := modify (λ σ, σ <| ck_kernel ::= k_close fd |>).

Definition pon_condition_create : CkM Z :=
  wfd ← cond_open SysEventfd;
  upd_cond (λ c, c <| wake_fd := wfd |>);;
  if decide (wfd = -1)%Z then mret (-1)%Z else
  efd ← cond_open SysEpollCreate;
  upd_cond (λ c, c <| epoll_fd := efd |>);;
  if decide (efd = -1)%Z then cond_close wfd;; mret (-1)%Z else
  σ ← get;
  if sys_fails (ck_kernel σ) (SysEpollAdd efd wfd) then
    cond_close efd;; cond_close wfd;; mret (-1)%Z
  else
    modify (λ σ, σ <| ck_kernel ::= k_epoll_add efd wfd (data_fd wfd) |>);;
    upd_cond (λ c, c <| satisfied := 0%Z |> <| ready_head := NULL |> <| ready_tail := NULL |>
                     <| wakeup_count := 0%Z |> <| notify_count := 0%Z |>);;
    mret 0%Z.

Definition pon_condition_destroy : CkM unit :=
  σ ← get;
  (if decide (epoll_fd (ck_cond σ) ≠ -1)%Z then cond_close (epoll_fd (ck_cond σ)) else mret tt);;
  (if decide (wake_fd (ck_cond σ) ≠ -1)%Z then cond_close (wake_fd (ck_cond σ)) else mret tt);;
  upd_cond (λ c, c <| wake_fd := (-1)%Z |> <| epoll_fd := (-1)%Z |> <| satisfied := 0%Z |>
                   <| ready_head := NULL |>).

(** [None] is the null pointer. *)
Definition pon_condition_is_satisfied (c : option ErtsCondition) : Z * option ErtsCondition :=
  match c with
  | None => (0%Z, None)
  | Some c =>
      if decide (satisfied c ≠ 0)%Z then (1%Z, Some c) else
      match ready_head c with
      | Some _ => (1%Z, Some (c <| satisfied := 1%Z |>))
      | None => (0%Z, Some c)
      end
  end.

Definition pon_condition_get_epoll_fd (c : option ErtsCondition) : Z :=
  match c with Some c => epoll_fd c | None => (-1)%Z end.

End lifecycle.

(** ** The protocol

    The program counter of a thread inside [pon_condition_notify]: each
    constructor is the point before one access to shared memory. *)
Inductive npc : Type :=
  | NLoad (p : positive)                           (* old_head = load(ready_list) *)
  | NLink (p : positive) (old : option positive)   (* *node = old_head *)
  | NCas (p : positive) (old : option positive)    (* compare_exchange_weak *)
  | NCount (p : positive)                          (* notify_count++: the read *)
  | NCountStore (p : positive) (v : Z)             (* ... and the write *)
  | NTest (p : positive)                           (* if (!satisfied) *)
  | NSet (p : positive)                            (* satisfied = 1 *)
  | NWrite (p : positive).                         (* write(wake_fd) *)

(** The consumer: outside, inside [pon_condition_wait], or inside
    [pon_condition_try_dequeue]. *)
Inductive wpc : Type :=
  | WOut
  | WLoad                                          (* head = load(ready_list) *)
  | WCas (h : positive)                            (* compare_exchange_strong *)
  | WClear (h : positive)                          (* satisfied = 0 *)
  | WCount (h : positive)                          (* wakeup_count++ *)
  | WDrain (h : positive)                          (* while (read(wake_fd) > 0) *)
  | WTest                                          (* if (satisfied) *)
  | WRead                                          (* read(wake_fd) *)
  | WClearRetry                                    (* satisfied = 0; continue *)
  | WClearBlock                                    (* satisfied = 0, then epoll_wait *)
  | WEpoll                                         (* epoll_wait(-1) *)
  | WSet                                           (* satisfied = 1 *)
  | TLoad
  | TNext (h : positive)                           (* next = *node *)
  | TCas (h : positive) (next : option positive)
  | TClear (h : positive).                         (* satisfied = 0 *)

(** Shared memory, the threads, and ghost state: the processes in the ready
    list, those taken by the call in progress, and the histories of completed
    pushes and of deliveries to the caller. *)
Record conf `{V : EventFd} : Type := mkConf {
  c_ready : option positive;
  c_sat : Z;
  c_notified : Z;
  c_woken : Z;
  c_wake : efd;
  c_links : gmap positive (option positive);
  c_notifiers : gmap nat npc;
  c_waiter : wpc;
  g_queue : list positive;
  g_held : list positive;
  g_pushed : list positive;
  g_delivered : list positive
}.

#[global] Instance conf_eta `{V : EventFd} : Eta conf := λ c, mkConf _
  (c_ready c) (c_sat c) (c_notified c) (c_woken c) (c_wake c) (c_links c) (c_notifiers c)
  (c_waiter c) (g_queue c) (g_held c) (g_pushed c) (g_delivered c).

(** The process a notifier is still to push. *)
Definition npc_pushing (n : npc) : option positive :=
  match n with NLoad p | NLink p _ | NCas p _ => Some p | _ => None end.

Section protocol.
Context `{V : EventFd}.

Definition in_flight (c : conf) : list positive :=
  omap npc_pushing ((map_to_list (c_notifiers c)).*2).

(** What can happen next: a thread calls [pon_condition_notify], a notifier makes
    its next access, a weak compare-exchange fails spuriously, the consumer calls
    [pon_condition_wait] or [pon_condition_try_dequeue], or makes its next access,
    [epoll_wait] is interrupted, or returns for another descriptor that was
    registered with [pon_condition_get_epoll_fd]. *)
Inductive action : Type :=
  | ANotify (t : nat) (p : positive)
  | ANotifier (t : nat)
  | ASpurious (t : nat)
  | AWait
  | ATryDequeue
  | AConsumer
  | AInterrupt
  | AOtherFd.

Definition set_npc (t : nat) (n : npc) (c : conf) : conf := c <| c_notifiers ::= <[t := n]> |>.
Definition set_wpc (w : wpc) (c : conf) : conf := c <| c_waiter := w |>.

(** One access of [pon_condition_notify] by thread [t]. *)
Definition notifier_step (t : nat) (n : npc) (c : conf) : conf :=
  match n with
  | NLoad p => set_npc t (NLink p (c_ready c)) c
  | NLink p old => set_npc t (NCas p old) (c <| c_links ::= <[p := old]> |>)
  | NCas p old =>
      if decide (c_ready c = old) then
        set_npc t (NCount p)
          (c <| c_ready := Some p |> <| g_queue ::= cons p |> <| g_pushed ::= λ l, l ++ [p] |>)
      else set_npc t (NLoad p) c
  | NCount p => set_npc t (NCountStore p (u64 (c_notified c + 1))) c
  | NCountStore p v => set_npc t (NTest p) (c <| c_notified := v |>)
  | NTest p =>
      if decide (c_sat c = 0%Z) then set_npc t (NSet p) c
      else c <| c_notifiers ::= delete t |>
  | NSet p => set_npc t (NWrite p) (c <| c_sat := 1%Z |>)
  | NWrite p => c <| c_wake ::= efd_write |> <| c_notifiers ::= delete t |>
  end.

(** The call returns the chain that starts at its result. *)
Definition deliver (c : conf) : conf :=
  c <| c_waiter := WOut |> <| g_delivered ::= λ l, l ++ g_held c |> <| g_held := [] |>.

(** One access of the consumer; [None] while [epoll_wait] blocks. *)
Definition consumer_step (c : conf) : option conf :=
  match c_waiter c with
  | WOut => None
  | WLoad => Some (set_wpc (match c_ready c with Some h => WCas h | None => WTest end) c)
  | WCas h =>
      if decide (c_ready c = Some h) then
        Some (set_wpc (WClear h) (c <| c_ready := NULL |> <| g_held := g_queue c |> <| g_queue := [] |>))
      else Some (set_wpc WLoad c)
  | WClear h => Some (set_wpc (WCount h) (c <| c_sat := 0%Z |>))
  | WCount h => Some (set_wpc (WDrain h) (c <| c_woken ::= λ v, u64 (v + 1) |>))
  | WDrain h =>
      match efd_read (c_wake c) with
      | Some e => Some (c <| c_wake := e |>)
      | None => Some (deliver c)
      end
  | WTest => Some (set_wpc (if decide (c_sat c ≠ 0)%Z then WRead else WEpoll) c)
  | WRead =>
      match efd_read (c_wake c) with
      | Some e => Some (set_wpc WClearRetry (c <| c_wake := e |>))
      | None => Some (set_wpc WClearBlock c)
      end
  | WClearRetry => Some (set_wpc WLoad (c <| c_sat := 0%Z |>))
  | WClearBlock => Some (set_wpc WEpoll (c <| c_sat := 0%Z |>))
  | WEpoll => if efd_readable (c_wake c) then Some (set_wpc WSet c) else None
  | WSet => Some (set_wpc WLoad (c <| c_sat := 1%Z |>))
  | TLoad => Some (set_wpc (match c_ready c with Some h => TNext h | None => WOut end) c)
  | TNext h =>
      match c_links c !! h with Some nx => Some (set_wpc (TCas h nx) c) | None => None end
  | TCas h nx =>
      if decide (c_ready c = Some h) then
        let c' := c <| c_ready := nx |> <| g_held := [h] |> <| g_queue ::= tail |> in
        match nx with
        | None => Some (set_wpc (TClear h) c')
        | Some _ => Some (deliver c')
        end
      else Some (set_wpc WOut c)
  | TClear h => Some (deliver (c <| c_sat := 0%Z |>))
  end.

(** A process is neither queued nor being delivered, nor is another thread notifying
    it. The code does not test this, though the first word of a process is its link
    in the list; the theorems about the list suppose it of every notification. *)
Definition may_notify (c : conf) (p : positive) : Prop :=
  p ∉ g_queue c ++ g_held c ++ in_flight c.

#[global] Instance may_notify_dec c p : Decision (may_notify c p).
Proof. unfold may_notify. apply _. Defined.

Definition step (a : action) (c : conf) : option conf :=
  match a with
  | ANotify t p =>
      if decide (c_notifiers c !! t = None) then Some (set_npc t (NLoad p) c) else None
  | ANotifier t => match c_notifiers c !! t with Some n => Some (notifier_step t n c) | None => None end
  | ASpurious t =>
      match c_notifiers c !! t with Some (NCas p _) => Some (set_npc t (NLoad p) c) | _ => None end
  | AWait => match c_waiter c with WOut => Some (set_wpc WLoad c) | _ => None end
  | ATryDequeue => match c_waiter c with WOut => Some (set_wpc TLoad c) | _ => None end
  | AConsumer => consumer_step c
  | AInterrupt => match c_waiter c with WEpoll => Some (set_wpc WLoad c) | _ => None end
  | AOtherFd => match c_waiter c with WEpoll => Some (set_wpc WSet c) | _ => None end
  end.

Fixpoint run (acts : list action) (c : conf) : option conf :=
  match acts with
  | [] => Some c
  | a :: acts' => match step a c with Some c' => run acts' c' | None => None end
  end.

(** In the run no process is notified while it is queued, delivered or notified. *)
Fixpoint exclusive (acts : list action) (c : conf) : bool :=
  match acts with
  | [] => true
  | a :: acts' =>
      match a with ANotify _ p => bool_decide (may_notify c p) | _ => true end &&
      match step a c with Some c' => exclusive acts' c' | None => true end
  end.

(** The condition that [pon_condition_create] returns, with no thread inside. *)
Definition conf_init : conf := mkConf V NULL 0 0 0 efd_zero ∅ ∅ WOut [] [] [] [].

End protocol.
