(* ===== verification/PonConditionThms.v ===== *)
(** Properties of the condition protocol under every interleaving of notifiers
    with one consumer, and of the creation and destruction of conditions. *)

From S2P Require Import Prelude Kernel PonCondition.
From stdpp Require Import base tactics numbers list gmap sets fin_maps.
From Stdlib Require Import ZArith Lia.

(** ** The invariant of the protocol *)

Section protocol.
Context `{VL : EventFdLaws}.
Implicit Types (c : conf) (t : nat) (p : positive).

Definition flights (m : gmap nat npc) : list positive := omap npc_pushing (map_to_list m).*2.

Definition lk c (a : positive) : option (option positive) := c_links c !! a.

(** What the consumer knows at each of its program points. *)
Definition consumer_ok c : Prop :=
  match c_waiter c with
  | WClear h | WCount h | WDrain h => lseg (lk c) (Some h) (g_held c) None
  | TClear h => g_held c = [h]
  | TNext h => g_held c = [] ∧ h ∈ g_queue c
  | TCas h nx => g_held c = [] ∧ h ∈ g_queue c ∧ c_links c !! h = Some nx
  | _ => g_held c = []
  end.

Record conf_ok c : Prop := {
  iv_queue : lseg (lk c) (c_ready c) (g_queue c) None;
  iv_nodup : NoDup (g_queue c ++ g_held c ++ flights (c_notifiers c));
  iv_cas t p old : c_notifiers c !! t = Some (NCas p old) → c_links c !! p = Some old;
  iv_consumer : consumer_ok c;
  iv_history : g_pushed c ≡ₚ g_delivered c ++ g_held c ++ g_queue c
}.

Lemma flights_insert m t n :
  m !! t = None → flights (<[t := n]> m) ≡ₚ option_list (npc_pushing n) ++ flights m.
Proof.
  intros Hm. unfold flights. rewrite map_to_list_insert by done. simpl.
  by destruct (npc_pushing n).
Qed.

Lemma flights_delete m t n :
  m !! t = Some n → flights m ≡ₚ option_list (npc_pushing n) ++ flights (delete t m).
Proof.
  intros Hm. rewrite <- (insert_delete_id m t n Hm) at 1. apply flights_insert, lookup_delete_eq.
Qed.

Lemma flights_update m t n n' :
  m !! t = Some n → flights (<[t := n']> m) ≡ₚ option_list (npc_pushing n') ++ flights (delete t m).
Proof. intros Hm. rewrite <- insert_delete_eq. apply flights_insert, lookup_delete_eq. Qed.

Lemma flights_same m t n n' :
  m !! t = Some n → npc_pushing n' = npc_pushing n → flights (<[t := n']> m) ≡ₚ flights m.
Proof. intros Hm Hn. by rewrite (flights_update _ _ _ n' Hm), (flights_delete m t n Hm), Hn. Qed.

Lemma flights_done m t n :
  m !! t = Some n → npc_pushing n = None → flights (delete t m) ≡ₚ flights m.
Proof. intros Hm Hn. by rewrite (flights_delete m t n Hm), Hn. Qed.

Lemma flights_elem m t n p : m !! t = Some n → npc_pushing n = Some p → p ∈ flights m.
Proof.
  intros Hm Hn. unfold flights. apply list_elem_of_omap. exists n. split; [|done].
  apply list_elem_of_fmap. exists (t, n). split; [done|]. by apply elem_of_map_to_list.
Qed.

(** Changing only the program counter of a notifier that keeps what it pushes. *)
Lemma conf_ok_npc c t n n' :
  conf_ok c → c_notifiers c !! t = Some n → npc_pushing n' = npc_pushing n →
  (∀ p old, n' = NCas p old → c_links c !! p = Some old) → conf_ok (set_npc t n' c).
Proof.
  intros [H1 H2 H3 H4 H5] Hn Hp Hcas. split; cbn; [done| | |done|done].
  - by rewrite (flights_same _ _ _ n' Hn Hp).
  - intros t' p old. rewrite lookup_insert. case_decide; [intros [= ->]; by apply Hcas|by apply H3].
Qed.

(** Fields that the invariant does not mention. *)
Lemma conf_ok_ext c c' :
  conf_ok c → c_ready c' = c_ready c → c_links c' = c_links c → c_notifiers c' = c_notifiers c →
  c_waiter c' = c_waiter c → g_queue c' = g_queue c → g_held c' = g_held c →
  g_pushed c' = g_pushed c → g_delivered c' = g_delivered c → conf_ok c'.
Proof.
  intros [H1 H2 H3 H4 H5] E1 E2 E3 E4 E5 E6 E7 E8. unfold consumer_ok, lk in *.
  split; unfold consumer_ok, lk; rewrite ?E1, ?E2, ?E3, ?E4, ?E5, ?E6, ?E7, ?E8; done.
Qed.

Lemma conf_ok_finish c t n :
  conf_ok c → c_notifiers c !! t = Some n → npc_pushing n = None →
  conf_ok (c <| c_notifiers ::= delete t |>).
Proof.
  intros [H1 H2 H3 H4 H5] Hn Hp. split; cbn; [done| | |done|done].
  - by rewrite (flights_done _ _ _ Hn Hp).
  - intros t' p old [_ Ht]%lookup_delete_Some. by eapply H3.
Qed.

(** The write of the link of a process that is being pushed. *)
Lemma conf_ok_link c t p old :
  conf_ok c → c_notifiers c !! t = Some (NLink p old) →
  conf_ok (set_npc t (NCas p old) (c <| c_links ::= <[p := old]> |>)).
Proof.
  intros [H1 H2 H3 H4 H5] Hn. pose proof (flights_elem _ _ _ p Hn eq_refl) as Hf.
  assert (∀ a, a ∈ g_queue c ++ g_held c → a ≠ p) as Hne.
  { intros a Ha ->. rewrite app_assoc in H2. apply NoDup_app in H2 as (_ & H2 & _). by eapply H2. }
  assert (∀ a, a ∈ g_queue c ++ g_held c → <[p := old]> (c_links c) !! a = c_links c !! a) as Hlk
    by (intros a Ha; apply lookup_insert_ne; intros <-; by eapply Hne).
  split; cbn; [| | | |done].
  - eapply lseg_frame; [|exact H1]. intros a Ha. apply Hlk. set_solver.
  - by rewrite (flights_same _ _ _ (NCas p old) Hn eq_refl).
  - intros t' p' old'. rewrite lookup_insert. case_decide; [intros [= <- <-]; apply lookup_insert_eq|].
    intros Ht'. rewrite lookup_insert_ne; [by eapply H3|]. intros <-.
    rewrite (flights_delete _ _ _ Hn) in H2. simpl in H2. rewrite !app_assoc in H2.
    apply NoDup_app in H2 as (_ & _ & H2). apply NoDup_cons in H2 as [H2 _]. apply H2.
    eapply flights_elem; [by rewrite lookup_delete_ne|done].
  - unfold consumer_ok in *. cbn. destruct (c_waiter c); try done.
    1-3: (eapply lseg_frame; [|exact H4]; intros a Ha; apply Hlk; set_solver).
    destruct H4 as (? & ? & ?). split_and!; [done|done|]. rewrite Hlk; [done|set_solver].
Qed.

(** The compare-exchange that publishes a process. *)
Lemma conf_ok_push c t p :
  conf_ok c → c_notifiers c !! t = Some (NCas p (c_ready c)) →
  conf_ok (set_npc t (NCount p)
    (c <| c_ready := Some p |> <| g_queue ::= cons p |> <| g_pushed ::= λ l, l ++ [p] |>)).
Proof.
  intros [H1 H2 H3 H4 H5] Hn. split; cbn.
  - split; [done|]. exists (c_ready c). split; [by apply (H3 t)|done].
  - rewrite (flights_update _ _ _ (NCount p) Hn). rewrite (flights_delete _ _ _ Hn) in H2. simpl in *.
    eapply NoDup_Permutation_proper; [|exact H2]. rewrite !app_assoc.
    by rewrite Permutation_middle.
  - intros t' p' old'. rewrite lookup_insert. case_decide; [done|by apply H3].
  - unfold consumer_ok in *. cbn. destruct (c_waiter c); try done; set_solver.
  - rewrite H5, <- !app_assoc. do 2 f_equiv. by rewrite <- Permutation_cons_append.
Qed.

Lemma conf_ok_notifier c t n :
  conf_ok c → c_notifiers c !! t = Some n → conf_ok (notifier_step t n c).
Proof.
  intros Hok Hn. destruct n as [p|p old|p old|p|p v|p|p|p]; cbn [notifier_step].
  - by eapply conf_ok_npc.
  - by apply conf_ok_link.
  - case_decide as He.
    + apply conf_ok_push; [done|by rewrite He].
    + by eapply conf_ok_npc.
  - by eapply conf_ok_npc.
  - eapply conf_ok_npc; [by eapply conf_ok_ext|done|done|done].
  - case_decide; [by eapply conf_ok_npc|by eapply conf_ok_finish].
  - eapply conf_ok_npc; [by eapply conf_ok_ext|done|done|done].
  - eapply (conf_ok_finish (c <| c_wake ::= efd_write |>)); [by eapply conf_ok_ext|done|done].
Qed.

(** The consumer moves without touching the lists. *)
Lemma conf_ok_wpc c w :
  conf_ok c → (∀ c', c' = set_wpc w c → consumer_ok c') → conf_ok (set_wpc w c).
Proof. intros [H1 H2 H3 H4 H5] Hw. split; cbn; [done|done|done|by apply Hw|done]. Qed.

Lemma conf_ok_deliver c :
  conf_ok c → conf_ok (deliver c).
Proof.
  intros [H1 H2 H3 H4 H5]. split; cbn; [done| |done|done|].
  - apply NoDup_app in H2 as (Ha & Hb & Hc). apply NoDup_app in Hc as (_ & _ & Hc).
    apply NoDup_app. split_and!; [done| |done]. intros x Hx Hx'. eapply Hb; [done|]. set_solver.
  - by rewrite H5, <- app_assoc.
Qed.

Lemma conf_ok_held_nil c : conf_ok c → (∀ h, c_waiter c ≠ WClear h ∧ c_waiter c ≠ WCount h ∧
  c_waiter c ≠ WDrain h ∧ c_waiter c ≠ TClear h) → g_held c = [].
Proof.
  intros [_ _ _ H4 _] Hw. unfold consumer_ok in H4.
  destruct (c_waiter c) as [| |h|h|h|h| | | | | | | |h|h nx|h]; try done; specialize (Hw h); naive_solver.
Qed.

(** The consumer takes the whole list. *)
Lemma conf_ok_take c h :
  conf_ok c → c_ready c = Some h → g_held c = [] →
  conf_ok (set_wpc (WClear h) (c <| c_ready := NULL |> <| g_held := g_queue c |> <| g_queue := [] |>)).
Proof.
  intros [H1 H2 H3 H4 H5] Hr Hh. rewrite Hh in *. simpl in *. rewrite Hr in H1.
  split; cbn; [done|done|done|done|]. by rewrite H5, app_nil_r.
Qed.

(** The consumer takes the head of the list. *)
Lemma conf_ok_pop c h nx w :
  conf_ok c → c_ready c = Some h → g_held c = [] → c_links c !! h = Some nx →
  (∀ c', c_waiter c' = w → g_held c' = [h] → consumer_ok c') →
  conf_ok (set_wpc w (c <| c_ready := nx |> <| g_held := [h] |> <| g_queue ::= tail |>)).
Proof.
  intros [H1 H2 H3 H4 H5] Hr Hh Hl Hw. rewrite Hh in *. simpl in *. rewrite Hr in H1.
  destruct (g_queue c) as [|x q] eqn:Hq; [done|]. destruct H1 as ([= <-] & p' & Hn & H1).
  unfold lk in Hn. rewrite Hl in Hn. injection Hn as <-.
  split; cbn; rewrite ?Hq; [done| |done|by apply Hw|].
  - simpl in *. eapply NoDup_Permutation_proper; [|exact H2]. by rewrite Permutation_middle.
  - rewrite H5. simpl. done.
Qed.

Lemma deliver_set_wpc w c : deliver (set_wpc w c) = deliver c.
Proof. by destruct c. Qed.

Lemma conf_ok_consumer c c' :
  conf_ok c → consumer_step c = Some c' → conf_ok c'.
Proof.
  intros Hok. pose proof (iv_consumer _ Hok) as Hc. pose proof (conf_ok_held_nil c Hok) as Hnil.
  unfold consumer_step, consumer_ok in *.
  destruct (c_waiter c) as [| |h|h|h|h| | | | | | | |h|h nx|h] eqn:Hw; intros Hs; simplify_eq/=.
  - apply conf_ok_wpc; [done|]. intros c' ->. unfold consumer_ok. cbn. by destruct (c_ready c).
  - case_decide as Hr; simplify_eq.
    + by apply conf_ok_take.
    + apply conf_ok_wpc; [done|]. by intros c' ->.
  - apply conf_ok_wpc; [by eapply conf_ok_ext|]. by intros c' ->.
  - apply conf_ok_wpc; [by eapply conf_ok_ext|]. by intros c' ->.
  - destruct (efd_read (c_wake c)); simplify_eq; [by eapply conf_ok_ext|by apply conf_ok_deliver].
  - apply conf_ok_wpc; [done|]. intros c' ->. unfold consumer_ok. cbn. by case_decide.
  - destruct (efd_read (c_wake c)); simplify_eq.
    + apply conf_ok_wpc; [by eapply conf_ok_ext|]. by intros c' ->.
    + apply conf_ok_wpc; [done|]. by intros c' ->.
  - apply conf_ok_wpc; [by eapply conf_ok_ext|]. by intros c' ->.
  - apply conf_ok_wpc; [by eapply conf_ok_ext|]. by intros c' ->.
  - destruct (efd_readable (c_wake c)); simplify_eq. apply conf_ok_wpc; [done|]. by intros c' ->.
  - apply conf_ok_wpc; [by eapply conf_ok_ext|]. by intros c' ->.
  - apply conf_ok_wpc; [done|]. intros c' ->. unfold consumer_ok. cbn.
    pose proof (iv_queue _ Hok) as Hq. destruct (c_ready c) as [h|]; [|done]. split; [done|].
    destruct (g_queue c); [done|]. destruct Hq as ([= ->] & _). left.
  - destruct Hc as [Hh Hin]. destruct (c_links c !! h) eqn:Hl; simplify_eq.
    apply conf_ok_wpc; [done|]. by intros c' ->.
  - destruct Hc as (Hh & Hin & Hl). case_decide as Hr; simplify_eq.
    + destruct nx as [x|]; simplify_eq.
      * rewrite <- (deliver_set_wpc (TClear h)). apply conf_ok_deliver, conf_ok_pop; [done..|].
        intros c' E1 E2. unfold consumer_ok. by rewrite E1.
      * apply conf_ok_pop; [done..|]. intros c' E1 E2. unfold consumer_ok. by rewrite E1.
    + apply conf_ok_wpc; [done|]. by intros c' ->.
  - apply conf_ok_deliver. by eapply conf_ok_ext.
Qed.

Lemma in_flight_flights c : in_flight c = flights (c_notifiers c).
Proof. done. Qed.

Lemma conf_ok_epoll c w : conf_ok c → c_waiter c = WEpoll → w = WLoad ∨ w = WSet → conf_ok (set_wpc w c).
Proof.
  intros Hok Hw Hwl. apply conf_ok_wpc; [done|]. intros c' ->.
  pose proof (iv_consumer _ Hok) as Hc. unfold consumer_ok in *. rewrite Hw in Hc. by destruct Hwl as [-> | ->].
Qed.

Lemma conf_ok_step c a c' :
  conf_ok c → (∀ t p, a = ANotify t p → may_notify c p) → step a c = Some c' → conf_ok c'.
Proof.
  intros Hok Hex. destruct a as [t p|t|t| | | | |]; cbn [step].
  - specialize (Hex t p eq_refl) as Hp. case_decide as Ht; [|done]. intros [= <-]. destruct Hok as [H1 H2 H3 H4 H5].
    split; cbn; [done| | |done|done].
    + rewrite (flights_insert _ _ (NLoad p) Ht). simpl. unfold may_notify in Hp. rewrite in_flight_flights in Hp.
      rewrite !app_assoc in *. rewrite <- Permutation_middle. by apply NoDup_cons.
    + intros t' p' old. rewrite lookup_insert. case_decide; [done|by apply H3].
  - destruct (c_notifiers c !! t) as [n|] eqn:Hn; [|done]. intros [= <-]. by apply conf_ok_notifier.
  - destruct (c_notifiers c !! t) as [[]|] eqn:Hn; try done. intros [= <-]. by eapply conf_ok_npc.
  - destruct (c_waiter c) eqn:Hw; try done. intros [= <-]. apply conf_ok_wpc; [done|]. intros c' ->.
    pose proof (iv_consumer _ Hok) as Hc. unfold consumer_ok in *. by rewrite Hw in Hc.
  - destruct (c_waiter c) eqn:Hw; try done. intros [= <-]. apply conf_ok_wpc; [done|]. intros c' ->.
    pose proof (iv_consumer _ Hok) as Hc. unfold consumer_ok in *. by rewrite Hw in Hc.
  - by apply conf_ok_consumer.
  - destruct (c_waiter c) eqn:Hw; try done. intros [= <-]. apply conf_ok_epoll; auto.
  - destruct (c_waiter c) eqn:Hw; try done. intros [= <-]. apply conf_ok_epoll; auto.
Qed.

Lemma conf_ok_init : conf_ok conf_init.
Proof.
  split; cbn; [done| |done|done|done]. unfold flights. rewrite map_to_list_empty. constructor.
Qed.

Lemma conf_ok_run acts c c' : conf_ok c → exclusive acts c = true → run acts c = Some c' → conf_ok c'.
Proof.
  revert c. induction acts as [|a acts IH]; intros c Hok; cbn [run exclusive]; [by intros _ [= <-]|].
  intros [Ha Hex]%andb_true_iff. destruct (step a c) as [c1|] eqn:Hs; [|done]. apply IH; [|done].
  eapply conf_ok_step; [done| |done]. intros t p ->. by apply bool_decide_eq_true in Ha.
Qed.

(** A schedule that can be run to the end, and what holds there. *)
Definition runs acts c (Q : conf → Prop) : Prop := ∃ c', run acts c = Some c' ∧ Q c'.

Lemma runs_cons a acts c c1 Q : step a c = Some c1 → runs acts c1 Q → runs (a :: acts) c Q.
Proof. intros Hs (c' & Hr & HQ). exists c'. split; [|done]. cbn [run]. by rewrite Hs. Qed.

Lemma run_app acts acts' c c1 : run acts c = Some c1 → run (acts ++ acts') c = run acts' c1.
Proof.
  revert c. induction acts as [|a acts IH]; intros c; cbn [run app]; [by intros [= <-]|].
  destruct (step a c) as [c2|]; [apply IH|done].
Qed.

End protocol.

(** ** Creation and destruction *)

Section lifecycle.
Context `{Laws : KernelLaws}.
Implicit Types (σ : cks).

Lemma wp_cond_open σ c (Q : Z → cks → Prop) :
  (sys_fails (ck_kernel σ) c = true → Q (-1)%Z σ) →
  (∀ fd, fd = new_fd (fds (ck_kernel σ)) → fd ∉ fds (ck_kernel σ) → (0 ≤ fd)%Z → sys_fails (ck_kernel σ) c = false →
     Q fd (σ <| ck_kernel ::= k_open fd |>)) →
  wp (cond_open c) Q σ.
Proof.
  intros Hf Hs. unfold cond_open. wp_steps. destruct (sys_fails _ _) eqn:E; [by apply wp_ret, Hf|].
  wp_steps. apply Hs; [done|apply new_fd_fresh|apply new_fd_nonneg|done].
Qed.

Lemma k_close_open fd k : fd ∉ fds k → fds (k_close fd (k_open fd k)) = fds k ∧
  bad_closes (k_close fd (k_open fd k)) = bad_closes k.
Proof.
  intros Hfd. unfold k_close. rewrite decide_True by (cbn; set_solver). cbn. split; [set_solver|done].
Qed.

(** A condition that a successful creation leaves. *)
Record fresh_condition (k : kernel) (σ' : cks) : Prop := {
  fc_wake : (0 ≤ wake_fd (ck_cond σ'))%Z ∧ wake_fd (ck_cond σ') ∉ fds k;
  fc_epoll : (0 ≤ epoll_fd (ck_cond σ'))%Z ∧ (epoll_fd (ck_cond σ') ∉ fds k) ∧
    epoll_fd (ck_cond σ') ≠ wake_fd (ck_cond σ');
  fc_open : fds (ck_kernel σ') = {[wake_fd (ck_cond σ'); epoll_fd (ck_cond σ')]} ∪ fds k;
  fc_watched : (interest (ck_kernel σ') !! epoll_fd (ck_cond σ') ≫= (.!! wake_fd (ck_cond σ'))) =
    Some (data_fd (wake_fd (ck_cond σ')));
  fc_empty : satisfied (ck_cond σ') = 0%Z ∧ ready_head (ck_cond σ') = None ∧
    notify_count (ck_cond σ') = 0%Z ∧ wakeup_count (ck_cond σ') = 0%Z
}.

Lemma condition_create_run σ :
  wp pon_condition_create (λ r σ', r = 0%Z ∧ fresh_condition (ck_kernel σ) σ' ∨
    r = (-1)%Z ∧ fds (ck_kernel σ') = fds (ck_kernel σ) ∧
    bad_closes (ck_kernel σ') = bad_closes (ck_kernel σ)) σ.
Proof.
  unfold pon_condition_create. wp_step. apply wp_cond_open.
  { intros _. wp_step. apply wp_modify. rewrite decide_True by done. wp_step. by right. }
  intros w _ Hw Hw0 _. wp_step. apply wp_modify. rewrite decide_False by lia. wp_step. apply wp_cond_open.
  { intros _. wp_step. apply wp_modify. rewrite decide_True by done. wp_step. apply wp_modify. wp_step. right.
    split; [done|]. by apply k_close_open. }
  cbn [ck_kernel update]. intros e _ He He0 _. wp_step. apply wp_modify. rewrite decide_False by lia. wp_step. wp_step.
  cbn in He. destruct (sys_fails _ _).
  - wp_step. apply wp_modify. wp_step. apply wp_modify. wp_step. right. split; [done|]. cbn [ck_kernel update].
    destruct (k_close_open e (k_open w (ck_kernel σ)) He) as [E1 E2].
    unfold k_close at 1 3. rewrite decide_True; [|rewrite E1; cbn; set_solver].
    cbn -[k_close]. rewrite E1, E2. cbn. split; [set_solver|done].
  - wp_step. apply wp_modify. wp_step. apply wp_modify. wp_step. left. split; [done|]. split; cbn.
    + done.
    + split_and!; [done|set_solver|set_solver].
    + set_solver.
    + rewrite lookup_insert_eq. simpl. apply lookup_insert_eq.
    + done.
Qed.

End lifecycle.

(** One access of a notifier on an explicit state. *)
Ltac notifier_runs :=
  eapply runs_cons;
  [cbn; rewrite lookup_insert_eq; cbn; rewrite ?insert_insert_eq, ?decide_True by done; reflexivity|cbn].

(** ** Theorems *)

Section condition_theorems.

(** C5: whatever the interleaving of notifiers with one consumer that waits or
    dequeues, if no process is notified while it is queued, being delivered or
    notified by another thread, none is lost, duplicated or invented: the ready list
    is a null-terminated chain without repetitions, the processes pushed are exactly
    those delivered, being delivered, or still queued, and the chain a wait is about
    to return is intact in memory. *)
Theorem no_process_lost `{VL : EventFdLaws} acts (c : conf) :
  run acts conf_init = Some c → exclusive acts conf_init = true →
  lseg (λ a, c_links c !! a) (c_ready c) (g_queue c) None ∧
  NoDup (g_queue c ++ g_held c ++ in_flight c) ∧
  g_pushed c ≡ₚ g_delivered c ++ g_held c ++ g_queue c ∧
  (∀ h, c_waiter c = WDrain h → lseg (λ a, c_links c !! a) (Some h) (g_held c) None).
Proof.
  intros Hr Hex. destruct (conf_ok_run _ _ _ conf_ok_init Hex Hr) as [H1 H2 _ H4 H5].
  split_and!; [done|done|done|]. intros h Hw. unfold consumer_ok in H4. by rewrite Hw in H4.
Qed.

(** C29: a notification whose thread runs alone wakes a scheduler that sleeps in
    [epoll_wait] with [satisfied] reset: the wait returns the process notified
    followed by everything queued before it. *)
Theorem notify_wakes_sleeper `{VL : EventFdLaws} (c : conf) t p :
  conf_ok c → c_waiter c = WEpoll → c_sat c = 0%Z → c_notifiers c !! t = None → may_notify c p →
  ∃ c', run (ANotify t p :: replicate 8 (ANotifier t) ++ replicate 8 AConsumer) c = Some c' ∧
    c_waiter c' = WOut ∧ g_delivered c' = g_delivered c ++ p :: g_queue c ∧ g_queue c' = [].
Proof.
  intros Hok Hw Hs Ht Hp. pose proof (iv_consumer _ Hok) as Hh. unfold consumer_ok in Hh. rewrite Hw in Hh.
  destruct c as [rd sat nc wc e lks ns wt q hd pu de]. cbn in Hw, Hs, Ht, Hh. subst wt sat hd.
  cbn [replicate app g_delivered g_queue]. change (runs (ANotify t p :: replicate 8 (ANotifier t) ++ replicate 8 AConsumer)
    (mkConf _ rd 0 nc wc e lks ns WEpoll q [] pu de)
    (λ c', c_waiter c' = WOut ∧ g_delivered c' = de ++ p :: q ∧ g_queue c' = [])).
  apply runs_cons with (c1 := mkConf _ rd 0 nc wc e lks (<[t := NLoad p]> ns) WEpoll q [] pu de);
    [cbn; by rewrite decide_True|]. cbn [replicate app].
  do 8 notifier_runs.
  destruct (proj1 (efd_readable_read (efd_write e)) (efd_write_readable e)) as [e' He'].
  pose proof (efd_read_drains _ _ He') as Hdr.
  assert (efd_read e' = None) as Hnone.
  { destruct (efd_read e') eqn:E; [|done]. assert (efd_readable e' = true) by (apply efd_readable_read; eauto). congruence. }
  eapply runs_cons; [cbn; rewrite efd_write_readable; reflexivity|].
  do 2 (eapply runs_cons; [reflexivity|cbn]).
  eapply runs_cons; [cbn; rewrite decide_True by done; reflexivity|cbn].
  do 2 (eapply runs_cons; [reflexivity|cbn]).
  eapply runs_cons; [cbn; rewrite He'; reflexivity|cbn].
  eapply runs_cons; [cbn; rewrite Hnone; reflexivity|cbn].
  eexists. split; [reflexivity|]. done.
Qed.

(** Creating a condition returns 0 with an open eventfd, registered in an
    open epoll instance, an empty ready list and zero counters, or returns -1 and
    leaves every descriptor of the process as it was. *)
Theorem condition_create_no_leak `{KL : KernelLaws} σ :
  ∃ r σ', pon_condition_create σ = Some (r, σ') ∧
    (r = 0%Z ∧ fresh_condition (ck_kernel σ) σ' ∨
     r = (-1)%Z ∧ fds (ck_kernel σ') = fds (ck_kernel σ) ∧
     bad_closes (ck_kernel σ') = bad_closes (ck_kernel σ)).
Proof. destruct (wp_elim _ _ _ (condition_create_run σ)) as (r & σ' & Hr & H). eauto. Qed.

(** A creation that fails after the eventfd was opened leaves the closed
    descriptor in [wake_fd], so that destroying the condition closes it again. *)
Theorem failed_create_double_close `{KL : KernelLaws} σ :
  sys_fails (ck_kernel σ) SysEventfd = false →
  (∀ k, sys_fails k SysEpollCreate = true) →
  ∃ σ' σ'', pon_condition_create σ = Some ((-1)%Z, σ') ∧
    fds (ck_kernel σ') = fds (ck_kernel σ) ∧ (wake_fd (ck_cond σ') ∉ fds (ck_kernel σ')) ∧
    pon_condition_destroy σ' = Some (tt, σ'') ∧
    bad_closes (ck_kernel σ'') = S (bad_closes (ck_kernel σ)).
Proof.
  intros H1 H2. set (w := new_fd (fds (ck_kernel σ))).
  assert (w ∉ fds (ck_kernel σ)) as Hw by apply new_fd_fresh.
  assert (0 ≤ w)%Z as Hw0 by apply new_fd_nonneg.
  destruct (k_close_open w (ck_kernel σ) Hw) as [E1 E2].
  set (σ1 := mkCks ((ck_cond σ) <| wake_fd := w |> <| epoll_fd := (-1)%Z |>) (k_close w (k_open w (ck_kernel σ)))).
  exists σ1, (mkCks ((ck_cond σ1) <| wake_fd := (-1)%Z |> <| epoll_fd := (-1)%Z |> <| satisfied := 0%Z |>
    <| ready_head := NULL |>) (k_close w (ck_kernel σ1))).
  split_and!.
  - unfold pon_condition_create, cond_open, mbind, M_bind, get. rewrite H1. cbn -[decide k_close k_open].
    rewrite decide_False by (fold w; lia). by rewrite H2.
  - done.
  - cbn. by rewrite E1.
  - unfold pon_condition_destroy, mbind, M_bind, get. cbn -[decide k_close k_open]. rewrite decide_False by (intros E; by apply E).
    cbn -[decide k_close k_open]. by rewrite decide_True by lia.
  - cbn -[k_close]. unfold k_close at 1. rewrite decide_False by (by rewrite E1). cbn -[k_close]. by rewrite E2.
Qed.

End condition_theorems.

(** ** The lost wake-up *)

(** Thread 1 pushes process 1 and is preempted before it tests [satisfied]. The
    consumer takes the list and resets [satisfied]; thread 1 sets it and writes
    the eventfd, which the consumer drains before it returns. In the next wait
    the consumer finds the list empty; thread 2 pushes process 2, finds
    [satisfied] set and does not write; the consumer resets it and sleeps. *)
Definition lost_wakeup : list action :=
  [ANotify 1 1; ANotifier 1; ANotifier 1; ANotifier 1;
   AWait; AConsumer; AConsumer; AConsumer; AConsumer;
   ANotifier 1; ANotifier 1; ANotifier 1; ANotifier 1; ANotifier 1;
   AConsumer; AConsumer;
   AWait; AConsumer;
   ANotify 2 2; ANotifier 2; ANotifier 2; ANotifier 2; ANotifier 2; ANotifier 2; ANotifier 2;
   AConsumer; AConsumer; AConsumer].

Definition after_lost_wakeup : conf := default conf_init (run lost_wakeup conf_init).

(** Outcomes that evaluation decides. *)
Definition is_some {A} (o : option A) : bool := match o with Some _ => true | None => false end.

Lemma run_is_some acts : is_some (run acts conf_init) = true →
  run acts conf_init = Some (default conf_init (run acts conf_init)).
Proof. by destruct (run acts conf_init). Qed.

Lemma step_is_none a (c : conf) : is_some (step a c) = false → step a c = None.
Proof. by destruct (step a c). Qed.

(** C33: the protocol can lose a wake-up: there is an interleaving, in which no process
    is notified while it is queued, after which both notifications have completed, a
    process is in the ready list, and the consumer is blocked in [epoll_wait] on an
    eventfd that is not readable. *)
Theorem lost_wakeup_reachable :
  ∃ (acts : list action) (c : @conf counter_efd),
    run acts conf_init = Some c ∧ exclusive acts conf_init = true ∧ g_pushed c = [1%positive; 2%positive] ∧ c_notifiers c = ∅ ∧
    c_waiter c = WEpoll ∧ c_ready c = Some 2%positive ∧ step AConsumer c = None.
Proof.
  exists lost_wakeup, after_lost_wakeup. split; [apply run_is_some; by vm_compute|].
  do 5 (split; [by vm_compute|]). apply step_is_none. by vm_compute.
Qed.

(** A wait that two processes wake. *)
Definition two_pushed : list action :=
  ANotify 1 1 :: replicate 4 (ANotifier 1) ++ ANotify 2 2 :: replicate 4 (ANotifier 2) ++
  AWait :: replicate 4 AConsumer.

Definition after_two_pushed : conf := default conf_init (run two_pushed conf_init).

Lemma two_pushed_run : run two_pushed conf_init = Some after_two_pushed.
Proof. apply run_is_some. by vm_compute. Qed.

Lemma two_pushed_exclusive : exclusive two_pushed (@conf_init counter_efd) = true.
Proof. by vm_compute. Qed.

(** A process that is notified again while it is queued behind another: the list
    becomes a cycle. *)
Example notify_queued_cycles :
  let c := default conf_init (run (ANotify 1 1 :: replicate 8 (ANotifier 1) ++ ANotify 2 2 :: replicate 6 (ANotifier 2) ++
    ANotify 3 1 :: replicate 3 (ANotifier 3)) conf_init) in
  g_pushed c = [1; 2; 1]%positive ∧ c_ready c = Some 1%positive ∧
  c_links c !! 1%positive = Some (Some 2%positive) ∧ c_links c !! 2%positive = Some (Some 1%positive).
Proof. vm_compute. done. Qed.

Lemma no_process_lost_witness :
  lseg (λ a, c_links after_two_pushed !! a) (c_ready after_two_pushed) (g_queue after_two_pushed) None ∧
  NoDup (g_queue after_two_pushed ++ g_held after_two_pushed ++ in_flight after_two_pushed) ∧
  g_pushed after_two_pushed ≡ₚ g_delivered after_two_pushed ++ g_held after_two_pushed ++ g_queue after_two_pushed ∧
  (∀ h, c_waiter after_two_pushed = WDrain h →
     lseg (λ a, c_links after_two_pushed !! a) (Some h) (g_held after_two_pushed) None).
Proof. exact (no_process_lost two_pushed after_two_pushed two_pushed_run two_pushed_exclusive). Defined.

(** A scheduler that went to sleep on an empty list. *)
Definition asleep : conf := default conf_init (run [AWait; AConsumer; AConsumer] conf_init).

Lemma asleep_ok : conf_ok asleep.
Proof.
  apply (conf_ok_run [AWait; AConsumer; AConsumer] conf_init); [apply conf_ok_init|by vm_compute|].
  apply run_is_some. by vm_compute.
Qed.

Lemma notify_wakes_sleeper_witness :
  ∃ c', run (ANotify 1 7 :: replicate 8 (ANotifier 1) ++ replicate 8 AConsumer) asleep = Some c' ∧
    c_waiter c' = WOut ∧ g_delivered c' = g_delivered asleep ++ 7%positive :: g_queue asleep ∧ g_queue c' = [].
Proof.
  apply (notify_wakes_sleeper asleep 1 7 asleep_ok); [by vm_compute|by vm_compute|by vm_compute|].
  apply (bool_decide_unpack (may_notify asleep 7)). by vm_compute.
Defined.

(** A kernel that has no epoll instances left. *)
Definition no_epoll : Kernel :=
  {| new_fd := least_fd;
     sys_fails := λ _ c, match c with SysEpollCreate => true | _ => false end;
     ready_fds := λ _ _, [] |}.

Lemma no_epoll_laws : KernelLaws no_epoll.
Proof.
  split; cbn; [intros F HF; pose proof (least_fd_bound F _ HF); lia|apply least_fd_nonneg|
    by intros k e fd ?%elem_of_nil|constructor].
Qed.

Definition cond_start : cks := mkCks (mkErtsCondition 0 0 0 None None 0 0) (mkKernel {[5%Z]} ∅ ∅ ∅ 0).

Lemma condition_create_no_leak_witness :
  KernelLaws no_epoll ∧
  ∃ r σ', @pon_condition_create no_epoll cond_start = Some (r, σ') ∧
    (r = 0%Z ∧ fresh_condition (ck_kernel cond_start) σ' ∨
     r = (-1)%Z ∧ fds (ck_kernel σ') = fds (ck_kernel cond_start) ∧
     bad_closes (ck_kernel σ') = bad_closes (ck_kernel cond_start)).
Proof.
  split; [exact no_epoll_laws|].
  exact (@condition_create_no_leak no_epoll no_epoll_laws cond_start).
Defined.

Lemma failed_create_double_close_witness :
  ∃ σ' σ'', @pon_condition_create no_epoll cond_start = Some ((-1)%Z, σ') ∧
    fds (ck_kernel σ') = fds (ck_kernel cond_start) ∧ (wake_fd (ck_cond σ') ∉ fds (ck_kernel σ')) ∧
    pon_condition_destroy σ' = Some (tt, σ'') ∧
    bad_closes (ck_kernel σ'') = S (bad_closes (ck_kernel cond_start)).
Proof. apply (@failed_create_double_close no_epoll no_epoll_laws cond_start); done. Defined.
