(* ===== verification/ErlTerm.v ===== *)
(** The tagged words of [erts/emulator/beam/erl_term.h] that the modelled parts
    inspect and build, in the 64-bit release build: immediates carry their value
    above the tag, lists and boxed terms point into a heap of words, and a
    boxed term starts with a header that has its arity above the tag. *)

From S2P Require Import Prelude.
From stdpp Require Import base numbers list gmap.
From Stdlib Require Import ZArith Lia.

(** ** Tags *)

Definition TAG_PRIMARY_MASK : Z := 0x3.
Definition TAG_PRIMARY_HEADER : Z := 0x0.
Definition TAG_PRIMARY_LIST : Z := 0x1.
Definition TAG_PRIMARY_BOXED : Z := 0x2.
Definition TAG_PRIMARY_IMMED1 : Z := 0x3.
Definition TAG_IMMED1_SIZE : Z := 4.
Definition TAG_IMMED1_MASK : Z := 0xF.
Definition TAG_IMMED1_IMMED2 : Z := Z.lor (Z.shiftl 0x2 2) TAG_PRIMARY_IMMED1.
Definition TAG_IMMED1_SMALL : Z := Z.lor (Z.shiftl 0x3 2) TAG_PRIMARY_IMMED1.
Definition TAG_IMMED2_SIZE : Z := 6.
Definition TAG_IMMED2_MASK : Z := 0x3F.
Definition TAG_IMMED2_ATOM : Z := Z.lor (Z.shiftl 0x0 TAG_IMMED1_SIZE) TAG_IMMED1_IMMED2.
Definition TAG_IMMED2_NIL : Z := Z.lor (Z.shiftl 0x3 TAG_IMMED1_SIZE) TAG_IMMED1_IMMED2.
Definition TAG_HEADER_MASK : Z := 0x3F.
Definition HEADER_ARITY_OFFS : Z := 6.
Definition TAG_HEADER_ARITYVAL : Z := TAG_PRIMARY_HEADER.

(** ** Access macros *)

Definition THE_NON_VALUE : Z := TAG_PRIMARY_HEADER.
Definition is_non_value (x : Z) : bool := bool_decide (x = THE_NON_VALUE).

Definition SMALL_BITS : Z := 64 - 4.
Definition MAX_SMALL : Z := Z.shiftl 1 (SMALL_BITS - 1) - 1.
Definition MIN_SMALL : Z := - Z.shiftl 1 (SMALL_BITS - 1).

(** The arithmetic is on [Uint]; [signed_val] shifts a [Sint]. *)
Definition make_small (x : Z) : Z := u64 (u64 (Z.shiftl (u64 x) TAG_IMMED1_SIZE) + TAG_IMMED1_SMALL).
Definition is_small (x : Z) : bool := bool_decide (Z.land x TAG_IMMED1_MASK = TAG_IMMED1_SMALL).
Definition signed_val (x : Z) : Z := Z.shiftr (s64 x) TAG_IMMED1_SIZE.

Definition NIL : Z := TAG_IMMED2_NIL.
Definition is_nil (x : Z) : bool := bool_decide (x = NIL).

Definition MAX_ATOM_INDEX : Z := 2 ^ 58 - 1.
Definition make_atom (x : Z) : Z := u64 (u64 (Z.shiftl x TAG_IMMED2_SIZE) + TAG_IMMED2_ATOM).
Definition is_atom (x : Z) : bool := bool_decide (Z.land x TAG_IMMED2_MASK = TAG_IMMED2_ATOM).
Definition atom_val (x : Z) : Z := Z.shiftr x TAG_IMMED2_SIZE.

Definition make_list (a : Z) : Z := u64 (a + TAG_PRIMARY_LIST).
Definition is_list (x : Z) : bool := bool_decide (Z.land x TAG_PRIMARY_MASK = TAG_PRIMARY_LIST).
Definition list_val (x : Z) : Z := u64 (x - TAG_PRIMARY_LIST).

Definition make_boxed (a : Z) : Z := u64 (a + TAG_PRIMARY_BOXED).
Definition is_boxed (x : Z) : bool := bool_decide (Z.land x TAG_PRIMARY_MASK = TAG_PRIMARY_BOXED).
Definition boxed_val (x : Z) : Z := u64 (x - TAG_PRIMARY_BOXED).

Definition make_arityval (n : Z) : Z := u64 (u64 (Z.shiftl n HEADER_ARITY_OFFS) + TAG_HEADER_ARITYVAL).
Definition is_arity_value (x : Z) : bool := bool_decide (Z.land x TAG_HEADER_MASK = TAG_HEADER_ARITYVAL).
Definition arityval (x : Z) : Z := Z.shiftr x HEADER_ARITY_OFFS.

(** ** Headers *)

Definition MAKE_SUBTAG (Pattern : Z) : Z := Z.land (Z.shiftl Pattern 2) TAG_HEADER_MASK.
Definition BIG_TAG_MASK : Z := Z.land (Z.lnot (Z.shiftl 1 2)) TAG_HEADER_MASK.
Definition BIG_SIGN_BIT : Z := Z.shiftl 1 2.
Definition POS_BIG_SUBTAG : Z := MAKE_SUBTAG 0x2.
Definition NEG_BIG_SUBTAG : Z := MAKE_SUBTAG 0x3.
Definition TAG_HEADER_POS_BIG : Z := Z.lor TAG_PRIMARY_HEADER POS_BIG_SUBTAG.
Definition TAG_HEADER_NEG_BIG : Z := Z.lor TAG_PRIMARY_HEADER NEG_BIG_SUBTAG.
Definition REF_SUBTAG : Z := MAKE_SUBTAG 0x4.
Definition TAG_HEADER_REF : Z := Z.lor TAG_PRIMARY_HEADER REF_SUBTAG.
Definition FLOAT_SUBTAG : Z := MAKE_SUBTAG 0x6.
Definition TAG_HEADER_FLOAT : Z := Z.lor TAG_PRIMARY_HEADER FLOAT_SUBTAG.

Definition make_header (sz tag : Z) : Z := u64 (u64 (Z.shiftl sz HEADER_ARITY_OFFS) + tag).
Definition make_pos_bignum_header (sz : Z) : Z := make_header sz TAG_HEADER_POS_BIG.
Definition make_neg_bignum_header (sz : Z) : Z := make_header sz TAG_HEADER_NEG_BIG.
Definition is_bignum_header (x : Z) : bool := (Z.land x BIG_TAG_MASK =? TAG_HEADER_POS_BIG)%Z.
Definition bignum_header_is_neg (x : Z) : Z := Z.land x BIG_SIGN_BIT.

(** [header_arity] of a header that is neither a map's nor a fun's. *)
Definition bignum_header_arity (x : Z) : Z := Z.shiftr x HEADER_ARITY_OFFS.

Definition BIG_ARITY_MAX : Z := Z.shiftl 1 16 - 1.

(** Atoms are numbered in the order of [atom.names], which lists [false] and
    [true] first. *)
Definition am_false : Z := make_atom 0.
Definition am_true : Z := make_atom 1.

(** ** The heap

    Words by byte address; [word h a i] is [a[i]] of a word pointer [a]. *)
Abbreviation heap := (gmap Z Z).

Definition word (h : heap) (a i : Z) : option Z := h !! (a + 8 * i)%Z.

(** [is_tuple(x)] reads the header of a boxed term: [None] when it is unmapped. *)
Definition is_tuple (h : heap) (x : Z) : option bool :=
  if is_boxed x then is_arity_value <$> word h (boxed_val x) 0 else Some false.

(** ** The tagging scheme as an encoding *)

Inductive shape_of : Type :=
  | Small (z : Z)
  | Atom (i : Z)
  | Nil
  | Cons (a : Z)
  | Boxed (a : Z).

(** A word-aligned address that is not null. *)
Definition heap_ptr (a : Z) : Prop := (0 < a < 2 ^ 64 ∧ a `mod` 8 = 0)%Z.

Definition shape_ok (t : shape_of) : Prop :=
  match t with
  | Small z => (MIN_SMALL ≤ z ≤ MAX_SMALL)%Z
  | Atom i => (0 ≤ i ≤ MAX_ATOM_INDEX)%Z
  | Nil => True
  | Cons a | Boxed a => heap_ptr a
  end.

Definition encode_term (t : shape_of) : Z :=
  match t with
  | Small z => make_small z
  | Atom i => make_atom i
  | Nil => NIL
  | Cons a => make_list a
  | Boxed a => make_boxed a
  end.

(** Classification by the predicates of the header, in any order. *)
Definition decode_term (x : Z) : option shape_of :=
  if is_list x then Some (Cons (list_val x)) else
  if is_boxed x then Some (Boxed (boxed_val x)) else
  if is_small x then Some (Small (signed_val x)) else
  if is_nil x then Some Nil else
  if is_atom x then Some (Atom (atom_val x)) else None.

(** ** Lemmas *)

Lemma land_ones_mod x w : (0 ≤ w)%Z → Z.land x (2 ^ w - 1) = (x `mod` 2 ^ w)%Z.
Proof. intros. rewrite <- Z.land_ones by done. by rewrite Z.ones_equiv. Qed.

Lemma land_3 x : Z.land x 0x3 = (x `mod` 4)%Z.
Proof. apply (land_ones_mod x 2). done. Qed.

Lemma land_15 x : Z.land x 0xF = (x `mod` 16)%Z.
Proof. apply (land_ones_mod x 4). done. Qed.

Lemma land_63 x : Z.land x 0x3F = (x `mod` 64)%Z.
Proof. apply (land_ones_mod x 6). done. Qed.

Lemma u64_word z : u64 z = (z `mod` 18446744073709551616)%Z.
Proof. done. Qed.

Lemma make_small_word z : make_small z = (16 * (z `mod` 2 ^ 60) + 15)%Z.
Proof.
  unfold make_small, TAG_IMMED1_SIZE. rewrite Z.shiftl_mul_pow2 by done. unfold wrapu.
  change (2 ^ 64)%Z with (2 ^ 60 * 16)%Z. change TAG_IMMED1_SMALL with 15%Z. change (2 ^ 4)%Z with 16%Z.
  rewrite Zmult_mod_distr_r.
  assert ((z `mod` (2 ^ 60 * 16)) `mod` 2 ^ 60 = z `mod` 2 ^ 60)%Z as ->.
  { apply Z.mod_mod_divide. by exists 16%Z. }
  pose proof (Z.mod_pos_bound z (2 ^ 60)) as Hb. rewrite Z.mod_small; lia.
Qed.

Lemma make_atom_word i : (0 ≤ i ≤ MAX_ATOM_INDEX)%Z → make_atom i = (64 * i + 11)%Z.
Proof.
  unfold MAX_ATOM_INDEX, make_atom, TAG_IMMED2_SIZE. intros Hi.
  rewrite Z.shiftl_mul_pow2 by done. change TAG_IMMED2_ATOM with 11%Z.
  rewrite (wrapu_small 64 (i * 2 ^ 6)), wrapu_small; lia.
Qed.

Lemma make_list_word a : heap_ptr a → make_list a = (a + 1)%Z.
Proof.
  intros [? ?]. apply wrapu_small. unfold TAG_PRIMARY_LIST.
  pose proof (Z_div_mod_eq_full a 8). change (2 ^ 64)%Z with (8 * 2 ^ 61)%Z in *. lia.
Qed.

Lemma make_boxed_word a : heap_ptr a → make_boxed a = (a + 2)%Z.
Proof.
  intros [? ?]. apply wrapu_small. unfold TAG_PRIMARY_BOXED.
  pose proof (Z_div_mod_eq_full a 8). change (2 ^ 64)%Z with (8 * 2 ^ 61)%Z in *. lia.
Qed.

(** The predicates on a word whose low bits are known. *)
Lemma is_list_mod x : is_list x = bool_decide (x `mod` 4 = 1)%Z.
Proof. unfold is_list, TAG_PRIMARY_MASK. by rewrite land_3. Qed.
Lemma is_boxed_mod x : is_boxed x = bool_decide (x `mod` 4 = 2)%Z.
Proof. unfold is_boxed, TAG_PRIMARY_MASK. by rewrite land_3. Qed.
Lemma is_small_mod x : is_small x = bool_decide (x `mod` 16 = 15)%Z.
Proof. unfold is_small, TAG_IMMED1_MASK. by rewrite land_15. Qed.
Lemma is_atom_mod x : is_atom x = bool_decide (x `mod` 64 = 11)%Z.
Proof. unfold is_atom, TAG_IMMED2_MASK. by rewrite land_63. Qed.

Create Rewrite HintDb tags.
#[export] Hint Rewrite is_list_mod is_boxed_mod is_small_mod is_atom_mod : tags.

Ltac solve_tag :=
  autorewrite with tags; first
    [apply bool_decide_eq_true_2 | apply bool_decide_eq_false_2]; Z.to_euclidean_division_equations; lia.

Lemma is_list_make_list a : heap_ptr a → is_list (make_list a) = true.
Proof. intros H. rewrite make_list_word by done. destruct H. solve_tag. Qed.

Lemma list_val_make_list a : heap_ptr a → list_val (make_list a) = a.
Proof.
  intros H. rewrite make_list_word by done. unfold list_val, TAG_PRIMARY_LIST.
  replace (a + 1 - 1)%Z with a by lia. destruct H. by apply wrapu_small; lia.
Qed.

Lemma boxed_val_make_boxed a : heap_ptr a → boxed_val (make_boxed a) = a.
Proof.
  intros H. rewrite make_boxed_word by done. unfold boxed_val, TAG_PRIMARY_BOXED.
  replace (a + 2 - 2)%Z with a by lia. destruct H. by apply wrapu_small; lia.
Qed.

Lemma is_small_make_small z : is_small (make_small z) = true.
Proof. rewrite make_small_word. solve_tag. Qed.

Lemma is_list_make_small z : is_list (make_small z) = false.
Proof. rewrite make_small_word. solve_tag. Qed.

Lemma is_list_NIL : is_list NIL = false.
Proof. done. Qed.

Lemma signed_val_make_small z : (MIN_SMALL ≤ z ≤ MAX_SMALL)%Z → signed_val (make_small z) = z.
Proof.
  unfold MIN_SMALL, MAX_SMALL, SMALL_BITS. change (Z.shiftl 1 (64 - 4 - 1)) with (2 ^ 59)%Z. intros Hz.
  rewrite make_small_word. unfold signed_val, TAG_IMMED1_SIZE. rewrite Z.shiftr_div_pow2 by done.
  change (2 ^ 4)%Z with 16%Z.
  assert (z `mod` 2 ^ 60 = if decide (0 ≤ z)%Z then z else z + 2 ^ 60)%Z as ->.
  { case_decide; [by apply Z.mod_small; lia|].
    rewrite <- (Z_mod_plus_full z 1), Z.mod_small; lia. }
  assert (s64 (16 * (if decide (0 ≤ z) then z else z + 2 ^ 60) + 15) = 16 * z + 15)%Z as ->.
  { case_decide; unfold wraps; [rewrite Z.mod_small; lia|].
    replace (16 * (z + 2 ^ 60) + 15 + 2 ^ (64 - 1))%Z with (16 * z + 15 + 2 ^ 63 + 1 * 2 ^ 64)%Z by lia.
    rewrite Z_mod_plus_full, Z.mod_small; lia. }
  symmetry. apply (Z.div_unique _ 16 z 15); lia.
Qed.

(** Tagging is a faithful encoding: the predicates and accessors of the
    header give back exactly the small integer, atom, empty list, cons cell or
    boxed object that a constructor macro tagged, over the whole range of each. *)
Theorem term_tags_roundtrip t : shape_ok t → decode_term (encode_term t) = Some t.
Proof.
  unfold decode_term. destruct t as [z|i| |a|a]; cbn [encode_term shape_ok]; intros Ht.
  - rewrite is_list_make_small.
    assert (is_boxed (make_small z) = false) as -> by (rewrite make_small_word; solve_tag).
    by rewrite is_small_make_small, signed_val_make_small.
  - rewrite make_atom_word by done.
    assert (is_list (64 * i + 11) = false) as -> by solve_tag.
    assert (is_boxed (64 * i + 11) = false) as -> by solve_tag.
    assert (is_small (64 * i + 11) = false) as -> by solve_tag.
    assert (is_nil (64 * i + 11) = false) as ->.
    { apply bool_decide_eq_false_2. change NIL with 59%Z. lia. }
    assert (is_atom (64 * i + 11) = true) as -> by solve_tag.
    unfold atom_val, TAG_IMMED2_SIZE. rewrite Z.shiftr_div_pow2 by done. do 2 f_equal.
    symmetry. apply (Z.div_unique _ _ _ 11); lia.
  - done.
  - by rewrite is_list_make_list, list_val_make_list.
  - assert (is_list (make_boxed a) = false) as ->.
    { rewrite make_boxed_word by done. destruct Ht. solve_tag. }
    assert (is_boxed (make_boxed a) = true) as ->.
    { rewrite make_boxed_word by done. destruct Ht. solve_tag. }
    by rewrite boxed_val_make_boxed.
Qed.

Lemma term_tags_roundtrip_witness :
  decode_term (encode_term (Small (-576460752303423488))) = Some (Small (-576460752303423488)) ∧
  decode_term (encode_term (Cons 4096)) = Some (Cons 4096).
Proof. split; [apply (term_tags_roundtrip (Small _))|apply (term_tags_roundtrip (Cons 4096))]; by vm_compute. Defined.
