(* ===== verification/PonPremise.v ===== *)
(** Model of [erts/emulator/beam/pon_premise.c] and
    [erts/include/internal/pon_premise.h]: the list of premises of a process, in
    an explicit store, and the default matcher over the words of the heap. The
    notification and receive entry points return at once in the source, which
    keeps the rest of their bodies out of the build; so they do here. *)

From S2P Require Import Prelude ErtsAlloc PonStats ErlTerm.
From stdpp Require Import base numbers list gmap.
From Stdlib Require Import ZArith.

(** ** Data *)

Record ErtsPremise : Type := mkErtsPremise {
  pattern : Z;                    (* Eterm *)
  match_fn : option positive;
  has_match : Z;                  (* int *)
  matched_term : Z;               (* Eterm *)
  matched_msg : option positive;
  clause_index : Z;               (* Uint *)
  next_premise : option positive
}.

#[global] Instance ErtsPremise_eta : Eta ErtsPremise := λ p,
  mkErtsPremise (pattern p) (match_fn p) (has_match p) (matched_term p) (matched_msg p)
    (clause_index p) (next_premise p).

Definition ERTS_INIT_PREMISE (PAT : Z) (MATCH_FN : option positive) (CIDX : Z) : ErtsPremise :=
  mkErtsPremise PAT MATCH_FN 0 THE_NON_VALUE NULL CIDX NULL.

(** The field of the process, the allocated premises, the counters. *)
Record prs : Type := mkPrs {
  pon_premises : option positive;
  prems : gmap positive ErtsPremise;
  pr_stats : PonStats
}.

#[global] Instance prs_eta : Eta prs := λ σ, mkPrs (pon_premises σ) (prems σ) (pr_stats σ).

Abbreviation PrM A := (M prs A).

Definition load_prem (a : positive) : PrM ErtsPremise := σ ← get; deref (prems σ !! a).

Definition upd_prem (a : positive) (f : ErtsPremise → ErtsPremise) : PrM unit :=
  _ ← load_prem a; modify (λ σ, σ <| prems ::= alter f a |>).

Definition free_prem (a : positive) : PrM unit :=
  _ ← load_prem a; modify (λ σ, σ <| prems ::= delete a |>).

(** ** The arrival sequence: an atomic 64-bit counter *)

Definition erts_pon_next_msg_seq : M Z Z :=
  modify (λ pon_msg_seq, s64 (pon_msg_seq + 1));; v ← get; mret (u64 v).

(** ** The default matcher

    [None] is a read outside of the heap. *)

(** [for (i = i0; i < i0 + k; i++)] over the elements of two tuples. *)
Fixpoint match_elements (h : heap) (ptr_p ptr_t i : Z) (k : nat) : option Z :=
  match k with
  | O => Some 1%Z
  | S k' =>
      pe ← word h ptr_p i;
      if is_non_value pe then match_elements h ptr_p ptr_t (i + 1) k' else
      te ← word h ptr_t i;
      if decide (pe ≠ te) then Some 0%Z else match_elements h ptr_p ptr_t (i + 1) k'
  end.

Definition erts_pon_default_match (h : heap) (pattern term : Z) : option Z :=
  if decide (pattern = term) then Some 1%Z else
  tp ← is_tuple h pattern;
  tt ← (if tp : bool then is_tuple h term else Some false);
  if tt : bool then
    let ptr_p := boxed_val pattern in
    let ptr_t := boxed_val term in
    hp ← word h ptr_p 0;
    ht ← word h ptr_t 0;
    let arity_p := s32 (arityval hp) in
    let arity_t := s32 (arityval ht) in
    if decide (arity_p ≠ arity_t) then Some 0%Z
    else match_elements h ptr_p ptr_t 1 (Z.to_nat arity_p)
  else Some 0%Z.

(** ** Registration *)

(** [while (old) { next = old->next_premise; erts_free(old); old = next; }] *)
Fixpoint free_premises (fuel : nat) (old : option positive) : PrM unit :=
  match old, fuel with
  | None, _ => mret tt
  | Some _, O => ub
  | Some a, S f =>
      p ← load_prem a;
      free_prem a;;
      free_premises f (next_premise p)
  end.

Definition erts_pon_register_premises (premises : option positive) : PrM unit :=
  σ ← get;
  free_premises (size (prems σ)) (pon_premises σ);;
  modify (λ σ, σ <| pon_premises := premises |>);;
  modify (λ σ, σ <| pr_stats ::= λ t, t <| premises_registered ::= PON_STATS_INC |> |>).

Definition erts_pon_unregister_premises : PrM unit :=
  σ ← get;
  free_premises (size (prems σ)) (pon_premises σ);;
  modify (λ σ, σ <| pon_premises := NULL |>).

(** ** Arrival and receive *)

Definition erts_pon_notify_premises (msg : positive) (term : Z) : PrM Z :=
  σ ← get;
  match pon_premises σ with
  | None => mret 0%Z
  | Some _ => mret 0%Z
  end.

Definition erts_pon_receive : PrM Z := mret THE_NON_VALUE.

Definition erts_pon_advance_to_matched : PrM Z :=
  σ ← get;
  match pon_premises σ with
  | None => mret 0%Z
  | Some _ => mret 0%Z
  end.

(** The loop of [erts_pon_note_message_consumed]. *)
Fixpoint forget_message (fuel : nat) (prem : option positive) (msgp : positive) : PrM unit :=
  match prem, fuel with
  | None, _ => mret tt
  | Some _, O => ub
  | Some a, S f =>
      p ← load_prem a;
      (if decide (matched_msg p = Some msgp)
       then upd_prem a (λ p, p <| has_match := 0%Z |> <| matched_term := THE_NON_VALUE |>
                               <| matched_msg := NULL |>)
       else mret tt);;
      forget_message f (next_premise p) msgp
  end.

Definition erts_pon_note_message_consumed (msgp : positive) : PrM unit :=
  σ ← get; forget_message (size (prems σ)) (pon_premises σ) msgp.
