(* ===== verification/PonBifs.v ===== *)
(** Model of the PON built-in functions of [erts/emulator/beam/bif.c]: the
    arguments are terms in the heap of the calling process, the functions drive
    the premises and the notification collector of that process. *)

From S2P Require Import Prelude ErtsAlloc PonStats ErlTerm PonPremise PonGc.
From stdpp Require Import base numbers list gmap sets strings.
From Stdlib Require Import ZArith.

(** ** The calling process

    Its heap, its premises, its collector and the temporary blocks of
    [ERTS_ALC_T_TMP] that were not freed. *)
Record proc : Type := mkProc {
  p_heap : heap;
  p_premises : option positive;
  p_prems : gmap positive ErtsPremise;
  p_gc : option PonGcState;
  p_nodes : gmap positive PonGcNode;
  p_blobs : gset positive;
  p_tmp : gset positive;
  p_stats : PonStats
}.

#[global] Instance proc_eta : Eta proc := λ σ,
  mkProc (p_heap σ) (p_premises σ) (p_prems σ) (p_gc σ) (p_nodes σ) (p_blobs σ) (p_tmp σ) (p_stats σ).

Abbreviation BIF A := (M proc A).

(** What a built-in function returns: a value, or the error [badarg]. *)
Inductive BIF_RETTYPE (A : Type) : Type :=
  | BIF_RET (x : A)
  | BADARG.
Arguments BIF_RET {A} x.
Arguments BADARG {A}.

(** The premises and the collector are components with a state of their own. *)
Definition prs_of (σ : proc) : prs := mkPrs (p_premises σ) (p_prems σ) (p_stats σ).
Definition gcs_of (σ : proc) : gcs := mkGcs (p_gc σ) (p_nodes σ) (p_blobs σ) (p_stats σ).

Definition with_prs (r : prs) (σ : proc) : proc :=
  σ <| p_premises := pon_premises r |> <| p_prems := prems r |> <| p_stats := pr_stats r |>.
Definition with_gcs (g : gcs) (σ : proc) : proc :=
  σ <| p_gc := pon_gc g |> <| p_nodes := nodes g |> <| p_blobs := blobs g |> <| p_stats := stats g |>.

Definition on_prs {A} (m : PrM A) : BIF A := λ σ,
  match m (prs_of σ) with Some (x, r) => Some (x, with_prs r σ) | None => None end.
Definition on_gcs {A} (m : G A) : BIF A := λ σ,
  match m (gcs_of σ) with Some (x, g) => Some (x, with_gcs g σ) | None => None end.

(** [lp[i]] for a cons cell. *)
Definition list_word (l i : Z) : BIF Z := σ ← get; deref (word (p_heap σ) (list_val l) i).

(** The heap factory. [erts_produce_heap] returns the address of unused words;
    [heap_room h k] tells that [k] more cons cells can be produced. *)
Class HeapFactory : Type := {
  produce_heap : heap → Z → Z;
  heap_room : heap → nat → Prop
}.

(** The code relies on the words being aligned and not in use. *)
Class HeapFactoryLaws (F : HeapFactory) : Prop := {
  produce_ptr h k : heap_room h (S k) → heap_ptr (produce_heap h 2);
  produce_fresh h k i : heap_room h (S k) → (0 ≤ i < 2)%Z → h !! (produce_heap h 2 + 8 * i)%Z = None;
  produce_room h k v w : heap_room h (S k) →
    heap_room (<[(produce_heap h 2 + 8)%Z := w]> (<[produce_heap h 2 := v]> h)) k
}.

Section bifs.
Context `{Alloc : Allocator} `{Factory : HeapFactory}.

(** [erts_alloc] ends the emulator when memory is exhausted. *)
Definition SIZEOF_PREMISE : Z := 56.
Definition SIZEOF_SINT : Z := 8.

(** ** Premises *)

(** The loop that allocates a premise per element; [tail] is the field the next
    premise is stored in ([None]: the local variable [prems]). Returns [prems] and
    the rest of the list. *)
Fixpoint alloc_premises (fuel : nat) (l : Z) (idx : Z) (head tail : option positive) :
    BIF (option positive * Z) :=
  if is_list l then
    match fuel with
    | O => ub
    | S f =>
        pat ← list_word l 0;
        σ ← get;
        prem ← deref (alloc (dom (p_prems σ)) SIZEOF_PREMISE);
        on_prs (modify (λ r, r <| prems ::= <[prem := ERTS_INIT_PREMISE pat NULL idx]> |>);;
                match tail with
                | Some t => upd_prem t (λ p, p <| next_premise := Some prem |>)
                | None => mret tt
                end);;
        l' ← list_word l 1;
        alloc_premises f l' (u64 (idx + 1))
          (match head with Some _ => head | None => Some prem end) (Some prem)
    end
  else mret (head, l).

Definition pon_register_premises_1 (BIF_ARG_1 : Z) : BIF (BIF_RETTYPE Z) :=
  if is_list BIF_ARG_1 then
    σ ← get;
    '(premises, l) ← alloc_premises (size (p_heap σ)) BIF_ARG_1 0 NULL NULL;
    if decide (l ≠ NIL) then
      (σ ← get; on_prs (free_premises (size (p_prems σ)) premises));;
      mret BADARG
    else
      on_prs (erts_pon_register_premises premises);;
      mret (BIF_RET am_true)
  else mret BADARG.

Definition pon_unregister_premises_0 : BIF (BIF_RETTYPE Z) :=
  on_prs erts_pon_unregister_premises;; mret (BIF_RET am_true).

(** ** The collector *)

Definition free_tmp (a : positive) : BIF unit :=
  σ ← get;
  if decide (a ∈ p_tmp σ) then modify (λ σ, σ <| p_tmp ::= λ T, T ∖ {[a]} |>) else ub.

(** The loop over the sizes: [ids] is the array [ids[0..n)], [cap] its capacity.
    [None] is a jump to the [badarg] error, which leaves everything as it is. *)
Fixpoint register_loop (fuel : nat) (l : Z) (ids : list Z) (cap : Z) : BIF (option (list Z * Z)) :=
  if is_list l then
    match fuel with
    | O => ub
    | S f =>
        h ← list_word l 0;
        if negb (is_small h) then mret None else
        let size := signed_val h in
        if decide (size < 0)%Z then mret None else
        σ ← get;
        payload ← (if decide (0 < size)%Z then
                     d ← deref (alloc (used_blocks (gcs_of σ)) size);
                     on_gcs (modify (λ g, g <| blobs ::= λ B, {[d]} ∪ B |>));;
                     mret (Some d)
                   else mret NULL);
        node ← on_gcs (pon_gc_node_create payload size);
        match node with
        | None =>
            match payload with Some d => on_gcs (free_blob d) | None => mret tt end;;
            mret None
        | Some a =>
            let cap := if decide (Z.of_nat (length ids) = cap) then s32 (cap * 2) else cap in
            n ← on_gcs (load a);
            l' ← list_word l 1;
            register_loop f l' (ids ++ [s64 (id n)]) cap
        end
    end
  else mret (Some (ids, l)).

(** [for (i = n - 1; i >= 0; i--)]: conses the identifiers in front of [res]. *)
Fixpoint make_ids (rev_ids : list Z) (res : Z) : BIF Z :=
  match rev_ids with
  | [] => mret res
  | i :: rest =>
      σ ← get;
      let hp := produce_heap (p_heap σ) 2 in
      modify (λ σ, σ <| p_heap ::= λ h, <[(hp + 8)%Z := res]> (<[hp := make_small i]> h) |>);;
      make_ids rest (make_list hp)
  end.

Definition pon_gc_register_objects_1 (BIF_ARG_1 : Z) : BIF (BIF_RETTYPE Z) :=
  if is_list BIF_ARG_1 then
    ok ← on_gcs erts_pon_gc_state;
    if negb ok then mret BADARG else
    σ ← get;
    tmp ← deref (alloc (p_tmp σ) (16 * SIZEOF_SINT));
    modify (λ σ, σ <| p_tmp ::= λ T, {[tmp]} ∪ T |>);;
    r ← register_loop (size (p_heap σ)) BIF_ARG_1 [] 16;
    match r with
    | None => mret BADARG
    | Some (ids, l) =>
        if decide (l ≠ NIL) then mret BADARG else
        res ← make_ids (rev ids) NIL;
        free_tmp tmp;;
        mret (BIF_RET res)
    end
  else mret BADARG.

Definition pon_gc_add_root_1 (BIF_ARG_1 : Z) : BIF (BIF_RETTYPE Z) :=
  if negb (is_small BIF_ARG_1) then mret BADARG else
  let id := signed_val BIF_ARG_1 in
  ok ← on_gcs erts_pon_gc_state;
  if negb ok then mret (BIF_RET am_false) else
  node ← on_gcs (pon_gc_node_by_id (u64 id));
  match node with
  | None => mret (BIF_RET am_false)
  | Some _ => on_gcs (pon_gc_add_root node);; mret (BIF_RET am_true)
  end.

Definition pon_gc_add_ref_2 (BIF_ARG_1 BIF_ARG_2 : Z) : BIF (BIF_RETTYPE Z) :=
  if negb (is_small BIF_ARG_1) || negb (is_small BIF_ARG_2) then mret BADARG else
  let fid := signed_val BIF_ARG_1 in
  let tid := signed_val BIF_ARG_2 in
  ok ← on_gcs erts_pon_gc_state;
  if negb ok then mret (BIF_RET am_false) else
  from ← on_gcs (pon_gc_node_by_id (u64 fid));
  to ← on_gcs (pon_gc_node_by_id (u64 tid));
  match from, to with
  | Some _, Some _ => on_gcs (pon_gc_add_ref from to);; mret (BIF_RET am_true)
  | _, _ => mret (BIF_RET am_false)
  end.

(** The map returned: its keys are atoms, given by name, its values tagged with
    [make_small]. *)
Definition pon_gc_collect_0 : BIF (BIF_RETTYPE (list (string * Z))) :=
  ok ← on_gcs erts_pon_gc_state;
  if negb ok then mret BADARG else
  removed ← on_gcs pon_gc_mark_sweep;
  gc ← on_gcs get_gc;
  on_gcs (modify (λ g, g <| stats ::= λ t,
    t <| gc_notifications_sent ::= PON_STATS_ADD (notifications_sent gc) |>
      <| gc_scans_avoided ::= PON_STATS_ADD removed |>
      <| gc_incremental_steps ::= PON_STATS_INC |> |>));;
  mret (BIF_RET [
    ("collected", make_small (s64 removed));
    ("live", make_small (s64 (live_nodes gc)));
    ("total", make_small (s64 (total_nodes gc)));
    ("notifications_sent", make_small (s64 (notifications_sent gc)));
    ("scans", make_small (s64 (scan_count gc)));
    ("bytes_freed", make_small (s64 (bytes_freed gc)));
    ("cycles", make_small (s64 (cycles gc)));
    ("scans_avoided", make_small (s64 removed))]%string).

Definition pon_gc_dump_0 : BIF (BIF_RETTYPE (list (string * Z))) :=
  ok ← on_gcs erts_pon_gc_state;
  if negb ok then mret BADARG else
  gc ← on_gcs get_gc;
  mret (BIF_RET [
    ("total", make_small (s64 (total_nodes gc)));
    ("live", make_small (s64 (live_nodes gc)));
    ("dead", make_small (s64 (dead_nodes gc)));
    ("notifications_sent", make_small (s64 (notifications_sent gc)));
    ("scans", make_small (s64 (scan_count gc)));
    ("cycles", make_small (s64 (cycles gc)))]%string).

End bifs.

(** ** A build without [PON_BEAM]

    The functions are then linked as stubs that fail. *)
Module NoPon.

Definition pon_register_premises_1 (BIF_ARG_1 : Z) : BIF (BIF_RETTYPE Z) := mret BADARG.
Definition pon_unregister_premises_0 : BIF (BIF_RETTYPE Z) := mret BADARG.
Definition pon_gc_register_objects_1 (BIF_ARG_1 : Z) : BIF (BIF_RETTYPE Z) := mret BADARG.
Definition pon_gc_add_root_1 (BIF_ARG_1 : Z) : BIF (BIF_RETTYPE Z) := mret BADARG.
Definition pon_gc_add_ref_2 (BIF_ARG_1 BIF_ARG_2 : Z) : BIF (BIF_RETTYPE Z) := mret BADARG.
Definition pon_gc_collect_0 : BIF (BIF_RETTYPE Z) := mret BADARG.
Definition pon_gc_dump_0 : BIF (BIF_RETTYPE Z) := mret BADARG.

End NoPon.
