(* ===== verification/PonPremiseThms.v ===== *)
(** The premises of a process: freeing and clearing a list of premises, and what
    the default matcher decides. *)

From S2P Require Import Prelude ErtsAlloc PonStats ErlTerm PonPremise.
From stdpp Require Import base tactics numbers list gmap fin_maps.
From Stdlib Require Import ZArith Lia.

(** ** Lists of premises *)

Definition nx_prem (P : gmap positive ErtsPremise) (a : positive) : option (option positive) :=
  next_premise <$> P !! a.

(** [P] without the premises of [l]. *)
Definition without (P : gmap positive ErtsPremise) (l : list positive) : gmap positive ErtsPremise :=
  foldr delete P l.

Lemma without_lookup P l a : without P l !! a = if decide (a ∈ l) then None else P !! a.
Proof.
  induction l as [|b l IH]; [by rewrite decide_False by apply not_elem_of_nil|].
  change (without P (b :: l)) with (delete b (without P l)).
  destruct (decide (a = b)) as [->|Hne].
  - rewrite lookup_delete_eq. by rewrite decide_True by left.
  - rewrite lookup_delete_ne, IH by done. destruct (decide (a ∈ l)), (decide (a ∈ b :: l)); set_solver.
Qed.

Lemma without_cons P a l : without (delete a P) l = without P (a :: l).
Proof.
  apply map_eq. intros b. rewrite !without_lookup, lookup_delete.
  destruct (decide (b ∈ l)), (decide (b ∈ a :: l)), (decide (a = b)); set_solver.
Qed.

Lemma alter_insert_val (P : gmap positive ErtsPremise) a p f :
  P !! a = Some p → alter f a P = <[a := f p]> P.
Proof.
  intros Ha. apply map_eq. intros b. destruct (decide (b = a)) as [->|].
  - by rewrite lookup_alter_eq, Ha, lookup_insert_eq.
  - by rewrite lookup_alter_ne, lookup_insert_ne.
Qed.

Section lists.
Implicit Types σ : prs.

Lemma wp_load_prem σ a p (Q : ErtsPremise → prs → Prop) :
  prems σ !! a = Some p → Q p σ → wp (load_prem a) Q σ.
Proof. intros Ha HQ. unfold load_prem. wp_step. wp_step. by rewrite Ha. Qed.

Lemma wp_upd_prem σ a p f (Q : unit → prs → Prop) :
  prems σ !! a = Some p → Q tt (σ <| prems ::= <[a := f p]> |>) → wp (upd_prem a f) Q σ.
Proof.
  intros Ha HQ. unfold upd_prem. wp_step. eapply wp_load_prem; [done|]. wp_step.
  destruct σ as [h P t]. cbn in *. by erewrite alter_insert_val.
Qed.

Lemma wp_free_prem σ a (Q : unit → prs → Prop) :
  is_Some (prems σ !! a) → Q tt (σ <| prems ::= delete a |>) → wp (free_prem a) Q σ.
Proof. intros [p Ha] HQ. unfold free_prem. wp_step. eapply wp_load_prem; [done|]. by wp_step. Qed.

Lemma free_premises_run fuel σ p l (Q : unit → prs → Prop) :
  lseg (nx_prem (prems σ)) p l None → NoDup l → length l ≤ fuel →
  Q tt (σ <| prems := without (prems σ) l |>) → wp (free_premises fuel p) Q σ.
Proof.
  revert fuel σ p. induction l as [|a l IH]; intros fuel σ p Hl Hnd Hf HQ.
  - simpl in Hl. subst. destruct σ. by destruct fuel.
  - destruct Hl as (-> & p' & Hn & Hl). apply NoDup_cons in Hnd as [Ha Hnd].
    destruct fuel as [|fuel]; [simpl in *; lia|]. cbn [free_premises].
    unfold nx_prem in Hn. apply fmap_Some in Hn as (n & Hn & ->).
    wp_step. eapply wp_load_prem; [done|]. wp_step. apply wp_free_prem; [by eauto|].
    apply IH; [|done|simpl in *; lia|].
    + eapply lseg_frame; [|done]. intros b Hb. unfold nx_prem. cbn.
      rewrite lookup_delete_ne by set_solver. done.
    + cbn in *. by rewrite without_cons.
Qed.

(** [forget msgp] clears the premises that hold the message [msgp]. *)
Definition forget (msgp : positive) (p : ErtsPremise) : ErtsPremise :=
  if decide (matched_msg p = Some msgp)
  then p <| has_match := 0%Z |> <| matched_term := THE_NON_VALUE |> <| matched_msg := NULL |> else p.

Lemma forget_next msgp p : next_premise (forget msgp p) = next_premise p.
Proof. unfold forget. by case_decide. Qed.

Definition forgotten (msgp : positive) (l : list positive) (P : gmap positive ErtsPremise) (a : positive) :
    option ErtsPremise := if decide (a ∈ l) then forget msgp <$> P !! a else P !! a.

Lemma forget_message_run fuel σ p l msgp (Q : unit → prs → Prop) :
  lseg (nx_prem (prems σ)) p l None → NoDup l → length l ≤ fuel →
  (∀ P, (∀ a, P !! a = forgotten msgp l (prems σ) a) → Q tt (σ <| prems := P |>)) →
  wp (forget_message fuel p msgp) Q σ.
Proof.
  revert fuel σ p. induction l as [|a l IH]; intros fuel σ p Hl Hnd Hf HQ.
  - simpl in Hl. subst. specialize (HQ (prems σ)). destruct σ. destruct fuel; apply HQ; intros a;
      unfold forgotten; by rewrite decide_False by apply not_elem_of_nil.
  - destruct Hl as (-> & p' & Hn & Hl). apply NoDup_cons in Hnd as [Ha Hnd].
    destruct fuel as [|fuel]; [simpl in *; lia|]. cbn [forget_message].
    unfold nx_prem in Hn. apply fmap_Some in Hn as (n & Hn & ->).
    wp_step. eapply wp_load_prem; [done|].
    assert (wp (forget_message fuel (next_premise n) msgp) Q (σ <| prems ::= <[a := forget msgp n]> |>)) as Hrest.
    { apply IH; [|done|simpl in *; lia|].
      - eapply lseg_frame; [|done]. intros b Hb. unfold nx_prem. cbn.
        rewrite lookup_insert_ne by set_solver. done.
      - intros P HP. cbn in *. apply HQ. intros b. rewrite HP. unfold forgotten. cbn.
        destruct (decide (b = a)) as [->|Hne].
        + rewrite decide_False, decide_True by set_solver. by rewrite lookup_insert_eq, Hn.
        + rewrite lookup_insert_ne by done.
          destruct (decide (b ∈ l)), (decide (b ∈ a :: l)); set_solver. }
    wp_step. unfold forget in Hrest. case_decide.
    + eapply wp_upd_prem; done.
    + wp_step. destruct σ as [h P t]. cbn in *. by rewrite insert_id in Hrest by done.
Qed.

End lists.

(** ** The default matcher *)

(** The tuple at [x] has the elements [els]. *)
Definition tuple_at (h : heap) (x : Z) (els : list Z) : Prop :=
  is_boxed x = true ∧ (Z.of_nat (length els) < 2 ^ 24)%Z ∧
  word h (boxed_val x) 0 = Some (make_arityval (Z.of_nat (length els))) ∧
  ∀ i e, els !! i = Some e → word h (boxed_val x) (Z.of_nat (S i)) = Some e.

(** An element of the pattern accepts a word: it is absent, or the same word. *)
Definition accepts (pe te : Z) : Prop := pe = THE_NON_VALUE ∨ pe = te.

#[global] Instance accepts_dec pe te : Decision (accepts pe te).
Proof. unfold accepts. apply _. Defined.

Lemma make_arityval_word n : (0 ≤ n < 2 ^ 24)%Z → make_arityval n = (64 * n)%Z.
Proof.
  intros Hn. unfold make_arityval, HEADER_ARITY_OFFS. rewrite Z.shiftl_mul_pow2 by done.
  change TAG_HEADER_ARITYVAL with 0%Z. rewrite (wrapu_small 64 (n * 2 ^ 6)), wrapu_small; lia.
Qed.

Lemma is_arity_value_make n : (0 ≤ n < 2 ^ 24)%Z → is_arity_value (make_arityval n) = true.
Proof.
  intros Hn. rewrite make_arityval_word by done. unfold is_arity_value, TAG_HEADER_MASK.
  rewrite land_63. apply bool_decide_eq_true. change TAG_HEADER_ARITYVAL with 0%Z.
  rewrite Z.mul_comm. by apply Z_mod_mult.
Qed.

Lemma arityval_make n : (0 ≤ n < 2 ^ 24)%Z → s32 (arityval (make_arityval n)) = n.
Proof.
  intros Hn. rewrite make_arityval_word by done. unfold arityval, HEADER_ARITY_OFFS.
  rewrite Z.shiftr_div_pow2 by done. rewrite Z.mul_comm. change (2 ^ 6)%Z with 64%Z.
  rewrite Z.div_mul by done. apply wraps_small; lia.
Qed.

Lemma tuple_at_is_tuple h x els : tuple_at h x els → is_tuple h x = Some true.
Proof.
  intros (Hb & Hn & Hw & _). unfold is_tuple. rewrite Hb, Hw. cbn. by rewrite is_arity_value_make by lia.
Qed.

Lemma match_elements_run h pp pt i ps ts :
  (∀ j e, ps !! j = Some e → word h pp (i + Z.of_nat j) = Some e) →
  (∀ j e, ts !! j = Some e → word h pt (i + Z.of_nat j) = Some e) →
  length ps = length ts →
  match_elements h pp pt i (length ps) = Some (if decide (Forall2 accepts ps ts) then 1%Z else 0%Z).
Proof.
  revert i ts. induction ps as [|pe ps IH]; intros i [|te ts] Hp Ht Hlen; try done.
  cbn [match_elements length].
  assert (word h pp i = Some pe) as -> by (rewrite <- (Hp 0 pe eq_refl); f_equal; lia). cbn [mbind option_bind].
  assert (match_elements h pp pt (i + 1) (length ps) =
    Some (if decide (Forall2 accepts ps ts) then 1%Z else 0%Z)) as Hrec.
  { apply IH; [..|by injection Hlen].
    - intros j e Hj. rewrite <- (Hp (S j) e Hj). f_equal. lia.
    - intros j e Hj. rewrite <- (Ht (S j) e Hj). f_equal. lia. }
  assert (accepts pe te → match_elements h pp pt (i + 1) (length ps) =
    Some (if decide (Forall2 accepts (pe :: ps) (te :: ts)) then 1%Z else 0%Z)) as Hacc.
  { intros Ha. rewrite Hrec. f_equal. apply decide_ext. by rewrite Forall2_cons; intuition. }
  unfold is_non_value. case_bool_decide as Hv; [by apply Hacc; left|].
  assert (word h pt i = Some te) as -> by (rewrite <- (Ht 0 te eq_refl); f_equal; lia). cbn [mbind option_bind].
  destruct (decide (pe ≠ te)) as [Hne|Hne]; [|apply Hacc; right; by destruct (decide (pe = te))].
  rewrite decide_False; [done|]. rewrite Forall2_cons. unfold accepts. intuition.
Qed.

Lemma default_match_tuples h p t ps ts :
  tuple_at h p ps → tuple_at h t ts →
  erts_pon_default_match h p t =
  Some (if decide (p = t ∨ Forall2 accepts ps ts) then 1%Z else 0%Z).
Proof.
  intros Hp Ht. unfold erts_pon_default_match. case_decide as Heq; [by rewrite decide_True by by left|].
  rewrite (tuple_at_is_tuple _ _ _ Hp), (tuple_at_is_tuple _ _ _ Ht). cbn [mbind option_bind].
  destruct Hp as (_ & Hnp & -> & Hps), Ht as (_ & Hnt & -> & Hts). cbn [mbind option_bind].
  rewrite !arityval_make, Nat2Z.id by lia. case_decide as Hlen.
  - rewrite decide_False; [done|]. intros [?|H%Forall2_length]; [done|lia].
  - rewrite (match_elements_run _ _ _ _ ps ts); [..|lia].
    + f_equal. apply decide_ext. naive_solver.
    + intros j e Hj. rewrite <- (Hps j e Hj). f_equal. lia.
    + intros j e Hj. rewrite <- (Hts j e Hj). f_equal. lia.
Qed.

(** A word is a tuple with the given elements, or not a tuple. *)
Definition tuple_or_not (h : heap) (x : Z) (els : option (list Z)) : Prop :=
  match els with Some els => tuple_at h x els | None => is_tuple h x = Some false end.

Definition elements_accepted (ps ts : option (list Z)) : bool :=
  match ps, ts with Some ps, Some ts => bool_decide (Forall2 accepts ps ts) | _, _ => false end.

(** C32: the default matcher accepts a term exactly when it is the very word of the
    pattern, or both are tuples of one arity and every element of the pattern
    is absent or the very word of the corresponding element. *)
Theorem default_match_spec h p t ps ts :
  tuple_or_not h p ps → tuple_or_not h t ts →
  erts_pon_default_match h p t =
  Some (if bool_decide (p = t) || elements_accepted ps ts then 1%Z else 0%Z).
Proof.
  intros Hp Ht. destruct ps as [ps|], ts as [ts|]; simpl in *.
  { rewrite (default_match_tuples h p t ps ts) by done. f_equal. case_decide as Hd.
    - destruct Hd as [Hd|Hd]; [by rewrite (bool_decide_true (p = t))|].
      by rewrite (bool_decide_true (Forall2 accepts ps ts)), orb_true_r.
    - apply Decidable.not_or in Hd as [H1 H2]. by rewrite !bool_decide_false. }
  all: rewrite orb_false_r; unfold erts_pon_default_match; case_decide as Heq;
    [by rewrite bool_decide_true|rewrite bool_decide_false by done].
  - by rewrite (tuple_at_is_tuple _ _ _ Hp), Ht.
  - by rewrite Hp.
  - by rewrite Hp.
Qed.

(** Two one-element tuples that hold two copies of the tuple [{1}]. *)
Definition nested_heap : heap :=
  list_to_map [(64, make_arityval 1); (72, make_small 1); (80, make_arityval 1); (88, make_small 1);
    (96, make_arityval 1); (104, make_boxed 64); (112, make_arityval 1); (120, make_boxed 80)]%Z.

Lemma nested_tuple a e :
  is_boxed (make_boxed a) = true → word nested_heap (boxed_val (make_boxed a)) 0 = Some (make_arityval 1) →
  word nested_heap (boxed_val (make_boxed a)) 1 = Some e → tuple_at nested_heap (make_boxed a) [e].
Proof.
  intros H1 H2 H3. split_and!; [done|done|done|]. intros [|i] e' He; [|done]. injection He as <-. done.
Qed.

(** The matcher does not look below the first level: the two tuples are equal
    terms, and are told apart. *)
Lemma default_match_shallow :
  tuple_at nested_heap (make_boxed 96) [make_boxed 64] ∧ tuple_at nested_heap (make_boxed 64) [make_small 1] ∧
  tuple_at nested_heap (make_boxed 112) [make_boxed 80] ∧ tuple_at nested_heap (make_boxed 80) [make_small 1] ∧
  erts_pon_default_match nested_heap (make_boxed 96) (make_boxed 112) = Some 0%Z.
Proof. split_and!; [apply nested_tuple; by vm_compute..|by vm_compute]. Qed.

Lemma default_match_spec_witness :
  erts_pon_default_match nested_heap (make_boxed 64) (make_boxed 80) = Some 1%Z ∧
  erts_pon_default_match nested_heap (make_boxed 64) (make_small 1) = Some 0%Z ∧
  erts_pon_default_match nested_heap (make_small 2) (make_small 1) = Some 0%Z.
Proof.
  assert (H1 : tuple_or_not nested_heap (make_boxed 64) (Some [make_small 1])) by (by apply nested_tuple; vm_compute).
  assert (H2 : tuple_or_not nested_heap (make_boxed 80) (Some [make_small 1])) by (by apply nested_tuple; vm_compute).
  split; [|split].
  - rewrite (default_match_spec nested_heap _ _ _ _ H1 H2). vm_compute. reflexivity.
  - rewrite (default_match_spec nested_heap _ (make_small 1) _ None H1 eq_refl). vm_compute. reflexivity.
  - rewrite (default_match_spec nested_heap (make_small 2) (make_small 1) None None eq_refl eq_refl). vm_compute. reflexivity.
Defined.

(** ** Consuming a message *)

(** Consuming a message clears exactly the premises that matched it: each premise
    keeps its pattern, clause and place in the list. *)
Lemma message_consumed_clears σ l msgp :
  lseg (nx_prem (prems σ)) (pon_premises σ) l None → NoDup l → (∀ a, a ∈ l ↔ is_Some (prems σ !! a)) →
  ∃ σ', erts_pon_note_message_consumed msgp σ = Some (tt, σ') ∧
    pon_premises σ' = pon_premises σ ∧ prems σ' = forget msgp <$> prems σ.
Proof.
  intros Hl Hnd Hdom.
  cut (wp (erts_pon_note_message_consumed msgp)
    (λ _ σ', pon_premises σ' = pon_premises σ ∧ prems σ' = forget msgp <$> prems σ) σ).
  { intros ([] & σ' & ? & ?)%wp_elim. eauto. }
  unfold erts_pon_note_message_consumed. wp_step. wp_step. eapply forget_message_run; [done|done|..].
  - rewrite <- (size_list_to_set (C := gset positive)) by done. rewrite <- size_dom.
    apply subseteq_size. intros a. rewrite elem_of_list_to_set, elem_of_dom. apply Hdom.
  - intros P HP. split; [done|]. apply map_eq. intros a. cbn. rewrite HP, lookup_fmap. unfold forgotten.
    case_decide as Ha; [done|]. destruct (prems σ !! a) eqn:He; [|done]. destruct Ha. apply Hdom. eauto.
Qed.
