(* ===== verification/PonBifThms.v ===== *)
(** The built-in functions: registering premises and driving the collector from
    Erlang terms, with their error paths. *)

From S2P Require Import Prelude ErtsAlloc PonStats ErlTerm PonPremise PonPremiseThms.
From S2P Require Import PonGc PonGcInv PonGcCollect PonGcBuild PonGcLife PonGcThms PonBifs.
From stdpp Require Import base tactics numbers list gmap sets fin_maps strings.
From Stdlib Require Import ZArith Lia.

(** ** Lists in the heap *)

(** The cells from [x] hold the elements [ts]; the last tail is [tl]. *)
Fixpoint list_at (h : heap) (x : Z) (ts : list Z) (tl : Z) : Prop :=
  match ts with
  | [] => x = tl ∧ is_list tl = false
  | t :: ts' =>
      is_list x = true ∧ word h (list_val x) 0 = Some t ∧
      ∃ x', word h (list_val x) 1 = Some x' ∧ list_at h x' ts' tl
  end.

Lemma list_at_det h x ts tl ts' tl' : list_at h x ts tl → list_at h x ts' tl' → ts = ts' ∧ tl = tl'.
Proof.
  revert x ts'. induction ts as [|t ts IH]; intros x [|t' ts']; simpl.
  - naive_solver.
  - intros [-> ?] (? & _). congruence.
  - intros (? & _) [-> ?]. congruence.
  - intros (_ & H0 & x1 & H1 & Hl) (_ & H0' & x1' & H1' & Hl'). simplify_eq.
    destruct (IH _ _ Hl Hl') as [-> ->]. done.
Qed.

(** The addresses of the cells. *)
Fixpoint cells (h : heap) (x : Z) (n : nat) : list Z :=
  match n with
  | O => []
  | S n' => list_val x :: cells h (default 0%Z (word h (list_val x) 1)) n'
  end.

Lemma cells_suffix h x ts tl a :
  list_at h x ts tl → a ∈ cells h x (length ts) →
  ∃ y us, list_val y = a ∧ us ≠ [] ∧ length us ≤ length ts ∧ list_at h y us tl.
Proof.
  revert x. induction ts as [|t ts IH]; intros x; simpl; [by intros _ ?%elem_of_nil|].
  intros (Hx & H0 & x' & H1 & Hl) [->|Ha]%elem_of_cons.
  - exists x, (t :: ts). split_and!; [done|done|done|]. simpl. eauto 10.
  - rewrite H1 in Ha. simpl in Ha. destruct (IH _ Hl Ha) as (y & us & ? & ? & ? & ?).
    exists y, us. split_and!; [done|done|lia|done].
Qed.

Lemma cells_nodup h x ts tl : list_at h x ts tl → NoDup (cells h x (length ts)).
Proof.
  revert x. induction ts as [|t ts IH]; intros x; simpl; [constructor|].
  intros (Hx & H0 & x' & H1 & Hl). rewrite H1. simpl. constructor; [|by apply IH].
  intros Ha. destruct (cells_suffix _ _ _ _ _ Hl Ha) as (y & us & Hy & Hne & Hlen & Hus).
  destruct us as [|u us]; [done|]. destruct Hus as (_ & _ & y' & Hy1 & Hus).
  rewrite Hy, H1 in Hy1. injection Hy1 as <-.
  destruct (list_at_det _ _ _ _ _ _ Hl Hus) as [-> _]. simpl in Hlen. lia.
Qed.

(** A list that ends fits in the heap, so that as many iterations as the heap has
    words are enough to walk it. *)
Lemma list_at_fuel h x ts tl : list_at h x ts tl → length ts ≤ size h.
Proof.
  intros Hl. rewrite <- size_dom. pose proof (cells_nodup _ _ _ _ Hl) as Hnd.
  assert (length (cells h x (length ts)) = length ts) as <-.
  { clear. revert x. induction (length ts); intros; simpl; auto. }
  rewrite <- (size_list_to_set (C := gset Z)) by done. apply subseteq_size. intros a.
  rewrite elem_of_list_to_set, elem_of_dom. intros Ha.
  destruct (cells_suffix _ _ _ _ _ Hl Ha) as (y & [|u us] & <- & ? & _ & Hus); [done|].
  destruct Hus as (_ & Hw & _). unfold word in Hw. rewrite Z.add_0_r in Hw. eauto.
Qed.

(** ** Running a component inside the process *)

Section lifting.
Implicit Types σ : proc.

Lemma wp_on_prs {A} (m : PrM A) (Q : A → proc → Prop) σ :
  wp m (λ x r, Q x (with_prs r σ)) (prs_of σ) → wp (on_prs m) Q σ.
Proof. unfold wp, on_prs. by destruct (m (prs_of σ)) as [[]|]. Qed.

Lemma wp_on_gcs {A} (m : G A) (Q : A → proc → Prop) σ :
  wp m (λ x g, Q x (with_gcs g σ)) (gcs_of σ) → wp (on_gcs m) Q σ.
Proof. unfold wp, on_gcs. by destruct (m (gcs_of σ)) as [[]|]. Qed.

Lemma wp_list_word σ x i w (Q : Z → proc → Prop) :
  word (p_heap σ) (list_val x) i = Some w → Q w σ → wp (list_word x i) Q σ.
Proof. intros Hw HQ. unfold list_word. wp_step. wp_step. by rewrite Hw. Qed.

End lifting.

(** ** Allocating a list of premises *)

(** [P] is [P0] with the fresh premises [l], linked in that order from [head],
    that hold the patterns [ps] and are numbered from 0. *)
Record new_chain (P0 P : gmap positive ErtsPremise) (head : option positive) (l : list positive)
    (ps : list Z) : Prop := {
  nc_seg : lseg (nx_prem P) head l None;
  nc_nodup : NoDup l;
  nc_old : without P l = P0;
  nc_len : length l = length ps;
  nc_vals i a : l !! i = Some a → ∃ q nx, ps !! i = Some q ∧
    P !! a = Some ((ERTS_INIT_PREMISE q NULL (u64 (Z.of_nat i))) <| next_premise := nx |>)
}.

Lemma new_chain_nil P : new_chain P P NULL [] [].
Proof. by split; try constructor. Qed.

Lemma new_chain_elem P0 P head l ps a : new_chain P0 P head l ps → a ∈ l → is_Some (P !! a).
Proof. intros Hc [i Hi]%list_elem_of_lookup. destruct (nc_vals _ _ _ _ _ Hc i a Hi) as (? & ? & _ & ->). eauto. Qed.

(** The store after one more premise [a]. *)
Definition link_new (P : gmap positive ErtsPremise) (l : list positive) (a : positive) (q : Z) :
    gmap positive ErtsPremise :=
  let P' := <[a := ERTS_INIT_PREMISE q NULL (u64 (Z.of_nat (length l)))]> P in
  match last l with
  | Some t => alter (λ p, p <| next_premise := Some a |>) t P'
  | None => P'
  end.

Lemma link_new_lookup P l a q b : P !! a = None →
  link_new P l a q !! b =
    if decide (b = a) then Some ((ERTS_INIT_PREMISE q NULL (u64 (Z.of_nat (length l)))) <|
      next_premise := if decide (last l = Some a) then Some a else NULL |>)
    else if decide (last l = Some b) then (λ p, p <| next_premise := Some a |>) <$> P !! b else P !! b.
Proof.
  intros Ha. unfold link_new. destruct (last l) as [t|] eqn:Hl.
  - destruct (decide (b = a)) as [->|Hba].
    + destruct (decide (t = a)) as [->|Hta].
      * rewrite lookup_alter_eq, lookup_insert_eq. by rewrite decide_True by done.
      * rewrite lookup_alter_ne, lookup_insert_eq by done. rewrite decide_False by congruence. done.
    + destruct (decide (t = b)) as [->|Htb].
      * rewrite lookup_alter_eq, lookup_insert_ne by done. by rewrite decide_True.
      * rewrite lookup_alter_ne, lookup_insert_ne by done. rewrite decide_False by congruence. done.
  - destruct (decide (b = a)) as [->|Hba].
    + rewrite lookup_insert_eq. by rewrite decide_False by done.
    + rewrite lookup_insert_ne by done. by rewrite decide_False by done.
Qed.

Lemma new_chain_snoc P0 P head l ps a q :
  new_chain P0 P head l ps → P !! a = None →
  new_chain P0 (link_new P l a q) (match head with Some _ => head | None => Some a end) (l ++ [a]) (ps ++ [q]).
Proof.
  intros Hc Ha. assert (a ∉ l) as Hal.
  { intros H. destruct (new_chain_elem _ _ _ _ _ _ Hc H). congruence. }
  assert (last l ≠ Some a) as Hla by (intros ?%last_Some_elem_of; done).
  pose proof (link_new_lookup P l a q) as Hlk. pose proof (lseg_head_None _ _ _ (nc_seg _ _ _ _ _ Hc)) as Hh.
  split.
  - destruct (last l) as [t|] eqn:Hl.
    + destruct l as [|x l']; [done|]. rewrite Hh. cbn [hd_error]. cbn.
      apply (lseg_snoc (nx_prem P) _ (Some x) (x :: l') t a); [by rewrite Hh in *; apply Hc|done|apply Hc|..].
      * intros b Hb Hbt. unfold nx_prem. rewrite Hlk, decide_False by (intros ->; done) || done.
        by rewrite decide_False by congruence.
      * unfold nx_prem. rewrite Hlk, decide_False by (intros ->; done) || done. rewrite decide_True by done.
        destruct (new_chain_elem _ _ _ _ _ t Hc) as [p Hp]; [by apply last_Some_elem_of|]. by rewrite Hp.
      * unfold nx_prem. rewrite Hlk, decide_True by done. cbn. by rewrite decide_False.
    + apply last_None in Hl as ->. rewrite Hh. cbn. split; [done|]. exists NULL. split; [|done].
      unfold nx_prem. rewrite Hlk, decide_True by done. done.
  - apply NoDup_app. split_and!; [apply Hc|set_solver|apply NoDup_singleton].
  - rewrite <- (nc_old _ _ _ _ _ Hc). apply map_eq. intros b. rewrite !without_lookup, Hlk by done.
    destruct (decide (b = a)) as [->|Hba].
    + rewrite decide_True by set_solver. by rewrite decide_False by done.
    + destruct (decide (b ∈ l)) as [Hb|Hb]; [by rewrite decide_True by set_solver|].
      rewrite decide_False by set_solver. rewrite decide_False; [done|].
      intros ?%last_Some_elem_of. done.
  - rewrite !length_app, (nc_len _ _ _ _ _ Hc). done.
  - intros i b [Hi|[Hi Hb]]%lookup_app_Some.
    + destruct (nc_vals _ _ _ _ _ Hc i b Hi) as (q' & nx & Hq & Hp).
      assert (b ≠ a) as Hba by (intros ->; congruence). exists q'.
      rewrite Hlk by done. destruct (decide (b = a)); [done|]. rewrite Hp.
      destruct (decide (last l = Some b)).
      * exists (Some a). by rewrite lookup_app_l by (by apply lookup_lt_Some in Hq).
      * exists nx. by rewrite lookup_app_l by (by apply lookup_lt_Some in Hq).
    + destruct (i - length l) as [|] eqn:Hil; [|done]. injection Hb as <-.
      assert (i = length l) as -> by lia. exists q, NULL.
      rewrite (nc_len _ _ _ _ _ Hc), lookup_app_r, Nat.sub_diag by lia. split; [done|].
      rewrite Hlk, decide_True by done. rewrite <- (nc_len _ _ _ _ _ Hc). cbn. by rewrite decide_False.
Qed.

Section premise_bifs.
Context `{Laws : AllocatorLaws}.
Implicit Types σ : proc.

Hypothesis alloc_total : ∀ used z, is_Some (alloc used z).

Lemma alloc_premises_run fuel σ x ts tl P0 head tail idx l ps (Q : option positive * Z → proc → Prop) :
  list_at (p_heap σ) x ts tl → length ts ≤ fuel → new_chain P0 (p_prems σ) head l ps →
  tail = last l → idx = u64 (Z.of_nat (length l)) →
  (∀ P head' l', new_chain P0 P head' l' (ps ++ ts) → Q (head', tl) (σ <| p_prems := P |>)) →
  wp (alloc_premises fuel x idx head tail) Q σ.
Proof.
  revert fuel σ x head tail idx l ps.
  induction ts as [|t ts IH]; intros fuel σ x head tail idx l ps Hx Hf Hc -> -> HQ.
  - destruct Hx as [-> Hx]. specialize (HQ _ _ _ ltac:(rewrite app_nil_r; exact Hc)).
    destruct σ. destruct fuel; cbn [alloc_premises]; rewrite Hx; by apply wp_ret.
  - destruct Hx as (Hx & H0 & x' & H1 & Hl). destruct fuel as [|fuel]; [simpl in *; lia|].
    cbn [alloc_premises]. rewrite Hx. wp_step. eapply wp_list_word; [done|]. wp_step. wp_step.
    destruct (alloc_total (dom (p_prems σ)) SIZEOF_PREMISE) as [a Ha]. rewrite Ha. wp_step. wp_step. wp_step.
    apply alloc_fresh, not_elem_of_dom in Ha.
    assert (last l ≠ Some a) as Hla.
    { intros [p Hp]%last_Some_elem_of%(new_chain_elem _ _ _ _ _ _ Hc). congruence. }
    apply wp_on_prs. wp_step. wp_step.
    assert (∀ σ', σ' = σ <| p_prems := link_new (p_prems σ) l a t |> →
      wp (l' ← list_word x 1; alloc_premises fuel l' (u64 (u64 (Z.of_nat (length l)) + 1))
          (match head with Some _ => head | None => Some a end) (Some a)) Q σ') as Hgo.
    { intros σ' ->. wp_step. eapply wp_list_word; [done|].
      apply (IH fuel _ x' _ _ _ (l ++ [a]) (ps ++ [t])); [done|simpl in *; lia|by apply new_chain_snoc|..].
      { by rewrite last_snoc. }
      { rewrite wrapu_add, length_app. f_equal. cbn. lia. }
      intros P head' l' HP. rewrite <- app_assoc in HP. destruct σ. by eapply HQ. }
    unfold link_new in Hgo. destruct (last l) as [y|] eqn:Hy.
    + destruct (new_chain_elem _ _ _ _ _ y Hc) as [p Hp]; [by apply last_Some_elem_of|].
      assert (y ≠ a) as Hya by congruence. eapply wp_upd_prem; [by cbn; rewrite lookup_insert_ne|].
      apply Hgo. destruct σ. cbn in *. erewrite alter_insert_val; [done|]. by rewrite lookup_insert_ne.
    + wp_step. apply Hgo. by destruct σ.
Qed.

Lemma new_chain_length P0 P head l ps : new_chain P0 P head l ps → length l ≤ size P.
Proof.
  intros Hc. rewrite <- (size_list_to_set (C := gset positive)) by apply Hc. rewrite <- size_dom.
  apply subseteq_size. intros a. rewrite elem_of_list_to_set, elem_of_dom. by eapply new_chain_elem.
Qed.

Lemma register_premises_run σ x ts tl (Q : BIF_RETTYPE Z → proc → Prop) :
  list_at (p_heap σ) x ts tl → ts ≠ [] →
  (tl ≠ NIL → Q BADARG σ) →
  (∀ P head l, tl = NIL → new_chain (p_prems σ) P head l ts →
    wp (on_prs (erts_pon_register_premises head)) (λ _, Q (BIF_RET am_true)) (σ <| p_prems := P |>)) →
  wp (pon_register_premises_1 x) Q σ.
Proof.
  intros Hl Hne Hbad Hok. unfold pon_register_premises_1.
  assert (is_list x = true) as -> by (destruct ts; [done|by destruct Hl]).
  wp_step. wp_step. wp_step.
  eapply (alloc_premises_run _ σ x ts tl _ NULL _ _ []);
    [done|by eapply list_at_fuel|apply new_chain_nil|done|done|].
  intros P head l Hc. cbn [app] in Hc. case_decide as Htl.
  - wp_step. wp_step. wp_step. apply wp_on_prs.
    eapply (free_premises_run _ _ _ l); [apply Hc|apply Hc|by eapply new_chain_length|].
    wp_step. cbn. rewrite (nc_old _ _ _ _ _ Hc). destruct σ. by apply Hbad.
  - wp_step. eapply wp_mono; [eapply Hok; [by destruct (decide (tl = NIL))|done]|].
    intros [] σ' HQ. by wp_step.
Qed.

End premise_bifs.

(** Freeing the chain that was there before leaves the new one alone. *)
Lemma new_chain_drop P0 P head l ps lo :
  new_chain P0 P head l ps → without P0 lo = ∅ → (∀ a, a ∈ lo → is_Some (P0 !! a)) →
  new_chain ∅ (without P lo) head l ps.
Proof.
  intros Hc H0 Hlo.
  assert (∀ a, a ∈ l → without P lo !! a = P !! a) as Hk.
  { intros a Ha. rewrite without_lookup, decide_False; [done|]. intros [p Hp]%Hlo.
    rewrite <- (nc_old _ _ _ _ _ Hc), without_lookup, decide_True in Hp by done. done. }
  split; [|apply Hc| |apply Hc|].
  - eapply lseg_frame; [|apply Hc]. intros a Ha. unfold nx_prem. by rewrite Hk.
  - rewrite <- H0. apply map_eq. intros a. rewrite !without_lookup.
    rewrite <- (nc_old _ _ _ _ _ Hc), without_lookup. by destruct (decide (a ∈ l)), (decide (a ∈ lo)).
  - intros i a Hi. rewrite Hk by (by eapply list_elem_of_lookup_2). by apply (nc_vals _ _ _ _ _ Hc).
Qed.

(** The premises of the process are those of one receive with the clauses [ps],
    none of them matched, and no other premise is allocated. *)
Definition registered (σ : proc) (ps : list Z) : Prop :=
  ∃ l, new_chain ∅ (p_prems σ) (p_premises σ) l ps.

(** A non-empty proper list of patterns replaces the premises of the process. *)
Lemma register_premises_ok `{Laws : AllocatorLaws} σ x ps old :
  (∀ used z, is_Some (alloc used z)) →
  registered σ old → list_at (p_heap σ) x ps NIL → ps ≠ [] →
  ∃ σ', pon_register_premises_1 x σ = Some (BIF_RET am_true, σ') ∧ registered σ' ps ∧
    p_heap σ' = p_heap σ ∧ p_tmp σ' = p_tmp σ ∧
    p_stats σ' = (p_stats σ) <| premises_registered ::= PON_STATS_INC |>.
Proof.
  intros Hal [lo Ho] Hl Hne.
  edestruct (wp_elim (pon_register_premises_1 x)) as (r & σ' & Hr & HQ).
  { eapply (register_premises_run Hal σ x ps NIL (λ r σ', r = BIF_RET am_true ∧ registered σ' ps ∧
      p_heap σ' = p_heap σ ∧ p_tmp σ' = p_tmp σ ∧
      p_stats σ' = (p_stats σ) <| premises_registered ::= PON_STATS_INC |>)); [done|done|done|].
    intros P head l _ Hc. apply wp_on_prs. unfold erts_pon_register_premises. wp_step. wp_step. wp_step.
    assert (without P l = p_prems σ) as Hold by apply Hc.
    assert (∀ a, a ∈ lo → is_Some (p_prems σ !! a)) as Hlo by (intros a; by eapply new_chain_elem).
    eapply (free_premises_run _ _ _ lo); cbn.
    - eapply lseg_frame; [|apply Ho]. intros a [p Hp]%Hlo. unfold nx_prem. rewrite Hp, <- Hp, <- Hold.
      rewrite <- Hold in Hp. rewrite without_lookup in *. by destruct (decide (a ∈ l)).
    - apply Ho.
    - etrans; [by eapply new_chain_length|]. rewrite <- Hold, <- !size_dom. apply subseteq_size.
      intros a. rewrite !elem_of_dom, without_lookup. destruct (decide (a ∈ l)); [by intros []|done].
    - wp_steps. cbn. split_and!; [done| |done|done|done]. exists l. cbn.
      apply new_chain_drop with (p_prems σ); [done|apply Ho|done]. }
  destruct HQ as (-> & ?). eauto.
Qed.

(** Registering something that is not a non-empty proper list fails with
    [badarg] and leaves the process exactly as it was: the premises allocated on
    the way are all freed, those registered before stay in place. *)
Lemma register_premises_badarg `{Laws : AllocatorLaws} σ x ps tl :
  (∀ used z, is_Some (alloc used z)) →
  list_at (p_heap σ) x ps tl → ps = [] ∨ tl ≠ NIL →
  pon_register_premises_1 x σ = Some (BADARG, σ).
Proof.
  intros Hal Hl Hps. destruct (decide (ps = [])) as [->|Hne].
  - destruct Hl as [-> Hl]. unfold pon_register_premises_1. by rewrite Hl.
  - destruct (wp_elim (pon_register_premises_1 x) (λ r σ', r = BADARG ∧ σ' = σ) σ) as (? & ? & ? & -> & ->); [|done].
    eapply (register_premises_run Hal); [done|done|done|]. intros ? ? ? ->. by destruct Hps.
Qed.

(** C31: registering a non-empty proper list of patterns replaces the premises of
    the process: the old ones are freed, each element gets one premise with its
    clause number, in order, and one registration is counted. Everything else, the
    empty list and improper lists too, gives [badarg] and leaves the process with
    the premises it had. *)
Theorem register_premises_replaces `{Laws : AllocatorLaws} σ x ps tl old :
  (∀ used z, is_Some (alloc used z)) →
  registered σ old → list_at (p_heap σ) x ps tl →
  ∃ r σ', pon_register_premises_1 x σ = Some (r, σ') ∧
    if decide (ps ≠ [] ∧ tl = NIL) then
      r = BIF_RET am_true ∧ registered σ' ps ∧ p_heap σ' = p_heap σ ∧ p_tmp σ' = p_tmp σ ∧
      p_stats σ' = (p_stats σ) <| premises_registered ::= PON_STATS_INC |>
    else r = BADARG ∧ σ' = σ.
Proof.
  intros Hal Hreg Hl. destruct (decide (ps ≠ [] ∧ tl = NIL)) as [[Hne ->]|Hno].
  - destruct (register_premises_ok σ x ps old) as (σ' & Hr & H); [done..|]. by exists (BIF_RET am_true), σ'.
  - exists BADARG, σ. split; [|done]. eapply register_premises_badarg; [done..|].
    destruct (decide (ps = [])) as [|Hne]; [by left|right]. intros ->. by apply Hno.
Qed.

(** ** Building a list on the heap *)

Lemma word_mono h h' a i w : h ⊆ h' → word h a i = Some w → word h' a i = Some w.
Proof. unfold word. intros Hs Hw. by eapply lookup_weaken. Qed.

Lemma list_at_mono h h' x ts tl : h ⊆ h' → list_at h x ts tl → list_at h' x ts tl.
Proof.
  intros Hs. revert x. induction ts as [|t ts IH]; intros x; [done|].
  intros (Hx & H0 & x' & H1 & Hl). split; [done|]. split; [by eapply word_mono|].
  exists x'. split; [by eapply word_mono|]. by apply IH.
Qed.

Section gc_bifs.
Context `{Laws : AllocatorLaws} `{FL : HeapFactoryLaws}.
Implicit Types σ : proc.

(** The state after the list of identifiers was built. *)
Lemma make_ids_run rev_ids res σ vs (Q : Z → proc → Prop) :
  list_at (p_heap σ) res vs NIL → heap_room (p_heap σ) (length rev_ids) →
  (∀ y h, p_heap σ ⊆ h → list_at h y (rev (make_small <$> rev_ids) ++ vs) NIL → Q y (σ <| p_heap := h |>)) →
  wp (make_ids rev_ids res) Q σ.
Proof.
  revert res σ vs. induction rev_ids as [|i rest IH]; intros res σ vs Hl Hroom HQ; cbn [make_ids].
  - wp_step. specialize (HQ res (p_heap σ)). destruct σ. by apply HQ.
  - wp_step. wp_step. wp_step. wp_step.
    set (hp := produce_heap (p_heap σ) 2).
    pose proof (produce_ptr _ _ Hroom) as Hp.
    pose proof (produce_fresh _ _ 0 Hroom ltac:(lia)) as F0.
    pose proof (produce_fresh _ _ 1 Hroom ltac:(lia)) as F1.
    pose proof (produce_room _ _ (make_small i) res Hroom) as Hroom'. fold hp in Hp, F0, F1, Hroom'.
    rewrite Z.mul_0_r, Z.add_0_r in F0. rewrite Z.mul_1_r in F1.
    assert (p_heap σ ⊆ <[(hp + 8)%Z := res]> (<[hp := make_small i]> (p_heap σ))) as Hsub.
    { transitivity (<[hp := make_small i]> (p_heap σ)); [by apply insert_subseteq|]. apply insert_subseteq.
      rewrite lookup_insert_ne by lia. done. }
    apply (IH _ _ (make_small i :: vs)).
    + cbn. rewrite is_list_make_list, list_val_make_list by done. split; [done|]. unfold word.
      rewrite Z.mul_0_r, Z.add_0_r, Z.mul_1_r, lookup_insert_ne, lookup_insert_eq by lia. split; [done|].
      exists res. rewrite lookup_insert_eq. split; [done|]. by eapply list_at_mono.
    + done.
    + intros y h Hh Hy. cbn in Hh. cbn [fmap list_fmap rev] in HQ. destruct σ. cbn in *.
      apply HQ; [by etrans|]. rewrite <- app_assoc. done.
Qed.

Lemma gc_idle_new_blob o N B t d : gc_idle (mkGcs o N B t) → gc_idle (mkGcs o N ({[d]} ∪ B) t).
Proof.
  intros [(g & Hg & [Hl Hr Hro Hi [Hd1 Hd2] Ht] & Hrest) Hw]. split; [|done]. exists g. split; [done|].
  split; [|done]. split; try done. split; [|done]. intros a n x Hn Hx. apply elem_of_union_r. by eapply Hd1.
Qed.

Lemma gcs_of_with G σ : gcs_of (with_gcs G σ) = G.
Proof. by destruct G. Qed.

Lemma with_gcs_with G G' σ : with_gcs G (with_gcs G' σ) = with_gcs G σ.
Proof. done. Qed.

Lemma with_gcs_of σ : with_gcs (gcs_of σ) σ = σ.
Proof. by destruct σ. Qed.

(** [n] is a node that a registration made for a payload of [s] bytes. *)
Definition made_for (n : PonGcNode) (i s : Z) : Prop :=
  id n = i ∧ data_size n = s ∧ (data n = None ↔ s = 0%Z) ∧ node_refs n = [].

(** [G'] is [G] with one more object per size, numbered from [k]. *)
Record objects_added (k : Z) (G G' : gcs) (sizes : list Z) : Prop := {
  oa_old a n : nodes G !! a = Some n → object <$> nodes G' !! a = Some (object n);
  oa_new i s : sizes !! i = Some s → ∃ a n, nodes G !! a = None ∧ nodes G' !! a = Some n ∧
    made_for n (k + Z.of_nat i) s;
  oa_count : size (nodes G') = size (nodes G) + length sizes
}.

Lemma objects_added_nil k G : objects_added k G G [].
Proof. split; [by intros a n ->|done|cbn; lia]. Qed.

Lemma object_refs n n' : object n' = object n → node_refs n' = node_refs n.
Proof. intros (? & ? & Hr & _)%object_fields. unfold node_refs. congruence. Qed.

Lemma made_for_object n n' i s : object n' = object n → made_for n i s → made_for n' i s.
Proof.
  intros Ho (? & ? & ? & ?). pose proof (object_refs _ _ Ho). apply object_fields in Ho as (? & ? & ? & Hd & ? & ?).
  unfold made_for. rewrite Hd. split_and!; congruence || done.
Qed.

Lemma objects_added_cons G G1 G' g a d s sizes :
  created G G1 g a d s → (d = None ↔ s = 0%Z) → objects_added (next_id g + 1) G1 G' sizes →
  objects_added (next_id g) G G' (s :: sizes).
Proof.
  intros [Hf Hn Ho _ _] Hd [H1 H2 H3].
  apply fmap_Some in Hn as (n & Hn & Hobj). symmetry in Hobj.
  split.
  - intros b m Hb. assert (b ≠ a) as Hba by congruence. specialize (Ho b Hba). rewrite Hb in Ho.
    apply fmap_Some in Ho as (m' & Hm' & Hom). rewrite (H1 _ _ Hm'). by rewrite Hom.
  - intros [|i] x Hx.
    + injection Hx as <-. pose proof (H1 _ _ Hn) as Hn'. apply fmap_Some in Hn' as (n' & Hn' & Hon).
      exists a, n'. split; [done|]. split; [done|]. apply (made_for_object (new_node d s (next_id g))); [congruence|].
      rewrite Z.add_0_r. done.
    + destruct (H2 i x Hx) as (b & m & Hb1 & Hb' & Hm). exists b, m. split; [|split; [done|]].
      * destruct (decide (b = a)) as [->|Hba]; [congruence|]. specialize (Ho b Hba). rewrite Hb1 in Ho.
        by destruct (nodes G !! b).
      * replace (next_id g + Z.of_nat (S i))%Z with (next_id g + 1 + Z.of_nat i)%Z by lia. done.
  - rewrite H3. cbn [length]. rewrite <- !size_dom.
    assert (dom (nodes G1) = {[a]} ∪ dom (nodes G)) as ->.
    { apply set_eq. intros b. rewrite elem_of_union, elem_of_singleton, !elem_of_dom.
      destruct (decide (b = a)) as [->|Hba]; [naive_solver|]. specialize (Ho b Hba).
      destruct (nodes G1 !! b), (nodes G !! b); try done; naive_solver. }
    rewrite size_union, size_singleton; [lia|]. apply disjoint_singleton_l. by apply not_elem_of_dom.
Qed.

Hypothesis alloc_total : ∀ used z, is_Some (alloc used z).
Hypothesis realloc_total : ∀ z, realloc_ok z = true.

Lemma register_loop_run fuel G σ x sizes tl ids cap g (Q : option (list Z * Z) → proc → Prop) :
  list_at (p_heap σ) x (make_small <$> sizes) tl → length sizes ≤ fuel →
  Forall (λ s, 0 ≤ s ≤ MAX_SMALL)%Z sizes → gc_idle G → pon_gc G = Some g →
  (next_id g + Z.of_nat (length sizes) < 2 ^ 62)%Z →
  (∀ G' g', gc_idle G' → pon_gc G' = Some g' → next_id g' = (next_id g + Z.of_nat (length sizes))%Z →
    root_list g' = root_list g → objects_added (next_id g) G G' sizes →
    Q (Some (ids ++ seqZ (next_id g) (Z.of_nat (length sizes)), tl)) (with_gcs G' σ)) →
  wp (register_loop fuel x ids cap) Q (with_gcs G σ).
Proof.
  revert fuel G x ids cap g. induction sizes as [|s sizes IH];
    intros fuel G x ids cap g Hx Hf Hs Hidle Hg Hid HQ.
  - destruct Hx as [-> Hx]. specialize (HQ G g Hidle Hg ltac:(cbn; lia) eq_refl (objects_added_nil _ _)).
    rewrite app_nil_r in HQ. destruct fuel; cbn [register_loop]; rewrite Hx; by apply wp_ret.
  - destruct Hx as (Hx & H0 & x' & H1 & Hl). apply Forall_cons in Hs as [Hs0 Hs].
    destruct fuel as [|fuel]; [simpl in *; lia|]. cbn [register_loop]. rewrite Hx. wp_step.
    eapply wp_list_word; [done|]. rewrite is_small_make_small. cbn [negb].
    rewrite signed_val_make_small by (unfold MIN_SMALL; change (Z.shiftl 1 (SMALL_BITS - 1)) with (2^59)%Z; lia).
    destruct (decide (s < 0)%Z) as [|_]; [lia|].
    assert (0 ≤ next_id g)%Z as Hid0.
    { destruct Hidle as [(g0 & Hg0 & Hwf & _) _]. assert (g0 = g) as -> by congruence. apply Hwf. }
    assert (∀ payload G1, gc_idle G1 → nodes G1 = nodes G → pon_gc G1 = pon_gc G →
      (payload = None ↔ s = 0%Z) →
      (∀ d, payload = Some d → d ∈ blobs G1 ∧ ∀ b n, nodes G1 !! b = Some n → data n ≠ Some d) →
      wp (node ← on_gcs (pon_gc_node_create payload s);
          match node with
          | None =>
              match payload with Some d => on_gcs (free_blob d) | None => mret tt end;; mret None
          | Some a =>
              let cap := if decide (Z.of_nat (length ids) = cap) then s32 (cap * 2) else cap in
              n ← on_gcs (load a); l' ← list_word x 1; register_loop fuel l' (ids ++ [s64 (id n)]) cap
          end) Q (with_gcs G1 σ)) as Hgo.
    { intros payload G1 Hidle1 HN1 Hgc1 Hp Hd. wp_step. apply wp_on_gcs. rewrite gcs_of_with.
      destruct (alloc_total (used_blocks G1) SIZEOF_NODE) as [a Ha].
      eapply wp_mono; [apply (create_spec G1 g payload s a); [done|congruence|cbn in *; lia|done|done|done]|].
      intros r G2 (-> & Hidle2 & Hcr & _). cbn beta iota. rewrite with_gcs_with.
      pose proof Hcr as [_ Hn _ (g2 & Hg2 & Hr2 & Hi2) _]. apply fmap_Some in Hn as (n & Hn & Hobj).
      cbv zeta. wp_step. apply wp_on_gcs. rewrite gcs_of_with. unfold load. wp_step. wp_step. rewrite Hn. wp_step.
      rewrite with_gcs_with. wp_step. eapply wp_list_word; [done|].
      symmetry in Hobj. apply object_fields in Hobj as (_ & _ & _ & _ & _ & Hidn). rewrite Hidn.
      cbn [new_node id]. rewrite wraps_small by (cbn in *; lia).
      apply (IH fuel G2 x' _ _ g2); [done|simpl in *; lia|done|done|done|cbn [length] in Hid; lia|].
      intros G' g' HiG' Hg' Hnx Hrl Hoa. rewrite Hi2 in *.
      rewrite <- app_assoc. cbn [app].
      assert (next_id g :: seqZ (next_id g + 1) (Z.of_nat (length sizes)) =
              seqZ (next_id g) (Z.of_nat (length (s :: sizes)))) as ->.
      { cbn [length]. rewrite Nat2Z.inj_succ, (seqZ_cons (next_id g) (Z.succ _)) by lia. by rewrite Z.pred_succ. }
      apply (HQ G' g'); [done|done|cbn [length]; lia|congruence|].
      eapply objects_added_cons; [|done|done]. destruct Hcr as [C1 C2 C3 C4 C5]. rewrite HN1 in *. split; done. }
    wp_step. wp_step.
    destruct (decide (0 < s)%Z) as [Hpos|Hpos].
    + wp_step. wp_step. rewrite gcs_of_with.
      destruct (alloc_total (used_blocks G) s) as [d Hd]. rewrite Hd. wp_step.
      wp_step. apply wp_on_gcs. rewrite gcs_of_with. wp_step. rewrite with_gcs_with. wp_step.
      apply alloc_fresh in Hd. unfold used_blocks in Hd. destruct G as [o N B t]. cbn in *.
      apply Hgo; [by apply gc_idle_new_blob|done|done|split; [done|lia]|].
      intros ? [= <-]. split; [set_solver|]. intros b n Hb Hdn. apply Hd, elem_of_union_r.
      destruct Hidle as [(g0 & _ & Hwf & _) _]. by eapply (do_alloc _ _ (gw_data _ _ _ Hwf)).
    + wp_step. apply Hgo; [done|done|done|split; [lia|done]|done].
Qed.

(** The collector of the process can be used: it is idle, or not created yet. *)
Definition gc_ready σ : Prop :=
  match p_gc σ with Some _ => gc_idle (gcs_of σ) | None => p_nodes σ = ∅ end.

(** The identifier of the next object. *)
Definition first_id σ : Z := match p_gc σ with Some g => next_id g | None => 0%Z end.

Lemma gc_state_run σ (Q : bool → proc → Prop) :
  gc_ready σ →
  (∀ G g, gc_idle G → pon_gc G = Some g → next_id g = first_id σ → nodes G = p_nodes σ →
    Q true (with_gcs G σ)) →
  wp (on_gcs erts_pon_gc_state) Q σ.
Proof.
  unfold gc_ready, first_id. intros Hr HQ. apply wp_on_gcs.
  eapply wp_mono; [apply erts_pon_gc_state_run|].
  - cbn. by destruct (p_gc σ).
  - intros _. apply alloc_total.
  - cbn. destruct (p_gc σ); [done|by intros [? ?]].
  - intros r G (-> & Hidle & _ & HN & H0 & H1). cbn in *. destruct (p_gc σ) as [g|] eqn:Hg.
    + rewrite H1 in * by eauto. by apply (HQ _ g).
    + specialize (H0 eq_refl). by apply (HQ _ pon_gc_zero).
Qed.

Lemma register_objects_run σ x sizes tl (Q : BIF_RETTYPE Z → proc → Prop) :
  gc_ready σ → list_at (p_heap σ) x (make_small <$> sizes) tl → sizes ≠ [] →
  Forall (λ s, 0 ≤ s ≤ MAX_SMALL)%Z sizes →
  (first_id σ + Z.of_nat (length sizes) < 2 ^ 62)%Z → (tl = NIL → heap_room (p_heap σ) (length sizes)) →
  (∀ G tmp, gc_idle G → objects_added (first_id σ) (gcs_of σ) G sizes → tmp ∉ p_tmp σ →
    (tl ≠ NIL → Q BADARG ((with_gcs G σ) <| p_tmp ::= λ T, {[tmp]} ∪ T |>)) ∧
    (∀ y h, tl = NIL → list_at h y (make_small <$> seqZ (first_id σ) (Z.of_nat (length sizes))) NIL →
      Q (BIF_RET y) ((with_gcs G σ) <| p_heap := h |>))) →
  wp (pon_gc_register_objects_1 x) Q σ.
Proof.
  intros Hrd Hx Hne Hs Hid Hroom HQ. unfold pon_gc_register_objects_1.
  assert (is_list x = true) as -> by (destruct sizes; [done|by destruct Hx]).
  wp_step. apply gc_state_run; [done|]. intros G g Hidle Hg Hnx HN. cbn [negb].
  wp_step. wp_step. destruct (alloc_total (p_tmp (with_gcs G σ)) (16 * SIZEOF_SINT)) as [tmp Ht]. rewrite Ht.
  apply alloc_fresh in Ht. cbn in Ht. wp_step. wp_step. wp_step. wp_step. wp_step.
  change ((with_gcs G σ) <| p_tmp ::= λ T, {[tmp]} ∪ T |>) with (with_gcs G (σ <| p_tmp ::= λ T, {[tmp]} ∪ T |>)).
  eapply (register_loop_run _ G _ x sizes tl [] 16 g); [done| |done|done|done|lia|].
  { rewrite <- (length_fmap make_small sizes). by eapply list_at_fuel. }
  intros G' g' Hi' Hg' _ _ Hoa. rewrite Hnx in *.
  destruct (HQ G' tmp Hi') as [Hbad Hok]; [|done|].
  { destruct Hoa as [O1 O2 O3]. rewrite HN in *. by split. }
  cbn [app]. case_decide as Htl; [by wp_step; apply Hbad|].
  wp_step. eapply (make_ids_run _ NIL _ []); [done| |].
  { rewrite length_rev, length_seqZ, Nat2Z.id. apply Hroom. by destruct (decide (tl = NIL)). }
  intros y h _ Hy.
  rewrite app_nil_r, map_rev, rev_involutive in Hy. wp_step. unfold free_tmp. wp_step. wp_step.
  rewrite decide_True by (cbn; set_solver). wp_step. wp_step.
  assert (∀ σ', σ' = (with_gcs G' σ) <| p_heap := h |> → Q (BIF_RET y) σ') as Hfin.
  { intros σ' ->. apply Hok; [by destruct (decide (tl = NIL))|done]. }
  apply Hfin. destruct σ. cbn in *. f_equal. set_solver.
Qed.

(** Registering objects from a proper list of sizes creates one white,
    unreferenced object per size, with a payload exactly when the size is not zero,
    leaves the existing objects as they are, returns the list of the new
    identifiers in the order of the sizes, and frees its temporary array. *)
Theorem register_objects_creates σ x sizes :
  gc_ready σ → list_at (p_heap σ) x (make_small <$> sizes) NIL → sizes ≠ [] →
  Forall (λ s, 0 ≤ s ≤ MAX_SMALL)%Z sizes → (first_id σ + Z.of_nat (length sizes) < 2 ^ 62)%Z →
  heap_room (p_heap σ) (length sizes) →
  ∃ y σ', pon_gc_register_objects_1 x σ = Some (BIF_RET y, σ') ∧ gc_idle (gcs_of σ') ∧
    objects_added (first_id σ) (gcs_of σ) (gcs_of σ') sizes ∧
    list_at (p_heap σ') y (make_small <$> seqZ (first_id σ) (Z.of_nat (length sizes))) NIL ∧
    p_tmp σ' = p_tmp σ.
Proof.
  intros Hrd Hx Hne Hs Hid Hroom.
  destruct (wp_elim (pon_gc_register_objects_1 x) (λ r σ', ∃ y, r = BIF_RET y ∧ gc_idle (gcs_of σ') ∧
    objects_added (first_id σ) (gcs_of σ) (gcs_of σ') sizes ∧
    list_at (p_heap σ') y (make_small <$> seqZ (first_id σ) (Z.of_nat (length sizes))) NIL ∧
    p_tmp σ' = p_tmp σ) σ) as (r & σ' & Hr & y & -> & ?); [|by eauto].
  eapply register_objects_run; [done..|]. intros G tmp Hi Ho _. split; [done|]. intros y h _ Hy.
  exists y. split; [done|]. destruct G. done.
Qed.

(** When the list of sizes is improper the function fails with [badarg] only
    after it has created all the objects: they stay in the collector of the
    process, under identifiers the caller never learns, and the temporary array is
    not freed. *)
Theorem register_objects_improper_leaks σ x sizes tl :
  gc_ready σ → list_at (p_heap σ) x (make_small <$> sizes) tl → sizes ≠ [] → tl ≠ NIL →
  Forall (λ s, 0 ≤ s ≤ MAX_SMALL)%Z sizes → (first_id σ + Z.of_nat (length sizes) < 2 ^ 62)%Z →
  ∃ σ', pon_gc_register_objects_1 x σ = Some (BADARG, σ') ∧
    size (p_nodes σ') = size (p_nodes σ) + length sizes ∧ size (p_tmp σ') = S (size (p_tmp σ)).
Proof.
  intros Hrd Hx Hne Htl Hs Hid.
  destruct (wp_elim (pon_gc_register_objects_1 x) (λ r σ', r = BADARG ∧
    size (p_nodes σ') = size (p_nodes σ) + length sizes ∧ size (p_tmp σ') = S (size (p_tmp σ))) σ)
    as (r & σ' & Hr & -> & ?); [|by eauto].
  eapply register_objects_run; [done..|]. intros G tmp Hi Ho Htmp. split; [|done]. intros _. split; [done|].
  split; [apply (oa_count _ _ _ _ Ho)|]. cbn. rewrite size_union, size_singleton by set_solver. lia.
Qed.

End gc_bifs.

(** A collection reports the number of objects it freed, which are exactly
    the unreachable ones, reports no live object whatever survived, and adds the
    notifications of all the collections so far to the counter of the thread. *)
Theorem collect_reports `{Alloc : Allocator} σ g :
  gc_idle (gcs_of σ) → p_gc σ = Some g →
  ∃ rep σ' G' g' dead, pon_gc_collect_0 σ = Some (BIF_RET rep, σ') ∧ gc_idle (gcs_of σ') ∧
    collected (gcs_of σ) G' g dead ∧ pon_gc G' = Some g' ∧
    p_gc σ' = Some g' ∧ p_nodes σ' = nodes G' ∧ p_blobs σ' = blobs G' ∧
    rep !! 0 = Some ("collected"%string, make_small (s64 (u64 (Z.of_nat (length dead))))) ∧
    rep !! 1 = Some ("live"%string, make_small 0) ∧
    p_stats σ' = (p_stats σ) <| gc_notifications_sent ::= PON_STATS_ADD (notifications_sent g') |>
      <| gc_scans_avoided ::= PON_STATS_ADD (u64 (Z.of_nat (length dead))) |>
      <| gc_incremental_steps ::= PON_STATS_INC |>.
Proof.
  intros Hidle Hg. unfold pon_gc_collect_0.
  assert (on_gcs erts_pon_gc_state σ = Some (true, σ)) as Hst.
  { unfold on_gcs, erts_pon_gc_state, mbind, M_bind, get. cbn. rewrite Hg. destruct σ. cbn in *. by rewrite Hg. }
  unfold mbind at 1, M_bind at 1. rewrite Hst. cbn [negb].
  destruct (wp_elim _ _ _ (pon_gc_mark_sweep_spec _ g Hidle Hg)) as (r & G' & Hr & Hi' & dead & Hc & ->).
  destruct (gi_wf _ Hi') as (g' & Hg' & _ & _ & _ & _ & Hlive & _).
  unfold mbind, M_bind, on_gcs. rewrite Hr. rewrite gcs_of_with. unfold get_gc, mbind, M_bind, get, deref.
  rewrite Hg'. cbn. rewrite Hlive. eexists _, _, G', g', dead. split; [reflexivity|]. cbn.
  assert (stats G' = p_stats σ) as -> by apply Hc. destruct G' as [o N B t]. cbn in *.
  split_and!; try done. by destruct Hi' as [? ?]; split.
Qed.

(** ** A concrete process

    The factory takes the words above all those in use. *)

Definition heap_top (h : heap) : Z := foldr Z.max 0%Z (map_to_list h).*1.

#[global] Instance bump_factory : HeapFactory :=
  {| produce_heap := λ h _, (8 * (heap_top h / 8 + 1))%Z;
     heap_room := λ h k, ∀ a, a = 0%Z ∨ is_Some (h !! a) → (a + 16 * Z.of_nat k + 16 < 2 ^ 64)%Z |}.

Lemma foldr_max_spec (l : list Z) :
  (∀ a, a ∈ l → (a ≤ foldr Z.max 0 l)%Z) ∧ (foldr Z.max 0 l = 0 ∨ foldr Z.max 0 l ∈ l)%Z.
Proof.
  induction l as [|x l [IH1 IH2]]; cbn; [split; [by intros a ?%elem_of_nil|by left]|]. split.
  - intros a [->|Ha]%elem_of_cons; [lia|]. apply IH1 in Ha. lia.
  - destruct (Z.max_spec x (foldr Z.max 0 l)%Z) as [[? ->]|[? ->]]; set_solver.
Qed.

Lemma heap_top_bound h a : is_Some (h !! a) → (a ≤ heap_top h)%Z.
Proof.
  intros [w Hw]. apply foldr_max_spec. apply list_elem_of_fmap. exists (a, w).
  split; [done|]. by apply elem_of_map_to_list.
Qed.

Lemma heap_top_used h : heap_top h = 0%Z ∨ is_Some (h !! heap_top h).
Proof.
  destruct (foldr_max_spec (map_to_list h).*1) as [_ [H|H]]; [by left|right].
  apply list_elem_of_fmap in H as ([a w] & Ha & Hw%elem_of_map_to_list). cbn in Ha.
  unfold heap_top. rewrite Ha. eauto.
Qed.

#[global] Instance bump_factory_laws : HeapFactoryLaws bump_factory.
Proof.
  assert (∀ h, 0 ≤ heap_top h)%Z as H0 by (intros h; unfold heap_top; induction (_.*1); cbn; lia).
  assert (∀ h, heap_top h < produce_heap h 2 ≤ heap_top h + 8)%Z as Hb.
  { intros h. cbn. pose proof (Z_div_mod_eq_full (heap_top h) 8).
    pose proof (Z.mod_pos_bound (heap_top h) 8). lia. }
  split.
  - intros h k Hr. specialize (Hr _ (heap_top_used h)). specialize (Hb h). specialize (H0 h).
    split; [lia|]. cbn. by rewrite Z.mul_comm, Z_mod_mult.
  - intros h k i _ Hi. apply eq_None_not_Some. intros H%heap_top_bound. specialize (Hb h). lia.
  - intros h k v w Hr a Ha. pose proof (Hr _ (heap_top_used h)). specialize (Hb h).
    destruct (decide (a = produce_heap h 2 + 8)%Z) as [->|H1]; [lia|].
    destruct (decide (a = produce_heap h 2)%Z) as [->|H2]; [lia|].
    rewrite !lookup_insert_ne in Ha by done. apply Hr in Ha. lia.
Qed.

(** The lists [[7, true]] at 64, [[0, 24]] at 96 and the improper [[8 | true]] at 128. *)
Definition demo_heap : heap :=
  list_to_map [(64, make_small 7); (72, make_list 80); (80, am_true); (88, NIL);
    (96, make_small 0); (104, make_list 112); (112, make_small 24); (120, NIL);
    (128, make_small 8); (136, am_true)]%Z.

Definition demo_proc : proc := mkProc demo_heap NULL ∅ None ∅ ∅ ∅ pon_stats_zero.

Lemma total_alloc_total used z : is_Some (@alloc total_allocator used z).
Proof. by eexists. Qed.

Lemma demo_registered : registered demo_proc [].
Proof. exists []. apply new_chain_nil. Qed.

Lemma demo_list x0 x1 t0 t1 :
  is_list x0 = true → word demo_heap (list_val x0) 0 = Some t0 → word demo_heap (list_val x0) 1 = Some x1 →
  is_list x1 = true → word demo_heap (list_val x1) 0 = Some t1 → word demo_heap (list_val x1) 1 = Some NIL →
  list_at demo_heap x0 [t0; t1] NIL.
Proof. cbn [list_at]. eauto 15. Qed.

Lemma demo_improper : list_at demo_heap (make_list 128) [make_small 8] am_true.
Proof. cbn [list_at]. split; [by vm_compute|]. split; [by vm_compute|]. exists am_true. by vm_compute. Qed.

Lemma demo_proper : list_at demo_heap (make_list 64) [make_small 7; am_true] NIL.
Proof. by apply (demo_list _ (make_list 80)); vm_compute. Qed.

Lemma demo_empty : list_at demo_heap NIL [] NIL.
Proof. split; [done|by vm_compute]. Qed.

Lemma register_premises_replaces_witness :
  (∃ σ', pon_register_premises_1 (make_list 64) demo_proc = Some (BIF_RET am_true, σ') ∧
    registered σ' [make_small 7; am_true] ∧ p_heap σ' = demo_heap ∧ p_tmp σ' = ∅ ∧
    p_stats σ' = pon_stats_zero <| premises_registered ::= PON_STATS_INC |>) ∧
  pon_register_premises_1 NIL demo_proc = Some (BADARG, demo_proc) ∧
  pon_register_premises_1 (make_list 128) demo_proc = Some (BADARG, demo_proc).
Proof.
  split; [|split].
  - destruct (register_premises_replaces demo_proc (make_list 64) [make_small 7; am_true] NIL [] total_alloc_total
      demo_registered demo_proper) as (r & σ' & Hr & H).
    rewrite decide_True in H by done. destruct H as (-> & H). exists σ'. split; [exact Hr|exact H].
  - destruct (register_premises_replaces demo_proc NIL [] NIL [] total_alloc_total demo_registered demo_empty)
      as (r & σ' & Hr & H).
    rewrite decide_False in H by (by intros [? _]). destruct H as [-> ->]. exact Hr.
  - destruct (register_premises_replaces demo_proc (make_list 128) [make_small 8] am_true [] total_alloc_total
      demo_registered demo_improper) as (r & σ' & Hr & H).
    rewrite decide_False in H by (by intros [_ ?]). destruct H as [-> ->]. exact Hr.
Defined.

Lemma demo_ready : gc_ready demo_proc.
Proof. done. Qed.

Lemma register_objects_creates_witness :
  ∃ y σ', pon_gc_register_objects_1 (make_list 96) demo_proc = Some (BIF_RET y, σ') ∧ gc_idle (gcs_of σ') ∧
    objects_added (first_id demo_proc) (gcs_of demo_proc) (gcs_of σ') [0%Z; 24%Z] ∧
    list_at (p_heap σ') y (make_small <$> seqZ (first_id demo_proc) (Z.of_nat (length [0%Z; 24%Z]))) NIL ∧
    p_tmp σ' = p_tmp demo_proc.
Proof.
  apply (register_objects_creates total_alloc_total (λ _, eq_refl) demo_proc (make_list 96) [0%Z; 24%Z]).
  - apply demo_ready.
  - by apply (demo_list _ (make_list 112)); vm_compute.
  - done.
  - by repeat constructor.
  - by vm_compute.
  - intros a [->|Ha%heap_top_bound]; [by vm_compute|].
    assert (heap_top (p_heap demo_proc) = 136)%Z as Ht by (by vm_compute). rewrite Ht in Ha. cbn. lia.
Defined.

Lemma register_objects_improper_leaks_witness :
  ∃ σ', pon_gc_register_objects_1 (make_list 128) demo_proc = Some (BADARG, σ') ∧
    size (p_nodes σ') = size (p_nodes demo_proc) + length [8%Z] ∧
    size (p_tmp σ') = S (size (p_tmp demo_proc)).
Proof.
  apply (register_objects_improper_leaks total_alloc_total (λ _, eq_refl) demo_proc (make_list 128) [8%Z] am_true).
  - apply demo_ready.
  - apply demo_improper.
  - done.
  - by vm_compute.
  - by repeat constructor.
  - by vm_compute.
Defined.

(** A process whose collector holds the graph of the collector's examples. *)
Definition graph_proc : proc :=
  mkProc demo_heap NULL ∅ (pon_gc demo) (nodes demo) (blobs demo) ∅ (stats demo).

Lemma gcs_eta_of (G : gcs) : mkGcs (pon_gc G) (nodes G) (blobs G) (stats G) = G.
Proof. by destruct G. Qed.

Lemma graph_proc_idle : gc_idle (gcs_of graph_proc).
Proof.
  unfold gcs_of, graph_proc. cbn [p_gc p_nodes p_blobs p_stats]. rewrite gcs_eta_of. exact demo_idle.
Qed.

Lemma graph_proc_gc : p_gc graph_proc = Some (gc_of demo).
Proof. unfold graph_proc. cbn [p_gc]. exact (gc_of_idle _ demo_idle). Qed.

Lemma collect_reports_witness :
  ∃ rep σ' G' g' dead, pon_gc_collect_0 graph_proc = Some (BIF_RET rep, σ') ∧ gc_idle (gcs_of σ') ∧
    collected (gcs_of graph_proc) G' (gc_of demo) dead ∧ pon_gc G' = Some g' ∧
    p_gc σ' = Some g' ∧ p_nodes σ' = nodes G' ∧ p_blobs σ' = blobs G' ∧
    rep !! 0 = Some ("collected"%string, make_small (s64 (u64 (Z.of_nat (length dead))))) ∧
    rep !! 1 = Some ("live"%string, make_small 0) ∧
    p_stats σ' = (p_stats graph_proc) <| gc_notifications_sent ::= PON_STATS_ADD (notifications_sent g') |>
      <| gc_scans_avoided ::= PON_STATS_ADD (u64 (Z.of_nat (length dead))) |>
      <| gc_incremental_steps ::= PON_STATS_INC |>.
Proof.
  apply (collect_reports graph_proc (gc_of demo)).
  - exact graph_proc_idle.
  - exact graph_proc_gc.
Defined.
