(* ===== verification/TimerWheel.v ===== *)
(** Model of the timer wheel of [erts/emulator/beam/time.c] (types in
    [erl_time.h]): timers in circular doubly linked lists, one per slot of a soon
    and a later wheel, with the counts that let a search skip empty slots and the
    timerfd that PON arms at the next deadline. *)

From S2P Require Import Prelude PonStats Kernel.
From stdpp Require Import base numbers list gmap.
From Stdlib Require Import ZArith.

(** ** Constants *)

Definition ERTS_TW_SOON_WHEEL_BITS : Z := 14.
Definition ERTS_TW_LATER_WHEEL_BITS : Z := 14.
Definition ERTS_TW_SOON_WHEEL_SIZE : Z := Z.shiftl 1 ERTS_TW_SOON_WHEEL_BITS.
Definition ERTS_TW_LATER_WHEEL_SIZE : Z := Z.shiftl 1 ERTS_TW_LATER_WHEEL_BITS.
Definition ERTS_TWHEEL_BUMP_YIELD_LIMIT : Z := 10000.
Definition ERTS_TW_COST_SLOT : Z := 1.
Definition ERTS_TW_COST_SLOT_MOVE : Z := 5.
Definition ERTS_TW_COST_TIMEOUT : Z := 100.
Definition ERTS_TW_SOON_WHEEL_FIRST_SLOT : Z := 0.
Definition ERTS_TW_SOON_WHEEL_END_SLOT : Z := ERTS_TW_SOON_WHEEL_FIRST_SLOT + ERTS_TW_SOON_WHEEL_SIZE.
Definition ERTS_TW_SOON_WHEEL_MASK : Z := ERTS_TW_SOON_WHEEL_SIZE - 1.
Definition ERTS_TW_LATER_WHEEL_SHIFT : Z := ERTS_TW_SOON_WHEEL_BITS - 1.
Definition ERTS_TW_LATER_WHEEL_SLOT_SIZE : Z := Z.shiftl 1 ERTS_TW_LATER_WHEEL_SHIFT.
Definition ERTS_TW_LATER_WHEEL_POS_MASK : Z := Z.lnot (Z.shiftl 1 ERTS_TW_LATER_WHEEL_SHIFT - 1).
Definition ERTS_TW_LATER_WHEEL_FIRST_SLOT : Z := ERTS_TW_SOON_WHEEL_SIZE.
Definition ERTS_TW_LATER_WHEEL_END_SLOT : Z := ERTS_TW_LATER_WHEEL_FIRST_SLOT + ERTS_TW_LATER_WHEEL_SIZE.
Definition ERTS_TW_LATER_WHEEL_MASK : Z := ERTS_TW_LATER_WHEEL_SIZE - 1.
Definition ERTS_TW_SCNT_BITS : Z := 9.
Definition ERTS_TW_SCNT_SIZE : Z :=
  Z.shiftr (ERTS_TW_SOON_WHEEL_SIZE + ERTS_TW_LATER_WHEEL_SIZE) ERTS_TW_SCNT_BITS.
Definition ERTS_TW_SLOT_AT_ONCE : Z := -1.
Definition ERTS_TW_SLOT_INACTIVE : Z := -2.

(** ** Time units

    The build's monotonic time counts nanoseconds, a clock tick is a
    millisecond; C division truncates. Times and positions are signed 64-bit
    integers in C, whose overflow is undefined: the model computes with exact
    integers, and [next_timeout_not_late] states for which positions the time
    returned fits. *)

Definition ERTS_MONOTONIC_TIME_UNIT : Z := 1000000000.
Definition ERTS_CLKTCK_RESOLUTION : Z := 1000.
Definition ERTS_MONOTONIC_TIME_MAX : Z := 2 ^ 63 - 1.
Definition ERTS_MONOTONIC_TO_CLKTCKS (MON : Z) : Z :=
  Z.quot MON (Z.quot ERTS_MONOTONIC_TIME_UNIT ERTS_CLKTCK_RESOLUTION).
Definition ERTS_CLKTCKS_TO_MONOTONIC (TCKS : Z) : Z :=
  TCKS * Z.quot ERTS_MONOTONIC_TIME_UNIT ERTS_CLKTCK_RESOLUTION.
Definition ERTS_MONOTONIC_TO_USEC (NSEC : Z) : Z := Z.quot NSEC 1000.
Definition ERTS_SEC_TO_MONOTONIC (SEC : Z) : Z := SEC * 1000000000.
Definition ERTS_MAX_CLKTCKS : Z := ERTS_MONOTONIC_TO_CLKTCKS ERTS_MONOTONIC_TIME_MAX.
Definition ERTS_CLKTCKS_WEEK : Z :=
  ERTS_MONOTONIC_TO_CLKTCKS (ERTS_SEC_TO_MONOTONIC (7 * 60 * 60 * 24)).

(** ** Data *)

Record ErtsTWheelTimer : Type := mkErtsTWheelTimer {
  timeout_pos : Z;                (* ErtsMonotonicTime *)
  t_next : option positive;
  t_prev : option positive;
  t_timeout : Z;                  (* the callback *)
  t_arg : Z;
  t_slot : Z                      (* int *)
}.

#[global] Instance ErtsTWheelTimer_eta : Eta ErtsTWheelTimer := λ t,
  mkErtsTWheelTimer (timeout_pos t) (t_next t) (t_prev t) (t_timeout t) (t_arg t) (t_slot t).

Record ErtsTimerWheel : Type := mkErtsTimerWheel {
  w : gmap Z positive;            (* from AT_ONCE; an absent slot is NULL *)
  scnt : list Z;                  (* Sint array *)
  bump_scnt : list Z;             (* Sint array *)
  pos : Z;
  nto : Z;                        (* Uint *)
  at_once_nto : Z;                (* Uint *)
  soon_min_tpos : Z;
  soon_nto : Z;                   (* Uint *)
  later_min_tpos : Z;
  later_min_tpos_slot : Z;        (* int *)
  later_pos : Z;
  later_nto : Z;                  (* Uint *)
  yield_slot : Z;                 (* int *)
  yield_slots_left : Z;           (* int *)
  true_next_timeout_time : bool;
  next_timeout_pos : Z;
  next_timeout_time : Z;
  pon_fd : Z;                     (* int *)
  pon_armed_deadline : Z
}.

#[global] Instance ErtsTimerWheel_eta : Eta ErtsTimerWheel := λ x, mkErtsTimerWheel
  (w x) (scnt x) (bump_scnt x) (pos x) (nto x) (at_once_nto x) (soon_min_tpos x) (soon_nto x)
  (later_min_tpos x) (later_min_tpos_slot x) (later_pos x) (later_nto x) (yield_slot x)
  (yield_slots_left x) (true_next_timeout_time x) (next_timeout_pos x) (next_timeout_time x)
  (pon_fd x) (pon_armed_deadline x).

(** A wheel, the timer structures by address (the field [sentinel] of the wheel
    has the address [SENTINEL]), the current monotonic time, the kernel, the
    counters, and the callbacks that ran, as a history. *)
Record tws : Type := mkTws {
  tiw : ErtsTimerWheel;
  timers : gmap positive ErtsTWheelTimer;
  now : Z;
  tw_kernel : kernel;
  tw_stats : PonStats;
  g_fired : list (positive * Z * Z)
}.

#[global] Instance tws_eta : Eta tws := λ σ,
  mkTws (tiw σ) (timers σ) (now σ) (tw_kernel σ) (tw_stats σ) (g_fired σ).

Definition SENTINEL : positive := 1.

Abbreviation TW A := (M tws A).

(** ** Memory accesses *)

Definition get_tiw : TW ErtsTimerWheel := σ ← get; mret (tiw σ).
Definition upd_tiw (f : ErtsTimerWheel → ErtsTimerWheel) : TW unit := modify (λ σ, σ <| tiw ::= f |>).

(** A null or unmapped pointer is undefined. *)
Definition load_t (p : option positive) : TW ErtsTWheelTimer :=
  a ← deref p; σ ← get; deref (timers σ !! a).
Definition upd_t (p : option positive) (f : ErtsTWheelTimer → ErtsTWheelTimer) : TW unit :=
  _ ← load_t p; a ← deref p; modify (λ σ, σ <| timers ::= alter f a |>).

Definition slot_ok (slot : Z) : Prop :=
  (ERTS_TW_SLOT_AT_ONCE ≤ slot < ERTS_TW_LATER_WHEEL_END_SLOT)%Z.
#[global] Instance slot_ok_dec slot : Decision (slot_ok slot).
Proof. unfold slot_ok. apply _. Defined.

(** [tiw->w[slot]] *)
Definition get_w (slot : Z) : TW (option positive) :=
  if decide (slot_ok slot) then (x ← get_tiw; mret (w x !! slot)) else ub.
Definition set_w (slot : Z) (p : option positive) : TW unit :=
  if decide (slot_ok slot)
  then upd_tiw (λ x, x <| w ::= match p with Some a => <[slot := a]> | None => delete slot end |>)
  else ub.

Definition inc_tw_stat (f : PonStats → PonStats) : TW unit := modify (λ σ, σ <| tw_stats ::= f |>).

(** ** Slots and their counts *)

Definition scnt_get_ix (slot : Z) : Z := Z.shiftr slot ERTS_TW_SCNT_BITS.

(** [scnt[ix] += d] *)
Definition scnt_add (d : Z) (ix : Z) (c : list Z) : list Z := alter (λ v, s64 (v + d)) (Z.to_nat ix) c.

Definition scnt_inc (slot : Z) : TW unit := upd_tiw (λ x, x <| scnt ::= scnt_add 1 (scnt_get_ix slot) |>).
Definition scnt_dec (slot : Z) : TW unit := upd_tiw (λ x, x <| scnt ::= scnt_add (-1) (scnt_get_ix slot) |>).
Definition scnt_ix_dec (six : Z) : TW unit := upd_tiw (λ x, x <| scnt ::= scnt_add (-1) six |>).
Definition bump_scnt_ix_dec (six : Z) : TW unit := upd_tiw (λ x, x <| bump_scnt ::= scnt_add (-1) six |>).

Definition soon_slot (soon_pos : Z) : Z := Z.land soon_pos ERTS_TW_SOON_WHEEL_MASK.

Definition later_slot (later_pos : Z) : Z :=
  let slot := Z.shiftr later_pos ERTS_TW_LATER_WHEEL_SHIFT in
  let slot := Z.land slot ERTS_TW_LATER_WHEEL_MASK in
  slot + ERTS_TW_LATER_WHEEL_FIRST_SLOT.

(** The loop of [scnt_wheel_next]: every iteration moves at least one slot. [past]
    is what reading the word behind the array yields, [None] when such a read is
    undefined. *)
Fixpoint scnt_skip (past : option Z) (c : list Z) (first_slot end_slot : Z) (fuel : nat)
    (slot ix left : Z) : option (Z * Z) :=
  v ← match c !! Z.to_nat ix with Some v => Some v | None => past end;
  if decide (v = 0 ∧ 0 < left)%Z then
    match fuel with
    | O => None
    | S f =>
        let old_slot := slot in
        let ix := (ix + 1)%Z in
        let slot := Z.shiftl ix ERTS_TW_SCNT_BITS in
        let diff := (slot - old_slot)%Z in
        let slot := if decide (left < diff)%Z then (old_slot + left)%Z else slot in
        let diff := if decide (left < diff)%Z then left else diff in
        if decide (slot < end_slot)%Z
        then scnt_skip past c first_slot end_slot f slot ix (left - diff)
        else scnt_skip past c first_slot end_slot f first_slot (scnt_get_ix first_slot)
               (left - (end_slot - old_slot))
    end
  else Some (slot, left).

(** The new [*slotp], [*leftp], [*posp]; [*sixp] is the index of the new slot. *)
Definition scnt_wheel_next (past : option Z) (slot left pos : Z) (c : list Z)
    (first_slot end_slot slot_sz : Z) : option (Z * Z * Z) :=
  let left' := (left - 1)%Z in
  let slot := (slot + 1)%Z in
  let slot := if decide (slot = end_slot) then first_slot else slot in
  '(slot, left'') ← scnt_skip past c first_slot end_slot (Z.to_nat left') slot (scnt_get_ix slot) left';
  Some (slot, left'', (pos + slot_sz * (left - left''))%Z).

Definition scnt_soon_wheel_next past slot left pos c :=
  scnt_wheel_next past slot left pos c ERTS_TW_SOON_WHEEL_FIRST_SLOT ERTS_TW_SOON_WHEEL_END_SLOT 1.

Definition scnt_later_wheel_next past slot left pos c :=
  scnt_wheel_next past slot left pos c ERTS_TW_LATER_WHEEL_FIRST_SLOT ERTS_TW_LATER_WHEEL_END_SLOT
    ERTS_TW_LATER_WHEEL_SLOT_SIZE.

(** ** Inserting and removing *)

(** [p] becomes the last timer of the list of [slot]. *)
Definition link_timer (slot : Z) (p : positive) : TW unit :=
  h ← get_w slot;
  match h with
  | None =>
      set_w slot (Some p);;
      upd_t (Some p) (λ t, t <| t_next := Some p |>);;
      upd_t (Some p) (λ t, t <| t_prev := Some p |>)
  | Some next =>
      n ← load_t (Some next);
      let prev := t_prev n in
      upd_t (Some p) (λ t, t <| t_next := Some next |>);;
      upd_t (Some p) (λ t, t <| t_prev := prev |>);;
      upd_t prev (λ t, t <| t_next := Some p |>);;
      upd_t (Some next) (λ t, t <| t_prev := Some p |>)
  end.

Definition count_inserted (slot : Z) (p : positive) : TW unit :=
  if decide (slot = ERTS_TW_SLOT_AT_ONCE) then upd_tiw (λ x, x <| at_once_nto ::= λ v, u64 (v + 1) |>)
  else
    t ← load_t (Some p);
    let tpos := timeout_pos t in
    (if decide (slot < ERTS_TW_SOON_WHEEL_END_SLOT)%Z then
       upd_tiw (λ x, x <| soon_nto ::= λ v, u64 (v + 1) |>);;
       upd_tiw (λ x, if decide (soon_min_tpos x > tpos)%Z then x <| soon_min_tpos := tpos |> else x)
     else
       upd_tiw (λ x, x <| later_nto ::= λ v, u64 (v + 1) |>);;
       upd_tiw (λ x, if decide (later_min_tpos x > tpos)%Z
                     then x <| later_min_tpos := tpos |> <| later_min_tpos_slot := slot |> else x));;
    scnt_inc slot.

Definition insert_timer_into_slot (slot : Z) (p : positive) : TW unit :=
  upd_t (Some p) (λ t, t <| t_slot := slot |>);;
  link_timer slot p;;
  count_inserted slot p.

(** The last timer of the soon, of the later wheel is gone. *)
Definition dec_soon : TW unit :=
  upd_tiw (λ x, x <| soon_nto ::= λ v, u64 (v - 1) |>);;
  upd_tiw (λ x, if decide (soon_nto x = 0)%Z then x <| soon_min_tpos := ERTS_MAX_CLKTCKS |> else x).

Definition dec_later : TW unit :=
  upd_tiw (λ x, x <| later_nto ::= λ v, u64 (v - 1) |>);;
  upd_tiw (λ x, if decide (later_nto x = 0)%Z
    then x <| later_min_tpos := ERTS_MAX_CLKTCKS |> <| later_min_tpos_slot := ERTS_TW_LATER_WHEEL_END_SLOT |>
    else x).

(** [p] leaves the list it is in; whether that was the list of a slot that has
    become empty. *)
Definition unlink_timer (slot : Z) (p : positive) : TW bool :=
  t ← load_t (Some p);
  if decide (t_next t = Some p) then set_w slot NULL;; mret true
  else
    h ← get_w slot;
    (if decide (h = Some p) then set_w slot (t_next t) else mret tt);;
    upd_t (t_prev t) (λ u, u <| t_next := t_next t |>);;
    t' ← load_t (Some p);
    upd_t (t_next t') (λ u, u <| t_prev := t_prev t' |>);;
    mret false.

Definition count_removed (slot : Z) (tpos : Z) (empty_slot : bool) : TW unit :=
  if decide (slot = ERTS_TW_SLOT_AT_ONCE) then upd_tiw (λ x, x <| at_once_nto ::= λ v, u64 (v - 1) |>)
  else
    scnt_dec slot;;
    x ← get_tiw;
    if decide (slot < ERTS_TW_SOON_WHEEL_END_SLOT)%Z then
      (if empty_slot && true_next_timeout_time x && bool_decide (tpos = next_timeout_pos x)
            && bool_decide (yield_slot x = ERTS_TW_SLOT_INACTIVE)
       then upd_tiw (λ x, x <| true_next_timeout_time := false |>) else mret tt);;
      dec_soon
    else
      (if empty_slot && true_next_timeout_time x && bool_decide (later_min_tpos_slot x = slot) then
         let tpos := (Z.land (later_min_tpos x) ERTS_TW_LATER_WHEEL_POS_MASK - ERTS_TW_LATER_WHEEL_SLOT_SIZE)%Z in
         if bool_decide (tpos = next_timeout_pos x) && bool_decide (yield_slot x = ERTS_TW_SLOT_INACTIVE)
         then upd_tiw (λ x, x <| true_next_timeout_time := false |>) else mret tt
       else mret tt);;
      dec_later.

Definition remove_timer (p : positive) : TW unit :=
  t ← load_t (Some p);
  let slot := t_slot t in
  empty_slot ← unlink_timer slot p;
  count_removed slot (timeout_pos t) empty_slot;;
  upd_t (Some p) (λ t, t <| t_slot := ERTS_TW_SLOT_INACTIVE |>).

(** ** Searching the next timeout *)

Definition later_end_pos (pos : Z) : Z := Z.land (pos + ERTS_TW_SOON_WHEEL_SIZE) ERTS_TW_LATER_WHEEL_POS_MASK.

(** No timer at all: the wheel moves to the current time. *)
Definition find_in_empty : TW (Z * bool) :=
  σ ← get;
  let min_timeout_pos := ERTS_MONOTONIC_TO_CLKTCKS (now σ) in
  upd_tiw (λ x, x <| pos := min_timeout_pos |> <| later_pos := later_end_pos min_timeout_pos |>);;
  mret ((min_timeout_pos + ERTS_CLKTCKS_WEEK)%Z, false).

Section timer_wheel.
Context `{K : Kernel} (past : option Z).

(** Only the later wheel holds timers: the first used range of slots. *)
Definition find_in_later : TW (Z * bool) :=
  x ← get_tiw;
  let min_tpos := Z.land (later_min_tpos x) ERTS_TW_LATER_WHEEL_POS_MASK in
  let tmp := Z.quot (min_tpos - later_pos x) ERTS_TW_LATER_WHEEL_SLOT_SIZE in
  if decide (later_pos x < min_tpos ∧ ERTS_TW_LATER_WHEEL_SIZE ≤ tmp)%Z then
    mret ((min_tpos - ERTS_TW_LATER_WHEEL_SLOT_SIZE)%Z, false)
  else
    let tpos := if decide (min_tpos ≤ later_pos x)%Z then later_pos x else min_tpos in
    let slots := if decide (min_tpos ≤ later_pos x)%Z then ERTS_TW_LATER_WHEEL_SIZE
                 else (ERTS_TW_LATER_WHEEL_SIZE - tmp)%Z in
    let slot := later_slot tpos in
    p ← get_w slot;
    '(slot, tpos, exact) ← match p with
      | Some _ => mret (slot, tpos, true)
      | None =>
          '(slot, _, tpos) ← deref (scnt_later_wheel_next past slot slots tpos (scnt x));
          mret (slot, tpos, false)
      end;
    upd_tiw (λ x, x <| later_min_tpos := tpos |> <| later_min_tpos_slot := slot |>);;
    mret ((tpos - ERTS_TW_LATER_WHEEL_SLOT_SIZE)%Z, exact).

(** The two slots of the later wheel that may have to be moved before the first
    timer of the soon wheel is due. *)
Definition find_later_move (min_timeout_pos : Z) : TW Z :=
  x ← get_tiw;
  if decide (later_min_tpos x > later_pos x + 2 * ERTS_TW_LATER_WHEEL_SLOT_SIZE)%Z then mret min_timeout_pos else
  let tpos := (later_pos x - ERTS_TW_LATER_WHEEL_SLOT_SIZE)%Z in
  let fslot := later_slot (later_pos x) in
  p ← get_w fslot;
  match p with
  | Some _ => mret tpos
  | None =>
      let tpos := (tpos + ERTS_TW_LATER_WHEEL_SLOT_SIZE)%Z in
      if decide (tpos < min_timeout_pos)%Z then
        let fslot := (fslot + 1)%Z in
        let fslot := if decide (fslot = ERTS_TW_LATER_WHEEL_END_SLOT) then ERTS_TW_LATER_WHEEL_FIRST_SLOT else fslot in
        p ← get_w fslot;
        mret (match p with Some _ => tpos | None => min_timeout_pos end)
      else mret min_timeout_pos
  end.

(** [while (tpos < min_timeout_pos)]: every iteration moves at least one slot. *)
Fixpoint find_soon_loop (fuel : nat) (slot slots tpos min_timeout_pos : Z) : TW Z :=
  if decide (tpos < min_timeout_pos)%Z then
    p ← get_w slot;
    match p, fuel with
    | Some _, _ => mret tpos
    | None, O => ub
    | None, S f =>
        x ← get_tiw;
        '(slot, slots, tpos) ← deref (scnt_soon_wheel_next past slot slots tpos (scnt x));
        find_soon_loop f slot slots tpos min_timeout_pos
    end
  else mret min_timeout_pos.

Definition find_in_soon : TW (Z * bool) :=
  x ← get_tiw;
  min_timeout_pos ← find_later_move (pos x + ERTS_TW_SOON_WHEEL_SIZE);
  let tpos := if decide (soon_min_tpos x ≤ pos x)%Z then pos x else soon_min_tpos x in
  let slots := if decide (soon_min_tpos x ≤ pos x)%Z then ERTS_TW_SOON_WHEEL_SIZE
               else (ERTS_TW_SOON_WHEEL_SIZE - (soon_min_tpos x - pos x))%Z in
  min_timeout_pos ← find_soon_loop (Z.to_nat ERTS_TW_SOON_WHEEL_SIZE) (soon_slot tpos) slots tpos min_timeout_pos;
  upd_tiw (λ x, x <| soon_min_tpos := min_timeout_pos |>);;
  mret (min_timeout_pos, true).

Definition find_next_timeout : TW Z :=
  x ← get_tiw;
  '(min_timeout_pos, true_min_timeout) ←
    (if decide (nto x = 0)%Z then find_in_empty
     else if decide (soon_nto x = 0)%Z then find_in_later
     else find_in_soon);
  x ← get_tiw;
  let timeout_pos_limit := (pos x + ERTS_CLKTCKS_WEEK)%Z in
  let true_min_timeout := if decide (min_timeout_pos > timeout_pos_limit)%Z then false else true_min_timeout in
  let min_timeout_pos := if decide (min_timeout_pos > timeout_pos_limit)%Z then timeout_pos_limit
                         else min_timeout_pos in
  let min_timeout := ERTS_CLKTCKS_TO_MONOTONIC min_timeout_pos in
  upd_tiw (λ x, x <| next_timeout_pos := min_timeout_pos |> <| next_timeout_time := min_timeout |>
                  <| true_next_timeout_time := true_min_timeout |>);;
  mret min_timeout.

(** ** The timerfd canary *)

Definition tw_fails (c : syscall) : TW bool := σ ← get; mret (sys_fails (tw_kernel σ) c).
Definition upd_tw_kernel (f : kernel → kernel) : TW unit := modify (λ σ, σ <| tw_kernel ::= f |>).

(** Creates the timerfd of the wheel if there is none; [false] on failure. *)
Definition pon_wheel_fd : TW bool :=
  x ← get_tiw;
  if decide (pon_fd x = -1)%Z then
    f ← tw_fails SysTimerfdCreate;
    if f : bool then
      upd_tiw (λ x, x <| pon_fd := (-1)%Z |>);;
      upd_tiw (λ x, x <| pon_armed_deadline := (-1)%Z |>);; mret false
    else
      σ ← get;
      upd_tw_kernel (k_open (new_fd (fds (tw_kernel σ))));;
      upd_tiw (λ x, x <| pon_fd := new_fd (fds (tw_kernel σ)) |>);;
      inc_tw_stat (λ s, s <| timerfd_created ::= PON_STATS_INC |>);;
      mret true
  else mret true.

Definition pon_timer_wheel_arm : TW unit :=
  ok ← pon_wheel_fd;
  if negb ok then mret tt else
  x ← get_tiw;
  if decide (next_timeout_time x = pon_armed_deadline x) then mret tt else
  σ ← get;
  let deadline_us := ERTS_MONOTONIC_TO_USEC (next_timeout_time x) in
  let now_us := ERTS_MONOTONIC_TO_USEC (now σ) in
  if decide (deadline_us - now_us < 1000)%Z then
    (if decide (pon_armed_deadline x ≠ -1)%Z then
       f ← tw_fails (SysTimerfdSettime (pon_fd x));
       if f : bool then mret tt else
       upd_tw_kernel (k_disarm (pon_fd x));;
       upd_tiw (λ x, x <| pon_armed_deadline := (-1)%Z |>)
     else mret tt);;
    inc_tw_stat (λ s, s <| timer_wheel_fallback ::= PON_STATS_INC |>)
  else
    let tv_sec := s64 (u64 deadline_us / 1000000) in
    let tv_nsec := s64 (u64 deadline_us `mod` 1000000 * 1000) in
    f ← tw_fails (SysTimerfdSettime (pon_fd x));
    if f : bool then inc_tw_stat (λ s, s <| timer_wheel_fallback ::= PON_STATS_INC |>)
    else
      upd_tw_kernel (k_settime (pon_fd x) (tv_sec * 1000000000 + tv_nsec));;
      upd_tiw (λ x, x <| pon_armed_deadline := next_timeout_time x |>);;
      inc_tw_stat (λ s, s <| timer_instigations ::= PON_STATS_INC |>).

(** [timerfd_gettime] reports zero exactly for a timerfd that is not armed. *)
Definition pon_timer_wheel_can_skip_scan : TW bool :=
  x ← get_tiw;
  if decide (pon_fd x = -1 ∨ pon_armed_deadline x = -1)%Z then mret false else
  f ← tw_fails (SysTimerfdGettime (pon_fd x));
  if f : bool then mret false else
  σ ← get;
  mret (bool_decide (is_Some (armed (tw_kernel σ) !! pon_fd x))).

Definition erts_check_next_timeout_time : TW Z :=
  x ← get_tiw;
  if true_next_timeout_time x then mret (next_timeout_time x) else
  if decide (next_timeout_pos x > pos x + ERTS_TW_SOON_WHEEL_SIZE)%Z then mret (next_timeout_time x) else
  skip ← pon_timer_wheel_can_skip_scan;
  if skip : bool then
    inc_tw_stat (λ s, s <| timer_scans_avoided ::= PON_STATS_INC |>);;
    mret (next_timeout_time x)
  else
    inc_tw_stat (λ s, s <| timer_wheel_fallback ::= PON_STATS_INC |>);;
    find_next_timeout.

(** ** Setting and cancelling *)

Definition erts_twheel_init_timer (p : positive) : TW unit :=
  upd_t (Some p) (λ t, t <| t_slot := ERTS_TW_SLOT_INACTIVE |>).

Definition erts_twheel_set_timer (p : positive) (timeout arg tpos : Z) : TW unit :=
  upd_t (Some p) (λ t, t <| t_timeout := timeout |>);;
  upd_t (Some p) (λ t, t <| t_arg := arg |>);;
  upd_tiw (λ x, x <| nto ::= λ v, u64 (v + 1) |>);;
  x ← get_tiw;
  '(slot, tpos') ←
    (if decide (tpos ≤ pos x)%Z then
       upd_t (Some p) (λ t, t <| timeout_pos := pos x |>);;
       mret (ERTS_TW_SLOT_AT_ONCE, pos x)
     else if decide (tpos < pos x + ERTS_TW_SOON_WHEEL_SIZE)%Z then
       upd_t (Some p) (λ t, t <| timeout_pos := tpos |>);;
       upd_tiw (λ x, if decide (soon_min_tpos x > tpos)%Z then x <| soon_min_tpos := tpos |> else x);;
       mret (soon_slot tpos, tpos)
     else
       upd_t (Some p) (λ t, t <| timeout_pos := tpos |>);;
       mret (later_slot tpos, (Z.land tpos ERTS_TW_LATER_WHEEL_POS_MASK - ERTS_TW_LATER_WHEEL_SLOT_SIZE)%Z));
  insert_timer_into_slot slot p;;
  x ← get_tiw;
  if decide (tpos' ≤ next_timeout_pos x)%Z then
    upd_tiw (λ x, x <| true_next_timeout_time := true |>);;
    if decide (tpos' < next_timeout_pos x)%Z then
      upd_tiw (λ x, x <| next_timeout_pos := tpos' |>
                      <| next_timeout_time := ERTS_CLKTCKS_TO_MONOTONIC tpos' |>);;
      pon_timer_wheel_arm
    else mret tt
  else mret tt.

Definition erts_twheel_cancel_timer (p : positive) : TW unit :=
  t ← load_t (Some p);
  if decide (t_slot t ≠ ERTS_TW_SLOT_INACTIVE) then
    remove_timer p;;
    upd_tiw (λ x, x <| nto ::= λ v, u64 (v - 1) |>)
  else mret tt.

(** ** Creation *)

(** The freshly allocated wheel: its fields are arbitrary, its memory is that of
    [x]; [bump_scnt] and [yield_slots_left] are not initialised by the code. *)
Definition erts_create_timer_wheel : TW unit :=
  σ ← get;
  let ps := ERTS_MONOTONIC_TO_CLKTCKS (now σ) in
  let next_pos := (ps + ERTS_CLKTCKS_WEEK)%Z in
  upd_tiw (λ x, x <| w := ∅ |> <| scnt := replicate (Z.to_nat ERTS_TW_SCNT_SIZE) 0%Z |> <| pos := ps |>
    <| nto := 0%Z |> <| at_once_nto := 0%Z |> <| soon_min_tpos := ERTS_MAX_CLKTCKS |> <| soon_nto := 0%Z |>
    <| later_min_tpos := ERTS_MAX_CLKTCKS |> <| later_min_tpos_slot := ERTS_TW_LATER_WHEEL_END_SLOT |>
    <| later_pos := later_end_pos ps |> <| later_nto := 0%Z |> <| yield_slot := ERTS_TW_SLOT_INACTIVE |>
    <| true_next_timeout_time := false |> <| next_timeout_pos := next_pos |>
    <| next_timeout_time := ERTS_CLKTCKS_TO_MONOTONIC next_pos |>);;
  modify (λ σ, σ <| timers ::= <[SENTINEL := mkErtsTWheelTimer 0 (Some SENTINEL) (Some SENTINEL) 0 0 0]> |>);;
  upd_tiw (λ x, x <| pon_fd := (-1)%Z |> <| pon_armed_deadline := (-1)%Z |>);;
  pon_timer_wheel_arm.

End timer_wheel.
