(* ===== verification/TimerBump.v ===== *)
(** Model of [erts_bump_timers] and [bump_later_wheel] of
    [erts/emulator/beam/time.c]: time advances, timers that are due run their
    callback, timers of the later wheel move to the soon wheel; the work stops
    when its cost exceeds a limit and is taken up again by the next call. *)

From S2P Require Import Prelude PonStats Kernel TimerWheel.
From stdpp Require Import base numbers list gmap.
From Stdlib Require Import ZArith.

(** A part of the work either yields, or goes on with the remaining budget. *)
Inductive progress : Type :=
  | Yield
  | Done (yield_count : Z).

Section bump.
Context `{K : Kernel} (past : option Z).

(** What a callback does besides being called: it may use the wheel. *)
Context (run_callback : Z → Z → TW unit).

Definition timeout_timer (p : positive) : TW unit :=
  upd_t (Some p) (λ t, t <| t_slot := ERTS_TW_SLOT_INACTIVE |>);;
  t ← load_t (Some p);
  modify (λ σ, σ <| g_fired ::= λ l, l ++ [(p, t_timeout t, t_arg t)] |>);;
  run_callback (t_timeout t) (t_arg t).

(** The list of a slot moves to the sentinel, without its first timer [p]. *)
Definition detach_slot (slot : Z) (p : positive) : TW unit :=
  t ← load_t (Some p);
  (if decide (t_next t = Some p) then mret tt else
     upd_t (Some SENTINEL) (λ s, s <| t_next := t_next t |>);;
     upd_t (Some SENTINEL) (λ s, s <| t_prev := t_prev t |>);;
     s ← load_t (Some SENTINEL);
     upd_t (t_next s) (λ u, u <| t_prev := Some SENTINEL |>);;
     s ← load_t (Some SENTINEL);
     upd_t (t_prev s) (λ u, u <| t_next := Some SENTINEL |>));;
  set_w slot NULL.

(** [tiw->sentinel.next = p->next; p->next->prev = &tiw->sentinel;] *)
Definition pop_sentinel (p : positive) : TW unit :=
  t ← load_t (Some p);
  upd_t (Some SENTINEL) (λ s, s <| t_next := t_next t |>);;
  t ← load_t (Some p);
  upd_t (t_next t) (λ u, u <| t_prev := Some SENTINEL |>).

(** The next timer of the sentinel's list, [None] when there is none. *)
Definition sentinel_next : TW (option positive) :=
  s ← load_t (Some SENTINEL);
  mret (if decide (t_next s = Some SENTINEL) then None else t_next s).

(** ** Timers due at once *)

Definition at_once_timer (p : positive) : TW unit :=
  upd_tiw (λ x, x <| nto ::= λ v, u64 (v - 1) |> <| at_once_nto ::= λ v, u64 (v - 1) |>);;
  timeout_timer p.

(** From the label [restart_yielded_at_once_slot] to the end of the loop. *)
Fixpoint at_once_next (fuel : nat) (yc : Z) : TW progress :=
  p ← sentinel_next;
  match p, fuel with
  | None, _ => mret (Done yc)
  | Some _, O => ub
  | Some p, S f =>
      if decide (yc ≤ 0)%Z then upd_tiw (λ x, x <| yield_slot := ERTS_TW_SLOT_AT_ONCE |>);; mret Yield else
      pop_sentinel p;;
      at_once_timer p;;
      at_once_next f (yc - ERTS_TW_COST_TIMEOUT)
  end.

(** ** Timers of the soon wheel *)

Definition soon_timer (slot scnt_ix bump_to : Z) (p : positive) (yc : Z) : TW Z :=
  dec_soon;;
  scnt_ix_dec scnt_ix;;
  t ← load_t (Some p);
  if decide (timeout_pos t ≤ bump_to)%Z then
    timeout_timer p;;
    upd_tiw (λ x, x <| nto ::= λ v, u64 (v - 1) |>);;
    bump_scnt_ix_dec scnt_ix;;
    mret (yc - ERTS_TW_COST_TIMEOUT)%Z
  else
    insert_timer_into_slot slot p;;
    mret (yc - ERTS_TW_COST_SLOT_MOVE)%Z.

(** From the label [restart_yielded_soon_slot] to the end of the inner loop. *)
Fixpoint soon_next (fuel : nat) (slot slots scnt_ix bump_to yc : Z) : TW progress :=
  p ← sentinel_next;
  match p, fuel with
  | None, _ => mret (Done yc)
  | Some _, O => ub
  | Some p, S f =>
      if decide (yc ≤ 0)%Z then
        upd_tiw (λ x, x <| yield_slot := slot |> <| yield_slots_left := slots |>);; mret Yield
      else
        pop_sentinel p;;
        yc ← soon_timer slot scnt_ix bump_to p yc;
        soon_next f slot slots scnt_ix bump_to yc
  end.

(** More iterations than there are timer structures are never needed. *)
Definition ring_fuel : TW nat := σ ← get; mret (size (timers σ)).

(** [while (slots > 0)] *)
Fixpoint soon_slots (fuel : nat) (slot slots scnt_ix bump_to yc : Z) : TW progress :=
  if decide (0 < slots)%Z then
    match fuel with
    | O => ub
    | S f =>
        let yc := (yc - ERTS_TW_COST_SLOT)%Z in
        p ← get_w slot;
        r ← match p with
            | None => mret (Done yc)
            | Some p =>
                detach_slot slot p;;
                yc ← soon_timer slot scnt_ix bump_to p yc;
                n ← ring_fuel;
                soon_next n slot slots scnt_ix bump_to yc
            end;
        match r with
        | Yield => mret Yield
        | Done yc =>
            x ← get_tiw;
            '(slot, slots, _) ← deref (scnt_soon_wheel_next past slot slots 0 (bump_scnt x));
            soon_slots f slot slots (scnt_get_ix slot) bump_to yc
        end
    end
  else mret (Done yc).

(** ** Timers of the later wheel *)

Definition later_timer (fslot scnt_ix cpos : Z) (p : positive) (yc : Z) : TW Z :=
  t ← load_t (Some p);
  let tpos := timeout_pos t in
  dec_later;;
  scnt_ix_dec scnt_ix;;
  x ← get_tiw;
  if decide (later_pos x + ERTS_TW_LATER_WHEEL_SLOT_SIZE ≤ tpos)%Z then
    insert_timer_into_slot fslot p;;
    mret (yc - ERTS_TW_COST_SLOT_MOVE)%Z
  else
    bump_scnt_ix_dec scnt_ix;;
    if decide (tpos > cpos)%Z then
      insert_timer_into_slot (soon_slot tpos) p;;
      mret (yc - ERTS_TW_COST_SLOT_MOVE)%Z
    else
      timeout_timer p;;
      upd_tiw (λ x, x <| nto ::= λ v, u64 (v - 1) |>);;
      mret (yc - ERTS_TW_COST_TIMEOUT)%Z.

Fixpoint later_next (fuel : nat) (fslot slots scnt_ix cpos yc : Z) : TW progress :=
  p ← sentinel_next;
  match p, fuel with
  | None, _ => mret (Done yc)
  | Some _, O => ub
  | Some p, S f =>
      if decide (yc < 0)%Z then
        upd_tiw (λ x, x <| yield_slot := fslot |> <| yield_slots_left := slots |>);; mret Yield
      else
        pop_sentinel p;;
        yc ← later_timer fslot scnt_ix cpos p yc;
        later_next f fslot slots scnt_ix cpos yc
  end.

(** What follows the inner loop: [next] is the rest of the loop over the slots. *)
Definition later_after (next : Z → Z → Z → Z → TW progress) (fslot slots : Z) (r : progress) : TW progress :=
  match r with
  | Yield => mret Yield
  | Done yc =>
      x ← get_tiw;
      '(fslot, slots, _) ← deref (scnt_later_wheel_next past fslot slots 0 (bump_scnt x));
      next fslot slots (scnt_get_ix fslot) yc
  end.

Fixpoint later_slots (fuel : nat) (cpos fslot slots scnt_ix yc : Z) : TW progress :=
  if decide (0 < slots)%Z then
    match fuel with
    | O => ub
    | S f =>
        let yc := (yc - ERTS_TW_COST_SLOT)%Z in
        p ← get_w fslot;
        r ← match p with
            | None => mret (Done yc)
            | Some p =>
                detach_slot fslot p;;
                yc ← later_timer fslot scnt_ix cpos p yc;
                n ← ring_fuel;
                later_next n fslot slots scnt_ix cpos yc
            end;
        later_after (later_slots f cpos) fslot slots r
    end
  else mret (Done yc).

Definition bump_later_wheel (ycount : Z) : TW progress :=
  x ← get_tiw;
  let cpos := pos x in
  let fuel := Z.to_nat ERTS_TW_LATER_WHEEL_SIZE in
  if decide (ERTS_TW_LATER_WHEEL_FIRST_SLOT ≤ yield_slot x)%Z then
    let fslot := yield_slot x in
    let slots := yield_slots_left x in
    upd_tiw (λ x, x <| yield_slot := ERTS_TW_SLOT_INACTIVE |>);;
    n ← ring_fuel;
    r ← later_next n fslot slots (scnt_get_ix fslot) cpos ycount;
    later_after (later_slots fuel cpos) fslot slots r
  else
    let min_tpos := Z.land (later_min_tpos x) ERTS_TW_LATER_WHEEL_POS_MASK in
    let end_later_pos := later_end_pos cpos in
    if decide (later_pos x < min_tpos ∧ end_later_pos < min_tpos)%Z then
      upd_tiw (λ x, x <| later_pos := end_later_pos |>);;
      mret (Done ycount)
    else
      let later_pos := if decide (later_pos x < min_tpos)%Z then min_tpos else later_pos x in
      let tmp_slots := Z.quot (end_later_pos - later_pos) ERTS_TW_LATER_WHEEL_SLOT_SIZE in
      let slots := if decide (tmp_slots < ERTS_TW_LATER_WHEEL_SIZE)%Z then tmp_slots
                   else ERTS_TW_LATER_WHEEL_SIZE in
      let fslot := later_slot later_pos in
      upd_tiw (λ x, x <| TimerWheel.later_pos := end_later_pos |>);;
      later_slots fuel cpos fslot slots (scnt_get_ix fslot) ycount.

Definition ERTS_TW_BUMP_LATER_WHEEL (x : ErtsTimerWheel) : bool :=
  bool_decide (later_pos x ≤ pos x + ERTS_TW_LATER_WHEEL_SLOT_SIZE)%Z.

(** ** The whole operation *)

(** The label [empty_wheel]. *)
Definition empty_wheel (bump_to : Z) : TW unit :=
  upd_tiw (λ x, x <| true_next_timeout_time := false |>
    <| next_timeout_pos := (bump_to + ERTS_CLKTCKS_WEEK)%Z |>
    <| next_timeout_time := ERTS_CLKTCKS_TO_MONOTONIC (bump_to + ERTS_CLKTCKS_WEEK) |>
    <| pos := bump_to |> <| later_pos := later_end_pos bump_to |>
    <| yield_slot := ERTS_TW_SLOT_INACTIVE |>);;
  pon_timer_wheel_arm.

(** After the loop over the soon wheel: [again] is the next iteration. *)
Definition after_soon (again : Z → TW unit) (r : progress) : TW unit :=
  match r with
  | Yield => mret tt
  | Done yc =>
      x ← get_tiw;
      if ERTS_TW_BUMP_LATER_WHEEL x then
        r ← bump_later_wheel yc;
        match r with Yield => mret tt | Done yc => again yc end
      else again yc
  end.

(** The position from which slots may hold timers: [soon.min_tpos] skips more. *)
Definition skip_position (x : ErtsTimerWheel) (bump_to : Z) : Z :=
  if decide (soon_min_tpos x > pos x)%Z then
    let skip_until_pos := if decide (soon_min_tpos x > bump_to)%Z then bump_to else soon_min_tpos x in
    if decide (skip_until_pos - 1 > pos x)%Z then (skip_until_pos - 1)%Z else pos x
  else pos x.

(** After the timers due at once: [again] is the next iteration, [finish] what
    follows the loop. *)
Definition after_at_once (again finish : Z → TW unit) (bump_to : Z) (r : progress) : TW unit :=
  match r with
  | Yield => mret tt
  | Done yc =>
      x ← get_tiw;
      if decide (bump_to ≤ pos x)%Z then
        if decide (at_once_nto x ≠ 0)%Z then again yc else finish yc
      else if decide (nto x = 0)%Z then empty_wheel bump_to
      else
        let from := skip_position x bump_to in
        let tmp_slots := (bump_to - from)%Z in
        let slots := if decide (tmp_slots < ERTS_TW_SOON_WHEEL_SIZE)%Z then tmp_slots
                     else ERTS_TW_SOON_WHEEL_SIZE in
        let slot := soon_slot (from + 1) in
        upd_tiw (λ x, x <| bump_scnt := scnt x |> <| pos := bump_to |> <| next_timeout_pos := bump_to |>
                        <| next_timeout_time := ERTS_CLKTCKS_TO_MONOTONIC bump_to |>);;
        r ← soon_slots (Z.to_nat ERTS_TW_SOON_WHEEL_SIZE) slot slots (scnt_get_ix slot) bump_to yc;
        after_soon again r
  end.

(** The start of the outer loop. *)
Definition bump_start (curr_time : Z) : TW Z :=
  let bump_to := ERTS_MONOTONIC_TO_CLKTCKS curr_time in
  upd_tiw (λ x, x <| true_next_timeout_time := true |> <| next_timeout_pos := bump_to |>
                  <| next_timeout_time := ERTS_CLKTCKS_TO_MONOTONIC bump_to |>);;
  mret bump_to.

(** After the outer loop. *)
Definition bump_finish : TW unit :=
  upd_tiw (λ x, x <| true_next_timeout_time := false |>);;
  find_next_timeout past;;
  pon_timer_wheel_arm.

(** The iterations of [while (1)]; a restarted call starts the outer loop once
    more before it finishes. *)
Fixpoint bump_loop (fuel : nat) (curr_time bump_to : Z) (restarted : bool) (yc : Z) : TW unit :=
  match fuel with
  | O => ub
  | S f =>
      x ← get_tiw;
      if decide (nto x = 0)%Z then empty_wheel bump_to else
      p ← get_w ERTS_TW_SLOT_AT_ONCE;
      r ← match p with
          | None => mret (Done yc)
          | Some p =>
              detach_slot ERTS_TW_SLOT_AT_ONCE p;;
              at_once_timer p;;
              n ← ring_fuel;
              at_once_next n (yc - ERTS_TW_COST_TIMEOUT)
          end;
      after_at_once (bump_loop f curr_time bump_to restarted)
        (λ yc, if restarted then (bump_to ← bump_start curr_time; bump_loop f curr_time bump_to false yc)
               else bump_finish) bump_to r
  end.

(** The iterations allowed: a call whose callbacks leave the wheel alone needs
    five. *)
Definition BUMP_FUEL : nat := 1000.

Definition erts_bump_timers (curr_time : Z) : TW unit :=
  let yc := ERTS_TWHEEL_BUMP_YIELD_LIMIT in
  x ← get_tiw;
  let slot := yield_slot x in
  if decide (slot ≠ ERTS_TW_SLOT_INACTIVE) then
    let bump_to := pos x in
    let again := bump_loop BUMP_FUEL curr_time bump_to true in
    let finish := λ yc, bump_to ← bump_start curr_time; bump_loop BUMP_FUEL curr_time bump_to false yc in
    if decide (ERTS_TW_LATER_WHEEL_FIRST_SLOT ≤ slot)%Z then
      r ← bump_later_wheel yc;
      match r with Yield => mret tt | Done yc => again yc end
    else
      upd_tiw (λ x, x <| yield_slot := ERTS_TW_SLOT_INACTIVE |>);;
      n ← ring_fuel;
      if decide (slot = ERTS_TW_SLOT_AT_ONCE) then
        r ← at_once_next n yc;
        after_at_once again finish bump_to r
      else
        let slots := yield_slots_left x in
        r ← soon_next n slot slots (scnt_get_ix slot) bump_to yc;
        r ← match r with
            | Yield => mret Yield
            | Done yc =>
                x ← get_tiw;
                '(slot, slots, _) ← deref (scnt_soon_wheel_next past slot slots 0 (bump_scnt x));
                soon_slots (Z.to_nat ERTS_TW_SOON_WHEEL_SIZE) slot slots (scnt_get_ix slot) bump_to yc
            end;
        after_soon again r
  else
    bump_to ← bump_start curr_time;
    bump_loop BUMP_FUEL curr_time bump_to false yc.

End bump.

(** ** Inspection *)

(** One timer of [erts_twheel_debug_foreach]. *)
Definition foreach_timer (tclbk : Z) (func : Z → Z → TW unit) (t : ErtsTWheelTimer) : TW unit :=
  if decide (t_timeout t = tclbk) then func (timeout_pos t) (t_arg t) else mret tt.

(** The list of the sentinel from [tmr]. *)
Fixpoint foreach_sentinel (fuel : nat) (tclbk : Z) (func : Z → Z → TW unit) (tmr : option positive) : TW unit :=
  if decide (tmr = Some SENTINEL) then mret tt else
  match fuel with
  | O => ub
  | S f => t ← load_t tmr; foreach_timer tclbk func t;; foreach_sentinel f tclbk func (t_next t)
  end.

(** The list of the slot [ix] from [tmr]: [do ... while (tmr != tiw->w[ix])] *)
Fixpoint foreach_slot (fuel : nat) (tclbk : Z) (func : Z → Z → TW unit) (ix : Z) (tmr : option positive) : TW unit :=
  match fuel with
  | O => ub
  | S f =>
      t ← load_t tmr;
      foreach_timer tclbk func t;;
      h ← get_w ix;
      if decide (t_next t = h) then mret tt else foreach_slot f tclbk func ix (t_next t)
  end.

Definition erts_twheel_debug_foreach (tclbk : Z) (func : Z → Z → TW unit) : TW unit :=
  s ← load_t (Some SENTINEL);
  n ← ring_fuel;
  foreach_sentinel n tclbk func (t_next s);;
  for_range (λ i,
    let ix := (ERTS_TW_SLOT_AT_ONCE + Z.of_nat i)%Z in
    h ← get_w ix;
    match h with None => mret tt | Some _ => n ← ring_fuel; foreach_slot n tclbk func ix h end)
    0 (Z.to_nat (ERTS_TW_LATER_WHEEL_END_SLOT - ERTS_TW_SLOT_AT_ONCE)).
