(* ===== verification/TimerRing.v ===== *)
(** Circular doubly linked lists of timers: what the pointer updates of the timer
    wheel do to a list, to the links of other lists and to the data of a timer. *)

From S2P Require Import Prelude Ring TimerWheel.
From stdpp Require Import base tactics numbers list gmap.
From Stdlib Require Import ZArith Lia.

Abbreviation tmap := (gmap positive ErtsTWheelTimer).

(** ** Links *)

Definition nx (T : tmap) (a : positive) : option positive := T !! a ≫= t_next.
Definition pv (T : tmap) (a : positive) : option positive := T !! a ≫= t_prev.

(** The data of a timer, without its links. *)
Definition core (T : tmap) (a : positive) : option (Z * Z * Z * Z) :=
  (λ t, (timeout_pos t, t_timeout t, t_arg t, t_slot t)) <$> T !! a.

Abbreviation link T := (rlink (nx T) (pv T)).
Abbreviation chain T := (rchain (nx T) (pv T)).
Abbreviation closed T := (rclosed (nx T) (pv T)).
Abbreviation ring T := (rring (nx T) (pv T)).

(** ** Single assignments *)

Definition set_next (a : positive) (v : option positive) (T : tmap) : tmap := alter (λ t, t <| t_next := v |>) a T.
Definition set_prev (a : positive) (v : option positive) (T : tmap) : tmap := alter (λ t, t <| t_prev := v |>) a T.

Section assignments.
Implicit Types T : tmap.

Lemma nx_set_next T a v b : is_Some (T !! a) → nx (set_next a v T) b = if decide (b = a) then v else nx T b.
Proof.
  intros [t Ha]. unfold nx, set_next. case_decide as Hb; [subst; by rewrite lookup_alter_eq, Ha|].
  by rewrite lookup_alter_ne.
Qed.

Lemma pv_set_next T a v b : pv (set_next a v T) b = pv T b.
Proof.
  unfold pv, set_next. destruct (decide (b = a)) as [->|]; [|by rewrite lookup_alter_ne].
  rewrite lookup_alter_eq. by destruct (T !! a).
Qed.

Lemma pv_set_prev T a v b : is_Some (T !! a) → pv (set_prev a v T) b = if decide (b = a) then v else pv T b.
Proof.
  intros [t Ha]. unfold pv, set_prev. case_decide as Hb; [subst; by rewrite lookup_alter_eq, Ha|].
  by rewrite lookup_alter_ne.
Qed.

Lemma nx_set_prev T a v b : nx (set_prev a v T) b = nx T b.
Proof.
  unfold nx, set_prev. destruct (decide (b = a)) as [->|]; [|by rewrite lookup_alter_ne].
  rewrite lookup_alter_eq. by destruct (T !! a).
Qed.

Lemma core_set_next T a v b : core (set_next a v T) b = core T b.
Proof.
  unfold core, set_next. destruct (decide (b = a)) as [->|]; [|by rewrite lookup_alter_ne].
  rewrite lookup_alter_eq. by destruct (T !! a).
Qed.

Lemma core_set_prev T a v b : core (set_prev a v T) b = core T b.
Proof.
  unfold core, set_prev. destruct (decide (b = a)) as [->|]; [|by rewrite lookup_alter_ne].
  rewrite lookup_alter_eq. by destruct (T !! a).
Qed.

Lemma live_alter T f a b : is_Some (alter f a T !! b) ↔ is_Some (T !! b).
Proof.
  destruct (decide (b = a)) as [->|]; [|by rewrite lookup_alter_ne].
  rewrite lookup_alter_eq. by rewrite fmap_is_Some.
Qed.

Lemma live_set_next T a v b : is_Some (set_next a v T !! b) ↔ is_Some (T !! b).
Proof. apply live_alter. Qed.

Lemma live_set_prev T a v b : is_Some (set_prev a v T !! b) ↔ is_Some (T !! b).
Proof. apply live_alter. Qed.

Lemma core_live T T' a : core T' a = core T a → is_Some (T !! a) → is_Some (T' !! a).
Proof. unfold core. intros H [t Ht]. rewrite Ht in H. destruct (T' !! a); [eauto|done]. Qed.

End assignments.

Create Rewrite HintDb links.
#[export] Hint Rewrite pv_set_next nx_set_prev core_set_next core_set_prev : links.
#[export] Hint Rewrite nx_set_next pv_set_prev using (rewrite ?live_set_next, ?live_set_prev; eauto) : links.
