(* ===== verification/TimerInv.v ===== *)
(** The invariant of the timer wheel: which timer is in which list, what the
    counts count and where the positions of the timers lie; and what inserting,
    removing and moving timers between lists do to it. *)

From S2P Require Import Prelude Ring PonStats Kernel TimerWheel TimerBump TimerRing.
From stdpp Require Import functions base tactics numbers list gmap fin_maps.
From Stdlib Require Import ZArith Lia.

(** ** Timers without their links *)

Abbreviation tdata := (Z * Z * Z * Z)%type.

Definition data_of (t : ErtsTWheelTimer) : tdata := (timeout_pos t, t_timeout t, t_arg t, t_slot t).
Definition d_pos (d : tdata) : Z := d.1.1.1.
Definition d_slot (d : tdata) : Z := d.2.
Definition in_slot (s : Z) (d : tdata) : tdata := (d.1, s).
Definition cores (T : tmap) : gmap positive tdata := data_of <$> T.

Lemma cores_alter T f a : (∀ t, data_of (f t) = data_of t) → cores (alter f a T) = cores T.
Proof.
  intros Hf. apply map_eq. intros b. unfold cores. rewrite !lookup_fmap.
  destruct (decide (b = a)) as [->|]; [|by rewrite lookup_alter_ne].
  rewrite lookup_alter_eq. destruct (T !! a); [|done]. simpl. by rewrite Hf.
Qed.

Lemma cores_set_next T a v : cores (set_next a v T) = cores T.
Proof. by apply cores_alter. Qed.
Lemma cores_set_prev T a v : cores (set_prev a v T) = cores T.
Proof. by apply cores_alter. Qed.
#[export] Hint Rewrite cores_set_next cores_set_prev : links.

Lemma cores_live T a d : cores T !! a = Some d → is_Some (T !! a).
Proof. unfold cores. rewrite lookup_fmap. destruct (T !! a); [eauto|done]. Qed.

Lemma cores_alter_slot T a d s : cores T !! a = Some d →
  cores (alter (λ t, t <| t_slot := s |>) a T) = <[a := in_slot s d]> (cores T).
Proof.
  unfold cores. rewrite lookup_fmap. intros (t & Ha & ->)%fmap_Some. apply map_eq. intros b.
  destruct (decide (b = a)) as [->|].
  - by rewrite lookup_fmap, lookup_alter_eq, Ha, lookup_insert_eq.
  - by rewrite lookup_fmap, lookup_alter_ne, lookup_insert_ne, lookup_fmap.
Qed.

Lemma nx_alter_data T f a b : (∀ t, t_next (f t) = t_next t) → nx (alter f a T) b = nx T b.
Proof.
  intros Hf. unfold nx. destruct (decide (b = a)) as [->|]; [|by rewrite lookup_alter_ne].
  rewrite lookup_alter_eq. destruct (T !! a); [|done]. apply Hf.
Qed.
Lemma pv_alter_data T f a b : (∀ t, t_prev (f t) = t_prev t) → pv (alter f a T) b = pv T b.
Proof.
  intros Hf. unfold pv. destruct (decide (b = a)) as [->|]; [|by rewrite lookup_alter_ne].
  rewrite lookup_alter_eq. destruct (T !! a); [|done]. apply Hf.
Qed.

(** ** The lists

    [L s] is the list of slot [s], [S] the list behind the sentinel, whose timers
    belong to slot [cur], [F] the timers that are being moved and are in no list. *)
Record rep (W : gmap Z positive) (T : tmap) (cur : Z) (L : Z → list positive) (S F : list positive) : Prop := {
  rep_w s : slot_ok s → W !! s = head (L s);
  rep_ring s : ring T (L s);
  rep_sent : ring T (SENTINEL :: S);
  rep_nodup s : NoDup (L s);
  rep_nodupS : NoDup S;
  rep_slot s a : a ∈ L s → slot_ok s ∧ a ≠ SENTINEL ∧ (d_slot <$> cores T !! a) = Some s;
  rep_slotS a : a ∈ S → slot_ok cur ∧ a ≠ SENTINEL ∧ (d_slot <$> cores T !! a) = Some cur ∧ (∀ s, a ∉ L s);
  rep_F a : a ∈ F → a ≠ SENTINEL ∧ is_Some (T !! a) ∧ (a ∉ S) ∧ (∀ s, a ∉ L s);
  rep_all a d : a ≠ SENTINEL → cores T !! a = Some d → d_slot d ≠ ERTS_TW_SLOT_INACTIVE →
    a ∈ L (d_slot d) ∨ a ∈ S ∨ a ∈ F
}.

(** ** Accesses *)

Section access.
Implicit Types (x : ErtsTimerWheel) (T : tmap).

Lemma wp_load_t x T n k st g a t (Q : ErtsTWheelTimer → tws → Prop) :
  T !! a = Some t → Q t (mkTws x T n k st g) → wp (load_t (Some a)) Q (mkTws x T n k st g).
Proof. intros Ha HQ. unfold load_t. wp_step. wp_step. wp_step. wp_step. cbn. by rewrite Ha. Qed.

Lemma wp_upd_t x T n k st g a f (Q : unit → tws → Prop) :
  is_Some (T !! a) → Q tt (mkTws x (alter f a T) n k st g) → wp (upd_t (Some a) f) Q (mkTws x T n k st g).
Proof. intros [t Ha] HQ. unfold upd_t. wp_step. eapply wp_load_t; [done|]. wp_step. wp_step. by wp_step. Qed.

Lemma wp_get_tiw x T n k st g (Q : ErtsTimerWheel → tws → Prop) :
  Q x (mkTws x T n k st g) → wp get_tiw Q (mkTws x T n k st g).
Proof. done. Qed.

Lemma wp_upd_tiw x T n k st g f (Q : unit → tws → Prop) :
  Q tt (mkTws (f x) T n k st g) → wp (upd_tiw f) Q (mkTws x T n k st g).
Proof. done. Qed.

Lemma wp_get_w x T n k st g s (Q : option positive → tws → Prop) :
  slot_ok s → Q (w x !! s) (mkTws x T n k st g) → wp (get_w s) Q (mkTws x T n k st g).
Proof. intros Hs HQ. unfold get_w. by rewrite decide_True. Qed.

Lemma wp_set_w x T n k st g s p (Q : unit → tws → Prop) :
  slot_ok s →
  Q tt (mkTws (x <| w ::= match p with Some a => <[s := a]> | None => delete s end |>) T n k st g) →
  wp (set_w s p) Q (mkTws x T n k st g).
Proof. intros Hs HQ. unfold set_w. by rewrite decide_True. Qed.

End access.

Lemma nx_lookup T a t : T !! a = Some t → nx T a = t_next t.
Proof. unfold nx. by intros ->. Qed.
Lemma pv_lookup T a t : T !! a = Some t → pv T a = t_prev t.
Proof. unfold pv. by intros ->. Qed.

Ltac tw_step :=
  lazymatch goal with
  | |- wp get_tiw _ _ => apply wp_get_tiw
  | |- wp (upd_tiw _) _ _ => apply wp_upd_tiw
  | |- wp (get_w _) _ _ => apply wp_get_w
  | |- wp (set_w _ _) _ _ => apply wp_set_w
  | |- wp (load_t (Some _)) _ _ => eapply wp_load_t; [eassumption|]
  | |- wp (upd_t (Some _) _) _ _ => apply wp_upd_t
  | _ => wp_step
  end.

(** ** Inserting *)

(** The bookkeeping of an insertion in [slot] at position [tpos]. *)
Definition inserted (slot tpos : Z) (x : ErtsTimerWheel) : ErtsTimerWheel :=
  if decide (slot = ERTS_TW_SLOT_AT_ONCE) then x <| at_once_nto ::= λ v, u64 (v + 1) |>
  else
    let x := if decide (slot < ERTS_TW_SOON_WHEEL_END_SLOT)%Z then
               let x := x <| soon_nto ::= λ v, u64 (v + 1) |> in
               if decide (soon_min_tpos x > tpos)%Z then x <| soon_min_tpos := tpos |> else x
             else
               let x := x <| later_nto ::= λ v, u64 (v + 1) |> in
               if decide (later_min_tpos x > tpos)%Z
               then x <| later_min_tpos := tpos |> <| later_min_tpos_slot := slot |> else x in
    x <| scnt ::= scnt_add 1 (scnt_get_ix slot) |>.

Lemma inserted_w slot tpos x : w (inserted slot tpos x) = w x.
Proof. unfold inserted. case_decide; [done|]. cbn. repeat case_decide; done. Qed.

Lemma rep_push W T T' cur L S p slot h l :
  rep W T cur L S [p] → slot_ok slot → L slot = h :: l →
  (∀ b, nx T' b = if decide (b = p) then Some h else if decide (last (h :: l) = Some b) then Some p else nx T b) →
  (∀ b, pv T' b = if decide (b = h) then Some p else if decide (b = p) then last (h :: l) else pv T b) →
  (∃ d, cores T !! p = Some d ∧ cores T' = <[p := in_slot slot d]> (cores T)) →
  rep W T' cur (<[slot := L slot ++ [p]]> L) S [].
Proof.
  intros [R1 R2 R3 R4 R5 R6 R7 R8 R9] Hs HL Hn Hp (d & Hd & Hc).
  destruct (R8 p ltac:(left)) as (Hps & _ & HpS & HpL).
  assert (∀ a, a ≠ p → cores T' !! a = cores T !! a) as Hne by (intros a Ha; by rewrite Hc, lookup_insert_ne).
  assert (last (h :: l) ≠ Some p) as Hlp by (rewrite <- HL; intros ?%last_Some_elem_of; by eapply HpL).
  assert (h ≠ p) as Hhp by (intros ->; apply (HpL slot); rewrite HL; by left).
  assert (∀ s, s ≠ slot → ∀ a, a ∈ L s → nx T' a = nx T a ∧ pv T' a = pv T a) as Hoth.
  { intros s Hss a Ha. assert (a ≠ p) by (intros ->; by eapply HpL).
    assert (a ∉ L slot) as Hal.
    { intros Ha'. destruct (R6 _ _ Ha) as (_ & _ & E1), (R6 _ _ Ha') as (_ & _ & E2). congruence. }
    rewrite HL in Hal. split.
    - rewrite Hn, decide_False, decide_False; [done| |done]. intros ?%last_Some_elem_of. done.
    - rewrite Hp, decide_False, decide_False; [done|done|]. intros ->. apply Hal. by left. }
  split.
  - intros s Hso. rewrite R1 by done. destruct (decide (s = slot)) as [->|Hss].
    + rewrite fn_lookup_insert, HL. done.
    + by rewrite fn_lookup_insert_ne.
  - intros s. destruct (decide (s = slot)) as [->|Hss].
    + rewrite fn_lookup_insert, HL. apply (rring_push (nx T) (pv T) (nx T') (pv T')); [rewrite <- HL; apply R2|rewrite <- HL; apply R4|
        rewrite <- HL; apply HpL|done|done].
    + rewrite fn_lookup_insert_ne by done. eapply rring_frame; [..|apply R2]; intros a Ha; by eapply Hoth.
  - eapply rring_frame; [..|done]; intros a [->|Ha]%elem_of_cons.
    + rewrite Hn, decide_False, decide_False; [done| |done].
      rewrite <- HL. intros ?%last_Some_elem_of. by apply (R6 slot SENTINEL).
    + destruct (R7 _ Ha) as (_ & _ & _ & HaL). rewrite Hn, decide_False, decide_False; [done| |set_solver].
      rewrite <- HL. intros ?%last_Some_elem_of. by apply (HaL slot).
    + rewrite Hp, decide_False, decide_False; [done|done|]. intros <-.
      apply (R6 slot SENTINEL); [rewrite HL; by left|done].
    + destruct (R7 _ Ha) as (_ & _ & _ & HaL). rewrite Hp, decide_False, decide_False; [done|set_solver|].
      intros ->. apply (HaL slot). rewrite HL. by left.
  - intros s. destruct (decide (s = slot)) as [->|Hss].
    + rewrite fn_lookup_insert. apply NoDup_app. split_and!; [apply R4| |apply NoDup_singleton].
      intros a Ha ->%list_elem_of_singleton. by eapply HpL.
    + by rewrite fn_lookup_insert_ne.
  - done.
  - intros s a. destruct (decide (s = slot)) as [->|Hss].
    + rewrite fn_lookup_insert. intros [Ha| ->%list_elem_of_singleton]%elem_of_app.
      * rewrite Hne by (intros ->; by eapply HpL). by apply R6.
      * rewrite Hc, lookup_insert_eq. done.
    + rewrite fn_lookup_insert_ne by done. intros Ha. rewrite Hne by (intros ->; by eapply HpL). by apply R6.
  - intros a Ha. rewrite Hne by set_solver. destruct (R7 _ Ha) as (? & ? & ? & HaL). split_and!; try done.
    intros s. destruct (decide (s = slot)) as [->|Hss].
    + rewrite fn_lookup_insert. intros [?| ->%list_elem_of_singleton]%elem_of_app; [by eapply HaL|done].
    + rewrite fn_lookup_insert_ne by done. apply HaL.
  - by intros a ?%elem_of_nil.
  - intros a d' Ha. destruct (decide (a = p)) as [->|Hap].
    + rewrite Hc, lookup_insert_eq. intros [= <-] _. left. cbn. rewrite fn_lookup_insert. set_solver.
    + rewrite Hne by done. intros Hd' Hi.
      destruct (R9 a d' Ha Hd' Hi) as [H|[H|H%list_elem_of_singleton]]; [|by right; left|done].
      left. destruct (decide (d_slot d' = slot)) as [E|Hss].
      * rewrite E in *. rewrite fn_lookup_insert. apply elem_of_app. by left.
      * by rewrite fn_lookup_insert_ne.
Qed.

Lemma rep_live W T cur L S F s a : rep W T cur L S F → a ∈ L s → is_Some (T !! a).
Proof.
  intros R Ha. destruct (rep_slot _ _ _ _ _ _ R _ _ Ha) as (_ & _ & (d & Hd & _)%fmap_Some).
  by eapply cores_live.
Qed.

(** A timer in a list of its own. *)
Lemma rep_new W T T' cur L S p slot :
  rep W T cur L S [p] → slot_ok slot → L slot = [] →
  (∀ b, nx T' b = if decide (b = p) then Some p else nx T b) →
  (∀ b, pv T' b = if decide (b = p) then Some p else pv T b) →
  (∃ d, cores T !! p = Some d ∧ cores T' = <[p := in_slot slot d]> (cores T)) →
  rep (<[slot := p]> W) T' cur (<[slot := L slot ++ [p]]> L) S [].
Proof.
  intros [R1 R2 R3 R4 R5 R6 R7 R8 R9] Hs HL Hn Hp (d & Hd & Hc).
  destruct (R8 p ltac:(left)) as (Hps & _ & HpS & HpL).
  assert (∀ a, a ≠ p → cores T' !! a = cores T !! a) as Hne by (intros a Ha; by rewrite Hc, lookup_insert_ne).
  assert (∀ l, p ∉ l → ring T l → ring T' l) as Hfr.
  { intros l Hl. apply rring_frame; intros a Ha; [rewrite Hn|rewrite Hp]; rewrite decide_False; set_solver. }
  assert (∀ s a, a ∈ L s → a ≠ p) as HLp by (intros s a Ha ->; by eapply HpL).
  rewrite HL. split.
  - intros s Hso. destruct (decide (s = slot)) as [->|Hss].
    + by rewrite fn_lookup_insert, lookup_insert_eq.
    + rewrite fn_lookup_insert_ne, lookup_insert_ne by done. by apply R1.
  - intros s. destruct (decide (s = slot)) as [->|Hss].
    + rewrite fn_lookup_insert. apply rring_one. split; [by rewrite Hn, decide_True|by rewrite Hp, decide_True].
    + rewrite fn_lookup_insert_ne by done. apply Hfr; [apply HpL|apply R2].
  - apply Hfr; [|done]. intros [?|?]%elem_of_cons; [by subst|done].
  - intros s. destruct (decide (s = slot)) as [->|Hss].
    + rewrite fn_lookup_insert. apply NoDup_singleton.
    + by rewrite fn_lookup_insert_ne.
  - done.
  - intros s a. destruct (decide (s = slot)) as [->|Hss].
    + rewrite fn_lookup_insert. intros ->%list_elem_of_singleton. by rewrite Hc, lookup_insert_eq.
    + rewrite fn_lookup_insert_ne by done. intros Ha. rewrite Hne by eauto. by apply R6.
  - intros a Ha. rewrite Hne by (intros ->; done). destruct (R7 _ Ha) as (? & ? & ? & HaL). split_and!; try done.
    intros s. destruct (decide (s = slot)) as [->|Hss].
    + rewrite fn_lookup_insert. intros ->%list_elem_of_singleton. done.
    + rewrite fn_lookup_insert_ne by done. apply HaL.
  - by intros a ?%elem_of_nil.
  - intros a d' Ha. destruct (decide (a = p)) as [->|Hap].
    + rewrite Hc, lookup_insert_eq. intros [= <-] _. left. cbn. rewrite fn_lookup_insert. by left.
    + rewrite Hne by done. intros Hd' Hi.
      destruct (R9 a d' Ha Hd' Hi) as [H|[H|H%list_elem_of_singleton]]; [|by right; left|done].
      left. destruct (decide (d_slot d' = slot)) as [E|Hss].
      * rewrite E, HL in H. by apply elem_of_nil in H.
      * by rewrite fn_lookup_insert_ne.
Qed.

(** ** Insertion runs *)

Lemma rep_cons W T cur L S F slot h :
  rep W T cur L S F → slot_ok slot → W !! slot = Some h → ∃ l : list positive, L slot = h :: l.
Proof.
  intros R Hs Hw. rewrite (rep_w _ _ _ _ _ _ R) in Hw by done. destruct (L slot); [done|].
  injection Hw as ->. eauto.
Qed.

Lemma count_inserted_run x T n k st g slot p t (Q : unit → tws → Prop) :
  T !! p = Some t → Q tt (mkTws (inserted slot (timeout_pos t) x) T n k st g) →
  wp (count_inserted slot p) Q (mkTws x T n k st g).
Proof.
  intros Hp HQ. unfold count_inserted, inserted, scnt_inc in *.
  destruct (decide (slot = ERTS_TW_SLOT_AT_ONCE)); [by tw_step|].
  tw_step. tw_step. cbv zeta in *. tw_step.
  destruct (decide (slot < ERTS_TW_SOON_WHEEL_END_SLOT)%Z); tw_step; tw_step; tw_step; by tw_step.
Qed.

(** [p] has its slot, the links of the lists are those of [T]. *)
Lemma link_run x T T1 n k st g cur L S slot p d (Q : unit → tws → Prop) :
  rep (w x) T cur L S [p] → slot_ok slot → cores T !! p = Some d →
  cores T1 = <[p := in_slot slot d]> (cores T) → (∀ b, nx T1 b = nx T b) → (∀ b, pv T1 b = pv T b) →
  (∀ a, is_Some (T1 !! a) ↔ is_Some (T !! a)) →
  (∀ W' T', rep W' T' cur (<[slot := L slot ++ [p]]> L) S [] → cores T' = cores T1 →
    Q tt (mkTws (x <| w := W' |>) T' n k st g)) →
  wp (link_timer slot p) Q (mkTws x T1 n k st g).
Proof.
  intros R Hs Hd Hc1 Hn1 Hp1 Hl1 HQ. pose proof (cores_live _ _ _ Hd) as Hl. rewrite <- Hl1 in Hl.
  destruct (rep_F _ _ _ _ _ _ R p ltac:(left)) as (_ & _ & _ & HpL).
  unfold link_timer. tw_step. tw_step; [done|]. destruct (w x !! slot) as [h|] eqn:Hw.
  - destruct (rep_cons _ _ _ _ _ _ _ _ R Hs Hw) as [l HL].
    assert (∀ a, a ∈ h :: l → is_Some (T1 !! a)) as Hlive.
    { intros a Ha. rewrite <- HL in Ha. apply Hl1. by eapply rep_live. }
    destruct (Hlive h ltac:(left)) as [th Hh].
    pose proof (rep_ring _ _ _ _ _ _ R slot) as Hring. rewrite HL in Hring.
    pose proof (rring_pv (nx T) (pv T) [] h l Hring) as Hpv. rewrite app_nil_r, <- Hp1, (pv_lookup _ _ _ Hh) in Hpv.
    destruct (last (h :: l)) as [z|] eqn:Hz; [|by apply last_None in Hz].
    assert (is_Some (T1 !! z)) as Hzl by by apply Hlive, last_Some_elem_of.
    assert (z ≠ p) as Hzp. { intros ->. apply (HpL slot). rewrite HL. by apply last_Some_elem_of. }
    tw_step. tw_step. cbv zeta. rewrite Hpv.
    do 3 (tw_step; tw_step; [rewrite ?live_alter; eauto|]). tw_step; [rewrite ?live_alter; eauto|].
    fold (set_next p (Some h) T1). set (T2 := set_next p (Some h) T1).
    fold (set_prev p (Some z) T2). set (T3 := set_prev p (Some z) T2).
    fold (set_next z (Some p) T3). set (T4 := set_next z (Some p) T3).
    fold (set_prev h (Some p) T4). set (T5 := set_prev h (Some p) T4).
    replace x with (x <| w := w x |>) by by destruct x.
    assert (cores T5 = cores T1) as Hc5 by (unfold T5, T4, T3, T2; by autorewrite with links).
    apply HQ; [|done]. apply (rep_push (w x) T T5 cur L S p slot h l); try done.
    + intros b. unfold T5, T4, T3, T2. autorewrite with links; [|by rewrite live_set_next..].
      rewrite Hn1, Hz. repeat case_decide; congruence.
    + intros b. unfold T5, T4, T3, T2. autorewrite with links; [|by rewrite ?live_set_next, ?live_set_prev, ?live_set_next; eauto..].
      rewrite Hp1, Hz. repeat case_decide; congruence.
    + exists d. split; [done|]. by rewrite Hc5.
  - assert (L slot = []) as HL.
    { rewrite (rep_w _ _ _ _ _ _ R) in Hw by done. by destruct (L slot). }
    tw_step. tw_step; [done|]. do 1 (tw_step; tw_step; [rewrite ?live_alter; eauto|]). tw_step; [rewrite ?live_alter; eauto|].
    fold (set_next p (Some p) T1). set (T2 := set_next p (Some p) T1).
    fold (set_prev p (Some p) T2). set (T3 := set_prev p (Some p) T2).
    assert (cores T3 = cores T1) as Hc3 by (unfold T3, T2; by autorewrite with links).
    apply HQ; [|done]. apply (rep_new (w x) T T3 cur L S p slot); try done.
    + intros b. unfold T3, T2. autorewrite with links. by rewrite Hn1.
    + intros b. unfold T3, T2. autorewrite with links. by rewrite Hp1.
    + exists d. split; [done|]. by rewrite Hc3.
Qed.

Lemma insert_run x T n k st g cur L S slot p d (Q : unit → tws → Prop) :
  rep (w x) T cur L S [p] → slot_ok slot → cores T !! p = Some d →
  (∀ W' T', rep W' T' cur (<[slot := L slot ++ [p]]> L) S [] →
    cores T' = <[p := in_slot slot d]> (cores T) →
    Q tt (mkTws ((inserted slot (d_pos d) x) <| w := W' |>) T' n k st g)) →
  wp (insert_timer_into_slot slot p) Q (mkTws x T n k st g).
Proof.
  intros R Hs Hd HQ. pose proof (cores_live _ _ _ Hd) as Hl.
  unfold insert_timer_into_slot. tw_step. tw_step; [done|]. tw_step.
  pose proof (cores_alter_slot _ _ _ slot Hd) as Hc.
  eapply link_run; [done|done|done|done|intros b; by apply nx_alter_data|intros b; by apply pv_alter_data|
    intros a; apply live_alter|].
  intros W' T' R' Hc'. rewrite Hc in Hc'.
  assert (∃ t, T' !! p = Some t ∧ timeout_pos t = d_pos d) as (t & Ht & Hp).
  { assert (cores T' !! p = Some (in_slot slot d)) as Hcp by by rewrite Hc', lookup_insert_eq.
    unfold cores in Hcp. rewrite lookup_fmap in Hcp. apply fmap_Some in Hcp as (t & Ht & Htd).
    exists t. split; [done|]. by unfold data_of, in_slot in Htd; destruct d as [[[]]]; simplify_eq/=. }
  eapply count_inserted_run; [done|]. rewrite Hp.
  replace (inserted slot (d_pos d) (x <| w := W' |>)) with ((inserted slot (d_pos d) x) <| w := W' |>); [by apply HQ|].
  unfold inserted. cbn. repeat case_decide; done.
Qed.

(** ** Removing *)

Lemma rep_liveS W T cur L S F a : rep W T cur L S F → a ∈ SENTINEL :: S → is_Some (T !! a).
Proof.
  intros R [->|Ha]%elem_of_cons.
  - pose proof (rep_sent _ _ _ _ _ _ R) as Hr. pose proof (rring_nx (nx T) (pv T) [] SENTINEL S Hr) as Hn.
    unfold nx in Hn. destruct (T !! SENTINEL); [eauto|]. cbn in Hn. by destruct S.
  - destruct (rep_slotS _ _ _ _ _ _ R _ Ha) as (_ & _ & (d & Hd & _)%fmap_Some & _). by eapply cores_live.
Qed.

(** What a slot refers to when [p] leaves a list of which [m] is left. *)
Definition unlinked_w (slot : Z) (p : positive) (m : list positive) (W : gmap Z positive) : gmap Z positive :=
  match head m with
  | None => delete slot W
  | Some h => if decide (W !! slot = Some p) then <[slot := h]> W else W
  end.

(** [p] leaves its list: [m] is the rest, from the timer after [p]. *)
Lemma unlink_run x T n k st g slot p l1 l2 m (Q : bool → tws → Prop) :
  ring T (l1 ++ p :: l2) → NoDup (l1 ++ p :: l2) → (∀ a, a ∈ l1 ++ p :: l2 → is_Some (T !! a)) →
  slot_ok slot → m = l2 ++ l1 →
  (∀ T', (∀ b, nx T' b = if decide (last m = Some b) then head m else nx T b) →
    (∀ b, pv T' b = if decide (head m = Some b) then last m else pv T b) → cores T' = cores T →
    Q (bool_decide (m = [])) (mkTws (x <| w ::= unlinked_w slot p m |>) T' n k st g)) →
  wp (unlink_timer slot p) Q (mkTws x T n k st g).
Proof.
  intros Hr Hnd Hlive Hs Hm HQ. destruct (Hlive p ltac:(set_solver)) as [t Ht].
  pose proof (rring_nx _ _ _ _ _ Hr) as Hnp. pose proof (rring_pv _ _ _ _ _ Hr) as Hpp.
  rewrite app_assoc, <- Hm, (nx_lookup _ _ _ Ht) in Hnp. rewrite <- Hm, (pv_lookup _ _ _ Ht) in Hpp.
  assert (NoDup (p :: m)) as [Hpm Hndm]%NoDup_cons.
  { rewrite Hm. rewrite <- (Permutation_middle l1 l2) in Hnd. by rewrite (Permutation_app_comm l2 l1). }
  unfold unlink_timer. tw_step. tw_step. destruct m as [|h m].
  - rewrite Hnp. cbn [app head]. rewrite decide_True by done. tw_step. tw_step; [done|]. tw_step.
    apply (HQ T); [done|done|done].
  - cbn [app head] in Hnp. rewrite last_cons_cons in Hpp.
    destruct (last (h :: m)) as [z|] eqn:Hz; [|by apply last_None in Hz].
    assert (h ≠ p) as Hhp by set_solver.
    assert (z ≠ p) as Hzp by (intros ->; by apply Hpm, last_Some_elem_of).
    assert (∀ a, a ∈ h :: m → is_Some (T !! a)) as Hlm.
    { intros a Ha. apply Hlive. rewrite Hm in Ha. apply elem_of_app in Ha. apply elem_of_app.
      rewrite elem_of_cons. tauto. }
    rewrite Hnp, decide_False by congruence. tw_step. tw_step; [done|]. rewrite Hpp. tw_step.
    eapply (wp_mono _ (λ _ σ', σ' = mkTws (x <| w ::= unlinked_w slot p (h :: m) |>) T n k st g)).
    { destruct (decide (w x !! slot = Some p)) as [E|E].
      - tw_step; [done|]. unfold update, unlinked_w. cbn. by rewrite decide_True.
      - tw_step. unfold update, unlinked_w. cbn. rewrite decide_False by done. by destruct x. }
    intros [] ? ->. tw_step. tw_step; [by apply Hlm, last_Some_elem_of|].
    fold (set_next z (Some h) T). set (T2 := set_next z (Some h) T).
    assert (T2 !! p = Some t) as Ht2 by (unfold T2, set_next; by rewrite lookup_alter_ne).
    tw_step. tw_step. cbv beta. rewrite Hnp, Hpp. tw_step. tw_step.
    { apply live_set_next, Hlm. by left. }
    fold (set_prev h (Some z) T2). tw_step. change false with (bool_decide (h :: m = [])).
    assert (is_Some (T !! z)) as Hzl by by apply Hlm, last_Some_elem_of.
    assert (is_Some (T !! h)) as Hhl by (apply Hlm; by left).
    apply HQ; unfold T2.
    + intros b. autorewrite with links. cbn [head]. repeat case_decide; congruence.
    + intros b. autorewrite with links. cbn [head]. repeat case_decide; congruence.
    + by autorewrite with links.
Qed.

(** The counts after a removal; [empty]: the list of the slot is empty now. *)
Definition soon_gone (x : ErtsTimerWheel) : ErtsTimerWheel :=
  let x := x <| soon_nto ::= λ v, u64 (v - 1) |> in
  if decide (soon_nto x = 0)%Z then x <| soon_min_tpos := ERTS_MAX_CLKTCKS |> else x.

Definition later_gone (x : ErtsTimerWheel) : ErtsTimerWheel :=
  let x := x <| later_nto ::= λ v, u64 (v - 1) |> in
  if decide (later_nto x = 0)%Z
  then x <| later_min_tpos := ERTS_MAX_CLKTCKS |> <| later_min_tpos_slot := ERTS_TW_LATER_WHEEL_END_SLOT |>
  else x.

(** The slot emptied was the one the next timeout was computed from. *)
Definition removed_exact (slot tpos : Z) (x : ErtsTimerWheel) : bool :=
  true_next_timeout_time x && bool_decide (yield_slot x = ERTS_TW_SLOT_INACTIVE) &&
  if decide (slot < ERTS_TW_SOON_WHEEL_END_SLOT)%Z then bool_decide (tpos = next_timeout_pos x)
  else bool_decide (later_min_tpos_slot x = slot) &&
       bool_decide (Z.land (later_min_tpos x) ERTS_TW_LATER_WHEEL_POS_MASK - ERTS_TW_LATER_WHEEL_SLOT_SIZE
                    = next_timeout_pos x)%Z.

Definition removed (slot tpos : Z) (empty : bool) (x : ErtsTimerWheel) : ErtsTimerWheel :=
  if decide (slot = ERTS_TW_SLOT_AT_ONCE) then x <| at_once_nto ::= λ v, u64 (v - 1) |>
  else
    let x := x <| scnt ::= scnt_add (-1) (scnt_get_ix slot) |> in
    let x := if empty && removed_exact slot tpos x then x <| true_next_timeout_time := false |> else x in
    if decide (slot < ERTS_TW_SOON_WHEEL_END_SLOT)%Z then soon_gone x else later_gone x.

Lemma count_removed_run x T n k st g slot tpos empty (Q : unit → tws → Prop) :
  Q tt (mkTws (removed slot tpos empty x) T n k st g) →
  wp (count_removed slot tpos empty) Q (mkTws x T n k st g).
Proof.
  intros HQ. unfold count_removed, removed, removed_exact, scnt_dec in *.
  destruct (decide (slot = ERTS_TW_SLOT_AT_ONCE)); [by tw_step|].
  tw_step. tw_step. tw_step. tw_step. cbv zeta in *.
  set (y := x <| scnt ::= _ |>) in *. clearbody y.
  destruct (decide (slot < ERTS_TW_SOON_WHEEL_END_SLOT)%Z).
  - unfold dec_soon. tw_step.
    eapply (wp_mono _ (λ _ σ', σ' = mkTws (if empty && (true_next_timeout_time y && bool_decide (yield_slot y = ERTS_TW_SLOT_INACTIVE) && bool_decide (tpos = next_timeout_pos y)) then y <| true_next_timeout_time := false |> else y) T n k st g)).
    { destruct empty, (true_next_timeout_time y), (bool_decide (tpos = next_timeout_pos y)),
        (bool_decide (yield_slot y = ERTS_TW_SLOT_INACTIVE)); done. }
    intros [] ? ->. tw_step. tw_step. by tw_step.
  - unfold dec_later. tw_step. cbv zeta.
    eapply (wp_mono _ (λ _ σ', σ' = mkTws (if empty && (true_next_timeout_time y && bool_decide (yield_slot y = ERTS_TW_SLOT_INACTIVE) && (bool_decide (later_min_tpos_slot y = slot) && bool_decide (Z.land (later_min_tpos y) ERTS_TW_LATER_WHEEL_POS_MASK - ERTS_TW_LATER_WHEEL_SLOT_SIZE = next_timeout_pos y)%Z)) then y <| true_next_timeout_time := false |> else y) T n k st g)).
    { destruct empty, (true_next_timeout_time y), (bool_decide (later_min_tpos_slot y = slot)),
        (bool_decide (yield_slot y = ERTS_TW_SLOT_INACTIVE)), (bool_decide (_ = next_timeout_pos y)); done. }
    intros [] ? ->. tw_step. tw_step. by tw_step.
Qed.

Lemma rep_disjoint W T cur L S F s s' a : rep W T cur L S F → a ∈ L s → a ∈ L s' → s = s'.
Proof.
  intros R H1 H2. destruct (rep_slot _ _ _ _ _ _ R _ _ H1) as (_ & _ & E1).
  destruct (rep_slot _ _ _ _ _ _ R _ _ H2) as (_ & _ & E2). congruence.
Qed.

(** Unlinking [p] does not change the lists [p] is not in. *)
Lemma unlink_frame T T' m l :
  (∀ b, nx T' b = if decide (last m = Some b) then head m else nx T b) →
  (∀ b, pv T' b = if decide (head m = Some b) then last m else pv T b) →
  (∀ a, a ∈ l → a ∉ m) → ring T l → ring T' l.
Proof.
  intros Hn Hp Hd. apply rring_frame; intros a Ha.
  - rewrite Hn, decide_False; [done|]. intros ?%last_Some_elem_of. by eapply Hd.
  - rewrite Hp, decide_False; [done|]. intros ?%head_Some_elem_of. by eapply Hd.
Qed.

Lemma rep_del W T T' cur L S p slot l1 l2 m :
  rep W T cur L S [] → L slot = l1 ++ p :: l2 → m = l2 ++ l1 →
  (∀ b, nx T' b = if decide (last m = Some b) then head m else nx T b) →
  (∀ b, pv T' b = if decide (head m = Some b) then last m else pv T b) →
  cores T' = cores T → rep (unlinked_w slot p m W) T' cur (<[slot := l1 ++ l2]> L) S [p].
Proof.
  intros R HL Hm Hn Hp Hc. pose proof R as [R1 R2 R3 R4 R5 R6 R7 R8 R9].
  assert (p ∈ L slot) as HpL by (rewrite HL; set_solver).
  destruct (R6 _ _ HpL) as (Hs & Hps & Hcp).
  pose proof (R4 slot) as Hnd. rewrite HL in Hnd.
  assert (∀ a, a ∈ m → a ∈ L slot) as HmL by (intros a; rewrite HL, Hm; set_solver).
  assert ((p ∉ l1 ++ l2) ∧ NoDup (l1 ++ l2)) as [Hpl Hndl].
  { rewrite <- (Permutation_middle l1 l2) in Hnd. by apply NoDup_cons in Hnd. }
  assert (∀ s, s ≠ slot → unlinked_w slot p m W !! s = W !! s) as Hws.
  { intros s Hss. unfold unlinked_w. destruct (head m); [case_decide|];
      rewrite ?lookup_insert_ne, ?lookup_delete_ne by done; done. }
  split.
  - intros s Hso. destruct (decide (s = slot)) as [->|Hss].
    + rewrite fn_lookup_insert. unfold unlinked_w. pose proof (R1 slot Hs) as Hw. rewrite HL in Hw.
      destruct l1 as [|a l1]; [|destruct l2 as [|b l2]]; rewrite Hm; simpl in *.
      * rewrite app_nil_r. destruct l2 as [|b l2]; simpl in *; [by rewrite lookup_delete_eq|].
        by rewrite decide_True, lookup_insert_eq.
      * rewrite decide_False; [by rewrite Hw|]. rewrite Hw. intros [= ->]. set_solver.
      * rewrite decide_False; [by rewrite Hw|]. rewrite Hw. intros [= ->]. set_solver.
    + rewrite fn_lookup_insert_ne, Hws by done. by apply R1.
  - intros s. destruct (decide (s = slot)) as [->|Hss].
    + rewrite fn_lookup_insert. eapply (rring_del (nx T) (pv T) (nx T') (pv T') l1 p l2); [rewrite <- HL; apply R2|done|..];
        intros b _; rewrite <- Hm; [apply Hn|apply Hp].
    + rewrite fn_lookup_insert_ne by done. eapply unlink_frame; [done|done| |apply R2].
      intros a Ha Ham. apply Hss. symmetry. eapply rep_disjoint; [done|by apply HmL|done].
  - eapply unlink_frame; [done|done| |done]. intros a [->|Ha]%elem_of_cons Ham%HmL.
    + by apply R6 in Ham as (_ & ? & _).
    + by apply R7 in Ha as (_ & _ & _ & H); eapply H.
  - intros s. destruct (decide (s = slot)) as [->|Hss]; [by rewrite fn_lookup_insert|].
    by rewrite fn_lookup_insert_ne.
  - done.
  - intros s a. rewrite Hc. destruct (decide (s = slot)) as [->|Hss].
    + rewrite fn_lookup_insert. intros Ha. apply R6. rewrite HL. set_solver.
    + rewrite fn_lookup_insert_ne by done. apply R6.
  - intros a Ha. rewrite Hc. destruct (R7 _ Ha) as (? & ? & ? & HaL). split_and!; try done.
    intros s. destruct (decide (s = slot)) as [->|Hss]; [|by rewrite fn_lookup_insert_ne].
    rewrite fn_lookup_insert. intros Ha'. apply (HaL slot). rewrite HL. set_solver.
  - intros a ->%list_elem_of_singleton. split_and!; [done|..].
    + apply fmap_Some in Hcp as (d & Hd & _). rewrite <- Hc in Hd. by eapply cores_live.
    + intros HS. destruct (R7 _ HS) as (_ & _ & _ & H). by eapply H.
    + intros s. destruct (decide (s = slot)) as [->|Hss]; [by rewrite fn_lookup_insert|].
      rewrite fn_lookup_insert_ne by done. intros Ha. apply Hss. by eapply rep_disjoint.
  - intros a d Ha. rewrite Hc. intros Hd Hi. destruct (R9 a d Ha Hd Hi) as [H|[H|H%elem_of_nil]]; [|tauto|done].
    destruct (decide (d_slot d = slot)) as [E|Hss]; [|left; by rewrite fn_lookup_insert_ne].
    rewrite E in *. rewrite fn_lookup_insert. rewrite HL, elem_of_app, elem_of_cons in H. rewrite elem_of_app, list_elem_of_singleton. tauto.
Qed.

Lemma rep_delS W T T' cur L S p l1 l2 m :
  rep W T cur L S [] → S = l1 ++ p :: l2 → m = l2 ++ SENTINEL :: l1 →
  (∀ b, nx T' b = if decide (last m = Some b) then head m else nx T b) →
  (∀ b, pv T' b = if decide (head m = Some b) then last m else pv T b) →
  cores T' = cores T → rep W T' cur L (l1 ++ l2) [p].
Proof.
  intros R HS Hm Hn Hp Hc. pose proof R as [R1 R2 R3 R4 R5 R6 R7 R8 R9].
  assert (p ∈ S) as HpS by (rewrite HS; set_solver).
  destruct (R7 _ HpS) as (Hs & Hps & Hcp & HpL).
  rewrite HS in R5, R3. pose proof R5 as Hnd. rewrite <- (Permutation_middle l1 l2) in Hnd.
  apply NoDup_cons in Hnd as [Hpl Hndl].
  assert (SENTINEL ∉ l1 ++ p :: l2) as Hsent.
  { rewrite <- HS. intros ?. by destruct (R7 SENTINEL) as (_ & ? & _). }
  split.
  - done.
  - intros s. eapply unlink_frame; [done|done| |apply R2]. intros a Ha. rewrite Hm.
    intros [H|[->|H]%elem_of_cons]%elem_of_app; [|by apply R6 in Ha as (_ & ? & _)|];
      (destruct (R7 a) as (_ & _ & _ & Hal); [rewrite HS; set_solver|by eapply Hal]).
  - eapply (rring_del (nx T) (pv T) (nx T') (pv T') (SENTINEL :: l1) p l2); [done|by apply NoDup_cons|..];
      intros b _; rewrite <- Hm; [apply Hn|apply Hp].
  - done.
  - done.
  - intros s a. rewrite Hc. apply R6.
  - intros a Ha. rewrite Hc. apply R7. rewrite HS. set_solver.
  - intros a ->%list_elem_of_singleton. split_and!; [done| |done|done].
    apply fmap_Some in Hcp as (d & Hd & _). rewrite <- Hc in Hd. by eapply cores_live.
  - intros a d Ha. rewrite Hc. intros Hd Hi. destruct (R9 a d Ha Hd Hi) as [H|[H|H%elem_of_nil]]; [tauto| |done].
    rewrite HS, elem_of_app, elem_of_cons in H. rewrite elem_of_app, list_elem_of_singleton. tauto.
Qed.

(** A timer that is in no list becomes inactive. *)
Lemma rep_inactive W T cur L S p d :
  rep W T cur L S [p] → cores T !! p = Some d →
  rep W (alter (λ t, t <| t_slot := ERTS_TW_SLOT_INACTIVE |>) p T) cur L S [].
Proof.
  intros [R1 R2 R3 R4 R5 R6 R7 R8 R9] Hd. set (T' := alter _ p T).
  pose proof (cores_alter_slot _ _ _ ERTS_TW_SLOT_INACTIVE Hd) as Hc. fold T' in Hc.
  destruct (R8 p ltac:(left)) as (Hps & _ & HpS & HpL).
  assert (∀ a, a ≠ p → cores T' !! a = cores T !! a) as Hne by (intros a Ha; by rewrite Hc, lookup_insert_ne).
  assert (∀ l, ring T l → ring T' l) as Hfr.
  { intros l. apply rring_frame; intros a Ha; [by apply nx_alter_data|by apply pv_alter_data]. }
  split; try done.
  - intros s. apply Hfr, R2.
  - by apply Hfr.
  - intros s a Ha. rewrite Hne by (intros ->; by eapply HpL). by apply R6.
  - intros a Ha. rewrite Hne by (intros ->; done). by apply R7.
  - by intros a ?%elem_of_nil.
  - intros a d' Ha. destruct (decide (a = p)) as [->|Hap].
    + by rewrite Hc, lookup_insert_eq; intros [= <-].
    + rewrite Hne by done. intros Hd' Hi.
      destruct (R9 a d' Ha Hd' Hi) as [H|[H|H%list_elem_of_singleton]]; [tauto|tauto|done].
Qed.
