(* ===== verification/TimerCounts.v ===== *)
(** The counts of the timer wheel: how many timers wait at once, in the soon and
    in the later wheel, and in every group of slots; and the search that skips the
    groups without timers. *)

From S2P Require Import Prelude PonStats Kernel TimerWheel TimerBump TimerRing TimerInv.
From stdpp Require Import base tactics numbers list gmap fin_maps.
From Stdlib Require Import ZArith Lia.

(** ** Counting timers by slot *)

Abbreviation dmap := (gmap positive tdata).

Definition cnt (P : Z → Prop) `{!∀ s, Decision (P s)} (C : dmap) : Z :=
  Z.of_nat (size (filter (λ ad, P (d_slot ad.2)) C)).

Section cnt.
Context (P : Z → Prop) `{Pdec : !∀ s, Decision (P s)}.
Implicit Types C : dmap.

Lemma cnt_insert C p d : C !! p = None →
  cnt P (<[p := d]> C) = (cnt P C + if decide (P (d_slot d)) then 1 else 0)%Z.
Proof.
  intros Hp. unfold cnt. case_decide as HP.
  - rewrite map_filter_insert_True, map_size_insert_None by (done || by rewrite map_lookup_filter, Hp). lia.
  - rewrite map_filter_insert_False by done. rewrite delete_id by done. lia.
Qed.

Lemma cnt_delete C p d : C !! p = Some d →
  cnt P (delete p C) = (cnt P C - if decide (P (d_slot d)) then 1 else 0)%Z.
Proof.
  intros Hp. rewrite <- (insert_delete_id C p d) at 2 by done.
  rewrite cnt_insert by apply lookup_delete_eq. lia.
Qed.

Lemma cnt_nonneg C : (0 ≤ cnt P C)%Z.
Proof. unfold cnt. lia. Qed.

Lemma cnt_le C : (cnt P C ≤ Z.of_nat (size C))%Z.
Proof. unfold cnt. pose proof (map_size_filter (λ ad, P (d_slot ad.2)) C). lia. Qed.

(** A count of zero: no such timer. *)
Lemma cnt_zero C a d : cnt P C = 0%Z → C !! a = Some d → ¬ P (d_slot d).
Proof.
  intros Hz Ha HP. pose proof (cnt_delete C a d Ha) as Hd. rewrite decide_True in Hd by done.
  pose proof (cnt_nonneg (delete a C)). lia.
Qed.

Lemma cnt_none C : (∀ a d, C !! a = Some d → ¬ P (d_slot d)) → cnt P C = 0%Z.
Proof.
  intros H. unfold cnt. destruct (decide (filter (λ ad, P (d_slot ad.2)) C = ∅)) as [->|Hne]; [done|].
  apply map_choose in Hne as (a & d & [Ha HP]%map_lookup_filter_Some). by destruct (H a d).
Qed.

Lemma cnt_pos C : cnt P C ≠ 0%Z → ∃ a d, C !! a = Some d ∧ P (d_slot d).
Proof.
  unfold cnt. intros H. destruct (map_choose (filter (λ ad, P (d_slot ad.2)) C)) as (a & d & Ha).
  - intros E. rewrite E in H. done.
  - apply map_lookup_filter_Some in Ha as [? ?]. eauto.
Qed.

End cnt.

(** ** The counts of a wheel *)

Definition soon_ok (s : Z) : Prop := (0 ≤ s < ERTS_TW_SOON_WHEEL_END_SLOT)%Z.
Definition later_ok (s : Z) : Prop := (ERTS_TW_SOON_WHEEL_END_SLOT ≤ s < ERTS_TW_LATER_WHEEL_END_SLOT)%Z.
Definition in_group (i : nat) (s : Z) : Prop := (0 ≤ s ∧ scnt_get_ix s = Z.of_nat i)%Z.

#[global] Instance soon_ok_dec s : Decision (soon_ok s).
Proof. unfold soon_ok. apply _. Defined.
#[global] Instance later_ok_dec s : Decision (later_ok s).
Proof. unfold later_ok. apply _. Defined.
#[global] Instance in_group_dec i s : Decision (in_group i s).
Proof. unfold in_group. apply _. Defined.

Lemma slot_cases s : slot_ok s → s = ERTS_TW_SLOT_AT_ONCE ∨ soon_ok s ∨ later_ok s.
Proof. unfold slot_ok, soon_ok, later_ok. change ERTS_TW_SLOT_AT_ONCE with (-1)%Z. lia. Qed.

(** [c] counts the timers [C] by groups. *)
Definition group_counts (c : list Z) (C : dmap) : Prop :=
  length c = 64 ∧ ∀ i, i < 64 → c !! i = Some (cnt (in_group i) C).

Record counts (x : ErtsTimerWheel) (C : dmap) : Prop := {
  cn_at : at_once_nto x = cnt (λ s, s = ERTS_TW_SLOT_AT_ONCE) C;
  cn_soon : soon_nto x = cnt soon_ok C;
  cn_later : later_nto x = cnt later_ok C;
  cn_scnt : group_counts (scnt x) C
}.

Lemma scnt_ix_range s : (0 ≤ s < 32768)%Z → (0 ≤ scnt_get_ix s < 64)%Z.
Proof.
  intros H. unfold scnt_get_ix, ERTS_TW_SCNT_BITS. rewrite Z.shiftr_div_pow2 by lia.
  change (2 ^ 9)%Z with 512%Z. split; [apply Z.div_pos; lia|apply Z.div_lt_upper_bound; lia].
Qed.

Lemma scnt_add_at c C C' s e i :
  length c = 64 → i < 64 → c !! i = Some (cnt (in_group i) C) → (0 ≤ s < 32768)%Z →
  (Z.of_nat (size C') < 2 ^ 62)%Z →
  cnt (in_group i) C' = (cnt (in_group i) C + if decide (in_group i s) then e else 0)%Z →
  scnt_add e (scnt_get_ix s) c !! i = Some (cnt (in_group i) C').
Proof.
  intros Hlen Hi Hc Hs Hb' HC. pose proof (scnt_ix_range s Hs) as Hix.
  unfold scnt_add. pose proof (cnt_le (in_group i) C'). pose proof (cnt_nonneg (in_group i) C').
  destruct (decide (in_group i s)) as [Hg|Hg].
  - assert (Z.to_nat (scnt_get_ix s) = i) as -> by (destruct Hg; lia).
    rewrite list_lookup_alter_eq, Hc by done. simpl. f_equal. rewrite HC. apply wraps_small; [lia|].
    change (2 ^ (64 - 1))%Z with (2 * 2 ^ 62)%Z. lia.
  - assert (Z.to_nat (scnt_get_ix s) ≠ i) as Hne by (intros <-; apply Hg; split; lia).
    rewrite list_lookup_alter_ne by done. rewrite Hc by done. f_equal. lia.
Qed.

Lemma scnt_add_group c C C' s e :
  group_counts c C → (0 ≤ s < 32768)%Z → (Z.of_nat (size C) < 2 ^ 62)%Z → (Z.of_nat (size C') < 2 ^ 62)%Z →
  (∀ i, cnt (in_group i) C' = (cnt (in_group i) C + if decide (in_group i s) then e else 0)%Z) →
  group_counts (scnt_add e (scnt_get_ix s) c) C'.
Proof.
  intros [Hlen Hc] Hs Hb Hb' HC. split; [unfold scnt_add; by rewrite length_alter|].
  intros i Hi. apply (scnt_add_at c C); auto.
Qed.

(** The same for the groups from [lo] on. *)
Definition group_from (lo : nat) (c : list Z) (C : dmap) : Prop :=
  length c = 64 ∧ ∀ i, lo ≤ i < 64 → c !! i = Some (cnt (in_group i) C).

Lemma group_counts_from lo c C : group_counts c C → group_from lo c C.
Proof. intros [Hl Hc]. split; [done|]. intros i Hi. apply Hc. lia. Qed.

Lemma u64_cnt v : (0 ≤ v < 2 ^ 62)%Z → u64 v = v.
Proof. intros. apply wrapu_small. change (2 ^ 64)%Z with (4 * 2 ^ 62)%Z. lia. Qed.

(** ** Insertion and removal *)

(** Fewer timers than an unsigned word can count. *)
Definition few (C : dmap) : Prop := (Z.of_nat (size C) < 2 ^ 62)%Z.

Lemma soon_range s : soon_ok s → (0 ≤ s < 16384)%Z.
Proof. done. Qed.
Lemma later_range s : later_ok s → (16384 ≤ s < 32768)%Z.
Proof. done. Qed.

Lemma cnt_few P `{!∀ s, Decision (P s)} C : few C → (0 ≤ cnt P C < 2 ^ 62)%Z.
Proof. unfold few. pose proof (cnt_nonneg P C). pose proof (cnt_le P C). lia. Qed.

Section recount.
Context (C C' : dmap) (slot : Z) (Hs : slot_ok slot) (Hf : few C) (Hf' : few C').

Lemma slot_not_at : slot ≠ ERTS_TW_SLOT_AT_ONCE → (0 ≤ slot < 32768)%Z.
Proof using Hs. intros Hne. apply slot_cases in Hs as [?|[H%soon_range|H%later_range]]; [done|lia..]. Qed.

Lemma slot_soon : slot ≠ ERTS_TW_SLOT_AT_ONCE → (slot < ERTS_TW_SOON_WHEEL_END_SLOT)%Z → soon_ok slot.
Proof using Hs. intros H1%slot_not_at H2. split; [lia|done]. Qed.

Lemma slot_later : ¬ (slot < ERTS_TW_SOON_WHEEL_END_SLOT)%Z → later_ok slot.
Proof using Hs.
  intros H. apply slot_cases in Hs as [->|[H'|]]; [by destruct H| |done]. by destruct H'.
Qed.

(** The counts of [C'] when it has [e] timers more in [slot] than [C]. *)
Context (e : Z) (HC : ∀ P `{∀ s, Decision (P s)}, cnt P C' = (cnt P C + if decide (P slot) then e else 0)%Z).

Lemma recount_in P `{∀ s, Decision (P s)} : P slot → u64 (cnt P C + e) = cnt P C'.
Proof using HC Hf'.
  intros HP. pose proof (cnt_few P C' Hf') as HB. rewrite HC, decide_True in HB |- * by done. by apply u64_cnt.
Qed.

Lemma recount_out P `{∀ s, Decision (P s)} : ¬ P slot → cnt P C = cnt P C'.
Proof using HC. intros HP. rewrite HC, decide_False by done. lia. Qed.

Lemma recount_group c : slot ≠ ERTS_TW_SLOT_AT_ONCE → group_counts c C →
  group_counts (scnt_add e (scnt_get_ix slot) c) C'.
Proof using HC Hf Hf' Hs.
  intros Hne%slot_not_at Hc. apply (scnt_add_group _ C); [done..|]. intros i. apply HC.
Qed.

Lemma recount_group_at c : slot = ERTS_TW_SLOT_AT_ONCE → group_counts c C → group_counts c C'.
Proof using HC.
  intros Hat [Hlen Hc]. split; [done|]. intros i Hi. rewrite Hc by done. f_equal. apply recount_out.
  rewrite Hat. by intros [? _].
Qed.

End recount.

Lemma soon_not_at s : soon_ok s → s ≠ ERTS_TW_SLOT_AT_ONCE.
Proof. intros ?%soon_range. change ERTS_TW_SLOT_AT_ONCE with (-1)%Z. lia. Qed.
Lemma later_not_at s : later_ok s → s ≠ ERTS_TW_SLOT_AT_ONCE.
Proof. intros ?%later_range. change ERTS_TW_SLOT_AT_ONCE with (-1)%Z. lia. Qed.
Lemma soon_not_later s : soon_ok s → ¬ later_ok s.
Proof. intros ?%soon_range ?%later_range. lia. Qed.

Lemma counts_insert x C p d slot tpos :
  counts x C → C !! p = None → slot_ok slot → few C → few (<[p := in_slot slot d]> C) →
  counts (inserted slot tpos x) (<[p := in_slot slot d]> C).
Proof.
  intros [H1 H2 H3 H4] Hp Hs Hf Hf'.
  assert (∀ P `{∀ s, Decision (P s)}, cnt P (<[p := in_slot slot d]> C) = (cnt P C + if decide (P slot) then 1 else 0)%Z) as HC.
  { intros P ?. by rewrite cnt_insert. }
  set (C' := <[p := in_slot slot d]> C) in *. clearbody C'.
  unfold inserted. destruct (decide (slot = ERTS_TW_SLOT_AT_ONCE)) as [Hat|Hat].
  - split; simpl.
    + rewrite H1. by apply (recount_in C C' slot).
    + rewrite H2. apply (recount_out C C' slot 1 HC). by intros ?%soon_not_at.
    + rewrite H3. apply (recount_out C C' slot 1 HC). by intros ?%later_not_at.
    + by apply (recount_group_at C C' slot 1).
  - cbv zeta. destruct (decide (slot < ERTS_TW_SOON_WHEEL_END_SLOT)%Z) as [Hlt|Hlt].
    + pose proof (slot_soon slot Hs Hat Hlt) as Hso. destruct (decide _); (split; simpl;
        [rewrite H1; by apply (recount_out C C' slot 1)|rewrite H2; by apply (recount_in C C' slot)|
         rewrite H3; apply (recount_out C C' slot 1 HC); by apply soon_not_later|by apply (recount_group C C' slot)]).
    + pose proof (slot_later slot Hs Hlt) as Hla. destruct (decide _); (split; simpl;
        [rewrite H1; by apply (recount_out C C' slot 1)
        |rewrite H2; apply (recount_out C C' slot 1 HC); by intros ?%soon_not_later
        |rewrite H3; by apply (recount_in C C' slot)|by apply (recount_group C C' slot)]).
Qed.

Lemma soon_gone_counts x C' :
  at_once_nto x = cnt (λ s, s = ERTS_TW_SLOT_AT_ONCE) C' → u64 (soon_nto x - 1) = cnt soon_ok C' →
  later_nto x = cnt later_ok C' → group_counts (scnt x) C' → counts (soon_gone x) C'.
Proof. intros H1 H2 H3 H4. unfold soon_gone. cbv zeta. destruct (decide _); by split. Qed.

Lemma later_gone_counts x C' :
  at_once_nto x = cnt (λ s, s = ERTS_TW_SLOT_AT_ONCE) C' → soon_nto x = cnt soon_ok C' →
  u64 (later_nto x - 1) = cnt later_ok C' → group_counts (scnt x) C' → counts (later_gone x) C'.
Proof. intros H1 H2 H3 H4. unfold later_gone. cbv zeta. destruct (decide _); by split. Qed.

Lemma few_delete C p : few C → few (delete p C).
Proof. unfold few. rewrite map_size_delete. destruct (C !! p); simpl; lia. Qed.

Lemma counts_remove x C p d slot tpos empty :
  counts x C → C !! p = Some d → d_slot d = slot → slot_ok slot → few C →
  counts (removed slot tpos empty x) (delete p C).
Proof.
  intros [H1 H2 H3 H4] Hp Hd Hs Hf.
  assert (∀ P `{∀ s, Decision (P s)}, cnt P (delete p C) = (cnt P C + if decide (P slot) then -1 else 0)%Z) as HC.
  { intros P ?. rewrite (cnt_delete P C p d Hp), Hd. destruct (decide (P slot)); lia. }
  pose proof (few_delete C p Hf) as Hf'. set (C' := delete p C) in *. clearbody C'.
  unfold removed. destruct (decide (slot = ERTS_TW_SLOT_AT_ONCE)) as [Hat|Hat].
  - split; simpl.
    + rewrite H1. by apply (recount_in C C' slot Hf' (-1)).
    + rewrite H2. apply (recount_out C C' slot (-1) HC). by intros ?%soon_not_at.
    + rewrite H3. apply (recount_out C C' slot (-1) HC). by intros ?%later_not_at.
    + by apply (recount_group_at C C' slot (-1)).
  - cbv zeta. set (y := if _ && _ then _ else _).
    assert (at_once_nto y = at_once_nto x ∧ soon_nto y = soon_nto x ∧ later_nto y = later_nto x ∧
            scnt y = scnt_add (-1) (scnt_get_ix slot) (scnt x)) as (E1 & E2 & E3 & E4).
    { unfold y. by destruct (_ && _). }
    clearbody y. destruct (decide (slot < ERTS_TW_SOON_WHEEL_END_SLOT)%Z) as [Hlt|Hlt].
    + pose proof (slot_soon slot Hs Hat Hlt) as Hso. apply soon_gone_counts.
      * rewrite E1, H1. by apply (recount_out C C' slot (-1)).
      * rewrite E2, H2. by apply (recount_in C C' slot Hf' (-1)).
      * rewrite E3, H3. apply (recount_out C C' slot (-1) HC). by apply soon_not_later.
      * rewrite E4. by apply (recount_group C C' slot).
    + pose proof (slot_later slot Hs Hlt) as Hla. apply later_gone_counts.
      * rewrite E1, H1. by apply (recount_out C C' slot (-1)).
      * rewrite E2, H2. apply (recount_out C C' slot (-1) HC). by intros ?%soon_not_later.
      * rewrite E3, H3. by apply (recount_in C C' slot Hf' (-1)).
      * rewrite E4. by apply (recount_group C C' slot).
Qed.

(** A timer is no longer counted in the groups; the others are counted as before. *)
Lemma group_from_delete lo c C p d :
  group_from lo c C → C !! p = Some d → (0 ≤ d_slot d < 32768)%Z → few C →
  group_from lo (scnt_add (-1) (scnt_get_ix (d_slot d)) c) (delete p C).
Proof.
  intros [Hlen Hc] Hp Hs Hf. split; [unfold scnt_add; by rewrite length_alter|].
  intros i Hi. apply (scnt_add_at c C); [done|lia|by apply Hc|done|by apply few_delete|].
  rewrite (cnt_delete (in_group i) C p d Hp). case_decide; lia.
Qed.

(** A timer outside these groups does not matter. *)
Lemma group_from_insert lo c C p d :
  group_from lo c C → C !! p = None → (∀ i, lo ≤ i → ¬ in_group i (d_slot d)) → group_from lo c (<[p := d]> C).
Proof.
  intros [Hlen Hc] Hp Hs. split; [done|]. intros i Hi. rewrite Hc by done. f_equal.
  rewrite cnt_insert by done. rewrite decide_False by (apply Hs; lia). lia.
Qed.
