(* ===== verification/TimerScan.v ===== *)
(** The search of the timer wheel for the next slot that may hold a timer: it
    skips the groups of slots whose count is zero, and only those. *)

From S2P Require Import Prelude PonStats Kernel TimerWheel TimerBump TimerRing TimerInv TimerCounts.
From stdpp Require Import base tactics numbers list gmap fin_maps.
From Stdlib Require Import ZArith Lia.

(** ** Positions and slots *)

(** The slot of position [j] of the wheel that starts at slot [first]. *)
Definition wslot (first j : Z) : Z := (first + j `mod` 16384)%Z.

(** The two wheels. *)
Definition wheel_start (first : Z) : Prop := first = 0%Z ∨ first = 16384%Z.

Lemma soon_slot_wslot p : soon_slot p = wslot 0 p.
Proof.
  unfold soon_slot, wslot. change ERTS_TW_SOON_WHEEL_MASK with (Z.ones 14). by rewrite Z.land_ones.
Qed.

Lemma later_slot_wslot p : later_slot p = wslot 16384 (p / 8192).
Proof.
  unfold later_slot, wslot. change ERTS_TW_LATER_WHEEL_MASK with (Z.ones 14).
  rewrite Z.land_ones, Z.shiftr_div_pow2 by done.
  change ERTS_TW_LATER_WHEEL_FIRST_SLOT with 16384%Z. change (2 ^ ERTS_TW_LATER_WHEEL_SHIFT)%Z with 8192%Z.
  change (2 ^ 14)%Z with 16384%Z. lia.
Qed.

Lemma pos_mask p : Z.land p ERTS_TW_LATER_WHEEL_POS_MASK = (p / 8192 * 8192)%Z.
Proof.
  change ERTS_TW_LATER_WHEEL_POS_MASK with (Z.lnot (Z.ones 13)).
  rewrite <- Z.ldiff_land, Z.ldiff_ones_r by lia. by rewrite Z.shiftr_div_pow2, Z.shiftl_mul_pow2.
Qed.

Lemma wslot_range first j : wheel_start first → (first ≤ wslot first j < first + 16384)%Z.
Proof. intros _. unfold wslot. pose proof (Z.mod_pos_bound j 16384). lia. Qed.

(** Without wrapping around, and at the end of the wheel. *)
Lemma wslot_add first j d : (0 ≤ d)%Z → (wslot first j + d < first + 16384)%Z →
  wslot first (j + d) = (wslot first j + d)%Z.
Proof.
  unfold wslot. intros H1 H2. pose proof (Z.mod_pos_bound j 16384). pose proof (Z.div_mod j 16384).
  rewrite <- (Z.mod_unique_pos (j + d) 16384 (j / 16384) (j `mod` 16384 + d)) by lia. lia.
Qed.

Lemma wslot_end first j d : (wslot first j + d = first + 16384)%Z → wslot first (j + d) = first.
Proof.
  unfold wslot. intros H. pose proof (Z.div_mod j 16384).
  rewrite <- (Z.mod_unique_pos (j + d) 16384 (j / 16384 + 1) 0) by lia. lia.
Qed.

Lemma wslot_mod first j k : wslot first (j + 16384 * k) = wslot first j.
Proof. unfold wslot. by rewrite Z.mul_comm, Z_mod_plus_full. Qed.

Lemma scnt_get_ix_div s : scnt_get_ix s = (s / 512)%Z.
Proof. unfold scnt_get_ix. by rewrite Z.shiftr_div_pow2. Qed.

(** ** The search *)

(** No timer is counted in the group of slot [s]. *)
Definition no_count (c : list Z) (s : Z) : Prop := c !! Z.to_nat (scnt_get_ix s) = Some 0%Z.

Section search.
Context (past : option Z) (first : Z) (c : list Z).
Context (Hfirst : wheel_start first) (Hc : length c = 64).

(** The read behind the array, which only the later wheel performs, has some value. *)
Context (Hpast : first = 0%Z ∨ is_Some past).

Lemma scnt_read ix : (0 ≤ ix ≤ first / 512 + 32)%Z → ∃ v,
  (match c !! Z.to_nat ix with Some v => Some v | None => past end) = Some v.
Proof using Hc Hfirst Hpast.
  intros Hix. destruct (c !! Z.to_nat ix) as [v|] eqn:E; [eauto|].
  apply lookup_ge_None in E. destruct Hpast as [->|[v ->]]; [|eauto].
  change (0 / 512)%Z with 0%Z in Hix. lia.
Qed.

Lemma scnt_skip_spec fuel j ix left :
  (0 ≤ left)%Z → (Z.to_nat left ≤ fuel)%nat → (0 ≤ ix ≤ first / 512 + 32)%Z →
  ix = scnt_get_ix (wslot first j) ∨ left = 0%Z →
  ∃ d, (0 ≤ d ≤ left)%Z ∧
    scnt_skip past c first (first + 16384) fuel (wslot first j) ix left
      = Some (wslot first (j + d), (left - d)%Z) ∧
    ∀ e, (0 ≤ e < d)%Z → no_count c (wslot first (j + e)).
Proof using Hc Hfirst Hpast.
  revert j ix left. induction fuel as [|fuel IH]; intros j ix left Hl Hf Hix Hgrp.
  - destruct (scnt_read ix Hix) as [v Hv]. exists 0%Z. split; [lia|]. split; [|lia].
    cbn [scnt_skip]. unfold mbind, option_bind. rewrite Hv, decide_False by lia. f_equal. f_equal; [f_equal|]; lia.
  - destruct (scnt_read ix Hix) as [v Hv]. cbn [scnt_skip]. unfold mbind, option_bind. rewrite Hv.
    destruct (decide (v = 0 ∧ 0 < left)%Z) as [[-> Hpos]|Hno].
    + destruct Hgrp as [->|?]; [|lia].
      pose proof (wslot_range first j Hfirst) as Hr. rewrite scnt_get_ix_div in *.
      set (s := wslot first j) in *. assert (c !! Z.to_nat (s / 512) = Some 0%Z) as Hz.
      { destruct (c !! Z.to_nat (s / 512)) as [v'|] eqn:E; [congruence|]. apply lookup_ge_None in E.
        rewrite Hc in E. pose proof (Z.div_mod s 512). pose proof (Z.mod_pos_bound s 512). destruct Hfirst; lia. }
      rewrite !Z.shiftl_mul_pow2 by done. change (2 ^ ERTS_TW_SCNT_BITS)%Z with 512%Z.
      pose proof (Z.div_mod s 512). pose proof (Z.mod_pos_bound s 512).
      set (q := (s / 512)%Z) in *. set (diff := ((q + 1) * 512 - s)%Z).
      assert (∀ e, (0 ≤ e < diff)%Z → no_count c (wslot first (j + e))) as Hzero.
      { intros e He. unfold no_count. rewrite wslot_add; [|lia|fold s; unfold diff in He; destruct Hfirst; lia].
        fold s. rewrite scnt_get_ix_div. replace ((s + e) / 512)%Z with q; [done|].
        apply Z.div_unique with ((s + e) - 512 * q)%Z; unfold diff in He; lia. }
      assert (∀ δ ix', (0 < δ ≤ left)%Z → (δ ≤ diff)%Z → (0 ≤ ix' ≤ first / 512 + 32)%Z →
        ix' = scnt_get_ix (wslot first (j + δ)) ∨ (left - δ = 0)%Z →
        ∃ d, (0 ≤ d ≤ left)%Z ∧ scnt_skip past c first (first + 16384) fuel (wslot first (j + δ)) ix' (left - δ)
          = Some (wslot first (j + d), (left - d)%Z) ∧
          ∀ e, (0 ≤ e < d)%Z → no_count c (wslot first (j + e))) as Hrec.
      { intros δ ix' Hδ Hδ' Hix' Hg. destruct (IH (j + δ)%Z ix' (left - δ)%Z) as (d & Hd & He & Hn); [lia|lia|done|done|].
        exists (δ + d)%Z. split; [lia|]. split.
        - rewrite He. f_equal. f_equal; [f_equal|]; lia.
        - intros e He'. destruct (decide (e < δ)%Z); [apply Hzero; lia|].
          replace (j + e)%Z with (j + δ + (e - δ))%Z by lia. apply Hn. lia. }
      assert (first / 512 * 512 = first)%Z as Hfm by (by destruct Hfirst as [->| ->]).
      destruct (decide (left < diff)%Z) as [Hld|Hld]; fold s.
      * rewrite decide_True by (unfold diff in Hld; destruct Hfirst; lia).
        unfold s. rewrite <- (wslot_add first j left) by (unfold diff in Hld; fold s; destruct Hfirst; lia).
        apply Hrec; [lia|lia|destruct Hfirst; lia|right; lia].
      * replace ((q + 1) * 512)%Z with (s + diff)%Z by (unfold diff; lia).
        destruct (decide (s + diff < first + 16384)%Z) as [Hend|Hend].
        -- unfold s. rewrite <- (wslot_add first j diff) by (unfold diff; fold s; lia).
           apply Hrec; [unfold diff in *; lia|lia|destruct Hfirst; lia|left].
           rewrite (wslot_add first j diff), scnt_get_ix_div by (unfold diff; fold s; lia). fold s.
           replace (s + diff)%Z with ((q + 1) * 512)%Z by (unfold diff; lia). by rewrite Z.div_mul.
        -- assert (s + diff = first + 16384)%Z as Hse by (unfold diff in *; destruct Hfirst; lia).
           replace (first + 16384 - s)%Z with diff by lia.
           pose proof (wslot_end first j diff Hse) as Hw. pose proof (Hrec diff (scnt_get_ix first)) as Hr2.
           rewrite Hw in Hr2. apply Hr2; [unfold diff in *; lia|lia| |by left].
           rewrite scnt_get_ix_div. destruct Hfirst; lia.
    + exists 0%Z. split; [lia|]. split; [|lia]. f_equal. f_equal; [f_equal|]; lia.
Qed.

(** The next slot at which to look: the slots passed over are in empty groups. *)
Lemma scnt_wheel_next_spec j left ps sz :
  (0 < left)%Z → ∃ d, (0 < d ≤ left)%Z ∧
    scnt_wheel_next past (wslot first j) left ps c first (first + 16384) sz
      = Some (wslot first (j + d), (left - d)%Z, (ps + sz * d)%Z) ∧
    ∀ e, (0 < e < d)%Z → no_count c (wslot first (j + e)).
Proof using Hc Hfirst Hpast.
  intros Hl. unfold scnt_wheel_next. cbv zeta. pose proof (wslot_range first j Hfirst) as Hr.
  assert ((if decide (wslot first j + 1 = first + 16384)%Z then first else (wslot first j + 1)%Z) = wslot first (j + 1)) as ->.
  { destruct (decide _) as [E|E]; [by rewrite wslot_end|]. rewrite wslot_add by lia. done. }
  pose proof (wslot_range first (j + 1) Hfirst) as Hr'. rewrite scnt_get_ix_div.
  destruct (scnt_skip_spec (Z.to_nat (left - 1)) (j + 1) (wslot first (j + 1) / 512) (left - 1)) as (d & Hd & He & Hn);
    [lia|lia| |left; by rewrite scnt_get_ix_div|].
  { pose proof (Z.div_mod (wslot first (j + 1)) 512). pose proof (Z.mod_pos_bound (wslot first (j + 1)) 512).
    assert (first / 512 * 512 = first)%Z by (by destruct Hfirst as [->| ->]). destruct Hfirst; lia. }
  unfold mbind, option_bind. rewrite He. exists (d + 1)%Z. split; [lia|]. split.
  - f_equal. f_equal; [f_equal; [f_equal|]|]; lia.
  - intros e He'. replace (j + e)%Z with (j + 1 + (e - 1))%Z by lia. apply Hn. lia.
Qed.

End search.

(** The two instances, with the group counts of timers [C]: the slots passed over
    hold no timer. *)
Definition free_slot (C : dmap) (s : Z) : Prop := ∀ a d, C !! a = Some d → d_slot d ≠ s.

Lemma no_count_free lo c C s :
  group_from lo c C → (Z.of_nat lo * 512 ≤ s < 32768)%Z → no_count c s → free_slot C s.
Proof.
  intros [Hlen Hc] Hs Hn a d Ha Hd. unfold no_count in Hn.
  pose proof (scnt_ix_range s ltac:(lia)) as Hix.
  assert (Z.of_nat lo ≤ scnt_get_ix s)%Z as Hlo by (rewrite scnt_get_ix_div; apply Z.div_le_lower_bound; lia).
  rewrite Hc in Hn by lia. injection Hn as Hn. apply (cnt_zero _ _ _ _ Hn Ha). rewrite Hd. split; lia.
Qed.

Lemma soon_next_spec past c C p left ps :
  group_from 0 c C → (0 < left)%Z → ∃ d, (0 < d ≤ left)%Z ∧
    scnt_soon_wheel_next past (soon_slot p) left ps c = Some (soon_slot (p + d), (left - d)%Z, (ps + d)%Z) ∧
    ∀ e, (0 < e < d)%Z → free_slot C (soon_slot (p + e)).
Proof.
  intros Hg Hl. rewrite soon_slot_wslot.
  destruct (scnt_wheel_next_spec past 0 c (or_introl eq_refl) (proj1 Hg) (or_introl eq_refl) p left ps 1 Hl)
    as (d & Hd & He & Hn). exists d. split; [done|]. split.
  - change (scnt_soon_wheel_next past (wslot 0 p) left ps c)
      with (scnt_wheel_next past (wslot 0 p) left ps c 0 (0 + 16384) 1).
    rewrite He, soon_slot_wslot. f_equal. f_equal. lia.
  - intros e He'. rewrite soon_slot_wslot. eapply no_count_free; [done| |by apply Hn].
    pose proof (wslot_range 0 (p + e) (or_introl eq_refl)). lia.
Qed.

Lemma later_next_spec past v c C p left ps :
  past = Some v → group_from 32 c C → (0 < left)%Z → ∃ d, (0 < d ≤ left)%Z ∧
    scnt_later_wheel_next past (later_slot p) left ps c
      = Some (later_slot (p + 8192 * d), (left - d)%Z, (ps + 8192 * d)%Z) ∧
    ∀ e, (0 < e < d)%Z → free_slot C (later_slot (p + 8192 * e)).
Proof.
  intros -> Hg Hl. rewrite later_slot_wslot.
  assert (∀ e, later_slot (p + 8192 * e) = wslot 16384 (p / 8192 + e)) as Hls.
  { intros e. rewrite later_slot_wslot. f_equal. rewrite (Z.mul_comm 8192), Z_div_plus_full; lia. }
  destruct (scnt_wheel_next_spec (Some v) 16384 c (or_intror eq_refl) (proj1 Hg) (or_intror (ex_intro _ v eq_refl))
    (p / 8192) left ps 8192 Hl) as (d & Hd & He & Hn). exists d. split; [done|]. split.
  - change (scnt_later_wheel_next (Some v) (wslot 16384 (p / 8192)) left ps c)
      with (scnt_wheel_next (Some v) (wslot 16384 (p / 8192)) left ps c 16384 (16384 + 16384) 8192).
    by rewrite Hls.
  - intros e He'. rewrite Hls. eapply no_count_free; [done| |by apply Hn].
    pose proof (wslot_range 16384 (p / 8192 + e) (or_intror eq_refl)). lia.
Qed.
