(* ===== verification/TimerOps.v ===== *)
(** The invariant of a timer wheel between two operations, and what setting and
    cancelling a timer do to it. *)

From S2P Require Import Prelude Ring PonStats Kernel TimerWheel TimerBump TimerRing TimerInv TimerCounts TimerScan.
From stdpp Require Import functions base tactics numbers list gmap fin_maps.
From Stdlib Require Import ZArith Lia.

(** ** The timers that wait *)

Definition counted (T : tmap) : dmap :=
  filter (λ ad, ad.1 ≠ SENTINEL ∧ d_slot ad.2 ≠ ERTS_TW_SLOT_INACTIVE) (cores T).

(** Position, callback and argument of the timers that wait, by address. *)
Definition pending (T : tmap) : gmap positive (Z * Z * Z) := fst <$> counted T.

Lemma counted_Some T a d :
  counted T !! a = Some d ↔ cores T !! a = Some d ∧ a ≠ SENTINEL ∧ d_slot d ≠ ERTS_TW_SLOT_INACTIVE.
Proof. unfold counted. by rewrite map_lookup_filter_Some. Qed.

Lemma counted_insert T T' p d slot :
  p ≠ SENTINEL → slot_ok slot → cores T' = <[p := in_slot slot d]> (cores T) →
  counted T' = <[p := in_slot slot d]> (counted T).
Proof.
  intros Hp Hs Hc. unfold counted. rewrite Hc, map_filter_insert_True; [done|]. split; [done|].
  cbn. intros E. change (slot = ERTS_TW_SLOT_INACTIVE) in E. subst slot. by destruct Hs.
Qed.

Lemma counted_inactive T T' p d :
  cores T' = <[p := in_slot ERTS_TW_SLOT_INACTIVE d]> (cores T) → counted T' = delete p (counted T).
Proof.
  intros Hc. unfold counted. rewrite Hc, map_filter_insert_False.
  - by rewrite map_filter_delete.
  - by intros [_ H].
Qed.

Lemma few_counted T : few (cores T) → few (counted T).
Proof. unfold few, counted. pose proof (map_size_filter (λ ad, ad.1 ≠ SENTINEL ∧ d_slot ad.2 ≠ ERTS_TW_SLOT_INACTIVE) (cores T)). lia. Qed.

Lemma pending_insert T T' p d slot :
  counted T' = <[p := in_slot slot d]> (counted T) → pending T' = <[p := d.1]> (pending T).
Proof. unfold pending. intros ->. by rewrite fmap_insert. Qed.

Lemma pending_delete T T' p : counted T' = delete p (counted T) → pending T' = delete p (pending T).
Proof. unfold pending. intros ->. by rewrite fmap_delete. Qed.

(** ** Positions *)

(** Where the timer [d] waits agrees with its position, and the minima of the
    wheels are lower bounds: [lo] and [lp] are the positions up to which the soon
    and the later wheel have been worked off. *)
Definition placed_from (lo lp : Z) (x : ErtsTimerWheel) (d : tdata) : Prop :=
  (d_slot d = ERTS_TW_SLOT_AT_ONCE ∧ d_pos d ≤ lo ∨
   d_slot d = soon_slot (d_pos d) ∧ lo < d_pos d ∧ soon_min_tpos x ≤ d_pos d ∨
   d_slot d = later_slot (d_pos d) ∧ lp ≤ d_pos d ∧ later_min_tpos x ≤ d_pos d)%Z.

Definition placed (x : ErtsTimerWheel) (d : tdata) : Prop := placed_from (pos x) (later_pos x) x d.

(** The position at which the wheel has to look at the timer [d]: a timer of the
    later wheel has to be moved a slot size before its slot begins. *)
Definition trigger (x : ErtsTimerWheel) (d : tdata) : Z :=
  (if decide (d_slot d = ERTS_TW_SLOT_AT_ONCE) then pos x
   else if decide (later_ok (d_slot d)) then d_pos d / 8192 * 8192 - 8192
   else d_pos d)%Z.

(** The next timeout is no later than that. *)
Definition in_time (x : ErtsTimerWheel) (d : tdata) : Prop :=
  (next_timeout_pos x ≤ trigger x d)%Z ∧
  (d_slot d = ERTS_TW_SLOT_AT_ONCE → true_next_timeout_time x = true).

Record wheel_base (x : ErtsTimerWheel) (T : tmap) (L : Z → list positive) : Prop := {
  wb_rep : rep (w x) T 0 L [] [];
  wb_counts : counts x (counted T);
  wb_nto : nto x = Z.of_nat (size (counted T));
  wb_few : few (cores T);
  wb_placed a d : counted T !! a = Some d → placed x d;
  wb_aligned : (later_pos x / 8192 * 8192 = later_pos x)%Z;
  wb_later : (pos x + 8192 < later_pos x ≤ pos x + 16384)%Z;
  wb_yield : yield_slot x = ERTS_TW_SLOT_INACTIVE
}.

Record wheel_inv (x : ErtsTimerWheel) (T : tmap) : Prop := {
  wi_base : ∃ L, wheel_base x T L;
  wi_in_time a d : counted T !! a = Some d → in_time x d;
  wi_ahead : (pos x ≤ next_timeout_pos x)%Z;
  wi_time : next_timeout_time x = ERTS_CLKTCKS_TO_MONOTONIC (next_timeout_pos x)
}.

(** The invariant of the wheel between two operations. *)
Definition wheel_ok (σ : tws) : Prop := wheel_inv (tiw σ) (timers σ).

Lemma soon_slot_ok p : soon_ok (soon_slot p).
Proof.
  rewrite soon_slot_wslot. pose proof (wslot_range 0 p (or_introl eq_refl)). unfold soon_ok.
  change ERTS_TW_SOON_WHEEL_END_SLOT with 16384%Z. lia.
Qed.
Lemma later_slot_ok p : later_ok (later_slot p).
Proof.
  rewrite later_slot_wslot. pose proof (wslot_range 16384 (p / 8192) (or_intror eq_refl)). unfold later_ok.
  change ERTS_TW_SOON_WHEEL_END_SLOT with 16384%Z. change ERTS_TW_LATER_WHEEL_END_SLOT with 32768%Z. lia.
Qed.
Lemma soon_is_slot s : soon_ok s → slot_ok s.
Proof. intros ?%soon_range. unfold slot_ok. change ERTS_TW_SLOT_AT_ONCE with (-1)%Z. change ERTS_TW_LATER_WHEEL_END_SLOT with 32768%Z. lia. Qed.
Lemma later_is_slot s : later_ok s → slot_ok s.
Proof. intros ?%later_range. unfold slot_ok. change ERTS_TW_SLOT_AT_ONCE with (-1)%Z. change ERTS_TW_LATER_WHEEL_END_SLOT with 32768%Z. lia. Qed.

Lemma trigger_soon x d : soon_ok (d_slot d) → trigger x d = d_pos d.
Proof.
  intros H. unfold trigger. rewrite decide_False by by apply soon_not_at.
  rewrite decide_False; [done|]. by apply soon_not_later.
Qed.
Lemma trigger_later x d : later_ok (d_slot d) → trigger x d = (d_pos d / 8192 * 8192 - 8192)%Z.
Proof. intros H. unfold trigger. rewrite decide_False by by apply later_not_at. by rewrite decide_True. Qed.
Lemma trigger_at x d : d_slot d = ERTS_TW_SLOT_AT_ONCE → trigger x d = pos x.
Proof. intros H. unfold trigger. by rewrite decide_True. Qed.

(** The three places a timer waits in. *)
Lemma placed_from_inv lo lp x d : placed_from lo lp x d →
  d_slot d = ERTS_TW_SLOT_AT_ONCE ∧ (d_pos d ≤ lo)%Z ∨
  soon_ok (d_slot d) ∧ d_slot d = soon_slot (d_pos d) ∧ (lo < d_pos d ∧ soon_min_tpos x ≤ d_pos d)%Z ∨
  later_ok (d_slot d) ∧ d_slot d = later_slot (d_pos d) ∧ (lp ≤ d_pos d ∧ later_min_tpos x ≤ d_pos d)%Z.
Proof.
  intros [H|[(H1 & H2)|(H1 & H2)]]; [tauto| |].
  - right; left. rewrite H1. split; [apply soon_slot_ok|]. done.
  - right; right. rewrite H1. split; [apply later_slot_ok|]. done.
Qed.

Lemma placed_inv x d : placed x d →
  d_slot d = ERTS_TW_SLOT_AT_ONCE ∧ (d_pos d ≤ pos x)%Z ∨
  soon_ok (d_slot d) ∧ d_slot d = soon_slot (d_pos d) ∧ (pos x < d_pos d ∧ soon_min_tpos x ≤ d_pos d)%Z ∨
  later_ok (d_slot d) ∧ d_slot d = later_slot (d_pos d) ∧ (later_pos x ≤ d_pos d ∧ later_min_tpos x ≤ d_pos d)%Z.
Proof. apply placed_from_inv. Qed.

(** ** Bookkeeping *)

(** What an insertion leaves alone. *)
Definition same_clock (x x' : ErtsTimerWheel) : Prop :=
  pos x' = pos x ∧ later_pos x' = later_pos x ∧ yield_slot x' = yield_slot x ∧ nto x' = nto x ∧
  next_timeout_pos x' = next_timeout_pos x ∧ next_timeout_time x' = next_timeout_time x.

Lemma inserted_clock slot tpos x : same_clock x (inserted slot tpos x).
Proof. unfold inserted, same_clock. cbv zeta. repeat case_decide; done. Qed.

Lemma inserted_true slot tpos x : true_next_timeout_time (inserted slot tpos x) = true_next_timeout_time x.
Proof. unfold inserted. cbv zeta. repeat case_decide; done. Qed.

Lemma inserted_min slot tpos x :
  (soon_min_tpos (inserted slot tpos x) ≤ soon_min_tpos x)%Z ∧
  (later_min_tpos (inserted slot tpos x) ≤ later_min_tpos x)%Z.
Proof. unfold inserted. cbv zeta. repeat case_decide; cbn in *; lia. Qed.

Lemma inserted_soon_min slot tpos x : soon_ok slot → (soon_min_tpos (inserted slot tpos x) ≤ tpos)%Z.
Proof.
  intros Hs. pose proof (soon_not_at _ Hs). unfold inserted. rewrite decide_False by done. cbv zeta.
  rewrite decide_True by apply Hs. case_decide; cbn in *; lia.
Qed.

Lemma inserted_later_min slot tpos x : later_ok slot → (later_min_tpos (inserted slot tpos x) ≤ tpos)%Z.
Proof.
  intros Hs. pose proof (later_not_at _ Hs). unfold inserted. rewrite decide_False by done. cbv zeta.
  rewrite decide_False by (apply later_range in Hs; change ERTS_TW_SOON_WHEEL_END_SLOT with 16384%Z; lia).
  case_decide; cbn in *; lia.
Qed.

Lemma removed_clock slot tpos e x : same_clock x (removed slot tpos e x).
Proof.
  unfold removed, same_clock, soon_gone, later_gone. cbv zeta.
  destruct (e && _); repeat (case_match; [|]); done.
Qed.

(** The minima after a removal: unchanged, unless the wheel became empty. *)
Lemma removed_soon_min slot tpos e x :
  soon_min_tpos (removed slot tpos e x) = soon_min_tpos x ∨ soon_nto (removed slot tpos e x) = 0%Z.
Proof.
  unfold removed, soon_gone, later_gone. cbv zeta. destruct (decide (slot = _)); [by left|].
  destruct (decide (slot < _)%Z), (e && _); cbn; case_decide; cbn; auto.
Qed.

Lemma removed_later_min slot tpos e x :
  later_min_tpos (removed slot tpos e x) = later_min_tpos x ∨ later_nto (removed slot tpos e x) = 0%Z.
Proof.
  unfold removed, soon_gone, later_gone. cbv zeta. destruct (decide (slot = _)); [by left|].
  destruct (decide (slot < _)%Z), (e && _); cbn; case_decide; cbn; auto.
Qed.

(** The next timeout stays exact, unless the slot of exactly that timeout is empty. *)
Lemma removed_true slot tpos e x :
  true_next_timeout_time (removed slot tpos e x) = true_next_timeout_time x ∨
  e = true ∧ slot ≠ ERTS_TW_SLOT_AT_ONCE ∧ removed_exact slot tpos x = true.
Proof.
  unfold removed. destruct (decide (slot = _)); [by left|]. cbv zeta.
  replace (removed_exact slot tpos (x <| scnt ::= scnt_add (-1) (scnt_get_ix slot) |>))
    with (removed_exact slot tpos x) by done.
  destruct e; cbn [andb].
  - destruct (removed_exact slot tpos x); [by right|left].
    unfold soon_gone, later_gone. cbv zeta. by repeat case_decide.
  - left. unfold soon_gone, later_gone. cbv zeta. by repeat case_decide.
Qed.

Lemma placed_from_mono lo lp x x' d :
  (soon_min_tpos x' ≤ soon_min_tpos x)%Z → (later_min_tpos x' ≤ later_min_tpos x)%Z →
  placed_from lo lp x d → placed_from lo lp x' d.
Proof.
  unfold placed_from. intros H1 H2 [H|[(?&?&?)|(?&?&?)]]; [by left|right;left|right;right];
    split_and!; done || lia.
Qed.

Lemma placed_mono x x' d :
  pos x' = pos x → later_pos x' = later_pos x → (soon_min_tpos x' ≤ soon_min_tpos x)%Z →
  (later_min_tpos x' ≤ later_min_tpos x)%Z → placed x d → placed x' d.
Proof. unfold placed. intros -> ->. apply placed_from_mono. Qed.

(** The timers that stay keep their place: a minimum is given up only with the
    last timer of its wheel. *)
Lemma placed_removed lo lp x C slot tpos e a d :
  let x' := removed slot tpos e x in
  counts x' C → C !! a = Some d → placed_from lo lp x d → placed_from lo lp x' d.
Proof.
  intros x' [_ N2 N3 _] Ha [(H1 & H2)|[(H1 & H2 & H3 & H4)|(H1 & H2 & H3 & H4)]]%placed_from_inv.
  - by left.
  - right; left. split; [done|]. split; [done|].
    destruct (removed_soon_min slot tpos e x) as [E|Hz]; [fold x' in E; by rewrite E|fold x' in Hz].
    rewrite Hz in N2. symmetry in N2. by destruct (cnt_zero _ _ _ _ N2 Ha).
  - right; right. split; [done|]. split; [done|].
    destruct (removed_later_min slot tpos e x) as [E|Hz]; [fold x' in E; by rewrite E|fold x' in Hz].
    rewrite Hz in N3. symmetry in N3. by destruct (cnt_zero _ _ _ _ N3 Ha).
Qed.

Lemma in_time_clock x x' d :
  same_clock x x' → (d_slot d = ERTS_TW_SLOT_AT_ONCE → true_next_timeout_time x = true → true_next_timeout_time x' = true) →
  in_time x d → in_time x' d.
Proof.
  intros (H1 & _ & _ & _ & H2 & _) Ht [Hn Ha]. split; [|eauto].
  unfold trigger in *. by rewrite H1, H2.
Qed.

(** ** Setting a timer *)

(** The data of an inactive timer may change. *)
Lemma base_detached x T T2 L p d0 d :
  rep (w x) T 0 L [] [] → cores T !! p = Some d0 → d_slot d0 = ERTS_TW_SLOT_INACTIVE → p ≠ SENTINEL →
  (∀ b, nx T2 b = nx T b) → (∀ b, pv T2 b = pv T b) → cores T2 = <[p := d]> (cores T) →
  d_slot d = ERTS_TW_SLOT_INACTIVE →
  rep (w x) T2 0 L [] [p] ∧ counted T2 = counted T ∧ (few (cores T) → few (cores T2)).
Proof.
  intros [R1 R2 R3 R4 R5 R6 R7 R8 R9] Hp Hi Hps Hn Hv Hc Hd.
  assert (∀ s, p ∉ L s) as HpL.
  { intros s Hin. destruct (R6 _ _ Hin) as ([Hs _] & _ & E). rewrite Hp in E. injection E as E.
    rewrite Hi in E. subst s. by destruct Hs. }
  assert (∀ a, a ≠ p → cores T2 !! a = cores T !! a) as Hne by (intros a Ha; by rewrite Hc, lookup_insert_ne).
  assert (∀ l, ring T l → ring T2 l) as Hfr by (intros l; apply rring_frame; done).
  split_and!; [split|..].
  - done.
  - intros s. apply Hfr, R2.
  - by apply Hfr.
  - done.
  - done.
  - intros s a Ha. rewrite Hne by (intros ->; by eapply HpL). by apply R6.
  - by intros a ?%elem_of_nil.
  - intros a ->%list_elem_of_singleton. split_and!; [done| |by intros ?%elem_of_nil|done].
    apply (cores_live _ _ d). by rewrite Hc, lookup_insert_eq.
  - intros a d' Ha. destruct (decide (a = p)) as [->|Hap]; [intros _ _; right; right; by left|].
    rewrite Hne by done. intros Hd' Hx. destruct (R9 a d' Ha Hd' Hx) as [H|[H%elem_of_nil|H%elem_of_nil]]; [tauto|done|done].
  - rewrite (counted_inactive T T2 p d), delete_id; [done| |].
    + apply eq_None_not_Some. intros [d' (E & _ & Hx)%counted_Some]. rewrite Hp in E. by simplify_eq.
    + rewrite Hc. f_equal. destruct d as [? s]. cbn in *. subst s. done.
  - unfold few. rewrite Hc, map_size_insert, Hp. cbn. done.
Qed.

Lemma base_push x T T' W' L L' p d slot :
  rep (w x) T 0 L [] [p] → counts x (counted T) → nto x = (Z.of_nat (size (counted T)) + 1)%Z →
  few (cores T) → (∀ a d', counted T !! a = Some d' → placed x d') →
  (later_pos x / 8192 * 8192 = later_pos x)%Z → (pos x + 8192 < later_pos x ≤ pos x + 16384)%Z →
  yield_slot x = ERTS_TW_SLOT_INACTIVE →
  cores T !! p = Some d → d_slot d = ERTS_TW_SLOT_INACTIVE → slot_ok slot →
  placed (inserted slot (d_pos d) x) (in_slot slot d) →
  rep W' T' 0 L' [] [] → cores T' = <[p := in_slot slot d]> (cores T) →
  wheel_base ((inserted slot (d_pos d) x) <| w := W' |>) T' L'.
Proof.
  intros R Hn Hnto Hf Hpl Hal Hlp Hy Hp Hi Hs Hnew R' Hc.
  destruct (rep_F _ _ _ _ _ _ R p ltac:(left)) as (Hps & _).
  pose proof (counted_insert T T' p d slot Hps Hs Hc) as Hcc.
  assert (counted T !! p = None) as HpC.
  { apply eq_None_not_Some. intros [d' (E & _ & Hx)%counted_Some]. rewrite Hp in E. by simplify_eq. }
  assert (few (cores T')) as Hf'.
  { unfold few in *. rewrite Hc, map_size_insert, Hp. done. }
  destruct (inserted_clock slot (d_pos d) x) as (C1 & C2 & C3 & C4 & C5 & C6).
  destruct (inserted_min slot (d_pos d) x) as [M1 M2].
  split; cbn.
  - done.
  - rewrite Hcc. pose proof (few_counted _ Hf') as HfC. rewrite Hcc in HfC.
    destruct (counts_insert x (counted T) p d slot (d_pos d) Hn HpC Hs (few_counted _ Hf) HfC). by split.
  - rewrite C4, Hnto, Hcc, map_size_insert_None by done. lia.
  - done.
  - intros a d'. rewrite Hcc. destruct (decide (a = p)) as [->|Ha].
    + rewrite lookup_insert_eq. intros [= <-]. done.
    + rewrite lookup_insert_ne by done. intros Hd'.
      apply (placed_mono x); [done|done|done|done|by eapply Hpl].
  - by rewrite C2.
  - by rewrite C1, C2.
  - by rewrite C3.
Qed.

(** ** The timerfd *)

Section ops.
Context `{K : Kernel}.

(** Arming changes the kernel, the counters and the two fields of the canary. *)
Lemma arm_run x T n k st g (Q : unit → tws → Prop) :
  (∀ fd dl k' st', Q tt (mkTws (x <| pon_fd := fd |> <| pon_armed_deadline := dl |>) T n k' st' g)) →
  wp pon_timer_wheel_arm Q (mkTws x T n k st g).
Proof.
  intros HQ. unfold pon_timer_wheel_arm. wp_step.
  eapply (wp_mono _ (λ _ σ', ∃ fd dl k' st', σ' = mkTws (x <| pon_fd := fd |> <| pon_armed_deadline := dl |>) T n k' st' g)).
  - unfold pon_wheel_fd, tw_fails, upd_tw_kernel, inc_tw_stat. tw_step. tw_step.
    destruct (decide (pon_fd x = -1)%Z).
    + wp_steps. destruct (sys_fails _ _); wp_steps; repeat tw_step; wp_steps.
      * exists (-1)%Z, (-1)%Z, k, st. done.
      * eexists (new_fd (fds k)), (pon_armed_deadline x), _, _. by destruct x.
    + wp_steps. exists (pon_fd x), (pon_armed_deadline x), k, st. by destruct x.
  - intros ok ? (fd & dl & k' & st' & ->). set (y := x <| pon_fd := fd |> <| pon_armed_deadline := dl |>).
    assert (∀ dl' k' st', Q tt (mkTws (y <| pon_armed_deadline := dl' |>) T n k' st' g)) as HQ1 by (intros; apply HQ).
    assert (∀ k' st', Q tt (mkTws y T n k' st' g)) as HQ2 by (intros; apply HQ). clearbody y.
    destruct ok; cbn [negb]; [|wp_step; apply HQ2].
    tw_step. tw_step. destruct (decide _); [wp_step; apply HQ2|]. wp_steps. cbv zeta. destruct (decide _).
    + wp_step. unfold inc_tw_stat, tw_fails, upd_tw_kernel. destruct (decide _); wp_steps; [|apply HQ2].
      destruct (sys_fails _ _); wp_steps; [apply HQ2|]. tw_step. wp_steps. apply HQ1.
    + wp_step. unfold inc_tw_stat, tw_fails, upd_tw_kernel. wp_steps.
      destruct (sys_fails _ _); wp_steps; [apply HQ2|]. tw_step. wp_steps. apply HQ1.
Qed.

End ops.

(** What setting a timer does to the next timeout. *)
Definition next_set (tpos : Z) (x : ErtsTimerWheel) : ErtsTimerWheel :=
  if decide (tpos ≤ next_timeout_pos x)%Z then
    let x := x <| true_next_timeout_time := true |> in
    if decide (tpos < next_timeout_pos x)%Z
    then x <| next_timeout_pos := tpos |> <| next_timeout_time := ERTS_CLKTCKS_TO_MONOTONIC tpos |> else x
  else x.

Lemma next_set_base tpos x T L : wheel_base x T L → wheel_base (next_set tpos x) T L.
Proof.
  intros [H1 [N1 N2 N3 N4] H3 H4 H5 H6 H7 H8]. unfold next_set. cbv zeta.
  destruct (decide _); [destruct (decide _)|]; by split.
Qed.

Lemma next_set_pos tpos x : pos (next_set tpos x) = pos x.
Proof. unfold next_set. cbv zeta. by repeat case_decide. Qed.

Lemma next_set_ahead tpos x : (pos x ≤ next_timeout_pos x)%Z → (pos x ≤ tpos)%Z →
  (pos (next_set tpos x) ≤ next_timeout_pos (next_set tpos x))%Z.
Proof. rewrite next_set_pos. unfold next_set. cbv zeta. intros. repeat case_decide; done. Qed.

Lemma next_set_in_time tpos x d : in_time x d → in_time (next_set tpos x) d.
Proof.
  intros [H1 H2]. unfold in_time. assert (trigger (next_set tpos x) d = trigger x d) as ->.
  { unfold trigger. by rewrite next_set_pos. }
  unfold next_set. cbv zeta. destruct (decide _); [destruct (decide _)|]; cbn in *; split; auto; lia.
Qed.

Lemma next_set_new x d : (pos x ≤ next_timeout_pos x)%Z → in_time (next_set (trigger x d) x) d.
Proof.
  intros Ha. unfold in_time. assert (∀ t, trigger (next_set t x) d = trigger x d) as ->.
  { intros t. unfold trigger. by rewrite next_set_pos. }
  unfold next_set. cbv zeta. destruct (decide (trigger x d ≤ next_timeout_pos x)%Z) as [H|H].
  - destruct (decide _); cbn in *; split; auto; lia.
  - split; [lia|]. intros Hd. rewrite trigger_at in H by done. lia.
Qed.

Lemma next_set_time tpos x :
  next_timeout_time x = ERTS_CLKTCKS_TO_MONOTONIC (next_timeout_pos x) →
  next_timeout_time (next_set tpos x) = ERTS_CLKTCKS_TO_MONOTONIC (next_timeout_pos (next_set tpos x)).
Proof. intros H. unfold next_set. cbv zeta. repeat case_decide; done. Qed.
