(* ===== verification/TimerSet.v ===== *)
(** Setting, cancelling and creating: the operations of the timer wheel change the
    timers that wait as operations on a finite map do. *)

From S2P Require Import Prelude PonStats Kernel TimerWheel TimerBump TimerRing TimerInv TimerCounts TimerScan TimerOps.
From stdpp Require Import functions base tactics numbers list gmap fin_maps.
From Stdlib Require Import ZArith Lia.

(** ** The structure of a timer *)

Lemma cores_alter_data T f p d F : cores T !! p = Some d → (∀ t, data_of (f t) = F (data_of t)) →
  cores (alter f p T) = <[p := F d]> (cores T).
Proof.
  unfold cores. rewrite lookup_fmap. intros (t & Ha & ->)%fmap_Some Hf. apply map_eq. intros b.
  destruct (decide (b = p)) as [->|].
  - by rewrite lookup_fmap, lookup_alter_eq, Ha, lookup_insert_eq, <- Hf.
  - by rewrite lookup_fmap, lookup_alter_ne, lookup_insert_ne, lookup_fmap.
Qed.

(** The structure after its fields were written. *)
Lemma written T p d0 timeout arg tp : cores T !! p = Some d0 → d_slot d0 = ERTS_TW_SLOT_INACTIVE →
  let T2 := alter (λ t, t <| timeout_pos := tp |>) p
              (alter (λ t, t <| t_arg := arg |>) p (alter (λ t, t <| t_timeout := timeout |>) p T)) in
  cores T2 = <[p := (tp, timeout, arg, ERTS_TW_SLOT_INACTIVE)]> (cores T) ∧
  (∀ b, nx T2 b = nx T b) ∧ (∀ b, pv T2 b = pv T b) ∧ dom T2 = dom T.
Proof.
  intros Hp Hi T2. split_and!.
  - unfold T2. destruct d0 as [[[tp0 to0] ar0] sl0]. cbn in Hi. subst sl0.
    pose proof (cores_alter_data T (λ t, t <| t_timeout := timeout |>) p _ (λ d, (d.1.1.1, timeout, d.1.2, d.2)) Hp (λ t, eq_refl)) as E1.
    set (T0 := alter (λ t, t <| t_timeout := timeout |>) p T) in *. cbn in E1.
    pose proof (cores_alter_data T0 (λ t, t <| t_arg := arg |>) p (tp0, timeout, ar0, ERTS_TW_SLOT_INACTIVE) (λ d, (d.1.1.1, d.1.1.2, arg, d.2))
      ltac:(by rewrite E1, lookup_insert_eq) (λ t, eq_refl)) as E2.
    set (T1 := alter (λ t, t <| t_arg := arg |>) p T0) in *. cbn in E2.
    rewrite (cores_alter_data T1 (λ t, t <| timeout_pos := tp |>) p (tp0, timeout, arg, ERTS_TW_SLOT_INACTIVE) (λ d, (tp, d.1.1.2, d.1.2, d.2)));
      [|by rewrite E2, lookup_insert_eq|done].
    cbn. by rewrite E2, insert_insert_eq, E1, insert_insert_eq.
  - intros b. unfold T2. by rewrite !nx_alter_data.
  - intros b. unfold T2. by rewrite !pv_alter_data.
  - unfold T2. by rewrite !dom_alter_L.
Qed.

(** ** Setting a timer *)

(** The wheel while the timer [d] is being set: only the number of timers and the
    lower bound of the soon wheel have changed. *)
Record setting (x x1 : ErtsTimerWheel) (C : dmap) (slot tpos' : Z) (d : tdata) : Prop := {
  se_w : w x1 = w x;
  se_counts : counts x1 C;
  se_nto : nto x1 = (Z.of_nat (size C) + 1)%Z;
  se_clock : pos x1 = pos x ∧ later_pos x1 = later_pos x ∧ yield_slot x1 = yield_slot x ∧
    next_timeout_pos x1 = next_timeout_pos x ∧ next_timeout_time x1 = next_timeout_time x ∧
    true_next_timeout_time x1 = true_next_timeout_time x ∧ later_min_tpos x1 = later_min_tpos x;
  se_min : (soon_min_tpos x1 ≤ soon_min_tpos x)%Z;
  se_slot : slot_ok slot;
  se_placed : placed (inserted slot (d_pos d) x1) (in_slot slot d);
  se_trigger : tpos' = trigger x1 (in_slot slot d);
  se_ahead : (pos x ≤ tpos')%Z
}.

Lemma dom_cores T T' : dom (cores T') = dom (cores T) → dom T' = dom T.
Proof. unfold cores. by rewrite !dom_fmap_L. Qed.

Lemma set_finish x x1 T T2 n k st g p d0 d slot tpos' (Q : unit → tws → Prop) :
  wheel_inv x T → cores T !! p = Some d0 → d_slot d0 = ERTS_TW_SLOT_INACTIVE → p ≠ SENTINEL →
  cores T2 = <[p := d]> (cores T) → (∀ b, nx T2 b = nx T b) → (∀ b, pv T2 b = pv T b) →
  d_slot d = ERTS_TW_SLOT_INACTIVE → setting x x1 (counted T) slot tpos' d →
  (∀ x' T', wheel_inv (next_set tpos' x') T' → pos x' = pos x → pending T' = <[p := d.1]> (pending T) →
    dom T' = dom T → Q tt (mkTws x' T' n k st g)) →
  wp (insert_timer_into_slot slot p) Q (mkTws x1 T2 n k st g).
Proof.
  intros [[L [B1 B2 B3 B4 B5 B6 B7 B8]] Hin Hahead Htime] Hp Hi Hps Hc Hn Hv Hd
    [S1 S2 S3 (S4&S5&S6&S7&S8&S9&S10) S11 S12 S13 S14 S15] HQ.
  destruct (base_detached x T T2 L p d0 d B1 Hp Hi Hps Hn Hv Hc Hd) as (R & Hcc & Hf). rewrite <- S1 in R.
  assert (cores T2 !! p = Some d) as Hp2 by by rewrite Hc, lookup_insert_eq.
  eapply insert_run; [done|done|done|]. intros W' T' R' Hc'.
  destruct (inserted_clock slot (d_pos d) x1) as (C1 & C2 & C3 & C4 & C5 & C6).
  pose proof (inserted_true slot (d_pos d) x1) as C7.
  set (x2 := (inserted slot (d_pos d) x1) <| w := W' |>).
  assert (wheel_base x2 T' (<[slot := L slot ++ [p]]> L)) as B'.
  { apply (base_push x1 T2 T' W' L _ p d slot); try done.
    - by rewrite Hcc.
    - by rewrite Hcc.
    - by apply Hf.
    - rewrite Hcc. intros a d' Ha. apply (placed_mono x); [done..|lia|by eapply B5].
    - by rewrite S5.
    - by rewrite S4, S5.
    - by rewrite S6. }
  assert (counted T' = <[p := in_slot slot d]> (counted T)) as HC.
  { rewrite (counted_insert T2 T' p d slot), Hcc; done. }
  assert (same_clock x (x2 <| nto := nto x |>)) as Hclk.
  { unfold same_clock, x2. cbn. rewrite C1, C2, C3, C5, C6. done. }
  apply HQ.
  - split.
    + eexists. by apply next_set_base.
    + intros a d'. rewrite HC. destruct (decide (a = p)) as [->|Ha].
      * rewrite lookup_insert_eq. intros [= <-].
        replace tpos' with (trigger x2 (in_slot slot d)); [apply next_set_new|].
        -- unfold x2. cbn. rewrite C1, C5, S4, S7. done.
        -- rewrite S14. unfold trigger, x2. cbn. by rewrite C1.
      * rewrite lookup_insert_ne by done. intros Ha'. apply next_set_in_time.
        change (in_time (x2 <| nto := nto x |>) d').
        apply (in_time_clock x); [done|unfold x2; cbn; by rewrite C7, S9|by eapply Hin].
    + apply next_set_ahead; unfold x2; cbn; rewrite C1, ?C5, S4, ?S7; done.
    + apply next_set_time. unfold x2. cbn. by rewrite C5, C6, S7, S8.
  - unfold x2. cbn. by rewrite C1.
  - by eapply (pending_insert T T' p d slot).
  - apply dom_cores. rewrite Hc', Hc, insert_insert_eq, dom_insert_lookup_L; [done|]. by rewrite Hp.
Qed.

(** The three places. *)
Lemma setting_start x T L :
  wheel_base x T L → few (cores T) →
  let x1 := x <| nto ::= λ v, u64 (v + 1) |> in
  w x1 = w x ∧ counts x1 (counted T) ∧ nto x1 = (Z.of_nat (size (counted T)) + 1)%Z.
Proof.
  intros [B1 [N1 N2 N3 N4] B3 B4 B5 B6 B7 B8] Hf x1. split_and!; [done|by split|]. unfold x1. cbn. rewrite B3.
  apply wrapu_small. apply few_counted in Hf. unfold few in Hf. change (2 ^ 64)%Z with (4 * 2 ^ 62)%Z. lia.
Qed.

Lemma slot_size_8192 : ERTS_TW_LATER_WHEEL_SLOT_SIZE = 8192%Z.
Proof. done. Qed.

Lemma setting_at x T L d : wheel_base x T L → d_pos d = pos x →
  setting x (x <| nto ::= λ v, u64 (v + 1) |>) (counted T) ERTS_TW_SLOT_AT_ONCE (pos x) d.
Proof.
  intros B Hd. destruct (setting_start x T L B (wb_few _ _ _ B)) as (S1 & S2 & S3). split; try done.
  - left. split; [done|]. change (d_pos (in_slot ERTS_TW_SLOT_AT_ONCE d)) with (d_pos d). rewrite Hd. done.
Qed.

Lemma setting_soon x T L d m : wheel_base x T L → (pos x < d_pos d)%Z → (m ≤ soon_min_tpos x)%Z →
  setting x (x <| nto ::= λ v, u64 (v + 1) |> <| soon_min_tpos := m |>) (counted T) (soon_slot (d_pos d)) (d_pos d) d.
Proof.
  intros B Hd Hm. destruct (setting_start x T L B (wb_few _ _ _ B)) as (S1 & [N1 N2 N3 N4] & S3).
  pose proof (soon_slot_ok (d_pos d)) as Hok. split; try done.
  - by apply soon_is_slot.
  - right; left. split; [done|]. destruct (inserted_clock (soon_slot (d_pos d)) (d_pos d)
      (x <| nto ::= λ v, u64 (v + 1) |> <| soon_min_tpos := m |>)) as (-> & _).
    split; [done|]. by apply inserted_soon_min.
  - by rewrite trigger_soon.
  - lia.
Qed.

Lemma setting_later x T L d : wheel_base x T L → (pos x + 16384 ≤ d_pos d)%Z →
  setting x (x <| nto ::= λ v, u64 (v + 1) |>) (counted T) (later_slot (d_pos d)) (d_pos d / 8192 * 8192 - 8192) d.
Proof.
  intros B Hd. destruct (setting_start x T L B (wb_few _ _ _ B)) as (S1 & S2 & S3).
  pose proof (later_slot_ok (d_pos d)) as Hok. pose proof (wb_later _ _ _ B). pose proof (wb_aligned _ _ _ B).
  split; try done.
  - by apply later_is_slot.
  - right; right. split; [done|]. destruct (inserted_clock (later_slot (d_pos d)) (d_pos d)
      (x <| nto ::= λ v, u64 (v + 1) |>)) as (_ & -> & _).
    split; [cbn; change (d_pos (in_slot _ d)) with (d_pos d); lia|]. by apply inserted_later_min.
  - by rewrite trigger_later.
  - pose proof (Z.div_mod (d_pos d) 8192). pose proof (Z.mod_pos_bound (d_pos d) 8192). lia.
Qed.

(** The position at which a timer set for [tpos] runs. *)
Definition set_pos (x : ErtsTimerWheel) (tpos : Z) : Z := Z.max tpos (pos x).

Section ops.
Context `{K : Kernel}.

Lemma next_set_run x T n k st g tpos (Q : unit → tws → Prop) :
  (∀ fd dl k' st', Q tt (mkTws ((next_set tpos x) <| pon_fd := fd |> <| pon_armed_deadline := dl |>) T n k' st' g)) →
  wp (if decide (tpos ≤ next_timeout_pos x)%Z then
        upd_tiw (λ x, x <| true_next_timeout_time := true |>);;
        if decide (tpos < next_timeout_pos x)%Z then
          upd_tiw (λ x, x <| next_timeout_pos := tpos |> <| next_timeout_time := ERTS_CLKTCKS_TO_MONOTONIC tpos |>);;
          pon_timer_wheel_arm
        else mret tt
      else mret tt) Q (mkTws x T n k st g).
Proof.
  intros HQ.
  assert (∀ y, (∀ fd dl k' st', Q tt (mkTws (y <| pon_fd := fd |> <| pon_armed_deadline := dl |>) T n k' st' g)) →
    Q tt (mkTws y T n k st g)) as Hy.
  { intros y H. specialize (H (pon_fd y) (pon_armed_deadline y) k st). by destruct y. }
  unfold next_set in HQ. cbv zeta in HQ. destruct (decide (tpos ≤ _)%Z); [|wp_step; by apply Hy].
  tw_step. tw_step. change (next_timeout_pos (x <| true_next_timeout_time := true |>)) with (next_timeout_pos x) in HQ.
  destruct (decide (tpos < _)%Z); [|wp_step; by apply Hy].
  tw_step. tw_step. apply arm_run. done.
Qed.

Lemma wheel_inv_canary x T fd dl : wheel_inv x T → wheel_inv (x <| pon_fd := fd |> <| pon_armed_deadline := dl |>) T.
Proof.
  intros [[L [H1 [N1 N2 N3 N4] H3 H4 H5 H6 H7 H8]] Hin Ha Ht]. split; [exists L|done..]. by split.
Qed.

Lemma set_timer_run σ p timeout arg tpos d0 :
  wheel_ok σ → cores (timers σ) !! p = Some d0 → d_slot d0 = ERTS_TW_SLOT_INACTIVE → p ≠ SENTINEL →
  wp (erts_twheel_set_timer p timeout arg tpos) (λ _ σ',
    wheel_ok σ' ∧ now σ' = now σ ∧ g_fired σ' = g_fired σ ∧ pos (tiw σ') = pos (tiw σ) ∧
    pending (timers σ') = <[p := (set_pos (tiw σ) tpos, timeout, arg)]> (pending (timers σ)) ∧
    dom (timers σ') = dom (timers σ)) σ.
Proof.
  destruct σ as [x T n k st g]. intros I Hp Hi Hps. simpl in *.
  destruct (wi_base _ _ I) as [L B]. pose proof (cores_live _ _ _ Hp) as Hlive.
  unfold erts_twheel_set_timer. do 2 (tw_step; tw_step; [by rewrite ?live_alter|]).
  tw_step. tw_step. tw_step. tw_step. tw_step.
  destruct (written T p d0 timeout arg (set_pos x tpos) Hp Hi) as (Hc & Hn & Hv & Hdom).
  set (d := (set_pos x tpos, timeout, arg, ERTS_TW_SLOT_INACTIVE)) in *. set (T2 := alter _ p (alter _ p _)) in *.
  eapply (wp_mono _ (λ r σ', ∃ x1, setting x x1 (counted T) r.1 r.2 d ∧ σ' = mkTws x1 T2 n k st g)).
  - change (pos (x <| nto ::= λ v, u64 (v + 1) |>)) with (pos x). change ERTS_TW_SOON_WHEEL_SIZE with 16384%Z.
    destruct (decide (tpos ≤ pos x)%Z).
    + assert (set_pos x tpos = pos x) as E by (unfold set_pos; lia).
      tw_step. tw_step; [by rewrite !live_alter|]. wp_step. eexists. split; [by apply (setting_at x T L d)|].
      unfold T2. by rewrite E.
    + assert (set_pos x tpos = tpos) as E by (unfold set_pos; lia).
      assert (d_pos d = tpos) as Ed by done. destruct (decide (tpos < pos x + 16384)%Z).
      * tw_step. tw_step; [by rewrite !live_alter|]. tw_step. tw_step. wp_step.
        pose (m := if decide (soon_min_tpos x > tpos)%Z then tpos else soon_min_tpos x).
        exists (x <| nto ::= λ v, u64 (v + 1) |> <| soon_min_tpos := m |>). split.
        -- cbn. rewrite <- Ed. apply (setting_soon x T L d m B); [lia|]. unfold m. case_decide; lia.
        -- unfold m, T2. rewrite E. cbn. by destruct (decide _).
      * tw_step. tw_step; [by rewrite !live_alter|]. wp_step. eexists. split; [|unfold T2; by rewrite E].
        rewrite <- Ed. cbn [fst snd]. rewrite pos_mask. apply (setting_later x T L d B). lia.
  - intros [slot tpos'] ? (x1 & Hset & ->). cbn [fst snd] in Hset. tw_step.
    eapply set_finish; [done|done|done|done|done|done|done|done|done|].
    intros x' T' Hinv Hpos Hpend HdT. tw_step. tw_step. apply next_set_run. intros fd dl k' st'. split_and!.
    + by apply wheel_inv_canary.
    + done.
    + done.
    + cbn. by rewrite next_set_pos.
    + done.
    + done.
Qed.

End ops.

(** ** Cancelling a timer *)

Lemma trigger_pos_ext x x' d : pos x' = pos x → trigger x' d = trigger x d.
Proof. unfold trigger. by intros ->. Qed.

(** A timer that waits in a slot leaves it. *)
Lemma base_removed x T L p d l1 l2 T' m e :
  wheel_base x T L → counted T !! p = Some d → L (d_slot d) = l1 ++ p :: l2 → m = l2 ++ l1 →
  (∀ b, nx T' b = if decide (last m = Some b) then head m else nx T b) →
  (∀ b, pv T' b = if decide (head m = Some b) then last m else pv T b) → cores T' = cores T →
  let T2 := alter (λ t, t <| t_slot := ERTS_TW_SLOT_INACTIVE |>) p T' in
  let x2 := (removed (d_slot d) (d_pos d) e (x <| w ::= unlinked_w (d_slot d) p m |>)) <| nto ::= λ v, u64 (v - 1) |> in
  wheel_base x2 T2 (<[d_slot d := l1 ++ l2]> L) ∧ counted T2 = delete p (counted T) ∧ dom (cores T2) = dom (cores T).
Proof.
  intros [B1 B2 B3 B4 B5 B6 B7 B8] Hp HL Hm Hn Hv Hc T2 x2. pose proof Hp as (Hpc & Hps & Hi)%counted_Some.
  pose proof (rep_del _ T T' 0 L [] p (d_slot d) l1 l2 m B1 HL Hm Hn Hv Hc) as R.
  assert (slot_ok (d_slot d)) as Hs. { apply (rep_slot _ _ _ _ _ _ B1 (d_slot d) p). rewrite HL. set_solver. }
  rewrite <- Hc in Hpc. pose proof (rep_inactive _ _ _ _ _ _ _ R Hpc) as R2. fold T2 in R2.
  pose proof (cores_alter_slot _ _ _ ERTS_TW_SLOT_INACTIVE Hpc) as Hc2. fold T2 in Hc2. rewrite Hc in Hc2.
  pose proof (counted_inactive T T2 p d Hc2) as HC.
  destruct (removed_clock (d_slot d) (d_pos d) e (x <| w ::= unlinked_w (d_slot d) p m |>)) as (C1 & C2 & C3 & C4 & C5 & C6).
  assert (counts (x <| w ::= unlinked_w (d_slot d) p m |>) (counted T)) as Hn1 by (destruct B2; by split).
  pose proof (counts_remove _ (counted T) p d (d_slot d) (d_pos d) e Hn1 Hp eq_refl Hs (few_counted _ B4)) as Hn2.
  assert (w (removed (d_slot d) (d_pos d) e (x <| w ::= unlinked_w (d_slot d) p m |>)) = unlinked_w (d_slot d) p m (w x)) as Hw.
  { unfold removed, soon_gone, later_gone. cbv zeta. destruct (decide _); [done|].
    destruct (decide (d_slot d < _)%Z), (e && _); cbn; by case_decide. }
  set (y := removed _ _ _ _) in *. assert (few (cores T2)) as Hf.
  { unfold few in *. rewrite Hc2, map_size_insert. rewrite <- Hc, Hpc. cbn. by rewrite Hc. }
  split_and!; [split|done|].
  - unfold x2. cbn. by rewrite Hw.
  - unfold x2. rewrite HC. destruct Hn2. by split.
  - unfold x2. cbn. rewrite C4, HC, map_size_delete, Hp. cbn. rewrite B3.
    assert (size (counted T) ≠ 0) as Hnz. { intros E%map_size_empty_inv. by rewrite E, lookup_empty in Hp. }
    replace (Z.of_nat (size (counted T)) - 1)%Z with (Z.of_nat (pred (size (counted T)))) by lia.
    apply u64_cnt. apply few_counted in B4. unfold few in B4. lia.
  - done.
  - rewrite HC. intros a d'. rewrite lookup_delete_Some. intros [Ha Ha'].
    change (placed_from (pos y) (later_pos y) y d'). rewrite C1, C2.
    apply (placed_removed _ _ _ (delete p (counted T)) _ _ _ a); [done|by rewrite lookup_delete_ne|by eapply B5].
  - unfold x2. cbn. by rewrite C2.
  - unfold x2. cbn. by rewrite C1, C2.
  - unfold x2. cbn. by rewrite C3.
  - rewrite Hc2, dom_insert_lookup_L; [done|]. rewrite <- Hc, Hpc. eauto.
Qed.

(** The flag that the next timeout is exact survives a removal while timers wait
    at once, unless the stale minimum of the later wheel coincides with the
    current position. *)
Definition stale_minimum (x : ErtsTimerWheel) : Prop :=
  at_once_nto x ≠ 0%Z ∧ (later_min_tpos x / 8192 * 8192 - 8192 = pos x)%Z.

Lemma removed_keeps_flag x T p d x1 e a d' :
  wheel_inv x T → counted T !! p = Some d → counted T !! a = Some d' → d_slot d' = ERTS_TW_SLOT_AT_ONCE →
  ¬ stale_minimum x →
  same_clock x x1 → true_next_timeout_time x1 = true_next_timeout_time x → later_min_tpos x1 = later_min_tpos x →
  true_next_timeout_time (removed (d_slot d) (d_pos d) e x1) = true.
Proof.
  intros [[L [B1 B2 B3 B4 B5 B6 B7 B8]] Hin Ha Ht] Hp Hd' Hat Hst (C1 & C2 & C3 & C4 & C5 & C6) Hf Hlm.
  destruct (Hin _ _ Hd') as [Hn Hflag]. specialize (Hflag Hat). rewrite trigger_at in Hn by done.
  destruct (removed_true (d_slot d) (d_pos d) e x1) as [->|(-> & Hs & Hex)]; [by rewrite Hf|].
  exfalso. unfold removed_exact in Hex. apply andb_true_iff in Hex as [_ Hex].
  destruct (placed_inv _ _ (B5 _ _ Hp)) as [(H1 & H2)|[(H1 & H2 & H3 & H4)|(H1 & H2 & H3 & H4)]]; [done| |].
  - rewrite decide_True in Hex by apply H1. apply bool_decide_eq_true in Hex. rewrite C5 in Hex. lia.
  - rewrite decide_False in Hex by (apply later_range in H1; change ERTS_TW_SOON_WHEEL_END_SLOT with 16384%Z; lia).
    apply andb_true_iff in Hex as [_ Hex%bool_decide_eq_true]. rewrite pos_mask, C5, Hlm in Hex.
    change ERTS_TW_LATER_WHEEL_SLOT_SIZE with 8192%Z in Hex. apply Hst. split; [|lia].
    destruct B2 as [-> _ _ _]. intros Hz. by eapply (cnt_zero _ _ _ _ Hz Hd').
Qed.

Lemma cancel_timer_run σ p :
  wheel_ok σ → is_Some (timers σ !! p) → p ≠ SENTINEL → ¬ stale_minimum (tiw σ) →
  wp (erts_twheel_cancel_timer p) (λ _ σ',
    wheel_ok σ' ∧ now σ' = now σ ∧ g_fired σ' = g_fired σ ∧ pos (tiw σ') = pos (tiw σ) ∧
    pending (timers σ') = delete p (pending (timers σ)) ∧ dom (timers σ') = dom (timers σ)) σ.
Proof.
  destruct σ as [x T n k st g]. intros I [t Ht] Hps Hst. simpl in *. pose proof I as [[L B] Hin Ha Htm].
  unfold erts_twheel_cancel_timer. tw_step. tw_step.
  assert (cores T !! p = Some (data_of t)) as Hpc by (unfold cores; by rewrite lookup_fmap, Ht).
  destruct (decide (t_slot t ≠ ERTS_TW_SLOT_INACTIVE)) as [Hi|Hi].
  - assert (counted T !! p = Some (data_of t)) as HpC by by apply counted_Some.
    set (d := data_of t) in *. change (t_slot t) with (d_slot d). tw_step.
    unfold remove_timer. tw_step. tw_step. tw_step. change (t_slot t) with (d_slot d). change (timeout_pos t) with (d_pos d).
    pose proof (wb_rep _ _ _ B) as R.
    destruct (rep_all _ _ _ _ _ _ R p d Hps Hpc Hi) as [HpL|[H%elem_of_nil|H%elem_of_nil]]; [|done|done].
    destruct (rep_slot _ _ _ _ _ _ R _ _ HpL) as (Hs & _).
    apply list_elem_of_split in HpL as (l1 & l2 & HL).
    eapply (unlink_run _ _ _ _ _ _ _ _ l1 l2); [rewrite <- HL; by eapply rep_ring|rewrite <- HL; by eapply rep_nodup| |done|reflexivity|].
    { rewrite <- HL. intros a ?. by eapply rep_live. }
    intros T' Hn Hv Hc. tw_step. apply count_removed_run. tw_step.
    { eapply cores_live. by rewrite Hc. }
    tw_step. destruct (base_removed x T L p d l1 l2 T' (l2 ++ l1) (bool_decide (l2 ++ l1 = [])) B HpC HL eq_refl Hn Hv Hc) as (B2 & HC & Hdom).
    set (x1 := x <| w ::= unlinked_w (d_slot d) p (l2 ++ l1) |>) in *. set (e := bool_decide _) in *.
    destruct (removed_clock (d_slot d) (d_pos d) e x1) as (C1 & C2 & C3 & C4 & C5 & C6).
    set (T2 := alter _ p T') in *. clearbody T2.
    set (x2 := (removed (d_slot d) (d_pos d) e x1) <| nto ::= λ v, u64 (v - 1) |>) in *.
    assert (same_clock x (x2 <| nto := nto x |>)) as (E1 & _ & _ & _ & E5 & E6) by (split_and!; done).
    change (pos x2 = pos x) in E1. change (next_timeout_pos x2 = next_timeout_pos x) in E5.
    change (next_timeout_time x2 = next_timeout_time x) in E6.
    split_and!; [|done|done|done| |].
    + change (wheel_inv x2 T2). split.
      * by eexists.
      * rewrite HC. intros a d' Ha'%lookup_delete_Some. destruct Ha' as [Hap Ha']. destruct (Hin _ _ Ha') as [H1 H2].
        split; [by rewrite E5, (trigger_pos_ext x)|].
        intros Hat. change (true_next_timeout_time x2) with (true_next_timeout_time (removed (d_slot d) (d_pos d) e x1)).
        by apply (removed_keeps_flag x T p d x1 e a d').
      * by rewrite E1, E5.
      * by rewrite E5, E6.
    + by apply pending_delete.
    + by apply dom_cores.
  - wp_step. split_and!; try done. rewrite delete_id; [done|]. unfold pending.
    rewrite lookup_fmap, fmap_None. apply eq_None_not_Some. intros [d (E & _ & Hx)%counted_Some].
    rewrite Hpc in E. injection E as <-. by apply Hi.
Qed.
