(* ===== verification/TimerFind.v ===== *)
(** The search for the next timeout: it returns a time at which, at the latest, the
    wheel has to be looked at, and keeps the invariant of the wheel. *)

From S2P Require Import Prelude PonStats Kernel TimerWheel TimerBump TimerRing TimerInv TimerCounts TimerScan TimerOps TimerSet.
From stdpp Require Import functions base tactics numbers list gmap fin_maps.
From Stdlib Require Import ZArith Lia.

(** ** Lists and slots *)

Lemma counted_in_list W T L a d : rep W T 0 L [] [] → counted T !! a = Some d → a ∈ L (d_slot d) ∧ slot_ok (d_slot d).
Proof.
  intros R (Hc & Hs & Hi)%counted_Some.
  destruct (rep_all _ _ _ _ _ _ R a d Hs Hc Hi) as [HL|[H%elem_of_nil|H%elem_of_nil]]; [|done|done].
  split; [done|]. by apply (rep_slot _ _ _ _ _ _ R _ _ HL).
Qed.

(** A slot that refers to no timer is free. *)
Lemma empty_free W T L s : rep W T 0 L [] [] → slot_ok s → W !! s = None → free_slot (counted T) s.
Proof.
  intros R Hs Hw a d Ha Hd. destruct (counted_in_list _ _ _ _ _ R Ha) as [HL _]. rewrite Hd in HL.
  rewrite (rep_w _ _ _ _ _ _ R) in Hw by done. destruct (L s); [by apply elem_of_nil in HL|done].
Qed.

(** Positions that share a slot of the soon wheel. *)
Lemma soon_slot_ext p q : soon_slot p = soon_slot q → (p ≤ q < p + 16384)%Z → p = q.
Proof.
  rewrite !soon_slot_wslot. unfold wslot. intros E H.
  pose proof (Z.div_mod p 16384). pose proof (Z.div_mod q 16384).
  pose proof (Z.mod_pos_bound p 16384). pose proof (Z.mod_pos_bound q 16384). lia.
Qed.

Lemma later_slot_ext p q : later_slot p = later_slot q → (p / 8192 ≤ q / 8192 < p / 8192 + 16384)%Z → (p / 8192 = q / 8192)%Z.
Proof.
  rewrite !later_slot_wslot. unfold wslot. intros E H. set (p' := (p / 8192)%Z) in *. set (q' := (q / 8192)%Z) in *.
  pose proof (Z.div_mod p' 16384). pose proof (Z.div_mod q' 16384).
  pose proof (Z.mod_pos_bound p' 16384). pose proof (Z.mod_pos_bound q' 16384). lia.
Qed.

Lemma later_slot_succ p :
  (if decide (later_slot p + 1 = ERTS_TW_LATER_WHEEL_END_SLOT)%Z then ERTS_TW_LATER_WHEEL_FIRST_SLOT
   else later_slot p + 1)%Z = later_slot (p + 8192).
Proof.
  rewrite !later_slot_wslot. replace ((p + 8192) / 8192)%Z with (p / 8192 + 1)%Z
    by (replace (p + 8192)%Z with (p + 1 * 8192)%Z by lia; by rewrite Z_div_plus_full).
  pose proof (wslot_range 16384 (p / 8192) (or_intror eq_refl)) as H.
  destruct (decide _) as [E|E].
  - symmetry. apply wslot_end. exact E.
  - assert (wslot 16384 (p / 8192) + 1 ≠ 16384 + 16384)%Z by exact E. by rewrite wslot_add by lia.
Qed.

Section find.
Context (x : ErtsTimerWheel) (T : tmap) (L : Z → list positive) (B : wheel_base x T L).
Context (n : Z) (k : kernel) (st : PonStats) (g : list (positive * Z * Z)).
Context (past : option Z) (v : Z) (Hpast : past = Some v).
Context `{K : Kernel}.
Let C := counted T.

(** No timer of the soon wheel lies in [[a, b)]. *)
Definition no_soon (a b : Z) : Prop :=
  ∀ t d, C !! t = Some d → soon_ok (d_slot d) → ¬ (a ≤ d_pos d < b)%Z.

Lemma no_soon_free p : (pos x < p < pos x + 16384)%Z ∨ (p = pos x)%Z → free_slot C (soon_slot p) → no_soon p (p + 1).
Proof using B.
  intros Hp Hf t d Ht Hs Hd. apply (Hf t d Ht).
  destruct (placed_inv _ _ (wb_placed _ _ _ B _ _ Ht)) as [(H1 & H2)|[(H1 & H2 & H3 & H4)|(H1 & H2 & H3 & H4)]].
  - by apply soon_not_at in Hs.
  - rewrite H2. f_equal. lia.
  - by apply soon_not_later in Hs.
Qed.

(** The loop over the slots of the soon wheel returns a lower bound. *)
Lemma find_soon_loop_run fuel slots tpos min (Q : Z → tws → Prop) :
  (tpos + slots = pos x + 16384)%Z → (pos x ≤ tpos)%Z → (min ≤ pos x + 16384)%Z → (Z.to_nat slots ≤ fuel)%nat →
  no_soon (pos x) tpos →
  (∀ r, (r ≤ min)%Z → (pos x ≤ r ∨ r = min)%Z → no_soon (pos x) r → Q r (mkTws x T n k st g)) →
  wp (find_soon_loop past fuel (soon_slot tpos) slots tpos min) Q (mkTws x T n k st g).
Proof using B.
  revert slots tpos. induction fuel as [|fuel IH]; intros slots tpos Hsum Hge Hmin Hf Hno HQ.
  - simpl. rewrite decide_False by lia. wp_step. apply HQ; [lia|by right|].
    intros t d Ht Hs Hd. apply (Hno t d Ht Hs). lia.
  - simpl. destruct (decide (tpos < min)%Z) as [Hlt|Hlt].
    + pose proof (soon_slot_ok tpos) as Hok. tw_step. tw_step; [by apply soon_is_slot|].
      destruct (w x !! soon_slot tpos) as [h|] eqn:Hw.
      * wp_step. apply HQ; [lia|by left|done].
      * tw_step. tw_step.
        destruct (soon_next_spec past (scnt x) C tpos slots tpos) as (d & Hd & He & Hn);
          [apply group_counts_from, (cn_scnt _ _ (wb_counts _ _ _ B))|lia|].
        tw_step. eapply wp_deref; [exact He|]. cbv beta. apply IH; [lia|lia|done|lia| |done].
        intros t dd Ht Hs Hr.
        destruct (decide (d_pos dd < tpos)%Z); [by apply (Hno t dd Ht Hs); lia|].
        assert (free_slot C (soon_slot (d_pos dd))) as Hfree.
        { destruct (decide (d_pos dd = tpos)) as [E|E].
          - rewrite E. eapply empty_free; [apply (wb_rep _ _ _ B)|by apply soon_is_slot|done].
          - replace (d_pos dd) with (tpos + (d_pos dd - tpos))%Z by lia. apply Hn. lia. }
        apply (no_soon_free (d_pos dd)) in Hfree; [apply (Hfree t dd Ht Hs); lia|].
        destruct (placed_inv _ _ (wb_placed _ _ _ B _ _ Ht)) as [(H1 & H2)|[(H1 & H2 & H3 & H4)|(H1 & H2 & H3 & H4)]].
        -- by apply soon_not_at in Hs.
        -- left. lia.
        -- by apply soon_not_later in Hs.
    + wp_step. apply HQ; [lia|by right|]. intros t d Ht Hs Hd. apply (Hno t d Ht Hs). lia.
Qed.

(** What a search establishes: the position [r] is early enough for every timer. *)
Definition early (r : Z) : Prop := (pos x ≤ r)%Z ∧ ∀ t d, C !! t = Some d → (r ≤ trigger x d)%Z.

Lemma find_later_move_run m (Q : Z → tws → Prop) :
  m = (pos x + 16384)%Z →
  (∀ r, (r ≤ m)%Z → (pos x < r)%Z → (∀ t d, C !! t = Some d → later_ok (d_slot d) → (r ≤ trigger x d)%Z) →
    Q r (mkTws x T n k st g)) →
  wp (find_later_move m) Q (mkTws x T n k st g).
Proof using B.
  intros -> HQ. pose proof (wb_later _ _ _ B) as Hl. pose proof (wb_aligned _ _ _ B) as Hal.
  assert (∀ t d, C !! t = Some d → later_ok (d_slot d) →
    later_pos x / 8192 ≤ d_pos d / 8192 ∧ later_min_tpos x ≤ d_pos d ∧ d_slot d = later_slot (d_pos d) ∧
    trigger x d = d_pos d / 8192 * 8192 - 8192)%Z as Hlt.
  { intros t d Ht Hs.
    destruct (placed_inv _ _ (wb_placed _ _ _ B _ _ Ht)) as [(H1 & H2)|[(H1 & H2 & H3 & H4)|(H1 & H2 & H3 & H4)]].
    - by apply later_not_at in Hs.
    - by apply soon_not_later in Hs.
    - split_and!; [by apply Z.div_le_mono|done|done|by apply trigger_later]. }
  unfold find_later_move. tw_step. tw_step. rewrite !slot_size_8192.
  destruct (decide _) as [Hbig|Hbig].
  { wp_step. apply HQ; [lia|lia|]. intros t d Ht Hs. destruct (Hlt t d Ht Hs) as (H1 & H2 & H3 & ->).
    assert ((later_pos x + 2 * 8192) / 8192 ≤ d_pos d / 8192)%Z as H by (apply Z.div_le_mono; lia).
    rewrite Z_div_plus_full in H by lia. lia. }
  cbv zeta. pose proof (later_slot_ok (later_pos x)) as Hok. tw_step. tw_step; [by apply later_is_slot|].
  destruct (w x !! later_slot (later_pos x)) as [h|] eqn:Hw.
  { wp_step. apply HQ; [lia|lia|]. intros t d Ht Hs. destruct (Hlt t d Ht Hs) as (H1 & H2 & H3 & ->). lia. }
  assert (∀ t d, C !! t = Some d → later_ok (d_slot d) → (later_pos x / 8192 < d_pos d / 8192)%Z) as Hfirst.
  { intros t d Ht Hs. destruct (Hlt t d Ht Hs) as (H1 & H2 & H3 & H4).
    pose proof (empty_free _ _ _ _ (wb_rep _ _ _ B) (later_is_slot _ Hok) Hw t d Ht) as Hne.
    destruct (decide (later_pos x / 8192 = d_pos d / 8192)%Z) as [E|E]; [|lia].
    exfalso. apply Hne. rewrite H3, !later_slot_wslot. by rewrite E. }
  destruct (decide _) as [Hin|Hin].
  2: { wp_step. apply HQ; [lia|lia|]. intros t d Ht Hs. pose proof (Hfirst t d Ht Hs). destruct (Hlt t d Ht Hs) as (H1 & H2 & H3 & ->). lia. }
  rewrite later_slot_succ. pose proof (later_slot_ok (later_pos x + 8192)) as Hok2.
  tw_step. tw_step; [by apply later_is_slot|]. wp_step.
  destruct (w x !! later_slot (later_pos x + 8192)) as [h|] eqn:Hw2.
  { apply HQ; [lia|lia|]. intros t d Ht Hs. pose proof (Hfirst t d Ht Hs). destruct (Hlt t d Ht Hs) as (H1 & H2 & H3 & ->). lia. }
  apply HQ; [lia|lia|]. intros t d Ht Hs. pose proof (Hfirst t d Ht Hs) as Hf. destruct (Hlt t d Ht Hs) as (H1 & H2 & H3 & ->).
  assert (d_pos d / 8192 ≠ later_pos x / 8192 + 1)%Z as Hne.
  { intros E. pose proof (empty_free _ _ _ _ (wb_rep _ _ _ B) (later_is_slot _ Hok2) Hw2 t d Ht) as Hfree.
    apply Hfree. rewrite H3, !later_slot_wslot. f_equal. rewrite E.
    replace (later_pos x + 8192)%Z with (later_pos x + 1 * 8192)%Z by lia. by rewrite Z_div_plus_full. }
  lia.
Qed.

(** No timer waits at once. *)
Hypothesis Hat : at_once_nto x = 0%Z.

Lemma not_at_once t d : C !! t = Some d → d_slot d ≠ ERTS_TW_SLOT_AT_ONCE.
Proof using B Hat.
  intros Ht. destruct (wb_counts _ _ _ B) as [Hc _ _ _]. rewrite Hat in Hc. symmetry in Hc.
  exact (cnt_zero _ _ _ _ Hc Ht).
Qed.

(** Timers of the soon and of the later wheel. *)
Lemma soon_or_later t d : C !! t = Some d →
  soon_ok (d_slot d) ∧ d_slot d = soon_slot (d_pos d) ∧ (pos x < d_pos d ∧ soon_min_tpos x ≤ d_pos d)%Z ∨
  later_ok (d_slot d) ∧ d_slot d = later_slot (d_pos d) ∧ (later_pos x ≤ d_pos d ∧ later_min_tpos x ≤ d_pos d)%Z.
Proof using B Hat.
  intros Ht. destruct (placed_inv _ _ (wb_placed _ _ _ B _ _ Ht)) as [(H1 & _)|H]; [|done].
  by apply (not_at_once t d) in Ht.
Qed.

Definition found (r : Z) (σ' : tws) : Prop := ∃ x',
  σ' = mkTws x' T n k st g ∧ wheel_base x' T L ∧ pos x' = pos x ∧
  pon_fd x' = pon_fd x ∧ pon_armed_deadline x' = pon_armed_deadline x ∧ early r.

Lemma find_in_soon_run : wp (find_in_soon past) (λ r, found r.1) (mkTws x T n k st g).
Proof using B Hat.
  unfold find_in_soon. tw_step. tw_step. tw_step. apply find_later_move_run; [done|].
  intros m Hm Hpm Hlater. cbv zeta. set (tpos := if decide (soon_min_tpos x ≤ pos x)%Z then pos x else soon_min_tpos x).
  assert ((if decide (soon_min_tpos x ≤ pos x)%Z then ERTS_TW_SOON_WHEEL_SIZE
    else (ERTS_TW_SOON_WHEEL_SIZE - (soon_min_tpos x - pos x))%Z) = 16384 - (tpos - pos x))%Z as ->.
  { change ERTS_TW_SOON_WHEEL_SIZE with 16384%Z. unfold tpos. destruct (decide _); lia. }
  tw_step. apply find_soon_loop_run; [lia|unfold tpos; case_decide; lia|done| | |].
  { change (Z.to_nat ERTS_TW_SOON_WHEEL_SIZE) with (Z.to_nat 16384). unfold tpos. case_decide; lia. }
  { intros t d Ht Hs. destruct (soon_or_later t d Ht) as [(H1 & H2 & H3 & H4)|(H1 & _)];
      [|by apply soon_not_later in Hs]. unfold tpos. case_decide; lia. }
  intros r Hr Hpr Hno. tw_step. tw_step. wp_step. cbn [fst].
  exists (x <| soon_min_tpos := r |>). split_and!; [done| |done..|].
  - destruct B as [B1 [N1 N2 N3 N4] B3 B4 B5 B6 B7 B8]. split; try done.
    intros t d Ht. destruct (soon_or_later t d Ht) as [(H1 & H2 & H3 & H4)|(H1 & H2 & H3 & H4)].
    + right; left. split; [done|]. split; [done|]. cbn. pose proof (Hno t d Ht H1). lia.
    + by right; right.
  - split; [lia|]. intros t d Ht. destruct (soon_or_later t d Ht) as [(H1 & H2 & H3 & H4)|(H1 & H2 & H3 & H4)].
    + rewrite trigger_soon by done. pose proof (Hno t d Ht H1). lia.
    + pose proof (Hlater t d Ht H1). lia.
Qed.

(** No timer waits in the soon wheel. *)
Lemma find_in_later_run : soon_nto x = 0%Z → wp (find_in_later past) (λ r, found r.1) (mkTws x T n k st g).
Proof using B Hat Hpast.
  intros Hsoon. pose proof (wb_later _ _ _ B) as Hl. pose proof (wb_aligned _ _ _ B) as Hal.
  assert (∀ t d, C !! t = Some d → later_ok (d_slot d) ∧ d_slot d = later_slot (d_pos d) ∧
    (later_pos x / 8192 ≤ d_pos d / 8192 ∧ later_min_tpos x / 8192 ≤ d_pos d / 8192 ∧ later_min_tpos x ≤ d_pos d)%Z) as Hlt.
  { intros t d Ht. destruct (soon_or_later t d Ht) as [(H1 & _)|(H1 & H2 & H3 & H4)].
    - destruct (wb_counts _ _ _ B) as [_ Hc _ _]. rewrite Hsoon in Hc. symmetry in Hc. by destruct (cnt_zero _ _ _ _ Hc Ht).
    - split_and!; [done|done|by apply Z.div_le_mono|by apply Z.div_le_mono|done]. }
  unfold find_in_later. tw_step. tw_step. cbv zeta. rewrite pos_mask.
  change ERTS_TW_LATER_WHEEL_SLOT_SIZE with 8192%Z. change ERTS_TW_LATER_WHEEL_SIZE with 16384%Z.
  set (a := (later_min_tpos x / 8192)%Z) in *. set (b := (later_pos x / 8192)%Z) in *.
  assert (∀ c, (pos x ≤ c * 8192 - 8192)%Z → (∀ t d, C !! t = Some d → c ≤ d_pos d / 8192)%Z → early (c * 8192 - 8192)) as Hearly.
  { intros c Hc Hle. split; [done|]. intros t d Ht. destruct (Hlt t d Ht) as (H1 & _). rewrite trigger_later by done.
    specialize (Hle t d Ht). lia. }
  destruct (decide _) as [[H1 H2]|Hnear].
  { wp_step. exists x. split_and!; try done. apply Hearly; [lia|]. intros t d Ht. by destruct (Hlt t d Ht) as (_ & _ & _ & ? & _). }
  set (c := Z.max a b). set (tpos := if decide (a * 8192 ≤ later_pos x)%Z then later_pos x else (a * 8192)%Z).
  set (slots := if decide (a * 8192 ≤ later_pos x)%Z then _ else _).
  assert (tpos = c * 8192)%Z as Htpos by (unfold tpos, c; case_decide; lia).
  assert (0 < slots ≤ 16384)%Z as Hslots.
  { unfold slots. case_decide; [lia|]. rewrite Z.quot_div_nonneg in * by lia.
    rewrite <- Hal in *. replace (a * 8192 - b * 8192)%Z with ((a - b) * 8192)%Z in * by lia.
    rewrite Z.div_mul in * by lia. lia. }
  clearbody slots tpos. subst tpos.
  assert (∀ j, later_slot (c * 8192 + 8192 * j) = wslot 16384 (c + j)) as Hls.
  { intros j. rewrite later_slot_wslot. f_equal. rewrite Z.add_comm, Z.mul_comm, <- Z.mul_add_distr_r, Z.div_mul; lia. }
  pose proof (later_slot_ok (c * 8192)) as Hok. tw_step. tw_step; [by apply later_is_slot|].
  assert (∀ (c' sl : Z) (ex : bool), (c ≤ c')%Z → (∀ t d, C !! t = Some d → c' ≤ d_pos d / 8192)%Z →
    wp (upd_tiw (λ x, x <| later_min_tpos := (c' * 8192)%Z |> <| later_min_tpos_slot := sl |>);;
        mret ((c' * 8192 - 8192)%Z, ex)) (λ r : Z * bool, found r.1) (mkTws x T n k st g)) as Hend.
  { intros c' sl ex Hc Hle. tw_step. tw_step. wp_step. eexists. split_and!; [done| |done..|].
    - destruct B as [B1 [N1 N2 N3 N4] B3 B4 B5 B6 B7 B8]. split; try done.
      intros t d Ht. destruct (Hlt t d Ht) as (H1 & H2 & H3 & H4). right; right. split; [done|].
      destruct (soon_or_later t d Ht) as [(H5 & _)|(_ & _ & H5 & _)]; [by apply soon_not_later in H1|].
      split; [done|]. cbn. specialize (Hle t d Ht). pose proof (Z.div_mod (d_pos d) 8192). pose proof (Z.mod_pos_bound (d_pos d) 8192). lia.
    - apply Hearly; [unfold c in *; lia|done]. }
  destruct (w x !! later_slot (c * 8192)) as [h|] eqn:Hw.
  - wp_step. apply Hend; [lia|]. intros t d Ht. unfold c. destruct (Hlt t d Ht) as (_ & _ & ? & ? & _). lia.
  - destruct (later_next_spec past v (scnt x) C (c * 8192) slots (c * 8192) Hpast) as (dd & Hd & He & Hn);
      [apply group_counts_from, (cn_scnt _ _ (wb_counts _ _ _ B))|lia|].
    tw_step. tw_step. eapply wp_deref; [exact He|]. cbv beta iota. wp_step. cbv beta iota.
    replace (c * 8192 + 8192 * dd)%Z with ((c + dd) * 8192)%Z by lia. apply Hend; [lia|].
    intros t d Ht. destruct (Hlt t d Ht) as (H1 & H2 & H3 & H4 & _).
    destruct (decide (c + dd ≤ d_pos d / 8192)%Z) as [|Hlt']; [done|]. exfalso.
    assert (free_slot C (later_slot (c * 8192 + 8192 * (d_pos d / 8192 - c)))) as Hfree.
    { destruct (decide (d_pos d / 8192 = c)%Z) as [E|E].
      - rewrite E. replace (c * 8192 + 8192 * (c - c))%Z with (c * 8192)%Z by lia.
        eapply empty_free; [apply (wb_rep _ _ _ B)|by apply later_is_slot|done].
      - apply Hn. unfold c in *. lia. }
    apply (Hfree t d Ht). rewrite Hls, H2, later_slot_wslot. f_equal. lia.
Qed.

End find.

(** ** The whole search *)

Section search.
Context `{K : Kernel} (past : option Z) (v : Z) (Hpast : past = Some v).

Definition sets_next (x : ErtsTimerWheel) (r : Z) (b : bool) : ErtsTimerWheel :=
  x <| next_timeout_pos := r |> <| next_timeout_time := ERTS_CLKTCKS_TO_MONOTONIC r |> <| true_next_timeout_time := b |>.

Lemma week_pos : (0 < ERTS_CLKTCKS_WEEK)%Z.
Proof. done. Qed.

Lemma inv_of_early x T L r b : wheel_base x T L → at_once_nto x = 0%Z → early x T r →
  wheel_inv (sets_next x r b) T.
Proof.
  intros B Hat [Hr He]. pose proof (not_at_once x T L B Hat) as Hno. split.
  - exists L. destruct B as [B1 [N1 N2 N3 N4] B3 B4 B5 B6 B7 B8]. by split.
  - intros t d Ht. split; [|intros E; by destruct (Hno t d Ht)].
    rewrite (trigger_pos_ext x) by done. by apply (He t).
  - done.
  - done.
Qed.

Lemma find_next_timeout_run x T L n k st g :
  wheel_base x T L → at_once_nto x = 0%Z →
  wp (find_next_timeout past) (λ r σ', ∃ x', σ' = mkTws x' T n k st g ∧ wheel_inv x' T ∧
    r = next_timeout_time x' ∧ (nto x ≠ 0 → pos x' = pos x)%Z) (mkTws x T n k st g).
Proof using Hpast.
  intros B Hat. unfold find_next_timeout. tw_step. tw_step. wp_step.
  eapply (wp_mono _ (λ r σ', ∃ x1, σ' = mkTws x1 T n k st g ∧ wheel_base x1 T L ∧ at_once_nto x1 = 0%Z ∧
    early x1 T r.1 ∧ (nto x ≠ 0 → pos x1 = pos x)%Z)).
  - assert (∀ m, wp m (λ r : Z * bool, found x T L n k st g r.1) (mkTws x T n k st g) →
      wp m (λ r σ', ∃ x1, σ' = mkTws x1 T n k st g ∧ wheel_base x1 T L ∧ at_once_nto x1 = 0%Z ∧
        early x1 T r.1 ∧ (nto x ≠ 0 → pos x1 = pos x)%Z) (mkTws x T n k st g)) as Hfound.
    { intros m Hm. eapply wp_mono; [exact Hm|]. intros [r b] σ' (x1 & -> & B1 & Hpos & _ & _ & He1 & He2).
      exists x1. split_and!; [done|done| | |done].
      - destruct B as [_ [N1 _ _ _] _ _ _ _ _ _], B1 as [_ [N1' _ _ _] _ _ _ _ _ _]. by rewrite N1', <- N1.
      - split; [by rewrite Hpos|]. intros t d Ht. rewrite (trigger_pos_ext x) by done. by apply (He2 t). }
    destruct (decide (nto x = 0)%Z) as [Hz|Hz]; [|destruct (decide (soon_nto x = 0)%Z)].
    + assert (counted T = ∅) as HC. { apply map_size_empty_iff. pose proof (wb_nto _ _ _ B). lia. }
      unfold find_in_empty. wp_step. wp_step. cbv zeta. tw_step. tw_step. wp_step. cbn [now fst].
      set (t0 := ERTS_MONOTONIC_TO_CLKTCKS n). eexists. split_and!; [done| |done| |done].
      * destruct B as [B1 [N1 N2 N3 N4] B3 B4 B5 B6 B7 B8]. split; try done; cbn.
        -- intros a d. by rewrite HC.
        -- unfold later_end_pos. rewrite pos_mask. by rewrite Z.div_mul.
        -- unfold later_end_pos. rewrite pos_mask. change ERTS_TW_SOON_WHEEL_SIZE with 16384%Z.
           pose proof (Z.div_mod (t0 + 16384) 8192). pose proof (Z.mod_pos_bound (t0 + 16384) 8192). lia.
      * split; [cbn; pose proof week_pos; lia|]. intros t d. by rewrite HC.
    + apply Hfound. by eapply find_in_later_run.
    + apply Hfound. by eapply find_in_soon_run.
  - intros [r b] ? (x1 & -> & B1 & Hat1 & He & Hpos). tw_step. tw_step. cbv zeta. cbn [fst] in He.
    tw_step. tw_step. wp_step. eexists. split_and!; [done| |done|done].
    apply (inv_of_early x1 T L); [done|done|]. destruct He as [He1 He2]. split.
    + pose proof week_pos. case_decide; lia.
    + intros t d Ht. specialize (He2 t d Ht). case_decide; lia.
Qed.

End search.
