(* ===== verification/TimerMove.v ===== *)
(** Moving timers while time advances: the list of a slot moves behind the
    sentinel, timers leave that list one by one, and run or are inserted again. *)

From S2P Require Import Prelude Ring PonStats Kernel TimerWheel TimerBump TimerRing TimerInv TimerCounts TimerScan TimerOps.
From stdpp Require Import functions base tactics numbers list gmap fin_maps.
From Stdlib Require Import ZArith Lia.

(** ** Lists *)

(** Without a list behind the sentinel its slot does not matter. *)
Lemma rep_cur W T cur cur' L F : rep W T cur L [] F → rep W T cur' L [] F.
Proof. intros []. split; try done. by intros a ?%elem_of_nil. Qed.

(** The list of [slot] moves behind the sentinel, its first timer is taken out. *)
Lemma rep_detach W T T' cur L slot p l :
  rep W T cur L [] [] → L slot = p :: l →
  (∀ b, nx T' b = if decide (l ≠ [] ∧ b = SENTINEL) then head l
                  else if decide (last l = Some b) then Some SENTINEL else nx T b) →
  (∀ b, pv T' b = if decide (l ≠ [] ∧ b = SENTINEL) then last l
                  else if decide (head l = Some b) then Some SENTINEL else pv T b) →
  cores T' = cores T → rep (delete slot W) T' slot (<[slot := []]> L) l [p].
Proof.
  intros R HL Hn Hp Hc. pose proof R as [R1 R2 R3 R4 R5 R6 R7 R8 R9].
  assert (∀ a, a ∈ p :: l → slot_ok slot ∧ a ≠ SENTINEL ∧ (d_slot <$> cores T !! a) = Some slot) as Hsl.
  { intros a Ha. apply R6. by rewrite HL. }
  assert (NoDup (p :: l)) as [Hpl Hnd]%NoDup_cons by (rewrite <- HL; apply R4).
  assert (∀ a, a ∈ l → a ≠ SENTINEL) as Hns by (intros a Ha; apply Hsl; by right).
  assert (∀ s a, s ≠ slot → a ∈ L s → a ∉ p :: l) as Hoth.
  { intros s a Hs Ha Ha'. apply Hs. eapply rep_disjoint; [done|done|by rewrite HL]. }
  destruct (Hsl p ltac:(left)) as (Hslot & Hps & Hcp).
  split.
  - intros s Hso. destruct (decide (s = slot)) as [->|Hs].
    + by rewrite fn_lookup_insert, lookup_delete_eq.
    + rewrite fn_lookup_insert_ne, lookup_delete_ne by done. by apply R1.
  - intros s. destruct (decide (s = slot)) as [->|Hs]; [rewrite fn_lookup_insert; apply rring_nil|].
    rewrite fn_lookup_insert_ne by done. eapply rring_frame; [..|apply R2]; intros a Ha.
    + rewrite Hn, decide_False, decide_False; [done| |intros [_ ->]; by apply (R6 s SENTINEL)].
      intros ?%last_Some_elem_of. apply (Hoth s a); [done|done|by right].
    + rewrite Hp, decide_False, decide_False; [done| |intros [_ ->]; by apply (R6 s SENTINEL)].
      intros ?%head_Some_elem_of. apply (Hoth s a); [done|done|by right].
  - destruct (decide (l = [])) as [->|Hl].
    + eapply rring_frame; [..|done]; intros a _; [rewrite Hn|rewrite Hp]; rewrite decide_False by (by intros [? _]); done.
    + pose proof (R2 slot) as Hr. rewrite HL in Hr. eapply (rring_replace (nx T) (pv T) (nx T') (pv T') p SENTINEL l); [done|done|done| | | | |].
      * intros ?%Hns. done.
      * intros b Hb. rewrite Hn, decide_False; [done|]. intros [_ ->]. by apply Hns in Hb.
      * intros b Hb. rewrite Hp, decide_False; [done|]. intros [_ ->]. by apply Hns in Hb.
      * by rewrite Hn, decide_True.
      * by rewrite Hp, decide_True.
  - intros s. destruct (decide (s = slot)) as [->|Hs]; [rewrite fn_lookup_insert; apply NoDup_nil_2|].
    by rewrite fn_lookup_insert_ne.
  - done.
  - intros s a. rewrite Hc. destruct (decide (s = slot)) as [->|Hs]; [rewrite fn_lookup_insert; by intros ?%elem_of_nil|].
    rewrite fn_lookup_insert_ne by done. apply R6.
  - intros a Ha. rewrite Hc. destruct (Hsl a ltac:(by right)) as (H1 & H2 & H3). split_and!; [done|done|done|].
    intros s. destruct (decide (s = slot)) as [->|Hs]; [rewrite fn_lookup_insert; by intros ?%elem_of_nil|].
    rewrite fn_lookup_insert_ne by done. intros Ha'. apply (Hoth s a); [done|done|by right].
  - intros a ->%list_elem_of_singleton. split_and!; [done| |done|].
    + apply fmap_Some in Hcp as (d & Hd & _). rewrite <- Hc in Hd. by eapply cores_live.
    + intros s. destruct (decide (s = slot)) as [->|Hs]; [rewrite fn_lookup_insert; by intros ?%elem_of_nil|].
      rewrite fn_lookup_insert_ne by done. intros Ha. apply (Hoth s p); [done|done|by left].
  - intros a d Ha. rewrite Hc. intros Hd Hi. destruct (R9 a d Ha Hd Hi) as [H|[H%elem_of_nil|H%elem_of_nil]]; [|done|done].
    destruct (decide (d_slot d = slot)) as [E|Hs]; [|left; by rewrite fn_lookup_insert_ne].
    right. rewrite E, HL in H. apply elem_of_cons in H as [->|H]; [right; by left|by left].
Qed.

Lemma sentinel_live W T cur L S F : rep W T cur L S F → is_Some (T !! SENTINEL).
Proof. intros R. eapply rep_liveS; [done|by left]. Qed.

(** ** Runs *)

Section runs.
Implicit Types (x : ErtsTimerWheel) (T : tmap).

Lemma detach_run x T n k st g cur L slot p l (Q : unit → tws → Prop) :
  rep (w x) T cur L [] [] → L slot = p :: l → slot_ok slot →
  (∀ T', rep (delete slot (w x)) T' slot (<[slot := []]> L) l [p] → cores T' = cores T →
    Q tt (mkTws (x <| w ::= delete slot |>) T' n k st g)) →
  wp (detach_slot slot p) Q (mkTws x T n k st g).
Proof.
  intros R HL Hs HQ. pose proof R as [R1 R2 R3 R4 R5 R6 R7 R8 R9].
  assert (p ∈ L slot) as HpL by (rewrite HL; by left).
  destruct (rep_live _ _ _ _ _ _ _ _ R HpL) as [t Ht].
  pose proof (R2 slot) as Hr. rewrite HL in Hr.
  pose proof (rring_nx (nx T) (pv T) [] p l Hr) as Hnp. pose proof (rring_pv (nx T) (pv T) [] p l Hr) as Hpp.
  rewrite (nx_lookup _ _ _ Ht) in Hnp. rewrite (pv_lookup _ _ _ Ht), app_nil_r in Hpp.
  unfold detach_slot. tw_step. tw_step. destruct l as [|h l].
  - rewrite Hnp. cbn [app head]. rewrite decide_True by done. tw_step. tw_step. tw_step; [done|].
    apply HQ; [|done]. eapply rep_detach; [done|done| |done|done]; intros b; by rewrite !decide_False by (done || by intros [? _]).
  - cbn [app head] in Hnp. rewrite last_cons_cons in Hpp.
    destruct (last (h :: l)) as [z|] eqn:Hz; [|by apply last_None in Hz].
    pose proof (R4 slot) as Hnd. rewrite HL in Hnd. apply NoDup_cons in Hnd as [Hpl Hnd].
    assert (∀ a, a ∈ h :: l → is_Some (T !! a) ∧ a ≠ SENTINEL) as Hlive.
    { intros a Ha. assert (a ∈ L slot) as HaL by (rewrite HL; by right).
      split; [by eapply rep_live|]. by apply (R6 slot a). }
    destruct (Hlive h ltac:(left)) as [Hhl Hhs]. destruct (Hlive z) as [Hzl Hzs]; [by apply last_Some_elem_of|].
    pose proof (sentinel_live _ _ _ _ _ _ R) as Hsl.
    rewrite Hnp, decide_False by (intros [= ->]; apply Hpl; by left). rewrite Hpp.
    tw_step. tw_step. tw_step; [done|]. tw_step. tw_step; [by apply live_alter|].
    fold (set_next SENTINEL (Some h) T). set (T2 := set_next SENTINEL (Some h) T).
    fold (set_prev SENTINEL (Some z) T2). set (T3 := set_prev SENTINEL (Some z) T2).
    assert (∀ a, is_Some (T3 !! a) ↔ is_Some (T !! a)) as Hl3.
    { intros a. unfold T3, T2. by rewrite live_set_prev, live_set_next. }
    destruct (T3 !! SENTINEL) as [s|] eqn:Hs3; [|by rewrite <- Hl3, Hs3 in Hsl; destruct Hsl].
    assert (t_next s = Some h ∧ t_prev s = Some z) as [Esn Esp].
    { rewrite <- (nx_lookup _ _ _ Hs3), <- (pv_lookup _ _ _ Hs3). unfold T3, T2. autorewrite with links.
      by rewrite !decide_True. }
    tw_step. tw_step. rewrite Esn. tw_step. tw_step; [by apply Hl3|].
    fold (set_prev h (Some SENTINEL) T3). set (T4 := set_prev h (Some SENTINEL) T3).
    assert (∀ a, is_Some (T4 !! a) ↔ is_Some (T !! a)) as Hl4 by (intros a; unfold T4; by rewrite live_set_prev).
    destruct (T4 !! SENTINEL) as [s'|] eqn:Hs4; [|by rewrite <- Hl4, Hs4 in Hsl; destruct Hsl].
    assert (t_prev s' = Some z) as Esp'.
    { rewrite <- (pv_lookup _ _ _ Hs4). unfold T4. autorewrite with links; [|by apply Hl3].
      rewrite decide_False by done. by rewrite (pv_lookup _ _ _ Hs3). }
    tw_step. tw_step. rewrite Esp'. tw_step; [by apply Hl4|].
    fold (set_next z (Some SENTINEL) T4). set (T5 := set_next z (Some SENTINEL) T4).
    tw_step; [done|]. apply HQ.
    + eapply rep_detach; [done|done| | |]; [intros b..|].
      * unfold T5, T4, T3, T2. autorewrite with links; [|rewrite ?live_set_prev, ?live_set_next; done..].
        rewrite Hz. cbn [head]. repeat case_decide; naive_solver.
      * unfold T5, T4, T3, T2. autorewrite with links; [|rewrite ?live_set_prev, ?live_set_next; done..].
        rewrite Hz. cbn [head]. repeat case_decide; naive_solver.
      * unfold T5, T4, T3, T2. by autorewrite with links.
    + unfold T5, T4, T3, T2. by autorewrite with links.
Qed.

Lemma sentinel_next_run x T n k st g cur L S (Q : option positive → tws → Prop) :
  rep (w x) T cur L S [] → Q (head S) (mkTws x T n k st g) → wp sentinel_next Q (mkTws x T n k st g).
Proof.
  intros R HQ. destruct (sentinel_live _ _ _ _ _ _ R) as [s Hs].
  pose proof (rring_nx (nx T) (pv T) [] SENTINEL S (rep_sent _ _ _ _ _ _ R)) as Hn. rewrite (nx_lookup _ _ _ Hs) in Hn.
  unfold sentinel_next. tw_step. tw_step. wp_step. destruct S as [|p S]; cbn [app head] in *.
  - by rewrite decide_True.
  - rewrite decide_False; [by rewrite Hn|]. rewrite Hn. intros [= ->].
    destruct (rep_slotS _ _ _ _ _ _ R SENTINEL) as (_ & H & _); [by left|done].
Qed.

Lemma pop_run x T n k st g cur L S p (Q : unit → tws → Prop) :
  rep (w x) T cur L (p :: S) [] →
  (∀ T', rep (w x) T' cur L S [p] → cores T' = cores T → Q tt (mkTws x T' n k st g)) →
  wp (pop_sentinel p) Q (mkTws x T n k st g).
Proof.
  intros R HQ. destruct (rep_liveS _ _ _ _ _ _ p R) as [t Ht]; [set_solver|].
  pose proof (rep_sent _ _ _ _ _ _ R) as Hr. pose proof (rring_nx (nx T) (pv T) [SENTINEL] p S Hr) as Hnp.
  rewrite (nx_lookup _ _ _ Ht) in Hnp. destruct (rep_slotS _ _ _ _ _ _ R p ltac:(left)) as (_ & Hps & _).
  pose proof (sentinel_live _ _ _ _ _ _ R) as Hsl.
  assert (∃ h, head (S ++ [SENTINEL]) = Some h ∧ t_next t = Some h ∧ is_Some (T !! h)) as (h & Hh & Hth & Hhl).
  { destruct S as [|h S]; cbn in *; eexists; split_and!; [done|done|done|done|done|].
    eapply rep_liveS; [done|]. set_solver. }
  unfold pop_sentinel. tw_step. tw_step. rewrite Hth. tw_step. tw_step; [done|].
  fold (set_next SENTINEL (Some h) T). set (T2 := set_next SENTINEL (Some h) T).
  assert (T2 !! p = Some t) as Ht2 by (unfold T2, set_next; by rewrite lookup_alter_ne).
  tw_step. tw_step. rewrite Hth. tw_step; [by apply live_set_next|].
  fold (set_prev h (Some SENTINEL) T2). set (T3 := set_prev h (Some SENTINEL) T2).
  assert (cores T3 = cores T) as Hc by (unfold T3, T2; by autorewrite with links).
  apply HQ; [|done]. eapply (rep_delS _ T T3 cur L (p :: S) p [] S (S ++ [SENTINEL])); [done|done|done| | |done]; intros b.
  - unfold T3, T2. autorewrite with links. rewrite last_snoc, Hh. repeat case_decide; congruence.
  - unfold T3, T2. autorewrite with links. rewrite last_snoc, Hh. repeat case_decide; congruence.
Qed.

Context (run_callback : Z → Z → TW unit) (Hcb : ∀ a b σ, run_callback a b σ = Some (tt, σ)).

Lemma timeout_run x T n k st g cur L S p d (Q : unit → tws → Prop) :
  rep (w x) T cur L S [p] → cores T !! p = Some d →
  (∀ T', rep (w x) T' cur L S [] → cores T' = <[p := in_slot ERTS_TW_SLOT_INACTIVE d]> (cores T) →
    Q tt (mkTws x T' n k st (g ++ [(p, d.1.1.2, d.1.2)]))) →
  wp (timeout_timer run_callback p) Q (mkTws x T n k st g).
Proof.
  intros R Hd HQ. pose proof (cores_live _ _ _ Hd) as Hl. unfold timeout_timer. tw_step. tw_step; [done|].
  pose proof (cores_alter_slot _ _ _ ERTS_TW_SLOT_INACTIVE Hd) as Hc.
  pose proof (rep_inactive _ _ _ _ _ _ _ R Hd) as R2. set (T2 := alter _ p T) in *.
  assert (∃ t, T2 !! p = Some t ∧ t_timeout t = d.1.1.2 ∧ t_arg t = d.1.2) as (t & Ht & E1 & E2).
  { assert (cores T2 !! p = Some (in_slot ERTS_TW_SLOT_INACTIVE d)) as Hcp by by rewrite Hc, lookup_insert_eq.
    unfold cores in Hcp. rewrite lookup_fmap in Hcp. apply fmap_Some in Hcp as (t & Ht & Htd).
    exists t. split; [done|]. unfold data_of, in_slot in Htd. destruct d as [[[]]]. by simplify_eq/=. }
  tw_step. tw_step. tw_step. tw_step. rewrite E1, E2. unfold wp. rewrite Hcb. by apply HQ.
Qed.

End runs.

(** The phases of [erts_bump_timers]: what holds between two timers while a slot
    is worked off, and what one timer does to it. *)

(** ** What has run *)

(** The entry of the history for a timer with its position, callback and argument. *)
Definition fire_of (e : positive * (Z * Z * Z)) : positive * Z * Z := (e.1, e.2.1.2, e.2.2).

(** Of the timers [P0] exactly those that the history [g] has more than [g0] are
    gone; they were due at [lim]. *)
Definition fired (P0 : gmap positive (Z * Z * Z)) (g0 : list (positive * Z * Z)) (lim : Z)
    (P : gmap positive (Z * Z * Z)) (g : list (positive * Z * Z)) : Prop :=
  ∃ fs, g = g0 ++ (fire_of <$> fs) ∧ NoDup fs.*1 ∧
    (∀ a d, (a, d) ∈ fs → P0 !! a = Some d ∧ (d.1.1 ≤ lim)%Z) ∧
    (∀ a, P !! a = if decide (a ∈ fs.*1) then None else P0 !! a).

Lemma fired_nil P g lim : fired P g lim P g.
Proof.
  exists []. split_and!; [by rewrite app_nil_r|constructor|by intros ? ? ?%elem_of_nil|].
  intros a. rewrite decide_False; [done|]. by intros ?%elem_of_nil.
Qed.

Lemma fired_one P0 g0 lim P g p d :
  fired P0 g0 lim P g → P !! p = Some d → (d.1.1 ≤ lim)%Z →
  fired P0 g0 lim (delete p P) (g ++ [(p, d.1.2, d.2)]).
Proof.
  intros (fs & -> & Hnd & Hfs & HP) Hp Hd. pose proof (HP p) as Hpp. rewrite Hp in Hpp. case_decide as Hin; [done|].
  exists (fs ++ [(p, d)]). split_and!.
  - by rewrite fmap_app, app_assoc.
  - rewrite fmap_app. apply NoDup_app. split_and!; [done| |apply NoDup_singleton].
    intros a Ha ->%list_elem_of_singleton. done.
  - intros a d' [?|[= -> ->]%list_elem_of_singleton]%elem_of_app; [by apply Hfs|done].
  - intros a. rewrite fmap_app. cbn. destruct (decide (a = p)) as [->|Ha].
    + rewrite lookup_delete_eq, decide_True; [done|]. apply elem_of_app. right. by left.
    + rewrite lookup_delete_ne by done. rewrite HP. apply decide_ext. rewrite elem_of_app, list_elem_of_singleton. naive_solver.
Qed.

(** ** The state between two timers *)

Section phase.
Context (P0 : gmap positive (Z * Z * Z)) (g0 : list (positive * Z * Z)) (lim : Z).
Context (ps lq : Z).

(** [ps] and [lq] are the positions of the wheel, [lo] and [lp] those its timers
    agree with; [gb] is what the copy of the counts has to satisfy. *)
Record phase (gb : list Z → dmap → Prop) (lo lp : Z) (slot : Z) (x : ErtsTimerWheel) (T : tmap)
    (L : Z → list positive) (S F : list positive) (g : list (positive * Z * Z)) : Prop := {
  ph_rep : rep (w x) T slot L S F;
  ph_counts : counts x (counted T);
  ph_nto : nto x = Z.of_nat (size (counted T));
  ph_few : few (cores T);
  ph_placed a d : counted T !! a = Some d → placed_from lo lp x d;
  ph_fired : fired P0 g0 lim (pending T) g;
  ph_yield : yield_slot x = ERTS_TW_SLOT_INACTIVE;
  ph_clock : pos x = ps ∧ later_pos x = lq;
  ph_bump : gb (bump_scnt x) (counted T)
}.

Lemma counted_cores T T' : cores T' = cores T → counted T' = counted T.
Proof. unfold counted. by intros ->. Qed.

Lemma phase_cores gb lo lp slot slot' x T T' L L' S S' F F' W g :
  phase gb lo lp slot x T L S F g → cores T' = cores T → rep W T' slot' L' S' F' →
  phase gb lo lp slot' (x <| w := W |>) T' L' S' F' g.
Proof.
  intros [H1 [N1 N2 N3 N4] H3 H4 H5 H6 H7 H8 H9] Hc R. pose proof (counted_cores _ _ Hc) as HC.
  assert (pending T' = pending T) as HP by (unfold pending; by rewrite HC).
  split; rewrite ?HC, ?Hc, ?HP; try done.
Qed.

Section steps.
Context (gb : list Z → dmap → Prop) (lo lp : Z).
Implicit Types (x : ErtsTimerWheel) (T : tmap).

Lemma phase_detach_run slot0 slot x T n k st g L p l (Q : unit → tws → Prop) :
  phase gb lo lp slot0 x T L [] [] g → L slot = p :: l → slot_ok slot →
  (∀ x' T', phase gb lo lp slot x' T' (<[slot := []]> L) l [p] g → cores T' = cores T → Q tt (mkTws x' T' n k st g)) →
  wp (detach_slot slot p) Q (mkTws x T n k st g).
Proof.
  intros Hph HL Hs HQ. eapply detach_run; [apply Hph|done|done|].
  intros T' R Hc. apply HQ; [|done]. by eapply phase_cores.
Qed.

Lemma phase_pop_run slot x T n k st g L S p (Q : unit → tws → Prop) :
  phase gb lo lp slot x T L (p :: S) [] g →
  (∀ T', phase gb lo lp slot x T' L S [p] g → cores T' = cores T → Q tt (mkTws x T' n k st g)) →
  wp (pop_sentinel p) Q (mkTws x T n k st g).
Proof.
  intros Hph HQ. eapply pop_run; [apply Hph|]. intros T' R Hc. apply HQ; [|done].
  replace x with (x <| w := w x |>) by by destruct x. by eapply phase_cores.
Qed.

(** The fields of the wheel that a step of a phase leaves alone. *)
Definition phase_same (x x' : ErtsTimerWheel) : Prop :=
  yield_slot x' = yield_slot x ∧ pos x' = pos x ∧ later_pos x' = later_pos x.

(** The timer [p] has run. *)
Lemma phase_fired x x' T T' L S slot g p d :
  phase gb lo lp slot x T L S [p] g → counted T !! p = Some d → (d_pos d ≤ lim)%Z →
  rep (w x') T' slot L S [] → cores T' = <[p := in_slot ERTS_TW_SLOT_INACTIVE d]> (cores T) →
  counts x' (delete p (counted T)) → nto x' = Z.of_nat (size (delete p (counted T))) → phase_same x x' →
  gb (bump_scnt x') (delete p (counted T)) →
  (∀ a d', delete p (counted T) !! a = Some d' → placed_from lo lp x' d') →
  phase gb lo lp slot x' T' L S [] (g ++ [(p, d.1.1.2, d.1.2)]).
Proof.
  intros [H1 H2 H3 H4 H5 H6 H7 H8 H9] Hp Hd R Hc Hn Hnto (E1 & E2 & E3) Hgb Hpl.
  pose proof (counted_inactive T T' p d Hc) as HC. split; rewrite ?HC; try done.
  - unfold few in *. rewrite Hc, map_size_insert. apply counted_Some in Hp as (-> & _). done.
  - rewrite (pending_delete _ _ _ HC). apply fired_one; [done| |done].
    unfold pending. by rewrite lookup_fmap, Hp.
  - by rewrite E1.
  - by rewrite E2, E3.
Qed.

(** The timer [p] has been put into the list of [s]. *)
Lemma phase_moved x x' T T' L L' S slot s g p d :
  phase gb lo lp slot x T L S [p] g → counted T !! p = Some d → slot_ok s →
  rep (w x') T' slot L' S [] → cores T' = <[p := in_slot s d]> (cores T) →
  counts x' (<[p := in_slot s d]> (delete p (counted T))) → nto x' = nto x → phase_same x x' →
  gb (bump_scnt x') (<[p := in_slot s d]> (delete p (counted T))) →
  (∀ a d', <[p := in_slot s d]> (delete p (counted T)) !! a = Some d' → placed_from lo lp x' d') →
  phase gb lo lp slot x' T' L' S [] g ∧ counted T' = <[p := in_slot s d]> (counted T).
Proof.
  intros [H1 H2 H3 H4 H5 H6 H7 H8 H9] Hp Hs R Hc Hn Hnto (E1 & E2 & E3) Hgb Hpl.
  pose proof Hp as (Hpc & Hps & Hi)%counted_Some.
  assert (counted T' = <[p := in_slot s d]> (counted T)) as HC by by apply counted_insert.
  split; [|done]. rewrite insert_delete_eq, <- HC in Hn, Hgb, Hpl. split; try done.
  - rewrite Hnto, H3, HC, map_size_insert, Hp. done.
  - unfold few in *. rewrite Hc, map_size_insert, Hpc. done.
  - rewrite (pending_insert _ _ _ _ _ HC). rewrite insert_id; [done|].
    unfold pending. by rewrite lookup_fmap, Hp.
  - by rewrite E1.
  - by rewrite E2, E3.
Qed.

End steps.

(** The structures outnumber the timers of any list. *)
Lemma phase_fuel gb lo lp slot x T L S F g : phase gb lo lp slot x T L S F g → length S ≤ size T.
Proof.
  intros Hph. pose proof (ph_rep _ _ _ _ _ _ _ _ _ _ Hph) as R.
  rewrite <- (size_list_to_set (C := gset positive) S) by (by eapply rep_nodupS).
  rewrite <- size_dom. apply subseteq_size. intros a. rewrite elem_of_list_to_set, elem_of_dom.
  intros Ha. eapply rep_liveS; [done|by right].
Qed.

End phase.
