(* ===== verification/TimerSteps.v ===== *)
(** One timer of a slot that is worked off: it runs, stays in its wheel, or moves
    from the later to the soon wheel. *)

From S2P Require Import Prelude PonStats Kernel TimerWheel TimerBump TimerRing TimerInv TimerCounts TimerScan TimerOps TimerMove.
From stdpp Require Import functions base tactics numbers list gmap fin_maps.
From Stdlib Require Import ZArith Lia.

(** ** Bookkeeping *)

Lemma removed_w slot tpos e x : w (removed slot tpos e x) = w x.
Proof.
  unfold removed, soon_gone, later_gone. cbv zeta. destruct (decide _); [done|].
  destruct (decide (slot < _)%Z), (e && _); cbn; by case_decide.
Qed.

Lemma removed_bump slot tpos e x : bump_scnt (removed slot tpos e x) = bump_scnt x.
Proof.
  unfold removed, soon_gone, later_gone. cbv zeta. destruct (decide _); [done|].
  destruct (decide (slot < _)%Z), (e && _); cbn; by case_decide.
Qed.

Lemma inserted_bump slot tpos x : bump_scnt (inserted slot tpos x) = bump_scnt x.
Proof. unfold inserted. cbv zeta. by repeat case_decide. Qed.

Lemma removed_soon slot tpos x : soon_ok slot →
  removed slot tpos false x = (soon_gone x) <| scnt ::= scnt_add (-1) (scnt_get_ix slot) |>.
Proof.
  intros Hs. unfold removed. rewrite decide_False by by apply soon_not_at. rewrite decide_True by apply Hs.
  cbn [andb]. unfold soon_gone. cbv zeta. cbn. by case_decide.
Qed.

Lemma removed_later slot tpos x : later_ok slot →
  removed slot tpos false x = (later_gone x) <| scnt ::= scnt_add (-1) (scnt_get_ix slot) |>.
Proof.
  intros Hs. unfold removed. rewrite decide_False by by apply later_not_at.
  rewrite decide_False by (apply later_range in Hs; change ERTS_TW_SOON_WHEEL_END_SLOT with 16384%Z; lia).
  cbn [andb]. unfold later_gone. cbv zeta. cbn. by case_decide.
Qed.

Lemma dec_soon_run x T n k st g slot tpos (Q : unit → tws → Prop) :
  soon_ok slot → Q tt (mkTws (removed slot tpos false x) T n k st g) →
  wp (dec_soon;; scnt_ix_dec (scnt_get_ix slot)) Q (mkTws x T n k st g).
Proof.
  intros Hs HQ. rewrite removed_soon in HQ by done. unfold dec_soon, scnt_ix_dec.
  tw_step. tw_step. tw_step. tw_step. by tw_step.
Qed.

Lemma dec_later_run x T n k st g slot tpos (Q : unit → tws → Prop) :
  later_ok slot → Q tt (mkTws (removed slot tpos false x) T n k st g) →
  wp (dec_later;; scnt_ix_dec (scnt_get_ix slot)) Q (mkTws x T n k st g).
Proof.
  intros Hs HQ. rewrite removed_later in HQ by done. unfold dec_later, scnt_ix_dec.
  tw_step. tw_step. tw_step. tw_step. by tw_step.
Qed.

Lemma nto_dec C p (d : tdata) : C !! p = Some d → few C →
  u64 (Z.of_nat (size C) - 1) = Z.of_nat (size (delete p C)).
Proof.
  intros Hp Hf. rewrite map_size_delete, Hp. cbn.
  assert (size C ≠ 0) as Hnz. { intros E%map_size_empty_inv. by rewrite E, lookup_empty in Hp. }
  replace (Z.of_nat (size C) - 1)%Z with (Z.of_nat (pred (size C))) by lia.
  apply u64_cnt. unfold few in Hf. lia.
Qed.

Lemma load_core T p d : cores T !! p = Some d → ∃ t, T !! p = Some t ∧ timeout_pos t = d_pos d.
Proof.
  unfold cores. rewrite lookup_fmap. intros (t & Ht & ->)%fmap_Some. eauto.
Qed.

Section steps.
Context (P0 : gmap positive (Z * Z * Z)) (g0 : list (positive * Z * Z)) (lim ps lq : Z).
Context (run_callback : Z → Z → TW unit) (Hcb : ∀ a b σ, run_callback a b σ = Some (tt, σ)).
Implicit Types (x : ErtsTimerWheel) (T : tmap).

(** The counts and places of the others once the timer [p] is taken out. *)
Lemma phase_removed gb lo lp slot x T L S F g p d :
  phase P0 g0 lim ps lq gb lo lp slot x T L S F g → counted T !! p = Some d → slot_ok (d_slot d) →
  let x1 := removed (d_slot d) (d_pos d) false x in
  counts x1 (delete p (counted T)) ∧
  (∀ a d', delete p (counted T) !! a = Some d' → placed_from lo lp x1 d') ∧
  phase_same x x1 ∧ nto x1 = nto x ∧ w x1 = w x ∧ bump_scnt x1 = bump_scnt x.
Proof.
  intros Hph Hp Hs x1. destruct Hph as [H1 H2 H3 H4 H5 H6 H7 H8 H9].
  pose proof (counts_remove x (counted T) p d (d_slot d) (d_pos d) false H2 Hp eq_refl Hs (few_counted _ H4)) as Hn.
  destruct (removed_clock (d_slot d) (d_pos d) false x) as (C1 & C2 & C3 & C4 & C5 & C6).
  split_and!; [done| |done|done|apply removed_w|apply removed_bump].
  intros a d' Ha. eapply placed_removed; [exact Hn|exact Ha|]. apply lookup_delete_Some in Ha as [_ Ha]. by eapply H5.
Qed.

Lemma phase_slot gb lo lp slot x T L S F g p d :
  phase P0 g0 lim ps lq gb lo lp slot x T L S F g → counted T !! p = Some d → slot_ok (d_slot d).
Proof.
  intros Hph Hp. destruct (placed_from_inv _ _ _ _ (ph_placed _ _ _ _ _ _ _ _ _ _ _ _ _ _ _ Hph _ _ Hp))
    as [(-> & _)|[(H & _)|(H & _)]]; [done|by apply soon_is_slot|by apply later_is_slot].
Qed.

Lemma at_once_timer_run lo lp slot x T n k st g L S p d (Q : unit → tws → Prop) :
  phase P0 g0 lim ps lq (λ _ _, True) lo lp slot x T L S [p] g → counted T !! p = Some d →
  d_slot d = ERTS_TW_SLOT_AT_ONCE → (d_pos d ≤ lim)%Z →
  (∀ x' T' g', phase P0 g0 lim ps lq (λ _ _, True) lo lp slot x' T' L S [] g' → counted T' = delete p (counted T) →
    Q tt (mkTws x' T' n k st g')) →
  wp (at_once_timer run_callback p) Q (mkTws x T n k st g).
Proof.
  intros Hph Hp Hd Hlim HQ. pose proof (phase_slot _ _ _ _ _ _ _ _ _ _ _ _ Hph Hp) as Hs.
  destruct (phase_removed _ _ _ _ _ _ _ _ _ _ _ _ Hph Hp Hs) as (R1 & R2 & R3 & R4 & R5 & _).
  assert (removed (d_slot d) (d_pos d) false x = x <| at_once_nto ::= λ v, u64 (v - 1) |>) as E.
  { unfold removed. by rewrite decide_True. }
  rewrite E in *. unfold at_once_timer. tw_step. tw_step.
  eapply timeout_run; [done|by apply (ph_rep _ _ _ _ _ _ _ _ _ _ _ _ _ _ _ Hph)|by apply counted_Some in Hp as (? & _)|].
  intros T' R Hc. apply HQ; [|by eapply counted_inactive].
  eapply (phase_fired _ _ _ _ _ _ _ _ x); [done|done|done|done|done|destruct R1; by split| |done|done|done].
  cbn. rewrite (ph_nto _ _ _ _ _ _ _ _ _ _ _ _ _ _ _ Hph). eapply nto_dec; [done|].
  apply few_counted, (ph_few _ _ _ _ _ _ _ _ _ _ _ _ _ _ _ Hph).
Qed.

(** A timer is put into the list of [s]; [x1] is the wheel without it. *)
Lemma phase_insert_run gb lo lp slot x x1 T n k st g L S p d s (Q : unit → tws → Prop) :
  phase P0 g0 lim ps lq gb lo lp slot x T L S [p] g → counted T !! p = Some d → slot_ok s →
  counts x1 (delete p (counted T)) →
  (∀ a d', delete p (counted T) !! a = Some d' → placed_from lo lp x1 d') →
  phase_same x x1 → nto x1 = nto x → w x1 = w x → gb (bump_scnt x1) (<[p := in_slot s d]> (delete p (counted T))) →
  placed_from lo lp (inserted s (d_pos d) x1) (in_slot s d) →
  (∀ x' T', phase P0 g0 lim ps lq gb lo lp slot x' T' (<[s := L s ++ [p]]> L) S [] g →
    counted T' = <[p := in_slot s d]> (counted T) → Q tt (mkTws x' T' n k st g)) →
  wp (insert_timer_into_slot s p) Q (mkTws x1 T n k st g).
Proof.
  intros Hph Hp Hs Hn Hoth (E1 & E2 & E3) Hnto Hw Hgb Hnew HQ. pose proof Hp as (Hpc & _)%counted_Some.
  pose proof (ph_rep _ _ _ _ _ _ _ _ _ _ _ _ _ _ _ Hph) as R. rewrite <- Hw in R.
  eapply insert_run; [exact R|done|done|]. intros W' T' R' Hc.
  pose proof (ph_few _ _ _ _ _ _ _ _ _ _ _ _ _ _ _ Hph) as Hf.
  destruct (inserted_clock s (d_pos d) x1) as (C1 & C2 & C3 & C4 & C5 & C6).
  destruct (inserted_min s (d_pos d) x1) as [M1 M2].
  assert (few (<[p := in_slot s d]> (delete p (counted T)))) as Hf2.
  { rewrite insert_delete_eq. apply few_counted in Hf. unfold few in *. rewrite map_size_insert, Hp. done. }
  destruct (phase_moved P0 g0 lim ps lq gb lo lp x ((inserted s (d_pos d) x1) <| w := W' |>) T T' L
    (<[s := L s ++ [p]]> L) S slot s g p d) as [Hph' HC]; try done.
  - destruct (counts_insert x1 (delete p (counted T)) p d s (d_pos d) Hn (lookup_delete_eq _ _) Hs
      (few_delete _ _ (few_counted _ Hf)) Hf2). by split.
  - cbn. by rewrite C4.
  - unfold phase_same. cbn. by rewrite C1, C2, C3, E1, E2, E3.
  - cbn. by rewrite inserted_bump.
  - intros a d'. destruct (decide (a = p)) as [->|Ha].
    + rewrite lookup_insert_eq. by intros [= <-].
    + rewrite lookup_insert_ne by done. intros Hd'. eapply placed_from_mono; [..|by eapply Hoth]; done.
  - by apply HQ.
Qed.

Lemma in_slot_same d : in_slot (d_slot d) d = d.
Proof. by destruct d. Qed.

Lemma soon_timer_run lp slot x T n k st g L S p d lo yc (Q : Z → tws → Prop) :
  phase P0 g0 lim ps lq (group_from 0) lo lp slot x T L S [p] g → counted T !! p = Some d →
  d_slot d = slot → soon_ok slot →
  (∀ x' T' g' yc', phase P0 g0 lim ps lq (group_from 0) lo lp slot x' T' L S [] g' →
    counted T' = delete p (counted T) → Q yc' (mkTws x' T' n k st g')) →
  (∀ x' T' yc', phase P0 g0 lim ps lq (group_from 0) lo lp slot x' T' (<[slot := L slot ++ [p]]> L) S [] g →
    counted T' = counted T → (lim < d_pos d)%Z → Q yc' (mkTws x' T' n k st g)) →
  wp (soon_timer run_callback slot (scnt_get_ix slot) lim p yc) Q (mkTws x T n k st g).
Proof.
  intros Hph Hp Hd Hsl HF HM. pose proof (phase_slot _ _ _ _ _ _ _ _ _ _ _ _ Hph Hp) as Hs.
  destruct (phase_removed _ _ _ _ _ _ _ _ _ _ _ _ Hph Hp Hs) as (R1 & R2 & R3 & R4 & R5 & R6).
  pose proof Hp as (Hpc & _)%counted_Some. destruct (load_core _ _ _ Hpc) as (t & Ht & Htp).
  pose proof (few_counted _ (ph_few _ _ _ _ _ _ _ _ _ _ _ _ _ _ _ Hph)) as Hfew.
  pose proof (soon_range _ Hsl) as Hrange.
  pose proof (ph_bump _ _ _ _ _ _ _ _ _ _ _ _ _ _ _ Hph) as Hgb.
  unfold soon_timer, bump_scnt_ix_dec. apply wp_bind_assoc. wp_step. rewrite Hd in *.
  eapply (dec_soon_run _ _ _ _ _ _ _ (d_pos d)); [done|].
  set (x1 := removed slot (d_pos d) false x) in *. tw_step. tw_step. rewrite Htp.
  destruct (decide (d_pos d ≤ lim)%Z) as [Hle|Hle].
  - tw_step. pose proof (ph_rep _ _ _ _ _ _ _ _ _ _ _ _ _ _ _ Hph) as R. rewrite <- R5 in R.
    eapply timeout_run; [done|done|done|]. intros T' R' Hc. tw_step. tw_step. tw_step. tw_step. wp_step.
    apply HF; [|by eapply counted_inactive].
    eapply (phase_fired _ _ _ _ _ _ _ _ x); [done|done|done|done|done|destruct R1; by split| |done| |done].
    + cbn. rewrite R4, (ph_nto _ _ _ _ _ _ _ _ _ _ _ _ _ _ _ Hph). by eapply nto_dec.
    + cbn. rewrite R6, <- Hd. apply group_from_delete; [done|done|rewrite Hd; lia|done].
  - tw_step. assert (<[p := in_slot slot d]> (delete p (counted T)) = counted T) as E.
    { rewrite <- Hd, in_slot_same. by apply insert_delete_id. }
    eapply phase_insert_run; [exact Hph|exact Hp|done|done|done|done|done|done|by rewrite R6, E| |].
    + destruct (placed_from_inv _ _ _ _ (ph_placed _ _ _ _ _ _ _ _ _ _ _ _ _ _ _ Hph _ _ Hp))
        as [(H & _)|[(H1 & H2 & H3 & H4)|(H & _)]].
      * rewrite Hd in H. by apply soon_not_at in Hsl.
      * right; left. rewrite <- Hd at 2. rewrite in_slot_same, <- H2, Hd. split; [done|]. split; [done|].
        by apply inserted_soon_min.
      * rewrite Hd in H. by apply soon_not_later in Hsl.
    + intros x' T' Hph' HC. wp_step. apply HM; [done| |lia].
      rewrite HC, <- Hd, in_slot_same. by apply insert_id.
Qed.

Lemma soon_not_in_group s i : soon_ok s → 32 ≤ i → ¬ in_group i s.
Proof.
  intros Hs%soon_range Hi [_ Hg]. rewrite scnt_get_ix_div in Hg.
  assert (s / 512 < 32)%Z by (apply Z.div_lt_upper_bound; lia). lia.
Qed.

Lemma later_timer_run lp slot x T n k st g L S p d yc (Q : Z → tws → Prop) :
  phase P0 g0 lim ps lq (group_from 32) ps lp slot x T L S [p] g → counted T !! p = Some d →
  d_slot d = slot → later_ok slot → (ps ≤ lim)%Z → (lp ≤ lq)%Z →
  (∀ x' T' g' yc', phase P0 g0 lim ps lq (group_from 32) ps lp slot x' T' L S [] g' →
    counted T' = delete p (counted T) → Q yc' (mkTws x' T' n k st g')) →
  (∀ x' T' yc', phase P0 g0 lim ps lq (group_from 32) ps lp slot x' T' (<[slot := L slot ++ [p]]> L) S [] g →
    counted T' = counted T → (lq + 8192 ≤ d_pos d)%Z → Q yc' (mkTws x' T' n k st g)) →
  (∀ x' T' yc', phase P0 g0 lim ps lq (group_from 32) ps lp slot x' T'
      (<[soon_slot (d_pos d) := L (soon_slot (d_pos d)) ++ [p]]> L) S [] g →
    counted T' = <[p := in_slot (soon_slot (d_pos d)) d]> (counted T) → Q yc' (mkTws x' T' n k st g)) →
  wp (later_timer run_callback slot (scnt_get_ix slot) ps p yc) Q (mkTws x T n k st g).
Proof.
  intros Hph Hp Hd Hsl Hps Hlplq HF HM HS. pose proof (phase_slot _ _ _ _ _ _ _ _ _ _ _ _ Hph Hp) as Hs.
  destruct (phase_removed _ _ _ _ _ _ _ _ _ _ _ _ Hph Hp Hs) as (R1 & R2 & R3 & R4 & R5 & R6).
  pose proof Hp as (Hpc & _)%counted_Some. destruct (load_core _ _ _ Hpc) as (t & Ht & Htp).
  pose proof (few_counted _ (ph_few _ _ _ _ _ _ _ _ _ _ _ _ _ _ _ Hph)) as Hfew.
  pose proof (later_range _ Hsl) as Hrange.
  pose proof (ph_bump _ _ _ _ _ _ _ _ _ _ _ _ _ _ _ Hph) as Hgb.
  destruct (ph_clock _ _ _ _ _ _ _ _ _ _ _ _ _ _ _ Hph) as [Hpos Hlp].
  unfold later_timer, bump_scnt_ix_dec. tw_step. tw_step. rewrite Htp. cbv zeta. apply wp_bind_assoc. wp_step.
  rewrite Hd in *. eapply (dec_later_run _ _ _ _ _ _ _ (d_pos d)); [done|].
  set (x1 := removed slot (d_pos d) false x) in *. tw_step. tw_step.
  pose proof R3 as (E1 & E2 & E3). rewrite E3, Hlp. change ERTS_TW_LATER_WHEEL_SLOT_SIZE with 8192%Z.
  destruct (decide (lq + 8192 ≤ d_pos d)%Z) as [Hfar|Hnear].
  - tw_step. assert (<[p := in_slot slot d]> (delete p (counted T)) = counted T) as E.
    { rewrite <- Hd, in_slot_same. by apply insert_delete_id. }
    eapply phase_insert_run; [exact Hph|exact Hp|done|done|done|done|done|done|by rewrite R6, E| |].
    + destruct (placed_from_inv _ _ _ _ (ph_placed _ _ _ _ _ _ _ _ _ _ _ _ _ _ _ Hph _ _ Hp))
        as [(H & _)|[(H & _)|(H1 & H2 & H3 & H4)]].
      * rewrite Hd in H. by apply later_not_at in Hsl.
      * rewrite Hd in H. by apply soon_not_later in Hsl.
      * right; right. rewrite <- Hd at 2. rewrite in_slot_same, <- H2, Hd. split; [done|]. split; [done|].
        by apply inserted_later_min.
    + intros x' T' Hph' HC. wp_step. apply HM; [done| |lia].
      rewrite HC, <- Hd, in_slot_same. by apply insert_id.
  - tw_step. tw_step.
    set (x2 := x1 <| bump_scnt ::= scnt_add (-1) (scnt_get_ix slot) |>).
    assert (group_from 32 (bump_scnt x2) (delete p (counted T))) as Hgb2.
    { unfold x2. cbn. rewrite R6, <- Hd. apply group_from_delete; [done|done|rewrite Hd; lia|done]. }
    destruct (decide (d_pos d > ps)%Z) as [Hgt|Hle].
    + tw_step. pose proof (soon_slot_ok (d_pos d)) as Hok.
      eapply (phase_insert_run _ _ _ _ x x2); [exact Hph|exact Hp|by apply soon_is_slot|destruct R1; by split|done|done|done|done| | |].
      * apply group_from_insert; [done|by apply lookup_delete_eq|]. intros i Hi. by apply soon_not_in_group.
      * right; left. split; [done|]. split; [change (ps < d_pos d)%Z; lia|]. by apply inserted_soon_min.
      * intros x' T' Hph' HC. wp_step. by apply HS.
    + tw_step. pose proof (ph_rep _ _ _ _ _ _ _ _ _ _ _ _ _ _ _ Hph) as R. rewrite <- R5 in R.
      eapply timeout_run; [done|done|done|]. intros T' R' Hc. tw_step. tw_step. wp_step.
      apply HF; [|by eapply counted_inactive].
      eapply (phase_fired _ _ _ _ _ _ _ _ x); [done|done|lia|done|done|destruct R1; by split| |done|done|done].
      cbn. rewrite R4, (ph_nto _ _ _ _ _ _ _ _ _ _ _ _ _ _ _ Hph). by eapply nto_dec.
Qed.

End steps.
