(* ===== verification/TimerLoops.v ===== *)
(** The loops of [erts_bump_timers]: over the timers of a slot and over the slots of
    a wheel. Each either yields or works off what is due. *)

From S2P Require Import Prelude PonStats Kernel TimerWheel TimerBump TimerRing TimerInv TimerCounts TimerScan TimerOps TimerMove TimerSteps TimerFind.
From stdpp Require Import functions base tactics numbers list gmap fin_maps.
From Stdlib Require Import ZArith Lia.

(** Timers of the slots [P] are those of before. *)
Definition keeps (P : Z → Prop) (C C' : dmap) : Prop :=
  ∀ a d, P (d_slot d) → C' !! a = Some d → C !! a = Some d.

(** While the soon wheel is worked off no timer changes its slot; while the later
    wheel is, timers come to the soon wheel only. *)
Definition any_slot (s : Z) : Prop := True.
Definition not_soon (s : Z) : Prop := ¬ soon_ok s.

Lemma later_not_soon s : later_ok s → not_soon s.
Proof. intros Hl Hs. by apply (soon_not_later _ Hs). Qed.

Lemma keeps_refl P C : keeps P C C.
Proof. by intros ? ? ? ?. Qed.
Lemma keeps_trans P C1 C2 C3 : keeps P C1 C2 → keeps P C2 C3 → keeps P C1 C3.
Proof. intros H1 H2 a d HP Ha. by apply H1, H2. Qed.
Lemma keeps_delete P C p : keeps P C (delete p C).
Proof. intros a d _ Ha. by apply lookup_delete_Some in Ha as [_ ?]. Qed.
Lemma keeps_eq P C C' : C' = C → keeps P C C'.
Proof. intros ->. apply keeps_refl. Qed.
Lemma keeps_insert P C p d : ¬ P (d_slot d) → keeps P C (<[p := d]> C).
Proof.
  intros Hd a d' HP. destruct (decide (a = p)) as [->|Ha].
  - rewrite lookup_insert_eq. by intros [= <-].
  - by rewrite lookup_insert_ne.
Qed.

Lemma slot_counted W T cur L S F s a : rep W T cur L S F → a ∈ L s →
  ∃ d, counted T !! a = Some d ∧ d_slot d = s.
Proof.
  intros R Ha. destruct (rep_slot _ _ _ _ _ _ R _ _ Ha) as (Hs & Hns & (d & Hd & ->)%fmap_Some).
  exists d. split; [|done]. apply counted_Some. split_and!; [done|done|]. intros E. rewrite E in Hs. by destruct Hs.
Qed.

Lemma sent_counted W T cur L S F a : rep W T cur L S F → a ∈ S →
  ∃ d, counted T !! a = Some d ∧ d_slot d = cur.
Proof.
  intros R Ha. destruct (rep_slotS _ _ _ _ _ _ R _ Ha) as (Hs & Hns & (d & Hd & ->)%fmap_Some & _).
  exists d. split; [|done]. apply counted_Some. split_and!; [done|done|]. intros E. rewrite E in Hs. by destruct Hs.
Qed.

(** The timers of a slot are those of its list. *)
Lemma counted_list W T cur L a d : rep W T cur L [] [] → counted T !! a = Some d → a ∈ L (d_slot d).
Proof. intros R Ha. eapply counted_in_list; [by eapply rep_cur|done]. Qed.

Section loops.
Context (P0 : gmap positive (Z * Z * Z)) (g0 : list (positive * Z * Z)) (lim ps lq : Z).
Context (run_callback : Z → Z → TW unit) (Hcb : ∀ a b σ, run_callback a b σ = Some (tt, σ)).
Context (past : option Z) (v : Z) (Hpast : past = Some v).
Context (n : Z) (k : kernel) (st : PonStats).
Implicit Types (x : ErtsTimerWheel) (T : tmap).

Abbreviation phase := (phase P0 g0 lim ps lq).

(** What is known when the work yields. *)
Definition yielded (σ' : tws) : Prop :=
  fired P0 g0 lim (pending (timers σ')) (g_fired σ') ∧ yield_slot (tiw σ') ≠ ERTS_TW_SLOT_INACTIVE.

Lemma ring_fuel_run x T g (Q : nat → tws → Prop) : Q (size T) (mkTws x T n k st g) → wp ring_fuel Q (mkTws x T n k st g).
Proof. done. Qed.

(** ** The timers that are due at once *)

Lemma at_once_next_run lo lp fuel x T L S g yc (Q : progress → tws → Prop) :
  phase (λ _ _, True) lo lp ERTS_TW_SLOT_AT_ONCE x T L S [] g → length S ≤ fuel → (lo ≤ lim)%Z →
  (∀ σ', yielded σ' → Q Yield σ') →
  (∀ x' T' g' yc', phase (λ _ _, True) lo lp ERTS_TW_SLOT_AT_ONCE x' T' L [] [] g' → Q (Done yc') (mkTws x' T' n k st g')) →
  wp (at_once_next run_callback fuel yc) Q (mkTws x T n k st g).
Proof using Hcb.
  intros Hph Hf Hlo HY HD. revert x T S g yc Hph Hf. induction fuel as [|fuel IH]; intros x T S g yc Hph Hf.
  - destruct S; [|simpl in Hf; lia]. cbn [at_once_next]. tw_step.
    eapply sentinel_next_run; [by eapply ph_rep|]. cbn [head]. wp_step. by apply HD.
  - cbn [at_once_next]. tw_step. eapply sentinel_next_run; [by eapply ph_rep|].
    destruct S as [|p S]; cbn [head]; [wp_step; by apply HD|]. simpl in Hf.
    destruct (decide (yc ≤ 0)%Z).
    + tw_step. tw_step. wp_step. apply HY. split; [by eapply ph_fired|done].
    + tw_step. eapply phase_pop_run; [done|]. intros T' Hph' Hc. tw_step.
      destruct (sent_counted _ _ _ _ _ _ p (ph_rep _ _ _ _ _ _ _ _ _ _ _ _ _ _ _ Hph)) as (d & Hd & Hs); [by left|].
      rewrite <- (counted_cores _ _ Hc) in Hd.
      eapply at_once_timer_run; [done|done|done|done| |].
      { destruct (placed_from_inv _ _ _ _ (ph_placed _ _ _ _ _ _ _ _ _ _ _ _ _ _ _ Hph' _ _ Hd))
          as [(_ & H)|[(H & _)|(H & _)]]; [lia|by apply soon_not_at in H|by apply later_not_at in H]. }
      intros x'' T'' g'' Hph'' HC. eapply IH; [done|lia].
Qed.

(** ** The soon wheel *)

Lemma soon_next_run lo lp slot slots fuel x T L S g yc (Q : progress → tws → Prop) :
  phase (group_from 0) lo lp slot x T L S [] g → length S ≤ fuel → soon_ok slot →
  (∀ a d, a ∈ L slot → counted T !! a = Some d → (lim < d_pos d)%Z) →
  (∀ σ', yielded σ' → Q Yield σ') →
  (∀ x' T' L' g' yc', phase (group_from 0) lo lp slot x' T' L' [] [] g' → keeps any_slot (counted T) (counted T') →
    (∀ a d, a ∈ L' slot → counted T' !! a = Some d → (lim < d_pos d)%Z) → Q (Done yc') (mkTws x' T' n k st g')) →
  wp (soon_next run_callback fuel slot slots (scnt_get_ix slot) lim yc) Q (mkTws x T n k st g).
Proof using Hcb.
  intros Hph Hf Hsl Hlate HY HD. revert x T L S g yc Hph Hf Hlate HD.
  induction fuel as [|fuel IH]; intros x T L S g yc Hph Hf Hlate HD.
  - destruct S; [|simpl in Hf; lia]. cbn [soon_next]. tw_step.
    eapply sentinel_next_run; [by eapply ph_rep|]. cbn [head]. wp_step. eapply HD; [done|apply keeps_refl|done].
  - cbn [soon_next]. tw_step. eapply sentinel_next_run; [by eapply ph_rep|].
    destruct S as [|p S]; cbn [head]; [wp_step; eapply HD; [done|apply keeps_refl|done]|]. simpl in Hf.
    destruct (decide (yc ≤ 0)%Z).
    + tw_step. tw_step. wp_step. apply HY. split; [by eapply ph_fired|]. cbn. intros ->. by destruct Hsl.
    + tw_step. eapply phase_pop_run; [done|]. intros T' Hph' Hc. tw_step.
      destruct (sent_counted _ _ _ _ _ _ p (ph_rep _ _ _ _ _ _ _ _ _ _ _ _ _ _ _ Hph)) as (d & Hd & Hs); [by left|].
      rewrite <- (counted_cores _ _ Hc) in Hd, HD, Hlate.
      eapply soon_timer_run; [done|done|done|done|done|..].
      * intros x'' T'' g'' yc'' Hph'' HC. eapply IH; [done|lia| |].
        -- intros a d' Ha. rewrite HC. intros [_ Hd']%lookup_delete_Some. by eapply Hlate.
        -- intros x3 T3 L3 g3 yc3 Hph3 Hk Hl3. eapply HD; [done| |done].
           eapply keeps_trans; [|done]. rewrite HC. apply keeps_delete.
      * intros x'' T'' yc'' Hph'' HC Hlt. eapply IH; [done|lia| |].
        -- intros a d'. rewrite fn_lookup_insert, HC. intros [Ha| ->%list_elem_of_singleton]%elem_of_app; [by apply Hlate|].
           rewrite Hd. by intros [= <-].
        -- intros x3 T3 L3 g3 yc3 Hph3 Hk Hl3. eapply HD; [done| |done]. by rewrite <- HC.
Qed.

(** One slot of the soon wheel. *)
Lemma soon_slot_run lo lp cur slot slots x T L g yc (Q : progress → tws → Prop) :
  phase (group_from 0) lo lp cur x T L [] [] g → soon_ok slot →
  (∀ σ', yielded σ' → Q Yield σ') →
  (∀ x' T' L' g' yc', phase (group_from 0) lo lp slot x' T' L' [] [] g' → keeps any_slot (counted T) (counted T') →
    (∀ a d, counted T' !! a = Some d → d_slot d = slot → (lim < d_pos d)%Z) → Q (Done yc') (mkTws x' T' n k st g')) →
  wp (p ← get_w slot;
      match p with
      | None => mret (Done yc)
      | Some p =>
          detach_slot slot p;;
          yc ← soon_timer run_callback slot (scnt_get_ix slot) lim p yc;
          n ← ring_fuel;
          soon_next run_callback n slot slots (scnt_get_ix slot) lim yc
      end) Q (mkTws x T n k st g).
Proof using Hcb.
  intros Hph Hsl HY HD. pose proof (soon_is_slot _ Hsl) as Hok. pose proof (ph_rep _ _ _ _ _ _ _ _ _ _ _ _ _ _ _ Hph) as R.
  tw_step. tw_step; [done|]. destruct (w x !! slot) as [p|] eqn:Hw.
  2: { wp_step. eapply HD; [|apply keeps_refl|].
    - destruct Hph. split; try done. by eapply rep_cur.
    - intros a d Ha Hd. exfalso. eapply empty_free; [by eapply rep_cur|exact Hok|done|done|done]. }
  destruct (rep_cons _ _ _ _ _ _ _ _ R Hok Hw) as [l HL].
  destruct (slot_counted _ _ _ _ _ _ slot p R) as (d & Hd & Hds); [rewrite HL; by left|].
  tw_step. eapply phase_detach_run; [done|done|done|]. intros x1 T1 Hph1 Hc1.
  rewrite <- (counted_cores _ _ Hc1) in Hd, HD.
  assert (∀ x2 T2 L2 g2 yc2, phase (group_from 0) lo lp slot x2 T2 L2 l [] g2 → keeps any_slot (counted T1) (counted T2) →
    (∀ a d, a ∈ L2 slot → counted T2 !! a = Some d → (lim < d_pos d)%Z) →
    wp (n ← ring_fuel; soon_next run_callback n slot slots (scnt_get_ix slot) lim yc2) Q (mkTws x2 T2 n k st g2)) as Hrest.
  { intros x2 T2 L2 g2 yc2 Hph2 Hk2 Hl2. tw_step. apply ring_fuel_run.
    eapply soon_next_run; [done|by eapply phase_fuel|done|done|done|].
    intros x3 T3 L3 g3 yc3 Hph3 Hk3 Hl3. eapply HD; [done|by eapply keeps_trans|].
    intros a d' Ha Hd'. eapply Hl3; [|done]. rewrite <- Hd'. eapply counted_list; [by eapply ph_rep|done]. }
  tw_step. eapply soon_timer_run; [done|done|done|done|done|..].
  - intros x2 T2 g2 yc2 Hph2 HC. eapply Hrest; [done|rewrite HC; apply keeps_delete|].
    intros a d'. rewrite fn_lookup_insert. by intros ?%elem_of_nil.
  - intros x2 T2 yc2 Hph2 HC Hlt. eapply Hrest; [done|by apply keeps_eq|].
    intros a d'. rewrite !fn_lookup_insert, HC. intros ->%list_elem_of_singleton. rewrite Hd. by intros [= <-].
Qed.

Lemma soon_slots_run lo lp fuel cur j slots x T L g yc (Q : progress → tws → Prop) :
  phase (group_from 0) lo lp cur x T L [] [] g → (0 ≤ slots)%Z → Z.to_nat slots ≤ fuel →
  (∀ a d, counted T !! a = Some d → soon_ok (d_slot d) → (d_pos d ≤ lim)%Z →
    ∃ q, (j ≤ q < j + slots)%Z ∧ d_slot d = soon_slot q) →
  (∀ σ', yielded σ' → Q Yield σ') →
  (∀ cur' x' T' L' g' yc', phase (group_from 0) lo lp cur' x' T' L' [] [] g' → keeps any_slot (counted T) (counted T') →
    (∀ a d, counted T' !! a = Some d → soon_ok (d_slot d) → (lim < d_pos d)%Z) → Q (Done yc') (mkTws x' T' n k st g')) →
  wp (soon_slots past run_callback fuel (soon_slot j) slots (scnt_get_ix (soon_slot j)) lim yc) Q (mkTws x T n k st g).
Proof using Hcb.
  revert cur j slots x T L g yc. induction fuel as [|fuel IH]; intros cur j slots x T L g yc Hph Hsl Hf Hdue HY HD.
  - cbn [soon_slots]. rewrite decide_False by lia. wp_step. eapply HD; [done|apply keeps_refl|].
    intros a d Ha Hs. destruct (decide (lim < d_pos d)%Z) as [|Hle]; [done|].
    destruct (Hdue a d Ha Hs) as (q & Hq & _); lia.
  - cbn [soon_slots]. destruct (decide (0 < slots)%Z) as [Hpos|Hz].
    2: { wp_step. eapply HD; [done|apply keeps_refl|]. intros a d Ha Hs. destruct (decide (lim < d_pos d)%Z) as [|Hle]; [done|].
      destruct (Hdue a d Ha Hs) as (q & Hq & _); lia. }
    cbv zeta. apply wp_bind_assoc. wp_step. eapply soon_slot_run; [done|apply soon_slot_ok| |].
    { intros σ' Hy. wp_step. by apply HY. }
    intros x1 T1 L1 g1 yc1 Hph1 Hk1 Hl1. tw_step. tw_step.
    destruct (soon_next_spec past (bump_scnt x1) (counted T1) j slots 0) as (d & Hd & He & Hn);
      [by eapply ph_bump|done|].
    tw_step. eapply wp_deref; [exact He|]. cbv beta iota. eapply IH; [done|lia|lia| |done|].
    2: { intros cur' x2 T2 L2 g2 yc2 Hph2 Hk2. eapply HD; [done|by eapply keeps_trans]. }
    intros a dd Ha Hs Hle. destruct (Hdue a dd (Hk1 a dd I Ha) Hs Hle) as (q & Hq & Hqs).
    exists q. split; [|done]. destruct (decide (q < j + d)%Z) as [Hlt|]; [|lia]. exfalso.
    destruct (decide (q = j)) as [->|Hqj]; [pose proof (Hl1 a dd Ha Hqs); lia|].
    apply (Hn (q - j)%Z) in Ha; [|lia]. apply Ha. rewrite Hqs. f_equal. lia.
Qed.

(** ** The later wheel *)

(** The timers put back into the list of [slot] are not due for a while. *)
Definition put_back (slot : Z) (L : Z → list positive) (T : tmap) : Prop :=
  ∀ a d, a ∈ L slot → counted T !! a = Some d → d_slot d = slot → (lq + 8192 ≤ d_pos d)%Z.

Lemma put_back_soon slot L T T' s l p d :
  later_ok slot → soon_ok s → put_back slot L T → counted T' = <[p := in_slot s d]> (counted T) →
  put_back slot (<[s := l]> L) T'.
Proof.
  intros Hl Hs Hpb HC a d' Ha. rewrite fn_lookup_insert_ne in Ha by (intros ->; by destruct (soon_not_later _ Hs)).
  rewrite HC. destruct (decide (a = p)) as [->|Hap].
  - rewrite lookup_insert_eq. intros [= <-] E. change (s = slot) in E. subst s. by destruct (soon_not_later _ Hs).
  - rewrite lookup_insert_ne by done. by apply (Hpb a d').
Qed.

(** One timer, and what follows it. *)
Lemma later_step_run lp slot x T g L S p d yc (Q : Z → tws → Prop) :
  phase (group_from 32) ps lp slot x T L S [p] g → counted T !! p = Some d → d_slot d = slot → later_ok slot →
  (ps ≤ lim)%Z → (lp ≤ lq)%Z → put_back slot L T →
  (∀ x' T' L' g' yc', phase (group_from 32) ps lp slot x' T' L' S [] g' → keeps not_soon (counted T) (counted T') →
    put_back slot L' T' → Q yc' (mkTws x' T' n k st g')) →
  wp (later_timer run_callback slot (scnt_get_ix slot) ps p yc) Q (mkTws x T n k st g).
Proof using Hcb.
  intros Hph Hd Hds Hsl Hps Hlp Hpb HQ.
  eapply later_timer_run; [done|done|done|done|done|done|done|..].
  - intros x' T' g' yc' Hph' HC. eapply HQ; [done|rewrite HC; apply keeps_delete|].
    intros a d' Ha. rewrite HC. intros [_ Hd']%lookup_delete_Some. by apply (Hpb a d').
  - intros x' T' yc' Hph' HC Hfar. eapply HQ; [done|by apply keeps_eq|].
    intros a d'. rewrite fn_lookup_insert, HC. intros [Ha| ->%list_elem_of_singleton]%elem_of_app; [by apply (Hpb a d')|].
    rewrite Hd. by intros [= <-].
  - intros x' T' yc' Hph' HC. pose proof (soon_slot_ok (d_pos d)) as Hs. eapply HQ; [done| |].
    + rewrite HC. apply keeps_insert. intros H. by apply H.
    + by eapply put_back_soon.
Qed.

Lemma later_next_run lp slot slots fuel x T L S g yc (Q : progress → tws → Prop) :
  phase (group_from 32) ps lp slot x T L S [] g → length S ≤ fuel → later_ok slot → (ps ≤ lim)%Z → (lp ≤ lq)%Z →
  put_back slot L T → (∀ σ', yielded σ' → Q Yield σ') →
  (∀ x' T' L' g' yc', phase (group_from 32) ps lp slot x' T' L' [] [] g' → keeps not_soon (counted T) (counted T') →
    put_back slot L' T' → Q (Done yc') (mkTws x' T' n k st g')) →
  wp (later_next run_callback fuel slot slots (scnt_get_ix slot) ps yc) Q (mkTws x T n k st g).
Proof using Hcb.
  intros Hph Hf Hsl Hps Hlp Hpb HY HD. revert x T L S g yc Hph Hf Hpb HD.
  induction fuel as [|fuel IH]; intros x T L S g yc Hph Hf Hpb HD.
  - destruct S; [|simpl in Hf; lia]. cbn [later_next]. tw_step.
    eapply sentinel_next_run; [by eapply ph_rep|]. cbn [head]. wp_step. eapply HD; [done|apply keeps_refl|done].
  - cbn [later_next]. tw_step. eapply sentinel_next_run; [by eapply ph_rep|].
    destruct S as [|p S]; cbn [head]; [wp_step; eapply HD; [done|apply keeps_refl|done]|]. simpl in Hf.
    destruct (decide (yc < 0)%Z).
    + tw_step. tw_step. wp_step. apply HY. split; [by eapply ph_fired|]. cbn. intros ->. by destruct Hsl.
    + tw_step. eapply phase_pop_run; [done|]. intros T' Hph' Hc. tw_step.
      destruct (sent_counted _ _ _ _ _ _ p (ph_rep _ _ _ _ _ _ _ _ _ _ _ _ _ _ _ Hph)) as (d & Hd & Hs); [by left|].
      unfold put_back in Hpb. rewrite <- (counted_cores _ _ Hc) in Hd, HD, Hpb.
      eapply later_step_run; [done|done|done|done|done|done|done|].
      intros x2 T2 L2 g2 yc2 Hph2 Hk2 Hpb2. eapply IH; [done|lia|done|].
      intros x3 T3 L3 g3 yc3 Hph3 Hk3 Hl3. eapply HD; [done| |done]. by eapply keeps_trans.
Qed.

(** One slot of the later wheel. *)
Lemma later_slot_run lp cur slot slots x T L g yc (Q : progress → tws → Prop) :
  phase (group_from 32) ps lp cur x T L [] [] g → later_ok slot → (ps ≤ lim)%Z → (lp ≤ lq)%Z →
  (∀ σ', yielded σ' → Q Yield σ') →
  (∀ x' T' L' g' yc', phase (group_from 32) ps lp slot x' T' L' [] [] g' → keeps not_soon (counted T) (counted T') →
    (∀ a d, counted T' !! a = Some d → d_slot d = slot → (lq + 8192 ≤ d_pos d)%Z) → Q (Done yc') (mkTws x' T' n k st g')) →
  wp (p ← get_w slot;
      match p with
      | None => mret (Done yc)
      | Some p =>
          detach_slot slot p;;
          yc ← later_timer run_callback slot (scnt_get_ix slot) ps p yc;
          n ← ring_fuel;
          later_next run_callback n slot slots (scnt_get_ix slot) ps yc
      end) Q (mkTws x T n k st g).
Proof using Hcb.
  intros Hph Hsl Hps Hlp HY HD. pose proof (later_is_slot _ Hsl) as Hok.
  pose proof (ph_rep _ _ _ _ _ _ _ _ _ _ _ _ _ _ _ Hph) as R.
  tw_step. tw_step; [done|]. destruct (w x !! slot) as [p|] eqn:Hw.
  2: { wp_step. eapply HD; [|apply keeps_refl|].
    - destruct Hph. split; try done. by eapply rep_cur.
    - intros a d Ha Hd. exfalso. eapply empty_free; [by eapply rep_cur|exact Hok|done|done|done]. }
  destruct (rep_cons _ _ _ _ _ _ _ _ R Hok Hw) as [l HL].
  destruct (slot_counted _ _ _ _ _ _ slot p R) as (d & Hd & Hds); [rewrite HL; by left|].
  tw_step. eapply phase_detach_run; [done|done|done|]. intros x1 T1 Hph1 Hc1.
  rewrite <- (counted_cores _ _ Hc1) in Hd, HD.
  tw_step. eapply later_step_run; [done|done|done|done|done|done| |].
  { intros a d'. rewrite fn_lookup_insert. by intros ?%elem_of_nil. }
  intros x2 T2 L2 g2 yc2 Hph2 Hk2 Hpb2. tw_step. apply ring_fuel_run.
  eapply later_next_run; [done|by eapply phase_fuel|done|done|done|done|done|].
  intros x3 T3 L3 g3 yc3 Hph3 Hk3 Hpb3. eapply HD; [done|by eapply keeps_trans|].
  intros a d' Ha Hd'. apply (Hpb3 a d'); [|done|done]. rewrite <- Hd'. eapply counted_list; [by eapply ph_rep|done].
Qed.

Lemma later_slots_run lp fuel cur j slots x T L g yc (Q : progress → tws → Prop) :
  phase (group_from 32) ps lp cur x T L [] [] g → (0 ≤ slots)%Z → Z.to_nat slots ≤ fuel → (ps ≤ lim)%Z → (lp ≤ lq)%Z →
  (∀ a d, counted T !! a = Some d → later_ok (d_slot d) → (d_pos d < lq)%Z →
    ∃ q, (j ≤ q < j + slots)%Z ∧ d_slot d = later_slot (8192 * q)) →
  (∀ σ', yielded σ' → Q Yield σ') →
  (∀ cur' x' T' L' g' yc', phase (group_from 32) ps lp cur' x' T' L' [] [] g' → keeps not_soon (counted T) (counted T') →
    (∀ a d, counted T' !! a = Some d → later_ok (d_slot d) → (lq ≤ d_pos d)%Z) → Q (Done yc') (mkTws x' T' n k st g')) →
  wp (later_slots past run_callback fuel ps (later_slot (8192 * j)) slots (scnt_get_ix (later_slot (8192 * j))) yc)
    Q (mkTws x T n k st g).
Proof using Hcb Hpast.
  revert cur j slots x T L g yc. induction fuel as [|fuel IH]; intros cur j slots x T L g yc Hph Hsl Hf Hps Hlp Hdue HY HD.
  - cbn [later_slots]. rewrite decide_False by lia. wp_step. eapply HD; [done|apply keeps_refl|].
    intros a d Ha Hs. destruct (decide (lq ≤ d_pos d)%Z) as [|Hle]; [done|].
    destruct (Hdue a d Ha Hs) as (q & Hq & _); lia.
  - cbn [later_slots]. destruct (decide (0 < slots)%Z) as [Hpos|Hz].
    2: { wp_step. eapply HD; [done|apply keeps_refl|]. intros a d Ha Hs. destruct (decide (lq ≤ d_pos d)%Z) as [|Hle]; [done|].
      destruct (Hdue a d Ha Hs) as (q & Hq & _); lia. }
    cbv zeta. apply wp_bind_assoc. wp_step. eapply later_slot_run; [done|apply later_slot_ok|done|done| |].
    { intros σ' Hy. cbn [later_after]. wp_step. by apply HY. }
    intros x1 T1 L1 g1 yc1 Hph1 Hk1 Hl1. cbn [later_after]. tw_step. tw_step.
    destruct (later_next_spec past v (bump_scnt x1) (counted T1) (8192 * j) slots 0 Hpast) as (d & Hd & He & Hn);
      [by eapply ph_bump|done|].
    tw_step. eapply wp_deref; [exact He|]. cbv beta iota.
    replace (8192 * j + 8192 * d)%Z with (8192 * (j + d))%Z by lia. eapply IH; [done|lia|lia|done|done| |done|].
    2: { intros cur' x2 T2 L2 g2 yc2 Hph2 Hk2. eapply HD; [done|by eapply keeps_trans]. }
    intros a dd Ha Hs Hle. destruct (Hdue a dd (Hk1 a dd (later_not_soon _ Hs) Ha) Hs Hle) as (q & Hq & Hqs).
    exists q. split; [|done]. destruct (decide (q < j + d)%Z) as [Hlt|]; [|lia]. exfalso.
    destruct (decide (q = j)) as [->|Hqj]; [pose proof (Hl1 a dd Ha Hqs); lia|].
    apply (Hn (q - j)%Z) in Ha; [|lia]. apply Ha. rewrite Hqs. f_equal. lia.
Qed.

End loops.
