(* ===== verification/TimerExpiry.v ===== *)
(** [erts_bump_timers] as a whole: when it does not yield, every timer that is due
    has run and the wheel keeps its invariant. *)

From S2P Require Import Prelude PonStats Kernel TimerWheel TimerBump TimerRing TimerInv TimerCounts TimerScan TimerOps TimerSet TimerFind TimerMove TimerSteps TimerLoops.
From stdpp Require Import functions base tactics numbers list gmap fin_maps.
From Stdlib Require Import ZArith Lia.

(** Some position of every stretch of a revolution shares the slot of [p]. *)
Lemma soon_slot_revolution j p : ∃ q, (j ≤ q < j + 16384)%Z ∧ soon_slot p = soon_slot q.
Proof.
  exists (j + (p - j) `mod` 16384)%Z. pose proof (Z.mod_pos_bound (p - j) 16384). split; [lia|].
  rewrite !soon_slot_wslot. unfold wslot. f_equal. rewrite Zplus_mod_idemp_r. f_equal. lia.
Qed.

Lemma later_slot_revolution j p : ∃ q, (j ≤ q < j + 16384)%Z ∧ later_slot p = later_slot (8192 * q).
Proof.
  exists (j + (p / 8192 - j) `mod` 16384)%Z. pose proof (Z.mod_pos_bound (p / 8192 - j) 16384). split; [lia|].
  rewrite !later_slot_wslot. unfold wslot. f_equal. rewrite (Z.mul_comm 8192), Z.div_mul by lia.
  rewrite Zplus_mod_idemp_r. f_equal. lia.
Qed.

Lemma later_slot_aligned p : later_slot p = later_slot (8192 * (p / 8192)).
Proof. rewrite !later_slot_wslot. by rewrite (Z.mul_comm 8192), Z.div_mul. Qed.

(** Slots to visit: those of [n] positions, or a whole revolution. *)
Definition slots_for (n : Z) : Z := if decide (n < 16384)%Z then n else 16384%Z.

Lemma soon_visit j n p : (j ≤ p < j + n)%Z → ∃ q, (j ≤ q < j + slots_for n)%Z ∧ soon_slot p = soon_slot q.
Proof. intros Hp. unfold slots_for. case_decide; [by exists p|apply soon_slot_revolution]. Qed.

Lemma later_visit j n p : (j ≤ p / 8192 < j + n)%Z →
  ∃ q, (j ≤ q < j + slots_for n)%Z ∧ later_slot p = later_slot (8192 * q).
Proof.
  intros Hp. unfold slots_for. case_decide; [|apply later_slot_revolution].
  exists (p / 8192)%Z. split; [done|apply later_slot_aligned].
Qed.

Section expiry.
Context `{K : Kernel} (past : option Z) (v : Z) (Hpast : past = Some v).
Context (run_callback : Z → Z → TW unit) (Hcb : ∀ a b σ, run_callback a b σ = Some (tt, σ)).
Context (P0 : gmap positive (Z * Z * Z)) (g0 : list (positive * Z * Z)) (lim : Z).
Implicit Types (x : ErtsTimerWheel) (T : tmap).

Lemma phase_base ps lq gb lo lp cur x T L g :
  phase P0 g0 lim ps lq gb lo lp cur x T L [] [] g → lo = ps → lp = lq →
  (lq / 8192 * 8192 = lq)%Z → (ps + 8192 < lq ≤ ps + 16384)%Z → wheel_base x T L.
Proof.
  intros [H1 H2 H3 H4 H5 H6 H7 [H8 H8'] H9] -> -> Hal Hlq. split; try done.
  - by eapply rep_cur.
  - unfold placed. by rewrite H8, H8'.
  - by rewrite H8'.
  - by rewrite H8, H8'.
Qed.

Lemma base_phase x T L : wheel_base x T L →
  phase (pending T) g0 lim (pos x) (later_pos x) (λ _ _, True) (pos x) (later_pos x) 0 x T L [] [] g0.
Proof. intros []. split; try done. apply fired_nil. Qed.

(** The wheel is ready: no timer waits at once. *)
Definition settled (x : ErtsTimerWheel) (T : tmap) : Prop :=
  ∃ L, wheel_base x T L ∧ ∀ a d, counted T !! a = Some d → d_slot d ≠ ERTS_TW_SLOT_AT_ONCE.

Lemma settled_at_once x T : settled x T → at_once_nto x = 0%Z.
Proof.
  intros (L & [_ [-> _ _ _] _ _ _ _ _ _] & Hno). apply cnt_none. intros a d Ha. by apply (Hno a).
Qed.

Lemma finish_run x T n k st g : settled x T →
  wp (bump_finish past) (λ _ σ', wheel_ok σ' ∧ timers σ' = T ∧ g_fired σ' = g) (mkTws x T n k st g).
Proof using Hpast.
  intros Hset. pose proof (settled_at_once _ _ Hset) as Hat. destruct Hset as (L & B & Hno).
  unfold bump_finish. tw_step. tw_step. tw_step.
  eapply wp_mono; [eapply find_next_timeout_run; [exact Hpast| |exact Hat]|].
  { destruct B as [B1 [N1 N2 N3 N4] B3 B4 B5 B6 B7 B8]. by split. }
  intros r σ' (x' & -> & Hinv & _ & _). apply arm_run. intros fd dl k' st'. split_and!; [|done|done].
  by apply wheel_inv_canary.
Qed.

Lemma empty_run x T L n k st g bump_to : wheel_base x T L → nto x = 0%Z →
  wp (empty_wheel bump_to) (λ _ σ', wheel_ok σ' ∧ timers σ' = T ∧ g_fired σ' = g ∧ counted T = ∅) (mkTws x T n k st g).
Proof.
  intros [B1 [N1 N2 N3 N4] B3 B4 B5 B6 B7 B8] Hz.
  assert (counted T = ∅) as HC by (apply map_size_empty_iff; lia).
  unfold empty_wheel. tw_step. tw_step. apply arm_run. intros fd dl k' st'. split_and!; [|done|done|done].
  apply wheel_inv_canary. split; cbn.
  - exists L. split; try done; cbn.
    + intros a d. by rewrite HC.
    + unfold later_end_pos. rewrite pos_mask. by rewrite Z.div_mul.
    + unfold later_end_pos. rewrite pos_mask. change ERTS_TW_SOON_WHEEL_SIZE with 16384%Z.
      pose proof (Z.div_mod (bump_to + 16384) 8192). pose proof (Z.mod_pos_bound (bump_to + 16384) 8192). lia.
  - intros a d. by rewrite HC.
  - pose proof week_pos. lia.
  - done.
Qed.

(** The last iteration of the loop. *)
Lemma settle_run x T n k st g f curr yc : settled x T →
  wp (bump_loop past run_callback (S f) curr (pos x) false yc)
    (λ _ σ', wheel_ok σ' ∧ timers σ' = T ∧ g_fired σ' = g) (mkTws x T n k st g).
Proof using Hpast.
  intros Hset. pose proof (settled_at_once _ _ Hset) as Hat. pose proof Hset as (L & B & Hno).
  cbn [bump_loop]. tw_step. tw_step. destruct (decide (nto x = 0)%Z) as [Hz|Hz].
  { eapply wp_mono; [by eapply empty_run|]. naive_solver. }
  tw_step. tw_step; [done|].
  destruct (w x !! ERTS_TW_SLOT_AT_ONCE) as [p|] eqn:Hw.
  { exfalso. destruct (rep_cons _ _ _ _ _ _ ERTS_TW_SLOT_AT_ONCE _ (wb_rep _ _ _ B) ltac:(done) Hw) as [l HL].
    destruct (slot_counted _ _ _ _ _ _ ERTS_TW_SLOT_AT_ONCE p (wb_rep _ _ _ B)) as (d & Hd & Hs); [rewrite HL; by left|].
    by apply (Hno p d). }
  tw_step. wp_step. cbn [after_at_once]. tw_step. tw_step. rewrite decide_True by done. rewrite decide_False by auto.
  by apply finish_run.
Qed.

(** ** The later wheel *)

(** What a call of [erts_bump_timers] has done when it returns. *)
Definition bumped (σ' : tws) : Prop :=
  fired P0 g0 lim (pending (timers σ')) (g_fired σ') ∧
  (yield_slot (tiw σ') ≠ ERTS_TW_SLOT_INACTIVE ∨
   wheel_ok σ' ∧ ∀ a d, pending (timers σ') !! a = Some d → (lim < d.1.1)%Z).

(** The soon wheel has been worked off up to [lim]. *)
Definition soon_done (lq : Z) (x : ErtsTimerWheel) (T : tmap) (g : list (positive * Z * Z)) : Prop :=
  ∃ gb cur L, phase P0 g0 lim lim lq gb lim lq cur x T L [] [] g ∧
    ∀ a d, counted T !! a = Some d → d_slot d ≠ ERTS_TW_SLOT_AT_ONCE.

Lemma pending_counted T a d : pending T !! a = Some d → ∃ d', counted T !! a = Some d' ∧ d'.1 = d.
Proof. unfold pending. rewrite lookup_fmap. intros (d' & Hd & ->)%fmap_Some. eauto. Qed.

(** A wheel whose timers are not due any more has been worked off. *)
Lemma bumped_settled T g σ' :
  fired P0 g0 lim (pending T) g →
  (∀ a d, counted T !! a = Some d → (lim < d_pos d)%Z) →
  wheel_ok σ' ∧ timers σ' = T ∧ g_fired σ' = g → bumped σ'.
Proof.
  intros Hf Hlate (Hok & E1 & E2). unfold bumped. rewrite E1, E2. split; [done|]. right. split; [done|].
  intros a d (d' & Hd & <-)%pending_counted. by apply (Hlate a).
Qed.

Lemma done_settle_run lq x T n k st g f curr yc :
  soon_done lq x T g → (lq / 8192 * 8192 = lq)%Z → (lim + 8192 < lq ≤ lim + 16384)%Z →
  wp (bump_loop past run_callback (S f) curr lim false yc) (λ _, bumped) (mkTws x T n k st g).
Proof using Hpast.
  intros (gb & cur & L & Hph & Hno) Hal Hlq.
  pose proof (phase_base _ _ _ _ _ _ _ _ _ _ Hph eq_refl eq_refl Hal Hlq) as B.
  destruct (ph_clock _ _ _ _ _ _ _ _ _ _ _ _ _ _ _ Hph) as [Hps _]. rewrite <- Hps.
  eapply wp_mono; [apply settle_run; by exists L|]. intros [] σ' Hσ'.
  eapply bumped_settled; [by eapply ph_fired| |done].
  intros a d Ha. destruct (placed_from_inv _ _ _ _ (ph_placed _ _ _ _ _ _ _ _ _ _ _ _ _ _ _ Hph _ _ Ha))
    as [(H & _)|[(_ & _ & H & _)|(_ & _ & H & _)]]; [by apply Hno in Ha|done|lia].
Qed.

Lemma later_end_pos_spec p : (later_end_pos p / 8192 * 8192 = later_end_pos p)%Z ∧
  (p + 8192 < later_end_pos p ≤ p + 16384)%Z.
Proof.
  unfold later_end_pos. rewrite pos_mask. change ERTS_TW_SOON_WHEEL_SIZE with 16384%Z.
  split; [by rewrite Z.div_mul|].
  pose proof (Z.div_mod (p + 16384) 8192). pose proof (Z.mod_pos_bound (p + 16384) 8192). lia.
Qed.

(** The later wheel advances to [lq']. *)
Lemma phase_advance lq lq' gb gb' cur x T L g :
  phase P0 g0 lim lim lq gb lim lq cur x T L [] [] g → gb' (bump_scnt x) (counted T) →
  phase P0 g0 lim lim lq' gb' lim lq cur (x <| later_pos := lq' |>) T L [] [] g.
Proof. intros [H1 [N1 N2 N3 N4] H3 H4 H5 H6 H7 [H8 H8'] H9] Hgb. by split. Qed.

Lemma phase_lp ps lq lp lp' gb lo cur x T L g :
  phase P0 g0 lim ps lq gb lo lp cur x T L [] [] g →
  (∀ a d, counted T !! a = Some d → later_ok (d_slot d) → (lp' ≤ d_pos d)%Z) →
  phase P0 g0 lim ps lq gb lo lp' cur x T L [] [] g.
Proof.
  intros [H1 H2 H3 H4 H5 H6 H7 H8 H9] Hl. split; try done. intros a d Ha.
  destruct (placed_from_inv _ _ _ _ (H5 _ _ Ha)) as [H|[(_ & H)|(Hs & H & _ & Hm)]]; [by left|by right; left|].
  right; right. split_and!; [done|by eapply Hl|done].
Qed.

Lemma bump_later_run lq x T n k st g f curr cur L yc :
  phase P0 g0 lim lim lq (group_from 0) lim lq cur x T L [] [] g →
  (∀ a d, counted T !! a = Some d → d_slot d ≠ ERTS_TW_SLOT_AT_ONCE) →
  (lq / 8192 * 8192 = lq)%Z → (lq ≤ lim + 8192)%Z →
  wp (r ← bump_later_wheel past run_callback yc;
      match r with Yield => mret tt | Done yc => bump_loop past run_callback (S f) curr lim false yc end)
    (λ _, bumped) (mkTws x T n k st g).
Proof using Hpast Hcb.
  intros Hph Hno Hal Hlq. destruct (ph_clock _ _ _ _ _ _ _ _ _ _ _ _ _ _ _ Hph) as [Hps Hlp].
  destruct (later_end_pos_spec lim) as [Hea Heb]. set (e := later_end_pos lim) in *.
  assert (∀ a d, counted T !! a = Some d → later_ok (d_slot d) →
    d_slot d = later_slot (d_pos d) ∧ lq / 8192 ≤ d_pos d / 8192 ∧ later_min_tpos x / 8192 ≤ d_pos d / 8192)%Z as Hlt.
  { intros a d Ha Hs. destruct (placed_from_inv _ _ _ _ (ph_placed _ _ _ _ _ _ _ _ _ _ _ _ _ _ _ Hph _ _ Ha))
      as [(H & _)|[(H & _)|(_ & H & H1 & H2)]]; [by apply Hno in Ha|by apply soon_not_later in H|].
    split_and!; [done|by apply Z.div_le_mono..]. }
  wp_step. unfold bump_later_wheel. tw_step. tw_step. cbv zeta.
  rewrite decide_False by (rewrite (ph_yield _ _ _ _ _ _ _ _ _ _ _ _ _ _ _ Hph); change (¬ (16384 ≤ -2)%Z); lia).
  rewrite Hps, Hlp, pos_mask. fold e. change ERTS_TW_LATER_WHEEL_SLOT_SIZE with 8192%Z.
  change ERTS_TW_LATER_WHEEL_SIZE with 16384%Z.
  set (m := (later_min_tpos x / 8192)%Z) in *. set (b := (lq / 8192)%Z) in *.
  assert (e / 8192 * 8192 = e)%Z as He' by done. set (eb := (e / 8192)%Z) in *.
  destruct (decide _) as [[Hm1 Hm2]|Hnear].
  - tw_step. tw_step. wp_step. eapply (done_settle_run e); [|done|done].
    eexists _, cur, L. split; [|done]. eapply phase_lp; [by eapply (phase_advance _ _ _ (λ _ _, True))|].
    intros a d Ha Hs. destruct (Hlt a d Ha Hs) as (_ & _ & H). pose proof (Z.div_mod (d_pos d) 8192).
    pose proof (Z.mod_pos_bound (d_pos d) 8192). lia.
  - tw_step. tw_step. set (c := Z.max b m).
    assert ((if decide (lq < m * 8192)%Z then (m * 8192)%Z else lq) = 8192 * c)%Z as ->.
    { unfold c. rewrite <- Hal. destruct (decide _); lia. }
    assert (c ≤ eb)%Z as Hce by (unfold c, b in *; lia).
    assert (Z.quot (e - 8192 * c) 8192 = eb - c)%Z as ->.
    { rewrite Z.quot_div_nonneg by lia. rewrite <- He'. replace (eb * 8192 - 8192 * c)%Z with ((eb - c) * 8192)%Z by lia.
      by rewrite Z.div_mul. }
    change (if decide (eb - c < 16384)%Z then (eb - c)%Z else 16384%Z) with (slots_for (eb - c)).
    assert (0 ≤ slots_for (eb - c) ≤ 16384)%Z as Hsl by (unfold slots_for; case_decide; lia).
    eapply later_slots_run with (ps := lim) (lq := e) (lim := lim) (P0 := P0) (g0 := g0) (lp := lq); [done|done|..].
    + eapply phase_advance; [done|]. destruct (ph_bump _ _ _ _ _ _ _ _ _ _ _ _ _ _ _ Hph) as [H1 H2].
      split; [done|]. intros i Hi. apply H2. lia.
    + lia.
    + change (Z.to_nat 16384) with (Z.to_nat 16384). lia.
    + done.
    + lia.
    + intros a d Ha Hs Hd. destruct (Hlt a d Ha Hs) as (Hds & H1 & H2). rewrite Hds. apply later_visit.
      assert (d_pos d / 8192 < eb)%Z by (apply Z.div_lt_upper_bound; lia). unfold c. lia.
    + intros σ' [Hf Hy]. wp_step. split; [done|by left].
    + intros cur' x' T' L' g' yc' Hph' Hk Hl. eapply (done_settle_run e); [|done|done].
      eexists _, cur', L'. split; [by eapply phase_lp|]. intros a d Ha Hat.
      apply (Hno a d); [|done]. apply Hk; [|done]. rewrite Hat. by intros ?%soon_not_at.
Qed.

(** ** The soon wheel *)

(** The timers that are due at once have run. *)
Definition at_once_done (x : ErtsTimerWheel) (T : tmap) (g : list (positive * Z * Z)) : Prop :=
  (∃ L, wheel_base x T L) ∧ fired P0 g0 lim (pending T) g ∧
  ∀ a d, counted T !! a = Some d → d_slot d ≠ ERTS_TW_SLOT_AT_ONCE.

Lemma skip_position_spec x b : (pos x < b)%Z →
  (pos x ≤ skip_position x b < b)%Z ∧ ∀ p, (pos x < p)%Z → (soon_min_tpos x ≤ p)%Z → (skip_position x b < p ∨ b < p)%Z.
Proof.
  intros Hb. unfold skip_position. destruct (decide (soon_min_tpos x > pos x)%Z); [|split; intros; lia].
  cbv zeta. destruct (decide (soon_min_tpos x > b)%Z); destruct (decide _); split; intros; lia.
Qed.

Lemma advance_run x T n k st g f curr yc :
  at_once_done x T g → (pos x < lim)%Z →
  wp (after_at_once past run_callback (bump_loop past run_callback (S f) curr lim false)
        (λ _, bump_finish past) lim (Done yc)) (λ _, bumped) (mkTws x T n k st g).
Proof using Hpast Hcb.
  intros ((L & B) & Hf & Hno) Hlt. cbn [after_at_once]. tw_step. tw_step.
  rewrite decide_False by lia. destruct (decide (nto x = 0)%Z) as [Hz|Hz].
  { eapply wp_mono; [by eapply empty_run|]. intros [] σ' (H1 & H2 & H3 & HC).
    eapply bumped_settled; [done| |done]. intros a d. by rewrite HC. }
  destruct (skip_position_spec x lim Hlt) as [Hfrom Hskip]. cbv zeta. set (from := skip_position x lim) in *.
  change ERTS_TW_SOON_WHEEL_SIZE with 16384%Z.
  change (if decide (lim - from < 16384)%Z then (lim - from)%Z else 16384%Z) with (slots_for (lim - from)).
  assert (0 ≤ slots_for (lim - from) ≤ 16384)%Z as Hsl by (unfold slots_for; case_decide; lia).
  tw_step. tw_step. wp_step.
  pose proof (wb_later _ _ _ B) as Hlp. pose proof (wb_aligned _ _ _ B) as Hal.
  set (x1 := x <| bump_scnt := scnt x |> <| pos := lim |> <| next_timeout_pos := lim |>
               <| next_timeout_time := ERTS_CLKTCKS_TO_MONOTONIC lim |>).
  assert (phase P0 g0 lim lim (later_pos x) (group_from 0) from (later_pos x) 0 x1 T L [] [] g) as Hph.
  { destruct B as [B1 [N1 N2 N3 N4] B3 B4 B5 B6 B7 B8]. split; try done.
    - intros a d Ha. destruct (placed_inv _ _ (B5 _ _ Ha)) as [(H & _)|[(H1 & H2 & H3 & H4)|(H1 & H2 & H3 & H4)]];
        [by apply Hno in Ha| |by right; right].
      right; left. split; [done|]. split; [|done]. destruct (Hskip _ H3 H4); [done|lia].
    - by apply group_counts_from. }
  eapply soon_slots_run with (ps := lim) (lq := later_pos x) (lim := lim) (P0 := P0) (g0 := g0); [done|exact Hph|lia| | | |].
  - change (Z.to_nat ERTS_TW_SOON_WHEEL_SIZE) with (Z.to_nat 16384). lia.
  - intros a d Ha Hs Hd. destruct (placed_from_inv _ _ _ _ (ph_placed _ _ _ _ _ _ _ _ _ _ _ _ _ _ _ Hph _ _ Ha))
      as [(H & _)|[(_ & H2 & H3 & _)|(H & _)]]; [by apply Hno in Ha| |by apply (soon_not_later _ Hs) in H].
    rewrite H2. apply soon_visit. lia.
  - intros σ' [Hf' Hy]. cbn [after_soon]. wp_step. split; [done|by left].
  - intros cur' x' T' L' g' yc' Hph' Hk Hl. cbn [after_soon]. tw_step. tw_step.
    assert (∀ a d, counted T' !! a = Some d → d_slot d ≠ ERTS_TW_SLOT_AT_ONCE) as Hno'.
    { intros a d Ha. apply (Hno a d). by apply Hk. }
    assert (phase P0 g0 lim lim (later_pos x) (group_from 0) lim (later_pos x) cur' x' T' L' [] [] g') as Hph2.
    { destruct Hph' as [H1 H2 H3 H4 H5 H6 H7 H8 H9]. split; try done. intros a d Ha.
      destruct (placed_from_inv _ _ _ _ (H5 _ _ Ha)) as [(H & _)|[(Hs & E1 & E2 & E3)|(Hs & E1 & E2)]];
        [by apply Hno' in Ha| |by right; right].
      right; left. split; [done|]. split; [by eapply Hl|done]. }
    destruct (ph_clock _ _ _ _ _ _ _ _ _ _ _ _ _ _ _ Hph2) as [E1 E2].
    unfold ERTS_TW_BUMP_LATER_WHEEL. rewrite E1, E2. change ERTS_TW_LATER_WHEEL_SLOT_SIZE with 8192%Z.
    destruct (decide (later_pos x ≤ lim + 8192)%Z) as [Hle|Hgt].
    + rewrite bool_decide_true by done. by eapply bump_later_run.
    + rewrite bool_decide_false by done. eapply (done_settle_run (later_pos x)); [|done|lia].
      by exists (group_from 0), cur', L'.
Qed.

End expiry.

(** ** The whole operation *)

Section bump.
Context `{K : Kernel} (past : option Z) (v : Z) (Hpast : past = Some v).
Context (run_callback : Z → Z → TW unit) (Hcb : ∀ a b σ, run_callback a b σ = Some (tt, σ)).

Lemma bump_timers_run σ curr :
  wheel_ok σ →
  let lim := Z.max (ERTS_MONOTONIC_TO_CLKTCKS curr) (pos (tiw σ)) in
  wp (erts_bump_timers past run_callback curr) (λ _, bumped (pending (timers σ)) (g_fired σ) lim) σ.
Proof using Hpast Hcb.
  destruct σ as [x T n k st g]. intros [[L B] Hin Ha Ht] lim. simpl in *.
  unfold erts_bump_timers. cbv zeta. tw_step. tw_step. pose proof (wb_yield _ _ _ B) as Hy.
  rewrite decide_False by (intros Hn; by apply Hn). tw_step. unfold bump_start. tw_step. tw_step. wp_step.
  set (b := ERTS_MONOTONIC_TO_CLKTCKS curr) in *.
  set (x1 := x <| true_next_timeout_time := true |> <| next_timeout_pos := b |>
               <| next_timeout_time := ERTS_CLKTCKS_TO_MONOTONIC b |>).
  assert (wheel_base x1 T L) as B1 by (destruct B as [C1 [N1 N2 N3 N4] C3 C4 C5 C6 C7 C8]; by split).
  clear B Ha Ht Hin. change (pos x) with (pos x1) in *. clearbody x1.
  assert (lim = Z.max b (pos x1)) as Hlim by done. clearbody lim b. clear x Hy. rename x1 into x.
  assert (∃ f, BUMP_FUEL = S (S f)) as [f ->] by by exists 998.
  assert (∃ f1, f1 = S f) as [f1 Ef] by eauto. rewrite <- Ef. cbn [bump_loop]. tw_step. tw_step.
  destruct (decide (nto x = 0)%Z) as [Hz|Hz].
  { eapply wp_mono; [by eapply empty_run|]. intros [] σ' (H1 & H2 & H3 & HC).
    eapply bumped_settled; [apply fired_nil| |done]. intros a d. by rewrite HC. }
  tw_step.
  assert (∀ x' T' g' yc', at_once_done (pending T) g lim x' T' g' → pos x' = pos x →
    wp (after_at_once past run_callback (bump_loop past run_callback f1 curr b false)
          (λ _, bump_finish past) b (Done yc')) (λ _, bumped (pending T) g lim) (mkTws x' T' n k st g')) as Hrest.
  { intros x' T' g' yc' Hdone Hpos. destruct (decide (b ≤ pos x')%Z) as [Hle|Hgt].
    - cbn [after_at_once]. tw_step. tw_step. rewrite decide_True by done. destruct Hdone as ((L' & B') & Hf & Hno).
      assert (settled x' T') as Hset by by exists L'.
      rewrite decide_False by (intros H; by apply H, (settled_at_once _ _ Hset)).
      eapply wp_mono; [by eapply finish_run|]. intros [] σ' Hσ'. eapply bumped_settled; [done| |done].
      intros a d Ha. assert (lim = pos x') as Hlx by lia. rewrite Hlx. pose proof (wb_later _ _ _ B').
      destruct (placed_inv _ _ (wb_placed _ _ _ B' _ _ Ha)) as [(H1 & _)|[(_ & _ & H1 & _)|(_ & _ & H1 & _)]];
        [by apply Hno in Ha|done|lia].
    - assert (b = lim) as -> by lia. rewrite Ef. eapply advance_run; [done|done|done|lia]. }
  assert (∀ x' T' L' g', phase (pending T) g lim (pos x) (later_pos x) (λ _ _, True) (pos x) (later_pos x)
      ERTS_TW_SLOT_AT_ONCE x' T' L' [] [] g' → L' ERTS_TW_SLOT_AT_ONCE = [] →
      at_once_done (pending T) g lim x' T' g' ∧ pos x' = pos x) as Hdone.
  { intros x' T' L' g' Hph HL. split; [split; [|split]|by eapply ph_clock].
    - exists L'. eapply phase_base; [done|done|done|by apply (wb_aligned _ _ _ B1)|by apply (wb_later _ _ _ B1)].
    - by eapply ph_fired.
    - intros a d Ha E. pose proof (counted_list _ _ _ _ _ _ (ph_rep _ _ _ _ _ _ _ _ _ _ _ _ _ _ _ Hph) Ha) as HaL.
      rewrite E, HL in HaL. by apply elem_of_nil in HaL. }
  pose proof (base_phase g lim x T L B1) as Hph.
  pose proof (wb_rep _ _ _ B1) as R. tw_step; [done|]. wp_step.
  destruct (w x !! ERTS_TW_SLOT_AT_ONCE) as [p|] eqn:Hw.
  2: { wp_step. destruct (Hdone x T L g) as [H1 H2]; [| |by apply Hrest].
    - destruct Hph. split; try done. by eapply rep_cur.
    - rewrite (rep_w _ _ _ _ _ _ R) in Hw by done. by destruct (L ERTS_TW_SLOT_AT_ONCE). }
  destruct (rep_cons _ _ _ _ _ _ ERTS_TW_SLOT_AT_ONCE _ R ltac:(done) Hw) as [l HL].
  destruct (slot_counted _ _ _ _ _ _ ERTS_TW_SLOT_AT_ONCE p R) as (d & Hd & Hs); [rewrite HL; by left|].
  tw_step. eapply phase_detach_run; [done|done|done|]. intros x1 T1 Hph1 Hc1.
  rewrite <- (counted_cores _ _ Hc1) in Hd. tw_step.
  eapply at_once_timer_run; [done|done|done|done| |].
  { destruct (placed_inv _ _ (wb_placed _ _ _ B1 p d ltac:(by rewrite <- (counted_cores _ _ Hc1))))
      as [(_ & H)|[(H & _)|(H & _)]]; [lia|by apply soon_not_at in H|by apply later_not_at in H]. }
  intros x2 T2 g2 Hph2 HC. tw_step. apply ring_fuel_run.
  eapply at_once_next_run; [done|done|by eapply phase_fuel|lia| |].
  - intros σ' [Hf Hy]. cbn [after_at_once]. wp_step. split; [done|by left].
  - intros x3 T3 g3 yc3 Hph3. destruct (Hdone _ _ _ _ Hph3) as [H1 H2]; [by rewrite fn_lookup_insert|].
    by apply Hrest.
Qed.

End bump.
