(* ===== verification/TimerThms.v ===== *)
(** What the timer wheel promises: setting and cancelling change a finite map of
    waiting timers, the next timeout is never late, and a time bump runs exactly the
    timers that are due. *)

From S2P Require Import Prelude Ring PonStats Kernel TimerWheel TimerBump TimerRing TimerInv TimerCounts TimerScan TimerOps TimerSet TimerFind TimerMove TimerSteps TimerLoops TimerExpiry.
From stdpp Require Import functions base tactics numbers list gmap fin_maps.
From Stdlib Require Import ZArith Lia.

(** ** Creation and the next timeout *)

Section runs.
Context `{K : Kernel}.

(** No structure in memory is taken for a waiting timer. *)
Definition all_inactive (T : tmap) : Prop :=
  ∀ a t, a ≠ SENTINEL → T !! a = Some t → t_slot t = ERTS_TW_SLOT_INACTIVE.

Lemma wp_upd_timers x T n k st g f (Q : unit → tws → Prop) :
  Q tt (mkTws x (f T) n k st g) → wp (modify (λ σ, σ <| timers ::= f |>)) Q (mkTws x T n k st g).
Proof. done. Qed.

Lemma create_run σ :
  all_inactive (timers σ) → (Z.of_nat (size (timers σ)) + 1 < 2 ^ 62)%Z →
  wp erts_create_timer_wheel (λ _ σ', wheel_ok σ' ∧ pending (timers σ') = ∅ ∧ now σ' = now σ ∧
    dom (timers σ') = {[SENTINEL]} ∪ dom (timers σ)) σ.
Proof.
  destruct σ as [x T n k st g]. intros Hin Hf. simpl in *. unfold erts_create_timer_wheel.
  tw_step. wp_step. cbv zeta. cbn [now]. set (ps := ERTS_MONOTONIC_TO_CLKTCKS n).
  tw_step. tw_step. wp_step. apply wp_upd_timers. tw_step. tw_step.
  apply arm_run. intros fd dl k' st'.
  set (T' := <[SENTINEL := mkErtsTWheelTimer 0 (Some SENTINEL) (Some SENTINEL) 0 0 0]> T).
  assert (counted T' = ∅) as HC.
  { apply map_empty. intros a. apply eq_None_not_Some. intros [d (Hd & Hs & Hi)%counted_Some].
    unfold cores, T' in Hd. rewrite lookup_fmap, lookup_insert_ne in Hd by done.
    apply fmap_Some in Hd as (t & Ht & ->). apply Hi. by eapply Hin. }
  split_and!; [|change (pending T' = ∅); unfold pending; by rewrite HC|done|change (dom T' = {[SENTINEL]} ∪ dom T); unfold T'; by rewrite dom_insert_L].
  apply wheel_inv_canary. assert (link T' SENTINEL SENTINEL) as Hl by (unfold rlink, nx, pv, T'; by rewrite lookup_insert_eq).
  assert (few (cores T')) as Hfew.
  { unfold few, cores, T'. rewrite map_size_fmap, map_size_insert.
    destruct (T !! SENTINEL); cbn; lia. }
  clearbody T'. split; cbn.
  - exists (λ _, []). destruct (later_end_pos_spec ps) as [He1 He2]. split; cbn; try done.
    + split; [done|intros s; apply rring_nil|by apply rring_one|intros s; apply NoDup_nil_2|apply NoDup_nil_2
        |by intros s a ?%elem_of_nil|by intros a ?%elem_of_nil|by intros a ?%elem_of_nil|].
      intros a d Ha Hd Hi. assert (counted T' !! a = Some d) as H by by apply counted_Some. by rewrite HC in H.
    + rewrite HC. split; try done. split; [done|]. intros i Hi. apply lookup_replicate. split; [done|].
      by change (Z.to_nat ERTS_TW_SCNT_SIZE) with 64.
    + by rewrite HC.
    + intros a d. by rewrite HC.
  - intros a d. by rewrite HC.
  - pose proof week_pos. lia.
  - done.
Qed.

Lemma check_next_run past v σ : past = Some v → wheel_ok σ →
  wp (erts_check_next_timeout_time past) (λ r σ', wheel_ok σ' ∧ timers σ' = timers σ ∧ g_fired σ' = g_fired σ ∧
    r = next_timeout_time (tiw σ')) σ.
Proof.
  intros Hpast. destruct σ as [x T n k st g]. intros Hok. pose proof Hok as [[L B] Hin Ha Ht]. simpl in *.
  assert (∀ k' st', wheel_ok (mkTws x T n k' st' g)) as Hsame by done.
  unfold erts_check_next_timeout_time. tw_step. tw_step. destruct (true_next_timeout_time x) eqn:Ef; [by wp_step|].
  destruct (decide _); [by wp_step|].
  assert (at_once_nto x = 0%Z) as Hat.
  { destruct (wb_counts _ _ _ B) as [-> _ _ _]. apply cnt_none. intros a d Hd E.
    destruct (Hin _ _ Hd) as [_ H]. by rewrite (H E) in Ef. }
  wp_step. eapply (wp_mono _ (λ b σ', σ' = mkTws x T n k st g)).
  { unfold pon_timer_wheel_can_skip_scan, tw_fails. tw_step. tw_step. destruct (decide _); [by wp_step|].
    wp_steps. destruct (sys_fails _ _); by wp_steps. }
  intros b ? ->. destruct b; unfold inc_tw_stat; wp_steps; [done|].
  eapply wp_mono; [by eapply find_next_timeout_run|]. intros r σ' (x' & -> & Hinv & Hr & _). done.
Qed.

End runs.

(** ** The search does not depend on what lies behind the counts *)

Lemma scnt_skip_past v v' c first end_slot fuel slot ix left :
  length c = 64 → end_slot = 32768%Z → (0 ≤ first < 32768)%Z → (0 ≤ ix)%Z → (left ≤ 0 ∨ ix < 64)%Z →
  (0 < left → 512 * ix ≤ slot < 512 * ix + 512)%Z →
  scnt_skip (Some v) c first end_slot fuel slot ix left = scnt_skip (Some v') c first end_slot fuel slot ix left.
Proof.
  intros Hc -> Hfirst. revert slot ix left. induction fuel as [|fuel IH]; intros slot ix left Hix0 Hix Hslot.
  - cbn [scnt_skip]. unfold mbind, option_bind. destruct (c !! Z.to_nat ix) as [u|] eqn:E; [done|].
    apply lookup_ge_None in E. destruct Hix as [Hl|Hi]; [|lia]. by rewrite !decide_False by lia.
  - cbn [scnt_skip]. unfold mbind, option_bind. destruct (c !! Z.to_nat ix) as [u|] eqn:E.
    2: { apply lookup_ge_None in E. destruct Hix as [Hl|Hi]; [|lia]. by rewrite !decide_False by lia. }
    destruct (decide (u = 0 ∧ 0 < left)%Z) as [[_ Hl]|]; [|done]. specialize (Hslot Hl).
    rewrite !Z.shiftl_mul_pow2 by done. change (2 ^ ERTS_TW_SCNT_BITS)%Z with 512%Z.
    assert (ix < 64)%Z as Hi by (destruct Hix; lia).
    destruct (decide (left < _)%Z) as [Hd|Hd].
    + rewrite !decide_True by lia. apply IH; [lia|left; lia|lia].
    + destruct (decide (_ < 32768)%Z).
      * apply IH; [lia|right; lia|lia].
      * pose proof (scnt_ix_range first Hfirst). apply IH; [lia|right; lia|].
        intros _. rewrite scnt_get_ix_div. pose proof (Z.div_mod first 512). pose proof (Z.mod_pos_bound first 512). lia.
Qed.

(** ** Concrete wheels *)

Definition raw_timer : ErtsTWheelTimer := mkErtsTWheelTimer 0 None None 0 0 ERTS_TW_SLOT_INACTIVE.
Definition raw_wheel : ErtsTimerWheel := mkErtsTimerWheel ∅ [] [] 0 0 0 0 0 0 0 0 0 0 0 false 0 0 0 0.
Definition raw_state (l : list positive) : tws :=
  mkTws raw_wheel (list_to_map ((λ a, (a, raw_timer)) <$> l)) 0 (mkKernel ∅ ∅ ∅ ∅ 0) pon_stats_zero [].
Definition run_state (m : TW unit) (σ : tws) : tws := match m σ with Some (_, σ') => σ' | None => σ end.
Definition no_callback : Z → Z → TW unit := λ _ _, mret tt.

(** A new wheel, with one timer set, and with three. *)
Definition wheel0 : tws := run_state erts_create_timer_wheel (raw_state [2; 3; 4]%positive).
Definition wheel1 : tws := run_state (erts_twheel_set_timer 2 7 8 20) wheel0.
Definition wheel2 : tws := run_state (erts_twheel_set_timer 3 7 9 30000) wheel1.

Lemma run_state_wp (m : TW unit) (Q : tws → Prop) σ : wp m (λ _ σ', Q σ') σ → Q (run_state m σ).
Proof. unfold wp, run_state. destruct (m σ) as [[[] σ']|]; done. Qed.

Lemma raw_inactive l : all_inactive (timers (raw_state l)).
Proof.
  intros a t _ Ha. cbn in Ha. apply elem_of_list_to_map_2, list_elem_of_fmap in Ha as (b & [= -> ->] & _). done.
Qed.

Lemma wheel0_ok : wheel_ok wheel0.
Proof.
  unfold wheel0. apply (run_state_wp _ wheel_ok). eapply wp_mono; [apply create_run; [apply raw_inactive|by vm_compute]|]. naive_solver.
Qed.

Lemma set_ok p timeout arg tpos d0 σ :
  wheel_ok σ → cores (timers σ) !! p = Some d0 → d_slot d0 = ERTS_TW_SLOT_INACTIVE → p ≠ SENTINEL →
  wheel_ok (run_state (erts_twheel_set_timer p timeout arg tpos) σ).
Proof. intros. apply (run_state_wp _ wheel_ok). eapply wp_mono; [by eapply set_timer_run|]. naive_solver. Qed.

Lemma wheel1_ok : wheel_ok wheel1.
Proof. unfold wheel1. eapply set_ok; [apply wheel0_ok|by vm_compute|done|done]. Qed.
Lemma wheel2_ok : wheel_ok wheel2.
Proof. unfold wheel2. eapply set_ok; [apply wheel1_ok|by vm_compute|done|done]. Qed.

(** ** The properties *)

(** C28: a new wheel satisfies the invariant (lists, counts, positions and the next
    timeout agree) and holds no timer, whatever the memory it was allocated in. *)
Theorem create_wheel_well_formed `{K : Kernel} σ :
  all_inactive (timers σ) → (Z.of_nat (size (timers σ)) + 1 < 2 ^ 62)%Z →
  ∃ σ', erts_create_timer_wheel σ = Some (tt, σ') ∧ wheel_ok σ' ∧ pending (timers σ') = ∅.
Proof.
  intros Hin Hf. destruct (wp_elim _ _ _ (create_run σ Hin Hf)) as ([] & σ' & E & H). naive_solver.
Qed.

Theorem create_wheel_well_formed_witness :
  ∃ σ', erts_create_timer_wheel (raw_state [2; 3]%positive) = Some (tt, σ') ∧ wheel_ok σ' ∧ pending (timers σ') = ∅.
Proof. apply create_wheel_well_formed; [apply raw_inactive|by vm_compute]. Defined.

(** C21: setting an inactive timer succeeds, keeps the invariant, and adds exactly
    that timer, at its position or, when that has passed, at the current one. *)
Theorem set_timer_inserts `{K : Kernel} σ p timeout arg tpos t :
  wheel_ok σ → timers σ !! p = Some t → t_slot t = ERTS_TW_SLOT_INACTIVE → p ≠ SENTINEL →
  ∃ σ', erts_twheel_set_timer p timeout arg tpos σ = Some (tt, σ') ∧ wheel_ok σ' ∧
    pending (timers σ') = <[p := (Z.max tpos (pos (tiw σ)), timeout, arg)]> (pending (timers σ)).
Proof.
  intros Hok Hp Hi Hps. assert (cores (timers σ) !! p = Some (data_of t)) as Hc by (unfold cores; by rewrite lookup_fmap, Hp).
  destruct (wp_elim _ _ _ (set_timer_run σ p timeout arg tpos _ Hok Hc Hi Hps)) as ([] & σ' & E & H). naive_solver.
Qed.

Theorem set_timer_inserts_witness :
  ∃ σ', erts_twheel_set_timer 2 7 8 20 wheel0 = Some (tt, σ') ∧ wheel_ok σ' ∧
    pending (timers σ') = <[2%positive := (Z.max 20 (pos (tiw wheel0)), 7, 8)%Z]> (pending (timers wheel0)).
Proof. eapply set_timer_inserts; [apply wheel0_ok|by vm_compute|done|done]. Defined.

(** C22: cancelling a timer, waiting or not, succeeds, keeps the invariant, and
    removes exactly that timer; excluded is a wheel in which timers wait at once
    while the minimum of the later wheel is stale in a particular way. *)
Theorem cancel_timer_deletes σ p t :
  wheel_ok σ → timers σ !! p = Some t → p ≠ SENTINEL → ¬ stale_minimum (tiw σ) →
  ∃ σ', erts_twheel_cancel_timer p σ = Some (tt, σ') ∧ wheel_ok σ' ∧
    pending (timers σ') = delete p (pending (timers σ)).
Proof.
  intros Hok Hp Hps Hst. destruct (wp_elim _ _ _ (cancel_timer_run σ p Hok ltac:(by exists t) Hps Hst)) as ([] & σ' & E & H).
  naive_solver.
Qed.

Theorem cancel_timer_deletes_witness :
  ∃ σ', erts_twheel_cancel_timer 2 wheel2 = Some (tt, σ') ∧ wheel_ok σ' ∧
    pending (timers σ') = delete 2%positive (pending (timers wheel2)).
Proof.
  eapply cancel_timer_deletes; [apply wheel2_ok|by vm_compute|done|].
  intros [H _]. by vm_compute in H.
Defined.

(** C16: the next timeout is never late: the time returned, exact or taken from
    the timerfd canary, is not after the time of any waiting timer (or the time of
    the current position, for a timer that is already due), nor before that of the
    current position. It fits in 64 bits when those times do. *)
Theorem next_timeout_not_late `{K : Kernel} v σ :
  wheel_ok σ → ∃ r σ', erts_check_next_timeout_time (Some v) σ = Some (r, σ') ∧
    wheel_ok σ' ∧ timers σ' = timers σ ∧ (ERTS_CLKTCKS_TO_MONOTONIC (pos (tiw σ')) ≤ r)%Z ∧
    ∀ a p to ar, pending (timers σ) !! a = Some (p, to, ar) →
      (r ≤ ERTS_CLKTCKS_TO_MONOTONIC (Z.max p (pos (tiw σ'))))%Z ∧
      (0 ≤ pos (tiw σ') → p ≤ ERTS_MAX_CLKTCKS → pos (tiw σ') ≤ ERTS_MAX_CLKTCKS → 0 ≤ r ≤ ERTS_MONOTONIC_TIME_MAX)%Z.
Proof.
  intros Hok. destruct (wp_elim _ _ _ (check_next_run (Some v) v σ eq_refl Hok)) as (r & σ' & E & Hok' & HT & _ & Hr).
  pose proof Hok' as [[L B] Hin Ha Ht].
  assert (Hm : ERTS_MONOTONIC_TIME_MAX = 9223372036854775807%Z ∧ ERTS_MAX_CLKTCKS = 9223372036854%Z) by (by vm_compute).
  assert (Hc : ∀ q, ERTS_CLKTCKS_TO_MONOTONIC q = (q * 1000000)%Z) by done.
  exists r, σ'. rewrite E, Hr, Ht, !Hc.
  split_and!; [done|done|done|lia|]. intros a p to ar. rewrite <- HT. intros (d & Hd & Hd1)%pending_counted.
  destruct (Hin _ _ Hd) as [Hq _]. assert (d_pos d = p) as Hp by (unfold d_pos; by rewrite Hd1).
  assert (next_timeout_pos (tiw σ') ≤ Z.max p (pos (tiw σ')))%Z as Hle.
  { destruct (placed_inv _ _ (wb_placed _ _ _ B _ _ Hd)) as [(H & _)|[(H & _)|(H & _)]].
    - rewrite trigger_at in Hq by done. lia.
    - rewrite trigger_soon in Hq by done. lia.
    - rewrite trigger_later in Hq by done. pose proof (Z.div_mod p 8192). pose proof (Z.mod_pos_bound p 8192). rewrite Hp in Hq. lia. }
  rewrite !Hc. lia.
Qed.

Theorem next_timeout_not_late_witness :
  ∃ r σ', erts_check_next_timeout_time (Some 0%Z) wheel2 = Some (r, σ') ∧ timers σ' = timers wheel2 ∧
    pending (timers wheel2) !! 2%positive = Some (20, 7, 8)%Z ∧
    (r ≤ ERTS_CLKTCKS_TO_MONOTONIC (Z.max 20 (pos (tiw σ'))))%Z.
Proof.
  destruct (next_timeout_not_late 0 wheel2) as (r & σ' & E & _ & HT & _ & H); [apply wheel2_ok|].
  exists r, σ'. split; [exact E|]. split; [exact HT|].
  assert (Hp : pending (timers wheel2) !! 2%positive = Some (20, 7, 8)%Z) by (vm_compute; reflexivity).
  split; [exact Hp|]. by apply (H 2%positive 20%Z 7%Z 8%Z).
Defined.

(** C3: a time bump with callbacks that leave the wheel alone terminates; the
    timers it has run were waiting and due, each has run once with its callback and
    argument, and all others still wait. Unless it yields, the invariant holds
    again and no waiting timer is due. *)
Theorem bump_runs_due_timers `{K : Kernel} v run_callback σ curr :
  (∀ a b σ, run_callback a b σ = Some (tt, σ)) → wheel_ok σ →
  let lim := Z.max (ERTS_MONOTONIC_TO_CLKTCKS curr) (pos (tiw σ)) in
  ∃ σ' fs, erts_bump_timers (Some v) run_callback curr σ = Some (tt, σ') ∧
    g_fired σ' = g_fired σ ++ (fire_of <$> fs) ∧ NoDup fs.*1 ∧
    (∀ a d, (a, d) ∈ fs → pending (timers σ) !! a = Some d ∧ (d.1.1 ≤ lim)%Z) ∧
    (∀ a, pending (timers σ') !! a = if decide (a ∈ fs.*1) then None else pending (timers σ) !! a) ∧
    (yield_slot (tiw σ') ≠ ERTS_TW_SLOT_INACTIVE ∨
     wheel_ok σ' ∧ ∀ a d, pending (timers σ') !! a = Some d → (lim < d.1.1)%Z).
Proof.
  intros Hcb Hok lim.
  destruct (wp_elim _ _ _ (bump_timers_run (Some v) v eq_refl run_callback Hcb σ curr Hok))
    as ([] & σ' & E & (fs & H1 & H2 & H3 & H4) & H5).
  exists σ', fs. done.
Qed.

Theorem bump_runs_due_timers_witness :
  let lim := Z.max (ERTS_MONOTONIC_TO_CLKTCKS 25000000) (pos (tiw wheel2)) in
  ∃ σ' fs, erts_bump_timers (Some 0%Z) no_callback 25000000 wheel2 = Some (tt, σ') ∧
    g_fired σ' = g_fired wheel2 ++ (fire_of <$> fs) ∧ NoDup fs.*1 ∧
    (∀ a d, (a, d) ∈ fs → pending (timers wheel2) !! a = Some d ∧ (d.1.1 ≤ lim)%Z) ∧
    (∀ a, pending (timers σ') !! a = if decide (a ∈ fs.*1) then None else pending (timers wheel2) !! a) ∧
    (yield_slot (tiw σ') ≠ ERTS_TW_SLOT_INACTIVE ∨
     wheel_ok σ' ∧ ∀ a d, pending (timers σ') !! a = Some d → (lim < d.1.1)%Z).
Proof. apply bump_runs_due_timers; [done|apply wheel2_ok]. Defined.

(** C34: a wakeup can be lost: after these calls a timer waits at once, at the
    current position, but the next timeout is the one of another timer, 11.808
    seconds later; the cancellation of a timer of the later wheel whose stale
    minimum coincides with the current position marked the next timeout as inexact. *)
Theorem cancel_loses_at_once_timer :
  ∃ σ r, (erts_create_timer_wheel;;
    erts_twheel_set_timer 2 0 0 20000;;
    erts_twheel_set_timer 3 0 0 (20000 + 16384 * 8192);;
    erts_twheel_set_timer 4 0 0 200000;;
    modify (λ σ, σ <| now := 8192000000%Z |>);;
    erts_bump_timers None no_callback 8192000000;;
    erts_twheel_set_timer 5 0 0 8000;;
    erts_twheel_cancel_timer 3;;
    erts_check_next_timeout_time None) (raw_state [2; 3; 4; 5]%positive) = Some (r, σ) ∧
  pending (timers σ) !! 5%positive = Some (8192, 0, 0)%Z ∧ pos (tiw σ) = 8192%Z ∧
  r = ERTS_CLKTCKS_TO_MONOTONIC 20000.
Proof.
  match goal with |- ∃ σ r, ?m ?s = _ ∧ _ => destruct (m s) as [[r σ]|] eqn:E; [exists σ, r|] end.
  - split; [done|]. revert E. vm_compute. intros [= <- <-]. done.
  - by vm_compute in E.
Qed.

(** The search of the later wheel reads one word behind the array of counts
    when the last group is empty and fewer slots are left than it has; the word
    never matters. *)
Theorem later_search_overreads :
  (∀ v v' c slot left ps, length c = 64 → (16384 ≤ slot < 32768)%Z → (0 < left)%Z →
    scnt_later_wheel_next (Some v) slot left ps c = scnt_later_wheel_next (Some v') slot left ps c) ∧
  scnt_later_wheel_next None 32700 3 0 (replicate 64 0%Z) = None.
Proof.
  split; [|by vm_compute]. intros v v' c slot left ps Hc Hs Hl.
  unfold scnt_later_wheel_next, scnt_wheel_next. cbv zeta.
  change ERTS_TW_LATER_WHEEL_FIRST_SLOT with 16384%Z. change ERTS_TW_LATER_WHEEL_END_SLOT with 32768%Z.
  set (s := if decide _ then _ else _).
  assert (16384 ≤ s < 32768)%Z as Hs' by (unfold s; case_decide; lia).
  rewrite (scnt_skip_past v v'); [done|done|done|done|by apply scnt_ix_range; lia| |].
  - right. apply scnt_ix_range. lia.
  - intros _. rewrite scnt_get_ix_div. pose proof (Z.div_mod s 512). pose proof (Z.mod_pos_bound s 512). lia.
Qed.
