(* ===== verification/HashTable.v ===== *)
(** Model of the chained hash tables of [erts/emulator/beam/hash.c] and
    [hash.h], on which the tables of atoms, modules and exported functions are
    built: buckets linked through the stored objects, a vector of chain heads
    that doubles and halves with the load, and Fibonacci hashing. *)

From S2P Require Import Prelude.
From stdpp Require Import base numbers list gmap strings.
From Stdlib Require Import ZArith.

(** ** The callbacks of a table ([HashFunctions])

    [O] is the content of an object behind its [HashBucket] head. The client
    supplies the hash and compare functions and the contents that [alloc]
    gives to an object made from a template; [obj_addr] and [meta_alloc] are
    the addresses of new objects and blocks when the blocks at [used] are
    allocated. Neither allocation ever returns null: the emulator exits
    when it is out of memory. *)
Class HashFunctions (O : Type) : Type := {
  fun_hash : O → Z;
  fun_cmp : O → O → Z;
  fun_alloc : O → O;
  obj_addr : gset positive → positive;
  meta_alloc : gset positive → Z → positive
}.

(** What a table relies on: the objects have keys, equal keys compare as 0 and
    hash alike, [alloc] keeps the key of the template, and new blocks are
    fresh. *)
Class HashLaws (O K : Type) (F : HashFunctions O) (key : O → K) : Prop := {
  cmp_key x y : fun_cmp x y = 0%Z ↔ key x = key y;
  hash_key x y : key x = key y → fun_hash x = fun_hash y;
  hash_word x : (0 ≤ fun_hash x < 2 ^ 64)%Z;
  alloc_key x : key (fun_alloc x) = key x;
  obj_addr_fresh used : obj_addr used ∉ used;
  meta_alloc_fresh used sz : meta_alloc used sz ∉ used
}.

Definition MAX_SHIFT : Z := 64.        (* ERTS_SIZEOF_TERM * 8 *)
Definition PTR_SIZE : Z := 8.
Definition SIZEOF_HASH : Z := 104.    (* in the 64-bit build *)

(** The value of an [int] expression; signed overflow is undefined. *)
Definition int_expr {St} (z : Z) : M St Z := if decide (s32 z = z) then mret z else ub.

(** ** Data *)

Record Hash : Type := mkHash {
  is_allocated : bool;
  meta_alloc_type : Z;
  h_name : string;
  shift : Z;                      (* int *)
  max_shift : Z;                  (* int *)
  shrink_threshold : Z;           (* int *)
  grow_threshold : Z;             (* int *)
  nobjs : Z;                      (* int *)
  bucket : option positive        (* the vector of chain heads *)
}.

#[global] Instance Hash_eta : Eta Hash := λ h, mkHash (is_allocated h) (meta_alloc_type h)
  (h_name h) (shift h) (max_shift h) (shrink_threshold h) (grow_threshold h) (nobjs h) (bucket h).

Record HashInfo : Type := mkHashInfo {
  hi_name : string;
  hi_size : Z;
  hi_used : Z;
  hi_objs : Z;
  hi_depth : Z
}.

(** [hash_get_slots] *)
Definition hash_get_slots (h : Hash) : Z := s32 (u64 (Z.shiftl 1 (MAX_SHIFT - shift h))).

(** [hash_get_slot]: Fibonacci hashing. *)
Definition hash_get_slot (h : Hash) (hv : Z) : Z :=
  let hv := Z.lxor hv (Z.shiftr hv (shift h)) in
  Z.shiftr (u64 (11400714819323198485 * hv)%Z) (shift h).

(** [hash_table_sz] *)
Definition hash_table_sz (h : Hash) : Z :=
  let name_len := (Z.of_nat (String.length (h_name h)) + 1)%Z in
  s32 (SIZEOF_HASH + hash_get_slots h * PTR_SIZE + name_len).

(** [while ((1 << shift) < size) shift++]; a shift by 64 is undefined. *)
Fixpoint init_shift (n : nat) (sh size : Z) : option Z :=
  match n with
  | O => None
  | S n' => if decide (Z.shiftl 1 sh < u64 size)%Z then init_shift n' (sh + 1) size else Some sh
  end.

Section hash.
Context {O : Type} {F : HashFunctions O}.

Record HashBucket : Type := mkHashBucket {
  next : option positive;
  hvalue : Z;                     (* HashValue *)
  obj : O                         (* the object behind the bucket *)
}.

#[global] Instance HashBucket_eta : Eta HashBucket := λ b, mkHashBucket (next b) (hvalue b) (obj b).

(** The table structures, the objects and the bucket vectors by address. *)
Record hs : Type := mkHs {
  tabs : gmap positive Hash;
  objs : gmap positive HashBucket;
  vecs : gmap positive (list (option positive))
}.

#[global] Instance hs_eta : Eta hs := λ σ, mkHs (tabs σ) (objs σ) (vecs σ).

Abbreviation HM A := (M hs A).

(** ** Memory accesses *)

Definition hs_used (σ : hs) : gset positive := dom (tabs σ) ∪ dom (objs σ) ∪ dom (vecs σ).

Definition load_h (h : positive) : HM Hash := σ ← get; deref (tabs σ !! h).
Definition upd_h (h : positive) (f : Hash → Hash) : HM unit :=
  _ ← load_h h; modify (λ σ, σ <| tabs ::= alter f h |>).
Definition load_b (b : positive) : HM HashBucket := σ ← get; deref (objs σ !! b).
Definition upd_b (b : positive) (f : HashBucket → HashBucket) : HM unit :=
  _ ← load_b b; modify (λ σ, σ <| objs ::= alter f b |>).

(** [v[ix]] *)
Definition get_vec (v : positive) (ix : Z) : HM (option positive) :=
  σ ← get; l ← deref (vecs σ !! v);
  if decide (0 ≤ ix)%Z then deref (l !! Z.to_nat ix) else ub.
Definition set_vec (v : positive) (ix : Z) (p : option positive) : HM unit :=
  _ ← get_vec v ix; modify (λ σ, σ <| vecs ::= alter (λ l, <[Z.to_nat ix := p]> l) v |>).

(** [h->bucket[ix]] *)
Definition get_bucket (h : positive) (ix : Z) : HM (option positive) :=
  t ← load_h h; v ← deref (bucket t); get_vec v ix.
Definition set_bucket (h : positive) (ix : Z) (p : option positive) : HM unit :=
  t ← load_h h; v ← deref (bucket t); set_vec v ix p.

(** [fun.meta_alloc] of a vector of [sz] bytes and its [memzero]. *)
Definition meta_alloc_vec (sz : Z) : HM positive :=
  σ ← get;
  let v := meta_alloc (hs_used σ) (u64 sz) in
  _ ← modify (λ σ, σ <| vecs ::= <[v := replicate (Z.to_nat (u64 sz / PTR_SIZE)) None]> |>);
  mret v.
Definition meta_free_vec (v : option positive) : HM unit :=
  a ← deref v; σ ← get; _ ← deref (vecs σ !! a); modify (λ σ, σ <| vecs ::= delete a |>).

(** [fun.alloc(tmpl)] and [fun.free(b)]; the links of a new object are not set. *)
Definition obj_alloc (tmpl : O) : HM positive :=
  σ ← get;
  let b := obj_addr (hs_used σ) in
  _ ← modify (λ σ, σ <| objs ::= <[b := mkHashBucket None 0 (fun_alloc tmpl)]> |>);
  mret b.
Definition obj_free (b : positive) : HM unit :=
  _ ← load_b b; modify (λ σ, σ <| objs ::= delete b |>).

(** ** Sizes *)

Definition set_thresholds (h : positive) : HM unit :=
  t ← load_h h;
  x ← int_expr (8 * hash_get_slots t);
  _ ← upd_h h (λ t, t <| grow_threshold := Z.quot x 5 |>);
  t ← load_h h;
  if decide (shift t < max_shift t)%Z
  then upd_h h (λ t, t <| shrink_threshold := Z.quot (hash_get_slots t) 5 |>)
  else upd_h h (λ t, t <| shrink_threshold := (-1)%Z |>).

Definition hash_init (type : Z) (h : positive) (name : string) (size : Z) : HM positive :=
  sh ← deref (init_shift 63 1 size);
  _ ← modify (λ σ, σ <| tabs ::=
        <[h := mkHash false type name (MAX_SHIFT - sh) (MAX_SHIFT - sh) 0 0 0 None]> |>);
  _ ← set_thresholds h;
  t ← load_h h;
  v ← meta_alloc_vec (s32 (u64 (hash_get_slots t * PTR_SIZE)));
  _ ← upd_h h (λ t, t <| bucket := Some v |>);
  mret h.

Definition hash_new (type : Z) (name : string) (size : Z) : HM positive :=
  σ ← get;
  let h := meta_alloc (hs_used σ) SIZEOF_HASH in
  h ← hash_init type h name size;
  _ ← upd_h h (λ t, t <| is_allocated := true |>);
  mret h.

(** The loop of [rehash] over one old chain. *)
Fixpoint rehash_chain (fuel : nat) (h new_bucket : positive) (b : option positive) : HM unit :=
  match b, fuel with
  | None, _ => mret tt
  | Some _, 0 => ub
  | Some a, S fuel' =>
      x ← load_b a;
      let b_next := next x in
      t ← load_h h;
      let ix := hash_get_slot t (hvalue x) in
      p ← get_vec new_bucket ix;
      _ ← upd_b a (λ x, x <| next := p |>);
      _ ← set_vec new_bucket ix (Some a);
      rehash_chain fuel' h new_bucket b_next
  end.

Definition rehash_shift (h : positive) (grow : bool) : HM bool :=
  t ← load_h h;
  if grow then (_ ← upd_h h (λ t, t <| shift := (shift t - 1)%Z |>); mret true)
  else if decide (shift t = max_shift t) then mret false
  else (_ ← upd_h h (λ t, t <| shift := (shift t + 1)%Z |>); mret true).

Definition rehash (h : positive) (grow : bool) : HM unit :=
  t ← load_h h;
  let old_size := hash_get_slots t in
  go ← rehash_shift h grow;
  if negb go then mret tt else
  t ← load_h h;
  new_bucket ← meta_alloc_vec (s32 (u64 (hash_get_slots t * PTR_SIZE)));
  _ ← for_range (λ i,
        b ← get_bucket h (Z.of_nat i);
        σ ← get;
        rehash_chain (size (objs σ)) h new_bucket b) 0 (Z.to_nat old_size);
  t ← load_h h;
  _ ← meta_free_vec (bucket t);
  _ ← upd_h h (λ t, t <| bucket := Some new_bucket |>);
  set_thresholds h.

(** ** Look-up, insertion and removal *)

(** The search loop shared by the operations: the first object of the chain
    that matches the template, with the object before it. *)
Fixpoint chain_find (fuel : nat) (tmpl : O) (hval : Z) (prev b : option positive) :
    HM (option (option positive * positive)) :=
  match b, fuel with
  | None, _ => mret None
  | Some _, 0 => ub
  | Some a, S fuel' =>
      x ← load_b a;
      if decide (hvalue x = hval ∧ fun_cmp tmpl (obj x) = 0%Z)
      then mret (Some (prev, a))
      else chain_find fuel' tmpl hval (Some a) (next x)
  end.

Definition bucket_find (h : positive) (tmpl : O) : HM (option (option positive * positive)) :=
  let hval := fun_hash tmpl in
  t ← load_h h;
  b ← get_bucket h (hash_get_slot t hval);
  σ ← get;
  chain_find (size (objs σ)) tmpl hval None b.

Definition hash_fetch (h : positive) (tmpl : O) : HM (option positive) :=
  r ← bucket_find h tmpl;
  mret (snd <$> r).

Definition hash_get (h : positive) (tmpl : O) : HM (option positive) := hash_fetch h tmpl.

(** [if (++h->nobjs > h->grow_threshold) rehash(h, 1)] *)
Definition count_added (h : positive) : HM unit :=
  t ← load_h h;
  n ← int_expr (nobjs t + 1);
  _ ← upd_h h (λ t, t <| nobjs := n |>);
  if decide (grow_threshold t < n)%Z then rehash h true else mret tt.

Definition hash_put (h : positive) (tmpl : O) : HM positive :=
  let hval := fun_hash tmpl in
  t ← load_h h;
  let ix := hash_get_slot t hval in
  r ← bucket_find h tmpl;
  match r with
  | Some (_, b) => mret b
  | None =>
      b ← obj_alloc tmpl;
      _ ← upd_b b (λ x, x <| hvalue := hval |>);
      p ← get_bucket h ix;
      _ ← upd_b b (λ x, x <| next := p |>);
      _ ← set_bucket h ix (Some b);
      _ ← count_added h;
      mret b
  end.

(** [prev->next = b->next] or [h->bucket[ix] = b->next] *)
Definition bucket_unlink (h : positive) (ix : Z) (prev : option positive) (b : positive) : HM unit :=
  x ← load_b b;
  match prev with
  | Some q => upd_b q (λ y, y <| next := next x |>)
  | None => set_bucket h ix (next x)
  end.

(** [if (--h->nobjs < h->shrink_threshold) rehash(h, 0)] *)
Definition count_removed (h : positive) : HM unit :=
  t ← load_h h;
  n ← int_expr (nobjs t - 1);
  _ ← upd_h h (λ t, t <| nobjs := n |>);
  if decide (n < shrink_threshold t)%Z then rehash h false else mret tt.

(** Whether the template is returned. *)
Definition hash_erase (h : positive) (tmpl : O) : HM bool :=
  t ← load_h h;
  let ix := hash_get_slot t (fun_hash tmpl) in
  r ← bucket_find h tmpl;
  match r with
  | Some (prev, b) =>
      _ ← bucket_unlink h ix prev b;
      _ ← obj_free b;
      _ ← count_removed h;
      mret true
  | None => mret false
  end.

Definition hash_remove (h : positive) (tmpl : O) : HM (option positive) :=
  t ← load_h h;
  let ix := hash_get_slot t (fun_hash tmpl) in
  r ← bucket_find h tmpl;
  match r with
  | Some (prev, b) =>
      _ ← bucket_unlink h ix prev b;
      _ ← count_removed h;
      mret (Some b)
  | None => mret None
  end.

(** ** Traversals *)

(** The objects of a chain in order, each passed to [func] before its link
    is read. *)
Fixpoint chain_foreach (fuel : nat) (func : positive → HM unit) (b : option positive) : HM unit :=
  match b, fuel with
  | None, _ => mret tt
  | Some _, 0 => ub
  | Some a, S fuel' =>
      _ ← func a; x ← load_b a; chain_foreach fuel' func (next x)
  end.

(** [func] does not change the size of the table. *)
Definition hash_foreach (h : positive) (func : positive → HM unit) : HM unit :=
  t ← load_h h;
  for_range (λ i,
    b ← get_bucket h (Z.of_nat i);
    σ ← get; chain_foreach (size (objs σ)) func b) 0 (Z.to_nat (hash_get_slots t)).

Fixpoint chain_delete (fuel : nat) (b : option positive) : HM unit :=
  match b, fuel with
  | None, _ => mret tt
  | Some _, 0 => ub
  | Some a, S fuel' =>
      x ← load_b a; let b_next := next x in _ ← obj_free a; chain_delete fuel' b_next
  end.

Definition hash_delete (h : positive) : HM unit :=
  t ← load_h h;
  _ ← for_range (λ i,
        b ← get_bucket h (Z.of_nat i);
        σ ← get; chain_delete (size (objs σ)) b) 0 (Z.to_nat (hash_get_slots t));
  t ← load_h h;
  _ ← meta_free_vec (bucket t);
  if is_allocated t then modify (λ σ, σ <| tabs ::= delete h |>) else mret tt.

Fixpoint chain_depth (fuel : nat) (b : option positive) (depth : Z) : HM Z :=
  match b, fuel with
  | None, _ => mret depth
  | Some _, 0 => ub
  | Some a, S fuel' => x ← load_b a; chain_depth fuel' (next x) (depth + 1)
  end.

(** The loop of [hash_get_info] over the slots from [i], with [used] and [max_depth]. *)
Fixpoint info_slots (n : nat) (h : positive) (i used max_depth : Z) : HM (Z * Z) :=
  match n with
  | 0 => mret (used, max_depth)
  | S n' =>
      b ← get_bucket h i; σ ← get; depth ← chain_depth (size (objs σ)) b 0;
      if decide (depth = 0%Z) then info_slots n' h (i + 1) used max_depth
      else info_slots n' h (i + 1) (used + 1) (if decide (max_depth < depth)%Z then depth else max_depth)
  end.

Definition hash_get_info (h : positive) : HM HashInfo :=
  t ← load_h h;
  '(used, max_depth) ← info_slots (Z.to_nat (hash_get_slots t)) h 0 0 0;
  mret (mkHashInfo (h_name t) (hash_get_slots t) used (nobjs t) max_depth).

End hash.
