(* ===== verification/HashInv.v ===== *)
(** The invariant of the hash tables, the rules of their memory accesses, and
    rehashing. A table is described by the map from keys to the addresses of
    the stored objects. *)

From stdpp Require Import base numbers list gmap strings.
From Stdlib Require Import ZArith Lia.
From S2P Require Import Prelude HashTable.

(** ** Definitions *)

Definition bits (t : Hash) : Z := (MAX_SHIFT - shift t)%Z.

(** The sizes for which no [int] expression of a table overflows. *)
Definition MAX_BITS : Z := 27.
Definition MAX_OBJS : Z := 214748364.  (* the grow threshold at 2^27 slots *)

Definition thresholds_ok (t : Hash) : Prop :=
  grow_threshold t = (8 * 2 ^ bits t / 5)%Z ∧
  shrink_threshold t = (if decide (shift t < max_shift t) then 2 ^ bits t / 5 else -1)%Z.

Section defs.
Context {O K : Type} {F : HashFunctions O} {key : O → K} `{Countable K}.

Definition nxt (ob : gmap positive (HashBucket (O:=O))) (a : positive) : option (option positive) :=
  next <$> ob !! a.

(** [p] heads a null-terminated chain of exactly the objects in [P]. *)
Definition chain (ob : gmap positive HashBucket) (p : option positive) (P : positive → Prop) : Prop :=
  ∃ l, lseg (nxt ob) p l None ∧ NoDup l ∧ ∀ a, a ∈ l ↔ P a.

(** The object at [a] is in the table and belongs to slot [j]. *)
Definition in_slot (ob : gmap positive HashBucket) (t : Hash) (am : gmap K positive) (j : nat)
    (a : positive) : Prop :=
  ∃ x, ob !! a = Some x ∧ am !! key (obj x) = Some a ∧ hash_get_slot t (hvalue x) = Z.of_nat j.

Definition keyed (ob : gmap positive HashBucket) (am : gmap K positive) : Prop :=
  ∀ k a, am !! k = Some a → ∃ x, ob !! a = Some x ∧ key (obj x) = k ∧ hvalue x = fun_hash (obj x).

(** The vector [v] at [bv] of table [t] at [h] and its chains; [T] and [V] are
    the other tables and vectors. *)
Record shape (T : gmap positive Hash) (V : gmap positive (list (option positive))) (σ : hs)
    (h : positive) (t : Hash) (bv : positive) (v : list (option positive))
    (am : gmap K positive) : Prop := {
  sh_tabs : tabs σ = <[h := t]> T;
  sh_new_tab : T !! h = None;
  sh_bucket : bucket t = Some bv;
  sh_vecs : vecs σ = <[bv := v]> V;
  sh_new_vec : V !! bv = None;
  sh_len : length v = Z.to_nat (2 ^ bits t);
  sh_bits : (1 ≤ MAX_SHIFT - max_shift t ≤ bits t)%Z ∧ (bits t ≤ MAX_BITS)%Z;
  sh_keyed : keyed (objs σ) am;
  sh_chains : ∀ j p, v !! j = Some p → chain (objs σ) p (in_slot (objs σ) t am j)
}.

Definition in_table (am : gmap K positive) (a : positive) : Prop := ∃ k, am !! k = Some a.

(** The table at [h] stores the objects [am], by key; [D] are the other objects. *)
Definition hash_ok (T : gmap positive Hash) (V : gmap positive (list (option positive)))
    (D : gset positive) (σ : hs) (h : positive) (am : gmap K positive) : Prop :=
  ∃ t bv v, shape T V σ h t bv v am ∧ thresholds_ok t ∧ nobjs t = Z.of_nat (size am) ∧
            (nobjs t ≤ grow_threshold t)%Z ∧
            (∀ a, is_Some (objs σ !! a) ↔ in_table am a ∨ a ∈ D) ∧ (∀ a, in_table am a → a ∉ D).

End defs.

(** ** Slots *)

Lemma hash_get_slots_pow t : (1 ≤ bits t ≤ MAX_BITS)%Z → hash_get_slots t = (2 ^ bits t)%Z.
Proof.
  unfold hash_get_slots, bits, MAX_BITS. intros Hb. rewrite Z.shiftl_1_l.
  assert (2 ^ (MAX_SHIFT - shift t) ≤ 2 ^ 27)%Z by (apply Z.pow_le_mono_r; lia).
  assert (0 < 2 ^ (MAX_SHIFT - shift t))%Z by (apply Z.pow_pos_nonneg; lia).
  rewrite wrapu_small by lia. apply wraps_small; lia.
Qed.

Lemma pow_bits_range b : (1 ≤ b ≤ MAX_BITS)%Z → (2 ≤ 2 ^ b ≤ 134217728)%Z.
Proof.
  unfold MAX_BITS. intros Hb. split.
  - change 2%Z with (2 ^ 1)%Z at 1. apply Z.pow_le_mono_r; lia.
  - change 134217728%Z with (2 ^ 27)%Z. apply Z.pow_le_mono_r; lia.
Qed.

(** Every hash value belongs to a slot of the vector. *)
Lemma hash_get_slot_range t hv :
  (1 ≤ bits t ≤ MAX_BITS)%Z → (0 ≤ hash_get_slot t hv < 2 ^ bits t)%Z.
Proof.
  unfold bits, MAX_BITS, MAX_SHIFT. intros Hb. unfold hash_get_slot.
  rewrite Z.shiftr_div_pow2 by lia.
  set (x := (11400714819323198485 * _)%Z). pose proof (wrapu_range 64 x ltac:(lia)) as Hx.
  assert (2 ^ 64 = 2 ^ (64 - shift t) * 2 ^ shift t)%Z as He.
  { rewrite <- Z.pow_add_r by lia. f_equal. lia. }
  assert (0 < 2 ^ shift t)%Z by (apply Z.pow_pos_nonneg; lia).
  split; [apply Z.div_pos; lia|]. apply Z.div_lt_upper_bound; [lia|].
  lia.
Qed.

Lemma slot_lookup {A} (v : list A) t hv :
  (1 ≤ bits t ≤ MAX_BITS)%Z → length v = Z.to_nat (2 ^ bits t) →
  ∃ p, v !! Z.to_nat (hash_get_slot t hv) = Some p.
Proof.
  intros Hb Hl. apply lookup_lt_is_Some_2. pose proof (hash_get_slot_range t hv Hb). lia.
Qed.

(** ** Chains *)

Section chains.
Context {O : Type}.
Implicit Types ob : gmap positive (HashBucket (O:=O)).
Implicit Types P : positive → Prop.

Lemma lseg_nxt_mapped ob p l a : lseg (nxt ob) p l None → a ∈ l → is_Some (ob !! a).
Proof.
  revert p. induction l as [|c l IH]; intros p; [set_solver|].
  intros (-> & p' & Hn & Hl) [->|Ha]%elem_of_cons; [|by eapply IH].
  unfold nxt in Hn. destruct (ob !! c); [done|discriminate].
Qed.

Lemma lseg_fuel ob p l : lseg (nxt ob) p l None → NoDup l → length l ≤ size ob.
Proof. intros Hl Hnd. apply nodup_fuel; [done|]. intros a. by eapply lseg_nxt_mapped. Qed.

Lemma bchain_frame ob ob' p P P' :
  chain ob p P → (∀ a, P a → nxt ob' a = nxt ob a) → (∀ a, P' a ↔ P a) → chain ob' p P'.
Proof.
  intros (l & Hl & Hnd & HP) Hn HP'. exists l. split; [|split; [done|]].
  - eapply lseg_frame; [|done]. intros a Ha. apply Hn. by apply HP.
  - intros a. by rewrite HP'.
Qed.

Lemma chain_push ob ob' p P P' a :
  chain ob p P → ¬ P a → nxt ob' a = Some p → (∀ c, P c → nxt ob' c = nxt ob c) →
  (∀ c, P' c ↔ c = a ∨ P c) → chain ob' (Some a) P'.
Proof.
  intros (l & Hl & Hnd & HP) Ha Hna Hn HP'. exists (a :: l). split; [|split].
  - split; [done|]. exists p. split; [done|]. eapply lseg_frame; [|done].
    intros c Hc. apply Hn. by apply HP.
  - apply NoDup_cons. split; [|done]. by rewrite HP.
  - intros c. by rewrite HP', elem_of_cons, HP.
Qed.

Lemma chain_nil ob P : (∀ a, ¬ P a) → chain ob None P.
Proof. intros HP. exists []. split; [done|]. split; [constructor|]. set_solver. Qed.

(** Unlinking [a] behind [q]: [q] gets the link of [a]. *)
Lemma chain_unlink_mid ob ob' p l1 q a l2 :
  lseg (nxt ob) p (l1 ++ q :: a :: l2) None → NoDup (l1 ++ q :: a :: l2) →
  nxt ob' q = nxt ob a → (∀ c, c ∈ l1 ++ l2 → nxt ob' c = nxt ob c) →
  lseg (nxt ob') p (l1 ++ q :: l2) None.
Proof.
  intros (r & H1 & -> & p1 & Hq & -> & p2 & Ha & H2)%lseg_app Hnd Hq' Hc.
  apply lseg_app. exists (Some q). split.
  - eapply lseg_frame; [|done]. intros c Hin. apply Hc. set_solver.
  - split; [done|]. exists p2. rewrite Hq'. split; [done|].
    eapply lseg_frame; [|done]. intros c Hin. apply Hc. set_solver.
Qed.

End chains.

(** ** Rules of the memory accesses *)

Section rules.
Context {O : Type} {F : HashFunctions O}.
Implicit Types σ : hs (O:=O).

Lemma wp_load_h h t (Q : Hash → hs → Prop) σ : tabs σ !! h = Some t → Q t σ → wp (load_h h) Q σ.
Proof. intros Ht HQ. unfold load_h. by wp_steps. Qed.

Lemma wp_upd_h h f t (Q : unit → hs → Prop) σ :
  tabs σ !! h = Some t → Q tt (mkHs (<[h := f t]> (tabs σ)) (objs σ) (vecs σ)) → wp (upd_h h f) Q σ.
Proof.
  intros Ht HQ. unfold upd_h. wp_step. eapply wp_load_h; [done|]. apply wp_modify.
  change (Q tt (mkHs (alter f h (tabs σ)) (objs σ) (vecs σ))).
  replace (alter f h (tabs σ)) with (<[h := f t]> (tabs σ)); [done|].
  symmetry. rewrite <- (insert_id (tabs σ) h t) at 1 by done. by rewrite alter_insert_eq.
Qed.

Lemma wp_load_b a x (Q : HashBucket → hs → Prop) σ : objs σ !! a = Some x → Q x σ → wp (load_b a) Q σ.
Proof. intros Ht HQ. unfold load_b. by wp_steps. Qed.

Lemma wp_upd_b a f x (Q : unit → hs → Prop) σ :
  objs σ !! a = Some x → Q tt (mkHs (tabs σ) (<[a := f x]> (objs σ)) (vecs σ)) → wp (upd_b a f) Q σ.
Proof.
  intros Ht HQ. unfold upd_b. wp_step. eapply wp_load_b; [done|]. apply wp_modify.
  change (Q tt (mkHs (tabs σ) (alter f a (objs σ)) (vecs σ))).
  replace (alter f a (objs σ)) with (<[a := f x]> (objs σ)); [done|].
  symmetry. rewrite <- (insert_id (objs σ) a x) at 1 by done. by rewrite alter_insert_eq.
Qed.

Lemma wp_get_vec bv ix v p (Q : option positive → hs → Prop) σ :
  vecs σ !! bv = Some v → (0 ≤ ix)%Z → v !! Z.to_nat ix = Some p → Q p σ → wp (get_vec bv ix) Q σ.
Proof.
  intros Hv Hix Hp HQ. unfold get_vec. wp_steps.
  rewrite decide_True by done. by eapply wp_deref.
Qed.

Lemma wp_set_vec bv ix v p p0 (Q : unit → hs → Prop) σ :
  vecs σ !! bv = Some v → (0 ≤ ix)%Z → v !! Z.to_nat ix = Some p0 →
  Q tt (mkHs (tabs σ) (objs σ) (<[bv := <[Z.to_nat ix := p]> v]> (vecs σ))) →
  wp (set_vec bv ix p) Q σ.
Proof.
  intros Hv Hix Hp HQ. unfold set_vec. wp_step. eapply wp_get_vec; [done..|]. apply wp_modify.
  change (Q tt (mkHs (tabs σ) (objs σ) (alter (λ l, <[Z.to_nat ix := p]> l) bv (vecs σ)))).
  replace (alter _ bv (vecs σ)) with (<[bv := <[Z.to_nat ix := p]> v]> (vecs σ)); [done|].
  symmetry. rewrite <- (insert_id (vecs σ) bv v) at 1 by done. by rewrite alter_insert_eq.
Qed.

Lemma wp_hash_get_bucket h t bv ix v p (Q : option positive → hs → Prop) σ :
  tabs σ !! h = Some t → bucket t = Some bv → vecs σ !! bv = Some v → (0 ≤ ix)%Z →
  v !! Z.to_nat ix = Some p → Q p σ → wp (get_bucket h ix) Q σ.
Proof.
  intros Ht Hb Hv Hix Hp HQ. unfold get_bucket. wp_step. eapply wp_load_h; [done|].
  wp_step. eapply wp_deref; [done|]. by eapply wp_get_vec.
Qed.

Lemma hash_wp_set_bucket h t bv ix v p p0 (Q : unit → hs → Prop) σ :
  tabs σ !! h = Some t → bucket t = Some bv → vecs σ !! bv = Some v → (0 ≤ ix)%Z →
  v !! Z.to_nat ix = Some p0 →
  Q tt (mkHs (tabs σ) (objs σ) (<[bv := <[Z.to_nat ix := p]> v]> (vecs σ))) →
  wp (set_bucket h ix p) Q σ.
Proof.
  intros Ht Hb Hv Hix Hp HQ. unfold set_bucket. wp_step. eapply wp_load_h; [done|].
  wp_step. eapply wp_deref; [done|]. by eapply wp_set_vec.
Qed.

Lemma wp_int_expr z (Q : Z → hs → Prop) σ : (-2^31 ≤ z < 2^31)%Z → Q z σ → wp (int_expr z) Q σ.
Proof. intros Hz HQ. unfold int_expr. rewrite decide_True; [done|]. apply wraps_small; lia. Qed.

Lemma wp_meta_free_vec bv v (Q : unit → hs → Prop) σ :
  vecs σ !! bv = Some v → Q tt (mkHs (tabs σ) (objs σ) (delete bv (vecs σ))) →
  wp (meta_free_vec (Some bv)) Q σ.
Proof. intros Hv HQ. unfold meta_free_vec. by wp_steps. Qed.

Lemma wp_obj_free a x (Q : unit → hs → Prop) σ :
  objs σ !! a = Some x → Q tt (mkHs (tabs σ) (delete a (objs σ)) (vecs σ)) → wp (obj_free a) Q σ.
Proof. intros Hx HQ. unfold obj_free. wp_step. eapply wp_load_b; [done|]. by apply wp_modify. Qed.

Lemma wp_set_thresholds h t (Q : unit → hs → Prop) σ :
  tabs σ !! h = Some t → (1 ≤ bits t ≤ MAX_BITS)%Z →
  (∀ t', shift t' = shift t → max_shift t' = max_shift t → bucket t' = bucket t → nobjs t' = nobjs t →
     is_allocated t' = is_allocated t → thresholds_ok t' →
     Q tt (mkHs (<[h := t']> (tabs σ)) (objs σ) (vecs σ))) →
  wp (set_thresholds h) Q σ.
Proof.
  intros Ht Hb HQ. unfold set_thresholds. pose proof (pow_bits_range _ Hb) as Hr.
  wp_step. eapply wp_load_h; [done|]. rewrite hash_get_slots_pow by done.
  wp_step. eapply wp_int_expr; [lia|]. wp_step. eapply wp_upd_h; [done|]. simpl.
  wp_step. eapply wp_load_h; [apply lookup_insert_eq|]. simpl.
  assert (Z.quot (8 * 2 ^ bits t) 5 = 8 * 2 ^ bits t / 5)%Z as -> by (apply Z.quot_div_nonneg; lia).
  assert (∀ t1, shift t1 = shift t → Z.quot (hash_get_slots t1) 5 = 2 ^ bits t / 5)%Z as Hq.
  { intros t1 Hs. assert (bits t1 = bits t) as Hb1 by (unfold bits; lia).
    rewrite hash_get_slots_pow, Hb1 by (rewrite Hb1; done). apply Z.quot_div_nonneg; lia. }
  case_decide as Hs; (eapply wp_upd_h; [apply lookup_insert_eq|]); simpl; rewrite insert_insert_eq;
    apply HQ; try done; (split; [done|]); simpl.
  - rewrite decide_True by done. by apply Hq.
  - by rewrite decide_False by done.
Qed.

End rules.
