(* ===== verification/HashRehash.v ===== *)
(** Rehashing: every object moves to the chain of its new slot, none is lost
    and no content changes. *)

From stdpp Require Import base numbers list gmap strings sets.
From Stdlib Require Import ZArith Lia.
From S2P Require Import Prelude HashTable HashInv.

Section rehash.
Context {O K : Type} {F : HashFunctions O} {key : O → K} `{Countable K} {L : HashLaws O K F key}.
Implicit Types ob : gmap positive (HashBucket (O:=O)).
Implicit Types am : gmap K positive.
Implicit Types σ : hs (O:=O).

(** What rehashing keeps of an object. *)
Definition core (x : HashBucket (O:=O)) : Z * O := (hvalue x, obj x).

(** The objects [dn] have been moved to the new vector [nb] of table [t],
    those of [σ1] outside [dn] are as they were. *)
Record moved σ1 (t : Hash) (nb : positive) (dn : gset positive) σ : Prop := {
  mv_tabs : tabs σ = tabs σ1;
  mv_vecs : ∃ nv, vecs σ = <[nb := nv]> (vecs σ1) ∧ length nv = Z.to_nat (2 ^ bits t) ∧
    ∀ j p, nv !! j = Some p →
      chain (objs σ) p (λ a, a ∈ dn ∧ ∃ x, objs σ !! a = Some x ∧ hash_get_slot t (hvalue x) = Z.of_nat j);
  mv_rest : ∀ a, a ∉ dn → objs σ !! a = objs σ1 !! a;
  mv_core : core <$> objs σ = core <$> objs σ1
}.

Lemma core_lookup ob ob' a x :
  core <$> ob = core <$> ob' → ob !! a = Some x →
  ∃ x', ob' !! a = Some x' ∧ hvalue x' = hvalue x ∧ obj x' = obj x.
Proof.
  intros Hc Hx. apply (f_equal (lookup a)) in Hc. rewrite !lookup_fmap, Hx in Hc. simpl in Hc.
  destruct (ob' !! a) as [x'|]; [|discriminate]. exists x'. injection Hc. auto.
Qed.

Lemma core_upd_next ob a x p :
  ob !! a = Some x → core <$> <[a := x <| next := p |>]> ob = core <$> ob.
Proof.
  intros Hx. rewrite fmap_insert. apply insert_id. by rewrite lookup_fmap, Hx.
Qed.

Lemma core_keyed ob ob' am : core <$> ob = core <$> ob' → keyed (key:=key) ob am → keyed (key:=key) ob' am.
Proof.
  intros Hc Hk k a Ha. destruct (Hk k a Ha) as (x & Hx & Hkx & Hhx).
  destruct (core_lookup _ _ _ _ Hc Hx) as (x' & Hx' & Hh & Ho). exists x'.
  by rewrite Ho, Hh.
Qed.

Lemma core_is_Some ob ob' a : core <$> ob = core <$> ob' → is_Some (ob !! a) ↔ is_Some (ob' !! a).
Proof.
  intros Hc. rewrite <- (fmap_is_Some core (ob !! a)), <- (fmap_is_Some core (ob' !! a)).
  by rewrite <- !lookup_fmap, Hc.
Qed.

(** Moving one object. *)
Lemma moved_one σ1 t nb dn σ a x nv p ix :
  moved σ1 t nb dn σ → a ∉ dn → objs σ !! a = Some x → vecs σ = <[nb := nv]> (vecs σ1) →
  length nv = Z.to_nat (2 ^ bits t) →
  (∀ j p, nv !! j = Some p → chain (objs σ) p
     (λ a, a ∈ dn ∧ ∃ x, objs σ !! a = Some x ∧ hash_get_slot t (hvalue x) = Z.of_nat j)) →
  hash_get_slot t (hvalue x) = ix → (0 ≤ ix)%Z → nv !! Z.to_nat ix = Some p →
  moved σ1 t nb (dn ∪ {[a]})
    (mkHs (tabs σ) (<[a := x <| next := p |>]> (objs σ)) (<[nb := <[Z.to_nat ix := Some a]> nv]> (vecs σ))).
Proof.
  intros Hm Ha Hx Hv Hlen Hch Hix Hpos Hp. constructor; simpl.
  - apply Hm.
  - exists (<[Z.to_nat ix := Some a]> nv). rewrite Hv, insert_insert_eq, length_insert.
    split; [done|]. split; [done|]. intros j q Hq.
    assert (∀ c, c ∈ dn → <[a := x <| next := p |>]> (objs σ) !! c = objs σ !! c) as Hne.
    { intros c Hc. rewrite lookup_insert_ne; [done|]. by intros ->. }
    destruct (decide (j = Z.to_nat ix)) as [->|Hj].
    + rewrite list_lookup_insert_eq in Hq by (by eapply lookup_lt_Some). injection Hq as <-.
      eapply chain_push; [by apply (Hch (Z.to_nat ix))|naive_solver| | |].
      * unfold nxt. by rewrite lookup_insert_eq.
      * intros c [Hc _]. unfold nxt. by rewrite Hne.
      * intros c. rewrite elem_of_union, elem_of_singleton. split.
        -- intros [[Hc|Hc] Hs]; [right; split; [done|]; by rewrite Hne in Hs|by left].
        -- intros [->|[Hc Hs]].
           ++ split; [by right|]. exists (x <| next := p |>). rewrite lookup_insert_eq.
              split; [done|]. simpl. lia.
           ++ split; [by left|]. by rewrite Hne.
    + rewrite list_lookup_insert_ne in Hq by done.
      eapply bchain_frame; [by apply Hch| |].
      * intros c [Hc _]. unfold nxt. by rewrite Hne.
      * intros c. rewrite elem_of_union, elem_of_singleton. split.
        -- intros [[Hc| ->] Hs]; [by rewrite Hne in Hs|]. exfalso.
           destruct Hs as (y & Hy & Hj'). rewrite lookup_insert_eq in Hy. injection Hy as <-.
           simpl in Hj'. lia.
        -- intros [Hc Hs]. split; [by left|]. by rewrite Hne.
  - intros c Hc. rewrite lookup_insert_ne by set_solver. apply Hm. set_solver.
  - etrans; [by apply (core_upd_next (objs σ))|apply Hm].
Qed.

Lemma rehash_chain_moves σ1 h t nb l :
  tabs σ1 !! h = Some t → (1 ≤ bits t ≤ MAX_BITS)%Z →
  ∀ b dn σ fuel, length l ≤ fuel → moved σ1 t nb dn σ → lseg (nxt (objs σ1)) b l None → NoDup l →
    (∀ a, a ∈ l → a ∉ dn) →
    wp (rehash_chain fuel h nb b) (λ _ σ', moved σ1 t nb (dn ∪ list_to_set l) σ') σ.
Proof.
  intros Ht Hb. induction l as [|a l IH]; intros b dn σ fuel Hfuel Hm Hl Hnd Hdn.
  - simpl in Hl. subst b. destruct fuel; simpl; by rewrite union_empty_r_L.
  - destruct Hl as (-> & p' & Hn & Hl). apply NoDup_cons in Hnd as [Hal Hnd].
    destruct fuel as [|fuel]; simpl in Hfuel; [lia|]. simpl.
    assert (∃ x, objs σ !! a = Some x ∧ next x = p') as (x & Hx & <-).
    { rewrite (mv_rest _ _ _ _ _ Hm) by (apply Hdn; left). unfold nxt in Hn.
      destruct (objs σ1 !! a); [|done]. injection Hn as <-. eauto. }
    destruct (mv_vecs _ _ _ _ _ Hm) as (nv & Hv & Hlen & Hch).
    pose proof (hash_get_slot_range t (hvalue x) Hb) as Hr.
    destruct (slot_lookup nv t (hvalue x) Hb Hlen) as (p & Hp).
    wp_step. eapply wp_load_b; [done|]. wp_step.
    eapply wp_load_h; [by rewrite (mv_tabs _ _ _ _ _ Hm)|]. wp_step.
    eapply wp_get_vec; [by rewrite Hv, lookup_insert_eq|lia|done|]. wp_step.
    eapply wp_upd_b; [done|]. wp_step.
    eapply wp_set_vec; [simpl; by rewrite Hv, lookup_insert_eq|lia|done|]. simpl.
    assert (dn ∪ ({[a]} ∪ list_to_set l) = (dn ∪ {[a]}) ∪ list_to_set l) as -> by set_solver.
    apply IH; [lia| |done|done|set_solver].
    by eapply moved_one; try done; set_solver.
Qed.

(** All the slots below [n] of the old vector have been moved. *)
Definition moved_below (σ1 : hs) (t t1 : Hash) (nb : positive) (am : gmap K positive) (n : nat)
    (σ : hs (O:=O)) : Prop :=
  ∃ dn, moved σ1 t1 nb dn σ ∧
    ∀ a, a ∈ dn ↔ ∃ x, objs σ1 !! a = Some x ∧ am !! key (obj x) = Some a ∧
                       (hash_get_slot t (hvalue x) < Z.of_nat n)%Z.

Lemma rehash_slot σ1 h t t1 nb bv v am i σ :
  tabs σ1 !! h = Some t1 → bucket t1 = Some bv → vecs σ1 !! bv = Some v → nb ≠ bv →
  (1 ≤ bits t1 ≤ MAX_BITS)%Z →
  (∀ j p, v !! j = Some p → chain (objs σ1) p (in_slot (key:=key) (objs σ1) t am j)) →
  i < length v → moved_below σ1 t t1 nb am i σ →
  wp (b ← get_bucket h (Z.of_nat i); σ ← get; rehash_chain (size (objs σ)) h nb b)
    (λ _, moved_below σ1 t t1 nb am (S i)) σ.
Proof.
  intros Ht Hbk Hbv Hne Hb Hch Hi (dn & Hm & Hdn).
  destruct (lookup_lt_is_Some_2 v i Hi) as (p & Hp).
  destruct (mv_vecs _ _ _ _ _ Hm) as (nv & Hv & _).
  wp_step. eapply wp_hash_get_bucket with (v := v);
    [by rewrite (mv_tabs _ _ _ _ _ Hm)|done|by rewrite Hv, lookup_insert_ne|lia|by rewrite Nat2Z.id|].
  wp_step. wp_step. destruct (Hch i p Hp) as (l & Hl & Hnd & Hin).
  assert (size (objs σ) = size (objs σ1)) as Hsz.
  { rewrite <- (map_size_fmap core (objs σ)), (mv_core _ _ _ _ _ Hm). apply map_size_fmap. }
  eapply wp_mono; [apply (rehash_chain_moves σ1 h t1 nb l Ht Hb p dn)|].
  - rewrite Hsz. by eapply lseg_fuel.
  - done.
  - done.
  - done.
  - intros a Ha Hd. apply Hin in Ha as (x & Hx & _ & Hs). apply Hdn in Hd as (y & Hy & _ & Hlt).
    rewrite Hx in Hy. injection Hy as <-. lia.
  - intros [] σ' Hm'. exists (dn ∪ list_to_set l). split; [done|]. intros a.
    rewrite elem_of_union, elem_of_list_to_set, Hin, Hdn. unfold in_slot. split.
    + intros [(x & ? & ? & ?)|(x & ? & ? & ?)]; exists x; (split; [done|]); (split; [done|]); lia.
    + intros (x & ? & ? & ?). destruct (decide (hash_get_slot t (hvalue x) < Z.of_nat i)%Z).
      * left. eauto.
      * right. exists x. split; [done|]. split; [done|]. lia.
Qed.

Lemma wp_meta_alloc_vec b (Q : positive → hs → Prop) σ :
  (1 ≤ b ≤ MAX_BITS)%Z →
  (∀ nb, vecs σ !! nb = None →
     Q nb (mkHs (tabs σ) (objs σ) (<[nb := replicate (Z.to_nat (2 ^ b)) None]> (vecs σ)))) →
  wp (meta_alloc_vec (s32 (u64 (2 ^ b * PTR_SIZE)))) Q σ.
Proof.
  intros Hb HQ. pose proof (pow_bits_range b Hb) as Hr. unfold meta_alloc_vec, PTR_SIZE in *.
  rewrite (wrapu_small 64 (2 ^ b * 8)) by lia. rewrite wraps_small by lia.
  rewrite (wrapu_small 64) by lia. rewrite Z.div_mul by done. wp_steps. apply HQ.
  eapply not_elem_of_dom. intros Hd.
  apply (meta_alloc_fresh (K:=K) (key:=key) (hs_used σ) (2 ^ b * 8)).
  unfold hs_used at 2. set_solver.
Qed.

(** Rehashing after the shift of the table has been set. *)
Definition rehash_body (h : positive) (old_size : Z) : M hs unit :=
  t ← load_h h;
  new_bucket ← meta_alloc_vec (s32 (u64 (hash_get_slots t * PTR_SIZE)));
  _ ← for_range (λ i,
        b ← get_bucket h (Z.of_nat i);
        σ ← get;
        rehash_chain (size (objs σ)) h new_bucket b) 0 (Z.to_nat old_size);
  t ← load_h h;
  _ ← meta_free_vec (bucket t);
  _ ← upd_h h (λ t, t <| bucket := Some new_bucket |>);
  set_thresholds h.

(** When every slot has been moved, the new chains are the chains of the table. *)
Lemma moved_all_slots σ1 t t1 t' nb am n dn σ j a :
  moved σ1 t1 nb dn σ →
  (∀ a, a ∈ dn ↔ ∃ x, objs σ1 !! a = Some x ∧ am !! key (obj x) = Some a ∧
                      (hash_get_slot t (hvalue x) < Z.of_nat n)%Z) →
  (1 ≤ bits t ≤ MAX_BITS)%Z → (2 ^ bits t ≤ Z.of_nat n)%Z → shift t' = shift t1 →
  in_slot (key:=key) (objs σ) t' am j a ↔
  a ∈ dn ∧ ∃ x, objs σ !! a = Some x ∧ hash_get_slot t1 (hvalue x) = Z.of_nat j.
Proof.
  intros Hm Hdn Hb Hn Hsh.
  assert (∀ hv, hash_get_slot t' hv = hash_get_slot t1 hv) as Hslot.
  { intros hv. unfold hash_get_slot. by rewrite Hsh. }
  unfold in_slot. setoid_rewrite Hslot. split.
  - intros (x & Hx & Hk & Hj). split; [|eauto].
    destruct (core_lookup _ _ _ _ (mv_core _ _ _ _ _ Hm) Hx) as (x1 & Hx1 & Hh & Ho).
    apply Hdn. exists x1. rewrite Ho. split; [done|]. split; [done|].
    pose proof (hash_get_slot_range t (hvalue x1) Hb). lia.
  - intros (Hd & x & Hx & Hj). exists x. split; [done|]. split; [|done].
    apply Hdn in Hd as (x1 & Hx1 & Hk & _).
    destruct (core_lookup _ _ _ _ (mv_core _ _ _ _ _ Hm) Hx) as (x2 & Hx2 & _ & Ho).
    rewrite Hx1 in Hx2. injection Hx2 as <-. by rewrite <- Ho.
Qed.

Lemma rehash_body_run T V σ h t t1 bv v am (Q : unit → hs → Prop) :
  shape (key:=key) T V σ h t bv v am → (MAX_SHIFT - max_shift t ≤ bits t1 ≤ MAX_BITS)%Z →
  bucket t1 = bucket t → max_shift t1 = max_shift t →
  (∀ σ' t' bv' v', shape (key:=key) T V σ' h t' bv' v' am → core <$> objs σ' = core <$> objs σ →
     nobjs t' = nobjs t1 → is_allocated t' = is_allocated t1 → thresholds_ok t' → bits t' = bits t1 →
     Q tt σ') →
  wp (rehash_body h (2 ^ bits t)) Q (mkHs (<[h := t1]> (tabs σ)) (objs σ) (vecs σ)).
Proof.
  intros Hs Hb1 Hbk Hms HQ. pose proof (sh_bits _ _ _ _ _ _ _ _ Hs) as [Hb Hb'].
  pose proof (sh_bucket _ _ _ _ _ _ _ _ Hs) as Hbv.
  unfold rehash_body. wp_step. eapply wp_load_h; [apply lookup_insert_eq|]. wp_step.
  rewrite hash_get_slots_pow by lia. apply wp_meta_alloc_vec; [lia|]. simpl. intros nb Hnb.
  rewrite (sh_vecs _ _ _ _ _ _ _ _ Hs) in Hnb |- *. rewrite (sh_tabs _ _ _ _ _ _ _ _ Hs).
  rewrite insert_insert_eq. apply lookup_insert_None in Hnb as [HnbV Hne].
  set (σ1 := mkHs (<[h := t1]> T) (objs σ) (<[nb := replicate (Z.to_nat (2 ^ bits t1)) None]> (<[bv := v]> V))).
  wp_step. apply (wp_for_range (moved_below σ1 t t1 nb am)).
  - exists ∅. split; [constructor|].
    + done.
    + eexists. split; [by simpl; rewrite insert_insert_eq|]. split; [apply length_replicate|].
      intros j p [-> _]%lookup_replicate. apply chain_nil. set_solver.
    + done.
    + done.
    + intros a. split; [set_solver|]. intros (x & _ & _ & Hlt).
      pose proof (hash_get_slot_range t (hvalue x)). lia.
  - intros j σ' Hj. apply (rehash_slot σ1 h t t1 nb bv v am); simpl.
    + apply lookup_insert_eq.
    + by rewrite Hbk.
    + rewrite lookup_insert_ne by done. apply lookup_insert_eq.
    + done.
    + lia.
    + apply Hs.
    + rewrite (sh_len _ _ _ _ _ _ _ _ Hs). lia.
  - intros σ' (dn & Hm & Hdn). destruct (mv_vecs _ _ _ _ _ Hm) as (nv & Hv & Hlen & Hch).
    simpl in Hv. rewrite insert_insert_eq in Hv. pose proof (mv_tabs _ _ _ _ _ Hm) as Htabs. simpl in Htabs.
    wp_step. eapply wp_load_h; [rewrite Htabs; apply lookup_insert_eq|]. rewrite Hbk, Hbv. wp_step.
    eapply wp_meta_free_vec; [rewrite Hv, lookup_insert_ne by done; apply lookup_insert_eq|].
    wp_step. eapply wp_upd_h; [simpl; rewrite Htabs; apply lookup_insert_eq|]. simpl.
    eapply wp_set_thresholds; [apply lookup_insert_eq|simpl; unfold bits in *; simpl; lia|]. simpl.
    intros t' Hsh Hms' Hbk' Hn Hal Hthr. rewrite Htabs, !insert_insert_eq, Hv.
    rewrite (delete_insert_ne _ _ _ _ Hne), delete_insert_id by apply Hs.
    assert (bits t' = bits t1) as Hbt by (unfold bits; rewrite Hsh; done).
    apply (HQ _ t' nb nv); try done; [|apply Hm].
    constructor; simpl; try done.
    + apply Hs.
    + by rewrite Hbt.
    + rewrite Hms', Hbt. simpl. lia.
    + eapply core_keyed; [symmetry; apply Hm|apply Hs].
    + intros j p Hp. eapply bchain_frame; [by apply Hch|done|]. intros a.
      eapply moved_all_slots; [done|done|lia|lia|done].
Qed.

Lemma rehash_run T V σ h t bv v am grow (Q : unit → hs → Prop) :
  shape (key:=key) T V σ h t bv v am → (grow = true → bits t < MAX_BITS)%Z →
  (∀ σ' t' bv' v', shape (key:=key) T V σ' h t' bv' v' am → core <$> objs σ' = core <$> objs σ →
     nobjs t' = nobjs t → is_allocated t' = is_allocated t →
     (t' = t ∧ grow = false) ∨ (thresholds_ok t' ∧ bits t' = bits t + if grow then 1 else -1)%Z →
     Q tt σ') →
  wp (rehash h grow) Q σ.
Proof.
  intros Hs Hg HQ. pose proof (sh_bits _ _ _ _ _ _ _ _ Hs) as [Hb1 Hb2].
  assert (tabs σ !! h = Some t) as Ht by (rewrite (sh_tabs _ _ _ _ _ _ _ _ Hs); apply lookup_insert_eq).
  unfold rehash. wp_step. eapply wp_load_h; [done|]. rewrite hash_get_slots_pow by lia.
  wp_step. unfold rehash_shift. wp_step. eapply wp_load_h; [done|].
  destruct grow; [|case_decide as Hd].
  - wp_step. eapply wp_upd_h; [done|]. wp_step. apply (rehash_body_run T V σ h t _ bv v am); try done.
    + unfold bits in *. simpl. specialize (Hg eq_refl). lia.
    + intros σ' t' bv' v' Hs' Hc Hn Ha Hthr Hbt. apply (HQ σ' t' bv' v'); try done. right.
      split; [done|]. rewrite Hbt. unfold bits. simpl. lia.
  - wp_step. eapply (HQ σ t bv v); [done..|]. by left.
  - wp_step. eapply wp_upd_h; [done|]. wp_step. apply (rehash_body_run T V σ h t _ bv v am); try done.
    + unfold bits in *. simpl. lia.
    + intros σ' t' bv' v' Hs' Hc Hn Ha Hthr Hbt. apply (HQ σ' t' bv' v'); try done. right.
      split; [done|]. rewrite Hbt. unfold bits. simpl. lia.
Qed.

End rehash.
