(* ===== verification/HashOps.v ===== *)
(** Creation, look-up, insertion, removal and deletion keep the invariant of
    the hash tables and act on the map from keys to objects. *)

From stdpp Require Import base numbers list gmap strings sets.
From Stdlib Require Import ZArith Lia.
From S2P Require Import Prelude HashTable HashInv HashRehash.

Section ops.
Context {O K : Type} {F : HashFunctions O} {key : O → K} `{Countable K} {L : HashLaws O K F key}.
Implicit Types ob : gmap positive (HashBucket (O:=O)).
Implicit Types am : gmap K positive.
Implicit Types σ : hs (O:=O).
Implicit Types T : gmap positive Hash.
Implicit Types V : gmap positive (list (option positive)).

Abbreviation shape := (shape (key:=key)).
Abbreviation in_slot := (in_slot (key:=key)).
Abbreviation hash_ok := (hash_ok (key:=key)).

Lemma shape_tab T V σ h t bv v am : shape T V σ h t bv v am → tabs σ !! h = Some t.
Proof. intros Hs. rewrite (sh_tabs _ _ _ _ _ _ _ _ Hs). apply lookup_insert_eq. Qed.

Lemma shape_vec T V σ h t bv v am : shape T V σ h t bv v am → vecs σ !! bv = Some v.
Proof. intros Hs. rewrite (sh_vecs _ _ _ _ _ _ _ _ Hs). apply lookup_insert_eq. Qed.

Lemma shape_slot T V σ h t bv v am hv :
  shape T V σ h t bv v am →
  (0 ≤ hash_get_slot t hv)%Z ∧ ∃ p, v !! Z.to_nat (hash_get_slot t hv) = Some p.
Proof.
  intros Hs. pose proof (sh_bits _ _ _ _ _ _ _ _ Hs) as [??].
  pose proof (hash_get_slot_range t hv ltac:(lia)). split; [lia|].
  apply slot_lookup; [lia|apply Hs].
Qed.

(** An object of the table is in the slot of its key only. *)
Lemma in_slot_hash T V σ h t bv v am k a :
  shape T V σ h t bv v am → am !! k = Some a →
  ∃ x, objs σ !! a = Some x ∧ key (obj x) = k ∧ hvalue x = fun_hash (obj x) ∧
       in_slot (objs σ) t am (Z.to_nat (hash_get_slot t (hvalue x))) a.
Proof.
  intros Hs Ha. destruct (sh_keyed _ _ _ _ _ _ _ _ Hs k a Ha) as (x & Hx & Hk & Hh).
  exists x. split; [done|]. split; [done|]. split; [done|]. exists x. split; [done|].
  rewrite Hk. split; [done|]. destruct (shape_slot _ _ _ _ _ _ _ _ (hvalue x) Hs). lia.
Qed.

Lemma keyed_inj ob am k k' a : keyed (key:=key) ob am → am !! k = Some a → am !! k' = Some a → k = k'.
Proof.
  intros Hk Ha Ha'. destruct (Hk k a Ha) as (x & Hx & <- & _).
  destruct (Hk k' a Ha') as (x' & Hx' & <- & _). by simplify_eq.
Qed.

(** ** Searching a chain *)

Lemma chain_find_spec σ tmpl hval l2 :
  ∀ l1 b fuel, lseg (nxt (objs σ)) b l2 None → length l2 ≤ fuel →
  wp (chain_find fuel tmpl hval (last l1) b) (λ r σ', σ' = σ ∧
    match r with
    | Some (pv, a) => ∃ m1 m2 x, l1 ++ l2 = m1 ++ a :: m2 ∧ pv = last m1 ∧
        objs σ !! a = Some x ∧ hvalue x = hval ∧ fun_cmp tmpl (obj x) = 0%Z
    | None => ∀ a x, a ∈ l2 → objs σ !! a = Some x → hvalue x = hval → fun_cmp tmpl (obj x) ≠ 0%Z
    end) σ.
Proof.
  induction l2 as [|a l2 IH]; intros l1 b fuel Hl Hf.
  - simpl in Hl. subst b. destruct fuel; (split; [done|]); set_solver.
  - destruct Hl as (-> & p' & Hn & Hl). destruct fuel as [|fuel]; simpl in Hf; [lia|]. simpl.
    unfold nxt in Hn. destruct (objs σ !! a) as [x|] eqn:Hx; [|done]. injection Hn as <-.
    wp_step. eapply wp_load_b; [done|]. case_decide as Hd.
    + wp_step. split; [done|]. exists l1, l2, x. naive_solver.
    + assert (Some a = last (l1 ++ [a])) as -> by (by rewrite last_snoc).
      eapply wp_mono; [apply (IH (l1 ++ [a])); [done|lia]|]. intros r σ' [-> Hr].
      split; [done|]. destruct r as [[pv c]|].
      * by rewrite <- app_assoc in Hr.
      * intros c y [->|Hc]%elem_of_cons Hy; [|by eapply Hr]. simplify_eq. tauto.
Qed.

(** The place of a stored object in its chain. *)
Definition place σ t (v : list (option positive)) am (ix : nat) (pv : option positive) (a : positive) : Prop :=
  ∃ p l1 l2, v !! ix = Some p ∧ lseg (nxt (objs σ)) p (l1 ++ a :: l2) None ∧
    NoDup (l1 ++ a :: l2) ∧ (∀ c, c ∈ l1 ++ a :: l2 ↔ in_slot (objs σ) t am ix c) ∧ pv = last l1.

Lemma bucket_find_run T V σ h t bv v am tmpl :
  shape T V σ h t bv v am →
  wp (bucket_find h tmpl) (λ r σ', σ' = σ ∧
    match am !! key tmpl with
    | Some a => ∃ pv, r = Some (pv, a) ∧ place σ t v am (Z.to_nat (hash_get_slot t (fun_hash tmpl))) pv a
    | None => r = None
    end) σ.
Proof.
  intros Hs. destruct (shape_slot _ _ _ _ _ _ _ _ (fun_hash tmpl) Hs) as (Hix & p & Hp).
  unfold bucket_find. wp_step. eapply wp_load_h; [by eapply shape_tab|]. wp_step.
  eapply wp_hash_get_bucket; [by eapply shape_tab|apply Hs|by eapply shape_vec|done|done|].
  wp_step. wp_step. destruct (sh_chains _ _ _ _ _ _ _ _ Hs _ _ Hp) as (l & Hl & Hnd & Hin).
  change (@None positive) with (last (@nil positive)).
  eapply wp_mono; [apply (chain_find_spec σ tmpl (fun_hash tmpl) l [])|].
  { done. }
  { by eapply lseg_fuel. }
  intros r σ' [-> Hr]. split; [done|]. simpl in Hr.
  destruct r as [[pv a]|].
  - destruct Hr as (l1 & l2 & x & Heq & -> & Hx & Hh & Hc%(cmp_key (key:=key))).
    assert (a ∈ l) as Ha by (rewrite Heq; set_solver). apply Hin in Ha as (x' & Hx' & Hk & _).
    simplify_eq. rewrite Hc, Hk. exists (last l1). split; [done|].
    exists p, l1, l2. auto.
  - destruct (am !! key tmpl) as [a|] eqn:Ha; [|done]. exfalso.
    destruct (in_slot_hash _ _ _ _ _ _ _ _ _ _ Hs Ha) as (x & Hx & Hk & Hh & Hsl).
    rewrite Hh, (hash_key (key:=key) (obj x) tmpl) in Hsl by done. apply Hin in Hsl.
    apply (Hr a x Hsl Hx); [|by apply (cmp_key (key:=key))].
    rewrite Hh. by apply (hash_key (key:=key)).
Qed.

(** ** Changing the shape *)

Lemma in_slot_shift ob t t' am j a : shift t' = shift t → in_slot ob t' am j a ↔ in_slot ob t am j a.
Proof. intros Hs. unfold HashInv.in_slot, hash_get_slot. by rewrite Hs. Qed.

Lemma shape_new_tab T V σ h t t' bv v am :
  shape T V σ h t bv v am → shift t' = shift t → max_shift t' = max_shift t → bucket t' = bucket t →
  shape T V (mkHs (<[h := t']> (tabs σ)) (objs σ) (vecs σ)) h t' bv v am.
Proof.
  intros Hs Hsh Hm Hb. constructor; simpl.
  - rewrite (sh_tabs _ _ _ _ _ _ _ _ Hs). by rewrite insert_insert_eq.
  - apply Hs.
  - rewrite Hb. apply Hs.
  - apply Hs.
  - apply Hs.
  - unfold bits. rewrite Hsh. apply Hs.
  - unfold bits. rewrite Hsh, Hm. apply Hs.
  - apply Hs.
  - intros j p Hp. eapply bchain_frame; [by apply Hs|done|]. intros a. by apply in_slot_shift.
Qed.

Lemma shape_push T V σ h t bv v am b o hv p :
  shape T V σ h t bv v am → objs σ !! b = None → am !! key o = None → hv = fun_hash o →
  v !! Z.to_nat (hash_get_slot t hv) = Some p →
  shape T V (mkHs (tabs σ) (<[b := mkHashBucket p hv o]> (objs σ))
    (<[bv := <[Z.to_nat (hash_get_slot t hv) := Some b]> v]> (vecs σ)))
    h t bv (<[Z.to_nat (hash_get_slot t hv) := Some b]> v) (<[key o := b]> am).
Proof.
  intros Hs Hb Ho -> Hp. set (ix := Z.to_nat (hash_get_slot t (fun_hash o))).
  destruct (shape_slot _ _ _ _ _ _ _ _ (fun_hash o) Hs) as [Hix _].
  assert (∀ k, am !! k ≠ Some b) as Hnb.
  { intros k Hk. destruct (sh_keyed _ _ _ _ _ _ _ _ Hs _ _ Hk) as (x & Hx & _). congruence. }
  assert (∀ j c, in_slot (<[b := mkHashBucket p (fun_hash o) o]> (objs σ)) t (<[key o := b]> am) j c ↔
                 (c = b ∧ j = ix) ∨ in_slot (objs σ) t am j c) as Hiff.
  { intros j c. unfold HashInv.in_slot. split.
    - intros (x & Hx & Hk & Hj). destruct (decide (c = b)) as [->|Hc].
      + rewrite lookup_insert_eq in Hx. injection Hx as <-. simpl in Hj. left. split; [done|]. lia.
      + rewrite lookup_insert_ne in Hx by done. right. exists x. split; [done|]. split; [|done].
        destruct (decide (key o = key (obj x))) as [He|He].
        * rewrite He, lookup_insert_eq in Hk. congruence.
        * by rewrite lookup_insert_ne in Hk.
    - intros [[-> ->]|(x & Hx & Hk & Hj)].
      + eexists. rewrite lookup_insert_eq. split; [done|]. simpl. rewrite lookup_insert_eq.
        split; [done|]. lia.
      + exists x. rewrite !lookup_insert_ne by congruence. done. }
  assert (∀ c, is_Some (objs σ !! c) →
    nxt (<[b := mkHashBucket p (fun_hash o) o]> (objs σ)) c = nxt (objs σ) c) as Hfr.
  { intros c [x Hx]. unfold nxt. rewrite lookup_insert_ne by congruence. done. }
  constructor; simpl; try apply Hs.
  - rewrite (sh_vecs _ _ _ _ _ _ _ _ Hs). by rewrite insert_insert_eq.
  - rewrite length_insert. apply Hs.
  - intros k a [[<- <-]|[Hne Ha]]%lookup_insert_Some.
    + eexists. rewrite lookup_insert_eq. done.
    + destruct (sh_keyed _ _ _ _ _ _ _ _ Hs _ _ Ha) as (x & Hx & Hx'). exists x.
      rewrite lookup_insert_ne by congruence. done.
  - intros j q Hq. destruct (decide (j = ix)) as [->|Hj].
    + rewrite list_lookup_insert_eq in Hq by (by eapply lookup_lt_Some). injection Hq as <-.
      eapply chain_push; [by apply Hs| | | |].
      * intros (x & Hx & _). congruence.
      * unfold nxt. by rewrite lookup_insert_eq.
      * intros c (x & Hx & _). apply Hfr. eauto.
      * intros c. rewrite Hiff. naive_solver.
    + rewrite list_lookup_insert_ne in Hq by done. eapply bchain_frame; [by apply Hs| |].
      * intros c (x & Hx & _). apply Hfr. eauto.
      * intros c. rewrite Hiff. naive_solver.
Qed.

(** Taking the object of key [k] out of its chain. *)
Lemma in_slot_delete ob ob' t am k a j c :
  keyed (key:=key) ob am → core <$> ob' = core <$> ob → am !! k = Some a →
  in_slot ob' t (delete k am) j c ↔ in_slot ob t am j c ∧ c ≠ a.
Proof.
  intros Hkd Hc Ha. unfold HashInv.in_slot. split.
  - intros (x & Hx & Hk & Hj). apply lookup_delete_Some in Hk as [Hne Hk].
    destruct (core_lookup _ _ _ _ Hc Hx) as (y & Hy & Hh & Ho). split.
    + exists y. rewrite Ho, Hh. done.
    + intros ->. apply Hne. by eapply keyed_inj.
  - intros [(x & Hx & Hk & Hj) Hne]. symmetry in Hc.
    destruct (core_lookup _ _ _ _ Hc Hx) as (y & Hy & Hh & Ho). exists y. rewrite Ho, Hh.
    split; [done|]. split; [|done]. rewrite lookup_delete_ne; [done|]. intros Heq. congruence.
Qed.

Lemma keyed_delete ob am k : keyed (key:=key) ob am → keyed (key:=key) ob (delete k am).
Proof. intros Hk k' a [_ Ha]%lookup_delete_Some. by apply Hk. Qed.

Lemma shape_unlink T V σ h t bv v v' am k a ix l1 l2 ob' :
  shape T V σ h t bv v am → am !! k = Some a →
  NoDup (l1 ++ a :: l2) → (∀ c, c ∈ l1 ++ a :: l2 ↔ in_slot (objs σ) t am ix c) →
  core <$> ob' = core <$> objs σ → length v' = length v →
  (∀ j, j ≠ ix → v' !! j = v !! j) → (∀ p, v' !! ix = Some p → lseg (nxt ob') p (l1 ++ l2) None) →
  (∀ c, c ∉ l1 ++ l2 → nxt ob' c = nxt (objs σ) c) →
  shape T V (mkHs (tabs σ) ob' (<[bv := v']> (vecs σ))) h t bv v' (delete k am).
Proof.
  intros Hs Ha Hnd Hin Hc Hlen Hv Hix Hfr.
  pose proof (sh_keyed _ _ _ _ _ _ _ _ Hs) as Hkd.
  constructor; simpl; try apply Hs.
  - rewrite (sh_vecs _ _ _ _ _ _ _ _ Hs). by rewrite insert_insert_eq.
  - rewrite Hlen. apply Hs.
  - apply keyed_delete. eapply core_keyed; [by symmetry|done].
  - intros j p Hp. destruct (decide (j = ix)) as [->|Hj].
    + exists (l1 ++ l2). split; [by apply Hix|]. split.
      * apply NoDup_app in Hnd as (? & Hd & [_ ?]%NoDup_cons). apply NoDup_app.
        split; [done|]. split; [|done]. intros c Hc1 Hc2. apply (Hd c Hc1). by right.
      * intros c. rewrite (in_slot_delete (objs σ)) by done. rewrite <- Hin.
        rewrite !elem_of_app, elem_of_cons. apply NoDup_app in Hnd as (_ & Hd & [Hn _]%NoDup_cons).
        split; [|naive_solver]. intros [Hc1|Hc2]; (split; [tauto|]); intros ->; [|done].
        apply (Hd a Hc1). by left.
    + rewrite Hv in Hp by done. eapply bchain_frame; [by apply Hs| |].
      * intros c Hsl. apply Hfr. intros Hl.
        assert (in_slot (objs σ) t am ix c) as (x & Hx & _ & Hj1) by (apply Hin; set_solver).
        destruct Hsl as (y & Hy & _ & Hj2). simplify_eq. lia.
      * intros c. rewrite (in_slot_delete (objs σ)) by done. split; [tauto|]. intros Hsl.
        split; [done|]. intros ->.
        assert (in_slot (objs σ) t am ix a) as (x & Hx & _ & Hj1) by (apply Hin; set_solver).
        destruct Hsl as (y & Hy & _ & Hj2). simplify_eq. lia.
Qed.

Lemma bucket_unlink_run T V σ h t bv v am k a ix pv :
  shape T V σ h t bv v am → am !! k = Some a → (0 ≤ ix)%Z → place σ t v am (Z.to_nat ix) pv a →
  wp (bucket_unlink h ix pv a) (λ _ σ', ∃ v', shape T V σ' h t bv v' (delete k am) ∧
    core <$> objs σ' = core <$> objs σ) σ.
Proof.
  intros Hs Ha Hix (p & l1 & l2 & Hp & Hl & Hnd & Hin & ->).
  destruct (in_slot_hash _ _ _ _ _ _ _ _ _ _ Hs Ha) as (x & Hx & _).
  unfold bucket_unlink. wp_step. eapply wp_load_b; [done|].
  assert (nxt (objs σ) a = Some (next x)) as Hna by (unfold nxt; by rewrite Hx).
  destruct l1 as [|q l1 _] using rev_ind; [|rewrite last_snoc].
  - simpl. eapply hash_wp_set_bucket; [by eapply shape_tab|apply Hs|by eapply shape_vec|done|done|].
    exists (<[Z.to_nat ix := next x]> v). split; [|done].
    apply (shape_unlink T V σ h t bv v _ am k a (Z.to_nat ix) [] l2); try done.
    + by rewrite length_insert.
    + intros j Hj. by apply list_lookup_insert_ne.
    + intros q Hq. rewrite list_lookup_insert_eq in Hq by (by eapply lookup_lt_Some).
      injection Hq as <-. destruct Hl as (_ & p' & Hn & Hl). simpl in *. congruence.
  - rewrite <- app_assoc in *. simpl in *.
    assert (is_Some (objs σ !! q)) as [y Hy] by (eapply lseg_nxt_mapped; [done|set_solver]).
    assert (q ≠ a ∧ q ∉ l1 ++ l2) as [Hqa Hq].
    { apply NoDup_app in Hnd as (_ & Hd & [Hq _]%NoDup_cons). split; [set_solver|].
      intros [Hq1|Hq2]%elem_of_app; [|set_solver]. apply (Hd q Hq1). by left. }
    eapply wp_upd_b; [done|]. exists v. rewrite <- (insert_id (vecs σ) bv v) by (by eapply shape_vec).
    assert (∀ c, c ≠ q → nxt (<[q := y <| next := next x |>]> (objs σ)) c = nxt (objs σ) c) as Hfr.
    { intros c Hc. unfold nxt. by rewrite lookup_insert_ne. }
    split; [|by apply core_upd_next].
    apply (shape_unlink T V σ h t bv v _ am k a (Z.to_nat ix) (l1 ++ [q]) l2); try done.
    + by rewrite <- app_assoc.
    + intros c. by rewrite <- app_assoc.
    + by apply core_upd_next.
    + intros p' Hp'. simplify_eq. rewrite <- app_assoc.
      eapply chain_unlink_mid; [done|done| |].
      * rewrite Hna. unfold nxt. by rewrite lookup_insert_eq.
      * intros c Hc. apply Hfr. by intros ->.
    + intros c Hc. apply Hfr. intros ->. set_solver.
Qed.

(** Freeing an object that is not in the table. *)
Lemma shape_free T V σ h t bv v am a :
  shape T V σ h t bv v am → (∀ k, am !! k ≠ Some a) →
  shape T V (mkHs (tabs σ) (delete a (objs σ)) (vecs σ)) h t bv v am.
Proof.
  intros Hs Ha. constructor; simpl; try apply Hs.
  - intros k c Hc. destruct (sh_keyed _ _ _ _ _ _ _ _ Hs k c Hc) as (x & Hx & Hx'). exists x.
    rewrite lookup_delete_ne; [done|]. intros <-. by eapply Ha.
  - intros j p Hp. eapply bchain_frame; [by apply Hs| |].
    + intros c (x & Hx & Hk & _). unfold nxt. rewrite lookup_delete_ne; [done|].
      intros <-. by eapply Ha.
    + intros c. unfold HashInv.in_slot. split.
      * intros (x & [_ Hx]%lookup_delete_Some & Hr). eauto.
      * intros (x & Hx & Hk & Hr). exists x. rewrite lookup_delete_ne; [done|].
        intros <-. by eapply Ha.
Qed.

(** ** The operations *)

(** A table whose counter and thresholds agree with its content. *)
Definition counted (t : Hash) am : Prop :=
  thresholds_ok t ∧ nobjs t = Z.of_nat (size am) ∧ (nobjs t ≤ grow_threshold t)%Z.

(** The stored objects and the other objects [D] are all the objects. *)
Definition owned ob am (D : gset positive) : Prop :=
  (∀ a, is_Some (ob !! a) ↔ in_table am a ∨ a ∈ D) ∧ (∀ a, in_table am a → a ∉ D).

Lemma owned_core ob ob' am D : core <$> ob' = core <$> ob → owned ob am D → owned ob' am D.
Proof. intros Hc [H1 H2]. split; [|done]. intros a. rewrite <- H1. by apply core_is_Some. Qed.

Lemma div5 x : (0 ≤ x)%Z → (5 * (x / 5) ≤ x < 5 * (x / 5) + 5)%Z.
Proof. intros Hx. Z.to_euclidean_division_equations. lia. Qed.

Lemma hash_count_removed_run T V σ h t bv v am (Q : unit → hs → Prop) :
  shape T V σ h t bv v am → thresholds_ok t → nobjs t = (Z.of_nat (size am) + 1)%Z →
  (nobjs t ≤ grow_threshold t)%Z →
  (∀ σ' t' bv' v', shape T V σ' h t' bv' v' am → counted t' am →
     core <$> objs σ' = core <$> objs σ → Q tt σ') →
  wp (count_removed h) Q σ.
Proof.
  intros Hs [Hg Hsh] Hn Hle HQ. pose proof (sh_bits _ _ _ _ _ _ _ _ Hs) as [Hb1 Hb2].
  pose proof (pow_bits_range (bits t) ltac:(lia)) as Hp.
  pose proof (div5 (8 * 2 ^ bits t) ltac:(lia)) as H8.
  unfold count_removed. wp_step. eapply wp_load_h; [by eapply shape_tab|].
  wp_step. eapply wp_int_expr; [lia|]. wp_step. eapply wp_upd_h; [by eapply shape_tab|].
  set (t1 := t <| nobjs := (nobjs t - 1)%Z |>).
  pose proof (shape_new_tab _ _ _ _ _ t1 _ _ _ Hs eq_refl eq_refl eq_refl) as Hs'.
  destruct (decide (nobjs t - 1 < shrink_threshold t)%Z) as [Hlt|Hlt].
  - eapply (rehash_run T V _ h _ bv v am false); [exact Hs'|done|]. simpl. intros σ' t' bv' v' Hs2 Hc Hn' _ Hor.
    apply (HQ σ' t' bv' v'); [done| |done]. destruct Hor as [[-> _]|[Hthr Hbt]].
    + split; [done|]. simpl. split; lia.
    + split; [done|]. rewrite Hn'. split; [lia|]. destruct Hthr as [-> _].
      rewrite Hbt. unfold bits in *. simpl in *.
      rewrite Hsh in Hlt. destruct (decide (shift t < max_shift t)%Z) as [Hd|Hd]; [|lia].
      pose proof (div5 (2 ^ (MAX_SHIFT - shift t)) ltac:(lia)) as H2.
      pose proof (Z.pow_pos_nonneg 2 (MAX_SHIFT - shift t - 1) ltac:(lia) ltac:(lia)) as H0.
      assert (2 ^ (MAX_SHIFT - shift t) = 2 * 2 ^ (MAX_SHIFT - shift t + -1))%Z as He.
      { rewrite <- Z.pow_succ_r by lia. f_equal. lia. }
      pose proof (div5 (8 * 2 ^ (MAX_SHIFT - shift t + -1)) ltac:(lia)) as H3. lia.
  - apply (HQ _ t1 bv v); [done| |done].
    split; [done|]. simpl. lia.
Qed.

Lemma count_added_run T V σ h t bv v am (Q : unit → hs → Prop) :
  shape T V σ h t bv v am → thresholds_ok t → (nobjs t + 1 = Z.of_nat (size am))%Z →
  (nobjs t ≤ grow_threshold t)%Z → (nobjs t < MAX_OBJS)%Z →
  (∀ σ' t' bv' v', shape T V σ' h t' bv' v' am → counted t' am →
     core <$> objs σ' = core <$> objs σ → Q tt σ') →
  wp (count_added h) Q σ.
Proof.
  intros Hs [Hg Hsh] Hn Hle Hmax HQ. pose proof (sh_bits _ _ _ _ _ _ _ _ Hs) as [Hb1 Hb2].
  pose proof (pow_bits_range (bits t) ltac:(lia)) as Hp.
  pose proof (div5 (8 * 2 ^ bits t) ltac:(lia)) as H8. unfold MAX_OBJS in Hmax.
  unfold count_added. wp_step. eapply wp_load_h; [by eapply shape_tab|].
  wp_step. eapply wp_int_expr; [lia|]. wp_step. eapply wp_upd_h; [by eapply shape_tab|].
  set (t1 := t <| nobjs := (nobjs t + 1)%Z |>).
  pose proof (shape_new_tab _ _ _ _ _ t1 _ _ _ Hs eq_refl eq_refl eq_refl) as Hs'.
  destruct (decide (grow_threshold t < nobjs t + 1)%Z) as [Hlt|Hlt].
  - assert (bits t < MAX_BITS)%Z as Hbt1.
    { destruct (decide (bits t = MAX_BITS)) as [He|He]; [|lia]. rewrite He in *.
      change (2 ^ MAX_BITS)%Z with 134217728%Z in *. lia. }
    eapply (rehash_run T V _ h _ bv v am true); [exact Hs'|done|]. simpl.
    intros σ' t' bv' v' Hs2 Hc Hn' _ Hor.
    apply (HQ σ' t' bv' v'); [done| |done]. destruct Hor as [[_ ?]|[Hthr Hbt]]; [done|].
    split; [done|]. rewrite Hn'. split; [simpl; lia|]. destruct Hthr as [-> _].
    rewrite Hbt. unfold bits in *. simpl in *.
    assert (2 ^ (MAX_SHIFT - shift t + 1) = 2 * 2 ^ (MAX_SHIFT - shift t))%Z as He.
    { rewrite <- Z.pow_succ_r by lia. f_equal. }
    pose proof (div5 (8 * 2 ^ (MAX_SHIFT - shift t + 1)) ltac:(lia)) as H3. lia.
  - apply (HQ _ t1 bv v); [done| |done].
    split; [done|]. simpl. lia.
Qed.

Lemma owned_insert ob ob' am D k b c :
  ob !! b = None → am !! k = None → core <$> ob' = <[b := c]> (core <$> ob) → owned ob am D →
  owned ob' (<[k := b]> am) D.
Proof.
  intros Hb Hk Hc [H1 H2].
  assert (∀ a, is_Some (ob' !! a) ↔ a = b ∨ is_Some (ob !! a)) as Hdom.
  { intros a. rewrite <- (fmap_is_Some core (ob' !! a)), <- lookup_fmap, Hc.
    destruct (decide (a = b)) as [->|Ha].
    - rewrite lookup_insert_eq. naive_solver.
    - rewrite lookup_insert_ne, lookup_fmap, fmap_is_Some by done. naive_solver. }
  assert (∀ a, in_table (<[k := b]> am) a ↔ a = b ∨ in_table am a) as Hin.
  { intros a. split.
    - intros (k' & [[_ ->]|[_ Ha]]%lookup_insert_Some); [by left|]. right. by exists k'.
    - intros [->|(k' & Ha)]; [exists k; apply lookup_insert_eq|]. exists k'.
      rewrite lookup_insert_ne; [done|]. congruence. }
  split.
  - intros a. rewrite Hdom, Hin, H1. tauto.
  - intros a [->|Ha]%Hin; [|by apply H2]. intros Hd.
    assert (is_Some (ob !! b)) as [? ?] by (apply H1; by right). congruence.
Qed.

Lemma hash_get_run T V D σ h am tmpl :
  hash_ok T V D σ h am →
  wp (hash_get h tmpl) (λ r σ', r = am !! key tmpl ∧ σ' = σ) σ.
Proof.
  intros (t & bv & v & Hs & _). unfold hash_get, hash_fetch. wp_step.
  eapply wp_mono; [by eapply bucket_find_run|]. intros r σ' [-> Hr]. wp_step.
  split; [|done]. destruct (am !! key tmpl); naive_solver.
Qed.

Lemma wp_obj_alloc tmpl (Q : positive → hs → Prop) σ :
  (∀ b, objs σ !! b = None →
     Q b (mkHs (tabs σ) (<[b := mkHashBucket None 0 (fun_alloc tmpl)]> (objs σ)) (vecs σ))) →
  wp (obj_alloc tmpl) Q σ.
Proof.
  intros HQ. unfold obj_alloc. wp_steps. apply HQ. eapply not_elem_of_dom. intros Hd.
  apply (obj_addr_fresh (K:=K) (key:=key) (hs_used σ)). unfold hs_used at 2. set_solver.
Qed.

Lemma hash_put_run T V D σ h am tmpl :
  hash_ok T V D σ h am → (am !! key tmpl = None → Z.of_nat (size am) < MAX_OBJS)%Z →
  wp (hash_put h tmpl) (λ b σ',
    match am !! key tmpl with
    | Some a => b = a ∧ σ' = σ
    | None => objs σ !! b = None ∧ hash_ok T V D σ' h (<[key tmpl := b]> am) ∧
        core <$> objs σ' = <[b := (fun_hash tmpl, fun_alloc tmpl)]> (core <$> objs σ)
    end) σ.
Proof.
  intros (t & bv & v & Hs & [Hg Hsh] & Hn & Hle & Ho) Hsz.
  pose proof (sh_bits _ _ _ _ _ _ _ _ Hs) as [Hb1 Hb2].
  pose proof (pow_bits_range (bits t) ltac:(lia)) as Hp2.
  pose proof (div5 (8 * 2 ^ bits t) ltac:(lia)) as H8.
  destruct (shape_slot _ _ _ _ _ _ _ _ (fun_hash tmpl) Hs) as (Hix & p & Hp).
  unfold hash_put. wp_step. eapply wp_load_h; [by eapply shape_tab|]. wp_step.
  eapply wp_mono; [by eapply bucket_find_run|]. intros r σ' [-> Hr].
  destruct (am !! key tmpl) as [a|] eqn:Ha.
  { destruct Hr as (pv & -> & _). by wp_step. }
  subst r. specialize (Hsz eq_refl). wp_step. apply wp_obj_alloc. intros b Hb.
  pose proof (shape_tab _ _ _ _ _ _ _ _ Hs) as Htab. pose proof (shape_vec _ _ _ _ _ _ _ _ Hs) as Hvec.
  wp_step. eapply wp_upd_b; [apply lookup_insert_eq|]. simpl. rewrite insert_insert_eq.
  wp_step. eapply wp_hash_get_bucket;
    [exact Htab|apply Hs|exact Hvec|done|done|].
  wp_step. eapply wp_upd_b; [apply lookup_insert_eq|]. simpl. rewrite insert_insert_eq.
  wp_step. eapply hash_wp_set_bucket;
    [exact Htab|apply Hs|exact Hvec|done|done|]. simpl.
  pose proof (shape_push T V σ h t bv v am b (fun_alloc tmpl) (fun_hash tmpl) p Hs Hb) as Hpush.
  rewrite (alloc_key (key:=key)) in Hpush. specialize (Hpush Ha).
  specialize (Hpush (hash_key (key:=key) _ _ (eq_sym (alloc_key (key:=key) tmpl))) Hp).
  assert (size (<[key tmpl := b]> am) = S (size am)) as Hsize by (by apply map_size_insert_None).
  wp_step. eapply (count_added_run T V _ h t bv _ _); [exact Hpush|done|lia|done|unfold MAX_OBJS in *; lia|].
  simpl. intros σ' t' bv' v' Hs' Hc' Hcore. wp_step.
  split; [done|]. rewrite fmap_insert in Hcore. split; [|done].
  exists t', bv', v'. destruct Hc' as (? & ? & ?). split; [done|]. split; [done|]. split; [done|].
  split; [done|]. apply (owned_insert (objs σ) _ am D (key tmpl) b (fun_hash tmpl, fun_alloc tmpl)); done.
Qed.

Lemma owned_delete ob ob' am D k a :
  keyed (key:=key) ob am → am !! k = Some a → core <$> ob' = core <$> ob → owned ob am D →
  owned ob' (delete k am) (D ∪ {[a]}).
Proof.
  intros Hkd Ha Hc [H1 H2].
  assert (∀ c, in_table (delete k am) c ↔ in_table am c ∧ c ≠ a) as Hin.
  { intros c. split.
    - intros (k' & [Hne Hk]%lookup_delete_Some). split; [by exists k'|]. intros ->.
      apply Hne. by eapply keyed_inj.
    - intros [(k' & Hk) Hne]. exists k'. rewrite lookup_delete_ne; [done|]. congruence. }
  split.
  - intros c. rewrite (core_is_Some ob' ob) by done. rewrite H1, Hin, elem_of_union, elem_of_singleton.
    destruct (decide (c = a)) as [->|]; [|tauto]. split; [tauto|]. intros _. left. by exists k.
  - intros c [Hc' Hne]%Hin. rewrite elem_of_union, elem_of_singleton. intros [Hd|Hd]; [|done].
    by apply (H2 c).
Qed.

Lemma owned_free ob am D a :
  owned ob am (D ∪ {[a]}) → a ∉ D → owned (delete a ob) am D.
Proof.
  intros [H1 H2] Ha. split.
  - intros c. rewrite lookup_delete_is_Some, H1, elem_of_union, elem_of_singleton. split; [naive_solver|].
    intros [Hc|Hc].
    + split; [|tauto]. intros <-. apply (H2 a Hc). set_solver.
    + split; [set_solver|tauto].
  - intros c Hc Hd. apply (H2 c Hc). set_solver.
Qed.

(** The object of a key is unlinked; it is still allocated. *)
Lemma find_unlink_run T V σ h t bv v am D tmpl a pv (Q : unit → hs → Prop) :
  shape T V σ h t bv v am → owned (objs σ) am D → am !! key tmpl = Some a →
  place σ t v am (Z.to_nat (hash_get_slot t (fun_hash tmpl))) pv a →
  (∀ σ' v', shape T V σ' h t bv v' (delete (key tmpl) am) →
     owned (objs σ') (delete (key tmpl) am) (D ∪ {[a]}) →
     core <$> objs σ' = core <$> objs σ → Q tt σ') →
  wp (bucket_unlink h (hash_get_slot t (fun_hash tmpl)) pv a) Q σ.
Proof.
  intros Hs Ho Ha Hpl HQ. destruct (shape_slot _ _ _ _ _ _ _ _ (fun_hash tmpl) Hs) as [Hix _].
  eapply wp_mono; [by eapply bucket_unlink_run|]. intros [] σ' (v' & Hs' & Hc).
  apply (HQ σ' v'); [done| |done]. eapply owned_delete; [by apply Hs|done..].
Qed.

Lemma hash_remove_run T V D σ h am tmpl :
  hash_ok T V D σ h am →
  wp (hash_remove h tmpl) (λ r σ', r = am !! key tmpl ∧
    match am !! key tmpl with
    | Some a => hash_ok T V (D ∪ {[a]}) σ' h (delete (key tmpl) am) ∧
        core <$> objs σ' = core <$> objs σ
    | None => σ' = σ
    end) σ.
Proof.
  intros (t & bv & v & Hs & Hthr & Hn & Hle & Ho).
  unfold hash_remove. wp_step. eapply wp_load_h; [by eapply shape_tab|]. wp_step.
  eapply wp_mono; [by eapply bucket_find_run|]. intros r σ' [-> Hr].
  destruct (am !! key tmpl) as [a|] eqn:Ha; [|subst r; by wp_step].
  destruct Hr as (pv & -> & Hpl).
  wp_step. eapply find_unlink_run; [done..|]. intros σ1 v1 Hs1 Ho1 Hc1.
  wp_step. eapply hash_count_removed_run; [done|done| |done|].
  { rewrite Hn, map_size_delete_Some by eauto.
    assert (size am ≠ 0) by (apply (map_size_ne_0_lookup_2 _ (key tmpl)); eauto). lia. }
  intros σ2 t2 bv2 v2 Hs2 (? & ? & ?) Hc2. wp_step. split; [done|]. split; [|congruence].
  exists t2, bv2, v2. split; [done|]. split; [done|]. split; [done|]. split; [done|].
  by eapply owned_core.
Qed.

Lemma hash_erase_run T V D σ h am tmpl :
  hash_ok T V D σ h am →
  wp (hash_erase h tmpl) (λ r σ',
    match am !! key tmpl with
    | Some a => r = true ∧ hash_ok T V D σ' h (delete (key tmpl) am) ∧
        core <$> objs σ' = delete a (core <$> objs σ)
    | None => r = false ∧ σ' = σ
    end) σ.
Proof.
  intros (t & bv & v & Hs & Hthr & Hn & Hle & Ho).
  unfold hash_erase. wp_step. eapply wp_load_h; [by eapply shape_tab|]. wp_step.
  eapply wp_mono; [by eapply bucket_find_run|]. intros r σ' [-> Hr].
  destruct (am !! key tmpl) as [a|] eqn:Ha; [|subst r; by wp_step].
  destruct Hr as (pv & -> & Hpl).
  wp_step. eapply find_unlink_run; [done..|]. intros σ1 v1 Hs1 Ho1 Hc1.
  assert (in_table am a) as Hin by (by exists (key tmpl)).
  assert (is_Some (objs σ1 !! a)) as [x Hx] by (apply Ho1; set_solver).
  wp_step. eapply wp_obj_free; [done|].
  assert (∀ k, delete (key tmpl) am !! k ≠ Some a) as Hnot.
  { intros k Hk. apply (proj2 Ho1 a); [by exists k|set_solver]. }
  apply (owned_free _ _ _ _) in Ho1; [|by apply Ho].
  wp_step. eapply hash_count_removed_run; [by apply shape_free|done| |done|].
  { rewrite Hn, map_size_delete_Some by eauto.
    assert (size am ≠ 0) by (apply (map_size_ne_0_lookup_2 _ (key tmpl)); eauto). lia. }
  simpl. intros σ2 t2 bv2 v2 Hs2 (? & ? & ?) Hc2. wp_step. split; [done|].
  split; [|by rewrite Hc2, fmap_delete, Hc1].
  exists t2, bv2, v2. split; [done|]. split; [done|]. split; [done|]. split; [done|].
  by eapply owned_core.
Qed.

End ops.

(** Creation and deletion of hash tables: a new table is empty, a deleted one
    gives back its vector and all the objects it stores. *)

(** The initial number of slots is a power of two of at most 2^27. *)
Lemma init_shift_run n : ∀ sh size,
  (0 ≤ size ≤ 2 ^ MAX_BITS)%Z → (1 ≤ sh ≤ MAX_BITS)%Z → (MAX_BITS < Z.of_nat n + sh)%Z →
  ∃ sh', init_shift n sh size = Some sh' ∧ (1 ≤ sh' ≤ MAX_BITS)%Z ∧ (size ≤ 2 ^ sh')%Z.
Proof.
  induction n as [|n IH]; intros sh size Hsz Hsh Hn; [lia|].
  change (2 ^ MAX_BITS)%Z with 134217728%Z in Hsz. simpl.
  rewrite wrapu_small by lia. rewrite Z.shiftl_1_l. case_decide as Hd.
  - apply IH; [done| |lia]. split; [lia|]. destruct (decide (sh = MAX_BITS)) as [->|]; [|lia].
    change (2 ^ MAX_BITS)%Z with 134217728%Z in Hd. lia.
  - exists sh. split; [done|]. split; [done|]. lia.
Qed.

Section life.
Context {O K : Type} {F : HashFunctions O} {key : O → K} `{Countable K} {L : HashLaws O K F key}.
Implicit Types am : gmap K positive.
Implicit Types σ : hs (O:=O).
Implicit Types T : gmap positive Hash.
Implicit Types V : gmap positive (list (option positive)).

Abbreviation shape := (shape (key:=key)).
Abbreviation in_slot := (in_slot (key:=key)).
Abbreviation hash_ok := (hash_ok (key:=key)).

Lemma in_slot_empty ob t j a : ¬ in_slot ob t ∅ j a.
Proof. intros (x & _ & Hk & _). by rewrite lookup_empty in Hk. Qed.

Lemma hash_init_run D σ type h name sz (Q : positive → hs → Prop) :
  tabs σ !! h = None → (∀ a, is_Some (objs σ !! a) ↔ a ∈ D) → (0 ≤ sz ≤ 2 ^ MAX_BITS)%Z →
  (∀ σ', hash_ok (tabs σ) (vecs σ) D σ' h ∅ → objs σ' = objs σ → Q h σ') →
  wp (hash_init type h name sz) Q σ.
Proof.
  intros Hh HD Hsz HQ.
  destruct (init_shift_run 63 1 sz) as (sh & Hsh & Hb & _); [done|unfold MAX_BITS; lia..|].
  unfold hash_init. rewrite Hsh. do 5 wp_step.
  eapply wp_set_thresholds; [apply lookup_insert_eq|unfold bits, MAX_SHIFT, MAX_BITS in *; simpl; lia|].
  simpl. intros t Hs Hm _ Hn _ Hthr. simpl in *. wp_step. eapply wp_load_h; [apply lookup_insert_eq|].
  assert (bits t = sh) as Hbt by (unfold bits; rewrite Hs; lia).
  rewrite hash_get_slots_pow by lia. wp_step. apply wp_meta_alloc_vec; [lia|]. simpl. intros nb Hnb.
  wp_step. eapply wp_upd_h; [apply lookup_insert_eq|]. simpl. wp_step.
  rewrite !insert_insert_eq. apply HQ; [|done].
  set (t1 := t <| bucket := Some nb |>).
  exists t1, nb, (replicate (Z.to_nat (2 ^ bits t)) None). split; [constructor; simpl; try done|].
  - apply length_replicate.
  - rewrite Hm. unfold bits in *. simpl. lia.
  - intros j p [-> _]%lookup_replicate. apply chain_nil. intros a. apply in_slot_empty.
  - split; [done|]. split; [by rewrite map_size_empty|]. split.
    + change (nobjs t1) with (nobjs t). rewrite Hn. destruct Hthr as [Hg _].
      change (grow_threshold t1) with (grow_threshold t). rewrite Hg.
      pose proof (pow_bits_range (bits t) ltac:(lia)). apply Z.div_pos; lia.
    + split; [|intros a (k & Hk); by rewrite lookup_empty in Hk]. simpl. intros a. rewrite HD.
      split; [by right|]. intros [(k & Hk)|]; [by rewrite lookup_empty in Hk|done].
Qed.

Lemma hash_new_run D σ type name sz (Q : positive → hs → Prop) :
  (∀ a, is_Some (objs σ !! a) ↔ a ∈ D) → (0 ≤ sz ≤ 2 ^ MAX_BITS)%Z →
  (∀ h σ', hash_ok (tabs σ) (vecs σ) D σ' h ∅ → objs σ' = objs σ → is_allocated <$> tabs σ' !! h = Some true → Q h σ') →
  wp (hash_new type name sz) Q σ.
Proof.
  intros HD Hsz HQ. unfold hash_new. wp_step. wp_step. wp_step.
  assert (tabs σ !! meta_alloc (hs_used σ) SIZEOF_HASH = None) as Hh.
  { eapply not_elem_of_dom. intros Hd.
    apply (meta_alloc_fresh (K:=K) (key:=key) (hs_used σ) SIZEOF_HASH).
    unfold hs_used at 2. set_solver. }
  eapply hash_init_run; [done|done|done|]. intros σ' (t & bv & v & Hs & Hr) Hob.
  wp_step. eapply wp_upd_h; [by eapply shape_tab|]. wp_step. apply HQ; [|done|cbn; by rewrite lookup_insert_eq].
  set (t1 := t <| is_allocated := true |>). exists t1, bv, v. split; [|done].
  by apply (shape_new_tab _ _ _ _ _ t1 _ _ _ Hs).
Qed.

(** ** Deletion *)

(** The objects [dn] have been freed. *)
Definition freed σ (dn : gset positive) (σ' : hs (O:=O)) : Prop :=
  tabs σ' = tabs σ ∧ vecs σ' = vecs σ ∧
  ∀ a, objs σ' !! a = if decide (a ∈ dn) then None else objs σ !! a.

Lemma chain_delete_frees σ0 l :
  ∀ b dn σ fuel, length l ≤ fuel → freed σ0 dn σ → lseg (nxt (objs σ0)) b l None → NoDup l →
    (∀ a, a ∈ l → a ∉ dn) →
    wp (chain_delete fuel b) (λ _ σ', freed σ0 (dn ∪ list_to_set l) σ') σ.
Proof.
  induction l as [|a l IH]; intros b dn σ fuel Hf (Ht & Hv & Ho) Hl Hnd Hdn.
  - simpl in Hl. subst b. destruct fuel; simpl; rewrite union_empty_r_L; done.
  - destruct Hl as (-> & p & Hn & Hl). apply NoDup_cons in Hnd as [Hal Hnd].
    destruct fuel as [|fuel]; simpl in Hf; [lia|]. simpl.
    unfold nxt in Hn. destruct (objs σ0 !! a) as [x|] eqn:Hx; [|done]. injection Hn as <-.
    assert (objs σ !! a = Some x) as Hxa.
    { rewrite Ho, decide_False; [done|]. apply Hdn. left. }
    wp_step. eapply wp_load_b; [done|]. wp_step. eapply wp_obj_free; [done|].
    assert (dn ∪ ({[a]} ∪ list_to_set l) = (dn ∪ {[a]}) ∪ list_to_set l) as -> by set_solver.
    apply IH; [lia| |done|done|set_solver]. split; [done|]. split; [done|]. intros c. simpl.
    destruct (decide (c = a)) as [->|Hc].
    + rewrite lookup_delete_eq, decide_True; [done|set_solver].
    + rewrite lookup_delete_ne, Ho by done. apply decide_ext. set_solver.
Qed.

Definition freed_below σ (t : Hash) am (n : nat) (σ' : hs (O:=O)) : Prop :=
  ∃ dn, freed σ dn σ' ∧
    ∀ a, a ∈ dn ↔ ∃ x, objs σ !! a = Some x ∧ am !! key (obj x) = Some a ∧
                       (hash_get_slot t (hvalue x) < Z.of_nat n)%Z.

Lemma delete_slot T V σ h t bv v am i σ' :
  shape T V σ h t bv v am → i < length v → freed_below σ t am i σ' →
  wp (b ← get_bucket h (Z.of_nat i); σ ← get; chain_delete (size (objs σ)) b)
    (λ _, freed_below σ t am (S i)) σ'.
Proof.
  intros Hs Hi (dn & (Ht & Hv & Ho) & Hdn). destruct (lookup_lt_is_Some_2 v i Hi) as (p & Hp).
  wp_step. eapply wp_hash_get_bucket with (v := v);
    [rewrite Ht; by eapply shape_tab|apply Hs|rewrite Hv; by eapply shape_vec|lia|by rewrite Nat2Z.id|].
  wp_step. wp_step. destruct (sh_chains _ _ _ _ _ _ _ _ Hs _ _ Hp) as (l & Hl & Hnd & Hin).
  assert (∀ a, a ∈ l → a ∉ dn) as Hout.
  { intros a Ha Hd. apply Hin in Ha as (x & Hx & _ & Hs1). apply Hdn in Hd as (y & Hy & _ & Hlt).
    rewrite Hx in Hy. injection Hy as <-. lia. }
  eapply wp_mono; [apply (chain_delete_frees σ l p dn)|]; [|done|done|done|done|].
  - apply nodup_fuel; [done|]. intros a Ha. rewrite Ho, decide_False by auto.
    by eapply lseg_nxt_mapped.
  - intros [] σ2 Hf2. exists (dn ∪ list_to_set l). split; [done|]. intros a.
    rewrite elem_of_union, elem_of_list_to_set, Hin, Hdn. unfold HashInv.in_slot. split.
    + intros [(x & ? & ? & ?)|(x & ? & ? & ?)]; exists x; (split; [done|]); (split; [done|]); lia.
    + intros (x & ? & ? & ?). destruct (decide (hash_get_slot t (hvalue x) < Z.of_nat i)%Z).
      * left. eauto.
      * right. exists x. split; [done|]. split; [done|]. lia.
Qed.

Lemma hash_delete_run T V D σ h am :
  hash_ok T V D σ h am →
  wp (hash_delete h) (λ _ σ', vecs σ' = V ∧ (∀ a, is_Some (objs σ' !! a) ↔ a ∈ D) ∧
    ∃ t, tabs σ !! h = Some t ∧ tabs σ' = if is_allocated t then T else tabs σ) σ.
Proof.
  intros (t & bv & v & Hs & Hthr & Hn & Hle & HD1 & HD2).
  pose proof (sh_bits _ _ _ _ _ _ _ _ Hs) as [Hb1 Hb2].
  unfold hash_delete. wp_step. eapply wp_load_h; [by eapply shape_tab|].
  rewrite hash_get_slots_pow by lia. wp_step.
  apply (wp_for_range (freed_below σ t am)).
  - exists ∅. split; [split; [done|]; split; [done|]; intros a; by rewrite decide_False by set_solver|].
    intros a. split; [set_solver|]. intros (x & _ & _ & Hlt).
    pose proof (hash_get_slot_range t (hvalue x)). lia.
  - intros j σ' Hj. eapply delete_slot; [done|]. rewrite (sh_len _ _ _ _ _ _ _ _ Hs). lia.
  - intros σ' (dn & (Ht & Hv & Ho) & Hdn). wp_step.
    eapply wp_load_h; [rewrite Ht; by eapply shape_tab|]. rewrite (sh_bucket _ _ _ _ _ _ _ _ Hs).
    wp_step. eapply wp_meta_free_vec; [rewrite Hv; by eapply shape_vec|]. rewrite Hv, Ht.
    rewrite (sh_vecs _ _ _ _ _ _ _ _ Hs), (delete_insert_id V) by apply Hs.
    assert (∀ a, a ∈ dn ↔ in_table am a) as Hin.
    { intros a. rewrite Hdn. split; [intros (x & _ & Hk & _); by eexists|]. intros (k & Hk).
      destruct (in_slot_hash _ _ _ _ _ _ _ _ _ _ Hs Hk) as (x & Hx & Hkx & _). exists x.
      rewrite Hkx. split; [done|]. split; [done|].
      pose proof (hash_get_slot_range t (hvalue x) ltac:(lia)). lia. }
    assert (∀ a, is_Some (objs σ' !! a) ↔ a ∈ D) as HDa.
    { intros a. rewrite Ho. case_decide as Hd.
      - rewrite is_Some_alt. split; [done|]. intros Ha. by destruct (HD2 a); [apply Hin|].
      - rewrite HD1, <- Hin. tauto. }
    destruct (is_allocated t) eqn:Hal; [wp_step|wp_step]; (split; [done|]); (split; [done|]);
      exists t; (split; [by eapply shape_tab|]); rewrite Hal; [|done].
    simpl. rewrite (sh_tabs _ _ _ _ _ _ _ _ Hs). apply delete_insert_id, Hs.
Qed.

End life.
