(* ===== verification/HashThms.v ===== *)
(** A hash table is a finite map: every sequence of operations on a new table
    answers like the same operations on a map from keys to objects, and the
    deletion gives back everything but the objects handed out. *)

From stdpp Require Import base numbers list gmap strings sets.
From Stdlib Require Import ZArith Lia.
From S2P Require Import Prelude HashTable HashInv HashRehash HashOps.

(** ** Operations *)

Inductive hop (O : Type) : Type :=
  | HGet (x : O)
  | HPut (x : O)
  | HErase (x : O)
  | HRemove (x : O).

Arguments HGet {O} x.
Arguments HPut {O} x.
Arguments HErase {O} x.
Arguments HRemove {O} x.

Section spec.
Context {O K : Type} {F : HashFunctions O} (key : O → K) `{Countable K}.

(** The object behind a result. *)
Definition load_obj (r : option positive) : M hs (option O) :=
  match r with
  | Some b => x ← load_b b; mret (Some (obj x))
  | None => mret None
  end.

Definition run_hop (h : positive) (op : hop O) : M hs (option O) :=
  match op with
  | HGet x => hash_get h x ≫= load_obj
  | HPut x => b ← hash_put h x; load_obj (Some b)
  | HErase x => b ← hash_erase h x; mret (if b : bool then Some x else None)
  | HRemove x => hash_remove h x ≫= load_obj
  end.

Fixpoint run_hops (h : positive) (ops : list (hop O)) : M hs (list (option O)) :=
  match ops with
  | [] => mret []
  | op :: ops' => r ← run_hop h op; rs ← run_hops h ops'; mret (r :: rs)
  end.

(** The abstract map, with the number of objects handed out by removals. *)
Definition map_hop (m : gmap K O) (op : hop O) : option O * gmap K O * nat :=
  match op with
  | HGet x => (m !! key x, m, 0)
  | HPut x =>
      match m !! key x with
      | Some o => (Some o, m, 0)
      | None => (Some (fun_alloc x), <[key x := fun_alloc x]> m, 0)
      end
  | HErase x => (match m !! key x with Some _ => Some x | None => None end, delete (key x) m, 0)
  | HRemove x => (m !! key x, delete (key x) m, if m !! key x is Some _ then 1 else 0)
  end.

Fixpoint map_hops (m : gmap K O) (ops : list (hop O)) : list (option O) * nat :=
  match ops with
  | [] => ([], 0)
  | op :: ops' =>
      let '(r, m', n) := map_hop m op in
      let '(rs, n') := map_hops m' ops' in (r :: rs, n + n')
  end.

(** The largest number of keys that the map has on the way. *)
Fixpoint map_peak (m : gmap K O) (ops : list (hop O)) : nat :=
  match ops with
  | [] => size m
  | op :: ops' => Nat.max (size m) (map_peak (map_hop m op).1.2 ops')
  end.

(** A whole life of a table. *)
Definition hash_life (type : Z) (name : string) (sz : Z) (ops : list (hop O)) :
    M hs (list (option O)) :=
  h ← hash_new type name sz;
  rs ← run_hops h ops;
  _ ← hash_delete h;
  mret rs.

End spec.

(** ** The mark of a table that [hash_new] has allocated *)

Section keeps.
Context {O : Type} {F : HashFunctions O}.
Implicit Types σ : hs (O:=O).

(** An operation that changes no such mark. *)
Definition keeps {A} (m : M (hs (O:=O)) A) : Prop :=
  ∀ σ x σ', m σ = Some (x, σ') → is_allocated <$> tabs σ' = is_allocated <$> tabs σ.

Lemma keeps_bind {A B} (m : M hs A) (f : A → M hs B) : keeps m → (∀ x, keeps (f x)) → keeps (m ≫= f).
Proof.
  intros Hm Hf σ x σ'. unfold mbind, M_bind. destruct (m σ) as [[y σ1]|] eqn:E; [|done].
  intros Hx. by rewrite (Hf _ _ _ _ Hx), (Hm _ _ _ E).
Qed.

Lemma keeps_ret {A} (x : A) : keeps (mret x).
Proof. by intros σ y σ' [= _ <-]. Qed.
Lemma keeps_get : keeps get.
Proof. by intros σ y σ' [= _ <-]. Qed.
Lemma keeps_ub {A} : keeps (A:=A) ub.
Proof. done. Qed.
Lemma keeps_deref {A} (o : option A) : keeps (deref o).
Proof. destruct o; [apply keeps_ret|apply keeps_ub]. Qed.
Lemma keeps_modify f : (∀ σ, tabs (f σ) = tabs σ) → keeps (modify f).
Proof. intros Hf σ x σ' [= _ <-]. by rewrite Hf. Qed.
Lemma keeps_upd_h h f : (∀ t, is_allocated (f t) = is_allocated t) → keeps (upd_h h f).
Proof.
  intros Hf. apply keeps_bind; [apply keeps_bind; [apply keeps_get|intros; apply keeps_deref]|].
  intros _ σ x σ' [= _ <-]. apply map_eq. intros i. cbn. rewrite !lookup_fmap.
  destruct (decide (i = h)) as [->|Hi]; [|by rewrite lookup_alter_ne].
  rewrite lookup_alter_eq. destruct (tabs σ !! h); [|done]. cbn. by rewrite Hf.
Qed.
Lemma keeps_for_range (f : nat → M hs unit) i n : (∀ j, keeps (f j)) → keeps (for_range f i n).
Proof. intros Hf. revert i. induction n as [|n IH]; intros i; [apply keeps_ret|]. apply keeps_bind; auto. Qed.
Lemma keeps_int_expr x : keeps (int_expr x).
Proof. unfold int_expr. case_decide; [apply keeps_ret|apply keeps_ub]. Qed.

(** Follows the structure of an operation. *)
Ltac keep :=
  repeat lazymatch goal with
  | |- keeps (_ ≫= _) => apply keeps_bind; [|intros ?]
  | |- keeps (mret _) => apply keeps_ret
  | |- keeps get => apply keeps_get
  | |- keeps ub => apply keeps_ub
  | |- keeps (deref _) => apply keeps_deref
  | |- keeps (modify _) => apply keeps_modify; done
  | |- keeps (upd_h _ _) => apply keeps_upd_h; done
  | |- keeps (for_range _ _ _) => apply keeps_for_range; intros ?
  | |- keeps (int_expr _) => apply keeps_int_expr
  | |- keeps (if ?b then _ else _) => destruct b
  | |- keeps (match ?x with _ => _ end) => destruct x
  | |- keeps (let '(_, _) := ?x in _) => destruct x
  | |- keeps ?m => first [assumption|progress unfold load_h, load_b, upd_b, get_vec, set_vec, get_bucket, set_bucket, load_obj, obj_alloc,
      obj_free, meta_alloc_vec, meta_free_vec, bucket_unlink, rehash_shift, set_thresholds, count_added, count_removed, bucket_find; cbv zeta]
  end.

Lemma keeps_chain_find fuel tmpl hv prev b : keeps (chain_find fuel tmpl hv prev b).
Proof. revert prev b. induction fuel as [|fuel IH]; intros prev [a|]; cbn [chain_find]; keep. apply IH. Qed.

Lemma keeps_rehash_chain fuel h nb b : keeps (rehash_chain fuel h nb b).
Proof. revert b. induction fuel as [|fuel IH]; intros [a|]; cbn [rehash_chain]; keep. apply IH. Qed.

Lemma keeps_rehash h grow : keeps (rehash h grow).
Proof. unfold rehash. keep. apply keeps_rehash_chain. Qed.

Lemma keeps_run_hop h op : keeps (run_hop h op).
Proof.
  destruct op as [x|x|x|x]; cbn [run_hop]; unfold hash_get, hash_fetch, hash_put, hash_erase, hash_remove; keep.
  all: try apply keeps_chain_find; apply keeps_rehash.
Qed.

Lemma keeps_run_hops h ops : keeps (run_hops h ops).
Proof. induction ops as [|op ops IH]; cbn [run_hops]; keep. apply keeps_run_hop. Qed.

Lemma wp_keeps {A} (m : M hs A) (Q : A → hs → Prop) σ :
  keeps m → wp m Q σ → wp m (λ x σ', Q x σ' ∧ is_allocated <$> tabs σ' = is_allocated <$> tabs σ) σ.
Proof. intros Hm. unfold wp. destruct (m σ) as [[x σ']|] eqn:E; [|done]. intros HQ. split; [done|by eapply Hm]. Qed.

End keeps.

(** ** Simulation *)

Section sim.
Context {O K : Type} {F : HashFunctions O} {key : O → K} `{Countable K} {L : HashLaws O K F key}.
Implicit Types am : gmap K positive.
Implicit Types σ : hs (O:=O).

Abbreviation hash_ok := (hash_ok (key:=key)).

(** The map of the contents of the stored objects. *)
Definition contents (σ : hs (O:=O)) (am : gmap K positive) (m : gmap K O) : Prop :=
  ∀ k, m !! k = (am !! k) ≫= λ a, snd <$> (core <$> objs σ) !! a.

Definition sim T V D σ h am m : Prop := hash_ok T V D σ h am ∧ contents σ am m.

Lemma sim_stored T V D σ h am m k a :
  sim T V D σ h am m → am !! k = Some a → ∃ x, objs σ !! a = Some x ∧ m !! k = Some (obj x).
Proof.
  intros [(t & bv & v & Hs & _) Hc] Ha. destruct (sh_keyed _ _ _ _ _ _ _ _ Hs k a Ha) as (x & Hx & _).
  exists x. split; [done|]. rewrite Hc, Ha. simpl. by rewrite lookup_fmap, Hx.
Qed.

Lemma sim_absent T V D σ h am m k : sim T V D σ h am m → am !! k = None → m !! k = None.
Proof. intros [_ Hc] Ha. by rewrite Hc, Ha. Qed.

Lemma load_obj_sim T V D σ h am m k :
  sim T V D σ h am m → wp (load_obj (am !! k)) (λ r σ', r = m !! k ∧ σ' = σ) σ.
Proof.
  intros Hs. destruct (am !! k) as [a|] eqn:Ha; simpl.
  - destruct (sim_stored _ _ _ _ _ _ _ _ _ Hs Ha) as (x & Hx & Hm).
    wp_step. eapply wp_load_b; [done|]. by wp_step.
  - wp_step. by rewrite (sim_absent _ _ _ _ _ _ _ _ Hs Ha).
Qed.

(** Removing a key, whether or not its object is freed. *)
Lemma contents_delete σ σ' am m k c :
  contents σ am m → (∀ k' a, am !! k' = Some a → k' ≠ k → c !! a = (core <$> objs σ) !! a) →
  core <$> objs σ' = c → contents σ' (delete k am) (delete k m).
Proof.
  intros Hc Ho He k'. rewrite He. destruct (decide (k' = k)) as [->|Hk].
  - by rewrite !lookup_delete_eq.
  - rewrite !lookup_delete_ne, Hc by done. destruct (am !! k') as [a|] eqn:Ha; [|done]. simpl.
    by rewrite (Ho k' a).
Qed.

Lemma sim_size T V D σ h am m : sim T V D σ h am m → size m = size am.
Proof.
  intros Hs. rewrite <- !size_dom. f_equal. apply set_eq. intros k. rewrite !elem_of_dom.
  destruct (am !! k) as [a|] eqn:Ha.
  - destruct (sim_stored _ _ _ _ _ _ _ _ _ Hs Ha) as (x & _ & ->). split; by eexists.
  - by rewrite (sim_absent _ _ _ _ _ _ _ _ Hs Ha).
Qed.

Lemma run_hop_sim T V D σ h am m op :
  sim T V D σ h am m → (Z.of_nat (size (map_hop key m op).1.2) ≤ MAX_OBJS)%Z →
  wp (run_hop h op) (λ r σ', ∃ D' am' m' n, map_hop key m op = (r, m', n) ∧
    sim T V D' σ' h am' m' ∧ size D' = size D + n) σ.
Proof.
  intros Hsim Hsz. pose proof Hsim as [Hok Hc]. destruct op as [x|x|x|x]; simpl.
  - wp_step. eapply wp_mono; [by eapply hash_get_run|]. intros r σ' [-> ->].
    eapply wp_mono; [by eapply load_obj_sim|]. intros r σ' [-> ->].
    exists D, am, m, 0. eauto with lia.
  - wp_step. eapply wp_mono.
    { eapply hash_put_run; [done|]. intros Ha. revert Hsz. cbn. rewrite (sim_absent _ _ _ _ _ _ _ _ Hsim Ha). cbn.
      rewrite map_size_insert_None, (sim_size _ _ _ _ _ _ _ Hsim) by by eapply sim_absent. lia. }
    intros b σ' Hb.
    destruct (am !! key x) as [a|] eqn:Ha.
    + destruct Hb as [-> ->]. destruct (sim_stored _ _ _ _ _ _ _ _ _ Hsim Ha) as (y & Hy & Hm).
      simpl. wp_step. eapply wp_load_b; [done|]. wp_step. exists D, am, m, 0. rewrite Hm. eauto with lia.
    + destruct Hb as (Hnew & Hok' & Hcore).
      assert (∃ y, objs σ' !! b = Some y ∧ obj y = fun_alloc x) as (y & Hy & Hobj).
      { apply (f_equal (lookup b)) in Hcore. rewrite lookup_insert_eq, lookup_fmap in Hcore.
        destruct (objs σ' !! b) as [y|]; [|done]. injection Hcore as _ <-. eauto. }
      simpl. wp_step. eapply wp_load_b; [done|]. wp_step.
      exists D, (<[key x := b]> am), (<[key x := fun_alloc x]> m), 0.
      rewrite (sim_absent _ _ _ _ _ _ _ _ Hsim Ha), Hobj. split; [done|]. split; [split; [done|]|lia].
      intros k. rewrite Hcore. destruct (decide (k = key x)) as [->|Hk].
      * rewrite !lookup_insert_eq. simpl. by rewrite lookup_insert_eq.
      * rewrite !(lookup_insert_ne _ (key x)), Hc by done.
        destruct (am !! k) as [a|] eqn:Hak; [|done]. simpl. rewrite lookup_insert_ne; [done|].
        intros <-. destruct (sim_stored _ _ _ _ _ _ _ _ _ Hsim Hak) as (z & Hz & _). congruence.
  - wp_step. eapply wp_mono; [by eapply hash_erase_run|]. intros r σ' Hr.
    destruct (am !! key x) as [a|] eqn:Ha.
    + destruct Hr as (-> & Hok' & Hcore). wp_step.
      destruct (sim_stored _ _ _ _ _ _ _ _ _ Hsim Ha) as (y & Hy & Hm).
      exists D, (delete (key x) am), (delete (key x) m), 0. rewrite Hm. split; [done|].
      split; [split; [done|]|lia].
      eapply contents_delete; [done| |done]. intros k a' Ha' Hk. apply lookup_delete_ne. intros <-.
      destruct Hok as (t & bv & v & Hs & _). apply Hk. eapply keyed_inj; [apply Hs|done|done].
    + destruct Hr as [-> ->]. wp_step. pose proof (sim_absent _ _ _ _ _ _ _ _ Hsim Ha) as Hm.
      exists D, am, m, 0. rewrite Hm, delete_id by done. eauto with lia.
  - wp_step. eapply wp_mono; [by eapply hash_remove_run|]. intros r σ' [-> Hr].
    destruct (am !! key x) as [a|] eqn:Ha.
    + destruct Hr as (Hok' & Hcore).
      destruct (sim_stored _ _ _ _ _ _ _ _ _ Hsim Ha) as (y & Hy & Hm).
      symmetry in Hcore. destruct (core_lookup _ _ _ _ Hcore Hy) as (y' & Hy' & _ & Hobj).
      simpl. wp_step. eapply wp_load_b; [done|]. wp_step.
      exists (D ∪ {[a]}), (delete (key x) am), (delete (key x) m), 1. rewrite Hm, Hobj. split; [done|].
      split; [split; [done|]|].
      * eapply contents_delete; [done| |done]. intros k a' Ha' Hk. by rewrite Hcore.
      * rewrite size_union, size_singleton; [lia|]. destruct Hok as (t & bv & v & _ & _ & _ & _ & _ & HD).
        apply disjoint_singleton_r. apply HD. by exists (key x).
    + subst σ'. simpl. wp_step. pose proof (sim_absent _ _ _ _ _ _ _ _ Hsim Ha) as Hm.
      exists D, am, m, 0. rewrite Hm, delete_id by done. eauto with lia.
Qed.

Lemma run_hops_sim T V h ops : ∀ D σ am m,
  sim T V D σ h am m → (Z.of_nat (map_peak key m ops) ≤ MAX_OBJS)%Z →
  wp (run_hops h ops) (λ rs σ', ∃ D' am' m' n, map_hops key m ops = (rs, n) ∧
    sim T V D' σ' h am' m' ∧ size D' = size D + n) σ.
Proof.
  induction ops as [|op ops IH]; intros D σ am m Hsim Hsz; simpl in *.
  - wp_step. exists D, am, m, 0. auto with lia.
  - assert (∀ op m, size (map_hop key m op).1.2 ≤ map_peak key (map_hop key m op).1.2 ops) as Hpk
      by (intros; destruct ops; simpl; lia).
    wp_step. eapply wp_mono; [eapply run_hop_sim; [done|specialize (Hpk op m); lia]|].
    intros r σ1 (D1 & am1 & m1 & n1 & Hop & Hsim1 & HD1). rewrite Hop in Hsz. simpl in Hsz.
    wp_step. eapply wp_mono; [eapply IH; [done|lia]|].
    intros rs σ2 (D2 & am2 & m2 & n2 & Hops & Hsim2 & HD2). wp_step.
    exists D2, am2, m2, (n1 + n2). rewrite Hop, Hops. split; [done|]. split; [done|]. lia.
Qed.

Lemma size_dom_eq (ob : gmap positive (HashBucket (O:=O))) (D : gset positive) :
  (∀ a, is_Some (ob !! a) ↔ a ∈ D) → size ob = size D.
Proof. intros HD. rewrite <- size_dom. f_equal. apply set_eq. intros a. by rewrite elem_of_dom. Qed.

End sim.

(** ** A concrete client: objects that are their own keys *)

#[global] Instance int_functions : HashFunctions Z := {|
  fun_hash := λ x, u64 x;
  fun_cmp := λ x y, if decide (x = y) then 0%Z else 1%Z;
  fun_alloc := λ x, x;
  obj_addr := fresh;
  meta_alloc := λ used _, fresh used
|}.

#[global] Instance int_laws : HashLaws Z Z int_functions id.
Proof.
  constructor.
  - intros x y. cbn. case_decide; naive_solver.
  - intros x y Hxy. cbn in Hxy. by subst.
  - intros x. by apply wrapu_range.
  - done.
  - intros used. apply is_fresh.
  - intros used sz. apply is_fresh.
Qed.

(** ** Properties *)

(** C4: A hash table refines a finite map. Whatever the hash and compare
    functions, a new table of at most 2^27 initial slots answers every sequence of
    look-ups, insertions, erasures and removals, in which the map never has more
    than 214748364 keys, exactly as the map from keys to objects does, through every
    doubling and halving of the slots, and never touches memory it does not own;
    deleting the table then frees the table structure, its vector and all the
    objects except those that removals handed out. *)
Theorem hash_life_refines_map {O K : Type} {F : HashFunctions O} {key : O → K} `{Countable K}
    {L : HashLaws O K F key} (σ : hs) (type : Z) (name : string) (sz : Z) (ops : list (hop O)) :
  (0 ≤ sz ≤ 2 ^ MAX_BITS)%Z → (Z.of_nat (map_peak key ∅ ops) ≤ MAX_OBJS)%Z →
  wp (hash_life type name sz ops) (λ rs σ',
    rs = (map_hops key ∅ ops).1 ∧ tabs σ' = tabs σ ∧ vecs σ' = vecs σ ∧
    size (objs σ') = size (objs σ) + (map_hops key ∅ ops).2) σ.
Proof.
  intros Hsz Hpk. unfold hash_life. wp_step.
  apply (hash_new_run (key:=key) (dom (objs σ))); [intros a; by rewrite elem_of_dom|done|].
  intros h σ1 Hok Hob Hal. wp_step.
  eapply wp_mono; [apply wp_keeps; [apply keeps_run_hops|]|].
  - apply (run_hops_sim (key:=key) (tabs σ) (vecs σ) h ops (dom (objs σ)) σ1 ∅ ∅); [|done].
    split; [done|]. intros k. by rewrite !lookup_empty.
  - intros rs σ2 [(D2 & am2 & m2 & n & Hops & [Hok2 _] & HD) Hkeep]. wp_step.
    eapply wp_mono; [by eapply hash_delete_run|]. intros [] σ3 (Hv & Ho & t & Ht & Htabs). wp_step.
    apply (f_equal (lookup h)) in Hkeep. rewrite !lookup_fmap, Hal, Ht in Hkeep. injection Hkeep as Hal2.
    rewrite Hops, Htabs, Hal2. split_and!; [done|done|done|].
    rewrite (size_dom_eq _ _ Ho), HD. by rewrite size_dom.
Qed.

Definition sample_ops : list (hop Z) :=
  [HPut 5; HPut 7; HPut 5; HGet 7; HRemove 5; HErase 5; HErase 7]%Z.

Theorem hash_life_refines_map_witness :
  wp (hash_life 0 "t" 3 sample_ops)
    (λ rs σ', rs = [Some 5; Some 7; Some 5; Some 7; Some 5; None; Some 7]%Z ∧ tabs σ' = ∅ ∧ vecs σ' = ∅ ∧
              size (objs σ') = 0 + 1)
    (mkHs ∅ ∅ ∅).
Proof.
  assert (map_hops id ∅ sample_ops =
    ([Some 5; Some 7; Some 5; Some 7; Some 5; None; Some 7]%Z, 1)) as Hm by (vm_compute; reflexivity).
  assert (Z.of_nat (map_peak id (∅ : gmap Z Z) sample_ops) ≤ MAX_OBJS)%Z as Hp by (vm_compute; discriminate).
  pose proof (hash_life_refines_map (key:=id) (mkHs ∅ ∅ ∅) 0 "t" 3 sample_ops
    ltac:(unfold MAX_BITS; lia) Hp) as Hw.
  rewrite Hm in Hw. exact Hw.
Defined.
