(* ===== verification/IndexTable.v ===== *)
(** Model of the index tables of [erts/emulator/beam/index.c] and [index.h]:
    a hash table whose objects are numbered in the order of their insertion,
    with a two-level table of pages from numbers to objects. *)

From S2P Require Import Prelude HashTable.
From stdpp Require Import base numbers list gmap strings.
From Stdlib Require Import ZArith.

(** [erts_alloc], which never returns null: the address of a new block of
    [size] bytes when the blocks at [used] are allocated. *)
Class ErtsAlloc : Type := { erts_alloc : gset positive → Z → positive }.
Class ErtsAllocLaws (A : ErtsAlloc) : Prop := {
  erts_alloc_fresh used size : erts_alloc used size ∉ used
}.

#[global] Instance fresh_erts_alloc : ErtsAlloc := {| erts_alloc := λ used _, fresh used |}.

#[global] Instance fresh_erts_alloc_laws : ErtsAllocLaws fresh_erts_alloc.
Proof. constructor. intros used size. apply is_fresh. Qed.

Definition INDEX_PAGE_SHIFT : Z := 10.
Definition INDEX_PAGE_SIZE : Z := Z.shiftl 1 INDEX_PAGE_SHIFT.
Definition INDEX_PAGE_MASK : Z := Z.shiftl 1 INDEX_PAGE_SHIFT - 1.

(** ** Data *)

(** An object of an index table: its number and the rest of its content. *)
Record IndexSlot (D : Type) : Type := mkIndexSlot {
  index : Z;                      (* int *)
  payload : D
}.

Arguments mkIndexSlot {D} index payload.
Arguments index {D} i.
Arguments payload {D} i.

#[global] Instance IndexSlot_eta D : Eta (IndexSlot D) := λ x, mkIndexSlot (index x) (payload x).

(** The fields behind [htable], which has the same address. *)
Record IndexTable : Type := mkIndexTable {
  it_type : Z;
  it_size : Z;                    (* int: allocated size *)
  it_limit : Z;                   (* int *)
  it_entries : Z;                 (* int *)
  seg_table : option positive
}.

#[global] Instance IndexTable_eta : Eta IndexTable := λ t,
  mkIndexTable (it_type t) (it_size t) (it_limit t) (it_entries t) (seg_table t).

Section index.
Context {D : Type} {F : HashFunctions (IndexSlot D)} {A : ErtsAlloc}.

(** The hash tables, the index tables, the tables of pages and the pages. *)
Record ixs : Type := mkIxs {
  ix_hash : hs (O:=IndexSlot D);
  itabs : gmap positive IndexTable;
  segs : gmap positive (list cell);
  pages : gmap positive (list cell)
}.

#[global] Instance ixs_eta : Eta ixs := λ σ, mkIxs (ix_hash σ) (itabs σ) (segs σ) (pages σ).

Abbreviation IM A := (M ixs A).

(** A call of a hash table function. *)
Definition on_hash {B} (m : M (hs (O:=IndexSlot D)) B) : IM B := λ σ,
  match m (ix_hash σ) with
  | Some (x, s) => Some (x, σ <| ix_hash := s |>)
  | None => None
  end.

Definition load_it (t : positive) : IM IndexTable := σ ← get; deref (itabs σ !! t).
Definition upd_it (t : positive) (f : IndexTable → IndexTable) : IM unit :=
  _ ← load_it t; modify (λ σ, σ <| itabs ::= alter f t |>).

(** Element [i] of the block at [p] among [m]; indeterminate elements must not be read. *)
Definition get_elem (m : gmap positive (list cell)) (p : option positive) (i : Z) :
    IM (option positive) :=
  a ← deref p; l ← deref (m !! a);
  if decide (0 ≤ i)%Z then
    c ← deref (l !! Z.to_nat i);
    match c with Val q => mret q | Uninit => ub end
  else ub.

(** Writes element [i]; a write behind the block is undefined. *)
Definition set_elem (m : gmap positive (list cell)) (p : option positive) (i : Z) (q : option positive) :
    IM (gmap positive (list cell)) :=
  a ← deref p; l ← deref (m !! a);
  if decide (0 ≤ i < Z.of_nat (length l))%Z
  then mret (<[a := <[Z.to_nat i := Val q]> l]> m) else ub.

Definition ix_used (σ : ixs) : gset positive := dom (itabs σ) ∪ dom (segs σ) ∪ dom (pages σ).

(** ** Operations *)

Definition erts_index_init (type : Z) (t : positive) (name : string) (size limit : Z) : IM positive :=
  let base_size := (u64 (u64 limit + INDEX_PAGE_SIZE - 1) / INDEX_PAGE_SIZE * PTR_SIZE)%Z in
  n ← int_expr (3 * size);
  _ ← on_hash (hash_init type t name (Z.quot n 4));
  σ ← get;
  let s := erts_alloc (ix_used σ) base_size in
  _ ← modify (λ σ, σ <| segs ::= <[s := replicate (Z.to_nat (base_size / PTR_SIZE)) Uninit]> |>);
  _ ← modify (λ σ, σ <| itabs ::= <[t := mkIndexTable type 0 limit 0 (Some s)]> |>);
  mret t.

(** [if (ix >= t->size) { ... }]: a new page; [false] when [erts_exit] is called. *)
Definition grow_pages (t : positive) (ix : Z) : IM bool :=
  it ← load_it t;
  if decide (it_size it ≤ ix)%Z then
    if decide (it_limit it ≤ ix)%Z then mret false else
    σ ← get;
    let sz := (INDEX_PAGE_SIZE * PTR_SIZE)%Z in
    let p := erts_alloc (ix_used σ) sz in
    _ ← modify (λ σ, σ <| pages ::= <[p := replicate (Z.to_nat (sz / PTR_SIZE)) Uninit]> |>);
    m ← set_elem (segs σ) (seg_table it) (Z.shiftr ix INDEX_PAGE_SHIFT) (Some p);
    _ ← modify (λ σ, σ <| segs := m |>);
    n ← int_expr (it_size it + INDEX_PAGE_SIZE);
    _ ← upd_it t (λ it, it <| it_size := n |>);
    mret true
  else mret true.

(** [None] when the emulator exits because the table is full. *)
Definition index_put_entry (t : positive) (tmpl : IndexSlot D) : IM (option positive) :=
  p ← on_hash (hash_put t tmpl);
  x ← on_hash (load_b p);
  if decide (0 ≤ index (obj x))%Z then mret (Some p) else
  it ← load_it t;
  let ix := it_entries it in
  ok ← grow_pages t ix;
  if negb ok then mret None else
  _ ← on_hash (upd_b p (λ x, x <| obj ::= λ o, o <| index := ix |> |>));
  it ← load_it t;
  σ ← get;
  page ← get_elem (segs σ) (seg_table it) (Z.shiftr ix INDEX_PAGE_SHIFT);
  m ← set_elem (pages σ) page (Z.land ix INDEX_PAGE_MASK) (Some p);
  _ ← modify (λ σ, σ <| pages := m |>);
  n ← int_expr (it_entries it + 1);
  _ ← upd_it t (λ it, it <| it_entries := n |>);
  mret (Some p).

Definition index_put (t : positive) (tmpl : IndexSlot D) : IM (option Z) :=
  p ← index_put_entry t tmpl;
  match p with
  | Some a => x ← on_hash (load_b a); mret (Some (index (obj x)))
  | None => mret None
  end.

Definition index_get (t : positive) (tmpl : IndexSlot D) : IM Z :=
  p ← on_hash (hash_get t tmpl);
  match p with
  | Some a => x ← on_hash (load_b a); mret (index (obj x))
  | None => mret (-1)%Z
  end.

(** [t->seg_table[ix>>INDEX_PAGE_SHIFT][ix&INDEX_PAGE_MASK]] *)
Definition erts_index_lookup (t : positive) (ix : Z) : IM (option positive) :=
  it ← load_it t;
  σ ← get;
  page ← get_elem (segs σ) (seg_table it) (Z.shiftr ix INDEX_PAGE_SHIFT);
  get_elem (pages σ) page (Z.land ix INDEX_PAGE_MASK).

Definition erts_index_num_entries (t : positive) : IM Z :=
  it ← load_it t; mret (it_entries it).

Definition index_erase_latest_from (t : positive) (from_ix : Z) : IM unit :=
  it ← load_it t;
  if decide (from_ix < u64 (it_entries it))%Z then
    _ ← for_range (λ ix,
          p ← erts_index_lookup t (Z.of_nat ix);
          a ← deref p;
          x ← on_hash (load_b a);
          _ ← on_hash (hash_erase t (obj x));
          mret tt) (Z.to_nat from_ix) (Z.to_nat (it_entries it) - Z.to_nat from_ix);
    upd_it t (λ it, it <| it_entries := s32 from_ix |>)
  else mret tt.

End index.
