(* ===== verification/IndexInv.v ===== *)
(** The invariant of the index tables: the objects in the order of their
    numbers, the hash table that finds them by key, and the pages that hold
    them; every operation keeps it. *)

From stdpp Require Import base numbers list gmap strings sets.
From Stdlib Require Import ZArith Lia.
From S2P Require Import Prelude HashTable HashInv HashRehash HashOps IndexTable.

(** The [alloc] callbacks of the clients leave a new object without a number. *)
Class IndexClient {D : Type} (F : HashFunctions (IndexSlot D)) : Prop := {
  alloc_index x : index (fun_alloc x) = (-1)%Z
}.

Definition PAGE : nat := 1024.

Lemma page_of (i : nat) : Z.to_nat (Z.shiftr (Z.of_nat i) INDEX_PAGE_SHIFT) = i `div` PAGE.
Proof.
  rewrite Z.shiftr_div_pow2 by done. change (2 ^ INDEX_PAGE_SHIFT)%Z with (Z.of_nat PAGE).
  by rewrite <- Nat2Z.inj_div, Nat2Z.id.
Qed.

Lemma offset_of (i : nat) : Z.land (Z.of_nat i) INDEX_PAGE_MASK = Z.of_nat (i `mod` PAGE).
Proof.
  change INDEX_PAGE_MASK with (Z.ones 10). rewrite Z.land_ones by done.
  change (2 ^ 10)%Z with (Z.of_nat PAGE). by rewrite <- Nat2Z.inj_mod.
Qed.

Lemma page_lt (i n : nat) : i < PAGE * n → i `div` PAGE < n.
Proof. unfold PAGE. intros Hi. apply Nat.Div0.div_lt_upper_bound. lia. Qed.

Lemma offset_lt (i : nat) : i `mod` PAGE < PAGE.
Proof. unfold PAGE. apply Nat.mod_upper_bound. lia. Qed.

Lemma page_words : Z.to_nat (INDEX_PAGE_SIZE * PTR_SIZE / PTR_SIZE) = PAGE.
Proof. reflexivity. Qed.

Lemma page_size : PAGE = 1024.
Proof. reflexivity. Qed.

#[local] Opaque PAGE.

Section inv.
Context {D K : Type} {F : HashFunctions (IndexSlot D)} {A : ErtsAlloc} {ikey : D → K} `{Countable K}.

Definition key (x : IndexSlot D) : K := ikey (payload x).

(** [n] pages, reached through the table [sv] at [s]; entry [i] of page table
    is [Val (Some a)] when the object numbered [i] is at [a]. *)
Record pages_ok (sg pg : gmap positive (list cell)) (it : IndexTable) (s : positive)
    (sv : list cell) (n : nat) : Prop := {
  pk_table : seg_table it = Some s;
  pk_seg : sg !! s = Some sv;
  pk_len : Z.of_nat (length sv) = ((it_limit it + 1023) / 1024)%Z;
  pk_limit : (0 ≤ it_limit it < 2 ^ 31)%Z;
  pk_size : it_size it = Z.of_nat (PAGE * n);
  pk_pages : ∀ j, j < n → ∃ p pv, sv !! j = Some (Val (Some p)) ∧ pg !! p = Some pv ∧ length pv = PAGE;
  pk_inj : ∀ j j' p, j < n → j' < n → sv !! j = Some (Val (Some p)) → sv !! j' = Some (Val (Some p)) → j = j'
}.

(** The content of position [i]. *)
Definition cell_at (pg : gmap positive (list cell)) (sv : list cell) (i : nat) : option cell :=
  match sv !! (i `div` PAGE) with
  | Some (Val (Some p)) => pv ← pg !! p; pv !! (i `mod` PAGE)
  | _ => None
  end.

Definition numbered (ob : gmap positive HashBucket) (am : gmap K positive) (l : list positive) : Prop :=
  ∀ i a, l !! i = Some a →
    ∃ x, ob !! a = Some x ∧ index (obj x) = Z.of_nat i ∧ am !! key (obj x) = Some a.

(** The table at [t] has the objects [l], in the order of their numbers. *)
Record index_ok (σ : ixs) (t : positive) (am : gmap K positive) (l : list positive) (it : IndexTable)
    (s : positive) (sv : list cell) (n : nat) : Prop := {
  ik_hash : ∃ T V B, hash_ok (key:=key) T V B (ix_hash σ) t am;
  ik_tab : itabs σ !! t = Some it;
  ik_pages : pages_ok (segs σ) (pages σ) it s sv n;
  ik_entries : it_entries it = Z.of_nat (length l);
  ik_room : length l ≤ PAGE * n;
  ik_size : size am = length l;
  ik_numbered : numbered (objs (ix_hash σ)) am l;
  ik_all : ∀ k a, am !! k = Some a → a ∈ l;
  ik_cells : ∀ i a, l !! i = Some a → cell_at (pages σ) sv i = Some (Val (Some a))
}.

End inv.

(** ** Rules *)

Section rules.
Context {D : Type} {F : HashFunctions (IndexSlot D)} {A : ErtsAlloc}.
Implicit Types σ : ixs (D:=D).

Lemma wp_on_hash {B} (m : M hs B) (Q : B → ixs → Prop) σ :
  wp m (λ x s, Q x (mkIxs s (itabs σ) (segs σ) (pages σ))) (ix_hash σ) → wp (on_hash m) Q σ.
Proof. unfold wp, on_hash. by destruct (m (ix_hash σ)) as [[]|]. Qed.

Lemma wp_load_it t it (Q : IndexTable → ixs → Prop) σ :
  itabs σ !! t = Some it → Q it σ → wp (load_it t) Q σ.
Proof. intros Ht HQ. unfold load_it. by wp_steps. Qed.

Lemma wp_upd_it t f it (Q : unit → ixs → Prop) σ :
  itabs σ !! t = Some it →
  Q tt (mkIxs (ix_hash σ) (<[t := f it]> (itabs σ)) (segs σ) (pages σ)) → wp (upd_it t f) Q σ.
Proof.
  intros Ht HQ. unfold upd_it. wp_step. eapply wp_load_it; [done|]. apply wp_modify.
  change (Q tt (mkIxs (ix_hash σ) (alter f t (itabs σ)) (segs σ) (pages σ))).
  replace (alter f t (itabs σ)) with (<[t := f it]> (itabs σ)); [done|].
  symmetry. rewrite <- (insert_id (itabs σ) t it) at 1 by done. by rewrite alter_insert_eq.
Qed.

Lemma wp_get_elem m a l (i : nat) q (Q : option positive → ixs → Prop) σ :
  m !! a = Some l → l !! i = Some (Val q) → Q q σ → wp (get_elem m (Some a) (Z.of_nat i)) Q σ.
Proof.
  intros Ha Hi HQ. unfold get_elem. wp_steps. rewrite decide_True by lia.
  rewrite Nat2Z.id. wp_step. by eapply wp_deref.
Qed.

Lemma wp_set_elem m a l (i : nat) q (Q : _ → ixs → Prop) σ :
  m !! a = Some l → i < length l → Q (<[a := <[i := Val q]> l]> m) σ →
  wp (set_elem m (Some a) (Z.of_nat i) q) Q σ.
Proof.
  intros Ha Hi HQ. unfold set_elem. wp_steps. rewrite decide_True by lia.
  rewrite Nat2Z.id. by wp_step.
Qed.

Lemma cell_at_inv pg sv i c :
  cell_at pg sv i = Some c →
  ∃ p pv, sv !! (i `div` PAGE) = Some (Val (Some p)) ∧ pg !! p = Some pv ∧ pv !! (i `mod` PAGE) = Some c.
Proof.
  unfold cell_at. destruct (sv !! (i `div` PAGE)) as [[|[p|]]|]; try done.
  destruct (pg !! p) as [pv|] eqn:Hp; [|done]. simpl. eauto.
Qed.

Lemma pages_ok_cell sg pg it s sv n i :
  pages_ok sg pg it s sv n → i < PAGE * n →
  ∃ p pv, sv !! (i `div` PAGE) = Some (Val (Some p)) ∧ pg !! p = Some pv ∧ length pv = PAGE.
Proof. intros Hp Hi. by eapply pk_pages, page_lt. Qed.

(** Writing one position changes no other. *)
Lemma cell_at_set sg pg it s sv n i j p pv c :
  pages_ok sg pg it s sv n → i < PAGE * n → j < PAGE * n →
  sv !! (i `div` PAGE) = Some (Val (Some p)) → pg !! p = Some pv → length pv = PAGE →
  cell_at (<[p := <[i `mod` PAGE := c]> pv]> pg) sv j = if decide (j = i) then Some c else cell_at pg sv j.
Proof.
  intros Hp Hi Hj Hsv Hpg Hlen. unfold cell_at. case_decide as Hd.
  - subst j. rewrite Hsv, lookup_insert_eq. simpl. apply list_lookup_insert_eq.
    rewrite Hlen. apply offset_lt.
  - destruct (sv !! (j `div` PAGE)) as [[|[q|]]|] eqn:Hq; try done.
    destruct (decide (q = p)) as [->|Hqp]; [|by rewrite lookup_insert_ne].
    assert (j `div` PAGE = i `div` PAGE) as He.
    { eapply pk_inj; [done|by apply page_lt|by apply page_lt|done|done]. }
    assert (i `mod` PAGE ≠ j `mod` PAGE) as Hm.
    { intros Hm. apply Hd. pose proof (Nat.div_mod_eq j PAGE) as Hj'.
      pose proof (Nat.div_mod_eq i PAGE) as Hi'. rewrite He, <- Hm in Hj'. congruence. }
    rewrite lookup_insert_eq, Hpg. by apply list_lookup_insert_ne.
Qed.

Lemma pages_ok_set sg pg it s sv n p pv pv' :
  pages_ok sg pg it s sv n → pg !! p = Some pv → length pv' = length pv →
  pages_ok sg (<[p := pv']> pg) it s sv n.
Proof.
  intros Hp Hpg Hlen. constructor; try apply Hp.
  intros j Hj. destruct (pk_pages _ _ _ _ _ _ Hp j Hj) as (q & qv & Hq & Hqv & Hl).
  destruct (decide (q = p)) as [->|Hne].
  - exists p, pv'. rewrite lookup_insert_eq. simplify_eq. split; [done|]. split; [done|]. congruence.
  - exists q, qv. by rewrite lookup_insert_ne.
Qed.

(** A fresh page [p] behind the others. *)
Lemma pages_ok_grow sg pg it s sv n p pv :
  pages_ok sg pg it s sv n → n < length sv → pg !! p = None → length pv = PAGE →
  pages_ok (<[s := <[n := Val (Some p)]> sv]> sg) (<[p := pv]> pg)
    (it <| it_size := (it_size it + 1024)%Z |>) s (<[n := Val (Some p)]> sv) (S n).
Proof.
  intros Hp Hn Hpn Hpv.
  assert (∀ j q, j < n → sv !! j = Some (Val (Some q)) → q ≠ p) as Hold.
  { intros j q Hj Hq ->. destruct (pk_pages _ _ _ _ _ _ Hp j Hj) as (q & qv & ? & ? & _). congruence. }
  constructor; simpl; try apply Hp.
  - by rewrite lookup_insert_eq.
  - rewrite length_insert. apply Hp.
  - rewrite (pk_size _ _ _ _ _ _ Hp). pose proof page_size. lia.
  - intros j Hj. destruct (decide (j = n)) as [->|Hne].
    + exists p, pv. rewrite list_lookup_insert_eq, lookup_insert_eq by done. done.
    + destruct (pk_pages _ _ _ _ _ _ Hp j ltac:(lia)) as (q & qv & Hq & Hqv & Hl).
      exists q, qv. rewrite list_lookup_insert_ne, lookup_insert_ne; [done| |done].
      intros <-. eapply Hold; [|done|done]. lia.
  - intros j j' q Hj Hj'.
    destruct (decide (j = n)) as [->|H1], (decide (j' = n)) as [->|H2]; [done| | |].
    + rewrite list_lookup_insert_eq, list_lookup_insert_ne by done. intros [= <-] Hq.
      exfalso. eapply Hold; [|done|done]. lia.
    + rewrite list_lookup_insert_eq, list_lookup_insert_ne by done. intros Hq [= <-].
      exfalso. eapply Hold; [|done|done]. lia.
    + rewrite !list_lookup_insert_ne by done. apply Hp; lia.
Qed.

Lemma cell_at_grow sg pg it s sv n p pv j :
  pages_ok sg pg it s sv n → pg !! p = None → j < PAGE * n →
  cell_at (<[p := pv]> pg) (<[n := Val (Some p)]> sv) j = cell_at pg sv j.
Proof.
  intros Hp Hpn Hj. unfold cell_at. pose proof (page_lt _ _ Hj) as Hd.
  rewrite list_lookup_insert_ne by lia.
  destruct (sv !! (j `div` PAGE)) as [[|[q|]]|] eqn:Hq; try done.
  rewrite lookup_insert_ne; [done|]. intros <-.
  destruct (pk_pages _ _ _ _ _ _ Hp _ Hd) as (q & qv & ? & ? & _). congruence.
Qed.

Lemma wp_lookup sg pg t it s sv n i a (Q : option positive → ixs → Prop) σ :
  itabs σ !! t = Some it → segs σ = sg → pages σ = pg → pages_ok sg pg it s sv n →
  cell_at pg sv i = Some (Val a) → Q a σ → wp (erts_index_lookup t (Z.of_nat i)) Q σ.
Proof.
  intros Ht <- <- Hp (p & pv & Hsv & Hpv & Hc)%cell_at_inv HQ. unfold erts_index_lookup.
  wp_step. eapply wp_load_it; [done|]. wp_step. wp_step. rewrite (pk_table _ _ _ _ _ _ Hp).
  rewrite <- (Z2Nat.id (Z.shiftr _ _)) by (apply Z.shiftr_nonneg; lia). rewrite page_of.
  wp_step. eapply wp_get_elem; [apply Hp|done|]. rewrite offset_of. by eapply wp_get_elem.
Qed.

End rules.

(** ** Operations *)

Section ops.
Context {D K : Type} {F : HashFunctions (IndexSlot D)} {A : ErtsAlloc} {ikey : D → K} `{Countable K}
  {L : HashLaws (IndexSlot D) K F (key (ikey:=ikey))} {AL : ErtsAllocLaws A} {CL : IndexClient F}.
Implicit Types σ : ixs (D:=D).
Implicit Types am : gmap K positive.
Implicit Types sv : list cell.

Abbreviation key := (key (ikey:=ikey)).
Abbreviation numbered := (numbered (ikey:=ikey)).
Abbreviation index_ok := (index_ok (ikey:=ikey)).
Abbreviation hash_ok := (hash_ok (key:=key)).

(** A full last page is followed by a new one, below the limit. *)
Lemma grow_pages_run t it s sv n (m : nat) (Q : bool → ixs → Prop) σ :
  itabs σ !! t = Some it → pages_ok (segs σ) (pages σ) it s sv n → m ≤ PAGE * n →
  (Z.of_nat m < MAX_OBJS)%Z →
  ((PAGE * n ≤ m → (it_limit it ≤ Z.of_nat m)%Z → Q false σ)) →
  (∀ it' sv' n' sg pg, it_entries it' = it_entries it → it_limit it' = it_limit it →
     pages_ok sg pg it' s sv' n' → m < PAGE * n' →
     (∀ j, j < PAGE * n → cell_at pg sv' j = cell_at (pages σ) sv j) →
     Q true (mkIxs (ix_hash σ) (<[t := it']> (itabs σ)) sg pg)) →
  wp (grow_pages t (Z.of_nat m)) Q σ.
Proof.
  intros Ht Hp Hm Hmax Hfull HQ. pose proof (pk_size _ _ _ _ _ _ Hp) as Hsz.
  unfold grow_pages. wp_step. eapply wp_load_it; [done|].
  case_decide as Hd.
  2:{ wp_step. destruct σ as [hx its sg pg]. simpl in *. rewrite <- (insert_id its t it) by done.
      apply (HQ it sv n); try done. lia. }
  case_decide as Hl; [wp_step; apply Hfull; lia|]. rewrite page_words.
  assert (m = PAGE * n) as -> by lia. do 4 wp_step.
  set (p := erts_alloc _ _). set (pv := replicate PAGE Uninit).
  assert (length pv = PAGE) as Hpv by apply length_replicate.
  assert (pages σ !! p = None) as Hpn.
  { eapply not_elem_of_dom. intros Hin.
    apply (erts_alloc_fresh (ix_used σ) (INDEX_PAGE_SIZE * PTR_SIZE)%Z). subst p.
    unfold ix_used at 2. set_solver. }
  pose proof (pk_len _ _ _ _ _ _ Hp) as Hlen. pose proof page_size as HP.
  assert (n < length sv) as Hn.
  { Z.to_euclidean_division_equations. lia. }
  wp_step. rewrite (pk_table _ _ _ _ _ _ Hp).
  rewrite <- (Z2Nat.id (Z.shiftr _ _)) by (apply Z.shiftr_nonneg; lia). rewrite page_of.
  assert ((PAGE * n) `div` PAGE = n) as -> by (rewrite Nat.mul_comm; apply Nat.div_mul; lia).
  eapply wp_set_elem; [apply Hp|done|]. do 2 wp_step.
  wp_step. unfold int_expr. unfold MAX_OBJS in Hmax.
  change INDEX_PAGE_SIZE with 1024%Z. rewrite decide_True by (apply wraps_small; lia).
  wp_step. wp_step. eapply wp_upd_it; [done|]. wp_step.
  set (it' := it <| it_size := (it_size it + 1024)%Z |>).
  eapply (HQ it' (<[n := Val (Some p)]> sv) (S n) (<[s := <[n := Val (Some p)]> sv]> (segs σ)) (<[p := pv]> (pages σ)));
    [done|done| |lia|].
  - by eapply pages_ok_grow.
  - intros j Hj. eapply cell_at_grow; done.
Qed.

(** Writing an object without changing its key. *)
Lemma hash_ok_set_obj T V B (hσ : hs) t am p x o :
  hash_ok T V B hσ t am → objs hσ !! p = Some x → key o = key (obj x) →
  hash_ok T V B (mkHs (tabs hσ) (<[p := mkHashBucket (next x) (hvalue x) o]> (objs hσ)) (vecs hσ)) t am.
Proof.
  intros (h & bv & v & Hs & Hthr & Hn & Hle & Ho & Hd) Hp Hk.
  set (x' := mkHashBucket (next x) (hvalue x) o).
  assert (next x' = next x ∧ hvalue x' = hvalue x ∧ key (obj x') = key (obj x)) as Hx' by done.
  clearbody x'. exists h, bv, v. split; [|split; [done|]; split; [done|]; split; [done|]; split; [|done]].
  2:{ simpl. intros a. rewrite <- Ho, lookup_insert_is_Some'. split; [|by right].
      intros [<-|Hs']; [by exists x|done]. }
  assert (∀ c y, <[p := x']> (objs hσ) !! c = Some y →
    ∃ y', objs hσ !! c = Some y' ∧ next y' = next y ∧ hvalue y' = hvalue y ∧ key (obj y') = key (obj y)) as Hto.
  { intros c y [[<- <-]|[Hne Hc]]%lookup_insert_Some; [|by eauto]. exists x. naive_solver. }
  assert (∀ c y, objs hσ !! c = Some y →
    ∃ y', <[p := x']> (objs hσ) !! c = Some y' ∧ next y' = next y ∧ hvalue y' = hvalue y ∧
          key (obj y') = key (obj y)) as Hfrom.
  { intros c y Hc. destruct (decide (c = p)) as [->|Hne].
    - eexists. rewrite lookup_insert_eq. split; [done|]. simplify_eq. naive_solver.
    - exists y. by rewrite lookup_insert_ne. }
  constructor; simpl; try apply Hs.
  - intros k a Ha. destruct (sh_keyed _ _ _ _ _ _ _ _ Hs k a Ha) as (y & Hy & Hky & Hh).
    destruct (Hfrom a y Hy) as (y' & Hy' & _ & Hh' & Hk'). exists y'. split; [done|].
    split; [congruence|]. rewrite Hh', Hh. by apply (hash_key (key:=key)).
  - intros j q Hq. eapply bchain_frame; [by apply Hs| |].
    + intros a (y & Hy & _). unfold nxt. destruct (Hfrom a y Hy) as (y' & Hy' & Hn' & _).
      rewrite Hy, Hy'. simpl. by rewrite Hn'.
    + intros a. unfold HashInv.in_slot. split.
      * intros (y & Hy & Hky & Hj). destruct (Hto a y Hy) as (y' & Hy' & _ & Hh' & Hk').
        exists y'. by rewrite Hk', Hh'.
      * intros (y & Hy & Hky & Hj). destruct (Hfrom a y Hy) as (y' & Hy' & _ & Hh' & Hk').
        exists y'. by rewrite Hk', Hh'.
Qed.

(** The payloads of the objects, in the order of their numbers. *)
Definition payloads (ob : gmap positive HashBucket) (l : list positive) (ps : list D) : Prop :=
  Forall2 (λ a d, ∃ x, ob !! a = Some x ∧ payload (obj x) = d) l ps.

Lemma put_existing σ t am l it s sv n tmpl a (Q : option positive → ixs → Prop) :
  index_ok σ t am l it s sv n → am !! key tmpl = Some a →
  Q (Some a) σ → wp (index_put_entry t tmpl) Q σ.
Proof.
  intros Hok Ha HQ. destruct (ik_hash _ _ _ _ _ _ _ _ Hok) as (T & V & B & Hh).
  unfold index_put_entry. wp_step. apply wp_on_hash.
  eapply wp_mono; [eapply hash_put_run; [done|congruence]|]. rewrite Ha. intros b hσ [-> ->].
  pose proof (ik_all _ _ _ _ _ _ _ _ Hok _ _ Ha) as [i Hi]%list_elem_of_lookup.
  destruct (ik_numbered _ _ _ _ _ _ _ _ Hok _ _ Hi) as (x & Hx & Hidx & _).
  destruct σ as [hx its sg pg]. simpl in *.
  wp_step. apply wp_on_hash. simpl. eapply wp_load_b; [done|].
  rewrite decide_True by lia. by wp_step.
Qed.

Lemma numbered_snoc ob ob' am l b x k :
  numbered ob am l →
  (∀ a y, ob !! a = Some y → a ≠ b ∧ ∃ y', ob' !! a = Some y' ∧ obj y' = obj y) →
  am !! k = None → key (obj x) = k →
  numbered (<[b := mkHashBucket (next x) (hvalue x) (mkIndexSlot (Z.of_nat (length l)) (payload (obj x)))]> ob')
    (<[k := b]> am) (l ++ [b]).
Proof.
  intros Hn Hold Hk Hx i a Hi. apply lookup_snoc_Some in Hi as [[Hil Hi]|[-> <-]].
  - destruct (Hn i a Hi) as (y & Hy & Hidx & Hky). destruct (Hold a y Hy) as (Hab & y' & Hy' & Hoy).
    exists y'. rewrite lookup_insert_ne, Hoy by done. split; [done|]. split; [done|].
    rewrite lookup_insert_ne; [done|]. congruence.
  - eexists. rewrite lookup_insert_eq. split; [done|]. split; [done|]. simpl.
    unfold IndexInv.key in *. simpl. rewrite Hx. apply lookup_insert_eq.
Qed.

Lemma put_new σ t am l it s sv n tmpl (Q : option positive → ixs → Prop) :
  index_ok σ t am l it s sv n → (Z.of_nat (size am) < MAX_OBJS)%Z → am !! key tmpl = None →
  (∀ σ', PAGE * n ≤ length l → (it_limit it ≤ Z.of_nat (length l))%Z → Q None σ') →
  (∀ σ' b it' sv' n', it_limit it' = it_limit it →
     index_ok σ' t (<[key tmpl := b]> am) (l ++ [b]) it' s sv' n' →
     (∀ a x, objs (ix_hash σ) !! a = Some x →
        ∃ x', objs (ix_hash σ') !! a = Some x' ∧ obj x' = obj x) →
     (∃ x, objs (ix_hash σ') !! b = Some x ∧ payload (obj x) = payload (fun_alloc tmpl) ∧
        index (obj x) = Z.of_nat (length l)) → Q (Some b) σ') →
  wp (index_put_entry t tmpl) Q σ.
Proof.
  intros Hok Hsz Ha Hfull HQ. destruct (ik_hash _ _ _ _ _ _ _ _ Hok) as (T & V & B & Hh).
  pose proof (ik_size _ _ _ _ _ _ _ _ Hok) as Hsize.
  unfold index_put_entry. wp_step. apply wp_on_hash.
  eapply wp_mono; [by eapply hash_put_run|]. rewrite Ha. intros b hσ (Hb & Hh' & Hcore).
  assert (∃ x, objs hσ !! b = Some x ∧ obj x = fun_alloc tmpl) as (x & Hx & Hox).
  { apply (f_equal (lookup b)) in Hcore. rewrite lookup_insert_eq, lookup_fmap in Hcore.
    destruct (objs hσ !! b) as [x|]; [|done]. injection Hcore as _ Hox. eauto. }
  assert (∀ a y, objs (ix_hash σ) !! a = Some y → a ≠ b ∧ ∃ y', objs hσ !! a = Some y' ∧ obj y' = obj y) as Hold.
  { intros a y Hy. assert (a ≠ b) as Hab by congruence. split; [done|].
    apply (f_equal (lookup a)) in Hcore. rewrite lookup_insert_ne, !lookup_fmap, Hy in Hcore by done.
    destruct (objs hσ !! a) as [y'|]; [|done]. injection Hcore as _ Hoy. eauto. }
  wp_step. apply wp_on_hash. simpl. eapply wp_load_b; [done|].
  rewrite Hox, alloc_index. rewrite decide_False by lia.
  wp_step. eapply wp_load_it; [apply Hok|]. rewrite (ik_entries _ _ _ _ _ _ _ _ Hok).
  wp_step. eapply grow_pages_run; [apply Hok|apply Hok|apply Hok|lia|intros; simpl; wp_step; by apply Hfull|].
  intros it' sv' n' sg pg He Hlim Hp Hlt Hcells. simpl.
  wp_step. apply wp_on_hash. simpl. eapply wp_upd_b; [done|].
  wp_step. eapply wp_load_it; [apply lookup_insert_eq|]. wp_step. wp_step. simpl.
  rewrite (pk_table _ _ _ _ _ _ Hp).
  rewrite <- (Z2Nat.id (Z.shiftr _ _)) by (apply Z.shiftr_nonneg; lia). rewrite page_of, offset_of.
  destruct (pages_ok_cell _ _ _ _ _ _ _ Hp Hlt) as (p & pv & Hsv & Hpv & Hlen).
  wp_step. eapply wp_get_elem; [apply Hp|done|].
  wp_step. eapply wp_set_elem; [done|rewrite Hlen; apply offset_lt|]. do 2 wp_step.
  wp_step. unfold int_expr. rewrite He, (ik_entries _ _ _ _ _ _ _ _ Hok). unfold MAX_OBJS in Hsz.
  rewrite decide_True by (apply wraps_small; lia). wp_step. wp_step.
  eapply wp_upd_it; [apply lookup_insert_eq|]. wp_step. simpl. rewrite insert_insert_eq.
  pose proof (ik_room _ _ _ _ _ _ _ _ Hok) as Hroom.
  assert (am !! key (obj x) = None) as Ha' by (by rewrite Hox, (alloc_key (key:=key))).
  eapply (HQ _ b (mkIndexTable (it_type it') (it_size it') (it_limit it') (Z.of_nat (length l) + 1)
    (seg_table it')) sv' n'); [done| | |].
  - constructor; simpl.
    + exists T, V, B. by apply (hash_ok_set_obj T V B hσ t _ b x).
    + apply lookup_insert_eq.
    + eapply pages_ok_set; [|done|apply length_insert]. destruct Hp. by constructor.
    + rewrite length_app. simpl. lia.
    + rewrite length_app. simpl. lia.
    + rewrite map_size_insert_None, length_app by done. simpl. lia.
    + eapply numbered_snoc; [apply Hok|exact Hold|exact Ha|by rewrite Hox, (alloc_key (key:=key))].
    + intros k a. rewrite elem_of_app, list_elem_of_singleton.
      intros [[_ <-]|[_ Hk]]%lookup_insert_Some; [by right|]. left. by eapply ik_all.
    + intros i a Hi. assert (i < length (l ++ [b])) as Hil by (by eapply lookup_lt_Some).
      rewrite length_app in Hil. simpl in Hil.
      rewrite (cell_at_set sg pg it' s sv' n' (length l) i p pv) by (done || lia).
      case_decide as Hd.
      * subst i. rewrite lookup_app_r, Nat.sub_diag in Hi by lia. simpl in Hi. by simplify_eq.
      * rewrite lookup_app_l in Hi by lia. rewrite Hcells by lia. exact (ik_cells _ _ _ _ _ _ _ _ Hok _ _ Hi).
  - intros a y Hy. destruct (Hold a y Hy) as (Hab & y' & Hy' & Hoy). exists y'. simpl.
    by rewrite lookup_insert_ne.
  - eexists. simpl. rewrite lookup_insert_eq. split; [done|]. simpl. by rewrite Hox.
Qed.

Lemma numbered_inj ob am l i j a : numbered ob am l → l !! i = Some a → l !! j = Some a → i = j.
Proof.
  intros Hn Hi Hj. destruct (Hn i a Hi) as (x & Hx & Hxi & _). destruct (Hn j a Hj) as (y & Hy & Hyj & _).
  simplify_eq. lia.
Qed.

Lemma index_get_run σ t am l it s sv n tmpl :
  index_ok σ t am l it s sv n →
  wp (index_get t tmpl) (λ r σ', σ' = σ ∧
    match am !! key tmpl with
    | Some a => ∃ i, l !! i = Some a ∧ r = Z.of_nat i
    | None => r = (-1)%Z
    end) σ.
Proof.
  intros Hok. destruct (ik_hash _ _ _ _ _ _ _ _ Hok) as (T & V & B & Hh).
  unfold index_get. wp_step. apply wp_on_hash. eapply wp_mono; [by eapply hash_get_run|].
  intros r hσ [-> ->]. destruct (am !! key tmpl) as [a|] eqn:Ha; simpl.
  - pose proof (ik_all _ _ _ _ _ _ _ _ Hok _ _ Ha) as [i Hi]%list_elem_of_lookup.
    destruct (ik_numbered _ _ _ _ _ _ _ _ Hok _ _ Hi) as (x & Hx & Hidx & _).
    wp_step. apply wp_on_hash. eapply wp_load_b; [done|]. wp_step. destruct σ. eauto.
  - wp_step. by destruct σ.
Qed.

(** The objects numbered from [f] below [j] have been erased. *)
Record erased (σ : ixs) (t : positive) (am : gmap K positive) (l : list positive) (f j : nat)
    (σ' : ixs (D:=D)) (am' : gmap K positive) : Prop := {
  er_hash : ∃ T V B, hash_ok T V B (ix_hash σ') t am';
  er_itabs : itabs σ' = itabs σ;
  er_segs : segs σ' = segs σ;
  er_pages : pages σ' = pages σ;
  er_am : ∀ k a, am' !! k = Some a ↔ am !! k = Some a ∧ ∃ i, l !! i = Some a ∧ (i < f ∨ j ≤ i);
  er_size : size am' = length l - (j - f);
  er_obj : ∀ i a x, l !! i = Some a → i < f ∨ j ≤ i → objs (ix_hash σ) !! a = Some x →
    ∃ x', objs (ix_hash σ') !! a = Some x' ∧ obj x' = obj x
}.

Lemma erase_one σ t am l it s sv n f j σ' :
  index_ok σ t am l it s sv n → f ≤ j < length l → (∃ am', erased σ t am l f j σ' am') →
  wp (p ← erts_index_lookup t (Z.of_nat j); a ← deref p; x ← on_hash (load_b a);
      _ ← on_hash (hash_erase t (obj x)); mret tt)
    (λ _ σ', ∃ am', erased σ t am l f (S j) σ' am') σ'.
Proof.
  intros Hok Hj (am' & He). destruct (lookup_lt_is_Some_2 l j ltac:(lia)) as (a & Ha).
  wp_step. eapply wp_lookup; [rewrite (er_itabs _ _ _ _ _ _ _ _ He); apply Hok|done|done| | |].
  { rewrite (er_segs _ _ _ _ _ _ _ _ He), (er_pages _ _ _ _ _ _ _ _ He). apply Hok. }
  { rewrite (er_pages _ _ _ _ _ _ _ _ He). by apply Hok. }
  destruct (ik_numbered _ _ _ _ _ _ _ _ Hok _ _ Ha) as (x & Hx & _ & Hk).
  destruct (er_obj _ _ _ _ _ _ _ _ He j a x Ha ltac:(lia) Hx) as (x' & Hx' & Hox).
  destruct (er_hash _ _ _ _ _ _ _ _ He) as (T & V & B & Hh).
  wp_step. wp_step. wp_step. apply wp_on_hash. eapply wp_load_b; [done|]. rewrite Hox.
  wp_step. apply wp_on_hash. simpl. eapply wp_mono; [by eapply hash_erase_run|]. intros r hσ Hr.
  assert (am' !! key (obj x) = Some a) as Hk' by (apply (er_am _ _ _ _ _ _ _ _ He); eauto with lia).
  rewrite Hk' in Hr. destruct Hr as (-> & Hh' & Hcore). wp_step.
  assert (∀ i c, l !! i = Some c → c = a ↔ i = j) as Hinj.
  { intros i c Hi. split; [intros ->|intros ->; congruence].
    by eapply numbered_inj; [apply Hok| |]. }
  exists (delete (key (obj x)) am'). constructor; simpl; try apply He.
  - by exists T, V, B.
  - intros k c. rewrite lookup_delete_Some, (er_am _ _ _ _ _ _ _ _ He). split.
    + intros (Hne & Hc & i & Hi & Hor). split; [done|]. exists i. split; [done|].
      destruct (decide (i = j)) as [->|]; [|lia]. exfalso.
      assert (c = a) as -> by congruence. apply Hne.
      destruct (ik_hash _ _ _ _ _ _ _ _ Hok) as (? & ? & ? & ? & ? & ? & Hs & _).
      eapply keyed_inj; [apply Hs|done|done].
    + intros (Hc & i & Hi & Hor). split; [|eauto with lia]. intros <-.
      assert (c = a) as Hca by congruence. apply (Hinj i c Hi) in Hca. lia.
  - rewrite map_size_delete_Some, (er_size _ _ _ _ _ _ _ _ He) by eauto. lia.
  - intros i c y Hi Hor Hy. destruct (er_obj _ _ _ _ _ _ _ _ He i c y Hi ltac:(lia) Hy) as (y' & Hy' & Hoy).
    assert (c ≠ a) as Hca by (rewrite (Hinj i c Hi); lia).
    apply (f_equal (lookup c)) in Hcore. rewrite lookup_delete_ne, !lookup_fmap, Hy' in Hcore by done.
    destruct (objs hσ !! c) as [y2|]; [|done]. injection Hcore as _ Ho2. exists y2. split; [done|]. congruence.
Qed.

Lemma index_erase_run σ t am l it s sv n (f : nat) (Q : unit → ixs → Prop) :
  index_ok σ t am l it s sv n → (Z.of_nat (length l) ≤ MAX_OBJS)%Z →
  (∀ σ' am' it', it_limit it' = it_limit it → index_ok σ' t am' (take f l) it' s sv n →
     (∀ i a x, i < f → l !! i = Some a → objs (ix_hash σ) !! a = Some x →
        ∃ x', objs (ix_hash σ') !! a = Some x' ∧ obj x' = obj x) → Q tt σ') →
  wp (index_erase_latest_from t (Z.of_nat f)) Q σ.
Proof.
  intros Hok Hmax HQ. unfold MAX_OBJS in Hmax. unfold index_erase_latest_from.
  wp_step. eapply wp_load_it; [apply Hok|]. rewrite (ik_entries _ _ _ _ _ _ _ _ Hok).
  rewrite wrapu_small by lia. case_decide as Hd.
  2:{ wp_step. apply (HQ σ am it); [done| |eauto]. by rewrite take_ge by lia. }
  rewrite !Nat2Z.id. wp_step.
  apply (wp_for_range (λ j σ', ∃ am', erased σ t am l f j σ' am')).
  - exists am. constructor; try done; [apply Hok| |rewrite (ik_size _ _ _ _ _ _ _ _ Hok); lia|eauto].
    intros k a. split; [|tauto]. intros Ha. split; [done|].
    pose proof (ik_all _ _ _ _ _ _ _ _ Hok _ _ Ha) as [i Hi]%list_elem_of_lookup.
    exists i. split; [done|]. lia.
  - intros j σ' Hj. eapply erase_one; [done|lia].
  - intros σ' (am' & He). replace (f + (length l - f)) with (length l) in He by lia.
    eapply wp_upd_it; [rewrite (er_itabs _ _ _ _ _ _ _ _ He); apply Hok|].
    rewrite wraps_small by lia.
    assert (∀ i a, take f l !! i = Some a ↔ i < f ∧ l !! i = Some a) as Htake.
    { intros i a. rewrite lookup_take_Some. tauto. }
    apply (HQ _ am' (it <| it_entries := Z.of_nat f |>)); [done| |].
    + constructor; simpl; try apply He.
      * apply lookup_insert_eq.
      * rewrite (er_segs _ _ _ _ _ _ _ _ He), (er_pages _ _ _ _ _ _ _ _ He).
        destruct (ik_pages _ _ _ _ _ _ _ _ Hok). by constructor.
      * rewrite length_take. lia.
      * rewrite length_take. pose proof (ik_room _ _ _ _ _ _ _ _ Hok). lia.
      * rewrite (er_size _ _ _ _ _ _ _ _ He), length_take. lia.
      * intros i a [Hi Ha]%Htake.
        destruct (ik_numbered _ _ _ _ _ _ _ _ Hok _ _ Ha) as (x & Hx & Hidx & Hk).
        destruct (er_obj _ _ _ _ _ _ _ _ He i a x Ha ltac:(lia) Hx) as (x' & Hx' & Hox).
        exists x'. rewrite Hox. split; [done|]. split; [done|].
        apply (er_am _ _ _ _ _ _ _ _ He). eauto with lia.
      * intros k a (Hk & i & Hi & Hor)%(er_am _ _ _ _ _ _ _ _ He).
        apply (list_elem_of_lookup_2 _ i), Htake. split; [|done].
        assert (i < length l) by (by eapply lookup_lt_Some). lia.
      * intros i a [Hi Ha]%Htake. rewrite (er_pages _ _ _ _ _ _ _ _ He).
        exact (ik_cells _ _ _ _ _ _ _ _ Hok _ _ Ha).
    + intros i a x Hi Ha Hx. simpl. eapply er_obj; [done|done|lia|done].
Qed.

End ops.
