(* ===== verification/IndexThms.v ===== *)
(** An index table is a list of distinct entries: insertion numbers a new
    entry with the length of the list, look-up by key finds its number, and
    erasing from a number truncates the list. *)

From stdpp Require Import base numbers list gmap strings sets.
From Stdlib Require Import ZArith Lia.
From S2P Require Import Prelude HashTable HashInv HashRehash HashOps IndexTable IndexInv.

(** ** Operations *)

Inductive iop (D : Type) : Type :=
  | IPut (x : IndexSlot D)
  | IGet (x : IndexSlot D)
  | IErase (from : nat)
  | ILookup (i : nat).

Arguments IPut {D} x.
Arguments IGet {D} x.
Arguments IErase {D} from.
Arguments ILookup {D} i.

(** What an operation answers. *)
Inductive ires (D : Type) : Type :=
  | RIndex (i : Z)
  | REntry (d : option D)
  | RDone
  | RExit.

Arguments RIndex {D} i.
Arguments REntry {D} d.
Arguments RDone {D}.
Arguments RExit {D}.

Section spec.
Context {D K : Type} {F : HashFunctions (IndexSlot D)} {A : ErtsAlloc} (ikey : D → K) `{Countable K}.

(** Entries are read below the number of entries, as the callers do. *)
Definition run_iop (t : positive) (op : iop D) : M ixs (ires D) :=
  match op with
  | IPut x => r ← index_put t x; mret (if r is Some i then RIndex i else RExit)
  | IGet x => i ← index_get t x; mret (RIndex i)
  | IErase from => _ ← index_erase_latest_from t (Z.of_nat from); mret RDone
  | ILookup i =>
      n ← erts_index_num_entries t;
      if decide (Z.of_nat i < n)%Z then
        p ← erts_index_lookup t (Z.of_nat i);
        a ← deref p;
        x ← on_hash (load_b a);
        mret (REntry (Some (payload (obj x))))
      else mret (REntry None)
  end.

Fixpoint run_iops (t : positive) (ops : list (iop D)) : M ixs (list (ires D)) :=
  match ops with
  | [] => mret []
  | op :: ops' => r ← run_iop t op; rs ← run_iops t ops'; mret (r :: rs)
  end.

(** The list of the entries. *)
Definition list_iop (ps : list D) (op : iop D) : ires D * list D :=
  match op with
  | IPut x =>
      match list_find (λ d, ikey d = ikey (payload x)) ps with
      | Some (i, _) => (RIndex (Z.of_nat i), ps)
      | None => (RIndex (Z.of_nat (length ps)), ps ++ [payload (fun_alloc x)])
      end
  | IGet x =>
      match list_find (λ d, ikey d = ikey (payload x)) ps with
      | Some (i, _) => (RIndex (Z.of_nat i), ps)
      | None => (RIndex (-1), ps)
      end
  | IErase from => (RDone, take from ps)
  | ILookup i => (REntry (ps !! i), ps)
  end.

Fixpoint list_iops (ps : list D) (ops : list (iop D)) : list (ires D) :=
  match ops with
  | [] => []
  | op :: ops' => let '(r, ps') := list_iop ps op in r :: list_iops ps' ops'
  end.

(** The list never gets longer than [limit], and nothing is erased from behind its end
    ([index_erase_latest_from] asserts that). *)
Fixpoint within (limit : Z) (ps : list D) (ops : list (iop D)) : bool :=
  match ops with
  | [] => true
  | op :: ops' =>
      let ps' := (list_iop ps op).2 in
      match op with IErase from => bool_decide (from ≤ length ps) | _ => true end &&
      bool_decide (Z.of_nat (length ps') ≤ limit)%Z && within limit ps' ops'
  end.

Definition index_life (type : Z) (t : positive) (name : string) (sz limit : Z) (ops : list (iop D)) :
    M ixs (list (ires D)) :=
  t ← erts_index_init type t name sz limit; run_iops t ops.

End spec.

(** ** Simulation *)

Section sim.
Context {D K : Type} {F : HashFunctions (IndexSlot D)} {A : ErtsAlloc} {ikey : D → K} `{Countable K}
  {L : HashLaws (IndexSlot D) K F (key (ikey:=ikey))} {AL : ErtsAllocLaws A} {CL : IndexClient F}.
Implicit Types σ : ixs (D:=D).
Implicit Types am : gmap K positive.
Implicit Types ps : list D.

Abbreviation key := (key (ikey:=ikey)).
Abbreviation index_ok := (index_ok (ikey:=ikey)).

Lemma erts_index_init_run σ type t name sz limit (Q : positive → ixs → Prop) :
  tabs (ix_hash σ) !! t = None → (0 ≤ sz ≤ 2 ^ MAX_BITS)%Z → (0 ≤ limit < 2 ^ 31)%Z →
  (∀ σ' it s sv, it_limit it = limit → index_ok σ' t ∅ [] it s sv 0 → Q t σ') →
  wp (erts_index_init type t name sz limit) Q σ.
Proof.
  intros Ht Hsz Hl HQ. change (2 ^ MAX_BITS)%Z with 134217728%Z in Hsz.
  unfold erts_index_init. wp_step. unfold int_expr.
  rewrite decide_True by (apply wraps_small; lia). wp_step. wp_step. apply wp_on_hash.
  eapply (hash_init_run (key:=key) (dom (objs (ix_hash σ)))); [done|intros a; by rewrite elem_of_dom| |].
  { change (2 ^ MAX_BITS)%Z with 134217728%Z. rewrite Z.quot_div_nonneg by lia.
    Z.to_euclidean_division_equations. lia. }
  intros hσ Hok Hob. do 6 wp_step. simpl.
  change INDEX_PAGE_SIZE with 1024%Z. rewrite (wrapu_small 64 limit) by lia.
  rewrite (wrapu_small 64) by lia. change PTR_SIZE with 8%Z. rewrite Z.div_mul by done.
  set (a := erts_alloc _ _).
  eapply (HQ _ (mkIndexTable type 0 limit 0 (Some a)) a); [done|].
  constructor; simpl; try done; [by eauto|apply lookup_insert_eq|].
  constructor; simpl; try done; [apply lookup_insert_eq| |lia..].
  rewrite length_replicate, Z2Nat.id; [f_equal; lia|]. apply Z.div_pos; lia.
Qed.

(** The table and the list agree. *)
Definition isim σ t ps am l it s sv n : Prop :=
  index_ok σ t am l it s sv n ∧ payloads (objs (ix_hash σ)) l ps.

Lemma isim_entry σ t ps am l it s sv n i :
  isim σ t ps am l it s sv n → length l = length ps ∧
  (∀ a, l !! i = Some a → ∃ x, objs (ix_hash σ) !! a = Some x ∧ ps !! i = Some (payload (obj x)) ∧
     am !! key (obj x) = Some a).
Proof.
  intros [Hok Hp]. split; [by eapply Forall2_length|]. intros a Ha.
  destruct (ik_numbered _ _ _ _ _ _ _ _ Hok _ _ Ha) as (x & Hx & _ & Hk).
  destruct (Forall2_lookup_l _ _ _ _ _ Hp Ha) as (d & Hd & y & Hy & <-). simplify_eq. eauto.
Qed.

Lemma isim_find σ t ps am l it s sv n (x : IndexSlot D) :
  isim σ t ps am l it s sv n →
  match list_find (λ d, ikey d = ikey (payload x)) ps with
  | Some (i, _) => ∃ a, l !! i = Some a ∧ am !! key x = Some a
  | None => am !! key x = None
  end.
Proof.
  intros Hs. pose proof Hs as [Hok _].
  destruct (list_find _ ps) as [[i d]|] eqn:Hf.
  - apply list_find_Some in Hf as (Hi & Hd & _).
    destruct (lookup_lt_is_Some_2 l i) as [a Ha].
    { destruct (isim_entry _ _ _ _ _ _ _ _ _ i Hs) as [-> _]. by eapply lookup_lt_Some. }
    exists a. split; [done|]. destruct (isim_entry _ _ _ _ _ _ _ _ _ i Hs) as [_ He].
    destruct (He a Ha) as (y & Hy & Hp & Hk). simplify_eq.
    unfold IndexInv.key in *. by rewrite <- Hd.
  - apply list_find_None in Hf. rewrite Forall_lookup in Hf.
    destruct (am !! key x) as [a|] eqn:Ha; [|done]. exfalso.
    pose proof (ik_all _ _ _ _ _ _ _ _ Hok _ _ Ha) as [i Hi]%list_elem_of_lookup.
    destruct (isim_entry _ _ _ _ _ _ _ _ _ i Hs) as [_ He].
    destruct (He a Hi) as (y & Hy & Hp & Hk). apply (Hf i _ Hp).
    destruct (ik_hash _ _ _ _ _ _ _ _ Hok) as (? & ? & ? & ? & ? & ? & Hsh & _).
    change (key y.(obj) = key x). eapply keyed_inj; [apply Hsh|done|done].
Qed.

Lemma payloads_take ob ob' l ps f :
  payloads ob l ps →
  (∀ i a x, i < f → l !! i = Some a → ob !! a = Some x → ∃ x', ob' !! a = Some x' ∧ obj x' = obj x) →
  payloads (D:=D) ob' (take f l) (take f ps).
Proof.
  intros Hp Hob. apply Forall2_same_length_lookup. split.
  - rewrite !length_take. by rewrite (Forall2_length _ _ _ Hp).
  - intros i a d (Hi & Hf)%lookup_take_Some (Hd & _)%lookup_take_Some.
    destruct (Forall2_lookup_lr _ _ _ _ _ _ Hp Hi Hd) as (x & Hx & <-).
    destruct (Hob i a x Hf Hi Hx) as (x' & Hx' & Ho). exists x'. by rewrite Ho.
Qed.

Lemma run_iop_sim σ t ps am l it s sv n op :
  isim σ t ps am l it s sv n → (Z.of_nat (length l) ≤ MAX_OBJS)%Z →
  (Z.of_nat (length (list_iop ikey ps op).2) ≤ Z.min (it_limit it) MAX_OBJS)%Z →
  wp (run_iop t op) (λ r σ', ∃ ps' am' l' it' sv' n', list_iop ikey ps op = (r, ps') ∧
    isim σ' t ps' am' l' it' s sv' n' ∧ it_limit it' = it_limit it) σ.
Proof.
  intros Hs Hmax Hlim. pose proof Hs as [Hok Hp]. pose proof (ik_size _ _ _ _ _ _ _ _ Hok) as Hsz.
  destruct op as [x|x|f|i]; simpl.
  - pose proof (isim_find _ _ _ _ _ _ _ _ _ x Hs) as Hf. simpl in Hlim. unfold index_put. wp_step. wp_step.
    destruct (list_find _ ps) as [[i d]|].
    + destruct Hf as (a & Hi & Ha). eapply put_existing; [done|done|].
      destruct (ik_numbered _ _ _ _ _ _ _ _ Hok _ _ Hi) as (y & Hy & Hidx & _).
      wp_step. apply wp_on_hash. eapply wp_load_b; [done|]. wp_step. wp_step. rewrite Hidx.
      exists ps, am, l, it, sv, n. destruct σ. auto.
    + destruct (isim_entry _ _ _ _ _ _ _ _ _ 0 Hs) as [Hlen _]. simpl in Hlim. rewrite length_app in Hlim. simpl in Hlim.
      eapply put_new; [done|lia|done|intros; lia|].
      intros σ' b it' sv' n' Hl' Hok' Hold (y & Hy & Hpay & Hidx).
      wp_step. apply wp_on_hash. eapply wp_load_b; [done|]. wp_step. wp_step. rewrite Hidx.
      rewrite Hlen.
      exists (ps ++ [payload (fun_alloc x)]), (<[key x := b]> am), (l ++ [b]), it', sv', n'.
      split; [done|]. split; [|done].
      split; [destruct σ'; exact Hok'|]. apply Forall2_app.
      * eapply Forall2_impl; [done|]. intros a d (z & Hz & <-). simpl.
        destruct (Hold a z Hz) as (z' & Hz' & Hoz). exists z'. by rewrite Hoz.
      * constructor; [|constructor]. by exists y.
  - pose proof (isim_find _ _ _ _ _ _ _ _ _ x Hs) as Hf. wp_step.
    eapply wp_mono; [by eapply index_get_run|]. intros r σ' [-> Hr]. wp_step.
    exists ps, am, l, it, sv, n. split; [|auto]. destruct (list_find _ ps) as [[i d]|].
    + destruct Hf as (a & Hi & Ha). rewrite Ha in Hr. destruct Hr as (j & Hj & ->).
      repeat f_equal. eapply numbered_inj; [apply Hok|done|done].
    + rewrite Hf in Hr. by rewrite Hr.
  - wp_step. eapply index_erase_run; [done|lia|]. intros σ' am' it' Hl' Hok' Hob. wp_step.
    exists (take f ps), am', (take f l), it', sv, n. split; [done|]. split; [|done].
    split; [done|]. by eapply payloads_take.
  - unfold erts_index_num_entries. wp_step. wp_step. eapply wp_load_it; [apply Hok|]. wp_step.
    rewrite (ik_entries _ _ _ _ _ _ _ _ Hok).
    destruct (isim_entry _ _ _ _ _ _ _ _ _ i Hs) as [Hlen He]. case_decide as Hd.
    + destruct (lookup_lt_is_Some_2 l i ltac:(lia)) as [a Ha].
      destruct (He a Ha) as (x & Hx & Hpi & _). wp_step.
      eapply wp_lookup; [apply Hok|done|done|apply Hok|by eapply ik_cells|].
      wp_step. wp_step. wp_step. apply wp_on_hash. eapply wp_load_b; [done|]. wp_step.
      exists ps, am, l, it, sv, n. rewrite Hpi. destruct σ. auto.
    + wp_step. exists ps, am, l, it, sv, n. rewrite lookup_ge_None_2 by lia. auto.
Qed.

Lemma run_iops_sim t s ops : ∀ σ ps am l it sv n,
  isim σ t ps am l it s sv n → (Z.of_nat (length l) ≤ MAX_OBJS)%Z →
  within ikey (Z.min (it_limit it) MAX_OBJS) ps ops = true →
  wp (run_iops t ops) (λ rs σ', rs = list_iops ikey ps ops) σ.
Proof.
  induction ops as [|op ops IH]; intros σ ps am l it sv n Hs Hmax Hlim; simpl in *; [by wp_step|].
  apply andb_true_iff in Hlim as [[_ Hle%bool_decide_eq_true]%andb_true_iff Hlim].
  wp_step. eapply wp_mono; [by eapply run_iop_sim|].
  intros r σ1 (ps1 & am1 & l1 & it1 & sv1 & n1 & Hop & Hs1 & Hl1). rewrite Hop in *. simpl in *.
  destruct (isim_entry _ _ _ _ _ _ _ _ _ 0 Hs1) as [Hlen _].
  wp_step. eapply wp_mono; [eapply IH; [done|lia|by rewrite Hl1]|]. intros rs σ2 ->. by wp_step.
Qed.

End sim.

(** ** A concrete client: entries that are their own keys *)

#[global] Instance slot_functions : HashFunctions (IndexSlot Z) := {|
  fun_hash := λ x, u64 (payload x);
  fun_cmp := λ x y, if decide (payload x = payload y) then 0%Z else 1%Z;
  fun_alloc := λ x, mkIndexSlot (-1) (payload x);
  obj_addr := fresh;
  meta_alloc := λ used _, fresh used
|}.

#[global] Instance slot_laws : HashLaws (IndexSlot Z) Z slot_functions (key (ikey:=id)).
Proof.
  constructor.
  - intros x y. cbn. case_decide; naive_solver.
  - intros x y Hxy. change (payload x = payload y) in Hxy. cbn. by rewrite Hxy.
  - intros x. by apply wrapu_range.
  - done.
  - intros used. apply is_fresh.
  - intros used sz. apply is_fresh.
Qed.

#[global] Instance slot_client : IndexClient slot_functions.
Proof. by constructor. Qed.

(** ** Properties *)

(** C7: An index table refines a list of entries with distinct keys. Whatever
    the hash and compare functions, a new table of a given limit answers every
    sequence of insertions, look-ups by key and by number and erasures, in which
    the list never gets longer than the limit (and 214748364) and nothing is erased
    from behind its end, exactly as the list does: a new entry gets the length of
    the list as its number, an old one keeps its number, erasing from a number
    truncates the list, and no access is out of the bounds of the pages. *)
Theorem index_life_refines_list {D K : Type} {F : HashFunctions (IndexSlot D)} {A : ErtsAlloc}
    {ikey : D → K} `{Countable K} {L : HashLaws (IndexSlot D) K F (key (ikey:=ikey))}
    {AL : ErtsAllocLaws A} {CL : IndexClient F}
    (σ : ixs) (type : Z) (t : positive) (name : string) (sz limit : Z) (ops : list (iop D)) :
  tabs (ix_hash σ) !! t = None → (0 ≤ sz ≤ 2 ^ MAX_BITS)%Z → (0 ≤ limit < 2 ^ 31)%Z →
  within ikey (Z.min limit MAX_OBJS) [] ops = true →
  wp (index_life type t name sz limit ops) (λ rs σ', rs = list_iops ikey [] ops) σ.
Proof.
  intros Ht Hsz Hl Hops. unfold index_life. wp_step.
  eapply (erts_index_init_run (ikey:=ikey)); [done..|].
  intros σ' it s sv Hlim Hok.
  eapply (run_iops_sim t s ops σ' [] ∅ [] it sv 0); [|done|by rewrite Hlim].
  split; [done|constructor].
Qed.

Definition sample_iops : list (iop Z) :=
  [IPut (mkIndexSlot 0 5); IPut (mkIndexSlot 0 7); IPut (mkIndexSlot 0 5); IGet (mkIndexSlot 0 7);
   IErase 1; IGet (mkIndexSlot 0 7); IPut (mkIndexSlot 0 9); ILookup 1; ILookup 2]%Z.

Theorem index_life_refines_list_witness :
  wp (index_life 0 1 "t" 3 1500 sample_iops)
    (λ rs σ', rs = [RIndex 0; RIndex 1; RIndex 0; RIndex 1; RDone; RIndex (-1); RIndex 1;
                    REntry (Some 9); REntry None]%Z)
    (mkIxs (mkHs ∅ ∅ ∅) ∅ ∅ ∅).
Proof.
  assert (list_iops id [] sample_iops = [RIndex 0; RIndex 1; RIndex 0; RIndex 1; RDone; RIndex (-1); RIndex 1;
    REntry (Some 9); REntry None]%Z) as Hm by (vm_compute; reflexivity).
  assert (within id (Z.min 1500 MAX_OBJS) [] sample_iops = true) as Hin by (vm_compute; reflexivity).
  pose proof (index_life_refines_list (ikey:=id) (mkIxs (mkHs ∅ ∅ ∅) ∅ ∅ ∅) 0 1 "t" 3 1500 sample_iops
    eq_refl ltac:(unfold MAX_BITS; lia) ltac:(lia) Hin) as Hw.
  rewrite Hm in Hw. exact Hw.
Defined.
