(* ===== verification/RecvMarker.v ===== *)
(** Model of the block of receive markers of a process:
    [erts/emulator/beam/erl_message.h], [erl_proc_sig_queue.h] and
    [erl_proc_sig_queue.c]. A process has at most eight markers, in one block of
    memory: those in use form a ring through [prev_ix] and [next_ix] in the order of
    their allocation, the others a list through [next_ix]. The operations here touch
    only the block; [SigQueue] has those that also touch the queues. *)

From S2P Require Import Prelude ErlTerm.
From stdpp Require Import base numbers list gmap.
From Stdlib Require Import ZArith.

(** ** Pointers to link fields

    [ErtsMessage **]: the field that starts a queue, or the link of a signal. *)
Inductive link : Type :=
  | InqFirst (q : nat)            (* &queue->first of an in-queue *)
  | QsFirst                       (* &sig_qs.first *)
  | QsCont                        (* &sig_qs.cont *)
  | Next (a : positive).          (* &sig->next *)

#[global] Instance link_eq_dec : EqDecision link.
Proof. solve_decision. Defined.

(** ** Identifiers of markers

    An immediate term, or a boxed term by its words, the header first. *)
Inductive mark_id : Type := Immed (x : Z) | Words (header : Z) (body : list Z).

#[global] Instance mark_id_eq_dec : EqDecision mark_id.
Proof. solve_decision. Defined.

Definition is_small_id (t : mark_id) : bool :=
  match t with Immed x => is_small x | Words _ _ => false end.
Definition is_big_id (t : mark_id) : bool :=
  match t with Immed _ => false | Words h _ => bool_decide (Z.land h BIG_TAG_MASK = TAG_HEADER_POS_BIG) end.
Definition is_internal_ref_id (t : mark_id) : bool :=
  match t with Immed _ => false | Words h _ => bool_decide (Z.land h TAG_HEADER_MASK = TAG_HEADER_REF) end.

(** Word by word, as far as the arity in the header goes; [None]: the arity leads
    past the words of the term. *)
Fixpoint eq_words (n : nat) (tp1 tp2 : list Z) : option bool :=
  match n with
  | O => Some true
  | S n =>
      match tp1, tp2 with
      | x1 :: tp1, x2 :: tp2 => if decide (x1 ≠ x2) then Some false else eq_words n tp1 tp2
      | _, _ => None
      end
  end.

Definition erts_msgq_eq_recv_mark_id__ (term1 term2 : mark_id) : option bool :=
  match term1, term2 with
  | Immed x1, Immed x2 => Some (bool_decide (x1 = x2))
  | Words h1 tp1, Words h2 tp2 =>
      if decide (h1 ≠ h2) then Some false else eq_words (Z.to_nat (Z.shiftr h1 HEADER_ARITY_OFFS)) tp1 tp2
  | _, _ => Some false
  end.

(** The numbers of the predefined atoms are generated when the emulator is built. *)
Class StaticAtoms : Type := {
  am_undefined : Z;
  am_free : Z;
  am_new_uniq : Z;
  static_atoms_distinct : NoDup [am_undefined; am_free; am_new_uniq];
  static_atoms_atoms : Forall (λ x, is_atom x = true) [am_undefined; am_free; am_new_uniq]
}.

(** ** Data *)

Definition ERTS_RECV_MARKER_BLOCK_SIZE : nat := 8.
Definition ERTS_RECV_MARKER_PASS_MAX : Z := 4.

(** The signal of a marker is in the store of signals; all markers of the block are
    of type [ERTS_RECV_MARKER_TYPE_RECV]. *)
Record ErtsRecvMarker : Type := mkErtsRecvMarker {
  prev_next : option link;
  mrk_pass : Z;                   (* signed char, as the following ones *)
  mrk_set_save : bool;
  in_prioq : bool;
  in_sigq : Z;
  in_msgq : bool;
  prev_ix : Z;
  next_ix : Z
}.

#[global] Instance ErtsRecvMarker_eta : Eta ErtsRecvMarker := λ m, mkErtsRecvMarker (prev_next m)
  (mrk_pass m) (mrk_set_save m) (in_prioq m) (in_sigq m) (in_msgq m) (prev_ix m) (next_ix m).

(** [blk_base]: the address of the signal of marker 0; the others follow. *)
Record ErtsRecvMarkerBlock : Type := mkErtsRecvMarkerBlock {
  blk_ref : list mark_id;
  blk_marker : list ErtsRecvMarker;
  free_ix : Z;                    (* signed char, as the following ones *)
  used_ix : Z;
  unused : Z;
  pending_set_save_ix : Z;
  set_save_ix : Z;
  blk_base : positive
}.

#[global] Instance ErtsRecvMarkerBlock_eta : Eta ErtsRecvMarkerBlock := λ b, mkErtsRecvMarkerBlock (blk_ref b)
  (blk_marker b) (free_ix b) (used_ix b) (unused b) (pending_set_save_ix b) (set_save_ix b) (blk_base b).

(** ** Memory accesses *)

Abbreviation RMB A := (M (option ErtsRecvMarkerBlock) A).

Definition get_blk : RMB ErtsRecvMarkerBlock := o ← get; deref o.
Definition upd_blk (f : ErtsRecvMarkerBlock → ErtsRecvMarkerBlock) : RMB unit := _ ← get_blk; modify (fmap f).
(** An element of an array of the block; other indices are out of bounds. *)
Definition at_ix {A} (l : list A) (ix : Z) : option A := if decide (0 ≤ ix)%Z then l !! Z.to_nat ix else None.
Definition load_m (ix : Z) : RMB ErtsRecvMarker := b ← get_blk; deref (at_ix (blk_marker b) ix).
Definition upd_m (ix : Z) (f : ErtsRecvMarker → ErtsRecvMarker) : RMB unit :=
  _ ← load_m ix; upd_blk (λ b, b <| blk_marker ::= alter f (Z.to_nat ix) |>).
Definition load_ref (ix : Z) : RMB mark_id := b ← get_blk; deref (at_ix (blk_ref b) ix).
Definition set_ref (ix : Z) (r : mark_id) : RMB unit :=
  _ ← load_ref ix; upd_blk (λ b, b <| blk_ref ::= <[Z.to_nat ix := r]> |>).

(** ** Operations *)

Section block.
Context {SA : StaticAtoms}.

Definition recv_marker_deallocate (ix : Z) : RMB unit :=
  m ← load_m ix;
  let nix := next_ix m in
  if decide (nix = ix) then modify (λ _, None) else
  let pix := prev_ix m in
  r ← load_ref ix;
  _ ← (if decide (r = Immed am_undefined) then upd_blk (λ b, b <| unused ::= λ n, (n - 1)%Z |>) else mret tt);
  _ ← upd_m pix (λ m, m <| next_ix := nix |>);
  _ ← upd_m nix (λ m, m <| prev_ix := pix |>);
  b ← get_blk;
  _ ← (if decide (used_ix b = ix) then upd_blk (λ b, b <| used_ix := nix |>) else mret tt);
  _ ← upd_m ix (λ m, m <| next_ix := free_ix b |>);
  _ ← upd_blk (λ b, b <| free_ix := ix |>);
  set_ref ix (Immed am_free).

(** A new block, in which marker 0 is in use. What the C code leaves uninitialised
    is written when a marker is inserted in a queue. *)
Definition new_block (base : positive) (id : mark_id) : ErtsRecvMarkerBlock :=
  let m := mkErtsRecvMarker None 0 false false 0 false 0 0 in
  mkErtsRecvMarkerBlock
    (id :: replicate (ERTS_RECV_MARKER_BLOCK_SIZE - 1) (Immed am_free))
    (m :: ((λ ix, if decide (ix = ERTS_RECV_MARKER_BLOCK_SIZE - 1)%nat then m <| next_ix := (-1)%Z |>
                  else m <| next_ix := (Z.of_nat ix + 1)%Z |>) <$> seq 1 (ERTS_RECV_MARKER_BLOCK_SIZE - 1)))
    1 0 0 (-1) 0 base.

(** The choice of [recv_marker_reuse]: the marker to take out of the message queue,
    and the index for which it is used. [mi] is [markp] at the label
    [use_least_recently_allocated]. *)
Definition use_least_recently_allocated (mi : Z) : RMB (Z * Z) :=
  b ← get_blk;
  r ← load_ref (used_ix b);
  _ ← (if decide (r = Immed am_undefined) then upd_blk (λ b, b <| unused ::= λ n, (n - 1)%Z |>) else mret tt);
  m ← load_m mi;
  _ ← upd_blk (λ b, b <| used_ix := next_ix m |>);
  mret (mi, used_ix b).

(** Marker [ix] becomes the most recently allocated one. *)
Definition make_most_recent (ix : Z) : RMB unit :=
  m ← load_m ix;
  let pix := prev_ix m in
  let nix := next_ix m in
  _ ← upd_m pix (λ m, m <| next_ix := nix |>);
  _ ← upd_m nix (λ m, m <| prev_ix := pix |>);
  b ← get_blk;
  u ← load_m (used_ix b);
  let pix := prev_ix u in
  _ ← upd_m (used_ix b) (λ m, m <| prev_ix := ix |>);
  _ ← upd_m pix (λ m, m <| next_ix := ix |>);
  upd_m ix (λ m, m <| next_ix := used_ix b |> <| prev_ix := pix |>).

Fixpoint reuse_search (fuel : nat) (ix : Z) : RMB (Z * Z) :=
  match fuel with
  | O => ub
  | S fuel =>
      m ← load_m ix;
      if in_msgq m then
        r ← load_ref ix;
        if decide (r = Immed am_undefined) then
          _ ← upd_blk (λ b, b <| unused ::= λ n, (n - 1)%Z |>);
          _ ← make_most_recent ix;
          mret (ix, ix)
        else reuse_search fuel (next_ix m)
      else use_least_recently_allocated ix
  end.

Definition reuse_select : RMB (option (Z * Z)) :=
  b ← get_blk;
  m ← load_m (used_ix b);
  if in_msgq m then
    r ← load_ref (used_ix b);
    x ← (if decide (unused b = 0%Z ∨ r = Immed am_undefined) then use_least_recently_allocated (used_ix b)
         else reuse_search ERTS_RECV_MARKER_BLOCK_SIZE (next_ix m));
    mret (Some x)
  else mret None.

(** A marker of the free list becomes the most recently allocated one. *)
Definition take_free (ix : Z) : RMB unit :=
  b ← get_blk;
  m ← load_m ix;
  _ ← upd_blk (λ b, b <| free_ix := next_ix m |>);
  u ← load_m (used_ix b);
  _ ← upd_m ix (λ m, m <| prev_ix := prev_ix u |> <| next_ix := used_ix b |>);
  _ ← upd_m (prev_ix u) (λ m, m <| next_ix := ix |>);
  upd_m (used_ix b) (λ m, m <| prev_ix := ix |>).

(** The first marker with the given identifier. *)
Fixpoint find_mark (fuel : nat) (ix : Z) (id : mark_id) : RMB (option Z) :=
  match fuel with
  | O => mret None
  | S fuel =>
      r ← load_ref ix;
      e ← deref (erts_msgq_eq_recv_mark_id__ r id);
      if e : bool then mret (Some ix) else find_mark fuel (ix + 1) id
  end.

(** The marker serves no receive any more. *)
Definition mark_unused (ix : Z) : RMB unit :=
  _ ← upd_blk (λ b, b <| unused ::= λ n, (n + 1)%Z |>);
  _ ← set_ref ix (Immed am_undefined);
  upd_m ix (λ m, m <| mrk_pass := ERTS_RECV_MARKER_PASS_MAX |>).

Definition erts_msgq_recv_marker_clear (id : mark_id) : RMB unit :=
  if negb (is_small_id id) && negb (is_big_id id) && negb (is_internal_ref_id id) then mret tt else
  o ← get;
  match o with
  | None => mret tt
  | Some _ =>
      i ← find_mark ERTS_RECV_MARKER_BLOCK_SIZE 0 id;
      match i with Some ix => mark_unused ix | None => mret tt end
  end.

Definition erts_msgq_recv_marker_bind (insert_id bind_id : mark_id) : RMB unit :=
  if is_small_id insert_id || is_big_id insert_id then
    o ← get;
    match o with
    | None => mret tt
    | Some _ =>
        i ← find_mark ERTS_RECV_MARKER_BLOCK_SIZE 0 insert_id;
        match i with
        | Some ix => if is_internal_ref_id bind_id then set_ref ix bind_id else mark_unused ix
        | None => mret tt
        end
    end
  else mret tt.

(** [ERTS_PROC_SIG_RECV_MARK_CLEAR_PENDING_SET_SAVE__] *)
Definition clear_pending_set_save : RMB unit :=
  b ← get_blk;
  if decide (0 ≤ pending_set_save_ix b)%Z then
    _ ← upd_m (pending_set_save_ix b) (λ m, m <| mrk_set_save := false |>);
    upd_blk (λ b, b <| pending_set_save_ix := (-1)%Z |>)
  else mret tt.

(** ** The check of the debug build

    [erl_proc_sig_hdbg_chk_recv_marker_block]: [ub] stands for a failed
    [ERTS_ASSERT]. [used] and [unused] are the counts so far. *)
Definition ERTS_ASSERT (P : Prop) `{Decision P} : RMB unit := if decide P then mret tt else ub.

Definition in_block (ix : Z) : Prop := (0 ≤ ix < Z.of_nat ERTS_RECV_MARKER_BLOCK_SIZE)%Z.
#[global] Instance in_block_dec ix : Decision (in_block ix).
Proof. unfold in_block. apply _. Defined.

Fixpoint chk_used (fuel : nat) (ix : Z) (used unused : nat) : RMB (nat * nat) :=
  match fuel with
  | O => ub
  | S fuel =>
      m ← load_m ix;
      ref ← load_ref ix;
      _ ← ERTS_ASSERT (is_internal_ref_id ref = true ∨ is_small_id ref = true ∨ is_big_id ref = true ∨
                       ref = Immed am_undefined ∨ ref = Immed NIL);
      let unused := if decide (ref = Immed am_undefined) then S unused else unused in
      _ ← ERTS_ASSERT (in_block (prev_ix m));
      _ ← ERTS_ASSERT (in_block (next_ix m));
      p ← load_m (prev_ix m);
      _ ← ERTS_ASSERT (next_ix p = ix);
      n ← load_m (next_ix m);
      _ ← ERTS_ASSERT (prev_ix n = ix);
      _ ← ERTS_ASSERT (S used ≤ ERTS_RECV_MARKER_BLOCK_SIZE)%nat;
      b ← get_blk;
      if decide (next_ix m = used_ix b) then mret (S used, unused) else chk_used fuel (next_ix m) (S used) unused
  end.

Fixpoint chk_free (fuel : nat) (ix : Z) (free : nat) : RMB nat :=
  match fuel with
  | O => ub
  | S fuel =>
      ref ← load_ref ix;
      _ ← ERTS_ASSERT (ref = Immed am_free);
      _ ← ERTS_ASSERT (S free < ERTS_RECV_MARKER_BLOCK_SIZE)%nat;
      m ← load_m ix;
      if decide (0 ≤ next_ix m)%Z then chk_free fuel (next_ix m) (S free) else mret (S free)
  end.

Definition erl_proc_sig_hdbg_chk_recv_marker_block : RMB unit :=
  o ← get;
  match o with
  | None => mret tt
  | Some b =>
      _ ← ERTS_ASSERT (in_block (used_ix b));
      '(used, un) ← chk_used (S ERTS_RECV_MARKER_BLOCK_SIZE) (used_ix b) 0 0;
      _ ← ERTS_ASSERT (Z.of_nat un = unused b);
      free ← (if decide (0 ≤ free_ix b)%Z then
                _ ← ERTS_ASSERT (free_ix b < Z.of_nat ERTS_RECV_MARKER_BLOCK_SIZE)%Z;
                chk_free (S ERTS_RECV_MARKER_BLOCK_SIZE) (free_ix b) 0
              else mret 0);
      ERTS_ASSERT (used + free = ERTS_RECV_MARKER_BLOCK_SIZE)%nat
  end.

End block.
