(* ===== verification/RecvRing.v ===== *)
(** The block of receive markers: the ring of the markers in use and the list of the
    free ones, and what the operations do to them. *)

From stdpp Require Import base numbers list list_numbers gmap sets.
From Stdlib Require Import ZArith Lia.
From S2P Require Import Prelude Ring ErlTerm RecvMarker.

Abbreviation NMARK := (Z.of_nat ERTS_RECV_MARKER_BLOCK_SIZE).

Definition mnx (b : ErtsRecvMarkerBlock) (ix : Z) : option Z := next_ix <$> at_ix (blk_marker b) ix.
Definition mpv (b : ErtsRecvMarkerBlock) (ix : Z) : option Z := prev_ix <$> at_ix (blk_marker b) ix.
Definition mref (b : ErtsRecvMarkerBlock) (ix : Z) : option mark_id := at_ix (blk_ref b) ix.

(** The list that starts with index [i] and ends with -1. *)
Fixpoint free_list (nx : Z → option Z) (i : Z) (l : list Z) : Prop :=
  match l with
  | [] => i = (-1)%Z
  | a :: l => i = a ∧ ∃ n, nx a = Some n ∧ free_list nx n l
  end.

Section ring_ok.
Context {SA : StaticAtoms}.
Implicit Types b : ErtsRecvMarkerBlock.
Implicit Types used free : list Z.

(** An identifier that a marker in use can have. *)
Definition id_kind (r : mark_id) : Prop :=
  is_internal_ref_id r = true ∨ is_small_id r = true ∨ is_big_id r = true ∨ r = Immed NIL.
(** A boxed term has as many words as its header says. *)
Definition id_wf (r : mark_id) : Prop :=
  match r with Immed _ => True | Words h body => length body = Z.to_nat (Z.shiftr h HEADER_ARITY_OFFS) end.
Definition id_new (r : mark_id) : Prop := id_kind r ∧ id_wf r.

Definition n_unused b (l : list Z) : nat := length (filter (λ ix, mref b ix = Some (Immed am_undefined)) l).

Record ring_ok b used free : Prop := {
  ro_ref : length (blk_ref b) = ERTS_RECV_MARKER_BLOCK_SIZE;
  ro_mrk : length (blk_marker b) = ERTS_RECV_MARKER_BLOCK_SIZE;
  ro_all : used ++ free ≡ₚ seqZ 0 NMARK;
  ro_head : head used = Some (used_ix b);
  ro_ring : rring (mnx b) (mpv b) used;
  ro_free : free_list (mnx b) (free_ix b) free;
  ro_used_ref : ∀ ix, ix ∈ used → ∃ r, mref b ix = Some r ∧ (id_new r ∨ r = Immed am_undefined);
  ro_free_ref : ∀ ix, ix ∈ free → mref b ix = Some (Immed am_free);
  ro_unused : unused b = Z.of_nat (n_unused b used)
}.

Definition blk_ok (o : option ErtsRecvMarkerBlock) : Prop :=
  match o with Some b => ∃ used free, ring_ok b used free | None => True end.

Lemma ring_ok_in b used free ix : ring_ok b used free → ix ∈ used ++ free ↔ in_block ix.
Proof. intros H. rewrite (ro_all _ _ _ H), elem_of_seqZ. unfold in_block. lia. Qed.

Lemma ring_ok_nodup b used free : ring_ok b used free → NoDup (used ++ free).
Proof. intros H. rewrite (ro_all _ _ _ H). apply NoDup_seqZ. Qed.

(** *** Memory accesses *)

Lemma at_ix_some {A} (l : list A) ix : length l = ERTS_RECV_MARKER_BLOCK_SIZE → in_block ix → is_Some (at_ix l ix).
Proof. intros Hl [H1 H2]. unfold at_ix. rewrite decide_True by done. apply lookup_lt_is_Some. lia. Qed.

Lemma at_ix_insert {A} (l : list A) ix x j : is_Some (at_ix l ix) →
  at_ix (<[Z.to_nat ix := x]> l) j = if decide (j = ix) then Some x else at_ix l j.
Proof.
  unfold at_ix. destruct (decide (0 ≤ ix)%Z) as [Hi|]; [|by intros [? ?]]. intros Hs%lookup_lt_is_Some.
  destruct (decide (0 ≤ j)%Z) as [Hj|]; [|rewrite decide_False by lia; done].
  case_decide as Hd; [subst; by rewrite list_lookup_insert_eq|]. apply list_lookup_insert_ne. lia.
Qed.

Lemma at_ix_alter {A} (f : A → A) (l : list A) ix j : (0 ≤ ix)%Z →
  at_ix (alter f (Z.to_nat ix) l) j = if decide (j = ix) then f <$> at_ix l j else at_ix l j.
Proof.
  intros Hi. unfold at_ix. destruct (decide (0 ≤ j)%Z) as [Hj|]; [|by destruct (decide (j = ix))].
  case_decide as Hd; [subst; by rewrite list_lookup_alter_eq|]. apply list_lookup_alter_ne. lia.
Qed.

Lemma wp_get_blk (Q : _ → _ → Prop) b : Q b (Some b) → wp get_blk Q (Some b).
Proof. done. Qed.

Lemma wp_upd_blk f (Q : _ → _ → Prop) b : Q tt (Some (f b)) → wp (upd_blk f) Q (Some b).
Proof. done. Qed.

Lemma wp_load_m ix m (Q : _ → _ → Prop) b : at_ix (blk_marker b) ix = Some m → Q m (Some b) → wp (load_m ix) Q (Some b).
Proof. intros H HQ. unfold load_m. wp_step. apply wp_get_blk. by eapply wp_deref. Qed.

Lemma wp_load_ref ix r (Q : _ → _ → Prop) b : mref b ix = Some r → Q r (Some b) → wp (load_ref ix) Q (Some b).
Proof. intros H HQ. unfold load_ref. wp_step. apply wp_get_blk. by eapply wp_deref. Qed.

Lemma wp_upd_m ix f (Q : _ → _ → Prop) b : is_Some (at_ix (blk_marker b) ix) →
  Q tt (Some (b <| blk_marker ::= alter f (Z.to_nat ix) |>)) → wp (upd_m ix f) Q (Some b).
Proof. intros [m H] HQ. unfold upd_m. wp_step. eapply wp_load_m; [done|]. by apply wp_upd_blk. Qed.

Lemma wp_set_ref ix r (Q : _ → _ → Prop) b : is_Some (mref b ix) →
  Q tt (Some (b <| blk_ref ::= <[Z.to_nat ix := r]> |>)) → wp (set_ref ix r) Q (Some b).
Proof. intros [x H] HQ. unfold set_ref. wp_step. eapply wp_load_ref; [done|]. by apply wp_upd_blk. Qed.

(** Updates of the links, as functions on blocks. *)
Definition set_next (ix n : Z) b := b <| blk_marker ::= alter (λ m, m <| next_ix := n |>) (Z.to_nat ix) |>.
Definition set_prev (ix n : Z) b := b <| blk_marker ::= alter (λ m, m <| prev_ix := n |>) (Z.to_nat ix) |>.

Lemma mnx_alter f ix b j : (0 ≤ ix)%Z → (∀ m, next_ix (f m) = next_ix m) →
  mnx (b <| blk_marker ::= alter f (Z.to_nat ix) |>) j = mnx b j.
Proof.
  intros Hi Hf. unfold mnx. cbn. rewrite at_ix_alter by done. case_decide; [|done].
  destruct (at_ix _ j); simpl; [by rewrite Hf|done].
Qed.

Lemma mpv_alter f ix b j : (0 ≤ ix)%Z → (∀ m, prev_ix (f m) = prev_ix m) →
  mpv (b <| blk_marker ::= alter f (Z.to_nat ix) |>) j = mpv b j.
Proof.
  intros Hi Hf. unfold mpv. cbn. rewrite at_ix_alter by done. case_decide; [|done].
  destruct (at_ix _ j); simpl; [by rewrite Hf|done].
Qed.

Lemma mnx_set_next ix n b j : in_block ix → length (blk_marker b) = ERTS_RECV_MARKER_BLOCK_SIZE →
  mnx (set_next ix n b) j = if decide (j = ix) then Some n else mnx b j.
Proof.
  intros Hi Hl. destruct (at_ix_some _ _ Hl Hi) as [m Hm]. unfold mnx, set_next. cbn.
  rewrite at_ix_alter by apply Hi. case_decide; [subst; by rewrite Hm|done].
Qed.

Lemma mpv_set_prev ix n b j : in_block ix → length (blk_marker b) = ERTS_RECV_MARKER_BLOCK_SIZE →
  mpv (set_prev ix n b) j = if decide (j = ix) then Some n else mpv b j.
Proof.
  intros Hi Hl. destruct (at_ix_some _ _ Hl Hi) as [m Hm]. unfold mpv, set_prev. cbn.
  rewrite at_ix_alter by apply Hi. case_decide; [subst; by rewrite Hm|done].
Qed.

Lemma mpv_set_next ix n b j : in_block ix → mpv (set_next ix n b) j = mpv b j.
Proof. intros [Hi _]. by apply mpv_alter. Qed.

Lemma mnx_set_prev ix n b j : in_block ix → mnx (set_prev ix n b) j = mnx b j.
Proof. intros [Hi _]. by apply mnx_alter. Qed.

(** What the operations on links leave alone. *)
Record links_only b b' : Prop := {
  lo_ref : blk_ref b' = blk_ref b;
  lo_len : length (blk_marker b') = length (blk_marker b);
  lo_base : blk_base b' = blk_base b
}.

Lemma links_only_set_next ix n b : links_only b (set_next ix n b).
Proof. constructor; [done| |done]. cbn. by rewrite length_alter. Qed.
Lemma links_only_set_prev ix n b : links_only b (set_prev ix n b).
Proof. constructor; [done| |done]. cbn. by rewrite length_alter. Qed.

(** *** Identifiers *)

Lemma atom_not_small x : is_atom x = true → is_small x = false.
Proof.
  unfold is_atom, is_small. rewrite bool_decide_eq_true, bool_decide_eq_false. intros H Hs.
  assert (Z.land (Z.land x TAG_IMMED2_MASK) TAG_IMMED1_MASK = Z.land x TAG_IMMED1_MASK) as He
    by (by rewrite <- Z.land_assoc).
  rewrite H, Hs in He. by vm_compute in He.
Qed.

Lemma id_new_not_atom x r : is_atom x = true → id_new r → r ≠ Immed x.
Proof.
  intros Hx [Hr _] ->. destruct Hr as [H|[H|[H|[= H]]]]; try done.
  - cbn in H. by rewrite atom_not_small in H.
  - rewrite H in Hx. by vm_compute in Hx.
Qed.

Lemma static_atom_undefined : is_atom am_undefined = true.
Proof. pose proof static_atoms_atoms as H. by apply Forall_cons in H as [H _]. Qed.

Lemma static_atom_free : is_atom am_free = true.
Proof. pose proof static_atoms_atoms as H. by apply Forall_cons in H as [_ [H _]%Forall_cons]. Qed.

Lemma id_new_undefined r : id_new r → r ≠ Immed am_undefined.
Proof. apply id_new_not_atom, static_atom_undefined. Qed.

Lemma undefined_not_free : am_undefined ≠ am_free.
Proof. pose proof static_atoms_distinct as H. apply NoDup_cons in H as [H _]. set_solver. Qed.

End ring_ok.
