(* ===== verification/RecvOps.v ===== *)
(** Each operation on the block of receive markers keeps the ring of the markers in
    use and the list of the free ones. *)

From stdpp Require Import base numbers list list_numbers gmap sets.
From Stdlib Require Import ZArith Lia.
From S2P Require Import Prelude Ring ErlTerm RecvMarker RecvRing.

Section ops.
Context {SA : StaticAtoms}.
Implicit Types b : ErtsRecvMarkerBlock.
Implicit Types used free l : list Z.

Abbreviation undef := (Immed am_undefined).

(** *** Counting *)

Lemma n_unused_app b l1 l2 : n_unused b (l1 ++ l2) = n_unused b l1 + n_unused b l2.
Proof. unfold n_unused. by rewrite filter_app, length_app. Qed.

Lemma n_unused_cons b ix l : n_unused b (ix :: l) = (if decide (mref b ix = Some undef) then 1 else 0) + n_unused b l.
Proof. unfold n_unused. rewrite filter_cons. by case_decide. Qed.

Lemma n_unused_ext b b' l : (∀ ix, ix ∈ l → mref b' ix = mref b ix) → n_unused b' l = n_unused b l.
Proof.
  induction l as [|ix l IH]; intros H; [done|]. rewrite !n_unused_cons, (H ix) by left. rewrite IH; [done|].
  intros j Hj. apply H. by right.
Qed.

Lemma n_unused_perm b l l' : l ≡ₚ l' → n_unused b l = n_unused b l'.
Proof. intros H. unfold n_unused. by rewrite H. Qed.

(** *** Blocks with the same shape *)

Lemma free_list_ext nx nx' i l : (∀ a, a ∈ l → nx' a = nx a) → free_list nx i l → free_list nx' i l.
Proof.
  revert i. induction l as [|a l IH]; intros i H; [done|]. intros (-> & n & Hn & Hl). split; [done|]. exists n.
  rewrite H by left. split; [done|]. apply IH; [|done]. intros c Hc. apply H. by right.
Qed.

(** Only what the ring does not speak about has changed. *)
Lemma ring_ok_ext b b' used free :
  ring_ok b used free → blk_ref b' = blk_ref b → length (blk_marker b') = length (blk_marker b) →
  free_ix b' = free_ix b → used_ix b' = used_ix b → unused b' = unused b →
  (∀ ix, mnx b' ix = mnx b ix) → (∀ ix, mpv b' ix = mpv b ix) → ring_ok b' used free.
Proof.
  intros [H1 H2 H3 H4 H5 H6 H7 H8 H9] Hr Hl Hf Hu Hn Hnx Hpv. assert (Href : ∀ ix, mref b' ix = mref b ix).
  { intros ix. unfold mref. by rewrite Hr. }
  constructor; rewrite ?Hr, ?Hl, ?Hf, ?Hu, ?Hn; try done.
  - eapply rring_frame; [by auto..|done].
  - eapply free_list_ext; [by auto|done].
  - intros ix Hi. rewrite Href. by apply H7.
  - intros ix Hi. rewrite Href. by apply H8.
  - rewrite H9. f_equal. symmetry. by apply n_unused_ext.
Qed.

(** The count of the unused markers goes down when one of them is taken. *)
Lemma wp_when_unused r (Q : unit → option ErtsRecvMarkerBlock → Prop) b :
  Q tt (Some (b <| unused := (unused b - (if decide (r = undef) then 1 else 0))%Z |>)) →
  wp (if decide (r = undef) then upd_blk (λ b, b <| unused ::= λ n, (n - 1)%Z |>) else mret tt) Q (Some b).
Proof. intros HQ. case_decide; [by apply wp_upd_blk|]. wp_step. rewrite Z.sub_0_r in HQ. by destruct b. Qed.

(** Links are changed to [nx] and [pv], the rest of the block stays. *)
Record relinked b b' (nx pv : Z → option Z) : Prop := {
  rl_ref : blk_ref b' = blk_ref b;
  rl_len : length (blk_marker b') = length (blk_marker b);
  rl_free : free_ix b' = free_ix b;
  rl_used : used_ix b' = used_ix b;
  rl_unused : unused b' = unused b;
  rl_base : blk_base b' = blk_base b;
  rl_nx : ∀ j, mnx b' j = nx j;
  rl_pv : ∀ j, mpv b' j = pv j
}.

Lemma wp_set_next ix n b (Q : unit → option ErtsRecvMarkerBlock → Prop) :
  in_block ix → length (blk_marker b) = ERTS_RECV_MARKER_BLOCK_SIZE →
  (∀ b', relinked b b' (λ j, if decide (j = ix) then Some n else mnx b j) (mpv b) → Q tt (Some b')) →
  wp (upd_m ix (λ m, m <| next_ix := n |>)) Q (Some b).
Proof.
  intros Hi Hl HQ. apply wp_upd_m; [by apply at_ix_some|]. apply (HQ (set_next ix n b)).
  constructor; try done; [apply links_only_set_next|..]; intros j; [by apply mnx_set_next|by apply mpv_set_next].
Qed.

Lemma wp_set_prev ix n b (Q : unit → option ErtsRecvMarkerBlock → Prop) :
  in_block ix → length (blk_marker b) = ERTS_RECV_MARKER_BLOCK_SIZE →
  (∀ b', relinked b b' (mnx b) (λ j, if decide (j = ix) then Some n else mpv b j) → Q tt (Some b')) →
  wp (upd_m ix (λ m, m <| prev_ix := n |>)) Q (Some b).
Proof.
  intros Hi Hl HQ. apply wp_upd_m; [by apply at_ix_some|]. apply (HQ (set_prev ix n b)).
  constructor; try done; [apply links_only_set_prev|..]; intros j; [by apply mnx_set_prev|by apply mpv_set_prev].
Qed.

(** Marker [n] follows marker [p]. *)
Lemma wp_join {B} p n (k : RMB B) b (Q : B → option ErtsRecvMarkerBlock → Prop) :
  in_block p → in_block n → length (blk_marker b) = ERTS_RECV_MARKER_BLOCK_SIZE →
  (∀ b', relinked b b' (λ j, if decide (j = p) then Some n else mnx b j) (λ j, if decide (j = n) then Some p else mpv b j) →
     wp k Q (Some b')) →
  wp (_ ← upd_m p (λ m, m <| next_ix := n |>); _ ← upd_m n (λ m, m <| prev_ix := p |>); k) Q (Some b).
Proof.
  intros Hp Hn Hl HQ. wp_step. apply wp_set_next; [done..|]. intros b1 [R1 R2 R3 R4 R5 R6 R7 R8].
  wp_step. apply wp_set_prev; [done|congruence|]. intros b2 [S1 S2 S3 S4 S5 S6 S7 S8].
  apply HQ. constructor; try congruence; intros j; [by rewrite S7|by rewrite S8, R8].
Qed.

(** The neighbours of a marker that is not alone. *)
Lemma ring_neighbours b l1 ix l2 free m :
  ring_ok b (l1 ++ ix :: l2) free → at_ix (blk_marker b) ix = Some m →
  NoDup (l2 ++ l1) ∧ (ix ∉ l2 ++ l1) ∧
  (l2 ++ l1 = [] → next_ix m = ix) ∧
  (l2 ++ l1 ≠ [] → head (l2 ++ l1) = Some (next_ix m) ∧ last (l2 ++ l1) = Some (prev_ix m)).
Proof.
  intros Hok Hm. pose proof (ring_ok_nodup _ _ _ Hok) as Hnd.
  pose proof (rring_nx _ _ _ _ _ (ro_ring _ _ _ Hok)) as Hnx. pose proof (rring_pv _ _ _ _ _ (ro_ring _ _ _ Hok)) as Hpv.
  unfold mnx, mpv in Hnx, Hpv. rewrite Hm in Hnx, Hpv. rewrite app_assoc in Hnx. simpl in Hnx, Hpv.
  assert (Hnd' : NoDup (ix :: l2 ++ l1)).
  { apply NoDup_app in Hnd as (Hnd & _). by rewrite <- Permutation_middle, Permutation_app_comm in Hnd. }
  apply NoDup_cons in Hnd' as [Hni Hnd']. split_and!; [done|done|..]; destruct (l2 ++ l1) as [|h t] eqn:Hht.
  - intros _. by injection Hnx.
  - done.
  - done.
  - intros _. rewrite last_cons_cons in Hpv. split; [by simpl in *|by rewrite Hpv].
Qed.

(** Marker [ix] is taken out of the ring. *)
Lemma ring_unlinked b b' l1 ix l2 free m :
  ring_ok b (l1 ++ ix :: l2) free → at_ix (blk_marker b) ix = Some m → l2 ++ l1 ≠ [] →
  (∀ j, j ≠ ix → mnx b' j = if decide (j = prev_ix m) then Some (next_ix m) else mnx b j) →
  (∀ j, j ≠ ix → mpv b' j = if decide (j = next_ix m) then Some (prev_ix m) else mpv b j) →
  rring (mnx b') (mpv b') (l1 ++ l2).
Proof.
  intros Hok Hm Hne Hn Hp. destruct (ring_neighbours _ _ _ _ _ _ Hok Hm) as (Hnd' & Hni & _ & Hb).
  destruct (Hb Hne) as [Hh Hl]. pose proof (ring_ok_nodup _ _ _ Hok) as Hnd. apply NoDup_app in Hnd as (Hnd & _).
  eapply (rring_del (mnx b) (mpv b)); [apply Hok|done|..]; intros j Hj.
  - rewrite Hn by (intros ->; done). rewrite Hl, Hh.
    destruct (decide (j = prev_ix m)) as [->|Hd]; [by rewrite decide_True|by rewrite decide_False by congruence].
  - rewrite Hp by (intros ->; done). rewrite Hl, Hh.
    destruct (decide (j = next_ix m)) as [->|Hd]; [by rewrite decide_True|by rewrite decide_False by congruence].
Qed.

(** *** Giving a marker back *)

Lemma ring_ok_freed b b' l1 ix l2 free m r :
  ring_ok b (l1 ++ ix :: l2) free → at_ix (blk_marker b) ix = Some m → mref b ix = Some r → l1 ++ l2 ≠ [] →
  length (blk_ref b') = ERTS_RECV_MARKER_BLOCK_SIZE → length (blk_marker b') = ERTS_RECV_MARKER_BLOCK_SIZE →
  (∀ j, mnx b' j = if decide (j = ix) then Some (free_ix b) else
                   if decide (j = prev_ix m) then Some (next_ix m) else mnx b j) →
  (∀ j, mpv b' j = if decide (j = next_ix m) then Some (prev_ix m) else mpv b j) →
  (∀ j, mref b' j = if decide (j = ix) then Some (Immed am_free) else mref b j) →
  free_ix b' = ix → used_ix b' = (if decide (used_ix b = ix) then next_ix m else used_ix b) →
  unused b' = (unused b - (if decide (r = undef) then 1 else 0))%Z →
  ring_ok b' (l1 ++ l2) (ix :: free).
Proof.
  intros Hok Hm Hr Hne H1 H2 Hn Hp Href Hf Hu Hun.
  destruct (ring_neighbours _ _ _ _ _ _ Hok Hm) as (Hnd' & Hni & _ & Hb). destruct Hb as [Hh Hl].
  { intros [-> ->]%app_eq_nil. done. }
  pose proof (ring_ok_nodup _ _ _ Hok) as Hnd. apply NoDup_app in Hnd as (_ & Hdis & Hndf).
  constructor; [done|done| | | | | | |].
  - rewrite <- (ro_all _ _ _ Hok), <- !app_assoc. f_equal. simpl. by rewrite Permutation_middle.
  - pose proof (ro_head _ _ _ Hok) as Hhd. rewrite Hu. destruct l1 as [|x l1]; simpl in *; injection Hhd as Hhd.
    + rewrite decide_True by done. by rewrite app_nil_r in Hh.
    + rewrite decide_False; [by rewrite Hhd|]. intros Hx. rewrite Hx in Hhd. subst x. apply Hni, elem_of_app. right. left.
  - eapply ring_unlinked; [done|done|by intros [-> ->]%app_eq_nil|..]; intros j Hj; [by rewrite Hn, decide_False|by rewrite Hp].
  - simpl. split; [done|]. exists (free_ix b). split; [by rewrite Hn, decide_True|].
    eapply free_list_ext; [|apply Hok]. intros j Hj. rewrite Hn, !decide_False; [done| |].
    + intros ->. apply (Hdis (prev_ix m)); [|done]. apply last_Some_elem_of in Hl. set_solver.
    + intros ->. apply (Hdis ix); [set_solver|done].
  - intros j Hj. rewrite Href, decide_False by (intros ->; set_solver). apply (ro_used_ref _ _ _ Hok). set_solver.
  - intros j Hj. rewrite Href. destruct (decide (j = ix)); [done|]. apply (ro_free_ref _ _ _ Hok). set_solver.
  - rewrite (n_unused_ext b b') by (intros j Hj; rewrite Href, decide_False by (intros ->; set_solver); done).
    rewrite Hun, (ro_unused _ _ _ Hok).
    rewrite (n_unused_perm b (l1 ++ ix :: l2) (ix :: l1 ++ l2)) by by rewrite Permutation_middle.
    rewrite n_unused_cons, Hr. destruct (decide (r = undef)) as [->|Hru].
    + rewrite decide_True by done. lia.
    + rewrite decide_False by congruence. lia.
Qed.

Lemma wp_recv_marker_deallocate ix b l1 l2 free (Q : unit → option ErtsRecvMarkerBlock → Prop) :
  ring_ok b (l1 ++ ix :: l2) free →
  (l1 ++ l2 = [] → Q tt None) →
  (∀ b', l1 ++ l2 ≠ [] → ring_ok b' (l1 ++ l2) (ix :: free) → blk_base b' = blk_base b → Q tt (Some b')) →
  wp (recv_marker_deallocate ix) Q (Some b).
Proof.
  intros Hok HQ0 HQ.
  assert (Hix : in_block ix) by (eapply ring_ok_in; [done|set_solver]).
  destruct (at_ix_some (blk_marker b) ix (ro_mrk _ _ _ Hok) Hix) as [m Hm].
  destruct (ring_neighbours _ _ _ _ _ _ Hok Hm) as (Hnd' & Hni & Hone & Hb).
  unfold recv_marker_deallocate. wp_step. eapply wp_load_m; [done|]. cbv zeta. destruct (decide (l1 ++ l2 = [])) as [He|Hne].
  { apply app_eq_nil in He as [-> ->]. rewrite decide_True by by apply Hone. wp_step. by apply HQ0. }
  destruct Hb as [Hh Hl]; [by intros [-> ->]%app_eq_nil|].
  pose proof (head_Some_elem_of _ _ Hh) as Hhin. pose proof (last_Some_elem_of _ _ Hl) as Hpin.
  assert (Hhb : in_block (next_ix m)) by (eapply ring_ok_in; [done|set_solver]).
  assert (Hpb : in_block (prev_ix m)) by (eapply ring_ok_in; [done|set_solver]).
  rewrite decide_False by (intros Hx; rewrite Hx in Hhin; done). destruct (ro_used_ref _ _ _ Hok ix) as (r & Hr & _); [set_solver|].
  wp_step. eapply wp_load_ref; [done|]. wp_step. apply wp_when_unused. set (b1 := b <| unused := _ |>).
  apply wp_join; [done|done|apply Hok|]. intros b2 [R1 R2 R3 R4 R5 R6 R7 R8]. pose proof (ro_mrk _ _ _ Hok) as Hlm.
  wp_step. apply wp_get_blk. wp_step. rewrite R4. change (used_ix b1) with (used_ix b).
  set (b3 := if decide (used_ix b = ix) then b2 <| used_ix := next_ix m |> else b2).
  assert (∀ (R : unit → option ErtsRecvMarkerBlock → Prop), R tt (Some b3) →
    wp (if decide (used_ix b = ix) then upd_blk (λ b, b <| used_ix := next_ix m |>) else mret tt) R (Some b2)) as Hstep.
  { intros R HR. unfold b3 in HR. case_decide; [by apply wp_upd_blk|by wp_step]. }
  apply Hstep. clear Hstep.
  assert (H3 : blk_marker b3 = blk_marker b2 ∧ blk_ref b3 = blk_ref b ∧ unused b3 = unused b1 ∧ blk_base b3 = blk_base b ∧
    used_ix b3 = if decide (used_ix b = ix) then next_ix m else used_ix b) by (unfold b3; by case_decide).
  destruct H3 as (H3 & H3r & H3u & H3b & H3x). wp_step. apply wp_set_next; [done|by rewrite H3, R2|].
  intros b4 [S1 S2 S3 S4 S5 S6 S7 S8]. wp_step. apply wp_upd_blk.
  assert (Hrx : is_Some (at_ix (blk_ref b) ix)) by (unfold mref in Hr; by rewrite Hr).
  apply wp_set_ref; [unfold mref; cbn; by rewrite S1, H3r|]. apply HQ; [done| |cbn; congruence].
  eapply ring_ok_freed; [done..| | | | | |done| |].
  - cbn. rewrite length_insert, S1, H3r. apply Hok.
  - cbn. rewrite S2, H3, R2. apply Hok.
  - intros j. etransitivity; [apply S7|]. rewrite R3. destruct (decide (j = ix)); [done|].
    unfold mnx at 1. rewrite H3. apply R7.
  - intros j. etransitivity; [apply S8|]. unfold mpv at 1. rewrite H3. apply R8.
  - intros j. unfold mref. cbn. rewrite S1, H3r. by apply at_ix_insert.
  - cbn. by rewrite S4.
  - cbn. by rewrite S5, H3u.
Qed.

(** *** A marker of the free list *)

(** The identifier of a marker in use changes, and the ring may turn or be sorted. *)
Lemma ring_ok_renamed b b' used used' free ix r r' :
  ring_ok b used free → ix ∈ used → mref b ix = Some r → id_new r' ∨ r' = undef →
  length (blk_ref b') = length (blk_ref b) → length (blk_marker b') = length (blk_marker b) →
  used' ≡ₚ used → head used' = Some (used_ix b') → rring (mnx b') (mpv b') used' →
  free_list (mnx b') (free_ix b') free →
  (∀ j, mref b' j = if decide (j = ix) then Some r' else mref b j) →
  (unused b' = unused b - (if decide (r = undef) then 1 else 0) + (if decide (r' = undef) then 1 else 0))%Z →
  ring_ok b' used' free.
Proof.
  intros Hok Hix Hr Hr' Hl1 Hl2 Hp Hh Hring Hfree Href Hun.
  pose proof (ring_ok_nodup _ _ _ Hok) as Hnd. apply NoDup_app in Hnd as (Hnd & Hdis & _).
  constructor; [by rewrite Hl1; apply Hok|by rewrite Hl2; apply Hok|by rewrite Hp; apply Hok|done|done|done| | |].
  - intros j. rewrite Hp, Href. intros Hj. destruct (decide (j = ix)); [eauto|by apply (ro_used_ref _ _ _ Hok)].
  - intros j Hj. rewrite Href, decide_False; [by apply (ro_free_ref _ _ _ Hok)|]. intros ->. by apply (Hdis ix).
  - rewrite (n_unused_perm b' used' used) by done. rewrite Hun, (ro_unused _ _ _ Hok).
    apply list_elem_of_split in Hix as (l1 & l2 & ->).
    rewrite !(n_unused_perm _ (l1 ++ ix :: l2) (ix :: l1 ++ l2)) by by rewrite Permutation_middle.
    assert (mref b' ix = Some r') as Hid' by (rewrite Href; by rewrite decide_True). rewrite !n_unused_cons, Hr, Hid'.
    rewrite (n_unused_ext b b' (l1 ++ l2)).
    + destruct (decide (r = undef)) as [->|], (decide (r' = undef)) as [->|];
        rewrite ?(decide_True (P := Some undef = Some undef)) by done;
        repeat (rewrite decide_False by congruence); lia.
    + intros j Hj. rewrite Href, decide_False; [done|]. intros ->. rewrite <- Permutation_middle in Hnd.
      by apply NoDup_cons in Hnd as [? _].
Qed.

Lemma wp_set_both ix p n f b (Q : unit → option ErtsRecvMarkerBlock → Prop) :
  in_block ix → length (blk_marker b) = ERTS_RECV_MARKER_BLOCK_SIZE →
  (∀ m, next_ix (f m) = n ∧ prev_ix (f m) = p) →
  (∀ b', relinked b b' (λ j, if decide (j = ix) then Some n else mnx b j) (λ j, if decide (j = ix) then Some p else mpv b j) →
     Q tt (Some b')) →
  wp (upd_m ix f) Q (Some b).
Proof.
  intros Hi Hl Hf HQ. destruct (at_ix_some _ _ Hl Hi) as [m Hm]. destruct (Hf m) as [Hfn Hfp].
  apply wp_upd_m; [by apply at_ix_some|]. apply HQ. constructor; try done; [cbn; by rewrite length_alter|..];
    intros j; unfold mnx, mpv; cbn; rewrite at_ix_alter by apply Hi;
    (destruct (decide (j = ix)) as [->|]; [rewrite Hm; cbn; congruence|done]).
Qed.

(** The ring of [h :: t] gets [ix] as the last marker. *)
Lemma ring_pushed b b' h t ix p :
  rring (mnx b) (mpv b) (h :: t) → NoDup (h :: t) → ix ∉ h :: t → last (h :: t) = Some p →
  (∀ j, mnx b' j = if decide (j = ix) then Some h else if decide (j = p) then Some ix else mnx b j) →
  (∀ j, mpv b' j = if decide (j = h) then Some ix else if decide (j = ix) then Some p else mpv b j) →
  rring (mnx b') (mpv b') ((h :: t) ++ [ix]).
Proof.
  intros Hr Hnd Hix Hp Hn Hpv. eapply rring_push; [done|done|done|..]; intros j.
  - rewrite Hn, Hp. destruct (decide (j = ix)); [done|]. destruct (decide (j = p)) as [->|]; [by rewrite decide_True|].
    by rewrite decide_False by congruence.
  - by rewrite Hpv, Hp.
Qed.

Lemma wp_take_free ix id b used free (Q : unit → option ErtsRecvMarkerBlock → Prop) :
  ring_ok b used (ix :: free) → id_new id →
  (∀ b', ring_ok b' (used ++ [ix]) free → blk_base b' = blk_base b → Q tt (Some b')) →
  wp (_ ← take_free ix; set_ref ix id) Q (Some b).
Proof.
  intros Hok Hid HQ. pose proof (ring_ok_nodup _ _ _ Hok) as Hnd. pose proof (ro_head _ _ _ Hok) as Hh.
  destruct used as [|h t]; [done|]. injection Hh as Hh. pose proof (ro_mrk _ _ _ Hok) as Hlm.
  assert (Hix : in_block ix) by (eapply ring_ok_in; [done|set_solver]).
  assert (Hhb : in_block h) by (eapply ring_ok_in; [done|set_solver]).
  destruct (at_ix_some _ _ Hlm Hix) as [m Hm]. destruct (at_ix_some _ _ Hlm Hhb) as [u Hu].
  pose proof (rring_pv _ _ [] h t (ro_ring _ _ _ Hok)) as Hpv. rewrite app_nil_r in Hpv. unfold mpv in Hpv. rewrite Hu in Hpv.
  symmetry in Hpv. pose proof (last_Some_elem_of _ _ Hpv) as Hpin. simpl in Hpv.
  assert (Hpb : in_block (prev_ix u)) by (eapply ring_ok_in; [done|set_solver]).
  pose proof (ro_free _ _ _ Hok) as (Hfix & n & Hn & Hfl). apply NoDup_app in Hnd as (Hnd & Hdis & Hndf).
  assert (Hni : ix ∉ h :: t) by (intros Hx; apply (Hdis ix); [done|left]).
  assert (Hnx : mnx b ix = Some (next_ix m)) by (unfold mnx; by rewrite Hm).
  rewrite Hnx in Hn. injection Hn as Hn.
  unfold take_free. wp_step. wp_step. apply wp_get_blk. wp_step. eapply wp_load_m; [done|]. wp_step. apply wp_upd_blk.
  set (b1 := b <| free_ix := _ |>). wp_step. eapply wp_load_m; [rewrite <- Hh; exact Hu|]. rewrite <- Hh.
  wp_step. apply (wp_set_both ix (prev_ix u) h); [done|done|done|]. intros b2 [R1 R2 R3 R4 R5 R6 R7 R8]. wp_step.
  apply wp_set_next; [done|rewrite R2; exact Hlm|]. intros b3 [S1 S2 S3 S4 S5 S6 S7 S8].
  apply wp_set_prev; [done|rewrite S2, R2; exact Hlm|]. intros b4 [T1 T2 T3 T4 T5 T6 T7 T8].
  assert (Hrx : is_Some (at_ix (blk_ref b) ix)) by (apply at_ix_some; [apply Hok|done]).
  apply wp_set_ref; [unfold mref; by rewrite T1, S1, R1|]. set (b5 := _ <| blk_ref ::= _ |>).
  assert (Hn5 : ∀ j, mnx b5 j = if decide (j = ix) then Some h else if decide (j = prev_ix u) then Some ix else mnx b j).
  { intros j. change (mnx b5 j) with (mnx b4 j). rewrite T7, S7, R7. change (mnx b1 j) with (mnx b j).
    destruct (decide (j = ix)) as [->|]; [|done]. rewrite decide_False; [done|]. intros ->. done. }
  assert (Href : ∀ j, mref b5 j = if decide (j = ix) then Some id else mref b j).
  { intros j. unfold mref. cbn. rewrite T1, S1, R1. by apply at_ix_insert. }
  apply HQ; [|cbn; by rewrite T6, S6, R6]. constructor.
  - cbn. rewrite length_insert, T1, S1, R1. apply Hok.
  - cbn. by rewrite T2, S2, R2.
  - rewrite <- (ro_all _ _ _ Hok), <- app_assoc. done.
  - cbn. by rewrite T4, S4, R4, Hh.
  - eapply (ring_pushed b); [apply Hok|done|done|done|exact Hn5|]. intros j. change (mpv b5 j) with (mpv b4 j).
    rewrite T8, S8, R8. done.
  - change (free_ix b5) with (free_ix b4). rewrite T3, S3, R3. cbn. rewrite Hn. eapply free_list_ext; [|done].
    intros j Hj. rewrite Hn5, !decide_False; [done| |]; intros ->.
    + apply (Hdis (prev_ix u)); [done|by right].
    + by apply NoDup_cons in Hndf as [? _].
  - intros j. rewrite Href. intros [Hj| ->%list_elem_of_singleton]%elem_of_app.
    + rewrite decide_False by (intros ->; done). by apply (ro_used_ref _ _ _ Hok).
    + rewrite decide_True by done. eauto.
  - intros j Hj. rewrite Href, decide_False; [apply (ro_free_ref _ _ _ Hok); by right|].
    intros ->. by apply NoDup_cons in Hndf as [? _].
  - change (unused b5) with (unused b4). rewrite T5, S5, R5. change (unused b1) with (unused b). rewrite (ro_unused _ _ _ Hok), n_unused_app.
    assert (mref b5 ix = Some id) as Hid5 by (rewrite Href; by rewrite decide_True). rewrite (n_unused_cons b5 ix), Hid5.
    rewrite decide_False by (intros Hx; injection Hx as Hx; by eapply id_new_undefined).
    rewrite (n_unused_ext b b5); [cbn; lia|]. intros j Hj. rewrite Href, decide_False; [done|]. intros ->. done.
Qed.

(** *** Reuse when all markers are in use *)

(** The marker with index [ix] is to get a new identifier; the ring is now [used']. *)
Record reused b ix b' used used' : Prop := {
  ru_in : ix ∈ used;
  ru_perm : used' ≡ₚ used;
  ru_head : head used' = Some (used_ix b');
  ru_ring : rring (mnx b') (mpv b') used';
  ru_ref : blk_ref b' = blk_ref b;
  ru_len : length (blk_marker b') = length (blk_marker b);
  ru_free : free_ix b' = free_ix b;
  ru_base : blk_base b' = blk_base b;
  ru_unused : (unused b' = unused b - (if decide (mref b ix = Some undef) then 1 else 0))%Z
}.

Lemma ring_ok_reused b ix b' used used' id :
  ring_ok b used [] → reused b ix b' used used' → id_new id →
  ring_ok (b' <| blk_ref ::= <[Z.to_nat ix := id]> |>) used' [].
Proof.
  intros Hok [H1 H2 H3 H4 H5 H6 H7 H8 H9] Hid. destruct (ro_used_ref _ _ _ Hok ix H1) as (r & Hr & _).
  eapply (ring_ok_renamed b _ used used' [] ix r id); [done|done|done|by left| |done|done|done|done| | |].
  - cbn. by rewrite length_insert, H5.
  - simpl. rewrite H7. apply (ro_free _ _ _ Hok).
  - intros j. unfold mref. cbn. rewrite H5. apply at_ix_insert. unfold mref in Hr. by rewrite Hr.
  - cbn. rewrite H9, Hr. rewrite (decide_False (P := id = undef)) by by apply id_new_undefined.
    destruct (decide (r = undef)) as [->|]; [rewrite decide_True by done; lia|rewrite decide_False by congruence; lia].
Qed.

(** The least recently allocated marker is taken; [mi] is the marker from which the
    ring goes on. *)
Lemma wp_use_least mi b l1 l2 free (Q : Z * Z → option ErtsRecvMarkerBlock → Prop) :
  ring_ok b (l1 ++ mi :: l2) free →
  (∀ b', reused b (used_ix b) b' (l1 ++ mi :: l2) (l2 ++ l1 ++ [mi]) → blk_marker b' = blk_marker b →
     Q (mi, used_ix b) (Some b')) →
  wp (use_least_recently_allocated mi) Q (Some b).
Proof.
  intros Hok HQ. assert (Hin : used_ix b ∈ l1 ++ mi :: l2) by apply head_Some_elem_of, Hok.
  assert (Hmi : in_block mi) by (eapply ring_ok_in; [done|set_solver]).
  destruct (at_ix_some _ _ (ro_mrk _ _ _ Hok) Hmi) as [m Hm].
  destruct (ro_used_ref _ _ _ Hok _ Hin) as (r & Hr & _).
  unfold use_least_recently_allocated. wp_step. apply wp_get_blk. wp_step. eapply wp_load_ref; [done|].
  wp_step. apply wp_when_unused. set (b1 := b <| unused := _ |>). wp_step. eapply wp_load_m; [exact Hm|].
  wp_step. apply wp_upd_blk. wp_step. apply HQ; [|done]. constructor; try done.
  - rewrite (Permutation_app_comm l2), <- app_assoc. done.
  - pose proof (rring_nx _ _ _ _ _ (ro_ring _ _ _ Hok)) as Hn. unfold mnx in Hn. rewrite Hm in Hn. simpl in Hn. by rewrite <- Hn.
  - apply rring_rotate. rewrite <- app_assoc. simpl. eapply rring_frame; [..|apply Hok]; done.
  - cbn. rewrite Hr. destruct (decide (r = undef)) as [->|]; [by rewrite decide_True|by rewrite decide_False by congruence].
Qed.

Lemma wp_make_most_recent ix b h l1 l2 free (Q : unit → option ErtsRecvMarkerBlock → Prop) :
  ring_ok b (h :: l1 ++ ix :: l2) free →
  (∀ b', reused b ix b' (h :: l1 ++ ix :: l2) (h :: l1 ++ l2 ++ [ix]) → Q tt (Some b')) →
  wp (make_most_recent ix) Q (Some (b <| unused := (unused b - (if decide (mref b ix = Some undef) then 1 else 0))%Z |>)).
Proof.
  intros Hok HQ. pose proof (ro_mrk _ _ _ Hok) as Hlm. pose proof (ro_head _ _ _ Hok) as Hh. injection Hh as Hh.
  assert (Hix : in_block ix) by (eapply ring_ok_in; [done|set_solver]).
  assert (Hhb : in_block h) by (eapply ring_ok_in; [done|set_solver]).
  destruct (at_ix_some _ _ Hlm Hix) as [m Hm].
  destruct (ring_neighbours b (h :: l1) ix l2 free m Hok Hm) as (Hnd' & Hni & _ & Hb).
  destruct Hb as [Hhd Hl]; [by intros [? ?]%app_eq_nil|].
  pose proof (head_Some_elem_of _ _ Hhd) as Hhin. pose proof (last_Some_elem_of _ _ Hl) as Hpin.
  assert (Hnb : in_block (next_ix m)) by (eapply ring_ok_in; [done|set_solver]).
  assert (Hpb : in_block (prev_ix m)) by (eapply ring_ok_in; [done|set_solver]).
  set (b0 := b <| unused := _ |>). unfold make_most_recent. wp_step. eapply wp_load_m; [done|]. cbv zeta. apply wp_join; [done..|].
  intros b1 [R1 R2 R3 R4 R5 R6 R7 R8].
  assert (Hr1 : rring (mnx b1) (mpv b1) (h :: l1 ++ l2)).
  { apply (ring_unlinked b b1 (h :: l1) ix l2 free m); [done|done|by intros [? ?]%app_eq_nil|..]; intros j _; [apply R7|apply R8]. }
  wp_step. apply wp_get_blk. rewrite R4. change (used_ix b0) with (used_ix b). rewrite <- Hh.
  assert (Hlm1 : length (blk_marker b1) = ERTS_RECV_MARKER_BLOCK_SIZE) by by rewrite R2.
  destruct (at_ix_some _ _ Hlm1 Hhb) as [u Hu]. wp_step. eapply wp_load_m; [exact Hu|]. cbv zeta.
  pose proof (rring_pv _ _ [] h _ Hr1) as Hpv. rewrite app_nil_r in Hpv. unfold mpv in Hpv. rewrite Hu in Hpv.
  symmetry in Hpv. pose proof (last_Some_elem_of _ _ Hpv) as Hpin1. simpl in Hpv.
  assert (Hpb1 : in_block (prev_ix u)).
  { eapply ring_ok_in; [exact Hok|]. clear -Hpin1. set_solver. }
  assert (Hni1 : ix ∉ h :: l1 ++ l2) by (clear -Hni; set_solver).
  wp_step. apply wp_set_prev; [done..|]. intros b2 [S1 S2 S3 S4 S5 S6 S7 S8].
  wp_step. apply wp_set_next; [done|by rewrite S2|]. intros b3 [T1 T2 T3 T4 T5 T6 T7 T8].
  apply (wp_set_both ix (prev_ix u) h); [done|by rewrite T2, S2|done|]. intros b4 [U1 U2 U3 U4 U5 U6 U7 U8].
  apply HQ. constructor; rewrite ?U1, ?U2, ?U3, ?U4, ?U5, ?U6, ?T1, ?T2, ?T3, ?T4, ?T5, ?T6, ?S1, ?S2, ?S3, ?S4, ?S5, ?S6, ?R1, ?R2, ?R3, ?R4, ?R5, ?R6; try done.
  - right. apply elem_of_app. right. left.
  - rewrite (app_assoc l1), (Permutation_app_comm (l1 ++ l2)). simpl. by rewrite Permutation_middle.
  - cbn. by rewrite Hh.
  - rewrite (app_assoc l1).
    apply (ring_pushed b1 b4 h (l1 ++ l2) ix (prev_ix u)); [done| |done|done|..].
    + apply NoDup_app in Hnd' as (Ha & Hc & Hd). apply NoDup_cons in Hd as [Hd1 Hd2]. apply NoDup_cons. split.
      * clear -Hc Hd1. set_solver.
      * apply NoDup_app. split_and!; [done|clear -Hc; set_solver|done].
    + intros j. rewrite U7, T7, S7. done.
    + intros j. rewrite U8, T8, S8. destruct (decide (j = h)) as [->|]; [|done].
      rewrite decide_False; [done|]. intros ->. apply Hni1. left.
Qed.

End ops.

(** The reuse of a marker when all are in use, the operations that look a marker
    up by its identifier, and the check of the debug build. *)

Section reuse.
Context {SA : StaticAtoms}.
Implicit Types b : ErtsRecvMarkerBlock.
Implicit Types used free l : list Z.

Abbreviation undef := (Immed am_undefined).

Definition in_queue b (ix : Z) : Prop := ∃ m, at_ix (blk_marker b) ix = Some m ∧ in_msgq m = true.
Definition not_in_queue b (ix : Z) : Prop := ∃ m, at_ix (blk_marker b) ix = Some m ∧ in_msgq m = false.

(** The search passes over the markers [l] and finds [x]. *)
Definition searched b (l : list Z) (x : Z) : Prop :=
  Forall (λ j, in_queue b j ∧ mref b j ≠ Some undef) l ∧
  (not_in_queue b x ∨ in_queue b x ∧ mref b x = Some undef).

(** The result of the search: [x] itself, or, when [x] is not in the message queue,
    the index of the least recently allocated marker along with [x]. *)
Definition search_result b (x : Z) (r : Z * Z) : Prop :=
  (in_queue b x ∧ r = (x, x)) ∨ (not_in_queue b x ∧ r = (x, used_ix b)).

Lemma wp_reuse_search fuel b h l0 l Q ix :
  ring_ok b (h :: l0 ++ ix :: l) [] → length (ix :: l) ≤ fuel → 0 < n_unused b (ix :: l) →
  (∀ l1 x l2 r b' used', ix :: l = l1 ++ x :: l2 → searched b l1 x → search_result b x r →
     reused b r.2 b' (h :: l0 ++ ix :: l) used' → (in_queue b x → used' = h :: l0 ++ l1 ++ l2 ++ [x]) →
     (not_in_queue b x → blk_marker b' = blk_marker b) → Q r (Some b')) →
  wp (reuse_search fuel ix) Q (Some b).
Proof.
  revert fuel l0 ix. induction l as [|y l IH] using list_ind; intros fuel l0 ix Hok Hf Hun HQ;
    (destruct fuel as [|fuel]; [simpl in *; lia|]).
  all: assert (Hin : in_block ix) by (eapply ring_ok_in; [done|set_solver]).
  all: destruct (at_ix_some _ _ (ro_mrk _ _ _ Hok) Hin) as [m Hm].
  all: destruct (ro_used_ref _ _ _ Hok ix) as (r & Hr & _); [set_solver|].
  all: cbn [reuse_search]; wp_step; eapply wp_load_m; [done|].
  all: destruct (in_msgq m) eqn:Hq;
    [|eapply (wp_use_least ix b (h :: l0)); [done|]; intros b' Hru Hbm;
      eapply (HQ [] ix); [done|split; [done|left; by exists m]|right; split; [by exists m|done]|done| |done];
      intros (m' & Hm' & Hq'); congruence].
  all: wp_step; eapply wp_load_ref; [done|]; destruct (decide (r = undef)) as [->|Hru].
  1, 3: wp_step; apply wp_upd_blk; wp_step.
  1, 2: pose proof (wp_make_most_recent ix b h l0) as Hmr; rewrite Hr, decide_True in Hmr by done;
    eapply Hmr; [done|]; intros b' Hru; wp_step;
    eapply (HQ [] ix _ (ix, ix)); [done|split; [done|right; by split; [exists m|]]|left; by split; [exists m|]|done|done|];
    intros (m' & Hm' & Hq'); congruence.
  - rewrite n_unused_cons, Hr, decide_False in Hun by congruence. unfold n_unused in Hun. simpl in Hun. lia.
  - pose proof (rring_nx _ _ (h :: l0) ix (y :: l) (ro_ring _ _ _ Hok)) as Hn. unfold mnx in Hn. rewrite Hm in Hn.
    simpl in Hn. injection Hn as ->. assert (He : h :: l0 ++ ix :: y :: l = h :: (l0 ++ [ix]) ++ y :: l) by by rewrite <- app_assoc.
    rewrite He in Hok. eapply IH; [exact Hok|simpl in *; lia| |].
    + rewrite n_unused_cons, Hr, decide_False in Hun by congruence. done.
    + intros l1 x l2 r' b' used' Hl [Hs1 Hs2] Hres Hre Hu Hbm. rewrite <- He in Hre.
      eapply (HQ (ix :: l1) x l2); [by rewrite Hl| |done|done|intros Hx; rewrite (Hu Hx), <- !app_assoc; done|done].
      split; [|done]. constructor; [|done]. split; [by exists m|congruence].
Qed.

Lemma wp_reuse_select b h t (Q : option (Z * Z) → option ErtsRecvMarkerBlock → Prop) :
  ring_ok b (h :: t) [] →
  (not_in_queue b h → Q None (Some b)) →
  (∀ b', in_queue b h → unused b = 0%Z ∨ mref b h = Some undef → reused b h b' (h :: t) (t ++ [h]) → Q (Some (h, h)) (Some b')) →
  (∀ l1 x l2 r b' used', in_queue b h → unused b ≠ 0%Z → mref b h ≠ Some undef → t = l1 ++ x :: l2 → searched b l1 x →
     search_result b x r → reused b r.2 b' (h :: t) used' → (in_queue b x → used' = h :: l1 ++ l2 ++ [x]) →
     (not_in_queue b x → blk_marker b' = blk_marker b) → Q (Some r) (Some b')) →
  wp reuse_select Q (Some b).
Proof.
  intros Hok H1 H2 H3. pose proof (ro_head _ _ _ Hok) as Hh. injection Hh as Hh.
  assert (Hin : in_block h) by (eapply ring_ok_in; [done|set_solver]).
  destruct (at_ix_some _ _ (ro_mrk _ _ _ Hok) Hin) as [m Hm].
  destruct (ro_used_ref _ _ _ Hok h) as (r & Hr & _); [set_solver|].
  unfold reuse_select. wp_step. apply wp_get_blk. rewrite <- Hh. wp_step. eapply wp_load_m; [done|].
  destruct (in_msgq m) eqn:Hq; [|wp_step; apply H1; by exists m].
  wp_step. eapply wp_load_ref; [done|]. wp_step. assert (Hiq : in_queue b h) by by exists m. case_decide as Hc.
  - eapply (wp_use_least h b [] t); [done|]. intros b' Hru _. wp_step. rewrite <- Hh. apply H2; [done| |by rewrite <- Hh in Hru].
    destruct Hc as [Hc| ->]; auto.
  - apply Decidable.not_or in Hc as [Hc1 Hc2]. pose proof (ro_unused _ _ _ Hok) as Hun.
    rewrite n_unused_cons, Hr, decide_False in Hun by congruence. simpl in Hun.
    destruct t as [|y t]; [unfold n_unused in Hun; simpl in Hun; lia|].
    pose proof (rring_nx _ _ [] h (y :: t) (ro_ring _ _ _ Hok)) as Hn. unfold mnx in Hn. rewrite Hm in Hn.
    simpl in Hn. injection Hn as ->. eapply (wp_reuse_search _ b h []); [done| |lia|].
    + pose proof (ro_all _ _ _ Hok) as Hp. apply Permutation_length in Hp. rewrite length_seqZ, app_nil_r in Hp.
      simpl in Hp. change ERTS_RECV_MARKER_BLOCK_SIZE with 8 in *. simpl. lia.
    + intros l1 x l2 r' b' used' Hl Hs Hres Hre Hu Hbm. wp_step. eapply H3; [done|done|congruence|done..].
Qed.

(** *** Identifiers *)

Lemma eq_words_spec n tp1 tp2 : length tp1 = n → length tp2 = n → eq_words n tp1 tp2 = Some (bool_decide (tp1 = tp2)).
Proof.
  revert tp1 tp2. induction n as [|n IH]; intros [|x1 tp1] [|x2 tp2] H1 H2; simplify_eq/=; [done|].
  case_decide as Hx.
  - rewrite bool_decide_eq_false_2; [done|]. congruence.
  - subst x2. rewrite IH by congruence. f_equal. apply bool_decide_ext. naive_solver.
Qed.

(** The comparison of identifiers is equality of terms. *)
Lemma eq_recv_mark_id_spec r1 r2 : id_wf r1 → id_wf r2 →
  erts_msgq_eq_recv_mark_id__ r1 r2 = Some (bool_decide (r1 = r2)).
Proof.
  intros H1 H2. destruct r1 as [x1|h1 tp1], r2 as [x2|h2 tp2]; simpl in *.
  - f_equal. apply bool_decide_ext. naive_solver.
  - done.
  - done.
  - case_decide as Hh; [rewrite bool_decide_eq_false_2 by congruence; done|]. subst h2.
    rewrite eq_words_spec by done. f_equal. apply bool_decide_ext. naive_solver.
Qed.

Lemma ring_ok_refs b used free ix : ring_ok b used free → in_block ix → ∃ r, mref b ix = Some r ∧ id_wf r ∧
  (r = Immed am_free ∨ ix ∈ used ∧ (id_new r ∨ r = undef)).
Proof.
  intros Hok Hix. apply (ring_ok_in _ _ _ _ Hok), elem_of_app in Hix as [Hu|Hf].
  - destruct (ro_used_ref _ _ _ Hok ix Hu) as (r & Hr & Hc). exists r. split_and!; [done| |by auto].
    destruct Hc as [[_ Hc]| ->]; done.
  - exists (Immed am_free). split_and!; [by apply (ro_free_ref _ _ _ Hok)|done|by left].
Qed.

Lemma wp_find_mark b used free id (Q : option Z → option ErtsRecvMarkerBlock → Prop) fuel ix :
  ring_ok b used free → id_wf id → (0 ≤ ix)%Z → (ix + Z.of_nat fuel = NMARK)%Z →
  (∀ i, (∀ ix', i = Some ix' → in_block ix' ∧ mref b ix' = Some id) →
     (i = None → ∀ ix', (ix ≤ ix')%Z → mref b ix' ≠ Some id) → Q i (Some b)) →
  wp (find_mark fuel ix id) Q (Some b).
Proof.
  revert ix. induction fuel as [|fuel IH]; intros ix Hok Hid Hi Hf HQ; cbn [find_mark].
  - wp_step. apply HQ; [done|]. intros _ ix' Hle H. unfold mref, at_ix in H. rewrite decide_True in H by lia.
    apply lookup_lt_Some in H. rewrite (ro_ref _ _ _ Hok) in H. lia.
  - destruct (ring_ok_refs b used free ix) as (r & Hr & Hwf & _); [done|unfold in_block; lia|].
    wp_step. eapply wp_load_ref; [done|]. wp_step. eapply wp_deref; [by apply eq_recv_mark_id_spec|].
    destruct (bool_decide_reflect (r = id)) as [->|Hne].
    + wp_step. apply HQ; [|done]. intros ix' [= <-]. split; [unfold in_block; lia|done].
    + apply IH; [done|done|lia|lia|]. intros i H1 H2. apply HQ; [done|]. intros Hn ix' Hle.
      destruct (decide (ix' = ix)) as [->|]; [congruence|]. apply H2; [done|lia].
Qed.

(** An identifier other than [am_free] that was found belongs to a marker in use. *)
Lemma found_used b used free ix id : ring_ok b used free → in_block ix → mref b ix = Some id → id ≠ Immed am_free → ix ∈ used.
Proof.
  intros Hok Hix Hr Hne. destruct (ring_ok_refs b used free ix Hok Hix) as (r & Hr' & _ & Hc).
  rewrite Hr in Hr'. injection Hr' as <-. naive_solver.
Qed.

Lemma id_new_free r : id_new r → r ≠ Immed am_free.
Proof. apply id_new_not_atom, static_atom_free. Qed.

(** The block after an operation on identifiers. *)
Lemma ring_ok_reref b b' used free ix r r' :
  ring_ok b used free → ix ∈ used → mref b ix = Some r → id_new r' ∨ r' = undef →
  blk_ref b' = <[Z.to_nat ix := r']> (blk_ref b) → blk_marker b' = blk_marker b → free_ix b' = free_ix b →
  used_ix b' = used_ix b →
  (unused b' = unused b - (if decide (r = undef) then 1 else 0) + (if decide (r' = undef) then 1 else 0))%Z →
  ring_ok b' used free.
Proof.
  intros Hok Hix Hr Hr' Href Hm Hf Hu Hun.
  assert (Hnx : ∀ j, mnx b' j = mnx b j) by (intros j; unfold mnx; by rewrite Hm).
  assert (Hpv : ∀ j, mpv b' j = mpv b j) by (intros j; unfold mpv; by rewrite Hm).
  eapply ring_ok_renamed; [done..| | |done| | | | |done].
  - by rewrite Href, length_insert.
  - by rewrite Hm.
  - rewrite Hu. apply Hok.
  - eapply rring_frame; [by auto..|apply Hok].
  - rewrite Hf. eapply free_list_ext; [|apply Hok]. by auto.
  - intros j. unfold mref. rewrite Href. apply at_ix_insert. unfold mref in Hr. by rewrite Hr.
Qed.

Lemma ring_ok_alter f ix b used free : (0 ≤ ix)%Z → (∀ m, next_ix (f m) = next_ix m ∧ prev_ix (f m) = prev_ix m) →
  ring_ok b used free → ring_ok (b <| blk_marker ::= alter f (Z.to_nat ix) |>) used free.
Proof.
  intros Hi Hf Hok. eapply ring_ok_ext; [done|done|cbn; by rewrite length_alter|done..| |]; intros j.
  - apply mnx_alter; [done|apply Hf].
  - apply mpv_alter; [done|apply Hf].
Qed.

Lemma wp_mark_unused b used free ix r (Q : unit → option ErtsRecvMarkerBlock → Prop) :
  ring_ok b used free → ix ∈ used → mref b ix = Some r → r ≠ undef →
  (∀ b', ring_ok b' used free → mref b' ix = Some undef → Q tt (Some b')) → wp (mark_unused ix) Q (Some b).
Proof.
  intros Hok Hix Hr Hne HQ. assert (Hin : in_block ix) by (eapply ring_ok_in; [done|set_solver]).
  unfold mark_unused. wp_step. apply wp_upd_blk. wp_step. apply wp_set_ref; [by exists r|].
  set (b1 := _ <| blk_ref ::= _ |>). apply wp_upd_m; [apply at_ix_some; [apply Hok|done]|]. apply HQ.
  - apply ring_ok_alter; [apply Hin|done|]. eapply (ring_ok_reref b b1); [done|done|done|by right|done|done|done|done|].
    cbn. rewrite decide_False by done. rewrite decide_True by done. lia.
  - unfold mref. cbn. rewrite at_ix_insert; [by rewrite decide_True|]. unfold mref in Hr. by rewrite Hr.
Qed.

End reuse.
