(* ===== verification/RecvThms.v ===== *)
(** Theorems about the block of receive markers: what its operations do in any order,
    and that the check of the debug build never fails. *)

From stdpp Require Import base numbers list list_numbers gmap sets.
From Stdlib Require Import ZArith Lia.
From S2P Require Import Prelude Ring ErlTerm RecvMarker RecvRing RecvOps.

Section thms.
Context {SA : StaticAtoms}.
Implicit Types b : ErtsRecvMarkerBlock.
Implicit Types used free l : list Z.

Abbreviation undef := (Immed am_undefined).

(** *** Clearing and binding *)

Lemma id_kind_clear id : negb (is_small_id id) && negb (is_big_id id) && negb (is_internal_ref_id id) = false →
  id_wf id → id_new id.
Proof.
  intros Hk Hw. split; [|done]. unfold id_kind. destruct (is_small_id id), (is_big_id id), (is_internal_ref_id id); simpl in Hk; naive_solver.
Qed.

Lemma wp_erts_msgq_recv_marker_clear b used free id (Q : unit → option ErtsRecvMarkerBlock → Prop) :
  ring_ok b used free → id_wf id → (∀ b', ring_ok b' used free → Q tt (Some b')) →
  wp (erts_msgq_recv_marker_clear id) Q (Some b).
Proof.
  intros Hok Hid HQ. unfold erts_msgq_recv_marker_clear. destruct (_ && _) eqn:Hk; [wp_step; by apply HQ|].
  pose proof (id_kind_clear _ Hk Hid) as Hnew. wp_step. wp_step. wp_step.
  eapply wp_find_mark; [done..|]. intros [ix|] Hs _; [|wp_step; by apply HQ].
  destruct (Hs ix eq_refl) as [Hin Hr]. eapply wp_mark_unused; [done| |done| |by intros b' Hb' _; apply HQ].
  - eapply found_used; [done..|by apply id_new_free].
  - by apply id_new_undefined.
Qed.

Lemma wp_erts_msgq_recv_marker_bind b used free id1 id2 (Q : unit → option ErtsRecvMarkerBlock → Prop) :
  ring_ok b used free → id_wf id1 → id_wf id2 → (∀ b', ring_ok b' used free → Q tt (Some b')) →
  wp (erts_msgq_recv_marker_bind id1 id2) Q (Some b).
Proof.
  intros Hok H1 H2 HQ. unfold erts_msgq_recv_marker_bind. destruct (_ || _) eqn:Hk; [|wp_step; by apply HQ].
  assert (Hnew : id_new id1) by (split; [|done]; unfold id_kind; apply orb_true_iff in Hk; naive_solver).
  wp_step. wp_step. wp_step. eapply wp_find_mark; [done..|]. intros [ix|] Hs _; [|wp_step; by apply HQ].
  destruct (Hs ix eq_refl) as [Hin Hr]. assert (Hix : ix ∈ used) by (eapply found_used; [done..|by apply id_new_free]).
  destruct (is_internal_ref_id id2) eqn:Hk2.
  - assert (Hnew2 : id_new id2) by (split; [by left|done]). apply wp_set_ref; [by exists id1|]. apply HQ.
    eapply ring_ok_reref; [done|done|done|by left|done|done|done|done|]. cbn.
    rewrite !decide_False by by apply id_new_undefined. lia.
  - eapply wp_mark_unused; [done..|by apply id_new_undefined|]. intros b' Hb' _. by apply HQ.
Qed.

Lemma wp_clear_pending b used free (Q : unit → option ErtsRecvMarkerBlock → Prop) :
  ring_ok b used free → (pending_set_save_ix b < NMARK)%Z → (∀ b', ring_ok b' used free → Q tt (Some b')) →
  wp clear_pending_set_save Q (Some b).
Proof.
  intros Hok Hp HQ. unfold clear_pending_set_save. wp_step. apply wp_get_blk. case_decide; [|wp_step; by apply HQ].
  wp_step. apply wp_upd_m; [by apply at_ix_some; [apply Hok|]|]. apply wp_upd_blk. apply HQ.
  eapply ring_ok_ext; [apply (ring_ok_alter (λ m, m <| mrk_set_save := false |>) (pending_set_save_ix b)); [done|done|exact Hok]|done..].
Qed.

(** *** The check of the debug build *)

Lemma wp_assert (P : Prop) `{Decision P} (Q : unit → option ErtsRecvMarkerBlock → Prop) o : P → Q tt o → wp (ERTS_ASSERT P) Q o.
Proof. intros HP HQ. unfold ERTS_ASSERT. by rewrite decide_True. Qed.

Lemma ring_links b used free ix m : ring_ok b used free → ix ∈ used → at_ix (blk_marker b) ix = Some m →
  (in_block (prev_ix m) ∧ ∃ p, at_ix (blk_marker b) (prev_ix m) = Some p ∧ next_ix p = ix) ∧
  (in_block (next_ix m) ∧ ∃ n, at_ix (blk_marker b) (next_ix m) = Some n ∧ prev_ix n = ix).
Proof.
  intros Hok Hix Hm. destruct (rring_links _ _ _ _ (ro_ring _ _ _ Hok) Hix) as [(c & H1 & H2 & H3) (d & H4 & H5 & H6)].
  unfold mnx, mpv in *. rewrite Hm in H1, H4. simpl in H1, H4. injection H1 as <-. injection H4 as <-.
  split; (split; [eapply ring_ok_in; [done|by apply elem_of_app; left]|]).
  - destruct (at_ix _ (prev_ix m)) as [p|]; [|done]. exists p. split; [done|]. by injection H5.
  - destruct (at_ix _ (next_ix m)) as [n|]; [|done]. exists n. split; [done|]. by injection H2.
Qed.

Lemma wp_chk_used b h t free fuel l1 ix l2 n u (Q : nat * nat → option ErtsRecvMarkerBlock → Prop) :
  ring_ok b (h :: t) free → h :: t = l1 ++ ix :: l2 → n = length l1 → u = n_unused b l1 → length (ix :: l2) ≤ fuel →
  Q (length (h :: t), n_unused b (h :: t)) (Some b) → wp (chk_used fuel ix n u) Q (Some b).
Proof.
  intros Hok. revert fuel l1 ix n u. induction l2 as [|y l2 IH]; intros fuel l1 ix n u Hl Hn Hu Hf HQ;
    (destruct fuel as [|fuel]; [simpl in *; lia|]).
  all: assert (Hix : ix ∈ h :: t) by (rewrite Hl; set_solver).
  all: assert (Hin : in_block ix) by (eapply ring_ok_in; [done|by apply elem_of_app; left]).
  all: destruct (at_ix_some _ _ (ro_mrk _ _ _ Hok) Hin) as [m Hm].
  all: destruct (ro_used_ref _ _ _ Hok ix Hix) as (r & Href & Hid).
  all: destruct (ring_links _ _ _ _ _ Hok Hix Hm) as [(Hpb & p & Hp1 & Hp2) (Hnb & m2 & Hn1 & Hn2)].
  all: pose proof (ro_all _ _ _ Hok) as Hlen; apply Permutation_length in Hlen; rewrite length_seqZ, length_app in Hlen.
  all: pose proof (ro_head _ _ _ Hok) as Hh; injection Hh as Hh.
  all: pose proof (ro_ring _ _ _ Hok) as Hr; rewrite Hl in Hr; apply rring_nx in Hr; unfold mnx in Hr; rewrite Hm in Hr; simpl in Hr.
  all: assert (Hlt : S n ≤ ERTS_RECV_MARKER_BLOCK_SIZE) by (rewrite Hl, length_app in Hlen; simpl in Hlen; lia).
  all: cbn [chk_used]; wp_step; eapply wp_load_m; [done|]; wp_step; eapply wp_load_ref; [done|]; wp_step; apply wp_assert.
  1, 3: destruct Hid as [[Hid _]|Hid]; [unfold id_kind in Hid|]; tauto.
  all: cbv zeta; wp_step; apply wp_assert; [done|]; wp_step; apply wp_assert; [done|].
  all: wp_step; eapply wp_load_m; [done|]; wp_step; apply wp_assert; [done|].
  all: wp_step; eapply wp_load_m; [done|]; wp_step; apply wp_assert; [done|].
  all: wp_step; apply wp_assert; [done|]; wp_step; apply wp_get_blk; rewrite <- Hh.
  all: assert (Hu' : (if decide (r = undef) then S u else u) = n_unused b (l1 ++ [ix]))
    by (rewrite n_unused_app, n_unused_cons, Href, Hu; destruct (decide (r = undef)) as [->|];
        [rewrite decide_True by done|rewrite decide_False by congruence]; unfold n_unused; cbn; lia).
  - assert (next_ix m = h) as -> by (destruct l1; simpl in Hl, Hr; congruence). rewrite decide_True by done. wp_step.
    rewrite Hu', <- Hl, Hn. replace (S (length l1)) with (length (h :: t)); [done|]. rewrite Hl, length_app. simpl. lia.
  - injection Hr as ->. pose proof (ring_ok_nodup _ _ _ Hok) as Hnd. apply NoDup_app in Hnd as (Hnd & _).
    rewrite decide_False.
    + rewrite Hu'. eapply (IH _ (l1 ++ [ix])); [by rewrite Hl, <- app_assoc|rewrite length_app; simpl; lia|done|simpl in *; lia|done].
    + intros ->. rewrite Hl in Hnd. destruct l1 as [|h' l1]; simpl in Hl; injection Hl as <- Hl; simpl in Hnd; apply NoDup_cons in Hnd as [Hnd _]; set_solver.
Qed.

Lemma wp_chk_free b used free fuel l ix n (Q : nat → option ErtsRecvMarkerBlock → Prop) :
  ring_ok b used free → (∀ j, j ∈ ix :: l → j ∈ free) → free_list (mnx b) ix (ix :: l) → length (ix :: l) ≤ fuel →
  n + length (ix :: l) < ERTS_RECV_MARKER_BLOCK_SIZE →
  Q (n + length (ix :: l)) (Some b) → wp (chk_free fuel ix n) Q (Some b).
Proof.
  intros Hok. revert fuel ix n. induction l as [|y l IH]; intros fuel ix n Hin Hl Hf Hn HQ; (destruct fuel as [|fuel]; [simpl in *; lia|]).
  all: destruct Hl as (_ & nx & Hnx & Hl).
  all: unfold mnx in Hnx; apply fmap_Some in Hnx as (m & Hm & ->).
  all: cbn [chk_free]; wp_step; eapply wp_load_ref; [apply (ro_free_ref _ _ _ Hok), Hin; left|]; wp_step; apply wp_assert; [done|].
  all: wp_step; apply wp_assert; [simpl in *; lia|]; wp_step; eapply wp_load_m; [done|]; simpl in Hl.
  - rewrite Hl. rewrite decide_False by lia. wp_step. replace (S n) with (n + length [ix]) by (simpl; lia). done.
  - destruct Hl as (Hy & n' & Hn' & Hl). rewrite Hy.
    assert (Hyb : in_block y) by (eapply ring_ok_in; [done|apply elem_of_app; right; apply Hin; right; left]).
    rewrite decide_True by apply Hyb. apply IH.
    + intros j Hj. apply Hin. by right.
    + split; [done|]. eauto.
    + simpl in *. lia.
    + simpl in *. lia.
    + replace (S n + length (y :: l)) with (n + length (ix :: y :: l)) by (simpl; lia). done.
Qed.

Lemma wp_chk_block b used free : ring_ok b used free →
  wp erl_proc_sig_hdbg_chk_recv_marker_block (λ _ o, o = Some b) (Some b).
Proof.
  intros Hok. pose proof (ro_head _ _ _ Hok) as Hh. destruct used as [|h t]; [done|]. injection Hh as Hh.
  pose proof (ro_all _ _ _ Hok) as Hlen. apply Permutation_length in Hlen. rewrite length_seqZ, length_app, Nat2Z.id in Hlen.
  unfold erl_proc_sig_hdbg_chk_recv_marker_block. wp_step. wp_step. wp_step. apply wp_assert.
  { rewrite <- Hh. eapply ring_ok_in; [done|set_solver]. }
  wp_step. rewrite <- Hh. eapply (wp_chk_used b h t free _ [] h t); [done|done|done|done|simpl in *; lia|].
  wp_step. apply wp_assert; [by rewrite (ro_unused _ _ _ Hok)|].
  pose proof (ro_free _ _ _ Hok) as Hfr. wp_step. destruct free as [|x free].
  - simpl in Hfr. rewrite Hfr, decide_False by lia. wp_step. apply wp_assert; [|done]. simpl in *. lia.
  - pose proof Hfr as [Hx _]. rewrite Hx in *.
    assert (Hxb : in_block x) by (eapply ring_ok_in; [done|set_solver]).
    rewrite decide_True by apply Hxb. wp_step. apply wp_assert; [apply Hxb|].
    eapply wp_chk_free; [done|by intros j|done|simpl in *; lia|simpl in *; lia|].
    apply wp_assert; [|done]. simpl in *. lia.
Qed.

(** *** Any sequence of operations *)

(** The part of [recv_marker_alloc] that concerns the block; the result: the marker
    and the index of its identifier, or nothing when no marker can be reused. *)
Definition alloc_mark (base : positive) (id : mark_id) : RMB (option (Z * Z)) :=
  o ← get;
  match o with
  | None => _ ← modify (λ _, Some (new_block base id)); mret (Some (0, 0)%Z)
  | Some b =>
      if decide (free_ix b < 0)%Z then
        r ← reuse_select;
        match r with
        | Some (mi, ix) => _ ← set_ref ix id; mret (Some (mi, ix))
        | None => mret None
        end
      else _ ← take_free (free_ix b); _ ← set_ref (free_ix b) id; mret (Some (free_ix b, free_ix b))
  end.

(** [BQueue]: the queues change what they keep in a marker. *)
Inductive blk_op : Type :=
  | BAlloc (base : positive) (id : mark_id)
  | BFree (ix : Z)
  | BClear (id : mark_id)
  | BBind (insert_id bind_id : mark_id)
  | BQueue (ix : Z) (pn : option link) (pass : Z) (save prioq : bool) (sigq : Z) (msgq : bool).

#[local] Instance id_new_dec id : Decision (id_new id).
Proof. unfold id_new, id_kind, id_wf. destruct id; apply _. Defined.
#[local] Instance id_wf_dec id : Decision (id_wf id).
Proof. unfold id_wf. destruct id; apply _. Defined.

Definition guarded (P : Prop) `{Decision P} (m : RMB unit) : RMB unit := if decide P then m else mret tt.

(** A marker is given back while it is in use. *)
Definition do_blk_op (o : blk_op) : RMB unit :=
  match o with
  | BAlloc base id => guarded (id_new id) (_ ← alloc_mark base id; mret tt)
  | BFree ix =>
      s ← get;
      match s ≫= λ b, mref b ix with
      | Some r => guarded (r ≠ Immed am_free) (recv_marker_deallocate ix)
      | None => mret tt
      end
  | BClear id => guarded (id_wf id) (erts_msgq_recv_marker_clear id)
  | BBind i j => guarded (id_wf i ∧ id_wf j) (erts_msgq_recv_marker_bind i j)
  | BQueue ix pn pass save prioq sigq msgq =>
      s ← get;
      match s with
      | Some _ => guarded (in_block ix) (upd_m ix (λ m, mkErtsRecvMarker pn pass save prioq sigq msgq (prev_ix m) (next_ix m)))
      | None => mret tt
      end
  end.

Definition run_blk (ops : list blk_op) : RMB unit := foldr (λ o m, _ ← do_blk_op o; m) (mret tt) ops.

Lemma ring_ok_new base id : id_new id → ring_ok (new_block base id) [0%Z] (seqZ 1 7).
Proof.
  intros Hid. constructor; try done.
  - by rewrite rring_one.
  - vm_compute. repeat (split; [done|]; eexists; split; [done|]). done.
  - intros ix ->%list_elem_of_singleton. exists id. split; [done|by left].
  - intros ix [H1 H2]%elem_of_seqZ. assert (ix = 1 ∨ ix = 2 ∨ ix = 3 ∨ ix = 4 ∨ ix = 5 ∨ ix = 6 ∨ ix = 7)%Z as Hc by lia.
    destruct_or! Hc; by subst.
  - rewrite n_unused_cons. change (mref (new_block base id) 0) with (Some id).
    rewrite decide_False; [done|]. intros [= Hx]. by apply id_new_undefined in Hid.
Qed.

Lemma wp_alloc_mark base id o (Q : option (Z * Z) → option ErtsRecvMarkerBlock → Prop) :
  blk_ok o → id_new id → (∀ r o', blk_ok o' → Q r o') → wp (alloc_mark base id) Q o.
Proof.
  intros Hok Hid HQ. unfold alloc_mark. wp_step. wp_step. destruct o as [b|].
  2: { wp_step. apply wp_modify. wp_step. apply HQ. eexists _, _. by apply ring_ok_new. }
  destruct Hok as (used & free & Hok). case_decide as Hf.
  - assert (free = []) as ->.
    { destruct free as [|x free]; [done|]. destruct (ro_free _ _ _ Hok) as [Hx _].
      assert (Hxb : in_block x) by (eapply ring_ok_in; [done|set_solver]). destruct Hxb. lia. }
    pose proof (ro_head _ _ _ Hok) as Hh. destruct used as [|h t]; [done|].
    assert (Hset : ∀ ix b' used' (r : option (Z * Z)), reused b ix b' (h :: t) used' →
      wp (_ ← set_ref ix id; mret r) Q (Some b')).
    { intros ix b' used' r Hru. wp_step. apply wp_set_ref.
      - unfold mref. rewrite (ru_ref _ _ _ _ _ Hru). apply at_ix_some; [apply Hok|].
        eapply ring_ok_in; [done|]. rewrite app_nil_r. apply Hru.
      - wp_step. apply HQ. eexists _, _. by eapply ring_ok_reused. }
    wp_step. eapply wp_reuse_select; [done|..].
    + intros _. wp_step. apply HQ. by exists (h :: t), [].
    + intros b' _ _ Hru. by eapply Hset.
    + intros l1 x l2 [mi ix] b' used' _ _ _ _ _ _ Hru _ _. by eapply Hset.
  - destruct free as [|x free]; [pose proof (ro_free _ _ _ Hok) as Hx; simpl in Hx; lia|].
    pose proof (ro_free _ _ _ Hok) as [Hx _]. rewrite Hx. apply (wp_bind_assoc (take_free x) (λ _, set_ref x id)). wp_step.
    eapply wp_take_free; [done|done|]. intros b' Hb' _. wp_step. apply HQ. by exists (used ++ [x]), free.
Qed.

Lemma wp_do_blk_op op o : blk_ok o → wp (do_blk_op op) (λ _, blk_ok) o.
Proof.
  intros Hok. unfold do_blk_op, guarded. destruct op as [base id|ix|id|i j|ix pn pass save prioq sigq msgq].
  - case_decide; [|by wp_step]. wp_step. eapply wp_alloc_mark; [done|done|]. intros r o' Ho'. by wp_step.
  - wp_step. wp_step. destruct o as [b|]; simpl; [|by wp_step]. destruct Hok as (used & free & Hok).
    destruct (mref b ix) as [r|] eqn:Hr; [|by wp_step; exists used, free].
    case_decide as Hne; [|by wp_step; exists used, free].
    assert (Hin : in_block ix).
    { unfold mref, at_ix in Hr. case_decide; [|done]. apply lookup_lt_Some in Hr. rewrite (ro_ref _ _ _ Hok) in Hr.
      unfold in_block. lia. }
    pose proof (found_used _ _ _ _ _ Hok Hin Hr Hne) as (l1 & l2 & ->)%list_elem_of_split.
    eapply wp_recv_marker_deallocate; [done|by intros _|]. intros b' _ Hb' _. by exists (l1 ++ l2), (ix :: free).
  - case_decide; [|by wp_step]. destruct o as [b|].
    + destruct Hok as (used & free & Hok). eapply wp_erts_msgq_recv_marker_clear; [done|done|]. intros b' Hb'. by exists used, free.
    + unfold erts_msgq_recv_marker_clear. destruct (_ && _); [by wp_step|]. wp_step. wp_step. by wp_step.
  - case_decide as Hw; [|by wp_step]. destruct Hw as [Hi Hj]. destruct o as [b|].
    + destruct Hok as (used & free & Hok). eapply wp_erts_msgq_recv_marker_bind; [done..|]. intros b' Hb'. by exists used, free.
    + unfold erts_msgq_recv_marker_bind. destruct (_ || _); [|by wp_step]. wp_step. wp_step. by wp_step.
  - wp_step. wp_step. destruct o as [b|]; [|by wp_step]. case_decide as Hin; [|by wp_step].
    destruct Hok as (used & free & Hok). apply wp_upd_m; [by apply at_ix_some; [apply Hok|]|].
    exists used, free. apply ring_ok_alter; [apply Hin|done|done].
Qed.

Lemma wp_run_blk ops o : blk_ok o → wp (run_blk ops) (λ _, blk_ok) o.
Proof.
  revert o. induction ops as [|op ops IH]; intros o Hok; unfold run_blk; cbn [foldr]; [by wp_step|].
  wp_step. eapply wp_mono; [by apply wp_do_blk_op|]. intros [] o' ?. by apply IH.
Qed.

(** C18: Whatever is done to the receive markers of a process, no operation leaves
    the block, and the check of the debug build then finds its ring, its free list,
    its identifiers and its count of unused markers consistent. *)
Theorem marker_block_consistent ops :
  ∃ o, run_blk ops None = Some (tt, o) ∧ erl_proc_sig_hdbg_chk_recv_marker_block o = Some (tt, o).
Proof.
  pose proof (wp_run_blk ops None I) as Hr. unfold wp in Hr. destruct (run_blk ops None) as [[[] o]|]; [|done].
  exists o. split; [done|]. destruct o as [b|]; [|done]. destruct Hr as (used & free & Hok).
  pose proof (wp_chk_block b used free Hok) as Hc. unfold wp in Hc.
  destruct (erl_proc_sig_hdbg_chk_recv_marker_block _) as [[[] o']|]; [|done]. by subst.
Qed.

(** *** Which marker is reused *)

(** The markers in use, the least recently allocated one first. *)
Fixpoint ring_walk (fuel : nat) b (ix : Z) : list Z :=
  match fuel with
  | O => []
  | S fuel => ix :: match mnx b ix with
                    | Some n => if decide (n = used_ix b) then [] else ring_walk fuel b n
                    | None => []
                    end
  end.
Definition in_use b : list Z := ring_walk ERTS_RECV_MARKER_BLOCK_SIZE b (used_ix b).

Lemma ring_walk_ok b h t fuel l1 ix l2 :
  rring (mnx b) (mpv b) (h :: t) → NoDup (h :: t) → h = used_ix b → h :: t = l1 ++ ix :: l2 → length (ix :: l2) ≤ fuel →
  ring_walk fuel b ix = ix :: l2.
Proof.
  intros Hr Hnd Hh. revert fuel l1 ix. induction l2 as [|y l2 IH]; intros fuel l1 ix Hl Hf; (destruct fuel as [|fuel]; [simpl in *; lia|]).
  all: pose proof Hr as Hr'; rewrite Hl in Hr'; apply rring_nx in Hr'; cbn [ring_walk]; rewrite Hr'; simpl.
  - destruct l1 as [|h' l1]; simpl in *; [injection Hl as <-; rewrite decide_True by done; done|].
    injection Hl as <- Hl. by rewrite decide_True by done.
  - rewrite decide_False.
    + f_equal. apply (IH _ (l1 ++ [ix])); [by rewrite Hl, <- app_assoc|simpl in *; lia].
    + intros ->. rewrite <- Hh in Hl. rewrite Hl in Hnd. clear -Hl Hnd.
      destruct l1 as [|h' l1]; simpl in Hl; injection Hl as <- Hl; simpl in Hnd; apply NoDup_cons in Hnd as [Hnd _]; set_solver.
Qed.

Lemma in_use_ok b used : rring (mnx b) (mpv b) used → NoDup used → head used = Some (used_ix b) →
  length used ≤ ERTS_RECV_MARKER_BLOCK_SIZE → in_use b = used.
Proof.
  intros Hr Hnd Hh Hl. destruct used as [|h t]; [done|]. injection Hh as Hh. unfold in_use. rewrite <- Hh.
  by eapply (ring_walk_ok b h t _ []).
Qed.

Lemma ring_full b used free : ring_ok b used free → NoDup used ∧ length used + length free = ERTS_RECV_MARKER_BLOCK_SIZE.
Proof.
  intros Hok. pose proof (ring_ok_nodup _ _ _ Hok) as Hnd. apply NoDup_app in Hnd as (Hnd & _). split; [done|].
  pose proof (ro_all _ _ _ Hok) as Hlen. apply Permutation_length in Hlen. by rewrite length_seqZ, length_app in Hlen.
Qed.

Lemma filter_ne (l1 l2 : list Z) x : NoDup (l1 ++ x :: l2) → filter (λ y, y ≠ x) (l1 ++ x :: l2) = l1 ++ l2.
Proof.
  assert (Hid : ∀ l : list Z, x ∉ l → filter (λ y, y ≠ x) l = l).
  { induction l as [|y l IH]; intros Hl; [done|]. rewrite filter_cons, decide_True by set_solver. rewrite IH; [done|set_solver]. }
  intros (_ & Hd & [Hx _]%NoDup_cons)%NoDup_app. rewrite filter_app, filter_cons, decide_False by auto.
  rewrite !Hid; [done|done|]. intros H. apply (Hd x H). left.
Qed.

Lemma list_find_first (P : Z → Prop) `{∀ x, Decision (P x)} l1 x l2 :
  Forall (λ y, ¬ P y) l1 → P x → list_find P (l1 ++ x :: l2) = Some (length l1, x).
Proof.
  intros Hl Hx. apply list_find_Some. split_and!; [by apply list_lookup_middle|done|]. intros j y Hj Hlt.
  rewrite lookup_app_l in Hj by done. rewrite Forall_lookup in Hl. by eapply Hl.
Qed.

(** The first marker that nobody waits for, or else the least recently allocated one. *)
Definition reuse_choice b : Z :=
  default (used_ix b) (snd <$> list_find (λ ix, mref b ix = Some undef) (in_use b)).

(** C25: When all markers are in use and in the message queue, the marker that is
    reused is the least recently allocated one that nobody waits for, or else the
    least recently allocated one; it becomes the most recently allocated one. *)
Theorem marker_reuse ops b :
  run_blk ops None = Some (tt, Some b) → (free_ix b < 0)%Z → Forall (λ m, in_msgq m = true) (blk_marker b) →
  ∃ b', reuse_select (Some b) = Some (Some (reuse_choice b, reuse_choice b), Some b') ∧
    in_use b' = filter (λ ix, ix ≠ reuse_choice b) (in_use b) ++ [reuse_choice b].
Proof.
  intros Hrun Hf Hq. pose proof (wp_run_blk ops None I) as Hr. unfold wp in Hr. rewrite Hrun in Hr.
  destruct Hr as (used & free & Hok). destruct (ring_full _ _ _ Hok) as [Hnd Hlen].
  assert (free = []) as ->.
  { destruct free as [|x free]; [done|]. destruct (ro_free _ _ _ Hok) as [Hx _].
    assert (Hxb : in_block x) by (eapply ring_ok_in; [done|set_solver]). destruct Hxb. lia. }
  assert (Hiu : in_use b = used) by (apply in_use_ok; [apply Hok|done|apply Hok|lia]).
  assert (Hnq : ∀ x, ¬ not_in_queue b x).
  { intros x (m & Hm & Hmq). unfold at_ix in Hm. case_decide; [|done]. rewrite Forall_forall in Hq.
    apply list_elem_of_lookup_2, Hq in Hm. congruence. }
  assert (Hres : ∀ ix b' used', reused b ix b' used used' → in_use b' = used').
  { intros ix b' used' Hru. apply in_use_ok; [apply Hru|by rewrite (ru_perm _ _ _ _ _ Hru)|apply Hru|].
    rewrite (ru_perm _ _ _ _ _ Hru). lia. }
  pose proof (ro_head _ _ _ Hok) as Hh. destruct used as [|h t]; [done|]. injection Hh as Hh.
  assert (Hfl : ∀ l1 x l2, h :: t = l1 ++ x :: l2 → filter (λ ix, ix ≠ x) (h :: t) = l1 ++ l2).
  { intros l1 x l2 He. rewrite He in Hnd |- *. by apply filter_ne. }
  assert (Hgoal : wp reuse_select (λ r o, ∃ b', o = Some b' ∧ r = Some (reuse_choice b, reuse_choice b) ∧
    in_use b' = filter (λ ix, ix ≠ reuse_choice b) (in_use b) ++ [reuse_choice b]) (Some b)).
  2: { unfold wp in Hgoal. destruct (reuse_select (Some b)) as [[r o]|]; [|done]. destruct Hgoal as (b' & -> & -> & Hb'). by exists b'. }
  eapply wp_reuse_select; [done|by intros ?%Hnq|..].
  - intros b' _ Hc Hru. assert (reuse_choice b = h) as ->.
    { unfold reuse_choice. rewrite Hiu, <- Hh. destruct Hc as [Hc|Hc]; [|by rewrite (list_find_first _ [] h t)].
      destruct (list_find _ (h :: t)) as [[i y]|] eqn:Hy; [|done]. apply list_find_Some in Hy as (Hy1 & Hy2 & _).
      pose proof (ro_unused _ _ _ Hok) as Hun. rewrite Hc in Hun. apply list_elem_of_lookup_2 in Hy1.
      assert (Hyf : y ∈ filter (λ ix, mref b ix = Some undef) (h :: t)) by by apply list_elem_of_filter.
      unfold n_unused in Hun. destruct (filter _ (h :: t)); [by apply elem_of_nil in Hyf|simpl in Hun; lia]. }
    exists b'. split_and!; [done|done|]. by rewrite (Hres _ _ _ Hru), Hiu, (Hfl [] h t).
  - intros l1 x l2 r b' used' _ Hun Hhu Ht [Hs1 Hs2] Hsr Hru Hu _.
    destruct Hsr as [[Hx ->]|[Hx _]]; [|by apply Hnq in Hx].
    assert (reuse_choice b = x) as ->.
    { unfold reuse_choice. rewrite Hiu, Ht, (list_find_first _ (h :: l1) x l2); [done| |].
      - constructor; [done|]. eapply Forall_impl; [exact Hs1|]. by intros y [_ ?].
      - destruct Hs2 as [?%Hnq|[_ ?]]; done. }
    exists b'. split_and!; [done|done|]. rewrite (Hres _ _ _ Hru), Hiu, (Hu Hx), (Hfl (h :: l1) x l2), <- app_assoc by (by rewrite Ht).
    done.
Qed.

(** The search stops at the first marker that is not in the message queue. *)
Lemma search_stops b l1 x l2 l1' x' l2' :
  l1 ++ x :: l2 = l1' ++ x' :: l2' → Forall (λ y, in_queue b y ∧ mref b y ≠ Some undef) l1 → not_in_queue b x →
  searched b l1' x' → x' = x.
Proof.
  assert (Hno : ∀ y, not_in_queue b y → in_queue b y → False) by (intros y (m & Hm & Hq) (m' & Hm' & Hq'); congruence).
  revert l1'. induction l1 as [|y l1 IH]; intros [|y' l1'] He Hl Hx [Hs1 Hs2]; simpl in He; injection He as -> He; [done|..].
  - apply Forall_cons in Hs1 as [[Hy _] _]. by destruct (Hno y').
  - apply Forall_cons in Hl as [[Hy1 Hy2] _]. destruct Hs2 as [Hs2|[_ Hs2]]; [by destruct (Hno x')|done].
  - apply Forall_cons in Hl as [_ Hl]. apply Forall_cons in Hs1 as [_ Hs1]. by eapply IH.
Qed.

(** Then that marker is returned with the index of the least recently allocated one. *)
Lemma reuse_select_stops ops b l1 x l2 :
  run_blk ops None = Some (tt, Some b) → (free_ix b < 0)%Z → unused b ≠ 0%Z → in_use b = used_ix b :: l1 ++ x :: l2 →
  Forall (λ y, in_queue b y ∧ mref b y ≠ Some undef) (used_ix b :: l1) → not_in_queue b x →
  ∃ b', reuse_select (Some b) = Some (Some (x, used_ix b), Some b') ∧ x ≠ used_ix b ∧
    at_ix (blk_marker b') x = at_ix (blk_marker b) x.
Proof.
  intros Hrun Hf Hun Hiu Hl Hx. pose proof (wp_run_blk ops None I) as Hr. unfold wp in Hr. rewrite Hrun in Hr.
  destruct Hr as (used & free & Hok). destruct (ring_full _ _ _ Hok) as [Hnd Hlen].
  assert (free = []) as ->.
  { destruct free as [|y free]; [done|]. destruct (ro_free _ _ _ Hok) as [Hy _].
    assert (Hyb : in_block y) by (eapply ring_ok_in; [done|set_solver]). destruct Hyb. lia. }
  assert (used = used_ix b :: l1 ++ x :: l2) as -> by (rewrite <- Hiu; symmetry; apply in_use_ok; [apply Hok|done|apply Hok|lia]).
  assert (Hne : x ≠ used_ix b) by (intros ->; apply NoDup_cons in Hnd as [Hnd _]; set_solver).
  apply Forall_cons in Hl as [[Hh1 Hh2] Hl].
  assert (Hno : ∀ y, not_in_queue b y → in_queue b y → False) by (intros y (m & Hm & Hq) (m' & Hm' & Hq'); congruence).
  assert (Hgoal : wp reuse_select (λ r o, ∃ b', o = Some b' ∧ r = Some (x, used_ix b) ∧
    at_ix (blk_marker b') x = at_ix (blk_marker b) x) (Some b)).
  2: { unfold wp in Hgoal. destruct (reuse_select (Some b)) as [[r o]|]; [|done]. destruct Hgoal as (b' & -> & -> & Hm). by exists b'. }
  eapply wp_reuse_select; [done|intros Hh; by destruct (Hno (used_ix b))|by intros b' _ [?|?]|].
  intros l1' x' l2' r b' used' _ _ _ He Hs Hsr Hru _ Hbm. pose proof (search_stops _ _ _ _ _ _ _ He Hl Hx Hs) as ->.
  destruct Hsr as [[Hq _]|[_ ->]]; [by destruct (Hno x)|]. exists b'. by rewrite Hbm.
Qed.

End thms.

(** ** A concrete run *)

Module MarkSample.

Lemma atoms_distinct : NoDup [make_atom 14; make_atom 500; make_atom 700].
Proof. apply (bool_decide_unpack _). by vm_compute. Qed.
Lemma atoms_atoms : Forall (λ x, is_atom x = true) [make_atom 14; make_atom 500; make_atom 700].
Proof. by repeat constructor. Qed.
#[local] Instance atoms : StaticAtoms := {
  am_undefined := make_atom 14;
  am_free := make_atom 500;
  am_new_uniq := make_atom 700;
  static_atoms_distinct := atoms_distinct;
  static_atoms_atoms := atoms_atoms
}.

(** Eight markers, all in the message queue, of which two are cleared. *)
Definition ops_full : list blk_op :=
  ((λ i, BAlloc 100 (Immed (make_small i))) <$> seqZ 0 8) ++
  ((λ i, BQueue i (Some QsFirst) 0 false false 1 true) <$> seqZ 0 8) ++
  [BClear (Immed (make_small 5)); BClear (Immed (make_small 2))].

Lemma marker_reuse_witness :
  ∃ b b', run_blk ops_full None = Some (tt, Some b) ∧ reuse_select (Some b) = Some (Some (2, 2)%Z, Some b') ∧
    in_use b' = [0; 1; 3; 4; 5; 6; 7; 2]%Z.
Proof.
  destruct (run_blk ops_full None) as [[[] [b|]]|] eqn:Hr; [|vm_compute in Hr; discriminate Hr..].
  assert (Hb : free_ix b = (-1)%Z ∧ reuse_choice b = 2%Z ∧ in_use b = seqZ 0 8 ∧
    forallb in_msgq (blk_marker b) = true).
  { vm_compute in Hr. injection Hr as <-. vm_compute. done. }
  destruct Hb as (Hf & Hc & Hi & Hq).
  destruct (marker_reuse ops_full b Hr) as (b' & Hs & Hu); [rewrite Hf; lia| |].
  { apply Forall_forall. intros m Hm. rewrite forallb_forall in Hq. apply Hq. by apply list_elem_of_In. }
  exists b, b'. split; [done|]. rewrite Hc in Hs, Hu. split; [exact Hs|]. rewrite Hu, Hi. vm_compute. reflexivity.
Defined.

End MarkSample.
