(* ===== verification/SigQueue.v ===== *)
(** Model of the signal queues of a process, as far as messages travel through
    them: [erts/emulator/beam/erl_message.h], [erl_message.c],
    [erl_proc_sig_queue.h] and [erl_proc_sig_queue.c]. Senders append to an outer
    queue or to one of its buffers, the receiver fetches the outer queue into its
    inner queue of messages or its middle queue of mixed signals, and a receive
    moves a save pointer along the inner queue. *)

From S2P Require Import Prelude PonStats ErlTerm PonPremise RecvMarker.
From stdpp Require Import base numbers list gmap.
From Stdlib Require Import ZArith.

Definition ERTS_PSFLGS_ZERO_BIT_OFFSET : Z := 6.
Definition ERTS_PSFLG_BIT (N : Z) : Z := Z.shiftl 1 (ERTS_PSFLGS_ZERO_BIT_OFFSET + N).
Definition ERTS_PSFLG_FREE : Z := ERTS_PSFLG_BIT 4.
Definition ERTS_PSFLG_EXITING : Z := ERTS_PSFLG_BIT 5.
Definition ERTS_PSFLG_MSG_SIG_IN_Q : Z := ERTS_PSFLG_BIT 6.
Definition ERTS_PSFLG_NMSG_SIG_IN_Q : Z := ERTS_PSFLG_BIT 13.
Definition ERTS_PSFLG_OFF_HEAP_MSGQ : Z := ERTS_PSFLG_BIT 18.
Definition ERTS_PSFLG_SIG_Q : Z := ERTS_PSFLG_BIT 19.

Definition FS_OFF_HEAP_MSGQ : Z := Z.shiftl 1 0.
Definition FS_ON_HEAP_MSGQ : Z := Z.shiftl 1 1.
Definition FS_OFF_HEAP_MSGQ_CHNG : Z := Z.shiftl 1 2.
Definition FS_NON_FETCH_CNT1 : Z := Z.shiftl 1 9.
Definition FS_NON_FETCH_CNT2 : Z := Z.shiftl 1 10.
Definition FS_NON_FETCH_CNT4 : Z := Z.shiftl 1 11.
Definition FS_NON_FETCH_CNT_MASK : Z :=
  Z.lor (Z.lor FS_NON_FETCH_CNT1 FS_NON_FETCH_CNT2) FS_NON_FETCH_CNT4.
Definition FS_SET_SAVE_INFO_1 : Z := Z.shiftl 1 14.
Definition FS_SET_SAVE_INFO_2 : Z := Z.shiftl 1 15.
Definition FS_PRIO_MQ_SAVE : Z := Z.shiftl 1 16.
Definition FS_PRIO_MQ_END_MARK : Z := Z.shiftl 1 18.
Definition FS_SET_SAVE_INFO_MASK : Z := Z.lor FS_SET_SAVE_INFO_1 FS_SET_SAVE_INFO_2.
Definition FS_SET_SAVE_INFO_FIRST : Z := 0.
Definition FS_SET_SAVE_INFO_RCVM : Z := FS_SET_SAVE_INFO_1.
Definition FS_SET_SAVE_INFO_LAST : Z := Z.lor FS_SET_SAVE_INFO_1 FS_SET_SAVE_INFO_2.

Definition ERTS_PROC_SIG_INQ_BUFFERED_NR_OF_BUFFERS : nat := 64.
Definition ERTS_PROC_SIG_INQ_BUFFERED_CONTENTION_INSTALL_LIMIT : Z := 50.
Definition ERTS_PROC_SIG_INQ_BUFFERED_ALWAYS_TURN_ON : bool := false.
Definition ERTS_PROC_SIG_INQ_BUFFERED_MIN_FLUSH_ALL_OPS_BEFORE_CHANGE : Z := 8192.
Definition ERTS_PROC_SIG_INQ_BUFFERED_MIN_NO_ENQUEUES_TO_KEEP : Z :=
  ERTS_PROC_SIG_INQ_BUFFERED_MIN_FLUSH_ALL_OPS_BEFORE_CHANGE
  + ERTS_PROC_SIG_INQ_BUFFERED_MIN_FLUSH_ALL_OPS_BEFORE_CHANGE / 2.
Definition ERTS_UINT_MAX : Z := 2 ^ 64 - 1.

(** ** Data *)

(** A message, or another signal ([s_nmsg], by its tag); [specific_next] and
    [s_mlenoffs] are fields of the latter, the PON fields of the former. *)
Record ErtsSignal : Type := mkErtsSignal {
  s_next : option positive;
  s_nmsg : bool;
  s_recv_marker : bool;
  specific_next : option link;
  s_mlenoffs : Z;                 (* Sint *)
  s_term : Z;
  s_token : Z;
  s_from : Z;
  pon_in_link : option link;
  pon_seq : Z                     (* Uint64 *)
}.

#[global] Instance ErtsSignal_eta : Eta ErtsSignal := λ s, mkErtsSignal (s_next s) (s_nmsg s)
  (s_recv_marker s) (specific_next s) (s_mlenoffs s) (s_term s) (s_token s) (s_from s) (pon_in_link s) (pon_seq s).

(** [ERTS_INIT_MESSAGE] with [PON_INIT_MESSAGE]. *)
Definition ERTS_INIT_MESSAGE : ErtsSignal :=
  mkErtsSignal NULL false false None 0 THE_NON_VALUE THE_NON_VALUE NIL None 0.

Record ErtsSignalInQueue : Type := mkErtsSignalInQueue {
  q_first : option positive;
  q_last : link;
  q_mlenoffs : Z;                 (* Sint *)
  q_nm_next : option link;
  q_nm_last : option link
}.

#[global] Instance ErtsSignalInQueue_eta : Eta ErtsSignalInQueue := λ q,
  mkErtsSignalInQueue (q_first q) (q_last q) (q_mlenoffs q) (q_nm_next q) (q_nm_last q).

Record ErtsSignalPrivQueues : Type := mkErtsSignalPrivQueues {
  qs_first : option positive;
  qs_last : link;
  qs_save : link;
  mq_len : Z;                     (* Sint *)
  qs_cont : option positive;
  qs_cont_last : link;
  qs_nm_next : option link;
  qs_nm_last : option link;
  qs_mlenoffs : Z;                (* Sint *)
  recv_mrk_blk : option ErtsRecvMarkerBlock;
  qs_flags : Z                    (* Uint32 *)
}.

#[global] Instance ErtsSignalPrivQueues_eta : Eta ErtsSignalPrivQueues := λ q,
  mkErtsSignalPrivQueues (qs_first q) (qs_last q) (qs_save q) (mq_len q) (qs_cont q)
    (qs_cont_last q) (qs_nm_next q) (qs_nm_last q) (qs_mlenoffs q) (recv_mrk_blk q) (qs_flags q).

(** A slot of the array of buffers has a lock, [alive], [nr_of_enqueues] and a
    queue, which is in-queue number [i + 1] below. *)
Record ErtsSignalInQueueBufferArray : Type := mkErtsSignalInQueueBufferArray {
  b_slots : gmap nat (bool * Z);  (* alive, nr_of_enqueues *)
  nonempty_slots : Z;             (* Uint64 *)
  nonmsgs_in_slots : Z;
  msgs_in_slots : Z;
  nr_of_rounds_left : Z;          (* Uint *)
  b_nr_of_enqueues : Z;           (* Uint *)
  b_alive : bool
}.

#[global] Instance ErtsSignalInQueueBufferArray_eta : Eta ErtsSignalInQueueBufferArray := λ b,
  mkErtsSignalInQueueBufferArray (b_slots b) (nonempty_slots b) (nonmsgs_in_slots b) (msgs_in_slots b)
    (nr_of_rounds_left b) (b_nr_of_enqueues b) (b_alive b).

(** The signals by address; the in-queues: number 0 is [sig_inq] of the process,
    number [i + 1] the queue of slot [i]; the last array of buffers allocated, and
    whether [sig_inq_buffers] points at it (the memory of an array that is taken
    down is released later); the contention counter; the private queues, the state
    flags and the premises of the process; the signal that the scheduler of the
    sender holds back for this process; the counter for unique integers. *)
Record sqs : Type := mkSqs {
  sigs : gmap positive ErtsSignal;
  inqs : gmap nat ErtsSignalInQueue;
  bufs : option ErtsSignalInQueueBufferArray;
  sig_inq_buffers : bool;
  sig_inq_contention_counter : Z; (* Uint *)
  qs : ErtsSignalPrivQueues;
  psflgs : Z;
  sq_prs : prs;
  pending_signal : option positive;
  p_uniq : Z                      (* Sint64 *)
}.

#[global] Instance sqs_eta : Eta sqs := λ σ, mkSqs (sigs σ) (inqs σ) (bufs σ) (sig_inq_buffers σ)
  (sig_inq_contention_counter σ) (qs σ) (psflgs σ) (sq_prs σ) (pending_signal σ) (p_uniq σ).

Abbreviation SQ A := (M sqs A).

Definition inq_empty (i : nat) : ErtsSignalInQueue := mkErtsSignalInQueue NULL (InqFirst i) 0 None None.

(** The queues of a new process. *)
Definition qs_empty (flags : Z) : ErtsSignalPrivQueues :=
  mkErtsSignalPrivQueues NULL QsFirst QsFirst 0 NULL QsCont None None 0 None flags.

(** ** Memory accesses *)

Definition load_s (a : positive) : SQ ErtsSignal := σ ← get; deref (sigs σ !! a).
Definition upd_s (a : positive) (f : ErtsSignal → ErtsSignal) : SQ unit :=
  _ ← load_s a; modify (λ σ, σ <| sigs ::= alter f a |>).
Definition load_q (i : nat) : SQ ErtsSignalInQueue := σ ← get; deref (inqs σ !! i).
Definition upd_q (i : nat) (f : ErtsSignalInQueue → ErtsSignalInQueue) : SQ unit :=
  _ ← load_q i; modify (λ σ, σ <| inqs ::= alter f i |>).
Definition get_qs : SQ ErtsSignalPrivQueues := σ ← get; mret (qs σ).
Definition upd_qs (f : ErtsSignalPrivQueues → ErtsSignalPrivQueues) : SQ unit :=
  modify (λ σ, σ <| qs ::= f |>).
Definition upd_flgs (f : Z → Z) : SQ unit := modify (λ σ, σ <| psflgs ::= f |>).

(** [*l] and [*l = p] *)
Definition read_link (l : link) : SQ (option positive) :=
  match l with
  | InqFirst i => q ← load_q i; mret (q_first q)
  | QsFirst => x ← get_qs; mret (qs_first x)
  | QsCont => x ← get_qs; mret (qs_cont x)
  | Next a => s ← load_s a; mret (s_next s)
  end.
Definition write_link (l : link) (p : option positive) : SQ unit :=
  match l with
  | InqFirst i => upd_q i (λ q, q <| q_first := p |>)
  | QsFirst => upd_qs (λ x, x <| qs_first := p |>)
  | QsCont => upd_qs (λ x, x <| qs_cont := p |>)
  | Next a => upd_s a (λ s, s <| s_next := p |>)
  end.

(** The signal that a link points at. *)
Definition pointee (l : option link) : SQ positive := c ← deref l; p ← read_link c; deref p.

Definition on_premises {A} (m : M prs A) : SQ A := λ σ,
  match m (sq_prs σ) with
  | Some (x, r) => Some (x, σ <| sq_prs := r |>)
  | None => None
  end.

(** ** Senders *)

(** [ERTS_PON_SET_IN_LINK] *)
Definition ERTS_PON_SET_IN_LINK (msg : positive) : SQ unit :=
  σ ← get; q ← load_q 0;
  upd_s msg (λ s, s <| pon_in_link := match pon_premises (sq_prs σ) with
                                      | Some _ => Some (q_last q)
                                      | None => None
                                      end |>).

(** [LINK_MESSAGE]: one message last in the outer queue; [ps] are the flags read before. *)
Definition LINK_MESSAGE (msg : positive) (ps : Z) : SQ unit :=
  _ ← ERTS_PON_SET_IN_LINK msg;
  q ← load_q 0;
  _ ← write_link (q_last q) (Some msg);
  _ ← upd_q 0 (λ q, q <| q_last := Next msg |>);
  _ ← upd_q 0 (λ q, q <| q_mlenoffs ::= λ n, (n + 1)%Z |>);
  if decide (Z.land ps ERTS_PSFLG_MSG_SIG_IN_Q = 0%Z)
  then upd_flgs (λ f, Z.lor f ERTS_PSFLG_MSG_SIG_IN_Q) else mret tt.

(** The signals of [q2] are appended to [q1]; the fields of [q2] are left as they are. *)
Definition sig_inq_concat (i1 i2 : nat) : SQ unit :=
  q1 ← load_q i1;
  q2 ← load_q i2;
  let first_queue_last := q_last q1 in
  _ ← match q_nm_next q2 with
      | None => upd_q i1 (λ q, q <| q_mlenoffs ::= λ n, (n + q_mlenoffs q2)%Z |>)
      | Some c2 =>
          nmsig ← pointee (Some c2);
          let c := if decide (c2 = InqFirst i2) then first_queue_last else c2 in
          _ ← match q_nm_next q1 with
              | None =>
                  _ ← upd_q i1 (λ q, q <| q_nm_next := Some c |>);
                  if decide (q_nm_next q2 = q_nm_last q2)
                  then upd_q i1 (λ q, q <| q_nm_last := q_nm_next q |>)
                  else upd_q i1 (λ q, q <| q_nm_last := q_nm_last q2 |>)
              | Some _ =>
                  sig ← pointee (q_nm_last q1);
                  _ ← upd_s sig (λ s, s <| specific_next := Some c |>);
                  if decide (q_nm_last q2 = Some (InqFirst i2))
                  then upd_q i1 (λ q, q <| q_nm_last := Some c |>)
                  else upd_q i1 (λ q, q <| q_nm_last := q_nm_last q2 |>)
              end;
          q1 ← load_q i1;
          _ ← upd_s nmsig (λ s, s <| s_mlenoffs ::= λ n, (n + q_mlenoffs q1)%Z |>);
          upd_q i1 (λ q, q <| q_mlenoffs := q_mlenoffs q2 |>)
      end;
  q1 ← load_q i1;
  _ ← write_link (q_last q1) (q_first q2);
  upd_q i1 (λ q, q <| q_last := q_last q2 |>).

(** *** Buffers

    The locks order the accesses; an operation runs without interruption. The
    reference count that a thread other than a scheduler takes on the array only
    delays its release and is left out. *)
Definition get_bufs : SQ ErtsSignalInQueueBufferArray := σ ← get; deref (bufs σ).
Definition upd_bufs (f : ErtsSignalInQueueBufferArray → ErtsSignalInQueueBufferArray) : SQ unit :=
  b ← get_bufs; modify (λ σ, σ <| bufs := Some (f b) |>).

Definition erts_proc_sig_queue_get_buffers : SQ bool := σ ← get; mret (sig_inq_buffers σ).

(** The number of enqueues the slot has seen. *)
Definition proc_sig_queue_flush_buffer (i : nat) : SQ Z :=
  b ← get_bufs;
  '(alive, n) ← deref (b_slots b !! i);
  q ← load_q (S i);
  match q_first q with
  | None => mret n
  | Some _ =>
      _ ← upd_bufs (λ b, b <| b_slots ::= <[i := (alive, 0%Z)]> |>);
      _ ← (if alive : bool then
             _ ← sig_inq_concat 0 (S i);
             upd_q (S i) (λ _, inq_empty (S i))
           else mret tt);
      mret n
  end.

(** One round of the loop of [erts_proc_sig_queue_flush_and_deinstall_buffers]. *)
Definition deinstall_slot (i : nat) : SQ unit :=
  b ← get_bufs;
  '(_, n) ← deref (b_slots b !! i);
  q ← load_q (S i);
  _ ← (if decide (q_first q ≠ None) then sig_inq_concat 0 (S i) else mret tt);
  upd_bufs (λ b, b <| b_slots ::= <[i := (false, n)]> |>).

Definition erts_proc_sig_queue_flush_and_deinstall_buffers : SQ unit :=
  buffers ← erts_proc_sig_queue_get_buffers;
  if negb buffers then mret tt else
  b ← get_bufs;
  if negb (b_alive b) then mret tt else
  _ ← upd_bufs (λ b, b <| b_alive := false |>);
  _ ← modify (λ σ, σ <| sig_inq_contention_counter := 0%Z |>);
  _ ← for_range deinstall_slot 0 ERTS_PROC_SIG_INQ_BUFFERED_NR_OF_BUFFERS;
  _ ← upd_bufs (λ b, b <| nonmsgs_in_slots := 0%Z |> <| msgs_in_slots := 0%Z |> <| nonempty_slots := 0%Z |>);
  modify (λ σ, σ <| sig_inq_buffers := false |>).

(** One round of the loop of [proc_sig_queue_flush_buffers]. *)
Definition flush_slot (ne : Z) (i : nat) : SQ unit :=
  let slot_mask := Z.shiftl 1 (Z.of_nat i) in
  if decide (Z.land ne slot_mask ≠ 0%Z) then
    n ← proc_sig_queue_flush_buffer i;
    upd_bufs (λ b, b <| b_nr_of_enqueues ::= λ m, u64 (m + n) |>)
  else mret tt.

Definition proc_sig_queue_flush_buffers : SQ unit :=
  b ← get_bufs;
  let ne := nonempty_slots b in
  _ ← upd_bufs (λ b, b <| msgs_in_slots := 0%Z |> <| nonmsgs_in_slots := 0%Z |> <| nonempty_slots := 0%Z |>);
  _ ← (if decide (ne ≠ 0%Z)
       then for_range (flush_slot ne) 0 ERTS_PROC_SIG_INQ_BUFFERED_NR_OF_BUFFERS
       else mret tt);
  _ ← upd_bufs (λ b, b <| nr_of_rounds_left ::= λ n, u64 (n - 1) |>);
  b ← get_bufs;
  if decide (nr_of_rounds_left b = 0%Z) then
    if decide (b_nr_of_enqueues b < ERTS_PROC_SIG_INQ_BUFFERED_MIN_NO_ENQUEUES_TO_KEEP)%Z
    then erts_proc_sig_queue_flush_and_deinstall_buffers
    else upd_bufs (λ b, b <| nr_of_rounds_left := ERTS_PROC_SIG_INQ_BUFFERED_MIN_FLUSH_ALL_OPS_BEFORE_CHANGE |>
                          <| b_nr_of_enqueues := 0%Z |>)
  else mret tt.

Definition erts_proc_sig_queue_flush_buffers : SQ unit :=
  buffers ← erts_proc_sig_queue_get_buffers;
  if buffers : bool then proc_sig_queue_flush_buffers else mret tt.

(** [erts_alloc] ends the emulator when memory is exhausted. *)
Definition erts_proc_sig_queue_maybe_install_buffers (state : Z) : SQ unit :=
  σ ← get;
  if decide (Z.land state ERTS_PSFLG_OFF_HEAP_MSGQ = 0%Z ∨ sig_inq_buffers σ = true ∨
             (ERTS_PROC_SIG_INQ_BUFFERED_ALWAYS_TURN_ON = false ∧
              (sig_inq_contention_counter σ <= ERTS_PROC_SIG_INQ_BUFFERED_CONTENTION_INSTALL_LIMIT)%Z))
  then mret tt else
  _ ← modify (λ σ, σ <| sig_inq_contention_counter := 0%Z |>);
  _ ← modify (λ σ, σ <| bufs := Some (mkErtsSignalInQueueBufferArray ∅ 0 0 0
                          ERTS_PROC_SIG_INQ_BUFFERED_MIN_FLUSH_ALL_OPS_BEFORE_CHANGE 0 true) |>);
  _ ← for_range (λ i,
        _ ← upd_bufs (λ b, b <| b_slots ::= <[i := (true, 0%Z)]> |>);
        modify (λ σ, σ <| inqs ::= <[S i := inq_empty (S i)]> |>))
        0 ERTS_PROC_SIG_INQ_BUFFERED_NR_OF_BUFFERS;
  modify (λ σ, σ <| sig_inq_buffers := true |>).

(** [busy]: the lock was taken when the first attempt was made. *)
Definition erts_proc_sig_queue_lock (busy : bool) : SQ unit :=
  σ ← get;
  if busy : bool then modify (λ σ, σ <| sig_inq_contention_counter ::= λ n, u64 (n + 1) |>)
  else if decide (sig_inq_contention_counter σ > 0)%Z
  then modify (λ σ, σ <| sig_inq_contention_counter ::= λ n, u64 (n - 1) |>)
  else mret tt.

(** Only for tests. *)
Definition erts_proc_sig_queue_force_buffers : SQ Z :=
  σ ← get;
  _ ← modify (λ σ, σ <| sig_inq_contention_counter :=
                (1 + ERTS_PROC_SIG_INQ_BUFFERED_CONTENTION_INSTALL_LIMIT)%Z |>);
  _ ← erts_proc_sig_queue_maybe_install_buffers (psflgs σ);
  buffers ← erts_proc_sig_queue_get_buffers;
  if buffers : bool then
    _ ← upd_bufs (λ b, b <| nr_of_rounds_left := ERTS_UINT_MAX |>); mret 1%Z
  else mret 0%Z.

(** *** Enqueueing *)

(** A chain of signals that starts at [first] and ends with the link [last]; the
    queue is number [dest]. The result is the state of the receiver. *)
Definition enqueue_signals (is_to_buffer : bool) (first : positive) (last : link)
    (last_next : option link) (num_msgs state : Z) (dest : nat) : SQ Z :=
  f ← load_s first;
  let nmsig := s_nmsg f in
  let flush_buffers := negb is_to_buffer && negb (bool_decide (Z.land state ERTS_PSFLG_OFF_HEAP_MSGQ = 0%Z)) in
  _ ← (if flush_buffers then erts_proc_sig_queue_flush_buffers else mret tt);
  q ← load_q dest;
  let this := q_last q in
  _ ← write_link this (Some first);
  _ ← upd_q dest (λ q, q <| q_last := last |>);
  let set_flags := if decide (num_msgs = 0%Z) then 0%Z else ERTS_PSFLG_MSG_SIG_IN_Q in
  q ← load_q dest;
  set_flags ← match q_nm_next q with
      | None =>
          if nmsig : bool then
            _ ← upd_q dest (λ q, q <| q_nm_next := Some this |>);
            _ ← upd_s first (λ s, s <| s_mlenoffs := q_mlenoffs q |>);
            _ ← upd_q dest (λ q, q <| q_mlenoffs := 0%Z |>);
            mret (Z.lor set_flags ERTS_PSFLG_NMSG_SIG_IN_Q)
          else mret set_flags
      | Some _ =>
          sig ← pointee (q_nm_last q);
          if nmsig : bool then
            _ ← upd_s sig (λ s, s <| specific_next := Some this |>);
            _ ← upd_s first (λ s, s <| s_mlenoffs := q_mlenoffs q |>);
            _ ← upd_q dest (λ q, q <| q_mlenoffs := 0%Z |>);
            mret set_flags
          else mret set_flags
      end;
  state ← (if decide (Z.land state set_flags ≠ set_flags) then
             σ ← get; _ ← upd_flgs (λ f, Z.lor f set_flags); mret (psflgs σ)
           else mret state);
  _ ← match last_next with
      | Some _ => upd_q dest (λ q, q <| q_nm_last := last_next |>)
      | None => if nmsig : bool then upd_q dest (λ q, q <| q_nm_last := Some this |>) else mret tt
      end;
  _ ← upd_q dest (λ q, q <| q_mlenoffs ::= λ n, (n + num_msgs)%Z |>);
  mret state.

Definition erts_enqueue_signals (first : positive) (last : link) (num_msgs in_state : Z) : SQ Z :=
  enqueue_signals false first last None num_msgs in_state 0.

(** The hash of a term, a function of the term. *)
Class TermHash : Type := {
  erts_internal_hash : Z → Z;
  erts_internal_hash_nonneg : ∀ t, (0 ≤ erts_internal_hash t)%Z   (* erts_ihash_t is unsigned *)
}.

Section senders.
Context {TH : TermHash} {SA : StaticAtoms}.

Definition slot_of (from : Z) : nat :=
  Z.to_nat (Z.rem (erts_internal_hash from) (Z.of_nat ERTS_PROC_SIG_INQ_BUFFERED_NR_OF_BUFFERS)).

(** Which notification of the receiver follows: that of
    [erts_proc_notify_new_message] or of [erts_proc_notify_new_sig]. *)
Inductive notification : Type := NoNotify | NewMessage | NewSig.

(** The loop runs once: a second round needs a flush during the call. The result:
    1 and the notification, which every signal that went into a buffer has, or 0.
    When no slot was marked before, the code waits until the lock of the outer
    queue is released and notifies then. *)
Definition erts_proc_sig_queue_try_enqueue_to_buffer (from : Z) (msgq_locked : bool)
    (first : positive) (last : link) (last_next : option link) (len : Z) : SQ (Z * notification) :=
  buffers ← erts_proc_sig_queue_get_buffers;
  if msgq_locked || negb buffers then mret (0%Z, NoNotify) else
  f ← load_s first;
  let nonmsg := s_nmsg f in
  let slot := slot_of from in
  b ← get_bufs;
  '(alive, _) ← deref (b_slots b !! slot);
  if negb alive then mret (0%Z, NoNotify) else
  _ ← (if decide (len ≠ 0%Z ∧ msgs_in_slots b = 0%Z)
       then upd_bufs (λ b, b <| msgs_in_slots := 1%Z |>) else mret tt);
  _ ← (if nonmsg && bool_decide (nonmsgs_in_slots b = 0%Z)
       then upd_bufs (λ b, b <| nonmsgs_in_slots := 1%Z |>) else mret tt);
  q ← load_q (S slot);
  let slot_mask := Z.shiftl 1 (Z.of_nat slot) in
  _ ← (if decide (q_last q = InqFirst (S slot))
       then upd_bufs (λ b, b <| nonempty_slots ::= λ n, Z.lor n slot_mask |>) else mret tt);
  σ ← get;
  _ ← enqueue_signals true first last last_next len (psflgs σ) (S slot);
  _ ← upd_bufs (λ b, b <| b_slots ::= alter (λ '(a, n), (a, u64 (n + 1)%Z)) slot |>);
  mret (1%Z, if nonmsg then NewSig else NewMessage).

(** [erts_cleanup_messages]: the chain is freed; what the messages refer to is not
    part of the model. *)
Fixpoint erts_cleanup_messages (fuel : nat) (mp : option positive) : SQ unit :=
  match mp, fuel with
  | None, _ => mret tt
  | Some _, O => ub
  | Some a, S f =>
      s ← load_s a;
      _ ← modify (λ σ, σ <| sigs ::= delete a |>);
      erts_cleanup_messages f (s_next s)
  end.

(** [queue_messages] once it holds the lock of the outer queue. *)
Definition queue_messages_locked (first : positive) (last : link) (len : Z) : SQ notification :=
  σ ← get;
  let state := psflgs σ in
  f ← load_s first;
  if decide (Z.land state ERTS_PSFLG_EXITING ≠ 0%Z) then
    _ ← (if s_nmsg f : bool then
           _ ← modify (λ σ, σ <| pending_signal := Some first |>);
           erts_cleanup_messages (size (sigs σ)) (s_next f)
         else erts_cleanup_messages (size (sigs σ)) (Some first));
    mret NoNotify
  else
  _ ← erts_proc_sig_queue_maybe_install_buffers state;
  _ ← (if decide (last = Next first) then
         _ ← (if decide (Z.land state ERTS_PSFLG_OFF_HEAP_MSGQ ≠ 0%Z)
              then erts_proc_sig_queue_flush_buffers else mret tt);
         LINK_MESSAGE first state
       else
         _ ← erts_enqueue_signals first last len state; mret tt);
  if decide (last = Next first) then
    if s_nmsg f then mret NewMessage else
    σ ← get;
    _ ← match pon_premises (sq_prs σ) with
        | Some _ => _ ← on_premises (erts_pon_notify_premises first (s_term f)); mret tt
        | None => mret tt
        end;
    mret NewMessage
  else mret NewSig.

(** [busy]: see [erts_proc_sig_queue_lock]. *)
Definition queue_messages (from : Z) (msgq_locked busy : bool) (first : positive) (last : link) (len : Z) :
    SQ notification :=
  '(res, notify) ← erts_proc_sig_queue_try_enqueue_to_buffer from msgq_locked first last None len;
  if decide (res ≠ 0%Z) then mret notify else
  _ ← (if negb msgq_locked then erts_proc_sig_queue_lock busy else mret tt);
  queue_messages_locked first last len.

Definition prepend_pending_sig_maybe (mp : positive) : SQ positive :=
  σ ← get;
  match pending_signal σ with
  | None => mret mp
  | Some pend_sig =>
      _ ← modify (λ σ, σ <| pending_signal := NULL |>);
      _ ← upd_s pend_sig (λ s, s <| s_next := Some mp |> <| specific_next := None |>);
      mret pend_sig
  end.

Definition erts_queue_message_token (msgq_locked busy : bool) (mp : positive) (msg from token : Z) :
    SQ notification :=
  _ ← upd_s mp (λ s, s <| s_term := msg |> <| s_from := from |> <| s_token := token |>);
  queue_messages from msgq_locked busy mp (Next mp) 1.

Definition erts_queue_message (msgq_locked busy : bool) (mp : positive) (msg from : Z) : SQ notification :=
  _ ← upd_s mp (λ s, s <| s_term := msg |> <| s_from := from |> <| s_token := am_undefined |>);
  queue_messages from msgq_locked busy mp (Next mp) 1.

(** The sender is a local process. *)
Definition erts_queue_proc_message (sender : Z) (msgq_locked busy : bool) (mp : positive) (msg : Z) :
    SQ notification :=
  _ ← upd_s mp (λ s, s <| s_term := msg |> <| s_from := sender |>);
  first ← prepend_pending_sig_maybe mp;
  queue_messages sender msgq_locked busy first (Next mp) 1.

Definition erts_queue_proc_messages (sender : Z) (msgq_locked busy : bool) (first : positive) (last : link)
    (len : Z) : SQ notification :=
  first ← prepend_pending_sig_maybe first;
  queue_messages sender msgq_locked busy first last len.

(** *** Other signals than messages

    The receiver is in the process table; the sender is not traced. *)

(** [proc_queue_signal] from [first_last_done]; [last] is its [sig]. The result:
    whether the signals are in a queue. *)
Definition send_signals (from : Z) (force_flush busy : bool) (first last : positive) (last_next : option link) :
    SQ bool :=
  _ ← upd_s last (λ s, s <| specific_next := None |>);
  _ ← upd_s last (λ s, s <| s_next := NULL |>);
  '(res, _) ← (if force_flush then mret (0%Z, NoNotify)
               else erts_proc_sig_queue_try_enqueue_to_buffer from false first (Next last) last_next 0);
  if decide (res ≠ 0%Z) then mret true else
  _ ← erts_proc_sig_queue_lock busy;
  σ ← get;
  let state := psflgs σ in
  _ ← (if force_flush then erts_proc_sig_queue_flush_buffers
       else erts_proc_sig_queue_maybe_install_buffers state);
  if decide (Z.land ERTS_PSFLG_FREE state ≠ 0%Z) then mret false else
  _ ← enqueue_signals false first (Next last) last_next 0 state 0;
  mret true.

(** [monitor]: the signal sets up a monitor between processes. What is held back
    for other receivers has no effect on this one. *)
Definition proc_queue_signal (from : Z) (sig : positive) (force_flush monitor is_normal_sched busy : bool) : SQ Z :=
  σ ← get;
  let result := λ res : bool, if res then 1%Z else 0%Z in
  match (if is_normal_sched then pending_signal σ else None), is_normal_sched && monitor with
  | None, true => _ ← modify (λ σ, σ <| pending_signal := Some sig |>); mret 1%Z
  | Some pend_sig, true =>
      if decide (pend_sig ≠ sig) then
        _ ← modify (λ σ, σ <| pending_signal := Some sig |>);
        _ ← send_signals from force_flush busy pend_sig pend_sig None;
        mret 1%Z
      else
        _ ← modify (λ σ, σ <| pending_signal := NULL |>);
        res ← send_signals from force_flush busy sig sig None;
        mret (result res)
  | Some pend_sig, false =>
      _ ← modify (λ σ, σ <| pending_signal := NULL |>);
      _ ← upd_s sig (λ s, s <| s_mlenoffs := 0%Z |>);
      _ ← upd_s pend_sig (λ s, s <| s_next := Some sig |> <| specific_next := Some (Next pend_sig) |>);
      res ← send_signals from force_flush busy pend_sig sig (Some (Next pend_sig));
      mret (result res)
  | None, false =>
      res ← send_signals from force_flush busy sig sig None;
      mret (result res)
  end.

(** A result of 0 makes the sender send itself a notification. *)
Definition erts_proc_sig_send_pending (from : Z) (busy : bool) : SQ Z :=
  σ ← get;
  sig ← deref (pending_signal σ);
  proc_queue_signal from sig false true true busy.

End senders.

(** ** The receiver fetches its outer queue

    [traced]: the messages that the process receives are traced. The limits of
    the system monitor, which only send messages to other processes, are left out. *)
Definition fetch_inner : SQ unit :=
  q ← load_q 0;
  x ← get_qs;
  _ ← write_link (qs_last x) (q_first q);
  _ ← upd_qs (λ x, x <| qs_last := q_last q |>);
  upd_qs (λ x, x <| mq_len ::= λ n, (n + q_mlenoffs q)%Z |>).

Definition fetch_middle_msgs : SQ unit :=
  q ← load_q 0;
  x ← get_qs;
  _ ← write_link (qs_cont_last x) (q_first q);
  _ ← upd_qs (λ x, x <| qs_cont_last := q_last q |>);
  upd_qs (λ x, x <| qs_mlenoffs ::= λ n, (n + q_mlenoffs q)%Z |>).

(** The result: the flag to set. *)
Definition fetch_middle_sigs : SQ Z :=
  q ← load_q 0;
  nmsig ← pointee (q_nm_next q);
  x ← get_qs;
  _ ← upd_s nmsig (λ s, s <| s_mlenoffs ::= λ n, (n + qs_mlenoffs x)%Z |>);
  _ ← upd_qs (λ x, x <| qs_mlenoffs := q_mlenoffs q |>);
  let c := if decide (q_nm_next q = Some (InqFirst 0)) then Some (qs_cont_last x) else q_nm_next q in
  flag ← match qs_nm_last x with
      | None => _ ← upd_qs (λ x, x <| qs_nm_next := c |>); mret ERTS_PSFLG_SIG_Q
      | Some _ =>
          sig ← pointee (qs_nm_last x);
          _ ← upd_s sig (λ s, s <| specific_next := c |>);
          mret 0%Z
      end;
  _ ← (if decide (q_nm_last q = Some (InqFirst 0))
       then upd_qs (λ y, y <| qs_nm_last := Some (qs_cont_last y) |>)
       else upd_qs (λ y, y <| qs_nm_last := q_nm_last q |>));
  _ ← upd_q 0 (λ q, q <| q_nm_next := None |> <| q_nm_last := None |>);
  x ← get_qs;
  _ ← write_link (qs_cont_last x) (q_first q);
  _ ← upd_qs (λ x, x <| qs_cont_last := q_last q |>);
  mret flag.

Definition fetch_flags (set_flags : Z) : SQ unit :=
  let clear_flags := Z.lor ERTS_PSFLG_MSG_SIG_IN_Q ERTS_PSFLG_NMSG_SIG_IN_Q in
  upd_flgs (λ f, Z.lor (Z.land f (Z.lnot clear_flags)) set_flags).

(** [buffers]: the array is installed. The flags of signals that raced into a
    buffer are set again; to schedule their notification is left out. *)
Definition fetch_flags_buffers (set_flags : Z) : SQ unit :=
  _ ← fetch_flags set_flags;
  b ← get_bufs;
  if decide (nonempty_slots b ≠ 0%Z) then
    let set_flags := Z.lor (if decide (nonmsgs_in_slots b ≠ 0%Z) then ERTS_PSFLG_NMSG_SIG_IN_Q else 0)
                           (if decide (msgs_in_slots b ≠ 0%Z) then ERTS_PSFLG_MSG_SIG_IN_Q else 0) in
    if decide (set_flags ≠ 0%Z) then upd_flgs (λ f, Z.lor f set_flags) else mret tt
  else mret tt.

Definition erts_proc_sig_fetch__ (traced buffers : bool) : SQ unit :=
  _ ← (if buffers then proc_sig_queue_flush_buffers else mret tt);
  let flags := λ set_flags, if buffers then fetch_flags_buffers set_flags else fetch_flags set_flags in
  q ← load_q 0;
  match q_first q with
  | None =>
      σ ← get;
      if decide (Z.land (Z.lor ERTS_PSFLG_MSG_SIG_IN_Q ERTS_PSFLG_NMSG_SIG_IN_Q) (psflgs σ) = 0%Z)
      then mret tt else flags 0%Z
  | Some _ =>
      set_flags ← match q_nm_next q with
          | None =>
              x ← get_qs;
              match qs_cont x, traced with
              | None, false => _ ← fetch_inner; mret 0%Z
              | _, _ => _ ← fetch_middle_msgs; mret ERTS_PSFLG_SIG_Q
              end
          | Some _ => fetch_middle_sigs
          end;
      _ ← upd_q 0 (λ q, q <| q_first := NULL |>);
      _ ← upd_q 0 (λ q, q <| q_last := InqFirst 0 |>);
      _ ← upd_q 0 (λ q, q <| q_mlenoffs := 0%Z |>);
      flags set_flags
  end.

(** The message queue length. *)
Definition erts_proc_sig_fetch (traced : bool) : SQ Z :=
  _ ← upd_qs (λ x, x <| qs_flags ::= λ f, Z.land f (Z.lnot FS_NON_FETCH_CNT_MASK) |>);
  buffers ← erts_proc_sig_queue_get_buffers;
  q ← load_q 0;
  _ ← (if buffers || bool_decide (q_first q ≠ None) then erts_proc_sig_fetch__ traced buffers else mret tt);
  x ← get_qs;
  mret (mq_len x).

(** ** Receive markers

    The markers of the selective-receive optimisation. A marker is a signal in the
    inner or middle queue; [markp] is given by its index in the block. Only markers
    of type [ERTS_RECV_MARKER_TYPE_RECV] are modelled; those of a priority queue and
    of a yielding handler of signals are never made here. *)
Section markers.
Context {SA : StaticAtoms}.

Definition is_recv_marker (p : option positive) : SQ bool :=
  match p with
  | Some a => s ← load_s a; mret (s_recv_marker s)
  | None => mret false
  end.

Definition ERTS_MQ_SET_SAVE_INFO (SI : Z) : SQ unit :=
  _ ← upd_qs (λ x, x <| qs_flags ::= λ f, Z.land f (Z.lnot FS_SET_SAVE_INFO_MASK) |>);
  upd_qs (λ x, x <| qs_flags ::= λ f, Z.lor f SI |>).

Definition on_block {A} (m : RMB A) : SQ A := λ σ,
  match m (recv_mrk_blk (qs σ)) with
  | Some (x, o) => Some (x, σ <| qs ::= λ x, x <| recv_mrk_blk := o |> |>)
  | None => None
  end.

(** [&markp->sig], and [ERTS_RECV_MARKER_IX__]. *)
Definition marker_sig (ix : Z) : SQ positive :=
  b ← on_block get_blk; mret (Z.to_pos (Zpos (blk_base b) + ix)).
Definition ERTS_RECV_MARKER_IX__ (a : positive) : SQ Z :=
  b ← on_block get_blk;
  let ix := (Zpos a - Zpos (blk_base b))%Z in
  if decide (in_block ix) then mret ix else ub.

Definition remove_innerq_sig (sig : positive) (next_sig : link) : SQ unit :=
  x ← get_qs;
  _ ← (if decide (qs_save x = Next sig) then upd_qs (λ x, x <| qs_save := next_sig |>) else mret tt);
  _ ← (if decide (qs_last x = Next sig) then upd_qs (λ x, x <| qs_last := next_sig |>) else mret tt);
  s ← load_s sig;
  m ← is_recv_marker (s_next s);
  _ ← match s_next s with
      | Some n => if m : bool then ix ← ERTS_RECV_MARKER_IX__ n; on_block (upd_m ix (λ m, m <| prev_next := Some next_sig |>))
                  else mret tt
      | None => mret tt
      end;
  write_link next_sig (s_next s).

(** The memory of the signals of a block. *)
Definition block_sigs (base : positive) : list positive :=
  (λ i, Z.to_pos (Zpos base + Z.of_nat i)) <$> seq 0 ERTS_RECV_MARKER_BLOCK_SIZE.

(** [recv_marker_deallocate]; the block is freed with its last marker. *)
Definition marker_deallocate (ix : Z) : SQ unit :=
  b ← on_block get_blk;
  _ ← on_block (recv_marker_deallocate ix);
  x ← get_qs;
  match recv_mrk_blk x with
  | None => modify (λ σ, σ <| sigs ::= λ sg, foldr delete sg (block_sigs (blk_base b)) |>)
  | Some _ => mret tt
  end.

Definition recv_marker_dequeue (ix : Z) : SQ unit :=
  m ← on_block (load_m ix);
  if decide (in_sigq m ≤ 0)%Z then mret tt else
  if in_msgq m then
    sigp ← marker_sig ix;
    pn ← deref (prev_next m);
    _ ← remove_innerq_sig sigp pn;
    _ ← on_block (upd_m ix (λ m, m <| in_prioq := false |> <| in_msgq := false |> <| in_sigq := 0%Z |>));
    marker_deallocate ix
  else on_block (upd_m ix (λ m, m <| in_sigq := (-1)%Z |> <| mrk_set_save := false |>)).

(** A 64-bit integer as a term. *)
Definition sint64_term (val : Z) : mark_id :=
  if decide (MIN_SMALL ≤ val ≤ MAX_SMALL)%Z then Immed (make_small val)
  else Words (make_header 1 (if decide (0 ≤ val)%Z then TAG_HEADER_POS_BIG else TAG_HEADER_NEG_BIG)) [Z.abs val].

Definition recv_marker_uniq (uniq : mark_id) : SQ mark_id :=
  if decide (uniq = Immed am_new_uniq) then
    σ ← get;
    let val := s64 (MIN_SMALL + p_uniq σ) in
    _ ← modify (λ σ, σ <| p_uniq ::= λ n, (n + 1)%Z |>);
    mret (sint64_term val)
  else mret uniq.

(** Eight addresses in a row that are free. *)
Definition alloc_base (sg : gmap positive ErtsSignal) : positive :=
  map_fold (λ a _ m, Pos.max (Pos.succ a) m) 1%positive sg.

(** The result: marker, index and identifier. *)
Definition recv_marker_alloc_block (uniq : mark_id) : SQ (Z * Z * mark_id) :=
  σ ← get;
  let base := alloc_base (sigs σ) in
  id ← recv_marker_uniq uniq;
  _ ← modify (λ σ, σ <| sigs ::= λ sg, foldr (λ a, <[a := ERTS_INIT_MESSAGE]>) sg (block_sigs base) |>);
  _ ← upd_qs (λ x, x <| recv_mrk_blk := Some (new_block base id) |>);
  mret (0%Z, 0%Z, id).

(** The result: [markp] and [*ixp]. *)
Definition recv_marker_reuse : SQ (option (Z * Z)) :=
  r ← on_block reuse_select;
  match r with
  | None => mret None
  | Some (markp, ix) =>
      m ← on_block (load_m markp);
      sigp ← marker_sig markp;
      pn ← deref (prev_next m);
      _ ← remove_innerq_sig sigp pn;
      _ ← on_block (upd_m markp (λ m, m <| in_prioq := false |> <| in_msgq := false |> <| in_sigq := 0%Z |>));
      mret (Some (markp, ix))
  end.

Definition recv_marker_alloc (uniq : mark_id) : SQ (option (Z * Z * mark_id)) :=
  x ← get_qs;
  match recv_mrk_blk x with
  | None => r ← recv_marker_alloc_block uniq; mret (Some r)
  | Some blk =>
      r ← (if decide (free_ix blk < 0)%Z then recv_marker_reuse
           else _ ← on_block (take_free (free_ix blk)); mret (Some (free_ix blk, free_ix blk)));
      match r with
      | None => mret None
      | Some (markp, ix) =>
          id ← recv_marker_uniq uniq;
          _ ← on_block (set_ref ix id);
          mret (Some (markp, ix, id))
      end
  end.

Definition insert_in_msgq (markp : Z) (sig : positive) (setting : bool) : SQ unit :=
  x ← get_qs;
  _ ← on_block (upd_m markp (λ m, m <| in_msgq := true |> <| prev_next := Some (qs_last x) |>));
  _ ← write_link (qs_last x) (Some sig);
  _ ← upd_qs (λ x, x <| qs_last := Next sig |>);
  x ← get_qs;
  s ← read_link (qs_save x);
  if decide (setting = false ∧ s = Some sig) then
    _ ← on_block (upd_m markp (λ m, m <| mrk_pass ::= λ n, (n + 1)%Z |>));
    upd_qs (λ x, x <| qs_save := qs_last x |>)
  else mret tt.

Definition insert_in_sigq (markp : Z) (sig : positive) : SQ unit :=
  _ ← on_block (upd_m markp (λ m, m <| in_msgq := false |>));
  x ← get_qs;
  _ ← match qs_nm_last x with
      | None => upd_qs (λ y, y <| qs_nm_next := Some (qs_cont_last x) |>)
      | Some _ => lsig ← pointee (qs_nm_last x); upd_s lsig (λ s, s <| specific_next := Some (qs_cont_last x) |>)
      end;
  _ ← upd_qs (λ y, y <| qs_nm_last := Some (qs_cont_last x) |>);
  _ ← write_link (qs_cont_last x) (Some sig);
  _ ← upd_qs (λ y, y <| qs_cont_last := Next sig |>);
  _ ← upd_s sig (λ s, s <| s_mlenoffs := qs_mlenoffs x |>);
  upd_qs (λ y, y <| qs_mlenoffs := 0%Z |>).

Definition recv_marker_insert (markp : Z) (setting : bool) : SQ unit :=
  sig ← marker_sig markp;
  _ ← upd_s sig (λ s, s <| s_next := NULL |> <| specific_next := None |> <| s_nmsg := true |> <| s_recv_marker := true |>);
  _ ← on_block (upd_m markp (λ m, m <| mrk_pass := 0%Z |> <| mrk_set_save := false |> <| in_sigq := 1%Z |> <| in_prioq := false |>));
  x ← get_qs;
  match qs_cont x with
  | None => insert_in_msgq markp sig setting
  | Some _ => insert_in_sigq markp sig
  end.

(** The result [None] is [am_undefined]. *)
Definition erts_msgq_recv_marker_create_insert (uniq : mark_id) : SQ (option mark_id) :=
  r ← recv_marker_alloc uniq;
  match r with
  | None => mret None
  | Some (markp, _, new_uniq) => _ ← recv_marker_insert markp false; mret (Some new_uniq)
  end.

(** [msgq_pass_recv_markers]; [fuel]: the markers passed. *)
Fixpoint msgq_pass_recv_markers (fuel : nat) (sigpp : link) (leading : bool) : SQ link :=
  match fuel with
  | O => ub
  | S fuel =>
      p ← read_link sigpp;
      sigp ← deref p;
      markp ← ERTS_RECV_MARKER_IX__ sigp;
      _ ← (if leading then mret tt else on_block (upd_m markp (λ m, m <| mrk_pass ::= λ n, (n + 1)%Z |>)));
      m ← on_block (load_m markp);
      sigpp ← (if leading || bool_decide (mrk_pass m > ERTS_RECV_MARKER_PASS_MAX)%Z
               then _ ← recv_marker_dequeue markp; mret sigpp
               else mret (Next sigp));
      p ← read_link sigpp;
      r ← is_recv_marker p;
      if r : bool then msgq_pass_recv_markers fuel sigpp leading else mret sigpp
  end.

Definition erts_msgq_pass_recv_markers (markpp : link) : SQ link :=
  msgq_pass_recv_markers ERTS_RECV_MARKER_BLOCK_SIZE markpp false.

Definition erts_msgq_remove_leading_recv_markers_set_save_first : SQ unit :=
  x ← get_qs;
  _ ← (if decide (Z.land (qs_flags x) FS_PRIO_MQ_END_MARK ≠ 0%Z)
       then upd_qs (λ x, x <| qs_flags ::= λ f, Z.lor f FS_PRIO_MQ_SAVE |>) else mret tt);
  _ ← ERTS_MQ_SET_SAVE_INFO FS_SET_SAVE_INFO_FIRST;
  sigpp ← msgq_pass_recv_markers ERTS_RECV_MARKER_BLOCK_SIZE QsFirst true;
  upd_qs (λ x, x <| qs_save := sigpp |>).

Definition no_prio_save : SQ unit := upd_qs (λ x, x <| qs_flags ::= λ f, Z.land f (Z.lnot FS_PRIO_MQ_SAVE) |>).

Definition erts_msgq_recv_marker_pending_set_save__ (markp ix : Z) : SQ link :=
  _ ← upd_qs (λ x, x <| qs_save := qs_last x |>);
  _ ← no_prio_save;
  _ ← on_block (upd_m markp (λ m, m <| mrk_set_save := true |>));
  _ ← on_block (upd_blk (λ b, b <| pending_set_save_ix := ix |>));
  x ← get_qs;
  mret (qs_last x).

Definition erts_msgq_recv_marker_set_save__ (markp ix : Z) : SQ unit :=
  _ ← on_block clear_pending_set_save;
  m ← on_block (load_m markp);
  _ ← (if in_msgq m then
         sig ← marker_sig markp;
         x ← get_qs;
         sigpp ← (if negb (in_prioq m) then _ ← no_prio_save; mret (Next sig)
                  else if decide (Z.land (qs_flags x) FS_PRIO_MQ_END_MARK = 0%Z)
                  then _ ← on_block (upd_m markp (λ m, m <| in_prioq := false |>)); _ ← no_prio_save; mret (Next sig)
                  else _ ← upd_qs (λ x, x <| qs_flags ::= λ f, Z.lor f FS_PRIO_MQ_SAVE |>); mret QsFirst);
         sigp ← read_link sigpp;
         r ← is_recv_marker sigp;
         sigpp ← (if r : bool then erts_msgq_pass_recv_markers sigpp else mret sigpp);
         upd_qs (λ x, x <| qs_save := sigpp |>)
       else _ ← erts_msgq_recv_marker_pending_set_save__ markp ix; mret tt);
  _ ← ERTS_MQ_SET_SAVE_INFO FS_SET_SAVE_INFO_RCVM;
  on_block (upd_blk (λ b, b <| set_save_ix := ix |>)).

Definition erts_msgq_recv_marker_create_insert_set_save (id : mark_id) : SQ unit :=
  r ← recv_marker_alloc id;
  match r with
  | None => mret tt
  | Some (markp, ix, _) =>
      _ ← recv_marker_insert markp true;
      _ ← erts_msgq_recv_marker_set_save__ markp ix;
      on_block (upd_m markp (λ m, m <| in_sigq := (-1)%Z |>))
  end.

(** The receiver asks for a marker behind what is in its queues. *)
Definition erts_msgq_recv_marker_insert (traced busy : bool) : SQ (option mark_id) :=
  _ ← erts_proc_sig_queue_lock busy;
  _ ← erts_proc_sig_fetch traced;
  x ← get_qs;
  match qs_cont x, qs_first x with
  | None, None => mret None
  | _, _ => erts_msgq_recv_marker_create_insert (Immed am_new_uniq)
  end.

Definition erts_msgq_recv_marker_insert_bind (traced busy : bool) (id : mark_id) : SQ unit :=
  if is_internal_ref_id id then
    _ ← erts_proc_sig_queue_lock busy;
    _ ← erts_proc_sig_fetch traced;
    x ← get_qs;
    match qs_cont x, qs_first x with
    | None, None => mret tt
    | _, _ => _ ← erts_msgq_recv_marker_create_insert id; mret tt
    end
  else mret tt.

Definition erts_msgq_recv_marker_set_save (id : mark_id) : SQ unit :=
  if is_internal_ref_id id then
    x ← get_qs;
    match recv_mrk_blk x with
    | None => mret tt
    | Some _ =>
        i ← on_block (find_mark ERTS_RECV_MARKER_BLOCK_SIZE 0 id);
        match i with Some ix => erts_msgq_recv_marker_set_save__ ix ix | None => mret tt end
    end
  else mret tt.

End markers.

(** ** Receive *)

Section receive.
Context {SA : StaticAtoms}.

Definition erts_msgq_peek_msg : SQ (option positive) := x ← get_qs; read_link (qs_save x).

Definition erts_msgq_unlink_msg (msgp : positive) : SQ unit :=
  s ← load_s msgp;
  let sigp := s_next s in
  x ← get_qs;
  _ ← write_link (qs_save x) sigp;
  _ ← upd_qs (λ x, x <| mq_len ::= λ n, (n - 1)%Z |>);
  m ← is_recv_marker sigp;
  sigp ← (if m : bool then
            ix ← match sigp with Some a => ERTS_RECV_MARKER_IX__ a | None => ub end;
            _ ← on_block (upd_m ix (λ m, m <| prev_next := Some (qs_save x) |>));
            sigpp ← erts_msgq_pass_recv_markers (qs_save x);
            _ ← upd_qs (λ x, x <| qs_save := sigpp |>);
            read_link sigpp
          else mret sigp);
  match sigp with
  | None => upd_qs (λ x, x <| qs_last := qs_save x |>)
  | Some _ => mret tt
  end.

Definition erts_msgq_set_save_first : SQ unit :=
  x ← get_qs;
  _ ← match recv_mrk_blk x with Some _ => on_block clear_pending_set_save | None => mret tt end;
  m ← is_recv_marker (qs_first x);
  if m : bool then erts_msgq_remove_leading_recv_markers_set_save_first else
  _ ← (if decide (Z.land (qs_flags x) FS_PRIO_MQ_END_MARK ≠ 0%Z)
       then upd_qs (λ x, x <| qs_flags ::= λ f, Z.lor f FS_PRIO_MQ_SAVE |>) else mret tt);
  _ ← ERTS_MQ_SET_SAVE_INFO FS_SET_SAVE_INFO_FIRST;
  upd_qs (λ x, x <| qs_save := QsFirst |>).

Definition erts_msgq_unlink_msg_set_save_first (msgp : positive) : SQ unit :=
  s ← load_s msgp;
  let sigp := s_next s in
  x ← get_qs;
  _ ← write_link (qs_save x) sigp;
  _ ← upd_qs (λ x, x <| mq_len ::= λ n, (n - 1)%Z |>);
  _ ← match sigp with
      | None => upd_qs (λ x, x <| qs_last := qs_save x |>)
      | Some a =>
          m ← is_recv_marker (Some a);
          if m : bool then ix ← ERTS_RECV_MARKER_IX__ a; on_block (upd_m ix (λ m, m <| prev_next := Some (qs_save x) |>))
          else mret tt
      end;
  _ ← erts_msgq_set_save_first;
  σ ← get;
  match pon_premises (sq_prs σ) with
  | Some _ => on_premises (erts_pon_note_message_consumed msgp)
  | None => mret tt
  end.

Definition erts_msgq_set_save_next : SQ unit :=
  x ← get_qs;
  p ← read_link (qs_save x);
  a ← deref p;
  s ← load_s a;
  σ ← get;
  advanced ← (if decide (pon_premises (sq_prs σ) ≠ None ∧
                         Z.land (qs_flags x) FS_SET_SAVE_INFO_MASK = FS_SET_SAVE_INFO_FIRST)
              then on_premises erts_pon_advance_to_matched else mret 0%Z);
  if decide (advanced ≠ 0%Z) then mret tt else
  m ← is_recv_marker (s_next s);
  sigpp ← (if m : bool then erts_msgq_pass_recv_markers (Next a) else mret (Next a));
  upd_qs (λ x, x <| qs_save := sigpp |>).

Definition erts_msgq_set_save_end (traced busy : bool) : SQ unit :=
  _ ← erts_proc_sig_queue_lock busy;
  _ ← erts_proc_sig_fetch traced;
  x ← get_qs;
  _ ← match qs_cont x with
      | None =>
          _ ← upd_qs (λ x, x <| qs_save := qs_last x |>);
          upd_qs (λ x, x <| qs_flags ::= λ f, Z.land f (Z.lnot FS_PRIO_MQ_SAVE) |>)
      | Some _ => erts_msgq_recv_marker_create_insert_set_save (Immed NIL)
      end;
  ERTS_MQ_SET_SAVE_INFO FS_SET_SAVE_INFO_LAST.

End receive.

(** ** Off-heap and on-heap message queues *)

(** [erts_schedule_thr_prgr_later_op]: the job runs [change_off_heap_msgq] later,
    which sends a signal that is handled by [handle_move_msgq_off_heap]. *)
Inductive new_msgq_state : Type := am_off_heap | am_on_heap | OtherTerm.

Record msgq_change : Type := mkMsgqChange { old_state : option new_msgq_state; job_scheduled : bool }.

(** The second result of [change_to_off_heap]: a job was scheduled. *)
Definition change_to_off_heap : SQ bool :=
  _ ← upd_qs (λ x, x <| qs_flags ::= λ f, Z.lor f FS_OFF_HEAP_MSGQ |>);
  x ← get_qs;
  if decide (Z.land (qs_flags x) FS_OFF_HEAP_MSGQ_CHNG = 0%Z) then
    _ ← upd_flgs (λ f, Z.lor f ERTS_PSFLG_OFF_HEAP_MSGQ);
    _ ← upd_qs (λ x, x <| qs_flags ::= λ f, Z.lor f FS_OFF_HEAP_MSGQ_CHNG |>);
    mret true
  else mret false.

(** [old_state = None]: badarg. *)
Definition erts_change_message_queue_management (new_state : new_msgq_state) : SQ msgq_change :=
  x ← get_qs;
  let st := Z.land (qs_flags x) (Z.lor FS_OFF_HEAP_MSGQ FS_ON_HEAP_MSGQ) in
  if decide (st = FS_OFF_HEAP_MSGQ) then
    match new_state with
    | am_off_heap => mret (mkMsgqChange (Some am_off_heap) false)
    | am_on_heap =>
        _ ← erts_proc_sig_queue_flush_and_deinstall_buffers;
        _ ← upd_qs (λ x, x <| qs_flags ::= λ f, Z.lor f FS_ON_HEAP_MSGQ |>);
        _ ← upd_qs (λ x, x <| qs_flags ::= λ f, Z.land f (Z.lnot FS_OFF_HEAP_MSGQ) |>);
        x ← get_qs;
        _ ← (if decide (Z.land (qs_flags x) FS_OFF_HEAP_MSGQ_CHNG = 0%Z)
             then upd_flgs (λ f, Z.land f (Z.lnot ERTS_PSFLG_OFF_HEAP_MSGQ)) else mret tt);
        mret (mkMsgqChange (Some am_off_heap) false)
    | OtherTerm => mret (mkMsgqChange None false)
    end
  else if decide (st = FS_ON_HEAP_MSGQ) then
    match new_state with
    | am_on_heap => mret (mkMsgqChange (Some am_on_heap) false)
    | am_off_heap =>
        _ ← upd_qs (λ x, x <| qs_flags ::= λ f, Z.land f (Z.lnot FS_ON_HEAP_MSGQ) |>);
        job ← change_to_off_heap;
        mret (mkMsgqChange (Some am_on_heap) job)
    | OtherTerm => mret (mkMsgqChange None false)
    end
  else ub.                        (* ERTS_INTERNAL_ERROR *)

(** The part of [handle_move_msgq_off_heap] that settles the management state; in
    between it copies the messages of the queue off the heap. *)
Definition move_msgq_off_heap_state : SQ unit :=
  x ← get_qs;
  _ ← (if decide (Z.land (qs_flags x) FS_OFF_HEAP_MSGQ = 0%Z)
       then upd_flgs (λ f, Z.land f (Z.lnot ERTS_PSFLG_OFF_HEAP_MSGQ)) else mret tt);
  upd_qs (λ x, x <| qs_flags ::= λ f, Z.land f (Z.lnot FS_OFF_HEAP_MSGQ_CHNG) |>).
