(* ===== verification/SigInv.v ===== *)
(** What a queue of signals is: the list of its signals, the links that end it
    and that lead to its non-message signals, and the counts of messages before
    each of those; and what splicing two queues does to all of it. *)

From stdpp Require Import base numbers list gmap sets.
From Stdlib Require Import ZArith Lia.
From S2P Require Import Prelude RecvMarker SigQueue.

(** ** Views of the store *)

Section views.
Implicit Types sg : gmap positive ErtsSignal.

Definition snx sg (a : positive) : option (option positive) := s_next <$> sg !! a.
Definition snm sg (a : positive) : bool := match sg !! a with Some s => s_nmsg s | None => false end.
Definition ssp sg (a : positive) : option (option link) := specific_next <$> sg !! a.
Definition smo sg (a : positive) : option Z := s_mlenoffs <$> sg !! a.

(** What no queue operation changes. *)
Definition scontent (s : ErtsSignal) : bool * bool * Z * Z * Z * Z :=
  (s_nmsg s, s_recv_marker s, s_term s, s_token s, s_from s, pon_seq s).
Definition sct sg (a : positive) : option (bool * bool * Z * Z * Z * Z) := scontent <$> sg !! a.

(** The link that points behind the list [l] whose first element [c] points at. *)
Definition end_cell (c : link) (l : list positive) : link :=
  match last l with Some a => Next a | None => c end.

(** The non-message signals of a list, each with the link that points at it. *)
Fixpoint cells sg (c : link) (l : list positive) : list (link * positive) :=
  match l with
  | [] => []
  | a :: l' => if snm sg a then (c, a) :: cells sg (Next a) l' else cells sg (Next a) l'
  end.

Definition first_cell (cs : list (link * positive)) : option link := fst <$> head cs.
Definition last_cell (cs : list (link * positive)) : option link := fst <$> last cs.

(** Each non-message signal points at the link of the next one, the last at [z]. *)
Fixpoint nmchain sg (cs : list (link * positive)) (z : option link) : Prop :=
  match cs with
  | [] => True
  | (_, a) :: cs' =>
      ssp sg a = Some (match cs' with [] => z | (c, _) :: _ => Some c end) ∧ nmchain sg cs' z
  end.

(** Each non-message signal counts the messages since the previous one, starting
    with [n]; [off] messages are behind the last. *)
Fixpoint offs sg (n : Z) (l : list positive) (off : Z) : Prop :=
  match l with
  | [] => off = n
  | a :: l' => if snm sg a then smo sg a = Some n ∧ offs sg 0 l' off else offs sg (n + 1) l' off
  end.

Record rep sg (c0 : link) (f : option positive) (e : link) (nn nl : option link) (off : Z)
    (l : list positive) : Prop := {
  rp_seg : lseg (snx sg) f l None;
  rp_nodup : NoDup l;
  rp_end : e = end_cell c0 l;
  rp_next : nn = first_cell (cells sg c0 l);
  rp_last : nl = last_cell (cells sg c0 l);
  rp_chain : nmchain sg (cells sg c0 l) None;
  rp_offs : offs sg 0 l off
}.

End views.

Lemma snm_sct (sg sg' : gmap positive ErtsSignal) a : sct sg' a = sct sg a → snm sg' a = snm sg a.
Proof.
  unfold sct, snm. destruct (sg !! a), (sg' !! a); simpl; try done. intros Hs. injection Hs. congruence.
Qed.

Lemma sct_dom (sg sg' : gmap positive ErtsSignal) a :
  sct sg' a = sct sg a → is_Some (sg !! a) → is_Some (sg' !! a).
Proof. unfold sct. intros He [s Hs]. rewrite Hs in He. by apply fmap_Some in He as (s' & -> & _). Qed.

(** ** Lists of cells *)

Lemma end_cell_app c l1 l2 : end_cell c (l1 ++ l2) = end_cell (end_cell c l1) l2.
Proof. unfold end_cell. rewrite last_app. by destruct (last l2). Qed.

Lemma end_cell_cons c a l : end_cell c (a :: l) = end_cell (Next a) l.
Proof. change (a :: l) with ([a] ++ l). by rewrite end_cell_app. Qed.

Section cells.
Implicit Types sg : gmap positive ErtsSignal.

Lemma cells_app sg c l1 l2 : cells sg c (l1 ++ l2) = cells sg c l1 ++ cells sg (end_cell c l1) l2.
Proof.
  revert c. induction l1 as [|a l1 IH]; intros c; [done|]. simpl. rewrite end_cell_cons.
  destruct (snm sg a); simpl; by rewrite IH.
Qed.

Lemma cells_ext sg sg' c l : (∀ a, a ∈ l → snm sg' a = snm sg a) → cells sg' c l = cells sg c l.
Proof.
  revert c. induction l as [|a l IH]; intros c Hn; [done|]. simpl. rewrite Hn by left.
  rewrite IH by (intros b Hb; apply Hn; by right). done.
Qed.

Lemma cells_elem sg c l x a : (x, a) ∈ cells sg c l → a ∈ l ∧ snm sg a = true.
Proof.
  revert c. induction l as [|b l IH]; intros c; simpl; [set_solver|].
  destruct (snm sg b) eqn:Hb; [intros [[= -> ->]|Ha]%elem_of_cons|intros Ha];
    [split; [left|done]|..]; apply IH in Ha as [? ?]; (split; [by right|done]).
Qed.

Lemma cells_none sg c l : cells sg c l = [] ↔ ∀ a, a ∈ l → snm sg a = false.
Proof.
  split.
  - revert c. induction l as [|b l IH]; intros c; simpl; [set_solver|].
    destruct (snm sg b) eqn:Hb; [done|]. intros Hc a [->|Ha]%elem_of_cons; [done|]. by eapply IH.
  - revert c. induction l as [|b l IH]; intros c Hn; simpl; [done|].
    rewrite Hn by left. apply IH. intros a Ha. apply Hn. by right.
Qed.

(** Only the link to the first signal depends on where the list starts. *)
Lemma cells_anchor sg c c' l :
  cells sg c' l = match l, cells sg c l with
                  | a :: _, (_, b) :: cs => if snm sg a then (c', b) :: cs else cells sg c l
                  | _, cs => cs
                  end.
Proof. destruct l as [|a l]; simpl; [done|]. destruct (snm sg a); [done|]. by destruct (cells sg (Next a) l) as [|[]]. Qed.

Lemma cells_snd_nodup sg c l : NoDup l → NoDup (cells sg c l).*2.
Proof.
  revert c. induction l as [|a l IH]; intros c Hnd; simpl; [constructor|].
  apply NoDup_cons in Hnd as [Ha Hnd]. destruct (snm sg a); [|by apply IH]. simpl.
  apply NoDup_cons. split; [|by apply IH]. intros ([x b] & Hb & Hin)%list_elem_of_fmap. simpl in Hb. subst b.
  by apply cells_elem in Hin as [? _].
Qed.

Lemma cells_from sg d l x a : (x, a) ∈ cells sg (Next d) l → ∃ b, x = Next b ∧ b ∈ d :: l.
Proof.
  revert d. induction l as [|e l IH]; intros d; simpl; [set_solver|].
  destruct (snm sg e); [intros [[= -> ->]|Ha]%elem_of_cons; [exists d; split; [done|left]|]|intros Ha];
    (destruct (IH e Ha) as (b & ? & ?); exists b; split; [done|by right]).
Qed.

(** The link to a non-message signal behind the first one is not the anchor. *)
Lemma cells_next sg c l x a : (x, a) ∈ tail (cells sg c l) → ∃ b, x = Next b ∧ b ∈ l.
Proof.
  destruct l as [|b l]; simpl; [set_solver|]. intros Ha. apply (cells_from sg b l x a).
  destruct (snm sg b); simpl in Ha; [done|].
  destruct (cells sg (Next b) l); [set_solver|by right].
Qed.

Lemma nmchain_app sg cs1 cs2 z :
  nmchain sg (cs1 ++ cs2) z ↔
  nmchain sg cs1 (match cs2 with [] => z | (c, _) :: _ => Some c end) ∧ nmchain sg cs2 z.
Proof.
  induction cs1 as [|[c a] cs1 IH]; simpl; [tauto|]. rewrite IH.
  destruct cs1 as [|[c' a'] cs1]; simpl; [|tauto]. tauto.
Qed.

Lemma nmchain_ext sg sg' cs z :
  (∀ a, a ∈ cs.*2 → ssp sg' a = ssp sg a) → nmchain sg cs z → nmchain sg' cs z.
Proof.
  induction cs as [|[c a] cs IH]; intros Hs; simpl; [done|]. intros [Ha Hc]. split.
  - rewrite Hs; [done|]. left.
  - apply IH; [|done]. intros b Hb. apply Hs. by right.
Qed.

(** The first link does not matter. *)
Lemma nmchain_anchor sg c c' l z : nmchain sg (cells sg c l) z → nmchain sg (cells sg c' l) z.
Proof.
  rewrite (cells_anchor sg c c' l). destruct l as [|a l]; [done|]. simpl.
  destruct (snm sg a); simpl; [done|]. by destruct (cells sg (Next a) l) as [|[]].
Qed.

(** Redirecting the last signal. *)
Lemma nmchain_relast sg sg' cs z z' :
  NoDup cs.*2 → nmchain sg cs z →
  (∀ a, a ∈ cs.*2 → ssp sg' a = if decide (snd <$> last cs = Some a) then Some z' else ssp sg a) →
  nmchain sg' cs z'.
Proof.
  induction cs as [|[c a] cs IH]; intros Hnd Hch Hs; simpl; [done|]. destruct Hch as [Ha Hc].
  apply NoDup_cons in Hnd as [Hna Hnd]. destruct cs as [|[c' a'] cs].
  - split; [|done]. rewrite Hs by left. by rewrite decide_True.
  - split.
    + rewrite Hs by left. rewrite decide_False; [done|]. rewrite last_cons_cons. intros Hl.
      apply Hna. apply fmap_Some in Hl as (p & Hp & ->). apply last_Some_elem_of in Hp.
      change (p.2 ∈ ((c', a') :: cs).*2). by apply list_elem_of_fmap_2.
    + apply IH; [done|done|]. intros b Hb. rewrite Hs by (by right). by rewrite last_cons_cons.
Qed.

Lemma nmchain_last sg cs z a : nmchain sg cs z → snd <$> last cs = Some a → ssp sg a = Some z.
Proof.
  induction cs as [|[c b] cs IH]; [done|]. intros [Hb Hc]. destruct cs as [|[c' b'] cs].
  - intros [= <-]. done.
  - rewrite last_cons_cons. by apply IH.
Qed.

Lemma offs_app sg n l1 l2 off :
  offs sg n (l1 ++ l2) off ↔ ∃ k, offs sg n l1 k ∧ offs sg k l2 off.
Proof.
  revert n. induction l1 as [|a l1 IH]; intros n; simpl; [naive_solver|].
  destruct (snm sg a); [|apply IH]. rewrite IH. naive_solver.
Qed.

Lemma offs_ext sg sg' n l off :
  (∀ a, a ∈ l → snm sg' a = snm sg a ∧ smo sg' a = smo sg a) → offs sg n l off → offs sg' n l off.
Proof.
  revert n. induction l as [|a l IH]; intros n Hs; simpl; [done|].
  destruct (Hs a ltac:(left)) as [-> ->].
  destruct (snm sg a); [intros [? ?]; split; [done|]|]; apply IH; try done;
    intros b Hb; apply Hs; by right.
Qed.


(** A list of messages. *)
Lemma offs_msgs sg n l : (∀ a, a ∈ l → snm sg a = false) → offs sg n l (n + Z.of_nat (length l)).
Proof.
  revert n. induction l as [|a l IH]; intros n Hm; simpl; [lia|]. rewrite Hm by left.
  replace (n + Z.of_nat (S (length l)))%Z with (n + 1 + Z.of_nat (length l))%Z by lia.
  apply IH. intros b Hb. apply Hm. by right.
Qed.

Lemma offs_msgs_inv sg c l off : offs sg 0 l off → cells sg c l = [] → off = Z.of_nat (length l).
Proof.
  intros Ho Hc. assert (∀ n, offs sg n l off → off = (n + Z.of_nat (length l))%Z) as Hn; [|by apply Hn in Ho].
  clear Ho. revert c Hc. induction l as [|a l IH]; intros c Hc n; simpl in *; [lia|].
  destruct (snm sg a); [done|]. intros Ho. apply (IH _ Hc) in Ho. lia.
Qed.

(** Only the first non-message signal sees how many messages are before the list. *)
Lemma offs_shift sg sg' c n l off k :
  NoDup l → offs sg n l off → (∀ a, a ∈ l → snm sg' a = snm sg a) →
  (∀ a, a ∈ l → smo sg' a = if decide (snd <$> head (cells sg c l) = Some a)
                            then (λ m, m + k)%Z <$> smo sg a else smo sg a) →
  offs sg' (n + k) l (match cells sg c l with [] => (off + k)%Z | _ => off end).
Proof.
  revert c n. induction l as [|a l IH]; intros c n Hnd Ho Hn Hm; simpl in *; [lia|].
  apply NoDup_cons in Hnd as [Ha Hnd]. rewrite Hn by left. destruct (snm sg a) eqn:Hnm.
  - destruct Ho as [Hsm Ho]. split.
    + rewrite Hm by left. rewrite decide_True by done. by rewrite Hsm.
    + eapply offs_ext; [|done]. intros b Hb. split; [apply Hn; by right|].
      rewrite Hm by (by right). rewrite decide_False; [done|]. intros [= ->]. done.
  - replace (n + k + 1)%Z with (n + 1 + k)%Z by lia. apply IH; [done|done| |].
    + intros b Hb. apply Hn. by right.
    + intros b Hb. apply Hm. by right.
Qed.

Lemma rep_ext sg sg' c f e nn nl off l :
  rep sg c f e nn nl off l → (∀ a, a ∈ l → sg' !! a = sg !! a) → rep sg' c f e nn nl off l.
Proof.
  intros [H1 H2 H3 H4 H5 H6 H7] Hs.
  assert (∀ a, a ∈ l → snm sg' a = snm sg a) as Hnm by (intros a Ha; unfold snm; by rewrite Hs).
  constructor; try done.
  - eapply lseg_frame; [|done]. intros a Ha. unfold snx. by rewrite Hs.
  - by rewrite (cells_ext sg).
  - by rewrite (cells_ext sg).
  - rewrite (cells_ext sg) by done. eapply nmchain_ext; [|done].
    intros a ([x b] & -> & Hin)%list_elem_of_fmap. apply cells_elem in Hin as [Hin _].
    unfold ssp. simpl in *. by rewrite Hs.
  - eapply offs_ext; [|done]. intros a Ha. split; [by apply Hnm|]. unfold smo. by rewrite Hs.
Qed.

Lemma first_cell_app cs1 cs2 :
  first_cell (cs1 ++ cs2) = match cs1 with [] => first_cell cs2 | _ => first_cell cs1 end.
Proof. by destruct cs1. Qed.

Lemma last_cell_app cs1 cs2 :
  last_cell (cs1 ++ cs2) = match cs2 with [] => last_cell cs1 | _ => last_cell cs2 end.
Proof.
  unfold last_cell. rewrite last_app. destruct cs2 as [|p cs2]; [done|].
  destruct (last (p :: cs2)) eqn:Hl; [done|]. by apply last_None in Hl.
Qed.

(** Appending the list [l2] to the queue of [l1]: the link at the end of [l1] and
    the last non-message signal of [l1] are redirected. *)
Lemma rep_splice sg sg' c f1 nn1 nl1 off1 l1 f2 c2 l2 off :
  rep sg c f1 (end_cell c l1) nn1 nl1 off1 l1 → l2 ≠ [] → NoDup l2 → (∀ a, a ∈ l1 → a ∉ l2) →
  lseg (snx sg) f2 l2 None → nmchain sg (cells sg c2 l2) None →
  (∀ a, a ∈ l1 ++ l2 → snx sg' a = if decide (last l1 = Some a) then Some f2 else snx sg a) →
  (∀ a, a ∈ l1 ++ l2 → snm sg' a = snm sg a) →
  (∀ a, a ∈ l1 ++ l2 → ssp sg' a =
     if decide (snd <$> last (cells sg c l1) = Some a ∧ cells sg (end_cell c l1) l2 ≠ [])
     then Some (first_cell (cells sg (end_cell c l1) l2)) else ssp sg a) →
  offs sg' 0 (l1 ++ l2) off →
  rep sg' c (match l1 with [] => f2 | _ => f1 end) (end_cell (end_cell c l1) l2)
    (match cells sg c l1 with [] => first_cell (cells sg (end_cell c l1) l2) | _ => nn1 end)
    (match cells sg (end_cell c l1) l2 with [] => nl1 | cs => last_cell cs end) off (l1 ++ l2).
Proof.
  intros [H1 H2 _ -> -> H6 _] Hne Hnd Hdis Hl2 Hch2 Hnx Hnm Hsp Hoff.
  assert (cells sg' c (l1 ++ l2) = cells sg c l1 ++ cells sg (end_cell c l1) l2) as Hcs.
  { rewrite (cells_ext sg), cells_app by done. done. }
  assert (NoDup (l1 ++ l2)) as Hnd12 by (apply NoDup_app; auto).
  set (cs1 := cells sg c l1) in *. set (cs2 := cells sg (end_cell c l1) l2) in *.
  constructor.
  - destruct l1 as [|x l1 _] using rev_ind; [simpl|].
    { eapply lseg_frame; [|done]. intros a Ha. rewrite Hnx by done. done. }
    assert (lseg (snx sg') f1 ((l1 ++ [x]) ++ l2) None) as Hseg.
    { rewrite <- app_assoc. apply lseg_app in H1 as (r & Ha & -> & _). apply lseg_app. exists (Some x).
      rewrite last_snoc in Hnx. apply NoDup_app in H2 as (_ & Hx & _). split.
      - eapply lseg_frame; [|done]. intros a Hin. rewrite Hnx by set_solver.
        rewrite decide_False; [done|]. intros [= ->]. set_solver.
      - simpl. split; [done|]. exists f2. rewrite Hnx by set_solver. rewrite decide_True by done.
        split; [done|]. eapply lseg_frame; [|done]. intros a Hin. rewrite Hnx by set_solver.
        rewrite decide_False; [done|]. intros [= ->]. set_solver. }
    by destruct l1.
  - done.
  - by rewrite end_cell_app.
  - rewrite Hcs, first_cell_app. by destruct cs1.
  - rewrite Hcs, last_cell_app. by destruct cs2.
  - rewrite Hcs. apply nmchain_app. split.
    + apply (nmchain_relast sg sg' cs1 None); [by apply cells_snd_nodup|done|].
      intros a ([x b] & -> & Hin)%list_elem_of_fmap. apply cells_elem in Hin as [Hin _].
      rewrite Hsp by set_solver. simpl. destruct cs2 as [|[c' a'] cs3] eqn:He.
      * rewrite decide_False by tauto. case_decide as Hd; [|done].
        eapply nmchain_last in H6; done.
      * apply decide_ext. naive_solver.
    + eapply nmchain_ext; [|by eapply nmchain_anchor].
      intros a ([x b] & -> & Hin)%list_elem_of_fmap. apply cells_elem in Hin as [Hin _].
      rewrite Hsp by set_solver. simpl. rewrite decide_False; [done|]. intros [Hl _].
      apply fmap_Some in Hl as ([y d] & Hl & ->). apply last_Some_elem_of in Hl.
      apply cells_elem in Hl as [Hl _]. by apply (Hdis d).
  - done.
Qed.

End cells.

(** ** Links into a queue *)

Section links.
Implicit Types sg : gmap positive ErtsSignal.

(** A link to a non-message signal is read. *)
Lemma cells_read sg c f l q x a :
  lseg (snx sg) f l q → (x, a) ∈ cells sg c l →
  (x = c ∧ f = Some a) ∨ ∃ b, x = Next b ∧ snx sg b = Some (Some a).
Proof.
  revert c f. induction l as [|d l IH]; intros c f; simpl; [set_solver|].
  intros (-> & p & Hd & Hl).
  assert ((x, a) ∈ cells sg (Next d) l → ∃ b, x = Next b ∧ snx sg b = Some (Some a)) as Hrest.
  { intros Hin. destruct (IH _ _ Hl Hin) as [[-> ->]|]; [|done]. by exists d. }
  destruct (snm sg d); [intros [[= -> ->]|Hin]%elem_of_cons|]; [by left|right; by apply Hrest..].
Qed.

Lemma cells_fst_nodup sg d l : NoDup (d :: l) → NoDup (cells sg (Next d) l).*1.
Proof.
  revert d. induction l as [|a l IH]; intros d Hnd; simpl; [constructor|].
  apply NoDup_cons in Hnd as [Hd Hnd]. destruct (snm sg a); [|by apply IH]. simpl.
  apply NoDup_cons. split; [|by apply IH]. intros ([x b] & Hx & Hin)%list_elem_of_fmap.
  simpl in Hx. subst x. apply cells_from in Hin as (e & [= <-] & Hin). done.
Qed.

(** [c] is the start of a queue, not the link of a signal. *)
Definition anchor (c : link) : Prop := ∀ a, c ≠ Next a.

Lemma cells_anchor_ne sg c l x a : anchor c → (x, a) ∈ tail (cells sg c l) → x ≠ c.
Proof. intros Hc (b & -> & _)%cells_next Hx. by apply (Hc b). Qed.

Lemma cells_head_ne sg c l x a cs :
  anchor c → cells sg c l = (x, a) :: cs →
  (x = c ∧ head l = Some a ∧ snm sg a = true) ∨ (x ≠ c ∧ ∀ c', cells sg c' l = cells sg c l).
Proof.
  intros Hc Hcs. destruct l as [|b l]; [done|]. simpl in *. destruct (snm sg b) eqn:Hb.
  - injection Hcs as <- <- _. left. auto.
  - right. split; [|done]. intros ->.
    assert ((c, a) ∈ cells sg (Next b) l) as Hin by (rewrite Hcs; left).
    apply cells_from in Hin as (e & He & _). by apply (Hc e).
Qed.

(** The links of [l] when it is moved to start at [c']. *)
Lemma first_cell_move sg c c' l x a cs :
  anchor c → cells sg c l = (x, a) :: cs →
  first_cell (cells sg c' l) = Some (if decide (x = c) then c' else x).
Proof.
  intros Hc Hcs. destruct (cells_head_ne _ _ _ _ _ _ Hc Hcs) as [(-> & Hh & Hn)|[Hx He]].
  - rewrite decide_True by done. destruct l as [|b l]; [done|]. injection Hh as ->. simpl. by rewrite Hn.
  - rewrite decide_False by done. by rewrite He, Hcs.
Qed.

Lemma last_cell_move sg c c' l x a cs :
  anchor c → cells sg c l = (x, a) :: cs →
  last_cell (cells sg c' l) = if decide (last_cell (cells sg c l) = Some c) then Some c'
                              else last_cell (cells sg c l).
Proof.
  intros Hc Hcs. destruct (cells_head_ne _ _ _ _ _ _ Hc Hcs) as [(-> & Hh & Hn)|[Hx He]].
  - destruct l as [|b l]; [done|]. injection Hh as ->. simpl in *. rewrite Hn in *.
    injection Hcs as Hcs. unfold last_cell. destruct (cells sg (Next a) l) as [|p cs'] eqn:Hcl.
    + simpl. by rewrite decide_True.
    + rewrite !last_cons_cons. rewrite decide_False; [done|]. intros Hl.
      apply fmap_Some in Hl as ([y d] & Hl & Hy). simpl in Hy. subst y.
      apply last_Some_elem_of in Hl. rewrite <- Hcl in Hl.
      apply cells_from in Hl as (e & Heq & _). by apply (Hc e).
  - rewrite He. rewrite decide_False; [done|]. intros Hl.
    apply fmap_Some in Hl as ([y d] & Hl & Hy). simpl in Hy. subst y.
    apply last_Some_elem_of in Hl. rewrite Hcs in Hl. apply elem_of_cons in Hl as [[= Hx' _]|Hl]; [done|].
    apply (cells_anchor_ne sg c l c d Hc); [by rewrite Hcs|done].
Qed.

Lemma cells_snd_move sg c c' l : (cells sg c l).*2 = (cells sg c' l).*2.
Proof. destruct l as [|a l]; simpl; [done|]. by destruct (snm sg a). Qed.

Lemma cells_nil_move sg c c' l : cells sg c l = [] → cells sg c' l = [].
Proof. intros Hc. apply cells_none. by eapply cells_none. Qed.

Lemma cells_head_move sg c c' l : snd <$> head (cells sg c l) = snd <$> head (cells sg c' l).
Proof. destruct l as [|a l]; simpl; [done|]. by destruct (snm sg a). Qed.

(** Only the first link can be the anchor. *)
Lemma last_cell_anchor sg c l x a cs :
  anchor c → cells sg c l = (x, a) :: cs → last_cell (cells sg c l) = Some c → x = c.
Proof.
  intros Hc Hcs Hl. apply fmap_Some in Hl as ([y d] & Hl & Hy). simpl in Hy. subst y.
  apply last_Some_elem_of in Hl. rewrite Hcs in Hl. apply elem_of_cons in Hl as [[= -> _]|Hl]; [done|].
  exfalso. apply (cells_anchor_ne sg c l c d Hc); [by rewrite Hcs|done].
Qed.

(** One non-message signal exactly when the first link is the last. *)
Lemma cells_single sg c l x a cs :
  anchor c → NoDup l → cells sg c l = (x, a) :: cs → last_cell (cells sg c l) = Some x → cs = [].
Proof.
  intros Hc Hnd Hcs Hl. destruct cs as [|p cs] using rev_ind; [done|]. exfalso.
  rewrite Hcs in Hl. unfold last_cell in Hl. rewrite app_comm_cons, last_snoc in Hl.
  destruct p as [y d]. injection Hl as ->.
  destruct (cells_head_ne _ _ _ _ _ _ Hc Hcs) as [(-> & _)|[Hx He]].
  - apply (cells_anchor_ne sg c l c d Hc); [rewrite Hcs; simpl; set_solver|done].
  - destruct l as [|b l]; [done|]. specialize (He (Next b)). simpl in He, Hcs.
    destruct (snm sg b); [by injection Hcs as <- _ _|].
    pose proof (cells_fst_nodup sg b l Hnd) as Hf. rewrite Hcs in Hf. simpl in Hf.
    apply NoDup_cons in Hf as [Hf _]. apply Hf. rewrite fmap_app. simpl. set_solver.
Qed.

End links.
