(* ===== verification/SigOps.v ===== *)
(** The signal queues of a process together: which signals are in which queue,
    the rules of the memory accesses, and what splicing one queue to the end of
    another does to all of them. *)

From stdpp Require Import base numbers list gmap sets.
From Stdlib Require Import ZArith Lia.
From S2P Require Import Prelude PonPremise RecvMarker SigQueue SigInv.

(** ** The rules of the memory accesses *)

(** [*l = p] on the state. *)
Definition set_link (l : link) (p : option positive) (σ : sqs) : sqs :=
  match l with
  | InqFirst i => σ <| inqs ::= alter (λ q, q <| q_first := p |>) i |>
  | QsFirst => σ <| qs ::= λ x, x <| qs_first := p |> |>
  | QsCont => σ <| qs ::= λ x, x <| qs_cont := p |> |>
  | Next a => σ <| sigs ::= alter (λ s, s <| s_next := p |>) a |>
  end.

Definition link_valid (σ : sqs) (l : link) : Prop :=
  match l with
  | InqFirst i => is_Some (inqs σ !! i)
  | Next a => is_Some (sigs σ !! a)
  | _ => True
  end.

Section rules.
Implicit Types σ : sqs.

Lemma wp_load_s a s (Q : ErtsSignal → sqs → Prop) σ : sigs σ !! a = Some s → Q s σ → wp (load_s a) Q σ.
Proof. intros Ha HQ. unfold load_s. by wp_steps. Qed.

Lemma wp_upd_s a f (Q : unit → sqs → Prop) σ :
  is_Some (sigs σ !! a) → Q tt (σ <| sigs ::= alter f a |>) → wp (upd_s a f) Q σ.
Proof. intros [s Ha] HQ. unfold upd_s. wp_step. eapply wp_load_s; [done|]. by apply wp_modify. Qed.

Lemma wp_load_q i q (Q : ErtsSignalInQueue → sqs → Prop) σ : inqs σ !! i = Some q → Q q σ → wp (load_q i) Q σ.
Proof. intros Hq HQ. unfold load_q. by wp_steps. Qed.

Lemma wp_upd_q i f (Q : unit → sqs → Prop) σ :
  is_Some (inqs σ !! i) → Q tt (σ <| inqs ::= alter f i |>) → wp (upd_q i f) Q σ.
Proof. intros [q Hq] HQ. unfold upd_q. wp_step. eapply wp_load_q; [done|]. by apply wp_modify. Qed.

Lemma wp_upd_q_ins i f q (Q : unit → sqs → Prop) σ :
  inqs σ !! i = Some q → Q tt (σ <| inqs ::= <[i := f q]> |>) → wp (upd_q i f) Q σ.
Proof.
  intros Hq HQ. apply wp_upd_q; [by rewrite Hq|]. destruct σ. cbn in *.
  match goal with |- Q tt (mkSqs _ (alter f i ?m) _ _ _ _ _ _ _ _) =>
    replace (alter f i m) with (<[i := f q]> m); [done|] end.
  rewrite <- (insert_id _ _ _ Hq) at 2. by rewrite alter_insert_eq.
Qed.

Lemma wp_get_qs (Q : ErtsSignalPrivQueues → sqs → Prop) σ : Q (qs σ) σ → wp get_qs Q σ.
Proof. intros HQ. unfold get_qs. by wp_steps. Qed.

Lemma wp_upd_qs f (Q : unit → sqs → Prop) σ : Q tt (σ <| qs ::= f |>) → wp (upd_qs f) Q σ.
Proof. intros HQ. by apply wp_modify. Qed.

Lemma wp_upd_flgs f (Q : unit → sqs → Prop) σ : Q tt (σ <| psflgs ::= f |>) → wp (upd_flgs f) Q σ.
Proof. intros HQ. by apply wp_modify. Qed.

Lemma wp_get_bufs b (Q : ErtsSignalInQueueBufferArray → sqs → Prop) σ :
  bufs σ = Some b → Q b σ → wp get_bufs Q σ.
Proof. intros Hb HQ. unfold get_bufs. by wp_steps. Qed.

Lemma wp_upd_bufs f b (Q : unit → sqs → Prop) σ :
  bufs σ = Some b → Q tt (σ <| bufs := Some (f b) |>) → wp (upd_bufs f) Q σ.
Proof. intros Hb HQ. unfold upd_bufs. wp_step. eapply wp_get_bufs; [done|]. by apply wp_modify. Qed.

Lemma wp_write_link l p (Q : unit → sqs → Prop) σ :
  link_valid σ l → Q tt (set_link l p σ) → wp (write_link l p) Q σ.
Proof.
  intros Hl HQ. destruct l; simpl in *; [by apply wp_upd_q|by apply wp_upd_qs..|by apply wp_upd_s].
Qed.

(** *** Projections of the updates *)

Lemma inqs_set_link l p σ i :
  inqs (set_link l p σ) !! i =
  if decide (l = InqFirst i) then (λ q, q <| q_first := p |>) <$> inqs σ !! i else inqs σ !! i.
Proof.
  destruct l as [j| | |a]; simpl; try done.
  case_decide as Hd; [injection Hd as ->; by rewrite lookup_alter_eq|rewrite lookup_alter_ne; congruence].
Qed.

Lemma sigs_set_link l p σ :
  sigs (set_link l p σ) = match l with Next a => alter (λ s, s <| s_next := p |>) a (sigs σ) | _ => sigs σ end.
Proof. by destruct l. Qed.

Lemma qs_set_link l p σ :
  qs (set_link l p σ) = match l with
                        | QsFirst => (qs σ) <| qs_first := p |>
                        | QsCont => (qs σ) <| qs_cont := p |>
                        | _ => qs σ
                        end.
Proof. by destruct l. Qed.

Lemma bufs_set_link l p σ : bufs (set_link l p σ) = bufs σ.
Proof. by destruct l. Qed.

Lemma view_alter {A} (v : ErtsSignal → A) f a (sg : gmap positive ErtsSignal) c :
  v <$> alter f a sg !! c = if decide (c = a) then (λ s, v (f s)) <$> sg !! c else v <$> sg !! c.
Proof.
  case_decide as Hc; [subst|by rewrite lookup_alter_ne].
  rewrite lookup_alter_eq. by destruct (sg !! a).
Qed.

Lemma view_alter_id {A} (v : ErtsSignal → A) f a (sg : gmap positive ErtsSignal) c :
  (∀ s, v (f s) = v s) → v <$> alter f a sg !! c = v <$> sg !! c.
Proof.
  intros Hv. destruct (decide (c = a)) as [->|]; [|by rewrite lookup_alter_ne].
  rewrite lookup_alter_eq. destruct (sg !! a); simpl; by rewrite ?Hv.
Qed.

Lemma snm_alter f a sg c : (∀ s, s_nmsg (f s) = s_nmsg s) → snm (alter f a sg) c = snm sg c.
Proof.
  intros Hf. unfold snm. destruct (decide (c = a)) as [->|Hc]; [|by rewrite lookup_alter_ne].
  rewrite lookup_alter_eq. destruct (sg !! a); simpl; by rewrite ?Hf.
Qed.

End rules.

(** The views of a store after an update of one signal. *)
Ltac views := unfold snx, ssp, smo in *; repeat (rewrite view_alter || rewrite snm_alter by done).

(** ** The queues *)

Inductive region : Type := RInq (i : nat) | RInner | RCont.

#[global] Instance region_eq_dec : EqDecision region.
Proof. solve_decision. Defined.

Definition anchor_of (r : region) : link :=
  match r with RInq i => InqFirst i | RInner => QsFirst | RCont => QsCont end.

Lemma anchor_of_anchor r : anchor (anchor_of r).
Proof. by destruct r. Qed.

Lemma anchor_of_inj r r' : anchor_of r = anchor_of r' → r = r'.
Proof. destruct r, r'; simpl; congruence. Qed.

Record qview : Type := mkView {
  v_first : option positive;
  v_last : link;
  v_nn : option link;
  v_nl : option link;
  v_off : Z
}.

Definition view_q (q : ErtsSignalInQueue) : qview :=
  mkView (q_first q) (q_last q) (q_nm_next q) (q_nm_last q) (q_mlenoffs q).

Definition view (σ : sqs) (r : region) : option qview :=
  match r with
  | RInq i => view_q <$> inqs σ !! i
  | RInner => Some (mkView (qs_first (qs σ)) (qs_last (qs σ)) None None (mq_len (qs σ)))
  | RCont => Some (mkView (qs_cont (qs σ)) (qs_cont_last (qs σ)) (qs_nm_next (qs σ))
                          (qs_nm_last (qs σ)) (qs_mlenoffs (qs σ)))
  end.

(** The queue of a slot is in use while the slot is alive. *)
Definition live (σ : sqs) (r : region) : bool :=
  match r with
  | RInq (S i) => match bufs σ with
                  | Some b => match b_slots b !! i with Some (alive, _) => alive | None => false end
                  | None => false
                  end
  | _ => true
  end.

Definition vrep (sg : gmap positive ErtsSignal) (r : region) (v : qview) (l : list positive) : Prop :=
  rep sg (anchor_of r) (v_first v) (v_last v) (v_nn v) (v_nl v) (v_off v) l.

Record queues_ok (σ : sqs) (C : region → list positive) : Prop := {
  qo_rep : ∀ r, live σ r = true → ∃ v, view σ r = Some v ∧ vrep (sigs σ) r v (C r);
  qo_dead : ∀ r, live σ r = false → C r = [];
  qo_disj : ∀ r r' a, a ∈ C r → a ∈ C r' → r = r'
}.

Definition empty_view (r : region) : qview := mkView None (anchor_of r) None None 0.

Lemma vrep_empty sg r : vrep sg r (empty_view r) [].
Proof. constructor; try done. constructor. Qed.

Lemma vrep_empty_inv sg r v : vrep sg r v [] → v = empty_view r.
Proof. intros [H1 _ H3 H4 H5 _ H7]. destruct v as [f e nn nl off]. simpl in *. by subst. Qed.

Lemma vrep_first sg r v l : vrep sg r v l → v_first v = head l.
Proof. intros H. apply lseg_head_None with (nx := snx sg), H. Qed.

(** ** Splicing the list [l2] to the end of a queue *)

Record spliced (sg sg' : gmap positive ErtsSignal) (c : link) (l1 l2 : list positive)
    (f2 : option positive) : Prop := {
  sl_nx : ∀ a, a ∈ l1 ++ l2 → snx sg' a = if decide (last l1 = Some a) then Some f2 else snx sg a;
  sl_ct : ∀ a, sct sg' a = sct sg a;
  sl_sp : ∀ a, a ∈ l1 ++ l2 → ssp sg' a =
     if decide (snd <$> last (cells sg c l1) = Some a ∧ cells sg (end_cell c l1) l2 ≠ [])
     then Some (first_cell (cells sg (end_cell c l1) l2)) else ssp sg a;
  sl_out : ∀ a, a ∉ l1 → a ∉ l2 → sg' !! a = sg !! a
}.

(** The view of the queue [v] after the splice; [n] messages are behind its last
    non-message signal. *)
Definition splice_view (sg : gmap positive ErtsSignal) (v : qview) (l1 : list positive)
    (f2 : option positive) (l2 : list positive) (n : Z) : qview :=
  let cs := cells sg (v_last v) l2 in
  mkView (match l1 with [] => f2 | _ => v_first v end) (end_cell (v_last v) l2)
    (match v_nn v with None => first_cell cs | c => c end)
    (match cs with [] => v_nl v | _ => last_cell cs end) n.

Lemma vrep_splice sg sg' r v f2 l1 l2 c2 n :
  vrep sg r v l1 → l2 ≠ [] → NoDup l2 → (∀ a, a ∈ l1 → a ∉ l2) →
  lseg (snx sg) f2 l2 None → nmchain sg (cells sg c2 l2) None →
  spliced sg sg' (anchor_of r) l1 l2 f2 → offs sg' 0 (l1 ++ l2) n →
  vrep sg' r (splice_view sg v l1 f2 l2 n) (l1 ++ l2).
Proof.
  intros Hr Hne Hnd Hdis Hl2 Hch Hs Hoff. unfold vrep, splice_view.
  pose proof (rp_end _ _ _ _ _ _ _ _ Hr) as He. pose proof (rp_next _ _ _ _ _ _ _ _ Hr) as Hnn.
  destruct v as [f1 e nn nl off]. cbn in *. subst e.
  pose proof (rep_splice sg sg' (anchor_of r) f1 nn nl off l1 f2 c2 l2 n Hr Hne Hnd Hdis Hl2 Hch
                (sl_nx _ _ _ _ _ _ Hs) (λ a _, snm_sct _ _ _ (sl_ct _ _ _ _ _ _ Hs a)) (sl_sp _ _ _ _ _ _ Hs) Hoff) as Hres.
  rewrite Hnn in Hres |- *.
  by destruct (cells sg (anchor_of r) l1) as [|[]], (cells sg (end_cell (anchor_of r) l1) l2).
Qed.

(** The list [l2] moves to the end of queue [r1]; other queues stay or are emptied. *)
Lemma queues_ok_splice σ σ' C C' r1 v1 f2 l2 c2 n :
  queues_ok σ C → live σ r1 = true → view σ r1 = Some v1 →
  l2 ≠ [] → NoDup l2 → (∀ a, a ∈ C r1 → a ∉ l2) →
  lseg (snx (sigs σ)) f2 l2 None → nmchain (sigs σ) (cells (sigs σ) c2 l2) None →
  spliced (sigs σ) (sigs σ') (anchor_of r1) (C r1) l2 f2 → offs (sigs σ') 0 (C r1 ++ l2) n →
  view σ' r1 = Some (splice_view (sigs σ) v1 (C r1) f2 l2 n) →
  C' r1 = C r1 ++ l2 →
  (∀ r, r ≠ r1 → live σ' r = false → C' r = []) →
  (∀ r, r ≠ r1 → live σ' r = true →
     (C' r = [] ∧ view σ' r = Some (empty_view r)) ∨
     (live σ r = true ∧ C' r = C r ∧ view σ' r = view σ r ∧ ∀ a, a ∈ C r → a ∉ l2)) →
  live σ' r1 = true →
  queues_ok σ' C'.
Proof.
  intros HC Hlv Hv1 Hne Hnd Hdis Hseg Hch Hs Hoff Hv' HC1 Hdead Hkeep Hlv'.
  assert (∀ r a, r ≠ r1 → a ∈ C' r → a ∈ C r ∧ a ∉ l2) as Hold.
  { intros r a Hr Ha. destruct (live σ' r) eqn:Hl; [|by rewrite Hdead in Ha by done; apply not_elem_of_nil in Ha].
    destruct (Hkeep r Hr Hl) as [[He _]|(_ & He & _ & Hn)]; rewrite He in Ha;
      [by apply not_elem_of_nil in Ha|auto]. }
  constructor.
  - intros r Hl. destruct (decide (r = r1)) as [->|Hr].
    + exists (splice_view (sigs σ) v1 (C r1) f2 l2 n). split; [done|]. rewrite HC1.
      destruct (qo_rep σ C HC r1 Hlv) as (v & Hv & Hrep). rewrite Hv1 in Hv. injection Hv as <-.
      by eapply vrep_splice.
    + destruct (Hkeep r Hr Hl) as [[-> Hv]|(Hlr & -> & Hv & Hn)].
      * exists (empty_view r). split; [done|apply vrep_empty].
      * destruct (qo_rep σ C HC r Hlr) as (v & Hvr & Hrep). exists v. split; [congruence|].
        eapply rep_ext; [done|]. intros a Ha. apply Hs; [|by apply Hn].
        intros Ha1. by apply Hr, (qo_disj σ C HC r r1 a).
  - intros r Hl. destruct (decide (r = r1)) as [->|Hr]; [congruence|by apply Hdead].
  - intros r r' a Ha Ha'.
    destruct (decide (r = r1)) as [->|Hr], (decide (r' = r1)) as [->|Hr']; [done|..].
    + apply Hold in Ha' as [Ha' Hn]; [|done]. rewrite HC1 in Ha. apply elem_of_app in Ha as [Ha|Ha]; [|done].
      by apply (qo_disj σ C HC r1 r' a).
    + apply Hold in Ha as [Ha Hn]; [|done]. rewrite HC1 in Ha'. apply elem_of_app in Ha' as [Ha'|Ha']; [|done].
      by apply (qo_disj σ C HC r r1 a).
    + apply Hold in Ha as [Ha _]; [|done]. apply Hold in Ha' as [Ha' _]; [|done].
      by apply (qo_disj σ C HC r r' a).
Qed.

(** An operation that touches no queue. *)
Lemma queues_ok_same σ σ' C :
  queues_ok σ C → (∀ r, live σ' r = live σ r) → (∀ r, live σ r = true → view σ' r = view σ r) →
  (∀ r a, a ∈ C r → sigs σ' !! a = sigs σ !! a) → queues_ok σ' C.
Proof.
  intros HC Hl Hv Hs. constructor; [|intros r; rewrite Hl|]; try apply HC.
  intros r Hlr. rewrite Hl in Hlr. destruct (qo_rep σ C HC r Hlr) as (v & Hvr & Hrep).
  exists v. rewrite Hv by done. split; [done|]. eapply rep_ext; [done|]. intros a Ha. by apply (Hs r).
Qed.

(** The counts after a splice, when the first non-message signal of [l2] gets the
    [k] messages at the end of [l1] added. *)
Lemma offs_splice sg sg' c l1 l2 k off :
  offs sg 0 l1 k → offs sg 0 l2 off → NoDup l2 → (∀ a, a ∈ l1 → a ∉ l2) →
  (∀ a, snm sg' a = snm sg a) →
  (∀ a, a ∈ l1 ++ l2 → smo sg' a = if decide (snd <$> head (cells sg c l2) = Some a)
                                  then (λ m, m + k)%Z <$> smo sg a else smo sg a) →
  offs sg' 0 (l1 ++ l2) (match cells sg c l2 with [] => (off + k)%Z | _ => off end).
Proof.
  intros H1 H2 Hnd Hdis Hnm Hmo. apply offs_app. exists k. split.
  - eapply offs_ext; [|done]. intros a Ha. split; [done|]. rewrite Hmo by set_solver.
    rewrite decide_False; [done|]. intros Hh. apply fmap_Some in Hh as ([x b] & Hh & ->).
    apply head_Some_elem_of in Hh. apply cells_elem in Hh as [Hh _]. by apply (Hdis b).
  - eapply (offs_shift sg sg' c 0 l2 off k); [done|done| |]; intros a Ha; [done|]. apply Hmo. set_solver.
Qed.
