(* ===== verification/SigConcat.v ===== *)
(** Appending one in-queue to another, and enqueueing a chain of signals. *)

From stdpp Require Import base numbers list gmap sets.
From Stdlib Require Import ZArith Lia.
From S2P Require Import Prelude PonPremise RecvMarker SigQueue SigInv SigOps.

(** The last signal of a queue is linked to [p]. *)
Definition link_last (o : option positive) (p : option positive) (sg : gmap positive ErtsSignal) :
    gmap positive ErtsSignal :=
  match o with Some a => alter (λ s, s <| s_next := p |>) a sg | None => sg end.

Section concat.
Implicit Types σ : sqs.
Implicit Types sg : gmap positive ErtsSignal.

Lemma lseg_dom sg f l q a : lseg (snx sg) f l q → a ∈ l → is_Some (sg !! a).
Proof.
  revert f. induction l as [|b l IH]; intros f; simpl; [set_solver|].
  intros (-> & p & Hb & Hl) [->|Ha]%elem_of_cons; [|by eapply IH].
  unfold snx in Hb. apply fmap_Some in Hb as (s & -> & _). done.
Qed.

(** [sgm]: the store before the last signal of [l1] is linked. *)
Lemma spliced_link sg sgm c l1 l2 f1 f2 :
  lseg (snx sg) f1 l1 None →
  (∀ a, snx sgm a = snx sg a) → (∀ a, sct sgm a = sct sg a) →
  (∀ a, ssp sgm a =
     if decide (snd <$> last (cells sg c l1) = Some a ∧ cells sg (end_cell c l1) l2 ≠ [])
     then Some (first_cell (cells sg (end_cell c l1) l2)) else ssp sg a) →
  (∀ a, a ∉ l1 → a ∉ l2 → sgm !! a = sg !! a) →
  spliced sg (link_last (last l1) f2 sgm) c l1 l2 f2.
Proof.
  intros Hseg Hnx Hct Hsp Hout. unfold link_last. destruct (last l1) as [b|] eqn:Hb.
  - assert (b ∈ l1) as Hin by by apply last_Some_elem_of.
    assert (is_Some (sgm !! b)) as [s Hs] by (apply (sct_dom sg); [apply Hct|by eapply lseg_dom]).
    constructor.
    + intros a _. rewrite Hb. destruct (decide (Some b = Some a)) as [[= ->]|Hne].
      * unfold snx. rewrite view_alter, decide_True by done. by rewrite Hs.
      * unfold snx. rewrite view_alter, decide_False by congruence. apply Hnx.
    + intros a. rewrite <- Hct. by apply view_alter_id.
    + intros a _. rewrite <- Hsp. apply view_alter_id. done.
    + intros a Ha1 Ha2. rewrite lookup_alter_ne by congruence. by apply Hout.
  - constructor; [|done|by intros a _; apply Hsp|done].
    intros a _. rewrite Hb, decide_False by done. apply Hnx.
Qed.

Lemma smo_link_last o p sg a : smo (link_last o p sg) a = smo sg a.
Proof. destruct o; [|done]. by apply view_alter_id. Qed.

Lemma sct_link_last o p sg a : sct (link_last o p sg) a = sct sg a.
Proof. destruct o; [|done]. by apply view_alter_id. Qed.

Lemma snm_link_last o p sg a : snm (link_last o p sg) a = snm sg a.
Proof. apply snm_sct, sct_link_last. Qed.

(** The link that ends a queue is valid. *)
Lemma end_valid σ r v l : view σ r = Some v → vrep (sigs σ) r v l → link_valid σ (end_cell (anchor_of r) l).
Proof.
  intros Hv Hr. unfold end_cell. destruct (last l) as [a|] eqn:Ha.
  - simpl. eapply lseg_dom; [apply Hr|by apply last_Some_elem_of].
  - destruct r; simpl in *; [|done..]. apply fmap_Some in Hv as (q & -> & _). done.
Qed.

(** A link to a non-message signal of a list; the link [c] that the list starts
    with is read. *)
Lemma wp_pointee_at σ c f l q x a (Q : positive → sqs → Prop) :
  (∀ Q' : option positive → sqs → Prop, Q' f σ → wp (read_link c) Q' σ) →
  lseg (snx (sigs σ)) f l q → (x, a) ∈ cells (sigs σ) c l →
  Q a σ → wp (pointee (Some x)) Q σ.
Proof.
  intros Hc Hs Hin HQ. unfold pointee. wp_step. apply wp_deref with (x := x); [done|]. wp_step.
  assert (∀ Q', Q' (Some a) σ → wp (read_link x) Q' σ) as Hread.
  { intros Q' HQ'. destruct (cells_read _ _ _ _ _ _ _ Hs Hin) as [[-> ->]|(b & -> & Hb)]; [by apply Hc|].
    simpl. unfold snx in Hb. apply fmap_Some in Hb as (s & Hb & He). wp_step.
    eapply wp_load_s; [done|]. apply wp_ret. by rewrite <- He. }
  apply Hread. by apply wp_deref with (x := a).
Qed.

Lemma wp_pointee σ r v l x a (Q : positive → sqs → Prop) :
  view σ r = Some v → vrep (sigs σ) r v l → (x, a) ∈ cells (sigs σ) (anchor_of r) l →
  Q a σ → wp (pointee (Some x)) Q σ.
Proof.
  intros Hv Hr Hin HQ. eapply wp_pointee_at; [|apply Hr|done|done].
  intros Q' HQ'. destruct r as [i| |]; simpl in *.
  - apply fmap_Some in Hv as (q & Hq & ->). wp_step. eapply wp_load_q; [done|]. by apply wp_ret.
  - injection Hv as <-. wp_step. by apply wp_get_qs, wp_ret.
  - injection Hv as <-. wp_step. by apply wp_get_qs, wp_ret.
Qed.

(** The link at the end of a queue is written. *)
Lemma wp_append_link i l q f2 (Q : unit → sqs → Prop) σ :
  inqs σ !! i = Some q → q_last q = end_cell (InqFirst i) l →
  (∀ a, last l = Some a → is_Some (sigs σ !! a)) →
  Q tt (σ <| sigs := link_last (last l) f2 (sigs σ) |>
          <| inqs ::= <[i := q <| q_first := match l with [] => f2 | _ => q_first q end |>]> |>) →
  wp (write_link (q_last q) f2) Q σ.
Proof.
  intros Hq He Hv HQ. apply wp_write_link.
  { rewrite He. unfold end_cell. destruct (last l); simpl; [by apply Hv|by rewrite Hq]. }
  rewrite He. destruct σ. destruct l as [|x l _] using rev_ind; cbn in *.
  - match type of HQ with Q tt (mkSqs _ (<[i := ?a]> ?m) _ _ _ _ _ _ _ _) =>
      match goal with |- Q tt (mkSqs _ (alter ?f i m) _ _ _ _ _ _ _ _) =>
        replace (alter f i m) with (<[i := a]> m); [done|] end end.
    apply map_eq. intros j. destruct (decide (j = i)) as [->|].
    + by rewrite lookup_insert_eq, lookup_alter_eq, Hq.
    + by rewrite lookup_insert_ne, lookup_alter_ne.
  - unfold end_cell. rewrite last_snoc in *. cbn in *. destruct q. cbn in *.
    match type of HQ with Q tt (mkSqs _ (<[i := ?a]> ?m) _ _ _ _ _ _ _ _) =>
      replace (<[i := a]> m) with m in HQ; [done|] end.
    rewrite insert_id; [done|]. rewrite Hq. by destruct l.
Qed.

Lemma wp_concat_tail i l q f2 e2 (Q : unit → sqs → Prop) σ :
  inqs σ !! i = Some q → q_last q = end_cell (InqFirst i) l →
  (∀ a, last l = Some a → is_Some (sigs σ !! a)) →
  Q tt (σ <| sigs := link_last (last l) f2 (sigs σ) |>
          <| inqs ::= <[i := q <| q_first := match l with [] => f2 | _ => q_first q end |> <| q_last := e2 |>]> |>) →
  wp (q1 ← load_q i; _ ← write_link (q_last q1) f2; upd_q i (λ q, q <| q_last := e2 |>)) Q σ.
Proof.
  intros Hq He Hv HQ. wp_step. eapply wp_load_q; [done|]. wp_step. eapply wp_append_link; [done..|].
  eapply wp_upd_q_ins; [cbn; by rewrite lookup_insert_eq|]. cbn. by rewrite insert_insert_eq.
Qed.

(** The links to the non-message signals of [q1] when those of [q2] follow; [c] is
    the link to the first of them, [i2] the number of [q2]. *)
Lemma wp_concat_nm i1 i2 q1 q2 l1 l2 c x2 a2 cs2 (Q : unit → sqs → Prop) σ :
  inqs σ !! i1 = Some q1 → vrep (sigs σ) (RInq i1) (view_q q1) l1 →
  vrep (sigs σ) (RInq i2) (view_q q2) l2 →
  cells (sigs σ) (InqFirst i2) l2 = (x2, a2) :: cs2 →
  c = (if decide (x2 = InqFirst i2) then q_last q1 else x2) →
  let cs := cells (sigs σ) (q_last q1) l2 in
  first_cell cs = Some c →
  (∀ sgm, (∀ a, snx sgm a = snx (sigs σ) a) → (∀ a, sct sgm a = sct (sigs σ) a) →
     (∀ a, smo sgm a = smo (sigs σ) a) →
     (∀ a, ssp sgm a = if decide (snd <$> last (cells (sigs σ) (InqFirst i1) l1) = Some a)
                       then Some (Some c) else ssp (sigs σ) a) →
     (∀ a, a ∉ l1 → sgm !! a = sigs σ !! a) →
     Q tt (σ <| sigs := sgm |>
             <| inqs ::= <[i1 := q1 <| q_nm_next := match q_nm_next q1 with None => Some c | x => x end |>
                                    <| q_nm_last := last_cell cs |>]> |>)) →
  wp (match q_nm_next q1 with
      | None =>
          _ ← upd_q i1 (λ q, q <| q_nm_next := Some c |>);
          if decide (Some x2 = q_nm_last q2)
          then upd_q i1 (λ q, q <| q_nm_last := q_nm_next q |>)
          else upd_q i1 (λ q, q <| q_nm_last := q_nm_last q2 |>)
      | Some _ =>
          sig ← pointee (q_nm_last q1);
          _ ← upd_s sig (λ s, s <| specific_next := Some c |>);
          if decide (q_nm_last q2 = Some (InqFirst i2))
          then upd_q i1 (λ q, q <| q_nm_last := Some c |>)
          else upd_q i1 (λ q, q <| q_nm_last := q_nm_last q2 |>)
      end) Q σ.
Proof.
  intros Hq1 Hr1 Hr2 Hcs2 Hc cs Hfc HQ.
  pose proof (rp_next _ _ _ _ _ _ _ _ Hr1) as Hn1. pose proof (rp_last _ _ _ _ _ _ _ _ Hr1) as Hl1.
  pose proof (rp_next _ _ _ _ _ _ _ _ Hr2) as Hn2. pose proof (rp_last _ _ _ _ _ _ _ _ Hr2) as Hl2.
  pose proof (rp_nodup _ _ _ _ _ _ _ _ Hr2) as Hnd2.
  pose proof (anchor_of_anchor (RInq i2)) as Hanc. simpl in *.
  pose proof (last_cell_move _ _ (q_last q1) _ _ _ _ Hanc Hcs2) as Hlc. fold cs in Hlc. rewrite <- Hl2 in Hlc.
  assert (Hend : q_nm_last q2 ≠ Some (InqFirst i2) → last_cell cs = q_nm_last q2).
  { intros Hx. by rewrite Hlc, decide_False. }
  destruct (q_nm_next q1) as [n1|] eqn:Hnn.
  - destruct (last (cells (sigs σ) (InqFirst i1) l1)) as [[y a1]|] eqn:Hla;
      [|apply last_None in Hla; by rewrite Hla in Hn1].
    unfold last_cell in Hl1. rewrite Hla in Hl1. cbn in Hl1. rewrite Hl1. apply last_Some_elem_of in Hla as Hin.
    wp_step. apply (wp_pointee σ (RInq i1) (view_q q1) l1 y a1); [cbn; by rewrite Hq1|done..|].
    apply cells_elem in Hin as [Hin _]. wp_step.
    apply wp_upd_s; [eapply lseg_dom; [exact (rp_seg _ _ _ _ _ _ _ _ Hr1)|done]|].
    assert (Hfin : ∀ o, o = last_cell cs → wp (upd_q i1 (λ q, q <| q_nm_last := o |>)) Q
        (σ <| sigs ::= alter (λ s, s <| specific_next := Some c |>) a1 |>)).
    { intros o ->. eapply wp_upd_q_ins; [done|]. specialize (HQ (alter (λ s, s <| specific_next := Some c |>) a1 (sigs σ))).
      destruct σ. cbn in *. rewrite <- Hnn in HQ. destruct q1. apply HQ.
      - intros a. by apply view_alter_id.
      - intros a. by apply view_alter_id.
      - intros a. by apply view_alter_id.
      - intros a. unfold ssp. rewrite view_alter. destruct (decide (a = a1)) as [->|Hne].
        + rewrite decide_True by done. destruct (lseg_dom _ _ _ _ _ (rp_seg _ _ _ _ _ _ _ _ Hr1) Hin) as [s Hs].
          cbn in Hs. by rewrite Hs.
        + by rewrite decide_False by congruence.
      - intros a Ha. rewrite lookup_alter_ne by congruence. done. }
    destruct (decide (q_nm_last q2 = _)) as [Hd|Hd]; apply Hfin; [|by rewrite Hend].
    rewrite Hlc, Hc. rewrite decide_True; [done|]. eapply last_cell_anchor; [exact Hanc|exact Hcs2|].
    by rewrite <- Hl2.
  - wp_step. eapply wp_upd_q_ins; [done|].
    destruct (cells (sigs σ) (InqFirst i1) l1) as [|[]] eqn:Hcs1; [|done].
    assert (Hfin : Q tt (σ <| inqs ::= <[i1 := q1 <| q_nm_next := Some c |> <| q_nm_last := last_cell cs |>]> |>)).
    { specialize (HQ (sigs σ)). destruct σ. apply HQ; try done. }
    destruct (decide (Some x2 = _)) as [Hd|Hd];
      (eapply wp_upd_q_ins; [cbn; by rewrite lookup_insert_eq|]; cbn; rewrite insert_insert_eq).
    + assert (cs2 = []) as ->.
      { eapply cells_single; [exact Hanc|exact Hnd2|exact Hcs2|]. by rewrite <- Hl2, <- Hd. }
      assert (last_cell cs = Some c) as Hx.
      { rewrite Hlc, <- Hd. subst c. repeat case_decide; congruence. }
      by rewrite Hx in Hfin.
    + rewrite <- Hend; [done|]. intros Hx. apply Hd.
      rewrite Hx. f_equal. eapply last_cell_anchor; [exact Hanc|exact Hcs2|by rewrite <- Hl2].
Qed.

(** Non-message signals in [l2], the first of them [a2]. *)
Lemma spliced_nm sg sg2 c l1 l2 f1 f2 a2 k off :
  lseg (snx sg) f1 l1 None → offs sg 0 l1 k → offs sg 0 l2 off → NoDup l2 → (∀ a, a ∈ l1 → a ∉ l2) →
  a2 ∈ l2 → snd <$> head (cells sg (end_cell c l1) l2) = Some a2 →
  (∀ a, snx sg2 a = snx sg a) → (∀ a, sct sg2 a = sct sg a) →
  (∀ a, smo sg2 a = if decide (a = a2) then (λ m, m + k)%Z <$> smo sg a else smo sg a) →
  (∀ a, ssp sg2 a = if decide (snd <$> last (cells sg c l1) = Some a)
                    then Some (first_cell (cells sg (end_cell c l1) l2)) else ssp sg a) →
  (∀ a, a ∉ l1 → a ≠ a2 → sg2 !! a = sg !! a) →
  spliced sg (link_last (last l1) f2 sg2) c l1 l2 f2 ∧ offs (link_last (last l1) f2 sg2) 0 (l1 ++ l2) off.
Proof.
  intros Hs1 Ho1 Ho2 Hnd2 Hdis Ha2 Hhd Hnx Hct Hmo Hsp Hout. split.
  - apply (spliced_link _ sg2 _ _ _ f1); [done..| |].
    + intros a. rewrite Hsp. apply decide_ext. split; [|tauto]. intros Ha. split; [done|].
      intros Hx. by rewrite Hx in Hhd.
    + intros a Ha Hb. apply Hout; [done|congruence].
  - pose proof (offs_splice sg (link_last (last l1) f2 sg2) (end_cell c l1) l1 l2 _ _ Ho1 Ho2 Hnd2 Hdis) as Hoff.
    destruct (cells sg (end_cell c l1) l2) as [|[]]; [done|]. apply Hoff; intros a.
    + rewrite snm_link_last. by apply snm_sct.
    + intros _. rewrite smo_link_last, Hhd, Hmo. apply decide_ext. naive_solver.
Qed.

Lemma wp_sig_inq_concat i1 i2 q1 q2 l1 l2 (Q : unit → sqs → Prop) σ :
  i1 ≠ i2 → inqs σ !! i1 = Some q1 → inqs σ !! i2 = Some q2 →
  vrep (sigs σ) (RInq i1) (view_q q1) l1 → vrep (sigs σ) (RInq i2) (view_q q2) l2 →
  (∀ a, a ∈ l1 → a ∉ l2) → l2 ≠ [] →
  (∀ sg' q, spliced (sigs σ) sg' (InqFirst i1) l1 l2 (q_first q2) → offs sg' 0 (l1 ++ l2) (q_mlenoffs q) →
     view_q q = splice_view (sigs σ) (view_q q1) l1 (q_first q2) l2 (q_mlenoffs q) →
     Q tt (σ <| sigs := sg' |> <| inqs ::= <[i1 := q]> |>)) →
  wp (sig_inq_concat i1 i2) Q σ.
Proof.
  intros Hne Hq1 Hq2 Hr1 Hr2 Hdis Hl2 HQ.
  pose proof Hr1 as [Hs1 Hnd1 He1 Hn1 Hl1 Hc1 Ho1]. pose proof Hr2 as [Hs2 Hnd2 He2 Hn2 Hla2 Hc2 Ho2].
  cbn in *.
  unfold sig_inq_concat. wp_step. eapply wp_load_q; [done|]. wp_step. eapply wp_load_q; [done|].
  set (c1 := InqFirst i1) in *. set (c2 := InqFirst i2) in *. set (sg := sigs σ) in *.
  assert (end_cell c2 l2 = end_cell (q_last q1) l2) as He.
  { unfold end_cell. destruct (last l2) eqn:Hx; [done|]. by apply last_None in Hx. }
  assert (∀ a, last l1 = Some a → is_Some (sg !! a)) as Hlast.
  { intros a Ha. eapply lseg_dom; [exact Hs1|by apply last_Some_elem_of]. }
  destruct (cells sg c2 l2) as [|[x2 a2] cs2] eqn:Hcs2.
  - assert (∀ c, cells sg c l2 = []) as Hno by (intros c; apply cells_none; by eapply cells_none).
    rewrite Hn2. cbn. wp_step. eapply wp_upd_q_ins; [done|].
    eapply (wp_concat_tail i1 l1); [cbn; by rewrite lookup_insert_eq|done|done|].
    cbn. rewrite insert_insert_eq. apply HQ; cbn.
    + apply (spliced_link _ sg _ _ _ (q_first q1)); try done. intros a. rewrite Hno.
      by rewrite decide_False by tauto.
    + pose proof (offs_splice sg (link_last (last l1) (q_first q2) sg) c1 l1 l2 _ _ Ho1 Ho2 Hnd2 Hdis) as Hoff.
      rewrite Hno in Hoff. rewrite Z.add_comm. apply Hoff; intros a; [apply snm_link_last|].
      intros _. rewrite smo_link_last. by rewrite decide_False.
    + unfold splice_view, view_q. cbn. rewrite Hno, <- He, <- He2. by destruct (q_nm_next q1).
  - assert (Hin : (x2, a2) ∈ cells sg c2 l2) by (rewrite Hcs2; left).
    assert (Ha2 : a2 ∈ l2) by by apply cells_elem in Hin as [? _].
    assert (Hn2' : q_nm_next q2 = Some x2) by by rewrite Hn2.
    rewrite Hn2'. wp_step. cbn. wp_step. apply (wp_pointee σ (RInq i2) (view_q q2) l2 x2 a2); [cbn; by rewrite Hq2|done..|].
    set (c := if decide (x2 = c2) then q_last q1 else x2).
    assert (Hfc : first_cell (cells sg (q_last q1) l2) = Some c)
      by exact (first_cell_move sg c2 (q_last q1) l2 x2 a2 cs2 (anchor_of_anchor (RInq i2)) Hcs2).
    assert (Hhd : snd <$> head (cells sg (end_cell c1 l1) l2) = Some a2)
      by (rewrite (cells_head_move sg _ c2), Hcs2; done).
    assert (Hcne : cells sg (end_cell c1 l1) l2 ≠ []) by (intros Hx; by rewrite Hx in Hhd).
    wp_step. eapply (wp_concat_nm i1 i2 q1 q2 l1 l2 c x2 a2 cs2); [done..|].
    intros sgm Hnx Hct Hmo Hsp Hout. cbv beta. wp_step. eapply wp_load_q; [cbn; by rewrite lookup_insert_eq|].
    wp_step. apply wp_upd_s; [cbn; apply (sct_dom sg); [apply Hct|by eapply lseg_dom; [exact Hs2|]]|].
    eapply wp_upd_q_ins; [cbn; by rewrite lookup_insert_eq|]. cbn. rewrite insert_insert_eq.
    eapply (wp_concat_tail i1 l1); [cbn; by rewrite lookup_insert_eq|done| |].
    { cbn. intros a Ha. apply (sct_dom sgm); [by apply view_alter_id|]. apply (sct_dom sg); [apply Hct|by apply Hlast]. }
    cbn. rewrite insert_insert_eq. match goal with |- context [alter ?f a2 sgm] => set (sg2 := alter f a2 sgm) end.
    destruct (spliced_nm sg sg2 c1 l1 l2 (q_first q1) (q_first q2) a2 (q_mlenoffs q1) (q_mlenoffs q2))
      as [Hspl Hoff]; [done..| | | | | |apply HQ; [done|done|]; cbn]; try intros a.
    + rewrite <- Hnx. by apply view_alter_id.
    + rewrite <- Hct. by apply view_alter_id.
    + unfold sg2, smo. rewrite view_alter. specialize (Hmo a). unfold smo in Hmo. fold sg in Hmo. rewrite <- Hmo.
      case_decide; [by destruct (sgm !! a)|done].
    + rewrite <- He1, Hfc. transitivity (ssp sgm a); [by apply view_alter_id|]. by rewrite Hsp.
    + intros Ha Hb. unfold sg2. rewrite lookup_alter_ne by congruence. by apply Hout.
    + unfold splice_view, view_q. cbn. fold sg. rewrite <- He, He2, Hfc. rewrite <- He1 in Hcne.
      by destruct (cells sg (q_last q1) l2).
Qed.

End concat.
