(* ===== verification/SigEnqueue.v ===== *)
(** Enqueueing one message ([LINK_MESSAGE]) and chains of signals
    ([enqueue_signals]) in an in-queue. *)

From stdpp Require Import base numbers list gmap sets.
From Stdlib Require Import ZArith Lia.
From S2P Require Import Prelude PonPremise RecvMarker SigQueue SigInv SigOps SigConcat.

Section enqueue.
Implicit Types σ : sqs.
Implicit Types sg : gmap positive ErtsSignal.

(** What a sender passes to [enqueue_signals]: messages only, or a non-message
    signal with the signals behind it. [last_next] is the link to the last of two
    or more non-message signals, [num_msgs] messages are at the end. *)
Record chain sg (first : positive) (lst : link) (last_next : option link) (num_msgs : Z)
    (l : list positive) : Prop := {
  ch_seg : lseg (snx sg) (Some first) l None;
  ch_nodup : NoDup l;
  ch_last : ∀ c, end_cell c l = lst;
  ch_nonmsg : snm sg first = true →
    nmchain sg (cells sg QsFirst l) None ∧ offs sg 0 (tail l) num_msgs ∧
    last_next = last_cell (cells sg (Next first) (tail l));
  ch_msg : snm sg first = false →
    (∀ a, a ∈ l → snm sg a = false) ∧ num_msgs = Z.of_nat (length l) ∧ last_next = None;
  ch_flag : ∀ a, a ∈ l → snm sg a = false → num_msgs ≠ 0%Z
}.

Lemma chain_first sg first lst ln n l : chain sg first lst ln n l → ∃ l', l = first :: l'.
Proof.
  intros H. destruct l as [|a l]; [by pose proof (ch_seg _ _ _ _ _ _ H)|].
  destruct (ch_seg _ _ _ _ _ _ H) as ([= ->] & _). by exists l.
Qed.

(** A single message is a chain. *)
Lemma chain_one sg a : snx sg a = Some None → snm sg a = false → chain sg a (Next a) None 1 [a].
Proof.
  intros Hx Hn. constructor.
  - simpl. eauto.
  - apply NoDup_singleton.
  - done.
  - congruence.
  - intros _. split_and!; [|done..]. set_solver.
  - done.
Qed.

Lemma chain_ext sg sg' f lst ln n l :
  chain sg f lst ln n l → (∀ a, a ∈ l → sg' !! a = sg !! a) → chain sg' f lst ln n l.
Proof.
  intros Hc Hs. destruct (chain_first _ _ _ _ _ _ Hc) as [l' ->].
  assert (∀ a, a ∈ f :: l' → snm sg' a = snm sg a) as Hnm by (intros a Ha; unfold snm; by rewrite Hs).
  destruct Hc as [H1 H2 H3 H4 H5 H6]. assert (f ∈ f :: l') as Hf by left. constructor; try done.
  - eapply lseg_frame; [|done]. intros a Ha. unfold snx. by rewrite Hs.
  - rewrite Hnm by done. intros Hn. destruct (H4 Hn) as (Hch & Ho & Hln). split_and!.
    + rewrite (cells_ext sg) by done. eapply nmchain_ext; [|done].
      intros a ([x b] & -> & Hin)%list_elem_of_fmap. apply cells_elem in Hin as [Hin _]. unfold ssp. by rewrite Hs.
    + eapply offs_ext; [|done]. intros a Ha. unfold smo. rewrite Hnm, Hs by (by right). done.
    + cbn in *. rewrite (cells_ext sg); [done|]. intros a Ha. apply Hnm. by right.
  - rewrite Hnm by done. intros Hn. destruct (H5 Hn) as (Ha & ? & ?). split_and!; [|done..].
    intros a Hin. rewrite Hnm by done. by apply Ha.
  - intros a Ha. rewrite Hnm by done. by apply H6.
Qed.

(** The flags that an enqueue operation sets. *)
Definition enq_flags (q : ErtsSignalInQueue) (nmsig : bool) (num_msgs : Z) : Z :=
  let f := if decide (num_msgs = 0%Z) then 0%Z else ERTS_PSFLG_MSG_SIG_IN_Q in
  match q_nm_next q with
  | None => if nmsig then Z.lor f ERTS_PSFLG_NMSG_SIG_IN_Q else f
  | Some _ => f
  end.

Lemma lor_absorb x s : Z.land x s = s → Z.lor x s = x.
Proof.
  intros Hs. apply Z.bits_inj'. intros n _. rewrite Z.lor_spec. rewrite <- Hs at 1. rewrite Z.land_spec.
  destruct (Z.testbit x n), (Z.testbit s n); done.
Qed.

(** The last signal of a prefix is linked. *)
Lemma lseg_link_last sg f l f2 :
  lseg (snx sg) f l None → NoDup l → lseg (snx (link_last (last l) f2 sg)) (match l with [] => f2 | _ => f end) l f2.
Proof.
  intros Hl Hnd. destruct l as [|x l _] using rev_ind; [done|].
  assert (is_Some (sg !! x)) as [s Hs] by (eapply lseg_dom; [done|set_solver]).
  rewrite last_snoc. unfold link_last.
  assert (lseg (snx (alter (λ s, s <| s_next := f2 |>) x sg)) f (l ++ [x]) f2) as Hres; [|by destruct l].
  apply lseg_app in Hl as (r & Ha & -> & _). apply lseg_app. exists (Some x).
  apply NoDup_app in Hnd as (_ & Hx & _). split.
  - eapply lseg_frame; [|done]. intros a Hin. unfold snx. rewrite lookup_alter_ne; [done|]. intros ->. set_solver.
  - simpl. split; [done|]. exists f2. split; [|done]. unfold snx. by rewrite lookup_alter_eq, Hs.
Qed.

(** The part of [enqueue_signals] on the non-message signals; [sg] is the store
    before the chain was linked, [this] the link to its first signal. *)
Lemma wp_enqueue_nm sg dest q l1 first this nmsig set_flags (Q : Z → sqs → Prop) σ :
  inqs σ !! dest = Some q → NoDup l1 → first ∉ l1 → is_Some (sigs σ !! first) →
  lseg (snx (sigs σ)) (q_first q) l1 (Some first) → (∀ a, a ∈ l1 → snm (sigs σ) a = snm sg a) →
  q_nm_next q = first_cell (cells sg (InqFirst dest) l1) →
  q_nm_last q = last_cell (cells sg (InqFirst dest) l1) →
  (∀ sg2 q2, (∀ a, snx sg2 a = snx (sigs σ) a) → (∀ a, sct sg2 a = sct (sigs σ) a) →
     (∀ a, ssp sg2 a = if decide (nmsig = true ∧ snd <$> last (cells sg (InqFirst dest) l1) = Some a)
                       then Some (Some this) else ssp (sigs σ) a) →
     (∀ a, smo sg2 a = if decide (nmsig = true ∧ a = first) then Some (q_mlenoffs q) else smo (sigs σ) a) →
     (∀ a, a ∉ l1 → a ≠ first → sg2 !! a = sigs σ !! a) →
     q2 = (if nmsig then q <| q_nm_next := match q_nm_next q with None => Some this | c => c end |>
                           <| q_mlenoffs := 0%Z |> else q) →
     Q (match q_nm_next q with
        | None => if nmsig then Z.lor set_flags ERTS_PSFLG_NMSG_SIG_IN_Q else set_flags
        | Some _ => set_flags end) (σ <| sigs := sg2 |> <| inqs ::= <[dest := q2]> |>)) →
  wp (match q_nm_next q with
      | None =>
          if nmsig : bool then
            _ ← upd_q dest (λ q, q <| q_nm_next := Some this |>);
            _ ← upd_s first (λ s, s <| s_mlenoffs := q_mlenoffs q |>);
            _ ← upd_q dest (λ q, q <| q_mlenoffs := 0%Z |>);
            mret (Z.lor set_flags ERTS_PSFLG_NMSG_SIG_IN_Q)
          else mret set_flags
      | Some _ =>
          sig ← pointee (q_nm_last q);
          if nmsig : bool then
            _ ← upd_s sig (λ s, s <| specific_next := Some this |>);
            _ ← upd_s first (λ s, s <| s_mlenoffs := q_mlenoffs q |>);
            _ ← upd_q dest (λ q, q <| q_mlenoffs := 0%Z |>);
            mret set_flags
          else mret set_flags
      end) Q σ.
Proof.
  intros Hq Hnd Hf1 Hfd Hseg Hnm Hn1 Hl1 HQ.
  assert (Hid : <[dest := q]> (inqs σ) = inqs σ) by by apply insert_id.
  assert (Hkeep : nmsig = false → Q (match q_nm_next q with
        | None => if nmsig then Z.lor set_flags ERTS_PSFLG_NMSG_SIG_IN_Q else set_flags
        | Some _ => set_flags end) σ).
  { intros ->. specialize (HQ (sigs σ) q). destruct σ. cbn in *. rewrite Hid in HQ.
    apply HQ; try done; intros a; by rewrite decide_False by (intros [? _]). }
  assert (Hmlen : ∀ sgm, (∀ a, smo sgm a = smo (sigs σ) a) → is_Some (sgm !! first) → ∀ a,
    smo (alter (λ s, s <| s_mlenoffs := q_mlenoffs q |>) first sgm) a =
    if decide (true = true ∧ a = first) then Some (q_mlenoffs q) else smo (sigs σ) a).
  { intros sgm Hm [s Hs] a. unfold smo. rewrite view_alter. destruct (decide (a = first)) as [->|Hne].
    - rewrite decide_True by done. by rewrite Hs.
    - rewrite decide_False by tauto. apply Hm. }
  destruct (q_nm_next q) as [n1|] eqn:Hnn.
  - destruct (last (cells sg (InqFirst dest) l1)) as [[y a1]|] eqn:Hla;
      [|apply last_None in Hla; by rewrite Hla in Hn1].
    unfold last_cell in Hl1. rewrite Hla in Hl1. cbn in Hl1. rewrite Hl1. apply last_Some_elem_of in Hla as Hin.
    wp_step. apply (wp_pointee_at σ (InqFirst dest) (q_first q) l1 (Some first) y a1); [|done| |].
    { intros Q' HQ'. simpl. wp_step. eapply wp_load_q; [done|]. by apply wp_ret. }
    { by rewrite (cells_ext sg). }
    apply cells_elem in Hin as [Hin _]. destruct nmsig; [|wp_step; by apply Hkeep].
    assert (is_Some (sigs σ !! a1)) as Ha1 by (by eapply lseg_dom).
    wp_step. apply wp_upd_s; [done|]. wp_step. apply wp_upd_s.
    { cbn. rewrite lookup_alter_ne by (intros ->; done). done. }
    wp_step. eapply wp_upd_q_ins; [done|]. wp_step.
    set (sgm := alter (λ s, s <| specific_next := Some this |>) a1 (sigs σ)).
    specialize (HQ (alter (λ s, s <| s_mlenoffs := q_mlenoffs q |>) first sgm)).
    destruct σ. cbn in *. apply HQ.
    + intros a. transitivity (snx sgm a); by apply view_alter_id.
    + intros a. transitivity (sct sgm a); by apply view_alter_id.
    + intros a. transitivity (ssp sgm a); [by apply view_alter_id|]. unfold ssp, sgm. rewrite view_alter.
      destruct (decide (a = a1)) as [->|Hne]; [rewrite decide_True by done|by rewrite decide_False by naive_solver].
      destruct Ha1 as [s Hs]. by rewrite Hs.
    + apply Hmlen; [intros a; by apply view_alter_id|]. unfold sgm. rewrite lookup_alter_ne by congruence. done.
    + intros a Ha Hb. unfold sgm. rewrite !lookup_alter_ne by congruence. done.
    + destruct q. cbn in *. by subst.
  - destruct nmsig; [|wp_step; by apply Hkeep].
    wp_step. eapply wp_upd_q_ins; [done|]. wp_step. apply wp_upd_s; [done|]. wp_step.
    eapply wp_upd_q_ins; [cbn; by rewrite lookup_insert_eq|]. wp_step. cbn. rewrite insert_insert_eq.
    specialize (HQ (alter (λ s, s <| s_mlenoffs := q_mlenoffs q |>) first (sigs σ))).
    destruct (cells sg (InqFirst dest) l1) as [|[]] eqn:Hcs1; [|done].
    destruct σ. cbn in *. apply HQ.
    + intros a. by apply view_alter_id.
    + intros a. by apply view_alter_id.
    + intros a. rewrite decide_False by (by intros [_ ?]). by apply view_alter_id.
    + by apply Hmlen.
    + intros a Ha Hb. by rewrite lookup_alter_ne by congruence.
    + done.
Qed.

(** What the receiver of the chain [l] is before the links are written. *)
Record enq_pre σ (dest : nat) (q : ErtsSignalInQueue) (l1 : list positive) (first : positive) (lst : link)
    (last_next : option link) (num_msgs state : Z) (l : list positive) : Prop := {
  ep_q : inqs σ !! dest = Some q;
  ep_rep : vrep (sigs σ) (RInq dest) (view_q q) l1;
  ep_chain : chain (sigs σ) first lst last_next num_msgs l;
  ep_disj : ∀ a, a ∈ l1 → a ∉ l;
  ep_state : psflgs σ = state
}.

(** The counts and links after the chain is linked. *)
Lemma enq_spliced σ dest q l1 first lst ln n st l sg2 :
  enq_pre σ dest q l1 first lst ln n st l →
  let sg := sigs σ in
  let sg1 := link_last (last l1) (Some first) sg in
  let nmsig := snm sg first in
  (∀ a, snx sg2 a = snx sg1 a) → (∀ a, sct sg2 a = sct sg1 a) →
  (∀ a, ssp sg2 a = if decide (nmsig = true ∧ snd <$> last (cells sg (InqFirst dest) l1) = Some a)
                    then Some (Some (q_last q)) else ssp sg1 a) →
  (∀ a, smo sg2 a = if decide (nmsig = true ∧ a = first) then Some (q_mlenoffs q) else smo sg1 a) →
  (∀ a, a ∉ l1 → a ≠ first → sg2 !! a = sg1 !! a) →
  spliced sg sg2 (InqFirst dest) l1 l (Some first) ∧
  offs sg2 0 (l1 ++ l) (if nmsig then n else q_mlenoffs q + n).
Proof.
  intros [Hq Hr Hch Hdis Hst] sg sg1 nmsig Hnx Hct Hsp Hmo Hout.
  destruct (chain_first _ _ _ _ _ _ Hch) as [l' ->].
  pose proof Hr as [Hs1 Hnd1 He1 Hn1 Hl1 Hc1 Ho1]. cbn in *.
  assert (Hcs : cells sg (end_cell (InqFirst dest) l1) (first :: l') =
                if nmsig then (q_last q, first) :: cells sg (Next first) l' else []).
  { rewrite <- He1. simpl. fold nmsig. destruct nmsig eqn:Hnm; [done|].
    destruct (ch_msg _ _ _ _ _ _ Hch Hnm) as (Ha & _). apply cells_none. intros a Ha'. apply Ha. by right. }
  assert (Hsp1 : spliced sg sg1 (InqFirst dest) l1 [] (Some first)).
  { apply (spliced_link sg sg _ _ _ (q_first q)); try done. intros a. by rewrite decide_False by (by intros [_ ?]). }
  split; [constructor|].
  - intros a Ha. rewrite Hnx. unfold sg1, link_last. destruct (last l1) as [b|] eqn:Hb.
    + unfold snx. rewrite view_alter. destruct (decide (a = b)) as [->|Hne].
      * rewrite decide_True by done. apply last_Some_elem_of in Hb.
        destruct (lseg_dom _ _ _ _ _ Hs1 Hb) as [s Hs]. subst sg. by rewrite Hs.
      * by rewrite decide_False by congruence.
    + by rewrite decide_False.
  - intros a. rewrite Hct. apply Hsp1.
  - intros a Ha. rewrite Hsp, Hcs. replace (ssp sg1 a) with (ssp sg a).
    + destruct nmsig; [|by rewrite !decide_False by naive_solver]. apply decide_ext. naive_solver.
    + unfold sg1, link_last. destruct (last l1); [|done]. symmetry. by apply view_alter_id.
  - intros a Ha Hb. rewrite Hout; [by apply Hsp1; [|apply not_elem_of_nil]|done|set_solver].
  - apply offs_app. exists (q_mlenoffs q).
    assert (∀ a, snm sg2 a = snm sg a) as Hnm2.
    { intros a. apply snm_sct. rewrite Hct. apply sct_link_last. }
    assert (∀ a, a ≠ first → smo sg2 a = smo sg a) as Hmo2.
    { intros a Ha. rewrite Hmo, decide_False by tauto. apply smo_link_last. }
    split; [eapply offs_ext; [|done]; intros a Ha; split; [done|]; apply Hmo2; intros ->; by apply (Hdis first); [|left]|].
    destruct nmsig eqn:Hnm.
    + destruct (ch_nonmsg _ _ _ _ _ _ Hch Hnm) as (_ & Ho & _). simpl. rewrite Hnm2. fold nmsig. rewrite Hnm.
      split; [by rewrite Hmo, decide_True|]. eapply offs_ext; [|done]. intros a Ha. split; [done|].
      apply Hmo2. intros ->. pose proof (ch_nodup _ _ _ _ _ _ Hch) as Hnd. by apply NoDup_cons in Hnd as [? _].
    + destruct (ch_msg _ _ _ _ _ _ Hch Hnm) as (Ha & -> & _). apply offs_msgs. intros a Hin. rewrite Hnm2. by apply Ha.
Qed.

(** The flags are set unless the sender saw them set. *)
Lemma wp_set_flags st F (Q : Z → sqs → Prop) σ :
  psflgs σ = st → (∀ r, Q r (σ <| psflgs := Z.lor st F |>)) →
  wp (if decide (Z.land st F ≠ F) then σ ← get; _ ← upd_flgs (λ f, Z.lor f F); mret (psflgs σ)
      else mret st) Q σ.
Proof.
  intros Hst HQ. destruct (decide (Z.land st F ≠ F)) as [Hd|Hd].
  - wp_step. wp_step. wp_step. apply wp_upd_flgs. wp_step. cbn. rewrite Hst. apply HQ.
  - wp_step. specialize (HQ st). rewrite lor_absorb in HQ by (destruct (decide (Z.land st F = F)); tauto).
    destruct σ. cbn in *. by subst.
Qed.

(** A chain [l] is linked; [sg'] and [q'] are the store and the queue afterwards. *)
Definition enqueued σ (dest : nat) (q : ErtsSignalInQueue) (l1 : list positive) (first : positive)
    (l : list positive) (sg' : gmap positive ErtsSignal) (q' : ErtsSignalInQueue) : Prop :=
  spliced (sigs σ) sg' (InqFirst dest) l1 l (Some first) ∧
  offs sg' 0 (l1 ++ l) (q_mlenoffs q') ∧
  view_q q' = splice_view (sigs σ) (view_q q) l1 (Some first) l (q_mlenoffs q').

Lemma wp_enqueue_signals tb first lst ln n st dest (Q : Z → sqs → Prop) σ0 :
  is_Some (sigs σ0 !! first) →
  wp (if negb tb && negb (bool_decide (Z.land st ERTS_PSFLG_OFF_HEAP_MSGQ = 0%Z))
      then erts_proc_sig_queue_flush_buffers else mret tt)
    (λ _ σ, snm (sigs σ) first = snm (sigs σ0) first ∧ ∃ q l1 l, enq_pre σ dest q l1 first lst ln n st l ∧
       ∀ sg' q' r, enqueued σ dest q l1 first l sg' q' →
         Q r (σ <| sigs := sg' |> <| inqs ::= <[dest := q']> |>
                <| psflgs := Z.lor st (enq_flags q (snm (sigs σ) first) n) |>)) σ0 →
  wp (enqueue_signals tb first lst ln n st dest) Q σ0.
Proof.
  intros [s0 Hs0] Hfl. unfold enqueue_signals. wp_step. eapply wp_load_s; [done|].
  wp_step. eapply wp_mono; [exact Hfl|]. clear Hfl. cbv beta. intros [] σ (Hsn & q & l1 & l & Hpre & HQ).
  replace (s_nmsg s0) with (snm (sigs σ) first) by (rewrite Hsn; unfold snm; by rewrite Hs0).
  pose proof Hpre as [Hq Hr Hch Hdis Hst]. destruct (chain_first _ _ _ _ _ _ Hch) as [l' Hl].
  pose proof Hr as [Hs1 Hnd1 He1 Hn1 Hl1 Hc1 Ho1]. cbn in *.
  assert (Hlast : ∀ a, last l1 = Some a → is_Some (sigs σ !! a)).
  { intros a Ha. eapply lseg_dom; [exact Hs1|by apply last_Some_elem_of]. }
  wp_step. eapply wp_load_q; [done|]. wp_step. eapply wp_append_link; [done..|].
  wp_step. eapply wp_upd_q_ins; [cbn; by rewrite lookup_insert_eq|]. cbn. rewrite insert_insert_eq.
  wp_step. eapply wp_load_q; [cbn; by rewrite lookup_insert_eq|].
  wp_step. set (set_flags := if decide (n = 0%Z) then 0%Z else ERTS_PSFLG_MSG_SIG_IN_Q).
  assert (Hf1 : first ∉ l1) by (intros Hx; apply (Hdis first Hx); subst l; left).
  eapply (wp_enqueue_nm (sigs σ) dest _ l1 first (q_last q)).
  { cbn. by rewrite lookup_insert_eq. } { done. } { done. }
  { cbn. apply (sct_dom (sigs σ)); [apply sct_link_last|].
    eapply lseg_dom; [apply (ch_seg _ _ _ _ _ _ Hch)|]. subst l. left. }
  { cbn. by apply lseg_link_last. } { intros a Ha. apply snm_link_last. } { done. } { done. }
  cbn. intros sg2 q2 Hnx Hct Hsp Hmo Hout Hq2.
  destruct (enq_spliced σ dest q l1 first lst ln n st l sg2 Hpre Hnx Hct Hsp Hmo Hout) as [Hspl Hoff].
  assert (Hcells : cells (sigs σ) (q_last q) l =
     if snm (sigs σ) first then (q_last q, first) :: cells (sigs σ) (Next first) (tail l) else []).
  { subst l. simpl. destruct (snm (sigs σ) first) eqn:Hnm; [done|]. apply cells_none. intros a Ha.
    apply (ch_msg _ _ _ _ _ _ Hch Hnm). by right. }
  set (o := v_nl (splice_view (sigs σ) (view_q q) l1 (Some first) l 0)).
  wp_step. apply wp_set_flags; [done|]. intros r. cbn. rewrite insert_insert_eq. wp_step.
  assert (Hfin : wp (_ ← upd_q dest (λ q, q <| q_mlenoffs ::= λ m, (m + n)%Z |>); mret r) Q
      (mkSqs sg2 (<[dest := q2 <| q_nm_last := o |>]> (inqs σ)) (bufs σ) (sig_inq_buffers σ)
         (sig_inq_contention_counter σ) (qs σ) (Z.lor st (enq_flags q (snm (sigs σ) first) n)) (sq_prs σ) (pending_signal σ) (p_uniq σ))).
  { wp_step. eapply wp_upd_q_ins; [cbn; by rewrite lookup_insert_eq|]. wp_step. cbn. rewrite insert_insert_eq.
    apply HQ. split; [done|]. subst q2.
    split; [destruct (snm (sigs σ) first); exact Hoff|].
    subst o. unfold view_q, splice_view. cbn. rewrite (ch_last _ _ _ _ _ _ Hch (q_last q)), Hcells.
    by destruct (snm (sigs σ) first), (q_nm_next q). }
  unfold o, splice_view in Hfin. cbn in Hfin. rewrite Hcells in Hfin.
  destruct (snm (sigs σ) first) eqn:Hnm.
  - destruct (ch_nonmsg _ _ _ _ _ _ Hch Hnm) as (_ & _ & Hln).
    destruct ln as [x|]; (eapply wp_upd_q_ins; [cbn; by rewrite lookup_insert_eq|]; cbn; rewrite insert_insert_eq).
    + rewrite Hln. unfold last_cell in *. destruct (cells (sigs σ) (Next first) (tail l)) as [|p cs]; [done|].
      by rewrite last_cons_cons in Hfin.
    + unfold last_cell in *. destruct (cells (sigs σ) (Next first) (tail l)) as [|p cs]; [done|].
      exfalso. destruct (last (p :: cs)) eqn:Hx; [done|]. by apply last_None in Hx.
  - destruct (ch_msg _ _ _ _ _ _ Hch Hnm) as (_ & _ & ->). wp_step. by subst q2.
Qed.

(** [LINK_MESSAGE], one message. *)
Lemma offs_msg sg sg' n l off a :
  offs sg n l off → (∀ b, b ∈ l → snm sg' b = snm sg b ∧ smo sg' b = smo sg b) → snm sg' a = false →
  offs sg' n (l ++ [a]) (off + 1).
Proof.
  intros Ho Hs Ha. apply offs_app. exists off. split; [by eapply offs_ext|]. simpl. by rewrite Ha.
Qed.

Lemma land_bit x k : (0 ≤ k)%Z → Z.land x (2 ^ k) ≠ 0%Z → Z.lor x (2 ^ k) = x.
Proof.
  intros Hk Hx. apply lor_absorb. apply Z.bits_inj'. intros n Hn. rewrite Z.land_spec, Z.pow2_bits_eqb by done.
  destruct (Z.eqb_spec k n) as [->|Hne]; [|by rewrite andb_false_r]. rewrite andb_true_r.
  destruct (Z.testbit x n) eqn:Hb; [done|]. exfalso. apply Hx. apply Z.bits_inj'. intros m Hm.
  rewrite Z.land_spec, Z.pow2_bits_eqb, Z.bits_0 by done.
  destruct (Z.eqb_spec n m) as [->|]; [by rewrite Hb|by rewrite andb_false_r].
Qed.

Lemma wp_LINK_MESSAGE a st q l1 (Q : unit → sqs → Prop) σ :
  enq_pre σ 0 q l1 a (Next a) None 1 st [a] → snm (sigs σ) a = false →
  (∀ sg' q', enqueued σ 0 q l1 a [a] sg' q' →
     Q tt (σ <| sigs := sg' |> <| inqs ::= <[0 := q']> |> <| psflgs := Z.lor st ERTS_PSFLG_MSG_SIG_IN_Q |>)) →
  wp (LINK_MESSAGE a st) Q σ.
Proof.
  intros [Hq Hr Hch Hdis Hst] Hnm HQ. pose proof Hr as [Hs1 Hnd1 He1 Hn1 Hl1 Hc1 Ho1]. cbn in *.
  assert (Ha1 : a ∉ l1) by (intros Hx; apply (Hdis a Hx); left).
  assert (Had : is_Some (sigs σ !! a)).
  { eapply lseg_dom; [apply (ch_seg _ _ _ _ _ _ Hch)|left]. }
  unfold LINK_MESSAGE, ERTS_PON_SET_IN_LINK. wp_step. wp_step. wp_step. wp_step. eapply wp_load_q; [done|].
  apply wp_upd_s; [done|]. wp_step. eapply wp_load_q; [done|]. wp_step.
  match goal with |- context [alter ?f a] => set (fa := f) end. set (sg1 := alter fa a (sigs σ)).
  eapply wp_append_link; [done..| |].
  { intros b Hb. apply (sct_dom (sigs σ)); [by apply view_alter_id|]. eapply lseg_dom; [exact Hs1|by apply last_Some_elem_of]. }
  wp_step. eapply wp_upd_q_ins; [cbn; by rewrite lookup_insert_eq|]. cbn. rewrite insert_insert_eq.
  wp_step. eapply wp_upd_q_ins; [cbn; by rewrite lookup_insert_eq|]. cbn. rewrite insert_insert_eq.
  fold sg1.
  assert (Hcell : ∀ c, cells (sigs σ) c [a] = []) by (intros c; simpl; by rewrite Hnm).
  match goal with |- wp _ _ (mkSqs ?sg2 (<[0:=?q2]> _) _ _ _ _ _ _ _ _) => assert (Henq : enqueued σ 0 q l1 a [a] sg2 q2) end.
  { split_and!.
    - apply (spliced_link _ sg1 _ _ _ (q_first q)); [done|by intros b; apply view_alter_id..| |].
      + intros b. rewrite Hcell, decide_False by (by intros [_ ?]). by apply view_alter_id.
      + intros b _ Hb. unfold sg1. rewrite lookup_alter_ne by set_solver. done.
    - cbn. eapply offs_msg; [exact Ho1| |].
      + intros b Hb. rewrite snm_link_last, smo_link_last.
        split; [by apply snm_alter|by apply view_alter_id].
      + rewrite snm_link_last. rewrite <- Hnm. by apply snm_alter.
    - unfold view_q, splice_view. cbn. rewrite Hnm. by destruct (q_nm_next q). }
  specialize (HQ _ _ Henq). cbn in HQ. destruct (decide (Z.land st ERTS_PSFLG_MSG_SIG_IN_Q = 0%Z)) as [Hd|Hd].
  - apply wp_upd_flgs. cbn. by rewrite Hst.
  - wp_step. change ERTS_PSFLG_MSG_SIG_IN_Q with (2 ^ 12)%Z in *. rewrite land_bit in HQ by done. by rewrite Hst.
Qed.

End enqueue.
