(* ===== verification/SigFlow.v ===== *)
(** The buffers of a process: flushing, taking down and installing them. *)

From stdpp Require Import base numbers functions list gmap sets.
From Stdlib Require Import ZArith Lia.
From S2P Require Import Prelude PonPremise RecvMarker SigQueue SigInv SigOps SigConcat SigEnqueue.

Section flow.
Implicit Types σ : sqs.
Implicit Types C : region → list positive.

(** What the operations on buffers leave alone; the links of signals that are in
    no in-queue of [C] are among it. *)
Record quiet C σ σ' : Prop := {
  qt_qs : qs σ' = qs σ;
  qt_flg : psflgs σ' = psflgs σ;
  qt_prs : sq_prs σ' = sq_prs σ;
  qt_pend : pending_signal σ' = pending_signal σ;
  qt_ct : ∀ a, sct (sigs σ') a = sct (sigs σ) a;
  qt_out : ∀ a, (∀ i, a ∉ C (RInq i)) → sigs σ' !! a = sigs σ !! a
}.

(** The in-queues of [C'] hold signals of the in-queues of [C]. *)
Definition inq_sub C' C : Prop := ∀ i a, a ∈ C' (RInq i) → ∃ j, a ∈ C (RInq j).

Lemma quiet_trans C C' σ1 σ2 σ3 : inq_sub C' C → quiet C σ1 σ2 → quiet C' σ2 σ3 → quiet C σ1 σ3.
Proof.
  intros Hsub [] []. constructor; try congruence. intros a Ha. rewrite qt_out1; [by apply qt_out0|].
  intros i Hi. destruct (Hsub i a Hi) as [j Hj]. by apply (Ha j).
Qed.

(** The array [b'] has the slots of [b] with the same slots alive. *)
Record bufs_like (b b' : ErtsSignalInQueueBufferArray) : Prop := {
  bl_slots : ∀ j, fst <$> b_slots b' !! j = fst <$> b_slots b !! j;
  bl_alive : b_alive b' = b_alive b;
  bl_nonempty : nonempty_slots b' = nonempty_slots b
}.

Lemma live_like σ σ' b b' r : bufs σ = Some b → bufs σ' = Some b' → bufs_like b b' → live σ' r = live σ r.
Proof.
  intros Hb Hb' Hl. destruct r as [[|i]| |]; try done. simpl. rewrite Hb, Hb'.
  pose proof (bl_slots _ _ Hl i) as Hs. destruct (b_slots b !! i) as [[]|], (b_slots b' !! i) as [[]|]; simpl in *; congruence.
Qed.

Lemma queues_ok_ext σ C C' : queues_ok σ C → (∀ r, C' r = C r) → queues_ok σ C'.
Proof.
  intros [H1 H2 H3] He. constructor.
  - intros r Hr. rewrite He. by apply H1.
  - intros r Hr. rewrite He. by apply H2.
  - intros r r' a. rewrite !He. apply H3.
Qed.

Lemma queues_ok_inq σ C i : queues_ok σ C → live σ (RInq i) = true →
  ∃ q, inqs σ !! i = Some q ∧ vrep (sigs σ) (RInq i) (view_q q) (C (RInq i)).
Proof.
  intros HC Hl. destruct (qo_rep σ C HC _ Hl) as (v & Hv & Hr). simpl in Hv.
  apply fmap_Some in Hv as (q & Hq & ->). eauto.
Qed.

(** The queues after slot [i] was moved to the outer queue. *)
Definition flush1 (C : region → list positive) (i : nat) : region → list positive :=
  <[RInq 0 := C (RInq 0) ++ C (RInq (S i))]> (<[RInq (S i) := []]> C).

Lemma flush1_0 C i : flush1 C i (RInq 0) = C (RInq 0) ++ C (RInq (S i)).
Proof. unfold flush1. apply fn_lookup_insert. Qed.

Lemma flush1_i C i : flush1 C i (RInq (S i)) = [].
Proof. unfold flush1. rewrite fn_lookup_insert_ne by done. apply fn_lookup_insert. Qed.

Lemma flush1_ne C i r : r ≠ RInq 0 → r ≠ RInq (S i) → flush1 C i r = C r.
Proof. intros H0 H1. unfold flush1. rewrite !fn_lookup_insert_ne; done. Qed.

Lemma flush1_nil C i : C (RInq (S i)) = [] → ∀ r, flush1 C i r = C r.
Proof.
  intros He r. destruct (decide (r = RInq 0)) as [->|]; [by rewrite flush1_0, He, app_nil_r|].
  destruct (decide (r = RInq (S i))) as [->|]; [by rewrite flush1_i|by apply flush1_ne].
Qed.

(** The concatenation of slot [i]; afterwards the queue of the slot is reset, or
    the slot is dead. *)
Lemma wp_concat_slot i C (Q : unit → sqs → Prop) σ :
  queues_ok σ C → live σ (RInq (S i)) = true → C (RInq (S i)) ≠ [] →
  (∀ sg' q', (∀ a, sct sg' a = sct (sigs σ) a) →
     (∀ a, (∀ j, a ∉ C (RInq j)) → sg' !! a = sigs σ !! a) →
     (∀ σ', sigs σ' = sg' → inqs σ' !! 0 = Some q' → qs σ' = qs σ →
        (∀ j, j ≠ 0 → j ≠ S i → inqs σ' !! j = inqs σ !! j) →
        (∀ r, r ≠ RInq (S i) → live σ' r = live σ r) →
        (live σ' (RInq (S i)) = false ∨ inqs σ' !! S i = Some (inq_empty (S i))) →
        queues_ok σ' (flush1 C i)) →
     Q tt (σ <| sigs := sg' |> <| inqs ::= <[0 := q']> |>)) →
  wp (sig_inq_concat 0 (S i)) Q σ.
Proof.
  intros HC Hl Hne HQ.
  destruct (queues_ok_inq σ C 0 HC eq_refl) as (q1 & Hq1 & Hr1).
  destruct (queues_ok_inq σ C (S i) HC Hl) as (q2 & Hq2 & Hr2).
  assert (Hdis : ∀ r a, r ≠ RInq (S i) → a ∈ C r → a ∉ C (RInq (S i))).
  { intros r a Hr Ha Hb. by apply Hr, (qo_disj σ C HC r (RInq (S i)) a). }
  eapply wp_sig_inq_concat; [done|exact Hq1|exact Hq2|exact Hr1|exact Hr2|intros a; by apply Hdis|done|].
  intros sg' q' Hsp Hoff Hv. apply HQ; [apply Hsp|intros a Ha; apply Hsp; apply Ha|].
  intros σ' Hs Hi0 Hqs Hij Hlv Hcase.
  eapply (queues_ok_splice σ σ' C (flush1 C i) (RInq 0) (view_q q1) (q_first q2) (C (RInq (S i))) (InqFirst (S i))).
  - done.
  - done.
  - simpl. by rewrite Hq1.
  - done.
  - apply Hr2.
  - intros a. by apply Hdis.
  - apply Hr2.
  - apply Hr2.
  - by rewrite Hs.
  - rewrite Hs. exact Hoff.
  - simpl. by rewrite Hi0, <- Hv.
  - apply flush1_0.
  - intros r Hr Hd. destruct (decide (r = RInq (S i))) as [->|Hri]; [apply flush1_i|].
    rewrite flush1_ne by done. apply (qo_dead σ C HC). by rewrite <- Hlv.
  - intros r Hr Hlr. destruct (decide (r = RInq (S i))) as [->|Hri].
    + left. split; [apply flush1_i|]. destruct Hcase as [?|He]; [congruence|]. simpl. by rewrite He.
    + right. rewrite flush1_ne by done. split_and!; [by rewrite <- Hlv|done| |intros a; by apply Hdis].
      destruct r as [j| |]; simpl; [rewrite Hij by congruence; done|by rewrite Hqs..].
  - done.
Qed.

Lemma inq_sub_flush1 C i : inq_sub (flush1 C i) C.
Proof.
  intros j a. destruct (decide (RInq j = RInq 0)) as [->|H0].
  - rewrite flush1_0. intros [Ha|Ha]%elem_of_app; by eexists.
  - destruct (decide (RInq j = RInq (S i))) as [->|H1]; [rewrite flush1_i; set_solver|].
    rewrite flush1_ne by done. by exists j.
Qed.

(** The state after some slots of the array [b] were flushed. *)
Record flushed C σ b σ' b' C' : Prop := {
  fd_quiet : quiet C σ σ';
  fd_bufs : bufs σ' = Some b';
  fd_like : bufs_like b b';
  fd_on : sig_inq_buffers σ' = sig_inq_buffers σ;
  fd_ok : queues_ok σ' C'
}.

Lemma wp_proc_sig_queue_flush_buffer i n b C (Q : Z → sqs → Prop) σ :
  queues_ok σ C → bufs σ = Some b → b_slots b !! i = Some (true, n) →
  (∀ m σ' b', flushed C σ b σ' b' (flush1 C i) → Q m σ') →
  wp (proc_sig_queue_flush_buffer i) Q σ.
Proof.
  intros HC Hb Hi HQ. assert (Hl : live σ (RInq (S i)) = true) by (simpl; by rewrite Hb, Hi).
  destruct (queues_ok_inq σ C (S i) HC Hl) as (q & Hq & Hr).
  unfold proc_sig_queue_flush_buffer. wp_step. eapply wp_get_bufs; [done|]. rewrite Hi. wp_step. wp_step.
  cbv beta iota. wp_step. eapply wp_load_q; [done|]. pose proof (vrep_first _ _ _ _ Hr) as Hf. cbn in Hf. rewrite Hf.
  destruct (C (RInq (S i))) as [|a l] eqn:HCi; simpl.
  - wp_step. apply (HQ _ σ b). constructor; try done. eapply queues_ok_ext; [done|]. by apply flush1_nil.
  - wp_step. eapply wp_upd_bufs; [done|]. wp_step. wp_step.
    set (b' := b <| b_slots ::= <[i := (true, 0%Z)]> |>).
    assert (Hlike : bufs_like b b').
    { constructor; [|done..]. intros j. cbn. destruct (decide (j = i)) as [->|]; [by rewrite lookup_insert_eq, Hi|].
      by rewrite lookup_insert_ne. }
    eapply (wp_concat_slot i C).
    { eapply queues_ok_same; [done| |done|done]. intros r. by eapply live_like. }
    { erewrite live_like; [exact Hl|done|done|done]. } { by rewrite HCi. }
    intros sg' q' Hct Hout Hok. eapply wp_upd_q_ins; [cbn; rewrite lookup_insert_ne by done; exact Hq|]. wp_step.
    apply (HQ _ _ b'). constructor; try done.
    apply Hok; cbn; try done.
    + rewrite lookup_insert_ne by done. by rewrite lookup_insert_eq.
    + intros j H0 H1. by rewrite !lookup_insert_ne by done.
    + right. by rewrite lookup_insert_eq.
Qed.

Lemma bufs_like_refl b : bufs_like b b.
Proof. done. Qed.

Lemma bufs_like_trans b1 b2 b3 : bufs_like b1 b2 → bufs_like b2 b3 → bufs_like b1 b3.
Proof. intros [] []. constructor; intros; congruence. Qed.

Lemma flushed_trans C σ1 b1 σ2 b2 C2 σ3 b3 C3 :
  inq_sub C2 C → flushed C σ1 b1 σ2 b2 C2 → flushed C2 σ2 b2 σ3 b3 C3 → flushed C σ1 b1 σ3 b3 C3.
Proof. intros ? [] []. constructor; [by eapply quiet_trans|done|by eapply bufs_like_trans|congruence|done]. Qed.

Lemma testbit_land x i : Z.land x (Z.shiftl 1 (Z.of_nat i)) ≠ 0%Z ↔ Z.testbit x (Z.of_nat i) = true.
Proof.
  rewrite Z.shiftl_1_l. split.
  - intros Hx. destruct (Z.testbit x (Z.of_nat i)) eqn:Hb; [done|]. exfalso. apply Hx. apply Z.bits_inj'. intros m Hm.
    rewrite Z.land_spec, Z.pow2_bits_eqb, Z.bits_0 by lia.
    destruct (Z.eqb_spec (Z.of_nat i) m) as [<-|]; [by rewrite Hb|by rewrite andb_false_r].
  - intros Hb Hx. assert (Z.testbit (Z.land x (2 ^ Z.of_nat i)) (Z.of_nat i) = false) as Hf by (rewrite Hx; apply Z.bits_0).
    rewrite Z.land_spec, Hb, Z.pow2_bits_true in Hf by lia. done.
Qed.

(** A slot whose bit is not set is empty. *)
Lemma wp_flush_slot ne i n b C (Q : unit → sqs → Prop) σ :
  queues_ok σ C → bufs σ = Some b → b_slots b !! i = Some (true, n) →
  (C (RInq (S i)) ≠ [] → Z.testbit ne (Z.of_nat i) = true) →
  (∀ σ' b', flushed C σ b σ' b' (flush1 C i) → Q tt σ') →
  wp (flush_slot ne i) Q σ.
Proof.
  intros HC Hb Hi Hne HQ. unfold flush_slot. destruct (decide (Z.land ne _ ≠ 0%Z)) as [Hd|Hd].
  - wp_step. eapply wp_proc_sig_queue_flush_buffer; [done..|]. intros m σ' b' Hf.
    eapply wp_upd_bufs; [apply Hf|]. eapply HQ. eapply flushed_trans; [apply inq_sub_flush1|exact Hf|]. destruct Hf as [? Hb' ? ? Hok].
    constructor; try done. eapply queues_ok_same; [exact Hok| |done|done]. intros r. by eapply live_like.
  - wp_step. apply (HQ σ b). constructor; try done. eapply queues_ok_ext; [done|]. apply flush1_nil.
    destruct (C (RInq (S i))) eqn:HCi; [done|]. exfalso. apply Hd, testbit_land. by apply Hne.
Qed.

(** The queues after the first [n] slots were moved, in the order of the slots. *)
Definition flush_to C (n : nat) : region → list positive := foldl flush1 C (seq 0 n).

Lemma flush_to_S C n : flush_to C (S n) = flush1 (flush_to C n) n.
Proof. unfold flush_to. by rewrite seq_S, foldl_app. Qed.

Lemma flush_to_slot C n i : flush_to C n (RInq (S i)) = if decide (i < n) then [] else C (RInq (S i)).
Proof.
  induction n as [|n IH]; [done|]. rewrite flush_to_S. destruct (decide (i = n)) as [->|Hne].
  - rewrite flush1_i. by rewrite decide_True by lia.
  - rewrite flush1_ne, IH by congruence. destruct (decide (i < n)), (decide (i < S n)); (done || lia).
Qed.

Lemma flush_to_0 C n : flush_to C n (RInq 0) = C (RInq 0) ++ concat ((λ i, C (RInq (S i))) <$> seq 0 n).
Proof.
  induction n as [|n IH]; [by rewrite app_nil_r|]. rewrite flush_to_S, flush1_0, IH, flush_to_slot.
  rewrite decide_False by lia. rewrite seq_S, fmap_app, concat_app. simpl. by rewrite app_nil_r, app_assoc.
Qed.

Lemma flush_to_other C n r : (∀ i, r ≠ RInq i) → flush_to C n r = C r.
Proof. intros Hr. induction n as [|n IH]; [done|]. rewrite flush_to_S, flush1_ne by done. done. Qed.

Local Abbreviation NR := ERTS_PROC_SIG_INQ_BUFFERED_NR_OF_BUFFERS.

(** The array in use has all its slots alive; there is no other living slot. *)
Record bufs_ok σ : Prop := {
  bo_on : sig_inq_buffers σ = true →
    ∃ b, bufs σ = Some b ∧ b_alive b = true ∧ ∀ i, i < NR → ∃ n, b_slots b !! i = Some (true, n);
  bo_off : sig_inq_buffers σ = false → ∀ i, live σ (RInq (S i)) = false;
  bo_range : ∀ i, live σ (RInq (S i)) = true → i < NR
}.

Lemma slots_like b b' i n : bufs_like b b' → b_slots b !! i = Some (true, n) → ∃ m, b_slots b' !! i = Some (true, m).
Proof.
  intros Hl Hi. pose proof (bl_slots _ _ Hl i) as Hs. rewrite Hi in Hs. simpl in Hs.
  apply fmap_Some in Hs as ([a m] & -> & Ha). simpl in Ha. subst a. eauto.
Qed.

Lemma bufs_ok_like σ σ' b b' :
  bufs_ok σ → bufs σ = Some b → bufs σ' = Some b' → bufs_like b b' → sig_inq_buffers σ' = sig_inq_buffers σ →
  bufs_ok σ'.
Proof.
  intros [H1 H2 H3] Hb Hb' Hl Hon.
  assert (∀ r, live σ' r = live σ r) as Hlv by (intros r; by eapply live_like). constructor.
  - rewrite Hon. intros Ht. destruct (H1 Ht) as (b0 & Hb0 & Ha & Hs). rewrite Hb in Hb0. injection Hb0 as <-.
    exists b'. split_and!; [done|by rewrite (bl_alive _ _ Hl)|]. intros i Hi. destruct (Hs i Hi) as [n Hn].
    by eapply slots_like.
  - rewrite Hon. intros Ht i. rewrite Hlv. by apply H2.
  - intros i. rewrite Hlv. apply H3.
Qed.

Lemma bufs_ok_same σ σ' :
  bufs_ok σ → bufs σ' = bufs σ → sig_inq_buffers σ' = sig_inq_buffers σ → bufs_ok σ'.
Proof.
  intros [H1 H2 H3] Hb Hon. assert (∀ r, live σ' r = live σ r) as Hlv.
  { intros r. destruct r as [[|i]| |]; try done. simpl. by rewrite Hb. }
  constructor; [rewrite Hon, Hb; apply H1|rewrite Hon; intros Ho i; rewrite Hlv; by apply H2|].
  intros i. rewrite Hlv. apply H3.
Qed.

(** Every buffer was moved to the outer queue. *)
Definition flush_all C : region → list positive := flush_to C NR.

Lemma flush_all_slot σ C i : bufs_ok σ → queues_ok σ C → flush_all C (RInq (S i)) = [].
Proof.
  intros HB HC. unfold flush_all. rewrite flush_to_slot. case_decide as Hi; [done|].
  apply (qo_dead σ C HC). destruct (live σ (RInq (S i))) eqn:Hl; [|done]. by apply (bo_range σ HB) in Hl.
Qed.

Lemma flush_all_other C r : (∀ i, r ≠ RInq i) → flush_all C r = C r.
Proof. apply flush_to_other. Qed.

Lemma flush_all_0 C : flush_all C (RInq 0) = C (RInq 0) ++ concat ((λ i, C (RInq (S i))) <$> seq 0 NR).
Proof. apply flush_to_0. Qed.

(** Flushing the buffers moves signals between in-queues only. *)
Lemma flush_to_in C n i a : a ∈ flush_to C n (RInq i) → ∃ j, a ∈ C (RInq j).
Proof.
  destruct i as [|i].
  - rewrite flush_to_0. intros [Ha|Ha]%elem_of_app; [by exists 0|].
    apply list_elem_of_In, in_concat in Ha as (k & Hk & Ha). apply list_elem_of_In in Hk, Ha.
    apply list_elem_of_fmap in Hk as (j & -> & _). by exists (S j).
  - rewrite flush_to_slot. case_decide; [set_solver|by exists (S i)].
Qed.

Lemma flush_all_in C r a : a ∈ flush_all C r → (∃ i j, r = RInq i ∧ a ∈ C (RInq j)) ∨ a ∈ C r.
Proof.
  destruct r as [i| |]; [intros Ha; left; apply flush_to_in in Ha as [j Ha]; by exists i, j|right..];
    by rewrite flush_all_other in *.
Qed.

Lemma flush_all_id C : (∀ i, C (RInq (S i)) = []) → ∀ r, flush_all C r = C r.
Proof.
  intros Hn r. destruct r as [[|i]| |]; [| |by apply flush_to_other..].
  - unfold flush_all. rewrite flush_to_0. generalize NR. intros n.
    replace (concat _) with (@nil positive); [by rewrite app_nil_r|]. symmetry. generalize 0.
    induction n as [|n IH]; intros k; [done|]. simpl. by rewrite Hn, IH.
  - unfold flush_all. rewrite flush_to_slot, Hn. by case_decide.
Qed.

Lemma flush_all_nil σ C :
  bufs_ok σ → queues_ok σ C → sig_inq_buffers σ = false → ∀ r, flush_all C r = C r.
Proof. intros HB HC Hon. apply flush_all_id. intros i. apply (qo_dead σ C HC). by apply (bo_off σ HB). Qed.

Record flush_post σ C σ' : Prop := {
  fp_quiet : quiet C σ σ';
  fp_bufs : bufs_ok σ';
  fp_empty : ∀ b, bufs σ' = Some b → nonempty_slots b = 0%Z ∨ sig_inq_buffers σ' = false;
  fp_off : sig_inq_buffers σ' = true → sig_inq_buffers σ = true;
  fp_some : is_Some (bufs σ) → is_Some (bufs σ');
  fp_ok : queues_ok σ' (flush_all C)
}.

(** The array is taken down. *)
Lemma wp_deinstall_slot i b n C (Q : unit → sqs → Prop) σ :
  queues_ok σ C → bufs σ = Some b → b_slots b !! i = Some (true, n) →
  (∀ σ', quiet C σ σ' → bufs σ' = Some (b <| b_slots ::= <[i := (false, n)]> |>) →
     sig_inq_buffers σ' = sig_inq_buffers σ → queues_ok σ' (flush1 C i) → Q tt σ') →
  wp (deinstall_slot i) Q σ.
Proof.
  intros HC Hb Hi HQ. assert (Hl : live σ (RInq (S i)) = true) by (simpl; by rewrite Hb, Hi).
  destruct (queues_ok_inq σ C (S i) HC Hl) as (q & Hq & Hr).
  unfold deinstall_slot. wp_step. eapply wp_get_bufs; [done|]. rewrite Hi. wp_step. wp_step. cbv beta iota.
  wp_step. eapply wp_load_q; [done|]. pose proof (vrep_first _ _ _ _ Hr) as Hf. cbn in Hf. rewrite Hf.
  set (b' := b <| b_slots ::= <[i := (false, n)]> |>).
  assert (Hlive : ∀ σ', bufs σ' = Some b' → ∀ r, r ≠ RInq (S i) → live σ' r = live σ r).
  { intros σ' Hb' [[|j]| |] Hr'; try done. simpl. rewrite Hb, Hb'. cbn. by rewrite lookup_insert_ne by congruence. }
  assert (Hdead : ∀ σ', bufs σ' = Some b' → live σ' (RInq (S i)) = false).
  { intros σ' Hb'. simpl. rewrite Hb'. cbn. by rewrite lookup_insert_eq. }
  wp_step. destruct (decide (head (C (RInq (S i))) ≠ None)) as [Hd|Hd].
  - eapply (wp_concat_slot i C); [done|done|by intros He; rewrite He in Hd|].
    intros sg' q' Hct Hout Hok. eapply wp_upd_bufs; [done|]. apply HQ; try done.
    apply Hok; [done|by apply lookup_insert_eq|done| | |left; by apply Hdead].
    + intros j H0 _. cbn. by rewrite lookup_insert_ne by done.
    + intros r Hr'. by apply Hlive.
  - wp_step. eapply wp_upd_bufs; [done|]. apply HQ; try done.
    assert (C (RInq (S i)) = []) as HCi by (destruct (C (RInq (S i))); [done|exfalso; by apply Hd]).
    assert (∀ r, flush1 C i r = C r) as He by by apply flush1_nil.
    eapply queues_ok_ext; [|exact He]. destruct HC as [H1 H2 H3]. constructor; [| |done].
    + intros r Hlr. assert (r ≠ RInq (S i)) as Hr' by (intros ->; rewrite Hdead in Hlr; done).
      rewrite Hlive in Hlr by done. by apply H1.
    + intros r Hlr. destruct (decide (r = RInq (S i))) as [->|Hr']; [done|]. apply H2. by rewrite Hlive in Hlr by done.
Qed.

Lemma wp_flush_and_deinstall C (Q : unit → sqs → Prop) σ :
  bufs_ok σ → queues_ok σ C →
  (∀ σ', flush_post σ C σ' → sig_inq_buffers σ' = false → Q tt σ') →
  wp erts_proc_sig_queue_flush_and_deinstall_buffers Q σ.
Proof.
  intros HB HC HQ. unfold erts_proc_sig_queue_flush_and_deinstall_buffers, erts_proc_sig_queue_get_buffers.
  wp_step. wp_step. wp_step. wp_step. destruct (sig_inq_buffers σ) eqn:Hon; cbn [negb].
  2: { wp_step. apply HQ; [|done]. constructor; [done|done|by right|congruence|done|].
       eapply queues_ok_ext; [done|]. by eapply flush_all_nil. }
  destruct (bo_on σ HB Hon) as (b & Hb & Hal & Hslots).
  wp_step. eapply wp_get_bufs; [done|]. rewrite Hal. cbn [negb].
  wp_step. eapply wp_upd_bufs; [done|]. wp_step. wp_step. wp_step.
  eapply (wp_for_range (λ i σ', quiet C σ σ' ∧ sig_inq_buffers σ' = true ∧ queues_ok σ' (flush_to C i) ∧
    ∃ b', bufs σ' = Some b' ∧ (∀ j, j < i → fst <$> b_slots b' !! j = Some false) ∧
          (∀ j, i ≤ j → b_slots b' !! j = b_slots b !! j))).
  - split_and!; [done|by rewrite <- Hon| |exists (b <| b_alive := false |>); split_and!; [done|lia|done]].
    eapply queues_ok_same; [done| |done|done]. intros r. destruct r as [[|i]| |]; try done. simpl. by rewrite Hb.
  - intros j σ' Hj (Hqt & Hon' & Hok & b' & Hb' & Hlo & Hhi). destruct (Hslots j) as [n Hn]; [lia|].
    eapply (wp_deinstall_slot j b'); [done|done|rewrite Hhi by lia; exact Hn|].
    intros σ2 Hqt2 Hb2 Hon2 Hok2. split_and!; [eapply quiet_trans; [|done..]; intros k c; apply flush_to_in|congruence|by rewrite flush_to_S|].
    eexists. split_and!; [done| |]; intros k Hk; cbn.
    + destruct (decide (k = j)) as [->|]; [by rewrite lookup_insert_eq|rewrite lookup_insert_ne by done; apply Hlo; lia].
    + rewrite lookup_insert_ne by lia. apply Hhi. lia.
  - intros σ' (Hqt & Hon' & Hok & b' & Hb' & Hlo & Hhi). wp_step. eapply wp_upd_bufs; [done|]. wp_step.
    assert (Hdead : ∀ i, live σ' (RInq (S i)) = false).
    { intros i. simpl. rewrite Hb'. destruct (decide (i < NR)) as [Hi|Hi].
      - specialize (Hlo i Hi). destruct (b_slots b' !! i) as [[]|]; simpl in *; congruence.
      - rewrite Hhi by (simpl; lia). destruct (live σ (RInq (S i))) eqn:Hl.
        + by apply (bo_range σ HB) in Hl.
        + simpl in Hl. rewrite Hb in Hl. done. }
    assert (Hlv : ∀ r, live (σ' <| bufs := Some (b' <| nonmsgs_in_slots := 0%Z |> <| msgs_in_slots := 0%Z |>
                     <| nonempty_slots := 0%Z |>) |> <| sig_inq_buffers := false |>) r = live σ' r).
    { intros r. destruct r as [[|i]| |]; try done. simpl. by rewrite Hb'. }
    apply HQ; [|done]. constructor.
    + by destruct Hqt.
    + constructor; [done|intros _ i; by rewrite Hlv|intros i; by rewrite Hlv, Hdead].
    + intros b2 _. by right.
    + done.
    + done.
    + eapply queues_ok_same; [exact Hok|exact Hlv|done|done].
Qed.

Lemma wp_proc_sig_queue_flush_buffers b C (Q : unit → sqs → Prop) σ :
  bufs_ok σ → queues_ok σ C → sig_inq_buffers σ = true → bufs σ = Some b →
  (∀ i, C (RInq (S i)) ≠ [] → Z.testbit (nonempty_slots b) (Z.of_nat i) = true) →
  (∀ σ', flush_post σ C σ' → Q tt σ') →
  wp proc_sig_queue_flush_buffers Q σ.
Proof.
  intros HB HC Hon Hb Hne HQ. unfold proc_sig_queue_flush_buffers.
  destruct (bo_on σ HB Hon) as (b0 & Hb0 & Hal & Hslots). rewrite Hb in Hb0. injection Hb0 as <-.
  wp_step. eapply wp_get_bufs; [done|]. wp_step. eapply wp_upd_bufs; [done|]. wp_step.
  set (ne := nonempty_slots b) in *.
  set (bz := b <| msgs_in_slots := 0%Z |> <| nonmsgs_in_slots := 0%Z |> <| nonempty_slots := 0%Z |>).
  set (σz := σ <| bufs := Some bz |>).
  assert (HCz : queues_ok σz C).
  { eapply queues_ok_same; [done| |done|done]. intros r. destruct r as [[|i]| |]; try done. simpl. by rewrite Hb. }
  assert (HBz : bufs_ok σz).
  { constructor; [by eauto|simpl in *; congruence|]. intros i Hl. apply (bo_range σ HB). simpl in *. by rewrite Hb. }
  assert (Hloop : wp (if decide (ne ≠ 0%Z) then for_range (flush_slot ne) 0 NR else mret tt)
    (λ _ σ', ∃ b', flushed C σz bz σ' b' (flush_all C)) σz).
  { destruct (decide (ne ≠ 0%Z)) as [Hd|Hd].
    - apply (wp_for_range (λ i σ', ∃ b', flushed C σz bz σ' b' (flush_to C i))).
      + exists bz. by constructor.
      + intros j σ' Hj (b' & Hf). destruct (Hslots j) as [n Hn]; [lia|].
        destruct (slots_like bz b' j n (fd_like _ _ _ _ _ _ Hf) Hn) as [m Hm].
        eapply (wp_flush_slot ne j m b'); [apply Hf|apply Hf|done| |].
        * rewrite flush_to_slot. rewrite decide_False by lia. apply Hne.
        * intros σ2 b2 Hf2. exists b2. rewrite flush_to_S. eapply flushed_trans; [|done..]. intros k c. apply flush_to_in.
      + done.
    - wp_step. exists bz. constructor; try done. eapply queues_ok_ext; [done|]. intros r.
      apply flush_all_id. intros i. destruct (C (RInq (S i))) eqn:HCi; [done|]. exfalso. apply Hd. intros H0.
      specialize (Hne i). rewrite HCi, H0, Z.bits_0 in Hne. by discriminate Hne. }
  eapply wp_mono; [exact Hloop|]. clear Hloop. cbv beta. intros [] σ1 (b1 & Hf).
  assert (HB1 : bufs_ok σ1) by (eapply bufs_ok_like; [exact HBz|done|apply Hf..]).
  wp_step. eapply wp_upd_bufs; [apply Hf|]. wp_step. eapply wp_get_bufs; [done|]. cbn.
  set (b2 := b1 <| nr_of_rounds_left ::= λ n, u64 (n - 1) |>).
  assert (Hsame : ∀ b3, bufs_like b1 b3 → flush_post σ C (σ1 <| bufs := Some b3 |>)).
  { intros b3 Hl. destruct Hf as [Hqt Hb1 Hlike Hon1 Hok]. constructor.
    - by destruct Hqt.
    - eapply bufs_ok_like; [exact HB1|exact Hb1|done|done|done].
    - intros b4 [= <-]. left. rewrite (bl_nonempty _ _ Hl), (bl_nonempty _ _ Hlike). done.
    - cbn. by rewrite Hon1.
    - done.
    - eapply queues_ok_same; [exact Hok| |done|done]. intros r. eapply live_like; [exact Hb1|done|done]. }
  pose proof (Hsame b2 ltac:(done)) as Hp2.
  case_decide as Hr; [|by apply HQ]. case_decide as Hen.
  - eapply wp_flush_and_deinstall; [apply Hp2|apply Hp2|]. intros σ3 Hp3 Hon3. apply HQ.
    destruct Hp2 as [Hq2 _ _ Ho2 Hs2 Hok2], Hp3 as [Hq3 HB3 He3 Ho3 Hs3 Hok3].
    constructor; [eapply quiet_trans; [|done..]; intros k c; apply flush_to_in|done|done|by auto|by auto|].
    eapply queues_ok_ext; [exact Hok3|]. intros r. symmetry. apply flush_all_id. intros i.
    exact (flush_all_slot σ C i HB HC).
  - eapply wp_upd_bufs; [done|]. apply HQ. apply Hsame. done.
Qed.

(** Flushing the buffers, installed or not. *)
Lemma wp_erts_flush_buffers C (Q : unit → sqs → Prop) σ :
  bufs_ok σ → queues_ok σ C →
  (∀ b i, bufs σ = Some b → C (RInq (S i)) ≠ [] → Z.testbit (nonempty_slots b) (Z.of_nat i) = true) →
  (∀ σ', flush_post σ C σ' → Q tt σ') →
  wp erts_proc_sig_queue_flush_buffers Q σ.
Proof.
  intros HB HC Hne HQ. unfold erts_proc_sig_queue_flush_buffers, erts_proc_sig_queue_get_buffers.
  wp_step. wp_step. wp_step. destruct (sig_inq_buffers σ) eqn:Hon.
  - destruct (bo_on σ HB Hon) as (b & Hb & _). eapply wp_proc_sig_queue_flush_buffers; [done..| |done].
    intros i. by apply Hne.
  - wp_step. apply HQ. constructor; [done|done|by right|congruence|done|]. eapply queues_ok_ext; [done|].
    by eapply flush_all_nil.
Qed.

(** A new array, every slot empty. *)
Lemma wp_maybe_install C st (Q : unit → sqs → Prop) σ :
  bufs_ok σ → queues_ok σ C →
  (∀ σ', quiet C σ σ' → bufs_ok σ' → queues_ok σ' C → σ' = σ ∨
     (Z.land st ERTS_PSFLG_OFF_HEAP_MSGQ ≠ 0%Z ∧ sig_inq_buffers σ = false ∧ sig_inq_buffers σ' = true) → Q tt σ') →
  wp (erts_proc_sig_queue_maybe_install_buffers st) Q σ.
Proof.
  intros HB HC HQ. unfold erts_proc_sig_queue_maybe_install_buffers. wp_step. wp_step. case_decide as Hd.
  { wp_step. apply HQ; [done..|by left]. }
  assert (Z.land st ERTS_PSFLG_OFF_HEAP_MSGQ ≠ 0%Z) as Hoff by tauto.
  assert (sig_inq_buffers σ = false) as Hon by (destruct (sig_inq_buffers σ); tauto).
  wp_step. wp_step. wp_step. wp_step. wp_step.
  assert (Hempty : ∀ i, C (RInq (S i)) = []) by (intros i; apply (qo_dead σ C HC); by apply (bo_off σ HB)).
  eapply (wp_for_range (λ i σ', quiet C σ σ' ∧ sigs σ' = sigs σ ∧ inqs σ' !! 0 = inqs σ !! 0 ∧
    ∃ b, bufs σ' = Some b ∧ b_alive b = true ∧
      (∀ j, j < i → b_slots b !! j = Some (true, 0%Z) ∧ inqs σ' !! S j = Some (inq_empty (S j))) ∧
      (∀ j, i ≤ j → b_slots b !! j = None))).
  - split_and!; try done. eexists. split_and!; [done..|lia|done].
  - intros j σ' Hj (Hqt & Hsg & H0 & b & Hb & Hal & Hlo & Hhi). wp_step. eapply wp_upd_bufs; [done|]. wp_step.
    split_and!; [by destruct Hqt|done|cbn; by rewrite lookup_insert_ne|]. eexists. split_and!; [done|done| |].
    + intros k Hk. cbn. destruct (decide (k = j)) as [->|]; [by rewrite !lookup_insert_eq|].
      rewrite !lookup_insert_ne by congruence. apply Hlo. lia.
    + intros k Hk. cbn. rewrite lookup_insert_ne by lia. apply Hhi. lia.
  - intros σ' (Hqt & Hsg & H0 & b & Hb & Hal & Hlo & Hhi). apply wp_modify.
    set (σ2 := σ' <| sig_inq_buffers := true |>).
    assert (Hlv : ∀ i, live σ2 (RInq (S i)) = bool_decide (i < NR)).
    { intros i. simpl. rewrite Hb. case_bool_decide as Hi.
      - by destruct (Hlo i Hi) as [-> _].
      - by rewrite Hhi by (simpl; lia). }
    apply HQ; [by destruct Hqt| | |by right].
    + constructor.
      * intros _. exists b. split_and!; [done|done|]. intros i Hi. destruct (Hlo i Hi) as [? _]. eauto.
      * done.
      * intros i. rewrite Hlv. apply bool_decide_eq_true.
    + constructor.
      * intros r Hr. destruct r as [[|i]| |].
        -- destruct (qo_rep σ C HC (RInq 0) eq_refl) as (v & Hv & Hrep). exists v.
           split; [simpl in *; by rewrite H0|]. unfold vrep in *. cbn. by rewrite Hsg.
        -- exists (empty_view (RInq (S i))). rewrite Hempty. split; [|apply vrep_empty].
           rewrite Hlv in Hr. apply bool_decide_eq_true in Hr. simpl. by destruct (Hlo i Hr) as [_ ->].
        -- destruct (qo_rep σ C HC RInner eq_refl) as (v & Hv & Hrep). exists v.
           split; [simpl in *; by rewrite (qt_qs _ _ _ Hqt)|]. unfold vrep in *. cbn. by rewrite Hsg.
        -- destruct (qo_rep σ C HC RCont eq_refl) as (v & Hv & Hrep). exists v.
           split; [simpl in *; by rewrite (qt_qs _ _ _ Hqt)|]. unfold vrep in *. cbn. by rewrite Hsg.
      * intros r Hr. destruct r as [[|i]| |]; [done|apply Hempty|done..].
      * apply HC.
Qed.

End flow.
