(* ===== verification/SigFetch.v ===== *)
(** The receiver fetches the outer queue into its inner queue of messages or its
    middle queue of signals. *)

From stdpp Require Import base numbers functions list gmap sets.
From Stdlib Require Import ZArith Lia.
From S2P Require Import Prelude PonPremise RecvMarker SigQueue SigInv SigOps SigConcat SigEnqueue SigFlow.

#[local] Opaque flush_all.

Section fetch.
Implicit Types σ : sqs.
Implicit Types C : region → list positive.

Lemma wp_append_inner lk l f2 (Q : unit → sqs → Prop) σ :
  lk = end_cell QsFirst l → (∀ a, last l = Some a → is_Some (sigs σ !! a)) →
  Q tt (σ <| sigs := link_last (last l) f2 (sigs σ) |>
          <| qs ::= λ x, x <| qs_first := match l with [] => f2 | _ => qs_first x end |> |>) →
  wp (write_link lk f2) Q σ.
Proof.
  intros He Hv HQ. apply wp_write_link.
  { rewrite He. unfold end_cell. destruct (last l); simpl; [by apply Hv|done]. }
  rewrite He. destruct σ as [? ? ? ? ? x]. destruct x. destruct l as [|y l _] using rev_ind; [done|].
  unfold end_cell. rewrite last_snoc in *. cbn in *. by destruct l.
Qed.

Lemma wp_append_cont lk l f2 (Q : unit → sqs → Prop) σ :
  lk = end_cell QsCont l → (∀ a, last l = Some a → is_Some (sigs σ !! a)) →
  Q tt (σ <| sigs := link_last (last l) f2 (sigs σ) |>
          <| qs ::= λ x, x <| qs_cont := match l with [] => f2 | _ => qs_cont x end |> |>) →
  wp (write_link lk f2) Q σ.
Proof.
  intros He Hv HQ. apply wp_write_link.
  { rewrite He. unfold end_cell. destruct (last l); simpl; [by apply Hv|done]. }
  rewrite He. destruct σ as [? ? ? ? ? x]. destruct x. destruct l as [|y l _] using rev_ind; [done|].
  unfold end_cell. rewrite last_snoc in *. cbn in *. by destruct l.
Qed.

(** The private queue [r] with the view [v]. *)
Definition set_priv (r : region) (v : qview) (x : ErtsSignalPrivQueues) : ErtsSignalPrivQueues :=
  match r with
  | RInner => x <| qs_first := v_first v |> <| qs_last := v_last v |> <| mq_len := v_off v |>
  | RCont => x <| qs_cont := v_first v |> <| qs_cont_last := v_last v |> <| qs_nm_next := v_nn v |>
               <| qs_nm_last := v_nl v |> <| qs_mlenoffs := v_off v |>
  | RInq _ => x
  end.

(** The situation in which the fetch starts: the outer queue holds [l2]. *)
Record fetch_pre σ (q : ErtsSignalInQueue) (r : region) (v : qview) (l1 l2 : list positive) : Prop := {
  fe_q : inqs σ !! 0 = Some q;
  fe_rep : vrep (sigs σ) (RInq 0) (view_q q) l2;
  fe_view : view σ r = Some v;
  fe_vrep : vrep (sigs σ) r v l1;
  fe_disj : ∀ a, a ∈ l1 → a ∉ l2;
  fe_ne : l2 ≠ []
}.

Lemma fe_last σ q r v l1 l2 a : fetch_pre σ q r v l1 l2 → last l1 = Some a → is_Some (sigs σ !! a).
Proof. intros H Ha. eapply lseg_dom; [apply (fe_vrep _ _ _ _ _ _ H)|by apply last_Some_elem_of]. Qed.

Definition fetched σ (q : ErtsSignalInQueue) (r : region) (v : qview) (l1 l2 : list positive)
    (sg' : gmap positive ErtsSignal) (n : Z) : Prop :=
  spliced (sigs σ) sg' (anchor_of r) l1 l2 (q_first q) ∧ offs sg' 0 (l1 ++ l2) n.

(** Messages only. *)
Lemma fetched_msgs σ q r v l1 l2 :
  fetch_pre σ q r v l1 l2 → q_nm_next q = None →
  fetched σ q r v l1 l2 (link_last (last l1) (q_first q) (sigs σ)) (v_off v + q_mlenoffs q) ∧
  (∀ c, cells (sigs σ) c l2 = []) ∧ end_cell (v_last v) l2 = q_last q.
Proof.
  intros [Hq Hr2 Hv Hr1 Hdis Hne] Hnn. pose proof Hr2 as [Hs2 Hnd2 He2 Hn2 Hl2 Hc2 Ho2].
  pose proof Hr1 as [Hs1 Hnd1 He1 Hn1 Hl1 Hc1 Ho1]. cbn in *.
  assert (∀ c, cells (sigs σ) c l2 = []) as Hno.
  { intros c. apply (cells_nil_move _ (InqFirst 0)). rewrite Hnn in Hn2. by destruct (cells (sigs σ) (InqFirst 0) l2) as [|[]]. }
  split_and!; [split|done|].
  - apply (spliced_link _ (sigs σ) _ _ _ (v_first v)); try done. intros a. rewrite Hno.
    by rewrite decide_False by (by intros [_ ?]).
  - pose proof (offs_splice (sigs σ) (link_last (last l1) (q_first q) (sigs σ)) (anchor_of r) l1 l2 _ _ Ho1 Ho2 Hnd2 Hdis) as Hoff.
    rewrite Hno in Hoff. rewrite Z.add_comm. apply Hoff; intros a; [apply snm_link_last|].
    intros _. rewrite smo_link_last. by rewrite decide_False.
  - rewrite He2. unfold end_cell. destruct (last l2) eqn:Hx; [done|]. by apply last_None in Hx.
Qed.

Lemma wp_fetch_inner q v l1 l2 (Q : unit → sqs → Prop) σ :
  fetch_pre σ q RInner v l1 l2 → q_nm_next q = None →
  (∀ sg' n, fetched σ q RInner v l1 l2 sg' n →
     Q tt (σ <| sigs := sg' |> <| qs ::= set_priv RInner (splice_view (sigs σ) v l1 (q_first q) l2 n) |>)) →
  wp fetch_inner Q σ.
Proof.
  intros Hpre Hnn HQ. destruct (fetched_msgs _ _ _ _ _ _ Hpre Hnn) as (Hf & Hno & He).
  pose proof (fe_view _ _ _ _ _ _ Hpre) as [= <-]. pose proof (rp_end _ _ _ _ _ _ _ _ (fe_vrep _ _ _ _ _ _ Hpre)) as He1.
  unfold fetch_inner. wp_step. eapply wp_load_q; [apply Hpre|]. wp_step. apply wp_get_qs. wp_step.
  apply (wp_append_inner _ l1); [exact He1|intros a; by eapply fe_last|]. wp_step. apply wp_upd_qs. apply wp_upd_qs.
  specialize (HQ _ _ Hf). destruct σ as [? ? ? ? ? x]. destruct x. cbn in *. rewrite He in HQ. exact HQ.
Qed.

Lemma wp_fetch_middle_msgs q v l1 l2 (Q : unit → sqs → Prop) σ :
  fetch_pre σ q RCont v l1 l2 → q_nm_next q = None →
  (∀ sg' n, fetched σ q RCont v l1 l2 sg' n →
     Q tt (σ <| sigs := sg' |> <| qs ::= set_priv RCont (splice_view (sigs σ) v l1 (q_first q) l2 n) |>)) →
  wp fetch_middle_msgs Q σ.
Proof.
  intros Hpre Hnn HQ. destruct (fetched_msgs _ _ _ _ _ _ Hpre Hnn) as (Hf & Hno & He).
  pose proof (fe_view _ _ _ _ _ _ Hpre) as [= <-]. pose proof (rp_end _ _ _ _ _ _ _ _ (fe_vrep _ _ _ _ _ _ Hpre)) as He1.
  unfold fetch_middle_msgs. wp_step. eapply wp_load_q; [apply Hpre|]. wp_step. apply wp_get_qs. wp_step.
  apply (wp_append_cont _ l1); [exact He1|intros a; by eapply fe_last|]. wp_step. apply wp_upd_qs. apply wp_upd_qs.
  specialize (HQ _ _ Hf). unfold splice_view in HQ. rewrite Hno in HQ. destruct σ as [? ? ? ? ? x]. destruct x. cbn in *.
  rewrite He in HQ. by destruct qs_nm_next.
Qed.

(** The link of the last non-message signal of the middle queue, and the start of
    its non-message signals. *)
Lemma wp_fetch_nm l1 c sgm (Q : Z → sqs → Prop) σ :
  sigs σ = sgm → lseg (snx sgm) (qs_cont (qs σ)) l1 None →
  qs_nm_next (qs σ) = first_cell (cells sgm QsCont l1) → qs_nm_last (qs σ) = last_cell (cells sgm QsCont l1) →
  (∀ flag sg2, (∀ a, snx sg2 a = snx sgm a) → (∀ a, sct sg2 a = sct sgm a) → (∀ a, smo sg2 a = smo sgm a) →
     (∀ a, ssp sg2 a = if decide (snd <$> last (cells sgm QsCont l1) = Some a) then Some c else ssp sgm a) →
     (∀ a, a ∉ l1 → sg2 !! a = sgm !! a) → (flag = ERTS_PSFLG_SIG_Q ∨ flag = 0%Z) →
     Q flag (σ <| sigs := sg2 |>
               <| qs ::= λ x, x <| qs_nm_next := match qs_nm_next x with None => c | y => y end |> |>)) →
  wp (match qs_nm_last (qs σ) with
      | None => _ ← upd_qs (λ x, x <| qs_nm_next := c |>); mret ERTS_PSFLG_SIG_Q
      | Some _ =>
          sig ← pointee (qs_nm_last (qs σ));
          _ ← upd_s sig (λ s, s <| specific_next := c |>);
          mret 0%Z
      end) Q σ.
Proof.
  intros <- Hs1 Hn1 Hl1 HQ.
  destruct (last (cells (sigs σ) QsCont l1)) as [[y a1]|] eqn:Hla.
  - unfold last_cell in Hl1. rewrite Hla in Hl1. cbn in Hl1. rewrite Hl1. apply last_Some_elem_of in Hla as Hin.
    wp_step. apply (wp_pointee_at σ QsCont (qs_cont (qs σ)) l1 None y a1); [|done|done|].
    { intros Q' HQ'. simpl. wp_step. apply wp_get_qs. by apply wp_ret. }
    apply cells_elem in Hin as [Hin _]. assert (is_Some (sigs σ !! a1)) as Ha1 by (by eapply lseg_dom).
    wp_step. apply wp_upd_s; [done|]. wp_step. specialize (HQ 0%Z (alter (λ s, s <| specific_next := c |>) a1 (sigs σ))).
    assert (∃ n1, qs_nm_next (qs σ) = Some n1) as [n1 Hn1'].
    { rewrite Hn1. destruct (cells (sigs σ) QsCont l1) as [|[n1 ?]]; [done|by exists n1]. }
    destruct σ as [? ? ? ? ? x]. destruct x. cbn in *. rewrite Hn1' in HQ |- *. apply HQ.
    + intros a. by apply view_alter_id.
    + intros a. by apply view_alter_id.
    + intros a. by apply view_alter_id.
    + intros a. unfold ssp. rewrite view_alter. destruct (decide (a = a1)) as [->|Hne].
      * rewrite decide_True by done. destruct Ha1 as [s Hs]. cbn in Hs. by rewrite Hs.
      * by rewrite decide_False by congruence.
    + intros a Ha. rewrite lookup_alter_ne by congruence. done.
    + by right.
  - apply last_None in Hla. rewrite Hla in *. rewrite Hl1. cbn. wp_step. apply wp_upd_qs. wp_step.
    specialize (HQ ERTS_PSFLG_SIG_Q (sigs σ)). destruct σ as [? ? ? ? ? x]. destruct x. cbn in *. subst.
    apply HQ; try done. by left.
Qed.

Lemma wp_fetch_middle_sigs q v l1 l2 (Q : Z → sqs → Prop) σ :
  fetch_pre σ q RCont v l1 l2 → q_nm_next q ≠ None →
  (∀ flag sg' n, fetched σ q RCont v l1 l2 sg' n → (flag = ERTS_PSFLG_SIG_Q ∨ flag = 0%Z) →
     Q flag (σ <| sigs := sg' |> <| inqs ::= <[0 := q <| q_nm_next := None |> <| q_nm_last := None |>]> |>
            <| qs ::= set_priv RCont (splice_view (sigs σ) v l1 (q_first q) l2 n) |>)) →
  wp fetch_middle_sigs Q σ.
Proof.
  intros Hpre Hnn HQ. pose proof Hpre as [Hq Hr2 [= <-] Hr1 Hdis Hne].
  pose proof Hr2 as [Hs2 Hnd2 He2 Hn2 Hl2 Hc2 Ho2]. pose proof Hr1 as [Hs1 Hnd1 He1 Hn1 Hl1 Hc1 Ho1]. cbn in *.
  destruct (cells (sigs σ) (InqFirst 0) l2) as [|[x2 a2] cs2] eqn:Hcs2; [done|]. cbn in Hn2.
  assert (Hin : (x2, a2) ∈ cells (sigs σ) (InqFirst 0) l2) by (rewrite Hcs2; left).
  assert (Ha2 : a2 ∈ l2) by by apply cells_elem in Hin as [? _].
  assert (Hea : end_cell (InqFirst 0) l2 = end_cell (qs_cont_last (qs σ)) l2).
  { unfold end_cell. destruct (last l2) eqn:Hx; [done|]. by apply last_None in Hx. }
  assert (Hanc : anchor (InqFirst 0)) by done.
  pose proof (first_cell_move _ _ (qs_cont_last (qs σ)) _ _ _ _ Hanc Hcs2) as Hfc.
  pose proof (last_cell_move _ _ (qs_cont_last (qs σ)) _ _ _ _ Hanc Hcs2) as Hlc.
  unfold fetch_middle_sigs. wp_step. eapply wp_load_q; [done|]. rewrite Hn2. wp_step.
  apply (wp_pointee σ (RInq 0) (view_q q) l2 x2 a2); [cbn; by rewrite Hq|done..|]. wp_step. apply wp_get_qs.
  wp_step. apply wp_upd_s; [by eapply lseg_dom; [exact Hs2|]|]. wp_step. apply wp_upd_qs. cbn.
  match goal with |- context [alter ?f a2 _] => set (fa := f) end. set (sgm := alter fa a2 (sigs σ)).
  assert (Hnm : ∀ a, snm sgm a = snm (sigs σ) a) by (intros a; by apply snm_alter).
  assert (Hcs : ∀ c l, cells sgm c l = cells (sigs σ) c l) by (intros c l; by apply cells_ext).
  set (c := if decide (Some x2 = Some (InqFirst 0)) then Some (qs_cont_last (qs σ)) else Some x2).
  assert (Hc : first_cell (cells (sigs σ) (qs_cont_last (qs σ)) l2) = c).
  { rewrite Hfc. unfold c. repeat case_decide; congruence. }
  wp_step. match goal with |- wp _ _ ?τ => apply (wp_fetch_nm l1 c sgm _ τ) end; [done| |by cbn; rewrite Hcs..|].
  { eapply lseg_frame; [|exact Hs1]. intros a _. by apply view_alter_id. }
  intros flag sg2 Hnx Hct Hmo Hsp Hout Hflag. cbn. wp_step.
  set (nl := last_cell (cells (sigs σ) (qs_cont_last (qs σ)) l2)) in *.
  match goal with |- wp (if decide ?P then upd_qs ?f else upd_qs ?g) ?Q' ?τ =>
    assert (Hnl : (∀ τ', τ' = τ <| qs ::= λ x, x <| qs_nm_last := nl |> |> → Q' tt τ') →
      wp (if decide P then upd_qs f else upd_qs g) Q' τ) end.
  { intros HQ'. rewrite Hl2. rewrite Hcs2 in *. rewrite Hlc in HQ'. case_decide as Hd; apply wp_upd_qs, HQ'; cbn; [done|].
    done. }
  apply Hnl. intros τ' ->. clear Hnl. cbn. wp_step. eapply wp_upd_q_ins; [done|]. wp_step. apply wp_get_qs. wp_step.
  match goal with |- wp _ _ ?τ => apply (wp_append_cont _ l1 (q_first q) _ τ) end; [exact He1| |].
  { cbn. intros a Ha. apply (sct_dom sgm); [apply Hct|]. apply (sct_dom (sigs σ)); [by apply view_alter_id|].
    by eapply fe_last. }
  wp_step. apply wp_upd_qs. wp_step. cbn.
  assert (Hf : fetched σ q RCont (mkView (qs_cont (qs σ)) (qs_cont_last (qs σ)) (qs_nm_next (qs σ)) (qs_nm_last (qs σ)) (qs_mlenoffs (qs σ)))
    l1 l2 (link_last (last l1) (q_first q) sg2) (q_mlenoffs q)).
  { apply (spliced_nm (sigs σ) sg2 QsCont l1 l2 (qs_cont (qs σ)) (q_first q) a2 (qs_mlenoffs (qs σ))); try done.
    - by rewrite (cells_head_move _ _ (InqFirst 0)), Hcs2.
    - intros a. rewrite Hnx. by apply view_alter_id.
    - intros a. rewrite Hct. by apply view_alter_id.
    - intros a. rewrite Hmo. unfold sgm, smo. rewrite view_alter. destruct (decide (a = a2)) as [->|]; [|done].
      by destruct (sigs σ !! a2).
    - intros a. rewrite Hsp, Hcs, <- He1, Hc. destruct (decide (snd <$> _ = Some a)); [done|]. by apply view_alter_id.
    - intros a Ha Hb. rewrite Hout by done. unfold sgm. by rewrite lookup_alter_ne by congruence. }
  specialize (HQ flag _ _ Hf Hflag). unfold splice_view in HQ. cbn in HQ.
  destruct (cells (sigs σ) (qs_cont_last (qs σ)) l2) as [|p cs] eqn:Hce; [by unfold c in Hc; case_decide|].
  rewrite Hc, <- Hea, <- He2 in HQ. destruct σ as [? ? ? ? ? x]. destruct x. exact HQ.
Qed.

(** ** The fetch *)

(** The outer queue moved to the end of queue [r]. *)
Definition move_outer C (r : region) : region → list positive :=
  <[r := C r ++ C (RInq 0)]> (<[RInq 0 := []]> C).

Lemma move_outer_nil C r r' : (∀ i, r ≠ RInq i) → C (RInq 0) = [] → move_outer C r r' = C r'.
Proof.
  intros Hr He. unfold move_outer. destruct (decide (r' = r)) as [->|]; [by rewrite fn_lookup_insert, He, app_nil_r|].
  rewrite fn_lookup_insert_ne by done. destruct (decide (r' = RInq 0)) as [->|]; [by rewrite fn_lookup_insert|].
  by rewrite fn_lookup_insert_ne.
Qed.

Lemma move_outer_dest C r : move_outer C r r = C r ++ C (RInq 0).
Proof. apply fn_lookup_insert. Qed.

Lemma move_outer_0 C r : r ≠ RInq 0 → move_outer C r (RInq 0) = [].
Proof. intros Hr. unfold move_outer. rewrite fn_lookup_insert_ne by done. apply fn_lookup_insert. Qed.

Lemma move_outer_ne C r r' : r' ≠ r → r' ≠ RInq 0 → move_outer C r r' = C r'.
Proof. intros H1 H2. unfold move_outer. by rewrite !fn_lookup_insert_ne. Qed.

Lemma fetch_pre_of σ C r :
  queues_ok σ C → (∀ i, r ≠ RInq i) → C (RInq 0) ≠ [] →
  ∃ q v, fetch_pre σ q r v (C r) (C (RInq 0)).
Proof.
  intros HC Hr Hne. destruct (queues_ok_inq σ C 0 HC eq_refl) as (q & Hq & Hrep).
  assert (live σ r = true) as Hl by (destruct r as [i| |]; [by exfalso; eapply Hr|done..]).
  destruct (qo_rep σ C HC r Hl) as (v & Hv & Hrv). exists q, v. constructor; try done.
  intros a Ha Hb. by apply (Hr 0), (qo_disj σ C HC r (RInq 0) a).
Qed.

Lemma queues_ok_moved σ σ' C q r v n :
  queues_ok σ C → (∀ i, r ≠ RInq i) → fetch_pre σ q r v (C r) (C (RInq 0)) →
  fetched σ q r v (C r) (C (RInq 0)) (sigs σ') n →
  qs σ' = set_priv r (splice_view (sigs σ) v (C r) (q_first q) (C (RInq 0)) n) (qs σ) →
  inqs σ' !! 0 = Some (inq_empty 0) → (∀ i, i ≠ 0 → inqs σ' !! i = inqs σ !! i) →
  (∀ r', live σ' r' = live σ r') → (r = RInner → ∀ c, cells (sigs σ) c (C (RInq 0)) = []) →
  queues_ok σ' (move_outer C r).
Proof.
  intros HC Hr [Hq Hrep Hv Hrv Hdis Hne] [Hsp Hoff] Hqs H0 Hi Hl Hmsg.
  assert (live σ r = true) as Hlr by (destruct r as [i| |]; [by exfalso; eapply Hr|done..]).
  eapply (queues_ok_splice σ σ' C (move_outer C r) r v (q_first q) (C (RInq 0)) (InqFirst 0)); try done; try apply Hrep.
  - destruct r as [i| |]; [by exfalso; eapply Hr|..]; simpl in *; rewrite Hqs; cbn.
    + injection Hv as <-. unfold splice_view. cbn. by rewrite Hmsg.
    + by injection Hv as <-.
  - apply move_outer_dest.
  - intros r' Hr' Hd. destruct (decide (r' = RInq 0)) as [->|H0']; [by apply move_outer_0|].
    rewrite move_outer_ne by done. apply (qo_dead σ C HC). by rewrite <- Hl.
  - intros r' Hr' Hlr'. destruct (decide (r' = RInq 0)) as [->|H0'].
    + left. split; [by apply move_outer_0|]. simpl. by rewrite H0.
    + right. rewrite move_outer_ne by done. split_and!; [by rewrite <- Hl|done| |].
      * destruct r' as [i| |]; simpl; [rewrite Hi; congruence|..].
        -- rewrite Hqs. by destruct r as [i| |]; [by exfalso; eapply Hr|..].
        -- rewrite Hqs. by destruct r as [i| |]; [by exfalso; eapply Hr|..].
      * intros a Ha Hb. by apply H0', (qo_disj σ C HC r' (RInq 0) a).
  - by rewrite Hl.
Qed.

(** Where the outer queue goes: to the inner queue when it holds messages only, the
    middle queue is empty and received messages are not traced. *)
Definition fetch_dest (sg : gmap positive ErtsSignal) C (traced : bool) : region :=
  if decide (C RCont = [] ∧ traced = false ∧ Forall (λ a, snm sg a = false) (C (RInq 0))) then RInner else RCont.

Lemma fetch_dest_priv sg C traced i : fetch_dest sg C traced ≠ RInq i.
Proof. unfold fetch_dest. by case_decide. Qed.

(** What a fetch leaves alone: the save pointer, the content of the signals, the
    flags of the process other than the three about its queues. *)
Definition queue_flags : Z := Z.lor (Z.lor ERTS_PSFLG_MSG_SIG_IN_Q ERTS_PSFLG_NMSG_SIG_IN_Q) ERTS_PSFLG_SIG_Q.

Record fetch_frame σ σ' : Prop := {
  ff_save : qs_save (qs σ') = qs_save (qs σ);
  ff_flags : qs_flags (qs σ') = qs_flags (qs σ);
  ff_blk : recv_mrk_blk (qs σ') = recv_mrk_blk (qs σ);
  ff_prs : sq_prs σ' = sq_prs σ;
  ff_pend : pending_signal σ' = pending_signal σ;
  ff_ct : ∀ a, sct (sigs σ') a = sct (sigs σ) a;
  ff_psflgs : ∀ m, Z.land queue_flags m = 0%Z → Z.land (psflgs σ') m = Z.land (psflgs σ) m;
  ff_on : sig_inq_buffers σ' = true → sig_inq_buffers σ = true
}.

Lemma fetch_frame_trans σ1 σ2 σ3 : fetch_frame σ1 σ2 → fetch_frame σ2 σ3 → fetch_frame σ1 σ3.
Proof.
  intros [] []. constructor; try congruence; [|by auto]. intros m Hm.
  etransitivity; [eapply ff_psflgs1|eapply ff_psflgs0]; done.
Qed.

Lemma land_mask f c s m :
  Z.land (Z.lor c s) m = 0%Z → Z.land (Z.lor (Z.land f (Z.lnot c)) s) m = Z.land f m.
Proof.
  intros Hm. apply Z.bits_inj'. intros n Hn. assert (Z.testbit (Z.land (Z.lor c s) m) n = false) as Hb
    by (rewrite Hm; apply Z.bits_0).
  rewrite !Z.land_spec, !Z.lor_spec in *. rewrite Z.land_spec, Z.lnot_spec by done.
  destruct (Z.testbit f n), (Z.testbit c n), (Z.testbit s n), (Z.testbit m n); done.
Qed.

Lemma land_lor_mask f s m : Z.land s m = 0%Z → Z.land (Z.lor f s) m = Z.land f m.
Proof.
  intros Hm. apply Z.bits_inj'. intros n Hn. assert (Z.testbit (Z.land s m) n = false) as Hb
    by (rewrite Hm; apply Z.bits_0).
  rewrite !Z.land_spec, Z.lor_spec in *. destruct (Z.testbit f n), (Z.testbit s n), (Z.testbit m n); done.
Qed.

(** Parts of the three flags. *)
Lemma land_part s m : Z.land s queue_flags = s → Z.land queue_flags m = 0%Z → Z.land s m = 0%Z.
Proof. intros Hs Hm. by rewrite <- Hs, <- Z.land_assoc, Hm, Z.land_0_r. Qed.

Lemma wp_fetch_flags buffers s C (Q : unit → sqs → Prop) σ :
  queues_ok σ C → (buffers = true → is_Some (bufs σ)) → Z.land s queue_flags = s →
  (∀ σ', queues_ok σ' C → bufs σ' = bufs σ → sig_inq_buffers σ' = sig_inq_buffers σ → qs σ' = qs σ →
     fetch_frame σ σ' → Q tt σ') →
  wp (if buffers then fetch_flags_buffers s else fetch_flags s) Q σ.
Proof.
  intros HC Hb Hs HQ. set (c := Z.lor ERTS_PSFLG_MSG_SIG_IN_Q ERTS_PSFLG_NMSG_SIG_IN_Q).
  assert (Hfl : ∀ Q', Q' tt (σ <| psflgs ::= λ f, Z.lor (Z.land f (Z.lnot c)) s |>) → wp (fetch_flags s) Q' σ).
  { intros Q' HQ'. by apply wp_modify. }
  assert (Hmask : ∀ m, Z.land queue_flags m = 0%Z → Z.land (Z.lor c s) m = 0%Z).
  { intros m Hm. rewrite Z.land_lor_distr_l. rewrite (land_part c), (land_part s) by done. done. }
  assert (Hsame : ∀ f, queues_ok (σ <| psflgs := f |>) C) by (intros f; by eapply queues_ok_same).
  destruct buffers.
  - unfold fetch_flags_buffers. wp_step. apply Hfl. destruct (Hb eq_refl) as [b Hb']. wp_step.
    eapply wp_get_bufs; [done|].
    assert (Hq1 : Q tt (σ <| psflgs ::= λ f, Z.lor (Z.land f (Z.lnot c)) s |>)).
    { apply HQ; [apply Hsame|done..|]. constructor; try done. intros m Hm. cbn. apply land_mask. by apply Hmask. }
    case_decide; [|by wp_step]. case_decide; [|by wp_step]. apply wp_upd_flgs. cbn.
    apply HQ; [apply Hsame|done..|]. constructor; try done. intros m Hm. cbn. rewrite land_lor_mask.
    + apply land_mask. by apply Hmask.
    + apply land_part; [|done]. by repeat case_decide.
  - apply Hfl. apply HQ; [apply Hsame|done..|]. constructor; try done. intros m Hm. cbn. apply land_mask. by apply Hmask.
Qed.

Lemma fetch_frame_quiet C σ σ' : quiet C σ σ' → (sig_inq_buffers σ' = true → sig_inq_buffers σ = true) → fetch_frame σ σ'.
Proof. intros [] Hon. constructor; try done; [by f_equal..|]. intros m _. congruence. Qed.

(** The tail of the fetch: the outer queue is moved and reset. *)
Lemma wp_fetch_move traced C q (K : Z → M sqs unit) (Q : unit → sqs → Prop) σ :
  queues_ok σ C → C (RInq 0) ≠ [] → inqs σ !! 0 = Some q →
  (∀ flag σ', queues_ok σ' (move_outer C (fetch_dest (sigs σ) C traced)) → Z.land flag queue_flags = flag →
     bufs σ' = bufs σ → sig_inq_buffers σ' = sig_inq_buffers σ → fetch_frame σ σ' → wp (K flag) Q σ') →
  wp (set_flags ← match q_nm_next q with
          | None =>
              x ← get_qs;
              match qs_cont x, traced with
              | None, false => _ ← fetch_inner; mret 0%Z
              | _, _ => _ ← fetch_middle_msgs; mret ERTS_PSFLG_SIG_Q
              end
          | Some _ => fetch_middle_sigs
          end;
      _ ← upd_q 0 (λ q, q <| q_first := NULL |>);
      _ ← upd_q 0 (λ q, q <| q_last := InqFirst 0 |>);
      _ ← upd_q 0 (λ q, q <| q_mlenoffs := 0%Z |>);
      K set_flags) Q σ.
Proof.
  intros HC Hne Hq HQ. set (r := fetch_dest (sigs σ) C traced) in *.
  set (rest := λ set_flags : Z,
    _ ← upd_q 0 (λ q, q <| q_first := NULL |>);
    _ ← upd_q 0 (λ q, q <| q_last := InqFirst 0 |>);
    _ ← upd_q 0 (λ q, q <| q_mlenoffs := 0%Z |>);
    K set_flags).
  destruct (fetch_pre_of σ C r HC (λ i, fetch_dest_priv _ _ _ i) Hne) as (q0 & v & Hpre).
  pose proof (fe_q _ _ _ _ _ _ Hpre) as Hq0. rewrite Hq in Hq0. injection Hq0 as <-.
  pose proof (fe_rep _ _ _ _ _ _ Hpre) as Hrep.
  assert (Hcont : qs_cont (qs σ) = head (C RCont)).
  { destruct (qo_rep σ C HC RCont eq_refl) as (vc & [= <-] & Hc). by apply vrep_first in Hc. }
  assert (Hnn : q_nm_next q = None ↔ Forall (λ a, snm (sigs σ) a = false) (C (RInq 0))).
  { rewrite Forall_forall, <- (cells_none _ (InqFirst 0)). rewrite (rp_next _ _ _ _ _ _ _ _ Hrep : q_nm_next q = _).
    simpl. by destruct (cells (sigs σ) (InqFirst 0) (C (RInq 0))) as [|[]]. }
  assert (Hmsg : r = RInner → ∀ c, cells (sigs σ) c (C (RInq 0)) = []).
  { unfold r, fetch_dest. case_decide as Hd; [|done]. intros _ c. apply cells_none. apply Forall_forall, Hd. }
  assert (Hfin : ∀ sg' n qm, fetched σ q r v (C r) (C (RInq 0)) sg' n → q_nm_next qm = None → q_nm_last qm = None →
    ∀ flag, Z.land flag queue_flags = flag →
    wp (rest flag) Q
      (σ <| sigs := sg' |> <| inqs ::= <[0 := qm]> |>
         <| qs ::= set_priv r (splice_view (sigs σ) v (C r) (q_first q) (C (RInq 0)) n) |>)).
  { intros sg' n qm Hf Hn1 Hn2 flag Hflag. unfold rest. wp_step. eapply wp_upd_q_ins; [cbn; by rewrite lookup_insert_eq|].
    wp_step. eapply wp_upd_q_ins; [cbn; by rewrite lookup_insert_eq|].
    wp_step. eapply wp_upd_q_ins; [cbn; by rewrite lookup_insert_eq|]. cbn. rewrite !insert_insert_eq.
    destruct qm as [f e m nn nl]. cbn in *. subst nn nl.
    apply HQ; [|done..|].
    - eapply (queues_ok_moved σ _ C q r v n); try done.
      + intros i. apply fetch_dest_priv.
      + cbn. by rewrite lookup_insert_eq.
      + intros i Hi. cbn. by rewrite lookup_insert_ne.
    - constructor; try done; cbn; [by destruct r..|]. apply Hf. }
  assert (Hqe : ∀ σ1, inqs σ1 = inqs σ → <[0 := q]> (inqs σ1) = inqs σ1) by (intros σ1 ->; by apply insert_id).
  destruct (q_nm_next q) as [nn|] eqn:Hnq.
  - assert (r = RCont) as Hr.
    { unfold r, fetch_dest. rewrite decide_False; [done|]. intros (_ & _ & Hx). by apply Hnn in Hx. }
    rewrite Hr in *. wp_step. eapply wp_fetch_middle_sigs; [exact Hpre|congruence|].
    intros flag sg' n Hf Hflag. apply (Hfin sg' n); [done..|]. by destruct Hflag as [-> | ->].
  - assert (q_nm_last q = None) as Hnl.
    { pose proof (rp_next _ _ _ _ _ _ _ _ Hrep) as H1. pose proof (rp_last _ _ _ _ _ _ _ _ Hrep) as H2. cbn in *.
      rewrite Hnq in H1. rewrite H2. by destruct (cells (sigs σ) (InqFirst 0) (C (RInq 0))) as [|[]]. }
    assert (Hfin2 : ∀ sg' n flag, fetched σ q r v (C r) (C (RInq 0)) sg' n → Z.land flag queue_flags = flag →
      wp (rest flag) Q (σ <| sigs := sg' |>
         <| qs ::= set_priv r (splice_view (sigs σ) v (C r) (q_first q) (C (RInq 0)) n) |>)).
    { intros sg' n flag Hf Hflag. pose proof (Hfin sg' n q Hf Hnq Hnl flag Hflag) as Hw.
      destruct σ. cbn in *. by rewrite insert_id in Hw. }
    assert (Hmid : r = RCont → wp (_ ← fetch_middle_msgs; mret ERTS_PSFLG_SIG_Q) (λ fl σ', wp (rest fl) Q σ') σ).
    { intros Hr. rewrite Hr in *. wp_step. eapply wp_fetch_middle_msgs; [exact Hpre|done|].
      intros sg' n Hf. wp_step. by apply Hfin2. }
    clear Hfin HQ. wp_step. wp_step. apply wp_get_qs. rewrite Hcont.
    assert (Hr : r = if decide (C RCont = [] ∧ traced = false) then RInner else RCont).
    { unfold r, fetch_dest. apply decide_ext. naive_solver. }
    destruct (C RCont) as [|x l], traced; cbn [head]; try (apply Hmid; rewrite Hr; by rewrite decide_False by naive_solver).
    rewrite decide_True in Hr by done. rewrite Hr in *. wp_step. eapply wp_fetch_inner; [exact Hpre|done|].
    intros sg' n Hf. wp_step. by apply Hfin2.
Qed.

(** After a fetch every signal that was on its way is in the inner or in the middle
    queue: first those of the outer queue, then those of the buffers by slot. *)
Definition fetched_queues σ C (traced : bool) : region → list positive :=
  move_outer (flush_all C) (fetch_dest (sigs σ) (flush_all C) traced).

Lemma fetch_dest_ext sg sg' C traced :
  (∀ a, sct sg' a = sct sg a) → fetch_dest sg' C traced = fetch_dest sg C traced.
Proof.
  intros Hs. unfold fetch_dest. apply decide_ext. rewrite !Forall_forall.
  setoid_rewrite (λ a, snm_sct sg sg' a (Hs a)). done.
Qed.

(** The buffers as the senders leave them. *)
Definition slots_marked σ C : Prop :=
  ∀ b i, bufs σ = Some b → C (RInq (S i)) ≠ [] → Z.testbit (nonempty_slots b) (Z.of_nat i) = true.

Lemma wp_erts_proc_sig_fetch__ traced C (Q : unit → sqs → Prop) σ :
  bufs_ok σ → queues_ok σ C → slots_marked σ C →
  (∀ σ', bufs_ok σ' → queues_ok σ' (fetched_queues σ C traced) → fetch_frame σ σ' → Q tt σ') →
  wp (erts_proc_sig_fetch__ traced (sig_inq_buffers σ)) Q σ.
Proof.
  intros HB HC Hne HQ. unfold erts_proc_sig_fetch__.
  assert (Hfl : wp (if sig_inq_buffers σ then proc_sig_queue_flush_buffers else mret tt) (λ _ σ', flush_post σ C σ') σ).
  { destruct (sig_inq_buffers σ) eqn:Hon.
    - destruct (bo_on σ HB Hon) as (b & Hb & _). eapply wp_proc_sig_queue_flush_buffers; [done..| |done].
      intros i. by apply Hne.
    - wp_step. constructor; [done|done|by right|congruence|done|]. eapply queues_ok_ext; [done|]. by eapply flush_all_nil. }
  assert (Hbufs : sig_inq_buffers σ = true → is_Some (bufs σ)) by (intros Hon; by destruct (bo_on σ HB Hon) as (b & -> & _)).
  wp_step. eapply wp_mono; [exact Hfl|]. clear Hfl. cbv beta. intros [] σ1 Hp.
  pose proof Hp as [Hqt HB1 _ Hon1 Hsome HC1]. set (C1 := flush_all C) in *.
  assert (Hfr1 : fetch_frame σ σ1) by exact (fetch_frame_quiet _ _ _ Hqt Hon1).
  assert (Hdest : fetch_dest (sigs σ1) C1 traced = fetch_dest (sigs σ) C1 traced) by (apply fetch_dest_ext, Hqt).
  destruct (queues_ok_inq σ1 C1 0 HC1 eq_refl) as (q & Hq & Hrep).
  pose proof (vrep_first _ _ _ _ Hrep) as Hf. cbn in Hf.
  wp_step. eapply wp_load_q; [done|]. rewrite Hf.
  destruct (decide (C1 (RInq 0) = [])) as [He|Hne1].
  - rewrite He. cbn [head]. wp_step. wp_step.
    assert (Hext : ∀ σ', queues_ok σ' C1 → queues_ok σ' (fetched_queues σ C traced)).
    { intros σ' Hok. eapply queues_ok_ext; [exact Hok|]. intros r. apply move_outer_nil; [|done].
      intros i. apply fetch_dest_priv. }
    case_decide; [wp_step; apply HQ; [done|by apply Hext|done]|].
    apply (wp_fetch_flags (sig_inq_buffers σ) 0 C1); [exact HC1|by auto|done|].
    intros σ2 HC2 Hb2 Hon2 Hq2 Hfr2. apply HQ; [by eapply bufs_ok_same|by apply Hext|by eapply fetch_frame_trans].
  - destruct (C1 (RInq 0)) as [|x l] eqn:Hl; [done|]. cbn [head]. rewrite <- Hl in Hne1.
    eapply (wp_fetch_move traced C1 q); [done|done|done|].
    intros flag σ2 HC2 Hflag Hb2 Hon2 Hfr2. eapply wp_fetch_flags; [exact HC2|rewrite Hb2; by auto|done|].
    intros σ3 HC3 Hb3 Hon3 Hq3 Hfr3. apply HQ.
    + eapply bufs_ok_same; [exact HB1|congruence..].
    + unfold fetched_queues. fold C1. by rewrite <- Hdest.
    + eapply fetch_frame_trans; [exact Hfr1|]. by eapply fetch_frame_trans.
Qed.

(** The result is the length of the inner queue. *)
Lemma wp_erts_proc_sig_fetch traced C (Q : Z → sqs → Prop) σ :
  bufs_ok σ → queues_ok σ C → slots_marked σ C →
  (∀ σ' f, bufs_ok σ' → queues_ok σ' (fetched_queues σ C traced) →
     fetch_frame (σ <| qs ::= λ x, x <| qs_flags := f |> |>) σ' →
     Q (Z.of_nat (length (fetched_queues σ C traced RInner))) σ') →
  wp (erts_proc_sig_fetch traced) Q σ.
Proof.
  intros HB HC Hne HQ. unfold erts_proc_sig_fetch, erts_proc_sig_queue_get_buffers.
  wp_step. apply wp_upd_qs.
  match goal with |- wp _ _ ?τ => set (σ1 := τ) end.
  assert (Hfr : fetch_frame (σ <| qs ::= λ x, x <| qs_flags := Z.land (qs_flags (qs σ)) (Z.lnot FS_NON_FETCH_CNT_MASK) |> |>) σ1) by done.
  assert (HC1 : queues_ok σ1 C) by (eapply queues_ok_same; [done|done|by intros [] _|done]).
  assert (HB1 : bufs_ok σ1) by by eapply bufs_ok_same.
  assert (Hlen : ∀ σ', bufs_ok σ' → queues_ok σ' (fetched_queues σ C traced) → fetch_frame σ1 σ' →
     wp (x ← get_qs; mret (mq_len x)) Q σ').
  { intros σ' HB' HC' Hfr'. wp_step. apply wp_get_qs. wp_step.
    destruct (qo_rep σ' _ HC' RInner eq_refl) as (v & [= <-] & Hrep).
    assert (mq_len (qs σ') = Z.of_nat (length (fetched_queues σ C traced RInner))) as ->.
    { pose proof (rp_offs _ _ _ _ _ _ _ _ Hrep) as Ho. pose proof (rp_next _ _ _ _ _ _ _ _ Hrep) as Hn. cbn in *.
      assert (cells (sigs σ') QsFirst (fetched_queues σ C traced RInner) = []) as Hc by
        by destruct (cells (sigs σ') QsFirst (fetched_queues σ C traced RInner)) as [|[]].
      exact (offs_msgs_inv _ _ _ _ Ho Hc). }
    eapply HQ; [done|done|]. by eapply fetch_frame_trans. }
  wp_step. wp_step. wp_step. wp_step. destruct (queues_ok_inq σ1 C 0 HC1 eq_refl) as (q & Hq & Hrep).
  wp_step. eapply wp_load_q; [done|]. wp_step.
  pose proof (vrep_first _ _ _ _ Hrep) as Hf. cbn in Hf.
  destruct (sig_inq_buffers σ1 || bool_decide (q_first q ≠ None)) eqn:Hor.
  - apply (wp_erts_proc_sig_fetch__ traced C); [done..|]. intros σ' HB' HC' Hfr'. by apply Hlen.
  - apply orb_false_iff in Hor as [Hon Hq1]. apply bool_decide_eq_false in Hq1.
    wp_step. apply Hlen; [done| |done]. eapply queues_ok_ext; [exact HC1|]. intros r.
    assert (flush_all C (RInq 0) = []) as Hfa.
    { rewrite (flush_all_nil σ C HB HC Hon). destruct (C (RInq 0)); [done|]. exfalso. apply Hq1. by rewrite Hf. }
    unfold fetched_queues. rewrite move_outer_nil; [|intros i; apply fetch_dest_priv|done]. by apply (flush_all_nil σ).
Qed.

End fetch.
