(* ===== verification/SigRecv.v ===== *)
(** The receiver walks the inner queue: the save pointer is a position in it, and a
    message is taken out at that position. *)

From stdpp Require Import base numbers functions list gmap sets.
From Stdlib Require Import ZArith Lia.
From S2P Require Import Prelude PonPremise PonPremiseThms RecvMarker SigQueue SigInv SigOps SigConcat SigEnqueue SigFlow SigFetch.

#[local] Opaque flush_all.

Section recv.
Context {SA : StaticAtoms}.
Implicit Types σ : sqs.
Implicit Types C : region → list positive.

(** The premises of the process are a list. *)
Definition prs_ok (p : prs) : Prop :=
  ∃ l, lseg (nx_prem (prems p)) (pon_premises p) l None ∧ NoDup l ∧ ∀ a, a ∈ l ↔ is_Some (prems p !! a).

(** No receive marker is in use; the save pointer is in front of message [pos]. *)
Record recv_ok σ C (pos : nat) : Prop := {
  rc_q : queues_ok σ C;
  rc_save : qs_save (qs σ) = end_cell QsFirst (take pos (C RInner));
  rc_pos : pos ≤ length (C RInner);
  rc_mark : ∀ a s, sigs σ !! a = Some s → s_recv_marker s = false;
  rc_prs : prs_ok (sq_prs σ);
  rc_blk : recv_mrk_blk (qs σ) = None
}.

Lemma inner_view σ C : queues_ok σ C →
  lseg (snx (sigs σ)) (qs_first (qs σ)) (C RInner) None ∧ NoDup (C RInner) ∧
  qs_last (qs σ) = end_cell QsFirst (C RInner) ∧ mq_len (qs σ) = Z.of_nat (length (C RInner)) ∧
  (∀ a, a ∈ C RInner → snm (sigs σ) a = false).
Proof.
  intros HC. destruct (qo_rep σ C HC RInner eq_refl) as (v & [= <-] & [H1 H2 H3 H4 H5 H6 H7]). cbn in *.
  assert (cells (sigs σ) QsFirst (C RInner) = []) as Hc
    by (by destruct (cells (sigs σ) QsFirst (C RInner)) as [|[]]).
  split_and!; [done..|exact (offs_msgs_inv _ _ _ _ H7 Hc)|]. by apply (cells_none _ QsFirst).
Qed.

(** The link at position [pos] of a list. *)
Lemma wp_read_pos σ f l pos (Q : option positive → sqs → Prop) :
  lseg (snx (sigs σ)) f l None → f = qs_first (qs σ) → pos ≤ length l →
  Q (l !! pos) σ → wp (read_link (end_cell QsFirst (take pos l))) Q σ.
Proof.
  intros Hl -> Hp HQ. rewrite <- (take_drop pos l) in Hl at 1. apply lseg_app in Hl as (r & Ht & Hd).
  apply lseg_head_None in Hd. assert (head (drop pos l) = l !! pos) as Hh.
  { rewrite <- (Nat.add_0_r pos) at 2. rewrite <- lookup_drop. by destruct (drop pos l). }
  rewrite Hh in Hd. subst r. destruct (take pos l) as [|x k _] eqn:Hk using rev_ind.
  - simpl in *. wp_step. apply wp_get_qs, wp_ret. by rewrite Ht.
  - unfold end_cell. rewrite last_snoc. simpl. apply lseg_app in Ht as (r & _ & -> & p & Hx & Hp2). simpl in Hp2. subst p.
    unfold snx in Hx. apply fmap_Some in Hx as (s & Hs & He). wp_step. eapply wp_load_s; [done|]. apply wp_ret.
    by rewrite <- He.
Qed.

Lemma wp_erts_msgq_peek_msg σ C pos (Q : option positive → sqs → Prop) :
  recv_ok σ C pos → Q (C RInner !! pos) σ → wp erts_msgq_peek_msg Q σ.
Proof.
  intros [HC Hs Hp _ _ _] HQ. destruct (inner_view σ C HC) as (Hl & _). unfold erts_msgq_peek_msg.
  wp_step. apply wp_get_qs. rewrite Hs. by eapply wp_read_pos.
Qed.

(** ** Taking a message out *)

Lemma end_cell_mid c (l1 : list positive) a l2 : l2 ≠ [] → end_cell c (l1 ++ a :: l2) = end_cell c (l1 ++ l2).
Proof.
  intros Hne. unfold end_cell. rewrite !last_app. change (a :: l2) with ([a] ++ l2). rewrite last_app.
  destruct (last l2) eqn:Hl; [done|]. by apply last_None in Hl.
Qed.

Lemma lseg_drop_at sg f l1 a l2 :
  lseg (snx sg) f (l1 ++ a :: l2) None → NoDup (l1 ++ a :: l2) →
  snx sg a = Some (head l2) ∧
  lseg (snx (link_last (last l1) (head l2) sg)) (match l1 with [] => head l2 | _ => f end) (l1 ++ l2) None.
Proof.
  intros Hl Hnd. apply lseg_app in Hl as (r & H1 & -> & p & Ha & H2).
  pose proof (lseg_head_None _ _ _ H2) as ->. split; [done|].
  apply NoDup_app in Hnd as (Hnd1 & Hdis & Hnd2). apply NoDup_cons in Hnd2 as [Ha2 Hnd2].
  destruct l1 as [|x l1 _] using rev_ind; [done|]. rewrite last_snoc. unfold link_last.
  assert (Hx : is_Some (sg !! x)) by (eapply lseg_dom; [exact H1|set_solver]). destruct Hx as [s Hs].
  assert (lseg (snx (alter (λ s, s <| s_next := head l2 |>) x sg)) f ((l1 ++ [x]) ++ l2) None) as Hres; [|by destruct l1].
  apply lseg_app in H1 as (r & H1 & -> & _). rewrite <- app_assoc. apply lseg_app. exists (Some x).
  apply NoDup_app in Hnd1 as (_ & Hx & _). split.
  - eapply lseg_frame; [|done]. intros b Hb. unfold snx. rewrite lookup_alter_ne; [done|]. intros ->. set_solver.
  - simpl. split; [done|]. exists (head l2). split; [unfold snx; by rewrite lookup_alter_eq, Hs|].
    eapply lseg_frame; [|done]. intros b Hb. unfold snx. rewrite lookup_alter_ne; [done|]. intros ->.
    apply (Hdis b); [set_solver|by right].
Qed.

(** The state after message [pos] was unlinked, with [sv] as save pointer. *)
Record unlinked σ C pos (a : positive) σ' : Prop := {
  ul_at : C RInner !! pos = Some a;
  ul_sigs : sigs σ' = link_last (last (take pos (C RInner))) (head (drop (S pos) (C RInner))) (sigs σ);
  ul_first : qs_first (qs σ') = match take pos (C RInner) with
                                | [] => head (drop (S pos) (C RInner)) | _ => qs_first (qs σ) end;
  ul_last : qs_last (qs σ') = end_cell QsFirst (delete pos (C RInner));
  ul_len : mq_len (qs σ') = (mq_len (qs σ) - 1)%Z;
  ul_cont : view σ' RCont = view σ RCont;
  ul_inqs : inqs σ' = inqs σ;
  ul_bufs : bufs σ' = bufs σ
}.

Lemma queues_ok_unlinked σ C pos a σ' :
  queues_ok σ C → unlinked σ C pos a σ' → queues_ok σ' (<[RInner := delete pos (C RInner)]> C).
Proof.
  intros HC [Hat Hs Hf Hla Hlen Hco Hi Hb]. destruct (inner_view σ C HC) as (Hl & Hnd & He & Hn & Hm).
  assert (Hlv : ∀ r, live σ' r = live σ r) by (intros r; destruct r as [[|i]| |]; simpl; by rewrite ?Hb).
  set (l1 := take pos (C RInner)) in *. set (l2 := drop (S pos) (C RInner)) in *.
  assert (Hsplit : C RInner = l1 ++ a :: l2) by (symmetry; by apply take_drop_middle).
  assert (Hdel : delete pos (C RInner) = l1 ++ l2) by by rewrite delete_take_drop.
  assert (Hsub : ∀ b, b ∈ l1 ++ l2 → b ∈ C RInner) by (intros b; rewrite Hsplit; set_solver).
  rewrite Hsplit in Hl, Hnd. destruct (lseg_drop_at _ _ _ _ _ Hl Hnd) as [_ Hseg].
  assert (Hct : ∀ b, snm (sigs σ') b = snm (sigs σ) b) by (intros b; rewrite Hs; apply snm_link_last).
  constructor.
  - intros r Hr. rewrite Hlv in Hr. destruct (decide (r = RInner)) as [->|Hne].
    + eexists. split; [reflexivity|]. rewrite fn_lookup_insert. rewrite Hdel in *.
      assert (cells (sigs σ') QsFirst (l1 ++ l2) = []) as Hc.
      { apply cells_none. intros b Hb'. rewrite Hct. by apply Hm, Hsub. }
      constructor; cbn; rewrite ?Hc; try done.
      * rewrite Hs, Hf. exact Hseg.
      * apply NoDup_app in Hnd as (? & Hd & Hnd2). apply NoDup_cons in Hnd2 as [_ ?]. apply NoDup_app. split_and!; try done.
        intros b Hb'. specialize (Hd b Hb'). set_solver.
      * rewrite Hlen, Hn, Hsplit. replace (Z.of_nat (length (l1 ++ a :: l2)) - 1)%Z with (0 + Z.of_nat (length (l1 ++ l2)))%Z
          by (rewrite !length_app; simpl; lia). apply offs_msgs. intros b Hb'. rewrite Hct. by apply Hm, Hsub.
    + rewrite fn_lookup_insert_ne by done. destruct (qo_rep σ C HC r Hr) as (v & Hv & Hrep). exists v. split.
      * destruct r as [i| |]; [simpl in *; by rewrite Hi|done|by rewrite Hco].
      * eapply rep_ext; [done|]. intros b Hb'. rewrite Hs. unfold link_last.
        destruct (last l1) as [x|] eqn:Hx; [|done]. rewrite lookup_alter_ne; [done|]. intros ->.
        apply Hne, (qo_disj σ C HC r RInner b); [done|]. rewrite Hsplit. apply last_Some_elem_of in Hx. set_solver.
  - intros r Hr. rewrite Hlv in Hr. destruct (decide (r = RInner)) as [->|Hne]; [done|].
    rewrite fn_lookup_insert_ne by done. by apply (qo_dead σ C HC).
  - assert (∀ r b, b ∈ <[RInner := delete pos (C RInner)]> C r → b ∈ C r) as Hin.
    { intros r b. destruct (decide (r = RInner)) as [->|Hne]; [rewrite fn_lookup_insert, Hdel; apply Hsub|].
      by rewrite fn_lookup_insert_ne. }
    intros r r' b H1 H2. apply (qo_disj σ C HC r r' b); by apply Hin.
Qed.

(** What the receive operations leave alone. *)
Record recv_frame σ σ' : Prop := {
  rf_bufs : bufs σ' = bufs σ;
  rf_on : sig_inq_buffers σ' = sig_inq_buffers σ;
  rf_psflgs : psflgs σ' = psflgs σ;
  rf_pend : pending_signal σ' = pending_signal σ;
  rf_ct : ∀ a, sct (sigs σ') a = sct (sigs σ) a
}.

Lemma recv_frame_refl σ : recv_frame σ σ.
Proof. done. Qed.

Lemma recv_frame_trans σ1 σ2 σ3 : recv_frame σ1 σ2 → recv_frame σ2 σ3 → recv_frame σ1 σ3.
Proof. intros [] []. constructor; congruence. Qed.

Lemma no_marker_sct (sg sg' : gmap positive ErtsSignal) :
  (∀ a, sct sg' a = sct sg a) → (∀ a s, sg !! a = Some s → s_recv_marker s = false) →
  ∀ a s, sg' !! a = Some s → s_recv_marker s = false.
Proof.
  intros Hct Hm a s Hs. specialize (Hct a). unfold sct in Hct. rewrite Hs in Hct. simpl in Hct.
  symmetry in Hct. apply fmap_Some in Hct as (s0 & Hs0 & He). injection He as _ He _ _ _ _. rewrite He. by eapply Hm.
Qed.

Lemma wp_no_marker p σ (Q : bool → sqs → Prop) :
  (∀ a s, sigs σ !! a = Some s → s_recv_marker s = false) → (∀ a, p = Some a → is_Some (sigs σ !! a)) →
  Q false σ → wp (is_recv_marker p) Q σ.
Proof.
  intros Hm Hp HQ. destruct p as [a|]; simpl; [|by wp_step]. destruct (Hp a eq_refl) as [s Hs].
  wp_step. eapply wp_load_s; [done|]. wp_step. by rewrite (Hm a s Hs).
Qed.

(** The end of a message that is unlinked: the link is redirected, the length and
    the end of the queue follow. *)
Lemma wp_unlink_at C pos a (K K1 : M sqs unit) (Q : unit → sqs → Prop) σ :
  recv_ok σ C pos → C RInner !! pos = Some a →
  (∀ σ', recv_ok σ' (<[RInner := delete pos (C RInner)]> C) pos → recv_frame σ σ' → sq_prs σ' = sq_prs σ →
     wp K Q σ') →
  let sigp := head (drop (S pos) (C RInner)) in
  (∀ σ1, (∀ b s, sigs σ1 !! b = Some s → s_recv_marker s = false) →
     (∀ b, sigp = Some b → is_Some (sigs σ1 !! b)) →
     wp (_ ← match sigp with None => upd_qs (λ x, x <| qs_last := qs_save x |>) | Some _ => mret tt end; K) Q σ1 →
     wp K1 Q σ1) →
  wp (_ ← write_link (qs_save (qs σ)) sigp; _ ← upd_qs (λ x, x <| mq_len ::= λ n, (n - 1)%Z |>); K1) Q σ.
Proof.
  intros [HC Hsv Hp Hmk Hprs Hblk] Hat HQ sigp HK1. destruct (inner_view σ C HC) as (Hl & Hnd & He & Hn & Hm).
  assert (Hsplit : C RInner = take pos (C RInner) ++ a :: drop (S pos) (C RInner)) by (symmetry; by apply take_drop_middle).
  wp_step. apply (wp_append_inner _ (take pos (C RInner))); [done| |].
  { intros b Hb. eapply lseg_dom; [exact Hl|]. apply last_Some_elem_of in Hb. rewrite Hsplit. set_solver. }
  wp_step. apply wp_upd_qs. apply HK1.
  { eapply no_marker_sct; [|exact Hmk]. intros b. apply sct_link_last. }
  { intros b Hb. apply (sct_dom (sigs σ)); [apply sct_link_last|]. eapply lseg_dom; [exact Hl|].
    rewrite Hsplit. apply elem_of_app. right. right. unfold sigp in Hb. by apply head_Some_elem_of. }
  wp_step.
  assert (Hdone : ∀ σ', unlinked σ C pos a σ' → qs_save (qs σ') = qs_save (qs σ) → sq_prs σ' = sq_prs σ →
    recv_mrk_blk (qs σ') = recv_mrk_blk (qs σ) →
    recv_frame σ σ' → wp K Q σ').
  { intros σ' Hu Hs' Hp' Hb' Hfr. apply HQ; [|done|done].
    assert (pos < length (C RInner)) as Hlt by (by apply lookup_lt_Some in Hat).
    assert (take pos (delete pos (C RInner)) = take pos (C RInner)) as Ht.
    { rewrite delete_take_drop. rewrite take_app_le by (rewrite length_take; lia). rewrite take_take. f_equal. lia. }
    constructor; rewrite ?fn_lookup_insert, ?Ht.
    - by eapply queues_ok_unlinked.
    - congruence.
    - rewrite length_delete by done. lia.
    - eapply no_marker_sct; [apply Hfr|done].
    - by rewrite Hp'.
    - congruence. }
  assert (Hend : qs_last (qs σ) = end_cell QsFirst (C RInner)) by done.
  destruct sigp as [b|] eqn:Hsg.
  - wp_step. apply Hdone; try done; [|constructor; try done; intros c; apply sct_link_last].
    constructor; cbn; fold sigp; rewrite ?Hsg; try done. rewrite Hend, delete_take_drop. rewrite Hsplit at 1. apply end_cell_mid.
    intros Hx. unfold sigp in Hsg. by rewrite Hx in Hsg.
  - apply wp_upd_qs. apply Hdone; try done; [|constructor; try done; intros c; apply sct_link_last].
    constructor; cbn; fold sigp; rewrite ?Hsg; try done. rewrite Hsv, delete_take_drop.
    assert (drop (S pos) (C RInner) = []) as ->; [|by rewrite app_nil_r].
    unfold sigp in Hsg. by destruct (drop (S pos) (C RInner)).
Qed.

Lemma unlink_next σ C pos a :
  queues_ok σ C → C RInner !! pos = Some a →
  ∃ s, sigs σ !! a = Some s ∧ s_next s = head (drop (S pos) (C RInner)).
Proof.
  intros HC Hat. destruct (inner_view σ C HC) as (Hl & Hnd & _).
  rewrite <- (take_drop_middle _ _ _ Hat) in Hl at 1. rewrite <- (take_drop_middle _ _ _ Hat) in Hnd.
  destruct (lseg_drop_at _ _ _ _ _ Hl Hnd) as [Ha _]. unfold snx in Ha. apply fmap_Some in Ha as (s & Hs & He). by exists s.
Qed.

Lemma wp_erts_msgq_unlink_msg σ C pos a (Q : unit → sqs → Prop) :
  recv_ok σ C pos → C RInner !! pos = Some a →
  (∀ σ', recv_ok σ' (<[RInner := delete pos (C RInner)]> C) pos → recv_frame σ σ' → sq_prs σ' = sq_prs σ →
     Q tt σ') →
  wp (erts_msgq_unlink_msg a) Q σ.
Proof.
  intros Hok Hat HQ. destruct (unlink_next σ C pos a (rc_q _ _ _ Hok) Hat) as (s & Hs & Hn).
  unfold erts_msgq_unlink_msg. wp_step. eapply wp_load_s; [done|]. rewrite Hn. wp_step. apply wp_get_qs.
  eapply (wp_unlink_at C pos a (mret tt)); [done..| |].
  { intros σ' H1 H2 H3. wp_step. by apply HQ. }
  intros σ1 Hm Hd Hw. wp_step. apply wp_no_marker; [done..|]. wp_step. wp_step.
  apply wp_bind_inv in Hw. eapply wp_mono; [exact Hw|]. by intros [] σ2 H2.
Qed.

Lemma wp_on_premises {A} (m : M prs A) (Q : A → sqs → Prop) σ :
  wp m (λ x p, Q x (σ <| sq_prs := p |>)) (sq_prs σ) → wp (on_premises m) Q σ.
Proof. unfold wp, on_premises. by destruct (m (sq_prs σ)) as [[]|]. Qed.

(** The save pointer moves to the start. *)
Lemma wp_erts_msgq_set_save_first σ C pos (Q : unit → sqs → Prop) :
  recv_ok σ C pos → (∀ σ', recv_ok σ' C 0 → recv_frame σ σ' → sq_prs σ' = sq_prs σ → Q tt σ') →
  wp erts_msgq_set_save_first Q σ.
Proof.
  intros Hok HQ. pose proof Hok as [HC Hsv Hp Hmk Hprs Hblk]. destruct (inner_view σ C HC) as (Hl & _).
  unfold erts_msgq_set_save_first, ERTS_MQ_SET_SAVE_INFO. wp_step. apply wp_get_qs. rewrite Hblk. wp_step. wp_step. wp_step. apply wp_no_marker; [done| |].
  { intros a Ha. eapply lseg_dom; [exact Hl|]. apply lseg_head_None in Hl. rewrite Hl in Ha. by apply head_Some_elem_of. }
  assert (Hset : ∀ σ', (∃ f, σ' = σ <| qs ::= λ x, x <| qs_flags := f |> |>) →
    wp (_ ← (_ ← upd_qs (λ x, x <| qs_flags ::= λ f, Z.land f (Z.lnot FS_SET_SAVE_INFO_MASK) |>);
             upd_qs (λ x, x <| qs_flags ::= λ f, Z.lor f FS_SET_SAVE_INFO_FIRST |>));
        upd_qs (λ x, x <| qs_save := QsFirst |>)) Q σ').
  { intros σ' [f ->]. wp_step. wp_step. apply wp_upd_qs. apply wp_upd_qs. apply wp_upd_qs. apply HQ; [|done|done].
    constructor; [|done|lia|done..]. eapply queues_ok_same; [exact HC|done|by intros [] _|done]. }
  wp_step. case_decide; [apply wp_upd_qs|wp_step]; apply Hset; [by eexists|].
  exists (qs_flags (qs σ)). destruct σ as [? ? ? ? ? x]. by destruct x.
Qed.

(** The save pointer moves past the message it points at. *)
Lemma wp_erts_msgq_set_save_next σ C pos (Q : unit → sqs → Prop) :
  recv_ok σ C pos → pos < length (C RInner) →
  (∀ σ', recv_ok σ' C (S pos) → recv_frame σ σ' → sq_prs σ' = sq_prs σ → Q tt σ') →
  wp erts_msgq_set_save_next Q σ.
Proof.
  intros Hok Hlt HQ. pose proof Hok as [HC Hsv Hp Hmk Hprs Hblk]. destruct (inner_view σ C HC) as (Hl & _).
  destruct (lookup_lt_is_Some_2 _ _ Hlt) as [a Ha]. destruct (unlink_next σ C pos a HC Ha) as (s & Hs & Hn).
  unfold erts_msgq_set_save_next. wp_step. apply wp_get_qs. wp_step. rewrite Hsv. eapply wp_read_pos; [exact Hl|done|lia|].
  rewrite Ha. wp_step. wp_step. wp_step. eapply wp_load_s; [done|]. wp_step. wp_step. wp_step.
  assert (Hadv : ∀ P : Prop, ∀ `{Decision P} (Q' : Z → sqs → Prop), Q' 0%Z σ →
    wp (if decide P then on_premises erts_pon_advance_to_matched else mret 0%Z) Q' σ).
  { intros P ? Q' HQ'. case_decide; [|by wp_step].
    apply wp_on_premises. unfold erts_pon_advance_to_matched. wp_step. wp_step.
    assert (σ <| sq_prs := sq_prs σ |> = σ) as He by (clear; by destruct σ).
    destruct (pon_premises (sq_prs σ)); wp_step; by rewrite He. }
  apply Hadv. rewrite decide_False by lia. wp_step. apply wp_no_marker; [done| |].
  { intros b Hb. rewrite Hn in Hb. eapply lseg_dom; [exact Hl|]. rewrite <- (take_drop (S pos) (C RInner)).
    apply elem_of_app. right. by apply head_Some_elem_of. }
  wp_step. wp_step. apply wp_upd_qs. apply HQ; [|done|done]. constructor; try done.
  - eapply queues_ok_same; [exact HC|done|by intros [] _|done].
  - cbn. rewrite (take_S_r _ _ a) by done. unfold end_cell. by rewrite last_snoc.
Qed.

(** A received message leaves the queue, and the premises that matched it are
    cleared. *)
Lemma wp_erts_msgq_unlink_msg_set_save_first σ C pos a (Q : unit → sqs → Prop) :
  recv_ok σ C pos → C RInner !! pos = Some a →
  (∀ σ', recv_ok σ' (<[RInner := delete pos (C RInner)]> C) 0 → recv_frame σ σ' →
     prems (sq_prs σ') = forget a <$> prems (sq_prs σ) → Q tt σ') →
  wp (erts_msgq_unlink_msg_set_save_first a) Q σ.
Proof.
  intros Hok Hat HQ. destruct (unlink_next σ C pos a (rc_q _ _ _ Hok) Hat) as (s & Hs & Hn).
  unfold erts_msgq_unlink_msg_set_save_first. wp_step. eapply wp_load_s; [done|]. rewrite Hn. wp_step. apply wp_get_qs.
  eapply (wp_unlink_at C pos a); [done..| |].
  2: { intros σ1 Hm Hd Hw. destruct (head _) as [b|]; [|exact Hw]. wp_step. wp_step. apply wp_no_marker; [done|by intros ? [= <-]; apply Hd|].
    wp_step. exact Hw. }
  intros σ1 Hok1 Hfr1 Hpr1. wp_step. eapply wp_erts_msgq_set_save_first; [exact Hok1|].
  intros σ2 Hok2 Hfr2 Hpr2. wp_step. wp_step.
  assert (recv_frame σ σ2) as Hfr by by eapply recv_frame_trans.
  assert (sq_prs σ2 = sq_prs σ) as Hpr by congruence.
  destruct (rc_prs _ _ _ Hok2) as (l & Hl & Hnd & Hdom).
  destruct (pon_premises (sq_prs σ2)) as [p|] eqn:Hp.
  - rewrite <- Hp in Hl. destruct (message_consumed_clears (sq_prs σ2) l a Hl Hnd Hdom) as (p' & Hrun & Hp1 & Hp2).
    apply wp_on_premises. eapply wp_intro; [exact Hrun|]. apply HQ; [|by destruct Hfr|cbn; by rewrite Hp2, Hpr].
    destruct Hok2 as [HC2 Hsv2 Hps2 Hmk2 _ Hbl2].
    constructor; [by eapply queues_ok_same|done|done|done| |done].
    exists l. cbn. rewrite Hp1, Hp2. split_and!; [|done|].
    + eapply lseg_frame; [|exact Hl]. intros b _. unfold nx_prem. rewrite lookup_fmap.
      destruct (prems (sq_prs σ2) !! b); simpl; [by rewrite forget_next|done].
    + intros b. rewrite Hdom, lookup_fmap, fmap_is_Some. done.
  - wp_step. apply HQ; [done..|]. apply lseg_head_None in Hl. destruct l; [|done].
    rewrite <- Hpr. apply map_eq. intros b. rewrite lookup_fmap.
    destruct (prems (sq_prs σ2) !! b) eqn:Hb; [|done]. exfalso. eapply not_elem_of_nil. apply Hdom. by eexists.
Qed.

(** *** The fetch and the save pointer *)

Lemma fetched_inner σ C traced :
  ∃ l, fetched_queues σ C traced RInner = C RInner ++ l.
Proof.
  assert (flush_all C RInner = C RInner) as He by (by apply flush_all_other).
  unfold fetched_queues. destruct (decide (fetch_dest (sigs σ) (flush_all C) traced = RInner)) as [->|Hne].
  - rewrite move_outer_dest, He. by eexists.
  - rewrite move_outer_ne, He by done. exists []. by rewrite app_nil_r.
Qed.

Lemma recv_ok_fetch σ σ' C pos traced f :
  recv_ok σ C pos → queues_ok σ' (fetched_queues σ C traced) →
  fetch_frame (σ <| qs ::= λ x, x <| qs_flags := f |> |>) σ' → recv_ok σ' (fetched_queues σ C traced) pos.
Proof.
  intros [HC Hsv Hp Hmk Hprs Hblk] HC' [Hs _ Hbl Hpr _ Hct _ _]. destruct (fetched_inner σ C traced) as [l Hl]. cbn in *.
  constructor; rewrite ?Hl.
  - done.
  - by rewrite Hs, take_app_le.
  - rewrite length_app. lia.
  - by eapply no_marker_sct.
  - by rewrite Hpr.
  - by rewrite Hbl.
Qed.

Lemma wp_erts_proc_sig_queue_lock busy (Q : unit → sqs → Prop) σ :
  (∀ n, Q tt (σ <| sig_inq_contention_counter := n |>)) → wp (erts_proc_sig_queue_lock busy) Q σ.
Proof.
  intros HQ. unfold erts_proc_sig_queue_lock. wp_step. wp_step. destruct busy; [apply wp_modify, HQ|].
  case_decide; [apply wp_modify, HQ|]. wp_step. specialize (HQ (sig_inq_contention_counter σ)). by destruct σ.
Qed.

(** Without signals in the middle queue the save pointer moves to the end. *)
Lemma wp_erts_msgq_set_save_end traced busy σ C pos (Q : unit → sqs → Prop) :
  bufs_ok σ → recv_ok σ C pos → slots_marked σ C → fetched_queues σ C traced RCont = [] →
  (∀ σ' σ1 f, bufs_ok σ' → recv_ok σ' (fetched_queues σ C traced) (length (fetched_queues σ C traced RInner)) →
     fetch_frame (σ <| qs ::= λ x, x <| qs_flags := f |> |>) σ1 → recv_frame σ1 σ' → Q tt σ') →
  wp (erts_msgq_set_save_end traced busy) Q σ.
Proof.
  intros HB Hok Hne Hcont HQ. unfold erts_msgq_set_save_end, ERTS_MQ_SET_SAVE_INFO. wp_step.
  apply wp_erts_proc_sig_queue_lock. intros n. set (σ0 := σ <| sig_inq_contention_counter := n |>).
  assert (Hok0 : recv_ok σ0 C pos).
  { destruct Hok. constructor; try done. by eapply queues_ok_same. }
  wp_step. apply (wp_erts_proc_sig_fetch traced C); [by eapply bufs_ok_same|apply Hok0|done|].
  change (fetched_queues σ0 C traced) with (fetched_queues σ C traced).
  intros σ1 f HB1 HC1 Hfr1. pose proof (recv_ok_fetch _ _ _ _ _ _ Hok0 HC1 Hfr1) as Hok1.
  destruct (inner_view σ1 _ HC1) as (_ & _ & Hend & _).
  wp_step. apply wp_get_qs.
  assert (qs_cont (qs σ1) = None) as ->.
  { destruct (qo_rep σ1 _ HC1 RCont eq_refl) as (v & [= <-] & Hr). apply vrep_first in Hr. cbn in Hr. by rewrite Hr, Hcont. }
  wp_step. wp_step. apply wp_upd_qs. apply wp_upd_qs. wp_step. apply wp_upd_qs. apply wp_upd_qs.
  eapply (HQ _ σ1 f); [by eapply bufs_ok_same| | |done].
  - destruct Hok1 as [_ Hsv1 Hp1 Hmk1 Hprs1 Hblk1]. constructor; [|cbn; by rewrite Hend, take_ge|done..].
    eapply queues_ok_same; [exact HC1|done|by intros [] _|done].
  - destruct Hfr1. by constructor.
Qed.

End recv.
