(* ===== verification/SigSend.v ===== *)
(** A sender puts its signals into the buffer of its slot, or behind all buffers
    into the outer queue; the invariant of the whole. *)

From stdpp Require Import base numbers functions list gmap sets.
From Stdlib Require Import ZArith Lia.
From S2P Require Import Prelude PonPremise RecvMarker SigQueue SigInv SigOps SigConcat SigEnqueue SigFlow SigFetch SigRecv.

#[local] Opaque flush_all.

Section send.
Context {TH : TermHash} {SA : StaticAtoms}.
Implicit Types σ : sqs.
Implicit Types C : region → list positive.

(** The queues hold [C], the receiver is in front of message [pos]; buffers are
    used only while messages are kept off the heap; the flags tell of every signal
    on its way; the signal that is held back is in no queue. *)
Record sq_inv σ C (pos : nat) : Prop := {
  iv_recv : recv_ok σ C pos;
  iv_bufs : bufs_ok σ;
  iv_marked : slots_marked σ C;
  iv_off : sig_inq_buffers σ = true → Z.land (psflgs σ) ERTS_PSFLG_OFF_HEAP_MSGQ ≠ 0%Z;
  iv_msg : ∀ i a, a ∈ C (RInq i) → snm (sigs σ) a = false → Z.land (psflgs σ) ERTS_PSFLG_MSG_SIG_IN_Q ≠ 0%Z;
  iv_nmsg : ∀ i a, a ∈ C (RInq i) → snm (sigs σ) a = true → Z.land (psflgs σ) ERTS_PSFLG_NMSG_SIG_IN_Q ≠ 0%Z;
  iv_pend : ∀ p, pending_signal σ = Some p → is_Some (sigs σ !! p) ∧ snm (sigs σ) p = true ∧ ∀ r, p ∉ C r
}.

Lemma iv_q σ C pos : sq_inv σ C pos → queues_ok σ C.
Proof. intros H. apply H. Qed.

(** No signal of the list is in a queue. *)
Definition fresh C (l : list positive) : Prop := ∀ r a, a ∈ C r → a ∉ l.

Lemma land_lor_l x s m : Z.land x m ≠ 0%Z → Z.land (Z.lor x s) m ≠ 0%Z.
Proof. rewrite Z.land_lor_distr_l. intros Hx Hl. apply Z.lor_eq_0_iff in Hl. tauto. Qed.

Lemma land_lor_r x s m : Z.land s m ≠ 0%Z → Z.land (Z.lor x s) m ≠ 0%Z.
Proof. rewrite Z.land_lor_distr_l. intros Hx Hl. apply Z.lor_eq_0_iff in Hl. tauto. Qed.

Lemma queues_ok_enqueued σ σ' C dest q first lst ln n st l sg' q' :
  queues_ok σ C → live σ (RInq dest) = true → enq_pre σ dest q (C (RInq dest)) first lst ln n st l → fresh C l →
  enqueued σ dest q (C (RInq dest)) first l sg' q' →
  sigs σ' = sg' → inqs σ' = <[dest := q']> (inqs σ) → qs σ' = qs σ → (∀ r, live σ' r = live σ r) →
  queues_ok σ' (<[RInq dest := C (RInq dest) ++ l]> C).
Proof.
  intros HC Hl [Hq Hrep Hch Hdis _] Hfr (Hsp & Hoff & Hv) Hs Hi Hqs Hlv.
  destruct (chain_first _ _ _ _ _ _ Hch) as [l' Hll].
  assert (Hnmc : nmchain (sigs σ) (cells (sigs σ) QsFirst l) None).
  { destruct (snm (sigs σ) first) eqn:Hnm; [apply (ch_nonmsg _ _ _ _ _ _ Hch Hnm)|].
    destruct (ch_msg _ _ _ _ _ _ Hch Hnm) as (Ha & _). apply cells_none with (c := QsFirst) in Ha. by rewrite Ha. }
  eapply (queues_ok_splice σ σ' C _ (RInq dest) (view_q q) (Some first) l QsFirst).
  - done.
  - done.
  - simpl. by rewrite Hq.
  - by rewrite Hll.
  - apply Hch.
  - intros a. apply Hfr.
  - apply Hch.
  - done.
  - by rewrite Hs.
  - rewrite Hs. exact Hoff.
  - simpl. by rewrite Hi, lookup_insert_eq, <- Hv.
  - apply fn_lookup_insert.
  - intros r Hr Hd. rewrite fn_lookup_insert_ne by done. apply (qo_dead σ C HC). by rewrite <- Hlv.
  - intros r Hr Hlr. right. rewrite fn_lookup_insert_ne by done. split_and!; [by rewrite <- Hlv|done| |intros a; apply Hfr].
    destruct r as [i| |]; simpl; [rewrite Hi, lookup_insert_ne by congruence; done|by rewrite Hqs..].
  - by rewrite Hlv.
Qed.

(** Enqueueing keeps the invariant. *)
Lemma sq_inv_enqueued σ σ' C pos dest q first lst ln n l sg' q' :
  sq_inv σ C pos → live σ (RInq dest) = true →
  enq_pre σ dest q (C (RInq dest)) first lst ln n (psflgs σ) l → fresh C l →
  enqueued σ dest q (C (RInq dest)) first l sg' q' →
  sigs σ' = sg' → inqs σ' = <[dest := q']> (inqs σ) → qs σ' = qs σ → sq_prs σ' = sq_prs σ →
  psflgs σ' = Z.lor (psflgs σ) (enq_flags q (snm (sigs σ) first) n) →
  sig_inq_buffers σ' = sig_inq_buffers σ → bufs_ok σ' → (∀ r, live σ' r = live σ r) →
  slots_marked σ' (<[RInq dest := C (RInq dest) ++ l]> C) →
  (∀ p, pending_signal σ' = Some p → pending_signal σ = Some p ∧ p ∉ l) →
  sq_inv σ' (<[RInq dest := C (RInq dest) ++ l]> C) pos.
Proof.
  intros [[HC Hsv Hp Hmk Hprs Hblk] HB Hma Hoff Hmsg Hnm Hpend] Hl Hpre Hfr Henq Hs Hi Hqs Hpr Hfl Hon HB' Hlv Hma' Hpe'.
  pose proof Henq as (Hsp & _). assert (Hct : ∀ a, sct (sigs σ') a = sct (sigs σ) a) by (rewrite Hs; apply Hsp).
  assert (Hsn : ∀ a, snm (sigs σ') a = snm (sigs σ) a) by (intros a; by apply snm_sct).
  set (C' := <[RInq dest := C (RInq dest) ++ l]> C) in *.
  assert (HCi : C' RInner = C RInner) by (unfold C'; by rewrite fn_lookup_insert_ne).
  assert (Hin : ∀ r a, a ∈ C' r → a ∈ C r ∨ a ∈ l ∧ r = RInq dest).
  { intros r a. unfold C'. destruct (decide (r = RInq dest)) as [->|Hne].
    - rewrite fn_lookup_insert. set_solver.
    - rewrite fn_lookup_insert_ne by done. by left. }
  pose proof (ep_chain _ _ _ _ _ _ _ _ _ _ Hpre) as Hch.
  constructor.
  - constructor; rewrite ?HCi; [|by rewrite Hqs|done|by eapply no_marker_sct|by rewrite Hpr|by rewrite Hqs].
    by eapply queues_ok_enqueued.
  - done.
  - done.
  - rewrite Hon, Hfl. intros Ho. apply land_lor_l. by apply Hoff.
  - intros i a Ha Hna. rewrite Hsn in Hna. rewrite Hfl. destruct (Hin _ _ Ha) as [Ha'|[Ha' _]].
    + apply land_lor_l. by eapply Hmsg.
    + apply land_lor_r. pose proof (ch_flag _ _ _ _ _ _ Hch a Ha' Hna) as Hn0. unfold enq_flags.
      rewrite decide_False by done. by destruct (q_nm_next q), (snm (sigs σ) first).
  - intros i a Ha Hna. rewrite Hsn in Hna. rewrite Hfl. destruct (Hin _ _ Ha) as [Ha'|[Ha' _]].
    + apply land_lor_l. by eapply Hnm.
    + destruct (snm (sigs σ) first) eqn:Hf.
      2: { destruct (ch_msg _ _ _ _ _ _ Hch Hf) as (Hall & _). by rewrite Hall in Hna. }
      destruct (q_nm_next q) as [c|] eqn:Hnn.
      * apply land_lor_l. pose proof (rp_next _ _ _ _ _ _ _ _ (ep_rep _ _ _ _ _ _ _ _ _ _ Hpre)) as Hx. cbn in Hx.
        rewrite Hnn in Hx. destruct (cells (sigs σ) (InqFirst dest) (C (RInq dest))) as [|[x b] cs] eqn:Hcs; [done|].
        assert ((x, b) ∈ cells (sigs σ) (InqFirst dest) (C (RInq dest))) as Hb by (rewrite Hcs; left).
        apply cells_elem in Hb as [Hb1 Hb2]. by eapply Hnm.
      * apply land_lor_r. unfold enq_flags. rewrite Hnn. case_decide; done.
  - intros p Hpp. destruct (Hpe' p Hpp) as [Hp1 Hp2]. destruct (Hpend p Hp1) as (Hd & Hn & Hf). split_and!.
    + eapply sct_dom; [apply Hct|done].
    + by rewrite Hsn.
    + intros r Ha. apply Hin in Ha as [Ha|[Ha _]]; [by apply (Hf r)|done].
Qed.

(** *** Flushing and installing keep the invariant *)

Lemma sq_inv_flush σ σ' C pos : sq_inv σ C pos → flush_post σ C σ' → sq_inv σ' (flush_all C) pos.
Proof.
  intros [[HC Hsv Hp Hmk Hprs Hblk] HB Hma Hoff Hmsg Hnm Hpend] [[Hqs Hfl Hpr Hpe Hct _] HB' He Hon Hsome HC'].
  assert (HCi : flush_all C RInner = C RInner) by by apply flush_all_other.
  assert (Hsn : ∀ a, snm (sigs σ') a = snm (sigs σ) a) by (intros a; by apply snm_sct).
  assert (Hin : ∀ i a, a ∈ flush_all C (RInq i) → ∃ j, a ∈ C (RInq j)).
  { intros i a Ha. apply flush_all_in in Ha as [(? & j & _ & ?)|?]; eauto. }
  constructor.
  - constructor; rewrite ?HCi; [done|by rewrite Hqs|done|by eapply no_marker_sct|by rewrite Hpr|by rewrite Hqs].
  - done.
  - intros b i Hb Hne. by rewrite (flush_all_slot σ C i HB HC) in Hne.
  - rewrite Hfl. auto.
  - intros i a Ha. rewrite Hsn, Hfl. destruct (Hin i a Ha) as [j Ha']. by apply (Hmsg j).
  - intros i a Ha. rewrite Hsn, Hfl. destruct (Hin i a Ha) as [j Ha']. by apply (Hnm j).
  - intros p. rewrite Hpe, Hsn. intros Hpp. destruct (Hpend p Hpp) as (Hd & Hn & Hf). split_and!.
    + eapply sct_dom; [apply Hct|done].
    + done.
    + intros r Ha. apply flush_all_in in Ha as [(_ & j & _ & Ha)|Ha]; by eapply Hf.
Qed.

(** The invariant depends on the contents, not on which array is in use. *)
Lemma sq_inv_quiet σ σ' C pos :
  sq_inv σ C pos → quiet C σ σ' → bufs_ok σ' → queues_ok σ' C → slots_marked σ' C →
  (sig_inq_buffers σ' = true → Z.land (psflgs σ) ERTS_PSFLG_OFF_HEAP_MSGQ ≠ 0%Z) → sq_inv σ' C pos.
Proof.
  intros [[HC Hsv Hp Hmk Hprs Hblk] HB Hma Hoff Hmsg Hnm Hpend] [Hqs Hfl Hpr Hpe Hct _] HB' HC' Hma' Hoff'.
  assert (Hsn : ∀ a, snm (sigs σ') a = snm (sigs σ) a) by (intros a; by apply snm_sct).
  constructor; try done.
  - constructor; [done|by rewrite Hqs|done|by eapply no_marker_sct|by rewrite Hpr|by rewrite Hqs].
  - by rewrite Hfl.
  - intros i a Ha. rewrite Hsn, Hfl. by apply (Hmsg i).
  - intros i a Ha. rewrite Hsn, Hfl. by apply (Hnm i).
  - intros p. rewrite Hpe, Hsn. intros Hpp. destruct (Hpend p Hpp) as (Hd & Hn & Hf). split_and!; [|done..].
    eapply sct_dom; [apply Hct|done].
Qed.

Lemma wp_flush_inv C pos (Q : unit → sqs → Prop) σ :
  sq_inv σ C pos → (∀ σ', flush_post σ C σ' → sq_inv σ' (flush_all C) pos → Q tt σ') →
  wp erts_proc_sig_queue_flush_buffers Q σ.
Proof.
  intros Hiv HQ. eapply wp_erts_flush_buffers; [apply Hiv|by eapply iv_q|apply Hiv|].
  intros σ' Hp. apply HQ; [done|]. by eapply sq_inv_flush.
Qed.

Lemma wp_install_inv C pos (Q : unit → sqs → Prop) σ :
  sq_inv σ C pos → (∀ σ', quiet C σ σ' → sq_inv σ' C pos → Q tt σ') →
  wp (erts_proc_sig_queue_maybe_install_buffers (psflgs σ)) Q σ.
Proof.
  intros Hiv HQ. eapply wp_maybe_install; [apply Hiv|by eapply iv_q|].
  intros σ' Hqt HB' HC' Hcase. apply HQ; [done|]. destruct Hcase as [->|(Hoff & Hon & Hon')]; [done|].
  eapply sq_inv_quiet; [done..| |done]. intros b i _ Hne. exfalso. apply Hne.
  apply (qo_dead σ C (iv_q _ _ _ Hiv)). by apply (bo_off σ (iv_bufs _ _ _ Hiv)).
Qed.

Lemma wp_lock_inv busy C pos (Q : unit → sqs → Prop) σ :
  sq_inv σ C pos → (∀ σ', quiet C σ σ' → sigs σ' = sigs σ → sq_inv σ' C pos → Q tt σ') →
  wp (erts_proc_sig_queue_lock busy) Q σ.
Proof.
  intros Hiv HQ. apply wp_erts_proc_sig_queue_lock. intros n. apply HQ; [done..|].
  pose proof Hiv as [Hok HB Hma Hoff Hmsg Hnm Hpend].
  eapply sq_inv_quiet; [exact Hiv|done|by eapply bufs_ok_same| |done|done].
  eapply queues_ok_same; [by eapply iv_q|done..].
Qed.

(** ** The buffer of a sender *)

Lemma slot_of_lt from : (0 ≤ erts_internal_hash from)%Z → slot_of from < ERTS_PROC_SIG_INQ_BUFFERED_NR_OF_BUFFERS.
Proof.
  intros Hh. unfold slot_of. pose proof (Z.rem_bound_pos (erts_internal_hash from) 64 Hh ltac:(lia)).
  change (Z.of_nat ERTS_PROC_SIG_INQ_BUFFERED_NR_OF_BUFFERS) with 64%Z.
  unfold ERTS_PROC_SIG_INQ_BUFFERED_NR_OF_BUFFERS. lia.
Qed.

(** A statistic of the array is set or not. *)
Lemma wp_set_stat m f b (Q : unit → sqs → Prop) σ :
  m = upd_bufs f ∨ m = mret tt → bufs σ = Some b → bufs_like b (f b) → b_slots (f b) = b_slots b →
  (∀ b', bufs_like b b' → b_slots b' = b_slots b → Q tt (σ <| bufs := Some b' |>)) →
  wp m Q σ.
Proof.
  intros [->| ->] Hb Hl Hs HQ.
  - eapply wp_upd_bufs; [done|]. by apply HQ.
  - wp_step. specialize (HQ b ltac:(done) eq_refl). rewrite <- Hb in HQ. by destruct σ.
Qed.

Lemma testbit_lor_shiftl n i j :
  Z.testbit (Z.lor n (Z.shiftl 1 (Z.of_nat i))) (Z.of_nat j) = Z.testbit n (Z.of_nat j) || bool_decide (j = i).
Proof.
  rewrite Z.lor_spec, Z.shiftl_1_l, Z.pow2_bits_eqb by lia. f_equal.
  case_bool_decide; [subst; apply Z.eqb_refl|apply Z.eqb_neq; lia].
Qed.

(** What a sender leaves alone. *)
Record send_frame σ σ' : Prop := {
  sf_qs : qs σ' = qs σ;
  sf_prs : sq_prs σ' = sq_prs σ;
  sf_pend : pending_signal σ' = pending_signal σ;
  sf_ct : ∀ a, sct (sigs σ') a = sct (sigs σ) a
}.

Lemma send_frame_trans σ1 σ2 σ3 : send_frame σ1 σ2 → send_frame σ2 σ3 → send_frame σ1 σ3.
Proof. intros [] []. constructor; congruence. Qed.

Lemma send_frame_quiet C σ σ' : quiet C σ σ' → send_frame σ σ'.
Proof. intros []. by constructor. Qed.

(** Enqueueing in the buffer: afterwards the slot is marked. *)
Lemma wp_enqueue_to_slot slot b n m first lst ln len l C pos (Q : Z → sqs → Prop) σ :
  sq_inv σ C pos → bufs σ = Some b → b_slots b !! slot = Some (true, n) →
  chain (sigs σ) first lst ln len l → fresh C l → (∀ p, pending_signal σ = Some p → p ∉ l) →
  (∀ r σ', sq_inv σ' (<[RInq (S slot) := C (RInq (S slot)) ++ l]> C) pos →
     bufs σ' = Some (b <| nonempty_slots := m |>) → send_frame σ σ' → Q r σ') →
  (∀ i, C (RInq (S i)) ≠ [] ∨ i = slot → Z.testbit m (Z.of_nat i) = true) →
  wp (enqueue_signals true first lst ln len (psflgs σ) (S slot)) Q (σ <| bufs := Some (b <| nonempty_slots := m |>) |>).
Proof.
  intros Hiv Hb Hsl Hch Hfr Hpd HQ Hm. set (bm := b <| nonempty_slots := m |>).
  assert (Hlv : ∀ σ' r, bufs σ' = Some bm → live σ' r = live σ r).
  { intros σ' r Hb'. destruct r as [[|i]| |]; try done. simpl. by rewrite Hb, Hb'. }
  assert (Hlive : live σ (RInq (S slot)) = true) by (simpl; by rewrite Hb, Hsl).
  destruct (queues_ok_inq σ C (S slot) (iv_q _ _ _ Hiv) Hlive) as (q & Hq & Hrep).
  destruct (chain_first _ _ _ _ _ _ Hch) as [l' Hl].
  apply wp_enqueue_signals.
  { cbn. eapply lseg_dom; [apply Hch|]. rewrite Hl. left. }
  cbn [negb andb]. wp_step. split; [done|]. exists q, (C (RInq (S slot))), l. split.
  { constructor; [done|done|done| |done]. intros a. apply Hfr. }
  intros sg' q' r Henq. apply HQ; [|done|by constructor; [..|apply Henq]].
  set (σ' := _ <| psflgs := _ |>).
  assert (HB' : ∀ τ, bufs τ = Some bm → sig_inq_buffers τ = sig_inq_buffers σ → bufs_ok τ).
  { intros τ Hbt Hon. destruct (iv_bufs _ _ _ Hiv) as [H1 H2 H3]. constructor.
    - rewrite Hon, Hbt. intros Ho. destruct (H1 Ho) as (b0 & Hb0 & Ha & Hs0). rewrite Hb in Hb0. injection Hb0 as <-. by exists bm.
    - rewrite Hon. intros Ho i. rewrite (Hlv τ) by done. by apply H2.
    - intros i. rewrite (Hlv τ) by done. apply H3. }
  set (σb := σ <| bufs := Some bm |>).
  assert (Hivb : sq_inv σb C pos).
  { eapply sq_inv_quiet; [exact Hiv|done|by apply HB'| | |apply Hiv].
    - eapply queues_ok_same; [by eapply iv_q|intros r'; by apply Hlv|done|done].
    - intros b0 i [= <-] Hne. apply Hm. by left. }
  eapply (sq_inv_enqueued σb σ' C pos (S slot) q first lst ln len l sg' q'); try done.
  - by rewrite (Hlv σb).
  - constructor; [done|done|done| |done]. intros a. apply Hfr.
  - by apply HB'.
  - intros b0 i [= <-] Hne. apply Hm. destruct (decide (i = slot)) as [->|Hni]; [by right|left].
    by rewrite fn_lookup_insert_ne in Hne by congruence.
  - intros p Hp. split; [done|by apply Hpd].
Qed.

(** The statistics of the array are no part of the invariant. *)
Lemma sq_inv_bufs σ b b' C pos :
  sq_inv σ C pos → bufs σ = Some b → bufs_like b b' → sq_inv (σ <| bufs := Some b' |>) C pos.
Proof.
  intros Hiv Hb Hl. set (σ' := σ <| bufs := Some b' |>).
  assert (Hlv : ∀ r, live σ' r = live σ r) by (intros r; by eapply live_like).
  eapply sq_inv_quiet; [exact Hiv|done|by eapply bufs_ok_like; [apply Hiv|..]| | |apply Hiv].
  - eapply queues_ok_same; [by eapply iv_q|exact Hlv|done|done].
  - intros b0 i [= <-] Hne. rewrite (bl_nonempty _ _ Hl). by apply (iv_marked _ _ _ Hiv).
Qed.

Lemma slot_empty σ C slot q :
  vrep (sigs σ) (RInq slot) (view_q q) (C (RInq slot)) → q_last q = InqFirst slot ↔ C (RInq slot) = [].
Proof.
  intros Hr. pose proof (rp_end _ _ _ _ _ _ _ _ Hr) as Hl. cbn in Hl. rewrite Hl. split; [|by intros ->].
  destruct (C (RInq slot)) as [|a l] using rev_ind; [done|]. by rewrite end_cell_app.
Qed.

(** The signals are in the buffer of the sender and the receiver is notified, or
    nothing has happened. *)
Lemma wp_try_enqueue from locked first lst ln len l C pos (Q : Z * notification → sqs → Prop) σ :
  sq_inv σ C pos → (0 ≤ erts_internal_hash from)%Z →
  chain (sigs σ) first lst ln len l → fresh C l → (∀ p, pending_signal σ = Some p → p ∉ l) →
  ((locked = true ∨ sig_inq_buffers σ = false) → Q (0%Z, NoNotify) σ) →
  (∀ n b σ', locked = false → sig_inq_buffers σ = true → bufs σ = Some b →
     sq_inv σ' (<[RInq (S (slot_of from)) := C (RInq (S (slot_of from))) ++ l]> C) pos → send_frame σ σ' →
     n ≠ NoNotify → Q (1%Z, n) σ') →
  wp (erts_proc_sig_queue_try_enqueue_to_buffer from locked first lst ln len) Q σ.
Proof.
  intros Hiv Hh Hch Hfr Hpd HQ0 HQ1. set (slot := slot_of from) in *.
  unfold erts_proc_sig_queue_try_enqueue_to_buffer, erts_proc_sig_queue_get_buffers. fold slot.
  wp_steps. destruct locked; cbn [orb]; [wp_step; apply HQ0; by left|].
  destruct (sig_inq_buffers σ) eqn:Hon; cbn [negb]; [|wp_step; apply HQ0; by right].
  destruct (chain_first _ _ _ _ _ _ Hch) as [l' Hl].
  assert (is_Some (sigs σ !! first)) as [f Hf] by (eapply lseg_dom; [apply Hch|rewrite Hl; left]).
  wp_step. eapply wp_load_s; [done|]. wp_step.
  destruct (bo_on σ (iv_bufs _ _ _ Hiv) Hon) as (b & Hb & Hal & Hslots).
  destruct (Hslots slot (slot_of_lt from Hh)) as [n Hsl].
  eapply wp_get_bufs; [done|]. wp_step. eapply wp_deref; [done|]. cbn [negb].
  assert (Hlive : live σ (RInq (S slot)) = true) by (simpl; by rewrite Hb, Hsl).
  wp_step. eapply wp_set_stat; [case_decide; [by left|by right]|done|by constructor|done|]. intros b1 Hl1 Hs1.
  wp_step. eapply (wp_set_stat _ _ b1); [destruct (_ && _); [by left|by right]|done|by constructor|done|].
  intros b2 Hl2 Hs2. cbn [bufs].
  pose proof (bufs_like_trans _ _ _ Hl1 Hl2) as Hl12. rewrite Hs1 in Hs2.
  set (σ2 := _ <| bufs := Some b2 |>).
  assert (Hiv2 : sq_inv σ2 C pos).
  { change σ2 with (σ <| bufs := Some b2 |>). by eapply sq_inv_bufs. }
  destruct (queues_ok_inq σ C (S slot) (iv_q _ _ _ Hiv) Hlive) as (q & Hq & Hrep).
  wp_step. eapply wp_load_q; [done|]. pose proof (slot_empty _ _ _ _ Hrep) as Hemp. wp_step.
  assert (Hrest : ∀ m, (∀ i, C (RInq (S i)) ≠ [] ∨ i = slot → Z.testbit m (Z.of_nat i) = true) →
    wp (σ ← get; _ ← enqueue_signals true first lst ln len (psflgs σ) (S slot);
        _ ← upd_bufs (λ b, b <| b_slots ::= alter (λ '(a, n), (a, u64 (n + 1)%Z)) slot |>);
        mret (1%Z, if s_nmsg f then NewSig else NewMessage)) Q (σ2 <| bufs := Some (b2 <| nonempty_slots := m |>) |>)).
  { intros m Hm. wp_step. wp_step. wp_step.
    eapply (wp_enqueue_to_slot slot b2 n m first lst ln len l C pos _ σ2); [done|done|by rewrite Hs2|done..| |done].
    intros r σ' Hiv' Hb' Hfr'. wp_step. eapply wp_upd_bufs; [done|]. wp_step.
    eapply HQ1; [done..| | |by destruct (s_nmsg f)]. 2: { destruct Hfr'. by constructor. } eapply sq_inv_bufs; [done|done|].
    constructor; [|done|done]. intros j. cbn. destruct (decide (j = slot)) as [->|]; [|by rewrite lookup_alter_ne].
    rewrite lookup_alter_eq. by destruct (b_slots b2 !! slot) as [[]|]. }
  destruct (decide (q_last q = InqFirst (S slot))) as [Hd|Hd].
  - eapply wp_upd_bufs; [done|]. refine (Hrest _ _). intros i Hi.
    rewrite testbit_lor_shiftl. destruct Hi as [Hi|Hi]; [|by rewrite bool_decide_true, orb_true_r].
    by rewrite (iv_marked _ _ _ Hiv2 b2).
  - assert (Hm : ∀ i, C (RInq (S i)) ≠ [] ∨ i = slot → Z.testbit (nonempty_slots b2) (Z.of_nat i) = true).
    { intros i [Hi| ->]; apply (iv_marked _ _ _ Hiv2 b2); [done..|]. by rewrite <- Hemp. }
    wp_step. specialize (Hrest _ Hm). by destruct b2.
Qed.

End send.
