(* ===== verification/SigMsgs.v ===== *)
(** Messages are queued: the buffer of the sender or the outer queue, and what
    becomes of messages to a process that exits. *)

From stdpp Require Import base numbers functions list gmap sets.
From Stdlib Require Import ZArith Lia.
From S2P Require Import Prelude PonPremise RecvMarker SigQueue SigInv SigOps SigConcat SigEnqueue SigFlow SigFetch SigRecv SigSend.

#[local] Opaque flush_all.

Section msgs.
Context {TH : TermHash} {SA : StaticAtoms}.
Implicit Types σ : sqs.
Implicit Types C : region → list positive.

Lemma sq_inv_ext σ C C' pos : sq_inv σ C pos → (∀ r, C' r = C r) → sq_inv σ C' pos.
Proof.
  intros [[HC Hsv Hp Hmk Hprs Hblk] HB Hma Hoff Hmsg Hnm Hpend] He. constructor; try done.
  - constructor; rewrite ?He; [|done..]. by eapply queues_ok_ext.
  - intros b i Hb. rewrite He. by apply Hma.
  - intros i a. rewrite He. apply Hmsg.
  - intros i a. rewrite He. apply Hnm.
  - intros p Hp'. destruct (Hpend p Hp') as (? & ? & Hf). split_and!; [done..|]. intros r. rewrite He. apply Hf.
Qed.

(** Signals in no queue may be created, changed and freed, and flags set. *)
Lemma sq_inv_frame σ σ' C pos x :
  sq_inv σ C pos → (∀ r a, a ∈ C r → sigs σ' !! a = sigs σ !! a) →
  inqs σ' = inqs σ → bufs σ' = bufs σ → sig_inq_buffers σ' = sig_inq_buffers σ → qs σ' = qs σ →
  sq_prs σ' = sq_prs σ → psflgs σ' = Z.lor (psflgs σ) x →
  (∀ a s, sigs σ' !! a = Some s → s_recv_marker s = false) →
  (∀ p, pending_signal σ' = Some p → is_Some (sigs σ' !! p) ∧ snm (sigs σ') p = true ∧ ∀ r, p ∉ C r) →
  sq_inv σ' C pos.
Proof.
  intros [[HC Hsv Hp Hmk Hprs Hblk] HB Hma Hoff Hmsg Hnm Hpend] Hs Hi Hb Hon Hqs Hpr Hfl Hmk' Hpe'.
  assert (Hlv : ∀ r, live σ' r = live σ r) by (intros [[|i]| |]; simpl; by rewrite ?Hb).
  constructor; try done.
  - constructor; [|by rewrite Hqs|done|done|by rewrite Hpr|by rewrite Hqs]. eapply queues_ok_same; [done..| |done].
    intros [i| |] _; simpl; by rewrite ?Hi, ?Hqs.
  - by eapply bufs_ok_same.
  - intros b i. rewrite Hb. apply Hma.
  - rewrite Hon, Hfl. intros Ho. apply land_lor_l. by apply Hoff.
  - intros i a Ha. unfold snm. rewrite (Hs (RInq i)) by done. rewrite Hfl. intros Hn. apply land_lor_l. by eapply Hmsg.
  - intros i a Ha. unfold snm. rewrite (Hs (RInq i)) by done. rewrite Hfl. intros Hn. apply land_lor_l. by eapply Hnm.
Qed.

(** The chain is freed. *)
Lemma wp_erts_cleanup_messages fuel p l (Q : unit → sqs → Prop) σ :
  lseg (snx (sigs σ)) p l None → NoDup l → length l ≤ fuel →
  (∀ sg', (∀ a, a ∈ l → sg' !! a = None) → (∀ a, a ∉ l → sg' !! a = sigs σ !! a) → Q tt (σ <| sigs := sg' |>)) →
  wp (erts_cleanup_messages fuel p) Q σ.
Proof.
  revert fuel p σ Q. induction l as [|a l IH]; intros fuel p σ Q Hsg Hnd Hlen HQ.
  - simpl in Hsg. subst p. destruct fuel; simpl; wp_step; specialize (HQ (sigs σ)); destruct σ; apply HQ; set_solver.
  - destruct Hsg as (-> & q & Hq & Hsg). apply NoDup_cons in Hnd as [Ha Hnd].
    destruct fuel as [|fuel]; [simpl in Hlen; lia|]. simpl in Hlen. cbn [erts_cleanup_messages].
    unfold snx in Hq. destruct (sigs σ !! a) as [s|] eqn:Hs; [|done]. injection Hq as <-.
    wp_step. eapply wp_load_s; [done|]. wp_step. wp_step.
    apply IH; [|done|lia|].
    + eapply lseg_frame; [|exact Hsg]. intros b Hb. unfold snx. cbn. by rewrite lookup_delete_ne by congruence.
    + intros sg' Hin Hout. cbn in Hout. specialize (HQ sg'). destruct σ. apply HQ.
      * intros b [->|Hb]%elem_of_cons; [|by apply Hin]. rewrite Hout by done. apply lookup_delete_eq.
      * intros b [Hb1 Hb2]%not_elem_of_cons. rewrite Hout by done. by apply lookup_delete_ne.
Qed.

(** The signals [l] of [from] are queued. *)
Inductive queued (from : Z) (l : list positive) C C' : Prop :=
  | queued_buffer : C' = <[RInq (S (slot_of from)) := C (RInq (S (slot_of from))) ++ l]> C → queued from l C C'
  | queued_outer : (∀ r, C' r = (<[RInq 0 := flush_all C (RInq 0) ++ l]> (flush_all C)) r) → queued from l C C'.

(** One message last in the outer queue. *)
Lemma wp_link_inv a C pos (Q : unit → sqs → Prop) σ :
  sq_inv σ C pos → chain (sigs σ) a (Next a) None 1 [a] → snm (sigs σ) a = false → fresh C [a] →
  (∀ i, C (RInq (S i)) = []) → (∀ p, pending_signal σ = Some p → p ≠ a) →
  (∀ σ', sq_inv σ' (<[RInq 0 := C (RInq 0) ++ [a]]> C) pos → send_frame σ σ' → Q tt σ') →
  wp (LINK_MESSAGE a (psflgs σ)) Q σ.
Proof.
  intros Hiv Hch Hn Hfr Hnb Hpd HQ. destruct (queues_ok_inq σ C 0 (iv_q _ _ _ Hiv) eq_refl) as (q & Hq & Hrep).
  assert (Hpre : enq_pre σ 0 q (C (RInq 0)) a (Next a) None 1 (psflgs σ) [a]).
  { constructor; [done..| |done]. intros b. apply Hfr. }
  eapply wp_LINK_MESSAGE; [done|done|]. intros sg' q' Henq. set (σ' := _ <| psflgs := _ |>).
  apply HQ; [|constructor; [done..|apply Henq]].
  eapply (sq_inv_enqueued σ σ'); [done|done|done|done|done|done|done|done|done| |done| |done| |].
  - cbn. rewrite Hn. unfold enq_flags. by destruct (q_nm_next q).
  - eapply bufs_ok_same; [apply Hiv|done|done].
  - intros b i _. by rewrite fn_lookup_insert_ne, Hnb.
  - intros p Hp. split; [done|]. rewrite list_elem_of_singleton. by apply Hpd.
Qed.

(** A chain last in the outer queue, behind what the buffers held. *)
Lemma wp_enqueue_outer first lst ln len l C pos (Q : Z → sqs → Prop) σ :
  sq_inv σ C pos → chain (sigs σ) first lst ln len l → fresh C l → (∀ p, pending_signal σ = Some p → p ∉ l) →
  (∀ r σ', sq_inv σ' (<[RInq 0 := flush_all C (RInq 0) ++ l]> (flush_all C)) pos → send_frame σ σ' → Q r σ') →
  wp (enqueue_signals false first lst ln len (psflgs σ) 0) Q σ.
Proof.
  intros Hiv Hch Hfr Hpd HQ. destruct (chain_first _ _ _ _ _ _ Hch) as [l' Hl].
  assert (Hd : is_Some (sigs σ !! first)) by (eapply lseg_dom; [apply Hch|rewrite Hl; left]).
  apply wp_enqueue_signals; [done|].
  assert (Hgo : ∀ σ1, sq_inv σ1 (flush_all C) pos → send_frame σ σ1 → psflgs σ1 = psflgs σ → chain (sigs σ1) first lst ln len l →
    snm (sigs σ1) first = snm (sigs σ) first ∧ ∃ q l1 l, enq_pre σ1 0 q l1 first lst ln len (psflgs σ) l ∧
       ∀ sg' q' r, enqueued σ1 0 q l1 first l sg' q' →
         Q r (σ1 <| sigs := sg' |> <| inqs ::= <[0 := q']> |>
                <| psflgs := Z.lor (psflgs σ) (enq_flags q (snm (sigs σ1) first) len) |>)).
  { intros σ1 Hiv1 Hf1 Hfl1 Hch1. split; [apply snm_sct, Hf1|].
    destruct (queues_ok_inq σ1 _ 0 (iv_q _ _ _ Hiv1) eq_refl) as (q & Hq & Hrep).
    assert (Hfr1 : fresh (flush_all C) l).
    { intros r a Ha. apply flush_all_in in Ha as [(_ & j & _ & Ha)|Ha]; by eapply Hfr. }
    assert (Hpre : enq_pre σ1 0 q (flush_all C (RInq 0)) first lst ln len (psflgs σ) l).
    { constructor; [done..| |done]. intros b. apply Hfr1. }
    exists q, (flush_all C (RInq 0)), l. split; [done|]. intros sg' q' r Henq. set (σ' := _ <| psflgs := _ |>).
    apply HQ. 2: { eapply send_frame_trans; [exact Hf1|]. constructor; [done..|apply Henq]. }
    rewrite <- Hfl1 in Hpre.
    eapply (sq_inv_enqueued σ1 σ'); [done|done|exact Hpre|done|exact Henq|done|done|done|done| |done| |done| |].
    - cbn. by rewrite Hfl1.
    - eapply bufs_ok_same; [apply Hiv1|done|done].
    - intros b i _. rewrite fn_lookup_insert_ne by done.
      by rewrite (flush_all_slot σ C i (iv_bufs _ _ _ Hiv) (iv_q _ _ _ Hiv)).
    - intros p Hp. split; [done|]. apply Hpd. by rewrite <- (sf_pend _ _ Hf1). }
  cbn [negb andb]. case_bool_decide as Hoff; cbn [negb].
  - wp_step. apply Hgo; [|done..]. eapply sq_inv_ext; [exact Hiv|]. eapply flush_all_nil; [apply Hiv|by eapply iv_q|].
    destruct (sig_inq_buffers σ) eqn:Hon; [|done]. by apply (iv_off _ _ _ Hiv) in Hon.
  - eapply wp_flush_inv; [done|]. intros σ1 Hp1 Hiv1. pose proof (fp_quiet _ _ _ Hp1) as Hqt.
    apply Hgo; [done|by eapply send_frame_quiet|apply Hqt|]. eapply chain_ext; [done|].
    intros a Ha. apply (qt_out _ _ _ Hqt). intros i Hi. by eapply Hfr.
Qed.

(** The premises of the receiver are asked about a message; no term matches yet. *)
Lemma wp_notify_premises a t (Q : unit → sqs → Prop) σ :
  Q tt σ →
  wp (match pon_premises (sq_prs σ) with
      | Some _ => _ ← on_premises (erts_pon_notify_premises a t); mret tt
      | None => mret tt
      end) Q σ.
Proof.
  intros HQ. destruct (pon_premises (sq_prs σ)) eqn:Hp; [|by wp_step]. wp_step. apply wp_on_premises.
  unfold erts_pon_notify_premises. wp_steps. rewrite Hp. wp_step. wp_step. by destruct σ.
Qed.

(** The signals of a chain that a process that exits does not take are freed, but
    for a non-message signal in front. *)
Record dropped σ C (pos : nat) (first : positive) (l : list positive) σ' : Prop := {
  dr_exit : Z.land (psflgs σ) ERTS_PSFLG_EXITING ≠ 0%Z;
  dr_free : ∀ a, a ∈ l → a ≠ first ∨ snm (sigs σ) first = false → sigs σ' !! a = None;
  dr_keep : ∀ a, a ∉ l ∨ a = first ∧ snm (sigs σ) first = true → sigs σ' !! a = sigs σ !! a;
  dr_pend : pending_signal σ' = if snm (sigs σ) first then Some first else pending_signal σ;
  dr_inv : sq_inv σ' C pos
}.

Lemma wp_drop first lst len l C pos (Q : unit → sqs → Prop) σ f :
  sq_inv σ C pos → chain (sigs σ) first lst None len l → fresh C l → (∀ p, pending_signal σ = Some p → p ∉ l) →
  Z.land (psflgs σ) ERTS_PSFLG_EXITING ≠ 0%Z → sigs σ !! first = Some f →
  (∀ σ', dropped σ C pos first l σ' → Q tt σ') →
  wp (if s_nmsg f : bool then
        _ ← modify (λ σ, σ <| pending_signal := Some first |>);
        erts_cleanup_messages (size (sigs σ)) (s_next f)
      else erts_cleanup_messages (size (sigs σ)) (Some first)) Q σ.
Proof.
  intros Hiv Hch Hfr Hpd Hex Hf HQ. destruct (chain_first _ _ _ _ _ _ Hch) as [l' ->].
  pose proof (ch_seg _ _ _ _ _ _ Hch) as Hseg. pose proof (ch_nodup _ _ _ _ _ _ Hch) as Hnd.
  assert (Hlen : length (first :: l') ≤ size (sigs σ)).
  { apply nodup_fuel; [exact Hnd|]. intros a Ha. by eapply lseg_dom. }
  assert (Hn : snm (sigs σ) first = s_nmsg f) by (unfold snm; by rewrite Hf).
  apply NoDup_cons in Hnd as Hnd'. destruct Hnd' as [Hni Hnd'].
  assert (Hfin : ∀ (l2 : list positive) sg' pe, (∀ a, a ∈ l2 ↔ a ∈ first :: l' ∧ (a ≠ first ∨ s_nmsg f = false)) →
    (∀ a, a ∈ l2 → sg' !! a = None) → (∀ a, a ∉ l2 → sg' !! a = sigs σ !! a) →
    pe = (if s_nmsg f then Some first else pending_signal σ) →
    Q tt (σ <| pending_signal := pe |> <| sigs := sg' |>)).
  { intros l2 sg' pe Hl2 Hin Hout Hpe. apply HQ. set (σ' := _ <| sigs := _ |>).
    assert (Hkeep : ∀ a, a ∉ first :: l' ∨ a = first ∧ s_nmsg f = true → sg' !! a = sigs σ !! a).
    { intros a Ha. apply Hout. rewrite Hl2. destruct Ha as [Ha|[-> Ha]]; [tauto|]. rewrite Ha. naive_solver. }
    constructor; rewrite ?Hn; [done|intros a Ha Hc; apply Hin; by rewrite Hl2|done|done|].
    eapply (sq_inv_frame σ σ' C pos 0); [done| |done..|by rewrite Z.lor_0_r| |].
    - intros r a Ha. apply Hkeep. left. by eapply Hfr.
    - intros a s Hs. destruct (decide (a ∈ l2)) as [Ha|Ha]; [cbn in Hs; by rewrite Hin in Hs|].
      cbn in Hs. rewrite Hout in Hs by done. by apply (rc_mark _ _ _ (iv_recv _ _ _ Hiv) a).
    - intros p Hp. cbn in Hp. rewrite Hpe in Hp. destruct (s_nmsg f) eqn:Hnf.
      + injection Hp as <-. assert (sg' !! first = Some f) as Hs by (rewrite Hkeep; [done|by right]).
        split_and!; [cbn; by rewrite Hs|unfold snm; cbn; by rewrite Hs|]. intros r Hr. apply Hfr in Hr. apply Hr. left.
      + assert (sg' !! p = sigs σ !! p) as Hs by (apply Hkeep; left; by apply Hpd).
        destruct (iv_pend _ _ _ Hiv p Hp) as (Hp1 & Hp2 & Hp3). unfold snm in *. cbn. by rewrite Hs. }
  destruct (s_nmsg f) eqn:Hnf.
  - wp_step. wp_step. destruct Hseg as (_ & q & Hq & Hseg). unfold snx in Hq. rewrite Hf in Hq. injection Hq as <-.
    eapply (wp_erts_cleanup_messages _ _ l'); [exact Hseg|done|cbn in Hlen; lia|].
    intros sg' Hin Hout. eapply (Hfin l'); [|done..]. intros a. set_solver.
  - eapply (wp_erts_cleanup_messages _ _ (first :: l')); [exact Hseg|done|done|].
    intros sg' Hin Hout. specialize (Hfin (first :: l') sg' (pending_signal σ)). destruct σ. apply Hfin; [|done..].
    intros a. naive_solver.
Qed.

(** What [queue_messages] wants of its caller. *)
Record msgs_ok σ C (first : positive) (lst : link) (len : Z) (l : list positive) : Prop := {
  mo_chain : chain (sigs σ) first lst None len l;
  mo_fresh : fresh C l;
  mo_pend : ∀ p, pending_signal σ = Some p → p ∉ l;
  mo_link : snm (sigs σ) first = true → l ≠ [first]
}.

(** Whether the process takes messages: a buffer does always, the outer queue
    unless the process exits. *)
Definition takes_msgs (locked : bool) σ : bool :=
  negb locked && sig_inq_buffers σ || bool_decide (Z.land (psflgs σ) ERTS_PSFLG_EXITING = 0%Z).

(** The signals are queued when the process takes them, and dropped otherwise. *)
Definition queue_post from σ C pos first l (taken : bool) σ' : Prop :=
  if taken then ∃ C', queued from l C C' ∧ sq_inv σ' C' pos ∧ send_frame σ σ' else dropped σ C pos first l σ'.

Lemma chain_single sg first lst ln n l :
  chain sg first lst ln n l → lst = Next first ↔ l = [first].
Proof.
  intros Hch. rewrite <- (ch_last _ _ _ _ _ _ Hch QsFirst). split; [|by intros ->].
  destruct (chain_first _ _ _ _ _ _ Hch) as [l' ->]. pose proof (ch_nodup _ _ _ _ _ _ Hch) as Hnd.
  apply NoDup_cons in Hnd as [Hn _]. destruct l' as [|a l' _] using rev_ind; [done|].
  rewrite app_comm_cons, end_cell_app. simpl. intros [= ->]. exfalso. apply Hn. apply elem_of_app. right. left.
Qed.

(** One message, behind what the buffers held. *)
Lemma wp_flush_link first l len C pos (Q : unit → sqs → Prop) σ :
  sq_inv σ C pos → msgs_ok σ C first (Next first) len l →
  (∀ σ', sq_inv σ' (<[RInq 0 := flush_all C (RInq 0) ++ l]> (flush_all C)) pos → send_frame σ σ' → Q tt σ') →
  wp (_ ← (if decide (Z.land (psflgs σ) ERTS_PSFLG_OFF_HEAP_MSGQ ≠ 0%Z)
           then erts_proc_sig_queue_flush_buffers else mret tt);
      LINK_MESSAGE first (psflgs σ)) Q σ.
Proof.
  intros Hiv [Hch Hfr Hpd Hln] HQ.
  assert (l = [first]) as -> by by eapply chain_single.
  assert (Hn : snm (sigs σ) first = false) by (destruct (snm (sigs σ) first); [by destruct (Hln eq_refl)|done]).
  assert (len = 1%Z) as -> by (by destruct (ch_msg _ _ _ _ _ _ Hch Hn) as (_ & -> & _)).
  assert (Hgo : ∀ σ1, sq_inv σ1 (flush_all C) pos → send_frame σ σ1 → psflgs σ1 = psflgs σ →
    chain (sigs σ1) first (Next first) None 1 [first] → wp (LINK_MESSAGE first (psflgs σ)) Q σ1).
  { intros σ1 Hiv1 Hf1 Hfl1 Hch1. rewrite <- Hfl1.
    eapply wp_link_inv; [exact Hiv1|done|by rewrite (snm_sct _ _ _ (sf_ct _ _ Hf1 first))| | | |].
    - intros r a Ha. apply flush_all_in in Ha as [(_ & j & _ & Ha)|Ha]; by eapply Hfr.
    - intros i. by apply (flush_all_slot σ C i (iv_bufs _ _ _ Hiv) (iv_q _ _ _ Hiv)).
    - intros p. rewrite (sf_pend _ _ Hf1). intros Hp ->. apply (Hpd _ Hp). left.
    - intros σ' Hiv' Hf'. apply HQ; [done|]. by eapply send_frame_trans. }
  wp_step. case_decide as Hoff.
  - eapply wp_flush_inv; [done|]. intros σ1 Hp1 Hiv1. pose proof (fp_quiet _ _ _ Hp1) as Hqt.
    apply Hgo; [done|by eapply send_frame_quiet|apply Hqt|]. eapply chain_ext; [done|].
    intros a Ha. apply (qt_out _ _ _ Hqt). intros i Hi. by eapply Hfr.
  - wp_step. apply Hgo; [|done..]. eapply sq_inv_ext; [exact Hiv|]. eapply flush_all_nil; [apply Hiv|by eapply iv_q|].
    destruct (sig_inq_buffers σ) eqn:Hon; [|done]. by apply (iv_off _ _ _ Hiv) in Hon.
Qed.

Lemma msgs_ok_quiet σ σ' C first lst len l :
  msgs_ok σ C first lst len l → quiet C σ σ' → msgs_ok σ' C first lst len l.
Proof.
  intros [Hch Hfr Hpd Hln] Hqt. constructor; [|done|by rewrite (qt_pend _ _ _ Hqt)|].
  - eapply chain_ext; [done|]. intros a Ha. apply (qt_out _ _ _ Hqt). intros i Hi. by eapply Hfr.
  - by rewrite (snm_sct _ _ _ (qt_ct _ _ _ Hqt first)).
Qed.

Lemma wp_queue_messages_locked from first lst len l C pos (Q : notification → sqs → Prop) σ :
  sq_inv σ C pos → msgs_ok σ C first lst len l →
  (∀ n σ', queue_post from σ C pos first l (takes_msgs true σ) σ' → Q n σ') →
  wp (queue_messages_locked first lst len) Q σ.
Proof.
  intros Hiv Hok HQ. unfold queue_messages_locked.
  destruct (chain_first _ _ _ _ _ _ (mo_chain _ _ _ _ _ _ Hok)) as [l' Hl].
  assert (is_Some (sigs σ !! first)) as [f Hf] by (eapply lseg_dom; [apply Hok|rewrite Hl; left]).
  wp_step. wp_step. wp_step. eapply wp_load_s; [done|].
  destruct (decide (Z.land (psflgs σ) ERTS_PSFLG_EXITING ≠ 0%Z)) as [Hex|Hex].
  { wp_step. eapply wp_drop; [done|apply Hok..|done|done|]. intros σ' Hd. wp_step. apply HQ.
    unfold takes_msgs. by rewrite bool_decide_false. }
  unfold takes_msgs in HQ. rewrite bool_decide_true in HQ by (by destruct (decide (Z.land (psflgs σ) ERTS_PSFLG_EXITING = 0%Z))).
  wp_step. eapply wp_install_inv; [done|]. intros σ1 Hqt1 Hiv1. rewrite <- (qt_flg _ _ _ Hqt1).
  pose proof (msgs_ok_quiet _ _ _ _ _ _ _ Hok Hqt1) as Hok1.
  assert (Hend : ∀ n σ', sq_inv σ' (<[RInq 0 := flush_all C (RInq 0) ++ l]> (flush_all C)) pos →
    send_frame σ1 σ' → Q n σ').
  { intros n σ' Hiv' Hf'. apply HQ. eexists. split_and!; [by apply queued_outer|done|].
    eapply send_frame_trans; [by eapply send_frame_quiet|done]. }
  wp_step. destruct (decide (lst = Next first)) as [->|Hne].
  - eapply wp_flush_link; [done..|]. intros σ' Hiv' Hf'. destruct (s_nmsg f); [wp_step; by apply Hend|].
    wp_step. wp_step. wp_step. apply wp_notify_premises. wp_step. by apply Hend.
  - wp_step. unfold erts_enqueue_signals. eapply wp_enqueue_outer; [done|apply Hok1..|]. intros r σ' Hiv' Hf'. wp_step. wp_step. by apply Hend.
Qed.

Lemma wp_queue_messages from locked busy first lst len l C pos (Q : notification → sqs → Prop) σ :
  sq_inv σ C pos → (0 ≤ erts_internal_hash from)%Z → msgs_ok σ C first lst len l →
  (∀ n σ', queue_post from σ C pos first l (takes_msgs locked σ) σ' → Q n σ') →
  wp (queue_messages from locked busy first lst len) Q σ.
Proof.
  intros Hiv Hh Hok HQ. unfold queue_messages. wp_step.
  eapply wp_try_enqueue; [done..|apply Hok|apply Hok|apply Hok| |].
  - intros Hdir. rewrite decide_False by (intros Hne; by apply Hne). wp_step.
    replace (takes_msgs locked σ) with (takes_msgs true σ) in HQ
      by (unfold takes_msgs; destruct Hdir as [->| ->]; by rewrite ?andb_false_r).
    destruct locked; cbn [negb]; [wp_step; by eapply wp_queue_messages_locked|].
    eapply wp_lock_inv; [done|]. intros σ1 Hqt Hs Hiv1.
    eapply wp_queue_messages_locked; [done|by eapply msgs_ok_quiet|].
    unfold takes_msgs. cbn [negb andb orb] in *. rewrite (qt_flg _ _ _ Hqt). unfold queue_post, takes_msgs in HQ.
    intros n σ' Hpost. apply HQ. cbn [negb andb orb]. destruct (bool_decide _).
    + destruct Hpost as (C' & Hqd & Hiv' & Hf'). exists C'. split_and!; [done..|].
      eapply send_frame_trans; [by eapply send_frame_quiet|done].
    + destruct Hpost as [D1 D2 D3 D4 D5], Hqt as [_ Hfl _ Hpe _ _]. rewrite Hs, ?Hfl, ?Hpe in *. by constructor.
  - intros n b σ1 -> Hon Hb Hiv1 Hf1 Hn. rewrite decide_True by done. wp_step. apply HQ.
    unfold takes_msgs. rewrite Hon. eexists. by split_and!; [apply queued_buffer|..].
Qed.

(** ** Queueing messages of processes and others *)

(** Messages of their own, in no queue. *)
Record loose σ C (first : positive) (lst : link) (len : Z) (l : list positive) : Prop := {
  lo_chain : chain (sigs σ) first lst None len l;
  lo_msgs : ∀ a, a ∈ l → snm (sigs σ) a = false;
  lo_fresh : fresh C l;
  lo_pend : ∀ p, pending_signal σ = Some p → p ∉ l
}.

Lemma loose_msgs_ok σ C first lst len l : loose σ C first lst len l → msgs_ok σ C first lst len l.
Proof.
  intros [Hch Hm Hfr Hpd]. constructor; [done..|]. destruct (chain_first _ _ _ _ _ _ Hch) as [l' ->].
  by rewrite Hm by left.
Qed.

(** A field that is no link of a message in no queue is set. *)
Lemma wp_upd_loose a f C pos (Q : unit → sqs → Prop) σ :
  sq_inv σ C pos → loose σ C a (Next a) 1 [a] →
  (∀ s, s_next (f s) = s_next s ∧ s_nmsg (f s) = s_nmsg s ∧ s_recv_marker (f s) = s_recv_marker s) →
  (∀ σ', sq_inv σ' C pos → loose σ' C a (Next a) 1 [a] → σ' = (σ <| sigs ::= alter f a |>) → Q tt σ') →
  wp (upd_s a f) Q σ.
Proof.
  intros Hiv [Hch Hm Hfr Hpd] Hf HQ. assert (Hm' : snm (sigs σ) a = false) by (apply Hm; left).
  pose proof (ch_seg _ _ _ _ _ _ Hch) as Hseg.
  apply wp_upd_s; [eapply lseg_dom; [exact Hseg|left]|]. apply HQ; [| |done].
  - assert (Hne : ∀ r b, b ∈ C r → b ≠ a) by (intros r b Hb ->; by apply (Hfr r a Hb); left).
    eapply (sq_inv_frame σ _ C pos 0); [done| |done..|by rewrite Z.lor_0_r| |].
    + intros r b Hb. cbn. apply lookup_alter_ne. intros ->. by eapply Hne.
    + intros b s. cbn. intros [(-> & s0 & Hs & ->)|[_ Hs]]%lookup_alter_Some.
      * destruct (Hf s0) as (_ & _ & ->). by apply (rc_mark _ _ _ (iv_recv _ _ _ Hiv) b).
      * by apply (rc_mark _ _ _ (iv_recv _ _ _ Hiv) b).
    + intros p Hp. destruct (iv_pend _ _ _ Hiv p Hp) as (H1 & H2 & H3). apply Hpd in Hp as Hp'.
      unfold snm in *. cbn. rewrite lookup_alter_ne by set_solver. done.
  - assert (Hsn : snm (alter f a (sigs σ)) a = false) by (rewrite snm_alter; [done|apply Hf]).
    constructor; [|set_solver|done|done]. apply chain_one; [|done].
    simpl in Hseg. destruct Hseg as (_ & q & Hq & ->). cbn. rewrite <- Hq. unfold snx.
    apply (view_alter_id s_next). apply Hf.
Qed.

Lemma cells_msgs sg c l : (∀ a, a ∈ l → snm sg a = false) → cells sg c l = [].
Proof. intros. by apply cells_none. Qed.

(** A signal that is held back goes in front. *)
Lemma chain_prepend sg p first lst len l s :
  chain sg first lst None len l → (∀ a, a ∈ l → snm sg a = false) → p ∉ l → sg !! p = Some s → s_nmsg s = true →
  chain (alter (λ s, s <| s_next := Some first |> <| specific_next := None |>) p sg) p lst None len (p :: l).
Proof.
  intros Hch Hm Hp Hs Hn. set (sg' := alter _ p sg).
  assert (Hsp : sg' !! p = Some (s <| s_next := Some first |> <| specific_next := None |>)).
  { unfold sg'. by rewrite lookup_alter_eq, Hs. }
  assert (Hout : ∀ a, a ∈ l → sg' !! a = sg !! a) by (intros a Ha; unfold sg'; apply lookup_alter_ne; congruence).
  pose proof (chain_ext _ _ _ _ _ _ _ Hch Hout) as Hch'.
  destruct (chain_first _ _ _ _ _ _ Hch) as [l' Hl].
  assert (Hm' : ∀ a, a ∈ l → snm sg' a = false) by (intros a Ha; unfold snm; rewrite Hout by done; by apply Hm).
  assert (Hf : first ∈ l) by (rewrite Hl; left).
  destruct (ch_msg _ _ _ _ _ _ Hch (Hm _ Hf)) as (_ & Hlen & _).
  assert (Hsn : snm sg' p = true) by (unfold snm; by rewrite Hsp).
  constructor.
  - simpl. split; [done|]. exists (Some first). split; [unfold snx; by rewrite Hsp|apply Hch'].
  - apply NoDup_cons. split; [done|apply Hch].
  - intros c. rewrite end_cell_cons. apply Hch.
  - intros _. simpl. rewrite Hsn, (cells_msgs sg') by done. split_and!; [|by rewrite Hlen; apply (offs_msgs sg' 0)|done].
    simpl. unfold ssp. by rewrite Hsp.
  - by rewrite Hsn.
  - intros a Ha _. rewrite Hlen, Hl. simpl. lia.
Qed.

(** The signals that go with [l]: one that was held back and the messages. *)
Definition with_pending σ (l : list positive) : list positive := option_list (pending_signal σ) ++ l.

Lemma wp_prepend first lst len l C pos (Q : positive → sqs → Prop) σ :
  sq_inv σ C pos → loose σ C first lst len l →
  (∀ first' σ', sq_inv σ' C pos → msgs_ok σ' C first' lst len (with_pending σ l) → pending_signal σ' = None →
     (∀ a, a ∉ with_pending σ l → sigs σ' !! a = sigs σ !! a) → psflgs σ' = psflgs σ →
     sig_inq_buffers σ' = sig_inq_buffers σ →
     (∀ a, sct (sigs σ') a = sct (sigs σ) a) → Q first' σ') →
  wp (prepend_pending_sig_maybe first) Q σ.
Proof.
  intros Hiv Hlo HQ. unfold prepend_pending_sig_maybe. wp_step. wp_step. unfold with_pending in HQ.
  destruct (pending_signal σ) as [p|] eqn:Hpe.
  2: { wp_step. apply HQ; [done|by apply loose_msgs_ok|done..]. }
  destruct (iv_pend _ _ _ Hiv p Hpe) as ([s Hs] & Hn & Hpf). pose proof (lo_pend _ _ _ _ _ _ Hlo p Hpe) as Hpl.
  assert (Hns : s_nmsg s = true) by (unfold snm in Hn; by rewrite Hs in Hn).
  wp_step. wp_step. wp_step. apply wp_upd_s; [by exists s|]. wp_step.
  set (σ' := _ <| sigs ::= _ |>).
  pose proof (chain_prepend _ p _ _ _ _ s (lo_chain _ _ _ _ _ _ Hlo) (lo_msgs _ _ _ _ _ _ Hlo) Hpl Hs Hns) as Hch'.
  apply HQ; [| |done| |done|done|].
  - eapply (sq_inv_frame σ σ' C pos 0); [done| |done..|by rewrite Z.lor_0_r| |done].
    + intros r b Hb. cbn. apply lookup_alter_ne. intros ->. by apply (Hpf r).
    + intros b s0. cbn. intros [(-> & s1 & Hs1 & ->)|[_ Hs1]]%lookup_alter_Some;
        exact (rc_mark _ _ _ (iv_recv _ _ _ Hiv) _ _ Hs1).
  - constructor; [done| |done|].
    + intros r a Ha [->|Hl]%elem_of_cons; [by apply (Hpf r)|by apply (lo_fresh _ _ _ _ _ _ Hlo r a)].
    + intros _. simpl. destruct (chain_first _ _ _ _ _ _ (lo_chain _ _ _ _ _ _ Hlo)) as [l' ->]. done.
  - intros a [Ha _]%not_elem_of_cons. cbn. by apply lookup_alter_ne.
  - intros a. unfold sct. cbn. by apply (view_alter_id scontent).
Qed.

End msgs.
