(* ===== verification/SigSignals.v ===== *)
(** Signals other than messages are sent: alone, held back by the scheduler of the
    sender, or behind the one it held back. *)

From stdpp Require Import base numbers functions list gmap sets.
From Stdlib Require Import ZArith Lia.
From S2P Require Import Prelude PonPremise RecvMarker SigQueue SigInv SigOps SigConcat SigEnqueue SigFlow SigFetch SigRecv SigSend SigMsgs.

#[local] Opaque flush_all.

Section signals.
Context {TH : TermHash} {SA : StaticAtoms}.
Implicit Types σ : sqs.
Implicit Types C : region → list positive.

(** A signal in no queue is changed. *)
Lemma sq_inv_alter σ C pos a f :
  sq_inv σ C pos → (∀ r, a ∉ C r) → (∀ s, s_nmsg (f s) = s_nmsg s ∧ s_recv_marker (f s) = s_recv_marker s) →
  sq_inv (σ <| sigs ::= alter f a |>) C pos.
Proof.
  intros Hiv Ha Hf. eapply (sq_inv_frame σ _ C pos 0); [done| |done..|by rewrite Z.lor_0_r| |].
  - intros r b Hb. cbn. apply lookup_alter_ne. intros ->. by apply (Ha r).
  - intros b s. cbn. intros [(-> & s0 & Hs & ->)|[_ Hs]]%lookup_alter_Some.
    + destruct (Hf s0) as (_ & ->). by apply (rc_mark _ _ _ (iv_recv _ _ _ Hiv) b).
    + by apply (rc_mark _ _ _ (iv_recv _ _ _ Hiv) b).
  - intros p Hp. destruct (iv_pend _ _ _ Hiv p Hp) as (H1 & H2 & H3). split_and!; [| |done].
    + cbn. destruct (decide (p = a)) as [->|Hne]; [|by rewrite lookup_alter_ne].
      rewrite lookup_alter_eq. by apply fmap_is_Some.
    + cbn. rewrite snm_alter; [done|apply Hf].
Qed.

(** What is held back changes. *)
Lemma sq_inv_pend σ C pos p :
  sq_inv σ C pos → (∀ a, p = Some a → is_Some (sigs σ !! a) ∧ snm (sigs σ) a = true ∧ ∀ r, a ∉ C r) →
  sq_inv (σ <| pending_signal := p |>) C pos.
Proof.
  intros Hiv Hp. eapply (sq_inv_frame σ _ C pos 0); [done|done|done..|by rewrite Z.lor_0_r|apply Hiv|done].
Qed.

(** One signal, or one behind another to which it is linked. *)
Inductive nm_chain (sg : gmap positive ErtsSignal) : positive → positive → option link → list positive → Prop :=
  | nm_one a : nm_chain sg a a None [a]
  | nm_two a b : a ≠ b → snx sg a = Some (Some b) → ssp sg a = Some (Some (Next a)) → smo sg b = Some 0%Z →
      nm_chain sg a b (Some (Next a)) [a; b].

Record nm_ok σ C first last (ln : option link) (l : list positive) : Prop := {
  no_chain : nm_chain (sigs σ) first last ln l;
  no_dom : ∀ a, a ∈ l → is_Some (sigs σ !! a);
  no_nm : ∀ a, a ∈ l → snm (sigs σ) a = true;
  no_fresh : fresh C l;
  no_pend : ∀ p, pending_signal σ = Some p → p ∉ l
}.

Lemma nm_chain_ended sg first last ln l :
  nm_chain sg first last ln l → (∀ a, a ∈ l → is_Some (sg !! a)) → (∀ a, a ∈ l → snm sg a = true) →
  chain (alter (λ s, s <| s_next := NULL |>) last (alter (λ s, s <| specific_next := None |>) last sg))
    first (Next last) ln 0 l.
Proof.
  intros Hc Hd Hn. set (sg' := alter _ last (alter _ last sg)).
  assert (Hl : ∃ s, sg' !! last = Some s ∧ s_next s = None ∧ specific_next s = None ∧ smo sg last = Some (s_mlenoffs s)).
  { assert (last ∈ l) as Hl by (destruct Hc; set_solver). destruct (Hd _ Hl) as [s Hs].
    exists (s <| specific_next := None |> <| s_next := NULL |>). unfold sg', smo.
    by rewrite !lookup_alter_eq, Hs. }
  destruct Hl as (s & Hs & Hx & Hp & Hm).
  assert (Hne : ∀ a, a ≠ last → sg' !! a = sg !! a) by (intros a Ha; unfold sg'; by rewrite !lookup_alter_ne).
  assert (Hn' : ∀ a, a ∈ l → snm sg' a = true) by (intros a Ha; unfold sg'; rewrite !snm_alter by done; by apply Hn).
  assert (Hlast : snx sg' last = Some None ∧ ssp sg' last = Some None).
  { unfold snx, ssp. rewrite Hs. simpl. by rewrite Hx, Hp. }
  destruct Hlast as [Hlx Hlp]. destruct Hc as [a|a b Hab Hax Hap Hbm].
  - constructor; [|apply NoDup_singleton|done| | |].
    + simpl. eauto.
    + intros _. simpl. by rewrite (Hn' a) by left.
    + by rewrite (Hn' a) by left.
    + intros b ->%list_elem_of_singleton. by rewrite (Hn' a) by left.
  - assert (Hax' : snx sg' a = Some (Some b)) by (unfold snx in *; by rewrite Hne).
    assert (Hap' : ssp sg' a = Some (Some (Next a))) by (unfold ssp in *; by rewrite Hne).
    constructor.
    + simpl. split; [done|]. exists (Some b). split; [done|]. split; [done|]. eauto.
    + apply NoDup_cons. split; [by rewrite list_elem_of_singleton|apply NoDup_singleton].
    + done.
    + intros _. simpl. rewrite (Hn' a), (Hn' b) by set_solver. simpl. split_and!; try done.
      unfold smo in *. rewrite Hs. by rewrite Hm in Hbm.
    + by rewrite (Hn' a) by left.
    + intros c Hc'. by rewrite (Hn' c).
Qed.

Lemma sq_inv_ended σ C pos first last ln l :
  sq_inv σ C pos → nm_ok σ C first last ln l →
  let σ' := (σ <| sigs ::= alter (λ s, s <| specific_next := None |>) last |>)
              <| sigs ::= alter (λ s, s <| s_next := NULL |>) last |> in
  sq_inv σ' C pos ∧ chain (sigs σ') first (Next last) ln 0 l ∧ ∀ a, sct (sigs σ') a = sct (sigs σ) a.
Proof.
  intros Hiv [Hc Hd Hn Hfr Hpd] σ'. assert (last ∈ l) as Hl by (destruct Hc; set_solver).
  assert (Hlf : ∀ r, last ∉ C r) by (intros r Hr; by eapply Hfr). split_and!.
  - by do 2 (apply sq_inv_alter; [|done|done]).
  - by apply nm_chain_ended.
  - intros a. unfold sct, σ'. cbn. by rewrite !(view_alter_id scontent).
Qed.

Lemma send_frame_sct σ σ1 σ' :
  (∀ a, sct (sigs σ1) a = sct (sigs σ) a) → qs σ1 = qs σ → sq_prs σ1 = sq_prs σ → pending_signal σ1 = pending_signal σ →
  send_frame σ1 σ' → send_frame σ σ'.
Proof. intros Hs Hq Hp Hpe Hf. eapply send_frame_trans; [|exact Hf]. by constructor. Qed.

(** Whether the process takes signals that are not messages: a buffer does always,
    the outer queue unless the process is gone. *)
Definition takes_signals (force_flush : bool) σ : bool :=
  negb force_flush && sig_inq_buffers σ || bool_decide (Z.land ERTS_PSFLG_FREE (psflgs σ) = 0%Z).

(** A process that is gone leaves the signals with the sender. *)
Definition signals_post from σ C pos l ff σ' (b : bool) : Prop :=
  b = takes_signals ff σ ∧
  ∃ C', sq_inv σ' C' pos ∧ send_frame σ σ' ∧
    if b then queued from l C C' else C' = C ∨ C' = flush_all C.

Lemma wp_enqueue_flushed from first lst ln l C pos (Q : Z → sqs → Prop) σ σ0 :
  bufs_ok σ0 → queues_ok σ0 C → sq_inv σ (flush_all C) pos →
  chain (sigs σ) first lst ln 0 l → fresh C l → (∀ p, pending_signal σ = Some p → p ∉ l) →
  (∀ r σ' C', sq_inv σ' C' pos → send_frame σ σ' → queued from l C C' → Q r σ') →
  wp (enqueue_signals false first lst ln 0 (psflgs σ) 0) Q σ.
Proof.
  intros HB HC Hiv Hch Hfr Hpd HQ.
  assert (Hid : ∀ r, flush_all (flush_all C) r = flush_all C r).
  { apply flush_all_id. intros i. by apply (flush_all_slot σ0 C i HB HC). }
  eapply (wp_enqueue_outer _ _ _ _ _ (flush_all C)); [done|done| |done|].
  - intros r a Ha. apply flush_all_in in Ha as [(_ & j & _ & Ha)|Ha]; by eapply Hfr.
  - intros r σ' Hiv' Hf. eapply HQ; [done|done|]. apply queued_outer. intros r'.
    destruct (decide (r' = RInq 0)) as [->|Hr]; [by rewrite !fn_lookup_insert, Hid|].
    by rewrite !fn_lookup_insert_ne, Hid by done.
Qed.

Lemma wp_send_signals from ff busy first last ln l C pos (Q : bool → sqs → Prop) σ :
  sq_inv σ C pos → (0 ≤ erts_internal_hash from)%Z → nm_ok σ C first last ln l →
  (∀ b σ', signals_post from σ C pos l ff σ' b → Q b σ') →
  wp (send_signals from ff busy first last ln) Q σ.
Proof.
  intros Hiv Hh Hno HQ. unfold send_signals. assert (last ∈ l) as Hl by (destruct Hno as [[]]; set_solver).
  assert (Hfr := no_fresh _ _ _ _ _ _ Hno). assert (Hpd := no_pend _ _ _ _ _ _ Hno).
  wp_step. apply wp_upd_s; [by apply Hno|]. wp_step. apply wp_upd_s.
  { cbn. rewrite lookup_alter_eq. apply fmap_is_Some. by apply Hno. }
  destruct (sq_inv_ended _ _ _ _ _ _ _ Hiv Hno) as (Hiv1 & Hch1 & Hct1). set (σ1 := _ <| sigs ::= _ |>) in *.
  assert (Hf1 : ∀ σ', send_frame σ1 σ' → send_frame σ σ') by (intros σ'; by apply send_frame_sct).
  assert (Hlock : (negb ff && sig_inq_buffers σ = false) → wp (_ ← erts_proc_sig_queue_lock busy;
    σ ← get;
    let state := psflgs σ in
    _ ← (if ff then erts_proc_sig_queue_flush_buffers else erts_proc_sig_queue_maybe_install_buffers state);
    if decide (Z.land ERTS_PSFLG_FREE state ≠ 0%Z) then mret false else
    _ ← enqueue_signals false first (Next last) ln 0 state 0; mret true) Q σ1).
  2: { wp_step. destruct ff; [wp_step; by apply Hlock|]. cbn [negb andb] in Hlock. eapply wp_try_enqueue; [done..| |].
    - intros Hdir. apply Hlock. by destruct Hdir as [|Hon].
    - intros n b σ' _ Hon _ Hiv' Hf _. rewrite decide_True by done. wp_step. apply HQ. change (sig_inq_buffers σ = true) in Hon.
      split; [unfold takes_signals; by rewrite Hon|]. eexists. split_and!; [done|by apply Hf1|]. by apply queued_buffer. }
  intros Hdir. wp_step. eapply wp_lock_inv; [done|]. intros σ2 Hqt2 Hs2 Hiv2. wp_step. wp_step. cbv beta zeta. wp_step.
  assert (Hf2 : ∀ σ', send_frame σ2 σ' → send_frame σ σ').
  { intros σ' Hf. apply Hf1. eapply send_frame_trans; [by eapply send_frame_quiet|done]. }
  assert (Hch2 : chain (sigs σ2) first (Next last) ln 0 l) by by rewrite Hs2.
  assert (Hpd2 : ∀ p, pending_signal σ2 = Some p → p ∉ l) by (rewrite (qt_pend _ _ _ Hqt2); exact Hpd).
  assert (Hquiet : ∀ σ3, quiet C σ2 σ3 → chain (sigs σ3) first (Next last) ln 0 l ∧ (∀ p, pending_signal σ3 = Some p → p ∉ l) ∧
    psflgs σ3 = psflgs σ2).
  { intros σ3 Hqt. split_and!; [|by rewrite (qt_pend _ _ _ Hqt)|apply Hqt]. eapply chain_ext; [done|].
    intros a Ha. apply (qt_out _ _ _ Hqt). intros i Hi. by eapply Hfr. }
  assert (Htk : takes_signals ff σ = bool_decide (Z.land ERTS_PSFLG_FREE (psflgs σ2) = 0%Z)).
  { unfold takes_signals. by rewrite Hdir, (qt_flg _ _ _ Hqt2). }
  destruct ff.
  - eapply wp_flush_inv; [done|]. intros σ3 Hp3 Hiv3. pose proof (fp_quiet _ _ _ Hp3) as Hqt3.
    destruct (Hquiet σ3 Hqt3) as (Hch3 & Hpd3 & Hfl3). rewrite <- Hfl3.
    assert (Hf3 : ∀ σ', send_frame σ3 σ' → send_frame σ σ').
    { intros σ' Hf. apply Hf2. eapply send_frame_trans; [by eapply send_frame_quiet|done]. }
    destruct (decide (Z.land ERTS_PSFLG_FREE (psflgs σ3) ≠ 0%Z)) as [Hfree|Hfree].
    + wp_step. apply HQ. split; [rewrite Htk, <- Hfl3; by rewrite bool_decide_false|]. exists (flush_all C).
      split_and!; [done|by apply Hf3|by right].
    + wp_step. eapply wp_enqueue_flushed; [apply Hiv2|by eapply iv_q|done..|].
      intros r σ' C' Hiv' Hf Hq. wp_step. apply HQ. split; [rewrite Htk, <- Hfl3; by rewrite bool_decide_true by by apply dec_stable|].
      exists C'. split_and!; [done|by apply Hf3|done].
  - eapply wp_install_inv; [done|]. intros σ3 Hqt3 Hiv3. destruct (Hquiet σ3 Hqt3) as (Hch3 & Hpd3 & Hfl3). rewrite <- Hfl3.
    assert (Hf3 : ∀ σ', send_frame σ3 σ' → send_frame σ σ').
    { intros σ' Hf. apply Hf2. eapply send_frame_trans; [by eapply send_frame_quiet|done]. }
    destruct (decide (Z.land ERTS_PSFLG_FREE (psflgs σ3) ≠ 0%Z)) as [Hfree|Hfree].
    + wp_step. apply HQ. split; [rewrite Htk, <- Hfl3; by rewrite bool_decide_false|]. exists C.
      split_and!; [done|by apply Hf3|by left].
    + wp_step. eapply wp_enqueue_outer; [done..|]. intros r σ' Hiv' Hf. wp_step. apply HQ.
      split; [rewrite Htk, <- Hfl3; by rewrite bool_decide_true by by apply dec_stable|].
      eexists. split_and!; [done|by apply Hf3|by apply queued_outer].
Qed.

(** *** What [proc_queue_signal] sends *)

Definition nm_sent (held : option positive) (sig : positive) (monitor is_normal_sched : bool) : list positive :=
  if is_normal_sched then option_list held ++ (if monitor then [] else [sig]) else [sig].

(** The signals are queued when the process takes them. *)
Definition nm_queued from (L : list positive) C C' (b : bool) : Prop :=
  L ≠ [] ∧ b = true ∧ queued from L C C' ∨ (L = [] ∨ b = false) ∧ (C' = C ∨ C' = flush_all C).

Record nm_post from σ C pos sig L ff σ' : Prop := {
  np_queues : ∃ C', sq_inv σ' C' pos ∧ nm_queued from L C C' (takes_signals ff σ);
  np_ct : ∀ a, sct (sigs σ') a = sct (sigs σ) a;
  np_pend : ∀ p, pending_signal σ' = Some p → (p ∉ L) ∧ (p = sig ∨ pending_signal σ = Some p)
}.

Lemma nm_post_signals from σ σ1 C pos sig L l ff σ' b :
  signals_post from σ1 C pos l ff σ' b → l = L → L ≠ [] → takes_signals ff σ1 = takes_signals ff σ →
  (∀ a, sct (sigs σ1) a = sct (sigs σ) a) →
  (∀ p, pending_signal σ1 = Some p → (p ∉ L) ∧ (p = sig ∨ pending_signal σ = Some p)) → nm_post from σ C pos sig L ff σ'.
Proof.
  intros (Hb & C' & Hiv & Hf & Hq) -> HL Htk Hct Hp. constructor.
  - exists C'. split; [done|]. rewrite <- Htk, <- Hb. unfold nm_queued. destruct b; [left|right]; auto.
  - intros a. by rewrite (sf_ct _ _ Hf).
  - intros p. rewrite (sf_pend _ _ Hf). apply Hp.
Qed.

(** One signal that is not held back. *)
Lemma wp_send_one from ff busy a L sig C pos (Q : bool → sqs → Prop) σ σ0 :
  sq_inv σ C pos → (0 ≤ erts_internal_hash from)%Z → is_Some (sigs σ !! a) → snm (sigs σ) a = true → (∀ r, a ∉ C r) →
  (∀ p, pending_signal σ = Some p → p ≠ a) → L = [a] → sigs σ = sigs σ0 → takes_signals ff σ = takes_signals ff σ0 →
  (∀ p, pending_signal σ = Some p → p = sig ∨ pending_signal σ0 = Some p) →
  (∀ b σ', nm_post from σ0 C pos sig L ff σ' → Q b σ') →
  wp (send_signals from ff busy a a None) Q σ.
Proof.
  intros Hiv Hh Hd Hn HC Hp -> Hs Htk Hp0 HQ. eapply wp_send_signals; [done|done| |].
  - constructor; [apply nm_one|..]; intros b; rewrite ?list_elem_of_singleton.
    + by intros ->.
    + by intros ->.
    + intros r Hb ->%list_elem_of_singleton. by apply (HC b).
    + by apply Hp.
  - intros b σ' Hpost. apply (HQ b). eapply nm_post_signals; [done|done|done|done|by rewrite Hs|].
    intros p Hpp. split; [|by apply Hp0]. rewrite list_elem_of_singleton. by apply Hp.
Qed.

Lemma wp_proc_queue_signal from sig ff monitor normal busy C pos (Q : Z → sqs → Prop) σ :
  sq_inv σ C pos → (0 ≤ erts_internal_hash from)%Z →
  is_Some (sigs σ !! sig) → snm (sigs σ) sig = true → (∀ r, sig ∉ C r) →
  (pending_signal σ = Some sig → normal && monitor = true) →
  (∀ z σ', nm_post from σ C pos sig (nm_sent (pending_signal σ) sig monitor normal) ff σ' → Q z σ') →
  wp (proc_queue_signal from sig ff monitor normal busy) Q σ.
Proof.
  intros Hiv Hh Hd Hn HC Hpm HQ. unfold proc_queue_signal. wp_step. wp_step. cbv beta zeta.
  destruct normal; cbn [andb] in *.
  2: { wp_step. eapply (wp_send_one _ _ _ _ _ sig _ _ _ _ σ); [done..| |done|done|done|by auto|].
    - intros p Hp ->. by specialize (Hpm Hp).
    - intros b σ' Hpost. wp_step. by apply HQ. }
  destruct (pending_signal σ) as [p|] eqn:Hp.
  - destruct (iv_pend _ _ _ Hiv p Hp) as (Hpd & Hpn & HpC). destruct monitor; [case_decide as Hne|].
    + wp_step. apply wp_modify. wp_step.
      eapply (wp_send_one _ _ _ p _ sig _ _ _ _ σ); [|done|done|done|done| |done|done|done| |].
      * apply sq_inv_pend; [done|]. by intros a [= <-].
      * cbn. congruence.
      * cbn. intros q [= <-]. by left.
      * intros b σ' Hpost. wp_step. by apply HQ.
    + assert (p = sig) as -> by (by destruct (decide (p = sig))).
      wp_step. apply wp_modify. wp_step.
      eapply (wp_send_one _ _ _ sig _ sig _ _ _ _ σ); [by apply sq_inv_pend|done..|].
      intros b σ' Hpost. wp_step. by apply HQ.
    + assert (Hne : p ≠ sig) by (intros ->; by specialize (Hpm eq_refl)).
      wp_step. apply wp_modify. wp_step. apply wp_upd_s; [done|]. wp_step. apply wp_upd_s.
      { cbn. rewrite lookup_alter_ne by done. done. }
      wp_step. set (σ1 := _ <| sigs ::= _ |>).
      assert (Hiv1 : sq_inv σ1 C pos).
      { apply sq_inv_alter; [|done|done]. apply sq_inv_alter; [|done|done]. by apply sq_inv_pend. }
      assert (Hct1 : ∀ a, sct (sigs σ1) a = sct (sigs σ) a).
      { intros a. unfold sct, σ1. cbn. by rewrite !(view_alter_id scontent). }
      eapply wp_send_signals; [exact Hiv1|done| |].
      2: { intros b σ' Hpost. wp_step. apply HQ. eapply nm_post_signals; done. }
      destruct Hpd as [sp Hsp]. destruct Hd as [ss Hss]. constructor.
      * assert (sigs σ1 !! p = Some (sp <| s_next := Some sig |> <| specific_next := Some (Next p) |>)) as H1.
        { unfold σ1. cbn. rewrite lookup_alter_eq, lookup_alter_ne by done. by rewrite Hsp. }
        apply nm_two; [done|unfold snx; by rewrite H1|unfold ssp; by rewrite H1|].
        unfold smo, σ1. cbn. rewrite lookup_alter_ne, lookup_alter_eq by done. by rewrite Hss.
      * intros a Ha. eapply sct_dom; [apply Hct1|]. set_solver.
      * intros a Ha. rewrite (snm_sct _ _ _ (Hct1 a)). set_solver.
      * intros r a Ha Hb. assert (a = p ∨ a = sig) as [-> | ->] by set_solver; [by apply (HpC r)|by apply (HC r)].
      * done.
  - destruct monitor.
    + wp_step. apply wp_modify. wp_step. apply HQ. constructor.
      * exists C. split; [|right; split; by left]. apply sq_inv_pend; [done|]. by intros a [= <-].
      * done.
      * cbn. intros q [= <-]. split; [|by left]. simpl. by intros ?%elem_of_nil.
    + wp_step. eapply (wp_send_one _ _ _ _ _ sig _ _ _ _ σ); [done..| |done|done|done|by auto|].
      * by rewrite Hp.
      * intros b σ' Hpost. wp_step. by apply HQ.
Qed.

Lemma wp_erts_proc_sig_send_pending from busy sig C pos (Q : Z → sqs → Prop) σ :
  sq_inv σ C pos → (0 ≤ erts_internal_hash from)%Z → pending_signal σ = Some sig →
  (∀ z σ', nm_post from σ C pos sig [sig] false σ' → Q z σ') →
  wp (erts_proc_sig_send_pending from busy) Q σ.
Proof.
  intros Hiv Hh Hp HQ. unfold erts_proc_sig_send_pending. wp_step. wp_step. wp_step. wp_step.
  destruct (iv_pend _ _ _ Hiv sig Hp) as (Hd & Hn & HC).
  eapply wp_proc_queue_signal; [done..|]. by rewrite Hp.
Qed.

End signals.
