(* ===== verification/SigRun.v ===== *)
(** A process and its environment: any sequence of sends, fetches, receives and
    changes of the queue management; what the queues hold. *)

From stdpp Require Import base numbers list gmap.
From Stdlib Require Import ZArith.
From S2P Require Import Prelude PonPremise RecvMarker SigQueue SigInv SigOps SigMsgs SigSignals.

(** A new process with the given flags. *)
Definition new_process (flgs fs : Z) (p : prs) : sqs :=
  mkSqs ∅ {[0 := inq_empty 0]} None false 0 (qs_empty fs) flgs p None 0.

(** ** The signals in memory *)

Fixpoint walk (fuel : nat) (sg : gmap positive ErtsSignal) (p : option positive) : list positive :=
  match fuel, p with
  | S f, Some a => a :: walk f sg (sg !! a ≫= s_next)
  | _, _ => []
  end.

Definition contents (σ : sqs) (r : region) : list positive :=
  if live σ r then walk (size (sigs σ)) (sigs σ) (view σ r ≫= v_first) else [].

(** All signals in the order in which the receiver gets to them. *)
Definition all_signals (σ : sqs) : list positive :=
  contents σ RInner ++ contents σ RCont ++ contents σ (RInq 0) ++
  concat ((λ i, contents σ (RInq (S i))) <$> seq 0 ERTS_PROC_SIG_INQ_BUFFERED_NR_OF_BUFFERS).

(** ** Steps *)

(** [Sent s a]: signal [a] of sender [s] is queued; [Taken a]: the receiver has
    taken message [a] out. *)
Inductive event : Type := Sent (s : Z) (a : positive) | Taken (a : positive).

#[export] Instance event_eq_dec : EqDecision event.
Proof. solve_decision. Defined.

Definition sent_of (e : event) : option (Z * positive) := match e with Sent s a => Some (s, a) | _ => None end.
Definition taken_of (e : event) : option positive := match e with Taken a => Some a | _ => None end.
Definition sents (es : list event) : list (Z * positive) := omap sent_of es.
Definition takens (es : list event) : list positive := omap taken_of es.
(** The signals of the log that are from [s]. *)
Definition sent_by (s : Z) (log : list (Z * positive)) : list positive := (filter (λ x, x.1 = s) log).*2.

Inductive op : Type :=
  | OSignal (s : Z) (force_flush monitor is_normal_sched busy : bool) (p : positive)
  | OPending (s : Z) (busy : bool)
  | OSendProc (s : Z) (locked busy : bool) (a : positive) (msg : Z)
  | OSendProcs (s : Z) (locked busy : bool) (l : list positive)
  | OSendToken (s : Z) (locked busy : bool) (a : positive) (msg token : Z)
  | OSend (s : Z) (locked busy : bool) (a : positive) (msg : Z)
  | OForceBuffers
  | OFetch (traced : bool)
  | OFirst | ONext | OUnlink | OTake
  | OEnd (busy : bool)
  | OChange (new_state : new_msgq_state)
  | OMove
  | OExit | OFree.

(** A message as the allocation leaves it, at an address that was free. *)
Definition alloc_msg (a : positive) (s : ErtsSignal) : SQ unit := modify (λ σ, σ <| sigs ::= <[a := s]> |>).

(** Messages linked to each other. *)
Fixpoint alloc_chain (l : list positive) : SQ unit :=
  match l with
  | [] => mret tt
  | a :: l => _ ← alloc_msg a (ERTS_INIT_MESSAGE <| s_next := head l |>); alloc_chain l
  end.

(** A sender sends [l]; [b]: the process takes them. *)
Definition sent_if (b : bool) (s : Z) (l : list positive) : list event := if b then Sent s <$> l else [].

(** The environment does what an operation asks for, or nothing happens. *)
Definition when (P : Prop) `{Decision P} (m : SQ (list event)) : SQ (list event) :=
  if decide P then m else mret [].

Section run.
Context {TH : TermHash} {SA : StaticAtoms}.

Definition on_current (k : positive → SQ (list event)) : SQ (list event) :=
  p ← erts_msgq_peek_msg;
  match p with Some a => k a | None => mret [] end.

(** What is sent is logged by the state of the process before the send: a signal
    is to be in the queues afterwards if a buffer is in use for it, or the process
    is not gone. *)
Definition do_op (o : op) : SQ (list event) :=
  σ ← get;
  match o with
  | OSignal s force_flush monitor is_normal_sched busy p => when (sigs σ !! p = None)
      (_ ← alloc_msg p (ERTS_INIT_MESSAGE <| s_nmsg := true |>);
       _ ← proc_queue_signal s p force_flush monitor is_normal_sched busy;
       mret (sent_if (takes_signals force_flush σ) s (nm_sent (pending_signal σ) p monitor is_normal_sched)))
  | OPending s busy => when (pending_signal σ ≠ None)
      (_ ← erts_proc_sig_send_pending s busy;
       mret (sent_if (takes_signals false σ) s (option_list (pending_signal σ))))
  | OSendProc s locked busy a msg => when (sigs σ !! a = None)
      (_ ← alloc_msg a ERTS_INIT_MESSAGE; _ ← erts_queue_proc_message s locked busy a msg;
       mret (sent_if (takes_msgs locked σ) s (option_list (pending_signal σ) ++ [a])))
  | OSendProcs s locked busy l => when (NoDup l ∧ Forall (λ a, sigs σ !! a = None) l)
      match l with
      | [] => mret []
      | a :: l' =>
          _ ← alloc_chain l;
          _ ← erts_queue_proc_messages s locked busy a (end_cell (Next a) l') (Z.of_nat (length l));
          mret (sent_if (takes_msgs locked σ) s (option_list (pending_signal σ) ++ l))
      end
  | OSendToken s locked busy a msg token => when (sigs σ !! a = None)
      (_ ← alloc_msg a ERTS_INIT_MESSAGE; _ ← erts_queue_message_token locked busy a msg s token;
       mret (sent_if (takes_msgs locked σ) s [a]))
  | OSend s locked busy a msg => when (sigs σ !! a = None)
      (_ ← alloc_msg a ERTS_INIT_MESSAGE; _ ← erts_queue_message locked busy a msg s;
       mret (sent_if (takes_msgs locked σ) s [a]))
  | OForceBuffers => _ ← erts_proc_sig_queue_force_buffers; mret []
  | OFetch traced => _ ← erts_proc_sig_fetch traced; mret []
  | OFirst => _ ← erts_msgq_set_save_first; mret []
  | ONext => on_current (λ _, _ ← erts_msgq_set_save_next; mret [])
  | OUnlink => on_current (λ a, _ ← erts_msgq_unlink_msg a; mret [Taken a])
  | OTake => on_current (λ a, _ ← erts_msgq_unlink_msg_set_save_first a; mret [Taken a])
  | OEnd busy => _ ← erts_msgq_set_save_end false busy; mret []
  | OChange st => _ ← erts_change_message_queue_management st; mret []
  | OMove => _ ← move_msgq_off_heap_state; mret []
  | OExit => _ ← upd_flgs (λ f, Z.lor f ERTS_PSFLG_EXITING); mret []
  | OFree => _ ← upd_flgs (λ f, Z.lor f ERTS_PSFLG_FREE); mret []
  end.

Fixpoint run (ops : list op) : SQ (list event) :=
  match ops with
  | [] => mret []
  | o :: ops => es ← do_op o; es' ← run ops; mret (es ++ es')
  end.

(** What the theorems ask of the steps. A process is managed on or off the heap, not
    both. The receiver moves the save pointer to the end while no signal but messages
    waits, so that no receive marker goes into the queues. The move off the heap ends
    while the queue is still to be off the heap, or no buffers are in use:
    [change_back_overtakes] shows that the order is lost otherwise. *)
Definition timely (o : op) (σ : sqs) : bool :=
  match o with
  | OEnd _ => bool_decide (qs_cont (qs σ) = None ∧ Z.land (psflgs σ) ERTS_PSFLG_NMSG_SIG_IN_Q = 0%Z)
  | OChange _ =>
      let st := Z.land (qs_flags (qs σ)) (Z.lor FS_OFF_HEAP_MSGQ FS_ON_HEAP_MSGQ) in
      bool_decide (st = FS_OFF_HEAP_MSGQ ∨ st = FS_ON_HEAP_MSGQ)
  | OMove => bool_decide (Z.land (qs_flags (qs σ)) FS_OFF_HEAP_MSGQ ≠ 0%Z ∨ sig_inq_buffers σ = false)
  | _ => true
  end.

(** Every step of a run is timely. *)
Fixpoint orderly (ops : list op) (σ : sqs) : bool :=
  match ops with
  | [] => true
  | o :: ops => timely o σ && match do_op o σ with Some (_, σ') => orderly ops σ' | None => true end
  end.

End run.
