(* ===== verification/SigOrder.v ===== *)
(** Every step of a process and its environment keeps the invariant, and the
    signals of each sender in the order in which they were sent. *)

From stdpp Require Import base numbers functions list gmap sets.
From Stdlib Require Import ZArith Lia.
From S2P Require Import Prelude PonPremise RecvMarker SigQueue SigInv SigOps SigConcat SigEnqueue SigFlow SigFetch SigRecv SigSend SigMsgs SigRun.

#[local] Opaque flush_all.

Section steps.
Context {TH : TermHash} {SA : StaticAtoms}.
Implicit Types σ : sqs.
Implicit Types C : region → list positive.

(** ** The receiver *)

(** The receiver changes the inner queue and its own flags only. *)
Lemma sq_inv_recv σ σ' C C' pos pos' :
  sq_inv σ C pos → recv_ok σ' C' pos' → recv_frame σ σ' → (∀ i, C' (RInq i) = C (RInq i)) →
  (∀ r a, a ∈ C' r → a ∈ C r) → sq_inv σ' C' pos'.
Proof.
  intros [Hok HB Hma Hoff Hmsg Hnm Hpend] Hok' [Hb Hon Hfl Hpe Hct] Hi Hin. constructor.
  - done.
  - by eapply bufs_ok_same.
  - intros b i. rewrite Hb, Hi. apply Hma.
  - by rewrite Hon, Hfl.
  - intros i a. rewrite Hi, Hfl, (snm_sct _ _ _ (Hct a)). apply Hmsg.
  - intros i a. rewrite Hi, Hfl, (snm_sct _ _ _ (Hct a)). apply Hnm.
  - intros p. rewrite Hpe, (snm_sct _ _ _ (Hct p)). intros Hp. destruct (Hpend p Hp) as (Hd & Hn & Hf).
    split_and!; [eapply sct_dom; [apply Hct|done]|done|]. intros r Hr. by apply (Hf r), Hin.
Qed.

Lemma fetched_inq σ C traced i : bufs_ok σ → queues_ok σ C → fetched_queues σ C traced (RInq i) = [].
Proof.
  intros HB HC. unfold fetched_queues. destruct i as [|i].
  - apply move_outer_0. intros Hd. by apply (fetch_dest_priv _ _ _ _ Hd).
  - rewrite move_outer_ne; [by eapply flush_all_slot| |done]. intros Hd. by apply (fetch_dest_priv _ _ _ _ (eq_sym Hd)).
Qed.

Lemma fetched_in σ C traced r a : a ∈ fetched_queues σ C traced r → ∃ r', a ∈ C r'.
Proof.
  assert (Hfl : ∀ r, a ∈ flush_all C r → ∃ r', a ∈ C r').
  { intros r0 H. apply flush_all_in in H as [(_ & j & _ & H)|H]; eauto. }
  unfold fetched_queues. destruct (decide (r = fetch_dest (sigs σ) (flush_all C) traced)) as [->|Hd].
  - rewrite move_outer_dest. intros [H|H]%elem_of_app; by eapply Hfl.
  - destruct (decide (r = RInq 0)) as [->|H0].
    + rewrite move_outer_0 by done. intros H. by apply elem_of_nil in H.
    + rewrite move_outer_ne by done. by apply Hfl.
Qed.

(** What holds after a fetch, whatever becomes of the save pointer. *)
Lemma sq_inv_fetch σ σ' C pos pos' traced :
  sq_inv σ C pos → bufs_ok σ' → recv_ok σ' (fetched_queues σ C traced) pos' →
  pending_signal σ' = pending_signal σ → (∀ a, sct (sigs σ') a = sct (sigs σ) a) →
  (∀ m, Z.land queue_flags m = 0%Z → Z.land (psflgs σ') m = Z.land (psflgs σ) m) →
  (sig_inq_buffers σ' = true → sig_inq_buffers σ = true) → sq_inv σ' (fetched_queues σ C traced) pos'.
Proof.
  intros Hiv HB' Hok' Hpe Hct Hfl Hon. pose proof Hiv as [Hok HB Hma Hoff Hmsg Hnm Hpend].
  pose proof (fetched_inq σ C traced) as Hi. constructor.
  - done.
  - done.
  - intros b i _ Hne. rewrite Hi in Hne; [done|done|apply Hok].
  - intros Hon'. rewrite Hfl by done. by apply Hoff, Hon.
  - intros i a. rewrite Hi; [set_solver|done|apply Hok].
  - intros i a. rewrite Hi; [set_solver|done|apply Hok].
  - intros p. rewrite Hpe, (snm_sct _ _ _ (Hct p)). intros Hp.
    destruct (Hpend p Hp) as (Hd & Hn & Hf). split_and!; [|done|].
    + eapply sct_dom; [apply Hct|done].
    + intros r [r' Hr]%fetched_in. by apply (Hf r').
Qed.

Lemma wp_fetch_inv traced C pos (Q : Z → sqs → Prop) σ :
  sq_inv σ C pos →
  (∀ n σ', sq_inv σ' (fetched_queues σ C traced) pos → pending_signal σ' = pending_signal σ →
     (∀ a, sct (sigs σ') a = sct (sigs σ) a) → Q n σ') →
  wp (erts_proc_sig_fetch traced) Q σ.
Proof.
  intros Hiv HQ. eapply wp_erts_proc_sig_fetch; [apply Hiv|by eapply iv_q|apply Hiv|].
  intros σ' f HB' HC' Hfr. apply HQ; [|apply Hfr|apply Hfr].
  eapply sq_inv_fetch; [done|done|eapply recv_ok_fetch; [apply Hiv|done..]|apply Hfr|apply Hfr|apply Hfr|apply Hfr].
Qed.

(** Without other signals the fetch moves everything to the inner queue. *)
Lemma fetched_plain σ C pos :
  sq_inv σ C pos → C RCont = [] → Z.land (psflgs σ) ERTS_PSFLG_NMSG_SIG_IN_Q = 0%Z →
  fetched_queues σ C false RCont = [].
Proof.
  intros Hiv HC Hf. assert (fetch_dest (sigs σ) (flush_all C) false = RInner) as Hd.
  { unfold fetch_dest. rewrite decide_True; [done|]. split_and!; [by rewrite flush_all_other|done|].
    apply Forall_forall. intros a Ha. apply flush_all_in in Ha as [(_ & j & _ & Ha)|Ha].
    - destruct (snm (sigs σ) a) eqn:Hn; [|done]. by destruct (iv_nmsg _ _ _ Hiv _ _ Ha Hn).
    - destruct (snm (sigs σ) a) eqn:Hn; [|done]. by destruct (iv_nmsg _ _ _ Hiv _ _ Ha Hn). }
  unfold fetched_queues. rewrite Hd, move_outer_ne by done. by rewrite flush_all_other.
Qed.

Lemma wp_end_inv busy C pos (Q : unit → sqs → Prop) σ :
  sq_inv σ C pos → C RCont = [] → Z.land (psflgs σ) ERTS_PSFLG_NMSG_SIG_IN_Q = 0%Z →
  (∀ σ', sq_inv σ' (fetched_queues σ C false) (length (fetched_queues σ C false RInner)) →
     pending_signal σ' = pending_signal σ → (∀ a, sct (sigs σ') a = sct (sigs σ) a) → Q tt σ') →
  wp (erts_msgq_set_save_end false busy) Q σ.
Proof.
  intros Hiv HC Hf HQ. eapply wp_erts_msgq_set_save_end; [apply Hiv..|by eapply fetched_plain|].
  intros σ' σ1 f HB' Hok' Hfr Hrf.
  assert (Hpe : pending_signal σ' = pending_signal σ) by (rewrite (rf_pend _ _ Hrf); apply Hfr).
  assert (Hct : ∀ a, sct (sigs σ') a = sct (sigs σ) a) by (intros a; rewrite (rf_ct _ _ Hrf); apply Hfr).
  apply HQ; [|done|done]. eapply sq_inv_fetch; [done..| |].
  - intros m Hm. rewrite (rf_psflgs _ _ Hrf). by apply (ff_psflgs _ _ Hfr).
  - rewrite (rf_on _ _ Hrf). apply Hfr.
Qed.

(** ** Management of the queue *)

(** Flags of signals stay as they are; off-heap messages are only turned off while
    no buffers are in use. *)
Lemma sq_inv_flags σ σ' C pos :
  sq_inv σ C pos → sigs σ' = sigs σ → inqs σ' = inqs σ → bufs σ' = bufs σ →
  sig_inq_buffers σ' = sig_inq_buffers σ → (∃ f, qs σ' = (qs σ) <| qs_flags := f |>) → sq_prs σ' = sq_prs σ →
  pending_signal σ' = pending_signal σ →
  (∀ m, m = ERTS_PSFLG_MSG_SIG_IN_Q ∨ m = ERTS_PSFLG_NMSG_SIG_IN_Q → Z.land (psflgs σ') m = Z.land (psflgs σ) m) →
  (sig_inq_buffers σ = true → Z.land (psflgs σ') ERTS_PSFLG_OFF_HEAP_MSGQ ≠ 0%Z) → sq_inv σ' C pos.
Proof.
  intros [[HC Hsv Hp Hmk Hprs Hblk] HB Hma Hoff Hmsg Hnm Hpend] Hs Hi Hb Hon [f Hqs] Hpr Hpe Hfl Hoff'.
  assert (Hlv : ∀ r, live σ' r = live σ r) by (intros [[|i]| |]; simpl; by rewrite ?Hb).
  constructor.
  - constructor; [|by rewrite Hqs|done|by rewrite Hs|by rewrite Hpr|by rewrite Hqs].
    eapply queues_ok_same; [done..| |by rewrite Hs]. intros [i| |] _; simpl; by rewrite ?Hi, ?Hqs.
  - by eapply bufs_ok_same.
  - intros b i. rewrite Hb. apply Hma.
  - by rewrite Hon.
  - intros i a. rewrite Hs, Hfl by auto. apply Hmsg.
  - intros i a. rewrite Hs, Hfl by auto. apply Hnm.
  - intros p. rewrite Hpe, Hs. apply Hpend.
Qed.

Lemma land_lnot_other x m m' : Z.land m m' = 0%Z → Z.land (Z.land x (Z.lnot m)) m' = Z.land x m'.
Proof. intros Hm. pose proof (land_mask x m 0 m') as H. rewrite !Z.lor_0_r in H. by apply H. Qed.

Lemma qs_flags_id (x : ErtsSignalPrivQueues) : x = x <| qs_flags := qs_flags x |>.
Proof. by destruct x. Qed.

(** No signal moves, but for the buffers that are emptied when they are taken down. *)
Lemma wp_change_inv st C pos (Q : msgq_change → sqs → Prop) σ :
  sq_inv σ C pos →
  Z.land (qs_flags (qs σ)) (Z.lor FS_OFF_HEAP_MSGQ FS_ON_HEAP_MSGQ) = FS_OFF_HEAP_MSGQ ∨
  Z.land (qs_flags (qs σ)) (Z.lor FS_OFF_HEAP_MSGQ FS_ON_HEAP_MSGQ) = FS_ON_HEAP_MSGQ →
  (∀ r σ' C', sq_inv σ' C' pos → (C' = C ∨ C' = flush_all C) → pending_signal σ' = pending_signal σ →
     (∀ a, sct (sigs σ') a = sct (sigs σ) a) → Q r σ') →
  wp (erts_change_message_queue_management st) Q σ.
Proof.
  intros Hiv Hst HQ. unfold erts_change_message_queue_management. wp_step. apply wp_get_qs.
  destruct (decide _) as [Hoff|Hoff]; [|rewrite decide_True by tauto]; destruct st; try (wp_step; by eapply HQ; [|left|..]).
  - wp_step. eapply wp_flush_and_deinstall; [apply Hiv|by eapply iv_q|]. intros σ1 Hp1 Hon1.
    pose proof (sq_inv_flush _ _ _ _ Hiv Hp1) as Hiv1. pose proof (fp_quiet _ _ _ Hp1) as Hqt.
    wp_step. apply wp_upd_qs. wp_step. apply wp_upd_qs. wp_step. apply wp_get_qs. wp_step.
    assert (Hgo : ∀ r σ', (∃ f, qs σ' = (qs σ1) <| qs_flags := f |>) → sigs σ' = sigs σ1 → inqs σ' = inqs σ1 → bufs σ' = bufs σ1 →
      sig_inq_buffers σ' = sig_inq_buffers σ1 → sq_prs σ' = sq_prs σ1 → pending_signal σ' = pending_signal σ1 →
      (psflgs σ' = psflgs σ1 ∨ psflgs σ' = Z.land (psflgs σ1) (Z.lnot ERTS_PSFLG_OFF_HEAP_MSGQ)) → Q r σ').
    { intros r σ' Hqs Hs Hi Hb Hon Hpr Hpe Hfl. eapply HQ; [|by right| |].
      - eapply sq_inv_flags; [exact Hiv1|done..| |by rewrite Hon1].
        intros m Hm. destruct Hfl as [-> | ->]; [done|]. apply land_lnot_other. by destruct Hm as [-> | ->].
      - rewrite Hpe. apply Hqt.
      - intros a. rewrite Hs. apply Hqt. }
    case_decide; [apply wp_upd_flgs|wp_step]; wp_step; apply Hgo; try done; eauto.
  - wp_step. apply wp_upd_qs. unfold change_to_off_heap. wp_step. wp_step. apply wp_upd_qs. wp_step. apply wp_get_qs.
    assert (Hgo : ∀ r σ', (∃ f, qs σ' = (qs σ) <| qs_flags := f |>) → sigs σ' = sigs σ → inqs σ' = inqs σ → bufs σ' = bufs σ →
      sig_inq_buffers σ' = sig_inq_buffers σ → sq_prs σ' = sq_prs σ → pending_signal σ' = pending_signal σ →
      (psflgs σ' = psflgs σ ∨ psflgs σ' = Z.lor (psflgs σ) ERTS_PSFLG_OFF_HEAP_MSGQ) → Q r σ').
    { intros r σ' Hqs Hs Hi Hb Hon Hpr Hpe Hfl. eapply HQ; [|by left|done|intros a; by rewrite Hs].
      eapply sq_inv_flags; [exact Hiv|done..| |].
      - intros m Hm. destruct Hfl as [-> | ->]; [done|]. apply land_lor_mask. by destruct Hm as [-> | ->].
      - intros Ho. apply (iv_off _ _ _ Hiv) in Ho. destruct Hfl as [-> | ->]; [done|]. by apply land_lor_l. }
    case_decide.
    + wp_step. apply wp_upd_flgs. wp_step. apply wp_upd_qs. wp_step. wp_step. apply Hgo; try done; eauto.
    + wp_step. wp_step. apply Hgo; try done; eauto.
Qed.

Lemma wp_move_inv C pos (Q : unit → sqs → Prop) σ :
  sq_inv σ C pos → Z.land (qs_flags (qs σ)) FS_OFF_HEAP_MSGQ ≠ 0%Z ∨ sig_inq_buffers σ = false →
  (∀ σ', sq_inv σ' C pos → pending_signal σ' = pending_signal σ → sigs σ' = sigs σ → Q tt σ') →
  wp move_msgq_off_heap_state Q σ.
Proof.
  intros Hiv Hc HQ. unfold move_msgq_off_heap_state. wp_step. apply wp_get_qs. wp_step. case_decide as Hd.
  - apply wp_upd_flgs. apply wp_upd_qs. apply HQ; [|done..].
    eapply sq_inv_flags; [exact Hiv|done..|by eexists|done|done| |].
    + intros m Hm. apply land_lnot_other. by destruct Hm as [-> | ->].
    + intros Ho. destruct Hc; congruence.
  - wp_step. apply wp_upd_qs. apply HQ; [|done..]. eapply sq_inv_flags; [exact Hiv|done..|by eexists|done|done|done|].
    apply Hiv.
Qed.

Lemma wp_force_inv C pos (Q : Z → sqs → Prop) σ :
  sq_inv σ C pos →
  (∀ n σ', sq_inv σ' C pos → pending_signal σ' = pending_signal σ → (∀ a, sct (sigs σ') a = sct (sigs σ) a) → Q n σ') →
  wp erts_proc_sig_queue_force_buffers Q σ.
Proof.
  intros Hiv HQ. unfold erts_proc_sig_queue_force_buffers, erts_proc_sig_queue_get_buffers. wp_step. wp_step. wp_step. wp_step.
  set (σ0 := σ <| sig_inq_contention_counter := _ |>).
  assert (Hiv0 : sq_inv σ0 C pos).
  { eapply sq_inv_flags; [exact Hiv|done..| |done|done|done|apply Hiv]. exists (qs_flags (qs σ)). apply qs_flags_id. }
  wp_step. change (psflgs σ) with (psflgs σ0). eapply wp_install_inv; [done|]. intros σ1 Hqt Hiv1.
  assert (Hpe : pending_signal σ1 = pending_signal σ) by apply Hqt.
  assert (Hct : ∀ a, sct (sigs σ1) a = sct (sigs σ) a) by apply Hqt.
  wp_steps. destruct (sig_inq_buffers σ1) eqn:Hon; [|wp_step; by apply HQ].
  destruct (bo_on σ1 (iv_bufs _ _ _ Hiv1) Hon) as (b & Hb & _). wp_step. eapply wp_upd_bufs; [done|]. wp_step.
  apply HQ; [|done|done]. eapply sq_inv_bufs; [done..|by constructor].
Qed.

End steps.
