(* ===== verification/SigLog.v ===== *)
(** The log of what the senders have sent against what the queues hold. *)

From stdpp Require Import base numbers functions list gmap sets.
From Stdlib Require Import ZArith Lia.
From S2P Require Import Prelude PonPremise RecvMarker SigQueue SigInv SigOps SigConcat SigEnqueue SigFlow SigFetch SigRecv SigSend SigMsgs SigRun SigOrder.

#[local] Opaque flush_all.
#[local] Abbreviation NR := ERTS_PROC_SIG_INQ_BUFFERED_NR_OF_BUFFERS.

Section log.
Context {TH : TermHash} {SA : StaticAtoms}.
Implicit Types σ : sqs.
Implicit Types C : region → list positive.
Implicit Types log : list (Z * positive).
Implicit Types l : list positive.

(** ** What is in memory *)

Lemma walk_lseg fuel sg p l : lseg (snx sg) p l None → length l ≤ fuel → walk fuel sg p = l.
Proof.
  revert fuel p. induction l as [|a l IH]; intros fuel p.
  - intros -> _. by destruct fuel.
  - intros (-> & q & Hq & Hl) Hlen. destruct fuel as [|fuel]; [simpl in Hlen; lia|]. simpl in *. f_equal.
    unfold snx in Hq. destruct (sg !! a) as [s|]; [|done]. injection Hq as <-. simpl. apply IH; [done|lia].
Qed.

Lemma contents_ok σ C r : queues_ok σ C → contents σ r = C r.
Proof.
  intros HC. unfold contents. destruct (live σ r) eqn:Hl; [|by rewrite (qo_dead _ _ HC)].
  destruct (qo_rep _ _ HC r Hl) as (v & -> & Hr). simpl. apply walk_lseg; [apply Hr|].
  apply nodup_fuel; [apply Hr|]. intros a Ha. eapply lseg_dom; [apply Hr|done].
Qed.

(** The outer queue and behind it the buffers. *)
Definition outer C : list positive := C (RInq 0) ++ concat ((λ i, C (RInq (S i))) <$> seq 0 NR).
Definition all C : list positive := C RInner ++ C RCont ++ outer C.

Lemma all_signals_ok σ C : queues_ok σ C → all_signals σ = all C.
Proof.
  intros HC. unfold all_signals, all, outer. rewrite !(contents_ok σ C) by done. do 4 f_equal.
  apply list_fmap_ext. intros ? i _. by apply contents_ok.
Qed.

Lemma outer_nil C : (∀ i, C (RInq (S i)) = []) → outer C = C (RInq 0).
Proof.
  intros Hn. unfold outer. rewrite <- (app_nil_r (C (RInq 0))) at 2. f_equal.
  induction (seq 0 NR) as [|i js IH]; [done|]. rewrite fmap_cons. cbn [concat]. by rewrite Hn.
Qed.

Lemma outer_ext C C' : (∀ i, C' (RInq i) = C (RInq i)) → outer C' = outer C.
Proof. intros He. unfold outer. rewrite He. do 2 f_equal. apply list_fmap_ext. intros ? i _. apply He. Qed.

Lemma all_in C a : a ∈ all C → ∃ r, a ∈ C r.
Proof.
  unfold all, outer. rewrite !elem_of_app. intros [H|[H|[H|H]]]; [by eexists..|].
  apply list_elem_of_In, in_concat in H as (l & Hl & Ha). apply list_elem_of_In in Hl, Ha.
  apply list_elem_of_fmap in Hl as (i & -> & _). by eexists.
Qed.

(** *** How the steps change it *)

Lemma all_flush σ C : bufs_ok σ → queues_ok σ C → all (flush_all C) = all C.
Proof.
  intros HB HC. unfold all. rewrite !flush_all_other by done. do 2 f_equal.
  rewrite outer_nil by (intros i; by eapply flush_all_slot). apply flush_all_0.
Qed.

Lemma all_fetched σ C traced : bufs_ok σ → queues_ok σ C → all (fetched_queues σ C traced) = all C.
Proof.
  intros HB HC. rewrite <- (all_flush σ C) by done. unfold all.
  rewrite (outer_nil (fetched_queues σ C traced)) by (intros i; by apply fetched_inq).
  rewrite (outer_nil (flush_all C)) by (intros i; by eapply flush_all_slot).
  rewrite fetched_inq by done. unfold fetched_queues, fetch_dest. case_decide as Hd.
  - rewrite move_outer_dest, move_outer_ne by done. destruct Hd as (-> & _). by rewrite !app_nil_r.
  - rewrite move_outer_dest, move_outer_ne by done. by rewrite app_nil_r.
Qed.

Lemma all_queued_outer σ C C' l :
  bufs_ok σ → queues_ok σ C → (∀ r, C' r = (<[RInq 0 := flush_all C (RInq 0) ++ l]> (flush_all C)) r) →
  all C' = all C ++ l.
Proof.
  intros HB HC He. rewrite <- (all_flush σ C) by done. unfold all.
  rewrite (outer_nil (flush_all C)) by (intros i; by eapply flush_all_slot).
  rewrite outer_nil. 2: { intros i. rewrite He, fn_lookup_insert_ne by done. by eapply flush_all_slot. }
  rewrite !He, fn_lookup_insert, !fn_lookup_insert_ne by done. by rewrite !app_assoc.
Qed.

(** The buffer is in the middle. *)
Lemma all_queued_buffer C k l :
  k < NR → ∃ l1 l2, all C = l1 ++ l2 ∧ all (<[RInq (S k) := C (RInq (S k)) ++ l]> C) = l1 ++ l ++ l2 ∧
    ∀ a, a ∈ l2 → ∃ i, k < i ∧ a ∈ C (RInq (S i)).
Proof.
  intros Hk. set (f := λ i, C (RInq (S i))).
  exists (C RInner ++ C RCont ++ C (RInq 0) ++ concat (f <$> seq 0 k) ++ C (RInq (S k))), (concat (f <$> seq (S k) (NR - S k))).
  assert (Hseq : seq 0 NR = seq 0 k ++ k :: seq (S k) (NR - S k)).
  { replace NR with (k + S (NR - S k)) at 1 by lia. by rewrite seq_app. }
  split_and!.
  - unfold all, outer. fold f. rewrite Hseq, fmap_app, concat_app. simpl. by rewrite <- !app_assoc.
  - unfold all, outer. rewrite Hseq, fmap_app, concat_app, !fn_lookup_insert_ne by done. simpl.
    rewrite fn_lookup_insert.
    rewrite (list_fmap_ext _ f (seq 0 k)), (list_fmap_ext _ f (seq (S k) _)).
    + by rewrite <- !app_assoc.
    + intros i x Hx%list_elem_of_lookup_2%elem_of_seq. rewrite fn_lookup_insert_ne; [done|]. intros [= ->]. lia.
    + intros i x Hx%list_elem_of_lookup_2%elem_of_seq. rewrite fn_lookup_insert_ne; [done|]. intros [= ->]. lia.
  - intros a Ha. apply list_elem_of_In, in_concat in Ha as (l' & Hl & Ha). apply list_elem_of_In in Hl, Ha.
    apply list_elem_of_fmap in Hl as (i & -> & Hi). apply elem_of_seq in Hi. exists i. split; [lia|done].
Qed.

(** ** The log *)

Lemma elem_of_sent_by s a log : a ∈ sent_by s log ↔ (s, a) ∈ log.
Proof.
  unfold sent_by. rewrite list_elem_of_fmap. split.
  - intros ([s' b] & -> & [Hs Hin]%list_elem_of_filter). simpl in *. by subst.
  - intros Hin. exists (s, a). by rewrite list_elem_of_filter.
Qed.

Lemma sent_by_app s log1 log2 : sent_by s (log1 ++ log2) = sent_by s log1 ++ sent_by s log2.
Proof. unfold sent_by. by rewrite filter_app, fmap_app. Qed.

Lemma sent_by_pair s s' l : sent_by s (pair s' <$> l) = if decide (s' = s) then l else [].
Proof.
  unfold sent_by. induction l as [|a l IH]; [by case_decide|]. rewrite fmap_cons, filter_cons. cbn [fst].
  destruct (decide (s' = s)); [|done]. rewrite fmap_cons. by rewrite IH.
Qed.

Lemma sent_by_in s a log : a ∈ sent_by s log → a ∈ log.*2.
Proof. rewrite elem_of_sent_by. intros H. apply list_elem_of_fmap. by exists (s, a). Qed.

Lemma sent_by_unique s s' a log : NoDup log.*2 → a ∈ sent_by s log → (s', a) ∈ log → s' = s.
Proof.
  rewrite elem_of_sent_by. induction log as [|[s0 b] log IH]; [set_solver|]. simpl.
  rewrite NoDup_cons, list_elem_of_fmap. intros [Hb Hnd] H1 H2.
  apply elem_of_cons in H1 as [[= -> ->]|H1]; apply elem_of_cons in H2 as [[= ->]|H2]; try done.
  - destruct Hb. by exists (s', b).
  - subst. destruct Hb. by exists (s, b).
  - by apply IH.
Qed.

Record log_ok σ C log (taken : list positive) : Prop := {
  lg_order : ∀ s, filter (λ a, a ∈ sent_by s log) (all C) = filter (λ a, a ∉ taken) (sent_by s log);
  lg_slot : ∀ i a, a ∈ C (RInq (S i)) → ∃ s, (s, a) ∈ log ∧ slot_of s = i;
  lg_dom : ∀ a, a ∈ log.*2 → is_Some (sigs σ !! a);
  lg_nodup : NoDup log.*2;
  lg_in : ∀ r a, a ∈ C r → a ∈ log.*2;
  lg_pend : ∀ p, pending_signal σ = Some p → p ∉ log.*2;
  lg_taken : ∀ a, a ∈ taken → a ∈ log.*2
}.

(** Signals move to another queue, none is lost. *)
Lemma log_ok_move σ σ' C C' log taken :
  log_ok σ C log taken → all C' = all C → (∀ i a, a ∈ C' (RInq (S i)) → a ∈ C (RInq (S i))) →
  (∀ r a, a ∈ C' r → ∃ r', a ∈ C r') → (∀ a, a ∈ log.*2 → is_Some (sigs σ !! a) → is_Some (sigs σ' !! a)) →
  (∀ p, pending_signal σ' = Some p → pending_signal σ = Some p ∨ p ∉ log.*2) → log_ok σ' C' log taken.
Proof.
  intros [Ho Hs Hd Hnd Hin Hp Ht] Ha Hi Hr Hct Hpe. constructor; try done.
  - by rewrite Ha.
  - intros i a Hx. by apply Hs, Hi.
  - intros a Hx. apply Hct; [done|by apply Hd].
  - intros r a Hx. destruct (Hr r a Hx) as [r' Hx']. by eapply Hin.
  - intros p [H|H]%Hpe; [by apply Hp|done].
Qed.

Lemma filter_none {A} (P : A → Prop) `{∀ x, Decision (P x)} (l : list A) : (∀ x, x ∈ l → ¬ P x) → filter P l = [].
Proof.
  induction l as [|x l IH]; intros Hl; [done|]. rewrite filter_cons, decide_False by (apply Hl; left).
  apply IH. intros y Hy. apply Hl. by right.
Qed.

Lemma filter_every {A} (P : A → Prop) `{∀ x, Decision (P x)} (l : list A) : (∀ x, x ∈ l → P x) → filter P l = l.
Proof.
  induction l as [|x l IH]; intros Hl; [done|]. rewrite filter_cons, decide_True by (apply Hl; left).
  f_equal. apply IH. intros y Hy. apply Hl. by right.
Qed.

Lemma filter_same {A} (P P' : A → Prop) `{∀ x, Decision (P x), ∀ x, Decision (P' x)} (l : list A) :
  (∀ x, x ∈ l → P x ↔ P' x) → filter P l = filter P' l.
Proof.
  induction l as [|x l IH]; intros Hl; [done|]. rewrite !filter_cons, IH by (intros y Hy; apply Hl; by right).
  assert (P x ↔ P' x) as Hx by (apply Hl; left). by repeat case_decide; try tauto.
Qed.

(** New signals of [s] go behind everything of [s]. *)
Lemma order_insert s l l1 l2 log (taken : list positive) :
  (∀ s, filter (λ a, a ∈ sent_by s log) (l1 ++ l2) = filter (λ a, a ∉ taken) (sent_by s log)) →
  (∀ a, a ∈ l → a ∉ log.*2) → (∀ a, a ∈ l1 ++ l2 → a ∈ log.*2) → (∀ a, a ∈ taken → a ∈ log.*2) →
  (∀ a, a ∈ l2 → a ∉ sent_by s log) →
  ∀ s', filter (λ a, a ∈ sent_by s' (log ++ (pair s <$> l))) (l1 ++ l ++ l2) =
        filter (λ a, a ∉ taken) (sent_by s' (log ++ (pair s <$> l))).
Proof.
  intros Ho Hl Hin Ht Hl2 s'. rewrite sent_by_app, sent_by_pair, (filter_app _ (sent_by s' log)), <- Ho.
  rewrite !filter_app. case_decide as Hs.
  - subst s'. rewrite (filter_every (λ a, a ∈ sent_by s log ++ l) l) by (intros x Hx; apply elem_of_app; by right).
    rewrite (filter_every (λ a, a ∉ taken) l) by (intros x Hx Hx'; apply (Hl x Hx); by apply Ht).
    assert (∀ k : list positive, (∀ a, a ∈ k → a ∈ log.*2) → filter (λ a, a ∈ sent_by s log ++ l) k = filter (λ a, a ∈ sent_by s log) k) as Hk.
    { intros k Hk. apply filter_same. intros x Hx. rewrite elem_of_app. split; [|by left].
      intros [?|Hxl]; [done|]. by destruct (Hl x Hxl); apply Hk. }
    rewrite !Hk by (intros; apply Hin, elem_of_app; auto).
    rewrite (filter_none (λ a, a ∈ sent_by s log) l2) by done. by rewrite !app_nil_r.
  - rewrite !app_nil_r. rewrite (filter_none _ l); [done|]. intros x Hx Hx'. by apply (Hl x Hx), (sent_by_in s').
Qed.

Lemma log_ok_send σ σ' C C' s l log taken :
  log_ok σ C log taken → bufs_ok σ → queues_ok σ C → (0 ≤ erts_internal_hash s)%Z → queued s l C C' →
  NoDup l → (∀ a, a ∈ l → a ∉ log.*2) → (∀ a, a ∈ log.*2 ∨ a ∈ l → is_Some (sigs σ' !! a)) →
  (∀ p, pending_signal σ' = Some p → (p ∉ log.*2) ∧ p ∉ l) → log_ok σ' C' (log ++ (pair s <$> l)) taken.
Proof.
  intros [Ho Hs Hd Hnd Hin Hp Ht] HB HC Hh Hq Hndl Hl Hdom Hpe.
  assert (Hlog : (log ++ (pair s <$> l)).*2 = log.*2 ++ l).
  { rewrite fmap_app. f_equal. rewrite <- list_fmap_compose. by apply list_fmap_id. }
  assert (Hall : ∀ a, a ∈ all C → a ∈ log.*2) by (intros a [r Ha]%all_in; by eapply Hin).
  constructor; rewrite ?Hlog.
  - destruct Hq as [->|He].
    + destruct (all_queued_buffer C (slot_of s) l) as (l1 & l2 & H1 & -> & H2); [by apply slot_of_lt|].
      rewrite H1 in *. apply order_insert; [done..|]. intros a (i & Hi & Ha)%H2 Hs'.
      destruct (Hs i a Ha) as (s0 & Hs0 & <-). pose proof (sent_by_unique _ _ _ _ Hnd Hs' Hs0). subst. lia.
    + rewrite (all_queued_outer σ C C' l) by done. rewrite <- (app_nil_r (all C ++ l)), <- app_assoc.
      apply order_insert; rewrite ?app_nil_r; [done..|]. intros a Ha. by apply elem_of_nil in Ha.
  - intros i a Ha. destruct Hq as [->|He].
    + destruct (decide (i = slot_of s)) as [->|Hi].
      * rewrite fn_lookup_insert in Ha. apply elem_of_app in Ha as [Ha|Ha].
        -- destruct (Hs _ a Ha) as (s0 & Hs0 & He). exists s0. split; [|done]. apply elem_of_app. by left.
        -- exists s. split; [|done]. apply elem_of_app. right. by apply list_elem_of_fmap_2.
      * rewrite fn_lookup_insert_ne in Ha by congruence. destruct (Hs _ a Ha) as (s0 & Hs0 & He). exists s0.
        split; [|done]. apply elem_of_app. by left.
    + rewrite He, fn_lookup_insert_ne in Ha by done. rewrite (flush_all_slot σ) in Ha by done. by apply elem_of_nil in Ha.
  - intros a Ha. apply Hdom. by apply elem_of_app in Ha.
  - apply NoDup_app. split_and!; [done| |done]. intros a Ha Hal. by apply (Hl a).
  - intros r a Ha. apply elem_of_app. assert (a ∈ l ∨ ∃ r', a ∈ C r') as [?|[r' Hr]]; [|by right|left; by eapply Hin].
    destruct Hq as [->|He].
    + destruct (decide (r = RInq (S (slot_of s)))) as [->|Hr]; [|rewrite fn_lookup_insert_ne in Ha by done; eauto].
      rewrite fn_lookup_insert in Ha. apply elem_of_app in Ha as [Ha|Ha]; eauto.
    + rewrite He in Ha. assert (a ∈ l ∨ ∃ r', a ∈ flush_all C r') as [?|[r' Hr]]; [|by left|].
      * destruct (decide (r = RInq 0)) as [->|Hr]; [|rewrite fn_lookup_insert_ne in Ha by done; eauto].
        rewrite fn_lookup_insert in Ha. apply elem_of_app in Ha as [Ha|Ha]; eauto.
      * right. apply flush_all_in in Hr as [(_ & j & _ & Hr)|Hr]; eauto.
  - intros p Hpp. destruct (Hpe p Hpp). rewrite elem_of_app. tauto.
  - intros a Ha. apply elem_of_app. left. by apply Ht.
Qed.

(** The receiver takes a message out. *)
Lemma log_ok_take σ σ' C pos a log taken :
  log_ok σ C log taken → queues_ok σ C → C RInner !! pos = Some a →
  (∀ b, is_Some (sigs σ !! b) → is_Some (sigs σ' !! b)) → pending_signal σ' = pending_signal σ →
  log_ok σ' (<[RInner := delete pos (C RInner)]> C) log (taken ++ [a]).
Proof.
  intros [Ho Hs Hd Hnd Hin Hp Ht] HC Ha Hdom Hpe. set (C' := <[RInner := _]> C).
  assert (HCi : ∀ r, r ≠ RInner → C' r = C r) by (intros r Hr; by apply fn_lookup_insert_ne).
  assert (Hnd1 : NoDup (C RInner)) by apply (inner_view σ C HC).
  assert (∃ l1 l2, all C = l1 ++ a :: l2 ∧ all C' = l1 ++ l2 ∧ (a ∉ l1) ∧ a ∉ l2) as (l1 & l2 & H1 & H2 & Hn1 & Hn2).
  { pose proof (take_drop_middle _ _ _ Ha) as Hm. rewrite <- Hm in Hnd1.
    apply NoDup_app in Hnd1 as (_ & Hx & [Hy _]%NoDup_cons).
    exists (take pos (C RInner)), (drop (S pos) (C RInner) ++ C RCont ++ outer C). split_and!.
    - unfold all. rewrite <- Hm at 1. by rewrite <- app_assoc.
    - unfold all. rewrite (outer_ext C C') by (intros i; by apply HCi). rewrite (HCi RCont) by done.
      unfold C'. rewrite fn_lookup_insert, delete_take_drop. by rewrite <- app_assoc.
    - intros Hin'. apply (Hx a Hin'). left.
    - intros [Hin'|Hin']%elem_of_app; [done|].
      assert (∃ r, r ≠ RInner ∧ a ∈ C r) as (r & Hr & Har).
      { apply elem_of_app in Hin' as [Hin'|Hin']; [by exists RCont|].
        destruct (all_in (<[RInner := []]> (<[RCont := []]> C)) a) as [r Hr].
        - unfold all. rewrite (outer_ext C) by (intros i; by rewrite !fn_lookup_insert_ne).
          rewrite !elem_of_app. auto.
        - exists r. destruct (decide (r = RInner)) as [->|Hri]; [rewrite fn_lookup_insert in Hr; by apply elem_of_nil in Hr|].
          split; [done|]. rewrite fn_lookup_insert_ne in Hr by done.
          destruct (decide (r = RCont)) as [->|Hrc]; [rewrite fn_lookup_insert in Hr; by apply elem_of_nil in Hr|].
          by rewrite fn_lookup_insert_ne in Hr. }
      apply Hr. symmetry. apply (qo_disj _ _ HC _ _ a); [|done]. by eapply list_elem_of_lookup_2. }
  assert (Hina : ∀ r b, b ∈ C' r → b ∈ C r).
  { intros r b. destruct (decide (r = RInner)) as [->|Hr]; [|by rewrite HCi]. unfold C'. rewrite fn_lookup_insert.
    rewrite <- (take_drop_middle _ _ _ Ha) at 2. rewrite delete_take_drop, !elem_of_app, elem_of_cons. tauto. }
  constructor; try done.
  - intros s. rewrite H2, !filter_app. specialize (Ho s). rewrite H1, filter_app, filter_cons in Ho.
    assert (Hne : ∀ l, a ∉ l → filter (λ b, b ≠ a) (filter (λ b, b ∈ sent_by s log) l) = filter (λ b, b ∈ sent_by s log) l).
    { intros l Hal. apply filter_every. intros b [_ Hb]%list_elem_of_filter ->. done. }
    transitivity (filter (λ b, b ≠ a) (filter (λ b, b ∉ taken) (sent_by s log))).
    + rewrite <- Ho, filter_app, (Hne l1) by done. f_equal.
      case_decide; [rewrite filter_cons_False by (intros Hx; by apply Hx)|]; by rewrite (Hne l2).
    + rewrite list_filter_filter. apply filter_same. intros b _. rewrite elem_of_app, list_elem_of_singleton. tauto.
  - intros b Hb. by apply Hdom, Hd.
  - intros r b Hb. by eapply Hin, Hina.
  - by rewrite Hpe.
  - intros b [Hb|Hb%list_elem_of_singleton]%elem_of_app; [by apply Ht|]. subst. eapply (Hin RInner).
    by eapply list_elem_of_lookup_2.
Qed.

End log.
