(* ===== verification/SigThms.v ===== *)
(** Theorems about the signal queues of a process. *)

From stdpp Require Import base numbers functions list gmap sets.
From Stdlib Require Import ZArith Lia.
From S2P Require Import Prelude PonStats ErlTerm PonPremise RecvMarker RecvRing RecvOps RecvThms SigQueue SigInv SigOps SigConcat SigEnqueue SigFlow SigFetch SigRecv SigSend SigMsgs SigSignals SigRun SigOrder SigLog.

#[local] Opaque flush_all.

Section run.
Context {TH : TermHash} {SA : StaticAtoms}.
Implicit Types σ : sqs.
Implicit Types C : region → list positive.
Implicit Types log : list (Z * positive).
Implicit Types l taken : list positive.

Record ok σ C (pos : nat) log taken : Prop := {
  ok_inv : sq_inv σ C pos;
  ok_log : log_ok σ C log taken
}.

Definition ok_after log taken (es : list event) σ : Prop :=
  ∃ C pos, ok σ C pos (log ++ sents es) (taken ++ takens es).

Lemma ok_after_nil σ C pos log taken : ok σ C pos log taken → ok_after log taken [] σ.
Proof. intros H. exists C, pos. simpl. by rewrite !app_nil_r. Qed.

Lemma ok_free σ C pos log taken a :
  ok σ C pos log taken → sigs σ !! a = None →
  (a ∉ log.*2) ∧ (∀ r, a ∉ C r) ∧ (∀ p, pending_signal σ = Some p → p ≠ a).
Proof.
  intros [Hiv Hlg] Ha. assert (a ∉ log.*2) as Hl by (intros H; apply (lg_dom _ _ _ _ Hlg) in H as [? H]; congruence).
  split_and!; [done| |].
  - intros r Hr. by eapply Hl, lg_in.
  - intros p Hp ->. destruct (iv_pend _ _ _ Hiv a Hp) as ([? Hs] & _). congruence.
Qed.

(** A new signal in no queue. *)
Lemma ok_alloc σ C pos log taken a s :
  ok σ C pos log taken → sigs σ !! a = None → s_recv_marker s = false →
  ok (σ <| sigs ::= <[a := s]> |>) C pos log taken.
Proof.
  intros Hok Ha Hs. destruct (ok_free _ _ _ _ _ _ Hok Ha) as (Hl & HC & Hp). destruct Hok as [Hiv Hlg].
  set (σ' := σ <| sigs ::= _ |>).
  assert (Hk : ∀ b, b ≠ a → sigs σ' !! b = sigs σ !! b) by (intros b Hb; by apply lookup_insert_ne).
  constructor.
  - eapply (sq_inv_frame σ σ' C pos 0); [done| |done..|by rewrite Z.lor_0_r| |].
    + intros r b Hb. apply Hk. intros ->. by apply (HC r).
    + intros b s0. cbn. intros [[_ <-]|[_ Hb]]%lookup_insert_Some; [done|]. by apply (rc_mark _ _ _ (iv_recv _ _ _ Hiv) b).
    + intros p Hpe. cbn in Hpe. destruct (iv_pend _ _ _ Hiv p Hpe) as (H1 & H2 & H3). unfold snm in *.
      rewrite Hk by (by apply Hp). done.
  - eapply log_ok_move; [done|done|done| |intros b _ Hb|by left].
    + intros r b Hb. by exists r.
    + cbn. destruct (decide (b = a)) as [->|Hne]; [by rewrite lookup_insert_eq|by rewrite lookup_insert_ne].
Qed.

Lemma loose_alloc σ C pos log taken a :
  ok σ C pos log taken → sigs σ !! a = None →
  loose (σ <| sigs ::= <[a := ERTS_INIT_MESSAGE]> |>) C a (Next a) 1 [a].
Proof.
  intros Hok Ha. destruct (ok_free _ _ _ _ _ _ Hok Ha) as (_ & HC & Hp).
  assert (Hn : snm (<[a := ERTS_INIT_MESSAGE]> (sigs σ)) a = false) by (unfold snm; by rewrite lookup_insert_eq).
  constructor.
  - apply chain_one; [|done]. unfold snx. cbn. by rewrite lookup_insert_eq.
  - intros b ->%list_elem_of_singleton. done.
  - intros r b Hb ->%list_elem_of_singleton. by apply (HC r).
  - intros p Hpe ->%list_elem_of_singleton. by apply (Hp a).
Qed.

Lemma sents_sent s l : sents (Sent s <$> l) = pair s <$> l ∧ takens (Sent s <$> l) = [].
Proof. unfold sents, takens. induction l as [|a l [IH1 IH2]]; [done|]. rewrite !fmap_cons. cbn. by rewrite IH1, IH2. Qed.

(** What a send of [l] by [s] comes to; [b]: the process takes it. *)
Definition sent_post s C (pos : nat) log l (b : bool) σ' : Prop :=
  (∃ C', sq_inv σ' C' pos ∧ nm_queued s l C C' b) ∧ (∀ p, pending_signal σ' = Some p → l = [] ∨ b = false ∨ p ∉ l) ∧
  (∀ a, a ∈ log.*2 → is_Some (sigs σ' !! a)) ∧ (∀ p, pending_signal σ' = Some p → p ∉ log.*2).

Lemma all_queued s l σ C C' a :
  bufs_ok σ → queues_ok σ C → (0 ≤ erts_internal_hash s)%Z → queued s l C C' → a ∈ l → a ∈ all C'.
Proof.
  intros HB HC Hh [->|He] Ha.
  - destruct (all_queued_buffer C (slot_of s) l) as (l1 & l2 & _ & -> & _); [by apply slot_of_lt|].
    rewrite !elem_of_app. auto.
  - rewrite (all_queued_outer σ C C' l) by done. rewrite elem_of_app. auto.
Qed.

Lemma all_dom σ C a : queues_ok σ C → a ∈ all C → is_Some (sigs σ !! a).
Proof.
  intros HC [r Ha]%all_in. destruct (live σ r) eqn:Hl.
  - destruct (qo_rep σ C HC r Hl) as (v & _ & Hr). eapply lseg_dom; [apply Hr|done].
  - rewrite (qo_dead σ C HC r Hl) in Ha. by apply elem_of_nil in Ha.
Qed.

(** The result of a send. *)
Lemma ok_sent s l b C pos log taken σ1 σ :
  ok σ1 C pos log taken → (0 ≤ erts_internal_hash s)%Z → NoDup l → (∀ a, a ∈ l → a ∉ log.*2) →
  sent_post s C pos log l b σ → ok_after log taken (sent_if b s l) σ.
Proof.
  intros [Hiv Hlg] Hh Hnd Hl ((C' & Hiv' & Hq) & Hpl & Hd & Hp).
  pose proof (iv_q _ _ _ Hiv) as HC. pose proof (iv_q _ _ _ Hiv') as HC'.
  assert (Hkeep : all C' = all C → (∀ i a, a ∈ C' (RInq (S i)) → a ∈ C (RInq (S i))) →
    (∀ r a, a ∈ C' r → ∃ r', a ∈ C r') → ok_after log taken [] σ).
  { intros Ha Hi Hr. apply (ok_after_nil σ C' pos). constructor; [done|]. eapply log_ok_move; [done..| |].
    - intros a Hx _. by apply Hd.
    - intros p Hpp. right. by apply Hp. }
  destruct Hq as [(Hne & -> & Hq)|(Hno & HC'')].
  - exists C', pos. cbn [sent_if]. destruct (sents_sent s l) as [-> ->]. rewrite app_nil_r. constructor; [done|].
    eapply log_ok_send; [done|apply Hiv|done|done|done|done|done| |].
    + intros a [Ha|Ha]; [by apply Hd|]. eapply all_dom; [done|]. by eapply all_queued; [apply Hiv|..].
    + intros p Hpp. split; [by apply Hp|]. by destruct (Hpl p Hpp) as [->|[?|?]].
  - replace (sent_if b s l) with (@nil event) by (destruct Hno as [->| ->]; by try destruct b).
    destruct HC'' as [->| ->]; apply Hkeep; [done|done| | | |].
    + intros r a Ha. by exists r.
    + by eapply all_flush; [apply Hiv|].
    + intros i a Ha. rewrite (flush_all_slot σ1) in Ha; [by apply elem_of_nil in Ha|apply Hiv|done].
    + intros r a Ha. apply flush_all_in in Ha as [(_ & j & _ & Ha)|Ha]; eauto.
Qed.

Lemma ok_signals σ C C' σ' pos pos' log taken :
  ok σ C pos log taken → sq_inv σ' C' pos' → all C' = all C →
  (∀ i a, a ∈ C' (RInq (S i)) → a ∈ C (RInq (S i))) → (∀ r a, a ∈ C' r → ∃ r', a ∈ C r') →
  pending_signal σ' = pending_signal σ → (∀ a, sct (sigs σ') a = sct (sigs σ) a) → ok σ' C' pos' log taken.
Proof.
  intros [Hiv Hlg] Hiv' Ha Hi Hr Hp Hct. constructor; [done|]. eapply log_ok_move; [done..| |].
  - intros a _. apply sct_dom, Hct.
  - intros p. rewrite Hp. by left.
Qed.

(** *** Senders *)

Lemma wp_send s l first lst locked busy len b C pos log taken (Q : list event → sqs → Prop) σ :
  b = takes_msgs locked σ → ok σ C pos log taken → (0 ≤ erts_internal_hash s)%Z → msgs_ok σ C first lst len l →
  (∀ b, b ∈ l → b ∉ log.*2) → (∀ es σ', ok_after log taken es σ' → Q es σ') →
  wp (queue_messages s locked busy first lst len) (λ _, Q (sent_if b s l)) σ.
Proof.
  intros -> Hok Hh Hmo Hl HQ. eapply wp_queue_messages; [apply Hok|done|done|].
  intros n σ' Hpost. apply HQ. eapply ok_sent; [done|done|apply Hmo|done|].
  destruct Hok as [Hiv Hlg]. destruct (takes_msgs locked σ).
  - destruct Hpost as (C' & Hq & Hiv' & Hf). unfold sent_post. rewrite (sf_pend _ _ Hf). split_and!; [| | |apply Hlg].
    + exists C'. split; [done|]. left. split_and!; [|done..].
      by destruct (chain_first _ _ _ _ _ _ (mo_chain _ _ _ _ _ _ Hmo)) as [l' ->].
    + intros p Hp. right; right. by apply Hmo.
    + intros a Ha. eapply sct_dom; [apply Hf|by apply Hlg].
  - destruct Hpost as [_ _ Hk Hp Hiv']. unfold sent_post. split_and!.
    + exists C. split; [done|]. right. split; by auto.
    + intros p _. by right; left.
    + intros a Ha. rewrite Hk by (left; intros Hal; by apply (Hl a)). by apply Hlg.
    + rewrite Hp. destruct (snm _ _); [|apply Hlg]. intros p [= <-]. apply Hl.
      destruct (chain_first _ _ _ _ _ _ (mo_chain _ _ _ _ _ _ Hmo)) as [l' ->]. left.
Qed.

Lemma ok_upd σ C pos log taken a f :
  ok σ C pos log taken → sq_inv (σ <| sigs ::= alter f a |>) C pos → ok (σ <| sigs ::= alter f a |>) C pos log taken.
Proof.
  intros [Hiv Hlg] Hiv'. constructor; [done|]. eapply log_ok_move; [done|done|done| | |by left].
  - intros r b Hb. by exists r.
  - intros b _ Hb. cbn. destruct (decide (b = a)) as [->|Hne]; [|by rewrite lookup_alter_ne].
    rewrite lookup_alter_eq. by apply fmap_is_Some.
Qed.

(** A message from outside: no signal that is held back goes with it. *)
Lemma wp_send_loose f s a locked busy C pos log taken (Q : list event → sqs → Prop) σ :
  ok σ C pos log taken → (0 ≤ erts_internal_hash s)%Z → sigs σ !! a = None →
  (∀ m, s_next (f m) = s_next m ∧ s_nmsg (f m) = s_nmsg m ∧ s_recv_marker (f m) = s_recv_marker m) →
  (∀ es σ', ok_after log taken es σ' → Q es σ') →
  wp (_ ← alloc_msg a ERTS_INIT_MESSAGE;
      _ ← (_ ← upd_s a f; queue_messages s locked busy a (Next a) 1);
      mret (sent_if (takes_msgs locked σ) s [a])) Q σ.
Proof.
  intros Hok Hh Ha Hf HQ. wp_step. apply wp_modify. pose proof (loose_alloc _ _ _ _ _ _ Hok Ha) as Hlo.
  pose proof (ok_alloc _ _ _ _ _ a ERTS_INIT_MESSAGE Hok Ha eq_refl) as Hok0.
  destruct (ok_free _ _ _ _ _ _ Hok Ha) as (Hfree & _ & _).
  wp_step. wp_step. eapply wp_upd_loose; [apply Hok0|done|done|]. intros σ1 Hiv1 Hlo1 ->.
  eapply wp_mono; [|intros n σ2 H; wp_step; exact H].
  eapply wp_send; [done|by apply ok_upd|done|by apply loose_msgs_ok| |done].
  by intros b ->%list_elem_of_singleton.
Qed.

(** Messages of a process, and what its scheduler held back. *)
Lemma wp_send_prepended s a l lst len locked busy C pos log taken (Q : list event → sqs → Prop) σ :
  ok σ C pos log taken → (0 ≤ erts_internal_hash s)%Z → loose σ C a lst len l → (∀ b, b ∈ l → b ∉ log.*2) →
  (∀ es σ', ok_after log taken es σ' → Q es σ') →
  wp (first ← prepend_pending_sig_maybe a; queue_messages s locked busy first lst len)
     (λ _, Q (sent_if (takes_msgs locked σ) s (with_pending σ l))) σ.
Proof.
  intros Hok Hh Hlo Hl HQ. wp_step. eapply wp_prepend; [apply Hok|done|].
  intros first' σ2 Hiv2 Hmo Hp2 Hout Hfl Hon Hct.
  assert (Hok2 : ok σ2 C pos log taken).
  { constructor; [done|]. eapply log_ok_move; [by apply Hok|done|done| | |by rewrite Hp2].
    - intros r b Hb. by exists r.
    - intros b _. apply sct_dom, Hct. }
  eapply wp_send; [unfold takes_msgs; by rewrite Hfl, Hon|done..| |done].
  intros b [Hb|Hb]%elem_of_app; [|by apply Hl].
  destruct (pending_signal σ) as [p|] eqn:Hpp; [|by apply elem_of_nil in Hb].
  apply list_elem_of_singleton in Hb as ->. by apply (lg_pend _ _ _ _ (ok_log _ _ _ _ _ Hok)).
Qed.

Lemma wp_send_proc s a locked busy msg C pos log taken (Q : list event → sqs → Prop) σ :
  ok σ C pos log taken → (0 ≤ erts_internal_hash s)%Z → sigs σ !! a = None →
  (∀ es σ', ok_after log taken es σ' → Q es σ') →
  wp (_ ← alloc_msg a ERTS_INIT_MESSAGE; _ ← erts_queue_proc_message s locked busy a msg;
      mret (sent_if (takes_msgs locked σ) s (with_pending σ [a]))) Q σ.
Proof.
  intros Hok Hh Ha HQ. wp_step. apply wp_modify. pose proof (loose_alloc _ _ _ _ _ _ Hok Ha) as Hlo.
  pose proof (ok_alloc _ _ _ _ _ a ERTS_INIT_MESSAGE Hok Ha eq_refl) as Hok0.
  destruct (ok_free _ _ _ _ _ _ Hok Ha) as (Hfree & _ & _).
  unfold erts_queue_proc_message. wp_step. wp_step. eapply wp_upd_loose; [apply Hok0|done|done|].
  intros σ1 Hiv1 Hlo1 Hσ1. assert (Hok1 : ok σ1 C pos log taken) by (subst σ1; by apply ok_upd).
  eapply wp_mono; [|intros n σ2 H; wp_step; exact H].
  replace (with_pending σ [a]) with (with_pending σ1 [a]) by (by subst σ1).
  replace (takes_msgs locked σ) with (takes_msgs locked σ1) by (by subst σ1).
  eapply wp_send_prepended; [exact Hok1|done|exact Hlo1| |done].
  by intros b ->%list_elem_of_singleton.
Qed.

Lemma wp_alloc_chain l C pos log taken (Q : unit → sqs → Prop) σ :
  ok σ C pos log taken → NoDup l → Forall (λ a, sigs σ !! a = None) l →
  (∀ σ', ok σ' C pos log taken → pending_signal σ' = pending_signal σ →
     (∀ locked, takes_msgs locked σ' = takes_msgs locked σ) → (∀ b, b ∉ l → sigs σ' !! b = sigs σ !! b) →
     lseg (snx (sigs σ')) (head l) l None → (∀ b, b ∈ l → snm (sigs σ') b = false) → Q tt σ') →
  wp (alloc_chain l) Q σ.
Proof.
  revert σ Q. induction l as [|a l IH]; intros σ Q Hok Hnd Hfr HQ; cbn [alloc_chain].
  - wp_step. apply HQ; try done. intros b Hb. by apply elem_of_nil in Hb.
  - apply NoDup_cons in Hnd as [Hal Hnd]. apply Forall_cons in Hfr as [Ha Hfr]. wp_step. apply wp_modify.
    apply IH; [by apply ok_alloc|done| |].
    { rewrite Forall_forall in *. intros b Hb. cbn. rewrite lookup_insert_ne by congruence. by apply Hfr. }
    intros σ' Hok' Hp Htk Hout Hseg Hm. cbn in Hp.
    assert (Hs : sigs σ' !! a = Some (ERTS_INIT_MESSAGE <| s_next := head l |>)).
    { rewrite Hout by done. cbn. by rewrite lookup_insert_eq. }
    apply HQ; [done|done|done| | |].
    + intros b [Hb1 Hb2]%not_elem_of_cons. rewrite Hout by done. cbn. by rewrite lookup_insert_ne.
    + simpl. split; [done|]. exists (head l). split; [unfold snx; by rewrite Hs|done].
    + intros b [->|Hb]%elem_of_cons; [unfold snm; by rewrite Hs|by apply Hm].
Qed.

Lemma wp_send_procs s a l locked busy C pos log taken (Q : list event → sqs → Prop) σ :
  ok σ C pos log taken → (0 ≤ erts_internal_hash s)%Z → NoDup (a :: l) → Forall (λ a, sigs σ !! a = None) (a :: l) →
  (∀ es σ', ok_after log taken es σ' → Q es σ') →
  wp (_ ← alloc_chain (a :: l);
      _ ← erts_queue_proc_messages s locked busy a (end_cell (Next a) l) (Z.of_nat (length (a :: l)));
      mret (sent_if (takes_msgs locked σ) s (with_pending σ (a :: l)))) Q σ.
Proof.
  intros Hok Hh Hnd Hfr HQ. wp_step. eapply wp_alloc_chain; [done..|].
  intros σ1 Hok1 Hp Htk Hout Hseg Hm.
  assert (Hfree : ∀ b, b ∈ a :: l → (b ∉ log.*2) ∧ (∀ r, b ∉ C r) ∧ (∀ p, pending_signal σ = Some p → p ≠ b)).
  { intros b Hb. rewrite Forall_forall in Hfr. eapply ok_free; [done|by apply Hfr]. }
  wp_step. unfold erts_queue_proc_messages. eapply wp_mono; [|intros n σ2 H; wp_step; exact H]. rewrite <- Htk.
  replace (with_pending σ (a :: l)) with (with_pending σ1 (a :: l)) by (unfold with_pending; by rewrite Hp).
  eapply wp_send_prepended; [done|done| |intros b Hb; by apply Hfree|done].
  constructor; [|done| |].
  - constructor; [done|done|intros c; apply end_cell_cons| |done|].
    + rewrite Hm by left. done.
    + intros b Hb _. simpl. lia.
  - intros r b Hb Hbl. by apply (Hfree b Hbl) in Hb.
  - intros p. rewrite Hp. intros Hpe Hpl. by apply (Hfree p Hpl) in Hpe.
Qed.

(** Signals that are not messages. *)
Lemma ok_sent_nm s sig l ff C pos log taken σ1 σ :
  ok σ1 C pos log taken → (0 ≤ erts_internal_hash s)%Z → nm_post s σ1 C pos sig l ff σ → NoDup l →
  (∀ b, b = sig ∨ b ∈ l → b ∉ log.*2) → ok_after log taken (sent_if (takes_signals ff σ1) s l) σ.
Proof.
  intros Hok Hh [Hq Hct Hp] Hnd Hl. eapply ok_sent; [done|done|done|by auto|].
  destruct Hok as [Hiv Hlg]. split_and!; [done| | |].
  - intros p Hpp. right; right. by apply Hp.
  - intros a Ha. eapply sct_dom; [apply Hct|by apply Hlg].
  - intros p Hpp. destruct (Hp p Hpp) as (_ & [->|Hpe]); [by auto|by apply Hlg].
Qed.

Lemma wp_send_signal s p ff monitor normal busy C pos log taken (Q : list event → sqs → Prop) σ :
  ok σ C pos log taken → (0 ≤ erts_internal_hash s)%Z → sigs σ !! p = None →
  (∀ es σ', ok_after log taken es σ' → Q es σ') →
  wp (_ ← alloc_msg p (ERTS_INIT_MESSAGE <| s_nmsg := true |>);
      _ ← proc_queue_signal s p ff monitor normal busy;
      mret (sent_if (takes_signals ff σ) s (nm_sent (pending_signal σ) p monitor normal))) Q σ.
Proof.
  intros Hok Hh Hp HQ. wp_step. apply wp_modify. destruct (ok_free _ _ _ _ _ _ Hok Hp) as (Hl & HC & Hpe).
  pose proof (ok_alloc _ _ _ _ _ p (ERTS_INIT_MESSAGE <| s_nmsg := true |>) Hok Hp ltac:(done)) as Hok0.
  set (σ0 := σ <| sigs ::= _ |>) in *. wp_step.
  assert (Hs : sigs σ0 !! p = Some (ERTS_INIT_MESSAGE <| s_nmsg := true |>)) by (cbn; by rewrite lookup_insert_eq).
  eapply wp_proc_queue_signal; [apply Hok0|done|by rewrite Hs|by unfold snm; rewrite Hs|done| |].
  { cbn. intros Hpp. by destruct (Hpe p Hpp). }
  intros z σ' Hpost. assert (HL : ∀ b, b ∈ nm_sent (pending_signal σ) p monitor normal → b = p ∨ pending_signal σ = Some b).
  { intros b. unfold nm_sent. destruct normal, monitor, (pending_signal σ) as [q|]; set_solver. }
  wp_step. apply HQ. change (takes_signals ff σ) with (takes_signals ff σ0). eapply ok_sent_nm; [exact Hok0|done|exact Hpost| |].
  - unfold nm_sent. destruct normal; [|apply NoDup_singleton].
    destruct monitor, (pending_signal σ) as [q|]; simpl; try apply NoDup_singleton; try apply NoDup_nil_2.
    apply NoDup_cons. split; [|apply NoDup_singleton]. rewrite list_elem_of_singleton. by apply Hpe.
  - intros b Hb. assert (b = p ∨ pending_signal σ = Some b) as [->|Hbp] by (destruct Hb; auto); [done|].
    by apply (lg_pend _ _ _ _ (ok_log _ _ _ _ _ Hok)).
Qed.

(** *** The receiver *)

Lemma all_same C C' : (∀ r, C' r = C r) → all C' = all C.
Proof. intros He. unfold all. rewrite !He. do 2 f_equal. apply outer_ext. intros i. apply He. Qed.

Lemma ok_same σ C σ' pos pos' log taken :
  ok σ C pos log taken → sq_inv σ' C pos' → pending_signal σ' = pending_signal σ →
  (∀ a, sct (sigs σ') a = sct (sigs σ) a) → ok σ' C pos' log taken.
Proof. intros Hok Hiv' Hp Hct. eapply ok_signals; [done..| | |done|done]; [done|]. intros r a Ha. by exists r. Qed.

Lemma ok_recv σ C pos pos' log taken σ' :
  ok σ C pos log taken → recv_ok σ' C pos' → recv_frame σ σ' → ok σ' C pos' log taken.
Proof.
  intros Hok Hr Hf. eapply ok_same; [done| |apply Hf|apply Hf]. eapply sq_inv_recv; [apply Hok|done..].
Qed.

Lemma ok_fetched σ C pos pos' log taken traced σ' :
  ok σ C pos log taken → sq_inv σ' (fetched_queues σ C traced) pos' → pending_signal σ' = pending_signal σ →
  (∀ a, sct (sigs σ') a = sct (sigs σ) a) → ok σ' (fetched_queues σ C traced) pos' log taken.
Proof.
  intros Hok Hiv' Hp Hct. pose proof (ok_inv _ _ _ _ _ Hok) as Hiv.
  eapply ok_signals; [done..| | | |done|done].
  - apply all_fetched; [apply Hiv|by eapply iv_q].
  - intros i a Ha. rewrite fetched_inq in Ha; [by apply elem_of_nil in Ha|apply Hiv|by eapply iv_q].
  - intros r a. apply fetched_in.
Qed.

Lemma ok_flushed σ C pos pos' log taken σ' :
  ok σ C pos log taken → sq_inv σ' (flush_all C) pos' → pending_signal σ' = pending_signal σ →
  (∀ a, sct (sigs σ') a = sct (sigs σ) a) → ok σ' (flush_all C) pos' log taken.
Proof.
  intros Hok Hiv' Hp Hct. pose proof (ok_inv _ _ _ _ _ Hok) as Hiv.
  eapply ok_signals; [done..| | | |done|done].
  - eapply all_flush; [apply Hiv|by eapply iv_q].
  - intros i a Ha. rewrite (flush_all_slot σ) in Ha; [by apply elem_of_nil in Ha|apply Hiv|by eapply iv_q].
  - intros r a Ha. apply flush_all_in in Ha as [(_ & j & _ & Ha)|Ha]; eauto.
Qed.

(** The message at the save position is taken out. *)
Lemma ok_taken σ C pos pos' log taken a σ' :
  ok σ C pos log taken → C RInner !! pos = Some a →
  recv_ok σ' (<[RInner := delete pos (C RInner)]> C) pos' → recv_frame σ σ' →
  ok_after log taken [Taken a] σ'.
Proof.
  intros Hok Ha Hr Hf. eexists _, pos'. cbn. rewrite app_nil_r. destruct Hok as [Hiv Hlg]. constructor.
  - eapply sq_inv_recv; [done..| |].
    + intros i. by apply fn_lookup_insert_ne.
    + intros r b. destruct (decide (r = RInner)) as [->|Hr']; [|by rewrite fn_lookup_insert_ne].
      rewrite fn_lookup_insert. rewrite <- (take_drop_middle _ _ _ Ha) at 2.
      rewrite delete_take_drop, !elem_of_app, elem_of_cons. tauto.
  - eapply log_ok_take; [done|by eapply iv_q|done| |apply Hf]. intros b. apply sct_dom, Hf.
Qed.

Lemma wp_on_current k C pos log taken (Q : list event → sqs → Prop) σ :
  ok σ C pos log taken →
  (C RInner !! pos = None → Q [] σ) → (∀ a, C RInner !! pos = Some a → wp (k a) Q σ) → wp (on_current k) Q σ.
Proof.
  intros Hok Hn Hs. unfold on_current. wp_step. eapply wp_erts_msgq_peek_msg; [apply Hok|].
  destruct (C RInner !! pos) as [a|]; [by apply Hs|]. wp_step. by apply Hn.
Qed.

(** ** Any step, any run *)

Lemma wp_do_op o C pos log taken σ : ok σ C pos log taken → timely o σ = true → wp (do_op o) (ok_after log taken) σ.
Proof.
  intros Hok Hc. pose proof (ok_inv _ _ _ _ _ Hok) as Hiv. pose proof (iv_recv _ _ _ Hiv) as Hrc.
  assert (Hnil : ok_after log taken [] σ) by by eapply ok_after_nil.
  assert (Hsame : ∀ σ' pos', sq_inv σ' C pos' → pending_signal σ' = pending_signal σ →
    (∀ a, sct (sigs σ') a = sct (sigs σ) a) → ok_after log taken [] σ').
  { intros σ' pos' H1 H2 H3. eapply ok_after_nil. by eapply ok_same. }
  unfold do_op, when. wp_step. wp_step.
  destruct o; cbn [timely] in Hc; try apply bool_decide_eq_true in Hc; try (clear Hc; case_decide as Hc; [|by wp_step]).
  - by eapply wp_send_signal; [done|apply erts_internal_hash_nonneg|done|].
  - destruct (pending_signal σ) as [p|] eqn:Hp; [|done]. wp_step.
    eapply wp_erts_proc_sig_send_pending; [done|apply erts_internal_hash_nonneg|done|]. intros z σ' Hpost. wp_step.
    eapply ok_sent_nm; [done|apply erts_internal_hash_nonneg|exact Hpost| |].
    + by apply NoDup_singleton.
    + intros b Hb. assert (b = p) as -> by (destruct Hb as [Hb|Hb%list_elem_of_singleton]; done).
      by apply (lg_pend _ _ _ _ (ok_log _ _ _ _ _ Hok)).
  - by eapply wp_send_proc; [done|apply erts_internal_hash_nonneg|done|].
  - destruct Hc as [Hnd Hfr]. destruct l as [|a l]; [by wp_step|].
    by eapply wp_send_procs; [done|apply erts_internal_hash_nonneg|done..|].
  - by eapply wp_send_loose; [done|apply erts_internal_hash_nonneg|done|done|].
  - by eapply wp_send_loose; [done|apply erts_internal_hash_nonneg|done|done|].
  - wp_step. eapply wp_force_inv; [done|]. intros n σ' Hiv' Hp' Hct. wp_step. by eapply Hsame.
  - wp_step. eapply wp_fetch_inv; [done|]. intros n σ' Hiv' Hp' Hct. wp_step. eapply ok_after_nil. by eapply ok_fetched.
  - wp_step. eapply wp_erts_msgq_set_save_first; [done|]. intros σ' Hr Hf _. wp_step. eapply ok_after_nil. by eapply ok_recv.
  - eapply wp_on_current; [done|done|]. intros a Ha. wp_step.
    eapply wp_erts_msgq_set_save_next; [done|by eapply lookup_lt_Some|]. intros σ' Hr Hf _. wp_step. eapply ok_after_nil. by eapply ok_recv.
  - eapply wp_on_current; [done|done|]. intros a Ha. wp_step.
    eapply wp_erts_msgq_unlink_msg; [done|done|]. intros σ' Hr Hf _. wp_step. by eapply ok_taken.
  - eapply wp_on_current; [done|done|]. intros a Ha. wp_step.
    eapply wp_erts_msgq_unlink_msg_set_save_first; [done|done|]. intros σ' Hr Hf _. wp_step. by eapply ok_taken.
  - destruct Hc as [Hc Hn]. assert (HC : C RCont = []).
    { destruct (qo_rep σ C (iv_q _ _ _ Hiv) RCont eq_refl) as (v & [= <-] & Hr). apply vrep_first in Hr. cbn in Hr.
      rewrite Hc in Hr. by destruct (C RCont). }
    wp_step. eapply wp_end_inv; [done..|]. intros σ' Hiv' Hp' Hct. wp_step. eapply ok_after_nil. by eapply ok_fetched.
  - wp_step. eapply wp_change_inv; [done|done|]. intros r σ' C' Hiv' HC Hp' Hct. wp_step. eapply ok_after_nil.
    destruct HC as [->| ->]; [by eapply ok_same|by eapply ok_flushed].
  - wp_step. eapply wp_move_inv; [done|done|]. intros σ' Hiv' Hp' Hs. wp_step. eapply Hsame; [done..|]. by rewrite Hs.
  - wp_step. apply wp_upd_flgs. wp_step. eapply Hsame; [|done..].
    eapply (sq_inv_frame σ _ C pos ERTS_PSFLG_EXITING); [done..|apply Hrc|apply Hiv].
  - wp_step. apply wp_upd_flgs. wp_step. eapply Hsame; [|done..].
    eapply (sq_inv_frame σ _ C pos ERTS_PSFLG_FREE); [done..|apply Hrc|apply Hiv].
Qed.

Lemma ok_new flgs fs p : prs_ok p → ok (new_process flgs fs p) (λ _, []) 0 [] [].
Proof.
  intros Hp. assert (HC : queues_ok (new_process flgs fs p) (λ _, [])).
  { constructor; [|done|intros r r' a Ha; by apply elem_of_nil in Ha].
    intros r Hr. exists (empty_view r). split; [|apply vrep_empty]. by destruct r as [[|i]| |]. }
  split; split.
  all: try (intros ? a Ha; by apply elem_of_nil in Ha).
  all: try done.
  all: try (by constructor).
  intros a Ha. by apply elem_of_nil in Ha.
Qed.

Lemma wp_run_all ops C pos log taken σ :
  ok σ C pos log taken → orderly ops σ = true → wp (run ops) (ok_after log taken) σ.
Proof.
  revert C pos log taken σ. induction ops as [|o ops IH]; intros C pos log taken σ Hok Hord; cbn [run].
  - wp_step. by eapply ok_after_nil.
  - cbn [orderly] in Hord. apply andb_true_iff in Hord as [Ht Hord]. wp_step.
    pose proof (wp_do_op o _ _ _ _ _ Hok Ht) as Hd. unfold wp in Hd |- *.
    destruct (do_op o σ) as [[es σ1]|]; [|done]. destruct Hd as (C1 & pos1 & Hok1).
    change (wp (es' ← run ops; mret (es ++ es')) (ok_after log taken) σ1). wp_step.
    eapply wp_mono; [by eapply IH|]. intros es' σ2 (C2 & pos2 & Hok2). wp_step. exists C2, pos2.
    unfold sents, takens in *. by rewrite !omap_app, !app_assoc.
Qed.

Lemma run_ok ops flgs fs p :
  prs_ok p → orderly ops (new_process flgs fs p) = true → ∃ es σ, run ops (new_process flgs fs p) = Some (es, σ) ∧
    ∃ C pos, ok σ C pos (sents es) (takens es).
Proof.
  intros Hp Ho. pose proof (wp_run_all ops _ _ _ _ _ (ok_new flgs fs p Hp) Ho) as Hr. unfold wp in Hr.
  destruct (run ops _) as [[es σ]|]; [|done]. exists es, σ. split; [done|]. exact Hr.
Qed.

Lemma run_state ops flgs fs p es σ :
  prs_ok p → orderly ops (new_process flgs fs p) = true → run ops (new_process flgs fs p) = Some (es, σ) → ∃ C pos, ok σ C pos (sents es) (takens es).
Proof.
  intros Hp Ho Hr. destruct (run_ok ops flgs fs p Hp Ho) as (es' & σ' & Hr' & Hok). rewrite Hr in Hr'. by injection Hr' as -> ->.
Qed.

Lemma wp_some {A} (m : SQ A) (Q : A → sqs → Prop) σ : wp m Q σ → ∃ x σ', m σ = Some (x, σ') ∧ Q x σ'.
Proof. unfold wp. destruct (m σ) as [[x σ']|]; [|done]. eauto. Qed.

(** The receiver walks along its inner queue. *)
Lemma wp_scan k C pos σ :
  recv_ok σ C pos → pos + k ≤ length (C RInner) →
  wp (run (replicate k ONext)) (λ es σ', es = [] ∧ recv_ok σ' C (pos + k)) σ.
Proof.
  revert pos σ. induction k as [|k IH]; intros pos σ Hr Hk; cbn [replicate run].
  - wp_step. by rewrite Nat.add_0_r.
  - wp_step. unfold do_op. wp_step. wp_step. unfold on_current. wp_step.
    destruct (lookup_lt_is_Some_2 (C RInner) pos) as [a Ha]; [lia|].
    eapply wp_erts_msgq_peek_msg; [done|]. rewrite Ha. wp_step.
    eapply wp_erts_msgq_set_save_next; [done|lia|]. intros σ1 Hr1 _ _. wp_step. wp_step.
    eapply wp_mono; [apply (IH (S pos)); [done|lia]|]. intros es σ2 [-> Hr2]. wp_step. split; [done|].
    by replace (pos + S k) with (S pos + k) by lia.
Qed.

(** A message that is sent with the queue locked, while messages are on the heap,
    goes to the outer queue, whatever waits in the buffers. *)
Lemma wp_send_past_buffers s busy a msg σ C :
  queues_ok σ C → Z.land (psflgs σ) ERTS_PSFLG_OFF_HEAP_MSGQ = 0%Z → Z.land (psflgs σ) ERTS_PSFLG_EXITING = 0%Z →
  sigs σ !! a = None → fresh C [a] →
  wp (do_op (OSend s true busy a msg))
     (λ es σ', es = [Sent s a] ∧ queues_ok σ' (<[RInq 0 := C (RInq 0) ++ [a]]> C)) σ.
Proof.
  intros HC Hoff Hex Ha Hfr. unfold do_op, when, erts_queue_message, queue_messages, queue_messages_locked.
  unfold erts_proc_sig_queue_try_enqueue_to_buffer, erts_proc_sig_queue_get_buffers, erts_proc_sig_queue_maybe_install_buffers.
  wp_step. wp_step. rewrite decide_True by done. wp_step. apply wp_modify. wp_step. wp_step.
  set (σ1 := σ <| sigs ::= _ |>). apply wp_upd_s; [cbn; by rewrite lookup_insert_eq|]. set (σ2 := σ1 <| sigs ::= _ |>).
  wp_steps. cbn [orb]. wp_steps. rewrite decide_False by (intros Hne; by apply Hne). cbn [negb]. wp_steps.
  assert (∃ f, sigs σ2 !! a = Some f ∧ s_next f = None ∧ s_nmsg f = false) as (f & Hf & Hfx & Hfn).
  { eexists. cbn. by rewrite lookup_alter_eq, lookup_insert_eq. }
  eapply wp_load_s; [exact Hf|]. cbv beta zeta. change (psflgs σ2) with (psflgs σ).
  rewrite decide_False by (intros Hne; by apply Hne). wp_steps. rewrite decide_True by (by left). wp_steps.
  rewrite decide_True by done. rewrite decide_False by (intros Hne; by apply Hne).
  assert (Hnm : snm (sigs σ2) a = false) by (unfold snm; by rewrite Hf).
  assert (HC2 : queues_ok σ2 C).
  { eapply queues_ok_same; [done|by intros [[|i]| |]|by intros [[|i]| |]|]. intros r b Hb. cbn.
    assert (b ≠ a) by (intros ->; by apply (Hfr r a Hb); left). by rewrite lookup_alter_ne, lookup_insert_ne. }
  destruct (queues_ok_inq σ2 C 0 HC2 eq_refl) as (q & Hq & Hrep).
  assert (Hpre : enq_pre σ2 0 q (C (RInq 0)) a (Next a) None 1 (psflgs σ) [a]).
  { constructor; [done..| |by apply Hfr|done]. apply chain_one; [|done]. unfold snx. by rewrite Hf, <- Hfx. }
  wp_steps. eapply wp_LINK_MESSAGE; [exact Hpre|done|]. intros sg' q' Henq.
  rewrite decide_True, Hfn by done. wp_steps. apply wp_notify_premises. wp_steps.
  split; [cbn; by rewrite bool_decide_true|]. eapply queues_ok_enqueued; [exact HC2|done|exact Hpre|done|exact Henq|done..|].
  by intros [[|i]| |].
Qed.

(** ** Properties *)

(** C2: In every orderly run no operation accesses memory out of bounds, and the
    signals that were sent to the process while it took them (a buffer was in use for
    them or the process was not gone) and that the receiver has not taken are in its
    queues exactly once, those of each sender in the order in which they were sent,
    whether they went through a buffer or not; nothing else is there. *)
Theorem signals_keep_order ops flgs fs p :
  prs_ok p → orderly ops (new_process flgs fs p) = true →
  ∃ es σ, run ops (new_process flgs fs p) = Some (es, σ) ∧
    (∀ s, filter (λ a, a ∈ sent_by s (sents es)) (all_signals σ) =
          filter (λ a, a ∉ takens es) (sent_by s (sents es))) ∧
    (∀ a, a ∈ all_signals σ → a ∈ (sents es).*2).
Proof.
  intros Hp Ho. destruct (run_ok ops flgs fs p Hp Ho) as (es & σ & Hr & C & pos & [Hiv Hlg]). exists es, σ.
  rewrite (all_signals_ok σ C) by by eapply iv_q. split_and!; [done|apply Hlg|].
  intros a [r Ha]%all_in. by eapply lg_in.
Qed.

(** C23: After every orderly run, while a signal waits in the outer queue or in a
    buffer, the flag of its kind is set in the state of the process, so that the
    receiver comes to fetch it. *)
Theorem waiting_signals_flagged ops flgs fs p es σ i a :
  prs_ok p → orderly ops (new_process flgs fs p) = true → run ops (new_process flgs fs p) = Some (es, σ) → a ∈ contents σ (RInq i) →
  Z.land (psflgs σ) (if snm (sigs σ) a then ERTS_PSFLG_NMSG_SIG_IN_Q else ERTS_PSFLG_MSG_SIG_IN_Q) ≠ 0%Z.
Proof.
  intros Hp Ho Hr. destruct (run_state _ _ _ _ _ _ Hp Ho Hr) as (C & pos & [Hiv _]).
  rewrite (contents_ok σ C) by by eapply iv_q. intros Ha. destruct (snm (sigs σ) a) eqn:Hn.
  - by eapply iv_nmsg.
  - by eapply iv_msg.
Qed.

(** C17: After every orderly run a fetch succeeds, returns the number of signals in
    the inner queue (those in the middle queue are not counted), leaves no signal in
    the outer queue or a buffer, and keeps all signals in their order; with nothing
    but messages around all of them are in the inner queue then. *)
Theorem fetch_collects ops flgs fs p es σ traced :
  prs_ok p → orderly ops (new_process flgs fs p) = true → run ops (new_process flgs fs p) = Some (es, σ) →
  ∃ σ', erts_proc_sig_fetch traced σ = Some (Z.of_nat (length (contents σ' RInner)), σ') ∧
    (∀ i, contents σ' (RInq i) = []) ∧ all_signals σ' = all_signals σ ∧
    (traced = false → Forall (λ a, snm (sigs σ) a = false) (all_signals σ) → contents σ RCont = [] →
     contents σ' RInner = all_signals σ).
Proof.
  intros Hp Ho Hr. destruct (run_state _ _ _ _ _ _ Hp Ho Hr) as (C & pos & [Hiv _]). pose proof (iv_q _ _ _ Hiv) as HC.
  destruct (wp_some (erts_proc_sig_fetch traced) (λ n σ', n = Z.of_nat (length (fetched_queues σ C traced RInner)) ∧
    queues_ok σ' (fetched_queues σ C traced)) σ) as (n & σ' & He & Hn & Hiv').
  { eapply wp_erts_proc_sig_fetch; [apply Hiv|done|apply Hiv|]. by intros σ' f _ HC' _. }
  exists σ'. rewrite (contents_ok σ' _ RInner Hiv'), He, Hn. rewrite (all_signals_ok σ' _ Hiv'), (all_signals_ok σ C HC).
  split_and!; [done| |apply all_fetched; [apply Hiv|done]|].
  - intros i. rewrite (contents_ok σ' _ _ Hiv'). apply fetched_inq; [apply Hiv|done].
  - intros -> Hm. rewrite (contents_ok σ C) by done. intros Hc. rewrite <- (all_fetched σ C false) by (apply Hiv || done).
    assert (HfC : fetched_queues σ C false RCont = []).
    { unfold fetched_queues, fetch_dest. rewrite decide_True, move_outer_ne; [by rewrite flush_all_other|done..|].
      rewrite flush_all_other by done. split_and!; [done|done|].
      rewrite <- (all_flush σ C) in Hm by (apply Hiv || done). unfold all in Hm. rewrite !Forall_app in Hm.
      rewrite outer_nil in Hm by (intros i; by apply (flush_all_slot σ C i (iv_bufs _ _ _ Hiv))). tauto. }
    unfold all. rewrite HfC, outer_nil by (intros i; apply fetched_inq; [apply Hiv|done]).
    by rewrite fetched_inq, !app_nil_r by (apply Hiv || done).
Qed.

(** C24: After every orderly run, a scan from the first message visits the messages
    of the inner queue one by one: after [k] moves of the save pointer message [k] is
    the current one, and the end of the queue is seen as such. *)
Theorem scan_visits_all ops flgs fs p es σ k :
  prs_ok p → orderly ops (new_process flgs fs p) = true → run ops (new_process flgs fs p) = Some (es, σ) → k ≤ length (contents σ RInner) →
  ∃ σ', run (OFirst :: replicate k ONext) σ = Some ([], σ') ∧ contents σ' RInner = contents σ RInner ∧
    erts_msgq_peek_msg σ' = Some (contents σ RInner !! k, σ').
Proof.
  intros Hp Ho Hr Hk. destruct (run_state _ _ _ _ _ _ Hp Ho Hr) as (C & pos & [Hiv _]). pose proof (iv_q _ _ _ Hiv) as HC.
  rewrite (contents_ok σ C) in * by done.
  destruct (wp_some (run (OFirst :: replicate k ONext)) (λ es σ', es = [] ∧ recv_ok σ' C k) σ) as (es' & σ' & He & -> & Hr').
  { cbn [run]. wp_step. unfold do_op. wp_step. wp_step. wp_step.
    eapply wp_erts_msgq_set_save_first; [apply Hiv|]. intros σ1 Hr1 _ _. wp_step. wp_step.
    eapply wp_mono; [by apply (wp_scan k C 0)|]. intros es2 σ2 [-> Hr2]. by wp_step. }
  exists σ'. split_and!; [done|by apply contents_ok, Hr'|].
  destruct (wp_some erts_msgq_peek_msg (λ p σ2, p = C RInner !! k ∧ σ2 = σ') σ') as (q & σ2 & He2 & -> & ->); [|done].
  by eapply wp_erts_msgq_peek_msg.
Qed.

(** C36: When a change to off heap ends after the process has taken it back, while
    senders use buffers again ([timely] is false), a message that is sent with the
    queue locked gets in front of everything that waits in the buffers, that is of
    earlier messages of the same sender too. *)
Theorem change_back_overtakes ops flgs fs p es σ s busy a msg :
  prs_ok p → orderly ops (new_process flgs fs p) = true → run ops (new_process flgs fs p) = Some (es, σ) →
  timely OMove σ = false → Z.land (psflgs σ) ERTS_PSFLG_EXITING = 0%Z → sigs σ !! a = None →
  ∃ σ' l1 l2, run [OMove; OSend s true busy a msg] σ = Some ([Sent s a], σ') ∧ all_signals σ' = l1 ++ a :: l2 ∧
    ∀ i b, b ∈ contents σ (RInq (S i)) → b ∈ l2.
Proof.
  intros Hp Ho Hr Ht Hex Ha. destruct (run_state _ _ _ _ _ _ Hp Ho Hr) as (C & pos & Hok).
  pose proof (iv_q _ _ _ (ok_inv _ _ _ _ _ Hok)) as HC. destruct (ok_free _ _ _ _ _ _ Hok Ha) as (_ & HaC & _).
  apply bool_decide_eq_false in Ht. set (C' := <[RInq 0 := C (RInq 0) ++ [a]]> C).
  destruct (wp_some (run [OMove; OSend s true busy a msg]) (λ es σ', es = [Sent s a] ∧ queues_ok σ' C') σ)
    as (es' & σ' & Hrun & -> & HC').
  { cbn [run]. wp_step. unfold do_op at 1, move_msgq_off_heap_state. wp_step. wp_step. wp_step. wp_step. apply wp_get_qs. wp_step.
    rewrite decide_True by (apply dec_stable; intros Hn; apply Ht; by left). apply wp_upd_flgs. apply wp_upd_qs. wp_step.
    wp_step. wp_step. eapply wp_mono.
    { apply (wp_send_past_buffers s busy a msg _ C); [eapply queues_ok_same; [done|by intros [[|i]| |]..|done]| | |done|].
      - change (Z.land (Z.land (psflgs σ) (Z.lnot ERTS_PSFLG_OFF_HEAP_MSGQ)) ERTS_PSFLG_OFF_HEAP_MSGQ = 0%Z).
        rewrite <- Z.land_assoc. apply Z.land_0_r.
      - change (Z.land (Z.land (psflgs σ) (Z.lnot ERTS_PSFLG_OFF_HEAP_MSGQ)) ERTS_PSFLG_EXITING = 0%Z).
        by rewrite land_lnot_other.
      - intros r b Hb ->%list_elem_of_singleton. by apply (HaC r). }
    intros es1 σ1 [-> HC1]. wp_step. wp_step. wp_step. by split. }
  exists σ', (C RInner ++ C RCont ++ C (RInq 0)), (concat ((λ i, C (RInq (S i))) <$> seq 0 ERTS_PROC_SIG_INQ_BUFFERED_NR_OF_BUFFERS)).
  split; [done|]. rewrite (all_signals_ok σ' C') by done. split.
  - unfold all, outer, C'. rewrite fn_lookup_insert, !fn_lookup_insert_ne by done. rewrite <- !app_assoc. do 4 f_equal.
  - intros i b. rewrite (contents_ok σ C) by done. intros Hb. apply list_elem_of_In, in_concat. exists (C (RInq (S i))).
    split; [|by apply list_elem_of_In]. apply list_elem_of_In, list_elem_of_fmap. exists i. split; [done|]. apply elem_of_seq.
    assert (live σ (RInq (S i)) = true) as Hl.
    { destruct (live σ (RInq (S i))) eqn:Hl; [done|]. rewrite (qo_dead _ _ HC _ Hl) in Hb. by apply elem_of_nil in Hb. }
    pose proof (bo_range _ (iv_bufs _ _ _ (ok_inv _ _ _ _ _ Hok)) i Hl). lia.
Qed.

(** C35: With all markers in use and a cleared one among them, when the search for a
    marker to reuse comes first to a marker [x] that is not in the message queue, it
    returns [x] with the index of the least recently allocated marker, another one.
    If [x] was never in the message queue, the link through which it is then removed
    from there was never set: the behaviour is undefined. *)
Theorem reuse_takes_wrong_marker ops b (l1 : list Z) x (l2 : list Z) :
  run_blk ops None = Some (tt, Some b) → (free_ix b < 0)%Z → unused b ≠ 0%Z → in_use b = used_ix b :: l1 ++ x :: l2 →
  Forall (λ y, in_queue b y ∧ mref b y ≠ Some (Immed am_undefined)) (used_ix b :: l1) → not_in_queue b x →
  ∃ b', reuse_select (Some b) = Some (Some (x, used_ix b), Some b') ∧ x ≠ used_ix b ∧
    ∀ m σ, at_ix (blk_marker b) x = Some m → prev_next m = None → recv_mrk_blk (qs σ) = Some b → recv_marker_reuse σ = None.
Proof.
  intros Hrun Hf Hun Hiu Hl Hx. destruct (reuse_select_stops ops b l1 x l2 Hrun Hf Hun Hiu Hl Hx) as (b' & Hs & Hne & Hm').
  exists b'. split_and!; [done|done|]. intros m σ Hm Hp Hb. rewrite Hm in Hm'.
  assert (Hob : on_block reuse_select σ = Some (Some (x, used_ix b), σ <| qs ::= λ y, y <| recv_mrk_blk := Some b' |> |>)).
  { unfold on_block. by rewrite Hb, Hs. }
  unfold recv_marker_reuse. unfold mbind, M_bind at 1. rewrite Hob. unfold mbind, M_bind at 1.
  assert (Hld : ∀ σ2, recv_mrk_blk (qs σ2) = Some b' → ∃ σ3, on_block (load_m x) σ2 = Some (m, σ3)).
  { intros σ2 Hb2. unfold on_block. rewrite Hb2. change (load_m x (Some b')) with (deref (at_ix (blk_marker b') x) (Some b')).
    rewrite Hm'. eexists. reflexivity. }
  destruct (Hld (σ <| qs ::= λ y, y <| recv_mrk_blk := Some b' |> |>)) as [σ3 Hσ3]; [by destruct σ as [? ? ? ? ? []]|]. rewrite Hσ3.
  unfold M_bind at 1. destruct (marker_sig x σ3) as [[sigp σ4]|]; [|done]. by rewrite Hp.
Qed.

End run.

(** ** Concrete runs *)

Module SigSample.

#[local] Instance hash : TermHash := {
  erts_internal_hash := Z.abs;
  erts_internal_hash_nonneg := Z.abs_nonneg
}.
#[local] Existing Instance MarkSample.atoms.

(** A process with one premise. *)
Definition premises : prs :=
  mkPrs (Some 1%positive) {[1%positive := mkErtsPremise 0 None 0 THE_NON_VALUE None 0 None]} pon_stats_zero.

Lemma premises_ok : prs_ok premises.
Proof.
  exists [1%positive]. split_and!; [by vm_compute; eauto|apply NoDup_singleton|].
  intros a. rewrite list_elem_of_singleton. cbn. rewrite lookup_singleton_is_Some. naive_solver.
Qed.

Definition ops : list op :=
  [OForceBuffers; OSendProc 1 false false 10 100; OSendProc 2 false true 11 100; OSendProc 1 true false 12 5;
   OSend 1 false false 13 1; OFetch false; OFirst; ONext; OTake; OSendProc 65 false false 14 9; OSignal 1 false true true false 20;
   OSendProc 1 false false 15 9; OSendProcs 2 false false [16; 17; 18]%positive].

Definition start : sqs := new_process ERTS_PSFLG_OFF_HEAP_MSGQ FS_OFF_HEAP_MSGQ premises.

Definition final (f : sqs → bool) : bool := match run ops start with Some (_, σ) => f σ | None => false end.

Lemma final_run f : final f = true → ∃ es σ, run ops start = Some (es, σ) ∧ f σ = true.
Proof. unfold final. destruct (run ops start) as [[es σ]|]; [|done]. eauto. Qed.

Lemma start_orderly : orderly ops start = true.
Proof. vm_compute. reflexivity. Qed.

Lemma signals_keep_order_witness :
  prs_ok premises ∧ orderly ops start = true ∧ ∃ es σ, run ops start = Some (es, σ) ∧
    (∀ s, filter (λ a, a ∈ sent_by s (sents es)) (all_signals σ) =
          filter (λ a, a ∉ takens es) (sent_by s (sents es))) ∧
    (∀ a, a ∈ all_signals σ → a ∈ (sents es).*2).
Proof.
  split; [apply premises_ok|]. split; [apply start_orderly|].
  apply (signals_keep_order ops ERTS_PSFLG_OFF_HEAP_MSGQ FS_OFF_HEAP_MSGQ premises);
    [apply premises_ok|apply start_orderly].
Defined.

Lemma waiting_signals_flagged_witness :
  ∃ es σ, run ops start = Some (es, σ) ∧ 20%positive ∈ contents σ (RInq 2) ∧
    Z.land (psflgs σ) (if snm (sigs σ) 20%positive then ERTS_PSFLG_NMSG_SIG_IN_Q else ERTS_PSFLG_MSG_SIG_IN_Q) ≠ 0%Z.
Proof.
  destruct (final_run (λ σ, bool_decide (20%positive ∈ contents σ (RInq 2)))) as (es & σ & Hr & Hb);
    [vm_compute; reflexivity|]. apply bool_decide_eq_true in Hb. exists es, σ. split; [exact Hr|]. split; [exact Hb|].
  apply (waiting_signals_flagged ops ERTS_PSFLG_OFF_HEAP_MSGQ FS_OFF_HEAP_MSGQ premises es σ 2);
    [apply premises_ok|apply start_orderly|exact Hr|exact Hb].
Defined.

Lemma fetch_collects_witness :
  ∃ es σ σ', run ops start = Some (es, σ) ∧ all_signals σ ≠ [] ∧
    erts_proc_sig_fetch false σ = Some (Z.of_nat (length (contents σ' RInner)), σ') ∧ all_signals σ' = all_signals σ.
Proof.
  destruct (final_run (λ σ, bool_decide (all_signals σ ≠ []))) as (es & σ & Hr & Hb); [vm_compute; reflexivity|].
  apply bool_decide_eq_true in Hb.
  destruct (fetch_collects ops ERTS_PSFLG_OFF_HEAP_MSGQ FS_OFF_HEAP_MSGQ premises es σ false premises_ok start_orderly Hr)
    as (σ' & Hf & _ & Ha & _).
  exists es, σ, σ'. split; [exact Hr|]. split; [exact Hb|]. split; [exact Hf|exact Ha].
Defined.

Lemma scan_visits_all_witness :
  ∃ es σ σ', run ops start = Some (es, σ) ∧ run [OFirst; ONext; ONext] σ = Some ([], σ') ∧
    erts_msgq_peek_msg σ' = Some (contents σ RInner !! 2, σ').
Proof.
  destruct (final_run (λ σ, bool_decide (2 ≤ length (contents σ RInner)))) as (es & σ & Hr & Hb); [vm_compute; reflexivity|].
  apply bool_decide_eq_true in Hb.
  destruct (scan_visits_all ops ERTS_PSFLG_OFF_HEAP_MSGQ FS_OFF_HEAP_MSGQ premises es σ 2 premises_ok start_orderly Hr Hb)
    as (σ' & Hs & _ & Hp).
  exists es, σ, σ'. split; [exact Hr|]. split; [exact Hs|exact Hp].
Defined.

(** *** Changing the management of the queue back and forth *)

(** On heap, off heap, on heap again; then senders contend for the lock until
    buffers are installed, and sender 1 sends 100. *)
Definition back_and_forth : list op :=
  [OChange am_off_heap; OChange am_on_heap] ++
  ((λ i, OSendProc 2 false true (Pos.of_nat (i + 1000)) 0) <$> seq 0 51) ++ [OSendProc 1 false false 100 0].

(** The message 101 of sender 1 gets in front of its message 100. *)
Lemma change_back_overtakes_witness :
  ∃ es σ σ' l1 l2, run back_and_forth (new_process 0 FS_ON_HEAP_MSGQ premises) = Some (es, σ) ∧
    Sent 1 100 ∈ es ∧ run [OMove; OSend 1 true false 101 0] σ = Some ([Sent 1 101], σ') ∧
    all_signals σ' = l1 ++ 101%positive :: l2 ∧ 100%positive ∈ l2.
Proof.
  destruct (run back_and_forth (new_process 0 FS_ON_HEAP_MSGQ premises)) as [[es σ]|] eqn:Hr.
  2: { exfalso. revert Hr. vm_compute. discriminate. }
  assert (Hc : match run back_and_forth (new_process 0 FS_ON_HEAP_MSGQ premises) with
    | Some (es, σ) => bool_decide (Sent 1 100 ∈ es ∧ timely OMove σ = false ∧ Z.land (psflgs σ) ERTS_PSFLG_EXITING = 0%Z ∧
        sigs σ !! 101%positive = None ∧ 100%positive ∈ contents σ (RInq (S (slot_of 1))))
    | None => false end = true) by (vm_compute; reflexivity).
  rewrite Hr in Hc. apply bool_decide_eq_true in Hc. destruct Hc as (Hs & Ht & Hx & Hf & Hb).
  assert (Ho : orderly back_and_forth (new_process 0 FS_ON_HEAP_MSGQ premises) = true) by (vm_compute; reflexivity).
  destruct (change_back_overtakes back_and_forth 0 FS_ON_HEAP_MSGQ premises es σ 1 false 101 0 premises_ok Ho Hr Ht Hx Hf)
    as (σ' & l1 & l2 & Hrun & Hall & Hl2).
  exists es, σ, σ', l1, l2. split; [reflexivity|]. split; [exact Hs|]. split; [exact Hrun|]. split; [exact Hall|].
  apply Hl2 with (1 := Hb).
Defined.

(** *** Receive markers *)

(** A message in the inner queue and a marker behind it; then a signal that is not a
    message and seven markers behind it, of which one is cleared. *)
Definition nine_markers : SQ unit :=
  _ ← run [OSendProc 1 false false 10 100];
  _ ← erts_msgq_recv_marker_insert false false;
  _ ← run [OSignal 2 false false true false 20];
  ids ← mapM (λ _, erts_msgq_recv_marker_insert false false) (seq 1 7);
  id ← deref (mjoin (ids !! 3));
  on_block (erts_msgq_recv_marker_clear id).

(** A marker that is bound to a reference lets a receive skip what was in the queue
    before; it goes with the last message in front of it. *)
Definition skipping_receive : SQ (list (option positive)) :=
  let ref := Words (make_header 3 TAG_HEADER_REF) [1; 2; 3]%Z in
  _ ← run [OSendProc 1 false false 10 100; OSendProc 1 false false 11 100];
  o ← erts_msgq_recv_marker_insert false false;
  id ← deref o;
  _ ← on_block (erts_msgq_recv_marker_bind id ref);
  _ ← run [OSendProc 1 false false 5 100; OSendProc 1 false false 6 100; OFetch false];
  _ ← erts_msgq_recv_marker_set_save ref;
  a ← erts_msgq_peek_msg;
  _ ← erts_msgq_set_save_next;
  b ← erts_msgq_peek_msg;
  _ ← erts_msgq_unlink_msg_set_save_first 6;
  _ ← on_block (erts_msgq_recv_marker_clear ref);
  _ ← erts_msgq_unlink_msg_set_save_first 10;
  _ ← erts_msgq_unlink_msg_set_save_first 11;
  c ← erts_msgq_peek_msg;
  mret [a; b; c].

Example skipping_receive_skips :
  match skipping_receive start with
  | Some (l, σ) => l = [Some 5; Some 6; Some 5]%positive ∧ all_signals σ = [5%positive] ∧ recv_mrk_blk (qs σ) = None
  | None => False
  end.
Proof. vm_compute. done. Qed.

(** The whole of it: the next marker to be inserted is reused that way. *)
Example nine_markers_stuck :
  match nine_markers start with
  | Some (_, σ) => erts_msgq_recv_marker_insert false false σ = None
  | None => False
  end.
Proof. vm_compute. done. Qed.

(** The block of [nine_markers]. *)
Definition nine_ops : list blk_op :=
  let uniq i := Immed (make_small (i - 2 ^ 59))%Z in
  ((λ i, BAlloc 11 (uniq i)) <$> seqZ 0 8) ++
  ((λ i, BQueue i (if decide (i = 0)%Z then Some (Next 10) else None) 0 false false 1 (bool_decide (i = 0)%Z)) <$> seqZ 0 8) ++
  [BClear (uniq 4%Z)].

Lemma reuse_takes_wrong_marker_witness :
  ∃ σ b b', nine_markers start = Some (tt, σ) ∧ recv_mrk_blk (qs σ) = Some b ∧
    reuse_select (Some b) = Some (Some (1, 0)%Z, Some b') ∧ recv_marker_reuse σ = None.
Proof.
  destruct (nine_markers start) as [[[] σ]|] eqn:Hn; [|vm_compute in Hn; discriminate Hn].
  destruct (recv_mrk_blk (qs σ)) as [b|] eqn:Hb; [|vm_compute in Hn; injection Hn as <-; vm_compute in Hb; discriminate Hb].
  assert (Hc : run_blk nine_ops None = Some (tt, Some b) ∧ free_ix b = (-1)%Z ∧ unused b = 1%Z ∧ used_ix b = 0%Z ∧
    in_use b = 0%Z :: [] ++ 1%Z :: [2; 3; 4; 5; 6; 7]%Z ∧ (in_msgq <$> at_ix (blk_marker b) 0 = Some true) ∧
    at_ix (blk_ref b) 0 ≠ Some (Immed am_undefined) ∧ (λ m, (in_msgq m, prev_next m)) <$> at_ix (blk_marker b) 1 = Some (false, None)).
  { vm_compute in Hn. injection Hn as <-. vm_compute in Hb. injection Hb as <-. vm_compute. split_and!; done. }
  destruct Hc as (Hrun & Hf & Hun & Hu & Hiu & Hq0 & Hr0 & Hm1).
  apply fmap_Some in Hq0 as (m0 & Hm0 & Hq0). apply fmap_Some in Hm1 as (m1 & Hm1 & Hq1). injection Hq1 as Hq1 Hp1.
  destruct (reuse_takes_wrong_marker nine_ops b [] 1%Z [2; 3; 4; 5; 6; 7]%Z Hrun) as (b' & Hs & _ & Hstuck).
  - rewrite Hf. lia.
  - rewrite Hun. lia.
  - rewrite Hu. exact Hiu.
  - rewrite Hu. constructor; [|constructor]. split; [exists m0; by split|exact Hr0].
  - exists m1. by split.
  - exists σ, b, b'. split; [done|]. split; [exact Hb|]. rewrite Hu in Hs. split; [exact Hs|].
    apply (Hstuck m1); [exact Hm1|by rewrite <- Hp1|exact Hb].
Defined.

End SigSample.
