(* ===== verification/BigDigit.v ===== *)
(** Digits and digit vectors of the bignum arithmetic of
    [erts/emulator/beam/big.c] and [big.h], in the 64-bit build with GNU C,
    where [ErtsDigit] is a 64-bit word and [ErtsDoubleDigit] a 128-bit one.

    A pointer to digits with its length is the list of the digits, least
    significant first. A routine reads each digit of its operands before it
    writes the digit of the result at the same index, so that the result may
    share the memory of an operand, as the callers have it. *)

From S2P Require Import Prelude.
From stdpp Require Import base numbers list.
From Stdlib Require Import ZArith Lia.

#[local] Open Scope Z_scope.

(** ** Digits *)

Definition D_EXP : Z := 64.
Definition D_BASE : Z := 2 ^ D_EXP.
Definition D_MASK : Z := u64 (-1).

Definition digit (d : Z) : Prop := 0 ≤ d < D_BASE.

(** [DLOW] and [DHIGH] of a double digit. *)
Definition DLOW (x : Z) : Z := u64 x.
Definition DHIGH (x : Z) : Z := u64 (Z.shiftr x D_EXP).
Definition DLOW2HIGH (x : Z) : Z := wrapu 128 (Z.shiftl x D_EXP).
Definition DDIGIT (a1 a0 : Z) : Z := wrapu 128 (DLOW2HIGH a1 + a0).

(** The value of a C comparison. *)
Definition cbool (b : bool) : Z := if b then 1 else 0.

(** A macro that assigns to two of its arguments returns both: the digit
    first, then the carry or borrow. *)
Definition DSUMc (a b c : Z) : Z * Z :=
  let t := wrapu 128 (a + b + c) in (DLOW t, DHIGH t).

Definition DSUB (a b : Z) : Z * Z :=
  let xr := a in
  let yr := b in
  let yr := u64 (xr - yr) in
  (yr, cbool (xr <? yr)).

Definition DSUBb (a b r : Z) : Z * Z :=
  let cr := r in
  let xr := a in
  let yr := u64 (b + cr) in
  let cr := cbool (yr <? cr) in
  let yr := u64 (xr - yr) in
  let cr := u64 (cr + cbool (xr <? yr)) in
  (yr, cr).

Definition DMULc (a b c : Z) : Z * Z :=
  let t := wrapu 128 (a * b + c) in (DLOW t, DHIGH t).

Definition DMUL (a b : Z) : Z * Z :=
  let t := wrapu 128 (a * b) in (DLOW t, DHIGH t).

(** The quotient is a double digit, stored in a digit. *)
Definition DDIV (a1 a0 b : Z) : Z := u64 (DDIGIT a1 a0 / b).
Definition DDIV2 (a1 a0 b1 b0 : Z) : Z := u64 (DDIGIT a1 a0 / DDIGIT b1 b0).

Definition dnot (d : Z) : Z := u64 (Z.lnot d).

(** ** Vectors *)

Fixpoint dval (x : list Z) : Z :=
  match x with
  | [] => 0
  | d :: x => d + D_BASE * dval x
  end.

Abbreviation digits := (Forall digit).
Abbreviation dpow n := (D_BASE ^ Z.of_nat n).

(** [x[i]]; the model reads only indices below the length. *)
Definition dnth (x : list Z) (i : nat) : Z := nth i x 0.

(** Scanning down from the most significant digit over zeros, to the first
    digit at most: the loop that decrements [r] while [*r == 0] and [r != r0]. *)
Fixpoint drop_zeros (l : list Z) : list Z :=
  match l with
  | d :: (_ :: _) as l' => if d =? 0 then drop_zeros l' else l
  | _ => l
  end.
Definition trim (r : list Z) : list Z := rev (drop_zeros (rev r)).

(** [I_is_normalized], for vectors that are not empty. *)
Definition I_is_normalized (x : list Z) : bool :=
  (length x =? 0)%nat || negb (dnth x (length x - 1) =? 0)
  || ((length x =? 1)%nat && (dnth x 0 =? 0)).

(** A vector as the routines take it, and one in normal form. *)
Definition vec (x : list Z) : Prop := digits x ∧ x ≠ [].
Definition nvec (x : list Z) : Prop := vec x ∧ I_is_normalized x = true.

(** ** Arithmetic of the base *)

Lemma D_BASE_eq : D_BASE = 2 ^ 64.
Proof. done. Qed.
Lemma D_BASE_gt : 16 < D_BASE.
Proof. done. Qed.
Lemma D_BASE_sq : D_BASE * D_BASE = 2 ^ 128.
Proof. done. Qed.
Lemma D_MASK_eq : D_MASK = D_BASE - 1.
Proof. done. Qed.
Lemma u64_base z : u64 z = z mod D_BASE.
Proof. done. Qed.
Lemma dpow_pos n : 0 < dpow n.
Proof. apply Z.pow_pos_nonneg; [done | lia]. Qed.
Lemma dpow_S n : dpow (S n) = D_BASE * dpow n.
Proof. rewrite Nat2Z.inj_succ, Z.pow_succ_r by lia. done. Qed.
Lemma dpow_0 : dpow 0 = 1.
Proof. done. Qed.
Lemma dpow_add n m : dpow (n + m) = dpow n * dpow m.
Proof. rewrite Nat2Z.inj_add, Z.pow_add_r by lia. done. Qed.
Lemma dpow_split n m : (n ≤ m)%nat → dpow m = dpow n * dpow (m - n).
Proof. intros. rewrite <- dpow_add. do 2 f_equal. lia. Qed.
Lemma dpow_sub2 n : (2 ≤ n)%nat → dpow n = dpow (n - 2) * D_BASE * D_BASE.
Proof. intros. rewrite (dpow_split 2 n) by done. rewrite !dpow_S, dpow_0. ring. Qed.
Lemma dpow_mono n m : (n ≤ m)%nat → dpow n ≤ dpow m.
Proof. intros. apply Z.pow_le_mono_r; [done | lia]. Qed.
Lemma dpow_lt n m : (n < m)%nat → dpow n * D_BASE ≤ dpow m.
Proof. intros. rewrite Z.mul_comm, <- dpow_S. by apply dpow_mono. Qed.

#[global] Opaque D_BASE.

Lemma digit_u64 z : digit (u64 z).
Proof. rewrite u64_base. apply Z.mod_pos_bound. pose proof D_BASE_gt. lia. Qed.
Lemma u64_digit z : digit z → u64 z = z.
Proof. intros. rewrite u64_base. by apply Z.mod_small. Qed.
Lemma digit_0 : digit 0.
Proof. split; [done|]. pose proof D_BASE_gt. lia. Qed.
Lemma digit_1 : digit 1.
Proof. split; [done|]. pose proof D_BASE_gt. lia. Qed.
Lemma digit_mask : digit D_MASK.
Proof. rewrite D_MASK_eq. unfold digit. pose proof D_BASE_gt. lia. Qed.
Create HintDb big.
#[export] Hint Resolve digit_u64 digit_0 digit_1 digit_mask : big.

(** Arithmetic on lengths, with the facts about values put aside. *)
Ltac lenlia :=
  repeat match goal with
  | H : context [dval] |- _ => clear H
  | H : context [Z.pow] |- _ => clear H
  | H : context [Z.mul] |- _ => clear H
  end; lia.

(** Vectors built from pieces. *)
Ltac solve_digits :=
  repeat (first [apply Forall_nil_2 | apply Forall_cons; split | apply Forall_app; split]); eauto with big.

(** The two halves of a double digit. *)
Lemma dhigh_dlow t : 0 ≤ t < D_BASE * D_BASE →
  DLOW t = t mod D_BASE ∧ DHIGH t = t / D_BASE ∧ digit (t mod D_BASE) ∧ digit (t / D_BASE).
Proof.
  intros Ht. unfold DLOW, DHIGH, D_EXP. rewrite Z.shiftr_div_pow2, <- D_BASE_eq by done.
  assert (digit (t / D_BASE)).
  { pose proof D_BASE_gt. split; [apply Z.div_pos; lia | apply Z.div_lt_upper_bound; lia]. }
  rewrite (u64_digit (t / D_BASE)) by done. rewrite u64_base. split_and!; try done.
  apply Z.mod_pos_bound. pose proof D_BASE_gt. lia.
Qed.

Lemma split_double t : 0 ≤ t < D_BASE * D_BASE →
  ∃ s c, DLOW t = s ∧ DHIGH t = c ∧ digit s ∧ digit c ∧ s + D_BASE * c = t.
Proof.
  intros Ht. destruct (dhigh_dlow t Ht) as (-> & -> & ? & ?).
  eexists _, _. do 4 (split; [done|]). pose proof D_BASE_gt.
  rewrite (Z.div_mod t D_BASE) at 3 by lia. lia.
Qed.

Lemma wrapu128 t : 0 ≤ t < D_BASE * D_BASE → wrapu 128 t = t.
Proof. intros Ht. apply wrapu_small. by rewrite <- D_BASE_sq. Qed.

Lemma DSUMc_spec a b c s c' : digit a → digit b → digit c → DSUMc a b c = (s, c') →
  digit s ∧ 0 ≤ c' ≤ 2 ∧ s + D_BASE * c' = a + b + c ∧ (c ≤ 1 → c' ≤ 1).
Proof.
  unfold DSUMc. intros Ha Hb Hc. pose proof D_BASE_gt.
  assert (0 ≤ a + b + c < D_BASE * D_BASE) as Ht by (unfold digit in *; nia).
  rewrite wrapu128 by done. destruct (split_double _ Ht) as (u & v & -> & -> & ? & ? & He).
  intros [= <- <-]. unfold digit in *. split_and!; try lia; nia.
Qed.

Lemma DMULc_spec a b c p c' : digit a → digit b → digit c → DMULc a b c = (p, c') →
  digit p ∧ digit c' ∧ p + D_BASE * c' = a * b + c.
Proof.
  unfold DMULc. intros Ha Hb Hc. pose proof D_BASE_gt.
  assert (0 ≤ a * b + c < D_BASE * D_BASE) as Ht by (unfold digit in *; nia).
  rewrite wrapu128 by done. destruct (split_double _ Ht) as (u & v & -> & -> & ? & ? & He).
  intros [= <- <-]. done.
Qed.

Lemma DMUL_spec a b p c' : digit a → digit b → DMUL a b = (p, c') →
  digit p ∧ digit c' ∧ p + D_BASE * c' = a * b.
Proof.
  intros Ha Hb H. rewrite <- (Z.add_0_r (a * b)). apply DMULc_spec; eauto with big.
  unfold DMULc, DMUL in *. by rewrite Z.add_0_r.
Qed.

(** Addition of a carry, as the code writes it. *)
Lemma carry_spec x c : digit x → digit c →
  digit (u64 (x + c)) ∧
  u64 (x + c) + D_BASE * cbool (u64 (x + c) <? c) = x + c.
Proof.
  unfold digit. intros Hx Hc. split; [apply digit_u64|]. rewrite u64_base. pose proof D_BASE_gt.
  destruct (decide (x + c < D_BASE)).
  - rewrite Z.mod_small by lia. rewrite (proj2 (Z.ltb_ge (x + c) c)) by lia. simpl. lia.
  - rewrite <- (Z.mod_unique_pos (x + c) D_BASE 1 (x + c - D_BASE)) by lia.
    rewrite (proj2 (Z.ltb_lt (_) c)) by lia. simpl. lia.
Qed.

Lemma borrow_spec x y : digit x → digit y →
  digit (u64 (x - y)) ∧
  u64 (x - y) - D_BASE * cbool (x <? u64 (x - y)) = x - y.
Proof.
  unfold digit. intros Hx Hc. split; [apply digit_u64|]. rewrite u64_base. pose proof D_BASE_gt.
  destruct (decide (y ≤ x)).
  - rewrite Z.mod_small by lia. rewrite (proj2 (Z.ltb_ge x _)) by lia. simpl. lia.
  - rewrite <- (Z.mod_unique_pos (x - y) D_BASE (-1) (x - y + D_BASE)) by lia.
    rewrite (proj2 (Z.ltb_lt x _)) by lia. simpl. lia.
Qed.

Lemma cbool_range b : 0 ≤ cbool b ≤ 1.
Proof. destruct b; simpl; lia. Qed.

Lemma DSUB_spec a b d r : digit a → digit b → DSUB a b = (d, r) →
  digit d ∧ 0 ≤ r ≤ 1 ∧ d - D_BASE * r = a - b.
Proof.
  unfold DSUB. intros Ha Hb [= <- <-]. destruct (borrow_spec a b Ha Hb).
  split_and!; try done; apply cbool_range.
Qed.

Lemma DSUBb_spec a b r d r' : digit a → digit b → 0 ≤ r ≤ 1 → DSUBb a b r = (d, r') →
  digit d ∧ 0 ≤ r' ≤ 1 ∧ d - D_BASE * r' = a - b - r.
Proof.
  unfold DSUBb. intros Ha Hb Hr. pose proof D_BASE_gt.
  destruct (carry_spec b r) as [Hy Hc]; [done | unfold digit; lia|].
  destruct (borrow_spec a (u64 (b + r)) Ha Hy) as [Hd Hb']. intros [= <- <-].
  set (yr := u64 (b + r)) in *. set (d0 := u64 (a - yr)) in *. clearbody yr d0.
  unfold digit in *. destruct (yr <? r), (a <? d0); cbn [cbool] in *;
    rewrite u64_digit by (unfold digit; lia); lia.
Qed.

Lemma DDIGIT_spec a1 a0 : digit a1 → digit a0 → DDIGIT a1 a0 = a1 * D_BASE + a0.
Proof.
  unfold digit, DDIGIT, DLOW2HIGH, D_EXP. intros H1 H0. pose proof D_BASE_gt.
  rewrite Z.shiftl_mul_pow2, <- D_BASE_eq by done.
  rewrite (wrapu128 (a1 * D_BASE)) by nia. apply wrapu128. nia.
Qed.

Lemma DDIV_spec a1 a0 b : digit a0 → digit b → 0 ≤ a1 < b →
  DDIV a1 a0 b = (a1 * D_BASE + a0) / b ∧ digit (DDIV a1 a0 b).
Proof.
  unfold digit. intros H0 Hb H1. pose proof D_BASE_gt. unfold DDIV.
  rewrite DDIGIT_spec by (unfold digit; lia).
  split; [|apply digit_u64]. apply u64_digit. split; [apply Z.div_pos; nia|].
  apply Z.div_lt_upper_bound; nia.
Qed.

Lemma DDIV2_spec a1 a0 b1 b0 : digit a1 → digit a0 → digit b0 → 0 < b1 ≤ a1 →
  DDIV2 a1 a0 b1 b0 = (a1 * D_BASE + a0) / (b1 * D_BASE + b0) ∧ digit (DDIV2 a1 a0 b1 b0).
Proof.
  unfold digit. intros H1 H0 Hb0 Hb1. pose proof D_BASE_gt. unfold DDIV2.
  rewrite !DDIGIT_spec by (unfold digit; lia).
  split; [|apply digit_u64]. apply u64_digit. split; [apply Z.div_pos; nia|].
  apply Z.div_lt_upper_bound; nia.
Qed.

Lemma dnot_eq d : digit d → dnot d = D_BASE - 1 - d ∧ digit (dnot d).
Proof.
  intros Hd. split; [|apply digit_u64]. unfold dnot, Z.lnot. rewrite u64_base. unfold digit in *.
  symmetry. apply (Z.mod_unique_pos _ _ (-1)); lia.
Qed.

(** ** The value of a vector *)

Lemma dval_cons d x : dval (d :: x) = d + D_BASE * dval x.
Proof. done. Qed.

Lemma dval_app x y : dval (x ++ y) = dval x + dpow (length x) * dval y.
Proof.
  induction x as [|d x IH]; cbn [app dval length]; [rewrite dpow_0; lia|].
  rewrite IH, dpow_S. ring.
Qed.

Lemma dval_bound x : digits x → 0 ≤ dval x < dpow (length x).
Proof.
  induction 1 as [|d x Hd Hx IH]; cbn [dval length]; [rewrite dpow_0; lia|].
  rewrite dpow_S. unfold digit in Hd. pose proof D_BASE_gt. nia.
Qed.

Lemma dval_nonneg x : digits x → 0 ≤ dval x.
Proof. intros. by apply dval_bound. Qed.

Lemma dval_zeros n : dval (replicate n 0) = 0.
Proof. induction n as [|n IH]; cbn [replicate dval]; [done|]. rewrite IH. lia. Qed.

Lemma dval_masks n : dval (replicate n D_MASK) = dpow n - 1.
Proof. induction n as [|n IH]; [done|]. cbn [replicate dval]. rewrite IH, dpow_S, D_MASK_eq. ring. Qed.

Lemma dval_snoc x d : dval (x ++ [d]) = dval x + dpow (length x) * d.
Proof. rewrite dval_app. simpl. f_equal. lia. Qed.

Lemma dval_take_drop n x : (n ≤ length x)%nat → dval x = dval (take n x) + dpow n * dval (drop n x).
Proof. intros. rewrite <- (take_drop n x) at 1. rewrite dval_app, length_take_le by done. done. Qed.

Lemma digits_zeros n : digits (replicate n 0).
Proof. apply Forall_replicate. apply digit_0. Qed.
#[export] Hint Resolve digits_zeros : big.

Lemma digits_take n x : digits x → digits (take n x).
Proof. apply Forall_take. Qed.
Lemma digits_drop n x : digits x → digits (drop n x).
Proof. apply Forall_drop. Qed.
#[export] Hint Resolve digits_take digits_drop : big.

Lemma dval_take_S r k : (k < length r)%nat → dval (take (S k) r) = dval (take k r) + dpow k * dnth r k.
Proof.
  intros Hk. unfold dnth. rewrite <- (take_drop k r) at 3. rewrite app_nth2 by (rewrite length_take; lia).
  rewrite length_take. replace (k - k `min` length r)%nat with 0%nat by lia.
  replace (S k) with (k + 1)%nat by lia. rewrite <- take_take_drop, dval_app, length_take.
  replace (k `min` length r)%nat with k by lia. do 2 f_equal.
  pose proof (length_drop r k). destruct (drop k r); simpl in *; [lia|]. cbn. lia.
Qed.

(** Digits that differ by a multiple of the base are equal. *)
Lemma digit_congr x y k : digit x → digit y → x - y = D_BASE * k → x = y.
Proof.
  unfold digit. intros. destruct (Z.lt_trichotomy k 0) as [|[->|]]; [nia|lia|nia].
Qed.

(** Equal values of vectors of one length are equal vectors. *)
Lemma dval_inj x y : digits x → digits y → length x = length y → dval x = dval y → x = y.
Proof.
  intros Hx. revert y. induction Hx as [|d x Hd Hx IH]; intros [|e y] Hy; try done.
  intros [= Hl] He. inversion Hy as [|?? He' Hy']; subst. cbn [dval] in He. unfold digit in *.
  assert (dval x = dval y) as E by (destruct (Z.lt_trichotomy (dval x) (dval y)) as [|[|]]; nia).
  f_equal; [rewrite E in He; lia | by apply IH].
Qed.

(** ** Trimming *)

Lemma drop_zeros_spec l : ∃ n, l = replicate n 0 ++ drop_zeros l ∧
  (l ≠ [] → drop_zeros l ≠ [] ∧ (head (drop_zeros l) ≠ Some 0 ∨ drop_zeros l = [0])).
Proof.
  induction l as [|d l IH]; [by exists 0%nat|]. destruct l as [|e l].
  - exists 0%nat. split; [done|]. intros _. split; [done|]. destruct (decide (d = 0)) as [->|]; [by right|].
    left. simpl. congruence.
  - cbn [drop_zeros]. destruct (Z.eqb_spec d 0) as [->|Hd].
    + destruct IH as (n & He & Hn). exists (S n). cbn [replicate app]. split; [by f_equal|].
      intros _. by apply Hn.
    + exists 0%nat. split; [done|]. intros _. split; [done|]. left. simpl. congruence.
Qed.

Lemma trim_spec r : ∃ n, r = trim r ++ replicate n 0 ∧
  (r ≠ [] → trim r ≠ [] ∧ (last (trim r) ≠ Some 0 ∨ trim r = [0])).
Proof.
  destruct (drop_zeros_spec (rev r)) as (n & He & Hn). exists n. unfold trim. split.
  - rewrite <- (rev_involutive r) at 1. rewrite He at 1. rewrite rev_app_distr. f_equal. clear.
    induction n as [|n IH]; [done|]. cbn [replicate rev]. rewrite IH. symmetry.
    apply replicate_cons_app.
  - intros Hr. destruct Hn as [Hn1 Hn2].
    { intros E. apply Hr. by rewrite <- (rev_involutive r), E. }
    split; [intros E; apply Hn1; by rewrite <- (rev_involutive (drop_zeros _)), E|].
    destruct Hn2 as [Hn2|Hn2]; [left|right; by rewrite Hn2]. intros E. apply Hn2.
    rewrite <- E. clear. destruct (drop_zeros (rev r)) as [|d l]; [done|]. cbn [rev]. by rewrite last_snoc.
Qed.

Lemma trim_dval r : dval (trim r) = dval r.
Proof.
  destruct (trim_spec r) as (n & E & _). rewrite E at 2. rewrite dval_app, dval_zeros. lia.
Qed.

Lemma trim_length r : (length (trim r) ≤ length r)%nat.
Proof. destruct (trim_spec r) as (n & E & _). rewrite E at 2. rewrite length_app. lia. Qed.

Lemma trim_digits r : digits r → digits (trim r).
Proof. destruct (trim_spec r) as (n & E & _). rewrite E at 1. by intros [? _]%Forall_app. Qed.

(** ** Normal form *)

Lemma dnth_last x : x ≠ [] → last x = Some (dnth x (length x - 1)).
Proof.
  induction x as [|d x _] using rev_ind; [done|]. intros _.
  rewrite last_snoc, length_app. simpl. unfold dnth. rewrite app_nth2 by lia.
  replace (length x + 1 - 1 - length x)%nat with 0%nat by lia. done.
Qed.

Lemma is_normalized_last x : x ≠ [] →
  I_is_normalized x = true ↔ last x ≠ Some 0 ∨ x = [0].
Proof.
  intros Hx. rewrite (dnth_last x Hx). unfold I_is_normalized. destruct x as [|d [|e x]]; [done| |].
  - cbn. split; [intros _|by destruct (d =? 0)]. destruct (decide (d = 0)) as [->|]; [by right|].
    left. congruence.
  - cbn [length Nat.eqb orb andb]. rewrite orb_false_r, negb_true_iff, Z.eqb_neq.
    split; [intros H; left; congruence|]. intros [H|H]; [congruence|done].
Qed.

Lemma nvec_last x : nvec x ↔ digits x ∧ x ≠ [] ∧ (last x ≠ Some 0 ∨ x = [0]).
Proof.
  unfold nvec, vec. split; intros H; destruct_and?; split_and!; try done; by apply is_normalized_last.
Qed.

Lemma nvec_vec x : nvec x → vec x.
Proof. by intros [? _]. Qed.
Lemma vec_digits x : vec x → digits x.
Proof. by intros [? _]. Qed.
Lemma vec_length x : vec x → (1 ≤ length x)%nat.
Proof. intros [_ Hx]. destruct x; simpl; [done|lia]. Qed.
#[export] Hint Resolve nvec_vec vec_digits : big.

(** A vector in normal form is zero or fills its length. *)
Lemma nvec_lower x : nvec x → x = [0] ∨ dpow (length x - 1) ≤ dval x.
Proof.
  intros (Hx & Hn & Hl)%nvec_last. destruct Hl as [Hl| ->]; [right|by left].
  induction x as [|d x _] using rev_ind; [done|]. rewrite last_snoc in Hl.
  apply Forall_app in Hx as [Hx [Hd _]%Forall_cons]. rewrite dval_snoc, length_app. simpl.
  replace (length x + 1 - 1)%nat with (length x) by lia. pose proof (dval_bound x Hx).
  unfold digit in Hd. assert (1 ≤ d) by (destruct (decide (d = 0)); [congruence|lia]).
  pose proof (dpow_pos (length x)). nia.
Qed.

Lemma nvec_intro x : digits x → x ≠ [] → dpow (length x - 1) ≤ dval x → nvec x.
Proof.
  intros Hx Hn Hl. apply nvec_last. split_and!; try done. left. intros E.
  induction x as [|d x _] using rev_ind; [done|]. rewrite last_snoc in E. injection E as ->.
  apply Forall_app in Hx as [Hx _]. rewrite dval_snoc, length_app in Hl. simpl in Hl.
  replace (length x + 1 - 1)%nat with (length x) in Hl by lia. pose proof (dval_bound x Hx). lia.
Qed.

Lemma nvec_length_lt x n : nvec x → (length x ≤ S n)%nat ↔ dval x < dpow (S n).
Proof.
  intros Hx. pose proof (vec_length x (nvec_vec x Hx)). split.
  - intros. pose proof (dval_bound x (vec_digits x (nvec_vec x Hx))).
    pose proof (dpow_mono (length x) (S n)). lia.
  - intros Hd. destruct (nvec_lower x Hx) as [->|Hl]; [simpl; lia|].
    destruct (decide (length x ≤ S n)%nat); [done|]. pose proof (dpow_mono (S n) (length x - 1)). lia.
Qed.

Lemma nvec_length_le x n : nvec x → (1 ≤ n)%nat → dval x < dpow n → (length x ≤ n)%nat.
Proof. intros Hx Hn Hd. destruct n as [|n]; [lia|]. by apply nvec_length_lt. Qed.

Lemma nvec_length_inj x y : nvec x → nvec y → dval x = dval y → length x = length y.
Proof.
  intros Hx Hy E. pose proof (vec_length x (nvec_vec x Hx)). pose proof (vec_length y (nvec_vec y Hy)).
  pose proof (nvec_length_lt x (length y - 1) Hx) as [_ H1].
  pose proof (nvec_length_lt y (length x - 1) Hy) as [_ H2].
  replace (S (length y - 1)) with (length y) in H1 by lia.
  replace (S (length x - 1)) with (length x) in H2 by lia.
  pose proof (dval_bound y (vec_digits y (nvec_vec y Hy))).
  pose proof (dval_bound x (vec_digits x (nvec_vec x Hx))). lia.
Qed.

Lemma nvec_inj x y : nvec x → nvec y → dval x = dval y → x = y.
Proof. intros Hx Hy E. apply dval_inj; eauto with big. by apply nvec_length_inj. Qed.

Lemma trim_nvec r : vec r → nvec (trim r).
Proof.
  intros [Hr Hn]. apply nvec_last. destruct (trim_spec r) as (n & _ & H).
  destruct (H Hn) as [? ?]. split_and!; try done. by apply trim_digits.
Qed.
#[export] Hint Resolve trim_nvec : big.

Lemma nvec_trim x : nvec x → trim x = x.
Proof. intros Hx. apply nvec_inj; eauto with big. apply trim_dval. Qed.

Lemma nvec_drop m x : nvec x → (0 < m < length x)%nat → nvec (drop m x).
Proof.
  intros (Hx & Hn & Hl)%nvec_last Hm. destruct Hl as [Hl| ->]; [|simpl in Hm; lia].
  assert (drop m x ≠ []) by (intros E; apply (f_equal length) in E; rewrite length_drop in E; simpl in E; lia).
  apply nvec_last. split_and!; eauto with big. left.
  rewrite <- (take_drop m x), last_app in Hl. destruct (last (drop m x)) eqn:E; [done|].
  by apply last_None in E.
Qed.
