(* ===== verification/BigVec.v ===== *)
(** Comparison, addition and subtraction of digit vectors
    ([erts/emulator/beam/big.c], [I_comp] to [Z_sub], and the fixed-length
    routines [bz_add_n], [bz_sub_n] and [bz_cmp_n]) and what they compute. *)

From S2P Require Import Prelude BigDigit.
From stdpp Require Import base numbers list.
From Stdlib Require Import ZArith Lia.

#[local] Open Scope Z_scope.

(** ** Definitions *)

(** The digits from the top, while they are equal. *)
Fixpoint I_comp_loop (x y : list Z) : Z :=
  match x, y with
  | a :: x, b :: y => if a =? b then I_comp_loop x y else if a <? b then -1 else 1
  | _, _ => 0
  end.

Definition I_comp (x y : list Z) : Z :=
  if (length x <? length y)%nat then -1
  else if (length y <? length x)%nat then 1
  else I_comp_loop (rev x) (rev y).

(** The loop over the digits of both operands: the digits and the carry. *)
Fixpoint add_loop (x y : list Z) (c : Z) : list Z * Z :=
  match x, y with
  | xr :: x, yr :: y =>
      let '(xr, c) := DSUMc xr yr c in
      let '(r, c) := add_loop x y c in
      (xr :: r, c)
  | _, _ => ([], c)
  end.

(** The loop that only carries. *)
Fixpoint carry_loop (x : list Z) (c : Z) : list Z * Z :=
  match x with
  | xr :: x =>
      let xr := u64 (xr + c) in
      let c := cbool (xr <? c) in
      let '(r, c) := carry_loop x c in
      (xr :: r, c)
  | [] => ([], c)
  end.

Definition carry_out (r : list Z) (c : Z) : list Z := if c =? 0 then r else r ++ [1].

(** [xl >= yl], and [yl] is not zero. *)
Definition I_add (x y : list Z) : list Z :=
  let yl := length y in
  let '(r1, c) := add_loop (take yl x) y 0 in
  let '(r2, c) := carry_loop (drop yl x) c in
  carry_out (r1 ++ r2) c.

Definition D_add (x : list Z) (c : Z) : list Z :=
  let '(r, c) := carry_loop x c in carry_out r c.

(** The statements of the body are those of [DSUBb]. *)
Fixpoint sub_loop (x y : list Z) (c : Z) : list Z * Z :=
  match x, y with
  | xr :: x, yr :: y =>
      let '(yr, c) := DSUBb xr yr c in
      let '(r, c) := sub_loop x y c in
      (yr :: r, c)
  | _, _ => ([], c)
  end.

Fixpoint borrow_loop (x : list Z) (c : Z) : list Z * Z :=
  match x with
  | xr :: x =>
      let yr := u64 (xr - c) in
      let c := cbool (xr <? yr) in
      let '(r, c) := borrow_loop x c in
      (yr :: r, c)
  | [] => ([], c)
  end.

(** [I_comp(x, xl, y, yl) >= 0]. *)
Definition I_sub (x y : list Z) : list Z :=
  let yl := length y in
  let '(r1, c) := sub_loop (take yl x) y 0 in
  let '(r2, _) := borrow_loop (drop yl x) c in
  trim (r1 ++ r2).

Definition D_sub (x : list Z) (c : Z) : list Z := trim (fst (borrow_loop x c)).

(** The digits that [Z_sub] stores; its value is the number of those that
    remain when the leading zeros are trimmed. *)
Fixpoint Z_sub_loop (y : list Z) (c : Z) : list Z :=
  match y with
  | yr :: y =>
      let '(yr, c) := DSUBb 0 yr c in yr :: Z_sub_loop y c
  | [] => []
  end.
Definition Z_sub (y : list Z) : list Z * nat :=
  let r := Z_sub_loop y 0 in (r, length (trim r)).

(** The routines on vectors of one length [n]: digits and carry or borrow. *)
Fixpoint bz_add_n (a b : list Z) (c : Z) : list Z * Z :=
  match a, b with
  | ai :: a, bi :: b =>
      let s := u64 (ai + c) in
      let c1 := cbool (s <? c) in
      let s := u64 (s + bi) in
      let c1 := u64 (c1 + cbool (s <? bi)) in
      let '(r, c) := bz_add_n a b c1 in
      (s :: r, c)
  | _, _ => ([], c)
  end.

Fixpoint bz_sub_n (a b : list Z) (borrow : Z) : list Z * Z :=
  match a, b with
  | ai :: a, bi :: b =>
      let yb := u64 (bi + borrow) in
      let b1 := cbool (yb <? borrow) in
      let res := u64 (ai - yb) in
      let b1 := u64 (b1 + cbool (ai <? res)) in
      let '(r, c) := bz_sub_n a b b1 in
      (res :: r, c)
  | _, _ => ([], borrow)
  end.

Fixpoint bz_cmp_loop (a b : list Z) : Z :=
  match a, b with
  | ai :: a, bi :: b => if negb (ai =? bi) then (if ai <? bi then -1 else 1) else bz_cmp_loop a b
  | _, _ => 0
  end.
Definition bz_cmp_n (a b : list Z) : Z := bz_cmp_loop (rev a) (rev b).

(** ** Comparison *)

Definition sgn_comparison (c : comparison) : Z :=
  match c with Lt => -1 | Eq => 0 | Gt => 1 end.

Lemma dval_app_lt x y x' y' : digits x → digits x' → length x = length x' →
  dval y < dval y' → dval (x ++ y) < dval (x' ++ y').
Proof.
  intros Hx Hx' Hl Hy. rewrite !dval_app, <- Hl.
  pose proof (dval_bound x Hx). pose proof (dval_bound x' Hx'). pose proof (dpow_pos (length x)). nia.
Qed.

Lemma comp_loop_spec x y : digits x → digits y → length x = length y →
  I_comp_loop (rev x) (rev y) = sgn_comparison (dval x ?= dval y).
Proof.
  revert y. induction x as [|a x IH] using rev_ind; intros y Hx Hy Hl.
  { destruct y; done. }
  destruct y as [|b y _] using rev_ind; [rewrite length_app in Hl; simpl in Hl; lia|].
  rewrite !length_app in Hl. simpl in Hl. assert (length x = length y) as Hl' by lia.
  apply Forall_app in Hx as [Hx [Ha _]%Forall_cons], Hy as [Hy [Hb _]%Forall_cons].
  rewrite !rev_app_distr. cbn [rev app I_comp_loop].
  destruct (Z.eqb_spec a b) as [->|Hne].
  - rewrite IH by done. rewrite !dval_app, Hl'. rewrite !(Z.add_comm (dval _)). by rewrite Z.add_compare_mono_l.
  - destruct (Z.ltb_spec a b).
    + rewrite (proj2 (Z.compare_lt_iff _ _)); [done|]. apply dval_app_lt; simpl; try done; lia.
    + rewrite (proj2 (Z.compare_gt_iff _ _)); [done|]. apply dval_app_lt; simpl; try done; lia.
Qed.

Lemma I_comp_same x y : digits x → digits y → length x = length y →
  I_comp x y = sgn_comparison (dval x ?= dval y).
Proof.
  intros Hx Hy Hl. unfold I_comp. rewrite Hl, Nat.ltb_irrefl. by apply comp_loop_spec.
Qed.

Lemma bz_cmp_spec x y : digits x → digits y → length x = length y →
  bz_cmp_n x y = sgn_comparison (dval x ?= dval y).
Proof.
  intros Hx Hy Hl. rewrite <- comp_loop_spec by done. unfold bz_cmp_n.
  generalize (rev x), (rev y). clear. intros l. induction l as [|a l IH]; intros [|b l']; try done.
  cbn. rewrite IH. by destruct (a =? b).
Qed.

Lemma nvec_longer x y : nvec x → nvec y → (length x < length y)%nat → dval x < dval y.
Proof.
  intros Hx Hy Hl. pose proof (vec_length x (nvec_vec x Hx)).
  destruct (nvec_lower y Hy) as [->|H2]; [simpl in Hl; lia|].
  pose proof (dval_bound x (vec_digits x (nvec_vec x Hx))).
  pose proof (dpow_mono (length x) (length y - 1)). lia.
Qed.

Lemma I_comp_spec x y : nvec x → nvec y → I_comp x y = sgn_comparison (dval x ?= dval y).
Proof.
  intros Hx Hy. destruct (decide (length x = length y)).
  { apply I_comp_same; eauto with big. }
  unfold I_comp. destruct (Nat.ltb_spec (length x) (length y)).
  - pose proof (nvec_longer x y Hx Hy). by rewrite (proj2 (Z.compare_lt_iff _ _)) by lia.
  - rewrite (proj2 (Nat.ltb_lt _ _)) by lia. pose proof (nvec_longer y x Hy Hx).
    by rewrite (proj2 (Z.compare_gt_iff _ _)) by lia.
Qed.

(** ** Addition *)

Lemma add_loop_spec x y c r c' : digits x → digits y → length x = length y → 0 ≤ c ≤ 1 →
  add_loop x y c = (r, c') →
  digits r ∧ length r = length x ∧ 0 ≤ c' ≤ 1 ∧
  dval r + dpow (length x) * c' = dval x + dval y + c.
Proof.
  intros Hx. revert y c r c'. induction Hx as [|a x Ha Hx IH]; intros [|b y] c r c' Hy Hl Hc; try done; cbn [add_loop sub_loop].
  { intros [= <- <-]. cbn [dval length]. rewrite dpow_0. split_and!; try done; lia. }
  inversion_clear Hy as [|?? Hb Hy']. destruct (DSUMc a b c) as [s k] eqn:Hs.
  apply DSUMc_spec in Hs as (? & ? & ? & ?); [|done..|unfold digit; pose proof D_BASE_gt; lia].
  destruct (add_loop x y k) as [r1 c1] eqn:E. intros [= <- <-].
  apply IH in E as (? & ? & ? & ?); [|done|simpl in Hl; lia|lia].
  split_and!; try lia; [by constructor|simpl; lia|].
  cbn [dval length]. rewrite dpow_S. nia.
Qed.

Lemma carry_loop_spec x c r c' : digits x → digit c → carry_loop x c = (r, c') →
  digits r ∧ length r = length x ∧ digit c' ∧ (x ≠ [] ∨ c ≤ 1 → c' ≤ 1) ∧
  dval r + dpow (length x) * c' = dval x + c.
Proof.
  intros Hx. revert c r c'. induction Hx as [|a x Ha Hx IH]; intros c r c' Hc; cbn [carry_loop].
  { intros [= <- <-]. cbn [dval length]. rewrite dpow_0. split_and!; try done; [by intros [|]|lia]. }
  destruct (carry_spec a c Ha Hc) as [? ?]. pose proof (cbool_range (u64 (a + c) <? c)).
  destruct (carry_loop x _) as [r1 c1] eqn:E. intros [= <- <-].
  apply IH in E as (? & ? & ? & ? & ?); [|unfold digit; pose proof D_BASE_gt; lia].
  split_and!; try done; [by constructor|simpl; lia|intros; apply H5; right; lia|].
  cbn [dval length]. rewrite dpow_S. nia.
Qed.

Lemma carry_out_spec r c : digits r → 0 ≤ c ≤ 1 →
  digits (carry_out r c) ∧ dval (carry_out r c) = dval r + dpow (length r) * c ∧
  (length r ≤ length (carry_out r c) ≤ S (length r))%nat.
Proof.
  intros Hr Hc. unfold carry_out. destruct (Z.eqb_spec c 0) as [->|].
  - split_and!; [done|lia..].
  - assert (c = 1) as -> by lia. rewrite dval_snoc, length_app. simpl. split_and!; try lia.
    apply Forall_app. split; [done|]. constructor; [apply digit_1|done].
Qed.

(** A sum is in normal form when it is at least the longer operand. *)
Lemma carry_out_nvec r c x : digits r → 0 ≤ c ≤ 1 → nvec x → length r = length x →
  dval x ≤ dval (carry_out r c) → nvec (carry_out r c).
Proof.
  intros Hr Hc Hx Hl Hle. destruct (carry_out_spec r c Hr Hc) as (Hd & He & Hk).
  pose proof (vec_length x (nvec_vec x Hx)).
  assert (carry_out r c ≠ []) by (intros E; rewrite E in Hk; simpl in Hk; lia).
  destruct (nvec_lower x Hx) as [->|Hlo].
  - destruct r as [|a [|]]; try done. unfold carry_out in *. destruct (c =? 0).
    + apply nvec_last. split_and!; try done. simpl. destruct (decide (a = 0)) as [->|]; [by right|left; congruence].
    + apply nvec_last. split_and!; try done. by left.
  - unfold carry_out in *. destruct (Z.eqb_spec c 0).
    + apply nvec_intro; try done. rewrite Hl. lia.
    + apply nvec_last. split_and!; try done. left. by rewrite last_snoc.
Qed.

Lemma I_add_spec x y : digits x → digits y → (length y ≤ length x)%nat →
  digits (I_add x y) ∧ dval (I_add x y) = dval x + dval y ∧
  (length x ≤ length (I_add x y) ≤ S (length x))%nat ∧ (nvec x → nvec (I_add x y)).
Proof.
  intros Hx Hy Hl. unfold I_add.
  destruct (add_loop _ _ _) as [r1 c1] eqn:E1. apply add_loop_spec in E1 as (? & Hl1 & ? & He1); eauto with big.
  2: { rewrite length_take; lia. }
  2: lia.
  destruct (carry_loop _ _) as [r2 c2] eqn:E2.
  apply carry_loop_spec in E2 as (? & Hl2 & [? _] & Hc & He2); eauto with big.
  2: { pose proof D_BASE_gt. unfold digit. lia. }
  specialize (Hc (or_intror (proj2 H0))). rewrite length_take_le in * by done. rewrite length_drop in *.
  assert (digits (r1 ++ r2)) by (by apply Forall_app).
  assert (length (r1 ++ r2) = length x) as Hl' by (rewrite length_app; lia).
  destruct (carry_out_spec (r1 ++ r2) c2) as (Hd & He & Hk); [done|lia|].
  assert (dval (carry_out (r1 ++ r2) c2) = dval x + dval y) as Hv.
  { rewrite He, Hl', dval_app, Hl1, (dval_take_drop (length y) x Hl).
    rewrite (dpow_split (length y) (length x)) by done. nia. }
  split_and!; try done; try lia. intros. apply (carry_out_nvec _ _ x); try done; try lia.
  rewrite Hv. pose proof (dval_nonneg y Hy). lia.
Qed.

Lemma D_add_spec x c : vec x → digit c →
  digits (D_add x c) ∧ dval (D_add x c) = dval x + c ∧
  (length x ≤ length (D_add x c) ≤ S (length x))%nat ∧ (nvec x → nvec (D_add x c)).
Proof.
  intros [Hx Hn] Hc. unfold D_add. destruct (carry_loop x c) as [r k] eqn:E.
  apply carry_loop_spec in E as (Hr & Hl & [Hk _] & Hk1 & He); try done. specialize (Hk1 (or_introl Hn)).
  destruct (carry_out_spec r k Hr (conj Hk Hk1)) as (? & Hv & ?). rewrite Hv, Hl, He. split_and!; try done; try lia.
  intros. apply (carry_out_nvec _ _ x); try done. rewrite Hv. unfold digit in Hc. rewrite Hl. lia.
Qed.

(** ** Subtraction *)

Lemma sub_loop_spec x y c r c' : digits x → digits y → length x = length y → 0 ≤ c ≤ 1 →
  sub_loop x y c = (r, c') →
  digits r ∧ length r = length x ∧ 0 ≤ c' ≤ 1 ∧
  dval r - dpow (length x) * c' = dval x - dval y - c.
Proof.
  intros Hx. revert y c r c'. induction Hx as [|a x Ha Hx IH]; intros [|b y] c r c' Hy Hl Hc; try done; cbn [add_loop sub_loop].
  { intros [= <- <-]. cbn [dval length]. rewrite dpow_0. split_and!; try done; lia. }
  inversion_clear Hy as [|?? Hb Hy']. destruct (DSUBb a b c) as [s k] eqn:Hs.
  apply DSUBb_spec in Hs as (? & ? & ?); [|done..].
  destruct (sub_loop x y k) as [r1 c1] eqn:E. intros [= <- <-].
  apply IH in E as (? & ? & ? & ?); [|done|simpl in Hl; lia|lia].
  split_and!; try lia; [by constructor|simpl; lia|].
  cbn [dval length]. rewrite dpow_S. nia.
Qed.

Lemma borrow_loop_spec x c r c' : digits x → digit c → borrow_loop x c = (r, c') →
  digits r ∧ length r = length x ∧ digit c' ∧
  dval r - dpow (length x) * c' = dval x - c.
Proof.
  intros Hx. revert c r c'. induction Hx as [|a x Ha Hx IH]; intros c r c' Hc; cbn [borrow_loop].
  { intros [= <- <-]. cbn [dval length]. rewrite dpow_0. split_and!; try done; lia. }
  destruct (borrow_spec a c Ha Hc) as [? ?]. pose proof (cbool_range (a <? u64 (a - c))).
  destruct (borrow_loop x _) as [r1 c1] eqn:E. intros [= <- <-].
  apply IH in E as (? & ? & ? & ?); [|unfold digit; pose proof D_BASE_gt; lia].
  split_and!; try done; [by constructor|simpl; lia|].
  cbn [dval length]. rewrite dpow_S. nia.
Qed.

(** No borrow is left when the value of the result is not negative. *)
Lemma no_borrow r n c v : digits r → length r = n → 0 ≤ c → dval r - dpow n * c = v → 0 ≤ v →
  c = 0 ∧ dval r = v.
Proof.
  intros Hr <- Hc He Hv. pose proof (dval_bound r Hr). assert (c = 0) as -> by nia. split; [done|lia].
Qed.

Lemma I_sub_spec x y : vec x → digits y → (length y ≤ length x)%nat → dval y ≤ dval x →
  nvec (I_sub x y) ∧ dval (I_sub x y) = dval x - dval y ∧ (length (I_sub x y) ≤ length x)%nat.
Proof.
  intros [Hx Hn] Hy Hl Hle. unfold I_sub.
  destruct (sub_loop _ _ _) as [r1 c1] eqn:E1. apply sub_loop_spec in E1 as (? & Hl1 & ? & He1); eauto with big.
  2: { rewrite length_take; lia. }
  2: lia.
  destruct (borrow_loop _ _) as [r2 c2] eqn:E2.
  apply borrow_loop_spec in E2 as (? & Hl2 & [Hc2 _] & He2); eauto with big.
  2: { pose proof D_BASE_gt. unfold digit. lia. }
  rewrite length_take_le in * by done. rewrite length_drop in *.
  assert (digits (r1 ++ r2)) as Hd by (by apply Forall_app).
  assert (length (r1 ++ r2) = length x) as Hl' by (rewrite length_app; lia).
  destruct (no_borrow (r1 ++ r2) (length x) c2 (dval x - dval y)) as [-> Hv]; try done; [|lia|].
  { rewrite dval_app, Hl1, (dval_take_drop (length y) x Hl).
    rewrite (dpow_split (length y) (length x)) by done. nia. }
  rewrite trim_dval. split_and!; [|done|pose proof (trim_length (r1 ++ r2)); lia].
  apply trim_nvec. split; [done|]. intros E. rewrite E in Hl'. by destruct x.
Qed.

Lemma D_sub_spec x c : vec x → digit c → c ≤ dval x →
  nvec (D_sub x c) ∧ dval (D_sub x c) = dval x - c ∧ (length (D_sub x c) ≤ length x)%nat.
Proof.
  intros [Hx Hn] Hc Hle. unfold D_sub. destruct (borrow_loop x c) as [r k] eqn:E. cbn [fst].
  apply borrow_loop_spec in E as (Hr & Hl & [Hk _] & He); try done.
  destruct (no_borrow r (length x) k (dval x - c)) as [-> Hv]; try done; [lia|].
  rewrite trim_dval. split_and!; [|lia|pose proof (trim_length r); lia].
  apply trim_nvec. split; [done|]. intros ->. by destruct x.
Qed.

Lemma Z_sub_loop_spec y c : digits y → 0 ≤ c ≤ 1 →
  digits (Z_sub_loop y c) ∧ length (Z_sub_loop y c) = length y ∧
  ∃ k, 0 ≤ k ≤ 1 ∧ dval (Z_sub_loop y c) = dpow (length y) * k - dval y - c.
Proof.
  intros Hy. revert c. induction Hy as [|a y Ha Hy IH]; intros c Hc; cbn [Z_sub_loop].
  { split_and!; try done. exists c. cbn. lia. }
  destruct (DSUBb 0 a c) as [s k] eqn:Hs. apply DSUBb_spec in Hs as (? & ? & ?); [|eauto with big..].
  destruct (IH k) as (? & ? & q & Hq & He); [done|].
  split_and!; [by constructor|simpl; lia|]. exists q. split; [done|].
  cbn [dval length]. rewrite dpow_S. nia.
Qed.

(** The complement of a vector that is not zero. *)
Lemma Z_sub_spec y : digits y → 0 < dval y →
  digits (Z_sub_loop y 0) ∧ length (Z_sub_loop y 0) = length y ∧
  dval (Z_sub_loop y 0) = dpow (length y) - dval y.
Proof.
  intros Hy Hp. destruct (Z_sub_loop_spec y 0) as (Hd & Hl & k & Hk & He); [done|lia|].
  split_and!; try done. pose proof (dval_bound _ Hd). assert (k = 0 ∨ k = 1) as [-> | ->] by lia; lia.
Qed.

(** ** Vectors of one length *)

Lemma bz_add_loop x y c : digits x → digits y → 0 ≤ c ≤ 1 → length x = length y →
  bz_add_n x y c = add_loop x y c.
Proof.
  intros Hx. revert y c. induction Hx as [|a x Ha Hx IH]; intros [|b y] c Hy Hc Hl; try done.
  inversion_clear Hy as [|?? Hb Hy']. cbn [bz_add_n add_loop]. pose proof D_BASE_gt.
  assert (digit c) as Hc' by (unfold digit; lia).
  destruct (carry_spec a c Ha Hc') as [H1 E1]. destruct (carry_spec (u64 (a + c)) b H1 Hb) as [H2 E2].
  destruct (DSUMc a b c) as [s k] eqn:Hs. apply DSUMc_spec in Hs as (? & ? & ? & ?); try done.
  set (s0 := u64 (a + c)) in *. set (s1 := u64 (s0 + b)) in *.
  pose proof (cbool_range (s0 <? c)). pose proof (cbool_range (s1 <? b)).
  set (k1 := cbool (s0 <? c)) in *. set (k2 := cbool (s1 <? b)) in *. clearbody s1 s0 k1 k2.
  rewrite (u64_digit (k1 + k2)) by (unfold digit; lia).
  assert (s1 + D_BASE * (k1 + k2) = s + D_BASE * k) by lia.
  assert (k1 + k2 = k) as Ek by (unfold digit in *; destruct (Z.lt_trichotomy (k1 + k2) k) as [|[|]]; nia).
  rewrite Ek in *. replace s1 with s by lia. rewrite IH; try done; [lia|simpl in Hl; lia].
Qed.

(** Its body is that of [DSUBb]. *)
Lemma bz_sub_loop x y c : bz_sub_n x y c = sub_loop x y c.
Proof. done. Qed.

Lemma bz_add_spec x y r c : digits x → digits y → length x = length y → bz_add_n x y 0 = (r, c) →
  digits r ∧ length r = length x ∧ 0 ≤ c ≤ 1 ∧ dval r + dpow (length x) * c = dval x + dval y.
Proof.
  intros Hx Hy Hl. rewrite bz_add_loop by (try done; lia).
  intros E. apply add_loop_spec in E as (? & ? & ? & ?); try done. by rewrite Z.add_0_r in *.
Qed.

Lemma bz_sub_spec x y r c : digits x → digits y → length x = length y → bz_sub_n x y 0 = (r, c) →
  digits r ∧ length r = length x ∧ 0 ≤ c ≤ 1 ∧ dval r - dpow (length x) * c = dval x - dval y.
Proof.
  intros Hx Hy Hl. rewrite bz_sub_loop.
  intros E. apply sub_loop_spec in E as (? & ? & ? & ?); try done. by rewrite Z.sub_0_r in *.
Qed.
