(* ===== verification/BigMul.v ===== *)
(** Multiplication of digit vectors ([erts/emulator/beam/big.c], [I_mul],
    [I_sqr], [I_mul_karatsuba], [D_mul]): the schoolbook product, squaring,
    the Karatsuba recursion, and the product with a digit. *)

From S2P Require Import Prelude BigDigit BigVec.
From stdpp Require Import base numbers option list.
From Stdlib Require Import ZArith Lia.

#[local] Open Scope Z_scope.

(** ** The schoolbook product *)

(** One row of the product: [prod] is the step of the case of the [switch] on
    the digit of [x], from a digit of [y] and the carry [cp]. *)
Fixpoint mul_row (prod : Z → Z → Z * Z) (y rt : list Z) (cp c : Z) : list Z * Z * Z :=
  match y, rt with
  | yt :: y, r :: rt =>
      let '(p, cp) := prod yt cp in
      let '(p, c) := DSUMc p r c in
      let '(row, cp, c) := mul_row prod y rt cp c in
      (p :: row, cp, c)
  | _, _ => ([], cp, c)
  end.

Definition I_mul_switch (d : Z) (y rt : list Z) : list Z * Z * Z :=
  if d =? 0 then (rt, 0, 0)
  else if d =? 1 then mul_row (λ yt cp, (yt, cp)) y rt 0 0
  else if d =? 2 then mul_row (λ yt cp, DSUMc yt yt cp) y rt 0 0
  else mul_row (λ yt cp, DMULc d yt cp) y rt 0 0.

(** The loop over [x], with [r] the buffer from the pointer [r] on. *)
Fixpoint I_mul_loop (x y r : list Z) : list Z :=
  match x with
  | [] => r
  | d :: x =>
      let '(row, cp, c) := I_mul_switch d y (take (length y) r) in
      let r := row ++ u64 (c + cp) :: drop (S (length y)) r in
      take 1 r ++ I_mul_loop x y (drop 1 r)
  end.

(** The digits up to [*rt], which is left out when it is zero. *)
Definition drop_top (r : list Z) : list Z :=
  if dnth r (length r - 1) =? 0 then take (length r - 1) r else r.

(** [r] is the content of the buffer, [xl + yl] digits or more. *)
Definition I_mul (x y r : list Z) : list Z :=
  let xl := length x in
  let yl := length y in
  let r := replicate xl 0 ++ drop xl r in
  drop_top (take (xl + yl) (I_mul_loop x y r)).

(** ** Squaring *)

Fixpoint sqr_row (d : Z) (y s : list Z) (y_0 y_1 y_2 y_3 z1 : Z) : list Z * (Z * Z * Z * Z * Z) :=
  match y, s with
  | yt :: y, st :: s =>
      let '(b0, b1) := DMUL d yt in
      let '(z0, y_0) := DSUMc b0 b0 y_0 in
      let '(z2, y_2) := DSUMc z0 z1 y_2 in
      let '(t, y_3) := DSUMc st z2 y_3 in
      let '(z1, y_1) := DSUMc b1 b1 y_1 in
      let '(row, k) := sqr_row d y s y_0 y_1 y_2 y_3 z1 in
      (t :: row, k)
  | _, _ => ([], (y_0, y_1, y_2, y_3, z1))
  end.

(** The body of the loop for the digit [d] with the digits [x] above it. *)
Definition I_sqr_step (d : Z) (x r : list Z) : list Z :=
  let y_l := length x in
  if d =? 0 then (if (y_l =? 0)%nat then r else <[(y_l + 2)%nat := 0]> r)
  else
    let '(b0, b1) := DMUL d d in
    let '(t0, y_3) := DSUMc (dnth r 0) b0 0 in
    let '(row, (y_0, y_1, y_2, y_3, z1)) := sqr_row d x (take y_l (drop 1 r)) 0 0 0 y_3 b1 in
    let s := drop (S y_l) r in
    let z0 := y_0 in
    let '(z2, y_2) := DSUMc z0 z1 y_2 in
    let '(t, y_3) := DSUMc (dnth s 0) z2 y_3 in
    if (y_l =? 0)%nat then t0 :: row ++ t :: drop 1 s
    else t0 :: row ++ t :: u64 (u64 (y_1 + y_2) + y_3) :: drop 2 s.

Fixpoint I_sqr_loop (x r : list Z) : list Z :=
  match x with
  | [] => r
  | d :: x =>
      let r := I_sqr_step d x r in
      match x with
      | [] => r
      | _ :: _ => take 2 r ++ I_sqr_loop x (drop 2 r)
      end
  end.

(** [x] and [r] do not share memory. *)
Definition I_sqr (x r : list Z) : list Z :=
  let xl := length x in
  let r := replicate (S xl) 0 ++ drop (S xl) r in
  drop_top (take (2 * xl) (I_sqr_loop x r)).

(** ** Multiplication by a digit *)

Fixpoint D_mul_loop (prod : Z → Z → Z * Z) (x : list Z) (c : Z) : list Z * Z :=
  match x with
  | xt :: x =>
      let '(p, c) := prod xt c in
      let '(r, c) := D_mul_loop prod x c in
      (p :: r, c)
  | [] => ([], c)
  end.

Definition D_mul (x : list Z) (d : Z) : list Z :=
  if d =? 0 then [0]
  else if d =? 1 then x
  else
    let '(r, c) := if d =? 2 then D_mul_loop (λ p c, DSUMc p p c) x 0
                   else D_mul_loop (λ xt c, DMULc d xt c) x 0 in
    if c =? 0 then r else r ++ [c].

(** ** The Karatsuba recursion *)

(** The macro [I_OPERATION]: the longer operand first. *)
Definition I_OPERATION {A} (op : list Z → list Z → A) (p1 p2 : list Z) : A :=
  if (length p2 <=? length p1)%nat then op p1 p2 else op p2 p1.

Section karatsuba.

(** The content of a fresh block of [n] words. *)
Variable tmp_heap : nat → list Z.

(** [same] is [x == y], the equality of the pointers. Each level works on
    half of the digits; [fuel] bounds the depth. *)
Fixpoint I_mul_karatsuba (fuel : nat) (same : bool) (x y r : list Z) : option (list Z) :=
  if (length y <? 16)%nat then
    Some (if same && (1 <? length x)%nat then I_sqr x r else I_mul x y r)
  else match fuel with
  | O => None
  | S fuel =>
      let m := ((length x + 1) / 2)%nat in
      let low_x := trim (take m x) in
      let high_x := drop m x in
      let zero := (length y <=? m)%nat in
      let low_y := trim (if zero then y else take m y) in
      let high_y := if zero then [0] else drop m y in
      let heap := tmp_heap (4 * m + 1) in
      let tmp_buf := drop (1 + m + m) heap in
      z0 ← I_OPERATION (λ p1 p2, I_mul_karatsuba fuel same p1 p2 r) low_x low_y;
      let z0_buf := z0 ++ replicate (2 * m - length z0) 0 in
      let z0 := trim z0 in
      z2 ← (if zero then Some [0] else
              trim <$> I_OPERATION (λ p1 p2, I_mul_karatsuba fuel same p1 p2 (drop (2 * m) r)) high_x high_y);
      let neg := I_comp low_x high_x <? 0 in
      let diff0 := if negb neg then I_sub low_x high_x else I_sub high_x low_x in
      let '(tmp_prod_negative, diff1) :=
        if same then (true, diff0)
        else if 0 <=? I_comp high_y low_y then (neg, I_sub high_y low_y)
        else (negb neg, if zero then low_y else I_sub low_y high_y) in
      tmp ← I_OPERATION (λ p1 p2, I_mul_karatsuba fuel same p1 p2 tmp_buf) diff0 diff1;
      let tmp := trim tmp in
      let z1 := I_OPERATION I_add z0 z2 in
      let z1 := if tmp_prod_negative then I_sub z1 tmp else I_OPERATION I_add z1 tmp in
      let res := I_OPERATION I_add (drop m z0_buf ++ z2) z1 in
      Some (trim (take m z0_buf ++ res))
  end.

End karatsuba.

(** ** The schoolbook product computes the product *)

(** A step multiplies by [d] with a carry below the base. *)
Definition mul_step (d : Z) (prod : Z → Z → Z * Z) : Prop :=
  ∀ y cp p cp', digit y → digit cp → cp < d ∨ cp = 0 → prod y cp = (p, cp') →
    digit p ∧ digit cp' ∧ (cp' < d ∨ cp' = 0) ∧ p + D_BASE * cp' = d * y + cp.

Lemma mul_step_1 : mul_step 1 (λ y cp, (y, cp)).
Proof.
  intros y cp p cp' Hy Hcp Hd.
  intros [= <- <-]. assert (cp = 0) as -> by (unfold digit in *; lia). split_and!; try done. lia.
Qed.

Lemma mul_step_2 : mul_step 2 (λ y cp, DSUMc y y cp).
Proof.
  intros y cp p cp' Hy Hcp Hd H. apply DSUMc_spec in H as (? & ? & ? & ?); try done.
  pose proof D_BASE_gt. unfold digit in *. split_and!; lia.
Qed.

Lemma mul_step_d d : digit d → mul_step d (λ y cp, DMULc d y cp).
Proof.
  intros Hd y cp p cp' Hy Hcp Hc H. apply DMULc_spec in H as (? & ? & ?); try done.
  split_and!; try done. unfold digit in *. nia.
Qed.

Lemma mul_row_spec d prod y rt cp c row cp' c' : mul_step d prod → digits y → digits rt →
  length rt = length y → digit cp → (cp < d ∨ cp = 0) → 0 ≤ c ≤ 1 → mul_row prod y rt cp c = (row, cp', c') →
  digits row ∧ length row = length y ∧ digit cp' ∧ (cp' < d ∨ cp' = 0) ∧ 0 ≤ c' ≤ 1 ∧
  dval row + dpow (length y) * (cp' + c') = d * dval y + dval rt + cp + c.
Proof.
  intros Hp Hy. revert rt cp c row cp' c'.
  induction Hy as [|a y Ha Hy IH]; intros [|b rt] cp c row cp' c' Hr Hl Hcp Hd Hc; try done; cbn [mul_row].
  { intros [= <- <- <-]. cbn [dval length]. rewrite dpow_0. split_and!; try done; lia. }
  inversion_clear Hr as [|?? Hb Hr']. destruct (prod a cp) as [p k] eqn:E1.
  apply Hp in E1 as (? & ? & ? & ?); try done.
  destruct (DSUMc p b c) as [s k2] eqn:E2.
  apply DSUMc_spec in E2 as (? & ? & ? & ?); try done; [|unfold digit; pose proof D_BASE_gt; lia].
  destruct (mul_row prod y rt k k2) as [[row1 k3] k4] eqn:E. intros [= <- <- <-].
  apply IH in E as (? & ? & ? & ? & ? & ?); try done; [|by injection Hl|lia].
  split_and!; try lia; try done; [by constructor|simpl; lia|]. cbn [dval length]. rewrite dpow_S. nia.
Qed.

Lemma I_mul_switch_spec d y rt row cp c : digit d → digits y → digits rt → length rt = length y →
  I_mul_switch d y rt = (row, cp, c) →
  digits row ∧ length row = length y ∧ digit (c + cp) ∧
  dval row + dpow (length y) * (c + cp) = d * dval y + dval rt.
Proof.
  unfold I_mul_switch. intros Hd Hy Hr Hl.
  assert (∀ prod, mul_step d prod → mul_row prod y rt 0 0 = (row, cp, c) →
    digits row ∧ length row = length y ∧ digit (c + cp) ∧
    dval row + dpow (length y) * (c + cp) = d * dval y + dval rt) as Hrow.
  { intros prod Hp E. eapply mul_row_spec in E as (? & ? & ? & Hcp & ? & He);
      [|done..|apply digit_0|by right|lia]. unfold digit in *.
    pose proof (dval_bound row H). pose proof (dval_bound y Hy). pose proof (dval_bound rt Hr).
    rewrite H0, Hl in *. split_and!; try done; [lia| |lia].
    assert (dpow (length y) * (cp + c) < dpow (length y) * D_BASE) by nia.
    apply Z.mul_lt_mono_pos_l in H6; [lia|apply dpow_pos]. }
  destruct (Z.eqb_spec d 0) as [->|].
  { intros [= <- <- <-]. split_and!; try done; try apply digit_0; lia. }
  destruct (Z.eqb_spec d 1) as [->|]; [apply Hrow, mul_step_1|].
  destruct (Z.eqb_spec d 2) as [->|]; [apply Hrow, mul_step_2|]. by apply Hrow, mul_step_d.
Qed.

Lemma I_mul_loop_spec x y r : digits x → digits y → digits r →
  (length x + length y ≤ length r)%nat →
  digits (I_mul_loop x y r) ∧ length (I_mul_loop x y r) = length r ∧
  dval (take (length x + length y) (I_mul_loop x y r)) = dval x * dval y + dval (take (length y) r).
Proof.
  intros Hx Hy. revert r. induction Hx as [|d x Hd Hx IH]; intros r Hr Hl; cbn [I_mul_loop].
  { split_and!; try done. }
  cbn [length] in Hl. destruct (I_mul_switch _ _ _) as [[row cp] c] eqn:E.
  apply I_mul_switch_spec in E as (Hrow & Hlr & Hc & He); eauto with big.
  2: { rewrite length_take. lia. }
  rewrite (u64_digit (c + cp)) by done. set (r1 := row ++ _).
  assert (digits r1) as Hr1.
  { apply Forall_app. split; [done|]. constructor; eauto with big. }
  assert (length r1 = length r) as Hl1.
  { unfold r1. rewrite length_app. cbn [length]. rewrite length_drop. lia. }
  destruct (IH (drop 1 r1)) as (Hd' & Hl' & He'); [eauto with big|rewrite length_drop; lia|].
  split_and!.
  - apply Forall_app. split; eauto with big.
  - rewrite length_app, length_take, Hl', length_drop. lia.
  - cbn [length Nat.add]. rewrite take_app_ge by (rewrite length_take; lia).
    replace (length (take 1 r1)) with 1%nat by (rewrite length_take; lia).
    rewrite dval_app, length_take. replace (1 `min` length r1)%nat with 1%nat by lia.
    replace (S (length x + length y) - 1)%nat with (length x + length y)%nat by lia. rewrite He'.
    assert (dval (take (S (length y)) r1) = dval row + dpow (length y) * (c + cp)) as Hr1v.
    { unfold r1. rewrite take_app_ge by lia. rewrite Hlr. replace (S (length y) - length y)%nat with 1%nat by lia.
      cbn [firstn]. rewrite dval_app, Hlr. cbn [dval]. rewrite take_0. cbn [dval]. ring. }
    assert (dval (take (S (length y)) r1) = dval (take 1 r1) + dpow 1 * dval (take (length y) (drop 1 r1))) as Hs.
    { rewrite (dval_take_drop 1) by (rewrite length_take; lia).
      rewrite take_take, skipn_firstn_comm. do 4 f_equal; lia. }
    rewrite dpow_S, dpow_0 in *. cbn [dval]. nia.
Qed.

Lemma drop_top_spec r : digits r → (2 ≤ length r)%nat →
  vec (drop_top r) ∧ dval (drop_top r) = dval r ∧ (length (drop_top r) ≤ length r)%nat ∧
  (dpow (length r - 2) ≤ dval r → nvec (drop_top r)).
Proof.
  intros Hr Hl. unfold drop_top.
  induction r as [|d r _] using rev_ind; [simpl in Hl; lia|].
  assert (dnth (r ++ [d]) (length (r ++ [d]) - 1) = d) as ->.
  { rewrite length_app. unfold dnth. cbn [length]. rewrite app_nth2 by lia.
    by replace (length r + 1 - 1 - length r)%nat with 0%nat by lia. }
  rewrite length_app in *. cbn [length] in *.
  replace (length r + 1 - 1)%nat with (length r) by lia.
  replace (length r + 1 - 2)%nat with (length r - 1)%nat by lia.
  destruct (Z.eqb_spec d 0) as [->|Hd].
  - rewrite take_app_length, dval_snoc, Z.mul_0_r, Z.add_0_r. apply Forall_app in Hr as [Hr _].
    assert (r ≠ []) by (intros ->; simpl in Hl; lia). split_and!; try done; [lia|].
    intros. by apply nvec_intro.
  - split; [split; [done|by destruct r]|]. split_and!; [done|by rewrite length_app|].
    intros _. apply nvec_last. split_and!; try done; [by destruct r|]. left. rewrite last_snoc. congruence.
Qed.

(** [z] is the product of [x] and [y], in their digits together. *)
Definition product_ok (x y z : list Z) : Prop :=
  vec z ∧ dval z = dval x * dval y ∧ (length z ≤ length x + length y)%nat ∧
  (nvec x → nvec y → 0 < dval x → 0 < dval y → nvec z).

Lemma dval_mul_bound x y : digits x → digits y → dval x * dval y < dpow (length x + length y).
Proof. intros Hx%dval_bound Hy%dval_bound. rewrite dpow_add. nia. Qed.

(** A product of vectors in normal form fills all of its digits but one. *)
Lemma product_lower x y : nvec x → nvec y → 0 < dval x → 0 < dval y →
  dpow (length x + length y - 2) ≤ dval x * dval y.
Proof.
  intros Hx Hy Px Py. pose proof (vec_length x (nvec_vec x Hx)). pose proof (vec_length y (nvec_vec y Hy)).
  destruct (nvec_lower x Hx) as [->|H1]; [simpl in Px; lia|].
  destruct (nvec_lower y Hy) as [->|H2]; [simpl in Py; lia|].
  replace (length x + length y - 2)%nat with ((length x - 1) + (length y - 1))%nat by lia.
  rewrite dpow_add. pose proof (dpow_pos (length x - 1)). pose proof (dpow_pos (length y - 1)). nia.
Qed.

Lemma drop_top_product x y r : vec x → vec y → digits r → length r = (length x + length y)%nat →
  dval r = dval x * dval y → product_ok x y (drop_top r).
Proof.
  intros Hx Hy Hr Hl He. pose proof (vec_length x Hx). pose proof (vec_length y Hy).
  destruct (drop_top_spec r) as (? & ? & ? & Hn); [done|lia|]. split_and!; try done; [lia|lia|].
  intros. apply Hn. rewrite He, Hl. by apply product_lower.
Qed.

Lemma I_mul_spec x y r : vec x → vec y → digits r → (length y ≤ length x)%nat →
  (length x + length y ≤ length r)%nat → product_ok x y (I_mul x y r).
Proof.
  intros Hx Hy Hr Hyx Hl. unfold I_mul. set (r0 := replicate _ _ ++ _).
  assert (digits r0) by (apply Forall_app; eauto with big).
  assert (length r0 = length r) by (unfold r0; rewrite length_app, length_replicate, length_drop; lia).
  destruct (I_mul_loop_spec x y r0) as (Hd & Hl' & He); eauto with big; [lia|].
  apply drop_top_product; eauto with big; [rewrite length_take; lia|]. rewrite He.
  unfold r0. rewrite take_app_le, take_replicate, dval_zeros by (rewrite length_replicate; lia). lia.
Qed.

(** ** Squaring computes the square *)

Lemma sqr_row_spec d y s y_0 y_1 y_2 y_3 z1 row y_0' y_1' y_2' y_3' z1' :
  digit d → digits y → digits s → length s = length y →
  0 ≤ y_0 ≤ 1 → 0 ≤ y_1 ≤ 1 → 0 ≤ y_2 ≤ 1 → 0 ≤ y_3 ≤ 1 → digit z1 →
  sqr_row d y s y_0 y_1 y_2 y_3 z1 = (row, (y_0', y_1', y_2', y_3', z1')) →
  digits row ∧ length row = length y ∧
  0 ≤ y_0' ≤ 1 ∧ 0 ≤ y_1' ≤ 1 ∧ 0 ≤ y_2' ≤ 1 ∧ 0 ≤ y_3' ≤ 1 ∧ digit z1' ∧
  dval row + dpow (length y) * (z1' + y_0' + y_2' + y_3' + D_BASE * y_1') =
  2 * d * dval y + dval s + (z1 + y_0 + y_2 + y_3 + D_BASE * y_1).
Proof.
  intros Hd Hy. revert s y_0 y_1 y_2 y_3 z1 row y_0' y_1' y_2' y_3' z1'.
  induction Hy as [|a y Ha Hy IH]; intros [|b s] y_0 y_1 y_2 y_3 z1 row y_0' y_1' y_2' y_3' z1' Hs Hl H0 H1 H2 H3 Hz;
    try done; cbn [sqr_row].
  { intros [= <- <- <- <- <- <-]. cbn [dval length]. rewrite dpow_0. split_and!; try done; lia. }
  inversion_clear Hs as [|?? Hb Hs']. pose proof D_BASE_gt.
  assert (∀ k, 0 ≤ k ≤ 1 → digit k) as Hk by (unfold digit; lia).
  destruct (DMUL d a) as [b0 b1] eqn:E. apply DMUL_spec in E as (? & ? & E); try done.
  destruct (DSUMc b0 b0 y_0) as [z0 k0] eqn:E0. apply DSUMc_spec in E0 as (? & ? & E0 & ?); auto.
  destruct (DSUMc z0 z1 y_2) as [z2 k2] eqn:E2. apply DSUMc_spec in E2 as (? & ? & E2 & ?); auto.
  destruct (DSUMc b z2 y_3) as [t k3] eqn:E3. apply DSUMc_spec in E3 as (? & ? & E3 & ?); auto.
  destruct (DSUMc b1 b1 y_1) as [w k1] eqn:E1. apply DSUMc_spec in E1 as (? & ? & E1 & ?); auto.
  destruct (sqr_row d y s k0 k1 k2 k3 w) as [row1 [[[[j0 j1] j2] j3] jz]] eqn:Er.
  intros [= <- <- <- <- <- <-]. injection Hl as Hl.
  apply IH in Er as (? & ? & ? & ? & ? & ? & ? & Er); try done; try lia.
  split_and!; try done; try lia; [by constructor|simpl; lia|]. cbn [dval length]. rewrite dpow_S.
  replace (D_BASE * dpow (length y) * (jz + j0 + j2 + j3 + D_BASE * j1))
    with (D_BASE * (dpow (length y) * (jz + j0 + j2 + j3 + D_BASE * j1))) by ring. nia.
Qed.

(** A buffer, cut where the step changes it. *)
Lemma sqr_buffer n r : digits r → (n + 3 ≤ length r)%nat →
  ∃ r0 mid s0 s1 rest, r = r0 :: mid ++ s0 :: s1 :: rest ∧ length mid = n ∧
    digit r0 ∧ digits mid ∧ digit s0 ∧ digit s1 ∧ digits rest.
Proof.
  intros Hr Hl. destruct r as [|r0 r]; [simpl in Hl; lia|]. cbn [length] in Hl.
  assert (length (take n r) = n) as Hn by (rewrite length_take; lia). rewrite <- (take_drop n r) in Hr, Hl |- *.
  apply Forall_cons in Hr as [? [Hm Hs]%Forall_app]. rewrite length_app in Hl.
  destruct (drop n r) as [|s0 [|s1 rest]]; cbn [length] in Hl; [lia..|].
  apply Forall_cons in Hs as [? [? ?]%Forall_cons].
  eexists r0, (take n r), s0, s1, rest. split_and!; done.
Qed.

(** What a step of the outer loop leaves in the digits that it changes, with
    digits above [d]. *)
Lemma I_sqr_step_spec d x r : digit d → digits x → x ≠ [] → digits r → (length x + 3 ≤ length r)%nat →
  digits (I_sqr_step d x r) ∧ length (I_sqr_step d x r) = length r ∧
  dval (take (length x + 3) (I_sqr_step d x r)) =
    d * d + 2 * d * D_BASE * dval x + dval (take (length x + 2) r).
Proof.
  intros Hd Hx Hn Hr Hl. unfold I_sqr_step. pose proof D_BASE_gt.
  destruct (Nat.eqb_spec (length x) 0) as [E0|_]; [by destruct x|].
  destruct (sqr_buffer (length x) r Hr Hl) as (r0 & mid & s0 & s1 & rest & -> & Hm & ? & ? & ? & ? & ?).
  assert (dval (take (length x + 2) (r0 :: mid ++ s0 :: s1 :: rest)) =
    r0 + D_BASE * (dval mid + dpow (length x) * s0)) as ->.
  { replace (length x + 2)%nat with (S (length x + 1)) by lia. rewrite firstn_cons, <- Hm, take_app_add.
    cbn [firstn]. by rewrite dval_cons, dval_snoc. }
  destruct (Z.eqb_spec d 0) as [->|].
  { replace (length x + 2)%nat with (S (length mid + 1)) by lia.
    change (r0 :: mid ++ s0 :: s1 :: rest) with ((r0 :: mid) ++ s0 :: s1 :: rest).
    rewrite insert_app_r_alt by (simpl; lia).
    replace (S (length mid + 1) - length (r0 :: mid))%nat with 1%nat by (simpl; lia).
    change (<[1%nat:=0]> (s0 :: s1 :: rest)) with (s0 :: 0 :: rest). cbn [app].
    split_and!.
    - solve_digits.
    - cbn [length]. rewrite !length_app. done.
    - replace (length x + 3)%nat with (S (length mid + 2)) by lia.
      rewrite firstn_cons, take_app_add. cbn [firstn]. rewrite ?take_0. rewrite dval_cons, dval_app, Hm. cbn [dval]. ring. }
  cbn [skipn]. unfold dnth. rewrite <- Hm. rewrite drop_0, take_app_length, drop_app_length. cbn [nth].
  destruct (DMUL d d) as [b0 b1] eqn:E. apply DMUL_spec in E as (? & ? & E); try done.
  destruct (DSUMc r0 b0 0) as [t0 k3] eqn:E3. apply DSUMc_spec in E3 as (? & ? & E3 & ?); eauto with big.
  destruct (sqr_row d x mid 0 0 0 k3 b1) as [row [[[[j0 j1] j2] j3] jz]] eqn:Er.
  apply sqr_row_spec in Er as (? & Hrow & ? & ? & ? & ? & ? & Er); try done; try lia.
  destruct (DSUMc j0 jz j2) as [z2 i2] eqn:E2.
  assert (∀ k, 0 ≤ k ≤ 1 → digit k) as Hk by (unfold digit; lia).
  apply DSUMc_spec in E2 as (? & ? & E2 & ?); auto.
  destruct (DSUMc s0 z2 j3) as [t i3] eqn:E4. apply DSUMc_spec in E4 as (? & ? & E4 & ?); auto.
  assert (i2 ≤ 1 ∧ i3 ≤ 1) as [? ?] by auto with lia.
  cbn [skipn]. rewrite drop_0.
  rewrite (u64_digit (j1 + i2)) by (unfold digit; lia). rewrite u64_digit by (unfold digit; lia).
  assert (digit (j1 + i2 + i3)) by (unfold digit; lia). split_and!.
  - solve_digits.
  - cbn [length]. rewrite !length_app. simpl. lia.
  - replace (length mid + 3)%nat with (S (length row + 2)) by lia.
    rewrite firstn_cons, take_app_add. cbn [firstn]. rewrite ?take_0, dval_cons, dval_app. cbn [dval].
    rewrite Hrow, Hm in *. set (P := dpow (length x)) in *.
    replace (dval row + P * (t + D_BASE * (j1 + i2 + i3 + D_BASE * 0)))
      with (dval row + P * (jz + j0 + j2 + j3 + D_BASE * j1) + P * s0)
      by (replace (t + D_BASE * (j1 + i2 + i3 + D_BASE * 0)) with (jz + j0 + j2 + j3 + D_BASE * j1 + s0) by lia; ring).
    rewrite Er. nia.
Qed.

(** With no digits above [d]. *)
Lemma I_sqr_step_last d r : digit d → digits r → (2 ≤ length r)%nat →
  d * d + dval (take 2 r) < D_BASE * D_BASE →
  digits (I_sqr_step d [] r) ∧ length (I_sqr_step d [] r) = length r ∧
  dval (take 2 (I_sqr_step d [] r)) = d * d + dval (take 2 r).
Proof.
  intros Hd Hr Hl Hfit. unfold I_sqr_step. cbn [length Nat.eqb]. pose proof D_BASE_gt.
  destruct (Z.eqb_spec d 0) as [->|]; [split_and!; done|].
  destruct r as [|r0 [|s0 r]]; [simpl in Hl; lia..|].
  apply Forall_cons in Hr as [? [? ?]%Forall_cons].
  destruct (DMUL d d) as [b0 b1] eqn:E. apply DMUL_spec in E as (? & ? & E); try done.
  cbn [firstn skipn sqr_row dnth nth]. unfold dnth. cbn [nth].
  destruct (DSUMc r0 b0 0) as [t0 k3] eqn:E3. apply DSUMc_spec in E3 as (? & ? & E3 & ?); eauto with big.
  destruct (DSUMc 0 b1 0) as [z2 i2] eqn:E2. apply DSUMc_spec in E2 as (? & ? & E2 & ?); eauto with big.
  destruct (DSUMc s0 z2 k3) as [t i3] eqn:E4.
  apply DSUMc_spec in E4 as (? & ? & E4 & ?); try done; [|unfold digit; lia].
  cbn [app firstn dval] in *. split_and!; [solve_digits|done|]. rewrite ?take_0 in *. cbn [dval] in *.
  assert (i2 = 0) as -> by (unfold digit in *; nia). assert (i3 = 0) as -> by (unfold digit in *; nia). nia.
Qed.

Lemma I_sqr_loop_spec x r : digits x → x ≠ [] → digits r → (2 * length x ≤ length r)%nat →
  dval x * dval x + dval (take (length x + 1) r) < dpow (2 * length x) →
  digits (I_sqr_loop x r) ∧ length (I_sqr_loop x r) = length r ∧
  dval (take (2 * length x) (I_sqr_loop x r)) = dval x * dval x + dval (take (length x + 1) r).
Proof.
  intros Hx. revert r. induction Hx as [|d x Hd Hx IH]; intros r Hn Hr Hl Hfit; [done|].
  destruct x as [|e x].
  - cbn [I_sqr_loop]. cbn [length Nat.mul Nat.add] in *. rewrite !dpow_S, dpow_0 in Hfit.
    destruct (I_sqr_step_last d r) as (? & ? & He); try done; [cbn [dval] in Hfit; nia|].
    split_and!; try done. rewrite He. cbn [dval]. ring.
  - set (x' := e :: x) in *. assert (x' ≠ []) as Hn' by done.
    assert (1 ≤ length x')%nat by (unfold x'; simpl; lia).
    assert (I_sqr_loop (d :: x') r = take 2 (I_sqr_step d x' r) ++ I_sqr_loop x' (drop 2 (I_sqr_step d x' r))) as -> by done.
    clearbody x'. cbn [length] in Hl, Hfit |- *.
    destruct (I_sqr_step_spec d x' r) as (Hd1 & Hl1 & He1); try done; [lia|].
    set (r1 := I_sqr_step d x' r) in *. clearbody r1.
    assert (dval (take (length x' + 3) r1) = dval (take 2 r1) + dpow 2 * dval (take (length x' + 1) (drop 2 r1))) as Hs.
    { rewrite (dval_take_drop 2) by (rewrite length_take; lia).
      rewrite take_take, skipn_firstn_comm. do 4 f_equal; lia. }
    rewrite Hs in He1. replace (S (length x') + 1)%nat with (length x' + 2)%nat in * by lia.
    assert (dpow 2 = D_BASE * D_BASE) as H2 by (rewrite !dpow_S, dpow_0; ring).
    assert (digits (take 2 r1)) as Ht by eauto with big. pose proof (dval_bound _ Ht) as Hb.
    cbn [dval] in Hfit |- *. replace (2 * S (length x'))%nat with (2 + 2 * length x')%nat in * by lia.
    rewrite dpow_add, H2 in Hfit. rewrite H2 in He1. pose proof D_BASE_gt.
    destruct (IH (drop 2 r1)) as (Hd2 & Hl2 & He2); eauto with big.
    { rewrite length_drop. lia. }
    { apply (Z.mul_lt_mono_pos_l (D_BASE * D_BASE)); [nia|].
      assert (0 ≤ dval (take 2 r1)) by lia. nia. }
    rewrite length_drop in Hl2. split_and!.
    + solve_digits.
    + rewrite length_app, length_take. lia.
    + rewrite take_app_ge by (rewrite length_take; lia).
      replace (length (take 2 r1)) with 2%nat by (rewrite length_take; lia).
      rewrite dval_app. replace (length (take 2 r1)) with 2%nat by (rewrite length_take; lia).
      replace (2 + 2 * length x' - 2)%nat with (2 * length x')%nat by lia. rewrite He2, H2. nia.
Qed.

Lemma I_sqr_spec x r : vec x → digits r → (2 * length x ≤ length r)%nat → (1 < length x)%nat →
  product_ok x x (I_sqr x r).
Proof.
  intros Hx Hr Hl H1. unfold I_sqr. set (r0 := replicate _ _ ++ _). pose proof (dval_bound x (proj1 Hx)).
  assert (digits r0) by (unfold r0; solve_digits).
  assert (length r0 = length r) by (unfold r0; rewrite length_app, length_replicate, length_drop; lia).
  assert (dval (take (length x + 1) r0) = 0) as Hz.
  { unfold r0. rewrite take_app_le by (rewrite length_replicate; lia). by rewrite take_replicate, dval_zeros. }
  destruct (I_sqr_loop_spec x r0) as (Hd & Hl' & He); eauto with big; [apply Hx|lia| |].
  { rewrite Hz. replace (2 * length x)%nat with (length x + length x)%nat by lia.
    pose proof (dval_mul_bound x x (proj1 Hx) (proj1 Hx)). lia. }
  apply drop_top_product; eauto with big; [rewrite length_take; lia|]. rewrite He, Hz. lia.
Qed.

(** ** Multiplication by a digit *)

Lemma D_mul_loop_spec d prod x c r c' : mul_step d prod → digits x → digit c → (c < d ∨ c = 0) →
  D_mul_loop prod x c = (r, c') →
  digits r ∧ length r = length x ∧ digit c' ∧ dval r + dpow (length x) * c' = d * dval x + c.
Proof.
  intros Hp Hx. revert c r c'. induction Hx as [|a x Ha Hx IH]; intros c r c' Hc Hd; cbn [D_mul_loop].
  { intros [= <- <-]. cbn [dval length]. rewrite dpow_0. split_and!; try done; lia. }
  destruct (prod a c) as [p k] eqn:E1. apply Hp in E1 as (? & ? & ? & ?); try done.
  destruct (D_mul_loop prod x k) as [r1 k1] eqn:E. intros [= <- <-].
  apply IH in E as (? & ? & ? & ?); try done.
  split_and!; try done; [solve_digits|simpl; lia|]. cbn [dval length]. rewrite dpow_S. nia.
Qed.

(** The product of [x] with a digit. *)
Definition digit_product_ok (x : list Z) (d : Z) (z : list Z) : Prop :=
  vec z ∧ dval z = dval x * d ∧ (length z ≤ S (length x))%nat ∧
  (nvec x → 0 < dval x → 0 < d → nvec z).

Lemma D_mul_spec x d : vec x → digit d → digit_product_ok x d (D_mul x d).
Proof.
  intros Hx Hd. pose proof (vec_length x Hx). unfold D_mul. destruct (Z.eqb_spec d 0) as [->|].
  { split_and!; [split; [solve_digits|done]|simpl; lia|simpl; lia|lia]. }
  destruct (Z.eqb_spec d 1) as [->|]; [split_and!; try done; lia|].
  assert (∀ prod r c, mul_step d prod → D_mul_loop prod x 0 = (r, c) →
    digit_product_ok x d (if c =? 0 then r else r ++ [c])) as H0.
  { intros prod r c Hp E. eapply D_mul_loop_spec in E as (Hr & Hl & Hc & He); [|done|apply Hx|apply digit_0|by right].
    assert (r ≠ []) by (intros ->; simpl in Hl; lia).
    destruct (Z.eqb_spec c 0) as [->|].
    - split_and!; [done|lia|lia|]. intros Hn Px Pd. apply nvec_intro; try done. rewrite Hl.
      destruct (nvec_lower x Hn) as [->|]; [simpl in Px; lia|]. unfold digit in Hd. nia.
    - assert (digits (r ++ [c])) by solve_digits. assert (r ++ [c] ≠ []) by (by destruct r).
      split; [done|]. split_and!; [rewrite dval_snoc, Hl; lia|rewrite length_app; simpl; lia|].
      intros. apply nvec_last. split_and!; try done. left. rewrite last_snoc. congruence. }
  destruct (Z.eqb_spec d 2) as [->|].
  - destruct (D_mul_loop _ x 0) as [r c] eqn:E. eapply H0; [|exact E]. apply mul_step_2.
  - destruct (D_mul_loop _ x 0) as [r c] eqn:E. eapply H0; [|exact E]. by apply mul_step_d.
Qed.

(** ** The Karatsuba recursion *)

Lemma nvec_le_length x y : nvec x → nvec y → dval x ≤ dval y → (length x ≤ length y)%nat.
Proof.
  intros Hx Hy Hle. destruct (decide (length x ≤ length y)%nat); [done|].
  pose proof (nvec_longer y x Hy Hx). lia.
Qed.

(** The absolute value of a difference, as the recursion computes it. *)
Lemma abs_diff_spec x y : nvec x → nvec y →
  (I_comp x y <? 0) = (dval x <? dval y) ∧
  let d := if negb (I_comp x y <? 0) then I_sub x y else I_sub y x in
  nvec d ∧ dval d = Z.abs (dval x - dval y) ∧ (length d ≤ length x ∨ length d ≤ length y)%nat.
Proof.
  intros Hx Hy. assert ((I_comp x y <? 0) = (dval x <? dval y)) as Hc.
  { rewrite I_comp_spec by done. unfold Z.ltb. by destruct (dval x ?= dval y). }
  split; [done|]. rewrite Hc. destruct (Z.ltb_spec (dval x) (dval y)); cbn [negb].
  - destruct (I_sub_spec y x) as (? & He & ?); eauto with big; [apply nvec_le_length; try done; lia|lia|].
    rewrite He. split_and!; [done|lia|by right].
  - destruct (I_sub_spec x y) as (? & He & ?); eauto with big; [apply nvec_le_length; try done; lia|].
    rewrite He. split_and!; [done|lia|by left].
Qed.

Lemma I_OPERATION_add p1 p2 : digits p1 → digits p2 →
  digits (I_OPERATION I_add p1 p2) ∧ dval (I_OPERATION I_add p1 p2) = dval p1 + dval p2 ∧
  (length p1 ≤ length (I_OPERATION I_add p1 p2))%nat ∧
  (nvec p1 → nvec p2 → nvec (I_OPERATION I_add p1 p2)).
Proof.
  intros H1 H2. unfold I_OPERATION. destruct (Nat.leb_spec (length p2) (length p1)).
  - destruct (I_add_spec p1 p2) as (? & ? & ? & ?); try done. split_and!; auto. lia.
  - destruct (I_add_spec p2 p1) as (? & ? & ? & ?); try done; [lia|]. split_and!; auto; lia.
Qed.

(** The middle part, from the two outer ones and the product of differences. *)
Lemma karatsuba_middle lx hx ly hy neg :
  0 ≤ lx → 0 ≤ hx → 0 ≤ ly → 0 ≤ hy →
  (neg = true ∧ (lx - hx) * (hy - ly) ≤ 0 ∨ neg = false ∧ 0 ≤ (lx - hx) * (hy - ly)) →
  let z := lx * ly + hx * hy in
  let tmp := Z.abs (lx - hx) * Z.abs (hy - ly) in
  (if neg : bool then tmp ≤ z ∧ z - tmp = lx * hy + hx * ly else z + tmp = lx * hy + hx * ly).
Proof. intros ? ? ? ? Hs z tmp. unfold z, tmp. rewrite <- Z.abs_mul. destruct Hs as [[-> ?]|[-> ?]]; nia. Qed.

Section karatsuba_spec.

Context (tmp_heap : nat → list Z) (Hheap : ∀ n, digits (tmp_heap n) ∧ length (tmp_heap n) = n).

(** The product of vectors in normal form; it is in normal form itself when
    no factor is zero. *)
Definition karatsuba_ok (x y : list Z) (o : option (list Z)) : Prop :=
  ∃ z, o = Some z ∧ vec z ∧ dval z = dval x * dval y ∧ (length z ≤ length x + length y)%nat ∧
    (0 < dval x → 0 < dval y → nvec z).

Lemma I_OPERATION_karatsuba f p1 p2 m (same : bool) :
  nvec p1 → nvec p2 → (length p1 ≤ m)%nat → (length p2 ≤ m)%nat → (same → p1 = p2) →
  (∀ x y, nvec x → nvec y → (length y ≤ length x ≤ m)%nat → (length x + length y = length p1 + length p2)%nat →
     (same → x = y) → karatsuba_ok x y (f x y)) →
  karatsuba_ok p1 p2 (I_OPERATION f p1 p2).
Proof.
  intros H1 H2 ? ? Hs Hf. unfold I_OPERATION. destruct (Nat.leb_spec (length p2) (length p1)); [by apply Hf|].
  destruct (Hf p2 p1) as (z & -> & ? & He & ? & ?); try done; [lia|lia|by intros ->%Hs|].
  exists z. split_and!; try done; [lia|lia|auto].
Qed.

(** The halves of an operand. *)
Lemma split_spec m x : nvec x → (0 < m < length x)%nat → (length x ≤ 2 * m)%nat →
  nvec (trim (take m x)) ∧ nvec (drop m x) ∧ (length (trim (take m x)) ≤ m)%nat ∧ (length (drop m x) ≤ m)%nat ∧
  dval x = dval (trim (take m x)) + dpow m * dval (drop m x).
Proof.
  intros Hx Hm Hm2. assert (length (take m x) = m) by (rewrite length_take; lia).
  assert (vec (take m x)).
  { split; [eauto with big|]. intros E. rewrite E in *. simpl in *. lia. }
  pose proof (trim_length (take m x)). rewrite trim_dval. split_and!; eauto with big.
  - apply nvec_drop; [done|lia].
  - lia.
  - rewrite length_drop. lia.
  - apply dval_take_drop. lia.
Qed.

(** The sum of the three parts at their places. *)
Lemma karatsuba_combine m z0 z2 z1 : vec z0 → (length z0 ≤ 2 * m)%nat → (0 < m)%nat → nvec z2 → digits z1 →
  let z0_buf := z0 ++ replicate (2 * m - length z0) 0 in
  let res := trim (take m z0_buf ++ I_OPERATION I_add (drop m z0_buf ++ z2) z1) in
  nvec res ∧ dval res = dval z0 + dpow m * dval z1 + dpow m * dpow m * dval z2.
Proof.
  intros [Hz0 Hn0] Hl Hm Hz2 Hz1 z0_buf res.
  assert (digits z0_buf) as Hd by (unfold z0_buf; solve_digits).
  assert (length z0_buf = 2 * m)%nat as Hlb by (unfold z0_buf; rewrite length_app, length_replicate; lia).
  assert (dval z0_buf = dval z0) as Hv by (unfold z0_buf; rewrite dval_app, dval_zeros; lia).
  clearbody z0_buf. destruct (I_OPERATION_add (drop m z0_buf ++ z2) z1) as (Hd1 & He1 & Hl1 & _); [solve_digits|done|].
  unfold res. rewrite trim_dval. split.
  - apply trim_nvec. split; [solve_digits|]. intros E. apply (f_equal length) in E.
    rewrite length_app, length_take in E. simpl in E. lia.
  - rewrite dval_app, He1, dval_app, length_take, length_drop, Hlb.
    replace (m `min` (2 * m))%nat with m by lia. replace (2 * m - m)%nat with m by lia.
    rewrite <- Hv, (dval_take_drop m z0_buf) by lia. ring.
Qed.

Lemma I_mul_karatsuba_spec fuel (same : bool) x y r : nvec x → nvec y → (length y ≤ length x ≤ fuel)%nat →
  (same → x = y) → digits r → (length x + length y ≤ length r)%nat →
  karatsuba_ok x y (I_mul_karatsuba tmp_heap fuel same x y r).
Proof.
  revert same x y r. induction fuel as [|fuel IH]; intros same x y r Hx Hy Hl Hs Hr Hlr;
    pose proof (vec_length x (nvec_vec x Hx)) as H1x; pose proof (vec_length y (nvec_vec y Hy)) as H1y.
  { lia. }
  cbn [I_mul_karatsuba]. destruct (Nat.ltb_spec (length y) 16) as [_|H16].
  { eexists. split; [done|]. destruct same; [destruct (Nat.ltb_spec 1 (length x))|]; cbn [andb].
    - assert (x = y) as <- by by apply Hs. destruct (I_sqr_spec x r) as (? & ? & ? & ?); eauto with big; lia.
    - destruct (I_mul_spec x y r) as (? & ? & ? & ?); eauto with big; lia.
    - destruct (I_mul_spec x y r) as (? & ? & ? & ?); eauto with big; lia. }
  set (m := ((length x + 1) / 2)%nat).
  assert (m < length x ∧ length x ≤ 2 * m ∧ 2 * m ≤ length x + 1 ∧ 0 < m)%nat as (Hm1 & Hm2 & Hm4 & Hm3).
  { unfold m. pose proof (Nat.div_mod (length x + 1) 2). pose proof (Nat.mod_upper_bound (length x + 1) 2). lia. }
  clearbody m. cbv zeta.
  destruct (split_spec m x Hx) as (Hlx & Hhx & Hllx & Hlhx & Ex); [lia..|].
  set (low_x := trim (take m x)) in *. set (high_x := drop m x) in *.
  set (zero := (length y <=? m)%nat). set (low_y := trim (if zero then y else take m y)).
  set (high_y := if zero then [0] else drop m y).
  assert (nvec low_y ∧ nvec high_y ∧ (length low_y ≤ m)%nat ∧ (length high_y ≤ m)%nat ∧
    dval y = dval low_y + dpow m * dval high_y ∧ (zero = true → high_y = [0] ∧ (length y < length x)%nat) ∧
    (zero = false → high_y = drop m y)) as (Hly & Hhy & Hlly & Hlhy & Ey & Hzero & Hnz).
  { unfold low_y, high_y, zero. destruct (Nat.leb_spec (length y) m).
    - rewrite nvec_trim by done. assert (nvec [0]) by (apply nvec_last; split_and!; [solve_digits|done|by right]).
      split_and!; try done; try (simpl; lia). intros _. split; [done|lia].
    - destruct (split_spec m y Hy) as (? & ? & ? & ? & ?); [lia..|]. split_and!; try done. }
  assert (same → low_x = low_y ∧ high_x = high_y) as Hsame.
  { intros E. specialize (Hs E) as ->. unfold low_y, high_y, low_x, high_x, zero.
    destruct (Nat.leb_spec (length y) m); [lia|done]. }
  assert (length high_x = length x - m)%nat as Elx by (unfold high_x; by rewrite length_drop).
  assert (zero = false → length high_y = length y - m)%nat as Ely by (intros Ez; rewrite Hnz by done; by rewrite length_drop).
  clear Hnz. clearbody low_x high_x low_y high_y zero.
  pose proof (dval_nonneg low_x (proj1 (nvec_vec _ Hlx))). pose proof (dval_nonneg high_x (proj1 (nvec_vec _ Hhx))).
  pose proof (dval_nonneg low_y (proj1 (nvec_vec _ Hly))). pose proof (dval_nonneg high_y (proj1 (nvec_vec _ Hhy))).
  (* z0 *)
  destruct (I_OPERATION_karatsuba (λ p1 p2, I_mul_karatsuba tmp_heap fuel same p1 p2 r) low_x low_y m same)
    as (z0 & -> & Hz0 & Ez0 & Lz0 & _); try done; [by intros [? _]%Hsame|intros; apply IH; try done; lia|].
  cbn [mbind option_bind].
  (* z2 *)
  assert (∃ z2, (if zero then Some [0] else trim <$> I_OPERATION
      (λ p1 p2, I_mul_karatsuba tmp_heap fuel same p1 p2 (drop (2 * m) r)) high_x high_y) = Some z2 ∧
    nvec z2 ∧ dval z2 = dval high_x * dval high_y) as (z2 & -> & Hz2 & Ez2).
  { destruct zero.
    - destruct Hzero as [-> _]; [done|]. exists [0]. split_and!; [done|done|simpl; lia].
    - specialize (Ely eq_refl). pose proof (vec_length high_y (nvec_vec _ Hhy)).
      destruct (I_OPERATION_karatsuba (λ p1 p2, I_mul_karatsuba tmp_heap fuel same p1 p2 (drop (2 * m) r)) high_x high_y m same)
        as (z2 & -> & ? & ? & ? & _); try done; [by intros [_ ?]%Hsame| |].
      + intros. apply IH; try done; [lia|eauto with big|rewrite length_drop; lia].
      + exists (trim z2). rewrite trim_dval. split_and!; eauto with big. }
  cbn [mbind option_bind].
  (* the differences *)
  destruct (abs_diff_spec low_x high_x Hlx Hhx) as (Ec0 & Hd0 & Ed0 & Ld0).
  destruct (abs_diff_spec high_y low_y Hhy Hly) as (Ec1 & Hd1 & Ed1 & Ld1).
  set (diff0 := if negb (I_comp low_x high_x <? 0) then _ else _) in *.
  set (d1 := if negb (I_comp high_y low_y <? 0) then _ else _) in *.
  assert (∃ neg diff1, (if same then (true, diff0)
      else if 0 <=? I_comp high_y low_y then (I_comp low_x high_x <? 0, I_sub high_y low_y)
      else (negb (I_comp low_x high_x <? 0), if zero then low_y else I_sub low_y high_y)) = (neg, diff1) ∧
    nvec diff1 ∧ (length diff1 ≤ m)%nat ∧ dval diff1 = Z.abs (dval high_y - dval low_y) ∧ (same → diff0 = diff1) ∧
    (neg = true ∧ (dval low_x - dval high_x) * (dval high_y - dval low_y) ≤ 0 ∨
     neg = false ∧ 0 ≤ (dval low_x - dval high_x) * (dval high_y - dval low_y)))
    as (neg & diff1 & -> & Hdiff & Ldiff & Ediff & Sdiff & Hneg).
  { destruct same.
    - destruct Hsame as [E1 E2]; [done|]. rewrite E1, E2 in Ed0. exists true, diff0. split_and!; try done; [lia|lia|].
      left. split; [done|]. rewrite E1, E2. nia.
    - rewrite Z.leb_antisym, Ec0, Ec1. unfold d1 in Hd1, Ed1, Ld1. rewrite Ec1 in Hd1, Ed1, Ld1.
      destruct (Z.ltb_spec (dval high_y) (dval low_y)); cbn [negb] in *.
      + destruct zero eqn:Ez.
        * destruct Hzero as [-> _]; [done|]. eexists _, low_y. split; [done|]. simpl in *. split_and!; try done; [lia|].
          destruct (Z.ltb_spec (dval low_x) (dval high_x)); [right|left]; (split; [done|nia]).
        * eexists _, _. split; [done|]. split_and!; try done; [lia|].
          destruct (Z.ltb_spec (dval low_x) (dval high_x)); [right|left]; (split; [done|nia]).
      + eexists _, _. split; [done|]. split_and!; try done; [lia|].
        destruct (Z.ltb_spec (dval low_x) (dval high_x)); [left|right]; (split; [done|nia]). }
  clearbody diff0 d1. destruct (Hheap (4 * m + 1)) as [Hh Lh].
  (* their product *)
  destruct (I_OPERATION_karatsuba (λ p1 p2, I_mul_karatsuba tmp_heap fuel same p1 p2
    (drop (1 + m + m) (tmp_heap (4 * m + 1)))) diff0 diff1 m same) as (tmp & -> & Htmp & Etmp & Ltmp & _); try done; [lia| |].
  { intros. apply IH; try done; [lia|eauto with big|rewrite length_drop; lia]. }
  cbn [mbind option_bind]. apply trim_nvec in Htmp as Htmp'.
  destruct (I_OPERATION_add (trim z0) z2) as (Hz1 & Ez1 & _ & Nz1); eauto with big.
  specialize (Nz1 (trim_nvec _ Hz0) Hz2). rewrite trim_dval, Ez0, Ez2 in Ez1.
  pose proof (karatsuba_middle (dval low_x) (dval high_x) (dval low_y) (dval high_y) neg) as Hmid.
  cbv zeta in Hmid. rewrite <- Ed0, <- Ediff, <- Etmp, <- (trim_dval tmp) in Hmid.
  set (z1 := I_OPERATION I_add (trim z0) z2) in *. rewrite <- Ez1 in Hmid.
  assert (∃ w, (if neg then I_sub z1 (trim tmp) else I_OPERATION I_add z1 (trim tmp)) = w ∧ digits w ∧
    dval w = dval low_x * dval high_y + dval high_x * dval low_y) as (w & -> & Hw & Ew).
  { eexists. split; [done|]. destruct neg.
    - destruct Hmid as [? ?]; try done. destruct (I_sub_spec z1 (trim tmp)) as (? & He & _); eauto with big.
      { by apply nvec_le_length. }
      rewrite He. eauto with big.
    - destruct (I_OPERATION_add z1 (trim tmp)) as (? & He & _ & _); eauto with big. rewrite He. auto. }
  destruct (karatsuba_combine m z0 z2 w) as [Hres Eres]; try done; [lia|].
  cbv zeta in Hres, Eres. eexists. split; [done|]. set (res := trim (take m _ ++ _)) in *. clearbody res.
  assert (dval res = dval x * dval y) as E by (rewrite Eres, Ez0, Ez2, Ew, Ex, Ey; ring).
  split_and!; eauto with big. apply (nvec_length_lt _ (length x + length y - 1)) in Hres as [_ Hlt].
  replace (S (length x + length y - 1)) with (length x + length y)%nat in Hlt by lia. apply Hlt.
  rewrite E. apply dval_mul_bound; eauto with big.
Qed.

End karatsuba_spec.
