(* ===== verification/BigDiv.v ===== *)
(** Division of digit vectors ([erts/emulator/beam/big.c], [D_mulsub], [D_div],
    [I_div]): division by a digit, and the schoolbook division, which keeps
    the remainder as a magnitude with a sign: an estimate of the next digit
    of the quotient that is too large makes the remainder negative, and the
    following estimates are subtracted from the quotient. *)

From S2P Require Import Prelude BigDigit BigVec BigMul.
From stdpp Require Import base numbers option list.
From Stdlib Require Import ZArith Lia.

#[local] Open Scope Z_scope.

(** ** Definitions *)

Fixpoint D_mulsub_loop (x : list Z) (d : Z) (y : list Z) (c b : Z) : list Z * Z * Z :=
  match x, y with
  | xt :: x, yt :: y =>
      let '(c0, c) := DMULc d yt c in
      let '(s, b) := DSUBb xt c0 b in
      let '(r, c, b) := D_mulsub_loop x d y c b in
      (s :: r, c, b)
  | _, _ => ([], c, b)
  end.

(** The digits stored, and the size returned, which is 0 for a borrow;
    [xl == yl || xl == yl+1]. *)
Definition D_mulsub (x : list Z) (d : Z) (y : list Z) : list Z * nat :=
  let yl := length y in
  let '(r, c, b) := D_mulsub_loop (take yl x) d y 0 0 in
  if (length x =? yl)%nat then
    if negb (c =? 0) || negb (b =? 0) then (r, 0%nat) else (r, length (trim r))
  else
    let '(s, b) := DSUBb (dnth x yl) c b in
    let r := r ++ [s] in
    if negb (b =? 0) then (r, 0%nat) else (r, length (trim r)).

(** The loop of [D_div]: [xs] are the digits from [*xp] down and [q] those of
    the quotient above [qp]. *)
Fixpoint D_div_loop (fuel : nat) (d a1 : Z) (xs q : list Z) : option (list Z * Z) :=
  match fuel with
  | O => None
  | S fuel =>
      '(a1, a0, xs) ← (if a1 <? d then
                         match xs with a0 :: xs => Some (a1, a0, xs) | [] => None end
                       else Some (0, a1, xs));
      let q0 := DDIV a1 a0 d in
      let '(b0, _) := DMUL d q0 in
      let '(a1, _) := DSUB a0 b0 in
      let q := q0 :: q in
      match xs with [] => Some (q, a1) | _ => D_div_loop fuel d a1 xs q end
  end.

Definition D_div (x : list Z) (d : Z) : option (list Z * Z) :=
  match rev x with
  | [] => None
  | a1 :: xp =>
      if (a1 <? d) && (length x =? 1)%nat then Some ([0], a1)
      else D_div_loop (S (length x)) d a1 xp []
  end.

(** The digit of the quotient that is tried, and whether it belongs to the
    next lower place. *)
Definition div_quot (a1 a2 b1 b2 : Z) : Z * bool :=
  if b1 <? a1 then (DDIV2 a1 a2 b1 b2, false)
  else if a1 <? b1 then (DDIV a1 a2 b1, true)
  else if b2 <=? a2 then (1, false)
  else (D_MASK, true).

(** The state of the loop of [I_div]. The pointers [rp] and [qp] are the same
    distance [rl - yl] from [r] and [q]; [div_q] holds the digits of [q] below
    [qp], which are zero, and the [ql] digits from [qp] on. *)
Record div_state : Type := {
  div_r : list Z;
  div_rl : nat;
  div_q : list Z;
  r_signed : bool
}.

(** The part of the body that multiplies, subtracts and adjusts the sign: the
    digits of [r], its length [rl] and the sign after it. [k] is the index of
    [rp] in [r]. *)
Definition I_div_sub (y r : list Z) (rl nsz k : nat) (q0 : Z) (sgn : bool) : list Z * nat * bool :=
  let '(top, nnsz) := D_mulsub (take nsz (drop k r)) q0 y in
  let r := take k r ++ top ++ drop (k + nsz) r in
  let '(r, nnsz, sgn) :=
    if (nnsz =? 0)%nat then
      let '(neg, nnsz) := Z_sub (take rl r) in
      (neg ++ drop rl r,
       if (rl - nnsz <? nsz)%nat then (nsz - (rl - nnsz))%nat else 1%nat,
       negb sgn)
    else (r, nnsz, sgn) in
  let nnsz := if (nnsz =? 1)%nat && (dnth r k =? 0) then 0%nat else nnsz in
  (r, (rl - (nsz - nnsz))%nat, sgn).

Definition I_div_body (y : list Z) (s : div_state) : div_state :=
  let yl := length y in
  let b1 := dnth y (yl - 1) in
  let b2 := dnth y (yl - 2) in
  let r := div_r s in
  let rl := div_rl s in
  let a1 := dnth r (rl - 1) in
  let a2 := dnth r (rl - 2) in
  let '(q0, lower) := div_quot a1 a2 b1 b2 in
  let nsz := if lower then S yl else yl in
  let k := (rl - nsz)%nat in
  let q := take k (div_q s) ++
    (if r_signed s then D_sub (drop k (div_q s)) q0 else D_add (drop k (div_q s)) q0) in
  let '(r, rl, sgn) := I_div_sub y r rl nsz k q0 (r_signed s) in
  {| div_r := r; div_rl := rl; div_q := q; r_signed := sgn |}.

(** The test of the loop. *)
Definition I_div_more (y : list Z) (s : div_state) : bool :=
  0 <=? I_comp (take (div_rl s) (div_r s)) y.

(** [p] rounds of a loop that may end before, with the rounds in binary. *)
Fixpoint loop_pos {A : Type} (body : A → A) (more : A → bool) (p : positive) (s : A + A) : A + A :=
  match s with
  | inr s => inr s
  | inl s =>
      let once s := let s := body s in if more s then inl s else inr s in
      match p with
      | xH => once s
      | xO p => loop_pos body more p (loop_pos body more p (inl s))
      | xI p => loop_pos body more p (loop_pos body more p (once s))
      end
  end.

(** The quotient and the remainder. The bound on the rounds is the number of
    values of the remainder at each of its lengths. *)
Definition I_div (x y : list Z) : option (list Z * list Z) :=
  let xl := length x in
  let yl := length y in
  let b1 := dnth y (yl - 1) in
  let b2 := dnth y (yl - 2) in
  let a1 := dnth x (xl - 1) in
  let a2 := dnth x (xl - 2) in
  let ql := if (b1 <? a1) || ((b1 =? a1) && (b2 <=? a2)) then 1%nat else 0%nat in
  let s := {| div_r := x; div_rl := xl; div_q := replicate (xl - yl + ql) 0; r_signed := false |} in
  match loop_pos (I_div_body y) (I_div_more y) (Z.to_pos (dpow (2 * xl + 1))) (inl s) with
  | inl _ => None
  | inr s =>
      let rl := if (div_rl s =? 0)%nat then 1%nat else div_rl s in
      let r := trim (take rl (div_r s)) in
      let q := div_q s in
      if r_signed s && ((1 <? length r)%nat || negb (dnth r 0 =? 0))
      then Some (D_sub q 1, I_sub y r)
      else Some (q, r)
  end.

(** ** Loops with a binary number of rounds *)

Section loops.

Context {A : Type} (body : A → A) (more : A → bool) (Inv : A → Prop) (Post : A → Prop) (μ : A → Z).
Context (Hμ : ∀ s, Inv s → 0 ≤ μ s).
Context (Hbody : ∀ s, Inv s → if more (body s) then Inv (body s) ∧ μ (body s) < μ s else Post (body s)).

(** After [p] rounds the loop has ended or the measure is down by [p]. *)
Lemma loop_pos_rounds p s : Inv s →
  match loop_pos body more p (inl s) with
  | inr s' => Post s'
  | inl s' => Inv s' ∧ μ s' + Z.pos p ≤ μ s
  end.
Proof.
  revert s. induction p as [p IH|p IH|]; intros s Hs; cbn [loop_pos].
  - specialize (Hbody s Hs). destruct (more (body s)).
    + destruct Hbody as [H1 ?]. specialize (IH _ H1) as H2.
      destruct (loop_pos body more p (inl (body s))) as [s2|s2]; [|by destruct p].
      destruct H2 as [H2 ?]. specialize (IH _ H2). destruct (loop_pos body more p (inl s2)) as [s3|s3]; [|done].
      destruct IH. split; [done|lia].
    + assert (∀ s0, loop_pos body more p (inr s0) = inr s0) as E by (by destruct p). by rewrite !E.
  - specialize (IH _ Hs) as H1. destruct (loop_pos body more p (inl s)) as [s1|s1]; [|by destruct p].
    destruct H1 as [H1 ?]. specialize (IH _ H1). destruct (loop_pos body more p (inl s1)) as [s2|s2]; [|done].
    destruct IH. split; [done|lia].
  - specialize (Hbody s Hs). destruct (more (body s)); [|done]. destruct Hbody. split; [done|lia].
Qed.

Lemma loop_pos_ends p s : Inv s → μ s < Z.pos p →
  ∃ s', loop_pos body more p (inl s) = inr s' ∧ Post s'.
Proof.
  intros Hs Hp. pose proof (loop_pos_rounds p s Hs) as H. destruct (loop_pos _ _ _ _) as [s'|s'].
  - destruct H as [H1 ?]. specialize (Hμ _ H1). lia.
  - by exists s'.
Qed.

End loops.

(** ** Multiplying and subtracting *)

Lemma D_mulsub_loop_spec x d y c b r c' b' : digits x → digit d → digits y → length x = length y →
  digit c → 0 ≤ b ≤ 1 → D_mulsub_loop x d y c b = (r, c', b') →
  digits r ∧ length r = length x ∧ digit c' ∧ 0 ≤ b' ≤ 1 ∧
  dval r - dpow (length x) * (c' + b') = dval x - d * dval y - c - b.
Proof.
  intros Hx Hd. revert y c b r c' b'.
  induction Hx as [|a x Ha Hx IH]; intros [|e y] c b r c' b' Hy Hl Hc Hb; try done; cbn [D_mulsub_loop].
  { intros [= <- <- <-]. cbn [dval length]. rewrite dpow_0. split_and!; try done; lia. }
  inversion_clear Hy as [|?? He Hy'].
  destruct (DMULc d e c) as [c0 c1] eqn:E1. apply DMULc_spec in E1 as (? & ? & ?); try done.
  destruct (DSUBb a c0 b) as [s b1] eqn:E2. apply DSUBb_spec in E2 as (? & ? & ?); try done.
  destruct (D_mulsub_loop x d y c1 b1) as [[r1 c2] b2] eqn:E. intros [= <- <- <-]. injection Hl as Hl.
  apply IH in E as (? & ? & ? & ? & ?); try done.
  split_and!; try done; try lia; [solve_digits|simpl; lia|]. cbn [dval length]. rewrite dpow_S. nia.
Qed.

(** The difference when it is not negative, else its complement. *)
Lemma D_mulsub_spec x d y r n : digits x → digit d → digits y →
  length x = length y ∨ length x = S (length y) → x ≠ [] →
  - dpow (length y) < dval x - d * dval y → D_mulsub x d y = (r, n) →
  digits r ∧ length r = length x ∧
  (0 ≤ dval x - d * dval y ∧ dval r = dval x - d * dval y ∧ n = length (trim r) ∧ n ≠ 0%nat ∨
   dval x - d * dval y < 0 ∧ dval r = dval x - d * dval y + dpow (length x) ∧ n = 0%nat).
Proof.
  intros Hx Hd Hy Hl Hn Hlo. unfold D_mulsub.
  destruct (D_mulsub_loop _ _ _ _ _) as [[r1 c] b] eqn:E.
  assert (length (take (length y) x) = length y) as Hlt by (rewrite length_take; lia).
  apply D_mulsub_loop_spec in E as (Hr & Hlr & Hc & Hb & He); eauto with big; [|lia].
  rewrite Hlt in *. pose proof (dpow_pos (length y)).
  assert (∀ r, r ≠ [] → length (trim r) ≠ 0%nat) as Htrim.
  { intros r0 H0 E0. destruct (trim_spec r0) as (k & _ & H1). destruct (H1 H0) as [? _]. by destruct (trim r0). }
  destruct Hl as [Hl|Hl]; rewrite Hl.
  - rewrite Nat.eqb_refl. rewrite <- Hl, firstn_all in He.
    assert (r1 ≠ []) by (intros ->; destruct x; simpl in *; lia || done).
    pose proof (dval_bound r1 Hr) as Hbd. rewrite Hlr, <- Hl in *. unfold digit in Hc.
    set (P := dpow (length x)) in *. assert (c + b < 2) as Hcb.
    { apply (Z.mul_lt_mono_pos_l P); [done|]. lia. }
    assert (negb (c =? 0) || negb (b =? 0) = negb (c + b =? 0)) as ->.
    { destruct (Z.eqb_spec c 0), (Z.eqb_spec b 0), (Z.eqb_spec (c + b) 0); try done; lia. }
    destruct (Z.eqb_spec (c + b) 0) as [E0|]; cbn [negb]; intros [= <- <-]; (split_and!; [done|lia|]).
    + left. rewrite E0 in He. split_and!; try done; [lia|lia|by apply Htrim].
    + right. assert (c + b = 1) as E1 by lia. rewrite E1 in He. split_and!; try done; lia.
  - rewrite (proj2 (Nat.eqb_neq _ _)) by lia.
    destruct (DSUBb (dnth x (length y)) c b) as [s b1] eqn:E2.
    assert (∃ t, x = take (length y) x ++ [t] ∧ digit t) as (t & Et & Ht).
    { rewrite <- (take_drop (length y) x) in Hx. apply Forall_app in Hx as [_ Hx].
      pose proof (length_drop x (length y)). destruct (drop (length y) x) as [|t [|]] eqn:Ed; simpl in *; try lia.
      exists t. rewrite <- Ed, take_drop. split; [done|]. by inversion Hx. }
    assert (dnth x (length y) = t) as Ent.
    { unfold dnth. rewrite Et, app_nth2 by lia. by replace (length y - length (take (length y) x))%nat with 0%nat by lia. }
    rewrite Ent in E2. apply DSUBb_spec in E2 as (? & Hb1 & ?); try done.
    assert (dval x = dval (take (length y) x) + dpow (length y) * t) as Ex by (rewrite Et at 1; by rewrite dval_snoc, Hlt).
    assert (digits (r1 ++ [s])) as Hrs by solve_digits. pose proof (dval_bound _ Hrs) as Hbd.
    assert (length (r1 ++ [s]) = S (length y)) as Hls by (rewrite length_app; simpl; lia).
    rewrite Hls, dpow_S in Hbd. assert (dval (r1 ++ [s]) = dval r1 + dpow (length y) * s) as Ev by (by rewrite dval_snoc, Hlr).
    assert (r1 ++ [s] ≠ []) by (by destruct r1).
    assert (dval (r1 ++ [s]) - dpow (length y) * D_BASE * b1 = dval x - d * dval y) as Ed by (rewrite Ev, Ex; nia).
    pose proof D_BASE_gt. rewrite dpow_S.
    destruct (Z.eqb_spec b1 0) as [->|]; cbn [negb]; intros [= <- <-]; (split_and!; [done|lia|]).
    + left. split_and!; try done; [lia|lia|]. by apply Htrim.
    + right. assert (b1 = 1) as -> by lia. split_and!; try done; nia.
Qed.

(** ** Division by a digit *)

Lemma D_div_loop_spec fuel d a1 xs q : digit d → 0 ≤ a1 < d → digits xs → xs ≠ [] → (length xs ≤ fuel)%nat →
  ∃ qs r, D_div_loop fuel d a1 xs q = Some (qs ++ q, r) ∧ digits qs ∧ length qs = length xs ∧
    0 ≤ r < d ∧ d * dval qs + r = a1 * dpow (length xs) + dval (rev xs).
Proof.
  intros Hd. revert a1 xs q. induction fuel as [|fuel IH]; intros a1 xs q Ha Hx Hn Hl.
  { destruct xs; simpl in Hl; [done|lia]. }
  destruct xs as [|a0 xs]; [done|]. apply Forall_cons in Hx as [Ha0 Hx]. cbn [D_div_loop].
  rewrite (proj2 (Z.ltb_lt _ _)) by lia. cbn [mbind option_bind].
  destruct (DDIV_spec a1 a0 d) as [Eq Hq]; [done..|]. set (q0 := DDIV a1 a0 d) in *.
  destruct (DMUL d q0) as [b0 b1] eqn:E1. apply DMUL_spec in E1 as (? & ? & E1); try done.
  destruct (DSUB a0 b0) as [r0 bb] eqn:E2. apply DSUB_spec in E2 as (Hr0 & ? & E2); try done.
  pose proof (Z.div_mod (a1 * D_BASE + a0) d ltac:(lia)) as Hdm.
  pose proof (Z.mod_pos_bound (a1 * D_BASE + a0) d ltac:(lia)) as Hm. rewrite <- Eq in Hdm.
  assert (r0 = (a1 * D_BASE + a0) mod d) as Hr.
  { set (m := _ mod d) in *. clearbody m. apply (digit_congr _ _ (bb + b1 - a1)); [done| |lia].
    unfold digit in *. lia. }
  rewrite <- Hr in Hm, Hdm. destruct xs as [|a xs].
  - exists [q0], r0. split_and!; try done; [solve_digits|lia|lia|]. cbn. lia.
  - destruct (IH r0 (a :: xs) (q0 :: q)) as (qs & r & -> & ? & Hlq & ? & He); try done; [simpl in *; lia|].
    exists (qs ++ [q0]), r. split_and!; try lia.
    + by rewrite <- app_assoc.
    + solve_digits.
    + rewrite length_app. simpl in *. lia.
    + cbn [rev] in *. rewrite dval_snoc, (dval_snoc (rev xs ++ [a])), length_app, length_rev.
      rewrite dval_snoc, length_rev in He. cbn [length] in *. rewrite Hlq.
      replace (length xs + 1)%nat with (S (length xs)) by lia. rewrite !dpow_S in *. rewrite dval_snoc, length_rev. nia.
Qed.

Lemma D_div_spec x d : nvec x → digit d → 0 < d →
  ∃ q r, D_div x d = Some (q, r) ∧ nvec q ∧ 0 ≤ r < d ∧ dval x = d * dval q + r.
Proof.
  intros Hx Hd Hp. pose proof (nvec_vec x Hx) as [Hdx Hn]. pose proof (vec_length x (nvec_vec x Hx)) as Hlx.
  pose proof (nvec_lower x Hx) as Hlo.
  unfold D_div. destruct (rev x) as [|a1 xp] eqn:Er.
  { apply (f_equal length) in Er. rewrite length_rev in Er. simpl in Er. lia. }
  assert (x = rev xp ++ [a1]) as Ex by (rewrite <- (rev_involutive x), Er; done).
  assert (length x = S (length xp)) as Hl by (rewrite Ex, length_app, length_rev; simpl; lia).
  assert (dval x = dval (rev xp) + dpow (length xp) * a1) as Ev by (by rewrite Ex, dval_snoc, length_rev).
  assert (digit a1 ∧ digits (rev xp)) as [Ha Hxp].
  { rewrite Ex in Hdx. apply Forall_app in Hdx as [? Hd1]. split; [by inversion Hd1|done]. }
  pose proof (dval_bound _ Hxp) as Hbd. rewrite length_rev in Hbd. apply Forall_rev in Hxp as Hxp'. rewrite rev_involutive in Hxp'.
  pose proof D_BASE_gt. unfold digit in Ha.
  assert (∀ q, digits q → (length q = length xp ∧ a1 < d ∧ xp ≠ [] ∨ length q = length x ∧ d ≤ a1) →
    (∃ r, 0 ≤ r < d ∧ dval x = d * dval q + r) → nvec q) as Hnorm.
  { intros q Hq Hlq (r & Hr & E). assert (x ≠ [0] → dpow (length xp) ≤ dval x) as Hlo'.
    { intros. destruct Hlo as [|Hlo]; [done|]. rewrite Hl in Hlo. by replace (S (length xp) - 1)%nat with (length xp) in Hlo by lia. }
    destruct Hlq as [(Hlq & Hlt & Hne)|[Hlq Hle]].
    - apply nvec_intro; [done|by destruct q, xp|]. assert (x ≠ [0]) as Hx0.
      { intros E0. rewrite E0 in Hl. destruct xp; done. }
      specialize (Hlo' Hx0). rewrite Hlq. pose proof (dpow_pos (length xp - 1)). unfold digit in Hd.
      assert (dpow (length xp) = D_BASE * dpow (length xp - 1)) as E1.
      { rewrite <- dpow_S. do 2 f_equal. destruct xp; simpl; [done|lia]. }
      assert (dpow (length xp - 1) * d < d * (dval q + 1)) by nia. nia.
    - apply nvec_intro; [done|intros ->; simpl in *; lia|]. rewrite Hlq, Hl.
      replace (S (length xp) - 1)%nat with (length xp) by lia. pose proof (dpow_pos (length xp)).
      assert (dpow (length xp) * d < d * (dval q + 1)) by nia. nia. }
  destruct (Z.ltb_spec a1 d) as [Hlt|Hge]; cbn [andb].
  - destruct (Nat.eqb_spec (length x) 1) as [E1|E1].
    + destruct xp; [|simpl in *; lia]. exists [0], a1. rewrite Ex. cbn. split_and!; try done; [|lia..].
      apply nvec_last. split_and!; [solve_digits|done|by right].
    + assert (xp ≠ []) by (intros ->; simpl in Hl; lia).
      destruct (D_div_loop_spec (S (length x)) d a1 xp []) as (q & r & E & Hq & Hlq & Hr & He); try done; [lia..|].
      rewrite app_nil_r in E. exists q, r. split; [done|]. assert (dval x = d * dval q + r) by lia.
      split_and!; try lia. apply Hnorm; [done|by left|]. by exists r.
  - cbn [D_div_loop]. rewrite (proj2 (Z.ltb_ge _ _)) by lia. cbn [mbind option_bind].
    destruct (DDIV_spec 0 a1 d) as [Eq Hq]; [done|done|lia|]. set (q0 := DDIV 0 a1 d) in *.
    destruct (DMUL d q0) as [b0 b1] eqn:E1. apply DMUL_spec in E1 as (? & ? & E1); try done.
    destruct (DSUB a1 b0) as [r0 bb] eqn:E2. apply DSUB_spec in E2 as (Hr0 & ? & E2); try done.
    pose proof (Z.div_mod (0 * D_BASE + a1) d ltac:(lia)) as Hdm.
    pose proof (Z.mod_pos_bound (0 * D_BASE + a1) d ltac:(lia)) as Hm. rewrite <- Eq in Hdm.
    assert (r0 = (0 * D_BASE + a1) mod d) as Hr.
    { set (m := _ mod d) in *. clearbody m. apply (digit_congr _ _ (bb + b1)); [done| |lia].
      unfold digit in *. lia. }
    rewrite <- Hr in Hm, Hdm. destruct xp as [|a xp].
    + exists [q0], r0. split; [done|]. cbn [rev dval length] in Ev. rewrite dpow_0 in Ev.
      assert (dval x = d * dval [q0] + r0) by (cbn [dval]; lia). split_and!; try lia.
      apply Hnorm; [solve_digits|by right|]. by exists r0.
    + destruct (D_div_loop_spec (length x) d r0 (a :: xp) [q0]) as (q & r & E & Hdq & Hlq & Hr' & He); try done; [lia|].
      exists (q ++ [q0]), r. split; [done|].
      assert (dval x = d * dval (q ++ [q0]) + r) by (rewrite dval_snoc, Hlq; nia).
      split_and!; try lia. apply Hnorm; [solve_digits|right; rewrite length_app; simpl in *; lia|]. by exists r.
Qed.

(** ** The estimate of a digit of the quotient

    [T] is the part of the remainder that a round divides, with the digits
    [a1] and [a2] at its top, and [Y] the divisor. *)

Section estimate.

Context (a1 a2 b1 b2 P w yw q0 : Z) (lower : bool).
Context (Ha1 : digit a1) (Ha2 : digit a2) (Hb1 : digit b1) (Hb2 : digit b2) (Hp : 0 < b1) (HP : 0 < P).
Context (Hquot : div_quot a1 a2 b1 b2 = (q0, lower)).

Let PW := if lower then D_BASE * P else P.
Let Y := yw + P * (b2 + D_BASE * b1).
Let T := w + PW * (a2 + D_BASE * a1).

Context (Hyw : 0 ≤ yw < P) (Hw : 0 ≤ w < PW).

(** The estimate is at most twice the quotient, the remainder that it leaves
    fits in the length of the divisor, and it is zero only below a zero. *)
Definition estimate_ok : Prop :=
  digit q0 ∧ q0 * Y ≤ 2 * T ∧ (0 < q0 → q0 * Y < 2 * T) ∧
  T - q0 * Y < P * D_BASE * D_BASE ∧ q0 * Y - T < P * D_BASE * D_BASE ∧
  (q0 = 0 → a1 = 0 ∧ lower = true).

Lemma estimate_above : b1 < a1 → estimate_ok.
Proof using All.
  intros Hlt. unfold div_quot in Hquot. rewrite (proj2 (Z.ltb_lt _ _)) in Hquot by done.
  injection Hquot as Eq El. unfold estimate_ok, T, Y, PW in *. rewrite <- El in *. clear El.
  destruct (DDIV2_spec a1 a2 b1 b2) as [E Hq]; [done..|lia|]. rewrite Eq in *. unfold digit in *. pose proof D_BASE_gt.
  set (u := a1 * D_BASE + a2) in *. set (v := b1 * D_BASE + b2) in *.
  assert (v ≤ u ∧ u + 1 ≤ D_BASE * D_BASE ∧ D_BASE ≤ v) as (? & ? & ?) by (unfold u, v; nia).
  pose proof (Z.mul_div_le u v ltac:(lia)). pose proof (Z.mul_succ_div_gt u v ltac:(lia)). rewrite <- E in *.
  assert (1 ≤ q0) by nia. replace (a2 + D_BASE * a1) with u by (unfold u; ring).
  replace (b2 + D_BASE * b1) with v by (unfold v; ring). clearbody u v.
  assert (q0 * yw < q0 * P) by nia. assert (P * q0 ≤ P * u) by nia. assert (P * (v * q0) ≤ P * u) by nia.
  assert (P * (u + 1) ≤ P * (D_BASE * D_BASE)) by nia. assert (P * q0 ≤ P * (v * q0)) by nia.
  assert (q0 * (yw + P * v) = q0 * yw + P * (v * q0)) as -> by ring. assert (0 ≤ q0 * yw) by nia.
  assert (q0 < D_BASE * D_BASE) by nia.
  assert (P * q0 < P * (D_BASE * D_BASE)) by (apply Z.mul_lt_mono_pos_l; lia). split_and!; lia.
Qed.

Lemma estimate_below : a1 < b1 → estimate_ok.
Proof using All.
  intros Hlt. unfold div_quot in Hquot. rewrite (proj2 (Z.ltb_ge _ _)) in Hquot by lia.
  rewrite (proj2 (Z.ltb_lt _ _)) in Hquot by done.
  injection Hquot as Eq El. unfold estimate_ok, T, Y, PW in *. rewrite <- El in *. clear El.
  destruct (DDIV_spec a1 a2 b1) as [E Hq]; [done..|unfold digit in *; lia|]. rewrite Eq in *. unfold digit in *. pose proof D_BASE_gt.
  set (u := a1 * D_BASE + a2) in *. set (P1 := D_BASE * P) in *.
  pose proof (Z.mul_div_le u b1 ltac:(lia)) as H1. pose proof (Z.mul_succ_div_gt u b1 ltac:(lia)) as H2. rewrite <- E in *.
  replace (a2 + D_BASE * a1) with u by (unfold u; ring).
  assert (0 ≤ u) by (unfold u; nia). assert (q0 = 0 → a1 = 0) by (intros ->; unfold u in *; nia). clearbody u.
  set (y' := yw + P * b2). assert (0 ≤ y' < P1) by (unfold y', P1; nia).
  replace (yw + P * (b2 + D_BASE * b1)) with (y' + P1 * b1) by (unfold y', P1; ring).
  replace (P * D_BASE * D_BASE) with (P1 * D_BASE) by (unfold P1; ring). clearbody y' P1.
  assert (0 < P1) by lia. assert (P1 * (b1 * q0) ≤ P1 * u) by nia. assert (P1 * u < P1 * (b1 * (q0 + 1))) by nia.
  assert (q0 * y' ≤ q0 * P1) by nia. assert (0 < q0 → q0 * y' < q0 * P1) by nia.
  assert (P1 * q0 ≤ P1 * (b1 * q0)) by nia. assert (P1 * q0 ≤ P1 * (D_BASE - 1)) by nia.
  assert (P1 * b1 ≤ P1 * (D_BASE - 1)) by nia. assert (0 ≤ q0 * y') by nia.
  assert (q0 * (y' + P1 * b1) = q0 * y' + P1 * (b1 * q0)) as -> by ring.
  split_and!; try done; try lia.
Qed.

Lemma estimate_equal_le : a1 = b1 → b2 ≤ a2 → estimate_ok.
Proof using All.
  intros Ea Hle. unfold div_quot in Hquot. rewrite Ea, Z.ltb_irrefl, (proj2 (Z.leb_le _ _)) in Hquot by done.
  injection Hquot as Eq El. unfold estimate_ok, T, Y, PW in *. rewrite <- El, <- Eq in *. clear El.
  unfold digit in *. pose proof D_BASE_gt. rewrite Ea in *.
  set (u := a2 + D_BASE * b1) in *. set (v := b2 + D_BASE * b1) in *.
  assert (v ≤ u ∧ u + 1 ≤ D_BASE * D_BASE ∧ 1 ≤ v) as (? & ? & ?) by (unfold u, v; nia). clearbody u v.
  assert (P * v ≤ P * u) by nia. assert (P * (u + 1) ≤ P * (D_BASE * D_BASE)) by nia. assert (P ≤ P * v) by nia.
  split_and!; lia.
Qed.

Lemma estimate_equal_gt : a1 = b1 → a2 < b2 → estimate_ok.
Proof using All.
  intros Ea Hlt. unfold div_quot in Hquot. rewrite Ea, Z.ltb_irrefl, (proj2 (Z.leb_gt _ _)) in Hquot by done.
  injection Hquot as Eq El. unfold estimate_ok, T, Y, PW in *. rewrite <- El, <- Eq, D_MASK_eq in *. clear El.
  unfold digit in *. pose proof D_BASE_gt. rewrite Ea in *. set (P1 := D_BASE * P) in *.
  set (y' := yw + P * b2). assert (0 ≤ y' < P1) by (unfold y', P1; nia).
  assert (P1 * (a2 + 1) ≤ D_BASE * y') by (unfold y', P1; nia).
  replace (yw + P * (b2 + D_BASE * b1)) with (y' + P1 * b1) by (unfold y', P1; ring).
  replace (P * D_BASE * D_BASE) with (P1 * D_BASE) by (unfold P1; ring). clearbody y' P1.
  assert (P1 ≤ P1 * b1) by nia. assert (D_BASE * y' < D_BASE * P1) by nia.
  assert (D_BASE * P1 ≤ D_BASE * (P1 * b1)) by nia.
  assert (0 ≤ P1 * a2) by nia. assert (P1 * b1 ≤ P1 * (D_BASE - 1)) by nia.
  assert ((D_BASE - 1) * (y' + P1 * b1) = D_BASE * y' - y' + D_BASE * (P1 * b1) - P1 * b1) as -> by ring.
  split_and!; lia.
Qed.

Lemma estimate_spec : estimate_ok.
Proof using All.
  destruct (Z.lt_trichotomy a1 b1) as [|[|]]; [by apply estimate_below| |by apply estimate_above].
  destruct (Z.le_gt_cases b2 a2); [by apply estimate_equal_le|by apply estimate_equal_gt].
Qed.

End estimate.

(** The next lower place is used only below the divisor. *)
Lemma estimate_lower a1 a2 b1 b2 q0 : digit a1 → digit a2 → digit b1 → digit b2 →
  div_quot a1 a2 b1 b2 = (q0, true) → a2 + D_BASE * a1 < b2 + D_BASE * b1.
Proof.
  unfold div_quot, digit. intros ? ? ? ?. destruct (Z.ltb_spec b1 a1); [done|].
  destruct (Z.ltb_spec a1 b1); [nia|]. destruct (Z.leb_spec b2 a2); [done|]. nia.
Qed.

(** ** A round of the division *)

(** A vector cut at its two upper digits. *)
Lemma top_two x : digits x → (2 ≤ length x)%nat →
  ∃ w, length w = (length x - 2)%nat ∧ digits w ∧
    x = w ++ [dnth x (length x - 2); dnth x (length x - 1)] ∧
    digit (dnth x (length x - 2)) ∧ digit (dnth x (length x - 1)).
Proof.
  intros Hx Hl. exists (take (length x - 2) x).
  assert (length (take (length x - 2) x) = length x - 2)%nat as Hw by (rewrite length_take; lia).
  rewrite <- (take_drop (length x - 2) x) in Hx. apply Forall_app in Hx as [? Hd].
  pose proof (length_drop x (length x - 2)) as Hld.
  destruct (drop (length x - 2) x) as [|a [|b [|]]] eqn:E; simpl in Hld; try lia.
  apply Forall_cons in Hd as [? [? _]%Forall_cons].
  assert (x = take (length x - 2) x ++ [a; b]) as Ex by (by rewrite <- E, take_drop).
  assert (dnth x (length x - 2) = a) as ->.
  { unfold dnth. rewrite Ex at 2. rewrite app_nth2 by lia. rewrite Hw, Nat.sub_diag. done. }
  assert (dnth x (length x - 1) = b) as ->.
  { unfold dnth. rewrite Ex at 2. rewrite app_nth2 by lia. rewrite Hw.
    replace (length x - 1 - (length x - 2))%nat with 1%nat by lia. done. }
  done.
Qed.

(** Cutting off leading zeros, or one zero digit, keeps the value. *)
Lemma dval_trim_take r rl n : digits r → (rl ≤ length r)%nat → (length (trim (take rl r)) ≤ n ≤ rl)%nat →
  dval (take n r) = dval (take rl r).
Proof.
  intros Hr Hl Hn. destruct (trim_spec (take rl r)) as (m & E & _).
  assert (take n r = trim (take rl r) ++ replicate (n - length (trim (take rl r))) 0) as ->.
  { replace (take n r) with (take n (take rl r)) by (rewrite take_take; f_equal; lia).
    rewrite E at 1. rewrite take_app_ge by lia. f_equal. rewrite take_replicate. f_equal.
    apply (f_equal length) in E. rewrite length_app, length_replicate, length_take in E. lia. }
  rewrite dval_app, dval_zeros, trim_dval. lia.
Qed.

(** A single zero digit at the top is left out. *)
Lemma div_adjust r rl nsz k n n2 : (rl = k + nsz)%nat → (rl ≤ length r)%nat → (1 ≤ n ≤ nsz)%nat → (n2 ≤ n)%nat →
  let n3 := if (n2 =? 1)%nat && (dnth r k =? 0) then 0%nat else n2 in
  (k ≤ rl - (nsz - n3) ≤ k + n)%nat ∧ dval (take (rl - (nsz - n3)) r) = dval (take (k + n2) r) ∧
  (n2 ≠ 0%nat → (rl - (nsz - n3))%nat = 0%nat → dnth r 0 = 0).
Proof.
  intros Erl Hl Hn Hn2 n3. subst n3. destruct (Nat.eqb_spec n2 1) as [->|]; cbn [andb].
  - destruct (Z.eqb_spec (dnth r k) 0) as [E0|].
    + split; [lia|]. replace (k + 1)%nat with (S k) by lia. rewrite dval_take_S by lia.
      rewrite E0. replace (rl - (nsz - 0))%nat with k by lia. split; [lia|]. by intros _ ->.
    + split; [lia|]. split; [do 2 f_equal; lia|lia].
  - split; [lia|]. split; [do 2 f_equal; lia|lia].
Qed.

Lemma take_trimmed low top hi :
  dval (take (length low + length (trim top)) (low ++ top ++ hi)) = dval (low ++ top).
Proof.
  rewrite take_app_add, !dval_app. do 2 f_equal. rewrite <- (trim_dval top).
  destruct (trim_spec top) as (j & Ej & _). rewrite Ej at 2. rewrite <- app_assoc. by rewrite take_app_length.
Qed.

(** The complement of a remainder that has become negative. *)
Lemma div_negate lt hi rl nsz k n : digits lt → length lt = rl → (rl = k + nsz)%nat → (1 ≤ n ≤ nsz)%nat →
  0 < dval lt → dpow rl - dval lt < dpow (k + n) →
  let neg := Z_sub_loop lt 0 in
  let m := length (trim neg) in
  let n2 := if (rl - m <? nsz)%nat then (nsz - (rl - m))%nat else 1%nat in
  digits neg ∧ length neg = rl ∧ (n2 ≤ n)%nat ∧ n2 ≠ 0%nat ∧ dval (take (k + n2) (neg ++ hi)) = dpow rl - dval lt.
Proof.
  intros Hlt Hl Erl Hn Hpos Hb neg m. destruct (Z_sub_spec lt) as (H1 & H2 & H3); try done.
  fold neg in H1, H2, H3. rewrite Hl in *. clearbody neg.
  assert (vec neg) as Hvn by (split; [done|]; intros ->; simpl in H2; lia).
  assert (m ≤ k + n)%nat as Hm.
  { apply nvec_length_le; [by apply trim_nvec|lia|]. by rewrite trim_dval, H3. }
  pose proof (vec_length _ (nvec_vec _ (trim_nvec _ Hvn))) as Hm1. fold m in Hm1. intros n2.
  assert (n2 ≤ n ∧ n2 ≠ 0 ∧ m ≤ k + n2 ≤ rl)%nat as (Hn2 & Hn0 & Hkn) by (unfold n2; destruct (Nat.ltb_spec (rl - m) nsz); lenlia).
  split_and!; try done. rewrite <- H3. rewrite take_app_le by lia.
  assert (take rl neg = neg) as Et by (by rewrite <- H2, firstn_all).
  rewrite (dval_trim_take neg rl); rewrite ?Et; done || lia.
Qed.

Lemma I_div_sub_spec y r rl nsz k q0 sgn r' rl' sgn' new : digits y → y ≠ [] → digits r → digit q0 →
  rl = (k + nsz)%nat → (rl ≤ length r)%nat → nsz = length y ∨ nsz = S (length y) →
  Z.abs (dval (take nsz (drop k r)) - q0 * dval y) < dpow (length y) →
  I_div_sub y r rl nsz k q0 sgn = (r', rl', sgn') →
  new = dval (take rl r) - dpow k * (q0 * dval y) →
  digits r' ∧ length r' = length r ∧ (k ≤ rl' ≤ k + length y)%nat ∧ (rl' = 0%nat → dnth r' 0 = 0) ∧
  dval (take rl' r') = Z.abs new ∧ sgn' = (if new <? 0 then negb sgn else sgn).
Proof.
  intros Hy Hny Hr Hq0 Erl Hrl Hnsz Habs. unfold I_div_sub.
  assert (1 ≤ length y ≤ nsz)%nat as Hy1 by (destruct y; simpl in *; [done|lenlia]).
  set (win := take nsz (drop k r)) in *. set (qy := q0 * dval y) in *.
  assert (length win = nsz) as Hlw by (unfold win; rewrite length_take, length_drop; lenlia).
  assert (digits win) as Hw by (unfold win; eauto with big).
  destruct (D_mulsub win q0 y) as [top m] eqn:E.
  apply D_mulsub_spec in E as (Ht & Hlt & E); try done; [|lenlia|intros ->; simpl in *; lenlia|fold qy; lia].
  fold qy in E. clearbody qy.
  set (low := take k r). assert (length low = k) as Hll by (unfold low; rewrite length_take; lenlia).
  assert (digits low) as Hlow by (unfold low; eauto with big).
  assert (dval (take rl r) = dval low + dpow k * dval win) as Ev.
  { rewrite Erl, <- take_take_drop, dval_app. fold low. by rewrite Hll. }
  set (hi := drop (k + nsz) r). assert (digits hi) as Hhi by (unfold hi; eauto with big).
  assert (length hi = length r - rl)%nat as Hlh by (unfold hi; rewrite length_drop; lenlia).
  clearbody low win hi.
  assert (length (low ++ top) = rl) as Hllt by (rewrite length_app; lenlia).
  assert (dval (low ++ top) = dval low + dpow k * dval top) as Elt by (by rewrite dval_app, Hll).
  assert (digits (low ++ top)) as Hdlt by solve_digits.
  rewrite Ev. intros Hstep ->. revert Hstep. clear Ev.
  destruct E as [(H0 & Etop & -> & Hm)|(H0 & Etop & ->)].
  - rewrite (proj2 (Nat.eqb_neq _ _)) by done. intros [= <- <- <-].
    assert (vec top) as Hvt by (split; [done|]; intros ->; simpl in Hlt; lenlia).
    assert (length (trim top) ≤ length y)%nat as Hlt2.
    { apply nvec_length_le; [by apply trim_nvec|lenlia|]. rewrite trim_dval, Etop. clear - Habs. lia. }
    assert (length (low ++ top ++ hi) = length r) as Hl1 by (rewrite app_assoc, length_app; lenlia).
    destruct (div_adjust (low ++ top ++ hi) rl nsz k (length y) (length (trim top))) as (Hb & Hv & Hz); [done|lenlia|done..|].
    assert (0 ≤ dval (low ++ top)) as Hnn by (by apply dval_nonneg).
    assert (dval low + dpow k * dval win - dpow k * qy = dval (low ++ top)) as -> by (rewrite Elt, Etop; ring).
    split_and!; [solve_digits|done|apply Hb|apply Hb|by apply Hz| |by rewrite (proj2 (Z.ltb_ge _ _))].
    rewrite Hv, Z.abs_eq, <- Hll by done. apply take_trimmed.
  - cbn [Nat.eqb]. unfold Z_sub. rewrite app_assoc. rewrite take_app_length', drop_app_length' by done.
    intros [= <- <- <-]. rewrite Hlw in *.
    assert (dval low + dpow k * dval win - dpow k * qy = dval (low ++ top) - dpow rl) as ->.
    { rewrite Elt, Etop, Erl, dpow_add. ring. }
    pose proof (dval_bound low Hlow) as Hbl. rewrite Hll in Hbl. pose proof (dpow_pos k) as Hpk.
    assert (dpow (length y) ≤ dpow nsz) as Hpn by (apply dpow_mono; lenlia).
    assert (0 < dval (low ++ top) < dpow rl ∧ dpow rl - dval (low ++ top) < dpow (k + length y)) as [Hpos Hlo].
    { rewrite Elt, Etop, Erl, !dpow_add. clear - Habs Hbl Hpk Hpn H0. set (D := dval win - qy) in *. clearbody D.
      assert (dpow k * D < dpow k * 0) by (apply Z.mul_lt_mono_pos_l; lia).
      assert (dpow k * - D < dpow k * dpow (length y)) by (apply Z.mul_lt_mono_pos_l; lia).
      assert (0 < dpow k * (D + dpow nsz)) by (apply Z.mul_pos_pos; lia).
      assert (dpow k * D ≤ dpow k * -1) by (apply Z.mul_le_mono_nonneg_l; lia). lia. }
    destruct (div_negate (low ++ top) hi rl nsz k (length y)) as (Hn1 & Hn2 & Hn3 & Hn0 & Hn4); [done..|lia|done|].
    set (neg := Z_sub_loop (low ++ top) 0) in *. clearbody neg. set (n2 := if (_ <? nsz)%nat then _ else _) in *. clearbody n2.
    assert (length (neg ++ hi) = length r) as Hlnh by (rewrite length_app; lenlia).
    destruct (div_adjust (neg ++ hi) rl nsz k (length y) n2) as (Hb & Hv & Hz); [done|lenlia|done..|].
    split_and!; [solve_digits|done|apply Hb|apply Hb|by apply Hz| |].
    + rewrite Hv, Hn4. clear - Hpos. lia.
    + rewrite (proj2 (Z.ltb_lt _ _)); [done|]. clear - Hpos. lia.
Qed.

(** The vector of the quotient after a round. *)
Lemma last_nonzero z : nvec z → 0 < dval z → last z ≠ Some 0.
Proof. intros (? & ? & [?| ->])%nvec_last; [done|]. simpl. lia. Qed.

Lemma last_drop (q : list Z) k : (k < length q)%nat → last (drop k q) = last q.
Proof.
  intros Hk. rewrite <- (take_drop k q) at 2. rewrite last_app.
  destruct (last (drop k q)) eqn:E; [done|]. apply last_None in E.
  apply (f_equal length) in E. rewrite length_drop in E. simpl in E. lia.
Qed.

Lemma div_q_spec q k q0 (sgn : bool) :
  digits q → (k < length q)%nat → digit q0 → (sgn → q0 ≤ dval (drop k q)) →
  let q' := take k q ++ (if sgn then D_sub (drop k q) q0 else D_add (drop k q) q0) in
  digits q' ∧ (k < length q')%nat ∧ dval q' = (if sgn then dval q - dpow k * q0 else dval q + dpow k * q0) ∧
  take k q' = take k q ∧
  ((if sgn then q0 < dval (drop k q) else last q ≠ Some 0 ∨ drop k q = [0] ∧ 0 < q0) → last q' ≠ Some 0).
Proof.
  intros Hq Hk Hq0 Hle q'. assert (length (take k q) = k) as Hl by (rewrite length_take; lia).
  assert (drop k q ≠ []) as Hne.
  { intros E. apply (f_equal length) in E. rewrite length_drop in E. simpl in E. lia. }
  assert (vec (drop k q)) as Hv by (split; [by apply digits_drop|done]).
  assert (∃ z, q' = take k q ++ z ∧ vec z ∧
    dval z = (if sgn then dval (drop k q) - q0 else dval (drop k q) + q0) ∧
    ((if sgn then q0 < dval (drop k q) else last q ≠ Some 0 ∨ drop k q = [0] ∧ 0 < q0) → last z ≠ Some 0))
    as (z & -> & [Hz Hnz] & Ez & Lz).
  { eexists. split; [done|]. destruct sgn.
    - destruct (D_sub_spec (drop k q) q0) as (Hn & He & _); [done|done|by apply Hle|].
      split_and!; [by apply nvec_vec|done|]. intros. apply last_nonzero; [done|lia].
    - destruct (D_add_spec (drop k q) q0) as (Hd & He & [Hl1 _] & Hn); [done..|].
      split_and!; [|done|].
      + split; [done|]. intros E. rewrite E in Hl1. simpl in Hl1. by destruct (drop k q); simpl in Hl1; [|lia].
      + unfold digit in Hq0. rewrite <- (last_drop q k Hk). intros Hcase.
        assert (nvec (drop k q)) as Hnd.
        { apply nvec_last. split_and!; [apply Hv|done|]. destruct Hcase as [|[-> _]]; [by left|by right]. }
        apply last_nonzero; [by apply Hn|]. rewrite He. destruct Hcase as [Hc|[-> ?]]; [|simpl; lia].
        destruct (nvec_lower _ Hnd) as [E|Hlo]; [by rewrite E in Hc|].
        pose proof (dpow_pos (length (drop k q) - 1)). lia. }
  split_and!.
  - solve_digits.
  - rewrite length_app, Hl. destruct z; simpl; [done|lia].
  - rewrite dval_app, Hl, Ez. rewrite (dval_take_drop k q) by lia. destruct sgn; ring.
  - by apply take_app_length'.
  - intros Hc. rewrite last_app. specialize (Lz Hc). destruct (last z) eqn:E; [done|]. by apply last_None in E.
Qed.

(** The part of the remainder that a round divides. *)
Lemma window_spec r rl nsz : digits r → (rl ≤ length r)%nat → (2 ≤ nsz ≤ rl)%nat →
  let k := (rl - nsz)%nat in
  ∃ w, digits w ∧ length w = (nsz - 2)%nat ∧
    dval (take nsz (drop k r)) = dval w + dpow (nsz - 2) * (dnth r (rl - 2) + D_BASE * dnth r (rl - 1)) ∧
    digit (dnth r (rl - 2)) ∧ digit (dnth r (rl - 1)) ∧
    dval (take rl r) = dval (take k r) + dpow k * dval (take nsz (drop k r)).
Proof.
  intros Hr Hl Hn k. set (win := take nsz (drop k r)).
  assert (length win = nsz) as Hlw by (unfold win; rewrite length_take, length_drop; lia).
  assert (digits win) as Hw by (unfold win; eauto with big).
  destruct (top_two win Hw) as (w & Hlen & Hdw & E & H2 & H1); [lia|]. rewrite Hlw in *.
  assert (∀ i, (i < nsz)%nat → dnth win i = dnth r (k + i)) as Hnth.
  { intros i Hi. unfold dnth, win. rewrite nth_firstn, (proj2 (Nat.ltb_lt _ _)) by done. apply nth_skipn. }
  rewrite !Hnth in * by lia.
  replace (k + (nsz - 2))%nat with (rl - 2)%nat in * by lia.
  replace (k + (nsz - 1))%nat with (rl - 1)%nat in * by lia.
  exists w. split_and!; try done.
  - rewrite E, dval_app, Hlen. cbn [dval]. ring.
  - replace rl with (k + nsz)%nat at 1 by lia. rewrite <- take_take_drop, dval_app, length_take.
    fold win. do 3 f_equal. lia.
Qed.

Lemma dval_take_zero q i j : digits q → (i ≤ j)%nat → dval (take j q) = 0 → dval (take i q) = 0.
Proof.
  intros Hq Hij H0. destruct (decide (length (take j q) ≤ i)%nat) as [Hl|Hl].
  { rewrite <- H0. f_equal. rewrite <- (firstn_all2 (take j q) Hl) at 1. rewrite take_take. f_equal. lia. }
  rewrite (dval_take_drop i) in H0 by lia. rewrite take_take in H0. replace (i `min` j)%nat with i in H0 by lia.
  pose proof (dval_nonneg (take i q) (digits_take _ _ Hq)).
  pose proof (dval_nonneg (drop i (take j q)) (digits_drop _ _ (digits_take _ _ Hq))).
  pose proof (dpow_pos i). nia.
Qed.

Section division.

Context (y : list Z) (X : Z) (xl : nat) (norm : Prop).
Context (Hy : digits y) (Hyl : (2 ≤ length y)%nat) (Hytop : 0 < dnth y (length y - 1)).

Definition div_rem (s : div_state) : Z := dval (take (div_rl s) (div_r s)).
Definition div_lower (s : div_state) : bool :=
  snd (div_quot (dnth (div_r s) (div_rl s - 1)) (dnth (div_r s) (div_rl s - 2))
                (dnth y (length y - 1)) (dnth y (length y - 2))).

(** The facts that hold after each round. *)
Record div_common (s : div_state) : Prop := {
  dc_r : digits (div_r s);
  dc_len : length (div_r s) = xl;
  dc_rl : (div_rl s ≤ xl)%nat;
  dc_zero : div_rl s = 0%nat → dnth (div_r s) 0 = 0;
  dc_q : digits (div_q s);
  dc_value : X = dval y * dval (div_q s) + (if r_signed s then - div_rem s else div_rem s);
  dc_bound : div_rem s ≤ X
}.

(** At the start of a round: the remainder is not shorter or smaller than the
    divisor, and the quotient has its digits down to the place of the round;
    in the first round these are not yet filled. *)
Record div_inv (s : div_state) : Prop := {
  di_common : div_common s;
  di_len : (length y ≤ div_rl s)%nat;
  di_more : div_rl s = length y → dval y ≤ div_rem s;
  di_low : dval (take (div_rl s - length y) (div_q s)) = 0;
  di_place :
    (div_rl s - length y < length (div_q s))%nat ∧ (norm → last (div_q s) ≠ Some 0) ∨
    r_signed s = false ∧ (norm → 0 < dnth (div_r s) (div_rl s - 1)) ∧
    div_q s = replicate (div_rl s - length y + (if div_lower s then 0 else 1)) 0
}.

Definition div_post (s : div_state) : Prop :=
  div_common s ∧ div_rem s < dval y ∧ div_q s ≠ [] ∧ (norm → last (div_q s) ≠ Some 0).

Definition div_measure (s : div_state) : Z := div_rem s * (Z.of_nat xl + 1) + Z.of_nat (div_rl s).

(** The digits that the estimate is made from. *)
Lemma divisor_top : ∃ yw, 0 ≤ yw < dpow (length y - 2) ∧
  dval y = yw + dpow (length y - 2) * (dnth y (length y - 2) + D_BASE * dnth y (length y - 1)) ∧
  digit (dnth y (length y - 2)) ∧ digit (dnth y (length y - 1)).
Proof using Hy Hyl.
  destruct (window_spec y (length y) (length y) Hy) as (w & Hw & Hlw & Ew & ? & ? & _); [done|lia|].
  rewrite Nat.sub_diag, drop_0, firstn_all in Ew. exists (dval w). rewrite Ew.
  pose proof (dval_bound w Hw) as Hb. rewrite Hlw in Hb. by split_and!; try apply Hb.
Qed.

(** The next lower place exists when a round uses it. *)
Lemma place_exists s q0 lower : div_common s → (length y ≤ div_rl s)%nat → (div_rl s = length y → dval y ≤ div_rem s) →
  div_quot (dnth (div_r s) (div_rl s - 1)) (dnth (div_r s) (div_rl s - 2))
           (dnth y (length y - 1)) (dnth y (length y - 2)) = (q0, lower) →
  ((if lower then S (length y) else length y) ≤ div_rl s)%nat.
Proof using Hy Hyl.
  intros [Hr Hlr Hrl _ _ _ _] Hlen Hmore Eq. destruct lower; [|done].
  destruct (decide (div_rl s = length y)) as [E|]; [|lia]. specialize (Hmore E). unfold div_rem in Hmore.
  destruct divisor_top as (yw & Hyw & EY & Hb2 & Hb1).
  destruct (window_spec (div_r s) (div_rl s) (div_rl s) Hr) as (w & Hw & Hlw & Ew & Ha2 & Ha1 & Et); [lia..|].
  apply estimate_lower in Eq; try done.
  rewrite Nat.sub_diag, drop_0 in Ew, Et. pose proof (dval_bound w Hw) as Hbw. rewrite Hlw in Hbw. rewrite E in *.
  set (u := dnth (div_r s) (length y - 2) + _) in *. set (v := dnth y (length y - 2) + _) in *. clearbody u v.
  assert (dpow (length y - 2) * (u + 1) ≤ dpow (length y - 2) * v) by (apply Z.mul_le_mono_nonneg_l; lia). lia.
Qed.

(** What a round does to the state. *)
Lemma body_round s : div_inv s → ∃ k,
  div_common (I_div_body y s) ∧
  (div_rl (I_div_body y s) ≤ k + length y)%nat ∧ (k < length (div_q (I_div_body y s)))%nat ∧
  dval (take k (div_q (I_div_body y s))) = 0 ∧ (norm → last (div_q (I_div_body y s)) ≠ Some 0) ∧
  div_measure (I_div_body y s) < div_measure s.
Proof using Hy Hyl Hytop.
  intros [Hcommon Hlen Hmore Hlow Hplace]. pose proof Hcommon as [Hr Hlr Hrl _ Hq Hval Hbd].
  destruct divisor_top as (yw & Hyw & EY & Hb2 & Hb1).
  pose proof (λ q0 lower, place_exists s q0 lower Hcommon Hlen Hmore) as Hnsz.
  unfold I_div_body, div_lower in *. cbv zeta.
  set (b1 := dnth y (length y - 1)) in *. set (b2 := dnth y (length y - 2)) in *.
  set (a1 := dnth (div_r s) (div_rl s - 1)) in *. set (a2 := dnth (div_r s) (div_rl s - 2)) in *.
  destruct (div_quot a1 a2 b1 b2) as [q0 lower] eqn:Eq. cbn [snd] in Hplace.
  specialize (Hnsz q0 lower eq_refl). pose proof (dpow_pos (length y - 2)) as HP.
  set (nsz := if lower then S (length y) else length y) in *.
  assert (nsz = length y ∨ nsz = S (length y)) as Hnsz2 by (unfold nsz; destruct lower; auto).
  destruct (window_spec (div_r s) (div_rl s) nsz Hr) as (w & Hw & Hlw & Ew & Ha2 & Ha1 & Et); [lenlia|lenlia|].
  set (k := (div_rl s - nsz)%nat) in *. fold a1 a2 in Ew, Ha1, Ha2. set (T := dval (take nsz (drop k (div_r s)))) in *.
  pose proof (dval_bound w Hw) as Hbw. rewrite Hlw in Hbw.
  assert (dpow (nsz - 2) = if lower then D_BASE * dpow (length y - 2) else dpow (length y - 2)) as EPW.
  { unfold nsz. destruct lower; [|done]. rewrite <- dpow_S. do 2 f_equal. lenlia. }
  rewrite EPW in *.
  destruct (estimate_spec a1 a2 b1 b2 (dpow (length y - 2)) (dval w) yw q0 lower) as (Hq0 & E1 & E2 & E3 & E4 & E5);
    try done.
  assert (0 < dval y) as HY.
  { rewrite EY. clear - Hyw HP Hb1 Hb2 Hytop. unfold digit in *. pose proof D_BASE_gt.
    assert (0 < dpow (length y - 2) * (b2 + D_BASE * b1)) by (apply Z.mul_pos_pos; nia). lia. }
  rewrite <- EY, <- Ew, <- dpow_sub2 in * by done. clear EPW Ew Hbw Hlw Hw w EY Hyw yw HP Eq.
  clearbody a2 b2. set (rl := div_rl s) in *. set (q := div_q s) in *. set (r := div_r s) in *.
  (* the place in the quotient *)
  assert (k ≤ rl - length y)%nat as Hkle by (unfold k; lenlia).
  assert ((k < length q)%nat ∧ (norm → last q ≠ Some 0 ∨ (r_signed s = false ∧ drop k q = [0] ∧ 0 < q0))) as [Hkq Hnorm].
  { destruct Hplace as [[H1 H2]|(H1 & H2 & H3)].
    - split; [lenlia|]. intros. left. by apply H2.
    - assert (length q = S k) as Hlq.
      { rewrite H3, length_replicate. unfold k, nsz in *. clear - Hlen Hnsz. destruct lower; lia. }
      split; [lenlia|]. intros Hn. right. split_and!; [done| |].
      + rewrite H3, drop_replicate. rewrite H3, length_replicate in Hlq. rewrite Hlq. by replace (S k - k)%nat with 1%nat by (clear; lia).
      + specialize (H2 Hn). unfold digit in Hq0. clear - E5 H2 Hq0. destruct (decide (q0 = 0)) as [->|]; [|lia].
        destruct E5 as [-> _]; [done|lia]. }
  assert (dval (take k q) = 0) as Hk0 by (by apply (dval_take_zero q k (rl - length y))).
  assert (dval q = dpow k * dval (drop k q)) as EQ.
  { rewrite (dval_take_drop k q) by lenlia. rewrite Hk0. ring. }
  (* what is subtracted is at most twice the remainder *)
  unfold div_rem in Hval, Hbd, Hmore. fold rl r in Hval, Hbd, Hmore. rewrite Et in Hval, Hbd.
  pose proof (dpow_pos k) as Hpk. pose proof (dval_nonneg (take k r) (digits_take _ _ Hr)) as Hlownn.
  set (R := dval (take k r) + dpow k * T) in *. set (a := dpow k * (q0 * dval y)).
  assert (0 ≤ a ≤ 2 * R ∧ (0 < q0 → 0 < a < 2 * R)) as [Ha2R Ha2R'].
  { unfold a, R, digit in *. clear - E1 E2 Hpk Hlownn Hq0 HY.
    assert (0 ≤ q0 * dval y) by (apply Z.mul_nonneg_nonneg; lia).
    assert (0 < q0 → 0 < q0 * dval y) by (intros; apply Z.mul_pos_pos; lia). set (qy := q0 * dval y) in *. clearbody qy.
    assert (dpow k * qy ≤ dpow k * (2 * T)) by (apply Z.mul_le_mono_nonneg_l; lia).
    assert (0 ≤ dpow k * qy) by (apply Z.mul_nonneg_nonneg; lia). split; [lia|]. intros Hp.
    assert (dpow k * qy < dpow k * (2 * T)) by (apply Z.mul_lt_mono_pos_l; [done|auto]).
    assert (0 < dpow k * qy) by (apply Z.mul_pos_pos; auto). lia. }
  assert (r_signed s → q0 ≤ dval (drop k q) ∧ (0 < q0 → q0 < dval (drop k q))) as Hsub.
  { intros Hs. destruct (r_signed s); [|done]. rewrite EQ in Hval.
    assert (dval y * dpow k * q0 ≤ dval y * dpow k * dval (drop k q)) as H1 by (unfold a in Ha2R; clear - Ha2R Hval Hbd; lia).
    assert (0 < dval y * dpow k) by (apply Z.mul_pos_pos; done). split; [by apply Z.mul_le_mono_pos_l in H1|].
    intros Hp. specialize (Ha2R' Hp). apply (Z.mul_lt_mono_pos_l (dval y * dpow k)); [done|].
    unfold a in Ha2R'. clear - Ha2R' Hval Hbd. lia. }
  destruct (div_q_spec q k q0 (r_signed s)) as (Hq1 & Hq2 & Hq3 & Hq4 & Hq5); [done..|intros; by apply Hsub|].
  set (q' := take k q ++ _) in *. clearbody q'.
  destruct (I_div_sub y r rl nsz k q0 (r_signed s)) as [[r' rl'] sgn'] eqn:Es.
  apply (I_div_sub_spec _ _ _ _ _ _ _ _ _ _ (R - a)) in Es as (Hr1 & Hr2 & Hr3 & Hr0 & Hr4 & Hr5); try done;
    [|by intros ->; simpl in *; lenlia|unfold k; lenlia|lenlia|clear - E3 E4; fold T; lia|by rewrite Et].
  exists k. unfold div_measure, div_rem. cbn [div_r div_rl div_q r_signed]. fold rl r. rewrite Hr4, Et. fold R.
  split_and!.
  - constructor; unfold div_rem; cbn [div_r div_rl div_q r_signed]; try done; [by rewrite Hr2|unfold k in Hr3; lenlia| |].
    + rewrite Hr4, Hr5, Hq3. rewrite Hval. unfold a. clear. destruct (r_signed s), (Z.ltb_spec (R - dpow k * (q0 * dval y)) 0); cbn [negb]; lia.
    + rewrite Hr4. clear - Ha2R Hbd. lia.
  - apply Hr3.
  - done.
  - by rewrite Hq4.
  - intros Hn. apply Hq5. specialize (Hnorm Hn). destruct (r_signed s).
    + destruct Hnorm as [Hlast|(? & _)]; [|done]. destruct (decide (q0 = 0)) as [->|Hq0'].
      * assert (vec (drop k q)) as Hv.
        { split; [by apply digits_drop|]. intros E. apply (f_equal length) in E. rewrite length_drop in E. simpl in E. lenlia. }
        destruct (nvec_lower (drop k q)) as [E|Hlo]; [|rewrite <- (last_drop q k), E in Hlast by done; done|].
        { apply nvec_last. split_and!; [apply Hv..|]. left. by rewrite last_drop. }
        pose proof (dpow_pos (length (drop k q) - 1)). clear Hval Hbd. lia.
      * apply Hsub; [done|]. unfold digit in Hq0. clear - Hq0 Hq0'. lia.
    + destruct Hnorm as [?|(_ & ? & ?)]; [by left|by right].
  - destruct (decide (q0 = 0)) as [E0|Hq0'].
    + destruct E5 as [_ El]; [done|]. unfold a. rewrite E0, Z.mul_0_l, Z.mul_0_r, Z.sub_0_r.
      assert (nsz = S (length y)) as Hns by (unfold nsz; by rewrite El).
      assert (rl' < rl)%nat by (unfold k in Hr3; clear - Hr3 Hns Hnsz; lia).
      assert (0 ≤ R) by (clear - Ha2R; lia). rewrite Z.abs_eq by done. clear - H. lia.
    + assert (0 < q0) as Hp by (unfold digit in Hq0; clear - Hq0 Hq0'; lia). specialize (Ha2R' Hp).
      assert (rl' ≤ xl)%nat by (unfold k in Hr3; lenlia).
      assert (Z.abs (R - a) + 1 ≤ R) by (clear - Ha2R'; lia). set (b := Z.abs (R - a)) in *. clearbody b R.
      clear - H H0. nia.
Qed.

(** A round keeps the invariant and brings the measure down, or it is the last. *)
Lemma body_spec s : div_inv s →
  if I_div_more y (I_div_body y s)
  then div_inv (I_div_body y s) ∧ div_measure (I_div_body y s) < div_measure s
  else div_post (I_div_body y s).
Proof using Hy Hyl Hytop.
  intros Hs. destruct (body_round s Hs) as (k & Hc & Hk & Hkq & Hk0 & Hn & Hm).
  set (s' := I_div_body y s) in *. clearbody s'. clear Hs. pose proof Hc as [Hr Hlr Hrl Hz Hq Hval Hbd].
  unfold I_div_more, I_comp. rewrite length_take. replace (div_rl s' `min` length (div_r s'))%nat with (div_rl s') by lenlia.
  destruct (Nat.ltb_spec (div_rl s') (length y)) as [Hlt|Hge].
  { cbn. split_and!; try done; [|intros E; rewrite E in Hkq; simpl in Hkq; lenlia].
    unfold div_rem. pose proof (dval_bound (take (div_rl s') (div_r s')) (digits_take _ _ Hr)) as [_ Hb].
    rewrite length_take in Hb. replace (div_rl s' `min` length (div_r s'))%nat with (div_rl s') in Hb by lenlia.
    assert (nvec y) as Hny.
    { apply nvec_last. assert (y ≠ []) by (intros E; rewrite E in Hyl; simpl in Hyl; lenlia).
      split_and!; [done..|]. left. rewrite dnth_last by done. intros [= E]. clear - Hytop E. lia. }
    destruct (nvec_lower y Hny) as [E|Hlo]; [rewrite E in Hyl; simpl in Hyl; lenlia|].
    pose proof (dpow_mono (div_rl s') (length y - 1) ltac:(clear - Hlt; lia)). clear - Hb Hlo H. lia. }
  assert (dval (take (div_rl s' - length y) (div_q s')) = 0) as Hlow by (apply (dval_take_zero _ _ k); [done|lenlia|done]).
  assert (div_rl s' - length y < length (div_q s'))%nat as Hplace by lenlia.
  destruct (Nat.ltb_spec (length y) (div_rl s')).
  { cbn. split; [|done]. constructor; [done|lenlia|lenlia|done|by left]. }
  assert (div_rl s' = length y) as E by lenlia.
  assert (length (take (div_rl s') (div_r s')) = length y) by (rewrite length_take; lenlia).
  rewrite comp_loop_spec by (try done; by apply digits_take).
  fold (div_rem s'). destruct (Z.compare_spec (div_rem s') (dval y)) as [Hcmp|Hcmp|Hcmp]; cbn.
  - split; [|done]. constructor; [done|lenlia|by rewrite Hcmp|done|by left].
  - split_and!; try done. intros E2. rewrite E2 in Hkq. simpl in Hkq. lenlia.
  - split; [|done]. constructor; [done|lenlia|intros; clear - Hcmp; lia|done|by left].
Qed.

End division.

(** The division ends with the quotient and the remainder. The quotient is in
    normal form if the dividend is and is not smaller than the divisor. *)
Lemma I_div_spec x y : digits x → digits y → (2 ≤ length y ≤ length x)%nat → 0 < dnth y (length y - 1) →
  (length x = length y → dval y ≤ dval x) →
  ∃ q r, I_div x y = Some (q, r) ∧ vec q ∧ nvec r ∧ dval x = dval y * dval q + dval r ∧ dval r < dval y ∧
    (0 < dnth x (length x - 1) → nvec q).
Proof.
  intros Hx Hy Hl Htop Hle. unfold I_div.
  set (ql := if _ || _ then 1%nat else 0%nat).
  set (s0 := Build_div_state x (length x) (replicate (length x - length y + ql) 0) false).
  set (norm := 0 < dnth x (length x - 1)).
  assert (div_inv y (dval x) (length x) norm s0) as Hinv.
  { constructor; unfold div_rem, s0; cbn [div_rl div_q div_r r_signed]; rewrite ?firstn_all.
    - constructor; unfold div_rem; cbn [div_rl div_q div_r r_signed]; rewrite ?firstn_all; try done; try lia; [apply digits_zeros|].
      rewrite dval_zeros. lia.
    - lia.
    - done.
    - rewrite take_replicate. apply dval_zeros.
    - right. split_and!; try done. do 2 f_equal. unfold div_lower, ql. cbn [div_rl div_q div_r r_signed].
      unfold div_quot. set (a1 := dnth x _). set (a2 := dnth x _). set (b1 := dnth y (length y - 1)). set (b2 := dnth y _).
      destruct (Z.ltb_spec b1 a1); [done|]. destruct (Z.ltb_spec a1 b1); cbn [orb].
      + rewrite (proj2 (Z.eqb_neq _ _)) by lia. done.
      + rewrite (proj2 (Z.eqb_eq _ _)) by lia. cbn [andb]. by destruct (b2 <=? a2). }
  destruct (loop_pos_ends (I_div_body y) (I_div_more y) (div_inv y (dval x) (length x) norm)
    (div_post y (dval x) (length x) norm) (div_measure (length x))) with (p := Z.to_pos (dpow (2 * length x + 1))) (s := s0)
    as (s & -> & Hpost).
  { intros s Hs. unfold div_measure. destruct Hs as [[Hr _ _ _ _ _] _ _ _ _].
    pose proof (dval_nonneg _ (digits_take (div_rl s) _ Hr)). unfold div_rem. nia. }
  { intros s Hs. apply body_spec; try done. lia. }
  { done. }
  { unfold div_measure, div_rem, s0. cbn [div_rl div_r]. rewrite firstn_all. pose proof (dval_bound x Hx).
    pose proof (dpow_pos (2 * length x + 1)). rewrite Z2Pos.id by done.
    replace (2 * length x + 1)%nat with (length x + (length x + 1))%nat by lia. rewrite dpow_add.
    assert (Z.of_nat (length x) + 2 ≤ dpow (length x + 1)) as Hlin.
    { pose proof D_BASE_gt. generalize (length x). clear - H1. induction n as [|n IH]; cbn [Nat.add]; [rewrite dpow_S, dpow_0; lia|].
      cbn [Nat.add] in *. rewrite dpow_S. nia. }
    nia. }
  destruct Hpost as ([Hr Hlr Hrl Hz Hq Hval Hbd] & Hlt & Hnq & Hlast). unfold div_rem in *.
  set (rl := if (div_rl s =? 0)%nat then 1%nat else div_rl s). set (r := trim (take rl (div_r s))).
  assert (dval (take rl (div_r s)) = dval (take (div_rl s) (div_r s))) as Ev.
  { unfold rl. destruct (Nat.eqb_spec (div_rl s) 0) as [E|]; [|done].
    rewrite E. rewrite dval_take_S by lia. rewrite (Hz E). lia. }
  assert (vec (take rl (div_r s))) as Hvr.
  { split; [by apply digits_take|]. intros E. apply (f_equal length) in E. rewrite length_take in E. simpl in E.
    unfold rl in E. destruct (Nat.eqb_spec (div_rl s) 0); lia. }
  assert (nvec r) as Hnr by (by apply trim_nvec). assert (dval r = dval (take rl (div_r s))) as Er by apply trim_dval.
  rewrite <- Ev, <- Er in *. clearbody r rl. clear Hvr Ev Er.
  pose proof (dval_nonneg r (proj1 (nvec_vec r Hnr))) as Hr0.
  pose proof (dval_nonneg (div_q s) Hq) as Hq0. pose proof (dval_nonneg y Hy) as Hy0.
  assert (norm → dval y ≤ dval x) as Hxy.
  { intros Hn. destruct (decide (length x = length y)); [by apply Hle|].
    assert (nvec x) as Hnx.
    { apply nvec_last. assert (x ≠ []) by (intros ->; simpl in *; lia). split_and!; [done..|]. left.
      rewrite dnth_last by done. unfold norm in Hn. intros [= E]. lia. }
    destruct (nvec_lower x Hnx) as [->|Hlo]; [simpl in *; lia|]. pose proof (dval_bound y Hy).
    pose proof (dpow_mono (length y) (length x - 1) ltac:(lia)). lia. }
  assert ((1 <? length r)%nat || negb (dnth r 0 =? 0) = negb (dval r =? 0)) as ->.
  { pose proof (vec_length r (nvec_vec r Hnr)). destruct r as [|d [|e r]]; [simpl in *; lia| |].
    - cbn. by replace (d + D_BASE * 0) with d by lia.
    - cbn [length Nat.ltb Nat.leb orb]. destruct (nvec_lower _ Hnr) as [|Hlo]; [done|].
      pose proof (dpow_pos (length (d :: e :: r) - 1)). symmetry. apply negb_true_iff, Z.eqb_neq. lia. }
  destruct (r_signed s && negb (dval r =? 0)) eqn:Eb.
  - apply andb_true_iff in Eb as [Es Enz%negb_true_iff%Z.eqb_neq]. rewrite Es in Hval.
    assert (1 ≤ dval (div_q s)) by nia.
    destruct (D_sub_spec (div_q s) 1) as (Hnq1 & Eq1 & _); [done|apply digit_1|done|].
    assert (vec y) as Hvy by (split; [done|intros ->; simpl in *; lia]).
    assert (nvec y) as Hny.
    { apply nvec_last. split_and!; [apply Hvy..|]. left. rewrite dnth_last by apply Hvy. intros [= E]. lia. }
    destruct (I_sub_spec y r) as (Hni & Ei & _); eauto with big; [apply nvec_le_length; try done; lia|lia|].
    eexists _, _. split; [done|]. split_and!; try done; [by apply nvec_vec|rewrite Ei, Eq1; lia|lia].
  - eexists _, _. split; [done|]. split_and!; try done.
    + apply andb_false_iff in Eb as [Es|Eb%negb_false_iff%Z.eqb_eq]; [by rewrite Es in Hval|].
      rewrite Eb in *. destruct (r_signed s); lia.
    + intros Hn. apply nvec_last. split_and!; try done. left. by apply Hlast.
Qed.

Lemma nvec_top x : nvec x → (2 ≤ length x)%nat → 0 < dnth x (length x - 1).
Proof.
  intros (Hx & Hn & Hl)%nvec_last H2. destruct Hl as [Hl| ->]; [|simpl in H2; lia].
  rewrite dnth_last in Hl by done. destruct (top_two x Hx H2) as (_ & _ & _ & _ & _ & Hd).
  unfold digit in Hd. assert (dnth x (length x - 1) ≠ 0) by congruence. lia.
Qed.

(** On vectors in normal form. *)
Lemma I_div_nvec x y : nvec x → nvec y → (2 ≤ length y)%nat → dval y ≤ dval x →
  ∃ q r, I_div x y = Some (q, r) ∧ nvec q ∧ nvec r ∧ dval x = dval y * dval q + dval r ∧ dval r < dval y.
Proof.
  intros Hx Hy Hl Hle. pose proof (nvec_le_length y x Hy Hx Hle).
  destruct (I_div_spec x y) as (q & r & ? & ? & ? & ? & ? & Hn); eauto with big; [by apply nvec_top|].
  exists q, r. split_and!; try done. apply Hn, nvec_top; [done|lia].
Qed.
