(* ===== verification/BigShift.v ===== *)
(** Shifts of digit vectors ([erts/emulator/beam/big.c], [I_lshift]): to the
    left by a positive distance, to the right by a negative one, rounding
    towards minus infinity when the number is negative. *)

From S2P Require Import Prelude BigDigit BigVec.
From stdpp Require Import base numbers option list.
From Stdlib Require Import ZArith Lia.

#[local] Open Scope Z_scope.

(** ** Definitions *)

(** The loop of the shift to the left, from the least significant digit. *)
Fixpoint lshift_loop (sw : Z) (x : list Z) (a1 : Z) : list Z * Z :=
  match x with
  | xt :: x =>
      let a0 := Z.lor (u64 (Z.shiftl xt sw)) a1 in
      let a1 := Z.shiftr xt (D_EXP - sw) in
      let '(r, a1) := lshift_loop sw x a1 in
      (a0 :: r, a1)
  | [] => ([], a1)
  end.

(** The loop of the shift to the right, from the most significant digit. *)
Fixpoint rshift_loop (sw : Z) (x : list Z) (a0 : Z) : list Z * Z :=
  match x with
  | xt :: x =>
      let a1 := Z.lor (Z.shiftr xt sw) a0 in
      let a0 := u64 (Z.shiftl xt (D_EXP - sw)) in
      let '(r, a0) := rshift_loop sw x a0 in
      (a1 :: r, a0)
  | [] => ([], a0)
  end.

Definition I_lshift (x : list Z) (y : Z) (sign : bool) : list Z :=
  let xl := length x in
  if y =? 0 then x
  else if (xl =? 1)%nat && (dnth x 0 =? 0) then [0]
  else
    let ay := u64 (if y <? 0 then - y else y) in
    let bw := Z.to_nat (ay / D_EXP) in
    let sw := ay mod D_EXP in
    if 0 <? y then
      let '(r, a1) := if negb (sw =? 0) then lshift_loop sw x 0 else (x, 0) in
      let r := replicate bw 0 ++ r in
      if a1 =? 0 then r else r ++ [a1]
    else if (xl <=? bw)%nat then (if sign then [1] else [0])
    else
      let add_one := sign && existsb (λ z, negb (z =? 0)) (take bw x) in
      let rl := (xl - bw)%nat in
      let '(r, a0) :=
        if negb (sw =? 0) then
          let '(r, a0) := rshift_loop sw (rev (drop bw x)) 0 in (rev r, a0)
        else (drop bw x, 0) in
      let add_one := add_one || (sign && negb (a0 =? 0)) in
      if dnth r (rl - 1) =? 0 then
        if (rl =? 1)%nat then (if sign then [1] else r)
        else
          let r := take (rl - 1) r in
          if add_one then D_add r 1 else r
      else if add_one then D_add r 1 else r.

(** ** The loops *)

(** The two parts of a digit of the result have no bit in common. *)
Lemma lor_high_low a b n : 0 ≤ n → 0 ≤ b < 2 ^ n → Z.lor (a * 2 ^ n) b = a * 2 ^ n + b.
Proof.
  intros Hn Hb. rewrite Z.add_nocarry_lxor, Z.lxor_lor; [done|..].
  all: apply Z.bits_inj'; intros i Hi; rewrite Z.land_spec, Z.bits_0;
    destruct (Z.lt_ge_cases i n);
    [rewrite Z.mul_pow2_bits_low by done; done|].
  all: destruct (decide (b = 0)) as [->|]; [by rewrite Z.bits_0, andb_false_r|].
  all: rewrite (Z.bits_above_log2 b i); [by rewrite andb_false_r|lia|].
  all: assert (Z.log2 b < n) by (apply Z.log2_lt_pow2; lia); lia.
Qed.

Section shift.

Context (sw : Z) (Hsw : 0 < sw < D_EXP).

Let p := 2 ^ sw.
Let q := 2 ^ (D_EXP - sw).

Lemma shift_base : D_BASE = p * q ∧ 0 < p ∧ 0 < q.
Proof using Hsw.
  unfold p, q. rewrite <- Z.pow_add_r by lia. replace (sw + (D_EXP - sw)) with D_EXP by lia.
  split_and!; [done|apply Z.pow_pos_nonneg; lia..].
Qed.

Lemma lshift_loop_spec x a1 r a : digits x → 0 ≤ a1 < p → lshift_loop sw x a1 = (r, a) →
  digits r ∧ length r = length x ∧ 0 ≤ a < p ∧ dval r + dpow (length x) * a = dval x * p + a1.
Proof using Hsw.
  destruct shift_base as (EB & Hp & Hq). intros Hx. revert a1 r a.
  induction Hx as [|d x Hd Hx IH]; intros a1 r a Ha; cbn [lshift_loop].
  { intros [= <- <-]. cbn [dval length]. rewrite dpow_0. split_and!; try done; lia. }
  destruct (lshift_loop sw x _) as [r1 a'] eqn:E. intros [= <- <-].
  assert (u64 (Z.shiftl d sw) = (d mod q) * p) as E1.
  { rewrite Z.shiftl_mul_pow2 by lia. fold p. rewrite u64_base, EB, (Z.mul_comm p q).
    rewrite Z.mul_mod_distr_r by lia. done. }
  assert (Z.shiftr d (D_EXP - sw) = d / q) as E2 by (by rewrite Z.shiftr_div_pow2 by lia).
  pose proof (Z.div_mod d q ltac:(lia)) as Hdm. pose proof (Z.mod_pos_bound d q ltac:(lia)) as Hm.
  assert (0 ≤ d / q < p) as Hdq.
  { unfold digit in Hd. split; [apply Z.div_pos; lia|apply Z.div_lt_upper_bound; nia]. }
  rewrite E1, E2 in *. unfold p in E1, Ha |- *. rewrite lor_high_low by lia. fold p in Ha |- *.
  apply IH in E as (? & ? & ? & E); [|done]. set (m := d mod q) in *. set (h := d / q) in *.
  split_and!; [|simpl; lia|lia|lia|].
  - apply Forall_cons. split; [|done]. unfold digit. rewrite EB. nia.
  - cbn [dval length]. rewrite dpow_S. set (P := dpow (length x)) in *. clearbody P. rewrite EB, Hdm. lia.
Qed.

Lemma rshift_loop_spec x c r a : digits x → 0 ≤ c < p → rshift_loop sw x (c * q) = (r, a) →
  digits r ∧ length r = length x ∧
  ∃ c', a = c' * q ∧ 0 ≤ c' < p ∧ dval (rev r) * p + c' = c * dpow (length x) + dval (rev x).
Proof using Hsw.
  destruct shift_base as (EB & Hp & Hq). intros Hx. revert c r a.
  induction Hx as [|d x Hd Hx IH]; intros c r a Ha; cbn [rshift_loop].
  { intros [= <- <-]. cbn [dval length rev]. rewrite dpow_0. split_and!; try done. exists c. split_and!; try done; lia. }
  destruct (rshift_loop sw x _) as [r1 a'] eqn:E. intros [= <- <-].
  assert (u64 (Z.shiftl d (D_EXP - sw)) = (d mod p) * q) as E1.
  { rewrite Z.shiftl_mul_pow2 by lia. fold q. rewrite u64_base, EB. rewrite Z.mul_mod_distr_r by lia. done. }
  assert (Z.shiftr d sw = d / p) as E2 by (by rewrite Z.shiftr_div_pow2 by lia).
  pose proof (Z.div_mod d p ltac:(lia)) as Hdm. pose proof (Z.mod_pos_bound d p ltac:(lia)) as Hm.
  assert (0 ≤ d / p < q) as Hdq.
  { unfold digit in Hd. split; [apply Z.div_pos; lia|apply Z.div_lt_upper_bound; nia]. }
  rewrite E1, E2 in *. rewrite Z.lor_comm. unfold q. rewrite lor_high_low by (unfold q in Hdq; lia). fold q.
  apply IH in E as (? & Hl & c' & -> & Hc' & E); [|done].
  split_and!; [|simpl; lia|].
  - apply Forall_cons. split; [|done]. unfold digit. rewrite EB. nia.
  - exists c'. split_and!; try done; [lia|lia|]. cbn [rev length]. rewrite !dval_snoc, !length_rev, Hl.
    rewrite dpow_S. set (P := dpow (length x)) in *. clearbody P. rewrite EB.
    set (m := d mod p) in *. set (h := d / p) in *. rewrite Hdm. lia.
Qed.

End shift.

(** ** The shift *)

Lemma existsb_nonzero x : digits x → existsb (λ z, negb (z =? 0)) x = negb (dval x =? 0).
Proof.
  induction 1 as [|d x Hd Hx IH]; [done|]. cbn [existsb dval]. rewrite IH. pose proof (dval_nonneg x Hx).
  unfold digit in Hd. pose proof D_BASE_gt.
  destruct (Z.eqb_spec d 0) as [->|], (Z.eqb_spec (dval x) 0) as [E|]; cbn [negb orb]; symmetry;
    rewrite ?negb_true_iff, ?negb_false_iff, ?Z.eqb_eq, ?Z.eqb_neq; nia.
Qed.

(** A distance as the digits and bits that it is made of. *)
Lemma shift_distance ay : 0 ≤ ay →
  2 ^ ay = dpow (Z.to_nat (ay / D_EXP)) * 2 ^ (ay mod D_EXP) ∧ 0 ≤ ay mod D_EXP < D_EXP.
Proof.
  intros Hay. assert (0 < D_EXP) by done. pose proof (Z.div_mod ay D_EXP ltac:(lia)) as E. pose proof (Z.mod_pos_bound ay D_EXP ltac:(lia)) as Hm.
  split; [|done]. assert (0 ≤ ay / D_EXP) by (apply Z.div_pos; lia).
  rewrite Z2Nat.id, D_BASE_eq by done. change (2 ^ 64) with (2 ^ D_EXP).
  rewrite <- Z.pow_mul_r, <- Z.pow_add_r by lia. f_equal. lia.
Qed.

Lemma I_lshift_left x y sign : vec x → 0 < y < 2 ^ 63 →
  vec (I_lshift x y sign) ∧ dval (I_lshift x y sign) = dval x * 2 ^ y ∧ (nvec x → nvec (I_lshift x y sign)).
Proof.
  intros Hx Hy. unfold I_lshift. rewrite (proj2 (Z.eqb_neq _ _)) by lia.
  destruct ((length x =? 1)%nat && (dnth x 0 =? 0)) eqn:E0.
  { apply andb_true_iff in E0 as [E1%Nat.eqb_eq E2%Z.eqb_eq]. destruct x as [|d [|]]; try done.
    cbn in E2. subst d. split_and!; [split; [solve_digits|done]|simpl; lia|done]. }
  rewrite (proj2 (Z.ltb_ge y 0)), (proj2 (Z.ltb_lt 0 y)) by lia.
  rewrite u64_digit by (unfold digit; rewrite D_BASE_eq; lia).
  destruct (shift_distance y) as [Ey Hm]; [lia|]. set (bw := Z.to_nat _) in *. set (sw := y mod D_EXP) in *. clearbody bw sw.
  assert (∃ r a, (if negb (sw =? 0) then lshift_loop sw x 0 else (x, 0)) = (r, a) ∧ digits r ∧ length r = length x ∧
    0 ≤ a < 2 ^ sw ∧ dval r + dpow (length x) * a = dval x * 2 ^ sw) as (r & a & -> & Hr & Hl & Ha & Ev).
  { destruct (Z.eqb_spec sw 0) as [->|]; cbn [negb].
    - exists x, 0. split_and!; try done; [apply Hx|lia].
    - destruct (lshift_loop sw x 0) as [r a] eqn:E. pose proof (shift_base sw ltac:(lia)) as (_ & ? & _).
      apply lshift_loop_spec in E as (? & ? & ? & E); [|lia|apply Hx|lia]. exists r, a. split_and!; try done; lia. }
  set (z := replicate bw 0 ++ r). assert (digits z) as Hz by (unfold z; solve_digits).
  assert (dval z = dpow bw * dval r) as Ez by (unfold z; rewrite dval_app, dval_zeros, length_replicate; lia).
  assert (length z = bw + length x)%nat as Hlz by (unfold z; rewrite length_app, length_replicate; lia).
  pose proof (vec_length x Hx) as H1. clearbody z. pose proof D_BASE_gt.
  assert (digit a) as Hda.
  { unfold digit. split; [lia|]. assert (2 ^ sw < D_BASE) by (rewrite D_BASE_eq; change 64 with D_EXP; apply Z.pow_lt_mono_r; [done|done|lia]). lia. }
  assert (∃ w, (if a =? 0 then z else z ++ [a]) = w ∧ digits w ∧ dval w = dval z + dpow (length z) * a ∧
    (length w = length z ∨ a ≠ 0 ∧ length w = S (length z) ∧ last w ≠ Some 0)) as (w & -> & Hw & Ew & Hlw).
  { eexists. split; [done|]. destruct (Z.eqb_spec a 0) as [->|].
    - split_and!; [done|lia|by left].
    - split_and!; [solve_digits|apply dval_snoc|right]. rewrite length_app, last_snoc. simpl. split_and!; [done|lia|congruence]. }
  assert (w ≠ []) as Hwn by (intros ->; simpl in Hlw; lia).
  assert (dval w = dval x * 2 ^ y) as Ewx.
  { rewrite Ew, Ez, Hlz, dpow_add, Ey. lia. }
  split; [done|]. split; [done|]. intros Hn. apply nvec_last. split_and!; try done.
  destruct Hlw as [Hlw|(_ & _ & ?)]; [|by left]. apply nvec_last.
  destruct (nvec_lower x Hn) as [->|Hlo]; [done|]. apply nvec_intro; try done.
  rewrite Ewx, Ey, Hlw, Hlz. replace (bw + length x - 1)%nat with (bw + (length x - 1))%nat by lia. rewrite dpow_add.
  assert (1 ≤ 2 ^ sw) by (assert (0 < 2 ^ sw) by (apply Z.pow_pos_nonneg; lia); lia). pose proof (dpow_pos bw).
  pose proof (dpow_pos (length x - 1)). nia.
Qed.

(** The digits of the shift to the right before the rounding, and the bits
    shifted out of the digits that remain. *)
Lemma rshift_digits h sw : vec h → 0 ≤ sw < D_EXP →
  ∃ r a, (if negb (sw =? 0) then
            let '(r, a0) := rshift_loop sw (rev h) 0 in (rev r, a0)
          else (h, 0)) = (r, a) ∧ digits r ∧ length r = length h ∧
    dval r = dval h / 2 ^ sw ∧ (a =? 0) = (dval h mod 2 ^ sw =? 0).
Proof.
  intros [Hh Hn] Hsw. destruct (Z.eqb_spec sw 0) as [->|]; cbn [negb].
  { exists h, 0. rewrite Z.pow_0_r, Z.div_1_r, Z.mod_1_r. done. }
  destruct (shift_base sw ltac:(lia)) as (EB & Hp & Hq). set (p := 2 ^ sw) in *. set (q := 2 ^ (D_EXP - sw)) in *.
  destruct (rshift_loop sw (rev h) 0) as [r a] eqn:E. rewrite <- (Z.mul_0_l q) in E.
  apply rshift_loop_spec in E as (Hr & Hl & c & -> & Hc & E); [|lia|by apply Forall_rev|fold p; lia].
  fold p q in E, Hc. fold q. exists (rev r), (c * q). rewrite rev_involutive in E. rewrite length_rev in Hl, E.
  assert (dval h = p * dval (rev r) + c) as Eh by lia.
  split_and!; [done|by apply Forall_rev|by rewrite length_rev| |].
  - apply (Z.div_unique_pos _ _ _ c); [lia|done].
  - rewrite <- (Z.mod_unique_pos (dval h) p (dval (rev r)) c); [|lia|done].
    destruct (Z.eqb_spec c 0) as [->|]; [by rewrite Z.mul_0_l|]. apply Z.eqb_neq. nia.
Qed.

(** Division by a power that is split at a digit. *)
Lemma div_mod_split l h a b : 0 < a → 0 < b → 0 ≤ l < a →
  (l + a * h) / (a * b) = h / b ∧ ((l + a * h) mod (a * b) =? 0) = (l =? 0) && (h mod b =? 0).
Proof.
  intros Ha Hb Hl. pose proof (Z.div_mod h b ltac:(lia)) as E. pose proof (Z.mod_pos_bound h b ltac:(lia)) as Hm.
  set (k := h / b) in *. set (m := h mod b) in *. clearbody k m.
  assert (0 ≤ l + a * m < a * b) by nia.
  rewrite <- (Z.div_unique_pos (l + a * h) (a * b) k (l + a * m)) by (done || (rewrite E; ring)).
  rewrite <- (Z.mod_unique_pos (l + a * h) (a * b) k (l + a * m)) by (done || (rewrite E; ring)).
  split; [done|]. destruct (Z.eqb_spec l 0) as [->|], (Z.eqb_spec m 0) as [->|]; cbn [andb];
    rewrite ?Z.eqb_eq, ?Z.eqb_neq; nia.
Qed.

Lemma I_lshift_right x y sign : vec x → - 2 ^ 63 < y < 0 → (sign = true → 0 < dval x) →
  let s := 2 ^ (- y) in
  let z := I_lshift x y sign in
  vec z ∧ dval z = dval x / s + (if sign && negb (dval x mod s =? 0) then 1 else 0) ∧ (nvec x → nvec z).
Proof.
  intros Hx Hy Hpos. cbv zeta. unfold I_lshift. rewrite (proj2 (Z.eqb_neq _ _)) by lia.
  destruct ((length x =? 1)%nat && (dnth x 0 =? 0)) eqn:E0.
  { apply andb_true_iff in E0 as [E1%Nat.eqb_eq E2%Z.eqb_eq]. destruct x as [|d [|]]; try done.
    cbn in E2. subst d. assert (dval [0] = 0) as E by (cbn [dval]; ring). rewrite E in *.
    assert (0 < 2 ^ (- y)) by (apply Z.pow_pos_nonneg; lia). rewrite Z.div_0_l, Z.mod_0_l by lia.
    split_and!; [split; [solve_digits|done]|by rewrite andb_false_r|done]. }
  clear E0. rewrite (proj2 (Z.ltb_lt y 0)), (proj2 (Z.ltb_ge 0 y)) by lia.
  rewrite u64_digit by (unfold digit; rewrite D_BASE_eq; lia).
  destruct (shift_distance (- y)) as [-> Hm]; [lia|]. set (bw := Z.to_nat _) in *. set (sw := (- y) mod D_EXP) in *. clearbody bw sw.
  assert (0 < 2 ^ sw) as Hp by (apply Z.pow_pos_nonneg; lia). pose proof (dpow_pos bw) as Hb.
  pose proof (vec_length x Hx) as Hl. pose proof (dval_bound x (proj1 Hx)) as Hbx.
  destruct (Nat.leb_spec (length x) bw) as [Hle|Hgt].
  { pose proof (dpow_mono _ _ Hle). assert (dval x < dpow bw * 2 ^ sw) by nia.
    rewrite Z.div_small, Z.mod_small by lia. destruct sign; cbn [andb].
    - specialize (Hpos eq_refl). rewrite (proj2 (Z.eqb_neq _ _)) by lia.
      split_and!; [split; [solve_digits|done]|cbn [negb dval]; ring|].
      intros _. apply nvec_last. split_and!; [solve_digits|done|by left].
    - split_and!; [split; [solve_digits|done]|cbn [dval]; ring|].
      intros _. apply nvec_last. split_and!; [solve_digits|done|by right]. }
  set (low := take bw x). set (h := drop bw x).
  assert (length h = length x - bw)%nat as Hlh by (unfold h; by rewrite length_drop).
  assert (vec h) as Hh by (split; [apply digits_drop, Hx|intros E; rewrite E in Hlh; simpl in Hlh; lia]).
  assert (digits low ∧ length low = bw) as [Hdl Hll] by (split; [apply digits_take, Hx|unfold low; rewrite length_take; lia]).
  assert (dval x = dval low + dpow bw * dval h) as Ex by (apply dval_take_drop; lia).
  assert (nvec x → nvec h) as Hnh.
  { intros Hn. destruct (decide (bw = 0%nat)) as [E|]; [unfold h; by rewrite E, drop_0|].
    apply nvec_drop; [done|lia]. }
  destruct (rshift_digits h sw Hh Hm) as (r & a & Er & Hr & Hlr & Ev & Ea).
  destruct (div_mod_split (dval low) (dval h) (dpow bw) (2 ^ sw)) as [Ed Em]; [done|done| |].
  { pose proof (dval_bound low Hdl) as Hbl. by rewrite Hll in Hbl. }
  rewrite <- Ex in Ed, Em. rewrite Ed, Em, <- Ev, <- Ea.
  fold h in Er. set (rs := if negb (sw =? 0) then _ else _). assert (rs = (r, a)) as -> by exact Er. clear Er.
  fold low. rewrite existsb_nonzero by done.
  assert (sign && negb (dval low =? 0) || sign && negb (a =? 0) = sign && negb ((dval low =? 0) && (a =? 0))) as ->
    by (by destruct sign, (dval low =? 0), (a =? 0)).
  set (add_one := sign && _) in *. rewrite <- Hlh, <- Hlr in *. clear Ex Ed.
  assert (∀ v, vec v → dval v = dval r → (nvec x → nvec v) →
    vec (if add_one then D_add v 1 else v) ∧
    dval (if add_one then D_add v 1 else v) = dval r + (if add_one then 1 else 0) ∧
    (nvec x → nvec (if add_one then D_add v 1 else v))) as Hround.
  { intros v Hv E Hn. destruct add_one; [|split_and!; [done|lia|done]].
    destruct (D_add_spec v 1 Hv digit_1) as (Hd & Ha & [Hl1 _] & Hn1). split_and!; [|lia|auto].
    split; [done|]. intros E0. rewrite E0 in Hl1. pose proof (vec_length v Hv). simpl in Hl1. lia. }
  assert (r ≠ []) as Hrn by (intros ->; simpl in *; destruct Hh as [_ Hh]; by destruct h).
  destruct (Z.eqb_spec (dnth r (length r - 1)) 0) as [Etop|Etop].
  - destruct (Nat.eqb_spec (length r) 1) as [E1|E1].
    + destruct r as [|d [|]]; try done. cbn in Etop. subst d.
      assert (dval [0] = 0) as E00 by (cbn [dval]; ring). rewrite E00 in *. destruct sign.
      * specialize (Hpos eq_refl). assert (add_one = true) as ->.
        { unfold add_one. cbn [andb]. rewrite Ea. pose proof (div_mod_split (dval low) (dval h) (dpow bw) (2 ^ sw)) as H0.
          destruct (Z.eqb_spec (dval low) 0) as [El|]; [|done]. cbn [andb].
          destruct (Z.eqb_spec (dval h mod 2 ^ sw) 0) as [Eh|]; [|done].
          pose proof (Z.div_mod (dval h) (2 ^ sw) ltac:(lia)). assert (dval h = 0) as Eh0 by lia.
          assert (dval x = dval low + dpow bw * dval h) as Ex by (apply dval_take_drop; lia).
          rewrite El, Eh0 in Ex. lia. }
        split_and!; [split; [solve_digits|done]|cbn [dval]; ring|].
        intros _. apply nvec_last. split_and!; [solve_digits|done|by left].
      * assert (add_one = false) as -> by done. split_and!; [done|done|].
        intros _. apply nvec_last. split_and!; [solve_digits|done|by right].
    + assert (2 ≤ length r)%nat as H2 by (destruct r as [|? [|]]; simpl in *; done || lia).
      assert (length (take (length r - 1) r) = length r - 1)%nat as Hlt by (rewrite length_take; lia).
      assert (take (length r - 1) r ≠ []) as Htn by (intros E; rewrite E in Hlt; simpl in Hlt; lia).
      assert (dval (take (length r - 1) r) = dval r) as Et.
      { pose proof (dval_take_S r (length r - 1) ltac:(lia)) as Ets. replace (S (length r - 1)) with (length r) in Ets by lia.
        rewrite firstn_all, Etop in Ets. lia. }
      apply Hround; [split; [by apply digits_take|done]|done|]. intros Hn.
      apply nvec_intro; [by apply digits_take|done|]. rewrite Et, Hlt, Ev.
      destruct (nvec_lower h (Hnh Hn)) as [E|Hlo]; [rewrite E in Hlr; simpl in Hlr; lia|].
      rewrite <- Hlr in Hlo. apply Z.div_le_lower_bound; [done|].
      replace (length r - 1)%nat with (S (length r - 1 - 1)) in Hlo by lia. rewrite dpow_S in Hlo.
      assert (2 ^ sw < D_BASE) by (rewrite D_BASE_eq; change 64 with D_EXP; apply Z.pow_lt_mono_r; [done|done|lia]).
      pose proof (dpow_pos (length r - 1 - 1)). nia.
  - apply Hround; [done|done|]. intros _. apply nvec_last. split_and!; [done..|]. left. rewrite dnth_last by done. congruence.
Qed.

(** The number with a sign. *)
Definition sgnv (sign : bool) (v : Z) : Z := if sign then - v else v.

Lemma I_lshift_spec x y sign : nvec x → (sign = true → 0 < dval x) → - 2 ^ 63 < y < 2 ^ 63 →
  nvec (I_lshift x y sign) ∧
  sgnv sign (dval (I_lshift x y sign)) = Z.shiftl (sgnv sign (dval x)) y.
Proof.
  intros Hx Hs Hy. destruct (Z.lt_trichotomy y 0) as [H|[->|H]].
  - destruct (I_lshift_right x y sign) as (_ & E & Hn); [eauto with big|lia|done|]. split; [auto|].
    replace y with (- - y) at 2 by lia. rewrite Z.shiftl_opp_r, Z.shiftr_div_pow2 by lia. rewrite E.
    assert (0 < 2 ^ (- y)) by (apply Z.pow_pos_nonneg; lia). set (p := 2 ^ (- y)) in *. clearbody p.
    unfold sgnv. destruct sign; cbn [andb]; [|lia].
    destruct (Z.eqb_spec (dval x mod p) 0) as [E0|E0]; cbn [negb].
    + rewrite Z.div_opp_l_z by lia. lia.
    + rewrite Z.div_opp_l_nz by lia. lia.
  - unfold I_lshift. rewrite Z.shiftl_0_r. done.
  - destruct (I_lshift_left x y sign) as (_ & E & Hn); [eauto with big|lia|]. split; [auto|].
    rewrite Z.shiftl_mul_pow2 by lia. rewrite E. unfold sgnv. destruct sign; ring.
Qed.

(** Shifts by a distance that may be zero, on vectors in any form. *)
Lemma I_lshift_up x y : vec x → 0 ≤ y < 2 ^ 63 →
  vec (I_lshift x y false) ∧ dval (I_lshift x y false) = dval x * 2 ^ y.
Proof.
  intros Hx Hy. destruct (decide (y = 0)) as [->|].
  - unfold I_lshift. cbn [Z.eqb]. split; [done|lia].
  - destruct (I_lshift_left x y false) as (? & ? & _); [done|lia|done].
Qed.

Lemma I_lshift_down x y : vec x → 0 ≤ y < 2 ^ 63 →
  vec (I_lshift x (- y) false) ∧ dval (I_lshift x (- y) false) = dval x / 2 ^ y.
Proof.
  intros Hx Hy. destruct (decide (y = 0)) as [->|].
  - unfold I_lshift. cbn [Z.eqb Z.opp]. rewrite Z.pow_0_r, Z.div_1_r. done.
  - destruct (I_lshift_right x (- y) false) as (? & E & _); [done|lia|done|]. rewrite Z.opp_involutive in E.
    split; [done|]. rewrite E. cbn [andb]. lia.
Qed.
