(* ===== verification/BigBz.v ===== *)
(** Recursive division of digit vectors after Burnikel and Ziegler
    ([erts/emulator/beam/big.c], [bz_div_2n_1n], [bz_div_3n_2n], [I_div_bz],
    [I_div_dispatch]). The routines overwrite the dividend and use one block of
    scratch memory in slices; the model passes on the digits that are still
    read, and a product is formed in memory of arbitrary content. *)

From S2P Require Import Prelude BigDigit BigVec BigMul BigDiv BigShift.
From stdpp Require Import base numbers option list.
From Stdlib Require Import ZArith Lia.

#[local] Open Scope Z_scope.

(** ** Definitions *)

Definition BZ_DIV_THRESHOLD : nat := 8.
Definition BZ_DIV_QUOTIENT_THRESHOLD : nat := 64.

(** [Q -= 1]: up to the first digit that is not zero. *)
Fixpoint bz_dec (q : list Z) : list Z :=
  match q with
  | [] => []
  | d :: q => if negb (d =? 0) then u64 (d - 1) :: q else D_MASK :: bz_dec q
  end.

(** A vector copied to a destination of [n] digits: cut or padded with zeros. *)
Definition fit (n : nat) (x : list Z) : list Z := take n x ++ replicate (n - length x) 0.

(** The corrections while the remainder is negative. *)
Fixpoint bz_correct (fuel : nat) (b q r : list Z) (borrow : Z) : option (list Z * list Z) :=
  if borrow =? 0 then Some (q, r)
  else match fuel with
  | O => None
  | S fuel =>
      let q := bz_dec q in
      let '(r, carry) := bz_add_n r b 0 in
      let borrow := if negb (carry =? 0) then u64 (borrow - 1) else borrow in
      bz_correct fuel b q r borrow
  end.

Section bz.

Variable tmp_heap : nat → list Z.

(** [div_2n_1n] is the routine for the halves. *)
Definition bz_div_3n_2n (div_2n_1n : list Z → list Z → nat → option (list Z * list Z))
    (a b : list Z) (n : nat) : option (list Z * list Z) :=
  let a1 := drop (2 * n) a in
  let a2 := take n (drop n a) in
  let a3 := take n a in
  let b1 := drop n b in
  let b2 := take n b in
  '(q, r1, q_overflow) ←
    (if bz_cmp_n a1 b1 <? 0 then
       '(q, r1) ← div_2n_1n (drop n a) b1 n; Some (q, r1, 0)
     else
       let '(r1, carry) := bz_add_n a2 b1 0 in Some (replicate n D_MASK, r1, carry));
  let qt := trim q in
  let b2t := trim b2 in
  prod ← (if (length b2t <=? length qt)%nat
          then I_mul_karatsuba tmp_heap (length qt) false qt b2t (tmp_heap (2 * n))
          else I_mul_karatsuba tmp_heap (length b2t) false b2t qt (tmp_heap (2 * n)));
  let d := prod ++ replicate (2 * n - length prod) 0 in
  let r := a3 ++ r1 in
  let '(r, borrow) := bz_sub_n r d 0 in
  let borrow := if negb (q_overflow =? 0) && negb (borrow =? 0) then 0 else borrow in
  bz_correct 2 b q r borrow.

Fixpoint bz_div_2n_1n (fuel : nat) (a b : list Z) (n : nat) : option (list Z * list Z) :=
  if (n <? BZ_DIV_THRESHOLD)%nat || Nat.odd n then
    '(q, r) ← I_div a b; Some (fit n q, fit n r)
  else match fuel with
  | O => None
  | S fuel =>
      let half := (n / 2)%nat in
      '(q1, r1) ← bz_div_3n_2n (bz_div_2n_1n fuel) (drop half a) b half;
      let a := take half a ++ r1 ++ drop (half + n) a in
      '(q0, r) ← bz_div_3n_2n (bz_div_2n_1n fuel) (take (3 * half) a) b half;
      Some (q0 ++ q1, r)
  end.

(** [n = 1; while (n < yl) n *= 2;] *)
Fixpoint bz_round (fuel : nat) (n yl : nat) : nat :=
  match fuel with
  | O => n
  | S fuel => if (n <? yl)%nat then bz_round fuel (n * 2) yl else n
  end.

(** The position of the top bit: [while (d > 1)] shift [d] to the right and count. *)
Fixpoint top_bit (fuel : nat) (d p : Z) : Z :=
  match fuel with
  | O => p
  | S fuel => if 1 <? d then top_bit fuel (Z.shiftr d 1) (p + 1) else p
  end.

(** The outer loop, for the chunks below [j] with the running remainder. *)
Fixpoint bz_chunks (x_norm y_norm : list Z) (n j : nat) (rem : list Z) : option (list Z * list Z) :=
  match j with
  | O => Some ([], rem)
  | S j =>
      let tmp_2n := take n (drop (j * n) x_norm) ++ rem in
      '(q1, rem) ← bz_div_2n_1n n tmp_2n y_norm n;
      '(q, rem) ← bz_chunks x_norm y_norm n j rem;
      Some (q ++ q1, rem)
  end.

Definition I_div_bz (x y : list Z) : option (list Z * list Z) :=
  let xl := length x in
  let yl := length y in
  let n := bz_round yl 1 yl in
  let top_y := dnth y (yl - 1) in
  let shift := (D_EXP - 1) - top_bit 64 top_y 0 in
  let shift_total := s64 (s64 (Z.of_nat (n - yl) * D_EXP) + shift) in
  let y_norm := fit n (I_lshift y shift_total false) in
  let shift_overflow := Z.to_nat ((shift_total + D_EXP - 1) / D_EXP) in
  let padded_x := (xl + shift_overflow)%nat in
  let k := ((padded_x + n - 1) / n)%nat in
  let x_norm := fit (k * n) (I_lshift x shift_total false) in
  '(q_buf, rem_slot) ← bz_chunks x_norm y_norm n k (replicate n 0);
  let q := take (xl - yl + 1) (trim q_buf) in
  let r := trim (I_lshift rem_slot (- shift_total) false) in
  Some (q, r).

Definition I_div_dispatch (x y : list Z) : option (list Z * list Z) :=
  let xl := length x in
  let yl := length y in
  if (BZ_DIV_THRESHOLD <=? yl)%nat && ((2 * yl <=? xl)%nat || (BZ_DIV_QUOTIENT_THRESHOLD <? xl - yl)%nat)
  then I_div_bz x y
  else I_div x y.

End bz.

(** ** Fitting and correcting *)

Lemma fit_spec n x : digits x → dval x < dpow n →
  digits (fit n x) ∧ length (fit n x) = n ∧ dval (fit n x) = dval x.
Proof.
  intros Hx Hb. unfold fit. split_and!; [solve_digits|rewrite length_app, length_take, length_replicate; lia|].
  rewrite dval_app, dval_zeros, Z.mul_0_r, Z.add_0_r. destruct (decide (n ≤ length x)%nat) as [Hl|Hl].
  - rewrite (dval_take_drop n x) in Hb |- * by done.
    pose proof (dval_nonneg (drop n x) (digits_drop _ _ Hx)). pose proof (dval_nonneg (take n x) (digits_take _ _ Hx)).
    pose proof (dpow_pos n). assert (dval (drop n x) = 0) by nia. lia.
  - by rewrite firstn_all2 by lia.
Qed.

Lemma bz_dec_spec q : digits q → 0 < dval q →
  digits (bz_dec q) ∧ length (bz_dec q) = length q ∧ dval (bz_dec q) = dval q - 1.
Proof.
  induction 1 as [|d q Hd Hq IH]; intros Hp; [simpl in Hp; lia|]. cbn [bz_dec]. pose proof D_BASE_gt.
  destruct (Z.eqb_spec d 0) as [->|]; cbn [negb].
  - cbn [dval] in Hp. destruct IH as (? & ? & E); [nia|].
    split_and!; [solve_digits|simpl; lia|]. cbn [dval]. rewrite E, D_MASK_eq. ring.
  - unfold digit in Hd. rewrite u64_digit by (unfold digit; lia). split_and!; [|done|cbn [dval]; lia].
    apply Forall_cons. split; [unfold digit; lia|done].
Qed.

(** The remainder, below the divisor and above minus [fuel] times it, is made
    not negative, with the quotient going down. *)
Lemma bz_correct_spec fuel b q r borrow A R : digits b → digits q → digits r → length r = length b →
  0 ≤ borrow ≤ 1 → R = dval r - dpow (length b) * borrow → A = dval b * dval q + R → 0 ≤ A →
  R < dval b → - (Z.of_nat fuel * dval b) ≤ R →
  ∃ q' r', bz_correct fuel b q r borrow = Some (q', r') ∧ digits q' ∧ digits r' ∧ length q' = length q ∧
    length r' = length b ∧ A = dval b * dval q' + dval r' ∧ dval r' < dval b.
Proof.
  intros Hb. revert q r borrow R. induction fuel as [|fuel IH]; intros q r borrow R Hq Hr Hl Hbo ER EA HA HR HR2.
  - cbn [bz_correct]. pose proof (dval_bound r Hr) as Hbr. rewrite Hl in Hbr.
    assert (borrow = 0) as -> by (destruct (decide (borrow = 1)) as [->|]; lia). cbn [Z.eqb]. exists q, r. split_and!; try done; lia.
  - cbn [bz_correct]. pose proof (dval_bound r Hr) as Hbr. rewrite Hl in Hbr.
    destruct (Z.eqb_spec borrow 0) as [->|].
    { exists q, r. split_and!; try done; lia. }
    assert (borrow = 1) as -> by lia. assert (0 < dval q) by (pose proof (dval_nonneg q Hq); nia).
    destruct (bz_dec_spec q Hq) as (Hq1 & Hlq & Eq); [done|].
    destruct (bz_add_n r b 0) as [r1 c] eqn:E. apply bz_add_spec in E as (Hr1 & Hl1 & Hc & Er); try done.
    assert ((if negb (c =? 0) then u64 (1 - 1) else 1) = 1 - c) as ->.
    { destruct (Z.eqb_spec c 0) as [->|]; [done|]. assert (c = 1) as -> by lia. done. }
    rewrite Hl in Er.
    destruct (IH (bz_dec q) r1 (1 - c) (R + dval b)) as (q' & r' & -> & H1 & H2 & H3 & H4 & H5 & H6);
      try done; try lia.
    exists q', r'. split_and!; try done; lia.
Qed.

(** ** The recursion *)

Definition bz_ok (a b : list Z) (nq : nat) (o : option (list Z * list Z)) : Prop :=
  ∃ q r, o = Some (q, r) ∧ digits q ∧ digits r ∧ length q = nq ∧ length r = length b ∧
    dval a = dval b * dval q + dval r ∧ dval r < dval b.

(** The divisor has [m] digits, the top bit is set, and the quotient fits in
    [n] digits. *)
Definition bz_pre (a b : list Z) (n m : nat) : Prop :=
  digits a ∧ digits b ∧ length a = (n + m)%nat ∧ length b = m ∧
  dpow m ≤ 2 * dval b ∧ dval a < dval b * dpow n.

Lemma dpow_even n : (0 < n)%nat → ∃ h, dpow n = 2 * h.
Proof.
  intros Hn. exists (2 ^ 63 * dpow (n - 1)). replace n with (S (n - 1)) at 1 by lia.
  rewrite dpow_S, D_BASE_eq. ring.
Qed.

(** A bound on the top half of a divisor whose top bit is set. *)
Lemma top_half_bit P b1 b2 : 0 < P → (∃ h, P = 2 * h) → 0 ≤ b2 < P → P * P ≤ 2 * (b2 + P * b1) → P ≤ 2 * b1.
Proof. intros HP [h ->] Hb2 H. nia. Qed.

(** The estimate of the quotient is not too small and at most two too large. *)
Lemma estimate_3n_2n P a1 a2 a3 b1 b2 q r1 :
  0 < P → 0 ≤ a2 < P → 0 ≤ a3 < P → 0 ≤ b2 < P → 0 ≤ q < P → P ≤ 2 * b1 →
  a3 + P * (a2 + P * a1) < (b2 + P * b1) * P →
  (a2 + P * a1 = b1 * q + r1 ∧ 0 ≤ r1 < b1) ∨ (b1 ≤ a1 ∧ q = P - 1 ∧ r1 = a2 + b1) →
  let A := a3 + P * (a2 + P * a1) in
  let B := b2 + P * b1 in
  let R := a3 + P * r1 - q * b2 in
  A = B * q + R ∧ R < B ∧ - (2 * B) ≤ R.
Proof.
  intros HP Ha2 Ha3 Hb2 Hq Hb1 Hlt Hcase A B R. subst A B R.
  assert (q * b2 ≤ (P - 1) * (P - 1)) by nia. assert (P * P ≤ 2 * (P * b1)) by nia.
  destruct Hcase as [[E Hr1]|(Hle & -> & ->)].
  - split; [rewrite E; ring|]. assert (0 ≤ P * r1) by nia. assert (P * r1 ≤ P * b1 - P) by nia. assert (0 ≤ q * b2) by nia. lia.
  - assert (a1 = b1) as ->.
    { destruct (decide (a1 ≤ b1)); [lia|]. assert (P * (P * (b1 + 1)) ≤ P * (P * a1)) by nia. nia. }
    split; [ring|]. split; [|nia]. nia.
Qed.

Section bz_spec.

Context (tmp_heap : nat → list Z) (Hheap : ∀ n, digits (tmp_heap n) ∧ length (tmp_heap n) = n).

(** The product of the estimate with the low half of the divisor. *)
Lemma bz_product n q b2 : vec q → vec b2 → length q = n → length b2 = n → ∃ prod,
  (if (length (trim b2) <=? length (trim q))%nat
   then I_mul_karatsuba tmp_heap (length (trim q)) false (trim q) (trim b2) (tmp_heap (2 * n))
   else I_mul_karatsuba tmp_heap (length (trim b2)) false (trim b2) (trim q) (tmp_heap (2 * n))) = Some prod ∧
  let d := prod ++ replicate (2 * n - length prod) 0 in
  digits d ∧ length d = (2 * n)%nat ∧ dval d = dval q * dval b2.
Proof using Hheap.
  intros Hq Hb Hlq Hlb. pose proof (trim_length q). pose proof (trim_length b2). destruct (Hheap (2 * n)) as [Hd Hl].
  assert (∀ u v, nvec u → nvec v → (length v ≤ length u ≤ n)%nat → dval u * dval v = dval q * dval b2 → ∃ prod,
    I_mul_karatsuba tmp_heap (length u) false u v (tmp_heap (2 * n)) = Some prod ∧
    let d := prod ++ replicate (2 * n - length prod) 0 in
    digits d ∧ length d = (2 * n)%nat ∧ dval d = dval q * dval b2) as Huv.
  { intros u v Hu Hv Hlen E.
    destruct (I_mul_karatsuba_spec tmp_heap Hheap (length u) false u v (tmp_heap (2 * n)))
      as (z & -> & [Hz _] & Ez & Hlz & _); try done; [lia|lia|].
    exists z. split; [done|]. cbv zeta. split_and!; [solve_digits|rewrite length_app, length_replicate; lia|].
    rewrite dval_app, dval_zeros, Ez, E. ring. }
  destruct (Nat.leb_spec (length (trim b2)) (length (trim q))); apply Huv; try (by apply trim_nvec); try lia;
    rewrite !trim_dval; ring.
Qed.

Lemma bz_div_3n_2n_spec rec a b n : (2 ≤ n)%nat → bz_pre a b n (2 * n) →
  (∀ a b, bz_pre a b n n → bz_ok a b n (rec a b n)) → bz_ok a b n (bz_div_3n_2n tmp_heap rec a b n).
Proof using Hheap.
  intros Hn (Ha & Hb & Hla & Hlb & Htop & Hlt) Hrec. unfold bz_div_3n_2n.
  set (a1 := drop (2 * n) a). set (a2 := take n (drop n a)). set (a3 := take n a).
  set (b1 := drop n b). set (b2 := take n b). pose proof (dpow_pos n) as HP.
  assert (digits a1 ∧ digits a2 ∧ digits a3 ∧ digits b1 ∧ digits b2) as (Ha1 & Ha2 & Ha3 & Hb1 & Hb2).
  { unfold a1, a2, a3, b1, b2. split_and!; eauto with big. }
  assert (length a1 = n ∧ length a2 = n ∧ length a3 = n ∧ length b1 = n ∧ length b2 = n) as (La1 & La2 & La3 & Lb1 & Lb2).
  { unfold a1, a2, a3, b1, b2. rewrite !length_take, !length_drop. lia. }
  assert (drop n a = a2 ++ a1) as Ea21.
  { unfold a1, a2. rewrite <- (take_drop n (drop n a)) at 1. rewrite drop_drop. do 2 f_equal. lia. }
  assert (dval a = dval a3 + dpow n * (dval a2 + dpow n * dval a1)) as Ea.
  { rewrite (dval_take_drop n a) by lia. fold a3. by rewrite Ea21, dval_app, La2. }
  assert (dval b = dval b2 + dpow n * dval b1) as Eb by (apply dval_take_drop; lia).
  replace (2 * n)%nat with (n + n)%nat in Htop by lia. rewrite dpow_add in Htop.
  clearbody a1 a2 a3 b1 b2.
  pose proof (dval_bound a2 Ha2) as Ba2. pose proof (dval_bound a3 Ha3) as Ba3. pose proof (dval_bound b2 Hb2) as Bb2.
  pose proof (dval_bound a1 Ha1) as Ba1. pose proof (dval_bound b1 Hb1) as Bb1.
  rewrite La1 in Ba1. rewrite La2 in Ba2. rewrite La3 in Ba3. rewrite Lb1 in Bb1. rewrite Lb2 in Bb2. rewrite Ea, Eb in Hlt. rewrite Eb in Htop.
  assert (dpow n ≤ 2 * dval b1) as Htop1.
  { apply (top_half_bit (dpow n) (dval b1) (dval b2)); [done|apply dpow_even; lia|done|done]. }
  (* the estimate *)
  assert (∃ q r1 ov, (if bz_cmp_n a1 b1 <? 0 then
       '(q, r1) ← rec (drop n a) b1 n; Some (q, r1, 0)
     else let '(r1, carry) := bz_add_n a2 b1 0 in Some (replicate n D_MASK, r1, carry)) = Some (q, r1, ov) ∧
    digits q ∧ digits r1 ∧ length q = n ∧ length r1 = n ∧ 0 ≤ ov ≤ 1 ∧
    ((dval a2 + dpow n * dval a1 = dval b1 * dval q + (dval r1 + dpow n * ov) ∧ 0 ≤ dval r1 + dpow n * ov < dval b1) ∨
     (dval b1 ≤ dval a1 ∧ dval q = dpow n - 1 ∧ dval r1 + dpow n * ov = dval a2 + dval b1)))
    as (q & r1 & ov & -> & Hq & Hr1 & Lq & Lr1 & Hov & Hcase).
  { rewrite bz_cmp_spec by congruence. destruct (Z.compare_spec (dval a1) (dval b1)) as [Ecmp|Hcmp|Hcmp].
    2: { cbn. destruct (Hrec (drop n a) b1) as (q & r1 & -> & Hq & Hr1 & Lq & Lr1 & E & Hr).
         { rewrite Ea21. split; [solve_digits|]. split_and!; [done|rewrite length_app; lia|done|done|].
           rewrite dval_app, La2. nia. }
         exists q, r1, 0. rewrite Ea21, dval_app, La2 in E. pose proof (dval_nonneg r1 Hr1).
         cbn. split_and!; try done; try lia. }
    all: cbn; destruct (bz_add_n a2 b1 0) as [r1 c] eqn:Er;
      apply bz_add_spec in Er as (Hr1 & Lr1 & Hc & Er); [|done|done|congruence]; rewrite La2 in *;
      exists (replicate n D_MASK), r1, c; pose proof (dval_masks n);
      (split_and!; [done|apply Forall_replicate, digit_mask|done|apply length_replicate|lia..|right; lia]). }
  cbn [mbind option_bind].
  assert (vec q ∧ vec b2) as [Hvq Hvb].
  { split; (split; [done|]); intros E; rewrite E in *; simpl in *; lia. }
  destruct (bz_product n q b2 Hvq Hvb Lq Lb2) as (prod & -> & Hd & Ld & Ed).
  cbn [mbind option_bind]. set (d := prod ++ _) in *. clearbody d.
  pose proof (dval_bound q Hq) as Bq. rewrite Lq in Bq.
  destruct (estimate_3n_2n (dpow n) (dval a1) (dval a2) (dval a3) (dval b1) (dval b2) (dval q) (dval r1 + dpow n * ov))
    as (EA & HR1 & HR2); try done.
  destruct (bz_sub_n (a3 ++ r1) d 0) as [r bo] eqn:E.
  apply bz_sub_spec in E as (Hr & Lr & Hbo & Er); [|solve_digits|done|rewrite length_app; lia].
  rewrite length_app, La3, Lr1, dpow_add, dval_app, La3, Ed in *.
  set (P := dpow n) in *. set (R := dval a3 + P * (dval r1 + P * ov) - dval q * dval b2) in *.
  assert (R = dval r + P * P * (ov - bo)) as ER by (unfold R; lia).
  pose proof (dval_bound r Hr) as Br. rewrite Lr, dpow_add in Br. fold P in Br.
  assert (P * dval b1 ≤ P * (P - 1)) by (apply Z.mul_le_mono_nonneg_l; lia).
  destruct (bz_correct_spec 2 b q r (if negb (ov =? 0) && negb (bo =? 0) then 0 else bo) (dval a) R)
    as (q' & r' & -> & Hq' & Hr' & Lq' & Lr' & EA' & HR'); try done.
  - lia.
  - destruct (negb (ov =? 0) && negb (bo =? 0)); lia.
  - replace (length b) with (n + n)%nat by lia. rewrite dpow_add. fold P. rewrite ER.
    destruct (Z.eqb_spec ov 0) as [->|]; cbn [negb andb]; [lia|]. assert (ov = 1) as -> by lia.
    destruct (Z.eqb_spec bo 0) as [->|]; cbn [negb]; [exfalso; nia|]. assert (bo = 1) as -> by lia. lia.
  - rewrite Ea, Eb. exact EA.
  - by apply dval_nonneg.
  - rewrite Eb. exact HR1.
  - rewrite Eb. exact HR2.
  - exists q', r'. split_and!; try done. lia.
Qed.

Lemma top_digit_pos b n : digits b → length b = n → (1 ≤ n)%nat → dpow n ≤ 2 * dval b → 0 < dnth b (n - 1).
Proof using.
  intros Hb Hl Hn Ht. pose proof (dval_take_S b (n - 1) ltac:(lia)) as E.
  replace (S (n - 1)) with n in E by lia. rewrite <- Hl, firstn_all, Hl in E.
  pose proof (dval_bound (take (n - 1) b) (digits_take _ _ Hb)) as Hb1. rewrite length_take in Hb1.
  replace ((n - 1) `min` length b)%nat with (n - 1)%nat in Hb1 by lia.
  replace n with (S (n - 1)) in Ht by lia. rewrite dpow_S in Ht. pose proof D_BASE_gt. pose proof (dpow_pos (n - 1)).
  destruct (decide (0 < dnth b (n - 1))); [done|]. nia.
Qed.

Lemma bz_div_2n_1n_spec fuel a b n : (2 ≤ n ≤ fuel)%nat → bz_pre a b n n → bz_ok a b n (bz_div_2n_1n tmp_heap fuel a b n).
Proof using Hheap.
  revert a b n. induction fuel as [|fuel IH]; intros a b n Hn Hpre; [lia|].
  pose proof Hpre as (Ha & Hb & Hla & Hlb & Htop & Hlt). pose proof (dpow_pos n).
  cbn [bz_div_2n_1n]. destruct ((n <? BZ_DIV_THRESHOLD)%nat || Nat.odd n) eqn:Ebase.
  { destruct (I_div_spec a b) as (q & r & -> & [Hq _] & [[Hr _] _] & E & Hrb & _); try done; [lia| |lia|].
    { rewrite Hlb. apply top_digit_pos; try done. lia. }
    pose proof (dval_nonneg q Hq). pose proof (dval_nonneg r Hr). pose proof (dval_bound b Hb) as Hbb. rewrite Hlb in Hbb.
    destruct (fit_spec n q) as (? & ? & Eq); [done|nia|]. destruct (fit_spec n r) as (? & ? & Er); [done|lia|].
    exists (fit n q), (fit n r). rewrite Eq, Er. split_and!; try done. congruence. }
  apply orb_false_iff in Ebase as [Hge%Nat.ltb_ge Heven]. unfold BZ_DIV_THRESHOLD in Hge.
  set (half := (n / 2)%nat). assert (n = 2 * half)%nat as En.
  { unfold half. rewrite <- Nat.negb_even in Heven. apply negb_false_iff, Nat.even_spec in Heven as [k ->].
    rewrite Nat.mul_comm, Nat.div_mul; lia. }
  clearbody half. assert (dpow n = dpow half * dpow half) as Ep by (rewrite <- dpow_add; do 2 f_equal; lia).
  pose proof (dpow_pos half). assert (length (take half a) = half) as Lt by (rewrite length_take; lia).
  pose proof (dval_bound (take half a) (digits_take _ _ Ha)) as Hlo. rewrite Lt in Hlo.
  assert (dval a = dval (take half a) + dpow half * dval (drop half a)) as Ea by (apply dval_take_drop; lia).
  destruct (bz_div_3n_2n_spec (bz_div_2n_1n tmp_heap fuel) (drop half a) b half)
    as (q1 & r1 & -> & Hq1 & Hr1 & Lq1 & Lr1 & E1 & Hlt1); [lia| |intros; apply IH; [lia|done]|].
  { rewrite <- En. split_and!; try done; [eauto with big|rewrite length_drop; lia|nia]. }
  cbn [mbind option_bind].
  assert (take (3 * half) (take half a ++ r1 ++ drop (half + n) a) = take half a ++ r1) as ->.
  { rewrite app_assoc. apply take_app_length'. rewrite length_app. lia. }
  destruct (bz_div_3n_2n_spec (bz_div_2n_1n tmp_heap fuel) (take half a ++ r1) b half)
    as (q0 & r & -> & Hq0 & Hr & Lq0 & Lr & E0 & Hlt0); [lia| |intros; apply IH; [lia|done]|].
  { rewrite <- En. split_and!; try done; [solve_digits|rewrite length_app; lia|]. rewrite dval_app, Lt. nia. }
  cbn [mbind option_bind]. rewrite dval_app, Lt in E0. exists (q0 ++ q1), r.
  split_and!; try done; [solve_digits|rewrite length_app; lia|].
  rewrite dval_app, Lq0, Ea, E1. lia.
Qed.

(** ** The outer routine *)

Lemma bz_chunks_spec x_norm y_norm n j rem : (2 ≤ n)%nat → digits x_norm → digits y_norm → length y_norm = n →
  dpow n ≤ 2 * dval y_norm → (j * n ≤ length x_norm)%nat → digits rem → length rem = n → dval rem < dval y_norm →
  ∃ q r, bz_chunks tmp_heap x_norm y_norm n j rem = Some (q, r) ∧ digits q ∧ digits r ∧
    length q = (j * n)%nat ∧ length r = n ∧
    dval (take (j * n) x_norm) + dpow (j * n) * dval rem = dval y_norm * dval q + dval r ∧ dval r < dval y_norm.
Proof using Hheap.
  intros Hn Hx Hy Hly Htop. revert rem. induction j as [|j IH]; intros rem Hj Hrem Hlr Hlt; cbn [bz_chunks].
  { exists [], rem. rewrite Nat.mul_0_l, take_0, dpow_0. cbn [dval]. split_and!; try done; lia. }
  set (chunk := take n (drop (j * n) x_norm)).
  assert (length chunk = n) as Lc by (unfold chunk; rewrite length_take, length_drop; lia).
  assert (digits chunk) as Hc by (unfold chunk; eauto with big).
  pose proof (dval_bound chunk Hc) as Hbc. rewrite Lc in Hbc.
  destruct (bz_div_2n_1n_spec n (chunk ++ rem) y_norm n) as (q1 & r1 & -> & Hq1 & Hr1 & Lq1 & Lr1 & E1 & Hlt1); [lia| |].
  { split_and!; try done; [solve_digits|rewrite length_app; lia|]. rewrite dval_app, Lc. pose proof (dpow_pos n). nia. }
  cbn [mbind option_bind]. rewrite Hly in Lr1.
  destruct (IH r1) as (q & r & -> & Hq & Hr & Lq & Lr & E & Hltr); try done; [lia|]. cbn [mbind option_bind].
  exists (q ++ q1), r. split_and!; try done; [solve_digits|rewrite length_app; lia|].
  rewrite dval_app, Lq. rewrite dval_app, Lc in E1.
  assert (take (S j * n) x_norm = take (j * n) x_norm ++ chunk) as ->.
  { unfold chunk. replace (S j * n)%nat with (j * n + n)%nat by lia. by rewrite <- take_take_drop. }
  rewrite dval_app, length_take. replace ((j * n) `min` length x_norm)%nat with (j * n)%nat by lia.
  replace (S j * n)%nat with (j * n + n)%nat by lia. rewrite dpow_add.
  set (P := dpow (j * n)) in *. clearbody P.
  replace (dval (take (j * n) x_norm) + P * dval chunk + P * dpow n * dval rem)
    with (dval (take (j * n) x_norm) + P * (dval chunk + dpow n * dval rem)) by ring.
  rewrite E1. lia.
Qed.

Lemma bz_round_spec fuel n yl : (1 ≤ n)%nat → (yl ≤ n + fuel)%nat → (n < 2 * yl)%nat →
  (yl ≤ bz_round fuel n yl < 2 * yl)%nat.
Proof using.
  revert n. induction fuel as [|fuel IH]; intros n Hn Hf Hlt; cbn [bz_round]; [lia|].
  destruct (Nat.ltb_spec n yl); [|lia]. apply IH; lia.
Qed.

Lemma top_bit_spec fuel d p : 0 < d < 2 ^ Z.of_nat fuel → top_bit fuel d p = p + Z.log2 d.
Proof using.
  revert d p. induction fuel as [|fuel IH]; intros d p Hd; cbn [top_bit].
  { change (2 ^ Z.of_nat 0) with 1 in Hd. lia. }
  rewrite Nat2Z.inj_succ, Z.pow_succ_r in Hd by lia.
  destruct (Z.ltb_spec 1 d).
  - assert (Z.shiftr d 1 = d / 2) as E by (by rewrite Z.shiftr_div_pow2). pose proof (Z.div_mod d 2 ltac:(lia)).
    pose proof (Z.mod_pos_bound d 2 ltac:(lia)). rewrite IH; rewrite E; [|lia].
    assert (Z.log2 d = Z.succ (Z.log2 (d / 2))) as ->; [|lia].
    destruct (decide (d mod 2 = 0)) as [E0|E0].
    + replace d with (2 * (d / 2)) at 1 by lia. apply Z.log2_double. lia.
    + replace d with (2 * (d / 2) + 1) at 1 by lia. apply Z.log2_succ_double. lia.
  - assert (d = 1) as -> by lia. rewrite Z.log2_1. lia.
Qed.

(** The shift that brings the top bit of the divisor to the top of [n] digits. *)
Lemma normal_shift y n : nvec y → 0 < dval y → (length y ≤ n)%nat →
  let top_y := dnth y (length y - 1) in
  let shift := Z.of_nat (n - length y) * D_EXP + ((D_EXP - 1) - Z.log2 top_y) in
  0 < top_y < 2 ^ 64 ∧ 0 ≤ D_EXP - 1 - Z.log2 top_y < D_EXP ∧
  dval y * 2 ^ shift < dpow n ∧ dpow n ≤ 2 * (dval y * 2 ^ shift).
Proof using.
  intros Hy Hp Hn top_y shift. pose proof (vec_length y (nvec_vec y Hy)) as Hl. pose proof (nvec_vec y Hy) as [Hdy Hne].
  destruct (exists_last Hne) as (lo & d & E). assert (length y = S (length lo)) as Ely by (rewrite E, length_app; simpl; lia).
  assert (top_y = d) as Et.
  { unfold top_y, dnth. rewrite E, length_app. cbn [length]. rewrite app_nth2 by lia.
    by replace (length lo + 1 - 1 - length lo)%nat with 0%nat by lia. }
  assert (dval y = dval lo + dpow (length lo) * d) as Ev by (by rewrite E, dval_snoc).
  rewrite E in Hdy. apply Forall_app in Hdy as [Hlo [Hd _]%Forall_cons]. pose proof (dval_bound lo Hlo) as Hb.
  assert (0 < d) as Hd0.
  { apply nvec_last in Hy as (_ & _ & [Hlast|Hz]).
    - rewrite E, last_snoc in Hlast. unfold digit in Hd. assert (d ≠ 0) by congruence. lia.
    - rewrite Hz in Hp. simpl in Hp. lia. }
  unfold digit in Hd. rewrite D_BASE_eq in Hd. unfold shift. rewrite Et. clear shift top_y Et.
  pose proof (Z.log2_spec d Hd0) as Hlog. assert (0 ≤ Z.log2 d < 64) as Hl2.
  { split; [apply Z.log2_nonneg|]. apply Z.log2_lt_pow2; lia. }
  unfold D_EXP. split; [lia|]. split; [lia|]. rewrite Z.pow_add_r by lia.
  assert (2 ^ (Z.of_nat (n - length y) * 64) = dpow (n - length y)) as ->.
  { rewrite D_BASE_eq, <- Z.pow_mul_r by lia. f_equal. lia. }
  set (l := Z.log2 d) in *. assert (D_BASE = 2 * (2 ^ l * 2 ^ (64 - 1 - l))) as EB.
  { rewrite D_BASE_eq, <- Z.pow_add_r by lia. replace (l + (64 - 1 - l)) with 63 by lia. done. }
  assert (dpow n = dpow (n - length y) * (D_BASE * dpow (length lo))) as ->.
  { rewrite <- dpow_S, <- dpow_add. do 2 f_equal. lia. }
  rewrite Z.pow_succ_r in Hlog by lia. set (a := 2 ^ l) in *. set (b := 2 ^ (64 - 1 - l)) in *.
  assert (0 < b) by (apply Z.pow_pos_nonneg; lia).
  set (P := dpow (length lo)) in *. set (N := dpow (n - length y)). assert (0 < N) by apply dpow_pos.
  assert (0 < P) by (unfold P; apply dpow_pos). rewrite EB. clearbody a b P N l.
  assert (dval y < P * (2 * a)) by nia. assert (P * a ≤ dval y) by nia. split; nia.
Qed.

Lemma I_div_bz_spec x y : nvec x → nvec y → (8 ≤ length y ≤ length x)%nat → Z.of_nat (length x) < 2 ^ 40 →
  ∃ q r, I_div_bz tmp_heap x y = Some (q, r) ∧ nvec q ∧ nvec r ∧ dval x = dval y * dval q + dval r ∧ dval r < dval y.
Proof using Hheap.
  intros Hx Hy Hl Hmem. unfold I_div_bz. pose proof (nvec_vec x Hx) as Hvx. pose proof (nvec_vec y Hy) as Hvy.
  destruct (nvec_lower y Hy) as [->|Hlo]; [simpl in Hl; lia|]. pose proof (dpow_pos (length y - 1)) as Hpy.
  assert (length y ≤ bz_round (length y) 1 (length y) < 2 * length y)%nat as Hn by (apply bz_round_spec; lia).
  set (n := bz_round (length y) 1 (length y)) in *. clearbody n.
  destruct (normal_shift y n Hy) as (Htop & Hshift & Hup & Hdown); [lia|lia|].
  set (top_y := dnth y (length y - 1)) in *. rewrite (top_bit_spec 64 top_y 0) by done. rewrite Z.add_0_l.
  set (shift := D_EXP - 1 - Z.log2 top_y) in *. clearbody shift top_y.
  assert (0 ≤ Z.of_nat (n - length y) * D_EXP < 2 ^ 50) as Hw by (unfold D_EXP; lia).
  rewrite (wraps_small 64 (Z.of_nat (n - length y) * D_EXP)), wraps_small by (unfold D_EXP in *; lia).
  set (S := Z.of_nat (n - length y) * D_EXP + shift) in *.
  assert (0 ≤ S < 2 ^ 51) as HS by (unfold S, D_EXP in *; lia). clearbody S.
  (* the divisor *)
  destruct (I_lshift_up y S) as [[Hny _] Ey]; [done|lia|]. rewrite <- Ey in Hup, Hdown.
  destruct (fit_spec n (I_lshift y S false)) as (Hyd & Hyl & Eyn); [done..|].
  set (y_norm := fit n (I_lshift y S false)) in *. rewrite <- Eyn in *. clearbody y_norm.
  (* the dividend *)
  set (ov := Z.to_nat ((S + D_EXP - 1) / D_EXP)).
  assert (2 ^ S ≤ dpow ov) as Hov.
  { unfold ov. pose proof (Z.div_mod (S + D_EXP - 1) D_EXP ltac:(done)). pose proof (Z.mod_pos_bound (S + D_EXP - 1) D_EXP ltac:(done)).
    assert (0 ≤ (S + D_EXP - 1) / D_EXP) by (apply Z.div_pos; [unfold D_EXP; lia|done]).
    rewrite Z2Nat.id, D_BASE_eq by done. change (2 ^ 64) with (2 ^ D_EXP). rewrite <- Z.pow_mul_r by (done || unfold D_EXP; lia).
    apply Z.pow_le_mono_r; lia. }
  clearbody ov. set (k := ((length x + ov + n - 1) / n)%nat).
  assert (length x + ov ≤ k * n)%nat as Hk.
  { unfold k. pose proof (Nat.div_mod (length x + ov + n - 1) n ltac:(lia)).
    pose proof (Nat.mod_upper_bound (length x + ov + n - 1) n ltac:(lia)). lia. }
  clearbody k. destruct (I_lshift_up x S) as [[Hnx _] Ex]; [done|lia|].
  pose proof (dval_bound x (vec_digits x Hvx)) as Hbx.
  assert (0 < 2 ^ S) as HpS by (apply Z.pow_pos_nonneg; lia).
  assert (dval x * 2 ^ S < dpow (k * n)) as Hbxn.
  { pose proof (dpow_mono _ _ Hk) as Hm. rewrite dpow_add in Hm. clear - Hm Hbx HpS Hov. nia. }
  destruct (fit_spec (k * n) (I_lshift x S false)) as (Hxd & Hxl & Exn); [done|by rewrite Ex|].
  set (x_norm := fit (k * n) (I_lshift x S false)) in *. rewrite Ex in Exn. clearbody x_norm.
  destruct (bz_chunks_spec x_norm y_norm n k (replicate n 0)) as (q & r & -> & Hq & Hr & Lq & Lr & E & Hlt);
    try done; [lia|lia|apply digits_zeros|apply length_replicate|rewrite dval_zeros; nia|].
  cbn [mbind option_bind]. rewrite <- Hxl, firstn_all, dval_zeros, Exn, Ey in E. rewrite Ey in Hlt.
  pose proof (dval_nonneg r Hr) as Hr0. pose proof (dval_nonneg q Hq) as Hq0.
  assert (vec q) as Hvq by (split; [done|]; intros ->; simpl in Lq; lia).
  assert (vec r) as Hvr by (split; [done|]; intros ->; simpl in Lr; lia).
  destruct (I_lshift_down r S) as [Hvd Er]; [done|lia|].
  assert (∃ rest, rest = dval x - dval y * dval q) as [rest Erest] by eauto.
  assert (dval r = rest * 2 ^ S) as Err by (rewrite Erest; clear - E; lia).
  rewrite Err, Z.div_mul in Er by lia.
  assert (0 ≤ rest < dval y) as Hrest.
  { rewrite Err in Hr0, Hlt. clear - Hr0 Hlt HpS. set (p := 2 ^ S) in *. clearbody p. nia. }
  assert (take (length x - length y + 1) (trim q) = trim q) as ->.
  { apply firstn_all2. apply nvec_length_le; [by apply trim_nvec|clear; lia|]. rewrite trim_dval.
    apply (Z.mul_lt_mono_pos_l (dpow (length y - 1))); [done|]. rewrite <- dpow_add.
    replace (length y - 1 + (length x - length y + 1))%nat with (length x) by (clear - Hl; lia).
    clear - Hlo Hq0 Hrest Hbx Erest. nia. }
  eexists _, _. split; [done|]. rewrite !trim_dval, Er. split_and!; [by apply trim_nvec..|rewrite Erest; clear; lia|apply Hrest].
Qed.

Lemma I_div_dispatch_spec x y : nvec x → nvec y → (2 ≤ length y)%nat → dval y ≤ dval x → Z.of_nat (length x) < 2 ^ 40 →
  ∃ q r, I_div_dispatch tmp_heap x y = Some (q, r) ∧ nvec q ∧ nvec r ∧
    dval x = dval y * dval q + dval r ∧ dval r < dval y.
Proof using Hheap.
  intros Hx Hy Hl Hle Hmem. pose proof (nvec_le_length y x Hy Hx Hle) as Hlen. unfold I_div_dispatch.
  destruct (Nat.leb_spec BZ_DIV_THRESHOLD (length y)) as [H8|H8]; unfold BZ_DIV_THRESHOLD in H8; cbn [andb].
  - destruct ((2 * length y <=? length x)%nat || (BZ_DIV_QUOTIENT_THRESHOLD <? length x - length y)%nat).
    + apply I_div_bz_spec; try done.
    + by apply I_div_nvec.
  - by apply I_div_nvec.
Qed.

End bz_spec.
