(* ===== verification/BigBits.v ===== *)
(** Bitwise operations on signed digit vectors ([erts/emulator/beam/big.c],
    [I_btrail] to [I_bnot]). The code works on the two's complement of a
    negative operand, digit by digit, and turns the digits of a negative
    result back into a magnitude. *)

From S2P Require Import Prelude BigDigit BigVec BigShift.
From stdpp Require Import base numbers option list.
From Stdlib Require Import ZArith Lia.

#[local] Open Scope Z_scope.

(** ** Definitions *)

(** The loop over [mask]: the leading ones of [d]. It has no result when the
    rounds run out. *)
Fixpoint btrail_mask (fuel : nat) (d mask prev_mask : Z) : option Z :=
  match fuel with
  | O => None
  | S fuel =>
      if Z.land d mask =? mask then
        let prev_mask := mask in
        let mask := Z.lor (Z.shiftr prev_mask 1) (u64 (Z.shiftl 1 (D_EXP - 1))) in
        btrail_mask fuel d mask prev_mask
      else Some prev_mask
  end.

(** The digits from the top, over those that are [D_MASK], to the first digit
    at most. *)
Fixpoint drop_masks (l : list Z) : list Z :=
  match l with
  | d :: (_ :: _) as l' => if d =? D_MASK then drop_masks l' else l
  | _ => l
  end.

Definition I_btrail (r : list Z) (sign : bool) : list Z :=
  if sign then
    match drop_masks (rev r) with
    | [] => []
    | d :: l =>
        let top :=
          if d =? D_MASK then Some 0
          else
            prev_mask ← btrail_mask 64 d (u64 (Z.shiftl 1 (D_EXP - 1))) 0;
            Some (Z.land (dnot d) (dnot prev_mask)) in
        match top with
        | Some t => D_add (map dnot (rev l) ++ [t]) 1
        | None => []
        end
    end
  else trim r.

(** The digits of the operand less one: [DSUB] at the first digit and [DSUBb]
    at the others, which the four operations have in their loops. *)
Fixpoint dec_loop (x : list Z) (b : Z) : list Z :=
  match x with
  | d :: x => let '(c, b) := DSUBb d 0 b in c :: dec_loop x b
  | [] => []
  end.
Definition dec_digits (x : list Z) : list Z :=
  match x with
  | d :: x => let '(c, b) := DSUB d 1 in c :: dec_loop x b
  | [] => []
  end.

(** [xl >= yl] in the three binary operations. *)
Definition I_band (x : list Z) (xsgn : bool) (y : list Z) (ysgn : bool) : list Z :=
  let sign := xsgn && ysgn in
  let yl := length y in
  let r :=
    if negb xsgn then
      if negb ysgn then zip_with Z.land (take yl x) y
      else zip_with (λ xd c, Z.land xd (dnot c)) (take yl x) (dec_digits y) ++ drop yl x
    else
      if negb ysgn then zip_with (λ c yd, Z.land (dnot c) yd) (take yl (dec_digits x)) y
      else zip_with (λ c1 c2, Z.land (dnot c1) (dnot c2)) (take yl (dec_digits x)) (dec_digits y)
           ++ map dnot (drop yl (dec_digits x)) in
  I_btrail r sign.

Definition I_bor (x : list Z) (xsgn : bool) (y : list Z) (ysgn : bool) : list Z :=
  let sign := xsgn || ysgn in
  let yl := length y in
  let r :=
    if negb xsgn then
      if negb ysgn then zip_with Z.lor (take yl x) y ++ drop yl x
      else zip_with (λ xd c, Z.lor xd (dnot c)) (take yl x) (dec_digits y)
    else
      if negb ysgn then
        zip_with (λ c yd, Z.lor (dnot c) yd) (take yl (dec_digits x)) y
        ++ map dnot (drop yl (dec_digits x))
      else zip_with (λ c1 c2, Z.lor (dnot c1) (dnot c2)) (take yl (dec_digits x)) (dec_digits y) in
  I_btrail r sign.

Definition I_bxor (x : list Z) (xsgn : bool) (y : list Z) (ysgn : bool) : list Z :=
  let sign := xorb xsgn ysgn in
  let yl := length y in
  let r :=
    if negb xsgn then
      if negb ysgn then zip_with Z.lxor (take yl x) y ++ drop yl x
      else zip_with (λ xd c, Z.lxor xd (dnot c)) (take yl x) (dec_digits y) ++ map dnot (drop yl x)
    else
      if negb ysgn then
        zip_with (λ c yd, Z.lxor (dnot c) yd) (take yl (dec_digits x)) y
        ++ map dnot (drop yl (dec_digits x))
      else
        zip_with (λ c1 c2, Z.lxor (dnot c1) (dnot c2)) (take yl (dec_digits x)) (dec_digits y)
        ++ drop yl (dec_digits x) in
  I_btrail r sign.

(** [xsgn] is the sign of the result. *)
Definition I_bnot (x : list Z) (xsgn : bool) : list Z :=
  if xsgn then D_add x 1 else D_sub x 1.

(** ** Bits of digits *)

Lemma D_MASK_ones : D_MASK = Z.ones 64.
Proof. done. Qed.

Lemma testbit_digit d a i : digit d → 0 ≤ i →
  Z.testbit (d + D_BASE * a) i = if i <? 64 then Z.testbit d i else Z.testbit a (i - 64).
Proof.
  intros Hd Hi. pose proof D_BASE_gt.
  assert ((d + D_BASE * a) mod D_BASE = d) as Em by (symmetry; apply (Z.mod_unique_pos _ _ a); [done|lia]).
  assert ((d + D_BASE * a) / D_BASE = a) as Eq by (symmetry; apply (Z.div_unique_pos _ _ _ d); [done|lia]).
  rewrite D_BASE_eq in Em, Eq. destruct (Z.ltb_spec i 64).
  - rewrite <- Em at 2. by rewrite Z.mod_pow2_bits_low by done.
  - rewrite <- Eq at 2. rewrite Z.div_pow2_bits by lia. f_equal. lia.
Qed.

Lemma digit_high_bits d i : digit d → 64 ≤ i → Z.testbit d i = false.
Proof.
  intros Hd Hi. replace d with (d + D_BASE * 0) by lia. rewrite testbit_digit by (done || lia).
  rewrite (proj2 (Z.ltb_ge i 64)) by lia. apply Z.testbit_0_l.
Qed.

Lemma digit_bits w : (∀ i, 64 ≤ i → Z.testbit w i = false) → digit w.
Proof.
  intros H. assert (w = w mod 2 ^ 64) as ->.
  { apply Z.bits_inj'. intros i Hi. destruct (Z.lt_ge_cases i 64).
    - by rewrite Z.mod_pow2_bits_low.
    - rewrite Z.mod_pow2_bits_high by lia. by apply H. }
  apply (digit_u64 w).
Qed.

(** The digits of a number in two's complement, without an end: [s] is the
    sign that all digits above have. *)
Fixpoint sval (s : bool) (x : list Z) : Z :=
  match x with
  | [] => if s then -1 else 0
  | d :: x => d + D_BASE * sval s x
  end.

Lemma sval_dval s x : sval s x = dval x - (if s then dpow (length x) else 0).
Proof.
  induction x as [|d x IH]; cbn [sval dval length]; [by destruct s; rewrite ?dpow_0|].
  rewrite IH, dpow_S. destruct s; ring.
Qed.

Definition ext_digit (s : bool) : Z := if s then D_MASK else 0.

Lemma ext_digit_digit s : digit (ext_digit s).
Proof. destruct s; eauto with big. Qed.
#[export] Hint Resolve ext_digit_digit : big.

Lemma sval_nil s : sval s [] = ext_digit s + D_BASE * sval s [].
Proof. unfold ext_digit. destruct s; cbn [sval]; rewrite ?D_MASK_eq; lia. Qed.

Lemma sval_ext s x y : Forall (eq (ext_digit s)) y → sval s (x ++ y) = sval s x.
Proof.
  intros Hy. induction x as [|d x IH]; cbn [app sval]; [|by rewrite IH].
  induction Hy as [|e y <- Hy IH]; [done|]. cbn [sval]. rewrite IH. symmetry. apply sval_nil.
Qed.

Lemma sval_dnot x : digits x → sval true (map dnot x) = - 1 - dval x.
Proof.
  induction 1 as [|d x Hd Hx IH]; [done|]. cbn [map sval dval]. rewrite IH.
  destruct (dnot_eq d Hd) as [-> _]. ring.
Qed.

Lemma digits_dnot x : digits (map dnot x).
Proof. induction x; constructor; [apply digit_u64|done]. Qed.
#[export] Hint Resolve digits_dnot : big.

(** ** An operation digit by digit *)

Section bitop.

Context (op : Z → Z → Z) (f : bool → bool → bool).
Context (Hop : ∀ a b i, 0 ≤ i → Z.testbit (op a b) i = f (Z.testbit a i) (Z.testbit b i)).
Context (Hf : f false false = false).

Lemma bitop_digit d e : digit d → digit e → digit (op d e).
Proof using Hop Hf.
  intros Hd He. apply digit_bits. intros i Hi. rewrite Hop by lia.
  by rewrite !digit_high_bits.
Qed.

Lemma bitop_split d a e b : digit d → digit e →
  op (d + D_BASE * a) (e + D_BASE * b) = op d e + D_BASE * op a b.
Proof using Hop Hf.
  intros Hd He. apply Z.bits_inj'. intros i Hi. rewrite Hop by done.
  rewrite !testbit_digit by (eauto using bitop_digit).
  destruct (i <? 64) eqn:E; rewrite Hop; [done|lia|done|].
  apply Z.ltb_ge in E. lia.
Qed.

Lemma bitop_sign s t : op (sval s []) (sval t []) = sval (f s t) [].
Proof using Hop.
  apply Z.bits_inj'. intros i Hi. rewrite Hop by done. cbn [sval].
  assert (∀ b : bool, Z.testbit (if b then -1 else 0) i = b) as E.
  { intros []; [by apply Z.bits_m1|apply Z.testbit_0_l]. }
  by rewrite !E.
Qed.

Lemma bitop_mask d : digit d → op d D_MASK = op d (-1) - D_BASE * op 0 (-1).
Proof using Hop Hf.
  intros Hd. pose proof (bitop_split d 0 D_MASK (-1) Hd digit_mask) as E.
  replace (d + D_BASE * 0) with d in E by ring. replace (D_MASK + D_BASE * -1) with (-1) in E by (rewrite D_MASK_eq; ring).
  lia.
Qed.

Lemma bitop_sval s x t y : digits x → digits y → (length y ≤ length x)%nat →
  sval (f s t) (zip_with op (take (length y) x) y ++ map (λ d, op d (ext_digit t)) (drop (length y) x)) =
  op (sval s x) (sval t y).
Proof using Hop Hf.
  intros Hx. revert y. induction Hx as [|d x Hd Hx IH]; intros y Hy Hl.
  - destruct y; [|simpl in Hl; lia]. symmetry. apply bitop_sign.
  - destruct y as [|e y].
    + specialize (IH [] (Forall_nil_2 _) ltac:(simpl; lia)).
      change (op d (ext_digit t) + D_BASE * sval (f s t) (map (λ d, op d (ext_digit t)) x) =
              op (d + D_BASE * sval s x) (sval t [])).
      rewrite (sval_nil t), bitop_split by eauto with big. do 2 f_equal. exact IH.
    + apply Forall_cons in Hy as [He Hy]. cbn [length firstn skipn zip_with app map sval] in *.
      rewrite IH by (done || lia). by rewrite bitop_split.
Qed.

Lemma bitop_zip_digits x y : digits x → digits y → digits (zip_with op x y).
Proof using Hop Hf.
  intros Hx. revert y. induction Hx; intros [|? ?] Hy; try constructor.
  - apply Forall_cons in Hy as [? _]. by apply bitop_digit.
  - apply Forall_cons in Hy as [_ ?]. auto.
Qed.

End bitop.

(** ** Less one *)

Lemma dec_loop_spec x b : digits x → 0 ≤ b ≤ 1 →
  digits (dec_loop x b) ∧ length (dec_loop x b) = length x ∧
  ∃ b', 0 ≤ b' ≤ 1 ∧ dval (dec_loop x b) - dpow (length x) * b' = dval x - b.
Proof.
  intros Hx. revert b. induction Hx as [|d x Hd Hx IH]; intros b Hb; cbn [dec_loop].
  { split_and!; [done|done|]. exists b. cbn [dval length]. rewrite dpow_0. lia. }
  destruct (DSUBb d 0 b) as [c b1] eqn:E. apply DSUBb_spec in E as (Hc & Hb1 & E); eauto with big.
  destruct (IH b1 Hb1) as (Hd' & Hl & b' & Hb' & E').
  split_and!; [by constructor|by cbn; f_equal|]. exists b'. split; [done|]. cbn [dval length].
  rewrite dpow_S. set (P := dpow (length x)) in *. clearbody P. lia.
Qed.

Lemma dec_digits_spec x : digits x → 0 < dval x →
  digits (dec_digits x) ∧ length (dec_digits x) = length x ∧ dval (dec_digits x) = dval x - 1.
Proof.
  intros Hx Hpos. destruct Hx as [|d x Hd Hx]; [done|]. cbn [dec_digits].
  destruct (DSUB d 1) as [c b] eqn:E. apply DSUB_spec in E as (Hc & Hb & E); eauto with big.
  destruct (dec_loop_spec x b Hx Hb) as (Hd' & Hl & b' & Hb' & E').
  split_and!; [by constructor|by cbn; f_equal|]. cbn [dval] in *.
  pose proof (dval_bound _ Hd') as Hb0. rewrite Hl in Hb0. pose proof (dval_bound _ Hx) as Hb1.
  unfold digit in *. pose proof D_BASE_gt. set (P := dpow (length x)) in *. clearbody P.
  destruct (decide (b' = 0)) as [->|]; [lia|]. assert (b' = 1) as -> by lia.
  assert (dval x = 0 ∧ b = 1) as [E0 ->] by lia. rewrite E0 in Hpos. lia.
Qed.

(** The digits in two's complement. *)
Definition twos (s : bool) (x : list Z) : list Z := if s then map dnot (dec_digits x) else x.

Lemma twos_spec s x : digits x → (s = true → 0 < dval x) →
  digits (twos s x) ∧ length (twos s x) = length x ∧ sval s (twos s x) = sgnv s (dval x).
Proof.
  intros Hx Hs. unfold twos, sgnv. destruct s.
  - destruct (dec_digits_spec x Hx (Hs eq_refl)) as (Hd & Hl & E).
    rewrite sval_dnot, length_map by done. split_and!; [apply digits_dnot|done|lia].
  - rewrite sval_dval. split_and!; [done..|lia].
Qed.

(** ** Back to a magnitude *)

Definition mask_up (k : nat) : Z := 2 ^ 64 - 2 ^ (63 - Z.of_nat k).

Lemma mask_up_S k : (k < 63)%nat →
  Z.lor (Z.shiftr (mask_up k) 1) (u64 (Z.shiftl 1 (D_EXP - 1))) = mask_up (S k).
Proof.
  intros Hk. assert (forallb (λ k, Z.lor (Z.shiftr (mask_up k) 1) (u64 (Z.shiftl 1 (D_EXP - 1))) =? mask_up (S k))
    (seq 0 63) = true) as H by (vm_compute; reflexivity).
  rewrite forallb_forall in H. apply Z.eqb_eq, H, in_seq. lia.
Qed.

Lemma btrail_mask_spec n k d p : digit d → d ≠ D_MASK → (n + k = 64)%nat → (0 < n)%nat → Z.land d p = p →
  ∃ q, btrail_mask n d (mask_up k) p = Some q ∧ Z.land d q = q.
Proof.
  intros Hd Hn. revert k p. induction n as [|n IH]; intros k p Hk Hn0 Hp; [lia|].
  cbn [btrail_mask]. destruct (Z.eqb_spec (Z.land d (mask_up k)) (mask_up k)) as [E|E]; [|by exists p].
  destruct n as [|n].
  - assert (k = 63%nat) as -> by lia. exfalso. apply Hn. change (mask_up 63) with (Z.ones 64) in E.
    rewrite Z.land_ones in E by done. rewrite Z.mod_small in E by exact Hd. by rewrite D_MASK_ones.
  - rewrite mask_up_S by lia. apply IH; [lia|lia|done].
Qed.

Lemma dnot_land d p : Z.land d p = p → Z.land (dnot d) (dnot p) = dnot d.
Proof.
  intros Hp. unfold dnot, u64, wrapu. rewrite <- !Z.land_ones by done.
  rewrite (Z.land_comm (Z.lnot p)), Z.land_assoc, <- (Z.land_assoc _ (Z.ones 64) (Z.ones 64)), Z.land_diag.
  rewrite <- Z.land_assoc, (Z.land_comm (Z.ones 64)), Z.land_assoc, <- Z.lnot_lor.
  do 2 f_equal. apply Z.bits_inj'. intros i Hi. apply (f_equal (λ z, Z.testbit z i)) in Hp.
  rewrite Z.land_spec in Hp. rewrite Z.lor_spec. by destruct (Z.testbit d i), (Z.testbit p i).
Qed.

Lemma drop_masks_spec l : ∃ n, l = replicate n D_MASK ++ drop_masks l ∧
  (l ≠ [] → drop_masks l ≠ [] ∧ (head (drop_masks l) ≠ Some D_MASK ∨ drop_masks l = [D_MASK])).
Proof.
  induction l as [|d l IH]; [by exists 0%nat|]. destruct l as [|e l].
  - exists 0%nat. split; [done|]. intros _. split; [done|]. destruct (decide (d = D_MASK)) as [->|]; [by right|].
    left. simpl. congruence.
  - cbn [drop_masks]. destruct (Z.eqb_spec d D_MASK) as [->|Hd].
    + destruct IH as (n & He & Hn). exists (S n). cbn [replicate app]. split; [by f_equal|].
      intros _. by apply Hn.
    + exists 0%nat. split; [done|]. intros _. split; [done|]. left. simpl. congruence.
Qed.

Lemma I_btrail_spec r sign : vec r →
  nvec (I_btrail r sign) ∧ sgnv sign (dval (I_btrail r sign)) = sval sign r.
Proof.
  intros Hr. destruct sign.
  2:{ cbn [I_btrail]. rewrite sval_dval, trim_dval. split; [by apply trim_nvec|]. unfold sgnv. lia. }
  destruct Hr as [Hr Hn]. destruct (drop_masks_spec (rev r)) as (n & E & H).
  destruct H as [Hne Hhd]; [intros E0; apply Hn; by rewrite <- (rev_involutive r), E0|].
  unfold I_btrail. assert (digits (rev r)) as Hrr by by apply Forall_rev.
  set (l := drop_masks (rev r)) in *. clearbody l. destruct l as [|d l]; [done|]. clear Hne.
  rewrite E in Hrr. apply Forall_app in Hrr as [_ [Hd Hl]%Forall_cons]. apply Forall_rev in Hl.
  assert (sval true r = sval true (rev l ++ [d])) as ->.
  { rewrite <- (rev_involutive r), E. rewrite rev_app_distr. cbn [rev]. apply sval_ext.
    apply Forall_rev, Forall_replicate. done. }
  assert (∃ t, (if d =? D_MASK then Some 0
    else prev_mask ← btrail_mask 64 d (u64 (Z.shiftl 1 (D_EXP - 1))) 0;
      Some (Z.land (dnot d) (dnot prev_mask))) = Some t ∧ t = dnot d) as (t & -> & ->).
  { destruct (Z.eqb_spec d D_MASK) as [->|Hm]; [by exists 0|].
    destruct (btrail_mask_spec 64 0 d 0) as (q & Eq & Hq); [done|done|lia|lia|by rewrite Z.land_0_r|].
    change (u64 (Z.shiftl 1 (D_EXP - 1))) with (mask_up 0). rewrite Eq. simpl.
    eexists. split; [done|]. by apply dnot_land. }
  set (v := map dnot (rev l) ++ [dnot d]). assert (v = map dnot (rev l ++ [d])) as Ev by (unfold v; by rewrite map_app).
  assert (nvec v) as Hv.
  { apply nvec_last. unfold v. split_and!; [apply Forall_app; split; [apply digits_dnot|apply Forall_singleton, digit_u64]|by destruct (map dnot (rev l))|].
    rewrite last_snoc. destruct Hhd as [Hhd|Hhd].
    - left. simpl in Hhd. intros [= E0]. apply Hhd. destruct (dnot_eq d Hd) as [E1 _]. rewrite D_MASK_eq. f_equal. lia.
    - injection Hhd as -> ->. by right. }
  destruct (D_add_spec v 1 (nvec_vec v Hv) digit_1) as (_ & Ea & _ & Hn'). split; [by apply Hn'|].
  rewrite Ea. assert (digits (rev l ++ [d])) as Hld by (apply Forall_app; split; [done|by apply Forall_singleton]).
  unfold sgnv. rewrite Ev.
  pose proof (sval_dnot _ Hld) as E2. rewrite sval_dval, length_map in E2. rewrite sval_dval. lia.
Qed.

(** ** The operations *)

Lemma zip_with_map {A B C D E} (g : C → D → E) (h : A → C) (k : B → D) x y :
  zip_with (λ a b, g (h a) (k b)) x y = zip_with g (map h x) (map k y).
Proof. revert y. induction x as [|a x IH]; intros [|b y]; cbn; [done..|]. by rewrite IH. Qed.

Lemma zip_with_map_l {A C D E} (g : C → D → E) (h : A → C) x y :
  zip_with (λ a b, g (h a) b) x y = zip_with g (map h x) y.
Proof. revert y. induction x as [|a x IH]; intros [|b y]; cbn; [done..|]. by rewrite IH. Qed.
Lemma zip_with_map_r {B C D E} (g : C → D → E) (k : B → D) x y :
  zip_with (λ a b, g a (k b)) x y = zip_with g x (map k y).
Proof. revert y. induction x as [|a x IH]; intros [|b y]; cbn; [done..|]. by rewrite IH. Qed.

Lemma map_id_digits (g : Z → Z) x : digits x → (∀ d, digit d → g d = d) → map g x = x.
Proof. intros Hx Hg. induction Hx; cbn; [done|]. f_equal; auto. Qed.

Lemma map_ext_digits (g h : Z → Z) x : digits x → (∀ d, digit d → g d = h d) → map g x = map h x.
Proof. intros Hx Hg. induction Hx; cbn; [done|]. f_equal; auto. Qed.

Lemma map_const_ext (g : Z → Z) s x : digits x → (∀ d, digit d → g d = ext_digit s) →
  Forall (eq (ext_digit s)) (map g x).
Proof. intros Hx Hg. induction Hx; cbn; constructor; [symmetry|]; auto. Qed.

(** The operations with the digits above the shorter operand, which the code
    leaves out where they are those of the sign. *)
Section bitop_result.

Context (op : Z → Z → Z) (f : bool → bool → bool).
Context (Hop : ∀ a b i, 0 ≤ i → Z.testbit (op a b) i = f (Z.testbit a i) (Z.testbit b i)).
Context (Hf : f false false = false).

Lemma bitop_result x s y t tail : nvec x → nvec y → (length y ≤ length x)%nat →
  (s = true → 0 < dval x) → (t = true → 0 < dval y) → digits tail →
  (tail = map (λ d, op d (ext_digit t)) (drop (length y) (twos s x)) ∨
   tail = [] ∧ Forall (eq (ext_digit (f s t))) (map (λ d, op d (ext_digit t)) (drop (length y) (twos s x)))) →
  let r := zip_with op (take (length y) (twos s x)) (twos t y) ++ tail in
  nvec (I_btrail r (f s t)) ∧
  sgnv (f s t) (dval (I_btrail r (f s t))) = op (sgnv s (dval x)) (sgnv t (dval y)).
Proof using Hop Hf.
  intros Hx Hy Hl Hs Ht Htl Htail. cbv zeta.
  destruct (twos_spec s x) as (Dx & Lx & Sx); eauto with big.
  destruct (twos_spec t y) as (Dy & Ly & Sy); eauto with big.
  set (X := twos s x) in *. set (Y := twos t y) in *. clearbody X Y.
  set (r := zip_with op _ _ ++ tail).
  pose proof (vec_length y (nvec_vec y Hy)) as Hyl.
  assert (length (zip_with op (take (length y) X) Y) = length y) as Hzl.
  { rewrite length_zip_with, length_take. lia. }
  assert (vec r) as Hr.
  { split.
    - apply Forall_app. split; [|done]. eapply bitop_zip_digits; eauto with big.
    - intros E. apply (f_equal length) in E. unfold r in E. rewrite length_app in E. simpl in E. lia. }
  destruct (I_btrail_spec r (f s t) Hr) as [Hn E]. split; [done|]. rewrite E, <- Sx, <- Sy.
  rewrite <- (bitop_sval op f Hop Hf) by (done || lia). rewrite Ly. unfold r.
  destruct Htail as [->|[-> Hext]]; [done|]. rewrite app_nil_r. symmetry. by apply sval_ext.
Qed.

End bitop_result.

Lemma digit_land_mask d : digit d → Z.land d D_MASK = d.
Proof.
  intros Hd. rewrite (bitop_mask Z.land andb) by (done || (intros; apply Z.land_spec)).
  rewrite Z.land_m1_r, Z.land_0_l. lia.
Qed.
Lemma lor_mask d : digit d → Z.lor d D_MASK = D_MASK.
Proof.
  intros Hd. rewrite (bitop_mask Z.lor orb) by (done || (intros; apply Z.lor_spec)).
  rewrite !Z.lor_m1_r, D_MASK_eq. lia.
Qed.
Lemma lxor_mask d : digit d → Z.lxor d D_MASK = dnot d.
Proof.
  intros Hd. rewrite (bitop_mask Z.lxor xorb) by (done || (intros; apply Z.lxor_spec)).
  rewrite !Z.lxor_m1_r. destruct (dnot_eq d Hd) as [-> _]. unfold Z.lnot. lia.
Qed.

Lemma zip_app_nil {A B C} (g : A → B → C) x y : zip_with g x y = zip_with g x y ++ [].
Proof. by rewrite app_nil_r. Qed.

(** The digits of the longer operand above the shorter one. *)
Lemma twos_drop s x n : digits x → (s = true → 0 < dval x) → digits (drop n (twos s x)).
Proof. intros Hx Hs. apply digits_drop. by apply twos_spec. Qed.

Lemma I_band_spec x s y t : nvec x → nvec y → (length y ≤ length x)%nat →
  (s = true → 0 < dval x) → (t = true → 0 < dval y) →
  nvec (I_band x s y t) ∧
  sgnv (s && t) (dval (I_band x s y t)) = Z.land (sgnv s (dval x)) (sgnv t (dval y)).
Proof.
  intros Hx Hy Hl Hs Ht. pose proof (λ tail, bitop_result Z.land andb (λ a b i _, Z.land_spec a b i) eq_refl x s y t tail Hx Hy Hl Hs Ht) as R.
  pose proof (twos_drop s x (length y) ltac:(eauto with big) Hs) as Hd.
  unfold I_band. destruct s, t; cbn [negb andb].
  - rewrite zip_with_map, <- firstn_map, <- skipn_map. apply (R (drop (length y) (twos true x))); [done|left].
    symmetry. by apply map_id_digits, digit_land_mask.
  - rewrite zip_with_map_l, <- firstn_map, zip_app_nil. apply (R []); [done|right; split; [done|]].
    apply map_const_ext; [done|]. intros. apply Z.land_0_r.
  - rewrite zip_with_map_r. apply (R (drop (length y) (twos false x))); [done|left].
    symmetry. by apply map_id_digits, digit_land_mask.
  - rewrite zip_app_nil. apply (R []); [done|right; split; [done|]].
    apply map_const_ext; [done|]. intros. apply Z.land_0_r.
Qed.

Lemma I_bor_spec x s y t : nvec x → nvec y → (length y ≤ length x)%nat →
  (s = true → 0 < dval x) → (t = true → 0 < dval y) →
  nvec (I_bor x s y t) ∧
  sgnv (s || t) (dval (I_bor x s y t)) = Z.lor (sgnv s (dval x)) (sgnv t (dval y)).
Proof.
  intros Hx Hy Hl Hs Ht. pose proof (λ tail, bitop_result Z.lor orb (λ a b i _, Z.lor_spec a b i) eq_refl x s y t tail Hx Hy Hl Hs Ht) as R.
  pose proof (twos_drop s x (length y) ltac:(eauto with big) Hs) as Hd.
  unfold I_bor. destruct s, t; cbn [negb orb].
  - rewrite zip_with_map, <- firstn_map, zip_app_nil. apply (R []); [done|right; split; [done|]].
    apply map_const_ext; [done|apply lor_mask].
  - rewrite zip_with_map_l, <- firstn_map, <- skipn_map. apply (R (drop (length y) (twos true x))); [done|left].
    symmetry. apply map_id_digits; [done|]. intros. apply Z.lor_0_r.
  - rewrite zip_with_map_r, zip_app_nil. apply (R []); [done|right; split; [done|]].
    apply map_const_ext; [done|apply lor_mask].
  - apply (R (drop (length y) (twos false x))); [done|left].
    symmetry. apply map_id_digits; [done|]. intros. apply Z.lor_0_r.
Qed.

Lemma dnot_dnot d : digit d → dnot (dnot d) = d.
Proof. intros Hd. destruct (dnot_eq d Hd) as [E Hd']. destruct (dnot_eq _ Hd') as [-> _]. lia. Qed.

Lemma I_bxor_spec x s y t : nvec x → nvec y → (length y ≤ length x)%nat →
  (s = true → 0 < dval x) → (t = true → 0 < dval y) →
  nvec (I_bxor x s y t) ∧
  sgnv (xorb s t) (dval (I_bxor x s y t)) = Z.lxor (sgnv s (dval x)) (sgnv t (dval y)).
Proof.
  intros Hx Hy Hl Hs Ht. pose proof (λ tail, bitop_result Z.lxor xorb (λ a b i _, Z.lxor_spec a b i) eq_refl x s y t tail Hx Hy Hl Hs Ht) as R.
  pose proof (twos_drop s x (length y) ltac:(eauto with big) Hs) as Hd.
  unfold I_bxor. destruct s, t; cbn [negb xorb].
  - destruct (dec_digits_spec x) as (Dx & _ & _); eauto with big.
    rewrite zip_with_map, <- firstn_map. apply (R (drop (length y) (dec_digits x))); [by apply digits_drop|left].
    unfold twos. rewrite skipn_map, map_map. symmetry. apply map_id_digits; [by apply digits_drop|].
    intros d Hdd. cbn [ext_digit]. rewrite lxor_mask by apply digit_u64. by apply dnot_dnot.
  - rewrite zip_with_map_l, <- firstn_map, <- skipn_map. apply (R (drop (length y) (twos true x))); [done|left].
    symmetry. apply map_id_digits; [done|]. intros. apply Z.lxor_0_r.
  - rewrite zip_with_map_r. apply (R (map dnot (drop (length y) x))); [apply digits_dnot|left].
    symmetry. apply map_ext_digits; [done|apply lxor_mask].
  - apply (R (drop (length y) (twos false x))); [done|left].
    symmetry. apply map_id_digits; [done|]. intros. apply Z.lxor_0_r.
Qed.

Lemma I_bnot_spec x xsgn : nvec x → (xsgn = false → 0 < dval x) →
  nvec (I_bnot x xsgn) ∧ sgnv xsgn (dval (I_bnot x xsgn)) = Z.lnot (sgnv (negb xsgn) (dval x)).
Proof.
  intros Hx Hs. unfold I_bnot, sgnv, Z.lnot. destruct xsgn; cbn [negb].
  - destruct (D_add_spec x 1) as (_ & -> & _ & Hn); [eauto with big..|]. split; [auto|lia].
  - specialize (Hs eq_refl). destruct (D_sub_spec x 1) as (Hn & -> & _); [eauto with big..|lia|]. split; [done|lia].
Qed.
