(* ===== verification/BigTerm.v ===== *)
(** Integer terms ([erts/emulator/beam/big.c] and [big.h]): how a signed digit vector becomes a small or a
    bignum term, and the operations on bignum terms.

    A boxed term is given together with the words it points to: the header and
    the digits. A routine that gets the memory [r] for its result returns the
    term instead of writing to [r]; the content of [r] is an argument where a
    routine reads it. *)

From S2P Require Import Prelude ErlTerm BigDigit BigVec BigMul BigDiv BigShift BigBz BigBits.
From stdpp Require Import base numbers option list.
From Stdlib Require Import ZArith Lia.

#[local] Open Scope Z_scope.

(** ** Terms *)

(** A term that is not boxed, by its word, and a boxed one, by the header and
    the words that follow it. *)
Inductive eterm : Type :=
  | Word (w : Z)
  | Boxed (hdr : Z) (v : list Z).

#[export] Instance eterm_eq_dec : EqDecision eterm.
Proof. solve_decision. Defined.

Definition small_term (x : Z) : eterm := Word (make_small x).
Definition is_small_term (t : eterm) : bool := match t with Word w => is_small w | Boxed _ _ => false end.
Definition signed_val_term (t : eterm) : Z := match t with Word w => signed_val w | Boxed _ _ => 0 end.
Definition is_nil_term (t : eterm) : bool := match t with Word w => is_nil w | Boxed _ _ => false end.
Definition is_big (t : eterm) : bool := match t with Word _ => false | Boxed hdr _ => is_bignum_header hdr end.

(** The macros on a bignum; the operations apply them to bignums only. *)
Definition big_hdr (t : eterm) : Z := match t with Word _ => 0 | Boxed hdr _ => hdr end.
Definition BIG_SIGN (t : eterm) : bool := negb (bignum_header_is_neg (big_hdr t) =? 0).
Definition BIG_SIZE (t : eterm) : nat := Z.to_nat (bignum_header_arity (big_hdr t)).
Definition BIG_V (t : eterm) : list Z := match t with Word _ => [] | Boxed _ v => take (BIG_SIZE t) v end.
Definition BIG_NEED_SIZE (x : Z) : Z := x + 1.

Definition IS_USMALL (sgn : bool) (x : Z) : bool := if sgn then x <=? MAX_SMALL + 1 else x <=? MAX_SMALL.
Definition IS_SSMALL (x : Z) : bool := u64 (Z.shiftr x (SMALL_BITS - 1) + 1) <? 2.

Definition uint_to_big (x : Z) : eterm := Boxed (make_pos_bignum_header 1) [x].

Definition small_to_big (x : Z) : eterm :=
  if 0 <=? x then
    let xu := u64 x in
    Boxed (make_pos_bignum_header 1) [xu]
  else
    let xu := u64 (- u64 x) in
    Boxed (make_neg_bignum_header 1) [xu].

(** [NIL] is the error: too big. *)
Definition big_norm (x : list Z) (sign : bool) : eterm :=
  let xl := Z.of_nat (length x) in
  let y := dnth x 0 in
  if (xl =? 1) && IS_USMALL sign y then
    if sign then small_term (- s64 y) else small_term y
  else
    let arity := BIG_NEED_SIZE xl - 1 in
    if BIG_ARITY_MAX <? arity then Word NIL
    else Boxed (if sign then make_neg_bignum_header arity else make_pos_bignum_header arity) x.

(** ** Comparison *)

Definition big_comp (x y : eterm) : Z :=
  if bool_decide (BIG_SIGN x = BIG_SIGN y) then
    let c := I_comp (BIG_V x) (BIG_V y) in
    if BIG_SIGN x then - c else c
  else if BIG_SIGN x then -1 else 1.

Definition big_ucomp (x y : eterm) : Z := I_comp (BIG_V x) (BIG_V y).

(** ** Sums *)

Definition B_plus_minus (x : list Z) (xsgn : bool) (y : list Z) (ysgn : bool) : eterm :=
  let xl := length x in
  let yl := length y in
  if bool_decide (xsgn = ysgn) then
    if (yl <? xl)%nat then big_norm (I_add x y) xsgn
    else big_norm (I_add y x) xsgn
  else
    let comp := I_comp x y in
    if comp =? 0 then small_term 0
    else if 0 <? comp then big_norm (I_sub x y) xsgn
    else big_norm (I_sub y x) ysgn.

Definition big_plus (x y : eterm) : eterm :=
  B_plus_minus (BIG_V x) (BIG_SIGN x) (BIG_V y) (BIG_SIGN y).
Definition big_minus (x y : eterm) : eterm :=
  B_plus_minus (BIG_V x) (BIG_SIGN x) (BIG_V y) (negb (BIG_SIGN y)).

Definition big_plus_small (x : eterm) (y : Z) : eterm :=
  if BIG_SIGN x then big_norm (D_sub (BIG_V x) y) (BIG_SIGN x)
  else big_norm (D_add (BIG_V x) y) (BIG_SIGN x).

(** ** Products and quotients *)

Definition small_times (x y : Z) : eterm :=
  let sign := xorb (x <? 0) (y <? 0) in
  let xu := u64 (if 0 <? x then x else - x) in
  let yu := u64 (if 0 <? y then y else - y) in
  let '(d0, d1) := DMULc xu yu 0 in
  if (d1 =? 0) && IS_USMALL sign d0 then
    if sign then small_term (- s64 d0) else small_term d0
  else
    let arity := if d1 =? 0 then 1 else 2 in
    Boxed (if sign then make_neg_bignum_header arity else make_pos_bignum_header arity)
          (if d1 =? 0 then [d0] else [d0; d1]).

Section times.

(** The content of a fresh block of [n] words. *)
Variable tmp_heap : nat → list Z.

(** The digits of the product of two bignums: [same] tells that they are one
    object, [r] is the content of the memory for the result. The recursion has
    no result only when its fuel runs out. *)
Definition big_product (same : bool) (x y : eterm) (r : list Z) : option (list Z) :=
  let xsz := BIG_SIZE x in
  let ysz := BIG_SIZE y in
  if (ysz =? 1)%nat then Some (D_mul (BIG_V x) (dnth (BIG_V y) 0))
  else if (xsz =? 1)%nat then Some (D_mul (BIG_V y) (dnth (BIG_V x) 0))
  else if (ysz <=? xsz)%nat then I_mul_karatsuba tmp_heap xsz same (BIG_V x) (BIG_V y) r
  else I_mul_karatsuba tmp_heap ysz same (BIG_V y) (BIG_V x) r.

Definition big_times (same : bool) (x y : eterm) (r : list Z) : option eterm :=
  let sign := xorb (BIG_SIGN x) (BIG_SIGN y) in
  rd ← big_product same x y r;
  Some (big_norm rd sign).

Definition big_mul_add (same : bool) (x y z : eterm) (r : list Z) : option eterm :=
  let sign := xorb (BIG_SIGN x) (BIG_SIGN y) in
  rd ← big_product same x y r;
  Some (B_plus_minus rd sign (BIG_V z) (BIG_SIGN z)).

(** [Some None] is the return of zero: a result that is too big. *)
Definition big_div_rem (lhs rhs : eterm) : option (option (eterm * eterm)) :=
  let div_sign := xorb (BIG_SIGN lhs) (BIG_SIGN rhs) in
  let rem_sign := BIG_SIGN lhs in
  '(q, r) ←
    (if (BIG_SIZE rhs =? 1)%nat then
       '(q, r) ← D_div (BIG_V lhs) (dnth (BIG_V rhs) 0);
       Some (q, [r])
     else I_div_dispatch tmp_heap (BIG_V lhs) (BIG_V rhs));
  let quotient := big_norm q div_sign in
  if is_nil_term quotient then Some None
  else
    let remainder := big_norm r rem_sign in
    if is_nil_term remainder then Some None
    else Some (Some (quotient, remainder)).

End times.

(** ** Bitwise operations and shifts *)

Definition big_band (x y : eterm) : eterm :=
  let xsgn := BIG_SIGN x in
  let ysgn := BIG_SIGN y in
  let sign := xsgn && ysgn in
  if (BIG_SIZE y <=? BIG_SIZE x)%nat then big_norm (I_band (BIG_V x) xsgn (BIG_V y) ysgn) sign
  else big_norm (I_band (BIG_V y) ysgn (BIG_V x) xsgn) sign.

Definition big_bor (x y : eterm) : eterm :=
  let xsgn := BIG_SIGN x in
  let ysgn := BIG_SIGN y in
  let sign := xsgn || ysgn in
  if (BIG_SIZE y <=? BIG_SIZE x)%nat then big_norm (I_bor (BIG_V x) xsgn (BIG_V y) ysgn) sign
  else big_norm (I_bor (BIG_V y) ysgn (BIG_V x) xsgn) sign.

Definition big_bxor (x y : eterm) : eterm :=
  let xsgn := BIG_SIGN x in
  let ysgn := BIG_SIGN y in
  let sign := xorb xsgn ysgn in
  if (BIG_SIZE y <=? BIG_SIZE x)%nat then big_norm (I_bxor (BIG_V x) xsgn (BIG_V y) ysgn) sign
  else big_norm (I_bxor (BIG_V y) ysgn (BIG_V x) xsgn) sign.

Definition big_bnot (x : eterm) : eterm :=
  let sign := negb (BIG_SIGN x) in
  big_norm (I_bnot (BIG_V x) sign) sign.

Definition big_lshift (x : eterm) (y : Z) : eterm :=
  let sign := BIG_SIGN x in
  big_norm (I_lshift (BIG_V x) y sign) sign.

(** ** Headers of bignums *)

Definition bignum_header (s : bool) (n : Z) : Z :=
  if s then make_neg_bignum_header n else make_pos_bignum_header n.

Lemma make_header_word n tag : 0 ≤ n ≤ 2 ^ 57 → 0 ≤ tag < 64 → make_header n tag = 64 * n + tag.
Proof.
  intros Hn Ht. unfold make_header, HEADER_ARITY_OFFS. rewrite Z.shiftl_mul_pow2 by done.
  rewrite (wrapu_small 64 (n * 2 ^ 6)), wrapu_small; lia.
Qed.

Lemma land_low n t m : 0 ≤ t < 64 → Z.land m 63 = m → Z.land (64 * n + t) m = Z.land t m.
Proof.
  intros Ht Hm. rewrite <- Hm. rewrite (Z.land_comm m), !Z.land_assoc, !land_63.
  f_equal. rewrite (Z.mod_small t) by done. symmetry. by apply (Z.mod_unique_pos _ _ n).
Qed.

Lemma bignum_header_spec s n : 0 ≤ n ≤ BIG_ARITY_MAX →
  is_bignum_header (bignum_header s n) = true ∧
  negb (bignum_header_is_neg (bignum_header s n) =? 0) = s ∧
  bignum_header_arity (bignum_header s n) = n.
Proof.
  intros Hn. change BIG_ARITY_MAX with 65535 in Hn.
  assert (bignum_header s n = 64 * n + (if s then 12 else 8)) as ->.
  { destruct s; apply make_header_word; lia. }
  unfold is_bignum_header, bignum_header_is_neg, bignum_header_arity, HEADER_ARITY_OFFS.
  rewrite !land_low by (try done; destruct s; lia).
  split_and!; [by destruct s|by destruct s|].
  rewrite Z.shiftr_div_pow2 by done. symmetry.
  apply (Z.div_unique_pos _ _ _ (if s then 12 else 8)); destruct s; lia.
Qed.

(** ** What a term stands for *)

(** The numbers that a small holds. *)
Definition in_small (z : Z) : Prop := MIN_SMALL ≤ z ≤ MAX_SMALL.

#[export] Instance in_small_dec z : Decision (in_small z).
Proof. unfold in_small. apply _. Defined.

(** A number in a bignum, which may be one that a small holds: the operations
    are also given such bignums. *)
Definition big_term (z : Z) (t : eterm) : Prop :=
  ∃ v, t = Boxed (bignum_header (z <? 0) (Z.of_nat (length v))) v ∧ nvec v ∧ dval v = Z.abs z ∧
    Z.of_nat (length v) ≤ BIG_ARITY_MAX.

(** The term of an integer: a small when it fits. *)
Definition int_term (z : Z) (t : eterm) : Prop :=
  in_small z ∧ t = small_term z ∨ ¬ in_small z ∧ big_term z t.

(** The least magnitude that has no term. *)
Definition big_limit : Z := D_BASE ^ BIG_ARITY_MAX.

Lemma big_limit_pow n : n ≤ BIG_ARITY_MAX → D_BASE ^ n ≤ big_limit.
Proof. intros Hn. unfold big_limit. pose proof D_BASE_gt. apply Z.pow_le_mono_r; lia. Qed.
Lemma big_limit_pow_ge n : BIG_ARITY_MAX ≤ n → big_limit ≤ D_BASE ^ n.
Proof. intros Hn. unfold big_limit. pose proof D_BASE_gt. apply Z.pow_le_mono_r; lia. Qed.
Lemma big_limit_2 : big_limit = 2 ^ (D_EXP * BIG_ARITY_MAX).
Proof. unfold big_limit. rewrite D_BASE_eq. symmetry. by apply Z.pow_mul_r. Qed.
#[global] Opaque big_limit.

(** A result: the term of the number, or [NIL] when there is none. *)
Definition int_result (z : Z) (t : eterm) : Prop :=
  if Z.abs z <? big_limit then int_term z t else t = Word NIL.

Lemma in_small_abs z : in_small z → Z.abs z ≤ 2 ^ 59.
Proof. unfold in_small. change MIN_SMALL with (- 2 ^ 59). change MAX_SMALL with (2 ^ 59 - 1). lia. Qed.

Lemma big_limit_dpow n : Z.of_nat n ≤ BIG_ARITY_MAX → dpow n ≤ big_limit.
Proof. apply big_limit_pow. Qed.

Lemma big_limit_lt z : z < D_BASE → z < big_limit.
Proof. intros Hz. pose proof (big_limit_dpow 1 ltac:(done)) as H. rewrite dpow_S, dpow_0 in H. lia. Qed.

Lemma big_limit_length v : nvec v → Z.of_nat (length v) ≤ BIG_ARITY_MAX ↔ dval v < big_limit.
Proof.
  intros Hv. split.
  - intros Hl. pose proof (dval_bound v ltac:(eauto with big)). pose proof (big_limit_dpow _ Hl). lia.
  - intros Hd. destruct (nvec_lower v Hv) as [->|Hlo]; [done|].
    destruct (Z.le_gt_cases (Z.of_nat (length v)) BIG_ARITY_MAX) as [|Hl]; [done|].
    assert (big_limit ≤ dpow (length v - 1)); [|lia].
    apply big_limit_pow_ge. change BIG_ARITY_MAX with 65535 in *. lia.
Qed.

Lemma big_term_abs z t : big_term z t → Z.abs z < big_limit.
Proof. intros (v & _ & Hv & <- & Hl). by apply big_limit_length. Qed.

Lemma int_term_abs z t : int_term z t → Z.abs z < big_limit.
Proof.
  intros [[Hz _]|[_ Hz]]; [|by eapply big_term_abs].
  apply big_limit_lt. rewrite D_BASE_eq. apply in_small_abs in Hz. lia.
Qed.

(** The fields of a bignum. *)
Lemma big_term_fields z t : big_term z t →
  ∃ v, BIG_V t = v ∧ BIG_SIGN t = (z <? 0) ∧ BIG_SIZE t = length v ∧ is_big t = true ∧
    nvec v ∧ dval v = Z.abs z ∧ Z.of_nat (length v) ≤ BIG_ARITY_MAX ∧
    sgnv (z <? 0) (dval v) = z ∧ ((z <? 0) = true → 0 < dval v).
Proof.
  intros (v & -> & Hv & E & Hl). exists v.
  destruct (bignum_header_spec (z <? 0) (Z.of_nat (length v))) as (H1 & H2 & H3); [lia|].
  assert (BIG_SIZE (Boxed (bignum_header (z <? 0) (Z.of_nat (length v))) v) = length v) as Hs.
  { unfold BIG_SIZE. cbn [big_hdr]. rewrite H3. lia. }
  unfold BIG_V. rewrite Hs, firstn_all. unfold BIG_SIGN, is_big. cbn [big_hdr].
  split_and!; try done.
  - rewrite E. unfold sgnv. destruct (Z.ltb_spec z 0); lia.
  - intros ?%Z.ltb_lt. lia.
Qed.

(** Normal form leaves one term to a number. *)
Lemma big_term_unique z t1 t2 : big_term z t1 → big_term z t2 → t1 = t2.
Proof.
  intros (v1 & -> & H1 & E1 & _) (v2 & -> & H2 & E2 & _).
  assert (v1 = v2) as -> by (apply nvec_inj; congruence). done.
Qed.

Lemma int_term_unique z t1 t2 : int_term z t1 → int_term z t2 → t1 = t2.
Proof. intros [[? ->]|[? ?]] [[? ->]|[? ?]]; try done. by eapply big_term_unique. Qed.

Lemma make_small_inj x y : in_small x → in_small y → make_small x = make_small y → x = y.
Proof. intros Hx Hy E. rewrite <- (signed_val_make_small x), <- (signed_val_make_small y) by done. by rewrite E. Qed.

Lemma int_term_inj x y t : int_term x t → int_term y t → x = y.
Proof.
  intros [[Hx ->]|[Hx Bx]] [[Hy E]|[Hy By]].
  - apply make_small_inj; [done..|]. by injection E.
  - destruct By as (? & ? & _). done.
  - subst t. destruct Bx as (? & ? & _). done.
  - destruct (big_term_fields x t Bx) as (v & <- & S & _ & _ & _ & Hv & _ & Ex & _).
    destruct (big_term_fields y t By) as (w & <- & S' & _ & _ & _ & Hw & _ & Ey & _).
    rewrite <- Ex, <- Ey. congruence.
Qed.

Lemma int_result_ok z t : Z.abs z < big_limit → int_result z t → int_term z t.
Proof. intros Hz. unfold int_result. by rewrite (proj2 (Z.ltb_lt _ _) Hz). Qed.

(** ** Normalisation *)

Lemma sgnv_sign s v : 0 < v → (sgnv s v <? 0) = s ∧ Z.abs (sgnv s v) = v.
Proof. intros Hv. unfold sgnv. destruct s; [rewrite (proj2 (Z.ltb_lt _ _))|rewrite (proj2 (Z.ltb_ge _ _))]; lia. Qed.

Lemma s64_digit y : 0 ≤ y < 2 ^ 63 → s64 y = y.
Proof. intros. apply wraps_small; lia. Qed.

Lemma IS_USMALL_spec s y : 0 ≤ y → IS_USMALL s y = bool_decide (in_small (sgnv s y)).
Proof.
  intros Hy. unfold IS_USMALL, sgnv, in_small. change MIN_SMALL with (- 2 ^ 59). change MAX_SMALL with (2 ^ 59 - 1).
  symmetry. destruct s; case_bool_decide; symmetry; rewrite ?Z.leb_le, ?Z.leb_gt; lia.
Qed.

(** The two ends of the normalisation, which [small_times] also has. *)
Lemma norm_small (s : bool) y : 0 ≤ y → in_small (sgnv s y) →
  int_term (sgnv s y) (if s then small_term (- s64 y) else small_term y).
Proof.
  intros Hy Hs. left. split; [done|]. pose proof (in_small_abs _ Hs). unfold sgnv in *.
  rewrite s64_digit by (destruct s; lia). by destruct s.
Qed.

Lemma norm_big (s : bool) x n : nvec x → ¬ in_small (sgnv s (dval x)) → n = Z.of_nat (length x) → n ≤ BIG_ARITY_MAX →
  int_term (sgnv s (dval x)) (Boxed (if s then make_neg_bignum_header n else make_pos_bignum_header n) x).
Proof.
  intros Hx Hs -> Hl. right. split; [done|].
  assert (0 < dval x) as Hp.
  { pose proof (dval_nonneg x ltac:(eauto with big)). destruct (decide (dval x = 0)) as [E|]; [|lia].
    rewrite E in Hs. exfalso. apply Hs. unfold sgnv. by destruct s. }
  destruct (sgnv_sign s (dval x) Hp) as [E1 E2]. exists x. rewrite E1, E2. done.
Qed.

Lemma small_one_digit s x : nvec x → in_small (sgnv s (dval x)) → length x = 1%nat.
Proof.
  intros Hx Hs%in_small_abs. pose proof (vec_length x (nvec_vec x Hx)).
  pose proof (dval_nonneg x ltac:(eauto with big)).
  assert (length x ≤ 1)%nat; [|lia]. apply nvec_length_le; [done|lia|]. rewrite dpow_S, dpow_0, D_BASE_eq.
  unfold sgnv in Hs. destruct s; lia.
Qed.

Lemma big_norm_spec s x z : nvec x → sgnv s (dval x) = z → int_result z (big_norm x s).
Proof.
  intros Hx <-. unfold big_norm. destruct (Z.eqb_spec (Z.of_nat (length x)) 1) as [El|El]; cbn [andb].
  - destruct x as [|d [|]]; [simpl in El; lia| |simpl in El; lia].
    unfold dnth. cbn [nth]. assert (dval [d] = d) as Ed by (cbn [dval]; ring).
    pose proof (proj1 (Forall_singleton _ _) (proj1 (nvec_vec _ Hx))) as Hd. unfold digit in Hd.
    assert (Z.abs (sgnv s (dval [d])) < big_limit) as Hlim.
    { apply big_limit_lt. rewrite Ed. unfold sgnv. destruct s; lia. }
    unfold int_result. rewrite (proj2 (Z.ltb_lt _ _) Hlim). rewrite IS_USMALL_spec by lia.
    case_bool_decide as Hs.
    + rewrite Ed. apply norm_small; [lia|done].
    + change (BIG_ARITY_MAX <? _) with false. cbv iota. rewrite <- Ed in Hs. by apply norm_big.
  - assert (¬ in_small (sgnv s (dval x))) as Hs by (intros Hs%small_one_digit; [lia|done]).
    unfold BIG_NEED_SIZE. rewrite Z.add_simpl_r. pose proof (big_limit_length x Hx) as Hlim.
    pose proof (dval_nonneg x ltac:(eauto with big)).
    assert (Z.abs (sgnv s (dval x)) = dval x) as Ea by (unfold sgnv; destruct s; lia).
    unfold int_result. rewrite Ea. destruct (Z.ltb_spec BIG_ARITY_MAX (Z.of_nat (length x))) as [Hl|Hl].
    + rewrite (proj2 (Z.ltb_ge _ _)); [done|]. destruct (Z.le_gt_cases big_limit (dval x)) as [|H1]; [done|].
      apply Hlim in H1. lia.
    + rewrite (proj2 (Z.ltb_lt _ _)) by (by apply Hlim). by apply norm_big.
Qed.

(** ** A term for each number *)

(** The [n] low digits of a number. *)
Fixpoint to_digits (n : nat) (z : Z) : list Z :=
  match n with
  | O => []
  | S n => z mod D_BASE :: to_digits n (z / D_BASE)
  end.

Definition term_of (n : nat) (z : Z) : eterm := big_norm (trim (to_digits n (Z.abs z))) (z <? 0).

Lemma to_digits_spec n z : digits (to_digits n z) ∧ length (to_digits n z) = n ∧ dval (to_digits n z) = z mod dpow n.
Proof.
  pose proof D_BASE_gt. revert z. induction n as [|n IH]; intros z; cbn [to_digits].
  { rewrite dpow_0, Z.mod_1_r. done. }
  destruct (IH (z / D_BASE)) as (Hd & Hl & E). split_and!.
  - constructor; [apply digit_u64|done].
  - cbn [length]. by rewrite Hl.
  - cbn [dval]. rewrite E, dpow_S, Z.rem_mul_r; [done|lia|apply dpow_pos].
Qed.

Lemma term_of_spec n z : (0 < n)%nat → Z.of_nat n ≤ BIG_ARITY_MAX → Z.abs z < dpow n → int_term z (term_of n z).
Proof.
  intros Hn Hl Hz. destruct (to_digits_spec n (Z.abs z)) as (Hd & Hln & E).
  apply int_result_ok; [pose proof (big_limit_dpow n Hl); lia|]. apply big_norm_spec.
  - apply trim_nvec. split; [done|]. intros E0. rewrite E0 in Hln. simpl in Hln. lia.
  - rewrite trim_dval, E, Z.mod_small by lia. unfold sgnv. destruct (Z.ltb_spec z 0); lia.
Qed.

Lemma int_term_exists z : Z.abs z < big_limit → ∃ t, int_term z t.
Proof.
  intros Hz. assert (∃ n, Z.of_nat n = BIG_ARITY_MAX) as [n Hn].
  { exists (Z.to_nat BIG_ARITY_MAX). by apply Z2Nat.id. }
  exists (term_of n z). pose proof (big_limit_pow_ge (Z.of_nat n)) as H.
  apply term_of_spec; [change BIG_ARITY_MAX with 65535 in Hn; lia|lia|lia].
Qed.
