(* ===== verification/BigOps.v ===== *)
(** What the operations on bignum terms compute: each one gives the term of
    the integer that the operation of the same name on integers gives, or
    [NIL] when that integer is too big for a term. *)

From S2P Require Import Prelude ErlTerm BigDigit BigVec BigMul BigDiv BigShift BigBz BigBits BigTerm.
From stdpp Require Import base numbers option list.
From Stdlib Require Import ZArith Zquot Lia.

#[local] Open Scope Z_scope.

(** The fields of an operand that is a bignum. *)
Ltac big_fields H v :=
  let E := fresh "EV" in let S := fresh "ES" in let Z := fresh "EZ" in
  destruct (big_term_fields _ _ H) as (v & E & S & Z & _ & ? & ? & ? & ? & ?).

(** ** Making bignums *)

Lemma nvec_one d : digit d → nvec [d].
Proof.
  intros Hd. apply nvec_last. split_and!; [by apply Forall_singleton|done|].
  destruct (decide (d = 0)) as [->|]; [by right|left; simpl; congruence].
Qed.

Lemma dval_one d : dval [d] = d.
Proof. cbn [dval]. ring. Qed.

Lemma big_term_one s d : digit d → (s = true → 0 < d) → big_term (sgnv s d) (Boxed (bignum_header s 1) [d]).
Proof.
  intros Hd Hs. exists [d]. rewrite dval_one. unfold digit in Hd.
  assert ((sgnv s d <? 0) = s ∧ Z.abs (sgnv s d) = d) as [-> ->].
  { unfold sgnv. destruct s; [specialize (Hs eq_refl); rewrite (proj2 (Z.ltb_lt _ _)) by lia|
      rewrite (proj2 (Z.ltb_ge _ _)) by lia]; lia. }
  split_and!; [done|by apply nvec_one|done|done].
Qed.

Lemma uint_to_big_spec x : 0 ≤ x < 2 ^ 64 → big_term x (uint_to_big x).
Proof. intros Hx. apply (big_term_one false x); [by unfold digit; rewrite D_BASE_eq|done]. Qed.

Lemma small_to_big_spec x : - 2 ^ 63 ≤ x < 2 ^ 63 → big_term x (small_to_big x).
Proof.
  intros Hx. unfold small_to_big. destruct (Z.leb_spec 0 x).
  - rewrite u64_digit by (unfold digit; rewrite D_BASE_eq; lia). apply uint_to_big_spec. lia.
  - assert (u64 x = x + 2 ^ 64) as ->.
    { unfold wrapu. symmetry. apply (Z.mod_unique_pos _ _ (-1)); lia. }
    assert (u64 (- (x + 2 ^ 64)) = - x) as ->.
    { unfold wrapu. symmetry. apply (Z.mod_unique_pos _ _ (-1)); lia. }
    replace x with (sgnv true (- x)) at 1 by (unfold sgnv; lia).
    apply (big_term_one true (- x)); [unfold digit; rewrite D_BASE_eq; lia|lia].
Qed.

(** ** Comparison *)

Lemma sgn_comparison_opp c : sgn_comparison (CompOpp c) = - sgn_comparison c.
Proof. by destruct c. Qed.

Lemma big_comp_spec a b x y : big_term a x → big_term b y → big_comp x y = sgn_comparison (a ?= b).
Proof.
  intros Ha Hb. big_fields Ha v. big_fields Hb w. unfold big_comp. rewrite EV, ES, EV0, ES0, I_comp_spec by done.
  case_bool_decide as E.
  - unfold sgnv in *. rewrite E in *. destruct (b <? 0); subst a b; [|done].
    rewrite <- sgn_comparison_opp, <- Z.compare_antisym, Z.compare_opp. done.
  - destruct (Z.ltb_spec a 0), (Z.ltb_spec b 0); try done.
    + by rewrite (proj2 (Z.compare_lt_iff a b)) by lia.
    + by rewrite (proj2 (Z.compare_gt_iff a b)) by lia.
Qed.

Lemma big_ucomp_spec a b x y : big_term a x → big_term b y → big_ucomp x y = sgn_comparison (Z.abs a ?= Z.abs b).
Proof.
  intros Ha Hb. big_fields Ha v. big_fields Hb w. unfold big_ucomp. rewrite EV, EV0, I_comp_spec by done. congruence.
Qed.

(** ** Sums *)

Lemma B_plus_minus_spec x s y t : nvec x → nvec y →
  int_result (sgnv s (dval x) + sgnv t (dval y)) (B_plus_minus x s y t).
Proof.
  intros Hx Hy. unfold B_plus_minus. case_bool_decide as E.
  - subst t. destruct (Nat.ltb_spec (length y) (length x)).
    + destruct (I_add_spec x y) as (_ & Ea & _ & Hn); eauto with big; [lia|].
      apply big_norm_spec; [auto|]. rewrite Ea. unfold sgnv. destruct s; ring.
    + destruct (I_add_spec y x) as (_ & Ea & _ & Hn); eauto with big.
      apply big_norm_spec; [auto|]. rewrite Ea. unfold sgnv. destruct s; ring.
  - rewrite I_comp_spec by done. destruct (Z.compare_spec (dval x) (dval y)) as [Ec|Ec|Ec]; cbn [sgn_comparison].
    + change (0 =? 0) with true. cbv iota. replace (sgnv s (dval x) + sgnv t (dval y)) with 0.
      * unfold int_result. rewrite (proj2 (Z.ltb_lt _ _)) by (apply big_limit_lt; pose proof D_BASE_gt; lia).
        left. done.
      * rewrite Ec. unfold sgnv. destruct s, t; try done; lia.
    + change (-1 =? 0) with false. change (0 <? -1) with false. cbv iota.
      destruct (I_sub_spec y x) as (Hn & Es & _); eauto with big; [|lia|].
      { apply nvec_le_length; [done|done|lia]. }
      apply big_norm_spec; [done|]. rewrite Es. unfold sgnv. destruct s, t; try done; lia.
    + change (1 =? 0) with false. change (0 <? 1) with true. cbv iota.
      destruct (I_sub_spec x y) as (Hn & Es & _); eauto with big; [|lia|].
      { apply nvec_le_length; [done|done|lia]. }
      apply big_norm_spec; [done|]. rewrite Es. unfold sgnv. destruct s, t; try done; lia.
Qed.

Lemma big_plus_spec a b x y : big_term a x → big_term b y → int_result (a + b) (big_plus x y).
Proof.
  intros Ha Hb. big_fields Ha v. big_fields Hb w. unfold big_plus. rewrite EV, ES, EV0, ES0.
  pose proof (B_plus_minus_spec v (a <? 0) w (b <? 0)) as H'. rewrite H2, H7 in H'. auto.
Qed.

Lemma big_minus_spec a b x y : big_term a x → big_term b y → int_result (a - b) (big_minus x y).
Proof.
  intros Ha Hb. big_fields Ha v. big_fields Hb w. unfold big_minus. rewrite EV, ES, EV0, ES0.
  pose proof (B_plus_minus_spec v (a <? 0) w (negb (b <? 0))) as H'.
  assert (sgnv (negb (b <? 0)) (dval w) = - b) as E by (rewrite <- H7 at 2; unfold sgnv; destruct (b <? 0); simpl; lia).
  rewrite H2, E in H'. auto.
Qed.

Lemma big_plus_small_spec a x y : big_term a x → 0 ≤ y < 2 ^ 64 → (a < 0 → a + y ≤ 0) →
  int_result (a + y) (big_plus_small x y).
Proof.
  intros Ha Hy Hle. big_fields Ha v. unfold big_plus_small. rewrite EV, ES.
  assert (digit y) by (unfold digit; rewrite D_BASE_eq; lia).
  destruct (Z.ltb_spec a 0).
  - destruct (D_sub_spec v y) as (Hn & Es & _); eauto with big; [lia|].
    apply big_norm_spec; [done|]. rewrite Es. unfold sgnv in *. lia.
  - destruct (D_add_spec v y) as (_ & Es & _ & Hn); eauto with big.
    apply big_norm_spec; [auto|]. rewrite Es. unfold sgnv in *. lia.
Qed.

(** ** Products *)

Lemma small_times_spec a b : in_small a → in_small b → int_term (a * b) (small_times a b).
Proof.
  intros Ha%in_small_abs Hb%in_small_abs. unfold small_times.
  set (s := xorb (a <? 0) (b <? 0)).
  assert (∀ c, Z.abs c ≤ 2 ^ 59 → u64 (if 0 <? c then c else - c) = Z.abs c) as Hu.
  { intros c Hc. rewrite u64_digit; destruct (Z.ltb_spec 0 c); unfold digit; rewrite ?D_BASE_eq; lia. }
  rewrite !Hu by done. clear Hu. set (xu := Z.abs a) in *. set (yu := Z.abs b) in *.
  assert (digit xu ∧ digit yu) as [? ?] by (unfold digit; rewrite D_BASE_eq; lia).
  destruct (DMULc xu yu 0) as [d0 d1] eqn:E. apply DMULc_spec in E as (Hd0 & Hd1 & E); eauto with big.
  assert (a * b = sgnv s (xu * yu)) as ->.
  { unfold sgnv, s, xu, yu. destruct (Z.ltb_spec a 0), (Z.ltb_spec b 0); cbn [xorb]; nia. }
  assert (xu * yu = dval [d0; d1]) as Ed by (cbn [dval]; lia).
  destruct (Z.eqb_spec d1 0) as [->|Hn]; cbn [andb].
  - assert (xu * yu = d0) as -> by lia. rewrite IS_USMALL_spec by apply Hd0. case_bool_decide as Hs.
    + apply norm_small; [apply Hd0|done].
    + rewrite <- (dval_one d0) in Hs. rewrite <- (dval_one d0) at 1. apply norm_big; [by apply nvec_one|done..].
  - assert (nvec [d0; d1]) as Hv by (apply nvec_last; split_and!; [solve_digits|done|left; simpl; congruence]).
    rewrite Ed. apply norm_big; [done| |done|done]. intros Hs. by pose proof (small_one_digit _ _ Hv Hs).
Qed.

Lemma D_mul_nvec x d : nvec x → digit d → nvec (D_mul x d) ∧ dval (D_mul x d) = dval x * d.
Proof.
  intros Hx Hd. destruct (D_mul_spec x d) as (_ & E & _ & Hn); eauto with big. split; [|done].
  destruct (Z.eq_dec d 0) as [->|]; [by apply nvec_one, digit_0|].
  pose proof (dval_nonneg x ltac:(eauto with big)).
  destruct (decide (dval x = 0)) as [E0|]; [|apply Hn; [done|lia|unfold digit in Hd; lia]].
  assert (x = [0]) as ->.
  { apply nvec_inj; [done|apply nvec_one, digit_0|]. by rewrite dval_one. }
  unfold D_mul. destruct (d =? 0); [done|]. destruct (d =? 1); [done|]. destruct (d =? 2); [done|].
  cbn [D_mul_loop]. unfold DMULc. rewrite Z.mul_0_r. done.
Qed.

Lemma nvec_pos x : nvec x → length x ≠ 1%nat → 0 < dval x.
Proof.
  intros Hx Hl. destruct (nvec_lower x Hx) as [->|H]; [done|]. pose proof (dpow_pos (length x - 1)). lia.
Qed.

Lemma vec_one_digit x : vec x → length x = 1%nat → dval x = dnth x 0 ∧ digit (dnth x 0).
Proof.
  intros [Hx _] Hl. destruct x as [|d [|]]; try done. unfold dnth. cbn [nth]. split; [apply dval_one|].
  exact (proj1 (Forall_singleton _ _) Hx).
Qed.

Lemma sgnv_mul s t x y : sgnv s x * sgnv t y = sgnv (xorb s t) (x * y).
Proof. unfold sgnv. destruct s, t; cbn [xorb]; ring. Qed.

Section ops_spec.

Context (tmp_heap : nat → list Z) (Hheap : ∀ n, digits (tmp_heap n) ∧ length (tmp_heap n) = n).

Lemma big_product_spec a b x y (same : bool) r : big_term a x → big_term b y → (same → x = y) →
  digits r → (BIG_SIZE x + BIG_SIZE y ≤ length r)%nat →
  ∃ z, big_product tmp_heap same x y r = Some z ∧ nvec z ∧ dval z = Z.abs a * Z.abs b.
Proof using Hheap.
  intros Ha Hb Hs Hr Hl. big_fields Ha v. big_fields Hb w. unfold big_product. rewrite EV, EV0, EZ, EZ0 in *.
  destruct (Nat.eqb_spec (length w) 1) as [E1|E1].
  { destruct (vec_one_digit w) as [Ew Hd]; eauto with big.
    destruct (D_mul_nvec v (dnth w 0)) as [? E]; [done|done|]. eexists. split_and!; [done..|].
    rewrite E, H0. congruence. }
  destruct (Nat.eqb_spec (length v) 1) as [E2|E2].
  { destruct (vec_one_digit v) as [Ew Hd]; eauto with big.
    destruct (D_mul_nvec w (dnth v 0)) as [? E]; [done|done|]. eexists. split_and!; [done..|].
    rewrite E, H5, Z.mul_comm. congruence. }
  assert (same → v = w) as Hvw by (intros ->%Hs; congruence).
  pose proof (nvec_pos v ltac:(done) E2). pose proof (nvec_pos w ltac:(done) E1).
  destruct (Nat.leb_spec (length w) (length v)).
  - destruct (I_mul_karatsuba_spec tmp_heap Hheap (length v) same v w r) as (z & -> & _ & E & _ & Hn); try done.
    exists z. split_and!; [done|auto|]. by rewrite E, H0, H5.
  - destruct (I_mul_karatsuba_spec tmp_heap Hheap (length w) same w v r) as (z & -> & _ & E & _ & Hn); try done; [lia| |lia|].
    { intros ?. symmetry. auto. }
    exists z. split_and!; [done|auto|]. rewrite E, H0, H5. ring.
Qed.

Lemma big_sign_mul a b x y : big_term a x → big_term b y →
  a * b = sgnv (xorb (BIG_SIGN x) (BIG_SIGN y)) (Z.abs a * Z.abs b).
Proof.
  intros Ha Hb. big_fields Ha v. big_fields Hb w. rewrite ES, ES0.
  rewrite <- H2 at 1. rewrite <- H7 at 1. rewrite sgnv_mul. congruence.
Qed.

Lemma big_times_spec a b x y (same : bool) r : big_term a x → big_term b y → (same → x = y) →
  digits r → (BIG_SIZE x + BIG_SIZE y ≤ length r)%nat →
  ∃ t, big_times tmp_heap same x y r = Some t ∧ int_result (a * b) t.
Proof using Hheap.
  intros Ha Hb Hs Hr Hl. destruct (big_product_spec a b x y same r) as (z & Ez & Hz & E); try done.
  unfold big_times. rewrite Ez. eexists. split; [done|]. apply big_norm_spec; [done|].
  rewrite E. symmetry. by apply big_sign_mul.
Qed.

Lemma big_mul_add_spec a b c x y z (same : bool) r : big_term a x → big_term b y → big_term c z → (same → x = y) →
  digits r → (BIG_SIZE x + BIG_SIZE y ≤ length r)%nat →
  ∃ t, big_mul_add tmp_heap same x y z r = Some t ∧ int_result (a * b + c) t.
Proof using Hheap.
  intros Ha Hb Hc Hs Hr Hl. destruct (big_product_spec a b x y same r) as (p & Ep & Hp & E); try done.
  unfold big_mul_add. rewrite Ep. eexists. split; [done|]. big_fields Hc u.
  rewrite (big_sign_mul a b x y Ha Hb), <- E, EV, ES. rewrite <- H2 at 1. by apply B_plus_minus_spec.
Qed.

(** Division of magnitudes and signs. *)
Lemma quot_rem_signs a b q r : 0 < Z.abs b → Z.abs a = Z.abs b * q + r → 0 ≤ r < Z.abs b →
  Z.quot a b = sgnv (xorb (a <? 0) (b <? 0)) q ∧ Z.rem a b = sgnv (a <? 0) r.
Proof.
  intros Hb E Hr. unfold sgnv.
  assert (a = b * (if xorb (a <? 0) (b <? 0) then - q else q) + (if a <? 0 then - r else r)) as Ea.
  { destruct (Z.ltb_spec a 0), (Z.ltb_spec b 0); cbn [xorb]; nia. }
  assert (Remainder a b (if a <? 0 then - r else r)) as Hs.
  { unfold Remainder. destruct (Z.ltb_spec a 0); lia. }
  destruct (Zquot_mod_unique_full _ _ _ _ Hs Ea) as [<- <-]. done.
Qed.

Lemma int_term_not_nil z t : int_term z t → is_nil_term t = false.
Proof.
  intros [[Hz ->]|[_ (v & -> & _)]]; [|done]. cbn [is_nil_term small_term].
  unfold is_nil. apply bool_decide_eq_false. rewrite make_small_word. change NIL with 59.
  pose proof (Z.mod_pos_bound z (2 ^ 60) ltac:(done)). lia.
Qed.

Lemma big_div_rem_spec a b x y : big_term a x → big_term b y → 0 < Z.abs b ≤ Z.abs a →
  ∃ q r, big_div_rem tmp_heap x y = Some (Some (q, r)) ∧ int_term (Z.quot a b) q ∧ int_term (Z.rem a b) r.
Proof using Hheap.
  intros Ha Hb Hab. pose proof (big_term_abs a x Ha) as Hlim.
  big_fields Ha v. big_fields Hb w. unfold big_div_rem. rewrite EV, EV0, ES, ES0, EZ0.
  assert (∃ q r, (if (length w =? 1)%nat then
       '(q, r) ← D_div v (dnth w 0); Some (q, [r])
     else I_div_dispatch tmp_heap v w) = Some (q, r) ∧ nvec q ∧ nvec r ∧
     dval v = dval w * dval q + dval r ∧ dval r < dval w) as (q & r & -> & Hq & Hr & E & Hlt).
  { destruct (Nat.eqb_spec (length w) 1) as [E1|E1].
    - destruct (vec_one_digit w) as [Ew Hd]; eauto with big.
      destruct (D_div_spec v (dnth w 0)) as (q & r & -> & Hq & Hr & E); [done|done|lia|].
      exists q, [r]. rewrite dval_one, Ew. split_and!; [done|done| |lia..].
      apply nvec_one. unfold digit in *. lia.
    - apply (I_div_dispatch_spec tmp_heap Hheap); [done|done| |lia|].
      + pose proof (vec_length w ltac:(eauto with big)). lia.
      + change BIG_ARITY_MAX with 65535 in *. lia. }
  pose proof (dval_nonneg q ltac:(eauto with big)). pose proof (dval_nonneg r ltac:(eauto with big)).
  destruct (quot_rem_signs a b (dval q) (dval r)) as [Eq Er]; [lia|congruence|lia|].
  assert (dval q ≤ dval v) by nia. cbn [mbind option_bind].
  assert (int_term (Z.quot a b) (big_norm q (xorb (a <? 0) (b <? 0)))) as Tq.
  { apply int_result_ok; [|by apply big_norm_spec]. rewrite Eq. unfold sgnv. destruct xorb; lia. }
  assert (int_term (Z.rem a b) (big_norm r (a <? 0))) as Tr.
  { apply int_result_ok; [|by apply big_norm_spec]. rewrite Er. unfold sgnv. destruct (a <? 0); lia. }
  rewrite (int_term_not_nil _ _ Tq), (int_term_not_nil _ _ Tr). eexists _, _. done.
Qed.

End ops_spec.

(** ** Bitwise operations and shifts *)

Lemma big_band_spec a b x y : big_term a x → big_term b y → int_result (Z.land a b) (big_band x y).
Proof.
  intros Ha Hb. big_fields Ha v. big_fields Hb w. unfold big_band. rewrite EV, EV0, ES, ES0, EZ, EZ0.
  destruct (Nat.leb_spec (length w) (length v)).
  - destruct (I_band_spec v (a <? 0) w (b <? 0)) as [? E]; try done. apply big_norm_spec; [done|congruence].
  - destruct (I_band_spec w (b <? 0) v (a <? 0)) as [? E]; try done; [lia|].
    rewrite (andb_comm (a <? 0)). apply big_norm_spec; [done|]. rewrite Z.land_comm. congruence.
Qed.

Lemma big_bor_spec a b x y : big_term a x → big_term b y → int_result (Z.lor a b) (big_bor x y).
Proof.
  intros Ha Hb. big_fields Ha v. big_fields Hb w. unfold big_bor. rewrite EV, EV0, ES, ES0, EZ, EZ0.
  destruct (Nat.leb_spec (length w) (length v)).
  - destruct (I_bor_spec v (a <? 0) w (b <? 0)) as [? E]; try done. apply big_norm_spec; [done|congruence].
  - destruct (I_bor_spec w (b <? 0) v (a <? 0)) as [? E]; try done; [lia|].
    rewrite (orb_comm (a <? 0)). apply big_norm_spec; [done|]. rewrite Z.lor_comm. congruence.
Qed.

Lemma big_bxor_spec a b x y : big_term a x → big_term b y → int_result (Z.lxor a b) (big_bxor x y).
Proof.
  intros Ha Hb. big_fields Ha v. big_fields Hb w. unfold big_bxor. rewrite EV, EV0, ES, ES0, EZ, EZ0.
  destruct (Nat.leb_spec (length w) (length v)).
  - destruct (I_bxor_spec v (a <? 0) w (b <? 0)) as [? E]; try done. apply big_norm_spec; [done|congruence].
  - destruct (I_bxor_spec w (b <? 0) v (a <? 0)) as [? E]; try done; [lia|].
    rewrite (xorb_comm (a <? 0)). apply big_norm_spec; [done|]. rewrite Z.lxor_comm. congruence.
Qed.

(** The complement of 0 is not asked for: it is a small. *)
Lemma big_bnot_spec a x : big_term a x → a ≠ 0 → int_result (Z.lnot a) (big_bnot x).
Proof.
  intros Ha Hn. big_fields Ha v. unfold big_bnot. rewrite EV, ES.
  destruct (I_bnot_spec v (negb (a <? 0))) as [? E]; [done|intros _; lia|].
  apply big_norm_spec; [done|]. rewrite E, negb_involutive. congruence.
Qed.

Lemma big_lshift_spec a x y : big_term a x → - 2 ^ 63 < y < 2 ^ 63 → int_result (Z.shiftl a y) (big_lshift x y).
Proof.
  intros Ha Hy. big_fields Ha v. unfold big_lshift. rewrite EV, ES.
  destruct (I_lshift_spec v y (a <? 0)) as [? E]; try done. apply big_norm_spec; [done|congruence].
Qed.
