(* ===== verification/BigConv.v ===== *)
(** Conversions of integer terms ([erts/emulator/beam/big.c]): to machine
    words, and to and from little-endian bytes. *)

From S2P Require Import Prelude ErlTerm BigDigit BigVec BigShift BigTerm.
From stdpp Require Import base numbers option list.
From Stdlib Require Import ZArith Lia.

#[local] Open Scope Z_scope.

(** ** Machine words *)

(** The reasons of errors ([error.h]). *)
Inductive reason : Type :=
  | BADARG
  | BADARITH
  | SYSTEM_LIMIT.

(** The digits put together; [n] is the position of the next one. *)
Fixpoint uint_loop (xr : list Z) (n uval : Z) : Z :=
  match xr with
  | d :: xr => uint_loop xr (n + D_EXP) (Z.lor uval (u64 (Z.shiftl d n)))
  | [] => uval
  end.

(** The conversions return whether they succeed, with the value or the reason
    in [*up]. *)
Definition term_to_Uint (term : eterm) : reason + Z :=
  if is_small_term term then
    let i := signed_val_term term in
    if i <? 0 then inl BADARG else inr (u64 i)
  else if is_big term then
    let xr := BIG_V term in
    let xl := Z.of_nat (BIG_SIZE term) in
    if BIG_SIGN term then inl BADARG
    else if 8 * 8 <? xl * D_EXP then inl SYSTEM_LIMIT
    else inr (uint_loop xr 0 0)
  else inl BADARG.

Definition term_to_Uint_mask (term : eterm) : reason + Z :=
  if is_small_term term then
    let i := signed_val_term term in
    if i <? 0 then inl BADARG else inr (u64 i)
  else if is_big term && negb (BIG_SIGN term) then inr (dnth (BIG_V term) 0)
  else inl BADARG.

Definition term_to_Uint32 (term : eterm) : reason + Z :=
  if is_small_term term then
    let i := signed_val_term term in
    if 0 <=? i then inr (wrapu 32 i) else inl BADARG
  else inl BADARG.

Definition term_to_Sint (term : eterm) : option Z :=
  if is_small_term term then Some (signed_val_term term)
  else if is_big term then
    let xr := BIG_V term in
    let xl := Z.of_nat (BIG_SIZE term) in
    if 8 * 8 <? xl * D_EXP then None
    else
      let uval := uint_loop xr 0 0 in
      if BIG_SIGN term then
        let uval := u64 (- uval) in
        if 0 <? s64 uval then None else Some (s64 uval)
      else if s64 uval <? 0 then None else Some (s64 uval)
  else None.

Definition term_equals_2pow32 (x : eterm) : bool :=
  match term_to_Uint x with
  | inl _ => false
  | inr u => (Z.land u 0xFFFFFFFF =? 0) && (Z.shiftr (Z.shiftr u 16) 16 =? 1)
  end.

(** ** Bytes *)

(** The bytes of a digit up to its last one that is not zero. *)
Fixpoint count_bytes (fuel : nat) (d : Z) : nat :=
  match fuel with
  | O => O
  | S fuel => if d =? 0 then O else S (count_bytes fuel (Z.shiftr d 8))
  end.

(** A digit has 8 bytes. *)
Definition big_bytes (x : eterm) : nat :=
  let sz := BIG_SIZE x in
  let d := dnth (BIG_V x) (sz - 1) in
  ((sz - 1) * 8 + count_bytes 8 d)%nat.

(** The loop over [i] from [xsz - 1] down to 0. *)
Definition load_digit (xp : list Z) : Z := fold_right (λ b d, Z.lor (u64 (Z.shiftl d 8)) b) 0 xp.

(** The digits that have all bytes, and the bytes that remain. [fuel] bounds
    the digits. *)
Fixpoint load_digits (fuel : nat) (xp : list Z) : list Z * list Z :=
  if (8 <? length xp)%nat then
    match fuel with
    | O => ([], xp)
    | S fuel =>
        let d := load_digit (take 8 xp) in
        let '(r, xp) := load_digits fuel (drop 8 xp) in
        (d :: r, xp)
    end
  else ([], xp).

Definition bytes_to_big (xp : list Z) (xsgn : bool) : eterm :=
  let '(r, xp) := load_digits (length xp) xp in
  let finish r :=
    let rsz := Z.of_nat (length r) in
    if BIG_ARITY_MAX <? rsz then Word NIL
    else Boxed (if xsgn then make_neg_bignum_header rsz else make_pos_bignum_header rsz) r in
  if (0 <? length xp)%nat then
    let d := load_digit xp in
    if (length r + 1 =? 1)%nat && IS_USMALL xsgn d then
      small_term (if xsgn then u64 (- d) else d)
    else finish (r ++ [d])
  else finish r.

(** The bytes of a digit, [n] of them. *)
Fixpoint store_digit (n : nat) (d : Z) : list Z :=
  match n with
  | O => []
  | S n => Z.land d 0xff :: store_digit n (Z.shiftr d 8)
  end.

(** The bytes of the last digit, one at least. It has no result when the
    rounds run out. *)
Fixpoint store_last (fuel : nat) (d : Z) : option (list Z) :=
  match fuel with
  | O => None
  | S fuel =>
      let b := Z.land d 0xff in
      let d := Z.shiftr d 8 in
      if negb (d =? 0) then cons b <$> store_last fuel d else Some [b]
  end.

Fixpoint store_digits (xr : list Z) : option (list Z) :=
  match xr with
  | [] => None
  | [d] => store_last 8 d
  | d :: xr => app (store_digit 8 d) <$> store_digits xr
  end.

Definition big_to_bytes (x : eterm) : option (list Z) := store_digits (BIG_V x).

(** ** Machine words: proofs *)

Lemma uint_loop_one d : digit d → uint_loop [d] 0 0 = d.
Proof.
  intros Hd. cbn [uint_loop]. rewrite Z.shiftl_0_r, Z.lor_0_l. by apply u64_digit.
Qed.

Lemma int_term_small z t : int_term z t → in_small z → is_small_term t = true ∧ signed_val_term t = z.
Proof.
  intros [[_ ->]|[? _]] Hz; [|done]. cbn. split; [apply is_small_make_small|by apply signed_val_make_small].
Qed.

Lemma int_term_big z t : int_term z t → ¬ in_small z → big_term z t ∧ is_small_term t = false.
Proof. intros [[? _]|[_ Hb]] Hz; [done|]. split; [done|]. by destruct Hb as (? & -> & _). Qed.

(** The magnitude of a bignum as a word, when it has one digit. *)
Lemma big_one_word z t : big_term z t →
  (8 * 8 <? Z.of_nat (BIG_SIZE t) * D_EXP) = (D_BASE <=? Z.abs z) ∧
  (Z.abs z < D_BASE → uint_loop (BIG_V t) 0 0 = Z.abs z ∧ digit (Z.abs z)).
Proof.
  intros Hb. destruct (big_term_fields z t Hb) as (v & -> & _ & -> & _ & Hv & <- & _).
  pose proof (vec_length v ltac:(eauto with big)) as Hl.
  pose proof (nvec_length_lt v 0 Hv) as Hn. rewrite dpow_S, dpow_0, Z.mul_1_r in Hn.
  unfold D_EXP. split.
  - destruct (Z.leb_spec D_BASE (dval v)) as [H|H].
    + apply Z.ltb_lt. destruct (decide (length v ≤ 1)%nat) as [H1|]; [apply Hn in H1|]; lia.
    + apply Hn in H. apply Z.ltb_ge. lia.
  - intros H%Hn. destruct v as [|d [|]]; simpl in Hl, H; [lia| |lia].
    assert (dval [d] = d) as -> by (cbn [dval]; ring).
    pose proof (proj1 (Forall_singleton _ _) (proj1 (nvec_vec _ Hv))) as Hd. split; [by apply uint_loop_one|done].
Qed.

Lemma term_to_Uint_spec z t : int_term z t →
  term_to_Uint t = if z <? 0 then inl BADARG else if z <? D_BASE then inr z else inl SYSTEM_LIMIT.
Proof.
  intros Ht. unfold term_to_Uint. destruct (decide (in_small z)) as [Hs|Hs].
  - destruct (int_term_small z t Ht Hs) as [-> ->]. destruct (Z.ltb_spec z 0); [done|].
    pose proof (in_small_abs z Hs). rewrite (proj2 (Z.ltb_lt _ _)) by (rewrite D_BASE_eq; lia).
    f_equal. apply u64_digit. unfold digit. rewrite D_BASE_eq. lia.
  - destruct (int_term_big z t Ht Hs) as [Hb ->]. destruct (big_one_word z t Hb) as [-> Hw].
    destruct (big_term_fields z t Hb) as (v & _ & -> & _ & -> & _).
    destruct (Z.ltb_spec z 0); [done|]. replace (Z.abs z) with z in * by lia.
    destruct (Z.leb_spec D_BASE z); destruct (Z.ltb_spec z D_BASE); try lia; [done|].
    f_equal. by apply Hw.
Qed.

Lemma term_to_Sint_spec z t : int_term z t →
  term_to_Sint t = if bool_decide (- 2 ^ 63 ≤ z < 2 ^ 63) then Some z else None.
Proof.
  intros Ht. unfold term_to_Sint. destruct (decide (in_small z)) as [Hs|Hs].
  - destruct (int_term_small z t Ht Hs) as [-> ->]. pose proof (in_small_abs z Hs).
    rewrite bool_decide_eq_true_2 by lia. done.
  - destruct (int_term_big z t Ht Hs) as [Hb ->]. destruct (big_one_word z t Hb) as [-> Hw].
    destruct (big_term_fields z t Hb) as (v & _ & -> & _ & -> & _). rewrite D_BASE_eq in *.
    destruct (Z.leb_spec (2 ^ 64) (Z.abs z)); [by rewrite bool_decide_eq_false_2 by lia|].
    destruct Hw as [-> Hd]; [done|]. assert (z ≠ 0) by (intros ->; by apply Hs).
    destruct (Z.ltb_spec z 0).
    + assert (u64 (- Z.abs z) = 2 ^ 64 + z) as ->.
      { unfold wrapu. symmetry. apply (Z.mod_unique_pos _ _ (-1)); lia. }
      destruct (decide (- 2 ^ 63 ≤ z)).
      * rewrite bool_decide_eq_true_2 by lia. assert (s64 (2 ^ 64 + z) = z) as ->.
        { unfold wraps. rewrite <- (Z.mod_unique_pos (2 ^ 64 + z + 2 ^ (64 - 1)) (2 ^ 64) 1 (z + 2 ^ 63)); lia. }
        by rewrite (proj2 (Z.ltb_ge _ _)) by lia.
      * rewrite bool_decide_eq_false_2 by lia. rewrite s64_digit by lia.
        by rewrite (proj2 (Z.ltb_lt _ _)) by lia.
    + destruct (decide (z < 2 ^ 63)).
      * rewrite bool_decide_eq_true_2 by lia. rewrite s64_digit by lia. replace (Z.abs z) with z by lia.
        by rewrite (proj2 (Z.ltb_ge _ _)) by lia.
      * rewrite bool_decide_eq_false_2 by lia. assert (s64 (Z.abs z) = z - 2 ^ 64) as ->.
        { unfold wraps. rewrite <- (Z.mod_unique_pos (Z.abs z + 2 ^ (64 - 1)) (2 ^ 64) 1 (z - 2 ^ 63)); lia. }
        by rewrite (proj2 (Z.ltb_lt _ _)) by lia.
Qed.

Lemma term_equals_2pow32_spec z t : int_term z t → term_equals_2pow32 t = bool_decide (z = 2 ^ 32).
Proof.
  intros Ht. unfold term_equals_2pow32. rewrite (term_to_Uint_spec z t Ht). rewrite D_BASE_eq.
  destruct (Z.ltb_spec z 0); [by rewrite bool_decide_eq_false_2 by lia|].
  destruct (Z.ltb_spec z (2 ^ 64)); [|by rewrite bool_decide_eq_false_2 by lia].
  rewrite Z.shiftr_shiftr by lia. change (16 + 16) with 32. rewrite Z.shiftr_div_pow2 by done.
  change 0xFFFFFFFF with (Z.ones 32). rewrite Z.land_ones by done. symmetry.
  pose proof (Z.div_mod z (2 ^ 32) ltac:(done)). case_bool_decide.
  - subst z. done.
  - destruct (Z.eqb_spec (z mod 2 ^ 32) 0); [|done]. cbn [andb]. symmetry. apply Z.eqb_neq. lia.
Qed.

(** ** Bytes: proofs *)

Definition is_byte (b : Z) : Prop := 0 ≤ b < 256.

(** The value of bytes, the least significant first. *)
Fixpoint bval (l : list Z) : Z :=
  match l with
  | [] => 0
  | b :: l => b + 256 * bval l
  end.

Abbreviation bpow n := (256 ^ Z.of_nat n).

Lemma bpow_S n : bpow (S n) = 256 * bpow n.
Proof. rewrite Nat2Z.inj_succ, Z.pow_succ_r by lia. done. Qed.

Lemma bval_bound l : Forall is_byte l → 0 ≤ bval l < bpow (length l).
Proof.
  induction 1 as [|b l Hb _ IH]; [done|]. cbn [bval length]. rewrite bpow_S. unfold is_byte in Hb. lia.
Qed.

Lemma land_byte d : Z.land d 0xff = d mod 256.
Proof. apply (land_ones_mod d 8). done. Qed.

Lemma load_digit_spec l : Forall is_byte l → (length l ≤ 8)%nat → load_digit l = bval l.
Proof.
  induction 1 as [|b l Hb Hl IH]; [done|]. cbn [length]. intros Hle. unfold load_digit in *. cbn [fold_right bval].
  rewrite IH by lia. pose proof (bval_bound l Hl) as Hv. unfold is_byte in Hb.
  assert (bpow (length l) ≤ 256 ^ 7) by (apply Z.pow_le_mono_r; lia).
  change (256 ^ 7) with (2 ^ 56) in *.
  rewrite Z.shiftl_mul_pow2 by done. rewrite wrapu_small by lia.
  rewrite lor_high_low; [|done|done]. change (2 ^ 8) with 256. lia.
Qed.

Lemma store_digit_spec n d : 0 ≤ d →
  Forall is_byte (store_digit n d) ∧ length (store_digit n d) = n ∧ bval (store_digit n d) = d mod bpow n.
Proof.
  revert d. induction n as [|n IH]; intros d Hd; cbn [store_digit].
  { rewrite Z.mod_1_r. done. }
  destruct (IH (Z.shiftr d 8)) as (? & Hl & E); [by apply Z.shiftr_nonneg|].
  rewrite land_byte. pose proof (Z.mod_pos_bound d 256 ltac:(done)). split_and!.
  - by constructor.
  - by cbn [length]; rewrite Hl.
  - cbn [bval]. rewrite E, Z.shiftr_div_pow2, bpow_S by done. change (2 ^ 8) with 256.
    rewrite (Z.rem_mul_r d 256) by (try done; apply Z.pow_pos_nonneg; lia). ring.
Qed.

Lemma digit_bpow d : digit d ↔ 0 ≤ d < bpow 8.
Proof. unfold digit. rewrite D_BASE_eq. done. Qed.

Lemma store_load d : digit d → load_digit (store_digit 8 d) = d.
Proof.
  intros Hd. destruct (store_digit_spec 8 d) as (Hb & Hl & E); [apply Hd|].
  rewrite load_digit_spec by (done || lia). rewrite E. apply Z.mod_small. by apply digit_bpow.
Qed.

(** The bytes of the last digit have no zero on top. *)
Lemma store_last_spec fuel d : 0 < d < bpow fuel →
  ∃ l, store_last fuel d = Some l ∧ Forall is_byte l ∧ bval l = d ∧ l ≠ [] ∧ last l ≠ Some 0 ∧
    length l = count_bytes fuel d ∧ (length l ≤ fuel)%nat.
Proof.
  revert d. induction fuel as [|fuel IH]; intros d Hd; [change (bpow 0) with 1 in Hd; lia|].
  cbn [store_last count_bytes]. rewrite bpow_S in Hd. rewrite land_byte.
  rewrite Z.shiftr_div_pow2 by done. change (2 ^ 8) with 256.
  pose proof (Z.div_mod d 256 ltac:(done)) as E. pose proof (Z.mod_pos_bound d 256 ltac:(done)) as Hm.
  rewrite (proj2 (Z.eqb_neq d 0)) by lia.
  destruct (Z.eqb_spec (d / 256) 0) as [E0|]; cbn [negb].
  - exists [d mod 256]. cbn [bval length last]. split_and!.
    + done.
    + by constructor.
    + lia.
    + done.
    + intros [= Em]. lia.
    + destruct fuel; [done|]. cbn [count_bytes]. by rewrite E0.
    + lia.
  - destruct (IH (d / 256)) as (l & -> & Hb & Ev & Hn & Hlast & Hl & Hle).
    { split; [|apply Z.div_lt_upper_bound; lia]. pose proof (Z.div_pos d 256). lia. }
    exists (d mod 256 :: l). cbn [bval length]. split_and!; [done|by constructor|lia|done|by destruct l|lia|lia].
Qed.

Lemma store_digits_spec r d : digits r → digit d → 0 < d →
  ∃ l, store_digits (r ++ [d]) = Some (concat (map (store_digit 8) r) ++ l) ∧ Forall is_byte l ∧
    load_digit l = d ∧ l ≠ [] ∧ last l ≠ Some 0 ∧ length l = count_bytes 8 d ∧ (length l ≤ 8)%nat.
Proof.
  intros Hr Hd Hp. apply digit_bpow in Hd.
  destruct (store_last_spec 8 d) as (l & Es & Hb & Ev & Hn & Hl & Hc & Hle); [split; [done|apply Hd]|].
  exists l. split_and!; try done; [|by rewrite load_digit_spec].
  induction Hr as [|e r He Hr IH]; [done|]. cbn [app map concat]. rewrite <- app_assoc.
  assert (∃ f s, r ++ [d] = f :: s) as (f & s & Er) by (destruct r; by eexists _, _).
  rewrite Er in *. change (store_digits (e :: f :: s)) with (app (store_digit 8 e) <$> store_digits (f :: s)).
  by rewrite IH.
Qed.

Lemma store_digit_length n d : length (store_digit n d) = n.
Proof. revert d. induction n as [|n IH]; intros d; cbn; [done|]. by rewrite IH. Qed.

Lemma concat_length r : length (concat (map (store_digit 8) r)) = (8 * length r)%nat.
Proof.
  induction r as [|d r IH]; [done|]. cbn [map concat length]. rewrite length_app, IH, store_digit_length. lia.
Qed.

Lemma load_digits_spec fuel r l : digits r → (0 < length l ≤ 8)%nat → (length r ≤ fuel)%nat →
  load_digits fuel (concat (map (store_digit 8) r) ++ l) = (r, l).
Proof.
  intros Hr Hl. revert fuel. induction Hr as [|d r Hd Hr IH]; intros fuel Hf; cbn [map concat app].
  { destruct fuel; cbn [load_digits]; rewrite (proj2 (Nat.ltb_ge _ _)) by lia; done. }
  rewrite <- app_assoc. destruct fuel as [|fuel]; [simpl in Hf; lia|]. cbn [load_digits].
  rewrite (proj2 (Nat.ltb_lt _ _)) by (rewrite !length_app, store_digit_length; lia).
  rewrite take_app_length', drop_app_length' by (symmetry; apply store_digit_length).
  rewrite IH by (simpl in Hf; lia). by rewrite store_load.
Qed.

Lemma small_term_u64 z : small_term (u64 z) = small_term z.
Proof.
  unfold small_term, make_small. by rewrite (wrapu_small 64 (u64 z)) by (apply wrapu_range; done).
Qed.

Lemma bval_app x y : bval (x ++ y) = bval x + bpow (length x) * bval y.
Proof.
  induction x as [|d x IH]; cbn [app bval length]; [rewrite Z.mul_1_l; done|]. rewrite IH, bpow_S. ring.
Qed.

Lemma bval_pos l : Forall is_byte l → l ≠ [] → last l ≠ Some 0 → 0 < bval l.
Proof.
  intros Hb Hn Hl. destruct (exists_last Hn) as (k & b & ->). rewrite last_snoc in Hl.
  apply Forall_app in Hb as [Hk Hb]. apply (Forall_singleton is_byte b) in Hb. rewrite bval_app. cbn [bval].
  pose proof (bval_bound k Hk). assert (1 ≤ b) by (unfold is_byte in Hb; destruct (decide (b = 0)); [congruence|lia]).
  assert (0 < bpow (length k)) by (apply Z.pow_pos_nonneg; lia). nia.
Qed.

Lemma dval_one_digit d : dval [d] = d.
Proof. cbn [dval]. ring. Qed.

(** The loading loop splits the bytes. *)
Lemma load_digits_value fuel bs r l : Forall is_byte bs → (length bs ≤ fuel)%nat → load_digits fuel bs = (r, l) →
  digits r ∧ (length l ≤ 8)%nat ∧ (bs ≠ [] → l ≠ []) ∧ last l = last bs ∧ bval bs = dval r + dpow (length r) * bval l ∧
  length bs = (8 * length r + length l)%nat ∧ Forall is_byte l.
Proof.
  revert bs r l. induction fuel as [|fuel IH]; intros bs r l Hb Hf; cbn [load_digits].
  { rewrite (proj2 (Nat.ltb_ge _ _)) by lia. intros [= <- <-]. destruct bs; [|simpl in Hf; lia].
    split_and!; try done. cbn. lia. }
  destruct (Nat.ltb_spec 8 (length bs)) as [H8|H8].
  2:{ intros [= <- <-]. cbn [dval length]. rewrite dpow_0. split_and!; try done; lia. }
  destruct (load_digits fuel (drop 8 bs)) as [r' l'] eqn:E. intros [= <- <-].
  apply IH in E as (Hr & Hl & Hn & Hlast & Ev & Elen & Hbl); [|by apply Forall_drop|rewrite length_drop; lia].
  assert (drop 8 bs ≠ []) as Hne by (intros E0; apply (f_equal length) in E0; rewrite length_drop in E0; simpl in E0; lia).
  assert (length (take 8 bs) = 8%nat) as Ht by (rewrite length_take; lia).
  assert (Forall is_byte (take 8 bs)) as Hbt by by apply Forall_take.
  assert (digit (load_digit (take 8 bs)) ∧ load_digit (take 8 bs) = bval (take 8 bs)) as [Hd Eb].
  { rewrite load_digit_spec by (done || lia). split; [|done]. apply digit_bpow. pose proof (bval_bound _ Hbt) as H.
    by rewrite Ht in H. }
  split_and!; [by constructor|done|auto| | |cbn [length]; rewrite length_drop in Elen; lia|done].
  - rewrite Hlast. assert (last bs = last (take 8 bs ++ drop 8 bs)) as -> by (by rewrite take_drop).
    rewrite last_app. destruct (last (drop 8 bs)) eqn:E; [done|]. by apply last_None in E.
  - assert (bval bs = bval (take 8 bs ++ drop 8 bs)) as -> by (by rewrite take_drop). rewrite bval_app, Ht, Ev, Eb. cbn [dval length]. rewrite dpow_S.
    change (bpow 8) with (2 ^ 64). rewrite <- D_BASE_eq. ring.
Qed.

(** Loading bytes that have no zero on top gives the term of their value. *)
Lemma bytes_to_big_spec bs s : Forall is_byte bs → bs ≠ [] → last bs ≠ Some 0 →
  int_result (sgnv s (bval bs)) (bytes_to_big bs s).
Proof.
  intros Hb Hn Hlast. unfold bytes_to_big. destruct (load_digits (length bs) bs) as [r l] eqn:E.
  apply load_digits_value in E as (Hr & Hl & Hne & Elast & Ev & _ & Hbl); [|done|done].
  specialize (Hne Hn). assert (0 < length l)%nat as Hl0 by (destruct l; simpl; [done|lia]).
  rewrite (proj2 (Nat.ltb_lt _ _) Hl0). rewrite <- Elast in Hlast.
  assert (digit (load_digit l) ∧ load_digit l = bval l ∧ 0 < bval l) as (Hd & Eld & Hp).
  { rewrite load_digit_spec by done. pose proof (bval_bound l Hbl) as Hbd. split_and!; [|done|].
    - apply digit_bpow. assert (bpow (length l) ≤ bpow 8) by (apply Z.pow_le_mono_r; lia). lia.
    - by apply bval_pos. }
  rewrite Eld in *. clear Eld. assert (nvec (r ++ [bval l])) as Hv.
  { apply nvec_last. split_and!; [apply Forall_app; split; [done|exact (proj2 (Forall_singleton digit _) Hd)]|by destruct r|left].
    rewrite last_snoc. intros [= E]. lia. }
  assert (dval (r ++ [bval l]) = bval bs) as Evv by (by rewrite dval_snoc, Ev).
  rewrite <- Evv, length_app. cbn [length].
  destruct (_ && _) eqn:Ec.
  - apply andb_prop in Ec as [E1%Nat.eqb_eq Es]. assert (r = []) as -> by (destruct r; simpl in E1; [done|lia]).
    cbn [app] in *. rewrite dval_one_digit in *. rewrite IS_USMALL_spec in Es by lia. apply bool_decide_eq_true in Es.
    unfold int_result. rewrite (proj2 (Z.ltb_lt _ _)).
    + left. split; [done|]. unfold sgnv in *. destruct s; [apply small_term_u64|done].
    + apply big_limit_lt. apply in_small_abs in Es. rewrite D_BASE_eq. lia.
  - pose proof (big_limit_length _ Hv) as Hlim. rewrite length_app in Hlim. cbn [length] in Hlim.
    pose proof (dval_nonneg _ (vec_digits _ (nvec_vec _ Hv))).
    assert (Z.abs (sgnv s (dval (r ++ [bval l]))) = dval (r ++ [bval l])) as Ea by (unfold sgnv; destruct s; lia).
    unfold int_result. rewrite Ea. destruct (Z.ltb_spec BIG_ARITY_MAX (Z.of_nat (length r + 1))) as [Hbig|Hfit].
    + rewrite (proj2 (Z.ltb_ge _ _)); [done|]. destruct (Z.le_gt_cases big_limit (dval (r ++ [bval l]))) as [|H1]; [done|].
      apply Hlim in H1. lia.
    + rewrite (proj2 (Z.ltb_lt _ _)) by (by apply Hlim). apply norm_big; [done| |by rewrite length_app|done].
      intros Hs. pose proof (small_one_digit _ _ Hv Hs) as H1. rewrite length_app in H1. cbn [length] in H1.
      assert (r = []) as -> by (destruct r; simpl in H1; [done|lia]). cbn [app length Nat.add Nat.eqb andb] in *.
      rewrite dval_one_digit in Hs. rewrite IS_USMALL_spec in Ec by lia. by apply bool_decide_eq_false in Ec.
Qed.

(** The top digit of a positive number. *)
Lemma nvec_pos_top v : nvec v → 0 < dval v → ∃ r d, v = r ++ [d] ∧ 0 < d.
Proof.
  intros (Hd & Hn & Hl)%nvec_last Hp. destruct (exists_last Hn) as (r & d & ->). exists r, d. split; [done|].
  apply Forall_app in Hd as [_ Hd]. apply (Forall_singleton digit d) in Hd. unfold digit in Hd.
  destruct Hl as [Hl|Hl]; [rewrite last_snoc in Hl; destruct (decide (d = 0)); [congruence|lia]|].
  rewrite Hl in Hp. done.
Qed.

Lemma dnth_top r d : dnth (r ++ [d]) (length (r ++ [d]) - 1) = d.
Proof.
  unfold dnth. rewrite length_app. cbn [length]. rewrite app_nth2 by lia.
  by replace (length r + 1 - 1 - length r)%nat with 0%nat by lia.
Qed.

(** The bytes of a bignum. *)
Lemma big_to_bytes_spec z t : big_term z t → z ≠ 0 →
  ∃ bs, big_to_bytes t = Some bs ∧ length bs = big_bytes t ∧ Forall is_byte bs ∧ bs ≠ [] ∧ last bs ≠ Some 0 ∧
    bval bs = Z.abs z.
Proof.
  intros Hb Hz. destruct (big_term_fields z t Hb) as (v & EV & _ & ES & _ & Hv & Ea & _ & _ & _).
  pose proof (nvec_vec v Hv) as [Hd Hn]. pose proof (nvec_pos_top v Hv ltac:(lia)) as (r & d & -> & Hp).
  apply Forall_app in Hd as [Hr Hd]. apply (Forall_singleton digit d) in Hd.
  destruct (store_digits_spec r d Hr Hd Hp) as (l & El & Hbl & Eld & Hnl & Hll & Hcl & Hl8).
  assert (0 < length l)%nat as Hl0 by (destruct l; simpl; [done|lia]).
  set (bs := concat (map (store_digit 8) r) ++ l) in *.
  assert (Forall is_byte bs) as Hbs.
  { apply Forall_app. split; [|done]. clear -Hr. induction Hr as [|e r He Hr IH]; [done|].
    cbn [map concat]. apply Forall_app. split; [apply store_digit_spec, He|done]. }
  exists bs. unfold big_to_bytes, big_bytes. cbv zeta. rewrite EV, ES, dnth_top. split_and!; try done.
  - unfold bs. rewrite !length_app, concat_length. cbn [length]. lia.
  - unfold bs. intros [_ ?]%app_eq_nil. done.
  - unfold bs. rewrite last_app. destruct (last l) eqn:E; [done|]. by apply last_None in E.
  - assert (length r ≤ length bs)%nat as Hlen by (unfold bs; rewrite length_app, concat_length; lia).
    destruct (load_digits_value (length bs) bs r l) as (_ & _ & _ & _ & -> & _); [done|done|by apply load_digits_spec|].
    rewrite <- (load_digit_spec l), Eld, <- dval_snoc by done. done.
Qed.

(** Storing a bignum and loading it gives the term of its number. *)
Lemma bytes_round_trip z t : big_term z t → z ≠ 0 →
  ∃ bs, big_to_bytes t = Some bs ∧ length bs = big_bytes t ∧ Forall is_byte bs ∧ bs ≠ [] ∧ last bs ≠ Some 0 ∧
    int_term z (bytes_to_big bs (z <? 0)).
Proof.
  intros Hb Hz. destruct (big_to_bytes_spec z t Hb Hz) as (bs & E & Hl & Hbs & Hn & Hlast & Ev).
  exists bs. split_and!; try done. apply int_result_ok; [by eapply big_term_abs|].
  pose proof (bytes_to_big_spec bs (z <? 0) Hbs Hn Hlast) as H. rewrite Ev in H.
  replace (sgnv (z <? 0) (Z.abs z)) with z in H by (unfold sgnv; destruct (Z.ltb_spec z 0); lia). done.
Qed.
