(* ===== verification/ErlArith.v ===== *)
(** Arithmetic on integer terms ([erts/emulator/beam/erl_arith.c]): the
    functions behind the operators, which tell smalls from bignums, convert,
    call the bignum operations and turn their [NIL] into an error.

    A branch for floats ends in [Do_float]: the arithmetic on doubles is not
    modelled. The reductions that the functions charge to the process and the
    shrinking of the heap fragment of a result do not change the result, and
    are left out; memory for a result that is read before it is written has
    arbitrary content. *)

From S2P Require Import Prelude ErlTerm BigDigit BigVec BigShift BigBits BigTerm BigOps BigConv.
From stdpp Require Import base numbers option list.
From Stdlib Require Import ZArith Lia.

#[local] Open Scope Z_scope.

(** ** Definitions *)

(** The value returned, or [THE_NON_VALUE] with [p->freason]. *)
Inductive arith_result : Type :=
  | Val (t : eterm)
  | Err (r : reason)
  | Do_float.

(** What [tag_val_def] and the nested [switch] statements tell apart. *)
Inductive number_def : Type :=
  | SMALL_DEF
  | BIG_DEF
  | FLOAT_DEF
  | OTHER_DEF.

Definition tag_val_def (x : eterm) : number_def :=
  match x with
  | Word w => if is_small w then SMALL_DEF else OTHER_DEF
  | Boxed hdr _ =>
      let subtag := Z.shiftr (Z.land hdr TAG_HEADER_MASK) 2 in
      if (subtag =? Z.shiftr TAG_HEADER_POS_BIG 2) || (subtag =? Z.shiftr TAG_HEADER_NEG_BIG 2) then BIG_DEF
      else if subtag =? Z.shiftr TAG_HEADER_FLOAT 2 then FLOAT_DEF
      else OTHER_DEF
  end.

(** The word of a boxed term does not have the bits of a small. *)
Definition is_both_small (x y : eterm) : bool :=
  match x, y with
  | Word w1, Word w2 => bool_decide (Z.land (Z.land w1 w2) TAG_IMMED1_MASK = TAG_IMMED1_SMALL)
  | _, _ => false
  end.

Definition word_of (t : eterm) : Z := match t with Word w => w | Boxed _ _ => 0 end.

(** A result of the bignum operations: [NIL] is an error. *)
Definition check_nil (res : eterm) : arith_result :=
  if is_nil_term res then Err SYSTEM_LIMIT else Val res.

Definition small_big (t : eterm) : eterm := small_to_big (signed_val_term t).

(** *** Sums *)

Definition erts_mixed_plus (arg1 arg2 : eterm) : arith_result :=
  match tag_val_def arg1, tag_val_def arg2 with
  | SMALL_DEF, SMALL_DEF =>
      let ires := s64 (signed_val_term arg1 + signed_val_term arg2) in
      if IS_SSMALL ires then Val (small_term ires) else Val (small_to_big ires)
  | SMALL_DEF, BIG_DEF =>
      if bool_decide (arg1 = small_term 0) then Val arg2
      else check_nil (big_plus (small_big arg1) arg2)
  | BIG_DEF, SMALL_DEF =>
      if bool_decide (arg2 = small_term 0) then Val arg1
      else check_nil (big_plus arg1 (small_big arg2))
  | BIG_DEF, BIG_DEF => check_nil (big_plus arg1 arg2)
  | SMALL_DEF, FLOAT_DEF | BIG_DEF, FLOAT_DEF | FLOAT_DEF, SMALL_DEF | FLOAT_DEF, BIG_DEF
  | FLOAT_DEF, FLOAT_DEF => Do_float
  | _, _ => Err BADARITH
  end.

Definition erts_mixed_minus (arg1 arg2 : eterm) : arith_result :=
  match tag_val_def arg1, tag_val_def arg2 with
  | SMALL_DEF, SMALL_DEF =>
      let ires := s64 (signed_val_term arg1 - signed_val_term arg2) in
      if IS_SSMALL ires then Val (small_term ires) else Val (small_to_big ires)
  | SMALL_DEF, BIG_DEF => check_nil (big_minus (small_big arg1) arg2)
  | BIG_DEF, SMALL_DEF =>
      if bool_decide (arg2 = small_term 0) then Val arg1
      else check_nil (big_minus arg1 (small_big arg2))
  | BIG_DEF, BIG_DEF => check_nil (big_minus arg1 arg2)
  | SMALL_DEF, FLOAT_DEF | BIG_DEF, FLOAT_DEF | FLOAT_DEF, SMALL_DEF | FLOAT_DEF, BIG_DEF
  | FLOAT_DEF, FLOAT_DEF => Do_float
  | _, _ => Err BADARITH
  end.

(** The result of the subtraction from zero is only asserted not to be
    [NIL]. *)
Definition erts_unary_minus (arg : eterm) : arith_result :=
  match tag_val_def arg with
  | SMALL_DEF =>
      let ires := - signed_val_term arg in
      if IS_SSMALL ires then Val (small_term ires) else Val (small_to_big ires)
  | BIG_DEF => Val (big_minus (Boxed (make_pos_bignum_header 1) [0]) arg)
  | FLOAT_DEF => Do_float
  | OTHER_DEF => Err BADARITH
  end.

(** *** Products *)

Section times.

(** The content of a fresh block of [n] words. *)
Variable tmp_heap : nat → list Z.

(** [do_big] with [sz] words for the digits; [same] tells that the operands
    are one object. *)
Definition times_big (same : bool) (arg1 arg2 : eterm) (sz : nat) : option arith_result :=
  check_nil <$> big_times tmp_heap same arg1 arg2 (tmp_heap sz).

Definition erts_mixed_times (same : bool) (arg1 arg2 : eterm) : option arith_result :=
  match tag_val_def arg1, tag_val_def arg2 with
  | SMALL_DEF, SMALL_DEF =>
      Some (Val (
        if bool_decide (arg1 = small_term 0) || bool_decide (arg2 = small_term 0) then small_term 0
        else if bool_decide (arg1 = small_term 1) then arg2
        else if bool_decide (arg2 = small_term 1) then arg1
        else small_times (signed_val_term arg1) (signed_val_term arg2)))
  | SMALL_DEF, BIG_DEF =>
      if bool_decide (arg1 = small_term 0) then Some (Val (small_term 0))
      else if bool_decide (arg1 = small_term 1) then Some (Val arg2)
      else times_big false (small_big arg1) arg2 (2 + BIG_SIZE arg2)
  | BIG_DEF, SMALL_DEF =>
      if bool_decide (arg2 = small_term 0) then Some (Val (small_term 0))
      else if bool_decide (arg2 = small_term 1) then Some (Val arg1)
      else times_big false arg1 (small_big arg2) (2 + BIG_SIZE arg1)
  | BIG_DEF, BIG_DEF => times_big same arg1 arg2 (BIG_SIZE arg1 + BIG_SIZE arg2)
  | SMALL_DEF, FLOAT_DEF | BIG_DEF, FLOAT_DEF | FLOAT_DEF, SMALL_DEF | FLOAT_DEF, BIG_DEF
  | FLOAT_DEF, FLOAT_DEF => Some Do_float
  | _, _ => Some (Err BADARITH)
  end.

(** An operand as a bignum: [None] when it is not an integer. *)
Definition mul_add_operand (arg : eterm) : option eterm :=
  match tag_val_def arg with
  | SMALL_DEF => Some (small_big arg)
  | BIG_DEF => Some arg
  | _ => None
  end.

(** The result and what is stored in [*pp], which is only written when the
    operands are not all integers. *)
Definition erts_mul_add (same : bool) (arg1 arg2 arg3 : eterm) : option (arith_result * option arith_result) :=
  match mul_add_operand arg1, mul_add_operand arg2, mul_add_operand arg3 with
  | Some big_arg1, Some big_arg2, Some big_arg3 =>
      let sz := (Nat.max (BIG_SIZE big_arg1 + BIG_SIZE big_arg2) (BIG_SIZE big_arg3) + 1)%nat in
      let same := same && is_big arg1 in
      res ← big_mul_add tmp_heap same big_arg1 big_arg2 big_arg3 (tmp_heap sz);
      Some (check_nil res, None)
  | _, _, _ =>
      product ← erts_mixed_times same arg1 arg2;
      Some (match product with
            | Val product' => erts_mixed_plus product' arg3
            | _ => product
            end, Some product)
  end.

(** *** Quotients *)

(** After the conversions. [inl] is the return of zero with its reason. *)
Definition int_div_rem_bigs (arg1 lhs rhs : eterm) : option (reason + eterm * eterm) :=
  let cmp := big_ucomp lhs rhs in
  if cmp <? 0 then Some (inr (small_term 0, arg1))
  else if cmp =? 0 then
    Some (inr (if bool_decide (BIG_SIGN lhs = BIG_SIGN rhs) then small_term 1 else small_term (-1), small_term 0))
  else
    res ← big_div_rem tmp_heap lhs rhs;
    Some (match res with
          | None => inl SYSTEM_LIMIT
          | Some qr => inr qr
          end).

Definition erts_int_div_rem (arg1 arg2 : eterm) : option (reason + eterm * eterm) :=
  match tag_val_def arg1, tag_val_def arg2 with
  | SMALL_DEF, SMALL_DEF => int_div_rem_bigs arg1 (small_big arg1) (small_big arg2)
  | BIG_DEF, SMALL_DEF => int_div_rem_bigs arg1 arg1 (small_big arg2)
  | SMALL_DEF, BIG_DEF =>
      if bool_decide (arg1 ≠ small_term MIN_SMALL) then Some (inr (small_term 0, arg1))
      else int_div_rem_bigs arg1 (small_big arg1) arg2
  | BIG_DEF, BIG_DEF => int_div_rem_bigs arg1 arg1 arg2
  | _, _ => Some (inl BADARITH)
  end.

Definition intdiv_2 (arg1 arg2 : eterm) : option arith_result :=
  if bool_decide (arg2 = small_term 0) then Some (Err BADARITH)
  else
    let ires := Z.quot (signed_val_term arg1) (signed_val_term arg2) in
    if is_both_small arg1 arg2 && IS_SSMALL ires then Some (Val (small_term ires))
    else
      res ← erts_int_div_rem arg1 arg2;
      Some (match res with inl r => Err r | inr (q, _) => Val q end).

Definition rem_2 (arg1 arg2 : eterm) : option arith_result :=
  if bool_decide (arg2 = small_term 0) then Some (Err BADARITH)
  else if is_both_small arg1 arg2 then
    Some (Val (small_term (Z.rem (signed_val_term arg1) (signed_val_term arg2))))
  else
    res ← erts_int_div_rem arg1 arg2;
    Some (match res with inl r => Err r | inr (_, r) => Val r end).

End times.

(** *** Bitwise operations *)

(** The [switch] on [NUMBER_CODE]: the operands as bignums. *)
Definition bit_operands (arg1 arg2 : eterm) : option (eterm * eterm) :=
  match tag_val_def arg1, tag_val_def arg2 with
  | SMALL_DEF, BIG_DEF => Some (small_big arg1, arg2)
  | BIG_DEF, SMALL_DEF => Some (arg1, small_big arg2)
  | BIG_DEF, BIG_DEF => Some (arg1, arg2)
  | _, _ => None
  end.

(** The result is only asserted not to be [NIL]; so in [erts_bor]. *)
Definition erts_band (arg1 arg2 : eterm) : arith_result :=
  match bit_operands arg1 arg2 with
  | Some (arg1, arg2) => Val (big_band arg1 arg2)
  | None => Err BADARITH
  end.

Definition erts_bor (arg1 arg2 : eterm) : arith_result :=
  match bit_operands arg1 arg2 with
  | Some (arg1, arg2) => Val (big_bor arg1 arg2)
  | None => Err BADARITH
  end.

Definition erts_bxor (arg1 arg2 : eterm) : arith_result :=
  match bit_operands arg1 arg2 with
  | Some (arg1, arg2) => check_nil (big_bxor arg1 arg2)
  | None => Err BADARITH
  end.

Definition band_2 (arg1 arg2 : eterm) : arith_result :=
  if is_both_small arg1 arg2 then Val (Word (Z.land (word_of arg1) (word_of arg2)))
  else erts_band arg1 arg2.

Definition bor_2 (arg1 arg2 : eterm) : arith_result :=
  if is_both_small arg1 arg2 then Val (Word (Z.lor (word_of arg1) (word_of arg2)))
  else erts_bor arg1 arg2.

Definition bxor_2 (arg1 arg2 : eterm) : arith_result :=
  if is_both_small arg1 arg2 then
    Val (small_term (Z.lxor (signed_val_term arg1) (signed_val_term arg2)))
  else erts_bxor arg1 arg2.

Definition bnot_1 (arg1 : eterm) : arith_result :=
  if is_small_term arg1 then Val (small_term (Z.lnot (signed_val_term arg1)))
  else if is_big arg1 then check_nil (big_bnot arg1)
  else Err BADARITH.

(** *** Shifts *)

(** From the label [big_shift]. *)
Definition big_shift (arg1 : eterm) (i : Z) : arith_result :=
  let size := Z.of_nat (BIG_SIZE arg1) in
  let ires :=
    if 0 <? i then size + Z.quot i D_EXP
    else if size <=? Z.quot (- i) D_EXP then 3
    else size - Z.quot (- i) D_EXP in
  if BIG_ARITY_MAX <? ires - 8 then Err SYSTEM_LIMIT
  else check_nil (big_lshift arg1 i).

(** From the label [small_shift]. *)
Definition small_shift (arg1 : eterm) (i : Z) : arith_result :=
  let ires := signed_val_term arg1 in
  let mask := u64 (Z.shiftl (u64 (Z.lnot 0)) (SMALL_BITS - 1 - i)) in
  if (i =? 0) || (ires =? 0) then Val arg1
  else if i <? 0 then
    let i := - i in
    if SMALL_BITS - 1 <=? i then Val (if ires <? 0 then small_term (-1) else small_term 0)
    else Val (small_term (Z.shiftr ires i))
  else if (i <? SMALL_BITS - 1) &&
          ((0 <? ires) && (Z.land mask (u64 ires) =? 0) || (Z.land mask (u64 (Z.lnot ires)) =? 0))
  then Val (small_term (Z.shiftl ires i))
  else big_shift (small_to_big ires) i.

(** The shift by the small [i]. *)
Definition shift_by (arg1 : eterm) (i : Z) : arith_result :=
  if is_small_term arg1 then small_shift arg1 i
  else if is_big arg1 then (if i =? 0 then Val arg1 else big_shift arg1 i)
  else Err BADARITH.

Definition erts_shift (arg1 arg2 : eterm) (right : bool) : arith_result :=
  if right then
    if is_small_term arg2 then shift_by arg1 (- signed_val_term arg2)
    else if is_big arg2 then shift_by arg1 (if BIG_SIGN arg2 then MAX_SMALL else MIN_SMALL)
    else Err BADARITH
  else
    if is_small_term arg2 then shift_by arg1 (signed_val_term arg2)
    else if is_big arg2 then
      if BIG_SIGN arg2 then shift_by arg1 MIN_SMALL
      else if is_small_term arg1 || is_big arg1 then
        if bool_decide (arg1 = small_term 0) then Val arg1 else Err SYSTEM_LIMIT
      else Err BADARITH
    else Err BADARITH.

Definition erts_bsl (arg1 arg2 : eterm) : arith_result := erts_shift arg1 arg2 false.
Definition erts_bsr (arg1 arg2 : eterm) : arith_result := erts_shift arg1 arg2 true.

(** ** Results *)

(** The result of an operation whose value is the integer [z]. *)
Definition arith_int (z : Z) (r : arith_result) : Prop :=
  if Z.abs z <? big_limit then ∃ t, r = Val t ∧ int_term z t else r = Err SYSTEM_LIMIT.

Lemma arith_val z t : int_term z t → arith_int z (Val t).
Proof.
  intros Ht. unfold arith_int. rewrite (proj2 (Z.ltb_lt _ _)) by (by eapply int_term_abs). by exists t.
Qed.

Lemma check_nil_spec z t : int_result z t → arith_int z (check_nil t).
Proof.
  unfold int_result, arith_int, check_nil. destruct (Z.abs z <? big_limit).
  - intros Ht. rewrite (int_term_not_nil z t Ht). by exists t.
  - by intros ->.
Qed.

(** An operand is a small or a bignum. *)
Lemma int_term_cases z t : int_term z t →
  in_small z ∧ t = small_term z ∧ tag_val_def t = SMALL_DEF ∧ signed_val_term t = z ∧ is_small_term t = true ∧
    is_big t = false ∨
  ¬ in_small z ∧ big_term z t ∧ tag_val_def t = BIG_DEF ∧ is_small_term t = false ∧ is_big t = true.
Proof.
  intros Ht. destruct (decide (in_small z)) as [Hs|Hs].
  - left. destruct (int_term_small z t Ht Hs) as [E1 E2].
    destruct Ht as [[_ ->]|[? _]]; [|done]. split_and!; try done. unfold small_term. cbn [tag_val_def].
    by rewrite is_small_make_small.
  - right. destruct (int_term_big z t Ht Hs) as [Hb E]. split_and!; try done.
    + destruct Hb as (v & -> & _ & _ & Hl). unfold tag_val_def.
      assert (Z.shiftr (Z.land (bignum_header (z <? 0) (Z.of_nat (length v))) TAG_HEADER_MASK) 2 =
        if z <? 0 then 3 else 2) as ->; [|by destruct (z <? 0)].
      change BIG_ARITY_MAX with 65535 in Hl. unfold bignum_header.
      destruct (z <? 0); unfold make_neg_bignum_header, make_pos_bignum_header;
        rewrite make_header_word by (done || lia); unfold TAG_HEADER_MASK; by rewrite land_low by done.
    + by destruct (big_term_fields z t Hb) as (? & _ & _ & _ & ? & _).
Qed.

Lemma small_big_spec z t : in_small z → signed_val_term t = z → big_term z (small_big t).
Proof. intros Hz%in_small_abs E. unfold small_big. rewrite E. apply small_to_big_spec. lia. Qed.

Lemma IS_SSMALL_spec x : - 2 ^ 63 ≤ x < 2 ^ 63 → IS_SSMALL x = bool_decide (in_small x).
Proof.
  intros Hx. unfold IS_SSMALL, in_small. change MIN_SMALL with (- 2 ^ 59). change MAX_SMALL with (2 ^ 59 - 1).
  change (SMALL_BITS - 1) with 59. rewrite Z.shiftr_div_pow2 by done.
  pose proof (Z.div_mod x (2 ^ 59) ltac:(done)) as E. pose proof (Z.mod_pos_bound x (2 ^ 59) ltac:(done)).
  assert (-16 ≤ x / 2 ^ 59 < 16) as Hq by lia. set (q := x / 2 ^ 59) in *. clearbody q.
  assert (u64 (q + 1) = if 0 <=? q + 1 then q + 1 else 2 ^ 64 + q + 1) as ->.
  { destruct (Z.leb_spec 0 (q + 1)); [apply wrapu_small; lia|].
    unfold wrapu. symmetry. apply (Z.mod_unique_pos _ _ (-1)); lia. }
  symmetry. case_bool_decide; symmetry; [apply Z.ltb_lt|apply Z.ltb_ge]; destruct (Z.leb_spec 0 (q + 1)); lia.
Qed.

(** The end of the branches for two smalls. *)
Lemma small_result z : Z.abs z ≤ 2 ^ 60 →
  arith_int z (if IS_SSMALL z then Val (small_term z) else Val (small_to_big z)).
Proof.
  intros Hz. rewrite IS_SSMALL_spec by lia. case_bool_decide as Hs; apply arith_val.
  - by left.
  - right. split; [done|]. apply small_to_big_spec. lia.
Qed.

Lemma small_is z t x : int_term z t → in_small x → bool_decide (t = small_term x) = bool_decide (z = x).
Proof.
  intros Ht Hx. apply bool_decide_ext. split.
  - intros ->. eapply int_term_inj; [done|]. by left.
  - intros ->. eapply int_term_unique; [done|]. by left.
Qed.

Lemma in_small_0 : in_small 0.
Proof. done. Qed.
Lemma int_term_0 : int_term 0 (small_term 0).
Proof. by left. Qed.
Lemma in_small_1 : in_small 1.
Proof. done. Qed.
Lemma in_small_m1 : in_small (-1).
Proof. done. Qed.
#[export] Hint Resolve in_small_0 in_small_1 in_small_m1 : big.

(** Both operands, by cases. *)
Ltac int_cases Ha Hb :=
  destruct (int_term_cases _ _ Ha) as [(? & ? & -> & ?Ea & ?Sa & ?Ba)|(? & ?Ha' & -> & ?Sa & ?Ba)];
  destruct (int_term_cases _ _ Hb) as [(? & ? & -> & ?Eb & ?Sb & ?Bb)|(? & ?Hb' & -> & ?Sb & ?Bb)].

(** ** Sums *)

Lemma erts_mixed_plus_spec a b x y : int_term a x → int_term b y → arith_int (a + b) (erts_mixed_plus x y).
Proof.
  intros Ha Hb. unfold erts_mixed_plus. int_cases Ha Hb.
  - rewrite Ea, Eb. pose proof (in_small_abs a ltac:(done)). pose proof (in_small_abs b ltac:(done)).
    rewrite wraps_small by lia. apply small_result. lia.
  - rewrite (small_is a x 0 Ha) by eauto with big. case_bool_decide as E.
    + rewrite E. by apply arith_val.
    + apply check_nil_spec, big_plus_spec; [by apply small_big_spec|done].
  - rewrite (small_is b y 0 Hb) by eauto with big. case_bool_decide as E.
    + rewrite E, Z.add_0_r. by apply arith_val.
    + apply check_nil_spec, big_plus_spec; [done|by apply small_big_spec].
  - by apply check_nil_spec, big_plus_spec.
Qed.

Lemma erts_mixed_minus_spec a b x y : int_term a x → int_term b y → arith_int (a - b) (erts_mixed_minus x y).
Proof.
  intros Ha Hb. unfold erts_mixed_minus. int_cases Ha Hb.
  - rewrite Ea, Eb. pose proof (in_small_abs a ltac:(done)). pose proof (in_small_abs b ltac:(done)).
    rewrite wraps_small by lia. apply small_result. lia.
  - apply check_nil_spec, big_minus_spec; [by apply small_big_spec|done].
  - rewrite (small_is b y 0 Hb) by eauto with big. case_bool_decide as E.
    + rewrite E, Z.sub_0_r. by apply arith_val.
    + apply check_nil_spec, big_minus_spec; [done|by apply small_big_spec].
  - by apply check_nil_spec, big_minus_spec.
Qed.

Lemma erts_unary_minus_spec a x : int_term a x → ∃ t, erts_unary_minus x = Val t ∧ int_term (- a) t.
Proof.
  intros Ha. unfold erts_unary_minus. pose proof (int_term_abs a x Ha) as Hl.
  assert (∀ r, arith_int (- a) r → ∃ t, r = Val t ∧ int_term (- a) t) as Hr.
  { intros r. unfold arith_int. by rewrite (proj2 (Z.ltb_lt _ _)) by lia. }
  destruct (int_term_cases _ _ Ha) as [(Hs & _ & -> & -> & _)|(_ & Hb & -> & _)].
  - apply Hr, small_result. apply in_small_abs in Hs. lia.
  - eexists. split; [done|]. apply int_result_ok; [lia|]. apply (big_minus_spec 0 a); [|done].
    by apply (big_term_one false 0); [apply digit_0|].
Qed.

(** ** Products *)

Section times_spec.

Context (tmp_heap : nat → list Z) (Hheap : ∀ n, digits (tmp_heap n) ∧ length (tmp_heap n) = n).

Lemma times_big_spec a b x y (same : bool) sz : big_term a x → big_term b y → (same → x = y) →
  (BIG_SIZE x + BIG_SIZE y ≤ sz)%nat →
  ∃ r, times_big tmp_heap same x y sz = Some r ∧ arith_int (a * b) r.
Proof using Hheap.
  intros Ha Hb Hs Hsz. destruct (Hheap sz) as [Hd Hl].
  destruct (big_times_spec tmp_heap Hheap a b x y same (tmp_heap sz)) as (t & E & Ht); try done; [lia|].
  unfold times_big. rewrite E. eexists. split; [done|]. by apply check_nil_spec.
Qed.

Lemma small_big_size t : BIG_SIZE (small_big t) = 1%nat.
Proof. unfold small_big, small_to_big. by destruct (0 <=? _). Qed.

Lemma erts_mixed_times_spec a b x y (same : bool) : int_term a x → int_term b y → (same → x = y) →
  ∃ r, erts_mixed_times tmp_heap same x y = Some r ∧ arith_int (a * b) r.
Proof using Hheap.
  intros Ha Hb Hsame. unfold erts_mixed_times. int_cases Ha Hb.
  - eexists. split; [done|]. rewrite (small_is a x 0 Ha), (small_is b y 0 Hb), (small_is a x 1 Ha), (small_is b y 1 Hb) by eauto with big.
    destruct (decide (a = 0)) as [E0|E0]; [rewrite E0, Z.mul_0_l; apply arith_val, int_term_0|].
    destruct (decide (b = 0)) as [E1|E1]; [rewrite E1, Z.mul_0_r, orb_true_r; apply arith_val, int_term_0|].
    rewrite !(bool_decide_eq_false_2 (_ = 0)) by done. cbn [orb].
    destruct (decide (a = 1)) as [E2|E2]; [rewrite E2, Z.mul_1_l; by apply arith_val|].
    destruct (decide (b = 1)) as [E3|E3]; [rewrite E3, Z.mul_1_r, bool_decide_eq_false_2 by done; by apply arith_val|].
    rewrite !(bool_decide_eq_false_2 (_ = 1)) by done. apply arith_val. rewrite Ea, Eb. by apply small_times_spec.
  - rewrite (small_is a x 0 Ha), (small_is a x 1 Ha) by eauto with big.
    destruct (decide (a = 0)) as [E0|E0].
    { rewrite bool_decide_eq_true_2 by done. eexists. split; [done|]. rewrite E0, Z.mul_0_l. apply arith_val, int_term_0. }
    destruct (decide (a = 1)) as [E1|E1].
    { rewrite bool_decide_eq_false_2, bool_decide_eq_true_2 by done. eexists. split; [done|]. rewrite E1, Z.mul_1_l. by apply arith_val. }
    rewrite !bool_decide_eq_false_2 by done.
    apply times_big_spec; [by apply small_big_spec|done|done|]. rewrite small_big_size. lia.
  - rewrite (small_is b y 0 Hb), (small_is b y 1 Hb) by eauto with big.
    destruct (decide (b = 0)) as [E0|E0].
    { rewrite bool_decide_eq_true_2 by done. eexists. split; [done|]. rewrite E0, Z.mul_0_r. apply arith_val, int_term_0. }
    destruct (decide (b = 1)) as [E1|E1].
    { rewrite bool_decide_eq_false_2, bool_decide_eq_true_2 by done. eexists. split; [done|]. rewrite E1, Z.mul_1_r. by apply arith_val. }
    rewrite !bool_decide_eq_false_2 by done.
    apply times_big_spec; [done|by apply small_big_spec|done|]. rewrite small_big_size. lia.
  - by apply times_big_spec.
Qed.

Lemma mul_add_operand_spec a x : int_term a x → ∃ t, mul_add_operand x = Some t ∧ big_term a t ∧ (is_big x → t = x).
Proof.
  intros Ha. unfold mul_add_operand.
  destruct (int_term_cases _ _ Ha) as [(Hs & _ & -> & E & _ & B)|(_ & Hb & -> & _)].
  - eexists. split_and!; [done|by apply small_big_spec|by rewrite B].
  - by exists x.
Qed.

Lemma erts_mul_add_spec a b c x y z (same : bool) : int_term a x → int_term b y → int_term c z → (same → x = y) →
  ∃ r, erts_mul_add tmp_heap same x y z = Some (r, None) ∧ arith_int (a * b + c) r.
Proof using Hheap.
  intros Ha Hb Hc Hsame. unfold erts_mul_add.
  destruct (mul_add_operand_spec a x Ha) as (x' & -> & Hx & Ex).
  destruct (mul_add_operand_spec b y Hb) as (y' & -> & Hy & Ey).
  destruct (mul_add_operand_spec c z Hc) as (z' & -> & Hz & _).
  set (sz := (_ `max` _ + 1)%nat). destruct (Hheap sz) as [Hd Hl].
  destruct (big_mul_add_spec tmp_heap Hheap a b c x' y' z' (same && is_big x) (tmp_heap sz)) as (t & E & Ht); try done.
  - intros [Hs Hbx]%andb_prop_elim. specialize (Hsame Hs). subst y. rewrite Ex, Ey by done. done.
  - lia.
  - rewrite E. eexists. split; [done|]. by apply check_nil_spec.
Qed.

(** ** Quotients *)

Lemma quot_rem_abs_lt a b : b ≠ 0 → Z.abs a < Z.abs b → Z.quot a b = 0 ∧ Z.rem a b = a.
Proof.
  intros Hb Hlt. destruct (quot_rem_signs a b 0 (Z.abs a)) as [-> ->]; [lia..|].
  unfold sgnv. destruct xorb; (split; [done|]); destruct (Z.ltb_spec a 0); lia.
Qed.

Lemma erts_int_div_rem_spec a b x y : int_term a x → int_term b y → b ≠ 0 →
  ∃ q r, erts_int_div_rem tmp_heap x y = Some (inr (q, r)) ∧
    int_term (Z.quot a b) q ∧ int_term (Z.rem a b) r.
Proof using Hheap.
  intros Ha Hb Hnz. unfold erts_int_div_rem.
  assert (∀ lhs rhs, big_term a lhs → big_term b rhs →
    ∃ q r, int_div_rem_bigs tmp_heap x lhs rhs = Some (inr (q, r)) ∧ int_term (Z.quot a b) q ∧ int_term (Z.rem a b) r) as Hdiv.
  { intros lhs rhs Hl Hr. unfold int_div_rem_bigs. rewrite (big_ucomp_spec a b lhs rhs Hl Hr).
    destruct (Z.compare_spec (Z.abs a) (Z.abs b)) as [E|E|E]; cbn [sgn_comparison Z.ltb Z.compare Z.eqb].
    - destruct (quot_rem_signs a b 1 0) as [-> ->]; [lia..|].
      destruct (big_term_fields a lhs Hl) as (? & _ & -> & _). destruct (big_term_fields b rhs Hr) as (? & _ & -> & _).
      eexists _, _. split; [done|]. unfold sgnv. destruct (a <? 0), (b <? 0); cbn [xorb]; split; left; done.
    - destruct (quot_rem_abs_lt a b Hnz E) as [-> ->]. eexists _, _. split; [done|]. split; [by left|done].
    - destruct (big_div_rem_spec tmp_heap Hheap a b lhs rhs) as (q & r & -> & ? & ?); [done|done|lia|].
      by exists q, r. }
  int_cases Ha Hb.
  - apply Hdiv; by apply small_big_spec.
  - case_bool_decide as E.
    + assert (Z.abs a < Z.abs b) as Hlt.
      { assert (a ≠ MIN_SMALL) by (intros ->; apply E; done).
        unfold in_small in *. change MIN_SMALL with (- 2 ^ 59) in *. change MAX_SMALL with (2 ^ 59 - 1) in *. lia. }
      destruct (quot_rem_abs_lt a b Hnz Hlt) as [-> ->]. eexists _, _. split; [done|]. split; [by left|done].
    + apply Hdiv; [by apply small_big_spec|done].
  - apply Hdiv; [done|by apply small_big_spec].
  - by apply Hdiv.
Qed.

Lemma is_both_small_spec x y : is_both_small x y = is_small_term x && is_small_term y.
Proof.
  destruct x as [w1|], y as [w2|]; cbn; [|by rewrite ?andb_false_r..]. unfold is_small.
  rewrite <- (Z.land_diag TAG_IMMED1_MASK), Z.land_assoc, <- (Z.land_assoc w1), (Z.land_comm w2).
  rewrite Z.land_assoc, <- Z.land_assoc, Z.land_diag. unfold TAG_IMMED1_MASK. rewrite !land_15.
  change TAG_IMMED1_SMALL with 15.
  pose proof (Z.mod_pos_bound w1 16 ltac:(done)) as H1. pose proof (Z.mod_pos_bound w2 16 ltac:(done)) as H2.
  set (a := w1 mod 16) in *. set (b := w2 mod 16) in *. clearbody a b.
  assert (forallb (λ a, forallb (λ b, bool_decide (bool_decide (Z.land a b = 15) =
    bool_decide (a = 15) && bool_decide (b = 15))) (seqZ 0 16)) (seqZ 0 16) = true) as H by (vm_compute; done).
  assert (∀ c, 0 ≤ c < 16 → In c (seqZ 0 16)) as Hin by (intros; apply list_elem_of_In, elem_of_seqZ; lia).
  rewrite forallb_forall in H. specialize (H a (Hin a H1)).
  rewrite forallb_forall in H. specialize (H b (Hin b H2)).
  by apply bool_decide_eq_true in H.
Qed.

Lemma intdiv_2_spec a b x y : int_term a x → int_term b y →
  ∃ r, intdiv_2 tmp_heap x y = Some r ∧ if decide (b = 0) then r = Err BADARITH else arith_int (Z.quot a b) r.
Proof using Hheap.
  intros Ha Hb. unfold intdiv_2. rewrite (small_is b y 0 Hb) by eauto with big.
  destruct (decide (b = 0)) as [E|E]; [rewrite bool_decide_eq_true_2 by done; by eexists|].
  rewrite bool_decide_eq_false_2, is_both_small_spec by done.
  assert (∃ r, (res ← erts_int_div_rem tmp_heap x y; Some (match res with inl r => Err r | inr (q, _) => Val q end)) = Some r
    ∧ arith_int (Z.quot a b) r) as Hgen.
  { destruct (erts_int_div_rem_spec a b x y Ha Hb E) as (q & r & -> & Hq & _). eexists. split; [done|]. by apply arith_val. }
  destruct (int_term_cases _ _ Ha) as [(Hsa & _ & _ & -> & -> & _)|(_ & _ & _ & -> & _)]; [|done].
  destruct (int_term_cases _ _ Hb) as [(Hsb & _ & _ & -> & -> & _)|(_ & _ & _ & -> & _)]; [|done]. cbn [andb].
  apply in_small_abs in Hsa. rewrite IS_SSMALL_spec.
  - case_bool_decide; [|done]. eexists. split; [done|]. apply arith_val. by left.
  - assert (Z.abs (Z.quot a b) ≤ Z.abs a); [|lia]. rewrite <- Z.quot_abs by done.
    apply Z.quot_le_upper_bound; [lia|]. nia.
Qed.

Lemma rem_2_spec a b x y : int_term a x → int_term b y →
  ∃ r, rem_2 tmp_heap x y = Some r ∧ if decide (b = 0) then r = Err BADARITH else arith_int (Z.rem a b) r.
Proof using Hheap.
  intros Ha Hb. unfold rem_2. rewrite (small_is b y 0 Hb) by eauto with big.
  destruct (decide (b = 0)) as [E|E]; [rewrite bool_decide_eq_true_2 by done; by eexists|].
  rewrite bool_decide_eq_false_2, is_both_small_spec by done.
  assert (∃ r, (res ← erts_int_div_rem tmp_heap x y; Some (match res with inl r => Err r | inr (_, r) => Val r end)) = Some r
    ∧ arith_int (Z.rem a b) r) as Hgen.
  { destruct (erts_int_div_rem_spec a b x y Ha Hb E) as (q & r & -> & _ & Hr). eexists. split; [done|]. by apply arith_val. }
  destruct (int_term_cases _ _ Ha) as [(Hsa & _ & _ & -> & -> & _)|(_ & _ & _ & -> & _)]; [|done].
  destruct (int_term_cases _ _ Hb) as [(Hsb & _ & _ & -> & -> & _)|(_ & _ & _ & -> & _)]; [|done]. cbn [andb].
  eexists. split; [done|]. apply arith_val. left. split; [|done].
  pose proof (Z.rem_bound_abs a b E). pose proof (Z.rem_sign_nz a b E).
  unfold in_small in *. change MIN_SMALL with (- 2 ^ 59) in *. change MAX_SMALL with (2 ^ 59 - 1) in *. lia.
Qed.

End times_spec.

(** ** Bitwise operations *)

Lemma in_small_shiftr z : in_small z ↔ Z.shiftr z 59 = 0 ∨ Z.shiftr z 59 = -1.
Proof.
  unfold in_small. change MIN_SMALL with (- 2 ^ 59). change MAX_SMALL with (2 ^ 59 - 1).
  rewrite Z.shiftr_div_pow2 by done. pose proof (Z.div_mod z (2 ^ 59) ltac:(done)).
  pose proof (Z.mod_pos_bound z (2 ^ 59) ltac:(done)). lia.
Qed.

Lemma make_small_testbit z i : 0 ≤ i →
  Z.testbit (make_small z) i = if i <? 4 then true else if i <? 64 then Z.testbit z (i - 4) else false.
Proof.
  intros Hi. rewrite make_small_word. set (q := z mod 2 ^ 60).
  assert (∀ d, d = 15 → (16 * q + d) mod 2 ^ 4 = 15 ∧ (16 * q + d) / 2 ^ 4 = q) as Hqd.
  { intros d ->. split; symmetry; [apply (Z.mod_unique_pos _ _ q)|apply (Z.div_unique_pos _ _ _ 15)]; lia. }
  destruct (Hqd 15 eq_refl) as [Em Eq]. destruct (Z.ltb_spec i 4).
  - rewrite <- (Z.mod_pow2_bits_low _ 4) by done. rewrite Em. change 15 with (Z.ones 4).
    apply Z.ones_spec_low. lia.
  - replace i with (i - 4 + 4) at 1 by lia. rewrite <- Z.div_pow2_bits, Eq by lia. unfold q.
    destruct (Z.ltb_spec i 64); [by rewrite Z.mod_pow2_bits_low by lia|by rewrite Z.mod_pow2_bits_high by lia].
Qed.

Lemma make_small_land a b : Z.land (make_small a) (make_small b) = make_small (Z.land a b).
Proof.
  apply Z.bits_inj'. intros i Hi. rewrite Z.land_spec, !make_small_testbit by done.
  destruct (i <? 4); [done|]. destruct (i <? 64); [|done]. symmetry. apply Z.land_spec.
Qed.

Lemma make_small_lor a b : Z.lor (make_small a) (make_small b) = make_small (Z.lor a b).
Proof.
  apply Z.bits_inj'. intros i Hi. rewrite Z.lor_spec, !make_small_testbit by done.
  destruct (i <? 4); [done|]. destruct (i <? 64); [|done]. symmetry. apply Z.lor_spec.
Qed.

(** The operands of a bitwise operation that are not both smalls. *)
Lemma bit_operands_spec a b x y : int_term a x → int_term b y → is_both_small x y = false →
  ∃ x' y', bit_operands x y = Some (x', y') ∧ big_term a x' ∧ big_term b y'.
Proof.
  intros Ha Hb. rewrite is_both_small_spec. unfold bit_operands. int_cases Ha Hb; rewrite ?Sa, ?Sb; try done; intros _.
  - eexists _, _. split_and!; [done|by apply small_big_spec|done].
  - eexists _, _. split_and!; [done|done|by apply small_big_spec].
  - by eexists _, _.
Qed.

Lemma both_small_cases a b x y : int_term a x → int_term b y → is_both_small x y = true →
  in_small a ∧ in_small b ∧ x = small_term a ∧ y = small_term b ∧ signed_val_term x = a ∧ signed_val_term y = b.
Proof.
  intros Ha Hb. rewrite is_both_small_spec.
  destruct (int_term_cases _ _ Ha) as [(? & ? & _ & ? & -> & _)|(_ & _ & _ & -> & _)]; [|done].
  destruct (int_term_cases _ _ Hb) as [(? & ? & _ & ? & -> & _)|(_ & _ & _ & -> & _)]; done.
Qed.

(** Everything but the error of [erts_band], whose result [NIL] stands for a
    number that is too big. *)
Lemma band_2_spec a b x y : int_term a x → int_term b y →
  ∃ t, band_2 x y = Val t ∧ int_result (Z.land a b) t.
Proof.
  intros Ha Hb. unfold band_2. destruct (is_both_small x y) eqn:E.
  - destruct (both_small_cases a b x y Ha Hb E) as (Ia & Ib & -> & -> & _). cbn [word_of small_term].
    eexists. split; [done|]. rewrite make_small_land.
    assert (int_term (Z.land a b) (Word (make_small (Z.land a b)))) as Ht.
    { left. split; [|done]. apply in_small_shiftr. rewrite Z.shiftr_land.
      apply in_small_shiftr in Ia as [-> | ->]; apply in_small_shiftr in Ib as [-> | ->]; [by left..|by right]. }
    unfold int_result. rewrite (proj2 (Z.ltb_lt _ _)) by (by eapply int_term_abs). done.
  - destruct (bit_operands_spec a b x y Ha Hb E) as (x' & y' & E' & Hx & Hy). unfold erts_band. rewrite E'.
    eexists. split; [done|]. by apply big_band_spec.
Qed.

(** The union of bits has no larger magnitude than the operands. *)
Lemma land_le a b : 0 ≤ a → 0 ≤ Z.land a b ≤ a.
Proof.
  intros Ha. apply Z.ldiff_le; [done|]. apply Z.bits_inj'. intros i Hi.
  rewrite Z.ldiff_spec, Z.land_spec, Z.bits_0. by destruct (Z.testbit a i), (Z.testbit b i).
Qed.

Lemma lor_ge a b : a < 0 → a ≤ Z.lor a b < 0.
Proof.
  intros Ha. pose proof (land_le (Z.lnot a) (Z.lnot b)) as H. rewrite <- Z.lnot_lor in H. unfold Z.lnot in *. lia.
Qed.

Lemma lor_lt_pow2 n a b : 0 < n → 0 ≤ a < 2 ^ n → 0 ≤ b < 2 ^ n → Z.lor a b < 2 ^ n.
Proof.
  intros Hn Ha Hb. assert (0 ≤ Z.lor a b) by (apply Z.lor_nonneg; lia).
  destruct (decide (Z.lor a b = 0)) as [->|]; [lia|]. apply Z.log2_lt_pow2; [lia|]. rewrite Z.log2_lor by lia.
  assert (∀ c, 0 ≤ c < 2 ^ n → Z.log2 c < n) as Hc.
  { intros c Hc. destruct (decide (c = 0)) as [->|]; [done|]. apply Z.log2_lt_pow2; lia. }
  apply Z.max_lub_lt; by apply Hc.
Qed.

Lemma lor_limit a b : Z.abs a < big_limit → Z.abs b < big_limit → Z.abs (Z.lor a b) < big_limit.
Proof.
  intros Ha Hb. destruct (Z.lt_ge_cases a 0); [pose proof (lor_ge a b); lia|].
  destruct (Z.lt_ge_cases b 0); [pose proof (lor_ge b a); rewrite Z.lor_comm; lia|].
  rewrite (Z.abs_eq (Z.lor a b)) by (by apply Z.lor_nonneg). rewrite Z.abs_eq in Ha, Hb by assumption.
  rewrite big_limit_2 in *. apply lor_lt_pow2; [reflexivity|split; assumption..].
Qed.

Lemma bor_2_spec a b x y : int_term a x → int_term b y →
  ∃ t, bor_2 x y = Val t ∧ int_term (Z.lor a b) t.
Proof.
  intros Ha Hb. unfold bor_2. destruct (is_both_small x y) eqn:E.
  - destruct (both_small_cases a b x y Ha Hb E) as (Ia & Ib & -> & -> & _). cbn [word_of small_term].
    eexists. split; [done|]. rewrite make_small_lor. left. split; [|done].
    apply in_small_shiftr. rewrite Z.shiftr_lor.
    apply in_small_shiftr in Ia as [-> | ->]; apply in_small_shiftr in Ib as [-> | ->]; [by left|by right..].
  - destruct (bit_operands_spec a b x y Ha Hb E) as (x' & y' & E' & Hx & Hy). unfold erts_bor. rewrite E'.
    eexists. split; [done|]. apply int_result_ok; [|by apply big_bor_spec].
    apply lor_limit; by eapply int_term_abs.
Qed.

Lemma bxor_2_spec a b x y : int_term a x → int_term b y → arith_int (Z.lxor a b) (bxor_2 x y).
Proof.
  intros Ha Hb. unfold bxor_2. destruct (is_both_small x y) eqn:E.
  - destruct (both_small_cases a b x y Ha Hb E) as (Ia & Ib & _ & _ & -> & ->).
    apply arith_val. left. split; [|done]. apply in_small_shiftr. rewrite Z.shiftr_lxor.
    apply in_small_shiftr in Ia as [-> | ->]; apply in_small_shiftr in Ib as [-> | ->]; [by left|by right..|by left].
  - destruct (bit_operands_spec a b x y Ha Hb E) as (x' & y' & E' & Hx & Hy). unfold erts_bxor. rewrite E'.
    apply check_nil_spec. by apply big_bxor_spec.
Qed.

Lemma bnot_1_spec a x : int_term a x → arith_int (Z.lnot a) (bnot_1 x).
Proof.
  intros Ha. unfold bnot_1. destruct (int_term_cases _ _ Ha) as [(Hs & _ & _ & -> & -> & _)|(Hs & Hb & _ & -> & ->)].
  - apply arith_val. left. split; [|done]. unfold Z.lnot, in_small in *.
    change MIN_SMALL with (- 2 ^ 59) in *. change MAX_SMALL with (2 ^ 59 - 1) in *. lia.
  - apply check_nil_spec, big_bnot_spec; [done|]. intros ->. by apply Hs.
Qed.

(** ** Shifts *)

(** A shift by a distance that no term is long enough for. *)
Lemma shiftl_huge a i : a ≠ 0 → 2 ^ 58 ≤ i → big_limit ≤ Z.abs (Z.shiftl a i).
Proof.
  intros Ha Hi. rewrite Z.shiftl_mul_pow2, Z.abs_mul by lia. rewrite big_limit_2.
  assert (2 ^ (D_EXP * BIG_ARITY_MAX) ≤ 2 ^ i) as Hp.
  { apply Z.pow_le_mono_r; [reflexivity|]. change (D_EXP * BIG_ARITY_MAX) with 4194240. lia. }
  set (p := 2 ^ (D_EXP * BIG_ARITY_MAX)) in *. clearbody p. rewrite (Z.abs_eq (2 ^ i)) by (apply Z.pow_nonneg; lia).
  assert (0 ≤ 2 ^ i) by (apply Z.pow_nonneg; lia). set (q := 2 ^ i) in *. clearbody q. nia.
Qed.

Lemma shiftr_huge a i : Z.abs a < big_limit → 2 ^ 58 ≤ i → Z.shiftr a i = if a <? 0 then -1 else 0.
Proof.
  intros Ha Hi. rewrite Z.shiftr_div_pow2 by lia. rewrite big_limit_2 in Ha.
  assert (2 ^ (D_EXP * BIG_ARITY_MAX) ≤ 2 ^ i) as Hp.
  { apply Z.pow_le_mono_r; [reflexivity|]. change (D_EXP * BIG_ARITY_MAX) with 4194240. lia. }
  set (p := 2 ^ (D_EXP * BIG_ARITY_MAX)) in *. clearbody p. set (q := 2 ^ i) in *. clearbody q.
  symmetry. apply (Z.div_unique_pos _ _ _ (if a <? 0 then a + q else a)); destruct (Z.ltb_spec a 0); lia.
Qed.

Lemma big_shift_spec a x i : big_term a x → a ≠ 0 → i ≠ 0 → - 2 ^ 59 ≤ i ≤ 2 ^ 59 →
  arith_int (Z.shiftl a i) (big_shift x i).
Proof.
  intros Ha Hn Hi0 Hi. unfold big_shift.
  destruct (big_term_fields a x Ha) as (v & _ & _ & -> & _ & Hv & Ea & Hl & _).
  pose proof (vec_length v ltac:(eauto with big)) as Hvl.
  assert (arith_int (Z.shiftl a i) (check_nil (big_lshift x i))) as Hok.
  { apply check_nil_spec, big_lshift_spec; [done|lia]. }
  unfold D_EXP. destruct (Z.ltb_spec 0 i) as [Hp|Hp].
  - rewrite Z.quot_div_nonneg by lia. pose proof (Z.div_mod i 64 ltac:(done)) as Em.
    pose proof (Z.mod_pos_bound i 64 ltac:(done)).
    destruct (Z.ltb_spec BIG_ARITY_MAX (Z.of_nat (length v) + i / 64 - 8)) as [Hlim|]; [|done].
    unfold arith_int. rewrite (proj2 (Z.ltb_ge _ _)); [done|].
    rewrite Z.shiftl_mul_pow2, Z.abs_mul, <- Ea by lia.
    assert (dpow (length v - 1) ≤ dval v) as Hlo.
    { destruct (nvec_lower v Hv) as [->|]; [cbn [dval] in Ea; lia|done]. }
    assert (D_BASE ^ (i / 64) ≤ 2 ^ i) as Hd.
    { rewrite D_BASE_eq, <- Z.pow_mul_r by lia. apply Z.pow_le_mono_r; lia. }
    assert (D_BASE ^ (Z.of_nat (length v - 1) + i / 64) ≤ dval v * 2 ^ i) as H1.
    { pose proof D_BASE_gt. rewrite Z.pow_add_r by lia. apply Z.mul_le_mono_nonneg; [|done| |done].
      - apply Z.pow_nonneg. lia.
      - apply Z.pow_nonneg. lia. }
    rewrite (Z.abs_eq (2 ^ i)) by (apply Z.pow_nonneg; lia).
    etransitivity; [|exact H1]. apply big_limit_pow_ge. lia.
  - destruct (Z.leb_spec (Z.of_nat (length v)) (Z.quot (- i) 64)) as [Hq|Hq];
      rewrite (proj2 (Z.ltb_ge _ _)); try done; change BIG_ARITY_MAX with 65535 in *.
    pose proof (Z.quot_pos (- i) 64). lia.
Qed.

Lemma mask_low k w : 0 ≤ k < 64 → 0 ≤ w < 2 ^ 64 →
  Z.land (u64 (Z.shiftl (u64 (Z.lnot 0)) k)) w = 0 → w < 2 ^ k.
Proof.
  intros Hk Hw E. destruct (Z.lt_ge_cases w (2 ^ k)) as [|Hge]; [done|]. exfalso.
  assert (0 < w) by (assert (0 < 2 ^ k) by (apply Z.pow_pos_nonneg; lia); lia).
  assert (k ≤ Z.log2 w) by (by apply Z.log2_le_pow2). assert (Z.log2 w < 64) by (apply Z.log2_lt_pow2; lia).
  apply (f_equal (λ z, Z.testbit z (Z.log2 w))) in E.
  rewrite Z.land_spec, Z.bits_0, Z.bit_log2, andb_true_r in E by done.
  unfold wrapu in E at 1. rewrite Z.mod_pow2_bits_low, Z.shiftl_spec in E by lia.
  change (u64 (Z.lnot 0)) with (Z.ones 64) in E. rewrite Z.ones_spec_low in E by lia. done.
Qed.

Lemma small_shift_spec a x i : int_term a x → in_small a → - 2 ^ 59 ≤ i ≤ 2 ^ 59 →
  arith_int (Z.shiftl a i) (small_shift x i).
Proof.
  intros Hx Ha Hi. unfold small_shift. destruct (int_term_small a x Hx Ha) as [_ ->].
  destruct (Z.eqb_spec i 0) as [->|Hi0]; cbn [orb]; [rewrite Z.shiftl_0_r; by apply arith_val|].
  destruct (Z.eqb_spec a 0) as [->|Ha0]; [rewrite Z.shiftl_0_l; by apply arith_val|].
  change (SMALL_BITS - 1) with 59. pose proof (in_small_abs a Ha) as Hb.
  destruct (Z.ltb_spec i 0) as [Hn|Hp].
  - replace (Z.shiftl a i) with (Z.shiftr a (- i)) by (by rewrite Z.shiftr_opp_r).
    destruct (Z.leb_spec 59 (- i)) as [Hbig|Hlow].
    + assert (Z.shiftr a (- i) = if a <? 0 then -1 else 0) as ->; [|by destruct (a <? 0); apply arith_val; left].
      rewrite Z.shiftr_div_pow2 by lia. assert (2 ^ 59 ≤ 2 ^ (- i)) by (apply Z.pow_le_mono_r; lia).
      unfold in_small in Ha. change MIN_SMALL with (- 2 ^ 59) in Ha. change MAX_SMALL with (2 ^ 59 - 1) in Ha.
      set (q := 2 ^ (- i)) in *. clearbody q.
      symmetry. apply (Z.div_unique_pos _ _ _ (if a <? 0 then a + q else a)); destruct (Z.ltb_spec a 0); lia.
    + apply arith_val. left. split; [|done]. apply in_small_shiftr.
      apply in_small_shiftr in Ha. rewrite Z.shiftr_shiftr by lia. rewrite Z.add_comm.
      rewrite <- Z.shiftr_shiftr by lia. destruct Ha as [-> | ->]; [left; apply Z.shiftr_0_l|right].
      replace (-1) with (Z.lnot 0) by done. rewrite <- Z.lnot_shiftr, Z.shiftr_0_l by lia. done.
  - assert (arith_int (Z.shiftl a i) (big_shift (small_to_big a) i)) as Hbig.
    { apply big_shift_spec; [apply small_to_big_spec; lia|done|done|lia]. }
    destruct (Z.ltb_spec i 59) as [Hlow|]; cbn [andb]; [|done].
    destruct (_ || _) eqn:E; [|done]. apply arith_val. left. split; [|done].
    rewrite Z.shiftl_mul_pow2 by lia. unfold in_small in *.
    change MIN_SMALL with (- 2 ^ 59) in *. change MAX_SMALL with (2 ^ 59 - 1) in *.
    assert (2 ^ 59 = 2 ^ (59 - i) * 2 ^ i) as E59 by (rewrite <- Z.pow_add_r by lia; f_equal; lia).
    assert (0 < 2 ^ i) by (apply Z.pow_pos_nonneg; lia).
    apply orb_prop in E as [[E1 E2]%andb_prop|E2]; apply Z.eqb_eq, mask_low in E2; try lia; try (apply wrapu_range; done).
    + apply Z.ltb_lt in E1. rewrite wrapu_small in E2 by lia. set (p := 2 ^ (59 - i)) in *. set (q := 2 ^ i) in *. clearbody p q. nia.
    + unfold Z.lnot in E2. destruct (Z.lt_ge_cases a 0) as [H0|H0].
      * rewrite wrapu_small in E2 by lia. set (p := 2 ^ (59 - i)) in *. set (q := 2 ^ i) in *. clearbody p q. nia.
      * exfalso. assert (u64 (Z.pred (- a)) = 2 ^ 64 - a - 1) as E3.
        { unfold wrapu. symmetry. apply (Z.mod_unique_pos _ _ (-1)); lia. }
        rewrite E3 in E2. assert (2 ^ (59 - i) ≤ 2 ^ 59) by (apply Z.pow_le_mono_r; lia). lia.
Qed.

Lemma shift_by_spec a x i : int_term a x → - 2 ^ 59 ≤ i ≤ 2 ^ 59 → arith_int (Z.shiftl a i) (shift_by x i).
Proof.
  intros Ha Hi. unfold shift_by. destruct (int_term_cases _ _ Ha) as [(Hs & _ & _ & _ & -> & _)|(Hs & Hb & _ & -> & ->)].
  - by apply small_shift_spec.
  - destruct (Z.eqb_spec i 0) as [->|]; [rewrite Z.shiftl_0_r; by apply arith_val|].
    apply big_shift_spec; [done| |done|done]. intros ->. by apply Hs.
Qed.

(** A shift by a bignum is one by the greatest or the least small. *)
Lemma shift_by_left_huge a b i x : int_term a x → 2 ^ 58 ≤ i ≤ 2 ^ 59 → 2 ^ 58 ≤ b →
  arith_int (Z.shiftl a b) (shift_by x i).
Proof.
  intros Ha Hi Hb. pose proof (shift_by_spec a x i Ha ltac:(lia)) as H.
  destruct (decide (a = 0)) as [E|E]; [rewrite E, Z.shiftl_0_l in *; done|].
  pose proof (shiftl_huge a i E (proj1 Hi)) as H1. pose proof (shiftl_huge a b E Hb) as H2.
  unfold arith_int in *. rewrite (proj2 (Z.ltb_ge _ _) H1) in H. rewrite (proj2 (Z.ltb_ge _ _) H2). exact H.
Qed.

Lemma shift_by_right_huge a b i x : int_term a x → 2 ^ 58 ≤ i ≤ 2 ^ 59 → 2 ^ 58 ≤ b →
  arith_int (Z.shiftr a b) (shift_by x (- i)).
Proof.
  intros Ha Hi Hb. pose proof (shift_by_spec a x (- i) Ha ltac:(lia)) as H. rewrite Z.shiftl_opp_r in H.
  pose proof (int_term_abs a x Ha) as Hl. rewrite (shiftr_huge a i Hl (proj1 Hi)) in H.
  rewrite (shiftr_huge a b Hl Hb). exact H.
Qed.

Lemma not_small b : ¬ in_small b → if b <? 0 then 2 ^ 58 ≤ - b else 2 ^ 58 ≤ b.
Proof.
  unfold in_small. change MAX_SMALL with (2 ^ 59 - 1). change MIN_SMALL with (- 2 ^ 59).
  intros Hs. destruct (Z.ltb_spec b 0); lia.
Qed.

Lemma MAX_SMALL_huge : 2 ^ 58 ≤ MAX_SMALL ≤ 2 ^ 59.
Proof. done. Qed.

Lemma erts_bsl_spec a b x y : int_term a x → int_term b y → arith_int (Z.shiftl a b) (erts_bsl x y).
Proof.
  intros Ha Hb. unfold erts_bsl, erts_shift.
  destruct (int_term_cases _ _ Hb) as [(Hs & _ & _ & -> & -> & _)|(Hs & Hbb & _ & -> & ->)].
  - apply shift_by_spec; [done|]. apply in_small_abs in Hs. lia.
  - destruct (big_term_fields b y Hbb) as (? & _ & -> & _). apply not_small in Hs.
    destruct (b <? 0).
    + rewrite <- (Z.opp_involutive b), Z.shiftl_opp_r. by apply (shift_by_right_huge a (- b) (2 ^ 59)).
    + assert (is_small_term x || is_big x = true) as ->.
      { destruct (int_term_cases _ _ Ha) as [(_ & _ & _ & _ & -> & _)|(_ & _ & _ & -> & ->)]; done. }
      rewrite (small_is a x 0 Ha) by eauto with big. case_bool_decide as E.
      * rewrite E, Z.shiftl_0_l in *. by apply arith_val.
      * pose proof (shiftl_huge a b E Hs) as H. unfold arith_int. by rewrite (proj2 (Z.ltb_ge _ _) H).
Qed.

Lemma erts_bsr_spec a b x y : int_term a x → int_term b y → arith_int (Z.shiftr a b) (erts_bsr x y).
Proof.
  intros Ha Hb. unfold erts_bsr, erts_shift.
  destruct (int_term_cases _ _ Hb) as [(Hs & _ & _ & -> & -> & _)|(Hs & Hbb & _ & -> & ->)].
  - rewrite <- Z.shiftl_opp_r. apply shift_by_spec; [done|]. apply in_small_abs in Hs. lia.
  - destruct (big_term_fields b y Hbb) as (? & _ & -> & _). apply not_small in Hs.
    destruct (b <? 0).
    + rewrite <- Z.shiftl_opp_r. apply shift_by_left_huge; [done|apply MAX_SMALL_huge|done].
    + by apply (shift_by_right_huge a b (2 ^ 59)).
Qed.
