(* ===== verification/ExtInt.v ===== *)
(** Integers in the external term format ([erts/emulator/beam/external.c]):
    the cases for integers of the encoder, of the computation of the encoded
    size, of the check that goes before decoding, and of the decoder. *)

From S2P Require Import Prelude ErlTerm BigDigit BigVec BigShift BigTerm BigOps BigConv.
From stdpp Require Import base numbers option list.
From Stdlib Require Import ZArith Lia.

#[local] Open Scope Z_scope.

(** ** Definitions *)

Definition SMALL_INTEGER_EXT : Z := 97.
Definition INTEGER_EXT : Z := 98.
Definition SMALL_BIG_EXT : Z := 110.
Definition LARGE_BIG_EXT : Z := 111.

(** The macros of [sys.h] on a pointer to bytes. *)
Definition put_int8 (i : Z) : list Z := [Z.land i 0xff].
Definition put_int32 (i : Z) : list Z :=
  [Z.land (wrapu 8 (Z.shiftr i 24)) 0xff; Z.land (wrapu 8 (Z.shiftr i 16)) 0xff;
   Z.land (wrapu 8 (Z.shiftr i 8)) 0xff; Z.land (wrapu 8 i) 0xff].

(** The macro shifts an [int]. *)
Definition get_int32 (b0 b1 b2 b3 : Z) : Z :=
  s32 (Z.lor (Z.lor (Z.lor (Z.shiftl b0 24) (Z.shiftl b1 16)) (Z.shiftl b2 8)) b3).

Definition IS_SSMALL32 (x : Z) : bool := u64 (Z.shiftr x (32 - 1) + 1) <? 2.

(** The cases of [enc_term_int] for an integer. *)
Definition enc_int (obj : eterm) : option (list Z) :=
  if is_small_term obj then
    let val := signed_val_term obj in
    if u64 val <? 256 then Some (SMALL_INTEGER_EXT :: put_int8 val)
    else if IS_SSMALL32 val then Some (INTEGER_EXT :: put_int32 val)
    else
      let big := small_to_big val in
      let n := Z.of_nat (big_bytes big) in
      bs ← big_to_bytes big;
      Some (SMALL_BIG_EXT :: put_int8 n ++ cbool (BIG_SIGN big) :: bs)
  else
    let n := Z.of_nat (big_bytes obj) in
    bs ← big_to_bytes obj;
    Some ((if n <? 256 then SMALL_BIG_EXT :: put_int8 n else LARGE_BIG_EXT :: put_int32 n) ++
          cbool (BIG_SIGN obj) :: bs).

(** [encode_small_size] and the case for bignums of [encode_size_struct_int]. *)
Definition encode_int_size (obj : eterm) : Z :=
  if is_small_term obj then
    let val := signed_val_term obj in
    if u64 val <? 256 then 1 + 1
    else if IS_SSMALL32 val then 1 + 4
    else 1 + 1 + 1 + Z.of_nat (big_bytes (small_to_big val))
  else
    let i := Z.of_nat (big_bytes obj) in
    if i <? 256 then 1 + 1 + 1 + i else 1 + 4 + 1 + i.

(** The loop over the bytes from the last one: [while (first <= last && *last == 0)]. *)
Fixpoint drop_zero_bytes (l : list Z) : list Z :=
  match l with
  | b :: l' => if b =? 0 then drop_zero_bytes l' else l
  | [] => []
  end.
Definition strip_bytes (bs : list Z) : list Z := rev (drop_zero_bytes (rev bs)).

(** From the label [big_loop], with [n] bytes after the sign. *)
Definition dec_big (n : nat) (ep : list Z) : option (eterm * list Z) :=
  match ep with
  | neg :: ep =>
      if (length ep <? n)%nat then None
      else
        let first := strip_bytes (take n ep) in
        let big :=
          if (length first =? 0)%nat then small_term 0
          else bytes_to_big first (negb (neg =? 0)) in
        if is_nil_term big then None else Some (big, drop n ep)
  | [] => None
  end.

(** The cases of [dec_term] for integers: the term and the bytes after it. It
    has no result for another tag, for the error of a number that is too big,
    and where the code would read past the bytes. *)
Definition dec_int (ep : list Z) : option (eterm * list Z) :=
  match ep with
  | tag :: ep =>
      if tag =? INTEGER_EXT then
        match ep with
        | b0 :: b1 :: b2 :: b3 :: ep => Some (small_term (get_int32 b0 b1 b2 b3), ep)
        | _ => None
        end
      else if tag =? SMALL_INTEGER_EXT then
        match ep with
        | n :: ep => Some (small_term n, ep)
        | [] => None
        end
      else if tag =? SMALL_BIG_EXT then
        match ep with
        | n :: ep => dec_big (Z.to_nat n) ep
        | [] => None
        end
      else if tag =? LARGE_BIG_EXT then
        match ep with
        | b0 :: b1 :: b2 :: b3 :: ep => dec_big (Z.to_nat (get_int32 b0 b1 b2 b3)) ep
        | _ => None
        end
      else None
  | [] => None
  end.

(** The macro [SKIP2]: the bytes left, [None] for an error. *)
Definition SKIP2 (sz1 sz2 : Z) (ep : list Z) : option (list Z) :=
  let sz := u64 (sz1 + sz2) in
  if (sz1 <? sz) && (sz <=? Z.of_nat (length ep)) then Some (drop (Z.to_nat sz) ep) else None.

(** The cases of [decoded_size] for integers: the heap words to reserve and
    the bytes after the term. *)
Definition decoded_int_size (ep : list Z) : option (Z * list Z) :=
  match ep with
  | tag :: ep =>
      if tag =? INTEGER_EXT then
        if (4 <=? length ep)%nat then Some (0, drop 4 ep) else None
      else if tag =? SMALL_INTEGER_EXT then
        if (1 <=? length ep)%nat then Some (0, drop 1 ep) else None
      else if tag =? SMALL_BIG_EXT then
        match ep with
        | n :: _ =>
            ep ← SKIP2 n (1 + 1) ep;
            Some (1 + (n + 8 - 1) / 8, ep)
        | [] => None
        end
      else if tag =? LARGE_BIG_EXT then
        match ep with
        | b0 :: b1 :: b2 :: b3 :: _ =>
            let n := wrapu 32 (get_int32 b0 b1 b2 b3) in
            if BIG_ARITY_MAX * 8 <? n then None
            else
              ep ← SKIP2 n (4 + 1) ep;
              Some (1 + 1 + (n + 8 - 1) / 8, ep)
        | _ => None
        end
      else None
  | [] => None
  end.

(** The heap words of a term. *)
Definition term_words (t : eterm) : Z :=
  match t with Word _ => 0 | Boxed hdr _ => bignum_header_arity hdr + 1 end.

(** ** Numbers of fixed width *)

Lemma put_byte z : Z.land (wrapu 8 z) 0xff = z mod 256.
Proof. rewrite land_byte. unfold wrapu. change (2 ^ 8) with 256. apply Z.mod_mod. done. Qed.

Lemma put_int32_bytes i : put_int32 i = [i / 2 ^ 24 mod 256; i / 2 ^ 16 mod 256; i / 2 ^ 8 mod 256; i mod 256].
Proof. unfold put_int32. rewrite !put_byte, !Z.shiftr_div_pow2 by done. done. Qed.

Lemma get_int32_bytes b0 b1 b2 b3 : is_byte b0 → is_byte b1 → is_byte b2 → is_byte b3 →
  get_int32 b0 b1 b2 b3 = s32 (b0 * 2 ^ 24 + b1 * 2 ^ 16 + b2 * 2 ^ 8 + b3).
Proof.
  unfold is_byte. intros H0 H1 H2 H3. unfold get_int32. rewrite !Z.shiftl_mul_pow2 by done. f_equal.
  rewrite (lor_high_low b0 (b1 * 2 ^ 16) 24) by lia.
  replace (b0 * 2 ^ 24 + b1 * 2 ^ 16) with ((b0 * 2 ^ 8 + b1) * 2 ^ 16) by ring.
  rewrite (lor_high_low _ (b2 * 2 ^ 8) 16) by lia.
  replace ((b0 * 2 ^ 8 + b1) * 2 ^ 16 + b2 * 2 ^ 8) with ((b0 * 2 ^ 16 + b1 * 2 ^ 8 + b2) * 2 ^ 8) by ring.
  rewrite (lor_high_low _ b3 8) by lia. ring.
Qed.

Lemma mod_byte z : is_byte (z mod 256).
Proof. apply Z.mod_pos_bound. done. Qed.

Lemma wraps_period w r q : 0 < w → wraps w (r + q * 2 ^ w) = wraps w r.
Proof.
  intros Hw. unfold wraps. f_equal. rewrite <- (Z_mod_plus_full (r + 2 ^ (w - 1)) q). f_equal. lia.
Qed.

Lemma put_int32_spec i : ∃ b0 b1 b2 b3, put_int32 i = [b0; b1; b2; b3] ∧ Forall is_byte [b0; b1; b2; b3] ∧
  get_int32 b0 b1 b2 b3 = s32 i.
Proof.
  eexists _, _, _, _. split; [apply put_int32_bytes|]. split; [repeat constructor; apply mod_byte|].
  rewrite get_int32_bytes by apply mod_byte. set (k := i / 2 ^ 24). set (r := _ + i mod 256).
  assert (i = r + k / 256 * 2 ^ 32) as E.
  { assert (i / 2 ^ 8 / 2 ^ 8 = i / 2 ^ 16 ∧ i / 2 ^ 16 / 2 ^ 8 = k) as [E1 E2].
    { unfold k. rewrite !Z.div_div by done. done. }
    change (2 ^ 8) with 256 in *. unfold r. pose proof (Z.div_mod i 256 ltac:(done)).
    pose proof (Z.div_mod (i / 256) 256 ltac:(done)). pose proof (Z.div_mod (i / 2 ^ 16) 256 ltac:(done)).
    pose proof (Z.div_mod k 256 ltac:(done)). lia. }
  transitivity (s32 (r + k / 256 * 2 ^ 32)); [|by f_equal]. symmetry. apply wraps_period. done.
Qed.

Lemma get_int32_range b0 b1 b2 b3 : - 2 ^ 31 ≤ get_int32 b0 b1 b2 b3 < 2 ^ 31.
Proof. apply (wraps_range 32). done. Qed.

Lemma IS_SSMALL32_spec x : - 2 ^ 63 ≤ x < 2 ^ 63 → IS_SSMALL32 x = bool_decide (- 2 ^ 31 ≤ x < 2 ^ 31).
Proof.
  intros Hx. unfold IS_SSMALL32. change (32 - 1) with 31. rewrite Z.shiftr_div_pow2 by done.
  pose proof (Z.div_mod x (2 ^ 31) ltac:(done)). pose proof (Z.mod_pos_bound x (2 ^ 31) ltac:(done)).
  assert (- 2 ^ 32 ≤ x / 2 ^ 31 < 2 ^ 32) as Hq by lia. set (q := x / 2 ^ 31) in *. clearbody q.
  assert (u64 (q + 1) = if 0 <=? q + 1 then q + 1 else 2 ^ 64 + q + 1) as ->.
  { destruct (Z.leb_spec 0 (q + 1)); [apply wrapu_small; lia|].
    unfold wrapu. symmetry. apply (Z.mod_unique_pos _ _ (-1)); lia. }
  symmetry. case_bool_decide; symmetry; [apply Z.ltb_lt|apply Z.ltb_ge]; destruct (Z.leb_spec 0 (q + 1)); lia.
Qed.

(** ** Decoding a big integer *)

Lemma drop_zero_bytes_spec l : drop_zero_bytes l = [] ∨ head (drop_zero_bytes l) ≠ Some 0.
Proof. induction l as [|b l IH]; cbn; [by left|]. destruct (Z.eqb_spec b 0); [done|]. right. simpl. congruence. Qed.

Lemma drop_zero_bytes_suffix l : ∃ k, l = replicate k 0 ++ drop_zero_bytes l.
Proof.
  induction l as [|b l [k IH]]; cbn; [by exists 0%nat|]. destruct (Z.eqb_spec b 0) as [->|]; [|by exists 0%nat].
  exists (S k). cbn. by f_equal.
Qed.

Lemma strip_bytes_spec bs : ∃ k, bs = strip_bytes bs ++ replicate k 0 ∧ (strip_bytes bs = [] ∨ last (strip_bytes bs) ≠ Some 0).
Proof.
  destruct (drop_zero_bytes_suffix (rev bs)) as [k E]. exists k. unfold strip_bytes. split.
  - rewrite <- (rev_involutive bs) at 1. rewrite E at 1. rewrite rev_app_distr. f_equal.
    rewrite rev_alt. apply reverse_replicate.
  - destruct (drop_zero_bytes_spec (rev bs)) as [->|H]; [by left|right]. intros El. apply H.
    destruct (drop_zero_bytes (rev bs)) as [|b l]; [done|]. cbn [rev] in El. by rewrite last_snoc in El.
Qed.

Lemma bval_zeros k : bval (replicate k 0) = 0.
Proof. induction k as [|k IH]; cbn; [done|]. lia. Qed.

Lemma strip_bytes_last bs : bs ≠ [] → last bs ≠ Some 0 → strip_bytes bs = bs.
Proof.
  intros Hn Hl. unfold strip_bytes. destruct (exists_last Hn) as (l & b & ->).
  rewrite last_snoc in Hl. rewrite rev_app_distr. cbn [rev app drop_zero_bytes].
  destruct (Z.eqb_spec b 0); [congruence|]. cbn [rev]. by rewrite rev_involutive.
Qed.

(** The decoder of the big formats returns the term of the number, whatever
    the bytes are, or an error when there is none. *)
Lemma dec_big_spec n neg ep : Forall is_byte ep → (n ≤ length ep)%nat →
  let z := sgnv (negb (neg =? 0)) (bval (take n ep)) in
  if Z.abs z <? big_limit then ∃ t, dec_big n (neg :: ep) = Some (t, drop n ep) ∧ int_term z t
  else dec_big n (neg :: ep) = None.
Proof.
  intros Hb Hn. cbv zeta. set (s := negb (neg =? 0)). unfold dec_big. rewrite (proj2 (Nat.ltb_ge _ _)) by done.
  destruct (strip_bytes_spec (take n ep)) as (k & E & Hs). fold s.
  assert (bval (take n ep) = bval (strip_bytes (take n ep))) as ->.
  { rewrite E at 1. rewrite bval_app, bval_zeros. ring. }
  assert (Forall is_byte (strip_bytes (take n ep))) as Hbs.
  { assert (Forall is_byte (take n ep)) as H by (by apply Forall_take). rewrite E in H. by apply Forall_app in H as [? _]. }
  set (bs := strip_bytes (take n ep)) in *. clearbody bs. destruct (Nat.eqb_spec (length bs) 0) as [E0|E0].
  - destruct bs; [|done]. replace (sgnv s (bval [])) with 0 by (by destruct s).
    rewrite (proj2 (Z.ltb_lt _ _)) by (apply big_limit_lt; pose proof D_BASE_gt; lia).
    rewrite (int_term_not_nil 0) by (by left). eexists. split; [done|]. by left.
  - destruct Hs as [->|Hs]; [done|]. pose proof (bytes_to_big_spec bs s Hbs ltac:(by intros ->) Hs) as H.
    unfold int_result in H. destruct (Z.abs (sgnv s (bval bs)) <? big_limit).
    + rewrite (int_term_not_nil _ _ H). by eexists.
    + by rewrite H.
Qed.

(** A number of [n] bytes needs no more words than the check reserves. *)
Lemma term_words_bytes z t n : int_term z t → Z.abs z < bpow n → 0 ≤ term_words t ≤ 1 + (Z.of_nat n + 8 - 1) / 8.
Proof.
  intros [[_ ->]|[Hs (v & -> & Hv & Ea & Hl)]] Hz; cbn [term_words small_term].
  { pose proof (Z.div_pos (Z.of_nat n + 8 - 1) 8). lia. }
  destruct (bignum_header_spec (z <? 0) (Z.of_nat (length v))) as (_ & _ & ->); [lia|].
  set (m := Z.to_nat ((Z.of_nat n + 8 - 1) / 8)).
  pose proof (Z.div_mod (Z.of_nat n + 8 - 1) 8 ltac:(done)) as Em. pose proof (Z.mod_pos_bound (Z.of_nat n + 8 - 1) 8 ltac:(done)).
  pose proof (Z.div_pos (Z.of_nat n + 8 - 1) 8) as Hm.
  assert (0 < n)%nat as Hn.
  { destruct n; [|lia]. change (bpow 0) with 1 in Hz. exfalso. apply Hs. by replace z with 0 by lia. }
  assert (length v ≤ m)%nat; [|lia]. apply nvec_length_le; [done|lia|]. rewrite Ea.
  assert (bpow n ≤ dpow m); [|lia]. rewrite D_BASE_eq. change 256 with (2 ^ 8).
  rewrite <- !Z.pow_mul_r by lia. apply Z.pow_le_mono_r; lia.
Qed.

Lemma big_limit_bytes n : Z.of_nat n ≤ BIG_ARITY_MAX * 8 → bpow n ≤ big_limit.
Proof.
  intros Hn. rewrite big_limit_2. change 256 with (2 ^ 8). rewrite <- Z.pow_mul_r by lia.
  apply Z.pow_le_mono_r; [reflexivity|]. unfold D_EXP. lia.
Qed.

Lemma dec_big_ok n neg ep : Forall is_byte ep → (n ≤ length ep)%nat → Z.of_nat n ≤ BIG_ARITY_MAX * 8 →
  ∃ z t, dec_big n (neg :: ep) = Some (t, drop n ep) ∧ int_term z t ∧
    z = sgnv (negb (neg =? 0)) (bval (take n ep)) ∧ Z.abs z < bpow n.
Proof.
  intros Hb Hn Hl. pose proof (dec_big_spec n neg ep Hb Hn) as H. cbv zeta in H.
  assert (Forall is_byte (take n ep)) as Hbt by (by apply Forall_take). pose proof (bval_bound _ Hbt) as Hv.
  rewrite length_take_le in Hv by done. pose proof (big_limit_bytes n Hl).
  assert (Z.abs (sgnv (negb (neg =? 0)) (bval (take n ep))) < bpow n) as Ha by (unfold sgnv; destruct negb; lia).
  rewrite (proj2 (Z.ltb_lt _ _)) in H by lia. destruct H as (t & E & Ht). by eexists _, t.
Qed.

(** ** The check before decoding *)

Lemma SKIP2_spec sz1 sz2 ep r : 0 ≤ sz1 < 2 ^ 32 → 0 < sz2 < 8 → SKIP2 sz1 sz2 ep = Some r →
  sz1 + sz2 ≤ Z.of_nat (length ep) ∧ r = drop (Z.to_nat (sz1 + sz2)) ep.
Proof.
  intros H1 H2. unfold SKIP2. rewrite wrapu_small by lia.
  destruct ((sz1 <? _) && _) eqn:E; [|done]. intros [= <-]. apply andb_prop in E as [_ E%Z.leb_le]. done.
Qed.

(** What is left when the check reserves memory for the bytes of a term: it
    is decoded within those bytes, to the term of an integer that fits in the
    memory. *)
Definition decodes (ep : list Z) (w : Z) (rest : list Z) : Prop :=
  ∃ z t, dec_int ep = Some (t, rest) ∧ int_term z t ∧ term_words t ≤ w.

Lemma s32_nat n : 0 ≤ n < 2 ^ 31 → s32 n = n.
Proof. intros. apply wraps_small; lia. Qed.

Lemma decoded_int_size_ok ep w rest : Forall is_byte ep → decoded_int_size ep = Some (w, rest) → decodes ep w rest.
Proof.
  intros Hb. unfold decoded_int_size, decodes, dec_int. destruct ep as [|tag ep]; [done|].
  apply Forall_cons in Hb as [_ Hb].
  destruct (tag =? INTEGER_EXT).
  { destruct ep as [|b0 [|b1 [|b2 [|b3 ep]]]]; try done. intros [= <- <-]. pose proof (get_int32_range b0 b1 b2 b3).
    eexists (get_int32 b0 b1 b2 b3), _. split; [done|]. split; [|done]. left. split; [|done].
    unfold in_small. change MIN_SMALL with (- 2 ^ 59). change MAX_SMALL with (2 ^ 59 - 1). lia. }
  destruct (tag =? SMALL_INTEGER_EXT).
  { destruct ep as [|n ep]; [done|]. intros [= <- <-]. apply Forall_cons in Hb as [Hn _]. unfold is_byte in Hn.
    eexists n, _. split; [done|]. split; [|done]. left. split; [|done].
    unfold in_small. change MIN_SMALL with (- 2 ^ 59). change MAX_SMALL with (2 ^ 59 - 1). lia. }
  destruct (tag =? SMALL_BIG_EXT).
  { destruct ep as [|n ep]; [done|]. pose proof (Forall_inv Hb) as Hn. unfold is_byte in Hn.
    destruct (SKIP2 n (1 + 1) (n :: ep)) as [r|] eqn:E; cbn [mbind option_bind]; [|done]. intros [= <- <-].
    apply SKIP2_spec in E as [Hl ->]; [|lia|lia]. destruct ep as [|neg ep]; [simpl in Hl; lia|].
    do 2 apply Forall_cons in Hb as [_ Hb]. cbn [length] in Hl.
    destruct (dec_big_ok (Z.to_nat n) neg ep) as (z & t & -> & Ht & _ & Hz); [done|lia|change BIG_ARITY_MAX with 65535; lia|].
    replace (Z.to_nat (n + (1 + 1))) with (S (S (Z.to_nat n))) by lia. exists z, t. split_and!; [done|done|].
    pose proof (term_words_bytes z t _ Ht Hz) as Hw. rewrite Z2Nat.id in Hw by lia. lia. }
  destruct (tag =? LARGE_BIG_EXT); [|done].
  destruct ep as [|b0 [|b1 [|b2 [|b3 ep]]]]; try done.
  pose proof (get_int32_range b0 b1 b2 b3) as Hr. set (g := get_int32 b0 b1 b2 b3) in *. set (n := wrapu 32 g) in *.
  destruct (Z.ltb_spec (BIG_ARITY_MAX * 8) n) as [|Hn]; [done|].
  pose proof (wrapu_range 32 g ltac:(done)) as Hn0. fold n in Hn0. change BIG_ARITY_MAX with 65535 in Hn.
  assert (g = n) as Eg.
  { unfold n in *. unfold wrapu in *. clear -Hr Hn. destruct (Z.lt_ge_cases g 0); [|symmetry; apply Z.mod_small; lia].
    rewrite <- (Z.mod_unique_pos g (2 ^ 32) (-1) (g + 2 ^ 32)) in Hn by lia. lia. }
  destruct (SKIP2 n (4 + 1) _) as [r|] eqn:E; cbn [mbind option_bind]; [|done]. intros [= <- <-].
  apply SKIP2_spec in E as [Hl ->]; [|lia|lia]. destruct ep as [|neg ep]; [simpl in Hl; lia|].
  do 5 apply Forall_cons in Hb as [_ Hb]. cbn [length] in Hl. rewrite Eg.
  destruct (dec_big_ok (Z.to_nat n) neg ep) as (z & t & -> & Ht & _ & Hz); [done|lia|change BIG_ARITY_MAX with 65535; lia|].
  replace (Z.to_nat (n + (4 + 1))) with (5 + Z.to_nat n)%nat by lia. exists z, t. split_and!; [done|done|].
  pose proof (term_words_bytes z t _ Ht Hz) as Hw. rewrite Z2Nat.id in Hw by lia. lia.
Qed.

(** ** Encoding and decoding *)

Lemma count_bytes_le fuel d : (count_bytes fuel d ≤ fuel)%nat.
Proof. revert d. induction fuel as [|fuel IH]; intros d; cbn; [done|]. destruct (d =? 0); [lia|]. specialize (IH (Z.shiftr d 8)). lia. Qed.

Lemma big_bytes_le z x : big_term z x → (big_bytes x ≤ 8 * BIG_SIZE x)%nat.
Proof.
  intros Hb. destruct (big_term_fields z x Hb) as (v & _ & _ & E & _ & Hv & _).
  pose proof (vec_length v ltac:(eauto with big)). unfold big_bytes. cbv zeta.
  pose proof (count_bytes_le 8 (dnth (BIG_V x) (BIG_SIZE x - 1))). lia.
Qed.

(** The sign and the bytes of a bignum, however their number was encoded. *)
Lemma dec_big_round z x t : big_term z x → z ≠ 0 → int_term z t →
  ∃ bs, big_to_bytes x = Some bs ∧ length bs = big_bytes x ∧ Forall is_byte bs ∧
    ∀ rest, dec_big (length bs) (cbool (BIG_SIGN x) :: bs ++ rest) = Some (t, rest).
Proof.
  intros Hb Hz Ht. destruct (bytes_round_trip z x Hb Hz) as (bs & E & Hl & Hbs & Hn & Hlast & Hi).
  exists bs. split_and!; [done..|]. intros rest. unfold dec_big.
  rewrite (proj2 (Nat.ltb_ge _ _)) by (rewrite length_app; lia).
  rewrite take_app_length, drop_app_length, strip_bytes_last by done.
  rewrite (proj2 (Nat.eqb_neq _ _)) by (destruct bs; [done|simpl; lia]).
  destruct (big_term_fields z x Hb) as (_ & _ & -> & _).
  replace (negb (cbool (z <? 0) =? 0)) with (z <? 0) by (by destruct (z <? 0)).
  rewrite (int_term_not_nil _ _ Hi). by rewrite (int_term_unique z _ _ Hi Ht).
Qed.

Lemma put_int8_small n : 0 ≤ n < 256 → put_int8 n = [n].
Proof. intros Hn. unfold put_int8. rewrite land_byte, Z.mod_small by done. done. Qed.

Lemma dec_small_big n ep : dec_int (SMALL_BIG_EXT :: n :: ep) = dec_big (Z.to_nat n) ep.
Proof. done. Qed.

Definition ext_round_trip (t : eterm) : Prop :=
  ∃ bs, enc_int t = Some bs ∧ Z.of_nat (length bs) = encode_int_size t ∧ Forall is_byte bs ∧
    ∀ rest, dec_int (bs ++ rest) = Some (t, rest).

Lemma cbool_byte b : is_byte (cbool b).
Proof. by destruct b. Qed.

Lemma enc_small_round z t : int_term z t → in_small z → ext_round_trip t.
Proof.
  intros Ht Hs. destruct (int_term_small z t Ht Hs) as [E1 E2].
  assert (t = small_term z) as -> by (apply (int_term_unique z); [done|by left]).
  unfold ext_round_trip, enc_int, encode_int_size. rewrite E1, E2. pose proof (in_small_abs z Hs) as Ha.
  destruct (Z.ltb_spec (u64 z) 256) as [H8|H8].
  { assert (0 ≤ z < 256).
    { destruct (Z.lt_ge_cases z 0); [|rewrite wrapu_small in H8 by lia; lia].
      assert (u64 z = z + 2 ^ 64) as E by (unfold wrapu; symmetry; apply (Z.mod_unique_pos _ _ (-1)); lia). lia. }
    rewrite put_int8_small by done. eexists. split_and!; [done|done| |done].
    constructor; [done|]. constructor; [done|constructor]. }
  rewrite IS_SSMALL32_spec by lia. case_bool_decide as H32.
  { destruct (put_int32_spec z) as (b0 & b1 & b2 & b3 & -> & Hb & Eg). eexists. split_and!; [done|done| |].
    - by constructor.
    - intros rest. cbn [app]. unfold dec_int. change (INTEGER_EXT =? INTEGER_EXT) with true. cbv iota.
      rewrite Eg, wraps_small by lia. done. }
  pose proof (small_to_big_spec z ltac:(lia)) as Hb.
  destruct (dec_big_round z _ (small_term z) Hb) as (bs & -> & Hl & Hbs & Hd); [|by left|].
  { intros ->. change (u64 0) with 0 in H8. lia. }
  pose proof (big_bytes_le z _ Hb) as Hle. assert (BIG_SIZE (small_to_big z) = 1%nat) as Es.
  { unfold small_to_big. by destruct (0 <=? z). }
  rewrite Es in Hle. rewrite put_int8_small by lia. eexists. split_and!; [done| | |].
  - cbn [app length]. lia.
  - cbn [app]. constructor; [done|]. constructor; [unfold is_byte; lia|]. constructor; [apply cbool_byte|done].
  - intros rest. cbn [app]. rewrite dec_small_big, Nat2Z.id, <- Hl. apply Hd.
Qed.

Lemma enc_big_round z t : int_term z t → ¬ in_small z → ext_round_trip t.
Proof.
  intros Ht Hs. destruct (int_term_big z t Ht Hs) as [Hb E1].
  unfold ext_round_trip, enc_int, encode_int_size. rewrite E1.
  destruct (dec_big_round z t t Hb) as (bs & -> & Hl & Hbs & Hd); [intros ->; by apply Hs|done|].
  pose proof (big_bytes_le z t Hb) as Hle. destruct (big_term_fields z t Hb) as (v & _ & _ & Es & _ & _ & _ & Hlv & _).
  rewrite Es in Hle. change BIG_ARITY_MAX with 65535 in Hlv. rewrite <- Hl in *.
  destruct (Z.ltb_spec (Z.of_nat (length bs)) 256).
  - rewrite put_int8_small by lia. eexists. split_and!; [done| | |].
    + cbn [app length]. lia.
    + cbn [app]. constructor; [done|]. constructor; [unfold is_byte; lia|]. constructor; [apply cbool_byte|done].
    + intros rest. cbn [app]. rewrite dec_small_big, Nat2Z.id. apply Hd.
  - destruct (put_int32_spec (Z.of_nat (length bs))) as (b0 & b1 & b2 & b3 & -> & Hp & Eg).
    rewrite s32_nat in Eg by lia. eexists. split_and!; [done| | |].
    + cbn [app length]. lia.
    + cbn [app]. constructor; [done|]. apply (Forall_app is_byte [b0; b1; b2; b3]). split; [done|].
      constructor; [apply cbool_byte|done].
    + intros rest. cbn [app]. change (dec_int (LARGE_BIG_EXT :: b0 :: b1 :: b2 :: b3 :: cbool (BIG_SIGN t) :: bs ++ rest))
        with (dec_big (Z.to_nat (get_int32 b0 b1 b2 b3)) (cbool (BIG_SIGN t) :: bs ++ rest)).
      rewrite Eg, Nat2Z.id. apply Hd.
Qed.
