(* ===== verification/BigThms.v ===== *)
(** The properties of the integer arithmetic: the fast algorithms are the
    schoolbook ones, the operators on terms are the operations on integers up
    to the limit of the representation, and the external format of integers
    can be decoded again. *)

From S2P Require Import Prelude ErlTerm BigDigit BigVec BigMul BigDiv BigShift BigBz BigBits BigTerm BigOps BigConv ErlArith ExtInt.
From stdpp Require Import base numbers option list.
From Stdlib Require Import ZArith Lia.

#[local] Open Scope Z_scope.

(** Memory that was not written to. *)
Definition unwritten (n : nat) : list Z := replicate n 170.

Lemma unwritten_ok n : digits (unwritten n) ∧ length (unwritten n) = n.
Proof. split; [apply Forall_replicate; by vm_compute|apply length_replicate]. Qed.

(** ** The fast algorithms *)

(** C11: The Karatsuba recursion ends, whatever its memory holds, with the
    digits of the schoolbook product. *)
Theorem karatsuba_is_schoolbook tmp_heap (same : bool) x y r r' :
  (∀ n, digits (tmp_heap n) ∧ length (tmp_heap n) = n) →
  nvec x → nvec y → 0 < dval x → 0 < dval y → (length y ≤ length x)%nat → (same → x = y) →
  digits r → (length x + length y ≤ length r)%nat → digits r' → (length x + length y ≤ length r')%nat →
  I_mul_karatsuba tmp_heap (length x) same x y r = Some (I_mul x y r').
Proof.
  intros Hheap Hx Hy Px Py Hl Hs Hr Hlr Hr' Hlr'.
  destruct (I_mul_karatsuba_spec tmp_heap Hheap (length x) same x y r) as (z & -> & _ & E & _ & Hn); try done.
  destruct (I_mul_spec x y r') as (_ & E' & _ & Hn'); eauto with big.
  f_equal. apply nvec_inj; [auto|auto|congruence].
Qed.

Lemma karatsuba_is_schoolbook_witness :
  I_mul_karatsuba unwritten 20 false (replicate 20 D_MASK) (replicate 17 3) (unwritten 40) =
  Some (I_mul (replicate 20 D_MASK) (replicate 17 3) (replicate 37 0)).
Proof.
  apply (karatsuba_is_schoolbook unwritten false (replicate 20 D_MASK) (replicate 17 3) (unwritten 40) (replicate 37 0)).
  - apply unwritten_ok.
  - apply nvec_last. split; [apply Forall_replicate, digit_mask|]. split; [done|]. by left.
  - apply nvec_last. split; [apply Forall_replicate; by vm_compute|]. split; [done|]. by left.
  - by vm_compute.
  - by vm_compute.
  - cbn. lia.
  - done.
  - apply unwritten_ok.
  - cbn. lia.
  - apply digits_zeros.
  - cbn. lia.
Defined.

(** C9: The recursive division ends with the quotient and the remainder of the
    schoolbook division, which ends too. *)
Theorem bz_is_schoolbook tmp_heap x y :
  (∀ n, digits (tmp_heap n) ∧ length (tmp_heap n) = n) →
  nvec x → nvec y → (BZ_DIV_THRESHOLD ≤ length y)%nat → dval y ≤ dval x → Z.of_nat (length x) < 2 ^ 40 →
  ∃ q r, I_div_bz tmp_heap x y = Some (q, r) ∧ I_div x y = Some (q, r) ∧
    dval q = dval x / dval y ∧ dval r = dval x mod dval y.
Proof.
  intros Hheap Hx Hy H8 Hle Hmem. pose proof (nvec_le_length y x Hy Hx Hle) as Hlen.
  unfold BZ_DIV_THRESHOLD in H8.
  destruct (I_div_bz_spec tmp_heap Hheap x y) as (q & r & E & Hq & Hr & Ev & Hlt); try done.
  destruct (I_div_nvec x y) as (q' & r' & E' & Hq' & Hr' & Ev' & Hlt'); try done; [lia|].
  pose proof (dval_nonneg r ltac:(eauto with big)). pose proof (dval_nonneg r' ltac:(eauto with big)).
  assert (dval q = dval x / dval y ∧ dval r = dval x mod dval y) as [Dq Dr].
  { split; [apply (Z.div_unique_pos _ _ _ (dval r))|apply (Z.mod_unique_pos _ _ (dval q))]; lia. }
  assert (dval q' = dval x / dval y ∧ dval r' = dval x mod dval y) as [Dq' Dr'].
  { split; [apply (Z.div_unique_pos _ _ _ (dval r'))|apply (Z.mod_unique_pos _ _ (dval q'))]; lia. }
  assert (q' = q) as -> by (apply nvec_inj; [done|done|congruence]).
  assert (r' = r) as -> by (apply nvec_inj; [done|done|congruence]). by exists q, r.
Qed.

Lemma bz_is_schoolbook_witness :
  ∃ q r, I_div_bz unwritten (replicate 40 D_MASK) (replicate 16 7) = Some (q, r) ∧
    I_div (replicate 40 D_MASK) (replicate 16 7) = Some (q, r) ∧
    dval q = dval (replicate 40 D_MASK) / dval (replicate 16 7) ∧
    dval r = dval (replicate 40 D_MASK) mod dval (replicate 16 7).
Proof.
  apply (bz_is_schoolbook unwritten).
  - apply unwritten_ok.
  - apply nvec_last. split; [apply Forall_replicate, digit_mask|]. split; [done|]. by left.
  - apply nvec_last. split; [apply Forall_replicate; by vm_compute|]. split; [done|]. by left.
  - unfold BZ_DIV_THRESHOLD. cbn. lia.
  - by vm_compute.
  - done.
Defined.

(** ** Terms *)

(** C27: Normalisation gives the only term of a number, with [NIL] for a number
    of more than 65535 digits; so equal bignums compare as equal and are the
    same words, and others compare as their numbers do. *)
Theorem big_norm_canonical s x : nvec x →
  (dval x < big_limit →
     int_term (sgnv s (dval x)) (big_norm x s) ∧ ∀ t, int_term (sgnv s (dval x)) t → t = big_norm x s) ∧
  (big_limit ≤ dval x → big_norm x s = Word NIL) ∧
  ∀ a b t u, big_term a t → big_term b u →
    big_comp t u = sgn_comparison (a ?= b) ∧ (big_comp t u = 0 → t = u).
Proof.
  intros Hx. pose proof (big_norm_spec s x _ Hx eq_refl) as H. unfold int_result in H.
  pose proof (dval_nonneg x ltac:(eauto with big)).
  assert (Z.abs (sgnv s (dval x)) = dval x) as E by (unfold sgnv; destruct s; lia). rewrite E in H. split_and!.
  - intros Hlt. rewrite (proj2 (Z.ltb_lt _ _) Hlt) in H. split; [done|]. intros t Ht. by eapply int_term_unique.
  - intros Hge. by rewrite (proj2 (Z.ltb_ge _ _) Hge) in H.
  - intros a b t u Ha Hb. rewrite (big_comp_spec a b t u Ha Hb). split; [done|].
    destruct (Z.compare_spec a b) as [->| |]; [|done..]. intros _. by apply (big_term_unique b).
Qed.

Lemma big_norm_canonical_witness :
  int_term (- 2 ^ 64) (big_norm [0; 1] true) ∧ int_term (- 5) (big_norm [5] true).
Proof.
  assert (nvec [0; 1] ∧ nvec [5]) as [H2 H1].
  { split; apply nvec_last; (split; [repeat (constructor; [by vm_compute|]); constructor|split; [done|by left]]). }
  split.
  - apply (big_norm_canonical true [0; 1] H2). pose proof (big_limit_pow 2 ltac:(done)) as Hl.
    rewrite D_BASE_eq in Hl. change (dval [0; 1]) with (2 ^ 64). lia.
  - apply (big_norm_canonical true [5] H1). apply big_limit_lt. rewrite D_BASE_eq. change (dval [5]) with 5. lia.
Defined.

(** ** The operators *)

Section arith.

Context (tmp_heap : nat → list Z) (Hheap : ∀ n, digits (tmp_heap n) ∧ length (tmp_heap n) = n).

(** C10: Sums, differences, negations, products and the fused product and sum
    of integer terms are the terms of the exact integers, or the error
    [SYSTEM_LIMIT] when these have too many digits; all of them end. *)
Theorem mixed_arith_exact a b c x y z (same : bool) :
  int_term a x → int_term b y → int_term c z → (same → x = y) →
  arith_int (a + b) (erts_mixed_plus x y) ∧
  arith_int (a - b) (erts_mixed_minus x y) ∧
  (∃ t, erts_unary_minus x = Val t ∧ int_term (- a) t) ∧
  (∃ r, erts_mixed_times tmp_heap same x y = Some r ∧ arith_int (a * b) r) ∧
  (∃ r, erts_mul_add tmp_heap same x y z = Some (r, None) ∧ arith_int (a * b + c) r).
Proof using Hheap.
  intros Ha Hb Hc Hs. split_and!.
  - by apply erts_mixed_plus_spec.
  - by apply erts_mixed_minus_spec.
  - by apply erts_unary_minus_spec.
  - by apply erts_mixed_times_spec.
  - by apply erts_mul_add_spec.
Qed.

(** C8: Integer division and remainder round towards zero, for any sizes and
    signs of the operands, and end; a divisor of zero is [BADARITH]. *)
Theorem int_div_rem_exact a b x y : int_term a x → int_term b y →
  ∃ q r, intdiv_2 tmp_heap x y = Some q ∧ rem_2 tmp_heap x y = Some r ∧
    if decide (b = 0) then q = Err BADARITH ∧ r = Err BADARITH
    else arith_int (Z.quot a b) q ∧ arith_int (Z.rem a b) r.
Proof using Hheap.
  intros Ha Hb. destruct (intdiv_2_spec tmp_heap Hheap a b x y Ha Hb) as (q & Eq & Hq).
  destruct (rem_2_spec tmp_heap Hheap a b x y Ha Hb) as (r & Er & Hr).
  exists q, r. split_and!; [done..|]. by destruct (decide (b = 0)).
Qed.

End arith.

(** The least magnitude of two digits, and its negation less one. *)
Lemma sample_terms : int_term (2 ^ 64) (term_of 2 (2 ^ 64)) ∧ int_term (- 2 ^ 64 - 1) (term_of 2 (- 2 ^ 64 - 1)) ∧
  int_term (-7) (small_term (-7)).
Proof. split_and!; [apply term_of_spec; [lia|done|by vm_compute]..|by left]. Qed.

Lemma arith_int_small z r : Z.abs z < 2 ^ 256 → arith_int z r → ∃ t, r = Val t ∧ int_term z t.
Proof.
  intros Hz. unfold arith_int. rewrite (proj2 (Z.ltb_lt _ _)); [done|].
  pose proof (big_limit_pow 4 ltac:(done)) as H. rewrite D_BASE_eq in H. change ((2 ^ 64) ^ 4) with (2 ^ 256) in H. lia.
Qed.

Lemma mixed_arith_exact_witness :
  erts_mixed_times unwritten false (term_of 2 (2 ^ 64)) (term_of 2 (- 2 ^ 64 - 1)) =
    Some (Val (Boxed (make_neg_bignum_header 3) [0; 1; 1])) ∧
  ∃ t, erts_mixed_plus (term_of 2 (2 ^ 64)) (term_of 2 (- 2 ^ 64 - 1)) = Val t ∧ int_term (-1) t.
Proof.
  destruct sample_terms as (Ha & Hb & Hc). split; [by vm_compute|].
  destruct (mixed_arith_exact unwritten unwritten_ok _ _ _ _ _ _ false Ha Hb Hc) as (H & _); [done|].
  apply arith_int_small in H; [exact H|done].
Defined.

Lemma int_div_rem_exact_witness :
  intdiv_2 unwritten (term_of 2 (- 2 ^ 64 - 1)) (small_term (-7)) = Some (Val (small_to_big 2635249153387078802)) ∧
  ∃ q r, intdiv_2 unwritten (term_of 2 (- 2 ^ 64 - 1)) (small_term (-7)) = Some q ∧
    rem_2 unwritten (term_of 2 (- 2 ^ 64 - 1)) (small_term (-7)) = Some r ∧
    ∃ t, r = Val t ∧ int_term (-3) t.
Proof.
  destruct sample_terms as (Ha & Hb & Hc). split; [by vm_compute|].
  destruct (int_div_rem_exact unwritten unwritten_ok _ _ _ _ Hb Hc) as (q & r & Eq & Er & _ & H).
  exists q, r. split; [done|]. split; [done|]. apply arith_int_small in H; [exact H|done].
Defined.

(** [band] has too many digits only when both operands are negative, and then by one. *)
Lemma land_limit a b : Z.abs a < big_limit → Z.abs b < big_limit →
  Z.abs (Z.land a b) < big_limit ∨ a < 0 ∧ b < 0 ∧ Z.land a b = - big_limit.
Proof.
  intros Ha Hb. rewrite big_limit_2 in *. assert (HN : 0 ≤ D_EXP * BIG_ARITY_MAX) by done.
  generalize dependent (D_EXP * BIG_ARITY_MAX). intros N Ha Hb HN.
  assert (Hpos : ∀ x y, 0 ≤ x → x < 2 ^ N → Z.abs (Z.land x y) < 2 ^ N).
  { intros x y Hx Hx2. pose proof (Z.land_nonneg x y) as Hnn. rewrite Z.abs_eq by tauto.
    rewrite <- (Z.mod_small x (2 ^ N)) by lia. rewrite <- Z.land_ones, <- Z.land_assoc, (Z.land_comm (Z.ones N)), Z.land_assoc, Z.land_ones by done.
    apply Z.mod_pos_bound. by apply Z.pow_pos_nonneg. }
  destruct (Z.lt_ge_cases a 0) as [Ha0|Ha0]; [|left; apply Hpos; lia].
  destruct (Z.lt_ge_cases b 0) as [Hb0|Hb0]; [|left; rewrite Z.land_comm; apply Hpos; lia].
  assert (Hl : - 2 ^ N ≤ Z.land a b < 0).
  { assert (Hlo : 0 ≤ Z.lor (Z.lnot a) (Z.lnot b) < 2 ^ N).
    { split; [apply Z.lor_nonneg; unfold Z.lnot; lia|].
      assert (Hm : ∀ x, 0 ≤ x < 2 ^ N → Z.land x (Z.ones N) = x) by (intros x Hx; rewrite Z.land_ones by done; by apply Z.mod_small).
      rewrite <- (Hm (Z.lnot a)), <- (Hm (Z.lnot b)) by (unfold Z.lnot; lia).
      rewrite <- Z.land_lor_distr_l, Z.land_ones by done. apply Z.mod_pos_bound. by apply Z.pow_pos_nonneg. }
    rewrite <- (Z.lnot_involutive (Z.land a b)), Z.lnot_land. unfold Z.lnot at 1 4. lia. }
  rewrite Z.abs_neq by lia. destruct (Z.eq_dec (Z.land a b) (- 2 ^ N)); [by right|left; lia].
Qed.

(** C13: The bitwise operators are those of integers in two's complement, whatever
    the sizes and signs of the operands, as long as the result has at most 65535
    digits, which that of [bor] always has. Beyond that [bxor] and [bnot] fail with
    [SYSTEM_LIMIT], and [band], for two negative operands and the one result
    [- big_limit], returns [NIL], which the code asserts not to happen. *)
Theorem bit_operators_exact a b x y : int_term a x → int_term b y →
  (Z.abs (Z.land a b) < big_limit → ∃ t, band_2 x y = Val t ∧ int_term (Z.land a b) t) ∧
  (big_limit ≤ Z.abs (Z.land a b) → a < 0 ∧ b < 0 ∧ Z.land a b = - big_limit ∧ band_2 x y = Val (Word NIL)) ∧
  (∃ t, bor_2 x y = Val t ∧ int_term (Z.lor a b) t) ∧
  arith_int (Z.lxor a b) (bxor_2 x y) ∧
  arith_int (Z.lnot a) (bnot_1 x).
Proof.
  intros Ha Hb. destruct (band_2_spec _ _ _ _ Ha Hb) as (t & E & Ht). unfold int_result in Ht. split_and!.
  - intros Hlt. rewrite (proj2 (Z.ltb_lt _ _)) in Ht by done. by exists t.
  - intros Hge. rewrite (proj2 (Z.ltb_ge _ _)) in Ht by done. subst t.
    pose proof (land_limit a b (int_term_abs _ _ Ha) (int_term_abs _ _ Hb)) as [Hlt|(H1 & H2 & H3)].
    + exfalso. exact (Zlt_not_le _ _ Hlt Hge).
    + exact (conj H1 (conj H2 (conj H3 E))).
  - by apply bor_2_spec.
  - by apply bxor_2_spec.
  - by apply bnot_1_spec.
Qed.

Lemma bit_operators_exact_witness :
  band_2 (term_of 2 (2 ^ 64)) (small_term (-7)) = Val (Boxed (make_pos_bignum_header 2) [0; 1]) ∧
  ∃ t, bor_2 (term_of 2 (2 ^ 64)) (small_term (-7)) = Val t ∧ int_term (-7) t.
Proof.
  destruct sample_terms as (Ha & Hb & Hc). split; [by vm_compute|].
  destruct (bit_operators_exact _ _ _ _ Ha Hc) as (_ & _ & H & _). exact H.
Defined.

(** C12: A shift of an integer by any integer, a bignum included, is the shift
    of two's complement numbers, rounding down to the right; the error
    [SYSTEM_LIMIT] comes for too many digits only. *)
Theorem shifts_exact a b x y : int_term a x → int_term b y →
  arith_int (Z.shiftl a b) (erts_bsl x y) ∧ arith_int (Z.shiftr a b) (erts_bsr x y).
Proof. intros Ha Hb. split; [by apply erts_bsl_spec|by apply erts_bsr_spec]. Qed.

Lemma shifts_exact_witness :
  erts_bsr (term_of 2 (- 2 ^ 64 - 1)) (small_term 1) = Val (Boxed (make_neg_bignum_header 1) [2 ^ 63 + 1]) ∧
  ∃ t, erts_bsl (term_of 2 (2 ^ 64)) (small_term (-7)) = Val t ∧ int_term (2 ^ 57) t.
Proof.
  destruct sample_terms as (Ha & Hb & Hc). split; [by vm_compute|].
  destruct (shifts_exact _ _ _ _ Ha Hc) as [H _]. apply arith_int_small in H; [exact H|done].
Defined.

Lemma land_even k : Z.land (1 - (2 * k + 2)) (-2) = - (2 * k + 2).
Proof.
  replace (1 - (2 * k + 2)) with (Z.lnot (k * 2 ^ 1)) by (unfold Z.lnot; lia).
  change (-2) with (Z.lnot 1). rewrite <- Z.lnot_lor, (lor_high_low k 1 1) by done. unfold Z.lnot. lia.
Qed.

Lemma big_limit_even : ∃ k, big_limit = 2 * k + 2.
Proof.
  rewrite big_limit_2. rewrite <- (Z.succ_pred (D_EXP * BIG_ARITY_MAX)), Z.pow_succ_r by done.
  generalize (2 ^ Z.pred (D_EXP * BIG_ARITY_MAX)). intros p. exists (p - 1). lia.
Qed.

(** C37: The least integer that has a term, [1 - big_limit] with 65535 digits, and -2
    have a [band] of one digit more, for which the operator returns the empty list. *)
Theorem band_too_big_is_nil :
  ∃ x, int_term (1 - big_limit) x ∧ band_2 x (small_term (-2)) = Val (Word NIL).
Proof.
  pose proof (big_limit_pow 1 ltac:(done)) as Hl. pose proof D_BASE_gt.
  destruct (int_term_exists (1 - big_limit)) as [x Hx]; [lia|]. exists x. split; [done|].
  destruct (band_2_spec (1 - big_limit) (-2) x (small_term (-2)) Hx ltac:(by left)) as (t & E & Ht).
  assert (Z.land (1 - big_limit) (-2) = - big_limit) as Ez.
  { destruct big_limit_even as [k ->]. apply land_even. }
  rewrite Ez in Ht. unfold int_result in Ht. rewrite (proj2 (Z.ltb_ge _ _)) in Ht by lia. by subst t.
Qed.

(** ** The external format *)

(** C14: Every integer has an encoding, of the size that is computed for it
    beforehand, and decoding that encoding gives the same term and the bytes
    that follow. *)
Theorem ext_int_round_trip z t : int_term z t →
  ∃ bs, enc_int t = Some bs ∧ Z.of_nat (length bs) = encode_int_size t ∧ Forall is_byte bs ∧
    ∀ rest, dec_int (bs ++ rest) = Some (t, rest).
Proof.
  intros Ht. destruct (decide (in_small z)); [by apply (enc_small_round z)|by apply (enc_big_round z)].
Qed.

Lemma ext_int_round_trip_witness :
  enc_int (small_term (-7)) = Some [98; 255; 255; 255; 249] ∧
  enc_int (term_of 2 (2 ^ 64)) = Some [110; 9; 0; 0; 0; 0; 0; 0; 0; 0; 0; 1] ∧
  ∃ bs, enc_int (term_of 2 (2 ^ 64)) = Some bs ∧ dec_int (bs ++ [1; 2]) = Some (term_of 2 (2 ^ 64), [1; 2]).
Proof.
  destruct sample_terms as (Ha & _ & _). split; [by vm_compute|]. split; [by vm_compute|].
  destruct (ext_int_round_trip _ _ Ha) as (bs & E & _ & _ & H). exists bs. split; [done|apply H].
Defined.

(** C15: Whatever bytes come from outside, if the check before decoding accepts
    an integer at their start, it is decoded without reading past the bytes
    that the check passed over, gives the term of an integer in normal form,
    and needs no more heap words than the check counted. *)
Theorem decoded_ints_fit ep w rest : Forall is_byte ep → decoded_int_size ep = Some (w, rest) →
  ∃ z t, dec_int ep = Some (t, rest) ∧ int_term z t ∧ term_words t ≤ w.
Proof. apply decoded_int_size_ok. Qed.

Lemma decoded_ints_fit_witness :
  decoded_int_size [111; 0; 0; 0; 10; 1; 0; 0; 0; 0; 0; 0; 0; 9; 0; 0; 42] = Some (4, [42]) ∧
  ∃ z t, dec_int [111; 0; 0; 0; 10; 1; 0; 0; 0; 0; 0; 0; 0; 9; 0; 0; 42] = Some (t, [42]) ∧ int_term z t ∧ term_words t ≤ 4.
Proof.
  split; [by vm_compute|]. apply decoded_ints_fit; [|by vm_compute].
  repeat (constructor; [by vm_compute|]). constructor.
Defined.
